(* ===== verification/_CoqProject ===== *)
-Q . S2P
Prelude.v
MethodLogic.v
Float64.v
Text.v
Tick.v
Ids.v
Track.v
Cas.v
Cell.v
Concrete.v
Timeline.v
TimelineFacts.v
Advance.v
EngineSpec.v
Termination.v
Block.v
Materialize.v
OrderKey.v
Hydrate.v
BlockContent.v
Convergence.v
Selection.v
BlockStore.v
StoreInv.v
StoreOps.v
StoreOrder.v
StoreDoc.v
StoreFork.v
StoreRestore.v
StoreDemo.v
Wire.v
WirePairing.v
Splice.v
Mailbox.v
Sync.v
SyncInv.v
VfsPath.v
Vfs.v
MemFs.v
MemFsCoherence.v
MemFsTree.v
MemFsCalls.v
Mount.v
MountRoute.v
Activity.v
MountCalls.v
Binding.v
Coalescer.v
McpTypes.v
Broker.v
BrokerOps.v
BrokerCalls.v
BrokerHooks.v
BrokerNames.v
Dag.v
DagWalk.v
Drift.v
DriftQueue.v
DriftLabels.v
Abc.v
Midi.v
MidiPlay.v
MidiSteps.v
MidiFile.v
MidiNotes.v
Transpose.v
MidiTotal.v
LlmStream.v
LlmReassembly.v
LlmRequest.v
KernelStore.v
Replica.v
StoreGrowth.v
Recovery.v
Restart.v
EditLog.v
RestartDemo.v
Beat.v
BeatSteps.v
BeatRuns.v
