(* ===== verification/Prelude.v ===== *)
(** * Kaijutsu, verified

    Kaijutsu ([src/crates/]) is a kernel for conversations that people, models and tools
    share. A conversation is a log of blocks held in a CRDT store and replicated to
    clients; a speculative engine schedules musical and other content on a timeline and
    materializes what commits as blocks; a broker gives contexts the tools of MCP
    servers; a router passes text between contexts; the log is folded into the messages
    of a model, sent to a provider, and the reply comes back as a stream of events. This
    development models these parts as Rocq functions, in the order the code calls them, and
    proves what makes each of them, and their compositions, correct.

    ** Conventions

    - A Rust method with receiver [&mut self] is a [method] (below): a function of the
      state to a result and a state, or [None] for a panic. An early [return Err(e)]
      keeps the writes made before it. [MethodLogic.v] is a program logic for them.
    - A machine integer is a [Z]. Where a release build wraps and the code relies on it,
      so does the model ([Tick.v]); where an overflow would be a defect, the operation is
      partial and a theorem gives the bound within which it is defined. A [u64] counter
      that would take centuries to overflow has its room as a hypothesis.
    - Text is its UTF-8 bytes ([Text.v]); [f64] is binary64 as the Standard Library
      specifies it ([Float64.v]).
    - A [HashMap] is a [gmap]; where the code iterates over one, the order is a parameter
      or the theorem does not depend on it. Shared objects are references into a heap
      ([Mount.v]).
    - The wall clock, fresh random ids and the readings of a connection are arguments.
    - Code outside [src/] is a class with the laws it documents: CBOR, [serde_json], the
      text CRDT [diamond_types_extended], [uuid], [blake3] and [hex], MCP servers (and those
      of the kernel: any server may act on the whole broker during a call), the tables of
      the database, the shell that runs hook scripts and its glob matcher, the
      event-source parser. [Concrete.v], [EditLog.v] and the [*Demo.v] files have executable instances,
      on which every theorem with a hypothesis is applied.
    - Recursion that the code leaves unbounded takes fuel, and a theorem says how much is
      enough: the rounds of [advance_to] ([Termination.v]); [walk_fuel], the edges of the
      conversation, for its traversals ([DagWalk.v]; [MAX_DAG_DEPTH], 512, is the circuit
      breaker of the code); one more than [MAX_HOOK_DEPTH], 4, for calls that hooks make in
      turn ([BrokerCalls.v]); the chunks of [STREAM_CHUNK_SIZE] bytes that a file is
      streamed in ([MemFsCalls.v]); the characters of a key field ([Abc.v]); the five groups
      of seven bits of a 32-bit quantity ([Midi.v]); three turns for each pending wake-up
      ([BeatRuns.v]). The search of a modeled clock for a later beat has no such bound:
      [estimate_hangs]. [next_event] recurs on the readings of
      its connection.

    ** Files

    Shared: this file (results, methods, record updates, lists), [MethodLogic.v],
    [Float64.v], [Text.v], [Concrete.v].

    Types ([kaijutsu-types], [kaijutsu-cas]): [Tick.v] ([tick.rs]), [Ids.v] ([ids.rs],
    prefix resolution), [Track.v] ([track.rs]), [Cas.v] ([hash.rs]), [Block.v] ([block.rs],
    [enums.rs]), [Hydrate.v] ([block.rs], blocks as text under budgets).

    The engine ([kaijutsu-hyoushigi]): [Cell.v] ([cell.rs], [content.rs], [resolver.rs]),
    [Timeline.v] ([engine.rs]: every operation), [Materialize.v] ([materialize.rs]).
    [TimelineFacts.v] and [Advance.v] have the invariant, the write barrier over any history
    of calls, and the absence of panics; [EngineSpec.v] what an action does on each branch;
    [Termination.v] that [advance_to] returns, and a score.

    The store ([kaijutsu-crdt]): [OrderKey.v] (fractional keys), [BlockContent.v]
    ([content.rs]: header and text of a block), [Convergence.v] (the merge of headers is a
    join; freezing and thawing), [Selection.v] ([selection.rs]), [BlockStore.v]
    ([block_store.rs]: every operation). [StoreInv.v] and [StoreOps.v] have the
    invariant, its preservation and the histories of a store; [StoreOrder.v] where an
    insertion goes; [StoreDoc.v], [StoreFork.v], [StoreRestore.v] the document of a store,
    of a fork and of a snapshot read back; [Dag.v], [DagWalk.v] ([dag.rs]) the tree of a
    conversation and its traversals; [StoreDemo.v] small stores.

    The documents of a kernel ([kaijutsu-kernel/src/block_store.rs], and the tables of
    [kernel_db.rs] behind it): [KernelStore.v] (entries, journal, compaction, loading, events,
    live status, validation). [Replica.v]: a store that is fed the payloads of another has
    the same document; [StoreGrowth.v]: the operations a payload carries whole;
    [Recovery.v]: documents in memory and rows in the tables correspond, call by call;
    [Restart.v]: after any history of the calls the journal carries, the end of the
    refinement; [EditLog.v] an executable document crate and codec; [RestartDemo.v] a
    history, and what a restart loses.

    Models ([kaijutsu-kernel/src/llm]): [Wire.v] ([mod.rs], [hydrate.rs]: blocks folded into
    messages, the two repair passes), [WirePairing.v] (tool uses and results are paired),
    [Splice.v] ([splice.rs]), [Mailbox.v] ([mailbox.rs]: the live fold refines the fold of
    the whole log); [LlmRequest.v] ([claude/build.rs], [openai/build.rs] and their types:
    what is sent), [LlmStream.v] ([stream.rs], [sse.rs] and [mod.rs] of both providers: what
    comes back), [LlmReassembly.v] (nothing in it is lost).

    Clients ([kaijutsu-client/src/sync.rs]): [Sync.v], [SyncInv.v], over [BlockStore.v].

    Files ([kaijutsu-kernel/src/vfs]): [VfsPath.v], [Vfs.v] ([types.rs], [error.rs],
    [ops.rs]), [MemFs.v] ([backends/memory.rs]) with [MemFsCoherence.v] (generations),
    [MemFsTree.v] (the tree, what a rename moves and when it leaves a tree) and [MemFsCalls.v] (histories, reading back what was
    written); [Mount.v] ([mount.rs]) with [MountRoute.v] (longest prefix) and [MountCalls.v];
    [Activity.v] ([activity.rs]: cursors and digests under interleaving).

    Tools ([kaijutsu-kernel/src/mcp]): [Binding.v] ([binding.rs]), [Coalescer.v]
    ([coalescer.rs]), [McpTypes.v] ([types.rs], [error.rs], [policy.rs], [context.rs],
    [hook_table.rs]), [Broker.v] and [BrokerOps.v] ([broker.rs]: the pipeline of a call; the
    registry, listings, resources) with [BrokerCalls.v] (calls end; the runs a call is
    allowed, and what servers outside the kernel leave alone), [BrokerHooks.v] (the verdicts
    of hooks), [BrokerNames.v] (visible names; reports of changes).

    Drift ([kaijutsu-kernel/src/drift.rs], [kj/drift.rs]): [Drift.v], [DriftQueue.v] (no drift
    is lost), [DriftLabels.v].

    Music ([kaijutsu-abc]): [Abc.v] ([ast.rs], [parser/key.rs], meters of
    [parser/header.rs]), [Midi.v] and [MidiPlay.v] ([midi.rs]), [Transpose.v] ([lib.rs]) with
    [MidiSteps.v], [MidiTotal.v] (no overflow), [MidiFile.v] (a reader of MIDI files recovers
    the events), [MidiNotes.v] (note-ons and note-offs balance; repeats are written out).
    Small instances of each part stand at the end of its last file.

    The transport ([kaijutsu-server/src/beat.rs], [clock.rs], the knobs of
    [kaijutsu-kernel/src/hyoushigi/mod.rs]): [Beat.v] (every command, event and wake-up of the
    scheduler, its clocks; what the block store, the database and the timeline of a track do
    for it is the class [World]), [BeatSteps.v] (the abstract desk of wake-ups, lanes and
    routes that the scheduler implements; the events that keep a desk orderly), [BeatRuns.v]
    (what follows: a wake-up for every playing track, and one only on an orderly desk; the
    grid of any clock; the end of a wake-up on the kernel's own clocks; where a captured
    batch lands; cells that are passed over; a small world).

    ** What is shown

    - Of one component: invariants that every operation keeps (engine, store, sync manager,
      router, memory backend, registry of labels, hydration machine), the result of each
      operation on every branch, bounds and absence of panics, termination, and round
      trips (snapshots, freezing, files, MIDI, a provider's stream).
    - Of compositions: replicas converge whatever the order of merges; a client in any
      history of events stays on a replica of the server or asks for it again; the live
      conversation sends what the whole log folds to; what is sent to a provider pairs
      every tool message with a call; what a provider sends reaches the block writer
      whole and bracketed; a tool call passes its hooks, its policy and its gate or does
      not reach a server; a drift is delivered, staged or among the dead letters; a
      subscriber that keeps polling learns of every change; a kernel that starts on the
      database of another has its documents, block by block, if only calls that the journal
      carries were made; a transport that is told anything at any time keeps a wake-up for
      every playing track.
    - Examples marked by their comments show where the code departs from its documentation.

    The refinement of [Restart.v] is over calls one after the other, on tables that were
    blank, whose statements succeed, and a codec that writes every payload; each call's own
    errors are part of it. Its histories leave out the calls whose change no payload carries
    and the forks, which [RestartDemo.v] shows to be lost, documents made of a snapshot, and
    the validation of finished music and drawings.

    ** Not modelled

    The RPC of the server, the tables of the database that are not behind documents,
    processes, networks and files on disk, the shell, configuration, rendering, the
    application and its input: their work is done by libraries, and what is their own is glue
    around I/O. Of the transport, the scripts it starts, and inside [World] the bridge that
    writes committed cells into the block store and rebuilds them from it. The legacy single-document CRDT
    is superseded by the store. The parser of whole ABC tunes is built from combinators of
    a library, and the engraver draws. Of the mount table the snapshot walker, and of the
    router the commands of the shell, are left out; so are logging, telemetry and the wording
    of errors. *)

From stdpp Require Export prelude gmap strings sorting list option pretty.
From Stdlib Require Export ZArith Lia.

#[global] Open Scope Z_scope.

(** ** Results, and the state monad of a Rust method

    A Rust method with receiver [&mut self] that returns [Result<A, E>] is a
    function of the state to [option (result E A * S)]: [None] is a panic
    ([assert!], [unwrap], [expect], [unreachable!]); [Some (Err e, s)] is an
    early [return Err(e)] that keeps the writes made before it. *)

Inductive result (E A : Type) : Type :=
  | Ok (a : A)
  | Err (e : E).
Arguments Ok {E A} a.
Arguments Err {E A} e.

Definition method (S E A : Type) : Type := S → option (result E A * S).

Definition m_ret {S E A} (a : A) : method S E A := λ s, Some (Ok a, s).
Definition m_fail {S E A} (e : E) : method S E A := λ s, Some (Err e, s).
Definition m_panic {S E A} : method S E A := λ _, None.
Definition m_get {S E} : method S E S := λ s, Some (Ok s, s).
Definition m_modify {S E} (f : S → S) : method S E () := λ s, Some (Ok tt, f s).

Definition m_bind {S E A B} (m : method S E A) (k : A → method S E B) : method S E B :=
  λ s, match m s with
       | None => None
       | Some (Err e, s') => Some (Err e, s')
       | Some (Ok a, s') => k a s'
       end.

(** A result that the caller looks at instead of passing it on with [?]. *)
Definition m_try {S E A} (f : method S E A) : method S E (result E A) := λ s,
  match f s with Some (r, s') => Some (Ok r, s') | None => None end.

(** [guard b e]: the statement [if !b { return Err(e) }]. *)
Definition m_guard {S E} (b : bool) (e : E) : method S E () :=
  if b then m_ret tt else m_fail e.

(** [assert!(b)]. *)
Definition m_assert {S E} (b : bool) : method S E () :=
  if b then m_ret tt else m_panic.

(** The notations [x ← m; k] and [m;; k] of stdpp read as the statements of the
    method body. *)
#[export] Instance method_ret {S E} : MRet (method S E) := λ A, m_ret.
#[export] Instance method_bind {S E} : MBind (method S E) := λ A B k m, m_bind m k.

(** ** Updating a record field: [r <| field := v |>] *)

Class Settable (R : Type) := eta_record : R → R.
Class Setter {R T : Type} (p : R → T) := set_field : (T → T) → R → R.

Ltac solve_setter :=
  lazymatch goal with
  | |- @Setter ?R ?T ?p =>
      let s := constr:(_ : Settable R) in
      let h := (eval hnf in s) in
      let g := fresh "g" in
      let r := fresh "r" in
      intros g r;
      let body := (eval cbv beta in (h r)) in
      let ctx := (eval pattern (p r) in body) in
      lazymatch ctx with
      | ?f _ => let res := (eval cbv beta in (f (g (p r)))) in exact res
      end
  end.
#[global] Hint Extern 0 (Setter _) => solve_setter : typeclass_instances.
#[global] Hint Mode Setter + + + : typeclass_instances.
#[global] Arguments set_field {R T} p {_} g r /.

Notation "r <| p := v |>" := (set_field p (λ _, v) r)
  (at level 1, left associativity, p at level 99, v at level 200).

(** ** Machine integers *)

Definition two63 : Z := 9223372036854775808.
Definition two64 : Z := 18446744073709551616.
Definition i64_max : Z := 9223372036854775807.
Definition i64_min : Z := -9223372036854775808.
Definition u64_max : Z := 18446744073709551615.

(** Release-build arithmetic wraps at the width. *)
Definition wrap_i64 (z : Z) : Z := (z + two63) mod two64 - two63.
Definition wrap_u64 (z : Z) : Z := z mod two64.

Definition in_i64 (z : Z) : Prop := i64_min ≤ z ≤ i64_max.
Definition in_u64 (z : Z) : Prop := 0 ≤ z ≤ u64_max.

(** [i64::checked_add], [i64::checked_mul]. *)
Definition in_i64b (z : Z) : bool := (i64_min <=? z) && (z <=? i64_max).
Definition checked_i64 (z : Z) : option Z := if in_i64b z then Some z else None.

(** [u64::saturating_sub]. *)
Definition sat_sub (a b : Z) : Z := Z.max 0 (a - b).

(** The conversion of a floating-point integer value by [as i64] saturates. *)
Definition sat_i64 (z : Z) : Z := Z.max i64_min (Z.min i64_max z).

(** ** Lists as [Vec] *)

(** [Vec::swap_remove]: the last element takes the place of the removed one. *)
Definition swap_remove {A} (i : nat) (l : list A) : list A :=
  match last l with
  | None => []
  | Some z => removelast (<[i := z]> l)
  end.

(** [Iterator::max_by_key]: on equal keys the last element wins. *)
Fixpoint max_by_key {A} (key : A → Z) (l : list A) : option A :=
  match l with
  | [] => None
  | x :: l' =>
      match max_by_key key l' with
      | None => Some x
      | Some y => if key x <=? key y then Some y else Some x
      end
  end.

(** The maximum of a list of integers, [Iterator::max]. *)
Definition max_opt (l : list Z) : option Z := max_by_key id l.

(** ** Lemmas: widths *)

Create HintDb kj.
Create Rewrite HintDb kj.
#[export] Hint Unfold in_i64 in_u64 i64_min i64_max u64_max two63 two64 : kj.

Ltac width_lia :=
  unfold wrap_i64, wrap_u64, in_i64, in_u64, sat_i64, sat_sub, i64_min, i64_max,
    u64_max, two63, two64 in *; lia.

Lemma wrap_i64_id z : in_i64 z → wrap_i64 z = z.
Proof. intros. unfold wrap_i64. rewrite Z.mod_small; width_lia. Qed.

Lemma wrap_i64_range z : in_i64 (wrap_i64 z).
Proof.
  pose proof (Z.mod_pos_bound (z + two63) two64). width_lia.
Qed.

Lemma wrap_u64_id z : in_u64 z → wrap_u64 z = z.
Proof. intros. unfold wrap_u64. apply Z.mod_small. width_lia. Qed.

Lemma wrap_u64_range z : in_u64 (wrap_u64 z).
Proof. pose proof (Z.mod_pos_bound z two64). width_lia. Qed.

Lemma checked_i64_Some z r : checked_i64 z = Some r ↔ r = z ∧ in_i64 z.
Proof.
  unfold checked_i64, in_i64b.
  destruct (Z.leb_spec i64_min z), (Z.leb_spec z i64_max); simpl;
    split; intros; simplify_eq; try (split; [done|]); try width_lia;
    destruct_and?; simplify_eq; try done; width_lia.
Qed.

#[export] Hint Resolve wrap_i64_range wrap_u64_range : kj.

(** ** Lemmas: lists *)

Lemma swap_remove_snoc {A} (l : list A) z i :
  swap_remove i (l ++ [z]) =
    if decide (i < length l)%nat then <[i:=z]> l else l.
Proof.
  unfold swap_remove. rewrite last_snoc. case_decide.
  - rewrite insert_app_l by done. by rewrite removelast_last.
  - rewrite insert_app_r_alt by lia.
    destruct (i - length l)%nat as [|n]; simpl; by rewrite removelast_last.
Qed.

Lemma swap_remove_perm {A} (l : list A) i x :
  l !! i = Some x → l ≡ₚ x :: swap_remove i l.
Proof.
  intros Hi. destruct l as [|z l _] using rev_ind; [done|].
  rewrite swap_remove_snoc. case_decide as Hlt.
  - rewrite lookup_app_l in Hi by done.
    rewrite <- (take_drop_middle l i x Hi) at 1.
    rewrite (insert_take_drop l i z) by done.
    solve_Permutation.
  - assert (i = length l) as ->.
    { apply lookup_lt_Some in Hi. rewrite length_app in Hi. simpl in Hi. lia. }
    rewrite list_lookup_middle in Hi by done. simplify_eq.
    by rewrite Permutation_app_comm.
Qed.

Lemma swap_remove_sub {A} (l : list A) i x :
  is_Some (l !! i) → x ∈ swap_remove i l → x ∈ l.
Proof.
  intros [y Hy] Hx. rewrite (swap_remove_perm l i y Hy).
  by apply list_elem_of_further.
Qed.

Lemma max_by_key_Some {A} (key : A → Z) l y :
  max_by_key key l = Some y ↔
  ∃ l1 l2, l = l1 ++ y :: l2 ∧ Forall (λ x, key x ≤ key y) l1 ∧
           Forall (λ x, key x < key y) l2.
Proof.
  revert y. induction l as [|x l IH]; intros y; simpl.
  { split; [done|]. intros ([|]&?&?&_); simplify_eq/=. }
  destruct (max_by_key key l) as [z|] eqn:E.
  - destruct (proj1 (IH z) eq_refl) as (l1&l2&->&H1&H2).
    destruct (Z.leb_spec (key x) (key z)); split.
    + intros [= <-]. exists (x :: l1), l2. naive_solver.
    + intros ([|x' l1']&l2'&Heq&H1'&H2'); simplify_eq/=.
      * apply Forall_app in H2' as [_ [? _]%Forall_cons]. lia.
      * inversion H1'; subst. apply IH. eauto 10.
    + intros [= <-]. exists [], (l1 ++ z :: l2). split; [done|].
      split; [done|]. rewrite Forall_app, Forall_cons.
      split_and!; [|lia|]; eapply Forall_impl; eauto; simpl; lia.
    + intros ([|x' l1']&l2'&Heq&H1'&H2'); simplify_eq/=; [done|].
      assert (Some z = Some y) as [= ->]; [|inversion H1'; lia].
      apply IH. inversion H1'; eauto 10.
  - assert (l = []) as ->.
    { destruct l as [|w l]; [done|]. simpl in E.
      destruct (max_by_key key l); [|done]. by destruct (_ <=? _). }
    split.
    + intros [= <-]. by exists [], [].
    + intros ([|x' l1]&l2&Heq&_); simplify_eq/=; [done|]. by destruct l1.
Qed.

Lemma max_by_key_None {A} (key : A → Z) l : max_by_key key l = None ↔ l = [].
Proof.
  split; [|by intros ->]. destruct l as [|x l]; [done|]; simpl.
  destruct (max_by_key key l); [|done]. by destruct (_ <=? _).
Qed.

(** What [swap_remove] keeps are the elements at the other indices. *)
Lemma swap_remove_elem {A} (l : list A) i y :
  is_Some (l !! i) → y ∈ swap_remove i l → ∃ j, j ≠ i ∧ l !! j = Some y.
Proof.
  intros [x Hi]. destruct l as [|z l _] using rev_ind; [done|].
  rewrite swap_remove_snoc. case_decide as Hlt.
  - intros [j Hj]%list_elem_of_lookup.
    destruct (decide (i = j)) as [<-|Hne].
    + rewrite list_lookup_insert_eq in Hj by done. simplify_eq.
      exists (length l). split; [lia|]. by apply list_lookup_middle.
    + rewrite list_lookup_insert_ne in Hj by done. exists j. split; [done|].
      apply lookup_app_l_Some, Hj.
  - assert (i = length l) as ->.
    { apply lookup_lt_Some in Hi. rewrite length_app in Hi. simpl in Hi. lia. }
    intros [j Hj]%list_elem_of_lookup. exists j. split.
    + apply lookup_lt_Some in Hj. lia.
    + apply lookup_app_l_Some, Hj.
Qed.

Lemma swap_remove_Forall {A} (P : A → Prop) (l : list A) i :
  is_Some (l !! i) → (∀ j x, l !! j = Some x → j ≠ i → P x) →
  Forall P (swap_remove i l).
Proof.
  intros Hi HP. apply Forall_forall. intros y (j&?&?)%swap_remove_elem; eauto.
Qed.

(** What was at the removed index does not matter. *)
Lemma swap_remove_insert {A} (l : list A) i x :
  swap_remove i (<[i := x]> l) = swap_remove i l.
Proof.
  destruct l as [|z l _] using rev_ind; [done|].
  destruct (decide (i < length l)%nat).
  - rewrite insert_app_l, !swap_remove_snoc, length_insert by done.
    rewrite !decide_True by done. by rewrite list_insert_insert_eq.
  - rewrite insert_app_r_alt, (swap_remove_snoc l) by lia.
    rewrite decide_False by done.
    assert (∃ w, <[(i - length l)%nat := x]> [z] = [w]) as [w ->]
      by (destruct (i - length l)%nat; eauto).
    rewrite swap_remove_snoc. by rewrite decide_False.
Qed.

(** Splitting the image of a partial map splits its source. *)
Lemma omap_app_inv {A B} (f : A → option B) l l1 y l2 :
  omap f l = l1 ++ y :: l2 ↔
  ∃ k1 x k2, l = k1 ++ x :: k2 ∧ omap f k1 = l1 ∧ f x = Some y ∧ omap f k2 = l2.
Proof.
  split.
  - revert l1. induction l as [|a l IH]; intros l1; simpl; [by destruct l1|].
    destruct (f a) as [b|] eqn:Ea.
    + destruct l1 as [|c l1]; intros; simplify_eq/=; [by exists [], a, l|].
      destruct (IH l1) as (k1&x&k2&->&<-&?&?); [done|].
      exists (a :: k1), x, k2. simpl. by rewrite Ea.
    + intros Hl. destruct (IH l1 Hl) as (k1&x&k2&->&<-&?&?).
      exists (a :: k1), x, k2. simpl. by rewrite Ea.
  - intros (k1&x&k2&->&<-&Hx&<-). rewrite omap_app; simpl. by rewrite Hx.
Qed.

(** Prefixes, for logs that only grow. *)
Lemma prefix_of_app {A} (l k : list A) : l `prefix_of` l ++ k.
Proof. by exists k. Qed.
#[export] Hint Resolve prefix_of_app : kj.
