(* ===== verification/MethodLogic.v ===== *)
(** * A small program logic for methods

    [triple R P m Q]: started in a state that satisfies [P], the method [m] leaves
    a state related to the first one by [R], whether it returns or fails, and if it
    returns [a], the state satisfies [Q a]. [R] is a preorder that says how the
    state may evolve. A panic has no state to speak of; that a method does not
    panic is [total]. *)

From S2P Require Import Prelude.

(** ** Running a method *)

Lemma bind_ok {S E A B} (m : method S E A) (k : A → method S E B) s a s' :
  m s = Some (Ok a, s') → (m ≫= k) s = k a s'.
Proof. intros Hm. unfold mbind, method_bind, m_bind. by rewrite Hm. Qed.

Lemma bind_err {S E A B} (m : method S E A) (k : A → method S E B) s e s' :
  m s = Some (Err e, s') → (m ≫= k) s = Some (Err e, s').
Proof. intros Hm. unfold mbind, method_bind, m_bind. by rewrite Hm. Qed.

(** ** Triples *)

Section logic.
Context {S E : Type} (R : relation S) `{!PreOrder R}.

Definition triple {A} (P : S → Prop) (m : method S E A) (Q : A → S → Prop) : Prop :=
  ∀ s r s', P s → m s = Some (r, s') →
    R s s' ∧ match r with Ok a => Q a s' | Err _ => True end.

Definition total {A} (P : S → Prop) (m : method S E A) : Prop :=
  ∀ s, P s → m s ≠ None.

Lemma triple_bind {A B} P (m : method S E A) Q (k : A → method S E B) Q' :
  triple P m Q → (∀ a, triple (Q a) (k a) Q') → triple P (m ≫= k) Q'.
Proof.
  intros Hm Hk s r s' HP. unfold mbind, method_bind, m_bind.
  destruct (m s) as [[[a|e] s1]|] eqn:Em; [| |done].
  - destruct (Hm _ _ _ HP Em) as [HR1 HQ]. intros Hk'.
    destruct (Hk a _ _ _ HQ Hk') as [HR2 HQ']. split; [by etrans|done].
  - intros [= <- <-]. by destruct (Hm _ _ _ HP Em).
Qed.

Lemma triple_conseq {A} (P P' : S → Prop) (m : method S E A) Q Q' :
  triple P m Q → (∀ s, P' s → P s) → (∀ a s, Q a s → Q' a s) → triple P' m Q'.
Proof.
  intros Hm HP HQ s r s' Hs Hr. destruct (Hm s r s' (HP s Hs) Hr) as [? HQr].
  split; [done|]. destruct r; auto.
Qed.

Lemma triple_ret {A} (P : S → Prop) (a : A) : triple P (m_ret a) (λ b s, b = a ∧ P s).
Proof. intros s r s' HP [= <- <-]. by split. Qed.

Lemma triple_fail {A} (P : S → Prop) e (Q : A → S → Prop) : triple P (m_fail e) Q.
Proof. intros s r s' HP [= <- <-]. by split. Qed.

Lemma triple_get (P : S → Prop) : triple P m_get (λ a s, a = s ∧ P s).
Proof. intros s r s' HP [= <- <-]. by split. Qed.

Lemma triple_guard (P : S → Prop) b e : triple P (m_guard b e) (λ _ s, b = true ∧ P s).
Proof. destruct b; [|apply triple_fail]. intros s r s' HP [= <- <-]. by split. Qed.

Lemma triple_modify (P : S → Prop) f (Q : () → S → Prop) :
  (∀ s, P s → R s (f s) ∧ Q tt (f s)) → triple P (m_modify f) Q.
Proof. intros Hf s r s' HP [= <- <-]. by apply Hf. Qed.

Lemma triple_pure {A} (P : S → Prop) (φ : Prop) (m : method S E A) Q :
  (φ → triple P m Q) → triple (λ s, φ ∧ P s) m Q.
Proof. intros Hm s r s' [Hφ HP]. by apply Hm. Qed.

(** The state read by [m_get] is the one the continuation starts in. *)
Lemma triple_get_bind {B} P (k : S → method S E B) Q :
  (∀ s0, P s0 → triple (λ s, s = s0) (k s0) Q) → triple P (m_get ≫= k) Q.
Proof. intros Hk s r s' HP Hr. exact (Hk s HP s r s' eq_refl Hr). Qed.
End logic.
