(* ===== verification/Float64.v ===== *)
(** * IEEE binary64 and [std::time::Duration]

    The language's [f64] is the Standard Library's [spec_float] at 53 bits of
    mantissa and exponent bound 1024, so every arithmetic step of the code's
    clocks is rounded as the hardware rounds it. [Duration] is a number of
    nanoseconds. Both are the language and its standard library; nothing of
    [src/] is modelled here. *)

From Stdlib Require Import SpecFloat.
From S2P Require Import Prelude.

(** ** Arithmetic *)

Abbreviation f64 := spec_float.

Definition f64_add : f64 → f64 → f64 := SFadd 53 1024.
Definition f64_sub : f64 → f64 → f64 := SFsub 53 1024.
Definition f64_mul : f64 → f64 → f64 := SFmul 53 1024.
Definition f64_div : f64 → f64 → f64 := SFdiv 53 1024.
Definition f64_leb : f64 → f64 → bool := SFleb.
Definition f64_ltb : f64 → f64 → bool := SFltb.

(** [z as f64] for an integer [z]: rounded to nearest, ties to even. *)
Definition f64_of_Z (z : Z) : f64 := binary_normalize 53 1024 z 0 false.

Definition f64_zero : f64 := S754_zero false.

(** The signed mantissa of a finite number. *)
Definition signed_mantissa (s : bool) (m : positive) : Z :=
  if s then Z.neg m else Z.pos m.

(** The largest integer below, and the least integer above, [± m * 2^e]. *)
Definition floor_Z (s : bool) (m : positive) (e : Z) : Z :=
  if 0 <=? e then signed_mantissa s m * 2 ^ e
  else signed_mantissa s m / 2 ^ (- e).
Definition ceil_Z (s : bool) (m : positive) (e : Z) : Z :=
  - floor_Z (negb s) m e.

(** [f64::floor]. Where the exponent is not negative the number is an integer
    already; elsewhere the result has at most 53 bits, so the conversion back is
    exact. The sign of a zero result is the sign of the argument. *)
Definition f64_floor (x : f64) : f64 :=
  match x with
  | S754_finite s m e =>
      if 0 <=? e then x else binary_normalize 53 1024 (floor_Z s m e) 0 s
  | _ => x
  end.

(** [x.ceil() as i64] and [x as i64]: saturating, [NaN] to zero, towards zero. *)
Definition f64_ceil_i64 (x : f64) : Z :=
  match x with
  | S754_zero _ | S754_nan => 0
  | S754_infinity s => if s then i64_min else i64_max
  | S754_finite s m e => sat_i64 (ceil_Z s m e)
  end.

Definition f64_to_i64 (x : f64) : Z :=
  match x with
  | S754_zero _ | S754_nan => 0
  | S754_infinity s => if s then i64_min else i64_max
  | S754_finite s m e =>
      sat_i64 (if s then ceil_Z s m e else floor_Z s m e)
  end.

(** ** [Duration] *)

Definition nanos_per_sec : Z := 1000000000.

(** A duration, in nanoseconds: seconds are a [u64], the rest is below 10^9. *)
Abbreviation Duration := Z (only parsing).
Definition duration_ok (d : Duration) : Prop := 0 ≤ d < two64 * nanos_per_sec.

(** [Duration::as_secs_f64]: [(secs as f64) + (nanos as f64) / 1e9]. *)
Definition as_secs_f64 (d : Duration) : f64 :=
  f64_add (f64_of_Z (d / nanos_per_sec))
          (f64_div (f64_of_Z (d mod nanos_per_sec)) (f64_of_Z nanos_per_sec)).

(** [a / b] to nearest, ties to even. *)
Definition div_nearest_even (a b : Z) : Z :=
  let q := a / b in
  let r := a mod b in
  if 2 * r <? b then q
  else if b <? 2 * r then q + 1
  else if Z.even q then q else q + 1.

(** [Duration::from_secs_f64]; [None] is its panic (negative, not finite, or too
    large). *)
Definition duration_from_secs_f64 (x : f64) : option Duration :=
  match x with
  | S754_zero _ => Some 0
  | S754_finite false m e =>
      let n := if 0 <=? e then Z.pos m * 2 ^ e * nanos_per_sec
               else div_nearest_even (Z.pos m * nanos_per_sec) (2 ^ (- e)) in
      if n <? two64 * nanos_per_sec then Some n else None
  | _ => None
  end.

(** [Duration::mul_f64]. *)
Definition duration_mul_f64 (d : Duration) (k : f64) : option Duration :=
  duration_from_secs_f64 (f64_mul k (as_secs_f64 d)).

(** ** Lemmas *)

(** The code's constants. *)
Definition f64_1 : f64 := f64_of_Z 1.
Definition f64_1_5 : f64 := f64_div (f64_of_Z 3) (f64_of_Z 2).

Lemma floor_Z_spec s m e k :
  e < 0 → floor_Z s m e = k ↔
  k * 2 ^ (- e) ≤ signed_mantissa s m < (k + 1) * 2 ^ (- e).
Proof.
  intros He. unfold floor_Z. rewrite (proj2 (Z.leb_gt 0 e)) by lia.
  pose proof (Z.pow_pos_nonneg 2 (- e)).
  split; [intros <- | intros [H1 H2]].
  - pose proof (Z.div_mod (signed_mantissa s m) (2 ^ (- e))).
    pose proof (Z.mod_pos_bound (signed_mantissa s m) (2 ^ (- e))). lia.
  - symmetry. apply (Z.div_unique_pos _ _ _ (signed_mantissa s m - k * 2 ^ (- e))); lia.
Qed.

(** [ceil_Z] is the least integer that is not below the number. *)
Lemma ceil_Z_spec s m e k :
  e < 0 → ceil_Z s m e = k ↔
  (k - 1) * 2 ^ (- e) < signed_mantissa s m ≤ k * 2 ^ (- e).
Proof.
  intros He. unfold ceil_Z.
  assert (signed_mantissa (negb s) m = - signed_mantissa s m) as Hs
    by (by destruct s).
  transitivity (floor_Z (negb s) m e = - k); [lia|].
  rewrite floor_Z_spec, Hs by done.
  split; intros; split; lia.
Qed.

Lemma floor_Z_nonneg m e : 0 ≤ floor_Z false m e.
Proof.
  unfold floor_Z. destruct (Z.leb_spec 0 e); simpl.
  - pose proof (Z.pow_nonneg 2 e). lia.
  - apply Z.div_pos; [lia|]. apply Z.pow_pos_nonneg; lia.
Qed.

Lemma div_nearest_even_nonneg a b : 0 ≤ a → 0 < b → 0 ≤ div_nearest_even a b.
Proof.
  intros Ha Hb. unfold div_nearest_even. pose proof (Z.div_pos a b).
  repeat case_match; lia.
Qed.

Lemma duration_from_secs_ok x d :
  duration_from_secs_f64 x = Some d → duration_ok d.
Proof.
  unfold duration_from_secs_f64, duration_ok.
  destruct x as [| | |[] m e]; intros; simplify_eq; [unfold two64, nanos_per_sec; lia|].
  case_match eqn:E; simplify_eq. apply Z.ltb_lt in E. split; [|done].
  destruct (Z.leb_spec 0 e).
  - pose proof (Z.pow_nonneg 2 e). unfold nanos_per_sec. lia.
  - apply div_nearest_even_nonneg; [unfold nanos_per_sec; lia|].
    apply Z.pow_pos_nonneg; lia.
Qed.

#[export] Hint Resolve floor_Z_nonneg duration_from_secs_ok : kj.
