(* ===== verification/Text.v ===== *)
(** * Strings

    A Rust [String] is its UTF-8 bytes: the Standard Library's [string], one
    [ascii] per byte. Here are the methods of [str] the modelled code calls
    (characters, order, search, integer parsing and printing) and their lemmas;
    nothing of [src/] is modelled in this file. *)

From Stdlib Require Import Ascii.
From S2P Require Import Prelude.
#[global] Open Scope string_scope.
#[global] Open Scope list_scope.
#[global] Open Scope Z_scope.

Abbreviation ascii := Ascii.ascii.
Abbreviation byte_val c := (Z.of_N (Ascii.N_of_ascii c)).

(** ** Characters *)

(** A continuation byte, [0b10xxxxxx]. *)
Definition is_cont (c : ascii) : bool := (128 <=? byte_val c) && (byte_val c <? 192).

(** [str::chars]: each character as its own UTF-8 bytes. *)
Fixpoint chars (s : string) : list string :=
  match s with
  | "" => []
  | String c s' =>
      match chars s' with
      | String d w :: ws =>
          if is_cont d then String c (String d w) :: ws
          else String c "" :: String d w :: ws
      | ws => String c "" :: ws
      end
  end.

Definition char_count (s : string) : nat := length (chars s).

(** Concatenation of a list of strings. *)
Definition concat_str (l : list string) : string := foldr String.append "" l.

(** [str::is_char_boundary] and [str::get(a..b)]. *)
Definition is_char_boundary (s : string) (i : nat) : bool :=
  if (i =? 0)%nat then true
  else if (i =? String.length s)%nat then true
  else match String.get i s with Some c => negb (is_cont c) | None => false end.

Definition str_get (s : string) (a b : nat) : option string :=
  if ((a <=? b)%nat && (b <=? String.length s)%nat
      && is_char_boundary s a && is_char_boundary s b)%bool
  then Some (String.substring a (b - a) s) else None.

(** *** [str::trim]

    The characters of [char::is_whitespace] (Unicode [White_Space]), as their bytes. *)
Definition is_white (c : string) : bool :=
  match (λ a, byte_val a) <$> String.list_ascii_of_string c with
  | [b] => (9 <=? b) && (b <=? 13) || (b =? 32)
  | [194; b] => (b =? 133) || (b =? 160)
  | [225; 154; 128] => true
  | [226; 128; b] => (128 <=? b) && (b <=? 138) || (b =? 168) || (b =? 169) || (b =? 175)
  | [226; 129; 159] => true
  | [227; 128; 128] => true
  | _ => false
  end.

Fixpoint drop_while {A} (p : A → bool) (l : list A) : list A :=
  match l with
  | [] => []
  | x :: l' => if p x then drop_while p l' else l
  end.

Definition trim (s : string) : string :=
  concat_str (reverse (drop_while is_white (reverse (drop_while is_white (chars s))))).

(** [char]s that are one byte each. *)
Fixpoint all_ascii (s : string) : bool :=
  match s with "" => true | String c s' => (byte_val c <? 128) && all_ascii s' end.

(** *** [String::from_utf8_lossy]

    [utf8_step b rest]: whether the bytes from [b] on start with a well-formed
    character, and how many of them the step takes (the character, or the maximal
    ill-formed part that one replacement character stands for). *)
Definition in_range (lo hi : Z) (c : option ascii) : bool :=
  match c with Some c => (lo <=? byte_val c) && (byte_val c <=? hi) | None => false end.

Definition utf8_step (b : ascii) (rest : list ascii) : bool * nat :=
  let v := byte_val b in
  let second lo hi := in_range lo hi (rest !! 0%nat) in
  let cont i := in_range 128 191 (rest !! i) in
  let three lo hi :=
    if second lo hi then if cont 1%nat then (true, 3%nat) else (false, 2%nat)
    else (false, 1%nat) in
  let four lo hi :=
    if second lo hi then
      if cont 1%nat then if cont 2%nat then (true, 4%nat) else (false, 3%nat)
      else (false, 2%nat)
    else (false, 1%nat) in
  if v <? 128 then (true, 1%nat)
  else if (194 <=? v) && (v <=? 223) then
    if cont 0%nat then (true, 2%nat) else (false, 1%nat)
  else if v =? 224 then three 160 191
  else if v =? 237 then three 128 159
  else if (225 <=? v) && (v <=? 239) then three 128 191
  else if v =? 240 then four 144 191
  else if (241 <=? v) && (v <=? 243) then four 128 191
  else if v =? 244 then four 128 143
  else (false, 1%nat).

(** U+FFFD. *)
Definition replacement : list ascii :=
  Ascii.ascii_of_N <$> [239; 191; 189]%N.

(** Every step takes at least one byte, so as many rounds as bytes are enough. *)
Fixpoint lossy_loop (n : nat) (l : list ascii) : list ascii :=
  match n, l with
  | S n', b :: rest =>
      let '(ok, k) := utf8_step b rest in
      (if ok then take k l else replacement) ++ lossy_loop n' (drop k l)
  | _, _ => []
  end.

Definition from_utf8_lossy (bytes : list Init.Byte.byte) : string :=
  let l := Ascii.ascii_of_byte <$> bytes in
  String.string_of_list_ascii (lossy_loop (length l) l).

(** ** Order: [Ord for str] is the order of the bytes *)

Definition str_ltb (s t : string) : bool :=
  match String.compare s t with Lt => true | _ => false end.
Definition str_lt (s t : string) : Prop := String.compare s t = Lt.

#[export] Instance str_lt_dec : RelDecision str_lt.
Proof. intros s t. unfold str_lt. apply _. Defined.

Definition str_le (a b : string) : Prop := ¬ str_lt b a.
#[export] Instance str_le_dec : RelDecision str_le.
Proof. intros a b. unfold str_le. apply _. Defined.

(** ** Search *)

Fixpoint starts_with (s p : string) : bool :=
  match p, s with
  | "", _ => true
  | String _ _, "" => false
  | String c p', String d s' => bool_decide (c = d) && starts_with s' p'
  end.

(** [str::strip_prefix]. *)
Fixpoint strip_prefix (s p : string) : option string :=
  match p, s with
  | "", _ => Some s
  | String _ _, "" => None
  | String c p', String d s' => if bool_decide (c = d) then strip_prefix s' p' else None
  end.

(** [str::contains] of an ASCII character. *)
Fixpoint contains_char (s : string) (c : ascii) : bool :=
  match s with
  | "" => false
  | String d s' => bool_decide (d = c) || contains_char s' c
  end.

(** [str::split_once] on an ASCII character. *)
Fixpoint split_once (s : string) (c : ascii) : option (string * string) :=
  match s with
  | "" => None
  | String d s' =>
      if bool_decide (d = c) then Some ("", s')
      else match split_once s' c with
           | Some (a, b) => Some (String d a, b)
           | None => None
           end
  end.

(** [str::splitn] on an ASCII character. *)
Fixpoint splitn (n : nat) (s : string) (c : ascii) : list string :=
  match n with
  | O => []
  | S O => [s]
  | S n' =>
      match split_once s c with
      | Some (a, b) => a :: splitn n' b c
      | None => [s]
      end
  end.

(** ** Integers *)

Definition is_digit (c : ascii) : bool := (48 <=? byte_val c) && (byte_val c <=? 57).

Fixpoint parse_digits (max : Z) (s : string) (acc : Z) : option Z :=
  match s with
  | "" => Some acc
  | String c s' =>
      if is_digit c then
        let n := acc * 10 + (byte_val c - 48) in
        if n <=? max then parse_digits max s' n else None
      else None
  end.

(** [str::parse::<uN>], [max] being the type's maximum: an optional [+], at least
    one digit, no overflow. *)
Definition parse_uint (max : Z) (s : string) : option Z :=
  match s with
  | "" => None
  | String c s' =>
      if bool_decide (c = "+"%char) then
        match s' with "" => None | _ => parse_digits max s' 0 end
      else parse_digits max s 0
  end.

(** The [Display] of an unsigned integer. *)
Definition show_uint (z : Z) : string := pretty (Z.to_N z).

(** ** Lemmas: order *)

Lemma ascii_compare_refl c : Ascii.compare c c = Eq.
Proof. apply N.compare_refl. Qed.

Lemma ascii_compare_eq c d : Ascii.compare c d = Eq ↔ c = d.
Proof.
  unfold Ascii.compare. rewrite N.compare_eq_iff. split; [|by intros ->].
  intros H. by rewrite <- (Ascii.ascii_N_embedding c), H, Ascii.ascii_N_embedding.
Qed.

Lemma ascii_compare_lt c d : Ascii.compare c d = Lt ↔ byte_val c < byte_val d.
Proof. unfold Ascii.compare. rewrite N.compare_lt_iff. lia. Qed.

Lemma str_lt_cons c s d t :
  str_lt (String c s) (String d t) ↔
  byte_val c < byte_val d ∨ c = d ∧ str_lt s t.
Proof.
  unfold str_lt; simpl. destruct (Ascii.compare c d) eqn:E.
  - apply ascii_compare_eq in E as ->. split; [tauto|]. intros [?|[_ ?]]; [lia|done].
  - apply ascii_compare_lt in E. split; tauto.
  - split; [done|]. intros [H%ascii_compare_lt|[-> _]]; [congruence|].
    by rewrite ascii_compare_refl in E.
Qed.

Lemma str_lt_nil s : str_lt "" s ↔ s ≠ "".
Proof. unfold str_lt. by destruct s. Qed.
Lemma str_lt_nil_r s : ¬ str_lt s "".
Proof. unfold str_lt. by destruct s. Qed.

#[export] Instance str_lt_irrefl : Irreflexive str_lt.
Proof.
  intros s. induction s as [|c s IH]; [by intros ?%str_lt_nil_r|].
  intros [?|[_ ?]]%str_lt_cons; [lia|by apply IH].
Qed.

#[export] Instance str_lt_trans : Transitive str_lt.
Proof.
  intros s t u. revert s u. induction t as [|d t IH]; intros s u.
  { by intros ?%str_lt_nil_r. }
  destruct u as [|e u]; [by intros _ ?%str_lt_nil_r|].
  destruct s as [|c s]; [intros _ _; by apply str_lt_nil|].
  rewrite !str_lt_cons. intros [?|[-> ?]] [?|[-> ?]]; [left; lia..|right; eauto].
Qed.

Lemma str_lt_trichotomy s t : str_lt s t ∨ s = t ∨ str_lt t s.
Proof.
  unfold str_lt. destruct (String.compare s t) eqn:E; [|by left|].
  - apply String.compare_eq_iff in E as ->. by right; left.
  - rewrite String.compare_antisym, E. by right; right.
Qed.

Lemma str_app_cons c s t : String c s +:+ t = String c (s +:+ t).
Proof. done. Qed.
Lemma str_app_nil_l s : "" +:+ s = s.
Proof. done. Qed.

(** Extending a string makes it greater. *)
Lemma str_lt_app s t : t ≠ "" → str_lt s (s +:+ t).
Proof.
  intros Ht. induction s as [|c s IH]; [by apply str_lt_nil|].
  rewrite str_app_cons. apply str_lt_cons. by right.
Qed.

Lemma str_lt_app_l p s t : str_lt (p +:+ s) (p +:+ t) ↔ str_lt s t.
Proof.
  induction p as [|c p IH]; [done|].
  rewrite !str_app_cons, str_lt_cons, IH. split; [intros [?|[_ ?]]; [lia|done]|by right].
Qed.

(** The order is decided in the first [length s] bytes unless one string is a
    prefix of the other. *)
Lemma str_lt_app_same_length s t u v :
  String.length s = String.length t → str_lt s t → str_lt (s +:+ u) (t +:+ v).
Proof.
  revert t. induction s as [|c s IH]; intros [|d t] Hl; simplify_eq/=.
  { by intros ?%str_lt_nil_r. }
  rewrite !str_app_cons, !str_lt_cons.
  intros [?|[-> ?]]; [by left|]. right. eauto.
Qed.

Lemma str_ltb_lt s t : str_ltb s t = true ↔ str_lt s t.
Proof. unfold str_ltb, str_lt. destruct (String.compare s t); split; congruence. Qed.

(** ** Lemmas: concatenation, length *)

Lemma str_app_nil_r s : s +:+ "" = s.
Proof. induction s; rewrite ?str_app_nil_l, ?str_app_cons; simpl; congruence. Qed.
Lemma str_app_assoc s t u : s +:+ (t +:+ u) = (s +:+ t) +:+ u.
Proof. induction s; rewrite ?str_app_nil_l, ?str_app_cons; simpl; congruence. Qed.
Lemma str_length_app s t :
  String.length (s +:+ t) = (String.length s + String.length t)%nat.
Proof. induction s; rewrite ?str_app_nil_l, ?str_app_cons; simpl; congruence. Qed.

Lemma concat_chars s : concat_str (chars s) = s.
Proof.
  induction s as [|c s IH]; [done|]; simpl.
  destruct (chars s) as [|[|d w] ws] eqn:E; simpl in *.
  - by rewrite <- IH.
  - by rewrite <- IH.
  - case_match; simpl; by rewrite <- IH.
Qed.

(** ** Lemmas: integers *)

Lemma pretty_char_digit x : (x < 10)%N → is_digit (pretty_N_char x) = true
  ∧ byte_val (pretty_N_char x) = 48 + Z.of_N x.
Proof.
  intros Hx. assert (x = 0 ∨ x = 1 ∨ x = 2 ∨ x = 3 ∨ x = 4 ∨ x = 5 ∨ x = 6 ∨ x = 7
    ∨ x = 8 ∨ x = 9)%N as Hc by lia.
  repeat destruct Hc as [->|Hc]; try (by vm_compute); subst; by vm_compute.
Qed.

Lemma parse_digits_pretty_go max x s :
  Z.of_N x ≤ max →
  parse_digits max (pretty_N_go x s) 0 = parse_digits max s (Z.of_N x).
Proof.
  revert s. induction (N.lt_wf_0 x) as [x _ IH]; intros s Hx.
  destruct (decide (x = 0)%N) as [->|Hx0]; [by rewrite pretty_N_go_0|].
  assert (x = 10 * (x / 10) + x mod 10)%N as Hdm by (apply N.div_mod; done).
  assert (x mod 10 < 10)%N as Hm by (by apply N.mod_lt).
  pose proof (N2Z.is_nonneg (x mod 10)).
  rewrite pretty_N_go_step by lia.
  rewrite IH; [|apply N.div_lt; lia|clear IH; lia].
  simpl.
  destruct (pretty_char_digit _ Hm) as [-> ->].
  replace (Z.of_N (x / 10)%N * 10 + (48 + Z.of_N (x mod 10)%N - 48)) with (Z.of_N x)
    by lia.
  by rewrite (proj2 (Z.leb_le _ _)).
Qed.

Lemma pretty_go_head x s :
  (0 < x)%N → ∃ c s', pretty_N_go x s = String c s' ∧ is_digit c = true.
Proof.
  revert s. induction (N.lt_wf_0 x) as [x _ IH]; intros s Hx.
  rewrite pretty_N_go_step by done.
  destruct (decide (x / 10 = 0)%N) as [->|].
  - rewrite pretty_N_go_0. eexists _, _. split; [done|].
    apply pretty_char_digit. by apply N.mod_lt.
  - apply IH; [apply N.div_lt; lia|]. clear IH.
    generalize dependent (x / 10)%N. lia.
Qed.

Lemma show_uint_head z : ∃ c s, show_uint z = String c s ∧ is_digit c = true.
Proof.
  unfold show_uint, pretty, pretty_N. case_decide; [by eexists _, _|].
  apply pretty_go_head. lia.
Qed.

(** Only digits are printed. *)
Lemma show_uint_no_char z c : is_digit c = false → contains_char (show_uint z) c = false.
Proof.
  intros Hc. unfold show_uint, pretty, pretty_N. case_decide.
  { cbn. rewrite orb_false_r. apply bool_decide_eq_false. by intros <-. }
  generalize (Z.to_N z) as n. intros n.
  assert (∀ s, contains_char s c = false →
    contains_char (pretty_N_go n s) c = false) as Hgo; [|by apply Hgo].
  induction (N.lt_wf_0 n) as [n _ IH]; intros s Hs.
  destruct (decide (n = 0)%N) as [->|]; [by rewrite pretty_N_go_0|].
  rewrite pretty_N_go_step by lia. apply IH; [apply N.div_lt; lia|].
  cbn [contains_char]. rewrite Hs, orb_false_r.
  apply bool_decide_eq_false. intros <-.
  destruct (pretty_char_digit (n mod 10)) as [Hd _]; [apply N.mod_lt; lia|congruence].
Qed.

(** Printing then parsing an integer in range gives it back. *)
Lemma parse_show_uint max z : 0 ≤ z ≤ max → parse_uint max (show_uint z) = Some z.
Proof.
  intros Hz. destruct (show_uint_head z) as (c&s&Hs&Hc).
  unfold parse_uint. rewrite Hs. rewrite bool_decide_eq_false_2 by (by intros ->).
  rewrite <- Hs. unfold show_uint, pretty, pretty_N. case_decide as Hd.
  - simpl. rewrite (proj2 (Z.leb_le _ _)) by lia. f_equal. lia.
  - rewrite parse_digits_pretty_go by lia. simpl. f_equal. lia.
Qed.

Lemma parse_digits_nonneg max s acc n :
  0 ≤ acc → parse_digits max s acc = Some n → 0 ≤ n.
Proof.
  revert acc. induction s as [|c s IH]; simpl; intros acc Ha; [by intros [= <-]|].
  destruct (is_digit c) eqn:Hc; [|done]. case_match; [|done]. apply IH.
  unfold is_digit in Hc. apply andb_true_iff in Hc as [?%Z.leb_le _]. lia.
Qed.

Lemma parse_uint_nonneg max s n : parse_uint max s = Some n → 0 ≤ n.
Proof.
  unfold parse_uint. repeat case_match; try done; intros ?%parse_digits_nonneg; done.
Qed.

(** ** Lemmas: splitting *)

Lemma split_once_app a b c :
  contains_char a c = false → split_once (a +:+ String c b) c = Some (a, b).
Proof.
  induction a as [|d a IH]; cbn [contains_char].
  - intros _. simpl. by rewrite bool_decide_true.
  - intros [Hd Ha]%orb_false_iff. rewrite str_app_cons. cbn [split_once].
    by rewrite Hd, IH.
Qed.

Lemma contains_char_app a b c :
  contains_char (a +:+ b) c = contains_char a c || contains_char b c.
Proof.
  induction a as [|d a IH]; [done|]. rewrite str_app_cons. cbn [contains_char].
  by rewrite IH, orb_assoc.
Qed.
