(* ===== verification/Tick.v ===== *)
(** * Logical timeline coordinates ([kaijutsu-types/src/tick.rs])

    [Tick] is a point and [TickDelta] a vector; both wrap an [i64], and the
    affine operations are the only arithmetic on them. A release build wraps at
    64 bits, so every operation below does. *)

From S2P Require Import Prelude.

Record Tick := { tick_get : Z }.
Record TickDelta := { delta_get : Z }.

Module Tick.
Definition new (value : Z) : Tick := {| tick_get := value |}.
Definition ZERO : Tick := new 0.
(** [Tick + TickDelta], [Tick - TickDelta], [Tick - Tick]. *)
Definition add (t : Tick) (d : TickDelta) : Tick :=
  new (wrap_i64 (tick_get t + delta_get d)).
Definition sub (t : Tick) (d : TickDelta) : Tick :=
  new (wrap_i64 (tick_get t - delta_get d)).
Definition diff (t u : Tick) : TickDelta :=
  {| delta_get := wrap_i64 (tick_get t - tick_get u) |}.
(** [PartialOrd], derived. *)
Definition leb (t u : Tick) : bool := tick_get t <=? tick_get u.
Definition ltb (t u : Tick) : bool := tick_get t <? tick_get u.
Definition eqb (t u : Tick) : bool := tick_get t =? tick_get u.
End Tick.

Module TickDelta.
Definition new (value : Z) : TickDelta := {| delta_get := value |}.
Definition ZERO : TickDelta := new 0.
Definition is_forward (d : TickDelta) : bool := 0 <? delta_get d.
Definition add (d e : TickDelta) : TickDelta :=
  new (wrap_i64 (delta_get d + delta_get e)).
Definition sub (d e : TickDelta) : TickDelta :=
  new (wrap_i64 (delta_get d - delta_get e)).
Definition mul (d : TickDelta) (k : Z) : TickDelta :=
  new (wrap_i64 (delta_get d * k)).
Definition neg (d : TickDelta) : TickDelta := new (wrap_i64 (- delta_get d)).
Definition leb (d e : TickDelta) : bool := delta_get d <=? delta_get e.
End TickDelta.

#[export] Instance Tick_eq_dec : EqDecision Tick.
Proof. solve_decision. Defined.
#[export] Instance TickDelta_eq_dec : EqDecision TickDelta.
Proof. solve_decision. Defined.

(** [t] is at or before [u], strictly before [u]. *)
Definition tick_le (t u : Tick) : Prop := tick_get t ≤ tick_get u.
Definition tick_lt (t u : Tick) : Prop := tick_get t < tick_get u.

(** The coordinates an [i64] can hold. *)
Definition tick_ok (t : Tick) : Prop := in_i64 (tick_get t).
Definition delta_ok (d : TickDelta) : Prop := in_i64 (delta_get d).

(** A position and an extent. *)
Record Span := { start : Tick; len : TickDelta }.

Module Span.
Definition new (start : Tick) (len : TickDelta) : Span :=
  Build_Span start len.
Definition instant (start : Tick) : Span := new start TickDelta.ZERO.
(** [end] is a keyword. *)
Definition end_ (s : Span) : Tick := Tick.add (start s) (len s).
Definition is_instant (s : Span) : bool := delta_get (len s) =? 0.
End Span.

#[export] Instance Span_eq_dec : EqDecision Span.
Proof. solve_decision. Defined.

(** ** The affine laws *)

Lemma Tick_leb_le t u : Tick.leb t u = true ↔ tick_le t u.
Proof. unfold Tick.leb, tick_le. apply Z.leb_le. Qed.
Lemma Tick_leb_gt t u : Tick.leb t u = false ↔ tick_lt u t.
Proof. unfold Tick.leb, tick_lt. apply Z.leb_gt. Qed.
Lemma Tick_ltb_lt t u : Tick.ltb t u = true ↔ tick_lt t u.
Proof. unfold Tick.ltb, tick_lt. apply Z.ltb_lt. Qed.
Lemma Tick_ltb_ge t u : Tick.ltb t u = false ↔ tick_le u t.
Proof. unfold Tick.ltb, tick_le. apply Z.ltb_ge. Qed.
Lemma Tick_eqb_eq t u : Tick.eqb t u = true ↔ t = u.
Proof.
  unfold Tick.eqb. rewrite Z.eqb_eq. destruct t, u; simpl.
  split; [by intros -> | by intros [= ->]].
Qed.

#[export] Hint Rewrite Tick_leb_le Tick_leb_gt Tick_ltb_lt Tick_ltb_ge Tick_eqb_eq
  : kj.

(** Wrapping does not break the affine structure: moving by the difference of two
    points reaches the second point exactly. *)
Lemma Tick_add_diff t u : tick_ok u → Tick.add t (Tick.diff u t) = u.
Proof.
  destruct t as [t], u as [u]. unfold tick_ok, Tick.add, Tick.diff, Tick.new; simpl.
  intros Hu. f_equal. rewrite <- (wrap_i64_id u) at 2 by done.
  unfold wrap_i64. f_equal.
  replace (t + ((u - t + two63) mod two64 - two63) + two63)
    with ((u - t + two63) mod two64 + t) by lia.
  rewrite Zplus_mod_idemp_l. f_equal. lia.
Qed.
