(* ===== verification/Ids.v ===== *)
(** * Typed identifiers ([kaijutsu-types/src/ids.rs])

    Every id wraps a UUID: its 16 bytes read as one big-endian number, so the
    derived order of the Rust type is the order of the numbers. The [uuid] crate
    is a parameter ([UuidCrate]) with its documented laws ([UuidLaws]). *)

From S2P Require Import Prelude Text.

Abbreviation uuid := N (only parsing).

(** The functions of the [uuid] crate the code calls: the 32-digit form, parsing,
    and the name-based version-5 constructor. *)
Class UuidCrate := {
  uuid_as_simple : uuid → string;
  uuid_parse_str : string → option uuid;
  uuid_new_v5 : uuid → string → uuid;
}.

Definition uuid_ok (u : uuid) : Prop := (u < 2 ^ 128)%N.

Definition is_hex_lower (c : ascii) : bool :=
  is_digit c || ((97 <=? byte_val c) && (byte_val c <=? 102)).

Fixpoint all_chars (p : ascii → bool) (s : string) : bool :=
  match s with "" => true | String c s' => p c && all_chars p s' end.

(** What the crate documents of them. *)
Class UuidLaws `{!UuidCrate} := {
  uuid_simple_hex u : all_chars is_hex_lower (uuid_as_simple u) = true;
  uuid_simple_length u : String.length (uuid_as_simple u) = 32%nat;
  uuid_parse_simple u : uuid_ok u → uuid_parse_str (uuid_as_simple u) = Some u;
}.

(** ** The id types *)

Record PrincipalId := { principal_uuid : uuid }.
Record ContextId := { context_uuid : uuid }.

#[export] Instance PrincipalId_eq_dec : EqDecision PrincipalId.
Proof. solve_decision. Defined.
#[export] Instance ContextId_eq_dec : EqDecision ContextId.
Proof. solve_decision. Defined.
#[export] Instance PrincipalId_countable : Countable PrincipalId.
Proof. by refine (inj_countable' principal_uuid Build_PrincipalId _); intros []. Defined.
#[export] Instance ContextId_countable : Countable ContextId.
Proof. by refine (inj_countable' context_uuid Build_ContextId _); intros []. Defined.

(** The [i]-th of the 16 bytes ([as_bytes]). *)
Definition uuid_byte (u : uuid) (i : nat) : N :=
  N.land (N.shiftr u (8 * (15 - N.of_nat i))) 255.

Definition KAIJUTSU_PRINCIPAL_NS : uuid := 0xe8a3c6f17b2d4e90a5f81c9d0e3b4a67.

Section with_uuid.
Context `{!UuidCrate}.

(** [PrincipalId::system], [PrincipalId::beat]. *)
Definition principal_system : PrincipalId :=
  {| principal_uuid := uuid_new_v5 KAIJUTSU_PRINCIPAL_NS "system" |}.
Definition principal_beat : PrincipalId :=
  {| principal_uuid := uuid_new_v5 KAIJUTSU_PRINCIPAL_NS "hyoushigi" |}.

(** [short]: the last 8 hex digits. [to_hex]: all 32. *)
Definition id_to_hex (u : uuid) : string := uuid_as_simple u.
Definition id_short (u : uuid) : string :=
  let hex := uuid_as_simple u in
  String.substring (String.length hex - 8) 8 hex.

Definition id_display_or (u : uuid) (label : option string) : string :=
  match label with
  | Some l => if negb (bool_decide (l = "")) then l else id_short u
  | None => id_short u
  end.

(** [matches_short]: a full id matches exactly, anything else is a prefix of the
    short form. *)
Definition id_matches_short (u : uuid) (query : string) : bool :=
  match uuid_parse_str query with
  | Some full => bool_decide (u = full)
  | None => starts_with (id_short u) query
  end.
End with_uuid.

(** ** Prefix resolution *)

(** The trait [PrefixResolvable]. *)
Class PrefixResolvable (T : Type) := {
  matches_short : T → string → bool;
  short : T → string;
}.

#[export] Instance ContextId_resolvable `{!UuidCrate} : PrefixResolvable ContextId := {|
  matches_short c q := id_matches_short (context_uuid c) q;
  short c := id_short (context_uuid c);
|}.
#[export] Instance PrincipalId_resolvable `{!UuidCrate} : PrefixResolvable PrincipalId := {|
  matches_short c q := id_matches_short (principal_uuid c) q;
  short c := id_short (principal_uuid c);
|}.

Inductive PrefixError :=
  | NoMatch (query : string)
  | Ambiguous (prefix : string) (candidates : list string).

Section resolve.
Context {T : Type} `{!PrefixResolvable T}.
Implicit Types items : list (T * option string).

(** The labels a test selects, with their ids: [filter_map] in the source. *)
Definition label_hits (p : string → bool) items : list (T * string) :=
  omap (λ '(id, label),
    match label with
    | Some l => if p l then Some (id, l) else None
    | None => None
    end) items.

Definition resolve_prefix items (query : string) : result PrefixError T :=
  match label_hits (λ l, bool_decide (l = query)) items with
  | [(id, _)] => Ok id
  | exact_ =>
      match exact_ with
      | _ :: _ => Err (Ambiguous query (exact_.*2))
      | [] =>
          match label_hits (λ l, starts_with l query) items with
          | [(id, _)] => Ok id
          | (_ :: _) as label_matches => Err (Ambiguous query (label_matches.*2))
          | [] =>
              match filter (λ it, matches_short it.1 query = true) items with
              | [] => Err (NoMatch query)
              | [it] => Ok it.1
              | hex_matches => Err (Ambiguous query (short <$> hex_matches.*1))
              end
          end
      end
  end.

(** *** Resolution is unambiguous *)

(** [sole p items x]: exactly one entry satisfies [p], and it is [x]. *)
Definition sole (p : T * option string → Prop) items (it : T * option string) : Prop :=
  ∃ l1 l2, items = l1 ++ it :: l2 ∧ p it ∧ Forall (λ x, ¬ p x) (l1 ++ l2).

Definition has_label (p : string → bool) (it : T * option string) : Prop :=
  ∃ l, it.2 = Some l ∧ p l = true.

Lemma label_hits_nil p items :
  label_hits p items = [] ↔ Forall (λ it, ¬ has_label p it) items.
Proof.
  unfold label_hits, has_label. induction items as [|[id [l|]] items IH]; csimpl.
  - by rewrite Forall_nil.
  - rewrite Forall_cons, <- IH. destruct (p l) eqn:E; simpl.
    + split; [done|]. intros [Hn _]. destruct Hn; eauto.
    + split; [|by intros [_ ?]]. intros ->. split; [|done].
      intros (?&?&?); simplify_eq/=; congruence.
  - rewrite Forall_cons, <- IH. split; [|by intros [_ ?]].
    intros ->. split; [|done]. intros (?&?&?); simplify_eq/=.
Qed.

Lemma label_hits_sole p items id l :
  label_hits p items = [(id, l)] ↔ sole (has_label p) items (id, Some l).
Proof.
  unfold sole. induction items as [|[id' ol] items IH].
  { split; [done|]. intros ([|]&?&?&_); simplify_eq/=. }
  change (label_hits p ((id', ol) :: items)) with
    (match match ol with
           | Some l => if p l then Some (id', l) else None
           | None => None end with
     | Some y => y :: label_hits p items | None => label_hits p items end).
  destruct (match ol with Some _ => _ | None => _ end) as [y|] eqn:E.
  - destruct ol as [l'|]; [|done]. destruct (p l') eqn:Hp; simplify_eq/=. split.
    + intros [= -> -> H%label_hits_nil]. exists [], items.
      split_and!; [done| by exists l |done].
    + intros ([|y l1]&l2&Heq&[l0 [? Hl0]]&Hno); simplify_eq/=.
      * f_equal. by apply label_hits_nil.
      * apply Forall_cons in Hno as [[] _]. by exists l'.
  - assert (¬ has_label p (id', ol)) as Hn.
    { intros (l0&?&Hl0); simplify_eq/=. by rewrite Hl0 in E. }
    rewrite IH. split.
    + intros (l1&l2&->&?&?). exists ((id', ol) :: l1), l2. csimpl. eauto.
    + intros ([|y l1]&l2&Heq&Hl&Hno); simplify_eq/=; [done|].
      apply Forall_cons in Hno as [_ ?]. eauto.
Qed.

Lemma filter_nil_Forall (P : T * option string → Prop) `{!∀ x, Decision (P x)} items :
  filter P items = [] ↔ Forall (λ it, ¬ P it) items.
Proof.
  induction items as [|it items IH]; [by rewrite filter_nil, Forall_nil|].
  rewrite filter_cons, Forall_cons, <- IH. case_decide; naive_solver.
Qed.

Lemma filter_sole (P : T * option string → Prop) `{!∀ x, Decision (P x)} items it :
  filter P items = [it] ↔ sole P items it.
Proof.
  unfold sole. induction items as [|it' items IH].
  { rewrite filter_nil. split; [done|]. intros ([|]&?&?&_); simplify_eq/=. }
  rewrite filter_cons. case_decide as HP.
  - split.
    + intros [= -> Hn%filter_nil_Forall]. by exists [], items.
    + intros ([|y l1]&l2&Heq&Hit&Hno); simplify_eq/=.
      * f_equal. by apply filter_nil_Forall.
      * by apply Forall_cons in Hno as [Hno _].
  - rewrite IH. split.
    + intros (l1&l2&->&?&?). exists (it' :: l1), l2. csimpl. eauto.
    + intros ([|y l1]&l2&Heq&Hit&Hno); simplify_eq/=; [done|].
      apply Forall_cons in Hno as [_ ?]. eauto.
Qed.

(** The ladder of the documentation: the first stage that any entry passes
    decides, and it must be passed by one entry only. *)
Definition exact_label (query : string) := has_label (λ l, bool_decide (l = query)).
Definition prefix_label (query : string) := has_label (λ l, starts_with l query).
Definition short_match (query : string) (it : T * option string) : Prop :=
  matches_short it.1 query = true.

Definition none_of (p : T * option string → Prop) items : Prop :=
  Forall (λ it, ¬ p it) items.

Definition resolves_to items (query : string) (id : T) : Prop :=
  (∃ ol, sole (exact_label query) items (id, ol)) ∨
  (none_of (exact_label query) items ∧ ∃ ol, sole (prefix_label query) items (id, ol)) ∨
  (none_of (exact_label query) items ∧ none_of (prefix_label query) items ∧
   ∃ ol, sole (short_match query) items (id, ol)).

Lemma sole_label p items id ol :
  sole (has_label p) items (id, ol) ↔
  ∃ l, ol = Some l ∧ label_hits p items = [(id, l)].
Proof.
  split.
  - intros Hs. assert (has_label p (id, ol)) as (l&?&?).
    { by destruct Hs as (?&?&?&?&?). }
    simplify_eq/=. exists l. split; [done|]. by apply label_hits_sole.
  - intros (l&->&H). by apply label_hits_sole.
Qed.

Lemma sole_not_none p items it : sole p items it → ¬ none_of p items.
Proof.
  intros (l1&l2&->&Hp&_) [_ [? _]%Forall_cons]%Forall_app. done.
Qed.
End resolve.

(** [resolve_prefix] answers with an id exactly when the resolution order of
    its documentation singles that id out: the one entry with that label; else
    the one entry whose label starts with the query; else the one entry whose
    short form matches. It never picks between several candidates of a stage. *)
Theorem resolve_prefix_spec {T} `{!PrefixResolvable T} (items : list (T * option string))
    (query : string) (id : T) :
  resolve_prefix items query = Ok id ↔ resolves_to items query id.
Proof.
  unfold resolve_prefix, resolves_to, none_of, exact_label, prefix_label.
  setoid_rewrite sole_label. rewrite <- !label_hits_nil.
  destruct (label_hits (λ l, bool_decide (l = query)) items) as [|[x l] [|]] eqn:E1.
  2:{ split; [intros [= ->]; naive_solver|]. naive_solver. }
  2:{ naive_solver. }
  destruct (label_hits (λ l, starts_with l query) items) as [|[x l] [|]] eqn:E2;
    [|naive_solver..].
  destruct (filter _ items) as [|[x ol] [|]] eqn:E3.
  - split; [done|]. intros [(?&?&?&?)|[(?&?&?&?&?)|(_&_&ol&H)]]; [done..|].
    apply filter_nil_Forall in E3. by apply sole_not_none in H.
  - split; [intros [= <-]; apply filter_sole in E3; eauto 10|].
    intros [(?&?&?&?)|[(?&?&?&?&?)|(_&_&ol'&H)]]; [done..|].
    apply (filter_sole (λ it, matches_short it.1 query = true)) in H.
    rewrite E3 in H. by simplify_eq/=.
  - split; [done|]. intros [(?&?&?&?)|[(?&?&?&?&?)|(_&_&ol'&H)]]; [done..|].
    apply (filter_sole (λ it, matches_short it.1 query = true)) in H.
    by rewrite E3 in H.
Qed.
