(* ===== verification/Track.v ===== *)
(** * Track ids ([kaijutsu-types/src/track.rs])

    A [TrackId] is the key of a lane: one to 64 characters of [a-z0-9_-]. The
    strict constructor refuses anything else; [slugify] maps a human label into a
    valid id or into nothing. *)

From Stdlib Require Import Ascii.
From S2P Require Import Prelude Text.

Definition MAX_TRACK_ID_LEN : nat := 64.

Record TrackId := { as_str : string }.

#[export] Instance TrackId_eq_dec : EqDecision TrackId.
Proof. solve_decision. Defined.

Inductive TrackIdError :=
  | Empty
  | TooLong (len : nat)
  | InvalidChar (ch : string).

Definition dash : ascii := "-"%char.

(** The charset test on one character: multi-byte characters never pass. *)
Definition is_track_ascii (c : ascii) : bool :=
  ((97 <=? byte_val c) && (byte_val c <=? 122))
  || is_digit c || bool_decide (c = "_"%char) || bool_decide (c = dash).

Definition is_track_char (ch : string) : bool :=
  match ch with String c "" => is_track_ascii c | _ => false end.

(** [TrackId::new]. *)
Definition TrackId_new (s : string) : result TrackIdError TrackId :=
  if bool_decide (s = "") then Err Empty
  else
    let len := char_count s in
    if (MAX_TRACK_ID_LEN <? len)%nat then Err (TooLong len)
    else match List.find (λ c, negb (is_track_char c)) (chars s) with
         | Some ch => Err (InvalidChar ch)
         | None => Ok {| as_str := s |}
         end.

(** *** [slugify] *)

Definition is_ascii_upper (c : ascii) : bool :=
  (65 <=? byte_val c) && (byte_val c <=? 90).
Definition to_ascii_lower (c : ascii) : ascii :=
  Ascii.ascii_of_N (Ascii.N_of_ascii c + 32).

(** The three-way test of the loop body: the lowered character, if it stays. *)
Definition lowered (ch : string) : option ascii :=
  match ch with
  | String c "" =>
      if is_ascii_upper c then Some (to_ascii_lower c)
      else if is_track_char ch then Some c else None
  | _ => None
  end.

(** The loop: what is pushed on [out], given [prev_dash]. *)
Fixpoint slug_loop (cs : list string) (prev_dash : bool) : list ascii :=
  match cs with
  | [] => []
  | ch :: cs' =>
      match lowered ch with
      | Some c =>
          if bool_decide (c = dash)
          then if prev_dash then slug_loop cs' prev_dash else dash :: slug_loop cs' true
          else c :: slug_loop cs' false
      | None =>
          if prev_dash then slug_loop cs' prev_dash else dash :: slug_loop cs' true
      end
  end.

(** [trim_end_matches], [trim_matches] with the character [-]. *)
Fixpoint trim_start_dash (l : list ascii) : list ascii :=
  match l with
  | c :: l' => if bool_decide (c = dash) then trim_start_dash l' else l
  | [] => []
  end.
Definition trim_end_dash (l : list ascii) : list ascii :=
  reverse (trim_start_dash (reverse l)).
Definition trim_dash (l : list ascii) : list ascii := trim_end_dash (trim_start_dash l).

Definition string_of_ascii (l : list ascii) : string := foldr String "" l.

(** [TrackId::slugify]. Everything in [out] is ASCII, so its characters are its
    bytes. The outer [option] is the panic of the final [expect]. *)
Definition slugify (label : string) : option (option TrackId) :=
  let out := slug_loop (chars label) false in
  let trimmed := trim_dash out in
  let slug := trim_end_dash (take MAX_TRACK_ID_LEN trimmed) in
  match slug with
  | [] => Some None
  | _ =>
      match TrackId_new (string_of_ascii slug) with
      | Ok t => Some (Some t)
      | Err _ => None
      end
  end.

Definition solo : TrackId := {| as_str := "solo" |}.

(** The ids the strict constructor can produce. *)
Definition valid_track (t : TrackId) : Prop := TrackId_new (as_str t) = Ok t.

(** ** Lemmas *)

Lemma track_ascii_not_cont c : is_track_ascii c = true → is_cont c = false.
Proof. destruct c as [[] [] [] [] [] [] [] []]; by vm_compute. Qed.

(** ASCII text is its own characters. *)
Lemma chars_string_of_ascii l :
  Forall (λ c, is_track_ascii c = true) l →
  chars (string_of_ascii l) = (λ c, String c "") <$> l.
Proof.
  induction 1 as [|c l Hc Hl IH]; [done|]. csimpl.
  change (string_of_ascii (c :: l)) with (String c (string_of_ascii l)). simpl.
  rewrite IH. destruct Hl as [|d l Hd Hl]; csimpl; [done|].
  by rewrite track_ascii_not_cont.
Qed.

Lemma find_track_none l :
  Forall (λ c, is_track_ascii c = true) l →
  List.find (λ c, negb (is_track_char c)) ((λ c, String c "") <$> l) = None.
Proof. induction 1 as [|c l Hc _ IH]; csimpl; [done|]. by rewrite Hc. Qed.

(** The strict constructor accepts exactly the short non-empty strings of the
    charset. *)
Lemma TrackId_new_ascii l :
  Forall (λ c, is_track_ascii c = true) l → l ≠ [] →
  (length l ≤ MAX_TRACK_ID_LEN)%nat →
  TrackId_new (string_of_ascii l) = Ok {| as_str := string_of_ascii l |}.
Proof.
  intros Hl Hne Hlen. unfold TrackId_new, char_count.
  rewrite bool_decide_eq_false_2 by (by destruct l).
  rewrite chars_string_of_ascii, length_fmap, find_track_none by done.
  by rewrite (proj2 (Nat.ltb_ge _ _)).
Qed.

Lemma lowered_track ch c : lowered ch = Some c → is_track_ascii c = true.
Proof.
  unfold lowered. destruct ch as [|d [|]]; [done| |done].
  destruct (is_ascii_upper d) eqn:E; [|simpl; by destruct (is_track_ascii d) eqn:?;
    intros; simplify_eq].
  intros [= <-]. revert E.
  destruct d as [[] [] [] [] [] [] [] []]; by vm_compute.
Qed.

Lemma slug_loop_track cs b : Forall (λ c, is_track_ascii c = true) (slug_loop cs b).
Proof.
  revert b. induction cs as [|ch cs IH]; intros b; simpl; [done|].
  assert (is_track_ascii dash = true) by done.
  destruct (lowered ch) as [c|] eqn:E; [apply lowered_track in E|];
    repeat case_match; auto.
Qed.

Lemma trim_start_suffix l : ∃ k, l = k ++ trim_start_dash l.
Proof.
  induction l as [|c l [k Hk]]; simpl; [by exists []|].
  case_bool_decide; [|by exists []]. exists (c :: k). by rewrite Hk at 1.
Qed.

Lemma trim_end_prefix l : ∃ k, l = trim_end_dash l ++ k.
Proof.
  destruct (trim_start_suffix (reverse l)) as [k Hk]. exists (reverse k).
  unfold trim_end_dash. rewrite <- reverse_app, <- Hk. by rewrite reverse_involutive.
Qed.

Lemma trim_start_head l c : head (trim_start_dash l) = Some c → c ≠ dash.
Proof.
  induction l as [|d l IH]; simpl; [done|]. case_bool_decide; [done|].
  by intros [= <-].
Qed.

Lemma trim_end_last l c : last (trim_end_dash l) = Some c → c ≠ dash.
Proof.
  unfold trim_end_dash. rewrite last_reverse. apply trim_start_head.
Qed.

#[export] Hint Resolve trim_end_last trim_start_head slug_loop_track : kj.

(** *** Clean slugs: no two dashes in a row, none at the edges *)

Fixpoint no_double (b : bool) (l : list ascii) : Prop :=
  match l with
  | [] => True
  | c :: l' => (b = true → c ≠ dash) ∧ no_double (bool_decide (c = dash)) l'
  end.

Lemma no_double_weaken b l : no_double true l → no_double b l.
Proof. destruct l; simpl; [done|]. intros [H ?]. auto. Qed.

Lemma slug_loop_no_double cs b : no_double b (slug_loop cs b).
Proof.
  revert b. induction cs as [|ch cs IH]; intros b; simpl; [done|].
  assert (no_double b (if b then slug_loop cs b else dash :: slug_loop cs true)) as Hdash.
  { destruct b; [apply IH|]. simpl. by split; [|apply IH]. }
  destruct (lowered ch) as [c|]; [|done]. case_bool_decide as Hc; [done|].
  simpl. rewrite bool_decide_eq_false_2 by done. by split; [|apply IH].
Qed.

Lemma no_double_app_l b l k : no_double b (l ++ k) → no_double b l.
Proof. revert b. induction l as [|c l IH]; intros b; simpl; [done|]. naive_solver. Qed.

Lemma no_double_app_r b l k : no_double b (l ++ k) → no_double false k.
Proof.
  revert b. induction l as [|c l IH]; intros b; simpl.
  - destruct b; [apply no_double_weaken|done].
  - intros [_ H]. eapply IH, H.
Qed.

Lemma lowered_track_ascii c : is_track_ascii c = true → lowered (String c "") = Some c.
Proof.
  intros Hc. unfold lowered, is_track_char. rewrite Hc.
  assert (is_ascii_upper c = false) as ->; [|done].
  revert Hc. destruct c as [[] [] [] [] [] [] [] []]; by vm_compute.
Qed.

Lemma slug_loop_clean l b :
  Forall (λ c, is_track_ascii c = true) l → no_double b l →
  slug_loop ((λ c, String c "") <$> l) b = l.
Proof.
  intros Hl. revert b. induction Hl as [|c l Hc _ IH]; intros b; [done|].
  cbn [fmap list_fmap slug_loop no_double]. rewrite lowered_track_ascii by done.
  intros [Hb Hn]. case_bool_decide as Hd.
  - destruct b; [by destruct Hb|]. subst. by rewrite IH.
  - by rewrite IH.
Qed.

Lemma trim_start_id l : (∀ c, head l = Some c → c ≠ dash) → trim_start_dash l = l.
Proof.
  destruct l as [|c l]; simpl; [done|]. intros H.
  by rewrite bool_decide_eq_false_2 by auto.
Qed.

Lemma trim_end_id l : (∀ c, last l = Some c → c ≠ dash) → trim_end_dash l = l.
Proof.
  intros H. unfold trim_end_dash. rewrite trim_start_id, reverse_involutive; [done|].
  intros c. rewrite head_reverse. apply H.
Qed.

(** What [slugify] keeps, and its properties. *)
Definition slug_bytes (label : string) : list ascii :=
  trim_end_dash (take MAX_TRACK_ID_LEN (trim_dash (slug_loop (chars label) false))).

Lemma head_app_l {A} (l k : list A) c : head l = Some c → head (l ++ k) = Some c.
Proof. by destruct l. Qed.

Lemma slug_bytes_clean label :
  let l := slug_bytes label in
  Forall (λ c, is_track_ascii c = true) l ∧ (length l ≤ MAX_TRACK_ID_LEN)%nat ∧
  no_double false l ∧
  (∀ c, head l = Some c → c ≠ dash) ∧ (∀ c, last l = Some c → c ≠ dash).
Proof.
  simpl. unfold slug_bytes, trim_dash.
  set (out := slug_loop (chars label) false).
  destruct (trim_start_suffix out) as [k1 H1].
  destruct (trim_end_prefix (trim_start_dash out)) as [k2 H2].
  set (t := trim_end_dash (trim_start_dash out)) in *.
  destruct (trim_end_prefix (take MAX_TRACK_ID_LEN t)) as [k3 H3].
  pose proof (take_drop MAX_TRACK_ID_LEN t) as H4.
  set (l := trim_end_dash (take MAX_TRACK_ID_LEN t)) in *.
  assert (out = k1 ++ l ++ k3 ++ drop MAX_TRACK_ID_LEN t ++ k2) as Hout.
  { transitivity (k1 ++ t ++ k2); [congruence|]. f_equal.
    rewrite <- H4, H3, <- !app_assoc at 1. done. }
  assert (trim_start_dash out = l ++ k3 ++ drop MAX_TRACK_ID_LEN t ++ k2) as Hts.
  { apply (app_inv_head k1). congruence. }
  split_and!.
  - pose proof (slug_loop_track (chars label) false) as Hf.
    fold out in Hf. rewrite Hout, !Forall_app in Hf. by destruct_and!.
  - transitivity (length (take MAX_TRACK_ID_LEN t)); [|rewrite length_take; lia].
    rewrite H3, length_app. lia.
  - pose proof (slug_loop_no_double (chars label) false) as Hd.
    fold out in Hd. rewrite Hout in Hd. by apply no_double_app_r, no_double_app_l in Hd.
  - intros c Hc. apply (trim_start_head out). rewrite Hts. by apply head_app_l.
  - intros c. apply trim_end_last.
Qed.

Lemma slugify_unfold label :
  slugify label =
    match slug_bytes label with
    | [] => Some None
    | l => Some (Some {| as_str := string_of_ascii l |})
    end.
Proof.
  unfold slugify. fold (slug_bytes label).
  destruct (slug_bytes_clean label) as (Hl&Hlen&_).
  destruct (slug_bytes label) as [|c l]; [done|].
  by rewrite TrackId_new_ascii.
Qed.

(** [slugify] never panics (its closing [expect] always holds): every label is
    mapped to nothing or to an id the strict constructor accepts, and slugifying
    that id again gives it back. *)
Theorem slugify_valid_idempotent (label : string) :
  ∃ r, slugify label = Some r ∧
    match r with
    | None => True
    | Some t => valid_track t ∧ slugify (as_str t) = Some (Some t)
    end.
Proof.
  rewrite slugify_unfold. destruct (slug_bytes_clean label) as (Hl&Hlen&Hd&Hh&Hla).
  destruct (slug_bytes label) as [|c l] eqn:E; [by exists None|].
  eexists; split; [done|]. split; [by apply TrackId_new_ascii|].
  rewrite slugify_unfold. cbn [as_str]. unfold slug_bytes.
  rewrite chars_string_of_ascii, slug_loop_clean by done.
  unfold trim_dash. rewrite (trim_start_id _ Hh), (trim_end_id _ Hla), take_ge by done.
  by rewrite (trim_end_id _ Hla).
Qed.
