(* ===== verification/Cas.v ===== *)
(** * Content hashes ([kaijutsu-cas/src/hash.rs])

    A [ContentHash] is the lower-case hex of the first 16 bytes of the BLAKE3 hash
    of the content. The [blake3] and [hex] crates are the parameter [CasHash]. *)

From Stdlib Require Import Ascii.
From S2P Require Import Prelude Text Ids.

Abbreviation bytes := (list Init.Byte.byte).

(** [hex::encode(&blake3::hash(data).as_bytes()[..16])]. *)
Class CasHash := { blake3_hex16 : bytes → string }.

(** What the two crates document: 16 bytes print as 32 lower-case hex digits. *)
Class CasHashLaws `{!CasHash} := {
  blake3_hex16_length data : String.length (blake3_hex16 data) = 32%nat;
  blake3_hex16_hex data : all_chars is_hex_lower (blake3_hex16 data) = true;
}.

Record ContentHash := { hash_str : string }.

#[export] Instance ContentHash_eq_dec : EqDecision ContentHash.
Proof. solve_decision. Defined.
#[export] Instance ContentHash_countable : Countable ContentHash.
Proof. by refine (inj_countable' hash_str Build_ContentHash _); intros []. Defined.

Inductive HashError :=
  | InvalidLength (n : nat)
  | InvalidHex.

Definition from_data `{!CasHash} (data : bytes) : ContentHash :=
  {| hash_str := blake3_hex16 data |}.

(** [char::is_ascii_hexdigit], [str::to_lowercase] on ASCII. *)
Definition is_ascii_hexdigit (c : ascii) : bool :=
  is_hex_lower c || ((65 <=? byte_val c) && (byte_val c <=? 70)).
Definition ascii_lower (c : ascii) : ascii :=
  if (65 <=? byte_val c) && (byte_val c <=? 90)
  then Ascii.ascii_of_N (Ascii.N_of_ascii c + 32) else c.
Fixpoint to_lowercase (s : string) : string :=
  match s with "" => "" | String c s' => String (ascii_lower c) (to_lowercase s') end.

Definition from_str_checked (s : string) : result HashError ContentHash :=
  if negb (String.length s =? 32)%nat then Err (InvalidLength (String.length s))
  else if negb (all_chars is_ascii_hexdigit s) then Err InvalidHex
  else Ok {| hash_str := to_lowercase s |}.

(** The slices [..2] and [2..]: where the store puts the object. *)
Definition hash_prefix (h : ContentHash) : string := String.substring 0 2 (hash_str h).
Definition hash_remainder (h : ContentHash) : string :=
  String.substring 2 (String.length (hash_str h) - 2) (hash_str h).

(** The invariant of the newtype. *)
Definition hash_ok (h : ContentHash) : Prop :=
  String.length (hash_str h) = 32%nat ∧ all_chars is_hex_lower (hash_str h) = true.

(** ** Lemmas *)

Lemma lower_hex_char c :
  is_ascii_hexdigit c = true → is_hex_lower (ascii_lower c) = true.
Proof. destruct c as [[] [] [] [] [] [] [] []]; by vm_compute. Qed.

Lemma lower_hex_id c :
  is_hex_lower c = true → ascii_lower c = c ∧ is_ascii_hexdigit c = true.
Proof. destruct c as [[] [] [] [] [] [] [] []]; by vm_compute. Qed.

Lemma to_lowercase_length s : String.length (to_lowercase s) = String.length s.
Proof. induction s; simpl; congruence. Qed.

Lemma to_lowercase_hex s :
  all_chars is_ascii_hexdigit s = true → all_chars is_hex_lower (to_lowercase s) = true.
Proof.
  induction s as [|c s IH]; simpl; [done|]. rewrite !andb_true_iff.
  intros [? ?]. split; auto using lower_hex_char.
Qed.

Lemma to_lowercase_id s :
  all_chars is_hex_lower s = true →
  to_lowercase s = s ∧ all_chars is_ascii_hexdigit s = true.
Proof.
  induction s as [|c s IH]; simpl; [done|]. rewrite andb_true_iff.
  intros [[-> ->]%lower_hex_id [-> ->]%IH]. done.
Qed.

Lemma substring_all s n : (String.length s ≤ n)%nat → String.substring 0 n s = s.
Proof.
  revert n. induction s as [|c s IH]; intros [|n] ?; simpl in *; try done; [lia|].
  by rewrite IH by lia.
Qed.

(** The validated constructor establishes the invariant of the newtype (32
    lower-case hex digits) and is the identity on hashes that have it, so a hash
    written by [from_data] and read back by [from_str_checked] is the same hash. *)
Theorem content_hash_roundtrip `{!CasHash, !CasHashLaws} (data : bytes) (s : string) :
  from_str_checked (hash_str (from_data data)) = Ok (from_data data) ∧
  (∀ h, from_str_checked s = Ok h → hash_ok h ∧ from_str_checked (hash_str h) = Ok h) ∧
  (∀ h, hash_ok h → hash_prefix h +:+ hash_remainder h = hash_str h).
Proof.
  assert (∀ h, hash_ok h → from_str_checked (hash_str h) = Ok h) as Hid.
  { intros [h] [Hl [Hi Ha]%to_lowercase_id]; simpl in *.
    unfold from_str_checked. by rewrite Hl, Ha, Hi. }
  split_and!.
  - apply Hid. split; [apply blake3_hex16_length|apply blake3_hex16_hex].
  - intros h. unfold from_str_checked at 1.
    destruct (String.length s =? 32)%nat eqn:El; simpl; [|done].
    destruct (all_chars is_ascii_hexdigit s) eqn:Ea; simpl; [|done].
    apply Nat.eqb_eq in El. intros [= <-].
    assert (hash_ok {| hash_str := to_lowercase s |}) as Hok.
    { split; simpl; [by rewrite to_lowercase_length|by apply to_lowercase_hex]. }
    split; [done|]. by apply Hid.
  - intros [h] [Hl _]; unfold hash_prefix, hash_remainder; simpl in *.
    destruct h as [|a [|b h]]; simplify_eq/=. rewrite Hl. cbn [String.substring Nat.sub].
    rewrite (substring_all h 30) by lia. by destruct h.
Qed.
