(* ===== verification/Cell.v ===== *)
(** * Cells, recipes and resolvers
    ([kaijutsu-hyoushigi/src/cell.rs], [content.rs], [resolver.rs])

    A cell is a position, a way to produce content and a lifecycle state. A
    resolver is the one capability that produces content: the trait [Resolver] is
    a record of its methods, each a function of the recipe parameters and the
    read-only view [ResolverCtx] it is handed. *)

From S2P Require Import Prelude Float64 Text Tick Ids Track Cas.

(** [serde_json::Value] is opaque to the engine. *)
Class JsonLib := { Json : Type }.

(** ** Content references *)

Record ContentRef := { cref_hash : ContentHash; cref_mime : string }.

#[export] Instance ContentRef_eq_dec : EqDecision ContentRef.
Proof. solve_decision. Defined.

(** [ContentRef::of]. *)
Definition ContentRef_of `{!CasHash} (data : bytes) (mime : string) : ContentRef :=
  {| cref_hash := from_data data; cref_mime := mime |}.

(** [CasReference] carries more than a cell needs ([From<CasReference>]). *)
Record CasReference := {
  ref_hash : ContentHash;
  ref_mime_type : string;
  ref_size_bytes : Z;
  ref_local_path : option string;
}.
Definition ContentRef_from (r : CasReference) : ContentRef :=
  {| cref_hash := ref_hash r; cref_mime := ref_mime_type r |}.

(** The digest of the context slice a speculation was computed against. *)
Record ContextHash := { context_digest : ContentHash }.

#[export] Instance ContextHash_eq_dec : EqDecision ContextHash.
Proof. solve_decision. Defined.

Definition ContextHash_of `{!CasHash} (data : bytes) : ContextHash :=
  {| context_digest := from_data data |}.

(** ** Cells *)

Record ResolverId := { resolver_name : string }.

#[export] Instance ResolverId_eq_dec : EqDecision ResolverId.
Proof. solve_decision. Defined.

Record ContextQuery := { lookback : TickDelta; ambient_keys : list string }.

Inductive Fallback :=
  | Skip
  | UseLastGood
  | Literal (c : ContentRef).

Record Recipe `{!JsonLib} := {
  recipe_resolver : ResolverId;
  recipe_params : Json;
  recipe_query : ContextQuery;
  recipe_fallback : Fallback;
}.

Inductive Body `{!JsonLib} :=
  | Concrete (c : ContentRef)
  | Deferred (r : Recipe).

Inductive CellState :=
  | Pending | Speculating | Speculated | Committed | Squashed | Failed.

#[export] Instance CellState_eq_dec : EqDecision CellState.
Proof. solve_decision. Defined.

Definition can_advance_to (self next : CellState) : bool :=
  match self, next with
  | Pending, Speculating
  | Speculating, Speculated
  | Speculating, Squashed
  | Speculated, Committed
  | Speculated, Squashed
  | Squashed, Speculating
  | Pending, Failed
  | Speculating, Failed
  | Speculated, Failed
  | Squashed, Failed => true
  | _, _ => false
  end.

Definition is_terminal (s : CellState) : bool :=
  match s with Committed | Failed => true | _ => false end.

Record Cell `{!JsonLib} := {
  span : Span;
  body : Body;
  state : CellState;
  track : TrackId;
  played_by : PrincipalId;
}.
#[export] Instance Cell_settable `{!JsonLib} : Settable Cell := λ c,
  {| span := span c; body := body c; state := state c; track := track c;
     played_by := played_by c |}.

Section cells.
Context `{!JsonLib}.

Definition concrete_on (sp : Span) (content : ContentRef) (tr : TrackId)
    (by_ : PrincipalId) : Cell :=
  {| span := sp; body := Concrete content; state := Committed; track := tr;
     played_by := by_ |}.

Definition deferred_on (sp : Span) (r : Recipe) (tr : TrackId)
    (by_ : PrincipalId) : Cell :=
  {| span := sp; body := Deferred r; state := Pending; track := tr;
     played_by := by_ |}.

Definition is_deferred (c : Cell) : bool :=
  match body c with Deferred _ => true | Concrete _ => false end.

(** The recipe of a deferred cell, the content of a concrete one. *)
Definition cell_recipe (c : Cell) : option Recipe :=
  match body c with Deferred r => Some r | Concrete _ => None end.
Definition cell_content (c : Cell) : option ContentRef :=
  match body c with Concrete r => Some r | Deferred _ => None end.
End cells.

(** ** Resolvers *)

(** The committed view handed to a resolver (trait [ResolverCtx]). *)
Record ResolverCtx := {
  ctx_now : Tick;
  ctx_ambient : string → option bytes;
  ctx_content_before : Tick → option ContentRef;
}.

Record Resolution `{!JsonLib} := {
  res_bytes : bytes;
  res_mime : string;
  res_emitted : list Cell;
}.

Inductive ResolveError := ResolveFailed (error : string).

(** The trait [Resolver]. *)
Record Resolver `{!JsonLib} := {
  resolver_id : ResolverId;
  estimate_cost : Json → ResolverCtx → Duration;
  compute_basis : Json → ResolverCtx → ContextHash;
  resolve : Json → ResolverCtx → result ResolveError Resolution;
}.

(** [Resolution::content_ref]. *)
Definition content_ref `{!JsonLib, !CasHash} (r : Resolution) : ContentRef :=
  ContentRef_of (res_bytes r) (res_mime r).

(** ** The lifecycle as a relation *)

Definition advances (s t : CellState) : Prop := can_advance_to s t = true.

(** The lifecycle has one way in and two ways out. Nothing leaves a terminal
    state ([Committed] is the write barrier), every live state can reach both
    [Failed] and [Committed], and no cell is committed without having been
    speculated. *)
Theorem lifecycle_barrier (s : CellState) :
  (is_terminal s = true → ∀ t, ¬ advances s t) ∧
  (is_terminal s = false → rtc advances s Committed ∧ rtc advances s Failed) ∧
  (advances s Committed → s = Speculated) ∧
  (∀ t, rtc advances s t → is_terminal s = true → t = s).
Proof.
  unfold advances. split_and!.
  - by destruct s; intros ? [].
  - assert (rtc advances Speculated Committed) as H1 by by apply rtc_once.
    assert (rtc advances Speculating Committed) as H2 by by apply (rtc_l _ _ Speculated).
    assert (rtc advances Pending Committed) by by apply (rtc_l _ _ Speculating).
    assert (rtc advances Squashed Committed) by by apply (rtc_l _ _ Speculating).
    intros Hs. split; [by destruct s|].
    apply rtc_once. by destruct s.
  - by destruct s.
  - intros t Hr Ht. inversion Hr as [|? u ? Hu]; [done|]. by destruct s, u.
Qed.
