(* ===== verification/Concrete.v ===== *)
(** * Concrete instances of the external crates

    The [uuid], [blake3], [hex] and [serde_json] crates are parameters of the
    development. Here are small executable instances that satisfy the documented
    laws; the theorems that depend on a crate are instantiated with them on concrete
    inputs. *)

From Stdlib Require Import Ascii.
From S2P Require Import Prelude Text Ids Cas Cell.

(** ** 32 hex digits *)

Definition nibble (n : N) : ascii :=
  ascii_of_N (if (n <? 10)%N then 48 + n else 87 + n)%N.

(** [k] digits, most significant first. *)
Fixpoint hex_digits (k : nat) (n : N) : string :=
  match k with
  | O => ""
  | S k' => String (nibble (n / 16 ^ N.of_nat k' mod 16)%N) (hex_digits k' n)
  end.

Definition unnibble (c : ascii) : option N :=
  let v := N_of_ascii c in
  if (48 <=? v)%N && (v <=? 57)%N then Some (v - 48)%N
  else if (97 <=? v)%N && (v <=? 102)%N then Some (v - 87)%N
  else None.

Fixpoint unhex (acc : N) (s : string) : option N :=
  match s with
  | "" => Some acc
  | String c s' => d ← unnibble c; unhex (16 * acc + d)%N s'
  end.

Lemma nibble_ok n : (n < 16)%N → unnibble (nibble n) = Some n ∧ is_hex_lower (nibble n) = true.
Proof.
  intros Hn%N.ltb_lt. destruct n as [|p]; [done|].
  do 5 (destruct p as [p|p|]; try done).
Qed.

Lemma hex_digits_length k n : String.length (hex_digits k n) = k.
Proof. induction k; simpl; congruence. Qed.

Lemma hex_digits_hex k n : all_chars is_hex_lower (hex_digits k n) = true.
Proof.
  induction k as [|k IH]; simpl; [done|]. rewrite IH, andb_true_r.
  apply nibble_ok. apply N.mod_lt. lia.
Qed.

Lemma unhex_digits k n acc :
  unhex acc (hex_digits k n) =
    Some (acc * 16 ^ N.of_nat k + n mod 16 ^ N.of_nat k)%N.
Proof.
  revert acc. induction k as [|k IH]; intros acc; cbn [hex_digits unhex].
  { rewrite N.mod_1_r, N.mul_1_r, N.add_0_r. done. }
  destruct (nibble_ok (n / 16 ^ N.of_nat k mod 16)%N) as [-> _]; [apply N.mod_lt; lia|].
  cbn [mbind option_bind]. rewrite IH, Nat2N.inj_succ, N.pow_succ_r'. f_equal.
  rewrite (N.mul_comm 16 (16 ^ _)), N.Div0.mod_mul_r. lia.
Qed.

(** ** The instances *)

Definition toy_hash (data : bytes) : N :=
  (foldl (λ a b, a * 257 + 1 + N_of_ascii (ascii_of_byte b)) 7 data mod 2 ^ 128)%N.

Module Demo.
#[export] Instance demo_json : JsonLib := {| Json := Z |}.

#[export] Instance demo_cas : CasHash :=
  {| blake3_hex16 data := hex_digits 32 (toy_hash data) |}.
#[export] Instance demo_cas_laws : CasHashLaws.
Proof. split; intros; [apply hex_digits_length|apply hex_digits_hex]. Qed.

#[export] Instance demo_uuid : UuidCrate := {|
  uuid_as_simple u := hex_digits 32 u;
  uuid_parse_str s :=
    if (String.length s =? 32)%nat then unhex 0 s else None;
  uuid_new_v5 ns name := toy_hash (String.list_byte_of_string (hex_digits 32 ns +:+ name));
|}.
#[export] Instance demo_uuid_laws : UuidLaws.
Proof.
  split; intros.
  - apply hex_digits_hex.
  - apply hex_digits_length.
  - unfold uuid_parse_str, uuid_as_simple, demo_uuid. rewrite hex_digits_length.
    rewrite Nat.eqb_refl, unhex_digits. f_equal. by apply N.mod_small.
Qed.
End Demo.

Import Demo.

Lemma content_hash_roundtrip_witness :
  from_str_checked (hash_str (from_data [])) = Ok (from_data []) ∧
  hash_ok (from_data []).
Proof.
  destruct (content_hash_roundtrip [] (hash_str (from_data []))) as (H1&H2&_).
  split; [exact H1|]. exact (proj1 (H2 _ H1)).
Defined.
