(* ===== verification/Timeline.v ===== *)
(** * The speculative engine ([kaijutsu-hyoushigi/src/engine.rs])

    A [Timeline] is a committed past, an open future of scheduled cells and a
    playhead. [None] is a panic of the Rust code ([expect], [unreachable!],
    [mul_f64]); the [debug_assert!]s of the source are theorems of
    [TimelineFacts.v]. The loop of [advance_to] takes fuel and says so when it runs
    out; [Termination.v] says how much is enough. *)

From S2P Require Import Prelude Float64 Text Tick Ids Track Cas Cell.

(** ** The clock *)

Record TickClock := {
  ticks_per_sec : f64;
  safety_factor : f64;
  commit_margin : TickDelta;
}.

Definition TickClock_default : TickClock :=
  {| ticks_per_sec := f64_1; safety_factor := f64_1_5;
     commit_margin := TickDelta.new 1 |}.

Definition beats_for (c : TickClock) (d : Duration) : TickDelta :=
  TickDelta.new (f64_ceil_i64 (f64_mul (as_secs_f64 d) (ticks_per_sec c))).

(** ** Ledgers and errors *)

Inductive Recovery := ReSpeculated | FellBack.

Record SquashEvent := {
  sq_at : Tick;
  sq_start : Tick;
  sq_predicted : ContextHash;
  sq_actual : ContextHash;
  sq_recovery : Recovery;
}.

Record FailureEvent := {
  fl_at : Tick;
  fl_start : Tick;
  fl_resolver : ResolverId;
  fl_error : string;
  fl_played_by : PrincipalId;
}.

Inductive ScheduleError :=
  | NotDeferred
  | InThePast (start now : Tick)
  | UnknownResolver (name : string).

Inductive SeedError :=
  | NotVirgin (at_ playhead : Tick) (future committed : nat).

(** ** State *)

Record Scheduled `{!JsonLib} := {
  s_cell : Cell;
  s_start : Tick;
  speculate_at : Tick;
  commit_deadline : Tick;
  est_cost : TickDelta;
  predicted_basis : option ContextHash;
  resolution : option Resolution;
  final_attempt : bool;
}.
#[export] Instance Scheduled_settable `{!JsonLib} : Settable Scheduled := λ s,
  {| s_cell := s_cell s; s_start := s_start s; speculate_at := speculate_at s;
     commit_deadline := commit_deadline s; est_cost := est_cost s;
     predicted_basis := predicted_basis s; resolution := resolution s;
     final_attempt := final_attempt s |}.

Record Timeline `{!JsonLib} := {
  clock : TickClock;
  playhead : Tick;
  resolvers : gmap string Resolver;
  ambient : gmap string bytes;
  future : list Scheduled;
  committed : list Cell;
  cas : gmap ContentHash bytes;
  squashes : list SquashEvent;
  failures : list FailureEvent;
  last_pump : Duration;
  pump_phase_frac : f64;
}.
#[export] Instance Timeline_settable `{!JsonLib} : Settable Timeline := λ t,
  {| clock := clock t; playhead := playhead t; resolvers := resolvers t;
     ambient := ambient t; future := future t; committed := committed t;
     cas := cas t; squashes := squashes t; failures := failures t;
     last_pump := last_pump t; pump_phase_frac := pump_phase_frac t |}.

(** What a run of the advance loop gives: the final state, a panic, or no answer
    because the fuel ran out. *)
Inductive run (A : Type) := Done (a : A) | Panicked | OutOfFuel.
Arguments Done {A} a.
Arguments Panicked {A}.
Arguments OutOfFuel {A}.

Section engine.
Context {json : JsonLib} {hash : CasHash} {uuids : UuidCrate}.
Implicit Types tl : Timeline.

(** [Timeline::new]. *)
Definition timeline_new (c : TickClock) : Timeline :=
  {| clock := c; playhead := Tick.ZERO; resolvers := ∅; ambient := ∅;
     future := []; committed := []; cas := ∅; squashes := []; failures := [];
     last_pump := 0; pump_phase_frac := f64_zero |}.

Definition register_resolver (r : Resolver) tl : Timeline :=
  tl <| resolvers := <[resolver_name (resolver_id r) := r]> (resolvers tl) |>.

Definition set_clock (c : TickClock) tl : Timeline := tl <| clock := c |>.

Definition set_ambient (key : string) (value : bytes) tl : Timeline :=
  tl <| ambient := <[key := value]> (ambient tl) |>.

(** [assert!(self.committed.is_empty())]. *)
Definition rehydrate_committed (cells : list Cell) tl : option Timeline :=
  match committed tl with
  | [] => Some (tl <| committed := cells |>)
  | _ => None
  end.

Definition content_bytes (h : ContentHash) tl : option bytes := cas tl !! h.

(** *** The committed view *)

(** The concrete cells that pass [p], as (start, content). *)
Definition contents_at (p : Cell → bool) (cells : list Cell) : list (Tick * ContentRef) :=
  omap (λ c, if p c then (λ r, (start (span c), r)) <$> cell_content c else None) cells.

Definition latest (l : list (Tick * ContentRef)) : option ContentRef :=
  snd <$> max_by_key (λ x, tick_get x.1) l.

(** [CommittedCtx::content_before]: blind to tracks. *)
Definition content_before (cells : list Cell) (t : Tick) : option ContentRef :=
  latest (contents_at (λ c, Tick.leb (start (span c)) t) cells).

(** [last_committed_content_in]: the same on one track. *)
Definition last_committed_content_in (cells : list Cell) (tr : TrackId)
    (before : Tick) : option ContentRef :=
  latest (contents_at (λ c, Tick.leb (start (span c)) before
                            && bool_decide (track c = tr)) cells).

Definition committed_ctx tl (now : Tick) : ResolverCtx :=
  {| ctx_now := now;
     ctx_ambient := λ key, ambient tl !! key;
     ctx_content_before := content_before (committed tl) |}.

(** *** Scheduling *)

(** [Scheduled::next_at]. *)
Definition next_at (s : Scheduled) : option Tick :=
  match state (s_cell s) with
  | Pending => Some (speculate_at s)
  | Speculated => Some (if final_attempt s then s_start s else commit_deadline s)
  | _ => None
  end.

(** The record [schedule] pushes, once the leads are known. *)
Definition mk_scheduled (c : TickClock) (cell : Cell) (est wide : Duration) : Scheduled :=
  let st := start (span cell) in
  {| s_cell := cell;
     s_start := st;
     speculate_at := Tick.sub st (beats_for c wide);
     commit_deadline := Tick.sub st (commit_margin c);
     est_cost := beats_for c est;
     predicted_basis := None;
     resolution := None;
     final_attempt := false |}.

Definition schedule (cell : Cell) : method Timeline ScheduleError () :=
  match body cell with
  | Concrete _ => m_fail NotDeferred
  | Deferred recipe =>
      tl ← m_get;
      let st := start (span cell) in
      m_guard (negb (Tick.leb st (playhead tl))) (InThePast st (playhead tl));;
      match resolvers tl !! resolver_name (recipe_resolver recipe) with
      | None => m_fail (UnknownResolver (resolver_name (recipe_resolver recipe)))
      | Some resolver =>
          let est := estimate_cost resolver (recipe_params recipe) (committed_ctx tl st) in
          match duration_mul_f64 est (safety_factor (clock tl)) with
          | None => m_panic
          | Some wide =>
              m_modify (λ tl, tl <| future :=
                future tl ++ [mk_scheduled (clock tl) cell est wide] |>)
          end
      end
  end.

(** [seed_playhead]. *)
Definition seed_playhead (at_ : Tick) : method Timeline SeedError () :=
  tl ← m_get;
  m_guard (Tick.eqb (playhead tl) Tick.ZERO && bool_decide (future tl = nil)
           && bool_decide (committed tl = nil))
    (NotVirgin at_ (playhead tl) (length (future tl)) (length (committed tl)));;
  m_modify (λ tl, tl <| playhead := at_ |>).

(** *** The lifecycle actions *)

(** [absorb_emitted]: a concrete emission is appended to the past; the error of
    a deferred one that cannot be scheduled is dropped. *)
Definition absorb_emitted (cell : Cell) tl : option Timeline :=
  match body cell with
  | Concrete _ => Some (tl <| committed := committed tl ++ [cell] |>)
  | Deferred _ =>
      match schedule cell tl with
      | None => None
      | Some (_, tl') => Some tl'
      end
  end.

(** The loop of [commit]: every emission is stamped with the parent's lane and
    player. (The mismatch log and the debug assertion do not change state.) *)
Fixpoint absorb_all (parent_track : TrackId) (parent_player : PrincipalId)
    (emitted : list Cell) tl : option Timeline :=
  match emitted with
  | [] => Some tl
  | e :: es =>
      tl' ← absorb_emitted
              (e <| track := parent_track |> <| played_by := parent_player |>) tl;
      absorb_all parent_track parent_player es tl'
  end.

(** The cell [commit] appends: crystallized and past the barrier. *)
Definition crystallize (c : Cell) (cref : ContentRef) : Cell :=
  c <| body := Concrete cref |> <| state := Committed |>.

(** [HashMap::entry(..).or_insert(..)]. *)
Definition cas_insert (h : ContentHash) (data : bytes) (m : gmap ContentHash bytes) :
    gmap ContentHash bytes :=
  match m !! h with Some _ => m | None => <[h := data]> m end.

Definition commit (idx : nat) tl : option Timeline :=
  s ← future tl !! idx;
  res ← resolution s;
  let cref := content_ref res in
  let tl1 := tl <| future := swap_remove idx (future tl) |>
                <| cas := cas_insert (cref_hash cref) (res_bytes res) (cas tl) |>
                <| committed := committed tl ++ [crystallize (s_cell s) cref] |> in
  absorb_all (track (s_cell s)) (played_by (s_cell s)) (res_emitted res) tl1.

(** [deferred_recipe]; [None] is its [unreachable!]. *)
Definition deferred_recipe (s : Scheduled) : option Recipe := cell_recipe (s_cell s).

Definition lookup_resolver (r : Recipe) tl : option Resolver :=
  resolvers tl !! resolver_name (recipe_resolver r).

Definition fire_fallback (idx : nat) tl : option Timeline :=
  s ← future tl !! idx;
  recipe ← deferred_recipe s;
  let sp := span (s_cell s) in
  let tr := track (s_cell s) in
  let dropped := tl <| future := swap_remove idx (future tl) |> in
  let play cref := dropped <| committed :=
    committed tl ++ [concrete_on sp cref tr principal_beat] |> in
  Some match recipe_fallback recipe with
       | Skip => dropped
       | UseLastGood =>
           match last_committed_content_in (committed tl) tr (start sp) with
           | Some cref => play cref
           | None => dropped
           end
       | Literal cref => play cref
       end.

Definition speculate (idx : nat) tl : option Timeline :=
  s ← future tl !! idx;
  recipe ← deferred_recipe s;
  resolver ← lookup_resolver recipe tl;
  let ctx := committed_ctx tl (s_start s) in
  let basis := compute_basis resolver (recipe_params recipe) ctx in
  Some match resolve resolver (recipe_params recipe) ctx with
       | Ok res =>
           tl <| future := <[idx := s <| predicted_basis := Some basis |>
                                     <| resolution := Some res |>
                                     <| s_cell := (s_cell s) <| state := Speculated |> |>]>
                            (future tl) |>
       | Err (ResolveFailed error) =>
           tl <| failures := failures tl ++
                   [{| fl_at := playhead tl; fl_start := s_start s;
                       fl_resolver := recipe_resolver recipe; fl_error := error;
                       fl_played_by := played_by (s_cell s) |}] |>
              <| future := swap_remove idx (future tl) |>
       end.

Definition can_respeculate (s : Scheduled) (current : Tick) : bool :=
  negb (final_attempt s) && TickDelta.leb (est_cost s) (Tick.diff (s_start s) current).

Definition commit_or_squash (idx : nat) tl : option Timeline :=
  s ← future tl !! idx;
  recipe ← deferred_recipe s;
  resolver ← lookup_resolver recipe tl;
  let actual := compute_basis resolver (recipe_params recipe)
                  (committed_ctx tl (s_start s)) in
  predicted ← predicted_basis s;
  if bool_decide (actual = predicted) then commit idx tl
  else
    let again := can_respeculate s (playhead tl) in
    let squashed := s <| s_cell := (s_cell s) <| state := Squashed |> |> in
    let tl1 := tl <| squashes := squashes tl ++
                      [{| sq_at := playhead tl; sq_start := s_start s;
                          sq_predicted := predicted; sq_actual := actual;
                          sq_recovery := if again then ReSpeculated else FellBack |}] |> in
    if again then
      speculate idx (tl1 <| future := <[idx := squashed <| final_attempt := true |>
                                                        <| predicted_basis := None |>
                                                        <| resolution := None |>]>
                                      (future tl) |>)
    else
      fire_fallback idx (tl1 <| future := <[idx := squashed]> (future tl) |>).

(** *** The advance loop *)

(** The earliest action at or before [target]; the first one on ties. *)
Fixpoint find_next (target : Tick) (i : nat) (fut : list Scheduled)
    (best : option (nat * Tick)) : option (nat * Tick) :=
  match fut with
  | [] => best
  | s :: fut' =>
      let best' :=
        match next_at s with
        | Some at_ =>
            if Tick.leb at_ target &&
               match best with None => true | Some (_, b) => Tick.ltb at_ b end
            then Some (i, at_) else best
        | None => best
        end in
      find_next target (S i) fut' best'
  end.

Definition act (idx : nat) tl : option Timeline :=
  s ← future tl !! idx;
  match state (s_cell s) with
  | Pending => speculate idx tl
  | Speculated => commit_or_squash idx tl
  | _ => None
  end.

Fixpoint advance_loop (fuel : nat) (target : Tick) tl : run Timeline :=
  match fuel with
  | O => OutOfFuel
  | S fuel' =>
      match find_next target 0 (future tl) None with
      | None => Done (tl <| playhead := target |>)
      | Some (idx, at_) =>
          match act idx (tl <| playhead := at_ |>) with
          | None => Panicked
          | Some tl' => advance_loop fuel' target tl'
          end
      end
  end.

Definition advance_to (fuel : nat) (target : Tick) tl : run Timeline :=
  if Tick.leb target (playhead tl) then Done tl else advance_loop fuel target tl.

(** [pump]: the wall clock drives the playhead. *)
Definition pump (fuel : nat) (since_epoch : Duration) tl : run Timeline :=
  if since_epoch <=? last_pump tl then Done tl
  else
    let delta := since_epoch - last_pump tl in
    let advanced := f64_add (f64_mul (as_secs_f64 delta) (ticks_per_sec (clock tl)))
                            (pump_phase_frac tl) in
    let whole := f64_floor advanced in
    let target := Tick.add (playhead tl) (TickDelta.new (f64_to_i64 whole)) in
    let tl1 := tl <| last_pump := since_epoch |>
                  <| pump_phase_frac := f64_sub advanced whole |> in
    if Tick.ltb (playhead tl) target then advance_to fuel target tl1 else Done tl1.
End engine.
