(* ===== verification/TimelineFacts.v ===== *)
(** * The engine: invariant, write barrier, no panic *)

From S2P Require Import Prelude Float64 Text Tick Ids Track Cas Cell Timeline.

Section facts.
Context {json : JsonLib} {hash : CasHash} {uuids : UuidCrate}.
Implicit Types tl : Timeline.

(** ** The invariant *)

(** A cell as the two constructors build it. *)
Definition born (c : Cell) : Prop :=
  match body c with Concrete _ => state c = Committed | Deferred _ => state c = Pending end.

(** What a resolver owes the engine: the cells it emits are built by the
    constructors, and its cost estimate times the safety factor is a duration. *)
Definition resolver_ok (safety : f64) (r : Resolver) : Prop :=
  (∀ p ctx res, resolve r p ctx = Ok res → Forall born (res_emitted res)) ∧
  (∀ p ctx, is_Some (duration_mul_f64 (estimate_cost r p ctx) safety)).

(** A scheduled cell is deferred work for a registered resolver... *)
Definition base_ok (rs : gmap string Resolver) (s : Scheduled) : Prop :=
  s_start s = start (span (s_cell s)) ∧
  ∃ r, cell_recipe (s_cell s) = Some r ∧
       is_Some (rs !! resolver_name (recipe_resolver r)).

(** ...waiting to be speculated, or speculated with its basis and resolution. *)
Definition shape_ok (s : Scheduled) : Prop :=
  (state (s_cell s) = Pending ∧ predicted_basis s = None ∧ resolution s = None) ∨
  (state (s_cell s) = Speculated ∧ is_Some (predicted_basis s) ∧
   ∃ res, resolution s = Some res ∧ Forall born (res_emitted res)).

Definition committed_ok (c : Cell) : Prop :=
  is_Some (cell_content c) ∧ state c = Committed.

(** The invariant but for the lifecycle state of entry [idx]. *)
Record wf_but (idx : nat) tl : Prop := {
  wfb_base : ∀ j s, future tl !! j = Some s → base_ok (resolvers tl) s;
  wfb_shape : ∀ j s, future tl !! j = Some s → j ≠ idx → shape_ok s;
  wfb_committed : Forall committed_ok (committed tl);
  wfb_cas : ∀ h d, cas tl !! h = Some d → from_data d = h;
  wfb_squashes : Forall (λ e, sq_predicted e ≠ sq_actual e) (squashes tl);
  wfb_resolvers : ∀ n r, resolvers tl !! n = Some r →
    resolver_ok (safety_factor (clock tl)) r;
}.

Definition wf tl : Prop :=
  wf_but 0 tl ∧ ∀ j s, future tl !! j = Some s → shape_ok s.

Lemma wf_wf_but idx tl : wf tl → wf_but idx tl.
Proof. intros [[] ?]. split; eauto. Qed.

Lemma wf_intro idx tl :
  wf_but idx tl → (∀ s, future tl !! idx = Some s → shape_ok s) → wf tl.
Proof.
  intros [] Hs. assert (∀ j s, future tl !! j = Some s → shape_ok s).
  { intros j s Hj. destruct (decide (j = idx)) as [->|]; eauto. }
  split; [split; eauto|done].
Qed.

(** ** What never changes and what only grows *)

Record grows tl tl' : Prop := {
  grows_committed : committed tl `prefix_of` committed tl';
  grows_cas : cas tl ⊆ cas tl';
  grows_squashes : squashes tl `prefix_of` squashes tl';
  grows_failures : failures tl `prefix_of` failures tl';
  grows_resolvers : resolvers tl' = resolvers tl;
  grows_ambient : ambient tl' = ambient tl;
  grows_clock : clock tl' = clock tl;
  grows_pump : last_pump tl' = last_pump tl ∧ pump_phase_frac tl' = pump_phase_frac tl;
}.

#[export] Instance grows_preorder : PreOrder grows.
Proof.
  split.
  - intros tl. by split.
  - intros t1 t2 t3 [] []. split; try (by etrans; eauto); try congruence.
    destruct_and!. split; congruence.
Qed.

Ltac bind := cbn [mbind option_bind].
Ltac grow := split; simpl; auto with kj; try done.

(** ** Scheduling *)

Lemma schedule_cases cell tl r tl' :
  schedule cell tl = Some (r, tl') →
  (∃ e, r = Err e ∧ tl' = tl) ∨
  (∃ recipe rv est wide,
     r = Ok tt ∧ cell_recipe cell = Some recipe ∧
     resolvers tl !! resolver_name (recipe_resolver recipe) = Some rv ∧
     tick_lt (playhead tl) (start (span cell)) ∧
     est = estimate_cost rv (recipe_params recipe)
             (committed_ctx tl (start (span cell))) ∧
     duration_mul_f64 est (safety_factor (clock tl)) = Some wide ∧
     tl' = tl <| future := future tl ++ [mk_scheduled (clock tl) cell est wide] |>).
Proof.
  unfold schedule, cell_recipe. destruct (body cell) as [c|recipe].
  { unfold m_fail. intros; simplify_eq. eauto. }
  unfold mbind, method_bind, m_bind, m_get, m_guard, m_ret, m_fail, m_panic, m_modify.
  destruct (Tick.leb (start (span cell)) (playhead tl)) eqn:E; simpl.
  { intros; simplify_eq. eauto. }
  destruct (resolvers tl !! _) as [rv|] eqn:Er; [|intros; simplify_eq; eauto].
  destruct (duration_mul_f64 _ _) as [wide|] eqn:Ew; intros; simplify_eq.
  right. apply Tick_leb_gt in E. do 4 eexists. split_and!; eauto.
Qed.

Lemma schedule_total cell tl :
  wf_but 0 tl → is_Some (schedule cell tl).
Proof.
  intros Hwf. unfold schedule. destruct (body cell) as [c|recipe]; [by eexists|].
  unfold mbind, method_bind, m_bind, m_get, m_guard, m_ret, m_fail, m_panic, m_modify.
  destruct (Tick.leb _ _); simpl; [by eexists|].
  destruct (resolvers tl !! _) as [rv|] eqn:Er; [|by eexists].
  destruct (wfb_resolvers _ _ Hwf _ _ Er) as [_ Hc].
  destruct (Hc (recipe_params recipe) (committed_ctx tl (start (span cell))))
    as [w ->]. by eexists.
Qed.

(** ** Rebuilding the invariant

    An operation keeps entries, away from the one it works on, and adds entries
    that are well formed. *)
Lemma wf_rebuild idx tl tl' :
  wf_but idx tl →
  resolvers tl' = resolvers tl → clock tl' = clock tl →
  (∀ j s, future tl' !! j = Some s →
    (∃ k, k ≠ idx ∧ future tl !! k = Some s) ∨
    (base_ok (resolvers tl) s ∧ shape_ok s)) →
  Forall committed_ok (committed tl') →
  (∀ h d, cas tl' !! h = Some d → from_data d = h) →
  Forall (λ e, sq_predicted e ≠ sq_actual e) (squashes tl') →
  wf tl'.
Proof.
  intros [] Hr Hc Hf Hcm Hcas Hsq. split; [split|]; rewrite ?Hr, ?Hc; try done.
  - intros j s Hj. destruct (Hf j s Hj) as [(k&?&?)|[]]; eauto.
  - intros j s Hj _. destruct (Hf j s Hj) as [(k&?&?)|[]]; eauto.
  - intros j s Hj. destruct (Hf j s Hj) as [(k&?&?)|[]]; eauto.
Qed.

Lemma wf_push tl s :
  wf tl → base_ok (resolvers tl) s → shape_ok s →
  wf (tl <| future := future tl ++ [s] |>).
Proof.
  intros [Hb Hs] ??.
  eapply (wf_rebuild (length (future tl))); simpl; try done; try apply Hb.
  { destruct Hb; split; eauto. }
  intros j s' Hj. apply lookup_app_Some in Hj as [Hj|[Hle Hj]].
  - left. exists j. split; [|done]. apply lookup_lt_Some in Hj. lia.
  - apply list_lookup_singleton_Some in Hj as [_ <-]. auto.
Qed.

Lemma wf_drop idx tl cm m :
  wf_but idx tl → is_Some (future tl !! idx) → Forall committed_ok cm →
  (∀ h d, m !! h = Some d → from_data d = h) →
  wf (tl <| future := swap_remove idx (future tl) |> <| cas := m |>
         <| committed := cm |>).
Proof.
  intros Hb Hi Hcm Hm. eapply wf_rebuild; simpl; try done; try apply Hb.
  intros j s Hj. left. apply (swap_remove_elem (future tl) idx s Hi).
  by eapply list_elem_of_lookup_2.
Qed.

Lemma wf_insert idx tl s :
  wf_but idx tl → base_ok (resolvers tl) s → shape_ok s →
  wf (tl <| future := <[idx := s]> (future tl) |>).
Proof.
  intros Hb ??. eapply wf_rebuild; simpl; try done; try apply Hb.
  intros j s' [(->&->&_)|[Hne Hj]]%list_lookup_insert_Some; eauto.
Qed.

(** The entry under work may be in any lifecycle state. *)
Lemma wf_but_squash idx tl s q :
  wf_but idx tl → base_ok (resolvers tl) s →
  Forall (λ e, sq_predicted e ≠ sq_actual e) q →
  wf_but idx (tl <| squashes := q |> <| future := <[idx := s]> (future tl) |>).
Proof.
  intros [] ??. split; simpl; try done.
  - intros j s' [(->&->&_)|[Hne Hj]]%list_lookup_insert_Some; eauto.
  - intros j s' [(->&->&_)|[Hne Hj]]%list_lookup_insert_Some ?; eauto. done.
Qed.

Lemma schedule_wf cell tl r tl' :
  wf tl → born cell → schedule cell tl = Some (r, tl') → wf tl' ∧ grows tl tl'.
Proof.
  intros Hwf Hb [(e&->&->)|(recipe&rv&est&wide&->&Hc&Hr&_&_&_&->)]%schedule_cases;
    [done|]. split; [|grow]. apply wf_push; [done|..].
  - split; [done|]. exists recipe. eauto.
  - left. unfold born in Hb. unfold cell_recipe in Hc. by destruct (body cell).
Qed.

(** ** Emissions *)

Lemma absorb_emitted_ok e tl :
  wf tl → born e →
  ∃ tl', absorb_emitted e tl = Some tl' ∧ wf tl' ∧ grows tl tl'.
Proof.
  intros Hwf Hb. unfold absorb_emitted. destruct (body e) as [c|r] eqn:Eb.
  - eexists; split; [done|]. split; [|grow].
    destruct Hwf as [[] ?]. split; [split; simpl; auto|done].
    apply Forall_app_2; [done|]. apply Forall_singleton.
    unfold committed_ok, cell_content. unfold born in Hb.
    rewrite Eb in *. eauto.
  - destruct (schedule_total e tl) as [[r' tl'] Hs]; [by apply wf_wf_but|].
    rewrite Hs. exists tl'. split; [done|]. by eapply schedule_wf.
Qed.

Lemma absorb_all_ok tr p es tl :
  wf tl → Forall born es →
  ∃ tl', absorb_all tr p es tl = Some tl' ∧ wf tl' ∧ grows tl tl'.
Proof.
  revert tl. induction es as [|e es IH]; intros tl Hwf Hes; [by exists tl|].
  apply Forall_cons in Hes as [He Hes]. cbn [absorb_all].
  destruct (absorb_emitted_ok (e <| track := tr |> <| played_by := p |>) tl)
    as (tl1&->&Hwf1&Hg1); [done..|].
  destruct (IH tl1) as (tl2&Heq&?&?); [done..|].
  exists tl2. split_and!; [done..|by etrans].
Qed.

(** ** The actions *)

Lemma cas_insert_ok m d :
  (∀ h d, m !! h = Some d → from_data d = h) →
  ∀ h d', cas_insert (from_data d) d m !! h = Some d' → from_data d' = h.
Proof.
  intros Hm h d'. unfold cas_insert. case_match; [apply Hm|].
  rewrite lookup_insert_Some. intros [[<- <-]|[_ ?]]; auto.
Qed.

Lemma cas_insert_sub h d m : m ⊆ cas_insert h d m.
Proof. unfold cas_insert. case_match; [done|]. by apply insert_subseteq. Qed.
Hint Resolve cas_insert_sub : kj.

Lemma commit_ok idx tl s res :
  wf_but idx tl → future tl !! idx = Some s → resolution s = Some res →
  Forall born (res_emitted res) →
  ∃ tl', commit idx tl = Some tl' ∧ wf tl' ∧ grows tl tl'.
Proof.
  intros Hwf Hi Hr Hes. unfold commit. rewrite Hi; simpl. rewrite Hr; simpl.
  edestruct absorb_all_ok as (tl'&->&?&?); [|done|].
  - apply wf_drop; [done..| |].
    + apply Forall_app_2; [apply Hwf|]. apply Forall_singleton. split; [|done]. by eexists.
    + apply cas_insert_ok, Hwf.
  - exists tl'. split_and!; [done..|]. etrans; [|done]. grow.
Qed.

Lemma fire_fallback_ok idx tl :
  wf_but idx tl → is_Some (future tl !! idx) →
  ∃ tl', fire_fallback idx tl = Some tl' ∧ wf tl' ∧ grows tl tl'.
Proof.
  intros Hwf [s Hi]. unfold fire_fallback. rewrite Hi; simpl.
  destruct (wfb_base _ _ Hwf _ _ Hi) as (_&r&Hr&_).
  unfold deferred_recipe. rewrite Hr; simpl.
  assert (∀ cm, Forall committed_ok cm →
    wf (tl <| future := swap_remove idx (future tl) |> <| committed := cm |>)) as Hd.
  { intros cm Hcm. eapply (wf_drop idx tl cm (cas tl)); [done|by eexists|done|apply Hwf]. }
  assert (∀ sp cref tr by_, Forall committed_ok
    (committed tl ++ [concrete_on sp cref tr by_])) as Hp.
  { intros. apply Forall_app_2; [apply Hwf|]. apply Forall_singleton.
    split; [by eexists|done]. }
  eexists; split; [done|].
  repeat case_match; (split; [|grow]); try (apply Hd, Hp); apply (Hd (committed tl)), Hwf.
Qed.

Lemma speculate_ok idx tl :
  wf_but idx tl → is_Some (future tl !! idx) →
  ∃ tl', speculate idx tl = Some tl' ∧ wf tl' ∧ grows tl tl'.
Proof.
  intros Hwf [s Hi]. unfold speculate. rewrite Hi; simpl.
  destruct (wfb_base _ _ Hwf _ _ Hi) as (Hst&r&Hr&rv&Hrv).
  unfold deferred_recipe, lookup_resolver. rewrite Hr; simpl. rewrite Hrv; simpl.
  eexists; split; [done|]. destruct (resolve _ _ _) as [res|[error]] eqn:Er.
  - split; [|grow]. apply wf_insert; [done|..].
    + split; [done|]. exists r. eauto.
    + right. split; [done|]. split; [by eexists|]. exists res. split; [done|].
      by eapply (wfb_resolvers _ _ Hwf _ _ Hrv).
  - split; [|grow].
    match goal with |- context [failures tl ++ ?f] =>
      pose proof (wf_drop idx (tl <| failures := failures tl ++ f |>)
        (committed tl) (cas tl)) as Hd
    end.
    simpl in Hd. apply Hd; [|by eexists|apply Hwf|apply Hwf].
    destruct Hwf; by split.
Qed.

Lemma commit_or_squash_ok idx tl s :
  wf tl → future tl !! idx = Some s → state (s_cell s) = Speculated →
  ∃ tl', commit_or_squash idx tl = Some tl' ∧ wf tl' ∧ grows tl tl'.
Proof.
  intros Hwf Hi Hsp. unfold commit_or_squash. rewrite Hi; bind.
  assert (wf_but idx tl) as Hb by by apply wf_wf_but.
  destruct (wfb_base _ _ Hb _ _ Hi) as (Hst&r&Hr&rv&Hrv).
  unfold deferred_recipe, lookup_resolver. rewrite Hr; bind. rewrite Hrv; bind.
  destruct (proj2 Hwf _ _ Hi) as [(?&_)|(_&[p Hp]&res&Hres&Hborn)]; [congruence|].
  rewrite Hp; bind. case_bool_decide as Heq; [by eapply commit_ok|].
  match goal with |- context [tl <| squashes := ?q |>] => set (sq := q) end.
  assert (Forall (λ e, sq_predicted e ≠ sq_actual e) sq) as Hsq.
  { apply Forall_app_2; [apply Hb|]. apply Forall_singleton. simpl. congruence. }
  assert (∀ s', base_ok (resolvers tl) s' →
    wf_but idx (tl <| squashes := sq |> <| future := <[idx := s']> (future tl) |>))
    as Hw.
  { intros s' Hs'. by apply wf_but_squash. }
  assert (∀ s', is_Some (<[idx := s']> (future tl) !! idx)) as Hi'.
  { intros s'. apply lookup_lt_is_Some. rewrite length_insert. by eapply lookup_lt_Some. }
  destruct (can_respeculate _ _).
  - edestruct (speculate_ok idx) as (tl'&->&?&?); [apply Hw|apply Hi'|].
    { split; [done|]. exists r. eauto. }
    exists tl'. split_and!; [done..|]. etrans; [|done]. grow; apply prefix_of_app.
  - edestruct (fire_fallback_ok idx) as (tl'&->&?&?); [apply Hw|apply Hi'|].
    { split; [done|]. exists r. eauto. }
    exists tl'. split_and!; [done..|]. etrans; [|done]. grow; apply prefix_of_app.
Qed.

Lemma act_ok idx tl s t :
  wf tl → future tl !! idx = Some s → next_at s = Some t →
  ∃ tl', act idx tl = Some tl' ∧ wf tl' ∧ grows tl tl'.
Proof.
  intros Hwf Hi Hn. unfold act. rewrite Hi; simpl. unfold next_at in Hn.
  destruct (state (s_cell s)) eqn:Es; try done.
  - apply speculate_ok; [by apply wf_wf_but|by eexists].
  - by eapply commit_or_squash_ok.
Qed.

(** ** The search for the next action *)

Definition due (target : Tick) (s : Scheduled) (t : Tick) : Prop :=
  next_at s = Some t ∧ tick_le t target.

(** [find_next] on a suffix: an improvement on [best], or [best] itself. *)
Lemma find_next_gen target fut : ∀ i best,
  match find_next target i fut best with
  | Some (k, t) =>
      (best = Some (k, t) ∧
       ∀ j s u, fut !! j = Some s → due target s u → tick_le t u) ∨
      (∃ n s, k = (i + n)%nat ∧ fut !! n = Some s ∧ due target s t ∧
         (∀ j s' u, fut !! j = Some s' → due target s' u → tick_le t u) ∧
         (∀ j s' u, (j < n)%nat → fut !! j = Some s' → due target s' u → tick_lt t u) ∧
         (∀ b, best = Some b → tick_lt t b.2))
  | None => best = None ∧ ∀ j s u, fut !! j = Some s → ¬ due target s u
  end.
Proof.
  induction fut as [|s fut IH]; intros i best; cbn [find_next].
  { destruct best as [[k t]|]; [left|]; split; done. }
  set (best' := match next_at s with Some _ => _ | None => _ end).
  (* what the head does to [best] *)
  assert ((∃ t, best' = Some (i, t) ∧ due target s t ∧
             ∀ b, best = Some b → tick_lt t b.2) ∨
          (best' = best ∧ ∀ u, due target s u →
             ∃ b, best = Some b ∧ tick_le b.2 u)) as Hhd.
  { subst best'. unfold due. destruct (next_at s) as [t|]; [|right; naive_solver].
    destruct (Tick.leb t target) eqn:Et; cbn [andb].
    2:{ right. split; [done|]. intros u [[= <-] Hu]. unfold tick_le in Hu.
        apply Tick_leb_gt in Et. unfold tick_lt in Et. lia. }
    apply Tick_leb_le in Et. destruct best as [[k b]|]; [|left; naive_solver].
    destruct (Tick.ltb t b) eqn:Eb.
    - left. exists t. apply Tick_ltb_lt in Eb. naive_solver.
    - right. apply Tick_ltb_ge in Eb. naive_solver. }
  clearbody best'. specialize (IH (S i) best'). destruct (find_next target (S i) fut best') as [[k t]|].
  - destruct IH as [[Hb Hall]|(n&s1&->&Hn&Hdue&Hall&Hlt&Hbest)].
    + destruct Hhd as [(t'&Hb'&Hd&Hlt)|[Hb' Hhd]]; simplify_eq.
      * right. exists 0%nat, s. split_and!; try done; [|intros; lia].
        intros [|j] s' u Hj Hu; simplify_eq/=; [|by eauto].
        unfold due in *. destruct_and!. simplify_eq. unfold tick_le; lia.
      * left. split; [congruence|]. intros [|j] s' u Hj Hu; simplify_eq/=; [|by eauto].
        destruct (Hhd u Hu) as (b&?&?). by simplify_eq.
    + right. exists (S n), s1. split_and!; try done; [lia|..].
      * intros [|j] s' u Hj Hu; simplify_eq/=; [|by eauto].
        destruct Hhd as [(t'&Hb'&[Hd _]&_)|[Hb' Hhd]].
        -- specialize (Hbest _ Hb'). destruct Hu as [Hu _]. simplify_eq/=.
           unfold tick_lt, tick_le in *. lia.
        -- destruct (Hhd u Hu) as (b&Hb&Hle). rewrite <- Hb' in Hb.
           specialize (Hbest _ Hb). unfold tick_lt, tick_le in *. lia.
      * intros [|j] s' u Hlj Hj Hu; simplify_eq/=; [|eapply (Hlt j); [lia|done..]].
        destruct Hhd as [(t'&Hb'&[Hd _]&_)|[Hb' Hhd]].
        -- specialize (Hbest _ Hb'). destruct Hu as [Hu _]. by simplify_eq/=.
        -- destruct (Hhd u Hu) as (b&Hb&Hle). rewrite <- Hb' in Hb.
           specialize (Hbest _ Hb). unfold tick_lt, tick_le in *. lia.
      * intros b Hb. destruct Hhd as [(t'&Hb'&_&Hlt')|[Hb' _]].
        -- specialize (Hbest _ Hb'). specialize (Hlt' _ Hb).
           unfold tick_lt in *. simpl in *. lia.
        -- apply Hbest. congruence.
  - destruct IH as [Hb Hall]. destruct Hhd as [(?&?&_)|[Hb' Hhd]]; [congruence|].
    split; [congruence|]. intros [|j] s' u Hj Hu; simplify_eq/=; [|by eapply Hall].
    destruct (Hhd u Hu) as (b&?&_). congruence.
Qed.

Lemma find_next_Some target fut k t :
  find_next target 0 fut None = Some (k, t) →
  ∃ s, fut !! k = Some s ∧ due target s t ∧
    ∀ j s' u, fut !! j = Some s' → due target s' u →
      tick_le t u ∧ ((j < k)%nat → tick_lt t u).
Proof.
  intros Hf. pose proof (find_next_gen target fut 0 None) as H'. rewrite Hf in H'.
  destruct H' as [[? _]|(n&s&->&?&?&?&?&_)]; [done|]. exists s. naive_solver.
Qed.

Lemma find_next_None target fut :
  find_next target 0 fut None = None → ∀ j s u, fut !! j = Some s → ¬ due target s u.
Proof.
  intros Hf. pose proof (find_next_gen target fut 0 None) as H'. rewrite Hf in H'.
  naive_solver.
Qed.
End facts.
