(* ===== verification/Advance.v ===== *)
(** * The advance loop: safety, the write barrier, histories
    ([kaijutsu-hyoushigi/src/engine.rs])

    [advance_loop] under the invariant of [TimelineFacts.v]: it never panics, it
    only extends the durable past, and when it returns no action is left behind.
    The public operations form a step relation, and what holds of every step holds
    of every history by rule induction. *)

From S2P Require Import Prelude Float64 Text Tick Ids Track Cas Cell Timeline TimelineFacts.

Section advance.
Context {json : JsonLib} {hash : CasHash} {uuids : UuidCrate}.
Implicit Types tl : Timeline.

(** Moving the playhead touches nothing else. *)
Lemma wf_playhead t tl : wf tl → wf (tl <| playhead := t |>).
Proof. intros [[] ?]. by split. Qed.
Lemma grows_playhead t tl : grows tl (tl <| playhead := t |>).
Proof. by split. Qed.
Hint Resolve wf_playhead grows_playhead : kj.

(** No action of the open future is due at or before [target]. *)
Definition settled (target : Tick) tl : Prop :=
  ∀ j s u, future tl !! j = Some s → ¬ due target s u.

Lemma advance_loop_ok fuel target tl :
  wf tl →
  match advance_loop fuel target tl with
  | Done tl' => wf tl' ∧ grows tl tl' ∧ playhead tl' = target ∧ settled target tl'
  | Panicked => False
  | OutOfFuel => True
  end.
Proof.
  revert tl. induction fuel as [|fuel IH]; intros tl Hwf; [done|].
  cbn [advance_loop]. destruct (find_next _ _ _ _) as [[k t]|] eqn:Ef.
  - destruct (find_next_Some _ _ _ _ Ef) as (s&Hk&[Hn _]&_).
    destruct (act_ok k (tl <| playhead := t |>) s t) as (tl1&->&Hwf1&Hg1);
      auto with kj.
    specialize (IH _ Hwf1). destruct (advance_loop _ _ _); [|done..].
    destruct IH as (?&?&?&?). split_and!; [done| |done..].
    etrans; [apply (grows_playhead t)|]. by etrans.
  - split_and!; auto with kj. exact (find_next_None _ _ Ef).
Qed.

(** [advance_to] on a well-formed timeline never panics (none of its
    [expect]s and [unreachable!]s is reached). A target that is not ahead is a
    no-op; otherwise, when the loop returns, the playhead is at the target, no
    lifecycle action is left due at or before it, the invariant holds again, and
    the durable past, the content store and both ledgers have only been
    extended. *)
Theorem advance_to_safe fuel target tl (Hwf : wf tl) :
  match advance_to fuel target tl with
  | Done tl' =>
      wf tl' ∧ grows tl tl' ∧
      (tick_le target (playhead tl) → tl' = tl) ∧
      (tick_lt (playhead tl) target → playhead tl' = target ∧ settled target tl')
  | Panicked => False
  | OutOfFuel => tick_lt (playhead tl) target
  end.
Proof.
  unfold advance_to. destruct (Tick.leb target (playhead tl)) eqn:E.
  - apply Tick_leb_le in E. split_and!; try done.
    unfold tick_le, tick_lt in *. lia.
  - apply Tick_leb_gt in E. pose proof (advance_loop_ok fuel target tl Hwf) as H'.
    destruct (advance_loop _ _ _); [|done..]. destruct H' as (?&?&?&?).
    split_and!; try done. unfold tick_le, tick_lt in *. lia.
Qed.

(** ** Histories *)

(** The log of a timeline only grows, whatever the operation. *)
Record log_grows tl tl' : Prop := {
  lg_committed : committed tl `prefix_of` committed tl';
  lg_cas : cas tl ⊆ cas tl';
  lg_squashes : squashes tl `prefix_of` squashes tl';
  lg_failures : failures tl `prefix_of` failures tl';
}.

#[export] Instance log_grows_preorder : PreOrder log_grows.
Proof.
  split.
  - by split.
  - intros t1 t2 t3 [] []. split; by etrans; eauto.
Qed.

Lemma grows_log tl tl' : grows tl tl' → log_grows tl tl'.
Proof. by intros []; split. Qed.
Hint Resolve grows_log : kj.

(** One call of the public interface. The clauses for [register_resolver],
    [set_clock] and [rehydrate_committed] say what their callers owe. *)
Inductive step : Timeline → Timeline → Prop :=
  | step_register r tl :
      resolver_ok (safety_factor (clock tl)) r →
      step tl (register_resolver r tl)
  | step_set_clock c tl :
      (∀ n r, resolvers tl !! n = Some r → resolver_ok (safety_factor c) r) →
      step tl (set_clock c tl)
  | step_set_ambient k v tl : step tl (set_ambient k v tl)
  | step_rehydrate cells tl tl' :
      Forall committed_ok cells → rehydrate_committed cells tl = Some tl' →
      step tl tl'
  | step_seed at_ tl r tl' : seed_playhead at_ tl = Some (r, tl') → step tl tl'
  | step_schedule c tl r tl' :
      born c → schedule c tl = Some (r, tl') → step tl tl'
  | step_advance fuel target tl tl' :
      advance_to fuel target tl = Done tl' → step tl tl'
  | step_pump fuel d tl tl' : pump fuel d tl = Done tl' → step tl tl'.

Lemma pump_ok fuel d tl :
  wf tl →
  match pump fuel d tl with
  | Done tl' => wf tl' ∧ log_grows tl tl' ∧ resolvers tl' = resolvers tl
  | Panicked => False
  | OutOfFuel => True
  end.
Proof.
  intros Hwf. unfold pump. destruct (d <=? last_pump tl); [done|].
  set (f := f64_sub _ _). set (target := Tick.add _ _).
  assert (wf (tl <| last_pump := d |> <| pump_phase_frac := f |>)) as Hwf'
    by (destruct Hwf as [[] ?]; by split).
  destruct (Tick.ltb _ _); [|done].
  pose proof (advance_to_safe fuel target _ Hwf') as H'.
  destruct (advance_to _ _ _); [|done..]. destruct H' as (?&[]&_).
  split_and!; [done| |done]. by split.
Qed.

Lemma seed_cases at_ tl r tl' :
  seed_playhead at_ tl = Some (r, tl') →
  (r = Err (NotVirgin at_ (playhead tl) (length (future tl)) (length (committed tl)))
   ∧ tl' = tl ∧ ¬ (playhead tl = Tick.ZERO ∧ future tl = [] ∧ committed tl = [])) ∨
  (r = Ok tt ∧ tl' = tl <| playhead := at_ |> ∧
   playhead tl = Tick.ZERO ∧ future tl = [] ∧ committed tl = []).
Proof.
  unfold seed_playhead, mbind, method_bind, m_bind, m_get, m_guard, m_ret, m_fail,
    m_modify.
  destruct (Tick.eqb (playhead tl) Tick.ZERO) eqn:E;
    autorewrite with kj in E;
    repeat case_bool_decide; simpl; intros; simplify_eq;
    first [right; by split_and! | left; split_and!; [done..|naive_solver]
          | left; split_and!; [done..|intros (Hz&_)]].
  by rewrite Hz in E.
Qed.

(** Every step keeps the invariant and only extends the log. *)
Lemma step_ok tl tl' : step tl tl' → wf tl → wf tl' ∧ log_grows tl tl'.
Proof.
  intros Hs Hwf. destruct Hs as [r tl Hr|c tl Hc|k v tl|cells tl tl' Hc Hre
    |at_ tl r tl' Hse|c tl r tl' Hb Hse|fuel target tl tl' Ha|fuel d tl tl' Hp].
  - split; [|by split]. destruct Hwf as [[Hb ????] Hsh].
    assert (∀ s, base_ok (resolvers tl) s →
      base_ok (<[resolver_name (resolver_id r) := r]> (resolvers tl)) s) as Hmono.
    { intros s (?&q&?&?). split; [done|]. exists q. split; [done|].
      apply lookup_insert_is_Some'. eauto. }
    split; [split; simpl; auto|done].
    + intros j s Hj. apply Hmono. eauto.
    + intros n r' [[_ <-]|[_ Hn]]%lookup_insert_Some; eauto.
  - split; [|by split]. destruct Hwf as [[] ?]. by split.
  - split; [|by split]. destruct Hwf as [[] ?]. by split.
  - unfold rehydrate_committed in Hre. destruct (committed tl) eqn:Ec; [|done].
    simplify_eq. split.
    + destruct Hwf as [[] ?]. by split.
    + split; try done. rewrite Ec. apply prefix_nil.
  - apply seed_cases in Hse as [(_&->&_)|(_&->&_)]; auto with kj. done.
  - destruct (schedule_wf c tl r tl'); auto with kj.
  - pose proof (advance_to_safe fuel target tl Hwf) as H'. rewrite Ha in H'.
    destruct H' as (?&?&_); auto with kj.
  - pose proof (pump_ok fuel d tl Hwf) as H'. rewrite Hp in H'. naive_solver.
Qed.

Lemma timeline_new_wf c : wf (timeline_new c).
Proof. by split; [split|]. Qed.

(** C1: the write barrier over whole histories. Every timeline that calls of the
    public interface can reach from [Timeline::new] is well formed, and from
    there on no history, of whatever calls, rewrites a committed cell, changes
    or drops content, or edits either ledger: the later log extends the earlier
    one. Everything in the committed log is concrete and committed, and the store
    maps every hash to bytes that have that hash. *)
Theorem write_barrier c tl tl'
    (Hreach : rtc step (timeline_new c) tl) (Hlater : rtc step tl tl') :
  wf tl ∧ wf tl' ∧ log_grows tl tl' ∧
  Forall committed_ok (committed tl') ∧
  (∀ h d, content_bytes h tl' = Some d → from_data d = h).
Proof.
  assert (∀ t t', rtc step t t' → wf t → wf t' ∧ log_grows t t') as Hrtc.
  { induction 1 as [t|t t1 t2 Hstep _ IH]; intros Hwf; [done|].
    destruct (step_ok _ _ Hstep Hwf) as [Hwf1 Hg1].
    destruct (IH Hwf1). split; [done|]. by etrans. }
  destruct (Hrtc _ _ Hreach (timeline_new_wf c)) as [Hwf _].
  destruct (Hrtc _ _ Hlater Hwf) as [Hwf' Hg].
  split_and!; [done..|apply Hwf'|apply Hwf'].
Qed.
End advance.
