(* ===== verification/EngineSpec.v ===== *)
(** * What the lifecycle actions do ([kaijutsu-hyoushigi/src/engine.rs])

    The functional specification of [commit_or_squash] on every branch: what is
    appended to the past, to the ledgers and to the open future, and what the
    fallback plays. *)

From S2P Require Import Prelude Float64 Text Tick Ids Track Cas Cell Timeline TimelineFacts.

Section spec.
Context {json : JsonLib} {hash : CasHash} {uuids : UuidCrate}.
Implicit Types tl : Timeline.

(** An emission, as the committing parent's act. *)
Definition stamped (tr : TrackId) (p : PrincipalId) (e : Cell) : Cell :=
  e <| track := tr |> <| played_by := p |>.

(** The emissions a commit records at once, and those it can only schedule. *)
Definition is_concrete (c : Cell) : bool := negb (is_deferred c).

(** A new entry of the open future, released by a parent on lane [tr]. *)
Definition child_of (tr : TrackId) (p : PrincipalId) (es : list Cell) (now : Tick)
    (k : Scheduled) : Prop :=
  (∃ e, e ∈ es ∧ is_deferred e = true ∧ s_cell k = stamped tr p e) ∧
  tick_lt now (s_start k) ∧ s_start k = start (span (s_cell k)) ∧
  predicted_basis k = None ∧ resolution k = None ∧ final_attempt k = false.

Lemma child_of_more tr p es es' now k :
  es ⊆ es' → child_of tr p es now k → child_of tr p es' now k.
Proof. unfold child_of. set_solver. Qed.

Lemma absorb_all_spec tr p es tl tl' :
  absorb_all tr p es tl = Some tl' →
  ∃ kids,
    tl' = tl <| committed := committed tl ++ filter is_concrete (stamped tr p <$> es) |>
             <| future := future tl ++ kids |> ∧
    Forall (child_of tr p es (playhead tl)) kids.
Proof.
  revert tl. induction es as [|e es IH]; intros tl.
  { intros [= <-]. exists []. simpl. rewrite !app_nil_r. by destruct tl. }
  cbn [absorb_all]. fold (stamped tr p e). rewrite fmap_cons.
  assert (is_concrete (stamped tr p e) = is_concrete e) as Hc by done.
  assert (body (stamped tr p e) = body e) as Hbd by done.
  remember (stamped tr p e) as e' eqn:He'. intros H'.
  destruct (absorb_emitted e' tl) as [tl1|] eqn:E; [|done].
  destruct (IH tl1 H') as (kids&->&Hkids). clear IH H'.
  unfold absorb_emitted in E. rewrite Hbd in E.
  destruct (body e) as [c|r] eqn:Eb.
  - simplify_eq. exists kids. rewrite filter_cons_True
      by (rewrite Hc; unfold is_concrete, is_deferred; by rewrite Eb).
    split; [simpl; by rewrite <- (assoc_L (++))|].
    eapply Forall_impl; [done|]. intros. eapply child_of_more; [|done]. set_solver.
  - rewrite filter_cons_False
      by (rewrite Hc; unfold is_concrete, is_deferred; rewrite Eb; by intros []).
    destruct (schedule e' tl) as [[res tl2]|] eqn:Es; simplify_eq.
    assert (is_deferred e = true) as Hd by (unfold is_deferred; by rewrite Eb).
    apply schedule_cases in Es
      as [(?&->&->)|(recipe&rv&est&wide&->&_&_&Hlt&_&_&->)].
    + exists kids. split; [done|]. eapply Forall_impl; [done|].
      intros. eapply child_of_more; [|done]. set_solver.
    + eexists (_ :: kids). simpl. split; [by rewrite <- (assoc_L (++))|].
      constructor.
      * split_and!; try done. exists e. split_and!; [set_solver|done..].
      * eapply Forall_impl; [done|]. intros. eapply child_of_more; [|done]. set_solver.
Qed.

(** What the fallback of a missed cell puts into the past. *)
Definition fallback_cells (r : Recipe) (c : Cell) (past : list Cell) : list Cell :=
  let play cref := [concrete_on (span c) cref (track c) principal_beat] in
  match recipe_fallback r with
  | Skip => []
  | UseLastGood =>
      match last_committed_content_in past (track c) (start (span c)) with
      | Some cref => play cref
      | None => []
      end
  | Literal cref => play cref
  end.

Lemma fire_fallback_spec idx tl s r :
  future tl !! idx = Some s → cell_recipe (s_cell s) = Some r →
  fire_fallback idx tl = Some
    (tl <| future := swap_remove idx (future tl) |>
        <| committed := committed tl ++ fallback_cells r (s_cell s) (committed tl) |>).
Proof.
  intros Hi Hr. unfold fire_fallback. rewrite Hi. cbn [mbind option_bind].
  unfold deferred_recipe. rewrite Hr. cbn [mbind option_bind].
  unfold fallback_cells.
  repeat case_match; simpl; rewrite ?app_nil_r; done.
Qed.

(** The view a cell is resolved and validated against. *)
Definition view_of tl (s : Scheduled) : ResolverCtx := committed_ctx tl (s_start s).

(** A cell as a squash hands it back to [speculate]. *)
Definition respeculated (s : Scheduled) (basis : ContextHash) (res : Resolution) : Scheduled :=
  s <| s_cell := (s_cell s) <| state := Speculated |> |>
    <| predicted_basis := Some basis |> <| resolution := Some res |>
    <| final_attempt := true |>.

Definition squash_event tl (s : Scheduled) (p a : ContextHash) (rec : Recovery) :
    SquashEvent :=
  {| sq_at := playhead tl; sq_start := s_start s; sq_predicted := p; sq_actual := a;
     sq_recovery := rec |}.

Definition failure_event tl (s : Scheduled) (r : Recipe) (e : string) : FailureEvent :=
  {| fl_at := playhead tl; fl_start := s_start s; fl_resolver := recipe_resolver r;
     fl_error := e; fl_played_by := played_by (s_cell s) |}.

(** *** The branches *)

Section branches.
Context (idx : nat) (tl : Timeline) (s : Scheduled) (r : Recipe) (rv : Resolver).
Context (p : ContextHash) (res : Resolution).
Context (Hi : future tl !! idx = Some s) (Hr : cell_recipe (s_cell s) = Some r)
        (Hrv : lookup_resolver r tl = Some rv)
        (Hp : predicted_basis s = Some p) (Hres : resolution s = Some res).
Let actual : ContextHash := compute_basis rv (recipe_params r) (view_of tl s).

Lemma commit_or_squash_branch :
  commit_or_squash idx tl =
  if bool_decide (actual = p) then commit idx tl
  else
    let again := can_respeculate s (playhead tl) in
    let squashed := s <| s_cell := (s_cell s) <| state := Squashed |> |> in
    let tl1 := tl <| squashes := squashes tl ++ [squash_event tl s p actual
                       (if again then ReSpeculated else FellBack)] |> in
    if again then
      speculate idx (tl1 <| future := <[idx := squashed <| final_attempt := true |>
                                                        <| predicted_basis := None |>
                                                        <| resolution := None |>]>
                                      (future tl) |>)
    else fire_fallback idx (tl1 <| future := <[idx := squashed]> (future tl) |>).
Proof.
  unfold commit_or_squash. rewrite Hi. cbn [mbind option_bind].
  unfold deferred_recipe. rewrite Hr. cbn [mbind option_bind].
  rewrite Hrv. cbn [mbind option_bind]. by rewrite Hp.
Qed.

Lemma commit_or_squash_commits tl' :
  actual = p → commit_or_squash idx tl = Some tl' →
  ∃ kids,
    committed tl' = committed tl ++ crystallize (s_cell s) (content_ref res) ::
      filter is_concrete (stamped (track (s_cell s)) (played_by (s_cell s)) <$>
                          res_emitted res) ∧
    future tl' = swap_remove idx (future tl) ++ kids ∧
    Forall (child_of (track (s_cell s)) (played_by (s_cell s)) (res_emitted res)
                     (playhead tl)) kids ∧
    cas tl' = cas_insert (cref_hash (content_ref res)) (res_bytes res) (cas tl) ∧
    squashes tl' = squashes tl ∧ failures tl' = failures tl.
Proof.
  intros Ha. rewrite commit_or_squash_branch, bool_decide_true by done.
  unfold commit. rewrite Hi. cbn [mbind option_bind]. rewrite Hres.
  cbn [mbind option_bind]. intros Habs.
  apply absorb_all_spec in Habs as (kids&->&Hk). exists kids. simpl.
  by rewrite <- (assoc_L (++)).
Qed.

Lemma commit_or_squash_respeculates :
  actual ≠ p → can_respeculate s (playhead tl) = true →
  commit_or_squash idx tl = Some
    (let tl1 := tl <| squashes := squashes tl ++
                        [squash_event tl s p actual ReSpeculated] |> in
     match resolve rv (recipe_params r) (view_of tl s) with
     | Ok res' =>
         tl1 <| future := <[idx := respeculated s actual res']> (future tl) |>
     | Err (ResolveFailed e) =>
         tl1 <| failures := failures tl ++ [failure_event tl s r e] |>
             <| future := swap_remove idx (future tl) |>
     end).
Proof.
  intros Ha Hc. rewrite commit_or_squash_branch, bool_decide_false by done.
  rewrite Hc. unfold speculate. cbv zeta. simpl.
  rewrite list_lookup_insert_eq by by eapply lookup_lt_Some.
  simpl. unfold deferred_recipe. simpl. unfold cell_recipe in *. simpl. rewrite Hr.
  simpl. unfold lookup_resolver in *. simpl. rewrite Hrv. simpl.
  assert (committed_ctx
    {| clock := clock tl; playhead := playhead tl; resolvers := resolvers tl;
       ambient := ambient tl; future := _; committed := committed tl; cas := cas tl;
       squashes := _; failures := failures tl; last_pump := last_pump tl;
       pump_phase_frac := pump_phase_frac tl |} (s_start s) = view_of tl s) as ->
    by done.
  destruct (resolve _ _ _) as [res'|[e]]; simpl.
  - by rewrite list_insert_insert_eq.
  - by rewrite swap_remove_insert.
Qed.

Lemma commit_or_squash_falls_back :
  actual ≠ p → can_respeculate s (playhead tl) = false →
  commit_or_squash idx tl = Some
    (tl <| squashes := squashes tl ++ [squash_event tl s p actual FellBack] |>
        <| future := swap_remove idx (future tl) |>
        <| committed := committed tl ++ fallback_cells r (s_cell s) (committed tl) |>).
Proof.
  intros Ha Hc. rewrite commit_or_squash_branch, bool_decide_false by done.
  rewrite Hc. cbv zeta.
  erewrite fire_fallback_spec;
    [|simpl; rewrite list_lookup_insert_eq by (by eapply lookup_lt_Some); done|done].
  simpl. rewrite swap_remove_insert. done.
Qed.
End branches.
(** What the invariant says of a speculated entry. *)
Lemma speculated_entry tl idx s :
  wf tl → future tl !! idx = Some s → state (s_cell s) = Speculated →
  ∃ r rv p res, cell_recipe (s_cell s) = Some r ∧ lookup_resolver r tl = Some rv ∧
    predicted_basis s = Some p ∧ resolution s = Some res.
Proof.
  intros [Hb Hs] Hi Hst.
  destruct (wfb_base _ _ Hb _ _ Hi) as (_&r&Hr&rv&Hrv).
  destruct (Hs _ _ Hi) as [(?&_)|(_&[p Hp]&res&Hres&_)]; [congruence|].
  by exists r, rv, p, res.
Qed.

(** C4: the decision at a commit deadline. For a speculated entry of a well-formed
    timeline, [commit_or_squash] recomputes the basis against the committed view
    at the cell's own start. If it is the predicted one, the cell is crystallized
    with the bytes resolved ahead of time, followed by its concrete emissions,
    all on the parent's lane and by the parent's player; its deferred emissions
    are scheduled strictly ahead of the playhead; its bytes are in the store; no
    ledger changes. Otherwise one squash is recorded with the digests that
    differed, nothing resolved under the broken prediction reaches the past, and
    the entry is resolved again, now for its final attempt, if the budget allows,
    or else is replaced by what its fallback plays. *)
Theorem commit_or_squash_correct idx tl s
    (Hwf : wf tl) (Hi : future tl !! idx = Some s)
    (Hst : state (s_cell s) = Speculated) :
  ∃ r rv p res tl',
    cell_recipe (s_cell s) = Some r ∧ lookup_resolver r tl = Some rv ∧
    predicted_basis s = Some p ∧ resolution s = Some res ∧
    commit_or_squash idx tl = Some tl' ∧
    let c := s_cell s in
    let actual := compute_basis rv (recipe_params r) (view_of tl s) in
    if bool_decide (actual = p) then
      ∃ kids,
        committed tl' = committed tl ++ crystallize c (content_ref res) ::
          filter is_concrete (stamped (track c) (played_by c) <$> res_emitted res) ∧
        future tl' = swap_remove idx (future tl) ++ kids ∧
        Forall (child_of (track c) (played_by c) (res_emitted res) (playhead tl)) kids ∧
        is_Some (content_bytes (cref_hash (content_ref res)) tl') ∧
        squashes tl' = squashes tl ∧ failures tl' = failures tl
    else if can_respeculate s (playhead tl) then
      squashes tl' = squashes tl ++ [squash_event tl s p actual ReSpeculated] ∧
      committed tl' = committed tl ∧ cas tl' = cas tl ∧
      match resolve rv (recipe_params r) (view_of tl s) with
      | Ok res' => future tl' = <[idx := respeculated s actual res']> (future tl) ∧
                   failures tl' = failures tl
      | Err (ResolveFailed e) =>
          future tl' = swap_remove idx (future tl) ∧
          failures tl' = failures tl ++ [failure_event tl s r e]
      end
    else
      squashes tl' = squashes tl ++ [squash_event tl s p actual FellBack] ∧
      committed tl' = committed tl ++ fallback_cells r c (committed tl) ∧
      future tl' = swap_remove idx (future tl) ∧
      cas tl' = cas tl ∧ failures tl' = failures tl.
Proof.
  destruct (speculated_entry tl idx s Hwf Hi Hst) as (r&rv&p&res&Hr&Hrv&Hp&Hres).
  destruct (commit_or_squash_ok idx tl s Hwf Hi Hst) as (tl'&He&_).
  exists r, rv, p, res, tl'. split_and!; [done..|]. cbv zeta.
  case_bool_decide as Ha.
  - destruct (commit_or_squash_commits idx tl s r rv p res Hi Hr Hrv Hp Hres tl' Ha He)
      as (kids&?&?&?&Hcas&?&?).
    exists kids. split_and!; try done. unfold content_bytes. rewrite Hcas.
    unfold cas_insert. case_match eqn:E; rewrite ?E; [by eexists|].
    rewrite lookup_insert_eq. by eexists.
  - destruct (can_respeculate s (playhead tl)) eqn:Ec.
    + rewrite (commit_or_squash_respeculates idx tl s r rv p Hi Hr Hrv Hp Ha Ec) in He.
      cbv zeta in He. destruct (resolve _ _ _) as [res'|[e]]; by simplify_eq.
    + rewrite (commit_or_squash_falls_back idx tl s r rv p Hi Hr Hrv Hp Ha Ec) in He.
      by simplify_eq.
Qed.

(** What a cell offers to the [UseLastGood] fallback of a cell that starts at
    [before] on lane [tr]. *)
Definition lane_content (tr : TrackId) (before : Tick) (c : Cell) : option ContentRef :=
  if Tick.leb (start (span c)) before && bool_decide (track c = tr)
  then cell_content c else None.

Definition lane_entry (tr : TrackId) (before : Tick) (c : Cell) : option (Tick * ContentRef) :=
  (λ r, (start (span c), r)) <$> lane_content tr before c.

Lemma last_content_entries cells tr before :
  last_committed_content_in cells tr before = latest (omap (lane_entry tr before) cells).
Proof.
  unfold last_committed_content_in, contents_at. f_equal.
  apply list_omap_ext, Forall_Forall2_diag, Forall_true. intros c.
  unfold lane_entry, lane_content. by case_match.
Qed.

Lemma lane_entry_Some tr before c x :
  lane_entry tr before c = Some x ↔
  x.1 = start (span c) ∧ lane_content tr before c = Some x.2.
Proof.
  unfold lane_entry. destruct x as [t r], (lane_content tr before c); simpl; naive_solver.
Qed.

(** The entries of a lane satisfy what its contributing cells satisfy. *)
Lemma lane_entries_Forall tr before (P : Z → Prop) (cells : list Cell) :
  Forall (λ x : Tick * ContentRef, P (tick_get x.1)) (omap (lane_entry tr before) cells) ↔
  ∀ c, c ∈ cells → is_Some (lane_content tr before c) → P (tick_get (start (span c))).
Proof.
  rewrite Forall_forall. split.
  - intros H' c Hc [r Hr]. apply (H' (start (span c), r)).
    apply list_elem_of_omap. exists c. by rewrite lane_entry_Some.
  - intros H' x (c&Hc&[-> Hx]%lane_entry_Some)%list_elem_of_omap. eauto.
Qed.

Lemma lane_filter tr before (cells : list Cell) :
  omap (lane_entry tr before) (filter (λ c, track c = tr) cells) =
  omap (lane_entry tr before) cells.
Proof.
  induction cells as [|c cells IH]; [done|]. rewrite filter_cons.
  assert (∀ l, omap (lane_entry tr before) (c :: l) =
    match lane_entry tr before c with
    | Some y => y :: omap (lane_entry tr before) l
    | None => omap (lane_entry tr before) l
    end) as Hc by done.
  case_decide as Ht; rewrite !Hc, IH; [done|].
  assert (lane_entry tr before c = None) as ->; [|done].
  unfold lane_entry, lane_content. by rewrite (bool_decide_false _ Ht), andb_false_r.
Qed.

(** The lane rule of [UseLastGood]. The content it repeats is that of a
    concrete cell of its own lane, at or before the missing cell: the one with
    the greatest start, and among equals the last recorded. Cells of other lanes
    change nothing, and an empty lane gives silence. *)
Theorem use_last_good_lane cells tr before cref :
  (last_committed_content_in cells tr before = Some cref ↔
    ∃ pre c post, cells = pre ++ c :: post ∧ lane_content tr before c = Some cref ∧
      (∀ c', c' ∈ pre → is_Some (lane_content tr before c') →
         tick_le (start (span c')) (start (span c))) ∧
      (∀ c', c' ∈ post → is_Some (lane_content tr before c') →
         tick_lt (start (span c')) (start (span c)))) ∧
  (last_committed_content_in cells tr before = None ↔
    ∀ c, c ∈ cells → lane_content tr before c = None) ∧
  last_committed_content_in cells tr before =
    last_committed_content_in (filter (λ c, track c = tr) cells) tr before.
Proof.
  rewrite !last_content_entries, lane_filter. unfold latest. split_and!; [..|done].
  - rewrite fmap_Some. split.
    + intros ([t r]&Hm&->). apply max_by_key_Some in Hm as (l1&l2&Hl&H1&H2).
      apply omap_app_inv in Hl as (k1&c&k2&->&<-&[Ht Hc]%lane_entry_Some&<-).
      cbn in Ht, Hc. subst t. exists k1, c, k2. split_and!; [done..| |];
        [by apply (lane_entries_Forall _ _ (λ z, z ≤ tick_get (start (span c))))
        |by apply (lane_entries_Forall _ _ (λ z, z < tick_get (start (span c))))].
    + intros (pre&c&post&->&Hr&H1&H2). exists (start (span c), cref).
      split; [|done]. apply max_by_key_Some.
      exists (omap (lane_entry tr before) pre), (omap (lane_entry tr before) post).
      rewrite omap_app; simpl. unfold lane_entry at 2. rewrite Hr. split_and!; [done| |];
        [by apply (lane_entries_Forall _ _ (λ z, z ≤ tick_get (start (span c))))
        |by apply (lane_entries_Forall _ _ (λ z, z < tick_get (start (span c))))].
  - rewrite fmap_None, max_by_key_None. split.
    + intros Hn c Hc. destruct (lane_content tr before c) as [r|] eqn:Hr; [|done].
      pose proof (lane_entries_Forall tr before (λ _, False) cells) as HF.
      rewrite Hn in HF. destruct (proj1 HF (Forall_nil_2 _) c Hc). by rewrite Hr.
    + intros Hn. pose proof (lane_entries_Forall tr before (λ _, False) cells) as HF.
      destruct (omap (lane_entry tr before) cells) as [|x l]; [done|].
      assert (Forall (λ _ : Tick * ContentRef, False) (x :: l)) as Hx; [|by inversion Hx].
      apply HF. intros c Hc [r Hr]. by rewrite Hn in Hr.
Qed.
End spec.
