(* ===== verification/Termination.v ===== *)
(** * The advance loop terminates ([kaijutsu-hyoushigi/src/engine.rs])

    Every resolution may emit further deferred cells, so a loop can unroll for ever
    and [advance_to] need not return. It does when every deferred cell that starts
    by some horizon has a cost that covers what it emits by that horizon, and what
    starts later is not due by the target. A cell then takes at most three actions
    (speculate, squash and speculate again, commit or fall back), which gives the
    number of rounds. *)

From S2P Require Import Prelude Float64 Text Tick Ids Track Cas Cell Concrete Timeline TimelineFacts Advance EngineSpec.

Section termination.
Context {json : JsonLib} {hash : CasHash} {uuids : UuidCrate}.
Implicit Types tl : Timeline.

Context (target horizon : Tick) (cost : Recipe → Tick → nat).

(** The cost of a deferred cell that starts by the horizon. *)
Definition cell_cost (c : Cell) : nat :=
  match cell_recipe c with
  | Some r => if Tick.leb (start (span c)) horizon
              then S (cost r (start (span c))) else 0
  | None => 0
  end.

Definition emission_cost (es : list Cell) : nat := sum_list (cell_cost <$> es).

(** A resolution the recipe [r] pays for when it plays at [t]. *)
Definition emission_ok (r : Recipe) (t : Tick) (res : Resolution) : Prop :=
  Forall (λ e, tick_ok (start (span e))) (res_emitted res) ∧
  (tick_le t horizon → (emission_cost (res_emitted res) ≤ cost r t)%nat).

(** What the registered resolvers owe: no lead reaches from past the horizon back
    to the target, and every resolution is paid for. *)
Record paced (c : TickClock) (rs : gmap string Resolver) : Prop := {
  paced_lead n rv p ctx wide st :
    rs !! n = Some rv →
    duration_mul_f64 (estimate_cost rv p ctx) (safety_factor c) = Some wide →
    tick_ok st → tick_lt horizon st → tick_lt target (Tick.sub st (beats_for c wide));
  paced_emissions r rv ctx res :
    rs !! resolver_name (recipe_resolver r) = Some rv →
    resolve rv (recipe_params r) ctx = Ok res →
    emission_ok r (ctx_now ctx) res;
}.

(** The same of an entry of the open future. *)
Definition entry_paced (s : Scheduled) : Prop :=
  (tick_lt horizon (s_start s) → ∀ u, next_at s = Some u → tick_lt target u) ∧
  (∀ r res, cell_recipe (s_cell s) = Some r → resolution s = Some res →
     emission_ok r (s_start s) res).

(** Three actions for a cell to come, fewer for one under way. *)
Definition weight (s : Scheduled) : nat :=
  match cell_recipe (s_cell s) with
  | Some r =>
      if Tick.leb (s_start s) horizon then
        match state (s_cell s) with
        | Pending => 3 * S (cost r (s_start s))
        | Speculated => 3 * cost r (s_start s) + (if final_attempt s then 1 else 2)
        | _ => 0
        end
      else 0
  | None => 0
  end.

Definition measure tl : nat := sum_list (weight <$> future tl).

Definition all_paced tl : Prop := Forall entry_paced (future tl).

(** The fuel that is enough. *)
Definition enough tl : nat := S (measure tl).

(** ** Sums over the open future *)

Lemma sum_app (l k : list Scheduled) :
  sum_list (weight <$> (l ++ k)) = (sum_list (weight <$> l) + sum_list (weight <$> k))%nat.
Proof. induction l as [|s l IH]; [done|]. rewrite <- app_comm_cons, !fmap_cons. simpl in *. lia. Qed.

Lemma sum_perm (l k : list Scheduled) :
  l ≡ₚ k → sum_list (weight <$> l) = sum_list (weight <$> k).
Proof. induction 1; rewrite ?fmap_cons; simpl in *; lia. Qed.

Lemma split_at fut idx s :
  fut !! idx = Some s →
  sum_list (weight <$> fut) = (weight s + sum_list (weight <$> swap_remove idx fut))%nat ∧
  (Forall entry_paced fut →
     entry_paced s ∧ Forall entry_paced (swap_remove idx fut)).
Proof.
  intros Hi. pose proof (swap_remove_perm fut idx s Hi) as Hp. split.
  - by rewrite (sum_perm _ _ Hp).
  - intros Hf. rewrite Hp in Hf. by apply Forall_cons in Hf.
Qed.

Lemma split_insert fut idx s s' :
  fut !! idx = Some s →
  sum_list (weight <$> <[idx := s']> fut) =
    (weight s' + sum_list (weight <$> swap_remove idx fut))%nat ∧
  (Forall entry_paced fut → entry_paced s' → Forall entry_paced (<[idx := s']> fut)).
Proof.
  intros Hi. split.
  - rewrite <- (swap_remove_insert fut idx s'). apply split_at.
    apply list_lookup_insert_eq. by eapply lookup_lt_Some.
  - intros. by apply Forall_insert.
Qed.

(** ** Emissions *)

Lemma absorb_all_measure tr p es tl tl' :
  paced (clock tl) (resolvers tl) →
  Forall born es → Forall (λ e, tick_ok (start (span e))) es →
  absorb_all tr p es tl = Some tl' →
  (measure tl' ≤ measure tl + 3 * emission_cost es)%nat ∧
  (all_paced tl → all_paced tl').
Proof.
  revert tl. induction es as [|e es IH]; intros tl Hpc Hb Ht; cbn [absorb_all].
  { intros [= <-]. split; [lia|done]. }
  apply Forall_cons in Hb as [Hbe Hb], Ht as [Hte Ht].
  fold (stamped tr p e). intros Habs.
  destruct (absorb_emitted (stamped tr p e) tl) as [tl1|] eqn:E; [|done].
  change (absorb_all tr p es tl1 = Some tl') in Habs.
  assert (clock tl1 = clock tl ∧ resolvers tl1 = resolvers tl ∧
    (measure tl1 ≤ measure tl + 3 * cell_cost e)%nat ∧ (all_paced tl → all_paced tl1))
    as (Hc&Hr&Hm&Ha).
  { unfold absorb_emitted in E. change (body (stamped tr p e)) with (body e) in E.
    destruct (body e) as [c|r] eqn:Eb; [simplify_eq; split_and!; try done; unfold measure; simpl; lia|].
    destruct (schedule (stamped tr p e) tl) as [[res tl2]|] eqn:Es; simplify_eq.
    apply schedule_cases in Es
      as [(?&->&->)|(recipe&rv&est&wide&->&Hrec&Hrv&_&->&Hw&->)];
      [split_and!; try done; lia|].
    change (cell_recipe (stamped tr p e)) with (cell_recipe e) in Hrec.
    assert (state e = Pending) as Hp.
    { unfold born in Hbe. unfold cell_recipe in Hrec. by destruct (body e). }
    split_and!; try done.
    - match goal with |- context [[mk_scheduled ?c ?x ?a ?b]] =>
        set (k := mk_scheduled c x a b) end.
      assert (measure (tl <| future := future tl ++ [k] |>) = measure tl + (weight k + 0))%nat
        as -> by apply sum_app.
      assert (weight k = 3 * cell_cost e)%nat as ->; [|lia].
      unfold weight, cell_cost. simpl.
      change (cell_recipe (stamped tr p e)) with (cell_recipe e).
      rewrite Hrec, Hp. by destruct (Tick.leb _ _).
    - intros Hall. apply Forall_app_2; [done|]. apply Forall_singleton.
      split; [|done]. simpl. intros Hfar u. unfold next_at. simpl.
      rewrite Hp. intros [= <-]. by eapply paced_lead. }
  destruct (IH tl1) as [Hm' Ha']; [by rewrite Hc, Hr|done..|].
  split; [|by auto]. unfold emission_cost in *. rewrite fmap_cons. simpl. lia.
Qed.

(** ** One action *)

(** A due entry starts by the horizon. *)
Lemma due_by_horizon s u :
  entry_paced s → due target s u → Tick.leb (s_start s) horizon = true.
Proof.
  intros [Hfar _] [Hn Hle]. destruct (Tick.leb (s_start s) horizon) eqn:E; [done|].
  apply Tick_leb_gt in E. specialize (Hfar E u Hn).
  unfold tick_lt, tick_le in *. lia.
Qed.

Lemma speculate_measure idx tl s r tl' :
  wf_but idx tl → paced (clock tl) (resolvers tl) →
  future tl !! idx = Some s → cell_recipe (s_cell s) = Some r →
  Tick.leb (s_start s) horizon = true → Forall entry_paced (swap_remove idx (future tl)) →
  speculate idx tl = Some tl' →
  (measure tl' ≤ 3 * cost r (s_start s) + (if final_attempt s then 1 else 2)
                 + sum_list (weight <$> swap_remove idx (future tl)))%nat ∧
  all_paced tl'.
Proof.
  intros Hwf Hpc Hi Hr Hle Hall. unfold speculate. rewrite Hi; cbn [mbind option_bind].
  unfold deferred_recipe. rewrite Hr; cbn [mbind option_bind].
  unfold lookup_resolver.
  destruct (resolvers tl !! _) as [rv|] eqn:Hrv; cbn [mbind option_bind]; [|done].
  destruct (resolve _ _ _) as [res|[error]] eqn:Er; intros [= <-]; unfold measure, all_paced;
    simpl; [|split; [lia|done]].
  match goal with |- context [<[idx := ?x]> (future tl)] => set (s' := x) end.
  assert (entry_paced s') as Hs'.
  { split.
    - simpl. intros Hfar. apply Tick_leb_le in Hle. unfold tick_lt, tick_le in *. lia.
    - intros r' res'. change (cell_recipe (s_cell s')) with (cell_recipe (s_cell s)).
      rewrite Hr. intros [= <-] [= <-].
      exact (paced_emissions _ _ Hpc r rv (committed_ctx tl (s_start s)) res Hrv Er). }
  destruct (split_insert (future tl) idx s s' Hi) as [-> _]. split.
  - assert (weight s' = 3 * cost r (s_start s) + (if final_attempt s then 1 else 2))%nat
      as ->; [|lia].
    unfold weight. change (cell_recipe (s_cell s')) with (cell_recipe (s_cell s)).
    rewrite Hr. change (s_start s') with (s_start s). by rewrite Hle.
  - rewrite (swap_remove_perm (<[idx := s']> (future tl)) idx s').
    + by rewrite swap_remove_insert, Forall_cons.
    + apply list_lookup_insert_eq. by eapply lookup_lt_Some.
Qed.
Lemma weight_due s r :
  cell_recipe (s_cell s) = Some r → Tick.leb (s_start s) horizon = true →
  weight s = match state (s_cell s) with
             | Pending => 3 * S (cost r (s_start s))
             | Speculated => 3 * cost r (s_start s) + (if final_attempt s then 1 else 2)
             | _ => 0 end%nat.
Proof. intros Hr Hle. unfold weight. by rewrite Hr, Hle. Qed.

Lemma act_measure idx tl s u tl' :
  wf tl → paced (clock tl) (resolvers tl) → all_paced tl →
  future tl !! idx = Some s → due target s u → act idx tl = Some tl' →
  (measure tl' < measure tl)%nat ∧ all_paced tl'.
Proof.
  intros Hwf Hpc Hall Hi Hdue. pose proof (wf_wf_but idx tl Hwf) as Hb.
  destruct (split_at (future tl) idx s Hi) as [Hsum Hsplit].
  destruct (Hsplit Hall) as [Hs Hrest].
  pose proof (due_by_horizon s u Hs Hdue) as Hle.
  destruct (wfb_base _ _ Hb _ _ Hi) as (_&r&Hr&_).
  pose proof (weight_due s r Hr Hle) as Hw.
  unfold act. rewrite Hi; cbn [mbind option_bind].
  destruct (state (s_cell s)) eqn:Est; try done.
  - intros Hsp. destruct (speculate_measure idx tl s r tl' Hb Hpc Hi Hr Hle Hrest Hsp).
    split; [|done]. unfold measure at 2. rewrite Hsum, Hw.
    destruct (final_attempt s); lia.
  - destruct (speculated_entry tl idx s Hwf Hi Est) as (r'&rv&p&res&Hr'&Hrv&Hp&Hres).
    rewrite Hr in Hr'. injection Hr' as <-.
    rewrite (commit_or_squash_branch idx tl s r rv p Hi Hr Hrv Hp).
    case_bool_decide as Ha.
    + unfold commit. rewrite Hi; cbn [mbind option_bind]. rewrite Hres.
      cbn [mbind option_bind]. intros Habs.
      destruct (proj2 Hs r res Hr Hres) as [Hticks Hcost].
      apply Tick_leb_le in Hle. specialize (Hcost Hle).
      apply absorb_all_measure in Habs as [Hm Ha']; [|done| |done].
      2:{ destruct (proj2 Hwf _ _ Hi) as [(?&_)|(_&_&?&?&?)]; [congruence|].
          by simplify_eq. }
      split; [|by apply Ha']. unfold measure in Hm |- *. simpl in Hm.
      rewrite Hsum, Hw. destruct (final_attempt s); lia.
    + cbv zeta. destruct (can_respeculate s (playhead tl)) eqn:Ec.
      * apply andb_true_iff in Ec as [Hfin%negb_true_iff _].
        match goal with |- speculate idx ?t = _ → _ => set (t0 := t) end.
        match goal with t0 := context [<[idx := ?x]> (future tl)] |- _ => set (s0 := x) in t0 end.
        intros Hsp.
        assert (future t0 !! idx = Some s0) as Hi0.
        { apply list_lookup_insert_eq. by eapply lookup_lt_Some. }
        assert (swap_remove idx (future t0) = swap_remove idx (future tl)) as Hrm
          by apply swap_remove_insert.
        assert (wf_but idx t0) as Hb0.
        { apply wf_but_squash; [done|..].
          - split; [exact (proj1 (wfb_base _ _ Hb _ _ Hi))|]. exists r.
            split; [exact Hr|]. by exists rv.
          - apply Forall_app_2; [apply Hb|]. apply Forall_singleton. simpl. congruence. }
        destruct (speculate_measure idx t0 s0 r tl' Hb0 Hpc Hi0 Hr Hle) as [Hm ?];
          [by rewrite Hrm|done|].
        split; [|done]. unfold measure at 2. rewrite Hsum, Hw, Hfin.
        rewrite Hrm in Hm. change (s_start s0) with (s_start s) in Hm.
        change (final_attempt s0) with true in Hm. simpl in Hm. lia.
      * erewrite fire_fallback_spec;
          [|simpl; rewrite list_lookup_insert_eq by (by eapply lookup_lt_Some); done|done].
        simpl. rewrite swap_remove_insert. intros [= <-].
        unfold measure, all_paced; simpl. split; [|done].
        rewrite Hsum, Hw. destruct (final_attempt s); lia.
Qed.

(** C33: [advance_to] terminates. On a well-formed timeline whose registered
    resolvers and scheduled entries are paced, [enough] rounds of the loop (three
    for each unit of cost, which counts every cell the open future can still
    unroll by the horizon) give an answer, and more fuel gives the same answer. *)
Theorem advance_to_terminates tl
    (Hwf : wf tl) (Hpaced : paced (clock tl) (resolvers tl))
    (Hall : all_paced tl) :
  ∃ tl', ∀ fuel, (enough tl ≤ fuel)%nat → advance_to fuel target tl = Done tl'.
Proof.
  unfold advance_to. destruct (Tick.leb target (playhead tl)); [by exists tl|].
  enough (∀ n t, (measure t < n)%nat → wf t → paced (clock t) (resolvers t) →
    all_paced t → ∃ t', ∀ fuel, (n ≤ fuel)%nat → advance_loop fuel target t = Done t')
    as Hgen by (apply Hgen; unfold enough; auto).
  clear. induction n as [|n IH]; intros t Hn Hwf Hp Hall; [lia|].
  destruct (find_next target 0 (future t) None) as [[k u]|] eqn:Ef.
  - destruct (find_next_Some _ _ _ _ Ef) as (s&Hk&Hdue&_).
    destruct (act_ok k (t <| playhead := u |>) s u) as (t1&Hact&Hwf1&Hg);
      [destruct Hwf as [[] ?]; by split|done|apply Hdue|].
    destruct (act_measure k (t <| playhead := u |>) s u t1) as [Hlt Hall1];
      [destruct Hwf as [[] ?]; by split|done..|].
    destruct (IH t1) as (t'&Ht'); [|done| |done|].
    + unfold measure in *. simpl in Hlt. lia.
    + destruct Hg as [????-> _ -> _]. done.
    + exists t'. intros [|fuel] Hf; [lia|]. cbn [advance_loop]. rewrite Ef, Hact.
      apply Ht'. lia.
  - exists (t <| playhead := target |>). intros [|fuel] Hf; [lia|].
    cbn [advance_loop]. by rewrite Ef.
Qed.
End termination.

(** * A small score for the engine

    A looping resolver on a default clock: every commit schedules the same recipe
    four ticks later, for ever. The theorems about the engine are applied to it. *)

Import Demo.

Definition demo_lane : TrackId := {| as_str := "lead" |}.
Definition demo_player : PrincipalId := {| principal_uuid := 7 |}.

(** A negative parameter makes the resolver fail. *)
Definition demo_recipe (p : Z) : Recipe :=
  {| recipe_resolver := {| resolver_name := "loop" |};
     recipe_params := p;
     recipe_query := {| lookback := TickDelta.ZERO; ambient_keys := ["env"] |};
     recipe_fallback := UseLastGood |}.

Definition demo_cell (p t : Z) : Cell :=
  deferred_on (Span.new (Tick.new t) (TickDelta.new 4)) (demo_recipe p)
    demo_lane demo_player.

Definition demo_resolver : Resolver := {|
  resolver_id := {| resolver_name := "loop" |};
  estimate_cost _ _ := nanos_per_sec;
  compute_basis _ ctx := ContextHash_of (default [] (ctx_ambient ctx "env"));
  resolve p ctx :=
    if p <? 0 then Err (ResolveFailed "no such phrase")
    else Ok {| res_bytes := String.list_byte_of_string "abc"; res_mime := "text/vnd.abc";
               res_emitted := [demo_cell p (wrap_i64 (tick_get (ctx_now ctx) + 4))] |};
|}.

Definition demo_start : Timeline :=
  register_resolver demo_resolver (timeline_new TickClock_default).

(** [schedule] and [advance_to] on timelines where they succeed. *)
Definition sched (c : Cell) (t : Timeline) : Timeline :=
  match schedule c t with Some (_, t') => t' | None => t end.
Definition adv (n : nat) (target : Z) (t : Timeline) : Timeline :=
  match advance_to n (Tick.new target) t with Done t' => t' | _ => t end.

(** One cell at 10: its lead of a second and a half is two ticks. *)
Definition demo_tl : Timeline := sched (demo_cell 1 10) demo_start.
(** At 8 it has been speculated. *)
Definition demo_ready : Timeline := adv 5 8 demo_tl.

Lemma demo_resolver_ok : resolver_ok (safety_factor TickClock_default) demo_resolver.
Proof.
  split.
  - intros p ctx res. simpl. case_match; intros [= <-]. by apply Forall_singleton.
  - intros p ctx. eexists. by vm_compute.
Qed.

Lemma sched_step c t : wf t → born c → step t (sched c t).
Proof.
  intros Hwf Hb. destruct (schedule_total c t) as [[r t'] Hs]; [by apply wf_wf_but|].
  unfold sched. rewrite Hs. by eapply step_schedule.
Qed.

Lemma adv_steps n k t : rtc step t (adv n k t).
Proof.
  unfold adv. destruct (advance_to _ _ _) eqn:E; [|done..].
  by eapply rtc_once, step_advance.
Qed.

Lemma demo_start_wf : step (timeline_new TickClock_default) demo_start ∧ wf demo_start.
Proof.
  assert (step (timeline_new TickClock_default) demo_start) as Hs
    by apply step_register, demo_resolver_ok.
  split; [done|]. eapply step_ok; [done|apply timeline_new_wf].
Qed.

Lemma demo_reach : rtc step (timeline_new TickClock_default) demo_tl.
Proof.
  eapply rtc_l; [apply demo_start_wf|]. apply rtc_once, sched_step; [|done].
  apply demo_start_wf.
Qed.

Lemma rtc_step_wf t t' : rtc step t t' → wf t → wf t'.
Proof. induction 1 as [|t t1 t2 Hs _ IH]; [done|]. intros Hwf. by apply IH, (step_ok t t1). Qed.

Lemma demo_wf : wf demo_tl ∧ wf demo_ready.
Proof.
  assert (wf demo_tl) as Hwf by exact (rtc_step_wf _ _ demo_reach (timeline_new_wf _)).
  split; [done|]. eapply rtc_step_wf; [apply adv_steps|done].
Qed.

Definition is_done {A} (r : run A) : bool := match r with Done _ => true | _ => false end.

Example demo_ready_entry :
  (λ s, (tick_get (speculate_at s), tick_get (commit_deadline s), state (s_cell s)))
    <$> future demo_ready = [(8, 9, Speculated)].
Proof. by vm_compute. Qed.

(** The loop goes on: by tick 20, three repetitions are in the past. *)
Example demo_loop : (λ c, tick_get (start (span c))) <$> committed (adv 20 20 demo_tl)
  = [10; 14; 18].
Proof. by vm_compute. Qed.

(** A broken prediction: the ambient context changes between speculation and the
    deadline. *)
Definition demo_broken : Timeline := set_ambient "env" [Init.Byte.x01] demo_ready.
Example demo_squash :
  sq_recovery <$> squashes (adv 9 10 demo_broken) = [ReSpeculated] ∧
  length (committed (adv 9 10 demo_broken)) = 1%nat.
Proof. by vm_compute. Qed.

(** ** The theorems, on this score *)

Lemma advance_to_safe_witness : wf demo_tl ∧
  match advance_to 20 (Tick.new 20) demo_tl with
  | Done tl' => grows demo_tl tl' ∧ playhead tl' = Tick.new 20
  | _ => False
  end.
Proof.
  pose proof (advance_to_safe 20 (Tick.new 20) demo_tl (proj1 demo_wf)) as H.
  assert (is_done (advance_to 20 (Tick.new 20) demo_tl) = true) as Hd
    by (vm_compute; reflexivity).
  split; [exact (proj1 demo_wf)|].
  destruct (advance_to 20 (Tick.new 20) demo_tl) as [tl'| |]; try discriminate Hd.
  destruct H as (_&Hg&_&Hp). split; [exact Hg|].
  apply Hp. reflexivity.
Defined.

Lemma write_barrier_witness : log_grows demo_tl demo_ready.
Proof.
  exact (proj1 (proj2 (proj2 (write_barrier TickClock_default demo_tl demo_ready
    demo_reach (adv_steps 5 8 demo_tl))))).
Defined.

Definition demo_entry : Scheduled :=
  match future demo_ready with s :: _ => s | [] => mk_scheduled TickClock_default (demo_cell 1 10) 0 0 end.

Lemma commit_or_squash_correct_witness :
  future demo_ready !! 0%nat = Some demo_entry ∧
  is_Some (commit_or_squash 0 demo_ready).
Proof.
  assert (future demo_ready !! 0%nat = Some demo_entry) as Hi by (vm_compute; reflexivity).
  split; [exact Hi|].
  destruct (commit_or_squash_correct 0 demo_ready demo_entry (proj2 demo_wf) Hi)
    as (r&rv&p&res&tl'&_&_&_&_&He&_); [vm_compute; reflexivity|].
  exists tl'. exact He.
Defined.

(** *** Termination *)

Definition demo_cost (h : Z) (r : Recipe) (t : Tick) : nat := Z.to_nat (h - tick_get t).

Lemma demo_emission_ok h r t p b m :
  i64_min ≤ h ≤ i64_max - 4 →
  emission_ok (Tick.new h) (demo_cost h) r t
    {| res_bytes := b; res_mime := m; res_emitted := [demo_cell p (wrap_i64 (tick_get t + 4))] |}.
Proof.
  intros Hh. pose proof (wrap_i64_range (tick_get t + 4)) as Hw. split.
  - by apply Forall_singleton.
  - unfold tick_le, emission_cost, cell_cost, demo_cost; simpl. intros Hle.
    unfold Tick.leb; simpl. destruct (Z.leb_spec (wrap_i64 (tick_get t + 4)) h); [|simpl; lia].
    assert (tick_get t + 4 ≤ wrap_i64 (tick_get t + 4)); [|simpl; lia].
    destruct (decide (i64_min ≤ tick_get t + 4)); [|unfold in_i64 in Hw; lia].
    rewrite wrap_i64_id; [lia|]. unfold in_i64. lia.
Qed.

Lemma demo_paced : paced (Tick.new 20) (Tick.new 22) (demo_cost 22)
  TickClock_default (resolvers demo_start).
Proof.
  assert (resolvers demo_start = {["loop" := demo_resolver]}) as -> by done.
  split.
  - intros n rv p ctx wide st [_ <-]%lookup_singleton_Some Hw.
    assert (wide = 1500000000) as -> by (vm_compute in Hw; congruence).
    assert (beats_for TickClock_default 1500000000 = TickDelta.new 2) as ->
      by by vm_compute.
    unfold tick_ok, tick_lt, Tick.sub; simpl. intros. rewrite wrap_i64_id; [lia|].
    unfold in_i64, i64_min, i64_max in *. lia.
  - intros r rv ctx res [_ <-]%lookup_singleton_Some. simpl.
    case_match; intros [= <-]. by apply demo_emission_ok.
Qed.

Lemma demo_all_paced : all_paced (Tick.new 20) (Tick.new 22) (demo_cost 22) demo_tl.
Proof.
  unfold all_paced, demo_tl, sched.
  assert (future demo_start = []) as Hf by done.
  destruct (schedule _ _) as [[r t']|] eqn:E; [|by rewrite Hf].
  apply schedule_cases in E as [(?&_&->)|(?&?&est&wide&_&_&_&_&_&_&->)]; [by rewrite Hf|].
  apply Forall_app_2; [by rewrite Hf|]. apply Forall_singleton. split.
  - unfold tick_lt. simpl. lia.
  - intros r' res _ [=].
Qed.

Lemma advance_to_terminates_witness :
  ∃ tl', advance_to (enough (Tick.new 22) (demo_cost 22) demo_tl) (Tick.new 20) demo_tl
         = Done tl'.
Proof.
  destruct (advance_to_terminates (Tick.new 20) (Tick.new 22) (demo_cost 22) demo_tl)
    as [tl' Htl'].
  - exact (proj1 demo_wf).
  - exact demo_paced.
  - exact demo_all_paced.
  - exists tl'. apply Htl'. apply le_n.
Defined.

(** ** Late scheduling

    A cell may be scheduled with less room than its lead. Its speculation is then
    due behind the playhead, and [advance_loop] moves the playhead back to it: the
    failure of this cell is recorded at 9, after the playhead had reached 10. *)
Definition demo_late : Timeline := sched (demo_cell (-1) 11) (adv 5 10 demo_start).

Example playhead_rewinds :
  playhead demo_late = Tick.new 10 ∧
  fl_at <$> failures (adv 5 11 demo_late) = [Tick.new 9].
Proof. by vm_compute. Qed.
