(* ===== verification/Block.v ===== *)
(** * Blocks ([kaijutsu-types/src/block.rs], [enums.rs])

    The data every other part of the system passes around: block ids and their
    string keys, the enums with their names, the header and the snapshot of a
    block, the constructors of each kind of block, the builder and the filter.
    A constructor is an [option]: [None] is its [assert!]. The wall clock
    ([now_millis]) is an argument. *)

From Stdlib Require Import Ascii.
From S2P Require Import Prelude Text Tick Ids Track Cas Cell Concrete.

(** ** Block ids *)

Record BlockId := { context_id : ContextId; principal_id : PrincipalId; seq : Z }.
#[export] Instance BlockId_settable : Settable BlockId := λ b,
  {| context_id := context_id b; principal_id := principal_id b; seq := seq b |}.

#[export] Instance BlockId_eq_dec : EqDecision BlockId.
Proof. solve_decision. Defined.
#[export] Instance BlockId_countable : Countable BlockId.
Proof.
  by refine (inj_countable' (λ b, (context_id b, principal_id b, seq b))
    (λ t, Build_BlockId t.1.1 t.1.2 t.2) _); intros [].
Defined.

Definition underscore : ascii := "_"%char.
Definition colon : ascii := ":"%char.

Section keys.
Context {uuids : UuidCrate}.

Definition to_key (b : BlockId) : string :=
  id_to_hex (context_uuid (context_id b)) +:+
    String underscore (id_to_hex (principal_uuid (principal_id b)) +:+
      String underscore (show_uint (seq b))).

(** [None] is a part that does not parse, or a missing part. *)
Definition from_key (key : string) : option BlockId :=
  let delimiter := if contains_char key underscore then underscore else colon in
  match splitn 3 key delimiter with
  | [p0; p1; p2] =>
      c ← uuid_parse_str p0;
      p ← uuid_parse_str p1;
      n ← parse_uint u64_max p2;
      Some {| context_id := {| context_uuid := c |};
              principal_id := {| principal_uuid := p |}; seq := n |}
  | _ => None
  end.
End keys.

(** The derived order: lexicographic in the fields. *)
Definition block_id_compare (a b : BlockId) : comparison :=
  match N.compare (context_uuid (context_id a)) (context_uuid (context_id b)) with
  | Eq =>
      match N.compare (principal_uuid (principal_id a)) (principal_uuid (principal_id b)) with
      | Eq => Z.compare (seq a) (seq b)
      | c => c
      end
  | c => c
  end.
Definition block_id_le (a b : BlockId) : Prop := block_id_compare a b ≠ Gt.
#[export] Instance block_id_le_dec : RelDecision block_id_le.
Proof. intros a b. unfold block_id_le. apply _. Defined.

Definition MAX_DAG_DEPTH : nat := 512.

(** ** Enums *)

Inductive Role := User | Model | System | Tool | Asset.
Inductive ContentType := Plain | Markdown | Svg | Abc | Image.
Inductive ErrorCategory :=
  | ECTool | ECStream | ECRpc | ECRender | ECParse | ECValidation | ECKernel.
Inductive ErrorSeverity := SevWarning | SevError | SevFatal.
Inductive LogLevel := LogTrace | LogDebug | LogInfo | LogWarn | LogError.
Inductive NotificationKind := ToolAdded | ToolRemoved | NLog | PromptsChanged | Coalesced.
Inductive Status := SPending | SRunning | SDone | SError.
Inductive BlockKind :=
  | KText | KThinking | KToolCall | KToolResult | KDrift | KFile | KError
  | KNotification | KResource | KTrace.
Inductive ToolKind := Shell | Mcp | Builtin.
Inductive DriftKind := DPush | DPull | DMerge | DDistill | DNotification | DFork.

#[export] Instance Role_eq_dec : EqDecision Role.
Proof. solve_decision. Defined.
#[export] Instance ContentType_eq_dec : EqDecision ContentType.
Proof. solve_decision. Defined.
#[export] Instance ErrorCategory_eq_dec : EqDecision ErrorCategory.
Proof. solve_decision. Defined.
#[export] Instance ErrorSeverity_eq_dec : EqDecision ErrorSeverity.
Proof. solve_decision. Defined.
#[export] Instance LogLevel_eq_dec : EqDecision LogLevel.
Proof. solve_decision. Defined.
#[export] Instance NotificationKind_eq_dec : EqDecision NotificationKind.
Proof. solve_decision. Defined.
#[export] Instance Status_eq_dec : EqDecision Status.
Proof. solve_decision. Defined.
#[export] Instance BlockKind_eq_dec : EqDecision BlockKind.
Proof. solve_decision. Defined.
#[export] Instance ToolKind_eq_dec : EqDecision ToolKind.
Proof. solve_decision. Defined.
#[export] Instance DriftKind_eq_dec : EqDecision DriftKind.
Proof. solve_decision. Defined.

(** The derived [FromStr] ([strum], ASCII case insensitive) finds the name in the
    list of a variant's serializations. *)
Fixpoint lookup_name {A} (names : list (string * A)) (s : string) : option A :=
  match names with
  | [] => None
  | (n, a) :: names' =>
      if bool_decide (to_lowercase s = n) then Some a else lookup_name names' s
  end.

Definition Role_as_str (r : Role) : string :=
  match r with
  | User => "user" | Model => "model" | System => "system" | Tool => "tool"
  | Asset => "asset"
  end.
Definition Role_from_str : string → option Role :=
  lookup_name [("user", User); ("human", User); ("model", Model); ("assistant", Model);
               ("agent", Model); ("system", System); ("tool", Tool); ("asset", Asset)].

Definition ContentType_from_mime (mime : string) : ContentType :=
  if bool_decide (mime = "text/markdown") then Markdown
  else if bool_decide (mime = "image/svg+xml") then Svg
  else if bool_decide (mime = "text/vnd.abc") then Abc
  else if bool_decide (mime ∈ ["image/png"; "image/jpeg"; "image/webp"; "image/gif";
                               "image/avif"]) then Image
  else Plain.
Definition ContentType_as_mime (c : ContentType) : string :=
  match c with
  | Plain => "text/plain" | Markdown => "text/markdown" | Svg => "image/svg+xml"
  | Abc => "text/vnd.abc" | Image => "image/png"
  end.

Definition ErrorCategory_as_str (c : ErrorCategory) : string :=
  match c with
  | ECTool => "tool" | ECStream => "stream" | ECRpc => "rpc" | ECRender => "render"
  | ECParse => "parse" | ECValidation => "validation" | ECKernel => "kernel"
  end.
Definition ErrorSeverity_as_str (s : ErrorSeverity) : string :=
  match s with SevWarning => "warning" | SevError => "error" | SevFatal => "fatal" end.
Definition LogLevel_as_str (l : LogLevel) : string :=
  match l with
  | LogTrace => "trace" | LogDebug => "debug" | LogInfo => "info" | LogWarn => "warn"
  | LogError => "error"
  end.
Definition NotificationKind_as_str (k : NotificationKind) : string :=
  match k with
  | ToolAdded => "tool_added" | ToolRemoved => "tool_removed" | NLog => "log"
  | PromptsChanged => "prompts_changed" | Coalesced => "coalesced"
  end.

Definition Status_as_str (s : Status) : string :=
  match s with
  | SPending => "pending" | SRunning => "running" | SDone => "done" | SError => "error"
  end.
Definition Status_from_str : string → option Status :=
  lookup_name [("pending", SPending); ("running", SRunning); ("active", SRunning);
               ("done", SDone); ("complete", SDone); ("completed", SDone);
               ("error", SError)].
Definition Status_is_terminal (s : Status) : bool :=
  match s with SDone | SError => true | _ => false end.
Definition Status_is_active (s : Status) : bool :=
  match s with SRunning => true | _ => false end.

Definition BlockKind_as_str (k : BlockKind) : string :=
  match k with
  | KText => "text" | KThinking => "thinking" | KToolCall => "tool_call"
  | KToolResult => "tool_result" | KDrift => "drift" | KFile => "file"
  | KError => "error" | KNotification => "notification" | KResource => "resource"
  | KTrace => "trace"
  end.
Definition BlockKind_from_str : string → option BlockKind :=
  lookup_name [("text", KText); ("thinking", KThinking); ("tool_call", KToolCall);
               ("toolcall", KToolCall); ("tool_result", KToolResult);
               ("toolresult", KToolResult); ("drift", KDrift); ("file", KFile);
               ("error", KError); ("notification", KNotification);
               ("resource", KResource); ("trace", KTrace)].
Definition BlockKind_is_tool (k : BlockKind) : bool :=
  match k with KToolCall | KToolResult => true | _ => false end.

Definition ToolKind_as_str (k : ToolKind) : string :=
  match k with Shell => "shell" | Mcp => "mcp" | Builtin => "builtin" end.
Definition ToolKind_from_str : string → option ToolKind :=
  lookup_name [("shell", Shell); ("mcp", Mcp); ("builtin", Builtin)].

Definition DriftKind_as_str (k : DriftKind) : string :=
  match k with
  | DPush => "push" | DPull => "pull" | DMerge => "merge" | DDistill => "distill"
  | DNotification => "notification" | DFork => "fork"
  end.
Definition DriftKind_from_str : string → option DriftKind :=
  lookup_name [("push", DPush); ("pull", DPull); ("merge", DMerge);
               ("distill", DDistill); ("notification", DNotification); ("fork", DFork)].

(** The derived [Ord] of the types merged by value is the order of the variants. *)
Definition Status_rank (s : Status) : Z :=
  match s with SPending => 0 | SRunning => 1 | SDone => 2 | SError => 3 end.
Definition ContentType_rank (c : ContentType) : Z :=
  match c with Plain => 0 | Markdown => 1 | Svg => 2 | Abc => 3 | Image => 4 end.
Definition ToolKind_rank (k : ToolKind) : Z :=
  match k with Shell => 0 | Mcp => 1 | Builtin => 2 end.
(** [None < Some(_)]. *)
Definition tool_kind_rank (k : option ToolKind) : Z :=
  match k with None => -1 | Some k => ToolKind_rank k end.
Definition bool_rank (b : bool) : Z := if b then 1 else 0.

(** ** Payloads *)

Record ErrorSpan := { line : Z; column : Z; span_length : Z }.
Record ErrorPayload := {
  err_category : ErrorCategory;
  err_severity : ErrorSeverity;
  err_code : option string;
  err_detail : option string;
  err_span : option ErrorSpan;
  err_source_kind : option BlockKind;
}.
Record NotificationPayload := {
  note_instance : string;
  note_kind : NotificationKind;
  note_level : option LogLevel;
  note_tools : list string;
  note_count : option Z;
  note_detail : option string;
}.
Record ResourcePayload := {
  rsrc_instance : string;
  rsrc_uri : string;
  rsrc_mime_type : option string;
  rsrc_size : option Z;
  rsrc_text : option string;
  rsrc_blob_base64 : option string;
  rsrc_parent_resource_block_id : option BlockId;
}.
#[export] Instance ErrorPayload_eq_dec : EqDecision ErrorPayload.
Proof. assert (EqDecision ErrorSpan) by solve_decision. solve_decision. Defined.
#[export] Instance NotificationPayload_eq_dec : EqDecision NotificationPayload.
Proof. solve_decision. Defined.
#[export] Instance ResourcePayload_eq_dec : EqDecision ResourcePayload.
Proof. solve_decision. Defined.

(** The structured output of the [kaish_types] crate, and the JSON printer. *)
Class BlockLib `{!JsonLib} := {
  OutputData : Type;
  OutputData_eq_dec :: EqDecision OutputData;
  to_string_pretty : Json → option string;
}.

(** ** Headers *)

Record BlockHeader := {
  h_id : BlockId;
  h_parent_id : option BlockId;
  h_role : Role;
  h_kind : BlockKind;
  h_status : Status;
  h_compacted : bool;
  h_collapsed : bool;
  h_ephemeral : bool;
  h_excluded : bool;
  h_created_at : Z;
  h_updated_at : Z;
  h_tool_kind : option ToolKind;
  h_exit_code : option Z;
  h_is_error : bool;
  h_content_type : ContentType;
  h_status_at : Z;
  h_collapsed_at : Z;
  h_ephemeral_at : Z;
  h_excluded_at : Z;
  h_compacted_at : Z;
  h_tool_meta_at : Z;
  h_content_type_at : Z;
}.
#[export] Instance BlockHeader_settable : Settable BlockHeader := λ s, {|
  h_id := h_id s;
  h_parent_id := h_parent_id s;
  h_role := h_role s;
  h_kind := h_kind s;
  h_status := h_status s;
  h_compacted := h_compacted s;
  h_collapsed := h_collapsed s;
  h_ephemeral := h_ephemeral s;
  h_excluded := h_excluded s;
  h_created_at := h_created_at s;
  h_updated_at := h_updated_at s;
  h_tool_kind := h_tool_kind s;
  h_exit_code := h_exit_code s;
  h_is_error := h_is_error s;
  h_content_type := h_content_type s;
  h_status_at := h_status_at s;
  h_collapsed_at := h_collapsed_at s;
  h_ephemeral_at := h_ephemeral_at s;
  h_excluded_at := h_excluded_at s;
  h_compacted_at := h_compacted_at s;
  h_tool_meta_at := h_tool_meta_at s;
  h_content_type_at := h_content_type_at s;
|}.

#[export] Instance BlockHeader_eq_dec : EqDecision BlockHeader.
Proof. solve_decision. Defined.

Definition max_field_ts (h : BlockHeader) : Z :=
  Z.max (Z.max (Z.max (Z.max (Z.max (Z.max (h_status_at h) (h_collapsed_at h))
    (h_ephemeral_at h)) (h_excluded_at h)) (h_compacted_at h)) (h_tool_meta_at h))
    (h_content_type_at h).

Definition header_is_root (h : BlockHeader) : bool := bool_decide (h_parent_id h = None).
Definition header_has_parent (h : BlockHeader) : bool := bool_decide (h_parent_id h ≠ None).
Definition header_is_tool (h : BlockHeader) : bool := BlockKind_is_tool (h_kind h).

(** ** Snapshots *)

Record BlockSnapshot `{!JsonLib, !BlockLib} := {
  sn_id : BlockId;
  sn_parent_id : option BlockId;
  sn_role : Role;
  sn_status : Status;
  sn_kind : BlockKind;
  sn_content : string;
  sn_collapsed : bool;
  sn_compacted : bool;
  sn_ephemeral : bool;
  sn_excluded : bool;
  sn_created_at : Z;
  sn_tool_kind : option ToolKind;
  sn_tool_name : option string;
  sn_tool_input : option string;
  sn_tool_use_id : option string;
  sn_tool_call_id : option BlockId;
  sn_exit_code : option Z;
  sn_is_error : bool;
  sn_stderr : option string;
  sn_signature : option string;
  sn_output : option OutputData;
  sn_source_context : option ContextId;
  sn_source_model : option string;
  sn_drift_kind : option DriftKind;
  sn_file_path : option string;
  sn_error : option ErrorPayload;
  sn_notification : option NotificationPayload;
  sn_resource : option ResourcePayload;
  sn_content_type : ContentType;
  sn_order_key : option string;
  sn_tick : option Tick;
  sn_track : option TrackId;
  sn_updated_at : Z;
  sn_status_at : Z;
  sn_collapsed_at : Z;
  sn_ephemeral_at : Z;
  sn_excluded_at : Z;
  sn_compacted_at : Z;
  sn_tool_meta_at : Z;
  sn_content_type_at : Z;
}.
#[export] Instance BlockSnapshot_settable `{!JsonLib, !BlockLib} : Settable BlockSnapshot := λ s, {|
  sn_id := sn_id s;
  sn_parent_id := sn_parent_id s;
  sn_role := sn_role s;
  sn_status := sn_status s;
  sn_kind := sn_kind s;
  sn_content := sn_content s;
  sn_collapsed := sn_collapsed s;
  sn_compacted := sn_compacted s;
  sn_ephemeral := sn_ephemeral s;
  sn_excluded := sn_excluded s;
  sn_created_at := sn_created_at s;
  sn_tool_kind := sn_tool_kind s;
  sn_tool_name := sn_tool_name s;
  sn_tool_input := sn_tool_input s;
  sn_tool_use_id := sn_tool_use_id s;
  sn_tool_call_id := sn_tool_call_id s;
  sn_exit_code := sn_exit_code s;
  sn_is_error := sn_is_error s;
  sn_stderr := sn_stderr s;
  sn_signature := sn_signature s;
  sn_output := sn_output s;
  sn_source_context := sn_source_context s;
  sn_source_model := sn_source_model s;
  sn_drift_kind := sn_drift_kind s;
  sn_file_path := sn_file_path s;
  sn_error := sn_error s;
  sn_notification := sn_notification s;
  sn_resource := sn_resource s;
  sn_content_type := sn_content_type s;
  sn_order_key := sn_order_key s;
  sn_tick := sn_tick s;
  sn_track := sn_track s;
  sn_updated_at := sn_updated_at s;
  sn_status_at := sn_status_at s;
  sn_collapsed_at := sn_collapsed_at s;
  sn_ephemeral_at := sn_ephemeral_at s;
  sn_excluded_at := sn_excluded_at s;
  sn_compacted_at := sn_compacted_at s;
  sn_tool_meta_at := sn_tool_meta_at s;
  sn_content_type_at := sn_content_type_at s;
|}.

Section snapshots.
Context {json : JsonLib} {blib : BlockLib}.
Implicit Types s : BlockSnapshot.

(** [BlockHeader::from_snapshot]. *)
Definition header_from_snapshot s : BlockHeader := {|
  h_id := sn_id s;
  h_parent_id := sn_parent_id s;
  h_role := sn_role s;
  h_kind := sn_kind s;
  h_status := sn_status s;
  h_compacted := sn_compacted s;
  h_collapsed := sn_collapsed s;
  h_ephemeral := sn_ephemeral s;
  h_excluded := sn_excluded s;
  h_created_at := sn_created_at s;
  h_updated_at := sn_updated_at s;
  h_tool_kind := sn_tool_kind s;
  h_exit_code := sn_exit_code s;
  h_is_error := sn_is_error s;
  h_content_type := sn_content_type s;
  h_status_at := sn_status_at s;
  h_collapsed_at := sn_collapsed_at s;
  h_ephemeral_at := sn_ephemeral_at s;
  h_excluded_at := sn_excluded_at s;
  h_compacted_at := sn_compacted_at s;
  h_tool_meta_at := sn_tool_meta_at s;
  h_content_type_at := sn_content_type_at s;
|}.

Record BlockMetadata := {
  md_exit_code : option Z;
  md_is_error : bool;
  md_content_type : ContentType;
  md_ephemeral : bool;
  md_tool_use_id : option string;
  md_stderr : option string;
}.

Definition author s : PrincipalId := principal_id (sn_id s).

Definition metadata s : BlockMetadata :=
  {| md_exit_code := sn_exit_code s; md_is_error := sn_is_error s;
     md_content_type := sn_content_type s; md_ephemeral := sn_ephemeral s;
     md_tool_use_id := sn_tool_use_id s; md_stderr := sn_stderr s |}.

(** *** Constructors

    Every struct literal of the source writes the same values in the fields it
    does not speak of. *)
Definition blank (now : Z) (id : BlockId) (parent : option BlockId) (r : Role)
    (st : Status) (k : BlockKind) (content : string) : BlockSnapshot := {|
  sn_id := id;
  sn_parent_id := parent;
  sn_role := r;
  sn_status := st;
  sn_kind := k;
  sn_content := content;
  sn_collapsed := false;
  sn_compacted := false;
  sn_ephemeral := false;
  sn_excluded := false;
  sn_created_at := now;
  sn_tool_kind := None;
  sn_tool_name := None;
  sn_tool_input := None;
  sn_tool_use_id := None;
  sn_tool_call_id := None;
  sn_exit_code := None;
  sn_is_error := false;
  sn_stderr := None;
  sn_signature := None;
  sn_output := None;
  sn_source_context := None;
  sn_source_model := None;
  sn_drift_kind := None;
  sn_file_path := None;
  sn_error := None;
  sn_notification := None;
  sn_resource := None;
  sn_content_type := Plain;
  sn_order_key := None;
  sn_tick := None;
  sn_track := None;
  sn_updated_at := 0;
  sn_status_at := 0;
  sn_collapsed_at := 0;
  sn_ephemeral_at := 0;
  sn_excluded_at := 0;
  sn_compacted_at := 0;
  sn_tool_meta_at := 0;
  sn_content_type_at := 0;
|}.

(** [parent_id.is_none_or(|p| p.context_id == id.context_id)]. *)
Definition same_context (id : BlockId) (parent : option BlockId) : bool :=
  match parent with
  | None => true
  | Some p => bool_decide (context_id p = context_id id)
  end.

Definition asserting {A} (b : bool) (a : A) : option A := if b then Some a else None.

Definition snap_text now id parent role content : option BlockSnapshot :=
  asserting (same_context id parent)
    (blank now id parent role SDone KText content).

Definition snap_thinking now id parent content : option BlockSnapshot :=
  asserting (same_context id parent)
    (blank now id parent Model SDone KThinking content).

Definition snap_tool_call now id parent tool_kind tool_name (tool_input : Json) role
    tool_use_id : option BlockSnapshot :=
  let input_json := default "" (to_string_pretty tool_input) in
  asserting (same_context id parent)
    ((blank now id parent role SRunning KToolCall input_json)
       <| sn_tool_kind := Some tool_kind |> <| sn_tool_name := Some tool_name |>
       <| sn_tool_input := Some input_json |> <| sn_tool_use_id := tool_use_id |>).

Definition snap_tool_result now id (tool_call_id : BlockId) tool_kind content
    (is_error : bool) exit_code tool_use_id : option BlockSnapshot :=
  asserting (same_context id (Some tool_call_id))
    ((blank now id (Some tool_call_id) Tool (if is_error then SError else SDone)
            KToolResult content)
       <| sn_tool_kind := Some tool_kind |> <| sn_tool_use_id := tool_use_id |>
       <| sn_tool_call_id := Some tool_call_id |> <| sn_exit_code := exit_code |>
       <| sn_is_error := is_error |>).

Definition snap_tool_result_with_output now id (tool_call_id : BlockId) tool_kind content
    (is_error : bool) exit_code (output : option OutputData) tool_use_id :
    option BlockSnapshot :=
  asserting (same_context id (Some tool_call_id))
    ((blank now id (Some tool_call_id) Tool (if is_error then SError else SDone)
            KToolResult content)
       <| sn_tool_kind := Some tool_kind |> <| sn_tool_use_id := tool_use_id |>
       <| sn_tool_call_id := Some tool_call_id |> <| sn_exit_code := exit_code |>
       <| sn_is_error := is_error |> <| sn_output := output |>).

Definition snap_drift now id parent content source_context source_model drift_kind :
    option BlockSnapshot :=
  asserting (same_context id parent)
    ((blank now id parent System SDone KDrift content)
       <| sn_source_context := Some source_context |>
       <| sn_source_model := source_model |> <| sn_drift_kind := Some drift_kind |>).

Definition snap_file now id parent file_path content : option BlockSnapshot :=
  asserting (same_context id parent)
    ((blank now id parent Asset SDone KFile content) <| sn_file_path := Some file_path |>).

Definition snap_error_for now id (parent : BlockId) payload summary : option BlockSnapshot :=
  asserting (same_context id (Some parent))
    ((blank now id (Some parent) System SError KError summary)
       <| sn_error := Some payload |>).

Definition snap_system_error now id payload summary : BlockSnapshot :=
  (blank now id None System SError KError summary) <| sn_error := Some payload |>.

Definition snap_resource_block now id parent payload summary : option BlockSnapshot :=
  asserting (same_context id parent)
    ((blank now id parent System SDone KResource summary)
       <| sn_resource := Some payload |>).

Definition snap_notification_block now id parent payload summary : option BlockSnapshot :=
  asserting (same_context id parent)
    ((blank now id parent System SDone KNotification summary)
       <| sn_notification := Some payload |>).

Definition snap_is_root s : bool := bool_decide (sn_parent_id s = None).
Definition snap_has_parent s : bool := bool_decide (sn_parent_id s ≠ None).
Definition snap_is_shell s : bool :=
  bool_decide (sn_tool_kind s = Some Shell) && BlockKind_is_tool (sn_kind s).

(** Equality of everything but the clock, the timestamps, [excluded], [stderr]
    and [tick]. *)
Definition content_eq s o : bool :=
  bool_decide (sn_id s = sn_id o) &&
  bool_decide (sn_parent_id s = sn_parent_id o) &&
  bool_decide (sn_role s = sn_role o) &&
  bool_decide (sn_status s = sn_status o) &&
  bool_decide (sn_kind s = sn_kind o) &&
  bool_decide (sn_content s = sn_content o) &&
  bool_decide (sn_collapsed s = sn_collapsed o) &&
  bool_decide (sn_compacted s = sn_compacted o) &&
  bool_decide (sn_ephemeral s = sn_ephemeral o) &&
  bool_decide (sn_tool_kind s = sn_tool_kind o) &&
  bool_decide (sn_tool_name s = sn_tool_name o) &&
  bool_decide (sn_tool_input s = sn_tool_input o) &&
  bool_decide (sn_tool_call_id s = sn_tool_call_id o) &&
  bool_decide (sn_exit_code s = sn_exit_code o) &&
  bool_decide (sn_is_error s = sn_is_error o) &&
  bool_decide (sn_signature s = sn_signature o) &&
  bool_decide (sn_output s = sn_output o) &&
  bool_decide (sn_tool_use_id s = sn_tool_use_id o) &&
  bool_decide (sn_source_context s = sn_source_context o) &&
  bool_decide (sn_source_model s = sn_source_model o) &&
  bool_decide (sn_drift_kind s = sn_drift_kind o) &&
  bool_decide (sn_file_path s = sn_file_path o) &&
  bool_decide (sn_error s = sn_error o) &&
  bool_decide (sn_notification s = sn_notification o) &&
  bool_decide (sn_resource s = sn_resource o) &&
  bool_decide (sn_content_type s = sn_content_type o) &&
  bool_decide (sn_order_key s = sn_order_key o) &&
  bool_decide (sn_track s = sn_track o).

(** *** The builder *)

Definition builder_new now id kind : BlockSnapshot := blank now id None User SDone kind "".
Definition with_parent_id v s : BlockSnapshot := s <| sn_parent_id := Some v |>.
Definition with_role v s : BlockSnapshot := s <| sn_role := v |>.
Definition with_status v s : BlockSnapshot := s <| sn_status := v |>.
Definition with_content v s : BlockSnapshot := s <| sn_content := v |>.
Definition with_collapsed v s : BlockSnapshot := s <| sn_collapsed := v |>.
Definition with_compacted v s : BlockSnapshot := s <| sn_compacted := v |>.
Definition with_excluded v s : BlockSnapshot := s <| sn_excluded := v |>.
Definition with_tool_kind v s : BlockSnapshot := s <| sn_tool_kind := Some v |>.
Definition with_tool_name v s : BlockSnapshot := s <| sn_tool_name := Some v |>.
Definition with_tool_input v s : BlockSnapshot := s <| sn_tool_input := Some v |>.
Definition with_tool_call_id v s : BlockSnapshot := s <| sn_tool_call_id := Some v |>.
Definition with_exit_code v s : BlockSnapshot := s <| sn_exit_code := Some v |>.
Definition with_stderr v s : BlockSnapshot := s <| sn_stderr := Some v |>.
Definition with_signature v s : BlockSnapshot := s <| sn_signature := Some v |>.
Definition with_output v s : BlockSnapshot := s <| sn_output := Some v |>.
Definition with_tool_use_id v s : BlockSnapshot := s <| sn_tool_use_id := Some v |>.
Definition with_source_context v s : BlockSnapshot := s <| sn_source_context := Some v |>.
Definition with_source_model v s : BlockSnapshot := s <| sn_source_model := Some v |>.
Definition with_drift_kind v s : BlockSnapshot := s <| sn_drift_kind := Some v |>.
Definition with_file_path v s : BlockSnapshot := s <| sn_file_path := Some v |>.
Definition with_content_type v s : BlockSnapshot := s <| sn_content_type := v |>.
Definition with_ephemeral v s : BlockSnapshot := s <| sn_ephemeral := v |>.
Definition with_tick v s : BlockSnapshot := s <| sn_tick := Some v |>.
Definition with_track v s : BlockSnapshot := s <| sn_track := Some v |>.
Definition with_order_key v s : BlockSnapshot := s <| sn_order_key := Some v |>.
Definition with_is_error (v : bool) s : BlockSnapshot :=
  if v then s <| sn_is_error := v |> <| sn_status := SError |>
  else s <| sn_is_error := v |>.
Definition with_error_payload v s : BlockSnapshot :=
  s <| sn_error := Some v |> <| sn_kind := KError |> <| sn_status := SError |>
    <| sn_role := System |>.
Definition with_notification_payload v s : BlockSnapshot :=
  s <| sn_notification := Some v |> <| sn_kind := KNotification |>
    <| sn_role := System |>.
Definition with_resource_payload v s : BlockSnapshot :=
  s <| sn_resource := Some v |> <| sn_kind := KResource |> <| sn_role := System |>.

(** *** Filters *)

Record BlockFilter := {
  f_kinds : list BlockKind;
  f_roles : list Role;
  f_statuses : list Status;
  f_exclude_compacted : bool;
  f_limit : Z;
  f_max_depth : Z;
  f_parent_id : option BlockId;
}.

Definition has_active_constraint (f : BlockFilter) : bool :=
  negb (bool_decide (f_kinds f = [])) || negb (bool_decide (f_roles f = []))
  || negb (bool_decide (f_statuses f = [])) || f_exclude_compacted f
  || (0 <? f_limit f) || (0 <? f_max_depth f) || bool_decide (f_parent_id f ≠ None).

Definition filter_validate (f : BlockFilter) : result string () :=
  if negb (has_active_constraint f)
  then Err "BlockFilter has no active constraints — use BlockQuery::All instead"
  else Ok tt.

Definition filter_matches (f : BlockFilter) s : bool :=
  if negb (bool_decide (f_kinds f = [])) && negb (bool_decide (sn_kind s ∈ f_kinds f))
  then false
  else if negb (bool_decide (f_roles f = [])) && negb (bool_decide (sn_role s ∈ f_roles f))
  then false
  else if negb (bool_decide (f_statuses f = []))
          && negb (bool_decide (sn_status s ∈ f_statuses f))
  then false
  else if f_exclude_compacted f && sn_compacted s then false
  else true.
End snapshots.

(** ** Enums of contexts and documents ([enums.rs]) *)

Inductive ForkKind := FullFork | Filtered | Compact | Subtree.
Inductive EdgeKind := Structural | DriftEdge.
Inductive ConsentMode := Collaborative | Autonomous.
Inductive ContextState := Live | Staging | Concluded | Archived.
Inductive DocKind := Conversation | Code | TextDoc | Config | Symlink.

Definition ForkKind_as_str (k : ForkKind) : string :=
  match k with
  | FullFork => "full" | Filtered => "filtered" | Compact => "compact"
  | Subtree => "subtree"
  end.
Definition ForkKind_from_str : string → option ForkKind :=
  lookup_name [("full", FullFork); ("filtered", Filtered); ("compact", Compact);
               ("subtree", Subtree)].
Definition EdgeKind_as_str (k : EdgeKind) : string :=
  match k with Structural => "structural" | DriftEdge => "drift" end.
Definition EdgeKind_from_str : string → option EdgeKind :=
  lookup_name [("structural", Structural); ("drift", DriftEdge)].
Definition ConsentMode_as_str (m : ConsentMode) : string :=
  match m with Collaborative => "collaborative" | Autonomous => "autonomous" end.
Definition ConsentMode_from_str : string → option ConsentMode :=
  lookup_name [("collaborative", Collaborative); ("autonomous", Autonomous)].
Definition ContextState_as_str (s : ContextState) : string :=
  match s with
  | Live => "live" | Staging => "staging" | Concluded => "concluded"
  | Archived => "archived"
  end.
Definition ContextState_from_str : string → option ContextState :=
  lookup_name [("live", Live); ("staging", Staging); ("concluded", Concluded);
               ("archived", Archived)].
Definition DocKind_as_str (k : DocKind) : string :=
  match k with
  | Conversation => "conversation" | Code => "code" | TextDoc => "text"
  | Config => "config" | Symlink => "symlink"
  end.
Definition DocKind_from_str : string → option DocKind :=
  lookup_name [("conversation", Conversation); ("output", Conversation);
               ("system", Conversation); ("user_message", Conversation);
               ("agent_message", Conversation); ("code", Code); ("text", TextDoc);
               ("markdown", TextDoc); ("config", Config); ("symlink", Symlink)].

(** ** Keys of block ids *)

Lemma hex_no_char c s :
  is_hex_lower c = false → all_chars is_hex_lower s = true → contains_char s c = false.
Proof.
  intros Hc. induction s as [|d s IH]; cbn [all_chars contains_char]; [done|].
  intros [Hd Hs]%andb_true_iff. rewrite IH, orb_false_r by done.
  apply bool_decide_eq_false. intros ->. congruence.
Qed.

(** The key with either delimiter: [:] is the legacy one. *)
Definition key_with `{!UuidCrate} (d : ascii) (b : BlockId) : string :=
  id_to_hex (context_uuid (context_id b)) +:+
    String d (id_to_hex (principal_uuid (principal_id b)) +:+
      String d (show_uint (seq b))).

Definition block_id_ok (b : BlockId) : Prop :=
  uuid_ok (context_uuid (context_id b)) ∧ uuid_ok (principal_uuid (principal_id b)) ∧
  in_u64 (seq b).

(** The string key of a block id, in the current form and in the legacy form
    with colons, parses back to the id; what parses at all has a [u64] sequence
    number, so distinct ids have distinct keys. *)
Theorem block_key_roundtrip `{!UuidCrate, !UuidLaws} (b : BlockId) (Hb : block_id_ok b) :
  from_key (to_key b) = Some b ∧ from_key (key_with colon b) = Some b ∧
  (∀ b', block_id_ok b' → to_key b' = to_key b → b' = b).
Proof.
  assert (∀ b d, block_id_ok b → d = underscore ∨ d = colon →
    from_key (key_with d b) = Some b) as Hrt.
  { clear b Hb. intros [[c] [p] n] d (Hc&Hp&Hn) Hd. unfold key_with, id_to_hex in *. simpl in *.
    pose proof (uuid_simple_hex c) as Hhc. pose proof (uuid_simple_hex p) as Hhp.
    assert (is_hex_lower d = false) as Hdx by (by destruct Hd as [-> | ->]).
    unfold from_key.
    assert ((if contains_char (uuid_as_simple c +:+ String d (uuid_as_simple p +:+
      String d (show_uint n))) underscore then underscore else colon) = d) as ->.
    { rewrite contains_char_app. cbn [contains_char]. rewrite contains_char_app.
      cbn [contains_char]. rewrite show_uint_no_char, !hex_no_char by done.
      by destruct Hd as [-> | ->]. }
    cbn [splitn]. rewrite split_once_app by by apply hex_no_char.
    rewrite split_once_app by by apply hex_no_char.
    rewrite !uuid_parse_simple by done. cbn [mbind option_bind].
    by rewrite parse_show_uint by apply Hn. }
  assert (∀ b, to_key b = key_with underscore b) as Hk by done.
  split_and!.
  - rewrite Hk. auto.
  - auto.
  - intros b' Hb' He. rewrite !Hk in He.
    enough (Some b' = Some b) by congruence.
    rewrite <- (Hrt b' underscore), <- (Hrt b underscore) by auto. by rewrite He.
Qed.

(** Every name an enum prints parses back to the same variant, in any case of
    letters, and unknown names are refused, not defaulted. *)
Theorem enum_names_roundtrip :
  (∀ x, Role_from_str (Role_as_str x) = Some x) ∧
  (∀ x, Status_from_str (Status_as_str x) = Some x) ∧
  (∀ x, BlockKind_from_str (BlockKind_as_str x) = Some x) ∧
  (∀ x, ToolKind_from_str (ToolKind_as_str x) = Some x) ∧
  (∀ x, DriftKind_from_str (DriftKind_as_str x) = Some x) ∧
  (∀ x, ForkKind_from_str (ForkKind_as_str x) = Some x) ∧
  (∀ x, EdgeKind_from_str (EdgeKind_as_str x) = Some x) ∧
  (∀ x, ConsentMode_from_str (ConsentMode_as_str x) = Some x) ∧
  (∀ x, ContextState_from_str (ContextState_as_str x) = Some x) ∧
  (∀ x, DocKind_from_str (DocKind_as_str x) = Some x) ∧
  (∀ x, ContentType_from_mime (ContentType_as_mime x) = x) ∧
  (∀ s, Status_from_str s = Status_from_str (to_lowercase s)) ∧
  Status_from_str "unknown" = None.
Proof.
  split_and!; try (by intros []); try done.
  intros s. unfold Status_from_str.
  assert (to_lowercase (to_lowercase s) = to_lowercase s) as Hi.
  { induction s as [|c s IH]; [done|]. cbn [to_lowercase]. rewrite IH. f_equal.
    by destruct c as [[] [] [] [] [] [] [] []]. }
  cbn [lookup_name]. by rewrite Hi.
Qed.

(** ** What the constructors guarantee *)

Section constructors.
Context {json : JsonLib} {blib : BlockLib}.

(** The parent is in the block's own context, a payload only appears on the kind
    of block it belongs to, and an erring result has the status of an error. *)
Record snapshot_ok (s : BlockSnapshot) : Prop := {
  so_parent : same_context (sn_id s) (sn_parent_id s) = true;
  so_error : is_Some (sn_error s) ↔ sn_kind s = KError;
  so_notification : is_Some (sn_notification s) ↔ sn_kind s = KNotification;
  so_resource : is_Some (sn_resource s) ↔ sn_kind s = KResource;
  so_drift : is_Some (sn_source_context s) ↔ sn_kind s = KDrift;
  so_file : is_Some (sn_file_path s) ↔ sn_kind s = KFile;
  so_result : sn_kind s = KToolResult → sn_tool_call_id s = sn_parent_id s
              ∧ is_Some (sn_parent_id s);
  so_is_error : sn_is_error s = true → sn_status s = SError;
  so_header : h_id (header_from_snapshot s) = sn_id s ∧
              max_field_ts (header_from_snapshot s) = 0;
}.

Lemma asserting_Some {A} b (a x : A) : asserting b a = Some x ↔ b = true ∧ x = a.
Proof. destruct b; simpl; naive_solver. Qed.

Ltac snap :=
  split; simpl; try done; try (split; [by intros [??]|done]); try (split; [done|by eexists]);
  try (by intros [= ->]); try (by intros ->).

(** The constructors refuse a parent in another context (their [assert!])
    and otherwise build a consistent block with no LWW history. *)
Theorem constructors_ok now id parent call c1 c2 (r : Role) tk dk (inp : Json) ctx
    model use_id code out (e : ErrorPayload) (n : NotificationPayload)
    (q : ResourcePayload) (b : bool) s :
  (snap_text now id parent r c1 = Some s ∨
   snap_thinking now id parent c1 = Some s ∨
   snap_tool_call now id parent tk c1 inp r use_id = Some s ∨
   snap_tool_result now id call tk c1 b code use_id = Some s ∨
   snap_tool_result_with_output now id call tk c1 b code out use_id = Some s ∨
   snap_drift now id parent c1 ctx model dk = Some s ∨
   snap_file now id parent c1 c2 = Some s ∨
   snap_error_for now id call e c1 = Some s ∨
   Some (snap_system_error now id e c1) = Some s ∨
   snap_resource_block now id parent q c1 = Some s ∨
   snap_notification_block now id parent n c1 = Some s) →
  snapshot_ok s.
Proof.
  intros Hs. repeat destruct Hs as [Hs|Hs];
    try (apply asserting_Some in Hs as [Hp ->]); try (injection Hs as <-); snap.
Qed.
End constructors.

(** ** On concrete blocks *)

Module DemoBlock.
Export Demo.
#[export] Instance demo_blib : BlockLib :=
  {| OutputData := string; to_string_pretty z := Some (pretty z) |}.

Definition demo_id (n : Z) : BlockId :=
  {| context_id := {| context_uuid := 5 |}; principal_id := {| principal_uuid := 9 |};
     seq := n |}.
End DemoBlock.
Import DemoBlock.

Lemma block_key_roundtrip_witness :
  from_key (to_key (demo_id 42)) = Some (demo_id 42) ∧
  from_key (key_with colon (demo_id 42)) = Some (demo_id 42).
Proof.
  destruct (block_key_roundtrip (demo_id 42)) as (H1&H2&_).
  - split; [reflexivity|split; [reflexivity|split; discriminate]].
  - exact (conj H1 H2).
Defined.

Lemma constructors_ok_witness :
  ∃ s, snap_file 0 (demo_id 2) (Some (demo_id 1)) "a.rs" "fn main" = Some s ∧ snapshot_ok s.
Proof.
  eexists. split; [reflexivity|].
  apply (constructors_ok (json := demo_json) (blib := demo_blib) 0 (demo_id 2) (Some (demo_id 1)) (demo_id 1) "a.rs" "fn main" User
    Shell DPush 0 {| context_uuid := 5 |} None None None None
    {| err_category := ECTool; err_severity := SevError; err_code := None;
       err_detail := None; err_span := None; err_source_kind := None |}
    {| note_instance := ""; note_kind := NLog; note_level := None; note_tools := [];
       note_count := None; note_detail := None |}
    {| rsrc_instance := ""; rsrc_uri := ""; rsrc_mime_type := None; rsrc_size := None;
       rsrc_text := None; rsrc_blob_base64 := None;
       rsrc_parent_resource_block_id := None |} false).
  right; right; right; right; right; right; left. reflexivity.
Defined.
