(* ===== verification/Materialize.v ===== *)
(** * From a committed cell to a block ([kaijutsu-hyoushigi/src/materialize.rs]) *)

From Stdlib Require Import Ascii.
From S2P Require Import Prelude Float64 Text Tick Ids Track Cas Cell Concrete Timeline TimelineFacts Termination Block.

Section materialize.
Context {json : JsonLib} {blib : BlockLib} {hash : CasHash} {uuids : UuidCrate}.

(** [Timeline::materialize]; [now] is the wall clock the builder reads. *)
Definition materialize (now : Z) (tl : Timeline) (cell : Cell) (id : BlockId) :
    option BlockSnapshot :=
  match body cell with
  | Deferred _ => None
  | Concrete cref =>
      let content_type := ContentType_from_mime (cref_mime cref) in
      let is_text := starts_with (cref_mime cref) "text/" in
      let b := with_content_type content_type
                 (with_track (track cell)
                   (with_tick (start (span cell)) (builder_new now id KText))) in
      Some (if is_text then
              let b := with_role Model b in
              match content_bytes (cref_hash cref) tl with
              | Some bytes => with_content (from_utf8_lossy bytes) b
              | None => b
              end
            else with_content (hash_str (cref_hash cref)) (with_role Asset b))
  end.

Lemma lossy_ascii l :
  forallb (λ c, byte_val c <? 128) l = true → lossy_loop (length l) l = l.
Proof.
  induction l as [|c l IH]; [done|]. cbn [forallb length lossy_loop].
  intros [Hc Hl]%andb_true_iff. assert (utf8_step c l = (true, 1%nat)) as ->
    by (unfold utf8_step; by rewrite Hc).
  change (c :: lossy_loop (length l) l = c :: l). by rewrite IH.
Qed.

(** A committed cell of a well-formed timeline becomes a block of the caller's
    id that carries the cell's tick and lane and the projected content type; the
    author is the id's principal. Binary content is referenced by its hash, whose
    bytes the store has under it; text is inlined, and ASCII text is inlined
    unchanged, so the hash of the block's content is the cell's. A deferred cell
    gives nothing. *)
Theorem materialize_correct now tl cell id (Hwf : wf tl) :
  (is_deferred cell = true ↔ materialize now tl cell id = None) ∧
  (∀ s, materialize now tl cell id = Some s →
     sn_id s = id ∧ author s = principal_id id ∧ sn_kind s = KText ∧
     sn_tick s = Some (start (span cell)) ∧ sn_track s = Some (track cell) ∧
     ∃ cref, body cell = Concrete cref ∧
       sn_content_type s = ContentType_from_mime (cref_mime cref) ∧
       if starts_with (cref_mime cref) "text/" then
         sn_role s = Model ∧
         ∀ d, content_bytes (cref_hash cref) tl = Some d →
           sn_content s = from_utf8_lossy d ∧
           (forallb (λ c, byte_val c <? 128) (ascii_of_byte <$> d) = true →
            from_data (String.list_byte_of_string (sn_content s)) = cref_hash cref)
       else
         sn_role s = Asset ∧ sn_content s = hash_str (cref_hash cref) ∧
         ∀ d, content_bytes (cref_hash cref) tl = Some d → from_data d = cref_hash cref).
Proof.
  unfold is_deferred, materialize.
  assert (∀ h d, content_bytes h tl = Some d → from_data d = h) as Hcas
    by (intros h d; apply Hwf).
  destruct (body cell) as [cref|r] eqn:Hb; [|by split].
  split; [done|]. intros s [= <-].
  assert (∀ b, sn_id b = id ∧ author b = principal_id id ∧ sn_kind b = KText ∧
    sn_tick b = Some (start (span cell)) ∧ sn_track b = Some (track cell) ∧
    sn_content_type b = ContentType_from_mime (cref_mime cref) →
    ∀ P : ContentRef → Prop, P cref →
    sn_id b = id ∧ author b = principal_id id ∧ sn_kind b = KText ∧
    sn_tick b = Some (start (span cell)) ∧ sn_track b = Some (track cell) ∧
    ∃ cref', Concrete cref = Concrete cref' ∧
      sn_content_type b = ContentType_from_mime (cref_mime cref') ∧ P cref') as Hpack.
  { intros b (?&?&?&?&?&?) P HP. split_and!; try done. by exists cref. }
  refine (Hpack _ _ (λ cref, _) _); clear Hpack;
    destruct (starts_with (cref_mime cref) "text/");
    [by destruct (content_bytes (cref_hash cref) tl)|done| |by eauto].
  split; [by destruct (content_bytes (cref_hash cref) tl)|].
  intros d Ed. rewrite Ed. simpl.
  split; [done|]. intros Ha. rewrite <- (Hcas _ _ Ed). f_equal.
  unfold from_utf8_lossy. rewrite lossy_ascii by done.
  unfold String.list_byte_of_string. rewrite String.list_ascii_of_string_of_list_ascii.
  clear. induction d as [|b d IH]; [done|]. cbn. f_equal; [|exact IH].
  apply byte_of_ascii_of_byte.
Qed.
End materialize.

Import DemoBlock.

(** The phrase of the demo score, played and materialized. *)
Definition demo_phrase : Cell :=
  concrete_on (Span.new (Tick.new 10) (TickDelta.new 4))
    (ContentRef_of (String.list_byte_of_string "abc") "text/vnd.abc")
    demo_lane demo_player.

Lemma materialize_correct_witness :
  ∃ s, materialize 0 demo_ready demo_phrase (demo_id 1) = Some s ∧
       sn_track s = Some demo_lane ∧ sn_id s = demo_id 1.
Proof.
  destruct (materialize_correct 0 demo_ready demo_phrase (demo_id 1) (proj2 demo_wf))
    as [_ Hs].
  destruct (materialize 0 demo_ready demo_phrase (demo_id 1)) as [s|] eqn:E; [|discriminate E].
  destruct (Hs s eq_refl) as (Hid&_&_&_&Htr&_).
  exists s. exact (conj eq_refl (conj Htr Hid)).
Defined.
