(* ===== verification/OrderKey.v ===== *)
(** * Order keys ([kaijutsu-crdt/src/content.rs], fractional indexing)

    Blocks are sorted by a string key. An append takes the successor of the last
    key, a move the midpoint of two neighbours. Keys are ordered as bytes; the
    digits are base 62. *)

From Stdlib Require Import Ascii.
From S2P Require Import Prelude Text.

Definition BASE62 : string :=
  "0123456789ABCDEFGHIJKLMNOPQRSTUVWXYZabcdefghijklmnopqrstuvwxyz".

(** [BASE62\[d\]]; every index the code uses is below 62 ([base62_char_ok]). *)
Definition base62_char (d : Z) : ascii :=
  default zero (String.get (Z.to_nat d) BASE62).

(** [BASE62.iter().position(|&b| b == c)]. *)
Fixpoint position_in (s : string) (c : ascii) (i : Z) : option Z :=
  match s with
  | "" => None
  | String d s' => if bool_decide (d = c) then Some i else position_in s' c (i + 1)
  end.
Definition base62_position (c : ascii) : option Z := position_in BASE62 c 0.

Definition base62_index (c : ascii) : Z := default 0 (base62_position c).

Fixpoint zeros (n : nat) (acc : string) : string :=
  match n with O => acc | S n' => String "0" (zeros n' acc) end.

(** The buffer is filled from the right until the number or the room runs out; the
    rest keeps its initial zeros. *)
Fixpoint encode_loop (width : nat) (n : Z) (acc : string) : string :=
  match width with
  | O => acc
  | S w => if 0 <? n then encode_loop w (n / 62) (String (base62_char (n mod 62)) acc)
           else zeros width acc
  end.

Definition base62_encode_padded (value : Z) (width : nat) : string :=
  encode_loop width (Z.max value 0) "".

Fixpoint decode_loop (s : string) (n : Z) : option Z :=
  match s with
  | "" => Some n
  | String b s' =>
      digit ← base62_position b;
      n62 ← checked_i64 (n * 62);
      n' ← checked_i64 (n62 + digit);
      decode_loop s' n'
  end.

Definition base62_decode (s : string) : option Z :=
  if bool_decide (s = "") then None else decode_loop s 0.

(** The loop of [order_midpoint] from position [i] on: [a] and [b] are what is left
    of the two strings, [n] the rounds left; the result is what is pushed. *)
Fixpoint midpoint_loop (n : nat) (a b : string) : string :=
  match n with
  | O => String (base62_char 31) ""
  | S n' =>
      let a_val := match a with "" => 0 | String c _ => base62_index c end in
      let b_val := match b with "" => 62 | String c _ => base62_index c end in
      let a' := match a with "" => "" | String _ r => r end in
      let b' := match b with "" => "" | String _ r => r end in
      if a_val + 1 <? b_val then String (base62_char ((a_val + b_val) / 2)) ""
      else if a_val =? b_val then String (base62_char a_val) (midpoint_loop n' a' b')
      else
        let a_next := match a' with "" => 0 | String c _ => base62_index c end in
        String (base62_char a_val) (String (base62_char ((a_next + 62) / 2)) "")
  end.

Definition order_midpoint (a b : string) : string :=
  midpoint_loop (S (Nat.max (String.length a) (String.length b))) a b.

Definition order_key_successor (pred suffix : string) : string :=
  let number :=
    match pred with
    | String c _ => if bool_decide (c = "V"%char) then str_get pred 1 12 else None
    | "" => None
    end in
  let fallback := pred +:+ "V" +:+ suffix in
  match s ← number; n ← base62_decode s; checked_i64 (n + 1) with
  | Some next =>
      let key := "V" +:+ base62_encode_padded next 11 +:+ suffix in
      if str_ltb pred key then key else fallback
  | None => fallback
  end.

(** ** Digits *)

Definition digit_byte (d : Z) : Z :=
  if d <? 10 then 48 + d else if d <? 36 then 55 + d else 61 + d.

Lemma digit_cases (P : Z → Prop) :
  Forall P (seqZ 0 62) → ∀ d, 0 ≤ d < 62 → P d.
Proof. intros HP d Hd. rewrite Forall_forall in HP. apply HP, elem_of_seqZ. lia. Qed.

Lemma base62_char_ok d :
  0 ≤ d < 62 → base62_position (base62_char d) = Some d ∧
               byte_val (base62_char d) = digit_byte d.
Proof. revert d. apply digit_cases. vm_compute. repeat constructor. Qed.

Lemma base62_position_Some c d :
  base62_position c = Some d → 0 ≤ d < 62 ∧ base62_char d = c.
Proof.
  destruct c as [[] [] [] [] [] [] [] []]; vm_compute; intros [= <-]; split; try done;
    split; done.
Qed.

Lemma base62_index_char d : 0 ≤ d < 62 → base62_index (base62_char d) = d.
Proof. intros Hd. unfold base62_index. by destruct (base62_char_ok d Hd) as [-> _]. Qed.

(** The charset is ordered as the bytes are. *)
Lemma base62_char_lt d e :
  0 ≤ d < 62 → 0 ≤ e < 62 →
  byte_val (base62_char d) < byte_val (base62_char e) ↔ d < e.
Proof.
  intros Hd He. destruct (base62_char_ok d Hd) as [_ ->], (base62_char_ok e He) as [_ ->].
  unfold digit_byte. repeat case_match; rewrite ?Z.ltb_lt, ?Z.ltb_ge in *; lia.
Qed.

Definition is_base62 (c : ascii) : bool := bool_decide (is_Some (base62_position c)).
Fixpoint all_base62 (s : string) : bool :=
  match s with "" => true | String c s' => is_base62 c && all_base62 s' end.

(** A digit is the character of a number below 62. *)
Lemma is_base62_char c : is_base62 c = true ↔ ∃ d, 0 ≤ d < 62 ∧ c = base62_char d.
Proof.
  unfold is_base62. rewrite bool_decide_eq_true. split.
  - intros [d [? <-]%base62_position_Some]. eauto.
  - intros (d&Hd&->). destruct (base62_char_ok d Hd) as [-> _]. by eexists.
Qed.

(** ** Encoding and decoding *)

Lemma zeros_snoc n acc : zeros n (String "0" acc) = zeros (S n) acc.
Proof. induction n as [|n IH]; simpl in *; [done|]. by rewrite IH. Qed.

Lemma encode_loop_S w n acc :
  0 ≤ n →
  encode_loop (S w) n acc =
    encode_loop w (n / 62) (String (base62_char (n mod 62)) acc).
Proof.
  intros Hn. cbn [encode_loop]. destruct (Z.ltb_spec 0 n); [done|].
  replace n with 0 by lia. change (0 / 62) with 0. change (base62_char (0 mod 62)) with "0"%char.
  rewrite <- zeros_snoc. by destruct w.
Qed.

(** The digits, most significant first: the reference encoder. *)
Fixpoint digits (w : nat) (n : Z) : string :=
  match w with
  | O => ""
  | S w' => String (base62_char (n / 62 ^ Z.of_nat w' mod 62)) (digits w' n)
  end.

Lemma digits_snoc w n acc :
  0 ≤ n →
  digits (S w) n +:+ acc = digits w (n / 62) +:+ String (base62_char (n mod 62)) acc.
Proof.
  revert n. induction w as [|w IH]; intros n Hn.
  - change (digits 1 n) with (String (base62_char (n / 1 mod 62)) "").
    rewrite Z.div_1_r. done.
  - change (digits (S (S w)) n) with
      (String (base62_char (n / 62 ^ Z.of_nat (S w) mod 62)) (digits (S w) n)).
    change (digits (S w) (n / 62)) with
      (String (base62_char (n / 62 / 62 ^ Z.of_nat w mod 62)) (digits w (n / 62))).
    rewrite !str_app_cons, IH by done. f_equal. f_equal. f_equal.
    rewrite Nat2Z.inj_succ, Z.pow_succ_r, Z.div_div by lia. done.
Qed.

Lemma encode_digits w n acc : 0 ≤ n → encode_loop w n acc = digits w n +:+ acc.
Proof.
  revert n acc. induction w as [|w IH]; intros n acc Hn; [done|].
  rewrite encode_loop_S, IH, digits_snoc; [done|done|apply Z.div_pos; lia|done].
Qed.

Lemma encode_padded_digits v w : 0 ≤ v → base62_encode_padded v w = digits w v.
Proof.
  intros. unfold base62_encode_padded. rewrite Z.max_l, encode_digits by done.
  apply str_app_nil_r.
Qed.

Lemma digits_length w n : String.length (digits w n) = w.
Proof. induction w; simpl; congruence. Qed.

Lemma digits_base62 w n : all_base62 (digits w n) = true.
Proof.
  induction w as [|w IH]; simpl; [done|]. rewrite IH, andb_true_r.
  apply is_base62_char. eexists. split; [|done]. apply Z.mod_pos_bound. lia.
Qed.

Lemma digits_snoc' w n :
  0 ≤ n → digits (S w) n = digits w (n / 62) +:+ String (base62_char (n mod 62)) "".
Proof. intros. rewrite <- digits_snoc by done. by rewrite str_app_nil_r. Qed.

(** Fixed width makes the order of keys the order of numbers. *)
Lemma digits_lt w n m :
  0 ≤ n < m → m < 62 ^ Z.of_nat w → str_lt (digits w n) (digits w m).
Proof.
  revert n m. induction w as [|w IH]; intros n m Hnm Hm.
  { change (62 ^ Z.of_nat 0) with 1 in Hm. lia. }
  rewrite Nat2Z.inj_succ, Z.pow_succ_r in Hm by lia.
  rewrite !digits_snoc' by lia.
  pose proof (Z.div_mod n 62). pose proof (Z.div_mod m 62).
  pose proof (Z.mod_pos_bound n 62). pose proof (Z.mod_pos_bound m 62).
  destruct (Z.eq_dec (n / 62) (m / 62)) as [Heq|Hne].
  - rewrite Heq, str_lt_app_l, str_lt_cons. left. apply base62_char_lt; lia.
  - apply str_lt_app_same_length; [by rewrite !digits_length|].
    apply IH; [|apply Z.div_lt_upper_bound; lia].
    split; [apply Z.div_pos; lia|]. pose proof (Z.div_le_mono n m 62). lia.
Qed.

(** Decoding accumulates from the left. *)
Lemma decode_loop_app s t n :
  decode_loop (s +:+ t) n = (k ← decode_loop s n; decode_loop t k).
Proof.
  revert n. induction s as [|c s IH]; intros n; [done|]. rewrite str_app_cons.
  cbn [decode_loop]. destruct (base62_position c); [|done]. cbn [mbind option_bind].
  destruct (checked_i64 _); [|done]. cbn [mbind option_bind].
  destruct (checked_i64 _); [|done]. apply IH.
Qed.

Lemma decode_digits w n :
  0 ≤ n < 62 ^ Z.of_nat w → n ≤ i64_max → decode_loop (digits w n) 0 = Some n.
Proof.
  revert n. induction w as [|w IH]; intros n Hn Hm.
  { change (62 ^ Z.of_nat 0) with 1 in Hn. assert (n = 0) as -> by lia. done. }
  rewrite Nat2Z.inj_succ, Z.pow_succ_r in Hn by lia.
  pose proof (Z.div_mod n 62). pose proof (Z.mod_pos_bound n 62).
  assert (0 ≤ n / 62) by (apply Z.div_pos; lia).
  rewrite digits_snoc', decode_loop_app, IH by
    (try (split; [done|apply Z.div_lt_upper_bound]); lia).
  cbn [mbind option_bind decode_loop].
  destruct (base62_char_ok (n mod 62)) as [-> _]; [lia|]. cbn [mbind option_bind].
  rewrite (proj2 (checked_i64_Some _ (n / 62 * 62))) by (split; [done|width_lia]).
  cbn [mbind option_bind].
  rewrite (proj2 (checked_i64_Some _ n)) by (split; [lia|width_lia]). done.
Qed.

(** What decodes is the encoding of its number. *)
Lemma decode_loop_inv s n m :
  0 ≤ n → decode_loop s n = Some m →
  n * 62 ^ Z.of_nat (String.length s) ≤ m ∧
  m < (n + 1) * 62 ^ Z.of_nat (String.length s) ∧
  s = digits (String.length s) m.
Proof.
  revert n. induction s as [|c s IH]; intros n Hn; cbn [decode_loop].
  { intros [= <-]. change (62 ^ Z.of_nat (String.length "")) with 1.
    split_and!; [lia|lia|done]. }
  destruct (base62_position c) as [d|] eqn:Ed; cbn [mbind option_bind]; [|done].
  apply base62_position_Some in Ed as [Hd <-].
  destruct (checked_i64 (n * 62)) as [k|] eqn:E1; cbn [mbind option_bind]; [|done].
  apply checked_i64_Some in E1 as [-> _].
  destruct (checked_i64 (n * 62 + d)) as [k|] eqn:E2; cbn [mbind option_bind]; [|done].
  apply checked_i64_Some in E2 as [-> _].
  intros (Hlo&Hhi&Hs)%IH; [|lia]. cbn [String.length].
  rewrite Nat2Z.inj_succ, Z.pow_succ_r by lia.
  set (p := 62 ^ Z.of_nat (String.length s)) in *.
  assert (0 < p) as Hp by (apply Z.pow_pos_nonneg; lia).
  split_and!; [nia|nia|]. cbn [digits]. f_equal; [|done].
  f_equal. fold p. assert (m / p = n * 62 + d) as ->.
  { symmetry. apply (Z.div_unique_pos _ _ _ (m - (n * 62 + d) * p)); lia. }
  rewrite Z.add_comm, Z_mod_plus_full. symmetry. by apply Z.mod_small.
Qed.

(** Fixed-width base 62 is an order embedding with an inverse: in any width that
    holds them, non-negative [i64] numbers encode to strings of exactly that width,
    decode to themselves, and compare as the numbers do; width 11 holds every one. *)
Theorem base62_order_embedding (w : nat) (n m : Z)
    (Hn : 0 ≤ n < 62 ^ Z.of_nat w) (Hm : 0 ≤ m < 62 ^ Z.of_nat w)
    (Hmax : n ≤ i64_max) (Hw : (0 < w)%nat) :
  String.length (base62_encode_padded n w) = w ∧
  base62_decode (base62_encode_padded n w) = Some n ∧
  (str_lt (base62_encode_padded n w) (base62_encode_padded m w) ↔ n < m) ∧
  i64_max < 62 ^ 11.
Proof.
  rewrite !encode_padded_digits by lia. split_and!.
  - apply digits_length.
  - unfold base62_decode. rewrite bool_decide_false; [by apply decode_digits|].
    intros Hd. apply (f_equal String.length) in Hd. rewrite digits_length in Hd.
    simpl in Hd. lia.
  - split; [|intros; apply digits_lt; lia]. intros Hlt.
    destruct (Z.lt_total n m) as [?|[->|?]]; [done|by destruct (str_lt_irrefl _ Hlt)|].
    exfalso. apply (str_lt_irrefl (digits w n)). etrans; [exact Hlt|].
    apply digits_lt; lia.
  - done.
Qed.

Lemma base62_order_embedding_witness :
  base62_decode (base62_encode_padded 9000 11) = Some 9000 ∧
  str_lt (base62_encode_padded 9000 11) (base62_encode_padded 9001 11).
Proof.
  destruct (base62_order_embedding 11 9000 9001) as (_&Hd&Ho&_);
    [split; [lia|reflexivity]|split; [lia|reflexivity]|discriminate|lia|].
  split; [exact Hd|]. apply Ho. lia.
Defined.

(** ** The successor *)

Lemma substring_app s t : String.substring 0 (String.length s) (s +:+ t) = s.
Proof.
  induction s as [|c s IH]; [by destruct t|]. rewrite str_app_cons. simpl. by rewrite IH.
Qed.

Lemma get_app s t i :
  String.get (String.length s + i) (s +:+ t) = String.get i t.
Proof. induction s as [|c s IH]; [done|]. rewrite str_app_cons. exact IH. Qed.

Lemma base62_not_cont c : is_base62 c = true → is_cont c = false.
Proof.
  intros (d&Hd&->)%is_base62_char. unfold is_cont.
  destruct (base62_char_ok d Hd) as [_ ->]. unfold digit_byte.
  repeat case_match; rewrite ?Z.ltb_lt, ?Z.ltb_ge in *; simpl; try lia;
    apply andb_false_iff; left; apply Z.leb_gt; lia.
Qed.

(** The canonical key of number [n] in lane [suffix]. *)
Definition canonical (n : Z) (suffix : string) : string :=
  "V" +:+ base62_encode_padded n 11 +:+ suffix.

Lemma canonical_lt n m s t : 0 ≤ n < m → m ≤ i64_max → str_lt (canonical n s) (canonical m t).
Proof.
  intros Hnm Hm. unfold canonical. rewrite !encode_padded_digits by lia.
  apply str_lt_app_l, str_lt_app_same_length; [by rewrite !digits_length|].
  apply digits_lt; [done|]. change (62 ^ Z.of_nat 11) with 52036560683837093888. width_lia.
Qed.

Lemma canonical_number n s :
  all_base62 s = true → 0 ≤ n → str_get (canonical n s) 1 12 = Some (digits 11 n).
Proof.
  intros Hs Hn. unfold canonical. rewrite encode_padded_digits by done.
  pose proof (digits_length 11 n) as Hl. pose proof (digits_base62 11 n) as Hb.
  revert Hl Hb. generalize (digits 11 n) as k. intros k Hl Hb.
  assert (String.length ("V" +:+ k +:+ s) = (12 + String.length s)%nat) as Hlen.
  { rewrite !str_length_app, Hl. done. }
  unfold str_get. rewrite Hlen.
  assert (is_char_boundary ("V" +:+ k +:+ s) 1 = true) as ->.
  { destruct k as [|c k]; [done|]. simpl in Hb. apply andb_true_iff in Hb as [Hc _].
    unfold is_char_boundary. rewrite Hlen. simpl. by rewrite base62_not_cont. }
  assert (is_char_boundary ("V" +:+ k +:+ s) 12 = true) as ->.
  { unfold is_char_boundary. rewrite Hlen. destruct s as [|c s]; [done|].
    cbn [all_base62] in Hs. apply andb_true_iff in Hs as [Hc _].
    cbn [String.length]. rewrite (proj2 (Nat.eqb_neq 12 (12 + S (String.length s)))) by lia.
    change ("V" +:+ k +:+ String c s) with (String "V" (k +:+ String c s)).
    change 12%nat with (S 11) at 2. cbn [Nat.eqb String.get].
    rewrite <- Hl. rewrite <- (Nat.add_0_r (String.length k)), get_app. simpl.
    by rewrite base62_not_cont. }
  rewrite (proj2 (Nat.leb_le 12 _)) by lia. cbn [Nat.leb andb]. f_equal.
  change (String.substring 0 11 (k +:+ s) = k). rewrite <- Hl. apply substring_app.
Qed.

Lemma successor_canonical n s suffix :
  all_base62 s = true → 0 ≤ n < i64_max →
  order_key_successor (canonical n s) suffix = canonical (n + 1) suffix.
Proof.
  intros Hs Hn. unfold order_key_successor.
  change (match canonical n s with String c _ => if bool_decide (c = "V"%char)
    then str_get (canonical n s) 1 12 else None | "" => None end)
    with (str_get (canonical n s) 1 12).
  rewrite canonical_number by (done || lia). cbn [mbind option_bind].
  unfold base62_decode. rewrite bool_decide_false by done.
  rewrite decode_digits; [|split; [lia|]|lia].
  2:{ change (62 ^ Z.of_nat 11) with 52036560683837093888. width_lia. }
  cbn [mbind option_bind].
  rewrite (proj2 (checked_i64_Some (n + 1) (n + 1))) by (split; [done|width_lia]).
  change ("V" +:+ base62_encode_padded (n + 1) 11 +:+ suffix) with (canonical (n + 1) suffix).
  rewrite (proj2 (str_ltb_lt _ _)); [done|]. apply canonical_lt; lia.
Qed.

Lemma successor_gt pred suffix : str_lt pred (order_key_successor pred suffix).
Proof.
  unfold order_key_successor. cbv zeta.
  match goal with |- context [match ?m with Some _ => _ | None => _ end] =>
    destruct m as [next|] end;
    [|by apply str_lt_app].
  case_match eqn:E; [by apply str_ltb_lt|by apply str_lt_app].
Qed.

(** The keys of successive appends, each by the lane of its agent. *)
Fixpoint append_keys (pred : string) (lanes : list string) : list string :=
  match lanes with
  | [] => []
  | suffix :: lanes' =>
      let key := order_key_successor pred suffix in key :: append_keys key lanes'
  end.

(** Appending always sorts last and canonical keys do not grow. Whatever the
    predecessor (canonical, legacy, not even ASCII), each key of a run of appends is
    strictly greater than all before it; from a canonical key the k-th append is the
    canonical key of the k-th next number, so it keeps its 12 bytes and the lane, as
    long as the number fits an [i64]. *)
Theorem append_keys_sorted (pred : string) (lanes : list string) :
  Sorted str_lt (pred :: append_keys pred lanes) ∧
  (∀ n lane, pred = canonical n lane → 0 ≤ n → n + Z.of_nat (length lanes) ≤ i64_max →
     Forall (λ l, all_base62 l = true) (lane :: lanes) →
     append_keys pred lanes =
       imap (λ k l, canonical (n + Z.of_nat k + 1) l) lanes).
Proof.
  split.
  - revert pred. induction lanes as [|l lanes IH]; intros pred; simpl.
    + by repeat constructor.
    + constructor; [apply IH|]. constructor. apply successor_gt.
  - revert pred. induction lanes as [|l lanes IH]; intros pred n lane -> Hn Hmax Hl; [done|].
    apply Forall_cons in Hl as [Hlane Hl]. cbn [append_keys length] in *.
    rewrite successor_canonical by (done || lia). cbn [imap]. f_equal.
    + f_equal. lia.
    + rewrite (IH (canonical (n + 1) l) (n + 1) l); [|done|lia|lia|done].
      apply imap_ext. intros k l' _. unfold compose. f_equal. lia.
Qed.

(** The same without the guard of the source: it never rejects a canonical key. *)
Example successor_examples :
  order_key_successor "V00000000001abcd" "wxyz" = "V00000000002wxyz" ∧
  order_key_successor "V0000000000z" "k" = "V00000000010k" ∧
  order_key_successor "00000000000000000007" "k" = "00000000000000000007Vk".
Proof. by vm_compute. Qed.

(** ** The midpoint *)

Fixpoint has_nonzero (s : string) : bool :=
  match s with "" => false | String c s' => (0 <? base62_index c) || has_nonzero s' end.

(** The pairs [order_midpoint] can split. Neighbouring digits leave no room when
    [a] continues with [z]; a [b] that only adds zeros to [a] leaves none at all. *)
Fixpoint splittable (a b : string) : bool :=
  match a, b with
  | "", _ => has_nonzero b
  | String _ _, "" => false
  | String x a', String y b' =>
      if base62_index x =? base62_index y then splittable a' b'
      else (base62_index x + 1 <? base62_index y)
           || negb (match a' with "" => 0 | String c _ => base62_index c end =? 61)
  end.

Lemma base62_head c s :
  all_base62 (String c s) = true →
  ∃ d, 0 ≤ d < 62 ∧ c = base62_char d ∧ base62_index c = d ∧ all_base62 s = true.
Proof.
  cbn [all_base62]. intros [(d&Hd&->)%is_base62_char Hs]%andb_true_iff.
  exists d. rewrite base62_index_char by done. done.
Qed.

Lemma str_lt_digit d e s t :
  0 ≤ d < 62 → 0 ≤ e < 62 →
  str_lt (String (base62_char d) s) (String (base62_char e) t) ↔ d < e ∨ d = e ∧ str_lt s t.
Proof.
  intros Hd He. rewrite str_lt_cons, base62_char_lt by done.
  split; (intros [?|[Heq ?]]; [by left|right; split; [|done]]); [|by subst].
  rewrite <- (base62_index_char d), <- (base62_index_char e) by done. by rewrite Heq.
Qed.

Lemma midpoint_loop_spec n a b :
  (String.length a < n)%nat → (String.length b < n)%nat →
  all_base62 a = true → all_base62 b = true → str_lt a b →
  (splittable a b = true ↔
   str_lt a (midpoint_loop n a b) ∧ str_lt (midpoint_loop n a b) b).
Proof.
  revert a b. induction n as [|n IH]; intros a b La Lb Ha Hb Hab; [lia|].
  cbn [midpoint_loop]. destruct a as [|x a], b as [|y b];
    [by destruct (str_lt_nil_r _ Hab)| |by destruct (str_lt_nil_r _ Hab)|].
  - apply base62_head in Hb as (d&Hd&->&Hi&Hb). cbn [splittable has_nonzero].
    rewrite !Hi. cbn [String.length] in *. destruct (Z.ltb_spec (0 + 1) d).
    + rewrite (proj2 (Z.ltb_lt 0 d)) by lia. cbn [orb].
      split; [intros _|done]. split; [by apply str_lt_nil|].
      apply str_lt_digit; [..|left]; try lia; pose proof (Z.div_mod (0 + d) 2);
        pose proof (Z.mod_pos_bound (0 + d) 2); lia.
    + destruct (Z.eqb_spec 0 d) as [<-|].
      * change (0 <? 0) with false. cbn [orb]. rewrite str_lt_digit by lia.
        destruct b as [|c b].
        -- destruct n as [|n]; [simpl in *; lia|]. split; [done|].
           intros [_ [?|[_ Hv]]]; [lia|]. by apply str_lt_nil_r in Hv.
        -- specialize (IH "" (String c b)). cbn [String.length] in *.
           assert (str_lt "" (String c b)) as Hlt by by apply str_lt_nil.
           destruct IH as [IH1 IH2]; try done; try lia. split.
           ++ intros Hs. destruct (IH1 Hs). split; [by apply str_lt_nil|]. by right.
           ++ intros [_ [?|[_ ?]]]; [lia|]. apply IH2. split; [|done].
              apply str_lt_nil. intros Hn. destruct n; [lia|]. simpl in Hn.
              repeat case_match; done.
      * assert (d = 1) as -> by lia. change (0 <? 1) with true. cbn [orb].
        split; [intros _|done]. split; [by apply str_lt_nil|].
        apply str_lt_digit; lia.
  - apply base62_head in Ha as (c&Hc&->&Hi&Ha), Hb as (d&Hd&->&Hj&Hb).
    cbn [splittable String.length] in *. rewrite !Hi, !Hj.
    apply str_lt_digit in Hab; [|done..].
    destruct (Z.ltb_spec (c + 1) d).
    + rewrite (proj2 (Z.eqb_neq c d)) by lia. cbn [orb].
      pose proof (Z.div_mod (c + d) 2). pose proof (Z.mod_pos_bound (c + d) 2).
      split; [intros _|done]. split; apply str_lt_digit; lia.
    + destruct (Z.eqb_spec c d) as [<-|].
      * rewrite !str_lt_digit by done. destruct Hab as [?|[_ Hab]]; [lia|].
        rewrite (IH a b) by (done || lia).
        split; intros [H1 H2]; (split; [|]); try (by right).
        -- destruct H1 as [?|[_ ?]]; [lia|done].
        -- destruct H2 as [?|[_ ?]]; [lia|done].
      * assert (d = c + 1) as -> by lia. cbn [orb].
        destruct a as [|z a].
        -- split; [intros _|done]. split; apply str_lt_digit; try lia.
           right. split; [done|]. by apply str_lt_nil.
        -- apply base62_head in Ha as (k&Hk&->&Hz&Ha). rewrite !Hz.
           pose proof (Z.div_mod (k + 62) 2). pose proof (Z.mod_pos_bound (k + 62) 2).
           rewrite (str_lt_digit c (c + 1)) by done.
           rewrite !str_lt_digit by lia. rewrite negb_true_iff, Z.eqb_neq. split.
           ++ intros ?. split; [|lia]. right. split; [done|]. left. lia.
           ++ intros [[?|[_ [?|[_ Hv]]]] _]; [lia..|by apply str_lt_nil_r in Hv].
Qed.

(** The lane suffix an insertion appends does not push the key past the upper
    neighbour. *)
Lemma midpoint_loop_suffix n a b t :
  (String.length a < n)%nat → (String.length b < n)%nat →
  all_base62 a = true → all_base62 b = true → str_lt a b → splittable a b = true →
  str_lt (midpoint_loop n a b +:+ t) b.
Proof.
  revert a b. induction n as [|n IH]; intros a b La Lb Ha Hb Hab Hs; [lia|].
  cbn [midpoint_loop]. destruct a as [|x a], b as [|y b];
    [by destruct (str_lt_nil_r _ Hab)| |by destruct (str_lt_nil_r _ Hab)|].
  - apply base62_head in Hb as (d&Hd&->&Hi&Hb). cbn [splittable has_nonzero] in Hs.
    rewrite Hi in *. cbn [String.length] in *. destruct (Z.ltb_spec (0 + 1) d).
    + rewrite str_app_cons. pose proof (Z.div_mod (0 + d) 2).
      pose proof (Z.mod_pos_bound (0 + d) 2). apply str_lt_digit; lia.
    + destruct (Z.eqb_spec 0 d) as [<-|]; [|rewrite str_app_cons; apply str_lt_digit; lia].
      rewrite str_app_cons. apply str_lt_digit; [lia..|]. right. split; [done|].
      change (0 <? 0) with false in Hs. cbn [orb] in Hs.
      apply IH; try done; try (simpl; lia); destruct b; done.
  - apply base62_head in Ha as (c&Hc&->&Hi&Ha), Hb as (d&Hd&->&Hj&Hb).
    cbn [splittable String.length] in *. rewrite Hi, Hj in *.
    apply str_lt_digit in Hab; [|done..].
    destruct (Z.ltb_spec (c + 1) d); rewrite ?str_app_cons.
    + pose proof (Z.div_mod (c + d) 2). pose proof (Z.mod_pos_bound (c + d) 2).
      apply str_lt_digit; lia.
    + destruct (Z.eqb_spec c d) as [<-|]; rewrite str_app_cons; apply str_lt_digit; try lia.
      right. split; [done|]. destruct Hab as [?|[_ Hab]]; [lia|]. apply IH; (done || lia).
Qed.

Lemma splittable_irrefl a : all_base62 a = true → splittable a a = false.
Proof.
  induction a as [|c a IH]; [done|]. intros (d&_&_&_&?)%base62_head.
  cbn [splittable]. rewrite Z.eqb_refl. auto.
Qed.

(** Exactly when [order_midpoint] keeps its word. On base-62 keys [a < b] the
    result is strictly between the two if and only if the pair is [splittable]:
    where two neighbours differ by one digit and the lower one goes on with [z], or
    where the upper one only adds zeros to the lower one, it is not. *)
Theorem order_midpoint_between a b
    (Ha : all_base62 a = true) (Hb : all_base62 b = true) (Hab : str_lt a b) :
  splittable a b = true ↔ str_lt a (order_midpoint a b) ∧ str_lt (order_midpoint a b) b.
Proof. apply midpoint_loop_spec; (done || lia). Qed.

Lemma order_midpoint_between_witness :
  str_lt "V1" (order_midpoint "V1" "V2") ∧ str_lt (order_midpoint "V1" "V2") "V2".
Proof.
  apply (order_midpoint_between "V1" "V2"); reflexivity.
Defined.

(** Two canonical keys next to each other, the lower one in a lane that starts with
    [z]: the midpoint is not above the lower key. *)
Example order_midpoint_stuck :
  order_midpoint "V00000000001zabc" "V00000000002abcd" = "V00000000001z" ∧
  str_lt (order_midpoint "V00000000001zabc" "V00000000002abcd") "V00000000001zabc".
Proof. by vm_compute. Qed.
