(* ===== verification/Hydrate.v ===== *)
(** * Blocks as text for the model ([kaijutsu-types/src/block.rs])

    The one-line summaries of the structured payloads, and the tagged text a block
    is hydrated into. Every body that comes from outside has a budget of
    characters; it is cut between characters and marked. *)

From Stdlib Require Import Ascii.
From S2P Require Import Prelude Text Tick Ids Track Cas Cell Block.

Definition newline : ascii := ascii_of_N 10.
Definition return_ : ascii := ascii_of_N 13.
(** [key], an equals sign and [value] between double quotes. *)
Definition dquote : string := String (ascii_of_N 34) "".
Definition attr (key value : string) : string := key +:+ "=" +:+ dquote +:+ value +:+ dquote.
Definition nl : string := String newline "".

(** [str::lines().next()]: up to the first newline, less a final carriage return;
    nothing for the empty string. *)
Fixpoint strip_return (s : string) : string :=
  match s with
  | "" => ""
  | String c "" => if bool_decide (c = return_) then "" else s
  | String c s' => String c (strip_return s')
  end.
Definition first_line (s : string) : option string :=
  if bool_decide (s = "") then None
  else Some match split_once s newline with
            | Some (l, _) => strip_return l
            | None => s
            end.

(** [chars().take(n).collect()]. *)
Definition take_chars (n : nat) (s : string) : string := concat_str (take n (chars s)).

Definition marker : string := nl +:+ "...[truncated]".

(** [if s.chars().count() > budget { truncated } else { s.clone() }]. *)
Definition within_budget (budget : nat) (s : string) : string :=
  if (budget <? char_count s)%nat then take_chars budget s +:+ marker else s.

Definition ERROR_DETAIL_HYDRATION_BUDGET : nat := 2048.
Definition NOTIFICATION_DETAIL_HYDRATION_BUDGET : nat := 512.
Definition TOOL_CONTENT_HYDRATION_BUDGET : nat := 4096.
Definition RESOURCE_CONTENT_HYDRATION_BUDGET : nat := 2048.

(** ** Summaries *)

Definition error_summary_line (p : ErrorPayload) : string :=
  let cat := ErrorCategory_as_str (err_category p) in
  match err_detail p with
  | Some detail =>
      let line := default "" (first_line detail) in
      match err_code p with
      | Some code => cat +:+ " error (" +:+ code +:+ "): " +:+ line
      | None => cat +:+ " error: " +:+ line
      end
  | None =>
      match err_code p with
      | Some code => cat +:+ " error (" +:+ code +:+ ")"
      | None => cat +:+ " error"
      end
  end.

Fixpoint join (sep : string) (l : list string) : string :=
  match l with
  | [] => ""
  | [x] => x
  | x :: l' => x +:+ sep +:+ join sep l'
  end.

Definition format_tool_change (verb : string) (tools : list string) : string :=
  let n := show_uint (Z.of_nat (length tools)) in
  match tools with
  | [] => "tools " +:+ verb
  | [t] => "tool " +:+ verb +:+ ": " +:+ t
  | _ =>
      if (length tools <=? 3)%nat
      then n +:+ " tools " +:+ verb +:+ ": " +:+ join ", " tools
      else n +:+ " tools " +:+ verb +:+ ": " +:+ join ", " (take 3 tools) +:+ ", …"
  end.

Definition notification_summary_line (p : NotificationPayload) : string :=
  let tag := "[" +:+ note_instance p +:+ "] " in
  match note_kind p with
  | ToolAdded => tag +:+ format_tool_change "added" (note_tools p)
  | ToolRemoved => tag +:+ format_tool_change "removed" (note_tools p)
  | NLog =>
      let level := default "info" (LogLevel_as_str <$> note_level p) in
      let head := default "" (d ← note_detail p; first_line d) in
      if bool_decide (head = "") then tag +:+ level else tag +:+ level +:+ ": " +:+ head
  | PromptsChanged => tag +:+ "prompts changed"
  | Coalesced =>
      tag +:+ "coalesced: " +:+ show_uint (default 0 (note_count p)) +:+ " further " +:+
        default "event" (note_detail p) +:+ " events"
  end.

Definition resource_summary_line (p : ResourcePayload) : string :=
  let mime_hint := match rsrc_mime_type p with Some m => " (" +:+ m +:+ ")" | None => "" end in
  let mark := match rsrc_blob_base64 p with Some _ => " [binary]" | None => "" end in
  "[" +:+ rsrc_instance p +:+ "] " +:+ rsrc_uri p +:+ mime_hint +:+ mark.

(** ** Hydration *)

Section hydrate.
Context {json : JsonLib} {blib : BlockLib} {uuids : UuidCrate}.

Definition error_body (p : ErrorPayload) (s : BlockSnapshot) : string :=
  match err_detail p with
  | Some detail => within_budget ERROR_DETAIL_HYDRATION_BUDGET detail
  | None => sn_content s
  end.

Definition format_error_for_llm (s : BlockSnapshot) : string :=
  match sn_error s with
  | None => sn_content s
  | Some p =>
      let attrs :=
        attr "category" (ErrorCategory_as_str (err_category p)) +:+ " " +:+
        attr "severity" (ErrorSeverity_as_str (err_severity p)) +:+
        match err_code p with Some code => " " +:+ attr "code" code | None => "" end +:+
        match err_span p with
        | Some sp => " " +:+ attr "line" (show_uint (line sp)) +:+ " " +:+
                     attr "column" (show_uint (column sp))
        | None => ""
        end in
      "<error " +:+ attrs +:+ ">" +:+ nl +:+ error_body p s +:+ nl +:+ "</error>"
  end.

Definition notification_body (p : NotificationPayload) (s : BlockSnapshot) : string :=
  match note_detail p with
  | Some detail => within_budget NOTIFICATION_DETAIL_HYDRATION_BUDGET detail
  | None => sn_content s
  end.

Definition format_notification_for_llm (s : BlockSnapshot) : string :=
  match sn_notification s with
  | None => sn_content s
  | Some p =>
      let attrs :=
        attr "instance" (note_instance p) +:+ " " +:+
        attr "kind" (NotificationKind_as_str (note_kind p)) +:+
        match note_level p with
        | Some l => " " +:+ attr "level" (LogLevel_as_str l)
        | None => ""
        end +:+
        (if bool_decide (note_tools p = []) then ""
         else " " +:+ attr "tools" (join "," (note_tools p))) +:+
        match note_count p with Some c => " " +:+ attr "count" (show_uint c) | None => "" end in
      "<notification " +:+ attrs +:+ ">" +:+ nl +:+ notification_body p s +:+ nl +:+
      "</notification>"
  end.

Definition tool_body (s : BlockSnapshot) : string :=
  within_budget TOOL_CONTENT_HYDRATION_BUDGET (sn_content s).

Definition format_tool_content_for_llm (s : BlockSnapshot) : string :=
  "<tool_output " +:+ attr "content_type" (ContentType_as_mime (sn_content_type s)) +:+
  " " +:+ attr "block" (to_key (sn_id s)) +:+ ">" +:+ nl +:+ tool_body s +:+ nl +:+
  "</tool_output>".

(** The size of a blob is estimated from its base64 length, in [usize]. *)
Definition blob_size (encoded : Z) : Z := Z.min u64_max (encoded * 3) / 4.

Definition resource_body (p : ResourcePayload) (s : BlockSnapshot) : string :=
  match rsrc_text p with
  | Some text => within_budget RESOURCE_CONTENT_HYDRATION_BUDGET text
  | None =>
      match rsrc_blob_base64 p with
      | Some blob =>
          "[binary: " +:+ show_uint (blob_size (Z.of_nat (String.length blob))) +:+ " bytes]"
      | None => sn_content s
      end
  end.

Definition format_resource_for_llm (s : BlockSnapshot) : string :=
  match sn_resource s with
  | None => sn_content s
  | Some p =>
      let attrs :=
        attr "instance" (rsrc_instance p) +:+ " " +:+ attr "uri" (rsrc_uri p) +:+
        match rsrc_mime_type p with Some m => " " +:+ attr "mime" m | None => "" end in
      "<resource " +:+ attrs +:+ ">" +:+ nl +:+ resource_body p s +:+ nl +:+ "</resource>"
  end.
End hydrate.

(** ** Cutting between characters *)

Lemma chars_nonnil c s : ∃ w ws, chars (String c s) = String c w :: ws.
Proof.
  cbn [chars]. destruct (chars s) as [|[|d w] ws]; eauto. case_match; eauto.
Qed.

Lemma chars_cons c s :
  chars (String c s) =
    match chars s with
    | String d w :: ws =>
        if is_cont d then String c (String d w) :: ws else String c "" :: String d w :: ws
    | ws => String c "" :: ws
    end.
Proof. done. Qed.

Lemma concat_str_cons x l : concat_str (x :: l) = x +:+ concat_str l.
Proof. done. Qed.

(** A prefix of the characters is the characters of a prefix. *)
Lemma chars_prefix s l k : chars s = l ++ k → chars (concat_str l) = l.
Proof.
  revert l. induction s as [|c s IH]; intros l Hl; [by destruct l|].
  destruct l as [|x l]; [done|]. rewrite chars_cons in Hl.
  destruct s as [|d' s].
  { simpl in Hl. injection Hl as <- Hl. by destruct l. }
  destruct (chars_nonnil d' s) as (w&ws&Hc). rewrite Hc in Hl, IH.
  rewrite concat_str_cons. destruct (is_cont d') eqn:Ed; injection Hl as <- Hl.
  - specialize (IH (String d' w :: l)). rewrite concat_str_cons in IH.
    rewrite str_app_cons, chars_cons, IH, Ed by by rewrite Hl. done.
  - rewrite str_app_cons, str_app_nil_l, chars_cons, (IH l Hl).
    destruct l as [|y l]; [done|]. injection Hl as <- _. by rewrite Ed.
Qed.

Lemma chars_app s c t :
  is_cont c = false → chars (s +:+ String c t) = chars s ++ chars (String c t).
Proof.
  intros Hc. induction s as [|d s IH]; [done|].
  rewrite str_app_cons, !(chars_cons d), IH. destruct s as [|e s].
  - destruct (chars_nonnil c t) as (w&ws&->). simpl. by rewrite Hc.
  - destruct (chars_nonnil e s) as (w&ws&->). cbn [app]. by destruct (is_cont e).
Qed.

Lemma take_chars_count n s : (n ≤ char_count s)%nat → char_count (take_chars n s) = n.
Proof.
  intros Hn. unfold char_count, take_chars.
  rewrite (chars_prefix s (take n (chars s)) (drop n (chars s))) by by rewrite take_drop.
  rewrite length_take. unfold char_count in Hn. lia.
Qed.

(** The text is whole, or cut after [budget] characters and marked. *)
Definition cut_at (budget : nat) (s out : string) : Prop :=
  (char_count out ≤ budget + 15)%nat ∧
  ((char_count s ≤ budget)%nat ∧ out = s ∨
   (budget < char_count s)%nat ∧ ∃ rest, take_chars budget s +:+ rest = s ∧
     char_count (take_chars budget s) = budget ∧ out = take_chars budget s +:+ marker).

Lemma within_budget_cut budget s : cut_at budget s (within_budget budget s).
Proof.
  unfold cut_at, within_budget. destruct (Nat.ltb_spec budget (char_count s)).
  - pose proof (take_chars_count budget s) as Hc. split.
    + unfold char_count at 1, marker, nl. rewrite str_app_cons, chars_app by done.
      rewrite length_app. fold (char_count (take_chars budget s)). rewrite Hc by lia.
      simpl. lia.
    + right. split; [done|]. exists (concat_str (drop budget (chars s))).
      split_and!; [|by apply Hc; lia|done].
      transitivity (concat_str (chars s)); [|apply concat_chars].
      assert (∀ l k, concat_str l +:+ concat_str k = concat_str (l ++ k)) as Hcat;
        [|unfold take_chars; by rewrite Hcat, take_drop].
      clear. intros l k. induction l as [|x l IH]; [done|].
      rewrite <- app_comm_cons, !concat_str_cons, <- IH. by rewrite str_app_assoc.
  - split; [lia|]. by left.
Qed.

(** What enters a prompt from outside is bounded and cut cleanly. The hydrated
    body of a tool output, of an error with a detail, of a notification with a
    detail and of a resource with text is the text itself, or its first [budget]
    characters (never half a character) followed by the marker. *)
Theorem hydration_bounded {json : JsonLib} {blib : BlockLib} (s : BlockSnapshot)
    (e : ErrorPayload) (n : NotificationPayload) (r : ResourcePayload) :
  cut_at 4096 (sn_content s) (tool_body s) ∧
  (∀ d, err_detail e = Some d → cut_at 2048 d (error_body e s)) ∧
  (∀ d, note_detail n = Some d → cut_at 512 d (notification_body n s)) ∧
  (∀ t, rsrc_text r = Some t → cut_at 2048 t (resource_body r s)).
Proof.
  unfold tool_body, error_body, notification_body, resource_body.
  split_and!; [|intros ? ->..]; apply within_budget_cut.
Qed.

Example summaries :
  format_tool_change "added" ["a"; "b"; "c"; "d"] = "4 tools added: a, b, c, …" ∧
  first_line (String "x" (String return_ (String newline "y"))) = Some "x".
Proof. by vm_compute. Qed.
