(* ===== verification/BlockContent.v ===== *)
(** * The content of a block ([kaijutsu-crdt/src/content.rs])

    A block owns a text document (the [diamond_types_extended] crate, parameter
    [Dte] with its documented laws [DteLaws]), a header of last-writer-wins fields
    and write-once metadata. [None] is a panic of the crate. *)

From S2P Require Import Prelude Text Tick Ids Track Cas Cell Concrete Block Hydrate.

(** ** The document crate *)

Inductive merge_outcome := MergeDone | MergeError (e : string) | MergePanicked.

Class Dte := {
  Doc : Type;
  Agent : Type;
  Frontier : Type;
  Ops : Type;
  doc_new : Doc;
  create_agent : N → Doc → Agent * Doc;
  create_text : Agent → Doc → Doc;
  get_text : Doc → option string;
  text_insert : Agent → Z → string → Doc → option Doc;
  text_delete : Agent → Z → Z → Doc → option Doc;
  doc_version : Doc → Frontier;
  frontier_root : Frontier;
  ops_since_owned : Frontier → Doc → Ops;
  ops_is_empty : Ops → bool;
  doc_merge : Ops → Doc → merge_outcome * Doc;
}.

(** [count] characters from [pos] on replaced by [s]; positions count characters. *)
Definition splice (pos count : Z) (s t : string) : string :=
  take_chars (Z.to_nat pos) t +:+ s +:+
  concat_str (drop (Z.to_nat (pos + count)) (chars t)).

Class DteLaws `{!Dte} := {
  get_text_new : get_text doc_new = None;
  get_text_agent u d : get_text (create_agent u d).2 = get_text d;
  get_text_create a d : get_text d = None → get_text (create_text a d) = Some "";
  get_text_insert a pos s d t :
    get_text d = Some t → 0 ≤ pos ≤ Z.of_nat (char_count t) →
    ∃ d', text_insert a pos s d = Some d' ∧ get_text d' = Some (splice pos 0 s t);
  get_text_delete a pos n d t :
    get_text d = Some t → 0 ≤ pos → 0 ≤ n → pos + n ≤ Z.of_nat (char_count t) →
    ∃ d', text_delete a pos n d = Some d' ∧ get_text d' = Some (splice pos n "" t);
  (* the full history of a document rebuilds its text on a bare document *)
  merge_full u d :
    ∃ d', doc_merge (ops_since_owned frontier_root d) (create_agent u doc_new).2
          = (MergeDone, d') ∧ get_text d' = get_text d;
  full_ops_empty d : get_text d ≠ None → ops_is_empty (ops_since_owned frontier_root d) = false;
}.

(** [CrdtError]; [MergeFailed] and [MergePanic] are the two [Internal] messages. *)
Inductive CrdtError :=
  | BlockNotFound (id : BlockId)
  | PositionOutOfBounds (pos len : Z)
  | InvalidReference (id : BlockId)
  | DuplicateBlock (id : BlockId)
  | Serialization
  | MergeFailed (e : string)
  | MergePanic.

(** ** Blocks *)

Record BlockContent `{!JsonLib, !BlockLib, !Dte} := {
  b_header : BlockHeader;
  b_doc : Doc;
  b_agent : Agent;
  b_order_key : string;
  b_tick : option Tick;
  b_track : option TrackId;
  b_tool_name : option string;
  b_tool_input : option string;
  b_tool_call_id : option BlockId;
  b_tool_use_id : option string;
  b_output : option OutputData;
  b_stderr : option string;
  b_signature : option string;
  b_source_context : option ContextId;
  b_source_model : option string;
  b_drift_kind : option DriftKind;
  b_file_path : option string;
  b_collapsed : bool;
  b_ephemeral : bool;
  b_excluded : bool;
  b_error : option ErrorPayload;
  b_notification : option NotificationPayload;
  b_resource : option ResourcePayload;
  b_deleted : bool;
}.
#[export] Instance BlockContent_settable `{!JsonLib, !BlockLib, !Dte} : Settable BlockContent := λ s, {|
  b_header := b_header s;
  b_doc := b_doc s;
  b_agent := b_agent s;
  b_order_key := b_order_key s;
  b_tick := b_tick s;
  b_track := b_track s;
  b_tool_name := b_tool_name s;
  b_tool_input := b_tool_input s;
  b_tool_call_id := b_tool_call_id s;
  b_tool_use_id := b_tool_use_id s;
  b_output := b_output s;
  b_stderr := b_stderr s;
  b_signature := b_signature s;
  b_source_context := b_source_context s;
  b_source_model := b_source_model s;
  b_drift_kind := b_drift_kind s;
  b_file_path := b_file_path s;
  b_collapsed := b_collapsed s;
  b_ephemeral := b_ephemeral s;
  b_excluded := b_excluded s;
  b_error := b_error s;
  b_notification := b_notification s;
  b_resource := b_resource s;
  b_deleted := b_deleted s;
|}.

Section content.
Context {json : JsonLib} {blib : BlockLib} {dte : Dte}.
Implicit Types b : BlockContent.

(** The struct literal of [new], around a document. *)
Definition block_around (header : BlockHeader) (agent : Agent) (doc : Doc)
    (order_key : string) : BlockContent := {|
  b_header := header; b_doc := doc; b_agent := agent; b_order_key := order_key;
  b_tick := None;
  b_track := None;
  b_tool_name := None;
  b_tool_input := None;
  b_tool_call_id := None;
  b_tool_use_id := None;
  b_output := None;
  b_stderr := None;
  b_signature := None;
  b_source_context := None;
  b_source_model := None;
  b_drift_kind := None;
  b_file_path := None;
  b_collapsed := false;
  b_ephemeral := false;
  b_excluded := false;
  b_error := None;
  b_notification := None;
  b_resource := None;
  b_deleted := false;
|}.

(** [BlockContent::new]. *)
Definition block_new (header : BlockHeader) (pr : PrincipalId) (order_key : string) :
    BlockContent :=
  let '(agent, doc) := create_agent (principal_uuid pr) doc_new in
  block_around header agent (create_text agent doc) order_key.

(** [BlockContent::with_content]. *)
Definition block_with_content (header : BlockHeader) (content : string)
    (pr : PrincipalId) (order_key : string) (tick : option Tick) : option BlockContent :=
  let block := (block_new header pr order_key) <| b_tick := tick |> in
  if bool_decide (content = "") then Some block
  else match get_text (b_doc block) with
       | None => Some block
       | Some _ =>
           doc ← text_insert (b_agent block) 0 content (b_doc block);
           Some (block <| b_doc := doc |>)
       end.

(** The write-once metadata of a snapshot. *)
Definition copy_metadata (snap : BlockSnapshot) b : BlockContent :=
  b <| b_track := sn_track snap |>
    <| b_tool_name := sn_tool_name snap |>
    <| b_tool_input := sn_tool_input snap |>
    <| b_tool_call_id := sn_tool_call_id snap |>
    <| b_tool_use_id := sn_tool_use_id snap |>
    <| b_output := sn_output snap |>
    <| b_stderr := sn_stderr snap |>
    <| b_signature := sn_signature snap |>
    <| b_source_context := sn_source_context snap |>
    <| b_source_model := sn_source_model snap |>
    <| b_drift_kind := sn_drift_kind snap |>
    <| b_file_path := sn_file_path snap |>
    <| b_error := sn_error snap |>
    <| b_notification := sn_notification snap |>
    <| b_resource := sn_resource snap |>
    <| b_collapsed := sn_collapsed snap |>
    <| b_ephemeral := sn_ephemeral snap |>
    <| b_excluded := sn_excluded snap |>.

(** [BlockContent::from_snapshot], [from_snapshot_for_sync]. *)
Definition block_from_snapshot (snap : BlockSnapshot) (pr : PrincipalId)
    (fallback_order_key : string) : option BlockContent :=
  let order_key := default fallback_order_key (sn_order_key snap) in
  block ← block_with_content (header_from_snapshot snap) (sn_content snap) pr order_key
            (sn_tick snap);
  Some (copy_metadata snap block).

Definition block_from_snapshot_for_sync (snap : BlockSnapshot) (pr : PrincipalId)
    (fallback_order_key : string) : BlockContent :=
  let order_key := default fallback_order_key (sn_order_key snap) in
  let '(agent, doc) := create_agent (principal_uuid pr) doc_new in
  copy_metadata snap
    ((block_around (header_from_snapshot snap) agent doc order_key)
       <| b_tick := sn_tick snap |>).

(** *** Text *)

Definition block_text b : string := default "" (get_text (b_doc b)).
Definition content_len b : Z := Z.of_nat (char_count (block_text b)).

Definition block_edit_text (pos : Z) (insert : string) (delete : Z) b :
    option BlockContent :=
  match get_text (b_doc b) with
  | None => Some b
  | Some _ =>
      d1 ← (if 0 <? delete then text_delete (b_agent b) pos delete (b_doc b)
            else Some (b_doc b));
      d2 ← (if negb (bool_decide (insert = "")) then text_insert (b_agent b) pos insert d1
            else Some d1);
      Some (b <| b_doc := d2 |>)
  end.

Definition block_append_text (text : string) b : option BlockContent :=
  block_edit_text (content_len b) text 0 b.

(** *** Metadata *)

Definition block_id b : BlockId := h_id (b_header b).
Definition set_order_key (key : string) b : BlockContent := b <| b_order_key := key |>.
Definition set_tick (t : Tick) b : BlockContent := b <| b_tick := Some t |>.

(** [self.header.updated_at = self.header.max_field_ts()]. *)
Definition touch (h : BlockHeader) : BlockHeader := h <| h_updated_at := max_field_ts h |>.

Definition block_set_status (v : Status) (ts : Z) b : BlockContent :=
  b <| b_header := touch ((b_header b) <| h_status := v |> <| h_status_at := ts |>) |>.
Definition block_set_collapsed (v : bool) (ts : Z) b : BlockContent :=
  b <| b_collapsed := v |>
    <| b_header := touch ((b_header b) <| h_collapsed := v |> <| h_collapsed_at := ts |>) |>.
Definition mark_deleted (ts : Z) b : BlockContent :=
  b <| b_deleted := true |> <| b_header := (b_header b) <| h_updated_at := ts |> |>.
Definition block_set_content_type (v : ContentType) (ts : Z) b : BlockContent :=
  b <| b_header :=
    touch ((b_header b) <| h_content_type := v |> <| h_content_type_at := ts |>) |>.
Definition block_set_ephemeral (v : bool) (ts : Z) b : BlockContent :=
  b <| b_ephemeral := v |>
    <| b_header := touch ((b_header b) <| h_ephemeral := v |> <| h_ephemeral_at := ts |>) |>.
Definition block_set_excluded (v : bool) (ts : Z) b : BlockContent :=
  b <| b_excluded := v |>
    <| b_header := touch ((b_header b) <| h_excluded := v |> <| h_excluded_at := ts |>) |>.
Definition block_set_compacted (v : bool) (ts : Z) b : BlockContent :=
  b <| b_header := touch ((b_header b) <| h_compacted := v |> <| h_compacted_at := ts |>) |>.
Definition block_set_exit_code (v : option Z) (ts : Z) b : BlockContent :=
  b <| b_header := touch ((b_header b) <| h_exit_code := v |> <| h_tool_meta_at := ts |>) |>.

Definition set_tool_name (v : option string) b : BlockContent := b <| b_tool_name := v |>.
Definition set_tool_input (v : option string) b : BlockContent := b <| b_tool_input := v |>.
Definition set_tool_call_id (v : option BlockId) b : BlockContent :=
  b <| b_tool_call_id := v |>.
Definition block_set_output (v : option OutputData) b : BlockContent := b <| b_output := v |>.
Definition block_set_stderr (v : option string) b : BlockContent := b <| b_stderr := v |>.
Definition block_set_signature (v : option string) b : BlockContent :=
  b <| b_signature := v |>.
Definition block_set_tool_use_id (v : option string) b : BlockContent :=
  b <| b_tool_use_id := v |>.

(** *** Sync *)

Definition block_ops_since (f : Frontier) b : Ops := ops_since_owned f (b_doc b).
Definition root_ops b : Ops := ops_since_owned frontier_root (b_doc b).

(** [merge_ops] catches a panic of the crate; the document is what it left. *)
Definition block_merge_ops (ops : Ops) b : result CrdtError () * BlockContent :=
  let '(o, d) := doc_merge ops (b_doc b) in
  (match o with
   | MergeDone => Ok tt
   | MergeError e => Err (MergeFailed e)
   | MergePanicked => Err MergePanic
   end, b <| b_doc := d |>).

Definition block_frontier b : Frontier := doc_version (b_doc b).

(** [BlockContent::snapshot]. *)
Definition block_snapshot b : BlockSnapshot := {|
  sn_id := h_id (b_header b);
  sn_parent_id := h_parent_id (b_header b);
  sn_role := h_role (b_header b);
  sn_status := h_status (b_header b);
  sn_kind := h_kind (b_header b);
  sn_content := block_text b;
  sn_collapsed := b_collapsed b;
  sn_compacted := h_compacted (b_header b);
  sn_ephemeral := b_ephemeral b;
  sn_excluded := b_excluded b;
  sn_created_at := h_created_at (b_header b);
  sn_tool_kind := h_tool_kind (b_header b);
  sn_tool_name := b_tool_name b;
  sn_tool_input := b_tool_input b;
  sn_tool_use_id := b_tool_use_id b;
  sn_tool_call_id := b_tool_call_id b;
  sn_exit_code := h_exit_code (b_header b);
  sn_is_error := h_is_error (b_header b);
  sn_stderr := b_stderr b;
  sn_signature := b_signature b;
  sn_output := b_output b;
  sn_source_context := b_source_context b;
  sn_source_model := b_source_model b;
  sn_drift_kind := b_drift_kind b;
  sn_file_path := b_file_path b;
  sn_error := b_error b;
  sn_notification := b_notification b;
  sn_resource := b_resource b;
  sn_content_type := h_content_type (b_header b);
  sn_order_key := Some (b_order_key b);
  sn_tick := b_tick b;
  sn_track := b_track b;
  sn_updated_at := h_updated_at (b_header b);
  sn_status_at := h_status_at (b_header b);
  sn_collapsed_at := h_collapsed_at (b_header b);
  sn_ephemeral_at := h_ephemeral_at (b_header b);
  sn_excluded_at := h_excluded_at (b_header b);
  sn_compacted_at := h_compacted_at (b_header b);
  sn_tool_meta_at := h_tool_meta_at (b_header b);
  sn_content_type_at := h_content_type_at (b_header b);
|}.

(** *** [merge_header]: last writer wins, field by field *)

Definition field_wins (remote_ts local_ts remote_rank local_rank : Z) : bool :=
  (local_ts <? remote_ts) || ((remote_ts =? local_ts) && (local_rank <? remote_rank)).

Definition merge_status (r : BlockHeader) b : BlockContent :=
  if field_wins (h_status_at r) (h_status_at (b_header b))
       (Status_rank (h_status r)) (Status_rank (h_status (b_header b)))
  then b <| b_header := (b_header b) <| h_status := h_status r |> <| h_status_at := h_status_at r |> |>
  else b.

Definition merge_collapsed (r : BlockHeader) b : BlockContent :=
  if field_wins (h_collapsed_at r) (h_collapsed_at (b_header b))
       (bool_rank (h_collapsed r)) (bool_rank (h_collapsed (b_header b)))
  then b <| b_collapsed := h_collapsed r |>
         <| b_header := (b_header b) <| h_collapsed := h_collapsed r |> <| h_collapsed_at := h_collapsed_at r |> |>
  else b.

Definition merge_ephemeral (r : BlockHeader) b : BlockContent :=
  if field_wins (h_ephemeral_at r) (h_ephemeral_at (b_header b))
       (bool_rank (h_ephemeral r)) (bool_rank (h_ephemeral (b_header b)))
  then b <| b_ephemeral := h_ephemeral r |>
         <| b_header := (b_header b) <| h_ephemeral := h_ephemeral r |> <| h_ephemeral_at := h_ephemeral_at r |> |>
  else b.

Definition merge_excluded (r : BlockHeader) b : BlockContent :=
  if field_wins (h_excluded_at r) (h_excluded_at (b_header b))
       (bool_rank (h_excluded r)) (bool_rank (h_excluded (b_header b)))
  then b <| b_excluded := h_excluded r |>
         <| b_header := (b_header b) <| h_excluded := h_excluded r |> <| h_excluded_at := h_excluded_at r |> |>
  else b.

Definition merge_compacted (r : BlockHeader) b : BlockContent :=
  if field_wins (h_compacted_at r) (h_compacted_at (b_header b))
       (bool_rank (h_compacted r)) (bool_rank (h_compacted (b_header b)))
  then b <| b_header := (b_header b) <| h_compacted := h_compacted r |> <| h_compacted_at := h_compacted_at r |> |>
  else b.

Definition merge_tool_meta (r : BlockHeader) b : BlockContent :=
  if field_wins (h_tool_meta_at r) (h_tool_meta_at (b_header b))
       (tool_kind_rank (h_tool_kind r)) (tool_kind_rank (h_tool_kind (b_header b)))
  then b <| b_header := (b_header b) <| h_tool_kind := h_tool_kind r |> <| h_exit_code := h_exit_code r |> <| h_is_error := h_is_error r |> <| h_tool_meta_at := h_tool_meta_at r |> |>
  else b.

Definition merge_content_type (r : BlockHeader) b : BlockContent :=
  if field_wins (h_content_type_at r) (h_content_type_at (b_header b))
       (ContentType_rank (h_content_type r)) (ContentType_rank (h_content_type (b_header b)))
  then b <| b_header := (b_header b) <| h_content_type := h_content_type r |> <| h_content_type_at := h_content_type_at r |> |>
  else b.

Definition merge_header (r : BlockHeader) b : BlockContent :=
  let b := merge_content_type r (merge_tool_meta r (merge_compacted r (merge_excluded r
             (merge_ephemeral r (merge_collapsed r (merge_status r b)))))) in
  b <| b_header := (b_header b)
         <| h_updated_at := Z.max (max_field_ts (b_header b)) (max_field_ts r) |> |>.
End content.

(** ** A concrete document: its text *)

Module DemoDoc.
Export DemoBlock.

#[export] Instance demo_dte : Dte := {|
  Doc := option string;
  Agent := N;
  Frontier := bool;
  Ops := option string;
  doc_new := None;
  create_agent u d := (u, d);
  create_text _ d := match d with None => Some "" | Some _ => d end;
  get_text d := d;
  text_insert _ pos s d :=
    match d with
    | Some t => if (0 <=? pos) && (pos <=? Z.of_nat (char_count t))
                then Some (Some (splice pos 0 s t)) else None
    | None => None
    end;
  text_delete _ pos n d :=
    match d with
    | Some t => if (0 <=? pos) && (0 <=? n) && (pos + n <=? Z.of_nat (char_count t))
                then Some (Some (splice pos n "" t)) else None
    | None => None
    end;
  doc_version _ := false;
  frontier_root := true;
  ops_since_owned f d := if f then d else None;
  ops_is_empty o := match o with None => true | Some _ => false end;
  doc_merge o d := (MergeDone, match o with Some t => Some t | None => d end);
|}.

#[export] Instance demo_dte_laws : DteLaws.
Proof.
  split; cbn -[splice].
  - done.
  - done.
  - by intros _ d ->.
  - intros _ pos s d t -> [H1 H2].
    rewrite (proj2 (Z.leb_le _ _) H1), (proj2 (Z.leb_le _ _) H2). by eexists.
  - intros _ pos n d t -> H1 H2 H3.
    rewrite (proj2 (Z.leb_le _ _) H1), (proj2 (Z.leb_le _ _) H2),
      (proj2 (Z.leb_le _ _) H3). by eexists.
  - intros _ [t|]; by eexists.
  - by intros [t|].
Qed.
End DemoDoc.

(** A finished tool result of the demo player, at Lamport time [ts]. *)
Definition demo_header (n ts : Z) (code : option Z) : BlockHeader :=
  {| h_id := DemoBlock.demo_id n; h_parent_id := None; h_role := Tool; h_kind := KToolResult;
     h_status := SDone; h_compacted := false; h_collapsed := false; h_ephemeral := false;
     h_excluded := false; h_created_at := 0; h_updated_at := ts; h_tool_kind := Some Shell;
     h_exit_code := code; h_is_error := false; h_content_type := Plain; h_status_at := ts;
     h_collapsed_at := ts; h_ephemeral_at := ts; h_excluded_at := ts; h_compacted_at := ts;
     h_tool_meta_at := ts; h_content_type_at := ts |}.

Definition demo_block (n ts : Z) (code : option Z) (text : string) :
    @BlockContent Demo.demo_json DemoBlock.demo_blib DemoDoc.demo_dte :=
  block_around (demo_header n ts code) (9%N : @Agent DemoDoc.demo_dte)
    (Some text : @Doc DemoDoc.demo_dte) "V00000000000aaaa".
