(* ===== verification/Convergence.v ===== *)
(** * Merging headers, editing text, freezing blocks
    ([kaijutsu-crdt/src/content.rs])

    The last-writer-wins fields of a header form a join semilattice, so replicas
    that have seen the same headers agree on them in whatever order and however
    often each header came. *)

From S2P Require Import Prelude Text Tick Ids Track Cas Cell Concrete Block Hydrate BlockContent.

(** ** Keys: a timestamp, then the rank of the value *)

Abbreviation key := (Z * Z)%type.
Definition key_le (k l : key) : Prop := k.1 < l.1 ∨ k.1 = l.1 ∧ k.2 ≤ l.2.
Definition key_max (k l : key) : key :=
  if field_wins l.1 k.1 l.2 k.2 then l else k.

Lemma key_max_spec k l :
  key_le k (key_max k l) ∧ key_le l (key_max k l) ∧ (key_max k l = k ∨ key_max k l = l).
Proof.
  unfold key_max, field_wins, key_le. destruct k as [a x], l as [b y]; simpl.
  destruct (Z.ltb_spec a b); simpl; [intuition lia|].
  destruct (Z.eqb_spec b a), (Z.ltb_spec x y); simpl; intuition lia.
Qed.

#[export] Instance key_le_antisymm : AntiSymm (=) key_le.
Proof. intros [a x] [b y]. unfold key_le; simpl. intros ??. f_equal; lia. Qed.
#[export] Instance key_le_trans : Transitive key_le.
Proof. intros ???. unfold key_le. lia. Qed.

(** ** The fields *)

Inductive lww := FStatus | FCollapsed | FEphemeral | FExcluded | FCompacted | FTool | FType.
#[export] Instance lww_eq_dec : EqDecision lww.
Proof. solve_decision. Defined.

Definition key_of (f : lww) (h : BlockHeader) : key :=
  match f with
  | FStatus => (h_status_at h, Status_rank (h_status h))
  | FCollapsed => (h_collapsed_at h, bool_rank (h_collapsed h))
  | FEphemeral => (h_ephemeral_at h, bool_rank (h_ephemeral h))
  | FExcluded => (h_excluded_at h, bool_rank (h_excluded h))
  | FCompacted => (h_compacted_at h, bool_rank (h_compacted h))
  | FTool => (h_tool_meta_at h, tool_kind_rank (h_tool_kind h))
  | FType => (h_content_type_at h, ContentType_rank (h_content_type h))
  end.

(** What replicas should agree on: the merged values, with their timestamps. *)
Definition lww_view (h : BlockHeader) :=
  (h_status h, h_collapsed h, h_ephemeral h, h_excluded h, h_compacted h, h_tool_kind h,
   h_content_type h,
   (h_status_at h, h_collapsed_at h, h_ephemeral_at h, h_excluded_at h, h_compacted_at h,
    h_tool_meta_at h, h_content_type_at h)).

Lemma bool_rank_inj a b : bool_rank a = bool_rank b → a = b.
Proof. by destruct a, b. Qed.

(** The ranks are injective, so equal keys are equal values. *)
Lemma lww_view_keys h1 h2 : (∀ f, key_of f h1 = key_of f h2) → lww_view h1 = lww_view h2.
Proof.
  intros Hk. unfold lww_view.
  pose proof (Hk FStatus) as [= -> H1]. pose proof (Hk FCollapsed) as [= -> H2].
  pose proof (Hk FEphemeral) as [= -> H3]. pose proof (Hk FExcluded) as [= -> H4].
  pose proof (Hk FCompacted) as [= -> H5]. pose proof (Hk FTool) as [= -> H6].
  pose proof (Hk FType) as [= -> H7].
  apply bool_rank_inj in H2 as ->, H3 as ->, H4 as ->, H5 as ->.
  assert (h_status h1 = h_status h2) as -> by by destruct (h_status h1), (h_status h2).
  assert (h_tool_kind h1 = h_tool_kind h2) as ->
    by by destruct (h_tool_kind h1) as [[]|], (h_tool_kind h2) as [[]|].
  assert (h_content_type h1 = h_content_type h2) as ->
    by by destruct (h_content_type h1), (h_content_type h2).
  done.
Qed.

Section convergence.
Context {json : JsonLib} {blib : BlockLib} {dte : Dte}.
Implicit Types b : BlockContent.

(** Each step of [merge_header] joins its own field and keeps the others. *)
Definition joins (g : lww) (r : BlockHeader) (m : BlockHeader → BlockContent → BlockContent) :
    Prop :=
  ∀ b f, key_of f (b_header (m r b)) =
    if decide (f = g) then key_max (key_of f (b_header b)) (key_of f r)
    else key_of f (b_header b).

Ltac joins := intros b f; unfold key_max; destruct f; cbn -[field_wins];
  by destruct (field_wins _ _ _ _).

Lemma merge_status_joins r : joins FStatus r merge_status.
Proof. unfold merge_status. joins. Qed.
Lemma merge_collapsed_joins r : joins FCollapsed r merge_collapsed.
Proof. unfold merge_collapsed. joins. Qed.
Lemma merge_ephemeral_joins r : joins FEphemeral r merge_ephemeral.
Proof. unfold merge_ephemeral. joins. Qed.
Lemma merge_excluded_joins r : joins FExcluded r merge_excluded.
Proof. unfold merge_excluded. joins. Qed.
Lemma merge_compacted_joins r : joins FCompacted r merge_compacted.
Proof. unfold merge_compacted. joins. Qed.
Lemma merge_tool_meta_joins r : joins FTool r merge_tool_meta.
Proof. unfold merge_tool_meta. joins. Qed.
Lemma merge_content_type_joins r : joins FType r merge_content_type.
Proof. unfold merge_content_type. joins. Qed.

Lemma merge_header_key f r b :
  key_of f (b_header (merge_header r b)) = key_max (key_of f (b_header b)) (key_of f r).
Proof.
  assert (∀ b z, key_of f (b_header (b <| b_header := (b_header b)
    <| h_updated_at := z |> |>)) = key_of f (b_header b)) as Hup by by destruct f.
  unfold merge_header. cbv zeta. rewrite Hup.
  rewrite merge_content_type_joins, merge_tool_meta_joins, merge_compacted_joins,
    merge_excluded_joins, merge_ephemeral_joins, merge_collapsed_joins,
    merge_status_joins.
  by destruct f.
Qed.

(** The tool fields that ride on the tool timestamp follow the winning header. *)
Definition tool_view (h : BlockHeader) :=
  (h_tool_meta_at h, h_tool_kind h, h_exit_code h, h_is_error h).

Ltac keeps_tool := destruct (field_wins _ _ _ _); reflexivity.

Lemma merge_header_tool r b :
  tool_view (b_header (merge_header r b)) =
  tool_view (if field_wins (h_tool_meta_at r) (h_tool_meta_at (b_header b))
               (tool_kind_rank (h_tool_kind r)) (tool_kind_rank (h_tool_kind (b_header b)))
             then r else b_header b).
Proof.
  assert (∀ b, tool_view (b_header (merge_status r b)) = tool_view (b_header b)) as K1
    by (intros; unfold merge_status; keeps_tool).
  assert (∀ b, tool_view (b_header (merge_collapsed r b)) = tool_view (b_header b)) as K2
    by (intros; unfold merge_collapsed; keeps_tool).
  assert (∀ b, tool_view (b_header (merge_ephemeral r b)) = tool_view (b_header b)) as K3
    by (intros; unfold merge_ephemeral; keeps_tool).
  assert (∀ b, tool_view (b_header (merge_excluded r b)) = tool_view (b_header b)) as K4
    by (intros; unfold merge_excluded; keeps_tool).
  assert (∀ b, tool_view (b_header (merge_compacted r b)) = tool_view (b_header b)) as K5
    by (intros; unfold merge_compacted; keeps_tool).
  assert (∀ b, tool_view (b_header (merge_content_type r b)) = tool_view (b_header b)) as K6
    by (intros; unfold merge_content_type; keeps_tool).
  assert (∀ b z, tool_view (b_header (b <| b_header := (b_header b)
    <| h_updated_at := z |> |>)) = tool_view (b_header b)) as K7 by done.
  unfold merge_header. cbv zeta. rewrite K7, K6.
  match goal with |- context [merge_tool_meta r ?x] =>
    assert (tool_view (b_header x) = tool_view (b_header b)) as Hc
      by (by rewrite K5, K4, K3, K2, K1); generalize dependent x end.
  clear. intros c Hc. unfold merge_tool_meta.
  pose proof Hc as [= <- <- _ _].
  destruct (field_wins _ _ _ _); [reflexivity|exact Hc].
Qed.

(** *** A run of merges *)

#[local] Opaque merge_header.

Definition merge_all (rs : list BlockHeader) b : BlockContent :=
  foldl (λ b r, merge_header r b) b rs.

Lemma merge_all_key f rs b :
  let k := key_of f (b_header (merge_all rs b)) in
  (∃ h, h ∈ b_header b :: rs ∧ k = key_of f h) ∧
  (∀ h, h ∈ b_header b :: rs → key_le (key_of f h) k).
Proof.
  revert b. induction rs as [|r rs IH]; intros b; cbn.
  { split; [exists (b_header b); by split; [left|]|].
    intros h [->|?%elem_of_nil]%elem_of_cons; [|done]. right. lia. }
  destruct (IH (merge_header r b)) as [(h&Hh&Hk) Hle].
  pose proof (merge_header_key f r b) as Hm.
  destruct (key_max_spec (key_of f (b_header b)) (key_of f r)) as (Hb&Hr&Hor).
  rewrite <- Hm in Hb, Hr, Hor. unfold merge_all in *. cbn [foldl]. split.
  - apply elem_of_cons in Hh as [->|Hh].
    + rewrite Hk. destruct Hor as [Hor|Hor]; rewrite Hor; [exists (b_header b)|exists r];
        rewrite !elem_of_cons; auto.
    + exists h. rewrite !elem_of_cons; auto.
  - intros h' Hh'. rewrite !elem_of_cons in Hh'.
    assert (key_le (key_of f (b_header (merge_header r b)))
      (key_of f (b_header (foldl (λ b r, merge_header r b) (merge_header r b) rs))))
      by (apply Hle; left).
    destruct Hh' as [->|[->|Hh']]; [by etrans..|]. apply Hle. by right.
Qed.

(** Headers that agree on the key of the tool cluster agree on all of it. *)
Definition tool_consistent (hs : list BlockHeader) : Prop :=
  ∀ h1 h2, h1 ∈ hs → h2 ∈ hs → key_of FTool h1 = key_of FTool h2 →
           tool_view h1 = tool_view h2.

Lemma merge_all_tool rs b :
  ∃ h, h ∈ b_header b :: rs ∧ tool_view (b_header (merge_all rs b)) = tool_view h.
Proof.
  revert b. induction rs as [|r rs IH]; intros b; cbn.
  { exists (b_header b). split; [left|done]. }
  destruct (IH (merge_header r b)) as (h&Hh&Hv). unfold merge_all in *.
  rewrite Hv. apply elem_of_cons in Hh as [->|Hh].
  - rewrite merge_header_tool.
    destruct (field_wins _ _ _ _); [exists r|exists (b_header b)];
      rewrite !elem_of_cons; auto.
  - exists h. rewrite !elem_of_cons; auto.
Qed.

End convergence.

(** ** On concrete replicas *)

Import DemoDoc.


(** The proviso is needed. Two replicas write different exit codes at the same
    Lamport time and exchange headers: the tie is broken on the tool kind alone,
    which is equal, so each replica keeps its own exit code for good. *)
Theorem tool_meta_diverges :
  let b1 := demo_block 1 7 (Some 0) "x" in
  let b2 := demo_block 1 7 (Some 1) "x" in
  h_exit_code (b_header (merge_header (b_header b2) b1)) = Some 0 ∧
  h_exit_code (b_header (merge_header (b_header b1) b2)) = Some 1.
Proof. by vm_compute. Qed.

(** * Editing and freezing a block ([kaijutsu-crdt/src/content.rs])

    What [edit_text] does to the text, and that a block survives being frozen into
    a snapshot and thawed again, on either path the code has for it. *)

(** ** Splicing characters *)

(** The characters of a string, after the first, do not start with a continuation
    byte. *)
Lemma chars_heads s :
  match chars s with
  | [] => True
  | _ :: ws => Forall (λ x, ∃ c w, x = String c w ∧ is_cont c = false) ws
  end.
Proof.
  induction s as [|c s IH]; [done|]. rewrite chars_cons.
  destruct (chars s) as [|[|d w] ws] eqn:E; [done| |].
  - destruct s as [|e s]; [done|]. destruct (chars_nonnil e s) as (?&?&He). rewrite E in He. discriminate.
  - destruct (is_cont d) eqn:Ed; [done|]. constructor; [eauto|done].
Qed.

Lemma concat_str_app l k : concat_str (l ++ k) = concat_str l +:+ concat_str k.
Proof.
  induction l as [|x l IH]; [done|].
  by rewrite <- app_comm_cons, !concat_str_cons, IH, str_app_assoc.
Qed.

(** Removing characters, but not the first of a non-empty rest, leaves characters. *)
Lemma chars_cut s n m :
  (0 < m)%nat →
  chars (concat_str (take n (chars s)) +:+ concat_str (drop m (chars s))) =
    take n (chars s) ++ chars (concat_str (drop m (chars s))).
Proof.
  intros Hm. pose proof (chars_heads s) as Hh.
  pose proof (chars_prefix s (take n (chars s)) (drop n (chars s))) as Hp.
  rewrite take_drop in Hp. specialize (Hp eq_refl).
  destruct (drop m (chars s)) as [|x l] eqn:Ed.
  { cbn [concat_str foldr]. rewrite str_app_nil_r, Hp. by rewrite app_nil_r. }
  assert (∃ c w, x = String c w ∧ is_cont c = false) as (c&w&->&Hc).
  { destruct (chars s) as [|y ws]; [by destruct m|]. destruct m as [|m]; [lia|].
    rewrite Forall_forall in Hh. apply Hh. cbn in Ed.
    rewrite <- (take_drop m ws), Ed. apply elem_of_app. right. left. }
  rewrite concat_str_cons, str_app_cons, chars_app, Hp by done. done.
Qed.

(** An insertion where text was deleted is a replacement. *)
Lemma splice_splice pos n ins t :
  0 ≤ pos → 0 < n → pos + n ≤ Z.of_nat (char_count t) →
  splice pos 0 ins (splice pos n "" t) = splice pos n ins t.
Proof.
  intros Hpos Hn Hlen. unfold splice at 1. unfold splice, take_chars.
  rewrite !str_app_nil_l, Z.add_0_r. set (k := Z.to_nat pos).
  rewrite chars_cut by lia. unfold char_count in Hlen.
  assert (length (take k (chars t)) = k) as Hk by (rewrite length_take; lia).
  rewrite take_app_le, take_ge by lia. rewrite drop_app_ge, Hk, Nat.sub_diag, drop_0 by lia.
  by rewrite concat_chars.
Qed.

Lemma splice_fresh s : splice 0 0 s "" = s.
Proof. unfold splice. cbn. apply str_app_nil_r. Qed.

Section freeze.
Context {json : JsonLib} {blib : BlockLib} {dte : Dte} {laws : DteLaws}.
Implicit Types b : BlockContent.

(** [b'] is [b] but for its document, whose text is [t]. *)
Definition rewrites b (t : string) b' : Prop :=
  ∃ d, b' = b <| b_doc := d |> ∧ get_text d = Some t.

Lemma edit_text_rewrites b t pos ins del :
  get_text (b_doc b) = Some t →
  0 ≤ pos → 0 ≤ del → pos + del ≤ content_len b →
  ∃ b', block_edit_text pos ins del b = Some b' ∧ rewrites b (splice pos del ins t) b'.
Proof.
  intros Ht Hpos Hdel Hlen.
  cut (∃ d, block_edit_text pos ins del b = Some (b <| b_doc := d |>) ∧
            get_text d = Some (splice pos del ins t)).
  { intros (d&?&?). eexists. split; [done|]. by exists d. }
  unfold content_len, block_text in Hlen. rewrite Ht in Hlen. cbn in Hlen.
  assert (splice pos 0 "" t = t) as Hnil.
  { unfold splice, take_chars. rewrite str_app_nil_l, Z.add_0_r, <- concat_str_app.
    by rewrite take_drop, concat_chars. }
  unfold block_edit_text. rewrite Ht. destruct (Z.ltb_spec 0 del).
  - destruct (get_text_delete (b_agent b) pos del (b_doc b) t) as (d1&->&Hd1);
      [done..|]. cbn [mbind option_bind]. case_bool_decide as Hi; cbn [negb].
    + subst. eexists. split; [done|]. done.
    + assert (pos ≤ Z.of_nat (char_count (splice pos del "" t))) as Hle.
      { unfold splice, char_count, take_chars. rewrite str_app_nil_l, chars_cut by lia.
        rewrite length_app, length_take. unfold char_count in Hlen. lia. }
      destruct (get_text_insert (b_agent b) pos ins d1 (splice pos del "" t))
        as (d2&->&Hd2); [done..|]. cbn [mbind option_bind]. exists d2.
      split; [done|]. by rewrite Hd2, splice_splice by (done || (unfold char_count; lia)).
  - replace del with 0 by lia. cbn [mbind option_bind].
    case_bool_decide as Hi; cbn [negb].
    + subst. exists (b_doc b). split; [by destruct b|]. by rewrite Hnil.
    + destruct (get_text_insert (b_agent b) pos ins (b_doc b) t) as (d2&->&Hd2);
        [done|unfold char_count; lia|]. cbn [mbind option_bind]. eauto.
Qed.

(** [edit_text] within bounds never panics, replaces exactly the [delete]
    characters from [pos] on by [insert], and touches nothing but the document;
    [append_text] is the edit at the end. *)
Theorem edit_text_correct b t pos ins del
    (Ht : get_text (b_doc b) = Some t)
    (Hpos : 0 ≤ pos) (Hdel : 0 ≤ del) (Hlen : pos + del ≤ content_len b) :
  (∃ b', block_edit_text pos ins del b = Some b' ∧ rewrites b (splice pos del ins t) b') ∧
  (∃ b', block_append_text ins b = Some b' ∧ rewrites b (t +:+ ins) b').
Proof.
  split; [by apply edit_text_rewrites|]. unfold block_append_text.
  assert (0 ≤ content_len b) as H0 by (unfold content_len; apply Nat2Z.is_nonneg).
  destruct (edit_text_rewrites b t (content_len b) ins 0 Ht H0) as (b'&->&d&->&Hd);
    [done|by rewrite Z.add_0_r|].
  eexists. split; [done|]. exists d. split; [done|]. rewrite Hd. f_equal. unfold splice, content_len, block_text.
  rewrite Ht. cbn. unfold take_chars, char_count. rewrite Z.add_0_r, Nat2Z.id.
  rewrite take_ge, drop_ge, concat_chars by done. by rewrite str_app_nil_r.
Qed.

(** The flags kept outside the header are those of the header. *)
Definition flags_ok b : Prop :=
  b_collapsed b = h_collapsed (b_header b) ∧
  b_ephemeral b = h_ephemeral (b_header b) ∧
  b_excluded b = h_excluded (b_header b).

Lemma with_content_ok h content pr k t :
  ∃ d, block_with_content h content pr k t =
         Some ((block_new h pr k) <| b_tick := t |> <| b_doc := d |>) ∧
       get_text d = Some content.
Proof.
  unfold block_with_content, block_new.
  destruct (create_agent (principal_uuid pr) doc_new) as [a d] eqn:Ea.
  assert (get_text (create_text a d) = Some "") as Hd.
  { apply get_text_create. change d with (a, d).2. by rewrite <- Ea, get_text_agent, get_text_new. }
  case_bool_decide as Hc; [subst; eexists; split; [done|done]|]. cbn.
  rewrite Hd. destruct (get_text_insert a 0 content (create_text a d) "") as (d'&->&Hd');
    [done|cbn; lia|]. cbn. eexists. split; [done|]. by rewrite Hd', splice_fresh.
Qed.

(** A live block whose flags agree survives being frozen. The snapshot thawed by
    [from_snapshot], and the snapshot thawed bare and given the full history of
    the document, both freeze to the same snapshot again: text, header,
    timestamps, order key, tick, lane and every piece of metadata. *)
Theorem freeze_thaw b pr key (Hlive : b_deleted b = false) (Hflags : flags_ok b) :
  (∃ b', block_from_snapshot (block_snapshot b) pr key = Some b' ∧
         block_snapshot b' = block_snapshot b ∧ flags_ok b' ∧ b_deleted b' = false) ∧
  (∃ b', block_merge_ops (root_ops b) (block_from_snapshot_for_sync (block_snapshot b) pr key)
           = (Ok tt, b') ∧
         block_snapshot b' = block_snapshot b ∧ flags_ok b' ∧ b_deleted b' = false).
Proof.
  destruct Hflags as (F1&F2&F3). split.
  - unfold block_from_snapshot.
    destruct (with_content_ok (header_from_snapshot (block_snapshot b)) (block_text b) pr
      (b_order_key b) (b_tick b)) as (d&Hd&Ht).
    cbn [block_snapshot sn_order_key sn_content sn_tick default from_option id].
    rewrite Hd. cbn [mbind option_bind]. eexists. split; [done|].
    unfold block_new. destruct (create_agent _ _) as [a d0].
    unfold block_snapshot, block_text, flags_ok. cbn. by rewrite Ht.
  - unfold block_merge_ops, block_from_snapshot_for_sync, root_ops.
    pose proof (merge_full (principal_uuid pr) (b_doc b)) as (d&Hm&Ht).
    destruct (create_agent _ _) as [a d0]. cbn in Hm |- *. rewrite Hm.
    eexists. split; [done|]. unfold block_snapshot, block_text, flags_ok. cbn.
    by rewrite Ht.
Qed.
End freeze.

(** ** On a concrete block *)

Import DemoDoc.

Lemma edit_text_correct_witness :
  ∃ b', block_edit_text 1 "e" 2 (demo_block 1 4 None "hxxy") = Some b' ∧
        rewrites (demo_block 1 4 None "hxxy") "hey" b'.
Proof.
  destruct (edit_text_correct (demo_block 1 4 None "hxxy") "hxxy" 1 "e" 2)
    as [(b'&Hb&Ht) _]; [reflexivity|lia|lia|vm_compute; discriminate|].
  exists b'. exact (conj Hb Ht).
Defined.

Lemma freeze_thaw_witness :
  ∃ b', block_from_snapshot (block_snapshot (demo_block 1 4 (Some 0) "hey"))
          {| principal_uuid := 3 |} "k" = Some b' ∧
        block_snapshot b' = block_snapshot (demo_block 1 4 (Some 0) "hey").
Proof.
  destruct (freeze_thaw (demo_block 1 4 (Some 0) "hey") {| principal_uuid := 3 |} "k")
    as [(b'&H1&H2&_) _]; [reflexivity|split; [reflexivity|split; reflexivity]|].
  exists b'. exact (conj H1 H2).
Defined.
