(* ===== verification/Selection.v ===== *)
(** * Interval selection ([kaijutsu-crdt/src/selection.rs])

    The positions a fork keeps are a set of half-open intervals in canonical form.
    The operations are the walks of the source; a position ([usize]) is a [Z]. *)

From Stdlib Require Import Ascii.
From S2P Require Import Prelude Text.

(** ** Ranges and canonical sets *)

(** [std::ops::Range<usize>]. *)
Record Range := { r_start : Z; r_end : Z }.
#[export] Instance Range_settable : Settable Range := λ r,
  {| r_start := r_start r; r_end := r_end r |}.
#[export] Instance Range_eq_dec : EqDecision Range.
Proof. solve_decision. Defined.

Definition range_contains (r : Range) (pos : Z) : bool :=
  (r_start r <=? pos) && (pos <? r_end r).
Definition range_len (r : Range) : Z := Z.max 0 (r_end r - r_start r).

Definition IntervalSet := list Range.

Definition set_empty : IntervalSet := [].
Definition set_full (len : Z) : IntervalSet :=
  if 0 <? len then [{| r_start := 0; r_end := len |}] else [].

(** [sort_by_key(|r| (r.start, r.end))]. *)
Definition range_le (a b : Range) : Prop :=
  r_start a < r_start b ∨ r_start a = r_start b ∧ r_end a ≤ r_end b.
#[export] Instance range_le_dec : RelDecision range_le.
Proof. intros a b. unfold range_le. apply _. Defined.

(** The merging loop; [last] is the last element of [merged]. *)
Fixpoint coalesce (last : Range) (rs : list Range) : list Range :=
  match rs with
  | [] => [last]
  | r :: rs' =>
      if r_start r <=? r_end last
      then coalesce (last <| r_end := Z.max (r_end last) (r_end r) |>) rs'
      else last :: coalesce r rs'
  end.

Definition from_ranges (iter : list Range) : IntervalSet :=
  let runs := filter (λ r, (r_start r <? r_end r) = true) iter in
  match merge_sort range_le runs with
  | [] => []
  | r :: rs => coalesce r rs
  end.

Definition set_is_empty (s : IntervalSet) : bool :=
  match s with [] => true | _ => false end.

Definition set_count (s : IntervalSet) : Z := foldr (λ r n, range_len r + n) 0 s.

Definition set_union (s o : IntervalSet) : IntervalSet := from_ranges (s ++ o).

(** The walk of [intersect]: the indices [i], [j] are what is left of the runs. *)
Fixpoint intersect_walk (s : list Range) : list Range → list Range :=
  fix walk (o : list Range) : list Range :=
    match s, o with
    | a :: s', b :: o' =>
        let lo := Z.max (r_start a) (r_start b) in
        let hi := Z.min (r_end a) (r_end b) in
        (if lo <? hi then [{| r_start := lo; r_end := hi |}] else []) ++
        (if r_end a <? r_end b then intersect_walk s' o else walk o')
    | _, _ => []
    end.

Definition set_intersect (s o : IntervalSet) : IntervalSet :=
  from_ranges (intersect_walk s o).

(** The inner loop of [difference] from [cursor] on, and what follows it. *)
Fixpoint carve (cursor hi : Z) (o : list Range) : list Range :=
  let rest := if cursor <? hi then [{| r_start := cursor; r_end := hi |}] else [] in
  match o with
  | [] => rest
  | b :: o' =>
      if r_end b <=? cursor then carve cursor hi o'
      else if hi <=? r_start b then rest
      else
        (if cursor <? r_start b
         then [{| r_start := cursor; r_end := Z.min (r_start b) hi |}] else []) ++
        (if hi <=? Z.max cursor (r_end b) then []
         else carve (Z.max cursor (r_end b)) hi o')
  end.

Definition set_difference (s o : IntervalSet) : IntervalSet :=
  from_ranges (s ≫= λ a, carve (r_start a) (r_end a) o).

Definition contains_subset (s o : IntervalSet) : bool := set_is_empty (set_difference o s).

Definition contains_position (s : IntervalSet) (pos : Z) : bool :=
  existsb (λ r, range_contains r pos) s.

(** ** The keep-set *)

Inductive SelectionError := IncludeViolation (missing : list Range).

Definition resolve_keep_set (base : IntervalSet) (cli_includes : option IntervalSet)
    (excludes : IntervalSet) : result SelectionError IntervalSet :=
  let includes := default base cli_includes in
  let kept := set_difference (set_intersect base includes) excludes in
  match cli_includes with
  | Some inc =>
      if negb (contains_subset kept inc)
      then Err (IncludeViolation (set_difference inc kept))
      else Ok kept
  | None => Ok kept
  end.

Definition window_base (len : Z) (marker_idx : option Z) (window : Z) : IntervalSet :=
  match marker_idx with
  | None => set_full len
  | Some m =>
      let prefix_end := Z.min (wrap_u64 (m + 1)) len in
      let tail_start := sat_sub len window in
      from_ranges [{| r_start := 0; r_end := prefix_end |};
                   {| r_start := tail_start; r_end := len |}]
  end.

(** ** The range grammar *)

Inductive RangeError :=
  | NotARange (s : string)
  | BadEndpoint (s : string)
  | Reversed (lo hi : Z).

Definition parse_endpoint (s : string) (len : Z) : result RangeError Z :=
  let number t k :=
    match parse_uint u64_max t with Some n => Ok (k n) | None => Err (BadEndpoint s) end in
  if bool_decide (s = "end") then Ok len
  else match strip_prefix s "end-" with
       | Some n => number n (λ n, sat_sub len n)
       | None => number s id
       end.

Definition range_sep : ascii := ":"%char.

Definition parse_range (spec : string) (len : Z) : result RangeError Range :=
  match split_once spec range_sep with
  | None => Err (NotARange spec)
  | Some (lo_s, hi_s) =>
      if contains_char hi_s range_sep then Err (NotARange spec)
      else
        match (if bool_decide (lo_s = "") then Ok 0 else parse_endpoint lo_s len) with
        | Err e => Err e
        | Ok lo =>
            match (if bool_decide (hi_s = "") then Ok len else parse_endpoint hi_s len) with
            | Err e => Err e
            | Ok hi =>
                let lo := Z.min lo len in
                let hi := Z.min hi len in
                if hi <? lo then Err (Reversed lo hi)
                else Ok {| r_start := lo; r_end := hi |}
            end
        end
  end.

(** ** Positions and canonical form *)

Definition covers (p : Z) (s : list Range) : Prop :=
  Exists (λ r, r_start r ≤ p < r_end r) s.

(** Runs are sorted, disjoint, not adjacent and not empty. *)
Definition canonical_set (s : IntervalSet) : Prop :=
  Forall (λ r, r_start r < r_end r) s ∧
  StronglySorted (λ a b, r_end a < r_start b) s.

Lemma covers_nil p : covers p [] ↔ False.
Proof. apply Exists_nil. Qed.
Lemma covers_cons p r s : covers p (r :: s) ↔ r_start r ≤ p < r_end r ∨ covers p s.
Proof. apply Exists_cons. Qed.
Lemma covers_app p s o : covers p (s ++ o) ↔ covers p s ∨ covers p o.
Proof. apply Exists_app. Qed.
Lemma covers_run p (a b : Z) :
  covers p (if a <? b then [{| r_start := a; r_end := b |}] else []) ↔ a ≤ p < b.
Proof.
  destruct (Z.ltb_spec a b); rewrite ?covers_cons, covers_nil; simpl; lia.
Qed.
#[export] Hint Rewrite covers_nil covers_cons covers_app covers_run : kj.

(** Rewrites membership in the code's sets down to the ends of the runs. *)
Ltac positions := autorewrite with kj; simpl in *.

Lemma contains_position_covers p s : contains_position s p = true ↔ covers p s.
Proof.
  unfold contains_position, covers. rewrite existsb_exists, Exists_exists.
  setoid_rewrite list_elem_of_In. unfold range_contains.
  split; intros (r&?&?); exists r; (split; [done|]);
    rewrite ?andb_true_iff, ?Z.leb_le, ?Z.ltb_lt in *; lia.
Qed.

Lemma canonical_cons r s :
  canonical_set (r :: s) ↔
  r_start r < r_end r ∧ Forall (λ b, r_end r < r_start b) s ∧ canonical_set s.
Proof.
  unfold canonical_set. rewrite Forall_cons, StronglySorted_cons. naive_solver.
Qed.

(** What lies past the first run of a canonical set. *)
Lemma covers_after p s c : Forall (λ b, c < r_start b) s → covers p s → c < p.
Proof.
  intros Hs (r&Hr&Hp)%Exists_exists. rewrite Forall_forall in Hs.
  specialize (Hs r Hr). lia.
Qed.

Lemma set_is_empty_covers s :
  canonical_set s → set_is_empty s = true ↔ ∀ p, ¬ covers p s.
Proof.
  intros Hs. destruct s as [|r s]; simpl.
  - split; [|done]. by intros _ p ?%covers_nil.
  - split; [done|]. intros Hn. apply canonical_cons in Hs as [? _].
    destruct (Hn (r_start r)). positions. lia.
Qed.

(** A canonical set is determined by its positions. *)
Lemma canonical_ext s o :
  canonical_set s → canonical_set o → (∀ p, covers p s ↔ covers p o) → s = o.
Proof.
  revert o. induction s as [|a s IH]; intros [|b o] Hs Ho Heq; [done|..].
  - apply canonical_cons in Ho as [? _]. exfalso.
    apply (covers_nil (r_start b)), Heq. positions. lia.
  - apply canonical_cons in Hs as [? _]. exfalso.
    apply (covers_nil (r_start a)), Heq. positions. lia.
  - apply canonical_cons in Hs as (Ha&Has&Hs), Ho as (Hb&Hbo&Ho).
    assert (∀ p, r_start a ≤ p < r_end a ∨ covers p s ↔
                 r_start b ≤ p < r_end b ∨ covers p o) as Hp.
    { intros p. rewrite <- !covers_cons. apply Heq. }
    assert (r_start a = r_start b) as Hst.
    { destruct (proj1 (Hp (r_start a))) as [?|?%(covers_after _ _ _ Hbo)]; [lia| |];
      destruct (proj2 (Hp (r_start b))) as [?|?%(covers_after _ _ _ Has)]; lia. }
    assert (r_end a = r_end b) as He.
    { destruct (Z.lt_trichotomy (r_end a) (r_end b)) as [Hlt|[?|Hlt]]; [|done|].
      - destruct (proj2 (Hp (r_end a))) as [?|?%(covers_after _ _ _ Has)]; lia.
      - destruct (proj1 (Hp (r_end b))) as [?|?%(covers_after _ _ _ Hbo)]; lia. }
    destruct a, b; simpl in *; subst. f_equal. apply IH; [done..|]. intros p.
    specialize (Hp p). pose proof (covers_after p _ _ Has). pose proof (covers_after p _ _ Hbo).
    naive_solver lia.
Qed.

(** ** Normalization *)

#[export] Instance range_le_total : Total range_le.
Proof. intros a b. unfold range_le. lia. Qed.
#[export] Instance range_le_trans : Transitive range_le.
Proof. intros a b c. unfold range_le. lia. Qed.

Lemma coalesce_ok last rs :
  r_start last < r_end last → Forall (λ r, r_start r < r_end r) rs →
  Forall (λ r, r_start last ≤ r_start r) rs → StronglySorted range_le rs →
  canonical_set (coalesce last rs) ∧
  Forall (λ r, r_start last ≤ r_start r) (coalesce last rs) ∧
  ∀ p, covers p (coalesce last rs) ↔ covers p (last :: rs).
Proof.
  revert last. induction rs as [|r rs IH]; intros last Hl Hne Hst Hs; cbn [coalesce].
  { split_and!; [|by repeat constructor|done]. split; [by repeat constructor|].
    apply SSorted_cons; constructor. }
  apply Forall_cons in Hne as [Hr Hne], Hst as [Hlr Hst].
  apply StronglySorted_cons in Hs as [Hrs Hs].
  assert (Forall (λ x, r_start r ≤ r_start x) rs) as Hrs'.
  { eapply Forall_impl; [exact Hrs|]. unfold range_le. simpl. lia. }
  destruct (Z.leb_spec (r_start r) (r_end last)).
  - destruct (IH (last <| r_end := Z.max (r_end last) (r_end r) |>)) as (Hc&Hf&Hp);
      simpl in *; [lia|done..|]. split_and!; [done..|]. intros p.
    rewrite Hp. positions. naive_solver lia.
  - destruct (IH r Hr Hne Hrs' Hs) as (Hc&Hf&Hp). split_and!.
    + apply canonical_cons. split_and!; [done| |done].
      eapply Forall_impl; [exact Hf|]. simpl. lia.
    + constructor; [done|]. eapply Forall_impl; [exact Hf|]. simpl. lia.
    + intros p. rewrite !covers_cons, Hp, covers_cons. done.
Qed.

Lemma covers_filter p iter :
  covers p (filter (λ r, (r_start r <? r_end r) = true) iter) ↔ covers p iter.
Proof.
  induction iter as [|r iter IH]; [done|]. rewrite filter_cons, covers_cons.
  case_decide as Hr; rewrite ?covers_cons, IH; [done|].
  apply not_true_is_false, Z.ltb_ge in Hr. naive_solver lia.
Qed.

Lemma covers_perm p s o : s ≡ₚ o → covers p s ↔ covers p o.
Proof. intros Hs. unfold covers. by rewrite Hs. Qed.

Lemma from_ranges_ok iter :
  canonical_set (from_ranges iter) ∧ ∀ p, covers p (from_ranges iter) ↔ covers p iter.
Proof.
  unfold from_ranges. set (runs := filter _ iter).
  pose proof (StronglySorted_merge_sort range_le runs) as Hs.
  pose proof (merge_sort_Permutation range_le runs) as Hp.
  assert (Forall (λ r, r_start r < r_end r) runs) as Hne.
  { apply Forall_forall. intros r [?%Z.ltb_lt _]%list_elem_of_filter. done. }
  rewrite <- Hp in Hne.
  setoid_rewrite <- (covers_filter _ iter). fold runs.
  setoid_rewrite <- (covers_perm _ _ _ Hp).
  destruct (merge_sort range_le runs) as [|r rs].
  { split; [|done]. split; constructor. }
  apply Forall_cons in Hne as [? ?]. apply StronglySorted_cons in Hs as [Hr Hs].
  destruct (coalesce_ok r rs) as (?&_&?); try done.
  eapply Forall_impl; [exact Hr|]. unfold range_le. simpl. lia.
Qed.

Lemma from_ranges_canonical iter : canonical_set (from_ranges iter).
Proof. apply from_ranges_ok. Qed.
Lemma covers_from_ranges p iter : covers p (from_ranges iter) ↔ covers p iter.
Proof. apply from_ranges_ok. Qed.
#[export] Hint Resolve from_ranges_canonical : kj.
#[export] Hint Rewrite covers_from_ranges : kj.

(** ** The walks *)

Lemma intersect_walk_covers p s o :
  canonical_set s → canonical_set o →
  covers p (intersect_walk s o) ↔ covers p s ∧ covers p o.
Proof.
  revert o. induction s as [|a s IHs]; intros o Hs Ho.
  { destruct o; positions; tauto. }
  induction o as [|b o IHo]; [positions; tauto|].
  cbn [intersect_walk]. fold (intersect_walk (a :: s)). rewrite covers_app, covers_run.
  pose proof Hs as (Ha&Has&Hs')%canonical_cons. pose proof Ho as (Hb&Hbo&Ho')%canonical_cons.
  pose proof (covers_after p _ _ Has). pose proof (covers_after p _ _ Hbo).
  destruct (Z.ltb_spec (r_end a) (r_end b)).
  - rewrite IHs, !covers_cons by done. naive_solver lia.
  - rewrite IHo, !covers_cons by done. naive_solver lia.
Qed.

Lemma carve_covers p c hi o :
  canonical_set o → covers p (carve c hi o) ↔ c ≤ p < hi ∧ ¬ covers p o.
Proof.
  revert c. induction o as [|b o IH]; intros c Ho; cbn [carve].
  { positions. tauto. }
  pose proof Ho as (Hb&Hbo&Ho')%canonical_cons. pose proof (covers_after p _ _ Hbo).
  rewrite covers_cons. destruct (Z.leb_spec (r_end b) c); [rewrite IH by done; naive_solver lia|].
  destruct (Z.leb_spec hi (r_start b)); [rewrite covers_run; naive_solver lia|].
  rewrite covers_app. assert (covers p (if c <? r_start b
    then [{| r_start := c; r_end := Z.min (r_start b) hi |}] else []) ↔
    c ≤ p < Z.min (r_start b) hi) as ->.
  { destruct (Z.ltb_spec c (r_start b)); positions; lia. }
  destruct (Z.leb_spec hi (Z.max c (r_end b))).
  - rewrite covers_nil. intuition lia.
  - rewrite IH by done. split; [intuition lia|]. intros [? Hn].
    assert (¬ (r_start b ≤ p < r_end b)) by tauto.
    destruct (Z.lt_ge_cases p (r_start b)); [left; lia|right]. split; [lia|tauto].
Qed.

Lemma covers_bind p s (f : Range → list Range) :
  covers p (s ≫= f) ↔ Exists (λ r, covers p (f r)) s.
Proof.
  induction s as [|r s IH]; [by rewrite Exists_nil, covers_nil|].
  rewrite bind_cons, covers_app, Exists_cons, IH. done.
Qed.

Lemma difference_covers p s o :
  canonical_set o → covers p (set_difference s o) ↔ covers p s ∧ ¬ covers p o.
Proof.
  intros Ho. unfold set_difference. rewrite covers_from_ranges, covers_bind.
  induction s as [|r s IH]; [rewrite Exists_nil, covers_nil; tauto|].
  rewrite Exists_cons, covers_cons, IH, carve_covers by done. tauto.
Qed.

Lemma intersect_covers p s o :
  canonical_set s → canonical_set o →
  covers p (set_intersect s o) ↔ covers p s ∧ covers p o.
Proof. intros. unfold set_intersect. by rewrite covers_from_ranges, intersect_walk_covers. Qed.

Lemma difference_canonical s o : canonical_set (set_difference s o).
Proof. apply from_ranges_canonical. Qed.
#[export] Hint Resolve difference_canonical : kj.

(** Whether a canonical set covers a position is decidable. *)
Lemma covers_dec p s : covers p s ∨ ¬ covers p s.
Proof.
  rewrite <- contains_position_covers. destruct (contains_position s p); auto.
Qed.

Lemma subset_covers s o :
  canonical_set s → contains_subset s o = true ↔ ∀ p, covers p o → covers p s.
Proof.
  intros Hs. unfold contains_subset. rewrite set_is_empty_covers by auto with kj.
  setoid_rewrite difference_covers; [|done].
  split; intros Hp p; specialize (Hp p); destruct (covers_dec p s); tauto.
Qed.

(** The operations compute the set algebra: whatever the input ranges, the
    results are in canonical form, contain exactly the positions they should, and
    two canonical sets are equal (as the derived [PartialEq] compares them) iff
    they hold the same positions. *)
Theorem interval_set_algebra (s o : IntervalSet) (iter : list Range)
    (Hs : canonical_set s) (Ho : canonical_set o) :
  Forall canonical_set [from_ranges iter; set_union s o; set_intersect s o;
                        set_difference s o] ∧
  (∀ p, contains_position (from_ranges iter) p = existsb (λ r, range_contains r p) iter ∧
        contains_position (set_union s o) p = contains_position s p || contains_position o p ∧
        contains_position (set_intersect s o) p =
          contains_position s p && contains_position o p ∧
        contains_position (set_difference s o) p =
          contains_position s p && negb (contains_position o p)) ∧
  (contains_subset s o = true ↔
     ∀ p, contains_position o p = true → contains_position s p = true) ∧
  (s = o ↔ ∀ p, contains_position s p = contains_position o p).
Proof.
  split; [|split; [|split]].
  - repeat constructor; apply from_ranges_canonical.
  - intros p. split_and!; apply eq_bool_prop_intro; rewrite !Is_true_true.
    + rewrite contains_position_covers, covers_from_ranges.
      symmetry. apply contains_position_covers.
    + rewrite orb_true_iff, !contains_position_covers. unfold set_union. by positions.
    + by rewrite andb_true_iff, !contains_position_covers, intersect_covers.
    + rewrite andb_true_iff, negb_true_iff, <- not_true_iff_false, !contains_position_covers.
      by apply difference_covers.
  - rewrite subset_covers by done. by setoid_rewrite contains_position_covers.
  - split; [by intros ->|]. intros Heq. apply canonical_ext; [done..|]. intros p.
    by rewrite <- !contains_position_covers, Heq.
Qed.

(** [resolve_keep_set] keeps exactly [(base ∩ includes) \ excludes], with no
    [--include] meaning everything; it refuses exactly when an explicitly included
    position would not survive, and then names all such positions. *)
Theorem resolve_keep_set_correct base inc exc
    (Hb : canonical_set base) (He : canonical_set exc)
    (Hi : ∀ i, inc = Some i → canonical_set i) :
  let kept p := contains_position base p = true ∧ contains_position exc p = false ∧
                (∀ i, inc = Some i → contains_position i p = true) in
  match resolve_keep_set base inc exc with
  | Ok k => canonical_set k ∧ (∀ p, contains_position k p = true ↔ kept p) ∧
            (∀ i p, inc = Some i → contains_position i p = true → kept p)
  | Err (IncludeViolation missing) =>
      canonical_set missing ∧ missing ≠ [] ∧
      ∃ i, inc = Some i ∧
        ∀ p, contains_position missing p = true ↔ contains_position i p = true ∧ ¬ kept p
  end.
Proof.
  intros kept. unfold resolve_keep_set. set (k := set_difference _ _).
  assert (canonical_set k) as Hk by apply difference_canonical.
  assert (∀ p, covers p k ↔ kept p) as Hkept.
  { intros p. unfold k, kept. rewrite difference_covers by done.
    rewrite <- (not_true_iff_false (contains_position exc p)), !contains_position_covers.
    destruct inc as [i|]; simpl.
    - rewrite intersect_covers by eauto. setoid_rewrite contains_position_covers.
      naive_solver.
    - rewrite intersect_covers by done. naive_solver. }
  clearbody k kept. destruct inc as [i|].
  2:{ split_and!; [done| |done]. intros p. by rewrite contains_position_covers. }
  destruct (contains_subset k i) eqn:Es; cbn [negb].
  - rewrite subset_covers in Es by done. split_and!; [done|..].
    + intros p. by rewrite contains_position_covers.
    + intros ? p [= <-]. rewrite contains_position_covers. intros ?%Es. by apply Hkept.
  - split_and!; [apply difference_canonical| |exists i; split; [done|]].
    + intros Hn. unfold contains_subset in Es. by rewrite Hn in Es.
    + intros p. by rewrite !contains_position_covers, difference_covers, Hkept by done.
Qed.

Lemma window_base_covers (len window p : Z) (marker : option Z) :
  in_u64 len → 0 ≤ window → (∀ m, marker = Some m → 0 ≤ m < len) →
  covers p (window_base len marker window) ↔
  0 ≤ p < len ∧ ∀ m, marker = Some m → p ≤ m ∨ len - window ≤ p.
Proof.
  intros Hlen Hw Hm. destruct marker as [m|]; simpl.
  - specialize (Hm m eq_refl). rewrite wrap_u64_id by width_lia. positions. unfold sat_sub. split.
    + intros [?|[?|[]]]; (split; [lia|]); intros ? [= <-]; lia.
    + intros [? Hp]. specialize (Hp m eq_refl). lia.
  - unfold set_full. rewrite covers_run. naive_solver.
Qed.

Lemma window_base_canonical len marker window : canonical_set (window_base len marker window).
Proof.
  destruct marker as [m|]; simpl; [auto with kj|]. unfold set_full.
  destruct (Z.ltb_spec 0 len); [|split; constructor].
  apply canonical_cons. split_and!; [done|constructor|split; constructor].
Qed.

(** The [window] shape keeps the prefix up to the marker and the last [window]
    blocks, each position once and nothing else; without a marker, everything. *)
Theorem window_base_correct (len window p : Z) (marker : option Z)
    (Hlen : in_u64 len) (Hw : 0 ≤ window) (Hm : ∀ m, marker = Some m → 0 ≤ m < len) :
  canonical_set (window_base len marker window) ∧
  (contains_position (window_base len marker window) p = true ↔
   0 ≤ p < len ∧ ∀ m, marker = Some m → p ≤ m ∨ len - window ≤ p).
Proof.
  split; [apply window_base_canonical|].
  rewrite contains_position_covers. by apply window_base_covers.
Qed.

(** ** The grammar *)

(** An endpoint as written, its text and its value on a log of [len] blocks. *)
Inductive Endpoint := EDefault | EAbs (n : Z) | EEnd | EEndMinus (n : Z).

Definition endpoint_text (e : Endpoint) : string :=
  match e with
  | EDefault => ""
  | EAbs n => show_uint n
  | EEnd => "end"
  | EEndMinus n => "end-" +:+ show_uint n
  end.

Definition endpoint_value (default len : Z) (e : Endpoint) : Z :=
  match e with
  | EDefault => default
  | EAbs n => Z.min n len
  | EEnd => len
  | EEndMinus n => Z.max 0 (len - n)
  end.

Definition endpoint_ok (e : Endpoint) : Prop :=
  match e with EAbs n | EEndMinus n => in_u64 n | _ => True end.

Lemma prefix_none c d s p : c ≠ d → strip_prefix (String d s) (String c p) = None.
Proof. intros Hc. simpl. by rewrite bool_decide_false. Qed.

Lemma parse_endpoint_text e len :
  endpoint_ok e → e ≠ EDefault →
  ∃ v, parse_endpoint (endpoint_text e) len = Ok v ∧ Z.min v len = Z.min (endpoint_value 0 len e) len.
Proof.
  intros He Hd. destruct e as [|n| |n]; simpl in He; [done|..].
  - destruct (show_uint_head n) as (c&s&Hs&Hc). unfold parse_endpoint. cbn [endpoint_text].
    rewrite bool_decide_false by (rewrite Hs; by intros [= -> _]).
    rewrite Hs, prefix_none, <- Hs, parse_show_uint by first [by intros <- | apply He].
    eexists. split; [done|]. simpl. unfold id. lia.
  - eexists. split; [reflexivity|]. done.
  - unfold parse_endpoint. cbn [endpoint_text].
    rewrite bool_decide_false by (intros Hd'; discriminate Hd').
    assert (strip_prefix ("end-" +:+ show_uint n) "end-" = Some (show_uint n)) as ->.
    { generalize (show_uint n). intros t. destruct t; reflexivity. }
    rewrite parse_show_uint by apply He. eexists. split; [done|]. done.
Qed.

Lemma endpoint_no_sep e : contains_char (endpoint_text e) range_sep = false.
Proof.
  destruct e; cbn [endpoint_text]; rewrite ?contains_char_app, ?show_uint_no_char; done.
Qed.

Lemma endpoint_text_default e : endpoint_ok e → endpoint_text e = "" → e = EDefault.
Proof.
  destruct e as [|n| |n]; try done. intros _. cbn [endpoint_text].
  destruct (show_uint_head n) as (?&?&->&_). done.
Qed.

Lemma parse_endpoint_nonneg t len v : 0 ≤ len → parse_endpoint t len = Ok v → 0 ≤ v.
Proof.
  intros Hl. unfold parse_endpoint. case_bool_decide; [by intros [= <-]|].
  destruct (strip_prefix _ _); case_match eqn:E; try done; intros [= <-];
    apply parse_uint_nonneg in E; unfold id, sat_sub; lia.
Qed.

(** The range grammar. A range written with any two endpoints parses to their
    values on a log of [len] blocks, clamped to it, or is refused as reversed;
    and whatever text parses gives a range within the log. *)
Theorem parse_range_correct (len : Z) (Hlen : in_u64 len) :
  (∀ a b, endpoint_ok a → endpoint_ok b →
     let lo := endpoint_value 0 len a in
     let hi := endpoint_value len len b in
     parse_range (endpoint_text a +:+ String range_sep (endpoint_text b)) len =
       if hi <? lo then Err (Reversed lo hi) else Ok {| r_start := lo; r_end := hi |}) ∧
  (∀ spec r, parse_range spec len = Ok r → 0 ≤ r_start r ≤ r_end r ∧ r_end r ≤ len).
Proof.
  split.
  - intros a b Ha Hb lo hi. unfold parse_range.
    rewrite split_once_app, endpoint_no_sep by apply endpoint_no_sep.
    assert (∃ v, (if bool_decide (endpoint_text a = "") then Ok 0
      else parse_endpoint (endpoint_text a) len) = Ok v ∧ Z.min v len = lo) as (v&->&->).
    { case_bool_decide as Hn.
      - apply endpoint_text_default in Hn as ->; [|done]. exists 0. unfold lo. simpl. split; [done|width_lia].
      - destruct (parse_endpoint_text a len) as (v&->&Hv); [done|by intros ->|].
        exists v. split; [done|]. rewrite Hv. unfold lo. destruct a; simpl in *; width_lia. }
    assert (∃ v, (if bool_decide (endpoint_text b = "") then Ok len
      else parse_endpoint (endpoint_text b) len) = Ok v ∧ Z.min v len = hi) as (w&->&->).
    { case_bool_decide as Hn.
      - apply endpoint_text_default in Hn as ->; [|done]. exists len. split; [done|].
        unfold hi. simpl. lia.
      - destruct (parse_endpoint_text b len) as (w&->&Hw); [done|by intros ->|].
        exists w. split; [done|]. rewrite Hw. unfold hi. destruct b; simpl in *; try done; width_lia. }
    done.
  - intros spec r. unfold parse_range.
    destruct (split_once _ _) as [[lo_s hi_s]|]; [|done].
    destruct (contains_char _ _); [done|].
    destruct (if bool_decide (lo_s = "") then _ else _) as [lo|] eqn:Elo; [|done].
    assert (0 ≤ lo) by (case_bool_decide; [by simplify_eq|];
      apply (parse_endpoint_nonneg lo_s len); [width_lia|done]).
    destruct (if bool_decide (hi_s = "") then _ else _) as [hi|]; [|done].
    destruct (Z.ltb_spec (Z.min hi len) (Z.min lo len)); [done|].
    intros [= <-]. simpl. width_lia.
Qed.

(** ** On concrete sets *)

Definition demo_runs (l : list (Z * Z)) : list Range :=
  (λ x, {| r_start := x.1; r_end := x.2 |}) <$> l.

Lemma interval_set_algebra_witness :
  set_difference (demo_runs [(0, 10)]) (demo_runs [(2, 4)]) = demo_runs [(0, 2); (4, 10)] ∧
  contains_position (set_difference (demo_runs [(0, 10)]) (demo_runs [(2, 4)])) 3 = false.
Proof.
  destruct (interval_set_algebra (demo_runs [(0, 10)]) (demo_runs [(2, 4)]) [])
    as (_&Hp&_&_); [repeat constructor..|].
  split; [reflexivity|]. destruct (Hp 3) as (_&_&_&->). reflexivity.
Defined.

Lemma resolve_keep_set_correct_witness :
  resolve_keep_set (demo_runs [(0, 10)]) (Some (demo_runs [(1, 3)])) (demo_runs [(2, 4)]) =
    Err (IncludeViolation (demo_runs [(2, 3)])) ∧
  canonical_set (demo_runs [(2, 3)]).
Proof.
  pose proof (resolve_keep_set_correct (demo_runs [(0, 10)]) (Some (demo_runs [(1, 3)]))
    (demo_runs [(2, 4)])) as H. split; [reflexivity|].
  destruct H as [Hc _]; [repeat constructor..|intros i [= <-]; repeat constructor|].
  exact Hc.
Defined.

Lemma window_base_correct_witness :
  window_base 10 (Some 2) 3 = demo_runs [(0, 3); (7, 10)] ∧
  canonical_set (window_base 10 (Some 2) 3).
Proof.
  destruct (window_base_correct 10 3 0 (Some 2)) as [Hc _];
    [width_lia|lia|intros m [= <-]; lia|]. exact (conj eq_refl Hc).
Defined.

Lemma parse_range_correct_witness :
  parse_range ("2" +:+ String range_sep "end-3") 10 = Ok {| r_start := 2; r_end := 7 |} ∧
  parse_range (endpoint_text (EAbs 2) +:+ String range_sep (endpoint_text (EEndMinus 3))) 10 =
    Ok {| r_start := 2; r_end := 7 |}.
Proof.
  split; [reflexivity|]. destruct (parse_range_correct 10) as [H _]; [width_lia|].
  apply (H (EAbs 2) (EEndMinus 3)); simpl; width_lia.
Defined.
