(* ===== verification/BlockStore.v ===== *)
(** * The block store ([kaijutsu-crdt/src/block_store.rs])

    A collection of blocks, each with its own text document, ordered by keys.
    The [BTreeMap] of blocks is a [gmap] iterated in the order of the ids. Every
    [&mut self] function is a [method]: [None] is a panic, an error keeps the
    writes made before it. The wall clock ([now_millis]) is an argument. *)

From Stdlib Require Import Ascii.
From S2P Require Import Prelude Text Tick Ids Track Cas Cell Concrete Block Hydrate BlockContent OrderKey Selection.

Record BlockStore `{!JsonLib, !BlockLib, !Dte} := {
  bs_context_id : ContextId;
  bs_principal_id : PrincipalId;
  bs_blocks : gmap BlockId BlockContent;
  bs_seq_lanes : gmap PrincipalId Z;
  bs_version : Z;
  bs_lamport_clock : Z;
  bs_next_tick : Z;
}.
#[export] Instance BlockStore_settable `{!JsonLib, !BlockLib, !Dte} : Settable BlockStore := λ s,
  {| bs_context_id := bs_context_id s; bs_principal_id := bs_principal_id s;
     bs_blocks := bs_blocks s; bs_seq_lanes := bs_seq_lanes s; bs_version := bs_version s;
     bs_lamport_clock := bs_lamport_clock s; bs_next_tick := bs_next_tick s |}.

(** [SyncPayload], [StoreSnapshot]. *)
Record SyncPayload `{!JsonLib, !BlockLib, !Dte} := {
  p_block_ops : list (BlockId * Ops);
  p_new_blocks : list BlockSnapshot;
  p_updated_headers : list BlockHeader;
  p_deleted_blocks : list BlockId;
}.

Record StoreSnapshot `{!JsonLib, !BlockLib, !Dte} := {
  ss_context_id : ContextId;
  ss_blocks : list BlockSnapshot;
  ss_block_history : list Ops;
  ss_deleted_blocks : list BlockId;
}.

(** The derived [Debug] names of [BlockKind] and [Role]. *)
Definition BlockKind_debug (k : BlockKind) : string :=
  match k with
  | KText => "Text" | KThinking => "Thinking" | KToolCall => "ToolCall"
  | KToolResult => "ToolResult" | KDrift => "Drift" | KFile => "File" | KError => "Error"
  | KNotification => "Notification" | KResource => "Resource" | KTrace => "Trace"
  end.
Definition Role_debug (r : Role) : string :=
  match r with
  | User => "User" | Model => "Model" | System => "System" | Tool => "Tool"
  | Asset => "Asset"
  end.

Record ForkBlockFilter := {
  exclude_compacted : bool;
  exclude_kinds : gset string;
  exclude_roles : gset string;
  exclude_block_ids : gset string;
  selection : option IntervalSet;
}.
(** [ForkBlockFilter::default()]. *)
Definition no_filter : ForkBlockFilter :=
  {| exclude_compacted := false; exclude_kinds := ∅; exclude_roles := ∅;
     exclude_block_ids := ∅; selection := None |}.

(** The orders of the two sorts: by id, and by order key, then id. *)
Definition id_le {A} (x y : BlockId * A) : Prop := block_id_le x.1 y.1.
#[export] Instance id_le_dec {A} : RelDecision (@id_le A).
Proof. intros x y. unfold id_le. apply _. Defined.

Definition order_le (x y : string * BlockId) : Prop :=
  str_lt x.1 y.1 ∨ x.1 = y.1 ∧ block_id_le x.2 y.2.
#[export] Instance order_le_dec : RelDecision order_le.
Proof. intros x y. unfold order_le. apply _. Defined.

Definition doc_le {A} (x y : (string * BlockId) * A) : Prop := order_le x.1 y.1.
#[export] Instance doc_le_dec {A} : RelDecision (@doc_le A).
Proof. intros x y. unfold doc_le. apply _. Defined.

Section store.
Context {json : JsonLib} {blib : BlockLib} {dte : Dte} {uuids : UuidCrate}.
Implicit Types s : BlockStore.

Abbreviation store_method := (method BlockStore CrdtError).

Definition m_lift {A} (o : option A) : store_method A :=
  match o with Some a => m_ret a | None => m_panic end.

Definition ForkBlockFilter_matches (f : ForkBlockFilter) (snap : BlockSnapshot) : bool :=
  if exclude_compacted f && sn_compacted snap then false
  else if negb (bool_decide (exclude_kinds f = ∅))
          && bool_decide (BlockKind_debug (sn_kind snap) ∈ exclude_kinds f) then false
  else if negb (bool_decide (exclude_roles f = ∅))
          && bool_decide (Role_debug (sn_role snap) ∈ exclude_roles f) then false
  else if negb (bool_decide (exclude_block_ids f = ∅))
          && bool_decide (to_key (sn_id snap) ∈ exclude_block_ids f) then false
  else true.

(** [BlockStore::new]. *)
Definition store_new (c : ContextId) (p : PrincipalId) : BlockStore :=
  {| bs_context_id := c; bs_principal_id := p; bs_blocks := ∅; bs_seq_lanes := ∅;
     bs_version := 0; bs_lamport_clock := 0; bs_next_tick := 0 |}.

(** *** The clock *)

Definition store_tick : store_method Z :=
  m_modify (λ s, s <| bs_lamport_clock := wrap_u64 (bs_lamport_clock s + 1) |>);;
  s ← m_get;
  m_ret (bs_lamport_clock s).

Definition merge_clock (remote_ts : Z) : store_method () :=
  m_modify (λ s, s <| bs_lamport_clock :=
    wrap_u64 (Z.max (bs_lamport_clock s) remote_ts + 1) |>).

(** *** Accessors *)

Definition set_principal_id (p : PrincipalId) s : BlockStore := s <| bs_principal_id := p |>.
Definition set_version (v : Z) s : BlockStore := s <| bs_version := v |>.

(** [self.blocks.iter()]. *)
Definition blocks_iter s : list (BlockId * BlockContent) :=
  merge_sort id_le (map_to_list (bs_blocks s)).

Definition live_iter s : list (BlockId * BlockContent) :=
  filter (λ x, b_deleted x.2 = false) (blocks_iter s).

Definition block_count s : Z := Z.of_nat (length (live_iter s)).
Definition store_is_empty s : bool := block_count s =? 0.

(** [self.blocks.get(id).filter(|b| !b.is_deleted())]. *)
Definition get_live s (id : BlockId) : option BlockContent :=
  b ← bs_blocks s !! id;
  if b_deleted b then None else Some b.

Definition get_block_snapshot s (id : BlockId) : option BlockSnapshot :=
  block_snapshot <$> get_live s id.

(** What the document order looks at. *)
Definition sort_key (x : BlockId * BlockContent) : string * BlockId :=
  (b_order_key x.2, x.1).

Definition block_ids_ordered s : list BlockId :=
  snd <$> merge_sort order_le (sort_key <$> live_iter s).

(** [sort_by] on the blocks themselves. *)
Definition sort_blocks (l : list (BlockId * BlockContent)) : list BlockContent :=
  snd <$> merge_sort doc_le ((λ x, (sort_key x, x.2)) <$> l).

Definition max_tick s : option Tick :=
  max_by_key tick_get (omap (λ x, b_tick x.2) (live_iter s)).

Definition blocks_ordered s : list BlockSnapshot :=
  omap (get_block_snapshot s) (block_ids_ordered s).

Definition newline : ascii := "010".
Definition full_text s : string :=
  String.concat (String newline (String newline "")) (sn_content <$> blocks_ordered s).

(** *** The tree of replies *)

Definition parent_of s (id : BlockId) : option BlockId :=
  b ← bs_blocks s !! id; h_parent_id (b_header b).

Definition store_children s (parent : BlockId) : list BlockId :=
  fst <$> filter (λ x, h_parent_id (b_header x.2) = Some parent) (live_iter s).

(** The loop stops after [n] ancestors. *)
Fixpoint ancestors_loop s (n : nat) (current : option BlockId) : list BlockId :=
  match n, current with
  | S n', Some pid => pid :: ancestors_loop s n' (parent_of s pid)
  | _, _ => []
  end.

Definition get_ancestors s (id : BlockId) : list BlockId :=
  ancestors_loop s MAX_DAG_DEPTH (parent_of s id).

Definition get_roots s : list BlockId :=
  fst <$> filter (λ x, h_parent_id (b_header x.2) = None) (live_iter s).

Definition get_depth s (id : BlockId) : Z := Z.of_nat (length (get_ancestors s id)).

(** *** Ids *)

Definition reserve_block_id (p : PrincipalId) : store_method BlockId :=
  s ← m_get;
  let n := default 0 (bs_seq_lanes s !! p) in
  m_modify (λ s, s <| bs_seq_lanes := <[p := wrap_u64 (n + 1)]> (bs_seq_lanes s) |>);;
  m_ret {| context_id := bs_context_id s; principal_id := p; seq := n |}.

Definition new_block_id : store_method BlockId :=
  s ← m_get; reserve_block_id (bs_principal_id s).

Definition next_seq_for s (p : PrincipalId) : Z := default 0 (bs_seq_lanes s !! p).

Definition observe_seq (p : PrincipalId) (n : Z) s : BlockStore :=
  s <| bs_seq_lanes :=
    <[p := Z.max (default 0 (bs_seq_lanes s !! p)) (wrap_u64 (n + 1))]> (bs_seq_lanes s) |>.

(** *** Order keys *)

Definition agent_order_suffix s : string :=
  let c i := base62_char (Z.of_N (uuid_byte (principal_uuid (bs_principal_id s)) i) mod 62) in
  String (c 10%nat) (String (c 11%nat) (String (c 12%nat) (String (c 13%nat) ""))).

Definition order_key_for_tick s (tick : Z) : string :=
  "V" +:+ base62_encode_padded tick 11 +:+ agent_order_suffix s.

(** [self.blocks\[id\].order_key()], which panics on an unknown id. *)
Definition key_of s (id : BlockId) : option string := b_order_key <$> bs_blocks s !! id.

Definition calc_order_key s (after : option BlockId) (tick : option Z) : option string :=
  let ordered := block_ids_ordered s in
  let suffix := agent_order_suffix s in
  let append last :=
    last_key ← key_of s last;
    Some match tick with
         | Some _ => order_key_successor last_key suffix
         | None => last_key +:+ "V" +:+ suffix
         end in
  match after with
  | None =>
      match tick with
      | Some t =>
          match last ordered with None => Some (order_key_for_tick s t) | Some l => append l end
      | None =>
          match ordered with
          | [] => Some ("V" +:+ suffix)
          | first :: _ =>
              first_key ← key_of s first; Some (order_midpoint "" first_key +:+ suffix)
          end
      end
  | Some after_id =>
      match list_find (eq after_id) ordered with
      | Some (idx, _) =>
          match ordered !! S idx with
          | Some next =>
              after_key ← key_of s after_id;
              next_key ← key_of s next;
              Some (order_midpoint after_key next_key +:+ suffix)
          | None => append after_id
          end
      | None =>
          match last ordered with
          | Some l => append l
          | None =>
              Some match tick with Some t => order_key_for_tick s t | None => "V" +:+ suffix end
          end
      end
  end.

Definition next_position (after : option BlockId) : store_method (option Tick * string) :=
  s ← m_get;
  let t := bs_next_tick s in
  m_modify (λ s, s <| bs_next_tick := wrap_i64 (t + 1) |>);;
  s ← m_get;
  order_key ← m_lift (calc_order_key s after (Some t));
  m_ret (Some {| tick_get := t |}, order_key).

(** One round of the re-keying loop. *)
Definition rekey (t : Z) (id : BlockId) s : BlockStore :=
  s <| bs_blocks := alter (λ b, set_tick {| tick_get := t |}
                                  (set_order_key (order_key_for_tick s t) b)) id (bs_blocks s) |>.

Fixpoint rekey_from (t : Z) (ids : list BlockId) s : BlockStore :=
  match ids with [] => s | id :: ids' => rekey_from (t + 1) ids' (rekey t id s) end.

Definition normalize_timeline s : BlockStore :=
  if existsb (λ x, bool_decide (b_tick x.2 = None)) (live_iter s)
  then
    let ordered := block_ids_ordered s in
    (rekey_from 0 ordered s) <| bs_next_tick := Z.of_nat (length ordered) |>
  else
    s <| bs_next_tick :=
      match max_opt (tick_get <$> omap (λ x, b_tick x.2) (live_iter s)) with
      | Some m => wrap_i64 (m + 1)
      | None => 0
      end |>.

(** *** Inserting blocks *)

Definition is_live s (id : BlockId) : bool := bool_decide (get_live s id ≠ None).

(** The check of a reference, [None] being no reference. *)
Definition check_ref (id : option BlockId) : store_method () :=
  match id with
  | Some id => s ← m_get; m_guard (is_live s id) (InvalidReference id)
  | None => m_ret tt
  end.

(** [self.blocks.insert(id, block); self.version += 1]. *)
Definition put_block (id : BlockId) (b : BlockContent) : store_method () :=
  m_modify (λ s, s <| bs_blocks := <[id := b]> (bs_blocks s) |>
                   <| bs_version := wrap_u64 (bs_version s + 1) |>).

(** The header literal of the three functions that write one. *)
Definition fresh_header (now ts : Z) (id : BlockId) (parent : option BlockId) (r : Role)
    (k : BlockKind) (st : Status) (tk : option ToolKind) (code : option Z) (is_error : bool)
    (ct : ContentType) : BlockHeader := {|
  h_id := id; h_parent_id := parent; h_role := r; h_kind := k; h_status := st;
  h_compacted := false; h_collapsed := false; h_ephemeral := false; h_excluded := false;
  h_created_at := now; h_updated_at := ts; h_tool_kind := tk; h_exit_code := code;
  h_is_error := is_error; h_content_type := ct; h_status_at := ts; h_collapsed_at := ts;
  h_ephemeral_at := ts; h_excluded_at := ts; h_compacted_at := ts; h_tool_meta_at := ts;
  h_content_type_at := ts;
|}.

Definition insert_block (now : Z) (parent after : option BlockId) (r : Role) (k : BlockKind)
    (content : string) (st : Status) (ct : ContentType) : store_method BlockId :=
  id ← new_block_id;
  check_ref after;;
  check_ref parent;;
  '(block_tick, order_key) ← next_position after;
  ts ← store_tick;
  s ← m_get;
  let header := fresh_header now ts id parent r k st None None false ct in
  block ← m_lift (block_with_content header content (bs_principal_id s) order_key block_tick);
  put_block id block;;
  m_ret id.

Definition insert_tool_call (now : Z) (parent after : option BlockId) (tool_name : string)
    (tool_input : Json) (tk : option ToolKind) (r : option Role) : store_method BlockId :=
  id ← new_block_id;
  match to_string_pretty tool_input with
  | None => m_fail Serialization
  | Some input_json =>
      check_ref after;;
      check_ref parent;;
      '(block_tick, order_key) ← next_position after;
      ts ← store_tick;
      s ← m_get;
      let header := fresh_header now ts id parent (default Model r) KToolCall SRunning tk
                      None false Plain in
      block ← m_lift (block_with_content header input_json (bs_principal_id s) order_key
                        block_tick);
      put_block id (set_tool_input (Some input_json) (set_tool_name (Some tool_name) block));;
      m_ret id
  end.

Definition insert_tool_result_block (now : Z) (tool_call : BlockId) (after : option BlockId)
    (content : string) (is_error : bool) (code : option Z) (tk : option ToolKind) :
    store_method BlockId :=
  id ← new_block_id;
  let after := match after with Some a => Some a | None => Some tool_call end in
  check_ref (Some tool_call);;
  check_ref after;;
  '(block_tick, order_key) ← next_position after;
  ts ← store_tick;
  s ← m_get;
  let header := fresh_header now ts id (Some tool_call) Tool KToolResult
                  (if is_error then SError else SDone) tk code is_error Plain in
  block ← m_lift (block_with_content header content (bs_principal_id s) order_key block_tick);
  put_block id (set_tool_call_id (Some tool_call) block);;
  m_ret id.

(** The tail of the functions that build a snapshot first. *)
Definition insert_built (after : option BlockId) (id : BlockId)
    (snap : option BlockSnapshot) : store_method BlockId :=
  '(block_tick, order_key) ← next_position after;
  snap ← m_lift snap;
  s ← m_get;
  block ← m_lift (block_from_snapshot snap (bs_principal_id s) order_key);
  put_block id (match block_tick with Some t => set_tick t block | None => block end);;
  m_ret id.

Definition insert_drift_block (now : Z) (parent after : option BlockId) (content : string)
    (source_context : ContextId) (source_model : option string) (dk : DriftKind) :
    store_method BlockId :=
  id ← new_block_id;
  check_ref after;;
  check_ref parent;;
  insert_built after id (snap_drift now id parent content source_context source_model dk).

Definition insert_file_block (now : Z) (parent after : option BlockId)
    (file_path content : string) : store_method BlockId :=
  id ← new_block_id;
  check_ref after;;
  check_ref parent;;
  insert_built after id (snap_file now id parent file_path content).

Definition insert_error_block (now : Z) (parent : BlockId) (after : option BlockId)
    (payload : ErrorPayload) (summary : string) : store_method BlockId :=
  id ← new_block_id;
  check_ref (Some parent);;
  check_ref after;;
  insert_built after id (snap_error_for now id parent payload summary).

Definition insert_notification_block (now : Z) (parent after : option BlockId)
    (payload : NotificationPayload) (summary : string) : store_method BlockId :=
  id ← new_block_id;
  check_ref after;;
  check_ref parent;;
  insert_built after id (snap_notification_block now id parent payload summary).

Definition insert_resource_block (now : Z) (parent after : option BlockId)
    (payload : ResourcePayload) (summary : string) : store_method BlockId :=
  id ← new_block_id;
  check_ref after;;
  check_ref parent;;
  insert_built after id (snap_resource_block now id parent payload summary).

(** [self.next_tick = self.next_tick.max(t + 1)], for a carried tick. *)
Definition raise_next_tick (t : option Tick) s : BlockStore :=
  match t with
  | Some t => s <| bs_next_tick := Z.max (bs_next_tick s) (wrap_i64 (tick_get t + 1)) |>
  | None => s
  end.

Definition insert_from_snapshot (snap : BlockSnapshot) (after : option BlockId) :
    store_method BlockId :=
  let id := sn_id snap in
  m_modify (observe_seq (principal_id id) (seq id));;
  s ← m_get;
  m_guard (bool_decide (bs_blocks s !! id = None)) (DuplicateBlock id);;
  m_modify (raise_next_tick (sn_tick snap));;
  s ← m_get;
  order_key ← m_lift (calc_order_key s after (tick_get <$> sn_tick snap));
  block ← m_lift (block_from_snapshot snap (bs_principal_id s) order_key);
  put_block id block;;
  m_ret id.

(** *** Changing blocks *)

(** The block found by [get], or [BlockNotFound]; the write through it. *)
Definition update_found (get : BlockStore → BlockId → option BlockContent) (id : BlockId)
    (f : BlockContent → store_method BlockContent) : store_method () :=
  s ← m_get;
  match get s id with
  | None => m_fail (BlockNotFound id)
  | Some b => b' ← f b; put_block id b'
  end.

(** [get_mut(id).filter(|b| !b.is_deleted())], and [get_mut(id)]. *)
Definition update_live := update_found get_live.
Definition update_any := update_found (λ s id, bs_blocks s !! id).

Definition delete_block (id : BlockId) : store_method () :=
  ts ← store_tick;
  update_any id (λ b, m_ret (mark_deleted ts b)).

Definition edit_text (id : BlockId) (pos : Z) (insert : string) (delete : Z) :
    store_method () :=
  update_live id (λ b,
    let len := content_len b in
    m_guard (pos <=? len) (PositionOutOfBounds pos len);;
    m_guard (wrap_u64 (pos + delete) <=? len)
      (PositionOutOfBounds (wrap_u64 (pos + delete)) len);;
    m_lift (block_edit_text pos insert delete b)).

Definition append_text (id : BlockId) (text : string) : store_method () :=
  update_live id (λ b, m_lift (block_append_text text b)).

Definition set_status (id : BlockId) (v : Status) : store_method () :=
  ts ← store_tick; update_live id (λ b, m_ret (block_set_status v ts b)).
Definition set_collapsed (id : BlockId) (v : bool) : store_method () :=
  ts ← store_tick; update_live id (λ b, m_ret (block_set_collapsed v ts b)).
Definition set_output (id : BlockId) (v : option OutputData) : store_method () :=
  update_live id (λ b, m_ret (block_set_output v b)).
Definition set_stderr (id : BlockId) (v : option string) : store_method () :=
  update_live id (λ b, m_ret (block_set_stderr v b)).
Definition set_tool_use_id (id : BlockId) (v : option string) : store_method () :=
  update_live id (λ b, m_ret (block_set_tool_use_id v b)).
Definition set_signature (id : BlockId) (v : option string) : store_method () :=
  update_live id (λ b, m_ret (block_set_signature v b)).

(** These five also write to tombstones. *)
Definition set_content_type (id : BlockId) (v : ContentType) : store_method () :=
  ts ← store_tick; update_any id (λ b, m_ret (block_set_content_type v ts b)).
Definition set_exit_code (id : BlockId) (v : option Z) : store_method () :=
  ts ← store_tick; update_any id (λ b, m_ret (block_set_exit_code v ts b)).
Definition set_ephemeral (id : BlockId) (v : bool) : store_method () :=
  ts ← store_tick; update_any id (λ b, m_ret (block_set_ephemeral v ts b)).
Definition set_excluded (id : BlockId) (v : bool) : store_method () :=
  ts ← store_tick; update_any id (λ b, m_ret (block_set_excluded v ts b)).
Definition set_compacted (id : BlockId) (v : bool) : store_method () :=
  ts ← store_tick; update_any id (λ b, m_ret (block_set_compacted v ts b)).

Definition move_block (id : BlockId) (after : option BlockId) : store_method () :=
  s ← m_get;
  m_guard (is_live s id) (BlockNotFound id);;
  check_ref after;;
  order_key ← m_lift (calc_order_key s after None);
  update_any id (λ b, m_ret (set_order_key order_key b)).

(** *** Sync *)

(** What [ops_since] sends of one block. *)
Definition ops_of_block (frontiers : gmap BlockId Frontier) (id : BlockId) (b : BlockContent)
    (p : SyncPayload) : SyncPayload :=
  let push_ops ops l := if ops_is_empty ops then l else (id, ops) :: l in
  match b_deleted b, frontiers !! id with
  | true, Some _ =>
      {| p_block_ops := p_block_ops p; p_new_blocks := p_new_blocks p;
         p_updated_headers := p_updated_headers p;
         p_deleted_blocks := id :: p_deleted_blocks p |}
  | true, None => p
  | false, Some f =>
      {| p_block_ops := push_ops (block_ops_since f b) (p_block_ops p);
         p_new_blocks := p_new_blocks p;
         p_updated_headers := b_header b :: p_updated_headers p;
         p_deleted_blocks := p_deleted_blocks p |}
  | false, None =>
      {| p_block_ops := push_ops (root_ops b) (p_block_ops p);
         p_new_blocks := block_snapshot b :: p_new_blocks p;
         p_updated_headers := p_updated_headers p;
         p_deleted_blocks := p_deleted_blocks p |}
  end.

Definition empty_payload : SyncPayload :=
  {| p_block_ops := []; p_new_blocks := []; p_updated_headers := []; p_deleted_blocks := [] |}.

(** The vectors fill in iteration order: the fold starts at the last block. *)
Definition ops_since s (frontiers : gmap BlockId Frontier) : SyncPayload :=
  foldr (λ x, ops_of_block frontiers x.1 x.2) empty_payload (blocks_iter s).

Definition payload_is_empty (p : SyncPayload) : bool :=
  match p with
  | {| p_block_ops := []; p_new_blocks := []; p_updated_headers := [];
       p_deleted_blocks := [] |} => true
  | _ => false
  end.

Definition frontier s : gmap BlockId Frontier := block_frontier <$> bs_blocks s.

(** The key of a block that carries none: after the last block of the store. *)
Definition fallback_key s (snap : BlockSnapshot) : option string :=
  match sn_order_key snap with
  | Some _ => Some ""
  | None =>
      match last (block_ids_ordered s) with
      | Some l => k ← key_of s l; Some (order_key_successor k (agent_order_suffix s))
      | None => Some (order_key_for_tick s (bs_next_tick s))
      end
  end.

Definition max_tick_of (m : option Z) (t : option Tick) : option Z :=
  match t with
  | Some t => Some (match m with Some m => Z.max m (tick_get t) | None => tick_get t end)
  | None => m
  end.

(** The loop over [new_blocks], with [max_remote_ts] and [max_tick]. *)
Fixpoint merge_new_blocks (has_ops : gset BlockId) (snaps : list BlockSnapshot)
    (max_remote_ts : Z) (max_tick : option Z) : store_method (Z * option Z) :=
  match snaps with
  | [] => m_ret (max_remote_ts, max_tick)
  | snap :: snaps' =>
      s ← m_get;
      if bool_decide (bs_blocks s !! sn_id snap = None) then
        key ← m_lift (fallback_key s snap);
        block ← (if bool_decide (sn_id snap ∈ has_ops)
                 then m_ret (block_from_snapshot_for_sync snap (bs_principal_id s) key)
                 else m_lift (block_from_snapshot snap (bs_principal_id s) key));
        m_modify (λ s, observe_seq (principal_id (sn_id snap)) (seq (sn_id snap))
                         (s <| bs_blocks := <[sn_id snap := block]> (bs_blocks s) |>));;
        merge_new_blocks has_ops snaps' (Z.max max_remote_ts (sn_updated_at snap))
          (max_tick_of max_tick (sn_tick snap))
      else merge_new_blocks has_ops snaps' max_remote_ts max_tick
  end.

Fixpoint merge_headers (headers : list BlockHeader) s : BlockStore :=
  match headers with
  | [] => s
  | h :: headers' =>
      merge_headers headers' (s <| bs_blocks := alter (merge_header h) (h_id h) (bs_blocks s) |>)
  end.

(** The loop over [block_ops]; the result is [had_dte_merges]. An error of a merge
    returns at once, with what the crate left in the document. *)
Fixpoint merge_block_ops (ops : list (BlockId * Ops)) (had : bool) : store_method bool :=
  match ops with
  | [] => m_ret had
  | (id, o) :: ops' =>
      s ← m_get;
      match bs_blocks s !! id with
      | None => merge_block_ops ops' had
      | Some b =>
          let '(r, b') := block_merge_ops o b in
          m_modify (λ s, s <| bs_blocks := <[id := b']> (bs_blocks s) |>);;
          match r with
          | Ok _ => merge_block_ops ops' (had || negb (ops_is_empty o))
          | Err e => m_fail e
          end
      end
  end.

Fixpoint merge_deleted (ids : list BlockId) : store_method () :=
  match ids with
  | [] => m_ret tt
  | id :: ids' =>
      ts ← store_tick;
      m_modify (λ s, s <| bs_blocks :=
        alter (λ b, if b_deleted b then b else mark_deleted ts b) id (bs_blocks s) |>);;
      merge_deleted ids'
  end.

Definition merge_ops (p : SyncPayload) : store_method () :=
  let has_ops := list_to_set (fst <$> p_block_ops p) in
  '(ts1, max_tick) ← merge_new_blocks has_ops (p_new_blocks p) 0 None;
  m_modify (raise_next_tick ((λ t, {| tick_get := t |}) <$> max_tick));;
  let max_remote_ts := foldl (λ m h, Z.max m (h_updated_at h)) ts1 (p_updated_headers p) in
  m_modify (merge_headers (p_updated_headers p));;
  had ← merge_block_ops (p_block_ops p) false;
  merge_deleted (p_deleted_blocks p);;
  (if (0 <? max_remote_ts) || had then merge_clock max_remote_ts else m_ret tt);;
  m_modify (λ s, s <| bs_version := wrap_u64 (bs_version s + 1) |>).

(** *** Forks *)

Definition rebase (c : ContextId) (id : BlockId) : BlockId :=
  {| context_id := c; principal_id := principal_id id; seq := seq id |}.

(** [remapped]. *)
Definition remap_snapshot (c : ContextId) (snap : BlockSnapshot) : BlockSnapshot :=
  snap <| sn_id := rebase c (sn_id snap) |>
       <| sn_parent_id := rebase c <$> sn_parent_id snap |>
       <| sn_tool_call_id := rebase c <$> sn_tool_call_id snap |>.

(** The body of the loops of the three forks. *)
Definition fork_block (c : ContextId) (p : PrincipalId) (b : BlockContent)
    (forked : BlockStore) : option BlockStore :=
  let snap := block_snapshot b in
  let forked := observe_seq (principal_id (sn_id snap)) (seq (sn_id snap)) forked in
  let forked := raise_next_tick (sn_tick snap) forked in
  content ← block_from_snapshot (remap_snapshot c snap) p (b_order_key b);
  Some (forked <| bs_blocks := <[rebase c (sn_id snap) := content]> (bs_blocks forked) |>).

Fixpoint fork_blocks (c : ContextId) (p : PrincipalId) (l : list BlockContent)
    (forked : BlockStore) : option BlockStore :=
  match l with
  | [] => Some (forked <| bs_version := 1 |>)
  | b :: l' => forked ← fork_block c p b forked; fork_blocks c p l' forked
  end.

Definition fork s (c : ContextId) (p : PrincipalId) : option BlockStore :=
  fork_blocks c p (snd <$> live_iter s) (store_new c p).

Definition fork_at_version s (c : ContextId) (p : PrincipalId) (before_timestamp : Z) :
    option BlockStore :=
  fork_blocks c p (filter (λ b, h_created_at (b_header b) ≤ before_timestamp) (snd <$> live_iter s))
    (store_new c p).

(** The survivors, in document order; [pos] is the position in the universe. *)
Definition passes (f : ForkBlockFilter) (pos : Z) (b : BlockContent) : bool :=
  match selection f with
  | Some sel => contains_position sel pos
  | None => true
  end && ForkBlockFilter_matches f (block_snapshot b).

Fixpoint passing (f : ForkBlockFilter) (pos : Z) (l : list BlockContent) : list BlockContent :=
  match l with
  | [] => []
  | b :: l' => (if passes f pos b then [b] else []) ++ passing f (pos + 1) l'
  end.

Definition fork_universe s (before_timestamp : Z) : list BlockContent :=
  sort_blocks (filter (λ x, h_created_at (b_header x.2) ≤ before_timestamp) (live_iter s)).

Definition fork_filtered s (c : ContextId) (p : PrincipalId) (before_timestamp : Z)
    (f : ForkBlockFilter) : option BlockStore :=
  fork_blocks c p (passing f 0 (fork_universe s before_timestamp)) (store_new c p).

(** *** Snapshot and restore *)

Definition store_snapshot s : StoreSnapshot :=
  let blocks := omap (λ id, bs_blocks s !! id) (block_ids_ordered s) in
  {| ss_context_id := bs_context_id s;
     ss_blocks := block_snapshot <$> blocks;
     ss_block_history := root_ops <$> blocks;
     ss_deleted_blocks :=
       fst <$> filter (λ x, b_deleted x.2 = true) (blocks_iter s) |}.

Definition restore_block (snap : BlockSnapshot) (history : Ops) : store_method () :=
  m_modify (observe_seq (principal_id (sn_id snap)) (seq (sn_id snap)));;
  s ← m_get;
  key ← m_lift (fallback_key s snap);
  content ← (if ops_is_empty history
             then m_lift (block_from_snapshot snap (bs_principal_id s) key)
             else
               let '(r, b) := block_merge_ops history
                 (block_from_snapshot_for_sync snap (bs_principal_id s) key) in
               match r with Ok _ => m_ret b | Err e => m_fail e end);
  m_modify (λ s, s <| bs_blocks := <[sn_id snap := content]> (bs_blocks s) |>).

Fixpoint restore_blocks (l : list (BlockSnapshot * Ops)) : store_method () :=
  match l with
  | [] => m_ret tt
  | (snap, history) :: l' => restore_block snap history;; restore_blocks l'
  end.

Definition restore_tombstone (now : Z) (id : BlockId) : store_method () :=
  m_modify (observe_seq (principal_id id) (seq id));;
  s ← m_get;
  if bool_decide (bs_blocks s !! id = None) then
    block ← m_lift (block_from_snapshot (builder_new now id KText) (bs_principal_id s) "Z");
    m_modify (λ s, s <| bs_blocks := <[id := mark_deleted 0 block]> (bs_blocks s) |>)
  else m_ret tt.

Fixpoint restore_tombstones (now : Z) (ids : list BlockId) : store_method () :=
  match ids with
  | [] => m_ret tt
  | id :: ids' => restore_tombstone now id;; restore_tombstones now ids'
  end.

(** [BlockStore::from_snapshot]: the method runs on the new store. *)
Definition restore (now : Z) (snap : StoreSnapshot) : store_method () :=
  restore_blocks (zip (ss_blocks snap) (ss_block_history snap));;
  restore_tombstones now (ss_deleted_blocks snap);;
  m_modify (λ s, s <| bs_lamport_clock := default 0 (max_opt (sn_updated_at <$> ss_blocks snap)) |>);;
  m_modify normalize_timeline.

Definition store_from_snapshot (now : Z) (snap : StoreSnapshot) (p : PrincipalId) :
    option (result CrdtError BlockStore) :=
  match restore now snap (store_new (ss_context_id snap) p) with
  | Some (Ok _, s) => Some (Ok s)
  | Some (Err e, _) => Some (Err e)
  | None => None
  end.
End store.
