(* ===== verification/StoreInv.v ===== *)
(** * The invariant of the block store

    How a store may evolve ([evolves]): ids are those of the headers, the lane of a
    principal is ahead of every id it minted, the tick counter is ahead of every
    tick, no block vanishes and no tombstone is lifted. *)

From S2P Require Import Prelude Text Tick Ids Track Cas Cell Concrete Block Hydrate BlockContent OrderKey Selection MethodLogic BlockStore.

Section invariant.
Context {json : JsonLib} {blib : BlockLib} {dte : Dte} {uuids : UuidCrate}.
Implicit Types s : BlockStore.

Definition ticks_below (n : Z) (b : BlockContent) : Prop :=
  ∀ t, b_tick b = Some t → i64_min ≤ tick_get t < n.

Record ids_ok s : Prop := {
  so_ids id b : bs_blocks s !! id = Some b → block_id b = id;
  so_seqs id b : bs_blocks s !! id = Some b → 0 ≤ seq id < next_seq_for s (principal_id id);
  so_lanes p : 0 ≤ next_seq_for s p;
}.

Definition ticks_ok s : Prop :=
  ∀ id b, bs_blocks s !! id = Some b → ticks_below (bs_next_tick s) b.

Definition store_ok s : Prop := ids_ok s ∧ ticks_ok s.

(** A block may become a tombstone, and stays one. *)
Definition outlives (b b' : BlockContent) : Prop :=
  b_deleted b = true → b_deleted b' = true.

Lemma outlives_refl b : outlives b b.
Proof. by intros ?. Qed.
Hint Resolve outlives_refl : core.

Record keeps s s' : Prop := {
  ev_ids : ids_ok s → ids_ok s';
  ev_context : bs_context_id s' = bs_context_id s;
  ev_blocks id b : bs_blocks s !! id = Some b →
    ∃ b', bs_blocks s' !! id = Some b' ∧ outlives b b';
  ev_lanes p : next_seq_for s p ≤ next_seq_for s' p;
}.

Definition evolves s s' : Prop := keeps s s' ∧ (ticks_ok s → ticks_ok s').

#[export] Instance keeps_preorder : PreOrder keeps.
Proof.
  split.
  - intros s. split; try done. intros id b Hb. exists b. by split.
  - intros s1 s2 s3 H12 H23. split.
    + intros ?. by apply H23, H12.
    + by rewrite (ev_context _ _ H23), (ev_context _ _ H12).
    + intros id b (b'&Hb'&?)%(ev_blocks _ _ H12).
      destruct (ev_blocks _ _ H23 _ _ Hb') as (b''&?&?). exists b''. unfold outlives in *. auto.
    + intros p. pose proof (ev_lanes _ _ H12 p). pose proof (ev_lanes _ _ H23 p). lia.
Qed.

#[export] Instance evolves_preorder : PreOrder evolves.
Proof.
  split; [by split|]. intros s1 s2 s3 [? ?] [? ?]. split; [by etrans|auto].
Qed.

Lemma ev_ok s s' : evolves s s' → store_ok s → store_ok s'.
Proof. intros [H1 H2] [? ?]. split; [by apply H1|auto]. Qed.

(** *** The ways a store changes *)

(** The store at the end of its integers: an id or tick more would wrap. *)
Definition roomy s : Prop :=
  (∀ p, next_seq_for s p < u64_max) ∧ i64_min ≤ bs_next_tick s < i64_max.

Lemma evolves_counters s s' :
  bs_context_id s' = bs_context_id s → bs_blocks s' = bs_blocks s →
  bs_seq_lanes s' = bs_seq_lanes s → bs_next_tick s ≤ bs_next_tick s' → evolves s s'.
Proof.
  intros Hc Hb Hl Ht.
  assert (∀ p, next_seq_for s' p = next_seq_for s p) as Hn
    by (intros; unfold next_seq_for; by rewrite Hl).
  split; [split; [|done| |]|].
  - intros [H1 H2 H3]. split; intros *; rewrite ?Hb, ?Hn; auto. apply H2.
  - intros id b. rewrite Hb. intros. exists b. by split.
  - intros p. by rewrite Hn.
  - intros H4 id b. rewrite Hb. intros Hi t Ht'. specialize (H4 _ _ Hi t Ht'). lia.
Qed.

Lemma evolves_lane s p n :
  next_seq_for s p ≤ n → 0 ≤ n →
  evolves s (s <| bs_seq_lanes := <[p := n]> (bs_seq_lanes s) |>).
Proof.
  intros Hn H0.
  assert (∀ q, next_seq_for (s <| bs_seq_lanes := <[p := n]> (bs_seq_lanes s) |>) q =
    if decide (p = q) then n else next_seq_for s q) as Hq.
  { intros q. unfold next_seq_for. simpl. case_decide as Hd.
    - subst. by rewrite lookup_insert_eq.
    - by rewrite lookup_insert_ne. }
  split; [split; [|done| |]|done].
  - intros [H1 H2 H3]. split; try done.
    + intros id b Hb. rewrite Hq. specialize (H2 _ _ Hb). case_decide; subst; lia.
    + intros q. rewrite Hq. case_decide; auto.
  - intros id b ?. exists b. by split.
  - intros q. rewrite Hq. case_decide; subst; lia.
Qed.

Lemma keeps_put s s' id b :
  bs_context_id s' = bs_context_id s → bs_blocks s' = <[id := b]> (bs_blocks s) →
  bs_seq_lanes s' = bs_seq_lanes s →
  (ids_ok s → block_id b = id ∧ 0 ≤ seq id < next_seq_for s (principal_id id)) →
  (∀ b0, bs_blocks s !! id = Some b0 → outlives b0 b) → keeps s s'.
Proof.
  intros Hc Hb Hl Hfit Hout.
  assert (∀ p, next_seq_for s' p = next_seq_for s p) as Hn
    by (intros; unfold next_seq_for; by rewrite Hl).
  split; [|done| |].
  - intros Hok. destruct (Hfit Hok) as [F1 F2]. destruct Hok as [H1 H2 H3].
    split; try (intros id' b'; rewrite Hb; intros [[-> ->]|[? ?]]%lookup_insert_Some;
      rewrite ?Hn; eauto).
    intros. rewrite Hn. auto.
  - intros id' b' Hb'. rewrite Hb. destruct (decide (id = id')) as [<-|].
    + exists b. rewrite lookup_insert_eq. split; auto.
    + exists b'. rewrite lookup_insert_ne by done. by split.
  - intros p. by rewrite Hn.
Qed.

Lemma evolves_put s s' id b :
  bs_context_id s' = bs_context_id s → bs_blocks s' = <[id := b]> (bs_blocks s) →
  bs_seq_lanes s' = bs_seq_lanes s → bs_next_tick s' = bs_next_tick s →
  (ids_ok s → block_id b = id ∧ 0 ≤ seq id < next_seq_for s (principal_id id)) →
  (ticks_ok s → ticks_below (bs_next_tick s) b) →
  (∀ b0, bs_blocks s !! id = Some b0 → outlives b0 b) → evolves s s'.
Proof.
  intros Hc Hb Hl Ht Hfit Htk Hout. split; [by apply (keeps_put _ _ id b)|].
  intros Hok id' b'. rewrite Hb, Ht. intros [[-> ->]|[? ?]]%lookup_insert_Some; eauto.
Qed.

(** Changing a block that is there. *)
Lemma evolves_change s s' id b b' :
  bs_blocks s !! id = Some b →
  block_id b' = block_id b → b_tick b' = b_tick b → outlives b b' →
  bs_context_id s' = bs_context_id s → bs_blocks s' = <[id := b']> (bs_blocks s) →
  bs_seq_lanes s' = bs_seq_lanes s → bs_next_tick s' = bs_next_tick s → evolves s s'.
Proof.
  intros Hb Hid Ht Ho Hc Hbs Hl Hn. apply (evolves_put s s' id b'); try done.
  - intros Hok. split; [rewrite Hid; by apply Hok|by apply (so_seqs _ Hok id b)].
  - intros Hok t. rewrite Ht. by apply (Hok id b).
  - intros b0 Hb0. by simplify_eq.
Qed.

(** *** Triples of the primitives *)

Abbreviation striple := (triple evolves).

Lemma lift_triple {A} P (o : option A) :
  striple P (m_lift o) (λ a s, o = Some a ∧ P s).
Proof.
  destruct o; [|done]. intros s r s' HP [= <- <-]. by split.
Qed.

Lemma store_tick_triple (P : BlockStore → Prop) :
  (∀ s c, P s → P (s <| bs_lamport_clock := c |>)) →
  striple P store_tick (λ _, P).
Proof.
  intros HP s r s' Hs [= <- <-]. split; [|by apply HP]. by apply evolves_counters.
Qed.

Lemma check_ref_triple P r : striple P (check_ref r) (λ _, P).
Proof.
  destruct r as [id|]; [|intros s r s' Hs [= <- <-]; by split].
  intros s r s' Hs. unfold check_ref, mbind, method_bind, m_bind, m_get, m_guard.
  destruct (is_live s id); intros [= <- <-]; by split.
Qed.

(** A minted id, and a block's place, that nothing has taken yet. *)
Definition minted (id : BlockId) s : Prop :=
  store_ok s ∧ bs_blocks s !! id = None ∧ 0 ≤ seq id < next_seq_for s (principal_id id) ∧
  i64_min ≤ bs_next_tick s < i64_max.

Definition placed (id : BlockId) (t : option Tick) s : Prop :=
  store_ok s ∧ bs_blocks s !! id = None ∧ 0 ≤ seq id < next_seq_for s (principal_id id) ∧
  ∀ t', t = Some t' → i64_min ≤ tick_get t' < bs_next_tick s.

Lemma store_ok_clock s c : store_ok s → store_ok (s <| bs_lamport_clock := c |>).
Proof. intros [[] ?]. by split. Qed.

(** An id at or past the lane is not taken. *)
Lemma lane_fresh s id :
  store_ok s → next_seq_for s (principal_id id) ≤ seq id → bs_blocks s !! id = None.
Proof.
  intros Hok Hl. destruct (bs_blocks s !! id) as [b|] eqn:E; [|done].
  destruct Hok as [Hok _]. pose proof (so_seqs s Hok id b E). lia.
Qed.

Lemma reserve_triple p :
  striple (λ s, store_ok s ∧ roomy s) (reserve_block_id p)
    (λ id s, principal_id id = p ∧ context_id id = bs_context_id s ∧ minted id s).
Proof.
  intros s r s' [Hok [Hr Ht]] [= <- <-]. fold (next_seq_for s p).
  pose proof (so_lanes s (proj1 Hok) p). specialize (Hr p).
  rewrite wrap_u64_id by width_lia.
  assert (evolves s (s <| bs_seq_lanes := <[p:=next_seq_for s p + 1]> (bs_seq_lanes s) |>))
    as Hev by (apply evolves_lane; lia).
  split; [done|]. split_and!; [done..|].
  split_and!; [by apply (ev_ok s)| |done| |apply Ht|apply Ht].
  { apply (lane_fresh s); [done|]. simpl. lia. }
  unfold next_seq_for at 2. simpl. rewrite lookup_insert_eq. simpl. lia.
Qed.

Lemma new_id_triple :
  striple (λ s, store_ok s ∧ roomy s) new_block_id minted.
Proof.
  intros s r s' HP Hr. destruct (reserve_triple (bs_principal_id s) s r s' HP Hr) as [? HQ].
  split; [done|]. destruct r; naive_solver.
Qed.

Lemma next_position_triple id after :
  striple (minted id) (next_position after) (λ x, placed id x.1).
Proof.
  intros s r s' (Hok&Hid&Hl&Ht).
  unfold next_position, mbind, method_bind, m_bind, m_get, m_modify.
  rewrite wrap_i64_id by width_lia.
  destruct (calc_order_key _ _ _) as [k|]; [|done]. intros [= <- <-].
  assert (evolves s (s <| bs_next_tick := bs_next_tick s + 1 |>)) as Hev
    by (apply evolves_counters; simpl; (done || lia)).
  split; [done|]. split; [by apply (ev_ok s)|]. do 2 (split; [done|]).
  intros t' [= <-]. simpl. lia.
Qed.

Lemma put_triple id t b :
  block_id b = id → (b_tick b = t ∨ b_tick b = None) →
  striple (placed id t) (put_block id b) (λ _, store_ok).
Proof.
  intros Hid Ht s r s' (Hok&Hn&Hl&Hb) [= <- <-].
  assert (evolves s (s <| bs_blocks := <[id:=b]> (bs_blocks s) |>
                       <| bs_version := wrap_u64 (bs_version s + 1) |>)) as Hev.
  { apply (evolves_put _ _ id b); try done.
    - intros _ t' Ht'. destruct Ht as [<-|?]; [auto|congruence].
    - intros b0. by rewrite Hn. }
  split; [done|]. by apply (ev_ok s).
Qed.
End invariant.
