(* ===== verification/StoreOps.v ===== *)
(** * Every operation of the block store respects the invariant *)

From S2P Require Import Prelude MethodLogic Text Tick Ids Track Cas Cell Concrete Block OrderKey Hydrate BlockContent Selection BlockStore StoreInv.

Section ops.
Context {json : JsonLib} {blib : BlockLib} {dte : Dte} {uuids : UuidCrate}.
Implicit Types s : BlockStore.

(** ** Blocks *)

(** A change of a block that keeps its identity, its tick and its tombstone. *)
Definition steady (b b' : BlockContent) : Prop :=
  block_id b' = block_id b ∧ b_tick b' = b_tick b ∧ outlives b b'.

Ltac steady_done := split; [reflexivity|split; [reflexivity|exact (λ H, H)]].

Lemma steady_trans b1 b2 b3 : steady b1 b2 → steady b2 b3 → steady b1 b3.
Proof.
  intros (?&?&?) (?&?&?). split_and!; [congruence..|]. unfold outlives in *. auto.
Qed.

Lemma built_with_content h content p k t b :
  block_with_content h content p k t = Some b →
  b_header b = h ∧ b_tick b = t ∧ b_order_key b = k ∧ b_deleted b = false.
Proof.
  unfold block_with_content, block_new. destruct (create_agent _ _) as [a d].
  case_bool_decide; [by intros [= <-]|]. case_match; [|by intros [= <-]].
  cbn [b_agent b_doc]. destruct (text_insert _ _ _ _); [|done]. by intros [= <-].
Qed.

Lemma built_from_snapshot snap p k b :
  block_from_snapshot snap p k = Some b →
  b_header b = header_from_snapshot snap ∧ b_tick b = sn_tick snap ∧
  b_order_key b = default k (sn_order_key snap) ∧ b_deleted b = false.
Proof.
  unfold block_from_snapshot. destruct (block_with_content _ _ _ _ _) as [b0|] eqn:E; [|done].
  cbn [mbind option_bind]. intros [= <-].
  by destruct (built_with_content _ _ _ _ _ _ E) as (?&?&?&?).
Qed.

Lemma built_for_sync snap p k :
  let b := block_from_snapshot_for_sync snap p k in
  b_header b = header_from_snapshot snap ∧ b_tick b = sn_tick snap ∧
  b_order_key b = default k (sn_order_key snap) ∧ b_deleted b = false.
Proof. unfold block_from_snapshot_for_sync. by destruct (create_agent _ _). Qed.

Lemma steady_edit pos ins del b b' : block_edit_text pos ins del b = Some b' → steady b b'.
Proof.
  unfold block_edit_text. case_match; [|intros [= <-]; steady_done].
  destruct (if 0 <? del then _ else _) as [d1|]; [|done]. cbn [mbind option_bind].
  destruct (if negb _ then _ else _) as [d2|]; [|done]. cbn [mbind option_bind].
  intros [= <-]. steady_done.
Qed.

Lemma steady_merge_ops o b : steady b (block_merge_ops o b).2.
Proof. unfold block_merge_ops. destruct (doc_merge _ _). steady_done. Qed.

Lemma steady_header (h : BlockHeader) b :
  h_id h = block_id b → steady b (b <| b_header := h |>).
Proof. intros Hh. split; [exact Hh|]. split; [done|]. exact (λ H, H). Qed.

Lemma steady_merge_header r b : steady b (merge_header r b).
Proof.
  unfold merge_header. eapply steady_trans; [|by apply steady_header].
  assert (∀ (c : bool) b b', steady b b' → steady b (if c then b' else b)) as Hif.
  { intros []; [done|]. intros. steady_done. }
  assert (∀ b b', h_id (b_header b') = block_id b → b_tick b' = b_tick b →
    b_deleted b' = b_deleted b → steady b b') as Hsame.
  { intros b1 b2 H1 H2 H3. split_and!; [done..|]. intros ?. congruence. }
  unfold merge_content_type. eapply steady_trans; [|by apply Hif, Hsame].
  unfold merge_tool_meta. eapply steady_trans; [|by apply Hif, Hsame].
  unfold merge_compacted. eapply steady_trans; [|by apply Hif, Hsame].
  unfold merge_excluded. eapply steady_trans; [|by apply Hif, Hsame].
  unfold merge_ephemeral. eapply steady_trans; [|by apply Hif, Hsame].
  unfold merge_collapsed. eapply steady_trans; [|by apply Hif, Hsame].
  unfold merge_status. by apply Hif, Hsame.
Qed.

(** ** Operations *)

Abbreviation striple := (triple evolves).
Abbreviation preserves P m := (striple P m (λ _ _, True)).

Lemma preserves_conseq {A} P P' (m : method BlockStore CrdtError A) Q :
  striple P m Q → (∀ s, P' s → P s) → preserves P' m.
Proof. intros Hm HP s r s' Hs Hr. destruct (Hm s r s' (HP s Hs) Hr). by destruct r. Qed.

Lemma bind_triple {A B} P (m : method BlockStore CrdtError A) Q (k : A → method _ _ B) Q' :
  striple P m Q → (∀ a, striple (Q a) (k a) Q') → striple P (m ≫= k) Q'.
Proof. apply (triple_bind evolves). Qed.

Lemma ret_preserves {A} P (a : A) : preserves P (m_ret a : method BlockStore CrdtError A).
Proof. intros s r s' _ [= <- <-]. by split. Qed.

Lemma tick_placed id t : striple (placed id t) store_tick (λ _, placed id t).
Proof.
  apply store_tick_triple. intros s c (?&?&?&?). split; [by apply store_ok_clock|done].
Qed.

(** Storing the block just built, whatever is written to it on the way. *)
Lemma put_built id t (o : option BlockContent) (f : BlockContent → BlockContent) :
  (∀ b, o = Some b → block_id (f b) = id ∧ (b_tick (f b) = t ∨ b_tick (f b) = None)) →
  preserves (placed id t) (block ← m_lift o; put_block id (f block);; m_ret id).
Proof.
  intros Hb. eapply bind_triple; [apply lift_triple|]. intros b. cbv beta.
  apply triple_pure. intros Ho. destruct (Hb b Ho).
  eapply bind_triple; [by eapply put_triple|]. intros []. apply ret_preserves.
Qed.

Lemma get_put_built id t (o : BlockStore → option BlockContent) f :
  (∀ s b, o s = Some b → block_id (f b) = id ∧ (b_tick (f b) = t ∨ b_tick (f b) = None)) →
  preserves (placed id t) (s ← m_get; block ← m_lift (o s); put_block id (f block);; m_ret id).
Proof.
  intros Hb. apply triple_get_bind. intros s Hs s0 r s' ->.
  by apply (put_built id t (o s) f (Hb s)).
Qed.

(** Walks through the first steps of an insertion. *)
Ltac insert_steps :=
  repeat first
    [ eapply bind_triple; [apply new_id_triple|intros ?id]
    | eapply bind_triple; [apply check_ref_triple|intros []]
    | eapply bind_triple; [apply next_position_triple|intros [?t ?key]; cbn [fst]]
    | eapply bind_triple; [apply tick_placed|intros ?ts] ].

Lemma insert_block_preserves now parent after r k content st ct :
  preserves (λ s, store_ok s ∧ roomy s) (insert_block now parent after r k content st ct).
Proof.
  unfold insert_block. insert_steps. apply (get_put_built _ _ _ (λ b, b)).
  intros s b (Hh&Ht&_&_)%built_with_content. unfold block_id. rewrite Hh. auto.
Qed.

Lemma insert_tool_call_preserves now parent after name input tk r :
  preserves (λ s, store_ok s ∧ roomy s) (insert_tool_call now parent after name input tk r).
Proof.
  unfold insert_tool_call. insert_steps.
  destruct (to_string_pretty input); [|apply triple_fail, _].
  insert_steps. apply get_put_built.
  intros s0 b (Hh&Ht&_&_)%built_with_content. unfold block_id. cbn. rewrite Hh. auto.
Qed.

Lemma insert_tool_result_preserves now call after content is_error code tk :
  preserves (λ s, store_ok s ∧ roomy s)
    (insert_tool_result_block now call after content is_error code tk).
Proof.
  unfold insert_tool_result_block. insert_steps. apply get_put_built.
  intros s b (Hh&Ht&_&_)%built_with_content. unfold block_id. cbn. rewrite Hh. auto.
Qed.

Lemma insert_built_preserves after id (o : option BlockSnapshot) :
  (∀ snap, o = Some snap → sn_id snap = id ∧ sn_tick snap = None) →
  preserves (minted id) (insert_built after id o).
Proof.
  intros Hs. unfold insert_built. insert_steps.
  eapply bind_triple; [apply lift_triple|]. intros snap. cbv beta.
  apply triple_pure. intros Ho. destruct (Hs snap Ho) as [Hid Hn]. apply get_put_built.
  intros s0 b (Hh&Ht&_&_)%built_from_snapshot. unfold block_id.
  destruct t; cbn; rewrite Hh; auto. rewrite Ht. auto.
Qed.

#[local] Opaque insert_built.
Lemma insert_snapshots_preserve :
  (∀ now parent after content c m dk, preserves (λ s, store_ok s ∧ roomy s)
     (insert_drift_block now parent after content c m dk)) ∧
  (∀ now parent after path content, preserves (λ s, store_ok s ∧ roomy s)
     (insert_file_block now parent after path content)) ∧
  (∀ now parent after payload summary, preserves (λ s, store_ok s ∧ roomy s)
     (insert_error_block now parent after payload summary)) ∧
  (∀ now parent after payload summary, preserves (λ s, store_ok s ∧ roomy s)
     (insert_notification_block now parent after payload summary)) ∧
  (∀ now parent after payload summary, preserves (λ s, store_ok s ∧ roomy s)
     (insert_resource_block now parent after payload summary)).
Proof.
  split_and!; intros; unfold insert_drift_block, insert_file_block, insert_error_block,
    insert_notification_block, insert_resource_block; insert_steps;
    apply insert_built_preserves; intros snap [_ ->]%asserting_Some; by split.
Qed.
#[local] Transparent insert_built.

(** *** Restored blocks, changes, moves *)

(** What an incoming snapshot must satisfy not to exhaust a counter. *)
Definition snap_fits (snap : BlockSnapshot) : Prop :=
  0 ≤ seq (sn_id snap) < u64_max ∧
  ∀ t, sn_tick snap = Some t → i64_min ≤ tick_get t < i64_max.

Lemma observe_seq_evolves s id :
  0 ≤ seq id < u64_max →
  evolves s (observe_seq (principal_id id) (seq id) s) ∧
  0 ≤ seq id < next_seq_for (observe_seq (principal_id id) (seq id) s) (principal_id id).
Proof.
  intros Hid. unfold observe_seq. fold (next_seq_for s (principal_id id)).
  rewrite wrap_u64_id by width_lia. split.
  - apply evolves_lane; lia.
  - unfold next_seq_for at 1. simpl. rewrite lookup_insert_eq. simpl. lia.
Qed.

Lemma raise_next_tick_evolves s t :
  (∀ t', t = Some t' → i64_min ≤ tick_get t' < i64_max) →
  evolves s (raise_next_tick t s) ∧
  ∀ t', t = Some t' → i64_min ≤ tick_get t' < bs_next_tick (raise_next_tick t s).
Proof.
  intros Ht. destruct t as [t|]; simpl; [|by split].
  specialize (Ht t eq_refl). rewrite wrap_i64_id by width_lia.
  split; [|intros ? [= <-]; lia]. apply evolves_counters; simpl; (done || lia).
Qed.

Lemma insert_from_snapshot_preserves snap after :
  snap_fits snap → preserves store_ok (insert_from_snapshot snap after).
Proof.
  intros [Hseq Ht]. unfold insert_from_snapshot.
  eapply bind_triple.
  { apply (triple_modify _ _ _ (λ _ s, store_ok s ∧
      0 ≤ seq (sn_id snap) < next_seq_for s (principal_id (sn_id snap)))).
    intros s Hok. destruct (observe_seq_evolves s (sn_id snap) Hseq) as [Hev ?].
    split; [done|]. split; [by apply (ev_ok s)|done]. }
  intros []. apply triple_get_bind. intros s [Hok Hl].
  eapply bind_triple; [apply triple_guard, _|]. intros []. cbv beta.
  apply triple_pure. intros Hn%bool_decide_eq_true.
  eapply bind_triple.
  { apply (triple_modify _ _ _ (λ _, placed (sn_id snap) (sn_tick snap))).
    intros s1 ->. destruct (raise_next_tick_evolves s (sn_tick snap) Ht) as [Hev Htk].
    split; [done|]. split; [by apply (ev_ok s)|]. by destruct (sn_tick snap). }
  intros []. apply triple_get_bind. intros s1 Hs1.
  eapply bind_triple; [apply lift_triple|]. intros key. cbv beta.
  apply triple_pure. intros _ s2 r s' ->.
  apply (put_built (sn_id snap) (sn_tick snap) _ (λ b, b)); [|done].
  intros b (Hh&Hb&_)%built_from_snapshot. unfold block_id. rewrite Hh. auto.
Qed.

Lemma update_preserves P get id f :
  (∀ s b, get s id = Some b → bs_blocks s !! id = Some b) →
  (∀ b s r s', f b s = Some (r, s') → s' = s ∧ ∀ b', r = Ok b' → steady b b') →
  preserves P (update_found get id f).
Proof.
  intros Hget Hf s r s' _. unfold update_found, mbind, method_bind, m_bind, m_get.
  destruct (get s id) as [b|] eqn:Hb; [|intros [= <- <-]; by split].
  apply Hget in Hb. destruct (f b s) as [[[b'|e] s1]|] eqn:Ef; [| |done].
  - destruct (Hf _ _ _ _ Ef) as [-> Hst]. destruct (Hst b' eq_refl) as (Hid&Ht&Ho).
    intros [= <- <-]. split; [|done]. by apply (evolves_change _ _ id b b').
  - destruct (Hf _ _ _ _ Ef) as [-> _]. intros [= <- <-]. by split.
Qed.

Lemma get_live_Some s id b :
  get_live s id = Some b ↔ bs_blocks s !! id = Some b ∧ b_deleted b = false.
Proof.
  unfold get_live. destruct (bs_blocks s !! id) as [b0|]; cbn; [|naive_solver].
  destruct (b_deleted b0) eqn:E; naive_solver congruence.
Qed.

Lemma update_live_preserves P id f :
  (∀ b s r s', f b s = Some (r, s') → s' = s ∧ ∀ b', r = Ok b' → steady b b') →
  preserves P (update_live id f).
Proof. apply update_preserves. by intros s b [? _]%get_live_Some. Qed.

Lemma update_any_preserves P id f :
  (∀ b s r s', f b s = Some (r, s') → s' = s ∧ ∀ b', r = Ok b' → steady b b') →
  preserves P (update_any id f).
Proof. by apply update_preserves. Qed.

Lemma pure_update (g : BlockContent → BlockContent) :
  (∀ b, steady b (g b)) →
  ∀ b s r s', (m_ret (g b) : method BlockStore CrdtError _) s = Some (r, s') →
    s' = s ∧ ∀ b', r = Ok b' → steady b b'.
Proof. intros Hg b s r s' [= <- <-]. split; [done|]. by intros ? [= <-]. Qed.

Lemma lift_update (g : BlockContent → option BlockContent) :
  (∀ b b', g b = Some b' → steady b b') →
  ∀ b s r s', (m_lift (g b)) s = Some (r, s') →
    s' = s ∧ ∀ b', r = Ok b' → steady b b'.
Proof.
  intros Hg b s r s'. destruct (g b) eqn:E; [|done]. intros [= <- <-].
  split; [done|]. intros ? [= <-]. auto.
Qed.

Lemma after_tick {A} P (k : Z → method BlockStore CrdtError A) :
  (∀ ts, preserves (λ _, True) (k ts)) → preserves P (ts ← store_tick; k ts).
Proof.
  intros Hk. apply (preserves_conseq (λ _, True) _ _ (λ _ _, True)); [|done].
  eapply bind_triple; [by apply (store_tick_triple (λ _, True))|]. apply Hk.
Qed.

Lemma edit_text_preserves P id pos ins del : preserves P (edit_text id pos ins del).
Proof.
  apply update_live_preserves. intros b s r s'.
  unfold m_guard, mbind, method_bind, m_bind.
  destruct (pos <=? content_len b); [|intros [= <- <-]; by split].
  destruct (_ <=? content_len b); [|intros [= <- <-]; by split].
  apply (lift_update (block_edit_text pos ins del)). intros. by eapply steady_edit.
Qed.

Lemma append_text_preserves P id text : preserves P (append_text id text).
Proof.
  apply update_live_preserves, lift_update. intros b b'. apply steady_edit.
Qed.

Ltac setter :=
  first [apply update_live_preserves | apply update_any_preserves];
  apply pure_update; intros ?b; (steady_done || (split; [reflexivity|split; [reflexivity|done]])).

Lemma setters_preserve P id :
  preserves P (delete_block id) ∧
  (∀ v, preserves P (set_status id v)) ∧ (∀ v, preserves P (set_collapsed id v)) ∧
  (∀ v, preserves P (set_output id v)) ∧ (∀ v, preserves P (set_stderr id v)) ∧
  (∀ v, preserves P (set_tool_use_id id v)) ∧ (∀ v, preserves P (set_signature id v)) ∧
  (∀ v, preserves P (set_content_type id v)) ∧ (∀ v, preserves P (set_exit_code id v)) ∧
  (∀ v, preserves P (set_ephemeral id v)) ∧ (∀ v, preserves P (set_excluded id v)) ∧
  (∀ v, preserves P (set_compacted id v)).
Proof.
  split_and!; intros;
    first [apply after_tick; intros ?ts; setter | setter].
Qed.

Lemma move_block_preserves P id after : preserves P (move_block id after).
Proof.
  unfold move_block. apply triple_get_bind. intros s _.
  eapply bind_triple; [apply triple_guard, _|]. intros [].
  eapply bind_triple; [apply check_ref_triple|]. intros [].
  eapply bind_triple; [apply lift_triple|]. intros key. setter.
Qed.

(** *** Merging *)

(** Ticks are below the counter, or at most the high water [m] of the payload. *)
Definition ticks_upto (m : option Z) s : Prop :=
  (∀ n, m = Some n → i64_min ≤ n < i64_max) ∧
  ∀ id b t, bs_blocks s !! id = Some b → b_tick b = Some t →
    i64_min ≤ tick_get t ∧ (tick_get t < bs_next_tick s ∨ ∃ n, m = Some n ∧ tick_get t ≤ n).

Lemma ticks_upto_put m t s s' id b :
  ticks_upto m s → (∀ t', t = Some t' → i64_min ≤ tick_get t' < i64_max) →
  b_tick b = t → bs_next_tick s' = bs_next_tick s →
  bs_blocks s' = <[id := b]> (bs_blocks s) → ticks_upto (max_tick_of m t) s'.
Proof.
  intros [Hm Hs] Ht Hb Hn Hbs. split.
  - intros n. destruct t as [t|]; [|apply Hm]. specialize (Ht t eq_refl).
    simpl. intros [= <-]. destruct m as [m|]; [|done]. specialize (Hm m eq_refl). lia.
  - intros id' b' t'. rewrite Hbs, Hn. intros [[-> ->]|[_ Hi]]%lookup_insert_Some Hb'.
    + rewrite Hb in Hb'. split; [by apply Ht|]. right. rewrite Hb'. simpl.
      destruct m; eexists; (split; [done|lia]).
    + destruct (Hs id' b' t' Hi Hb') as [? [?|(n&->&?)]]; (split; [done|]); [by left|].
      right. destruct t; eexists; (split; [done|]); simpl; lia.
Qed.

Lemma merge_block_evolves s snap b :
  0 ≤ seq (sn_id snap) < u64_max → bs_blocks s !! sn_id snap = None →
  block_id b = sn_id snap →
  keeps s (observe_seq (principal_id (sn_id snap)) (seq (sn_id snap))
             (s <| bs_blocks := <[sn_id snap := b]> (bs_blocks s) |>)).
Proof.
  intros Hseq Hn Hid. destruct (observe_seq_evolves s (sn_id snap) Hseq) as [[Hk _] Hl].
  etrans; [exact Hk|]. apply (keeps_put _ _ (sn_id snap) b); try done.
  intros b0 Hb0. simpl in Hb0. congruence.
Qed.

Lemma merge_new_blocks_ok has snaps ts m s r s' :
  Forall snap_fits snaps → ticks_upto m s →
  merge_new_blocks has snaps ts m s = Some (r, s') →
  keeps s s' ∧ ∃ ts' m', r = Ok (ts', m') ∧ ticks_upto m' s' ∧ ts ≤ ts'.
Proof.
  intros Hf. revert ts m s. induction Hf as [|snap snaps [Hseq Ht] _ IH]; intros ts m s Hm.
  { intros [= <- <-]. split; [done|]. exists ts, m. by split. }
  cbn [merge_new_blocks]. unfold mbind at 1, method_bind, m_bind, m_get.
  case_bool_decide as Hn; [|by apply IH].
  unfold mbind at 1, method_bind, m_bind.
  destruct (fallback_key s snap) as [key|]; [|done]. cbn [m_lift m_ret].
  unfold mbind at 1, method_bind, m_bind.
  assert (∀ b, block_id b = sn_id snap → b_tick b = sn_tick snap →
    (m_modify (λ s, observe_seq (principal_id (sn_id snap)) (seq (sn_id snap))
         (s <| bs_blocks := <[sn_id snap := b]> (bs_blocks s) |>));;
     merge_new_blocks has snaps (Z.max ts (sn_updated_at snap)) (max_tick_of m (sn_tick snap)))
      s = Some (r, s') →
    keeps s s' ∧ ∃ ts' m', r = Ok (ts', m') ∧ ticks_upto m' s' ∧ ts ≤ ts') as Hput.
  { intros b Hid Hb Hr. unfold mbind, method_bind, m_bind, m_modify in Hr.
    apply IH in Hr as (Hk&ts'&m'&->&?&?); [|by eapply ticks_upto_put].
    split; [etrans; [by apply merge_block_evolves|done]|]. exists ts', m'. split_and!; [done..|lia]. }
  case_bool_decide.
  - destruct (built_for_sync snap (bs_principal_id s) key) as (Hh&Hb&_).
    apply Hput; [|done]. unfold block_id. by rewrite Hh.
  - destruct (block_from_snapshot snap (bs_principal_id s) key) as [b|] eqn:Eb; [|done].
    apply built_from_snapshot in Eb as (Hh&Hb&_). apply Hput; [|done].
    unfold block_id. by rewrite Hh.
Qed.

Lemma evolves_alter s id f :
  (∀ b, steady b (f b)) → evolves s (s <| bs_blocks := alter f id (bs_blocks s) |>).
Proof.
  intros Hf. destruct (bs_blocks s !! id) as [b|] eqn:Hb.
  - destruct (Hf b) as (Hid&Ht&Ho). apply (evolves_change _ _ id b (f b)); try done.
    simpl. apply map_eq. intros i. destruct (decide (id = i)) as [<-|].
    + by rewrite lookup_alter_eq, lookup_insert_eq, Hb.
    + by rewrite lookup_alter_ne, lookup_insert_ne.
  - apply evolves_counters; try done. simpl. apply map_eq. intros i.
    destruct (decide (id = i)) as [<-|]; [by rewrite lookup_alter_eq, Hb|].
    by rewrite lookup_alter_ne.
Qed.

Lemma merge_headers_evolves hs s : evolves s (merge_headers hs s).
Proof.
  revert s. induction hs as [|h hs IH]; intros s; [done|]. cbn [merge_headers].
  etrans; [apply (evolves_alter s (h_id h)), steady_merge_header|apply IH].
Qed.

Lemma merge_block_ops_preserves ops had P : preserves P (merge_block_ops ops had).
Proof.
  apply (preserves_conseq (λ _, True) _ _ (λ _ _, True)); [|done].
  revert had. induction ops as [|[id o] ops IH]; intros had; [apply ret_preserves|].
  cbn [merge_block_ops]. apply triple_get_bind. intros s _.
  destruct (bs_blocks s !! id) as [b|] eqn:Hb.
  2:{ intros s1 r s' ->. by apply IH. }
  pose proof (steady_merge_ops o b) as Hst. destruct (block_merge_ops o b) as [r0 b'].
  destruct Hst as (Hid&Ht&Ho). eapply (bind_triple _ _ (λ _ _, True)).
  - apply (triple_modify evolves). intros s1 ->. split; [|done].
    by apply (evolves_change _ _ id b b').
  - intros []. destruct r0; [apply IH|apply triple_fail, _].
Qed.

Lemma steady_tombstone ts b : steady b (if b_deleted b then b else mark_deleted ts b).
Proof. destruct (b_deleted b); [steady_done|]. by split_and!. Qed.

Lemma merge_deleted_preserves ids P : preserves P (merge_deleted ids).
Proof.
  apply (preserves_conseq (λ _, True) _ _ (λ _ _, True)); [|done].
  induction ids as [|id ids IH]; [apply ret_preserves|]. cbn [merge_deleted].
  apply after_tick. intros ts. eapply (bind_triple _ _ (λ _ _, True)); [|intros []; apply IH].
  apply (triple_modify evolves). intros s _. split; [|done].
  apply evolves_alter, steady_tombstone.
Qed.

Lemma modify_preserves P f : (∀ s, evolves s (f s)) →
  preserves P (m_modify f : method BlockStore CrdtError ()).
Proof. intros Hf. apply (triple_modify evolves). intros s _. by split. Qed.

(** Raising the counter past the payload's ticks restores the invariant. *)
Lemma raise_restores s s1 m :
  keeps s s1 → ticks_upto m s1 →
  evolves s (raise_next_tick ((λ t, {| tick_get := t |}) <$> m) s1).
Proof.
  intros Hk [Hm Hup]. set (t := (λ t, {| tick_get := t |}) <$> m).
  destruct (raise_next_tick_evolves s1 t) as [[Hk' _] Hnt].
  { intros t'. unfold t. destruct m; simpl; [|done]. intros [= <-]. by apply Hm. }
  split; [by etrans|]. intros _ id b Hb t' Ht'.
  assert (bs_blocks (raise_next_tick t s1) = bs_blocks s1) as Hbs by (by destruct t).
  rewrite Hbs in Hb. destruct (Hup id b t' Hb Ht') as [? [?|(n&->&?)]].
  - destruct t; simpl; lia.
  - specialize (Hnt _ eq_refl). simpl in Hnt |- *. lia.
Qed.

(** What [merge_ops] does once the new blocks are in. *)
Lemma merge_rest_preserves p ts :
  preserves (λ _, True)
    (m_modify (merge_headers (p_updated_headers p));;
     had ← merge_block_ops (p_block_ops p) false;
     merge_deleted (p_deleted_blocks p);;
     (if (0 <? ts) || had then merge_clock ts else m_ret tt);;
     m_modify (λ s, s <| bs_version := wrap_u64 (bs_version s + 1) |>)).
Proof.
  eapply bind_triple; [apply modify_preserves, merge_headers_evolves|]. intros [].
  eapply bind_triple; [apply merge_block_ops_preserves|]. intros had.
  eapply bind_triple; [apply merge_deleted_preserves|]. intros [].
  eapply (bind_triple _ _ (λ _ _, True)).
  - destruct (_ || had); [|apply ret_preserves].
    apply modify_preserves. intros. by apply evolves_counters.
  - intros []. apply modify_preserves. intros. by apply evolves_counters.
Qed.

Lemma merge_ops_preserves p :
  Forall snap_fits (p_new_blocks p) → preserves store_ok (merge_ops p).
Proof.
  intros Hf s r s' [Hids Hticks] Hr. unfold merge_ops in Hr.
  unfold mbind at 1, method_bind, m_bind in Hr.
  destruct (merge_new_blocks _ (p_new_blocks p) 0 None s) as [[r1 s1]|] eqn:E1; [|done].
  apply merge_new_blocks_ok in E1 as (Hk&ts&m&->&Hup&_); [|done|].
  2:{ split; [done|]. intros id b t Hb Ht. destruct (Hticks id b Hb t Ht). auto. }
  unfold mbind at 1, method_bind, m_bind, m_modify at 1 in Hr.
  destruct (merge_rest_preserves p _ _ _ _ I Hr) as [Hev' _].
  split; [|by destruct r]. etrans; [by apply raise_restores|done].
Qed.
End ops.

(** * Histories of a block store

    Any sequence of calls of the public operations, in any order and whatever they
    return, as reachability of a step relation, and what holds of every store such
    a history leads to. *)

Section history.
Context {json : JsonLib} {blib : BlockLib} {dte : Dte} {uuids : UuidCrate}.
Implicit Types s : BlockStore.

(** The calls that mint an id, and those that change what is there. *)
Inductive insertion : method BlockStore CrdtError BlockId → Prop :=
  | ins_block now parent after r k content st ct :
      insertion (insert_block now parent after r k content st ct)
  | ins_tool_call now parent after name input tk r :
      insertion (insert_tool_call now parent after name input tk r)
  | ins_tool_result now call after content is_error code tk :
      insertion (insert_tool_result_block now call after content is_error code tk)
  | ins_drift now parent after content c m dk :
      insertion (insert_drift_block now parent after content c m dk)
  | ins_file now parent after path content :
      insertion (insert_file_block now parent after path content)
  | ins_error now parent after payload summary :
      insertion (insert_error_block now parent after payload summary)
  | ins_notification now parent after payload summary :
      insertion (insert_notification_block now parent after payload summary)
  | ins_resource now parent after payload summary :
      insertion (insert_resource_block now parent after payload summary)
  | ins_reserve p : insertion (reserve_block_id p).

Inductive mutation (id : BlockId) : method BlockStore CrdtError () → Prop :=
  | mut_delete : mutation id (delete_block id)
  | mut_edit pos ins del : mutation id (edit_text id pos ins del)
  | mut_append text : mutation id (append_text id text)
  | mut_status v : mutation id (set_status id v)
  | mut_collapsed v : mutation id (set_collapsed id v)
  | mut_output v : mutation id (set_output id v)
  | mut_stderr v : mutation id (set_stderr id v)
  | mut_tool_use_id v : mutation id (set_tool_use_id id v)
  | mut_signature v : mutation id (set_signature id v)
  | mut_content_type v : mutation id (set_content_type id v)
  | mut_exit_code v : mutation id (set_exit_code id v)
  | mut_ephemeral v : mutation id (set_ephemeral id v)
  | mut_excluded v : mutation id (set_excluded id v)
  | mut_compacted v : mutation id (set_compacted id v)
  | mut_move after : mutation id (move_block id after).

(** One call, returning or failing. The counters have room ([roomy]) and incoming
    blocks carry no number at the end of its range ([snap_fits]). *)
Inductive store_step s : BlockStore → Prop :=
  | step_insert m r s' :
      insertion m → roomy s → m s = Some (r, s') → store_step s s'
  | step_mutate id m r s' :
      mutation id m → m s = Some (r, s') → store_step s s'
  | step_from_snapshot snap after r s' :
      snap_fits snap → insert_from_snapshot snap after s = Some (r, s') → store_step s s'
  | step_merge p r s' :
      Forall snap_fits (p_new_blocks p) → merge_ops p s = Some (r, s') → store_step s s'
  | step_author p : store_step s (set_principal_id p s)
  | step_version v : store_step s (set_version v s).

Lemma insertion_preserves m : insertion m → triple evolves (λ s, store_ok s ∧ roomy s) m (λ _ _, True).
Proof.
  destruct insert_snapshots_preserve as (H1&H2&H3&H4&H5).
  intros []; auto using insert_block_preserves, insert_tool_call_preserves,
    insert_tool_result_preserves.
  by eapply preserves_conseq; [apply reserve_triple|].
Qed.

Lemma mutation_preserves id m : mutation id m → triple evolves (λ _, True) m (λ _ _, True).
Proof.
  destruct (setters_preserve (λ _, True) id) as (?&?&?&?&?&?&?&?&?&?&?&?).
  intros []; auto using edit_text_preserves, append_text_preserves, move_block_preserves.
Qed.

Lemma store_step_evolves s s' : store_ok s → store_step s s' → evolves s s'.
Proof.
  intros Hok [m r s1 Hm Hr Hs|id m r s1 Hm Hs|snap after r s1 Hf Hs|p r s1 Hf Hs|p|v].
  - by apply (insertion_preserves m Hm s r s1).
  - by apply (mutation_preserves id m Hm s r s1).
  - by apply (insert_from_snapshot_preserves snap after Hf s r s1).
  - by apply (merge_ops_preserves p Hf s r s1).
  - by apply evolves_counters.
  - by apply evolves_counters.
Qed.

Lemma store_new_ok c p : store_ok (store_new c p).
Proof.
  split; [split|]; try (intros id b; cbn; by rewrite lookup_empty).
  intros q. unfold next_seq_for. cbn. by rewrite lookup_empty.
Qed.

(** C2: whatever calls are made on a store, in whatever order and with whatever
    result, merges of remote payloads included: blocks stay under the id of their
    header, no block vanishes and no tombstone is lifted, the tick counter stays
    ahead of every tick, and the lane of every principal stays ahead of every id
    it minted, so the next id of any principal is not taken and an id once minted
    is never minted again. *)
Theorem store_history s0 s (H0 : store_ok s0) (H : rtc store_step s0 s) :
  store_ok s ∧ bs_context_id s = bs_context_id s0 ∧
  (∀ id b, bs_blocks s0 !! id = Some b →
     ∃ b', bs_blocks s !! id = Some b' ∧ (b_deleted b = true → b_deleted b' = true)) ∧
  (∀ p, next_seq_for s0 p ≤ next_seq_for s p) ∧
  (∀ p, bs_blocks s !! {| context_id := bs_context_id s; principal_id := p;
                          seq := next_seq_for s p |} = None) ∧
  (∀ p id s1 s', store_step s0 s1 → rtc store_step s1 s →
     reserve_block_id p s0 = Some (Ok id, s1) → roomy s0 →
     reserve_block_id p s = Some (Ok id, s') → False).
Proof.
  assert (∀ s s', store_ok s → rtc store_step s s' → evolves s s') as Hev.
  { clear. intros s s' Hok Hs. induction Hs as [s|s1 s2 s3 Hs _ IH]; [done|].
    pose proof (store_step_evolves _ _ Hok Hs) as Hev. etrans; [exact Hev|].
    by apply IH, (ev_ok s1). }
  pose proof (Hev _ _ H0 H) as H1. pose proof (ev_ok _ _ H1 H0) as Hok.
  destruct H1 as [H1 _]. split_and!; [done|apply H1|apply H1|apply H1|..].
  - intros p. by apply lane_fresh.
  - intros p id s1 s' Hs1 Hs Hr Hroom Hr'.
    pose proof (store_step_evolves _ _ H0 Hs1) as He1. pose proof (ev_ok _ _ He1 H0) as Hok1.
    pose proof (ev_lanes _ _ (proj1 (Hev _ _ Hok1 Hs)) p) as Hl.
    destruct (reserve_triple p s0 _ _ (conj H0 Hroom) Hr) as [_ (Hp&_&_&_&Hlt&_)].
    injection Hr' as Hid _. subst id. simpl in *. fold (next_seq_for s p) in Hlt. lia.
Qed.
End history.
