(* ===== verification/StoreOrder.v ===== *)
(** * The document order of a block store

    Where an insertion puts a block, what it does to everything else, and that the
    order is a strict one. *)

From S2P Require Import Prelude MethodLogic Text Tick Ids Track Cas Cell Concrete Block OrderKey Hydrate BlockContent Convergence Selection BlockStore StoreInv StoreOps.

(** ** Total orders *)

Lemma block_id_le_iff a b :
  block_id_le a b ↔
  (context_uuid (context_id a) < context_uuid (context_id b))%N ∨
  context_id a = context_id b ∧
    ((principal_uuid (principal_id a) < principal_uuid (principal_id b))%N ∨
     principal_id a = principal_id b ∧ seq a ≤ seq b).
Proof.
  destruct a as [[c] [p] n], b as [[d] [q] m]. unfold block_id_le, block_id_compare. simpl.
  assert (∀ x y : N, {| context_uuid := x |} = {| context_uuid := y |} ↔ x = y) as Hc
    by (intros; split; [by intros [=]|by intros ->]).
  assert (∀ x y : N, {| principal_uuid := x |} = {| principal_uuid := y |} ↔ x = y) as Hp
    by (intros; split; [by intros [=]|by intros ->]).
  rewrite Hc, Hp.
  destruct (N.compare_spec c d); destruct (N.compare_spec p q);
    destruct (Z.compare_spec n m); naive_solver lia.
Qed.

#[export] Instance block_id_le_trans : Transitive block_id_le.
Proof.
  intros a b c. rewrite !block_id_le_iff.
  intros [?|[-> [?|[-> ?]]]] [?|[<- [?|[<- ?]]]]; intuition lia.
Qed.
#[export] Instance block_id_le_total : Total block_id_le.
Proof.
  intros [[c] [p] n] [[d] [q] m]. rewrite !block_id_le_iff. simpl.
  destruct (N.lt_trichotomy c d) as [?|[->|?]]; [by left; left| |by right; left].
  destruct (N.lt_trichotomy p q) as [?|[->|?]];
    [by left; right; split; [|left]| |by right; right; split; [|left]].
  destruct (Z.le_ge_cases n m); [left|right]; right; (split; [done|]); by right.
Qed.
#[export] Instance block_id_le_antisymm : AntiSymm (=) block_id_le.
Proof.
  intros [[c] [p] n] [[d] [q] m]. rewrite !block_id_le_iff. simpl.
  intros [?|[[= ->] [?|[[= ->] ?]]]] [?|[? [?|[? ?]]]]; simplify_eq/=; try lia. f_equal. lia.
Qed.

#[export] Instance order_le_trans : Transitive order_le.
Proof.
  intros [k a] [l b] [m c]. unfold order_le. simpl.
  intros [?|[-> ?]] [?|[<- ?]]; [left; by etrans|by left|by left|right; split; [done|by etrans]].
Qed.
#[export] Instance order_le_total : Total order_le.
Proof.
  intros [k a] [l b]. unfold order_le. simpl.
  destruct (str_lt_trichotomy k l) as [?|[->|?]]; [by left; left| |by right; left].
  destruct (block_id_le_total a b); auto.
Qed.
#[export] Instance order_le_antisymm : AntiSymm (=) order_le.
Proof.
  intros [k a] [l b]. unfold order_le. simpl.
  intros [H1|[-> H1]] [H2|[H2 H3]]; subst.
  - by destruct (irreflexivity str_lt k (transitivity H1 H2)).
  - by destruct (irreflexivity str_lt _ H1).
  - by destruct (irreflexivity str_lt _ H2).
  - f_equal. by apply (anti_symm block_id_le).
Qed.


#[export] Instance doc_le_trans {A} : Transitive (@doc_le A).
Proof. intros x y z. unfold doc_le. apply order_le_trans. Qed.
#[export] Instance doc_le_total {A} : Total (@doc_le A).
Proof. intros x y. unfold doc_le. apply order_le_total. Qed.

Lemma midpoint_place a b t :
  all_base62 a = true → all_base62 b = true → splittable a b = true →
  (str_lt a b ∨ a = b) →
  str_lt a (order_midpoint a b +:+ t) ∧ str_lt (order_midpoint a b +:+ t) b.
Proof.
  intros Ha Hb Hs [Hab|<-]; [|by rewrite splittable_irrefl in Hs].
  assert (str_lt a (order_midpoint a b)) as Hlow
    by (apply (midpoint_loop_spec (S (Nat.max (String.length a) (String.length b))));
        (done || lia)).
  split.
  - destruct (decide (t = "")) as [->|]; [by rewrite str_app_nil_r|].
    etrans; [exact Hlow|by apply str_lt_app].
  - apply midpoint_loop_suffix; (done || lia).
Qed.

(** A sorted list splits where a middle element goes. *)
Lemma sorted_app {A} (R : relation A) l1 l2 x :
  StronglySorted R (l1 ++ l2) → Forall (λ y, R y x) l1 → Forall (R x) l2 →
  StronglySorted R (l1 ++ x :: l2).
Proof.
  intros Hs H1 H2. induction l1 as [|y l1 IH]; [by constructor|].
  apply StronglySorted_cons in Hs as [Hy Hs]. apply Forall_cons in H1 as [Hyx H1].
  apply Forall_app in Hy as [Hy1 Hy2]. constructor; [by apply IH|].
  apply Forall_app. split; [done|]. by constructor.
Qed.

Lemma sorted_before {A} (R : relation A) `{!Transitive R} l1 a l2 x :
  StronglySorted R (l1 ++ a :: l2) → R a x → Forall (λ y, R y x) (l1 ++ [a]).
Proof.
  intros Hs Hax. apply Forall_app. split; [|by constructor].
  induction l1 as [|y l1 IH]; [constructor|].
  apply StronglySorted_cons in Hs as [Hy Hs]. apply Forall_app in Hy as [_ Hy].
  apply Forall_cons in Hy as [Hya _]. constructor; [by etrans|by apply IH].
Qed.

Lemma sorted_after {A} (R : relation A) `{!Transitive R} l1 b l2 x :
  StronglySorted R (l1 ++ b :: l2) → R x b → Forall (R x) (b :: l2).
Proof.
  intros Hs Hxb. constructor; [done|]. induction l1 as [|y l1 IH].
  - apply StronglySorted_cons in Hs as [Hb _]. eapply Forall_impl; [exact Hb|].
    intros z ?. by etrans.
  - apply StronglySorted_cons in Hs as [_ Hs]. by apply IH.
Qed.

Section order.
Context {json : JsonLib} {blib : BlockLib} {dte : Dte} {uuids : UuidCrate}.
Implicit Types s : BlockStore.

Definition ordered_keys s : list (string * BlockId) :=
  merge_sort order_le (sort_key <$> live_iter s).

Lemma ordered_keys_sorted s : StronglySorted order_le (ordered_keys s).
Proof. apply (StronglySorted_merge_sort order_le). Qed.

Lemma live_iter_perm s :
  live_iter s ≡ₚ filter (λ x, b_deleted x.2 = false) (map_to_list (bs_blocks s)).
Proof. unfold live_iter, blocks_iter. by rewrite merge_sort_Permutation. Qed.

Lemma elem_of_live_iter s id b : (id, b) ∈ live_iter s ↔ get_live s id = Some b.
Proof.
  rewrite live_iter_perm, list_elem_of_filter, elem_of_map_to_list, get_live_Some.
  simpl. tauto.
Qed.

Lemma ordered_keys_perm s : ordered_keys s ≡ₚ sort_key <$> live_iter s.
Proof. unfold ordered_keys. by rewrite merge_sort_Permutation. Qed.

Lemma elem_of_ordered_keys s k id :
  (k, id) ∈ ordered_keys s ↔ ∃ b, get_live s id = Some b ∧ b_order_key b = k.
Proof.
  rewrite ordered_keys_perm, list_elem_of_fmap. split.
  - intros ([i b]&Heq&Hb%elem_of_live_iter). unfold sort_key in Heq.
    simplify_eq/=. eauto.
  - intros (b&Hb&<-). exists (id, b). by rewrite elem_of_live_iter.
Qed.

(** The document order lists each live block once. *)
Lemma elem_of_ordered s id :
  id ∈ block_ids_ordered s ↔ is_Some (get_live s id).
Proof.
  unfold block_ids_ordered. fold (ordered_keys s). rewrite list_elem_of_fmap. split.
  - intros ([k i]&->&(b&Hb&_)%elem_of_ordered_keys). by exists b.
  - intros [b Hb]. exists (b_order_key b, id). split; [done|].
    apply elem_of_ordered_keys. eauto.
Qed.

Lemma ordered_NoDup s : NoDup (block_ids_ordered s).
Proof.
  unfold block_ids_ordered. rewrite merge_sort_Permutation, live_iter_perm, <- list_fmap_compose.
  assert (NoDup (fst <$> map_to_list (bs_blocks s))) as Hnd by apply NoDup_fst_map_to_list.
  revert Hnd. generalize (map_to_list (bs_blocks s)) as l. intros l.
  induction l as [|x l IH]; [constructor|]. rewrite fmap_cons, NoDup_cons, filter_cons.
  intros [Hx Hl]. case_decide; [|by apply IH]. rewrite fmap_cons. constructor; [|by apply IH].
  intros (y&Hy&[_ Hin]%list_elem_of_filter)%list_elem_of_fmap. apply Hx.
  apply list_elem_of_fmap. by exists y.
Qed.

Lemma key_of_ordered s k id : (k, id) ∈ ordered_keys s → key_of s id = Some k.
Proof.
  intros (b&[Hb _]%get_live_Some&<-)%elem_of_ordered_keys. unfold key_of. by rewrite Hb.
Qed.

(** *** Putting a new live block into the order *)

(** [s'] is [s] with the new live block [b] under [id]. *)
Definition puts s (id : BlockId) (b : BlockContent) s' : Prop :=
  bs_blocks s !! id = None ∧ bs_blocks s' = <[id := b]> (bs_blocks s) ∧ b_deleted b = false.

Lemma ordered_insert s id b s' l1 l2 :
  puts s id b s' → ordered_keys s = l1 ++ l2 →
  Forall (λ y, order_le y (b_order_key b, id)) l1 →
  Forall (order_le (b_order_key b, id)) l2 →
  block_ids_ordered s' = (snd <$> l1) ++ id :: (snd <$> l2).
Proof.
  intros (Hn&Hb&Hd) Heq H1 H2. unfold block_ids_ordered. fold (ordered_keys s').
  assert (ordered_keys s' = l1 ++ (b_order_key b, id) :: l2) as ->; [|by rewrite fmap_app].
  apply (StronglySorted_unique order_le).
  - apply ordered_keys_sorted.
  - apply sorted_app; [|done..]. rewrite <- Heq. apply ordered_keys_sorted.
  - rewrite ordered_keys_perm, live_iter_perm, Hb, map_to_list_insert by done.
    rewrite filter_cons_True by done. rewrite fmap_cons.
    rewrite <- live_iter_perm, <- ordered_keys_perm, Heq. apply Permutation_middle.
Qed.

Lemma order_le_key k id l i : str_lt k l → order_le (k, id) (l, i).
Proof. by left. Qed.
Hint Resolve order_le_key : core.

(** A key above the last one goes to the end. *)
Lemma ordered_append s id b s' :
  puts s id b s' →
  (∀ k i, last (ordered_keys s) = Some (k, i) → str_lt k (b_order_key b)) →
  block_ids_ordered s' = block_ids_ordered s ++ [id].
Proof.
  intros Hp Hl. unfold block_ids_ordered at 2. fold (ordered_keys s).
  pose proof (ordered_keys_sorted s) as Hs.
  destruct (ordered_keys s) as [|[k i] l _] eqn:E using rev_ind.
  { rewrite (ordered_insert s id b s' [] []); (done || constructor). }
  specialize (Hl k i). rewrite last_snoc in Hl. specialize (Hl eq_refl).
  rewrite (ordered_insert s id b s' (l ++ [(k, i)]) []); [done|done|by rewrite app_nil_r| |done].
  apply (sorted_before order_le l (k, i) []); auto.
Qed.

Lemma ids_split s l1 l2 :
  block_ids_ordered s = l1 ++ l2 →
  ∃ k1 k2, ordered_keys s = k1 ++ k2 ∧ l1 = snd <$> k1 ∧ l2 = snd <$> k2.
Proof.
  unfold block_ids_ordered. fold (ordered_keys s). intros (k1&k2&->&->&->)%fmap_app_inv. eauto.
Qed.

Lemma ids_split_keys s l1 a l2 ka :
  block_ids_ordered s = l1 ++ a :: l2 → key_of s a = Some ka →
  ∃ k1 k2, ordered_keys s = k1 ++ (ka, a) :: k2 ∧ l1 = snd <$> k1 ∧ l2 = snd <$> k2.
Proof.
  intros (k1&k2&Hk&->&Ha)%ids_split Hka. destruct k2 as [|[k i] k2]; [done|].
  rewrite fmap_cons in Ha. simplify_eq/=.
  assert (key_of s i = Some k) as Hi by (apply key_of_ordered; rewrite Hk; set_solver).
  assert (ka = k) as -> by congruence. eauto.
Qed.

Lemma last_ordered s :
  last (block_ids_ordered s) = snd <$> last (ordered_keys s).
Proof. unfold block_ids_ordered. by rewrite fmap_last. Qed.

(** The key of an append exceeds the last key. *)
Lemma append_above s id b s' (tick : option Z) k :
  puts s id b s' →
  (∀ l i, last (ordered_keys s) = Some (l, i) → k = l) →
  b_order_key b = match tick with
                  | Some _ => order_key_successor k (agent_order_suffix s)
                  | None => k +:+ "V" +:+ agent_order_suffix s
                  end →
  block_ids_ordered s' = block_ids_ordered s ++ [id].
Proof.
  intros Hp Hk Hb. eapply ordered_append; [done|]. intros l i Hl.
  rewrite Hb, (Hk _ _ Hl). destruct tick; [apply successor_gt|by apply str_lt_app].
Qed.

Lemma find_after l1 (a : BlockId) l2 :
  NoDup (l1 ++ a :: l2) → list_find (eq a) (l1 ++ a :: l2) = Some (length l1, a).
Proof.
  intros Hnd. apply list_find_Some. split_and!; [by rewrite list_lookup_middle|done|].
  intros j y Hj Hlt <-. assert (j = length l1) as ->; [|lia].
  eapply NoDup_lookup; [exact Hnd|exact Hj|by apply list_lookup_middle].
Qed.

Lemma calc_after_between s l1 a n l2 tick ka kn :
  block_ids_ordered s = l1 ++ a :: n :: l2 → key_of s a = Some ka → key_of s n = Some kn →
  calc_order_key s (Some a) tick = Some (order_midpoint ka kn +:+ agent_order_suffix s).
Proof.
  intros Ho Ha Hn. pose proof (ordered_NoDup s) as Hnd. unfold calc_order_key.
  rewrite Ho in Hnd |- *. rewrite find_after by done.
  replace (S (length l1)) with (length l1 + 1)%nat by lia.
  rewrite lookup_app_r, Nat.add_sub' by lia. cbn. by rewrite Ha, Hn.
Qed.

(** Every other arm with a predecessor appends. *)
Lemma calc_after_append s a tick :
  (¬ ∃ l1 n l2, block_ids_ordered s = l1 ++ a :: n :: l2) →
  ∃ key, calc_order_key s (Some a) tick = Some key ∧
    ∀ id b s', puts s id b s' → b_order_key b = key →
      block_ids_ordered s' = block_ids_ordered s ++ [id].
Proof.
  intros Hno. unfold calc_order_key. pose proof (last_ordered s) as Hl.
  assert (∀ k i, last (ordered_keys s) = Some (k, i) → key_of s i = Some k) as Hkey.
  { intros k i (l&Hl')%last_Some. apply key_of_ordered. rewrite Hl'. set_solver. }
  destruct (list_find (eq a) (block_ids_ordered s)) as [[idx a']|] eqn:Ef.
  - apply list_find_Some in Ef as (Hi&<-&_). apply list_elem_of_split_length in Hi
      as (l1&l2&Ho&->). destruct l2 as [|n l2]; [|destruct Hno; eauto].
    rewrite Ho, lookup_ge_None_2 by (rewrite length_app; simpl; lia).
    rewrite Ho, last_snoc in Hl. destruct (last (ordered_keys s)) as [[k i]|] eqn:Elast; [|done].
    simplify_eq/=. rewrite (Hkey k i eq_refl). eexists. split; [done|].
    intros id b s' Hp Hb. rewrite <- Ho. eapply (append_above s id b s' tick k); [done| |done].
    intros l j Hlj. rewrite Elast in Hlj. by simplify_eq.
  - rewrite Hl. destruct (last (ordered_keys s)) as [[k i]|] eqn:Elast; simpl.
    + rewrite (Hkey k i eq_refl). eexists. split; [done|].
      intros id b s' Hp Hb. eapply (append_above s id b s' tick k); [done| |done].
      intros l j Hlj. rewrite Elast in Hlj. by simplify_eq.
    + eexists. split; [done|]. intros id b s' Hp _. eapply ordered_append; [done|].
      by rewrite Elast.
Qed.

Lemma followed_unique s (a : BlockId) l1 n l2 l1' n' l2' :
  block_ids_ordered s = l1 ++ a :: n :: l2 → block_ids_ordered s = l1' ++ a :: n' :: l2' →
  l1 = l1' ∧ n = n' ∧ l2 = l2'.
Proof.
  intros H1 H2. pose proof (ordered_NoDup s) as Hnd.
  assert (length l1 = length l1') as Hlen.
  { pose proof (find_after l1 a (n :: l2)) as F1. pose proof (find_after l1' a (n' :: l2')) as F2.
    rewrite <- H1 in F1. rewrite <- H2 in F2. rewrite F1 in F2 by done.
    specialize (F2 Hnd). by simplify_eq. }
  rewrite H1 in H2. by apply app_inj_1 in H2 as [-> [= -> ->]].
Qed.

Lemma followed_or_not s (a : BlockId) :
  (∃ l1 n l2, block_ids_ordered s = l1 ++ a :: n :: l2) ∨
  ¬ ∃ l1 n l2, block_ids_ordered s = l1 ++ a :: n :: l2.
Proof.
  destruct (decide (a ∈ block_ids_ordered s)) as [(l1&l2&Ho)%list_elem_of_split|Ha].
  - destruct l2 as [|n l2]; [right|left; eauto]. intros (l1'&n&l2&Ho').
    pose proof (ordered_NoDup s) as Hnd.
    pose proof (find_after l1 a []) as F1. pose proof (find_after l1' a (n :: l2)) as F2.
    rewrite <- Ho in F1. rewrite <- Ho' in F2. rewrite F1 in F2 by done.
    specialize (F2 Hnd). simplify_eq. apply (f_equal length) in Ho'. rewrite Ho in Ho'.
    rewrite !length_app in Ho'. simpl in Ho'. lia.
  - right. intros (l1&n&l2&Ho). apply Ha. rewrite Ho. set_solver.
Qed.

Lemma live_key s i : i ∈ block_ids_ordered s → ∃ k, key_of s i = Some k.
Proof.
  intros [b [Hb _]%get_live_Some]%elem_of_ordered. unfold key_of. rewrite Hb. by eexists.
Qed.

(** A key below [a]'s and not below what comes before [a]. *)
Lemma insert_before s l1 a l2 ka id b s' :
  block_ids_ordered s = l1 ++ a :: l2 → key_of s a = Some ka → puts s id b s' →
  Forall (λ y, order_le y (b_order_key b, id)) (take (length l1) (ordered_keys s)) →
  str_lt (b_order_key b) ka →
  block_ids_ordered s' = l1 ++ id :: a :: l2.
Proof.
  intros Ho Ha Hp Hbefore Hlt.
  destruct (ids_split_keys s l1 a l2 ka Ho Ha) as (k1&k2&Hk&->&->).
  rewrite Hk, length_fmap, take_app_length in Hbefore.
  apply (ordered_insert s id b s' k1 ((ka, a) :: k2)); [done..|].
  apply (sorted_after order_le k1 (ka, a) k2); [|by left].
  rewrite <- Hk. apply ordered_keys_sorted.
Qed.

Lemma place_between s l1 a n l2 ka kn id b s' :
  block_ids_ordered s = l1 ++ a :: n :: l2 → key_of s a = Some ka → key_of s n = Some kn →
  all_base62 ka = true → all_base62 kn = true → splittable ka kn = true →
  puts s id b s' → b_order_key b = order_midpoint ka kn +:+ agent_order_suffix s →
  block_ids_ordered s' = l1 ++ a :: id :: n :: l2.
Proof.
  intros Ho Ha Hn Hka Hkn Hs Hp Hb.
  destruct (ids_split_keys s l1 a (n :: l2) ka Ho Ha) as (k1&k2&Hk&->&Hk2).
  pose proof (ordered_keys_sorted s) as Hsort.
  assert (∃ k3, k2 = (kn, n) :: k3) as [k3 ->].
  { destruct k2 as [|[k i] k3]; [done|]. rewrite fmap_cons in Hk2. simplify_eq/=.
    assert (key_of s i = Some k) by (apply key_of_ordered; rewrite Hk; set_solver).
    exists k3. do 2 f_equal. congruence. }
  rewrite Hk in Hsort. pose proof Hsort as Hsort'.
  apply StronglySorted_app_1_r, StronglySorted_cons in Hsort' as [Han _].
  apply Forall_cons in Han as [Han _].
  destruct (midpoint_place ka kn (agent_order_suffix s)) as [Hlow Hhigh]; try done.
  { destruct Han as [?|[? _]]; auto. }
  change (a :: id :: n :: l2) with ([a] ++ id :: n :: l2). rewrite (assoc_L (++)).
  apply (insert_before s _ n l2 kn id b s'); rewrite ?Hb; [|done..| |done].
  { by rewrite Ho, <- (assoc_L (++)). }
  rewrite length_app, length_fmap, Hk. change ((ka, a) :: (kn, n) :: k3)
    with ([(ka, a)] ++ (kn, n) :: k3). rewrite (assoc_L (++)).
  rewrite take_app_le, take_ge by (rewrite length_app; simpl; lia).
  apply (sorted_before order_le k1 (ka, a) ((kn, n) :: k3)); [done|by left].
Qed.

(** Without a block to insert after. *)
Lemma calc_append s t :
  ∃ key, calc_order_key s None (Some t) = Some key ∧
    ∀ id b s', puts s id b s' → b_order_key b = key →
      block_ids_ordered s' = block_ids_ordered s ++ [id].
Proof.
  unfold calc_order_key. rewrite last_ordered.
  destruct (last (ordered_keys s)) as [[k i]|] eqn:El; simpl.
  - assert (key_of s i = Some k) as ->
      by (apply last_Some in El as [l El]; apply key_of_ordered; rewrite El; set_solver).
    eexists. split; [done|]. intros id b s' Hp Hb.
    apply (append_above s id b s' (Some t) k); [done| |done].
    intros l j Hlj. rewrite El in Hlj. by simplify_eq.
  - eexists. split; [done|]. intros id b s' Hp _. eapply ordered_append; [done|].
    by rewrite El.
Qed.

Lemma calc_front s :
  ∃ key, calc_order_key s None None = Some key ∧
    ∀ id b s', puts s id b s' → b_order_key b = key →
      ∀ f l kf, block_ids_ordered s = f :: l → key_of s f = Some kf →
        all_base62 kf = true → splittable "" kf = true →
        block_ids_ordered s' = id :: f :: l.
Proof.
  unfold calc_order_key. destruct (block_ids_ordered s) as [|f l] eqn:Ho; [by eexists|].
  destruct (live_key s f) as [kf Hf]; [rewrite Ho; set_solver|].
  rewrite Hf. eexists. split; [done|]. intros id b s' Hp Hb f' l' kf' [= <- <-] Hf' Hb6 Hs.
  simplify_eq. destruct (midpoint_place "" kf (agent_order_suffix s)) as [_ Hhigh]; try done.
  { left. apply str_lt_nil. by intros ->. }
  apply (insert_before s [] f l kf id b s'); [done..|constructor|by rewrite Hb].
Qed.

(** Where an insertion goes. [calc_order_key] never panics, and a block stored
    under its key lands at the end when nothing, or a missing block, or the last
    block is given to insert after; directly after the given block when the keys
    of it and its successor leave room ([splittable]); and, on the move-to-front
    path without a tick, before the first block. *)
Theorem calc_order_key_correct s (after : option BlockId) (tick : option Z) :
  ∃ key, calc_order_key s after tick = Some key ∧
    ∀ id b s', puts s id b s' → b_order_key b = key →
      match after, tick with
      | Some a, _ =>
          ((¬ ∃ l1 n l2, block_ids_ordered s = l1 ++ a :: n :: l2) →
             block_ids_ordered s' = block_ids_ordered s ++ [id]) ∧
          (∀ l1 n l2 ka kn, block_ids_ordered s = l1 ++ a :: n :: l2 →
             key_of s a = Some ka → key_of s n = Some kn →
             all_base62 ka = true → all_base62 kn = true → splittable ka kn = true →
             block_ids_ordered s' = l1 ++ a :: id :: n :: l2)
      | None, Some _ => block_ids_ordered s' = block_ids_ordered s ++ [id]
      | None, None =>
          ∀ f l kf, block_ids_ordered s = f :: l → key_of s f = Some kf →
            all_base62 kf = true → splittable "" kf = true →
            block_ids_ordered s' = id :: f :: l
      end.
Proof.
  destruct after as [a|]; [|destruct tick as [t|]; [apply calc_append|apply calc_front]].
  destruct (followed_or_not s a) as [(l1&n&l2&Ho)|Hno].
  - destruct (live_key s a) as [ka Ha], (live_key s n) as [kn Hn]; [rewrite Ho; set_solver..|].
    exists (order_midpoint ka kn +:+ agent_order_suffix s).
    split; [by eapply calc_after_between|].
    intros id b s' Hp Hb. split; [intros []; eauto|].
    intros l1' n' l2' ka' kn' Ho' Ha' Hn' Hka Hkn Hs.
    destruct (followed_unique s a l1 n l2 l1' n' l2' Ho Ho') as (->&->&->). simplify_eq.
    by eapply place_between.
  - destruct (calc_after_append s a tick Hno) as (key&Hk&Happ). exists key. split; [done|].
    intros id b s' Hp Hb. split; [eauto|]. intros l1 n l2 ka kn Ho. destruct Hno; eauto.
Qed.
End order.

(** * What an insertion does to a block store *)

Section insert.
Context {json : JsonLib} {blib : BlockLib} {dte : Dte} {laws : DteLaws} {uuids : UuidCrate}.
Implicit Types s : BlockStore.

(** The first reference that is not a live block. *)
Definition dangling s (refs : list (option BlockId)) : option BlockId :=
  head (filter (λ id, is_live s id = false) (omap id refs)).

(** The id the store mints next, and the store once it has. *)
Definition next_id s : BlockId :=
  {| context_id := bs_context_id s; principal_id := bs_principal_id s;
     seq := next_seq_for s (bs_principal_id s) |}.

Definition after_mint s : BlockStore :=
  s <| bs_seq_lanes := <[bs_principal_id s :=
         wrap_u64 (next_seq_for s (bs_principal_id s) + 1)]> (bs_seq_lanes s) |>.

(** The store after a successful insertion of [b]. *)
Definition after_insert s (b : BlockContent) : BlockStore :=
  after_mint s <| bs_next_tick := wrap_i64 (bs_next_tick s + 1) |>
               <| bs_lamport_clock := wrap_u64 (bs_lamport_clock s + 1) |>
               <| bs_blocks := <[next_id s := b]> (bs_blocks s) |>
               <| bs_version := wrap_u64 (bs_version s + 1) |>.

(** Where the new block stands. *)
Definition placed_after s (after : option BlockId) (id : BlockId) s' : Prop :=
  (after = None ∨ after = last (block_ids_ordered s) →
     block_ids_ordered s' = block_ids_ordered s ++ [id]) ∧
  ∀ a l1 n l2 ka kn, after = Some a → block_ids_ordered s = l1 ++ a :: n :: l2 →
    key_of s a = Some ka → key_of s n = Some kn →
    all_base62 ka = true → all_base62 kn = true → splittable ka kn = true →
    block_ids_ordered s' = l1 ++ a :: id :: n :: l2.

Lemma check_ref_live s r : dangling s [r] = None → check_ref r s = Some (Ok tt, s).
Proof.
  unfold dangling. destruct r as [id|]; [|done]. simpl. rewrite filter_cons, filter_nil.
  case_decide as Hd; [done|]. intros _. apply not_false_iff_true in Hd.
  unfold check_ref, mbind, method_bind, m_bind, m_get. by rewrite Hd.
Qed.

Lemma check_ref_dangling s r x :
  dangling s [r] = Some x → check_ref r s = Some (Err (InvalidReference x), s).
Proof.
  unfold dangling. destruct r as [id|]; [|done]. simpl. rewrite filter_cons, filter_nil.
  case_decide as Hd; [|done]. intros [= <-].
  unfold check_ref, mbind, method_bind, m_bind, m_get. by rewrite Hd.
Qed.

Lemma dangling_cons s r rs :
  dangling s (r :: rs) = match dangling s [r] with Some x => Some x | None => dangling s rs end.
Proof.
  unfold dangling. destruct r as [id|]; [|done].
  assert (∀ l, omap Datatypes.id (Some id :: l) = id :: omap Datatypes.id l) as Hc by done.
  rewrite !Hc, !filter_cons. by case_decide.
Qed.

Lemma new_id_run s : new_block_id s = Some (Ok (next_id s), after_mint s).
Proof. done. Qed.

Lemma store_tick_run s :
  store_tick s = Some (Ok (wrap_u64 (bs_lamport_clock s + 1)),
                       s <| bs_lamport_clock := wrap_u64 (bs_lamport_clock s + 1) |>).
Proof. done. Qed.

Lemma next_position_run s after :
  ∃ key, calc_order_key s after (Some (bs_next_tick s)) = Some key ∧
    next_position after s =
      Some (Ok (Some {| tick_get := bs_next_tick s |}, key),
            s <| bs_next_tick := wrap_i64 (bs_next_tick s + 1) |>).
Proof.
  destruct (calc_order_key_correct s after (Some (bs_next_tick s))) as (key&Hk&_).
  exists key. split; [done|]. unfold next_position, mbind, method_bind, m_bind. cbn [m_get m_modify].
  change (calc_order_key (s <| bs_next_tick := _ |>) after (Some (bs_next_tick s)))
    with (calc_order_key s after (Some (bs_next_tick s))). by rewrite Hk.
Qed.

Lemma placed_after_key s after t id b s' key :
  calc_order_key s after (Some t) = Some key → puts s id b s' → b_order_key b = key →
  placed_after s after id s'.
Proof.
  intros Hk Hp Hb. destruct (calc_order_key_correct s after (Some t)) as (key'&Hk'&Hpos).
  assert (key = key') as -> by congruence. specialize (Hpos id b s' Hp Hb). split.
  - intros [->|Hlast]; [done|]. destruct after as [a|]; [|done]. destruct Hpos as [Happ _].
    apply Happ. intros (l1&n&l2&Ho). pose proof (ordered_NoDup s) as Hnd.
    rewrite Ho in Hlast, Hnd. rewrite last_app, last_cons_cons in Hlast.
    apply NoDup_app in Hnd as (_&_&[Hna _]%NoDup_cons). apply Hna, last_Some_elem_of.
    destruct (last (n :: l2)) eqn:E; [by simplify_eq|]. by apply last_None in E.
  - intros a l1 n l2 ka kn -> Ho Ha Hn ???. destruct Hpos as [_ Hbet]. eauto.
Qed.

(** C32: [insert_block], on every branch. It never panics. A dangling [after] or
    [parent] is refused with that reference, and all that changes is that the
    minted id is spent. Otherwise the new block has the given header fields, all
    its field timestamps at the new Lamport time, the given text and the store's
    next tick; its id was not taken; it stands at the end or right after the block
    it was to follow; and no other block changes. *)
Theorem insert_block_correct s now parent after r k content st ct (Hok : store_ok s) :
  match dangling s [after; parent] with
  | Some x => insert_block now parent after r k content st ct s =
                Some (Err (InvalidReference x), after_mint s)
  | None =>
      ∃ b, insert_block now parent after r k content st ct s =
             Some (Ok (next_id s), after_insert s b) ∧
           b_header b = fresh_header now (wrap_u64 (bs_lamport_clock s + 1)) (next_id s)
                          parent r k st None None false ct ∧
           block_text b = content ∧ b_tick b = Some {| tick_get := bs_next_tick s |} ∧
           b_deleted b = false ∧ bs_blocks s !! next_id s = None ∧
           placed_after s after (next_id s) (after_insert s b)
  end.
Proof.
  assert (bs_blocks s !! next_id s = None) as Hfresh by (by apply lane_fresh).
  assert (∀ s' refs, bs_blocks s' = bs_blocks s → dangling s' refs = dangling s refs) as Hd.
  { intros s' refs Hb. unfold dangling, is_live, get_live. by rewrite Hb. }
  rewrite dangling_cons, <- !(Hd (after_mint s)) by done. unfold insert_block.
  rewrite (bind_ok _ _ _ _ _ (new_id_run s)).
  destruct (dangling (after_mint s) [after]) as [x|] eqn:Ea.
  { apply bind_err. by apply check_ref_dangling. }
  rewrite (bind_ok _ _ _ _ _ (check_ref_live _ _ Ea)).
  destruct (dangling (after_mint s) [parent]) as [x|] eqn:Ep.
  { apply bind_err. by apply check_ref_dangling. }
  rewrite (bind_ok _ _ _ _ _ (check_ref_live _ _ Ep)).
  destruct (next_position_run (after_mint s) after) as (key&Hkey&Hrun).
  rewrite (bind_ok _ _ _ _ _ Hrun). rewrite (bind_ok _ _ _ _ _ (store_tick_run _)).
  set (s3 := (_ <| bs_next_tick := _ |>) <| bs_lamport_clock := _ |>).
  rewrite (bind_ok m_get _ _ _ _ eq_refl). cbv zeta.
  set (h := fresh_header _ _ _ _ _ _ _ _ _ _ _).
  destruct (with_content_ok h content (bs_principal_id s3) key
    (Some {| tick_get := bs_next_tick (after_mint s) |})) as (d&Hd'&Ht).
  rewrite Hd'. set (b := (block_new _ _ _) <| b_tick := _ |> <| b_doc := d |>) in *.
  apply built_with_content in Hd' as (Hh&Htick&Hk&Hdel).
  exists b. split_and!; [done|done| |done|done|done|].
  - unfold block_text, b. cbn. by rewrite Ht.
  - apply (placed_after_key s after (bs_next_tick s) _ b _ key); [done| |done]. by split_and!.
Qed.
End insert.
