(* ===== verification/StoreDoc.v ===== *)
(** * The document of a block store

    The live blocks in document order, what freezing a block shows of it, and when
    the documents of two stores correspond. *)

From S2P Require Import Prelude Text Tick Ids Track Cas Cell Concrete Block Hydrate BlockContent OrderKey Convergence Selection MethodLogic BlockStore StoreInv StoreOps StoreOrder.

Section doc.
Context {json : JsonLib} {blib : BlockLib} {dte : Dte} {laws : DteLaws} {uuids : UuidCrate}.
Implicit Types s : BlockStore.
Implicit Types l : list BlockContent.

(** ** Blocks in document order *)

Definition block_key (b : BlockContent) : string * BlockId := (b_order_key b, block_id b).

Definition block_le (x y : BlockContent) : Prop := order_le (block_key x) (block_key y).

Definition in_order l : Prop := StronglySorted block_le l.

(** The live blocks of [s] in document order. *)
Definition doc_blocks s : list BlockContent := omap (get_live s) (block_ids_ordered s).

Lemma omap_all {A B} (f : A → option B) (g : A → B) (l : list A) :
  (∀ x, x ∈ l → f x = Some (g x)) → omap f l = g <$> l.
Proof.
  induction l as [|x l IH]; intros Hf; [done|]. cbn. rewrite (Hf x) by set_solver.
  f_equal. apply IH. set_solver.
Qed.

Lemma sorted_weaken {A} (R R' : relation A) (l : list A) :
  (∀ x y, R x y → R' x y) → StronglySorted R l → StronglySorted R' l.
Proof.
  intros HR. induction 1 as [|x l _ IH Hx]; constructor; [done|].
  eapply Forall_impl; [exact Hx|auto].
Qed.

Lemma fmap_sorted {A B} (R : relation B) (f : A → B) (l : list A) :
  StronglySorted R (f <$> l) ↔ StronglySorted (λ x y, R (f x) (f y)) l.
Proof.
  induction l as [|x l IH]; [split; constructor|].
  rewrite fmap_cons, !StronglySorted_cons, IH, Forall_fmap. done.
Qed.

(** The pairs of the order list, with their blocks. *)
Lemma doc_blocks_keys s : ids_ok s → block_key <$> doc_blocks s = ordered_keys s.
Proof.
  intros Hok. unfold doc_blocks, block_ids_ordered. fold (ordered_keys s).
  assert (∀ k i, (k, i) ∈ ordered_keys s → ∃ b, get_live s i = Some b ∧ block_key b = (k, i))
    as Hb.
  { intros k i (b&Hb&<-)%elem_of_ordered_keys. exists b. split; [done|].
    unfold block_key. f_equal. apply (so_ids s Hok). by apply get_live_Some in Hb as [? _]. }
  induction (ordered_keys s) as [|[k i] l IH]; [done|]. cbn.
  destruct (Hb k i) as (b&->&Hk); [set_solver|]. cbn. f_equal; [exact Hk|].
  apply IH. intros. apply Hb. set_solver.
Qed.

Lemma doc_blocks_in_order s : ids_ok s → in_order (doc_blocks s).
Proof.
  intros Hok. apply (fmap_sorted order_le block_key). rewrite doc_blocks_keys by done.
  apply ordered_keys_sorted.
Qed.

Lemma elem_of_doc_blocks s b :
  ids_ok s → b ∈ doc_blocks s ↔ get_live s (block_id b) = Some b.
Proof.
  intros Hok. unfold doc_blocks. rewrite list_elem_of_omap. split.
  - intros (i&_&Hb). assert (block_id b = i) as ->; [|done].
    apply (so_ids s Hok). by apply get_live_Some in Hb as [? _].
  - intros Hb. exists (block_id b). split; [|done]. apply elem_of_ordered. by exists b.
Qed.

Lemma doc_blocks_ids s : ids_ok s → block_id <$> doc_blocks s = block_ids_ordered s.
Proof.
  intros Hok. unfold block_ids_ordered. fold (ordered_keys s).
  by rewrite <- doc_blocks_keys, <- list_fmap_compose.
Qed.

Lemma doc_blocks_NoDup s : ids_ok s → NoDup (block_id <$> doc_blocks s).
Proof. intros. rewrite doc_blocks_ids by done. apply ordered_NoDup. Qed.

Lemma blocks_ordered_doc s : blocks_ordered s = block_snapshot <$> doc_blocks s.
Proof.
  unfold blocks_ordered, doc_blocks, get_block_snapshot.
  induction (block_ids_ordered s) as [|i l IH]; [done|]. cbn.
  destruct (get_live s i); cbn; [by f_equal|done].
Qed.

(** What the forks iterate over. *)
Lemma live_iter_doc s : ids_ok s → snd <$> live_iter s ≡ₚ doc_blocks s.
Proof.
  intros Hok. apply NoDup_Permutation.
  - assert (NoDup (live_iter s)) as Hnd.
    { rewrite live_iter_perm. apply NoDup_filter, NoDup_map_to_list. }
    apply NoDup_fmap_2_strong; [|done].
    intros [i b] [j c] Hi Hj Hbc. simpl in Hbc. subst c.
    apply elem_of_live_iter, get_live_Some in Hi as [Hi _], Hj as [Hj _].
    f_equal. by rewrite <- (so_ids s Hok _ _ Hi), <- (so_ids s Hok _ _ Hj).
  - by eapply NoDup_fmap_1, doc_blocks_NoDup.
  - intros b. rewrite elem_of_doc_blocks, list_elem_of_fmap by done. split.
    + intros ([i b']&->&Hb%elem_of_live_iter). simpl.
      assert (block_id b' = i) as ->; [|done]. apply (so_ids s Hok).
      by apply get_live_Some in Hb as [? _].
    + intros Hb. exists (block_id b, b). by rewrite elem_of_live_iter.
Qed.

(** A sorted list of blocks with distinct ids is determined by its elements. *)
Lemma in_order_unique l l' :
  NoDup (block_id <$> l) → in_order l → in_order l' → l ≡ₚ l' → l = l'.
Proof.
  intros Hnd Hl Hl' Hp. apply (StronglySorted_unique_strong block_le); [|done..].
  intros x y Hx Hy Hxy Hyx. rewrite <- Hp in Hy.
  pose proof (anti_symm order_le _ _ Hxy Hyx) as Hk. injection Hk as _ Hid.
  apply list_elem_of_lookup in Hx as [i Hx], Hy as [j Hy].
  assert (i = j) as ->; [|congruence]. eapply NoDup_lookup; [exact Hnd|..];
    rewrite list_lookup_fmap; [by rewrite Hx|by rewrite Hy, Hid].
Qed.

Lemma sublist_sorted {A} (R : relation A) (l k : list A) :
  l `sublist_of` k → StronglySorted R k → StronglySorted R l.
Proof.
  induction 1 as [|x l k Hl IH|x l k Hl IH]; intros Hs; [constructor|..];
    apply StronglySorted_cons in Hs as [Hx Hs]; [|by apply IH].
  constructor; [by apply IH|]. rewrite Forall_forall in Hx |- *.
  intros y Hy. apply Hx. by eapply elem_of_sublist.
Qed.

Lemma sorted_filter {A} (R : relation A) (P : A → Prop) `{∀ x, Decision (P x)} (l : list A) :
  StronglySorted R l → StronglySorted R (filter P l).
Proof.
  induction 1 as [|x l Hl IH Hx]; [constructor|]. rewrite filter_cons.
  case_decide; [|done]. constructor; [done|]. apply Forall_forall. intros y [_ Hy]%list_elem_of_filter.
  rewrite Forall_forall in Hx. auto.
Qed.

(** A store whose live blocks are the images of [doc] under [g] has that document. *)
Lemma doc_blocks_image f (g : BlockContent → BlockContent) doc :
  ids_ok f → NoDup (block_id <$> (g <$> doc)) → in_order (g <$> doc) →
  (∀ b', get_live f (block_id b') = Some b' ↔ b' ∈ g <$> doc) →
  doc_blocks f = g <$> doc.
Proof.
  intros Hids Hnd Hord Hb. apply in_order_unique; [by apply doc_blocks_NoDup|
    by apply doc_blocks_in_order|done|]. apply NoDup_Permutation.
  - by eapply NoDup_fmap_1, doc_blocks_NoDup.
  - by eapply NoDup_fmap_1.
  - intros b'. by rewrite elem_of_doc_blocks.
Qed.

(** ** Frozen and thawed blocks *)

(** A snapshot is thawed into a live block that freezes to it, with a key. *)
Lemma thaw_ok snap p k :
  ∃ b', block_from_snapshot snap p k = Some b' ∧
    block_snapshot b' = snap <| sn_order_key := Some (default k (sn_order_key snap)) |> ∧
    b_deleted b' = false.
Proof.
  unfold block_from_snapshot.
  destruct (with_content_ok (header_from_snapshot snap) (sn_content snap) p
    (default k (sn_order_key snap)) (sn_tick snap)) as (d&->&Ht).
  cbn [mbind option_bind]. eexists. split; [reflexivity|].
  unfold block_new. destruct (create_agent _ _) as [a d0].
  split; [|reflexivity]. destruct snap. unfold block_snapshot, block_text. cbn in *.
  by rewrite Ht.
Qed.

Lemma order_key_same snap k :
  sn_order_key snap = Some k → snap <| sn_order_key := Some k |> = snap.
Proof. destruct snap. simpl. by intros ->. Qed.

(** The fields of a block its snapshot shows. *)
Lemma frozen_fields b sn :
  block_snapshot b = sn →
  Some (b_order_key b) = sn_order_key sn ∧ block_id b = sn_id sn ∧ b_tick b = sn_tick sn.
Proof. by intros <-. Qed.

End doc.
