(* ===== verification/StoreFork.v ===== *)
(** * Forks of a block store

    The document of a fork is the document it was forked from, or the part of it
    the filter keeps, with every id moved to the new context. *)

From S2P Require Import Prelude Text Tick Ids Track Cas Cell Concrete Block Hydrate BlockContent OrderKey Convergence Selection MethodLogic BlockStore StoreInv StoreOps StoreOrder StoreDoc.

Section fork.
Context {json : JsonLib} {blib : BlockLib} {dte : Dte} {laws : DteLaws} {uuids : UuidCrate}.
Implicit Types s : BlockStore.
Implicit Types l : list BlockContent.

(** ** Copies *)

(** The block a fork makes of [b]; [fork_copy_ok] says it is always made. *)
Definition fork_copy (c : ContextId) (p : PrincipalId) (b : BlockContent) : BlockContent :=
  default b (block_from_snapshot (remap_snapshot c (block_snapshot b)) p (b_order_key b)).

(** The fields [remap_snapshot] changes. *)
Lemma remap_fields c sn :
  sn_order_key (remap_snapshot c sn) = sn_order_key sn ∧
  sn_id (remap_snapshot c sn) = rebase c (sn_id sn) ∧
  sn_tick (remap_snapshot c sn) = sn_tick sn.
Proof. done. Qed.

Lemma fork_copy_ok c p b :
  block_from_snapshot (remap_snapshot c (block_snapshot b)) p (b_order_key b) =
    Some (fork_copy c p b) ∧
  block_snapshot (fork_copy c p b) = remap_snapshot c (block_snapshot b) ∧
  b_deleted (fork_copy c p b) = false.
Proof.
  unfold fork_copy. destruct (thaw_ok (remap_snapshot c (block_snapshot b)) p (b_order_key b))
    as (b'&->&Hs&Hd). cbn [default from_option id].
  split; [exact eq_refl|]. split; [|exact Hd]. rewrite Hs.
  destruct (remap_fields c (block_snapshot b)) as (Hk&_&_). revert Hk.
  change (sn_order_key (block_snapshot b)) with (Some (b_order_key b)). generalize (remap_snapshot c (block_snapshot b)) as sn. intros sn Hk.
  rewrite Hk. by apply order_key_same.
Qed.

Lemma fork_copy_key c p b :
  b_order_key (fork_copy c p b) = b_order_key b ∧
  block_id (fork_copy c p b) = rebase c (block_id b) ∧
  b_tick (fork_copy c p b) = b_tick b.
Proof.
  destruct (fork_copy_ok c p b) as (_&Hs&_). revert Hs.
  generalize (fork_copy c p b) as b'. intros b' (Hk&Hi&Ht)%frozen_fields.
  destruct (remap_fields c (block_snapshot b)) as (Rk&Ri&Rt).
  rewrite Rk in Hk. rewrite Ri in Hi. rewrite Rt in Ht. injection Hk as Hk.
  by rewrite Hk, Hi, Ht.
Qed.

#[local] Opaque fork_copy.

Lemma rebase_le c i j :
  context_id i = context_id j → block_id_le i j → block_id_le (rebase c i) (rebase c j).
Proof.
  intros Hc. rewrite !block_id_le_iff, Hc. simpl.
  intros [?|[_ ?]]; [lia|]. right. by split.
Qed.

Lemma rebase_inj c i j : context_id i = context_id j → rebase c i = rebase c j → i = j.
Proof. destruct i, j. unfold rebase. simpl. by intros -> [= -> ->]. Qed.

(** Copies keep the order. *)
Lemma copies_in_order k c p l :
  Forall (λ b, context_id (block_id b) = k) l → in_order l → in_order (fork_copy c p <$> l).
Proof.
  intros Hk Hl. apply fmap_sorted. induction Hl as [|b l Hl IH Hb]; [constructor|].
  apply Forall_cons in Hk as [Hk Hks]. constructor; [by apply IH|].
  rewrite Forall_forall in Hks |- *. rewrite Forall_forall in Hb. intros b' Hb'.
  specialize (Hb b' Hb'). specialize (Hks b' Hb'). unfold block_le in *.
  unfold block_key.
  destruct (fork_copy_key c p b) as (->&->&_), (fork_copy_key c p b') as (->&->&_).
  destruct Hb as [?|[? ?]]; [by left|].
  right. split; [done|]. apply rebase_le; [by rewrite Hk, Hks|done].
Qed.

(** A block no counter of a fork overflows on. *)
Definition block_fits (b : BlockContent) : Prop :=
  0 ≤ seq (block_id b) < u64_max ∧
  ∀ t, b_tick b = Some t → i64_min ≤ tick_get t < i64_max.

Lemma fork_block_ok c p b f :
  block_fits b → bs_blocks f !! rebase c (block_id b) = None →
  ∃ f', fork_block c p b f = Some f' ∧ evolves f f' ∧
    bs_blocks f' = <[rebase c (block_id b) := fork_copy c p b]> (bs_blocks f).
Proof.
  intros [Hseq Ht] Hn. unfold fork_block. destruct (fork_copy_ok c p b) as (->&_&_).
  cbn [mbind option_bind]. set (f1 := observe_seq _ _ f). set (f2 := raise_next_tick _ f1).
  destruct (observe_seq_evolves f (rebase c (block_id b)) Hseq) as [He1 Hl].
  destruct (raise_next_tick_evolves f1 (b_tick b) Ht) as [He2 Htk].
  change (raise_next_tick (b_tick b) f1) with f2 in He2, Htk.
  assert (bs_blocks f2 = bs_blocks f ∧ bs_seq_lanes f2 = bs_seq_lanes f1) as [Hb Hlane]
    by (unfold f2; by destruct (sn_tick _)).
  eexists. split; [done|]. split; [|by rewrite Hb].
  do 2 (etrans; [eassumption|]). destruct (fork_copy_key c p b) as (_&Hid&Hct).
  apply (evolves_put _ _ (rebase c (block_id b)) (fork_copy c p b)); try done.
  - intros _. split; [exact Hid|]. unfold next_seq_for. rewrite Hlane. exact Hl.
  - intros _ t Hbt. rewrite Hct in Hbt. by apply Htk.
  - intros b0. rewrite Hb, Hn. done.
Qed.

Lemma fork_blocks_ok k c p l f :
  Forall block_fits l → Forall (λ b, context_id (block_id b) = k) l →
  NoDup (block_id <$> l) →
  (∀ b, b ∈ l → bs_blocks f !! rebase c (block_id b) = None) →
  ∃ f', fork_blocks c p l f = Some f' ∧ evolves f f' ∧
    ∀ i b', bs_blocks f' !! i = Some b' ↔
      bs_blocks f !! i = Some b' ∨
      ∃ b, b ∈ l ∧ i = rebase c (block_id b) ∧ b' = fork_copy c p b.
Proof.
  intros Hf Hk. revert f. induction l as [|b l IH]; intros f Hnd Hfree.
  { eexists. split; [done|]. split; [by apply evolves_counters|]. simpl.
    intros i b'. split; [by left|]. intros [?|(b&Hb&_)]; [done|].
    by apply elem_of_nil in Hb. }
  apply Forall_cons in Hf as [Hf Hfs], Hk as [Hk Hks].
  rewrite fmap_cons in Hnd. apply NoDup_cons in Hnd as [Hnb Hnd].
  destruct (fork_block_ok c p b f Hf) as (f1&Hf1&He1&Hb1); [apply Hfree; set_solver|].
  assert (∀ b0, b0 ∈ l → rebase c (block_id b0) ≠ rebase c (block_id b)) as Hne.
  { intros b0 Hb0 Heq. rewrite Forall_forall in Hks. apply Hnb, list_elem_of_fmap. exists b0.
    split; [|done]. symmetry. apply (rebase_inj c); [|done]. by rewrite Hk, (Hks _ Hb0). }
  cbn [fork_blocks]. rewrite Hf1. cbn [mbind option_bind].
  destruct (IH Hfs Hks f1) as (f'&->&He'&Hb'); [done| |].
  { intros b0 Hb0. rewrite Hb1, lookup_insert_ne by (intros Heq; by apply (Hne b0)).
    apply Hfree. set_solver. }
  exists f'. split; [done|]. split; [by etrans|]. intros i b'. rewrite Hb', Hb1. split.
  - intros [[[<- <-]|[_ ?]]%lookup_insert_Some|(b0&?&?&?)]; [right|by left|right];
      [exists b|exists b0]; set_solver.
  - intros [Hi|(b0&[->|Hb0]%elem_of_cons&->&->)]; [left|left|right; eauto].
    + rewrite lookup_insert_ne; [done|]. intros <-. rewrite Hfree in Hi by set_solver. done.
    + by rewrite lookup_insert_eq.
Qed.

(** The document of a fork of the blocks [l], given in any order; [doc] is their
    document order. *)
Lemma fork_blocks_doc k c p l doc :
  Forall block_fits l → Forall (λ b, context_id (block_id b) = k) l →
  NoDup (block_id <$> l) → l ≡ₚ doc → in_order doc →
  ∃ f, fork_blocks c p l (store_new c p) = Some f ∧ store_ok f ∧
    bs_context_id f = c ∧
    blocks_ordered f = remap_snapshot c <$> (block_snapshot <$> doc).
Proof.
  intros Hf Hk Hnd Hp Hord.
  destruct (fork_blocks_ok k c p l (store_new c p) Hf Hk Hnd) as (f&Hr&Hev&Hb);
    [intros; apply lookup_empty|].
  exists f. split; [done|]. pose proof (ev_ok _ _ Hev (store_new_ok c p)) as Hok.
  split; [done|]. split; [apply Hev|]. destruct Hok as [Hids _].
  assert (doc_blocks f = fork_copy c p <$> doc) as Hdoc.
  { apply doc_blocks_image; [done| |apply (copies_in_order k); [by rewrite <- Hp|done]|].
    - rewrite <- Hp, <- list_fmap_compose.
      rewrite (list_fmap_ext _ (rebase c ∘ block_id) l) by (intros; apply fork_copy_key).
      rewrite list_fmap_compose. apply NoDup_fmap_2_strong; [|done].
      intros i j (b1&->&H1)%list_elem_of_fmap (b2&->&H2)%list_elem_of_fmap.
      rewrite Forall_forall in Hk. apply rebase_inj. by rewrite (Hk _ H1), (Hk _ H2).
    - intros b'. rewrite <- Hp, get_live_Some, Hb, list_elem_of_fmap. split.
      + intros [[He|(b&?&_&->)] _]; [cbn in He; by rewrite lookup_empty in He|eauto].
      + intros (b&->&?). destruct (fork_copy_ok c p b) as (_&_&Hd).
        destruct (fork_copy_key c p b) as (_&Hid&_). split; [right; eauto|done]. }
  rewrite blocks_ordered_doc, Hdoc, <- !list_fmap_compose. apply list_fmap_ext.
  intros i b _. unfold compose. apply fork_copy_ok.
Qed.

(** ** The three forks *)

(** All ids of a store are in its context: what its own operations insert. *)
Definition one_context s : Prop :=
  ∀ id b, bs_blocks s !! id = Some b → context_id id = bs_context_id s.

(** The document a fork at [before] sees, and what a filter keeps of it: [pos] is
    the position in that document. *)
Definition document_at s (before : Z) : list BlockSnapshot :=
  filter (λ snap, sn_created_at snap ≤ before) (blocks_ordered s).

Fixpoint kept (f : ForkBlockFilter) (pos : Z) (snaps : list BlockSnapshot) :
    list BlockSnapshot :=
  match snaps with
  | [] => []
  | snap :: snaps' =>
      (if match selection f with Some sel => contains_position sel pos | None => true end
          && ForkBlockFilter_matches f snap
       then [snap] else []) ++ kept f (pos + 1) snaps'
  end.

Lemma kept_no_filter pos snaps : kept no_filter pos snaps = snaps.
Proof.
  revert pos. induction snaps as [|sn snaps IH]; intros pos; [done|].
  cbn [kept]. rewrite IH. unfold ForkBlockFilter_matches. cbn.
  by rewrite !bool_decide_true by done.
Qed.

Lemma passing_kept f pos l :
  block_snapshot <$> passing f pos l = kept f pos (block_snapshot <$> l).
Proof.
  revert pos. induction l as [|b l IH]; intros pos; [done|]. cbn [passing kept fmap list_fmap].
  rewrite fmap_app, IH. f_equal. unfold passes. by destruct (_ && _).
Qed.

Lemma passing_sub f pos l : passing f pos l `sublist_of` l.
Proof.
  revert pos. induction l as [|b l IH]; intros pos; [done|]. cbn [passing].
  destruct (passes f pos b); cbn [app]; [by apply sublist_skip|by apply sublist_cons].
Qed.

Lemma created_document s before :
  block_snapshot <$> filter (λ b, h_created_at (b_header b) ≤ before) (doc_blocks s) =
    document_at s before.
Proof.
  unfold document_at. rewrite blocks_ordered_doc.
  induction (doc_blocks s) as [|b l IH]; [done|]. rewrite fmap_cons, !filter_cons.
  change (sn_created_at (block_snapshot b)) with (h_created_at (b_header b)).
  case_decide; [|done]. by rewrite fmap_cons, IH.
Qed.

Lemma doc_block_fits s b :
  store_ok s → roomy s → b ∈ doc_blocks s → block_fits b.
Proof.
  intros [Hids Ht] [Hr Hn] [Hb _]%elem_of_doc_blocks%get_live_Some; [|done].
  pose proof (so_seqs s Hids _ _ Hb). specialize (Hr (principal_id (block_id b))).
  split; [lia|]. intros t Hbt. specialize (Ht _ _ Hb t Hbt). lia.
Qed.

Lemma sorted_pairs (m : list ((string * BlockId) * BlockContent)) :
  StronglySorted doc_le m → Forall (λ z, z.1 = block_key z.2) m → in_order (snd <$> m).
Proof.
  induction 1 as [|z m Hm IH Hz]; [constructor|]. intros [Hk Hks]%Forall_cons.
  constructor; [by apply IH|]. apply Forall_forall.
  rewrite Forall_forall in Hz. rewrite Forall_forall in Hks.
  intros b (y&->&Hy)%list_elem_of_fmap. specialize (Hz y Hy). specialize (Hks y Hy).
  unfold block_le. by rewrite <- Hk, <- Hks.
Qed.

(** The universe of a filtered fork is the document at that time. *)
Lemma fork_universe_doc s before :
  ids_ok s →
  fork_universe s before = filter (λ b, h_created_at (b_header b) ≤ before) (doc_blocks s).
Proof.
  intros Hok. unfold fork_universe, sort_blocks.
  set (x := filter _ (live_iter s)).
  assert (∀ i b, (i, b) ∈ x → block_id b = i) as Hx.
  { intros i b [_ [Hb _]%elem_of_live_iter%get_live_Some]%list_elem_of_filter.
    by apply (so_ids s Hok). }
  assert (snd <$> x ≡ₚ filter (λ b, h_created_at (b_header b) ≤ before) (doc_blocks s)) as Hp.
  { rewrite <- live_iter_doc by done. unfold x. clear Hx x.
    induction (live_iter s) as [|[i b] l IH]; [done|]. rewrite fmap_cons, !filter_cons. simpl.
    case_decide; [|done]. rewrite fmap_cons. by constructor. }
  assert (snd <$> merge_sort doc_le ((λ y, (sort_key y, y.2)) <$> x) ≡ₚ snd <$> x) as Hm
    by (rewrite merge_sort_Permutation, <- list_fmap_compose; done).
  apply in_order_unique.
  - rewrite Hm, Hp.
    eapply sublist_NoDup; [by apply doc_blocks_NoDup|]. apply fmap_sublist, sublist_filter.
  - apply sorted_pairs; [apply (StronglySorted_merge_sort doc_le)|].
    rewrite merge_sort_Permutation, Forall_fmap. apply Forall_forall. intros [i b] Hib.
    unfold compose, sort_key, block_key. simpl. by rewrite (Hx i b Hib).
  - by apply sorted_filter, doc_blocks_in_order.
  - by rewrite Hm.
Qed.

(** C12: forks. None of the three panics, each result satisfies the invariant of a
    store, and its document is the document it was taken from with every id, parent
    and tool call moved to the new context: all of it, what was created by
    [before], or what the filter keeps of that, with its positions counted in that
    document. The empty filter keeps everything. *)
Theorem fork_correct s c p (before : Z) (flt : ForkBlockFilter)
    (Hok : store_ok s) (Hroom : roomy s) (Hctx : one_context s) :
  let is_fork f doc := store_ok f ∧ bs_context_id f = c ∧
                       blocks_ordered f = remap_snapshot c <$> doc in
  (∃ f, fork s c p = Some f ∧ is_fork f (blocks_ordered s)) ∧
  (∃ f, fork_at_version s c p before = Some f ∧ is_fork f (document_at s before)) ∧
  (∃ f, fork_filtered s c p before flt = Some f ∧
        is_fork f (kept flt 0 (document_at s before))) ∧
  kept no_filter 0 (document_at s before) = document_at s before.
Proof.
  intros is_fork. pose proof Hok as [Hids _].
  assert (∀ l doc, l ≡ₚ doc → in_order doc → doc `sublist_of` doc_blocks s →
    ∃ f, fork_blocks c p l (store_new c p) = Some f ∧ is_fork f (block_snapshot <$> doc))
    as Hfork.
  { intros l doc Hp Hord Hsub.
    assert (∀ b, b ∈ l → b ∈ doc_blocks s) as Hin.
    { intros b Hb. rewrite Hp in Hb. by eapply elem_of_sublist. }
    apply (fork_blocks_doc (bs_context_id s) c p l doc); [..|done|done].
    - apply Forall_forall. intros b Hb. eapply doc_block_fits; eauto.
    - apply Forall_forall. intros b Hb%Hin.
      apply elem_of_doc_blocks, get_live_Some in Hb as [Hb _]; [|done]. by eapply Hctx.
    - rewrite Hp. eapply sublist_NoDup; [by apply doc_blocks_NoDup|by apply fmap_sublist]. }
  pose proof (doc_blocks_in_order s Hids) as Hsort.
  split_and!; [| | |apply kept_no_filter].
  - rewrite blocks_ordered_doc. apply Hfork; [by apply live_iter_doc|done|done].
  - rewrite <- created_document. apply Hfork; [by rewrite live_iter_doc|by apply sorted_filter|].
    apply sublist_filter.
  - rewrite <- created_document, <- passing_kept, <- fork_universe_doc by done.
    apply Hfork; [done| |].
    + eapply sublist_sorted; [apply passing_sub|].
      rewrite fork_universe_doc by done. by apply sorted_filter.
    + etrans; [apply passing_sub|]. rewrite fork_universe_doc by done. apply sublist_filter.
Qed.
End fork.
