(* ===== verification/StoreRestore.v ===== *)
(** * Snapshot and restore of a block store

    A store written out by [snapshot] and read back by [from_snapshot] has the same
    document and the same tombstones, and its counters are ahead of both. *)

From S2P Require Import Prelude Text Tick Ids Track Cas Cell Concrete Block Hydrate BlockContent OrderKey Convergence Selection MethodLogic BlockStore StoreInv StoreOps StoreOrder StoreDoc.

Section restore.
Context {json : JsonLib} {blib : BlockLib} {dte : Dte} {laws : DteLaws} {uuids : UuidCrate}.
Implicit Types s : BlockStore.

(** What a block is restored to: from its history, or from its text if it has none. *)
Definition restored (p : PrincipalId) (b : BlockContent) : BlockContent :=
  if ops_is_empty (root_ops b)
  then default b (block_from_snapshot (block_snapshot b) p "")
  else (block_merge_ops (root_ops b)
          (block_from_snapshot_for_sync (block_snapshot b) p "")).2.

Lemma sync_thaw_ok b p k :
  ∃ b', block_merge_ops (root_ops b) (block_from_snapshot_for_sync (block_snapshot b) p k)
          = (Ok tt, b') ∧ block_snapshot b' = block_snapshot b ∧ b_deleted b' = false.
Proof.
  unfold block_merge_ops, block_from_snapshot_for_sync, root_ops.
  pose proof (merge_full (principal_uuid p) (b_doc b)) as (d&Hm&Ht).
  destruct (create_agent _ _) as [a d0]. cbn in Hm |- *. rewrite Hm.
  eexists. split; [done|]. split; [|done]. unfold block_snapshot, block_text. cbn.
  by rewrite Ht.
Qed.

Lemma restored_ok p b :
  block_snapshot (restored p b) = block_snapshot b ∧ b_deleted (restored p b) = false.
Proof.
  unfold restored. destruct (ops_is_empty (root_ops b)).
  - destruct (thaw_ok (block_snapshot b) p "") as (b'&->&Hs&Hd). cbn [default from_option id].
    split; [|done]. rewrite Hs. by apply order_key_same.
  - by destruct (sync_thaw_ok b p "") as (b'&->&?&?).
Qed.

Lemma restored_fields p b :
  b_order_key (restored p b) = b_order_key b ∧ block_id (restored p b) = block_id b ∧
  b_tick (restored p b) = b_tick b.
Proof.
  destruct (restored_ok p b) as [Hs%frozen_fields _]. revert Hs.
  generalize (restored p b) as b'. intros b' (Hk&Hi&Ht). by injection Hk.
Qed.

(** One restored block. *)
Lemma restore_block_run f b :
  ∃ f1, restore_block (block_snapshot b) (root_ops b) f =
      Some (Ok tt, f1 <| bs_blocks := <[block_id b := restored (bs_principal_id f) b]>
                                        (bs_blocks f) |>) ∧
    f1 = observe_seq (principal_id (block_id b)) (seq (block_id b)) f.
Proof.
  eexists. split; [|done]. unfold restore_block.
  rewrite (bind_ok (m_modify _) _ f tt _ eq_refl), (bind_ok m_get _ _ _ _ eq_refl).
  change (fallback_key _ (block_snapshot b)) with (Some "").
  rewrite (bind_ok (m_lift (Some "")) _ _ "" _ eq_refl). unfold restored.
  destruct (ops_is_empty (root_ops b)).
  - destruct (thaw_ok (block_snapshot b) (bs_principal_id f) "") as (b'&Hb'&_).
    cbn [bs_principal_id]. rewrite (bind_ok (m_lift _) _ _ b' _) by (cbn; by rewrite Hb').
    rewrite Hb'. done.
  - destruct (sync_thaw_ok b (bs_principal_id f) "") as (b'&Hb'&_).
    cbn [bs_principal_id observe_seq set_field]. rewrite Hb'. done.
Qed.
#[local] Opaque restored.

Definition seq_fits (id : BlockId) : Prop := 0 ≤ seq id < u64_max.

Lemma restore_blocks_ok p l f :
  bs_principal_id f = p → Forall (λ b, seq_fits (block_id b)) l → NoDup (block_id <$> l) →
  (∀ b, b ∈ l → bs_blocks f !! block_id b = None) →
  ∃ f', restore_blocks (zip (block_snapshot <$> l) (root_ops <$> l)) f = Some (Ok tt, f') ∧
    keeps f f' ∧ bs_principal_id f' = p ∧
    ∀ i b', bs_blocks f' !! i = Some b' ↔
      bs_blocks f !! i = Some b' ∨ ∃ b, b ∈ l ∧ i = block_id b ∧ b' = restored p b.
Proof.
  intros Hp Hf. revert f Hp. induction Hf as [|b l Hb Hf IH]; intros f Hp Hnd Hfree.
  { exists f. split_and!; [done..|]. intros i b'. split; [by left|].
    intros [?|(b&Hb&_)]; [done|]. by apply elem_of_nil in Hb. }
  rewrite fmap_cons in Hnd. apply NoDup_cons in Hnd as [Hnb Hnd].
  subst p. destruct (restore_block_run f b) as (f1&Hr&->).
  destruct (observe_seq_evolves f (block_id b) Hb) as [[Hk1 _] Hl].
  set (f1 := observe_seq _ _ f) in *. set (f2 := f1 <| bs_blocks := _ |>) in *.
  destruct (restored_fields (bs_principal_id f) b) as (_&Hid&_).
  assert (keeps f f2) as Hk2.
  { etrans; [exact Hk1|]. apply (keeps_put _ _ (block_id b) (restored (bs_principal_id f) b)); try done.
    assert (bs_blocks f !! block_id b = None) as Hn by (apply Hfree; set_solver).
    intros b0 Hb0. change (bs_blocks f !! block_id b = Some b0) in Hb0. congruence. }
  cbn [restore_blocks fmap list_fmap zip zip_with].
  destruct (IH f2) as (f'&Hr'&Hk'&Hp'&Hb'); [done|done| |].
  { intros b0 Hb0. simpl. rewrite lookup_insert_ne; [apply Hfree; set_solver|].
    intros Heq. apply Hnb. rewrite Heq. by apply list_elem_of_fmap_2. }
  exists f'. rewrite (bind_ok _ _ _ _ _ Hr). split; [done|]. split; [by etrans|].
  split; [done|]. intros i b'. rewrite Hb'. simpl. split.
  - intros [[[<- <-]|[_ ?]]%lookup_insert_Some|(b0&?&?&?)]; [right|by left|right];
      [exists b|exists b0]; set_solver.
  - intros [Hi|(b0&[->|Hb0]%elem_of_cons&->&->)]; [left|left|right; eauto].
    + rewrite lookup_insert_ne; [done|]. intros <-. by rewrite Hfree in Hi by set_solver.
    + by rewrite lookup_insert_eq.
Qed.

(** A restored tombstone: an empty deleted block without a tick. *)
Definition tombstone (now : Z) (p : PrincipalId) (id : BlockId) (b : BlockContent) : Prop :=
  ∃ b0, block_from_snapshot (builder_new now id KText) p "Z" = Some b0 ∧
        b = mark_deleted 0 b0.

Lemma tombstone_fields now p id b :
  tombstone now p id b → block_id b = id ∧ b_tick b = None ∧ b_deleted b = true.
Proof.
  intros (b0&(Hh&Ht&_)%built_from_snapshot&->). split; [|done].
  unfold block_id. cbn. by rewrite Hh.
Qed.

Lemma restore_tombstones_ok now p ids f :
  bs_principal_id f = p → Forall seq_fits ids →
  ∃ f', restore_tombstones now ids f = Some (Ok tt, f') ∧
    keeps f f' ∧ bs_principal_id f' = p ∧
    ∀ i b', bs_blocks f' !! i = Some b' ↔
      bs_blocks f !! i = Some b' ∨ i ∈ ids ∧ bs_blocks f !! i = None ∧ tombstone now p i b'.
Proof.
  intros Hp Hf. revert f Hp. induction Hf as [|id ids Hid Hf IH]; intros f Hp.
  { exists f. split_and!; [done..|]. intros i b'. split; [by left|].
    intros [?|[Hi _]]; [done|]. by apply elem_of_nil in Hi. }
  destruct (observe_seq_evolves f id Hid) as [[Hk1 _] Hl].
  set (f1 := observe_seq (principal_id id) (seq id) f) in *.
  assert (∃ f2, restore_tombstone now id f = Some (Ok tt, f2) ∧ keeps f f2 ∧
    bs_principal_id f2 = p ∧ ∀ i b', bs_blocks f2 !! i = Some b' ↔
      bs_blocks f !! i = Some b' ∨ i = id ∧ bs_blocks f !! i = None ∧ tombstone now p i b')
    as (f2&Hr&Hk2&Hp2&Hb2).
  { unfold restore_tombstone. rewrite (bind_ok (m_modify _) _ f tt _ eq_refl).
    fold f1. rewrite (bind_ok m_get _ _ _ _ eq_refl). change (bs_blocks f1) with (bs_blocks f).
    case_bool_decide as Hn.
    - destruct (thaw_ok (builder_new now id KText) p "Z") as (b0&Hb0&_).
      change (bs_principal_id f1) with (bs_principal_id f). rewrite Hp, Hb0.
      assert (tombstone now p id (mark_deleted 0 b0)) as Ht by (by exists b0).
      eexists. split; [done|]. split; [|split; [done|]].
      + etrans; [exact Hk1|]. destruct (tombstone_fields _ _ _ _ Ht) as (?&_&_).
        apply (keeps_put _ _ id (mark_deleted 0 b0)); try done.
      + intros i b'. simpl. rewrite lookup_insert_Some. split.
        * intros [[<- <-]|[? ?]]; [by right|by left].
        * intros [Hi|(->&_&b1&Hb1&->)]; [right|left]; [|by simplify_eq].
          split; [congruence|done].
    - exists f1. split; [done|]. split; [done|]. split; [done|]. intros i b'.
      split; [by left|]. intros [?|(->&?&_)]; done. }
  cbn [restore_tombstones]. rewrite (bind_ok _ _ _ _ _ Hr).
  destruct (IH f2 Hp2) as (f'&Hr'&Hk'&Hp'&Hb'). exists f'. split; [done|].
  split; [by etrans|]. split; [done|]. intros i b'. rewrite Hb', Hb2.
  destruct (bs_blocks f2 !! i) as [b2|] eqn:Eb2; destruct (bs_blocks f !! i) as [b1|] eqn:Eb1.
  - set_solver.
  - apply Hb2 in Eb2 as [?|(->&_&?)]; [congruence|]. set_solver.
  - assert (bs_blocks f2 !! i = Some b1) by (apply Hb2; by left). congruence.
  - set_solver.
Qed.

(** *** The snapshot *)

Lemma snapshot_blocks s :
  omap (λ id, bs_blocks s !! id) (block_ids_ordered s) = doc_blocks s.
Proof.
  unfold doc_blocks. apply list_omap_ext, Forall_Forall2_diag, Forall_forall.
  intros id [b Hb]%elem_of_ordered. rewrite Hb. by apply get_live_Some in Hb as [-> _].
Qed.

Lemma elem_of_blocks_iter s id b : (id, b) ∈ blocks_iter s ↔ bs_blocks s !! id = Some b.
Proof. unfold blocks_iter. by rewrite merge_sort_Permutation, elem_of_map_to_list. Qed.

Definition is_tombstone s (id : BlockId) : Prop :=
  ∃ b, bs_blocks s !! id = Some b ∧ b_deleted b = true.

Lemma snapshot_tombstones s id :
  id ∈ ss_deleted_blocks (store_snapshot s) ↔ is_tombstone s id.
Proof.
  cbn [store_snapshot ss_deleted_blocks]. rewrite list_elem_of_fmap. split.
  - intros ([i b]&->&[Hd Hb%elem_of_blocks_iter]%list_elem_of_filter). by exists b.
  - intros (b&Hb&Hd). exists (id, b). split; [done|].
    by rewrite list_elem_of_filter, elem_of_blocks_iter.
Qed.

Lemma max_opt_spec l :
  match max_opt l with
  | Some m => m ∈ l ∧ ∀ x, x ∈ l → x ≤ m
  | None => l = []
  end.
Proof.
  unfold max_opt. destruct (max_by_key id l) as [m|] eqn:E; [|by apply max_by_key_None in E].
  apply max_by_key_Some in E as (l1&l2&->&H1&H2).
  rewrite Forall_forall in H1. rewrite Forall_forall in H2. split; [set_solver|].
  intros x [Hx|[->|Hx]%elem_of_cons]%elem_of_app; [by apply H1|done|].
  specialize (H2 x Hx). unfold id in H2. lia.
Qed.

(** A store whose live blocks all have ticks only gets its counter seeded. *)
Lemma normalize_ticked s :
  (∀ id b, bs_blocks s !! id = Some b → ∀ t, b_tick b = Some t →
     b_deleted b = false ∧ i64_min ≤ tick_get t < i64_max) →
  (∀ id b, get_live s id = Some b → b_tick b ≠ None) →
  ∃ n, normalize_timeline s = s <| bs_next_tick := n |> ∧
       ticks_ok (normalize_timeline s).
Proof.
  intros Ht Hall. unfold normalize_timeline.
  assert (existsb (λ x, bool_decide (b_tick x.2 = None)) (live_iter s) = false) as ->.
  { apply not_true_is_false. intros ([i b]&Hi&Hb)%existsb_exists.
    apply list_elem_of_In, elem_of_live_iter in Hi. apply bool_decide_eq_true in Hb.
    by apply (Hall i b). }
  eexists. split; [done|]. intros i b Hi t Hbt. simpl in *.
  destruct (Ht i b Hi t Hbt) as [Hlive Hrange].
  set (l := tick_get <$> omap (λ x, b_tick x.2) (live_iter s)).
  assert (tick_get t ∈ l) as Hin.
  { apply list_elem_of_fmap_2, list_elem_of_omap. exists (i, b).
    split; [by apply elem_of_live_iter, get_live_Some|done]. }
  pose proof (max_opt_spec l) as Hm. destruct (max_opt l) as [m|].
  - destruct Hm as [Hm Hmax]. specialize (Hmax _ Hin).
    apply list_elem_of_fmap in Hm as (t'&->&([i' b']&[Hi' _]%elem_of_live_iter%get_live_Some
      &Ht')%list_elem_of_omap).
    destruct (Ht i' b' Hi' t' Ht') as [_ ?]. rewrite wrap_i64_id by width_lia. lia.
  - rewrite Hm in Hin. by apply elem_of_nil in Hin.
Qed.

(** Every live block has a tick: what [normalize_timeline] establishes. *)
Definition all_ticked s : Prop := ∀ b, b ∈ doc_blocks s → b_tick b ≠ None.

(** Restoring up to the normalization. *)
Lemma restore_run s p now :
  store_ok s → roomy s →
  ∃ f, restore now (store_snapshot s) (store_new (bs_context_id s) p) =
         Some (Ok tt, normalize_timeline f) ∧
    ids_ok f ∧ bs_context_id f = bs_context_id s ∧ bs_principal_id f = p ∧
    bs_lamport_clock f = default 0 (max_opt (sn_updated_at <$> blocks_ordered s)) ∧
    ∀ i b', bs_blocks f !! i = Some b' ↔
      (∃ b, b ∈ doc_blocks s ∧ i = block_id b ∧ b' = restored p b) ∨
      (is_tombstone s i ∧ tombstone now p i b').
Proof.
  intros [Hids Ht] [Hr _].
  assert (∀ i b, bs_blocks s !! i = Some b → seq_fits i) as Hseq.
  { intros i b Hb. pose proof (so_seqs s Hids i b Hb). specialize (Hr (principal_id i)).
    unfold seq_fits. lia. }
  unfold restore. cbn [store_snapshot ss_blocks ss_block_history]. rewrite snapshot_blocks.
  destruct (restore_blocks_ok p (doc_blocks s) (store_new (bs_context_id s) p))
    as (f1&H1&Hk1&Hp1&Hb1); [done| |by apply doc_blocks_NoDup|intros; apply lookup_empty|].
  { apply Forall_forall. intros b Hb%elem_of_doc_blocks; [|done].
    apply get_live_Some in Hb as [? _]. eauto. }
  destruct (restore_tombstones_ok now p (ss_deleted_blocks (store_snapshot s)) f1 Hp1)
    as (f2&H2&Hk2&Hp2&Hb2).
  { apply Forall_forall. intros i (b&Hb&_)%snapshot_tombstones. eauto. }
  rewrite (bind_ok _ _ _ _ _ H1), (bind_ok _ _ _ _ _ H2).
  eexists (f2 <| bs_lamport_clock := _ |>). split; [reflexivity|].
  pose proof (ev_ids _ _ Hk2 (ev_ids _ _ Hk1 (proj1 (store_new_ok (bs_context_id s) p)))) as H'.
  split; [by destruct H'; split|]. split; [|split; [done|split]].
  - cbn. by rewrite (ev_context _ _ Hk2), (ev_context _ _ Hk1).
  - cbn. by rewrite blocks_ordered_doc.
  - intros i b'. cbn [bs_blocks set_field]. rewrite Hb2, Hb1, snapshot_tombstones.
    cbn [store_new bs_blocks]. rewrite lookup_empty.
    split; [intros [[?|?]|(?&_&?)]; [done|by left|by right]|].
    intros [?|[Hts ?]]; [by left; right|]. right. split; [done|]. split; [|done].
    destruct (bs_blocks f1 !! i) as [b1|] eqn:E; [|done].
    apply Hb1 in E as [E|(b&Hb&->&_)]; [cbn in E; by rewrite lookup_empty in E|].
    apply elem_of_doc_blocks, get_live_Some in Hb as [Hb Hd]; [|done].
    destruct Hts as (b2&Hb2'&?). congruence.
Qed.

Lemma restored_doc s p now f :
  store_ok s → ids_ok f →
  (∀ i b', bs_blocks f !! i = Some b' ↔
      (∃ b, b ∈ doc_blocks s ∧ i = block_id b ∧ b' = restored p b) ∨
      (is_tombstone s i ∧ tombstone now p i b')) →
  doc_blocks f = restored p <$> doc_blocks s.
Proof.
  intros [Hids _] Hf Hb. apply doc_blocks_image; [done|..].
  - rewrite <- list_fmap_compose.
    rewrite (list_fmap_ext _ block_id (doc_blocks s)) by (intros; apply restored_fields).
    by apply doc_blocks_NoDup.
  - apply (fmap_sorted block_le). eapply sorted_weaken; [|by apply doc_blocks_in_order].
    intros b b' H'. unfold block_le, block_key in *.
    destruct (restored_fields p b) as (->&->&_), (restored_fields p b') as (->&->&_). done.
  - intros b'. rewrite get_live_Some, Hb, list_elem_of_fmap. split.
    + intros [[(b&?&_&->)|[_ Ht]] Hd]; [eauto|].
      apply tombstone_fields in Ht as (_&_&?). congruence.
    + intros (b&->&?). destruct (restored_ok p b) as [_ Hd], (restored_fields p b) as (_&Hi&_).
      split; [|done]. left. eauto.
Qed.

(** A restored store: the restoring run [f], its tick counter seeded. *)
Lemma restored_store s p now :
  store_ok s → roomy s → all_ticked s →
  ∃ f n, store_from_snapshot now (store_snapshot s) p = Some (Ok (f <| bs_next_tick := n |>)) ∧
    store_ok (f <| bs_next_tick := n |>) ∧ bs_context_id f = bs_context_id s ∧
    bs_principal_id f = p ∧ blocks_ordered (f <| bs_next_tick := n |>) = blocks_ordered s ∧
    bs_lamport_clock f = default 0 (max_opt (sn_updated_at <$> blocks_ordered s)) ∧
    ∀ i b', bs_blocks f !! i = Some b' ↔
      (∃ b, b ∈ doc_blocks s ∧ i = block_id b ∧ b' = restored p b) ∨
      (is_tombstone s i ∧ tombstone now p i b').
Proof.
  intros Hok Hroom Hticked.
  destruct (restore_run s p now Hok Hroom) as (f&Hr&Hids&Hctx&Hp&Hclock&Hb).
  destruct (normalize_ticked f) as (n&Hn&Hticks).
  - intros i b' [(b&Hd&->&->)|[_ Ht]]%Hb t Ht'.
    + destruct (restored_fields p b) as (_&_&Hbt). rewrite Hbt in Ht'.
      destruct (restored_ok p b) as [_ ?]. split; [done|].
      apply elem_of_doc_blocks, get_live_Some in Hd as [Hd _]; [|apply Hok].
      destruct Hroom as [_ ?]. pose proof (proj2 Hok _ _ Hd t Ht'). lia.
    + destruct (tombstone_fields _ _ _ _ Ht) as (_&?&_). congruence.
  - intros i b' [[(b&Hd&->&->)|[_ Ht]]%Hb Hlive]%get_live_Some.
    + destruct (restored_fields p b) as (_&_&->). by apply Hticked.
    + destruct (tombstone_fields _ _ _ _ Ht) as (_&_&?). congruence.
  - assert (doc_blocks f = restored p <$> doc_blocks s) as Hdoc
      by (by apply (restored_doc s p now)).
    exists f, n. unfold store_from_snapshot.
    change (ss_context_id (store_snapshot s)) with (bs_context_id s). rewrite Hr.
    rewrite Hn in Hticks |- *.
    split; [done|]. split; [split; [by destruct Hids; split|done]|].
    split; [done|]. split; [done|]. split; [|done].
    change (blocks_ordered (f <| bs_next_tick := n |>)) with (blocks_ordered f).
    rewrite !blocks_ordered_doc, Hdoc, <- list_fmap_compose. apply list_fmap_ext.
    intros j b _. apply restored_ok.
Qed.

(** C14: a store restored from its own snapshot has the same document and the same
    tombstones, satisfies the invariant (so its lanes and its tick counter are
    ahead of everything restored) and its clock is not behind any timestamp of the
    document. Restoring never panics and never fails. *)
Theorem restore_snapshot s p now
    (Hok : store_ok s) (Hroom : roomy s) (Hticked : all_ticked s) :
  ∃ s', store_from_snapshot now (store_snapshot s) p = Some (Ok s') ∧
    store_ok s' ∧ bs_context_id s' = bs_context_id s ∧ bs_principal_id s' = p ∧
    blocks_ordered s' = blocks_ordered s ∧
    (∀ id, is_tombstone s' id ↔ is_tombstone s id) ∧
    Forall (λ sn, sn_updated_at sn ≤ bs_lamport_clock s') (blocks_ordered s').
Proof.
  destruct (restored_store s p now Hok Hroom Hticked) as (f&n&Hr&Hok'&Hctx&Hp&Hord&Hclock&Hb).
  exists (f <| bs_next_tick := n |>). rewrite Hord. split_and!; try done.
  - intros id. split.
    + intros (b'&Hb'&Hdel). apply Hb in Hb' as [(b&_&->&->)|[Ht _]]; [|done].
      destruct (restored_ok p b). congruence.
    + intros Ht. destruct (thaw_ok (builder_new now id KText) p "Z") as (b0&Hb0&_).
      exists (mark_deleted 0 b0). split; [|done]. apply Hb. right. split; [done|]. by exists b0.
  - apply Forall_forall. intros sn Hsn. simpl. rewrite Hclock.
    pose proof (max_opt_spec (sn_updated_at <$> blocks_ordered s)) as Hm.
    destruct (max_opt _) as [m|]; simpl.
    + apply Hm. by apply list_elem_of_fmap_2.
    + apply fmap_nil_inv in Hm. rewrite Hm in Hsn. by apply elem_of_nil in Hsn.
Qed.
End restore.
