(* ===== verification/StoreDemo.v ===== *)
(** * The block store on concrete stores *)

From S2P Require Import Prelude Text Tick Ids Track Cas Cell Concrete Block Hydrate BlockContent OrderKey Convergence Selection MethodLogic BlockStore StoreInv StoreOps StoreOrder StoreDoc StoreFork StoreRestore.

Import DemoDoc.

(** One block of the demo player, at tick 0. *)
Definition demo_first : BlockContent :=
  (demo_block 0 4 None "hey") <| b_tick := Some {| tick_get := 0 |} |>.

Definition demo_store : BlockStore := {|
  bs_context_id := context_id (demo_id 0);
  bs_principal_id := principal_id (demo_id 0);
  bs_blocks := {[ demo_id 0 := demo_first ]};
  bs_seq_lanes := {[ principal_id (demo_id 0) := 1 ]};
  bs_version := 1;
  bs_lamport_clock := 4;
  bs_next_tick := 1;
|}.

Lemma demo_store_lookup id b :
  bs_blocks demo_store !! id = Some b → demo_id 0 = id ∧ demo_first = b.
Proof. intros H. by apply lookup_singleton_Some. Qed.

Lemma demo_store_lane p :
  next_seq_for demo_store p = if decide (principal_id (demo_id 0) = p) then 1 else 0.
Proof.
  unfold next_seq_for. change (bs_seq_lanes demo_store) with
    ({[ principal_id (demo_id 0) := 1 ]} : gmap PrincipalId Z).
  rewrite lookup_singleton. by case_decide.
Qed.

Lemma demo_store_ok : store_ok demo_store.
Proof.
  split; [split|].
  - intros id b [<- <-]%demo_store_lookup. done.
  - intros id b [<- <-]%demo_store_lookup. done.
  - intros p. rewrite demo_store_lane. by case_decide.
  - intros id b [<- <-]%demo_store_lookup t [= <-]. cbn. width_lia.
Qed.

Lemma demo_store_roomy : roomy demo_store.
Proof.
  split; [|cbn; width_lia]. intros p. rewrite demo_store_lane. case_decide; width_lia.
Qed.

Lemma demo_store_one_context : one_context demo_store.
Proof. intros id b [<- _]%demo_store_lookup. done. Qed.

Lemma demo_store_ticked : all_ticked demo_store.
Proof.
  intros b Hb%elem_of_doc_blocks; [|apply demo_store_ok].
  apply get_live_Some in Hb as [[_ <-]%demo_store_lookup _]. done.
Qed.

(** A reply, and then its deletion. *)
Definition demo_insert : method BlockStore CrdtError BlockId :=
  insert_block 7 (Some (demo_id 0)) None User KText "you" SDone Plain.

Definition ran {A} (m : method BlockStore CrdtError A) s : BlockStore :=
  match m s with Some (_, s') => s' | None => s end.

Lemma demo_insert_step :
  store_step demo_store (ran demo_insert demo_store).
Proof.
  eapply (step_insert _ demo_insert (Ok (demo_id 1)));
    [apply ins_block|apply demo_store_roomy|vm_compute; reflexivity].
Qed.

Lemma store_history_witness :
  store_ok (ran (delete_block (demo_id 1)) (ran demo_insert demo_store)) ∧
  bs_blocks (ran (delete_block (demo_id 1)) (ran demo_insert demo_store)) !! demo_id 0 ≠ None.
Proof.
  assert (rtc store_step demo_store (ran (delete_block (demo_id 1)) (ran demo_insert demo_store)))
    as Hrtc.
  { eapply rtc_l; [apply demo_insert_step|]. apply rtc_once.
    eapply (step_mutate _ (demo_id 1) (delete_block (demo_id 1)) (Ok tt));
      [apply mut_delete|vm_compute; reflexivity]. }
  destruct (store_history _ _ demo_store_ok Hrtc) as (Hok&_&Hb&_).
  split; [exact Hok|]. destruct (Hb (demo_id 0) _ eq_refl) as (b'&Hb'&_).
  intros Hn. rewrite Hb' in Hn. discriminate Hn.
Defined.

Lemma insert_block_correct_witness :
  block_ids_ordered (ran demo_insert demo_store) = [demo_id 0; demo_id 1] ∧
  ∃ b, demo_insert demo_store = Some (Ok (demo_id 1), after_insert demo_store b) ∧
       block_text b = "you".
Proof.
  split; [vm_compute; reflexivity|].
  destruct (insert_block_correct demo_store 7 (Some (demo_id 0)) None User KText "you" SDone
    Plain demo_store_ok) as (b&Hr&_&Ht&_). exists b. exact (conj Hr Ht).
Defined.

Definition fork_context : ContextId := {| context_uuid := 6 |}.

Lemma fork_correct_witness :
  ∃ f, fork demo_store fork_context (principal_id (demo_id 0)) = Some f ∧
       blocks_ordered f = remap_snapshot fork_context <$> blocks_ordered demo_store.
Proof.
  destruct (fork_correct demo_store fork_context (principal_id (demo_id 0)) 10 no_filter
    demo_store_ok demo_store_roomy demo_store_one_context) as [(f&Hf&_&_&Hdoc) _].
  exists f. exact (conj Hf Hdoc).
Defined.

Lemma restore_snapshot_witness :
  ∃ s', store_from_snapshot 9 (store_snapshot demo_store) (principal_id (demo_id 0)) =
          Some (Ok s') ∧
        blocks_ordered s' = blocks_ordered demo_store.
Proof.
  destruct (restore_snapshot demo_store (principal_id (demo_id 0)) 9
    demo_store_ok demo_store_roomy demo_store_ticked) as (s'&Hr&_&_&_&Hdoc&_).
  exists s'. exact (conj Hr Hdoc).
Defined.

(** A fork starts its Lamport clock at 0 under blocks stamped later: a status set in
    the fork is stamped 1, and a peer that has the copied block at 4 ignores it. *)
Definition in_fork {A} (m : method BlockStore CrdtError A) : option BlockStore :=
  f ← fork demo_store fork_context (principal_id (demo_id 0)); Some (ran m f).

Definition forked_id : BlockId := rebase fork_context (demo_id 0).

Definition status_of (s : option BlockStore) : option (Status * Z) :=
  s ← s; b ← bs_blocks s !! forked_id;
  Some (h_status (b_header b), h_status_at (b_header b)).

Example fork_clock_behind :
  status_of (in_fork (m_ret tt)) = Some (SDone, 4) ∧
  status_of (in_fork (set_status forked_id SError)) = Some (SError, 1) ∧
  status_of (writer ← in_fork (set_status forked_id SError);
             let p := ops_since writer {[ forked_id := false ]} in
             in_fork (merge_ops p)) = Some (SDone, 4).
Proof. by vm_compute. Qed.
