(* ===== verification/Wire.v ===== *)
(** * Blocks as messages for the model ([kaijutsu-kernel/src/llm/{mod,hydrate}.rs])

    The state machine that folds blocks, one at a time, into the sequence of
    messages a model's interface expects, and the two repair passes that pair tool
    uses with tool results. Blocks come from [Block.v], the tagged text of errors,
    notifications and resources from [Hydrate.v]. The [Role] of a message is
    [MsgRole] here. *)

From Stdlib Require Import Ascii.
From S2P Require Import Prelude Text Ids Track Cas Cell Block Hydrate.

(** What is used of [serde_json]: [from_str::<Value>], [Value::Null] and
    [v.get(key).and_then(|v| v.as_str())]. *)
Class SerdeJson `{!JsonLib} := {
  json_parse : string → option Json;
  json_null : Json;
  json_get_str : string → Json → option string;
}.

(** ** Messages ([llm/mod.rs]) *)

Inductive MsgRole := RoleUser | RoleAssistant.

Inductive ContentBlock `{!JsonLib} :=
  | PartText (text : string)
  | ToolUse (id name : string) (input : Json)
  | ToolResult (tool_use_id content : string) (is_error : bool)
  | PartImage (hash media_type : string) (data_base64 : option string)
  | Reasoning (text : string) (signature : option string).

Inductive MessageContent `{!JsonLib} :=
  | MText (text : string)
  | MBlocks (blocks : list ContentBlock).

Record Message `{!JsonLib} := { msg_role : MsgRole; msg_content : MessageContent }.

Record HydrationState `{!JsonLib} := {
  hs_messages : list Message;
  hs_assistant_text : option string;
  hs_assistant_reasoning : list (string * option string);
  hs_tool_uses : list ContentBlock;
  hs_tool_results : list ContentBlock;
  hs_user_shell_pending : gmap BlockId string;
}.
#[export] Instance HydrationState_settable `{!JsonLib} : Settable HydrationState := λ s,
  {| hs_messages := hs_messages s; hs_assistant_text := hs_assistant_text s;
     hs_assistant_reasoning := hs_assistant_reasoning s; hs_tool_uses := hs_tool_uses s;
     hs_tool_results := hs_tool_results s;
     hs_user_shell_pending := hs_user_shell_pending s |}.

Section wire.
Context {json : JsonLib} {blib : BlockLib} {uuids : UuidCrate} {serde : SerdeJson}.
Implicit Types (st : HydrationState) (msg : Message) (block : BlockSnapshot).

Definition msg_user (text : string) : Message :=
  {| msg_role := RoleUser; msg_content := MText text |}.
Definition msg_assistant (text : string) : Message :=
  {| msg_role := RoleAssistant; msg_content := MText text |}.
Definition msg_tool_results (results : list ContentBlock) : Message :=
  {| msg_role := RoleUser; msg_content := MBlocks results |}.

Definition with_reasoning_text_and_tool_uses (reasoning : list (string * option string))
    (text : option string) (tool_uses : list ContentBlock) : Message :=
  {| msg_role := RoleAssistant;
     msg_content := MBlocks (
       omap (λ r, if bool_decide (r.1 = "") then None else Some (Reasoning r.1 r.2)) reasoning
       ++ match text with Some t => [PartText t] | None => [] end
       ++ tool_uses) |}.

(** ** Flushing *)

Definition hs_new : HydrationState :=
  {| hs_messages := []; hs_assistant_text := None; hs_assistant_reasoning := [];
     hs_tool_uses := []; hs_tool_results := []; hs_user_shell_pending := ∅ |}.

(** [self.messages.push(msg)]. *)
Definition push_msg msg st : HydrationState := st <| hs_messages := hs_messages st ++ [msg] |>.

Definition flush_assistant st : HydrationState :=
  let reasoning := hs_assistant_reasoning st in
  let text := hs_assistant_text st in
  let tool_uses := hs_tool_uses st in
  let st := st <| hs_assistant_reasoning := [] |> in
  match text, tool_uses with
  | None, [] => st
  | _, _ =>
      let st := st <| hs_assistant_text := None |> <| hs_tool_uses := [] |> in
      match reasoning, tool_uses with
      | [], [] => match text with Some t => push_msg (msg_assistant t) st | None => st end
      | _, _ => push_msg (with_reasoning_text_and_tool_uses reasoning text tool_uses) st
      end
  end.

Definition flush_tool_results st : HydrationState :=
  match hs_tool_results st with
  | [] => st
  | results => push_msg (msg_tool_results results) (st <| hs_tool_results := [] |>)
  end.

Definition flush_all st : HydrationState := flush_tool_results (flush_assistant st).

(** [self.flush_all(); self.messages.push(msg)]. *)
Definition standalone msg st : HydrationState := push_msg msg (flush_all st).

Definition push_seam (archived : Z) st : HydrationState :=
  standalone (msg_user ("[" +:+ show_uint archived +:+ " blocks archived]")) st.

(** ** [translate_block] *)

(** The early returns: [true] when the block goes on to the dispatch. *)
Definition translatable block : bool :=
  negb (sn_compacted block) && negb (sn_ephemeral block) && negb (sn_excluded block) &&
  negb (bool_decide (sn_kind block ∈ [KFile; KTrace])) &&
  (negb (bool_decide (sn_role block = System)) ||
   bool_decide (sn_kind block ∈ [KDrift; KError; KNotification; KResource])) &&
  (negb (bool_decide (sn_content block = "")) ||
   bool_decide (sn_kind block ∈ [KToolCall; KToolResult; KError; KNotification; KResource])).

(** The code of a shell command: the [code] of its input, or its content. *)
Definition shell_code block : string :=
  default (sn_content block)
    (s ← sn_tool_input block; v ← json_parse s; json_get_str "code" v).

Definition on_user_tool_call block st : HydrationState :=
  let st := flush_all st in
  st <| hs_user_shell_pending := <[sn_id block := shell_code block]> (hs_user_shell_pending st) |>.

Definition on_thinking block st : HydrationState :=
  match sn_signature block with
  | None => st
  | Some signature =>
      let st := flush_tool_results st in
      st <| hs_assistant_reasoning :=
        hs_assistant_reasoning st ++ [(sn_content block, Some signature)] |>
  end.

Definition on_model_text block st : HydrationState :=
  let st := flush_tool_results st in
  st <| hs_assistant_text := Some match hs_assistant_text st with
                                  | Some text => text +:+ nl +:+ sn_content block
                                  | None => sn_content block
                                  end |>.

Definition tool_use_of block : ContentBlock :=
  ToolUse (default (to_key (sn_id block)) (sn_tool_use_id block))
    (default "" (sn_tool_name block))
    (default json_null (s ← sn_tool_input block; json_parse s)).

Definition on_model_tool_call block st : HydrationState :=
  let st := flush_tool_results st in
  st <| hs_tool_uses := hs_tool_uses st ++ [tool_use_of block] |>.

Definition on_asset_text block st : HydrationState :=
  if bool_decide (sn_content_type block = Image) then
    standalone {| msg_role := RoleUser;
                  msg_content := MBlocks [PartImage (sn_content block)
                                            (ContentType_as_mime Image) None] |} st
  else st.

Definition on_tool_text block st : HydrationState :=
  if bool_decide (sn_content_type block ∈ [Svg; Abc])
  then standalone (msg_user (format_tool_content_for_llm block)) st
  else st.

(** [stdout] and [stderr] together. *)
Definition tool_output block : string :=
  match sn_stderr block with
  | Some err =>
      if bool_decide (err = "") then sn_content block
      else if bool_decide (sn_content block = "") then err
      else sn_content block +:+ nl +:+ err
  | None => sn_content block
  end.

Definition result_use_id block : string :=
  match sn_tool_use_id block with
  | Some id => id
  | None => default (to_key (sn_id block)) (to_key <$> sn_tool_call_id block)
  end.

Definition tool_result_of block : ContentBlock :=
  ToolResult (result_use_id block) (tool_output block) (sn_is_error block).

Definition shell_report (code : string) block : string :=
  let output := trim (sn_content block) in
  let head := "[User ran `" +:+ code +:+ "`]" in
  if bool_decide (output = "") then head else head +:+ nl +:+ output.

Definition on_tool_result block st : HydrationState :=
  match (id ← sn_tool_call_id block; hs_user_shell_pending st !! id) with
  | Some code =>
      let st := match sn_tool_call_id block with
                | Some id => st <| hs_user_shell_pending := delete id (hs_user_shell_pending st) |>
                | None => st
                end in
      standalone (msg_user (shell_report code block)) st
  | None =>
      let st := flush_assistant st in
      st <| hs_tool_results := hs_tool_results st ++ [tool_result_of block] |>
  end.

Definition drift_report block : string :=
  "[" +:+ default "drift" (DriftKind_as_str <$> sn_drift_kind block) +:+ " from context " +:+
  default "unknown" ((λ c, id_short (context_uuid c)) <$> sn_source_context block) +:+ "]" +:+
  nl +:+ nl +:+ sn_content block.

(** Append [envelope] to the first result for [target]; [None] when there is none. *)
Fixpoint fold_error (target envelope : string) (results : list ContentBlock) :
    option (list ContentBlock) :=
  match results with
  | [] => None
  | ToolResult id content e :: results' =>
      if bool_decide (id = target)
      then Some (ToolResult id (content +:+ nl +:+ nl +:+ envelope) e :: results')
      else cons (ToolResult id content e) <$> fold_error target envelope results'
  | r :: results' => cons r <$> fold_error target envelope results'
  end.

Definition on_error block (parent : option BlockSnapshot) st : HydrationState :=
  let envelope := format_error_for_llm block in
  let alone := standalone (msg_user envelope) st in
  match parent with
  | Some p =>
      if bool_decide (sn_kind p = KToolResult) then
        match (target ← sn_tool_use_id p; fold_error target envelope (hs_tool_results st)) with
        | Some results => st <| hs_tool_results := results |>
        | None => alone
        end
      else alone
  | None => alone
  end.

Definition dispatch block (parent : option BlockSnapshot) st : HydrationState :=
  match sn_role block, sn_kind block with
  | User, KText => standalone (msg_user (sn_content block)) st
  | User, KToolCall => on_user_tool_call block st
  | _, KThinking => on_thinking block st
  | Model, KText => on_model_text block st
  | Model, KToolCall => on_model_tool_call block st
  | Asset, KText => on_asset_text block st
  | Tool, KText => on_tool_text block st
  | Tool, KToolResult => on_tool_result block st
  | _, KDrift => standalone (msg_user (drift_report block)) st
  | _, KError => on_error block parent st
  | _, KNotification => standalone (msg_user (format_notification_for_llm block)) st
  | _, KResource => standalone (msg_user (format_resource_for_llm block)) st
  | _, _ => st
  end.

Definition translate_block block (parent : option BlockSnapshot) st : HydrationState :=
  if translatable block then dispatch block parent st else st.

(** ** [into_messages] *)

(** The ids of the tool uses of an assistant message, of the results of a user's. *)
Definition use_id (b : ContentBlock) : option string :=
  match b with ToolUse id _ _ => Some id | _ => None end.
Definition result_id (b : ContentBlock) : option string :=
  match b with ToolResult id _ _ => Some id | _ => None end.

Definition tool_use_ids msg : list string :=
  match msg_role msg, msg_content msg with
  | RoleAssistant, MBlocks l => omap use_id l
  | _, _ => []
  end.
Definition tool_result_ids msg : list string :=
  match msg_role msg, msg_content msg with
  | RoleUser, MBlocks l => omap result_id l
  | _, _ => []
  end.

Definition interrupted (id : string) : ContentBlock :=
  ToolResult id "Tool execution was interrupted (context was forked or pruned)" true.

(** [blocks.extend(error_results)], if the message holds blocks. *)
Definition extend_blocks (more : list ContentBlock) msg : Message :=
  match msg_content msg with
  | MBlocks l => {| msg_role := msg_role msg; msg_content := MBlocks (l ++ more) |}
  | MText _ => msg
  end.

(** Pass 1: each tool use without a result in the next message gets a synthetic one. *)
Fixpoint repair_forward (msgs : list Message) : list Message :=
  match msgs with
  | [] => []
  | msg :: rest =>
      let covered := match rest with next :: _ => tool_result_ids next | [] => [] end in
      let missing := filter (λ id, id ∉ covered) (tool_use_ids msg) in
      match missing, covered, rest with
      | [], _, _ => msg :: repair_forward rest
      | _, [], _ => msg :: msg_tool_results (interrupted <$> missing) :: repair_forward rest
      | _, _, next :: rest' =>
          msg :: extend_blocks (interrupted <$> missing) next :: repair_forward rest'
      | _, _, [] => [msg]
      end
  end.

(** The filter of pass 2: a tool result stays when its use is in [uses]. *)
Definition answers (uses : list string) (b : ContentBlock) : bool :=
  match b with ToolResult id _ _ => bool_decide (id ∈ uses) | _ => true end.

(** What pass 2 makes of one message: [None] skips it. *)
Definition strip_results (uses : list string) msg : option Message :=
  match msg_role msg, msg_content msg with
  | RoleUser, MBlocks l =>
      match filter (λ b, answers uses b = true) l with
      | [] => None
      | kept => Some {| msg_role := RoleUser; msg_content := MBlocks kept |}
      end
  | _, _ => Some msg
  end.

(** Pass 2, at the message [idx] of the repaired list: the message before it is
    looked up in [cleaned], at [idx - 1]. *)
Fixpoint repair_reverse (idx : nat) (cleaned repaired : list Message) : list Message :=
  match repaired with
  | [] => cleaned
  | msg :: rest =>
      let uses := match idx with
                  | O => []
                  | S prev => match cleaned !! prev with
                              | Some m => tool_use_ids m
                              | None => []
                              end
                  end in
      match strip_results uses msg with
      | Some m => repair_reverse (S idx) (cleaned ++ [m]) rest
      | None => repair_reverse (S idx) cleaned rest
      end
  end.

Definition into_messages st : list Message :=
  repair_reverse 0 [] (repair_forward (hs_messages (flush_all st))).

(** ** [hydrate_from_blocks] *)

(** [by_id.get(&pid)], the map built from the whole log (the last block wins). *)
Definition parent_in (blocks : list BlockSnapshot) block : option BlockSnapshot :=
  pid ← sn_parent_id block; last (filter (λ b, sn_id b = pid) blocks).

Definition translate_in (blocks : list BlockSnapshot) st block : HydrationState :=
  translate_block block (parent_in blocks block) st.

Definition hydrate_state (blocks : list BlockSnapshot) : HydrationState :=
  foldl (translate_in blocks) hs_new blocks.

Definition hydrate_from_blocks (blocks : list BlockSnapshot) : list Message :=
  into_messages (hydrate_state blocks).
End wire.
