(* ===== verification/WirePairing.v ===== *)
(** * Tool uses and tool results on the wire

    Every history the hydration machine of [Wire.v] can build: the shape of its
    messages, and what the two repair passes of [into_messages] make of them. *)

From S2P Require Import Prelude Text Ids Track Cas Cell Block Hydrate Wire.

Section pairing.
Context {json : JsonLib} {blib : BlockLib} {uuids : UuidCrate} {serde : SerdeJson}.
Implicit Types (st : HydrationState) (msg : Message) (msgs : list Message).

(** The states of a session: blocks folded in and seams, in any order. *)
Inductive hydrating : HydrationState → Prop :=
  | hyd_new : hydrating hs_new
  | hyd_block block parent st : hydrating st → hydrating (translate_block block parent st)
  | hyd_seam n st : hydrating st → hydrating (push_seam n st).

(** ** Shapes *)

Definition is_use (b : ContentBlock) : Prop := use_id b ≠ None.
Definition is_result (b : ContentBlock) : Prop := result_id b ≠ None.

(** A user message is text, one image or tool results; an assistant message is text,
    or blocks none of which is a tool result. No message is without blocks. *)
Definition message_ok msg : Prop :=
  match msg_role msg, msg_content msg with
  | _, MText _ => True
  | RoleUser, MBlocks l =>
      l ≠ [] ∧ (Forall is_result l ∨ ∃ h m d, l = [PartImage h m d])
  | RoleAssistant, MBlocks l => l ≠ [] ∧ Forall (λ b, ¬ is_result b) l
  end.

Record state_ok st : Prop := {
  ok_messages : Forall message_ok (hs_messages st);
  ok_uses : Forall is_use (hs_tool_uses st);
  ok_results : Forall is_result (hs_tool_results st);
}.

Lemma push_msg_ok msg st : message_ok msg → state_ok st → state_ok (push_msg msg st).
Proof. intros Hm []. split; [|done..]. by apply Forall_app_2; [|constructor]. Qed.

Lemma with_reasoning_ok r text uses :
  text ≠ None ∨ uses ≠ [] → Forall is_use uses →
  message_ok (with_reasoning_text_and_tool_uses r text uses).
Proof.
  intros Hne Hu. cbn. split.
  - intros [_ [Ht ->]%app_eq_nil]%app_eq_nil. by destruct text, Hne.
  - apply Forall_app; split; [|apply Forall_app; split].
    + apply Forall_forall. intros b (x&_&Hx)%list_elem_of_omap. case_bool_decide; simplify_eq.
      by intros [].
    + destruct text; [|constructor]. constructor; [by intros []|constructor].
    + eapply Forall_impl; [exact Hu|]. unfold is_use, is_result. intros []; cbn; naive_solver.
Qed.

Lemma flush_assistant_ok st : state_ok st → state_ok (flush_assistant st).
Proof.
  intros [Hm Hu Hr]. unfold flush_assistant.
  assert (state_ok (st <| hs_assistant_reasoning := [] |> <| hs_assistant_text := None |>
                       <| hs_tool_uses := [] |>)) as Hf by (by split).
  destruct (hs_assistant_text st) as [t|], (hs_tool_uses st) as [|u us] eqn:Eu;
    [..|split; cbn; by rewrite ?Eu|]; destruct (hs_assistant_reasoning st) as [|r rs];
    (apply push_msg_ok; [|exact Hf]); try done; by apply with_reasoning_ok; [naive_solver|].
Qed.

Lemma flush_tool_results_ok st : state_ok st → state_ok (flush_tool_results st).
Proof.
  intros [Hm Hu Hr]. unfold flush_tool_results.
  destruct (hs_tool_results st) as [|r rs] eqn:E; [by split; rewrite ?E|].
  apply push_msg_ok; [|by split]. split; [done|]. by left.
Qed.

Lemma flush_all_ok st : state_ok st → state_ok (flush_all st).
Proof. unfold flush_all. auto using flush_tool_results_ok, flush_assistant_ok. Qed.
Hint Resolve push_msg_ok flush_assistant_ok flush_tool_results_ok flush_all_ok : core.

Lemma standalone_ok msg st : message_ok msg → state_ok st → state_ok (standalone msg st).
Proof. unfold standalone. auto. Qed.

Lemma user_ok text : message_ok (msg_user text).
Proof. done. Qed.
Hint Resolve standalone_ok user_ok : core.

Lemma fold_error_ok target envelope l l' :
  fold_error target envelope l = Some l' → Forall is_result l → Forall is_result l'.
Proof.
  revert l'. induction l as [|b l IH]; intros l' Hf; [done|].
  intros [Hb Hl]%Forall_cons. destruct b as [| |id c e| |]; cbn in Hf; try done.
  case_bool_decide; simplify_option_eq; constructor; eauto.
Qed.

(** Fields the invariant does not mention. *)
Lemma state_ok_fields st st' :
  hs_messages st' = hs_messages st → hs_tool_uses st' = hs_tool_uses st →
  hs_tool_results st' = hs_tool_results st → state_ok st → state_ok st'.
Proof. intros E1 E2 E3 []. split; by rewrite ?E1, ?E2, ?E3. Qed.

Lemma dispatch_ok block parent st : state_ok st → state_ok (dispatch block parent st).
Proof.
  intros Hok.
  assert (state_ok (on_thinking block st)) as Ht.
  { unfold on_thinking. destruct (sn_signature block); [|done].
    by apply (state_ok_fields (flush_tool_results st)); [..|apply flush_tool_results_ok]. }
  assert (state_ok (on_error block parent st)) as He.
  { unfold on_error. destruct parent as [p|]; [|auto]. case_bool_decide; [|auto].
    destruct (sn_tool_use_id p) as [target|]; cbn; [|auto].
    destruct (fold_error _ _ _) as [l|] eqn:E; [|auto].
    destruct Hok. split; [done..|]. by eapply fold_error_ok. }
  unfold dispatch. destruct (sn_role block), (sn_kind block); auto.
  - by apply (state_ok_fields (flush_all st)); [..|apply flush_all_ok].
  - by apply (state_ok_fields (flush_tool_results st)); [..|apply flush_tool_results_ok].
  - destruct (flush_tool_results_ok st Hok) as [Hm Hu Hr]. split; [done| |done].
    by apply Forall_app_2; [|constructor].
  - unfold on_tool_text. case_bool_decide; auto.
  - unfold on_tool_result.
    destruct (id ← sn_tool_call_id block; hs_user_shell_pending st !! id).
    + apply standalone_ok; [done|]. destruct (sn_tool_call_id block); [|done].
      by apply (state_ok_fields st).
    + destruct (flush_assistant_ok st Hok) as [Hm Hu Hr]. split; [done..|].
      by apply Forall_app_2; [|constructor].
  - unfold on_asset_text. case_bool_decide; [|auto]. apply standalone_ok; [|done].
    split; [done|]. right. eauto.
Qed.

Lemma hydrating_ok st : hydrating st → state_ok st.
Proof.
  induction 1; [by split| |].
  - unfold translate_block. destruct (translatable block); auto using dispatch_ok.
  - unfold push_seam. auto.
Qed.

(** ** Pairing *)

(** Every tool use has a result in the message after it. *)
Fixpoint answered msgs : Prop :=
  match msgs with
  | [] => True
  | m :: rest =>
      (∀ id, id ∈ tool_use_ids m →
         id ∈ match rest with n :: _ => tool_result_ids n | [] => [] end) ∧
      answered rest
  end.

(** Every tool result has its use in the message before it; [uses] is what comes
    before the list. *)
Fixpoint requested (uses : list string) msgs : Prop :=
  match msgs with
  | [] => True
  | m :: rest =>
      (∀ id, id ∈ tool_result_ids m → id ∈ uses) ∧ requested (tool_use_ids m) rest
  end.

(** No message consists of late results only: one that has results answers a use of
    the message before it. *)
Fixpoint on_time (uses : list string) msgs : Prop :=
  match msgs with
  | [] => True
  | m :: rest =>
      (tool_result_ids m = [] ∨ ∃ id, id ∈ tool_result_ids m ∧ id ∈ uses) ∧
      on_time (tool_use_ids m) rest
  end.

(** The messages that carry no results. *)
Abbreviation spoken := (filter (λ m, tool_result_ids m = [])).

Lemma omap_interrupted (ids : list string) : omap result_id (interrupted <$> ids) = ids.
Proof. induction ids; cbn; congruence. Qed.

Lemma results_synthetic (ids : list string) : tool_result_ids (msg_tool_results (interrupted <$> ids)) = ids.
Proof. apply omap_interrupted. Qed.

Lemma extend_results msg (ids : list string) :
  tool_result_ids msg ≠ [] →
  tool_result_ids (extend_blocks (interrupted <$> ids) msg) = tool_result_ids msg ++ ids ∧
  tool_use_ids (extend_blocks (interrupted <$> ids) msg) = [] ∧ tool_use_ids msg = [].
Proof.
  unfold tool_result_ids, tool_use_ids, extend_blocks.
  destruct msg as [[] [|l]]; cbn; try done. intros _.
  by rewrite omap_app, omap_interrupted.
Qed.

(** The first message is never changed; the case analysis of pass 1. *)
Lemma repair_forward_ind (P : list Message → list Message → Prop) :
  P [] [] →
  (∀ m rest, (∀ id, id ∈ tool_use_ids m →
     id ∈ match rest with n :: _ => tool_result_ids n | [] => [] end) →
     P rest (repair_forward rest) → P (m :: rest) (m :: repair_forward rest)) →
  (∀ m rest ids, ids ≠ [] → (∀ id, id ∈ ids ↔ id ∈ tool_use_ids m) →
     match rest with n :: _ => tool_result_ids n = [] | [] => True end →
     P rest (repair_forward rest) →
     P (m :: rest) (m :: msg_tool_results (interrupted <$> ids) :: repair_forward rest)) →
  (∀ m n rest ids, tool_result_ids n ≠ [] →
     (∀ id, id ∈ tool_use_ids m ↔ id ∈ ids ∨ id ∈ tool_use_ids m ∧ id ∈ tool_result_ids n) →
     P rest (repair_forward rest) →
     P (m :: n :: rest) (m :: extend_blocks (interrupted <$> ids) n :: repair_forward rest)) →
  ∀ msgs, P msgs (repair_forward msgs).
Proof.
  intros H0 H1 H2 H3. fix IH 1. intros [|m rest]; [exact H0|].
  cbn [repair_forward].
  set (covered := match rest with n :: _ => tool_result_ids n | [] => [] end).
  pose proof (list_elem_of_filter (λ id, id ∉ covered) (tool_use_ids m)) as Hf.
  destruct (filter (λ id, id ∉ covered) (tool_use_ids m)) as [|i ids] eqn:Em.
  - apply H1; [|apply IH]. intros id Hid. destruct (decide (id ∈ covered)); [done|].
    exfalso. apply (not_elem_of_nil id), Hf. done.
  - destruct covered as [|c cs] eqn:Ec; subst covered.
    + apply H2; [done| |by destruct rest|apply IH].
      intros id. rewrite Hf. split; [by intros []|]. by split; [apply not_elem_of_nil|].
    + destruct rest as [|n rest]; [done|]. apply H3; [by rewrite Ec| |apply IH].
      intros id. rewrite Hf, <- Ec. destruct (decide (id ∈ tool_result_ids n)); naive_solver.
Qed.

Lemma repair_forward_head m rest : ∃ rest', repair_forward (m :: rest) = m :: rest'.
Proof.
  cbn [repair_forward]. destruct (filter _ _); [eauto|].
  destruct rest as [|n rest]; [eauto|]. destruct (tool_result_ids n); eauto.
Qed.

Lemma repair_forward_ok msgs : Forall message_ok msgs → Forall message_ok (repair_forward msgs).
Proof.
  assert (∀ ids : list string, Forall is_result (interrupted <$> ids)) as Hi.
  { intros ids. apply Forall_fmap, Forall_forall. done. }
  apply (repair_forward_ind (λ msgs out, Forall message_ok msgs → Forall message_ok out));
    [done|intros m rest H IH|intros m rest ids Hne Hids H IH|intros m n rest ids Hn H IH].
  - intros [??]%Forall_cons. constructor; auto.
  - intros [??]%Forall_cons. constructor; [done|]. constructor; [|auto].
    split; [by destruct ids|]. by left.
  - intros [? [Hok ?]%Forall_cons]%Forall_cons. constructor; [done|]. constructor; [|auto].
    revert Hn Hok. unfold message_ok, extend_blocks, tool_result_ids.
    destruct n as [[] [t|l]]; cbn; try done. intros Hn [Hne [Hl|(h'&mt&d&->)]]; [|done].
    split; [by intros [? _]%app_eq_nil|]. left. by apply Forall_app_2.
Qed.

(** Pass 1 answers everything. *)
Lemma repair_forward_answered msgs : answered (repair_forward msgs).
Proof.
  apply (repair_forward_ind (λ _ out, answered out)); [done|intros m rest H IH
    |intros m rest ids Hne Hids H IH|intros m n rest ids Hn H IH].
  - split; [|done]. destruct rest as [|n rest]; [done|].
    destruct (repair_forward_head n rest) as [? ->]. done.
  - split; [|split; [|done]].
    + intros id. by rewrite results_synthetic, Hids.
    + intros id Hid. exfalso. by apply not_elem_of_nil in Hid.
  - destruct (extend_results n ids Hn) as (Er&Eu&_). split; [|split; [|done]].
    + intros id Hid%H. rewrite Er, elem_of_app. naive_solver.
    + rewrite Eu. by intros id Hid%not_elem_of_nil.
Qed.

Lemma repair_forward_spoken msgs : spoken (repair_forward msgs) = spoken msgs.
Proof.
  apply (repair_forward_ind (λ msgs out, spoken out = spoken msgs)); [done|intros m rest H IH
    |intros m rest ids Hne Hids H IH|intros m n rest ids Hn H IH]; rewrite !filter_cons.
  - by rewrite IH.
  - rewrite IH, (decide_False (P := tool_result_ids (msg_tool_results _) = [])); [done|].
    by rewrite results_synthetic.
  - destruct (extend_results n ids Hn) as (Er&_). rewrite IH.
    rewrite !(decide_False (P := tool_result_ids n = [])) by done.
    rewrite (decide_False (P := tool_result_ids (extend_blocks _ _) = [])); [done|].
    rewrite Er. by intros [? _]%app_eq_nil.
Qed.

(** What pass 2 keeps of a message answers [uses]; its uses stay. *)
Lemma strip_results_Some uses m m' :
  strip_results uses m = Some m' →
  tool_use_ids m' = tool_use_ids m ∧
  (∀ id, id ∈ tool_result_ids m' ↔ id ∈ tool_result_ids m ∧ id ∈ uses).
Proof.
  unfold strip_results, tool_use_ids, tool_result_ids.
  destruct m as [[] [t|l]]; cbn; try (intros [= <-]; cbn; set_solver).
  destruct (filter _ l) as [|b bs] eqn:E; [done|]. intros [= <-]. cbn [msg_role msg_content].
  rewrite <- E. split; [done|]. intros id. rewrite !list_elem_of_omap.
  setoid_rewrite list_elem_of_filter. split.
  - intros ([]&[Ha Hb]&Hr); cbn in Hr; simplify_eq. cbn in Ha.
    apply bool_decide_eq_true in Ha. eauto.
  - intros [([]&Hb&Hr) Hu]; cbn in Hr; simplify_eq. eexists. split_and!; [|done|done].
    cbn. by apply bool_decide_eq_true.
Qed.

Definition uses_after (uses : list string) msgs : list string :=
  match last msgs with Some m => tool_use_ids m | None => uses end.

Lemma requested_snoc uses msgs m :
  requested uses (msgs ++ [m]) ↔
    requested uses msgs ∧ ∀ id, id ∈ tool_result_ids m → id ∈ uses_after uses msgs.
Proof.
  revert uses. induction msgs as [|k msgs IH]; intros uses; cbn [requested app]; [naive_solver|].
  rewrite IH. replace (uses_after uses (k :: msgs)) with (uses_after (tool_use_ids k) msgs);
    [tauto|]. unfold uses_after. rewrite last_cons. by destruct (last msgs).
Qed.

(** The uses looked up by pass 2: those of the last kept message, or none. *)
Definition looked_up (idx : nat) (cleaned : list Message) : list string :=
  match idx with
  | O => []
  | S prev => match cleaned !! prev with Some m => tool_use_ids m | None => [] end
  end.

Lemma looked_up_last idx cleaned :
  (length cleaned ≤ idx)%nat →
  looked_up idx cleaned = [] ∨
  length cleaned = idx ∧ looked_up idx cleaned = uses_after [] cleaned.
Proof.
  intros Hle. destruct idx as [|prev]; cbn; [by left|].
  destruct (decide (length cleaned = S prev)) as [He|Hne].
  - right. split; [done|]. unfold uses_after. rewrite last_lookup, He. cbn.
    by destruct (cleaned !! prev).
  - left. by rewrite lookup_ge_None_2 by lia.
Qed.

(** Pass 2 leaves no unrequested result, whatever it is given. *)
Lemma repair_reverse_requested idx cleaned msgs :
  (length cleaned ≤ idx)%nat → requested [] cleaned →
  requested [] (repair_reverse idx cleaned msgs).
Proof.
  revert idx cleaned. induction msgs as [|m msgs IH]; intros idx cleaned Hle Hreq; [done|].
  cbn [repair_reverse]. fold (looked_up idx cleaned).
  destruct (strip_results _ m) as [m'|] eqn:E; apply IH; try done; try (rewrite ?length_app; cbn; lia).
  apply requested_snoc. split; [done|]. intros id Hid.
  apply (strip_results_Some _ _ _ E) in Hid as [_ Hid].
  destruct (looked_up_last idx cleaned Hle) as [Hn|[_ Hl]]; [|by rewrite <- Hl].
  rewrite Hn in Hid. by apply not_elem_of_nil in Hid.
Qed.

(** Under [message_ok] only messages of results can be skipped. *)
Lemma strip_results_spoken uses m :
  message_ok m → spoken [m] = match strip_results uses m with Some m' => spoken [m'] | None => [] end.
Proof.
  unfold message_ok, strip_results. rewrite filter_cons, filter_nil.
  destruct m as [[] [t|l]]; cbn [msg_role msg_content]; try done.
  intros [Hne [Hl|(h&mt&d&->)]]; [|done].
  assert (∀ k, k ≠ [] → Forall is_result k →
            tool_result_ids {| msg_role := RoleUser; msg_content := MBlocks k |} ≠ []) as Hr.
  { intros [|b k] Hk Hb; [done|]. apply Forall_cons in Hb as [Hb _]. unfold is_result in Hb.
    cbn. by destruct (result_id b). }
  rewrite decide_False by auto.
  destruct (filter _ l) as [|b k] eqn:E; [done|]. rewrite filter_cons, filter_nil.
  rewrite decide_False; [done|]. apply Hr; [done|]. rewrite <- E.
  apply Forall_forall. intros x [_ Hx]%list_elem_of_filter. by eapply Forall_forall in Hl.
Qed.

Lemma repair_reverse_spoken idx cleaned msgs :
  Forall message_ok msgs → spoken (repair_reverse idx cleaned msgs) = spoken (cleaned ++ msgs).
Proof.
  intros Hok. revert idx cleaned. induction Hok as [|m msgs Hm _ IH]; intros idx cleaned.
  { by rewrite app_nil_r. }
  cbn [repair_reverse]. fold (looked_up idx cleaned).
  pose proof (strip_results_spoken (looked_up idx cleaned) m Hm) as Hs.
  replace (m :: msgs) with ([m] ++ msgs) by done. rewrite app_assoc, !filter_app, Hs.
  destruct (strip_results _ m); rewrite IH, !filter_app; [done|]. by rewrite app_nil_r.
Qed.

(** When nothing is skipped, the lookup of pass 2 finds the message before. *)
Fixpoint strip_all (uses : list string) msgs : option (list Message) :=
  match msgs with
  | [] => Some []
  | m :: rest =>
      m' ← strip_results uses m; rest' ← strip_all (tool_use_ids m) rest; Some (m' :: rest')
  end.

Lemma repair_reverse_strip cleaned msgs out :
  strip_all (uses_after [] cleaned) msgs = Some out →
  repair_reverse (length cleaned) cleaned msgs = cleaned ++ out.
Proof.
  revert cleaned out. induction msgs as [|m msgs IH]; intros cleaned out; cbn [strip_all].
  { intros [= <-]. by rewrite app_nil_r. }
  intros (m'&Hm&(rest&Hrest&[= <-])%bind_Some)%bind_Some.
  cbn [repair_reverse]. fold (looked_up (length cleaned) cleaned).
  assert (looked_up (length cleaned) cleaned = uses_after [] cleaned) as Hl.
  { destruct (looked_up_last (length cleaned) cleaned) as [Hn|[_ Hl]]; [done| |done].
    destruct cleaned as [|k cleaned _] using rev_ind; [done|]. revert Hn. unfold uses_after.
    rewrite last_snoc, length_app, Nat.add_comm. cbn. by rewrite list_lookup_middle. }
  rewrite Hl, Hm. replace (S (length cleaned)) with (length (cleaned ++ [m']))
    by (rewrite length_app; cbn; lia).
  rewrite (IH _ rest); [by rewrite <- app_assoc|]. unfold uses_after. rewrite last_snoc.
  by rewrite (proj1 (strip_results_Some _ _ _ Hm)).
Qed.

Lemma strip_all_answered uses msgs out :
  strip_all uses msgs = Some out → answered msgs → answered out.
Proof.
  revert uses out. induction msgs as [|m msgs IH]; intros uses out; cbn [strip_all].
  { by intros [= <-]. }
  intros (m'&Hm&(rest&Hrest&[= <-])%bind_Some)%bind_Some [Ha Hrec].
  split; [|by eapply IH]. intros id. rewrite (proj1 (strip_results_Some _ _ _ Hm)).
  intros Hid. specialize (Ha id Hid). destruct msgs as [|n msgs]; [by apply not_elem_of_nil in Ha|].
  cbn [strip_all] in Hrest.
  apply bind_Some in Hrest as (n'&Hn&(rest'&_&[= <-])%bind_Some).
  by apply (strip_results_Some _ _ _ Hn).
Qed.

Lemma strip_results_kept uses m :
  (∃ id, id ∈ tool_result_ids m ∧ id ∈ uses) → is_Some (strip_results uses m).
Proof.
  unfold strip_results, tool_result_ids. destruct m as [[] [t|l]]; cbn [msg_role msg_content]; eauto.
  intros (id&(b&Hb&Hr)%list_elem_of_omap&Hu).
  destruct (filter _ l) eqn:E; [|eauto]. exfalso. apply (not_elem_of_nil b). rewrite <- E.
  apply list_elem_of_filter. split; [|done]. destruct b; cbn in Hr; simplify_eq.
  by apply bool_decide_eq_true.
Qed.

Lemma strip_results_silent uses m :
  message_ok m → tool_result_ids m = [] → is_Some (strip_results uses m).
Proof.
  intros Hok Hn. pose proof (strip_results_spoken uses m Hok) as Hs.
  rewrite filter_cons_True in Hs by done. destruct (strip_results uses m); [eauto|done].
Qed.

(** Pass 2 keeps everything pass 1 repaired, when no message is only late results. *)
Lemma on_time_kept msgs uses :
  Forall message_ok msgs → on_time uses msgs → is_Some (strip_all uses (repair_forward msgs)).
Proof.
  intros Hok. revert uses Hok.
  apply (repair_forward_ind (λ msgs out, ∀ uses, Forall message_ok msgs → on_time uses msgs →
    is_Some (strip_all uses out))); [by eexists|..].
  - intros m rest _ IH uses [Hm Hok]%Forall_cons [Ht Hrest].
    assert (is_Some (strip_results uses m)) as [m' Hm'].
    { destruct Ht; auto using strip_results_silent, strip_results_kept. }
    destruct (IH _ Hok Hrest) as [out Hout]. cbn. rewrite Hm'. cbn. rewrite Hout. by eexists.
  - intros m rest ids Hne Hids Hn IH uses [Hm Hok]%Forall_cons [Ht Hrest].
    assert (is_Some (strip_results uses m)) as [m' Hm'].
    { destruct Ht; auto using strip_results_silent, strip_results_kept. }
    assert (is_Some (strip_results (tool_use_ids m) (msg_tool_results (interrupted <$> ids))))
      as [r Hr].
    { apply strip_results_kept. destruct ids as [|id ids]; [done|]. exists id.
      rewrite results_synthetic, <- Hids. split; apply list_elem_of_here. }
    assert (on_time [] rest) as Hrest'.
    { destruct rest as [|n rest]; [done|]. destruct Hrest as [_ ?]. split; [by left|done]. }
    destruct (IH _ Hok Hrest') as [out Hout].
    cbn [strip_all]. rewrite Hm'. cbn [mbind option_bind]. rewrite Hr. cbn.
    change (tool_use_ids (msg_tool_results (interrupted <$> ids))) with (@nil string).
    rewrite Hout. by eexists.
  - intros m n rest ids Hn Hids IH uses [Hm [Hnok Hok]%Forall_cons]%Forall_cons [Ht [Hnt Hrest]].
    assert (is_Some (strip_results uses m)) as [m' Hm'].
    { destruct Ht; auto using strip_results_silent, strip_results_kept. }
    destruct (extend_results n ids Hn) as (Er&Eu&Eu').
    assert (is_Some (strip_results (tool_use_ids m) (extend_blocks (interrupted <$> ids) n)))
      as [n' Hn'].
    { apply strip_results_kept. destruct Hnt as [?|(id&Hid&Hu)]; [done|]. exists id.
      by rewrite Er, elem_of_app; auto. }
    rewrite Eu' in Hrest. destruct (IH _ Hok Hrest) as [out Hout].
    cbn [strip_all]. rewrite Hm'. cbn [mbind option_bind]. rewrite Hn'. cbn [mbind option_bind].
    rewrite Eu, Hout. by eexists.
Qed.

Lemma strip_results_ok uses m m' : strip_results uses m = Some m' → message_ok m → message_ok m'.
Proof.
  unfold strip_results, message_ok. destruct m as [[] [t|l]]; cbn [msg_role msg_content];
    try (by intros [= <-]).
  destruct (filter _ l) as [|b k] eqn:E; [done|]. intros [= <-] [_ Hl].
  cbn [msg_role msg_content]. split; [done|]. rewrite <- E. destruct Hl as [Hl|(h&mt&d&->)].
  - left. apply Forall_forall. intros x [_ Hx]%list_elem_of_filter. by eapply Forall_forall in Hl.
  - right. exists h, mt, d. done.
Qed.

Lemma repair_reverse_ok idx cleaned msgs :
  Forall message_ok cleaned → Forall message_ok msgs →
  Forall message_ok (repair_reverse idx cleaned msgs).
Proof.
  intros Hc Hok. revert idx cleaned Hc. induction Hok as [|m msgs Hm _ IH]; [done|].
  intros idx cleaned Hc. cbn [repair_reverse]. destruct (strip_results _ m) as [m'|] eqn:E; [|auto].
  apply IH, Forall_app_2; [done|]. constructor; [|done]. by eapply strip_results_ok.
Qed.

Abbreviation pending st := (hs_messages (flush_all st)).

Lemma pending_ok st : hydrating st → Forall message_ok (pending st).
Proof. intros H. by apply ok_messages, flush_all_ok, hydrating_ok. Qed.

(** C5: whatever blocks and seams a session has folded in, in any order, the history
    it sends is paired: every tool result answers a tool use of the message just
    before it; the messages without results are all there, in order and unchanged;
    and, when no pending message consists of late results only, every tool use is
    answered in the message just after it. *)
Theorem hydration_pairing st (H : hydrating st) :
  requested [] (into_messages st) ∧
  spoken (into_messages st) = spoken (pending st) ∧
  (on_time [] (pending st) → answered (into_messages st)).
Proof.
  unfold into_messages. pose proof (pending_ok st H) as Hok. split_and!.
  - by apply repair_reverse_requested.
  - rewrite repair_reverse_spoken; [apply repair_forward_spoken|].
    by apply repair_forward_ok.
  - intros [out Hout]%on_time_kept; [|done].
    replace (repair_reverse _ _ _) with out by (symmetry; apply (repair_reverse_strip [] _ out Hout)).
    eapply strip_all_answered; [done|]. apply repair_forward_answered.
Qed.

(** C40: the messages of a session are well formed, pending and sent: none is empty,
    a user message is text, one image or tool results, and no assistant message
    carries a tool result; and what waits to be flushed is only tool uses on the one
    side and only tool results on the other. *)
Theorem hydration_well_formed st (H : hydrating st) :
  state_ok st ∧ Forall message_ok (into_messages st).
Proof.
  split; [by apply hydrating_ok|]. apply repair_reverse_ok; [done|].
  by apply repair_forward_ok, pending_ok.
Qed.
End pairing.
