(* ===== verification/Splice.v ===== *)
(** * Cutting and joining the block log ([kaijutsu-kernel/src/llm/splice.rs])

    A selection over the log answers which blocks are kept; the plan built here
    keeps whole turns and marks each gap with a seam. An index out of range is
    [None]: the Rust code would panic. *)

From S2P Require Import Prelude Text Ids Track Cas Cell Block Selection.

Inductive SpliceItem := Keep (i : Z) | Seam (archived : Z).

Section splice.
Context {json : JsonLib} {blib : BlockLib}.
Implicit Types (blocks : list BlockSnapshot) (r : Range) (plan : list SpliceItem).

Definition is_turn_start (b : BlockSnapshot) : bool := bool_decide (sn_role b = User).

Fixpoint snap_start blocks (i : nat) : option nat :=
  match i with
  | O => Some O
  | S i' => b ← blocks !! i; if is_turn_start b then Some i else snap_start blocks i'
  end.

(** How far the loop of [snap_end] walks. *)
Fixpoint turn_rest blocks : nat :=
  match blocks with
  | [] => O
  | b :: blocks' => if is_turn_start b then O else S (turn_rest blocks')
  end.

Definition snap_end blocks (hi : nat) : nat :=
  let i := Nat.min hi (length blocks) in (i + turn_rest (drop i blocks))%nat.

(** One run, clamped and snapped; [Some None] when it is dropped. *)
Definition snap_run blocks r : option (option Range) :=
  let len := Z.of_nat (length blocks) in
  let lo := Z.min (r_start r) len in
  let hi := Z.min (r_end r) len in
  if hi <=? lo then Some None
  else
    lo ← snap_start blocks (Z.to_nat lo);
    Some (Some {| r_start := Z.of_nat lo;
                  r_end := Z.of_nat (snap_end blocks (Z.to_nat hi)) |}).

(** The merging loop is the one of [IntervalSet::from_ranges]. *)
Definition merge_runs (snapped : list Range) : list Range :=
  match merge_sort range_le snapped with
  | [] => []
  | r :: rs => coalesce r rs
  end.

Fixpoint flatten_runs (prev_end : option Z) (merged : list Range) : list SpliceItem :=
  match merged with
  | [] => []
  | r :: merged' =>
      match prev_end with
      | Some e =>
          let archived := wrap_u64 (r_start r - e) in
          if 0 <? archived then [Seam archived] else []
      | None => []
      end
      ++ (Keep <$> seqZ (r_start r) (r_end r - r_start r))
      ++ flatten_runs (Some (r_end r)) merged'
  end.

Definition plan_splice blocks (keep_set : list Range) : option (list SpliceItem) :=
  snapped ← mapM (snap_run blocks) keep_set;
  Some (flatten_runs None (merge_runs (omap id snapped))).

(** ** Turns *)

(** No turn starts after the first of the two positions, up to the second. *)
Definition same_turn blocks (i j : Z) : Prop :=
  ∀ k b, Z.min i j < Z.of_nat k ≤ Z.max i j → blocks !! k = Some b → is_turn_start b = false.

Definition turn_at blocks (k : nat) : Prop :=
  ∃ b, blocks !! k = Some b ∧ is_turn_start b = true.

Lemma snap_start_spec blocks i :
  (i < length blocks)%nat →
  ∃ k, snap_start blocks i = Some k ∧ (k ≤ i)%nat ∧ (k = O ∨ turn_at blocks k) ∧
       ∀ x b, (k < x ≤ i)%nat → blocks !! x = Some b → is_turn_start b = false.
Proof.
  induction i as [|i IH]; intros Hi; cbn [snap_start].
  { exists O. split_and!; [done|lia|by left|lia]. }
  destruct (lookup_lt_is_Some_2 _ _ Hi) as [b Hb]. rewrite Hb. cbn.
  destruct (is_turn_start b) eqn:E.
  - exists (S i). split_and!; [done|lia|right; by exists b|lia].
  - destruct IH as (k&->&Hk&Hs&Hrest); [lia|]. exists k. split_and!; [done|lia|done|].
    intros x c Hx Hc. destruct (decide (x = S i)) as [->|]; [by simplify_eq|].
    apply (Hrest x c); [lia|done].
Qed.

Lemma turn_rest_spec blocks :
  (turn_rest blocks ≤ length blocks)%nat ∧
  (turn_rest blocks = length blocks ∨ turn_at blocks (turn_rest blocks)) ∧
  ∀ x b, (x < turn_rest blocks)%nat → blocks !! x = Some b → is_turn_start b = false.
Proof.
  induction blocks as [|b blocks (IH1&IH2&IH3)]; cbn [turn_rest length].
  { split_and!; [lia|by left|lia]. }
  destruct (is_turn_start b) eqn:E.
  - split_and!; [lia|right; by exists b|lia].
  - split_and!; [lia|destruct IH2 as [->|]; [by left|by right]|].
    intros [|x] c Hx; cbn; [by intros [= <-]|]. apply IH3. lia.
Qed.

Lemma snap_end_spec blocks hi :
  (hi ≤ length blocks)%nat →
  let e := snap_end blocks hi in
  (hi ≤ e ≤ length blocks)%nat ∧ (e = length blocks ∨ turn_at blocks e) ∧
  ∀ x b, (hi ≤ x < e)%nat → blocks !! x = Some b → is_turn_start b = false.
Proof.
  intros Hhi. unfold snap_end. rewrite Nat.min_l by done. cbv zeta.
  destruct (turn_rest_spec (drop hi blocks)) as (H1&H2&H3). rewrite length_drop in *.
  split_and!; [lia|lia| |].
  - destruct H2 as [->|(b&Hb&?)]; [left; lia|right]. exists b. by rewrite <- lookup_drop.
  - intros x b Hx Hb. apply (H3 (x - hi)%nat); [lia|]. rewrite lookup_drop.
    by replace (hi + (x - hi))%nat with x by lia.
Qed.

(** A run snaps to the turns it touches. *)
Lemma snap_run_spec blocks r :
  0 ≤ r_start r →
  (Z.min (r_end r) (Z.of_nat (length blocks)) ≤ r_start r ∧ snap_run blocks r = Some None) ∨
  ∃ q, snap_run blocks r = Some (Some q) ∧ r_start q < r_end q ∧ 0 ≤ r_start q ∧
       r_end q ≤ Z.of_nat (length blocks) ∧
       ∀ i, r_start q ≤ i < r_end q ↔
            0 ≤ i < Z.of_nat (length blocks) ∧
            ∃ j, r_start r ≤ j < r_end r ∧ j < Z.of_nat (length blocks) ∧ same_turn blocks i j.
Proof.
  intros H0. unfold snap_run. case_match eqn:E; [left; split; [lia|done]|right].
  destruct (snap_start_spec blocks (Z.to_nat (Z.min (r_start r) (Z.of_nat (length blocks)))))
    as (k&->&Hk&Hks&Hkr); [lia|]. cbn.
  destruct (snap_end_spec blocks (Z.to_nat (Z.min (r_end r) (Z.of_nat (length blocks)))))
    as (He&Hes&Her); [lia|].
  set (e := snap_end _ _) in *. eexists. split; [done|]. cbn. split_and!; [lia..|].
  intros i. split.
  - intros Hi. split; [lia|].
    exists (Z.max (r_start r) (Z.min i (Z.min (r_end r) (Z.of_nat (length blocks)) - 1))).
    split_and!; [lia..|]. intros x b Hx Hb.
    destruct (decide (x ≤ Z.to_nat (r_start r))%nat); [apply (Hkr x b)|apply (Her x b)]; done || lia.
  - intros (Hi&j&Hj&Hjl&Hs). split.
    + destruct (decide (Z.of_nat k ≤ i)); [done|]. destruct Hks as [->|(b&Hb&Hbs)]; [lia|].
      rewrite (Hs k b) in Hbs; [done|lia|done].
    + destruct (decide (i < Z.of_nat e)); [done|]. destruct Hes as [->|(b&Hb&Hbs)]; [lia|].
      rewrite (Hs e b) in Hbs; [done|lia|done].
Qed.

(** ** The plan *)

(** A plan read in order, after the block [prev]: the kept blocks follow each other,
    and a seam stands between two of them and carries how many it skips. *)
Fixpoint lays_out (prev : option Z) plan : Prop :=
  match plan with
  | [] => True
  | Keep i :: plan' => (∀ p, prev = Some p → i = p + 1) ∧ lays_out (Some i) plan'
  | Seam n :: plan' =>
      match prev, plan' with
      | Some p, Keep i :: plan'' => 0 < n ∧ i = p + 1 + n ∧ lays_out (Some i) plan''
      | _, _ => False
      end
  end.

Lemma merge_runs_ok (l : list Range) :
  Forall (λ r, r_start r < r_end r) l → merge_runs l = from_ranges l.
Proof.
  intros Hl. unfold merge_runs, from_ranges. replace (filter _ l) with l; [done|].
  induction Hl as [|r l Hr _ IH]; [done|]. rewrite filter_cons_True by lia. by f_equal.
Qed.

Lemma flatten_keeps prev (runs : list Range) i : Keep i ∈ flatten_runs prev runs ↔ covers i runs.
Proof.
  revert prev. induction runs as [|r runs IH]; intros prev; cbn [flatten_runs].
  { rewrite covers_nil. split; [apply not_elem_of_nil|done]. }
  rewrite !elem_of_app, IH, covers_cons, list_elem_of_fmap.
  setoid_rewrite elem_of_seqZ. split; [intros [Hs|[(?&[= <-]&?)|?]]|intros [?|?]].
  - destruct prev; [destruct (0 <? _)|]; try by apply not_elem_of_nil in Hs.
    by apply list_elem_of_singleton in Hs.
  - left. lia.
  - by right.
  - right. left. exists i. split; [done|lia].
  - by right; right.
Qed.

Lemma lays_out_run prev a n plan :
  (∀ p, prev = Some p → a = p + 1) →
  lays_out (Some (a + Z.of_nat n)) plan →
  lays_out prev ((Keep <$> seqZ a (Z.of_nat (S n))) ++ plan).
Proof.
  revert prev a. induction n as [|n IH]; intros prev a Hp Hl.
  - cbn. split; [done|]. by rewrite Z.add_0_r in Hl.
  - rewrite seqZ_cons by lia. cbn [fmap list_fmap app lays_out]. split; [done|].
    replace (Z.pred (Z.of_nat (S (S n)))) with (Z.of_nat (S n)) by lia.
    apply IH; [intros p [= <-]; lia|]. by replace (Z.succ a + Z.of_nat n)
      with (a + Z.of_nat (S n)) by lia.
Qed.

Lemma flatten_lays_out prev (runs : list Range) :
  canonical_set runs → Forall (λ r, 0 ≤ r_start r < two64) runs →
  (∀ e, prev = Some e → 0 ≤ e ∧ Forall (λ r, e < r_start r) runs) →
  lays_out (Z.pred <$> prev) (flatten_runs prev runs).
Proof.
  revert prev. induction runs as [|r runs IH]; intros prev Hc Hb Hp; [done|].
  apply canonical_cons in Hc as (Hr&Hrs&Hc). apply Forall_cons in Hb as [Hr0 Hb].
  assert (lays_out (Some (r_end r - 1)) (flatten_runs (Some (r_end r)) runs)) as Hrest.
  { apply (IH (Some (r_end r))); [done..|]. intros e [= <-]. split; [lia|done]. }
  cbn [flatten_runs]. set (n := Z.to_nat (r_end r - r_start r - 1)).
  assert (∀ p, (∀ x, p = Some x → r_start r = x + 1) →
    lays_out p ((Keep <$> seqZ (r_start r) (r_end r - r_start r)) ++ flatten_runs (Some (r_end r)) runs)) as Hrun.
  { intros p Hx. replace (r_end r - r_start r) with (Z.of_nat (S n)) by (unfold n; lia).
    apply lays_out_run; [done|]. by replace (r_start r + Z.of_nat n) with (r_end r - 1)
      by (unfold n; lia). }
  destruct prev as [e|]; [|by apply Hrun].
  destruct (Hp e eq_refl) as [He [Hlt _]%Forall_cons].
  unfold wrap_u64. rewrite Z.mod_small by lia. destruct (Z.ltb_spec 0 (r_start r - e)); [|lia].
  specialize (Hrun (Some (r_start r - 1))). revert Hrun. rewrite seqZ_cons by lia.
  cbn [fmap list_fmap app lays_out option_map]. intros Hrun.
  split; [lia|]. split; [unfold Z.pred; lia|]. apply Hrun. intros x [= <-]. lia.
Qed.

(** Snapping a selection: it never fails, and covers the turns it touches. *)
Lemma snap_runs_spec blocks (keep_set : list Range) :
  Forall (λ r, 0 ≤ r_start r) keep_set →
  ∃ snapped, mapM (snap_run blocks) keep_set = Some snapped ∧
    Forall (λ q, r_start q < r_end q ∧ 0 ≤ r_start q ∧ r_end q ≤ Z.of_nat (length blocks))
      (omap id snapped) ∧
    ∀ i, covers i (omap id snapped) ↔ 0 ≤ i < Z.of_nat (length blocks) ∧
      ∃ r j, r ∈ keep_set ∧ r_start r ≤ j < r_end r ∧ j < Z.of_nat (length blocks) ∧
             same_turn blocks i j.
Proof.
  induction 1 as [|r keep_set Hr _ (snapped&IH1&IH2&IH3)].
  - exists []. split_and!; [done|done|]. intros i. rewrite covers_nil. split; [done|].
    by intros (_&?&?&?%not_elem_of_nil&_).
  - cbn [mapM]. destruct (snap_run_spec blocks r Hr) as [[Hd ->]|(q&->&Hq1&Hq2&Hq3&Hq)];
      cbn; rewrite IH1; cbn; eexists; (split; [done|]); cbn.
    + split; [done|]. intros i. rewrite IH3. setoid_rewrite elem_of_cons. split.
      * intros (?&r'&j&?&?). naive_solver.
      * intros (?&r'&j&[->|?]&?); [lia|]. naive_solver.
    + split; [by constructor|]. intros i. rewrite covers_cons, IH3, Hq.
      setoid_rewrite elem_of_cons. split.
      * intros [(?&j&?)|(?&r'&j&?&?)]; naive_solver.
      * intros (?&r'&j&[->|?]&?); [left|right]; naive_solver.
Qed.

Lemma plan_splice_keeps blocks (keep_set : list Range) :
  Forall (λ r, 0 ≤ r_start r) keep_set →
  ∃ plan, plan_splice blocks keep_set = Some plan ∧
    ∀ i, Keep i ∈ plan ↔
      0 ≤ i < Z.of_nat (length blocks) ∧
      ∃ r j, r ∈ keep_set ∧ r_start r ≤ j < r_end r ∧ j < Z.of_nat (length blocks) ∧
             same_turn blocks i j.
Proof.
  intros Hset. destruct (snap_runs_spec blocks keep_set Hset) as (snapped&Hm&Hq&Hcov).
  unfold plan_splice. rewrite Hm. cbn. eexists. split; [done|].
  rewrite merge_runs_ok by (eapply Forall_impl; [exact Hq|]; cbn; lia).
  intros i. by rewrite flatten_keeps, covers_from_ranges.
Qed.

Lemma plan_splice_lays_out blocks (keep_set : list Range) plan :
  Z.of_nat (length blocks) < two64 → Forall (λ r, 0 ≤ r_start r) keep_set →
  plan_splice blocks keep_set = Some plan → lays_out None plan.
Proof.
  intros Hlen Hset. destruct (snap_runs_spec blocks keep_set Hset) as (snapped&Hm&Hq&Hcov).
  unfold plan_splice. rewrite Hm. intros [= <-].
  rewrite merge_runs_ok by (eapply Forall_impl; [exact Hq|]; cbn; lia).
  apply (flatten_lays_out None); [apply from_ranges_canonical| |done].
  apply Forall_forall. intros q Hin.
  assert (r_start q < r_end q) as Hne.
  { pose proof (from_ranges_canonical (omap id snapped)) as [Hne _]. by eapply Forall_forall in Hne. }
  assert (covers (r_start q) (from_ranges (omap id snapped))) as Hc.
  { apply Exists_exists. exists q. split; [done|lia]. }
  rewrite covers_from_ranges, Hcov in Hc. lia.
Qed.

(** C27: the plan of a selection. It never panics; it keeps exactly the blocks that
    share a turn with a selected block, so a tool use is never cut from its result
    nor a run begun in the middle of a turn; it lists them in log order; and exactly
    where it skips blocks between two kept ones it has a seam with their number. *)
Theorem plan_splice_correct blocks (keep_set : list Range)
    (Hlen : Z.of_nat (length blocks) < two64) (Hset : Forall (λ r, 0 ≤ r_start r) keep_set) :
  ∃ plan, plan_splice blocks keep_set = Some plan ∧ lays_out None plan ∧
    ∀ i, Keep i ∈ plan ↔
      0 ≤ i < Z.of_nat (length blocks) ∧
      ∃ r j, r ∈ keep_set ∧ r_start r ≤ j < r_end r ∧ j < Z.of_nat (length blocks) ∧
             same_turn blocks i j.
Proof.
  destruct (plan_splice_keeps blocks keep_set Hset) as (plan&Hp&Hk).
  exists plan. split_and!; [done| |done]. by eapply plan_splice_lays_out.
Qed.
End splice.
