(* ===== verification/Mailbox.v ===== *)
(** * The live conversation of a context ([kaijutsu-kernel/src/llm/mailbox.rs])

    A mailbox folds the block log of a context into the hydration machine of
    [Wire.v], block by block as the log grows, or rebuilds it over a window that
    [Splice.v] cuts from the log. It refines [hydrate_from_blocks]: what it sends
    is a function of the log. *)

From S2P Require Import Prelude Text Ids Track Cas Cell Concrete Block Hydrate Selection Wire WirePairing Splice.

Record ConversationMailbox `{!JsonLib} := {
  mb_state : HydrationState;
  mb_seen : gset BlockId;
  mb_materialized : bool;
  mb_windowed : bool;
}.

Lemma filter_none {A} (P : A → Prop) `{!∀ x, Decision (P x)} (l : list A) :
  (∀ x, x ∈ l → ¬ P x) → filter P l = [].
Proof.
  intros Hl. destruct (filter P l) as [|x k] eqn:E; [done|]. exfalso.
  assert (x ∈ filter P l) as [Hx ?]%list_elem_of_filter by (rewrite E; apply list_elem_of_here).
  by apply (Hl x).
Qed.

Section mailbox.
Context {json : JsonLib} {blib : BlockLib} {uuids : UuidCrate} {serde : SerdeJson}.
Implicit Types (mb : ConversationMailbox) (block : BlockSnapshot) (log : list BlockSnapshot).

Definition mailbox_new : ConversationMailbox :=
  {| mb_state := hs_new; mb_seen := ∅; mb_materialized := false; mb_windowed := false |}.

Definition hydration_keep_set log (marker : option BlockId) (window : Z) : list Range :=
  let marker_idx :=
    m ← marker; '(i, _) ← list_find (λ b, sn_id b = m) log; Some (Z.of_nat i) in
  window_base (Z.of_nat (length log)) marker_idx window.

(** Translate and remember one block. *)
Definition fold_in block (parent : option BlockSnapshot) (acc : HydrationState * gset BlockId) :
    HydrationState * gset BlockId :=
  (translate_block block parent acc.1, {[ sn_id block ]} ∪ acc.2).

Definition feed block (parent : option BlockSnapshot) mb : ConversationMailbox :=
  if bool_decide (sn_id block ∈ mb_seen mb) then mb
  else
    let '(state, seen) := fold_in block parent (mb_state mb, mb_seen mb) in
    {| mb_state := state; mb_seen := seen; mb_materialized := true;
       mb_windowed := mb_windowed mb |}.

(** The loop of [catch_up], with [new_blocks]; [log] is the whole log. *)
Fixpoint catch_up_loop log (blocks : list BlockSnapshot) (acc : HydrationState * gset BlockId)
    (n : Z) : Z * (HydrationState * gset BlockId) :=
  match blocks with
  | [] => (n, acc)
  | b :: blocks' =>
      if bool_decide (sn_id b ∈ acc.2) then catch_up_loop log blocks' acc n
      else catch_up_loop log blocks' (fold_in b (parent_in log b) acc) (n + 1)
  end.

Definition catch_up log mb : Z * ConversationMailbox :=
  let acc := if mb_windowed mb then (hs_new, ∅) else (mb_state mb, mb_seen mb) in
  let '(n, (state, seen)) := catch_up_loop log log acc 0 in
  (n, {| mb_state := state; mb_seen := seen; mb_materialized := true; mb_windowed := false |}).

Definition bootstrap log mb : ConversationMailbox := (catch_up log mb).2.

Definition block_count mb : Z := Z.of_nat (size (mb_seen mb)).

(** One step of the plan. *)
Definition splice_in log (item : SpliceItem) (acc : HydrationState * gset BlockId) :
    option (HydrationState * gset BlockId) :=
  match item with
  | Keep i => b ← log !! Z.to_nat i; Some (fold_in b (parent_in log b) acc)
  | Seam archived => Some (push_seam archived acc.1, acc.2)
  end.

Fixpoint splice_loop log (plan : list SpliceItem) (acc : HydrationState * gset BlockId) :
    option (HydrationState * gset BlockId) :=
  match plan with
  | [] => Some acc
  | item :: plan' => acc ← splice_in log item acc; splice_loop log plan' acc
  end.

Definition rehydrate_windowed log (marker : BlockId) (window : Z) mb :
    option ConversationMailbox :=
  plan ← plan_splice log (hydration_keep_set log (Some marker) window);
  '(state, seen) ← splice_loop log plan (hs_new, ∅);
  Some {| mb_state := state; mb_seen := seen; mb_materialized := true; mb_windowed := true |}.

Definition mailbox_snapshot mb : list Message := into_messages (mb_state mb).

(** ** Sessions *)

Abbreviation ids l := (list_to_set (sn_id <$> l) : gset BlockId).

(** A log names each block once and no block before its parent. *)
Definition log_ok log : Prop :=
  NoDup (sn_id <$> log) ∧
  ∀ l1 b l2, log = l1 ++ b :: l2 → ∀ c, c ∈ b :: l2 → sn_parent_id b ≠ Some (sn_id c).

(** The mailbox of a context whose log is [log]: the log grows, and in between the
    mailbox is fed the next block, catches up or is rebuilt over a window. *)
Inductive session : list BlockSnapshot → ConversationMailbox → Prop :=
  | session_new : session [] mailbox_new
  | session_grow log more mb : session log mb → log_ok (log ++ more) → session (log ++ more) mb
  | session_feed l1 b l2 mb :
      session (l1 ++ b :: l2) mb → mb_windowed mb = false → mb_seen mb = ids l1 →
      session (l1 ++ b :: l2) (feed b (parent_in (l1 ++ b :: l2) b) mb)
  | session_catch_up log mb : session log mb → session log (catch_up log mb).2
  | session_window log marker window mb mb' :
      session log mb → rehydrate_windowed log marker window mb = Some mb' → session log mb'.

Lemma log_ok_prefix l k : log_ok (l ++ k) → log_ok l.
Proof.
  intros [Hd Hp]. rewrite fmap_app in Hd. apply NoDup_app in Hd as (Hd&_&_). split; [done|].
  intros l1 b l2 -> c Hc. apply (Hp l1 b (l2 ++ k)).
  - by rewrite <- app_assoc.
  - revert Hc. rewrite !elem_of_cons, elem_of_app. tauto.
Qed.

(** What the log gains later does not change the parent of a block in it. *)
Lemma parent_in_grow l k b : log_ok (l ++ k) → b ∈ l → parent_in (l ++ k) b = parent_in l b.
Proof.
  intros [_ Hp] (l1&l2&->)%list_elem_of_split. unfold parent_in.
  destruct (sn_parent_id b) as [pid|] eqn:Eb; [|done]. cbn. rewrite filter_app.
  replace (filter (λ c, sn_id c = pid) k) with (@nil BlockSnapshot); [by rewrite app_nil_r|].
  symmetry. apply filter_none. intros c Hc He.
  apply (Hp l1 b (l2 ++ k) ltac:(by rewrite <- app_assoc) c); [|by rewrite He].
  apply list_elem_of_further, elem_of_app. by right.
Qed.

Lemma catch_up_loop_seen log l1 l2 acc n :
  ids l1 ⊆ acc.2 → catch_up_loop log (l1 ++ l2) acc n = catch_up_loop log l2 acc n.
Proof.
  induction l1 as [|b l1 IH]; intros Hs; [done|]. cbn.
  rewrite bool_decide_true by (apply Hs; cbn; set_solver). apply IH. cbn in Hs. set_solver.
Qed.

Lemma catch_up_loop_new log l acc n :
  NoDup (sn_id <$> l) → (∀ b, b ∈ l → sn_id b ∉ acc.2) →
  catch_up_loop log l acc n =
    (n + Z.of_nat (length l), (foldl (translate_in log) acc.1 l, acc.2 ∪ ids l)).
Proof.
  revert acc n. induction l as [|b l IH]; intros [st seen] n Hd Hn; cbn.
  { f_equal; [lia|]. f_equal. set_solver. }
  apply NoDup_cons in Hd as [Hb Hd].
  rewrite bool_decide_false by (apply (Hn b), list_elem_of_here).
  rewrite IH; [|done|].
  - cbn. f_equal; [lia|]. f_equal. set_solver.
  - intros c Hc. cbn. rewrite not_elem_of_union, elem_of_singleton. split.
    + intros He. apply Hb. apply list_elem_of_fmap. by exists c.
    + apply (Hn c). by apply list_elem_of_further.
Qed.

(** What a mailbox that is not windowed has folded in: the beginning of the log. *)
Definition folded log mb : Prop :=
  ∃ l1 l2, log = l1 ++ l2 ∧ mb_state mb = foldl (translate_in log) hs_new l1 ∧
           mb_seen mb = ids l1.

Lemma fold_grow log more l st :
  log_ok (log ++ more) → (∀ b, b ∈ l → b ∈ log) →
  foldl (translate_in (log ++ more)) st l = foldl (translate_in log) st l.
Proof.
  intros Hok. revert st. induction l as [|b l IH]; intros st Hl; [done|]. cbn.
  rewrite IH by (intros c Hc; by apply Hl, list_elem_of_further). f_equal.
  unfold translate_in. rewrite parent_in_grow; [done|done|]. apply Hl, list_elem_of_here.
Qed.

Lemma NoDup_ids_app (l1 l2 : list BlockSnapshot) b :
  NoDup (sn_id <$> l1 ++ l2) → b ∈ l2 → sn_id b ∉ ids l1.
Proof.
  rewrite fmap_app. intros (_&Hd&_)%NoDup_app Hb. rewrite elem_of_list_to_set.
  intros Hi. apply (Hd _ Hi). apply list_elem_of_fmap. by exists b.
Qed.

Lemma ids_size (l1 l2 : list BlockSnapshot) :
  NoDup (sn_id <$> l1 ++ l2) → size (ids l1) = length l1.
Proof.
  rewrite fmap_app. intros (Hd&_&_)%NoDup_app. by rewrite size_list_to_set, length_fmap.
Qed.

Lemma catch_up_run log mb :
  NoDup (sn_id <$> log) → (mb_windowed mb = false → folded log mb) →
  (catch_up log mb).2 = {| mb_state := hydrate_state log; mb_seen := ids log;
                           mb_materialized := true; mb_windowed := false |} ∧
  (catch_up log mb).1 = Z.of_nat (length log) - (if mb_windowed mb then 0 else block_count mb).
Proof.
  intros Hd Hf. unfold catch_up, block_count. destruct (mb_windowed mb).
  - rewrite catch_up_loop_new; [|done|set_solver].
    cbn. split; [f_equal; set_solver|lia].
  - destruct (Hf eq_refl) as (l1&l2&->&Hst&Hse). rewrite catch_up_loop_seen by (cbn; by rewrite Hse).
    rewrite catch_up_loop_new.
    + cbn. rewrite Hst, Hse. split.
      * f_equal; [by rewrite <- foldl_app|]. rewrite fmap_app, list_to_set_app_L. done.
      * rewrite length_app, (ids_size l1 l2) by done. lia.
    + rewrite fmap_app in Hd. by apply NoDup_app in Hd as (_&_&?).
    + intros b Hb. cbn. rewrite Hse. by apply (NoDup_ids_app l1 l2).
Qed.

Lemma session_inv log mb :
  session log mb → log_ok log ∧ (mb_windowed mb = false → folded log mb).
Proof.
  induction 1 as [|log more mb _ [_ IH] Hok|l1 b l2 mb _ [Hok IH] Hw Hs|log mb _ [Hok IH]
    |log marker window mb mb' _ [Hok _] Hr].
  - split; [split; [constructor|by intros []]|]. intros _. by exists [], [].
  - split; [done|]. intros Hw. destruct (IH Hw) as (l1&l2&->&Hst&Hse).
    exists l1, (l2 ++ more). rewrite <- app_assoc. split_and!; [done| |done].
    rewrite Hst, app_assoc. symmetry. apply fold_grow; [done|]. set_solver.
  - split; [done|]. intros _. destruct (IH Hw) as (k1&k2&Heq&Hst&Hse).
    assert (length l1 = length k1) as Hl.
    { pose proof (ids_size l1 (b :: l2) (proj1 Hok)) as H1. rewrite Heq in Hok.
      pose proof (ids_size k1 k2 (proj1 Hok)) as H2. congruence. }
    destruct (app_inj_1 _ _ _ _ Hl Heq) as [-> <-]. exists (k1 ++ [b]), l2.
    unfold feed. rewrite bool_decide_false
      by (rewrite Hs; apply (NoDup_ids_app k1 (b :: l2)); [apply Hok|apply list_elem_of_here]).
    cbn. rewrite <- app_assoc, foldl_app, fmap_app, list_to_set_app_L, Hs, Hst. cbn.
    split_and!; [done|done|set_solver].
  - split; [done|]. intros _. destruct (catch_up_run log mb (proj1 Hok) IH) as [-> _].
    exists log, []. by rewrite app_nil_r.
  - split; [done|]. revert Hr. unfold rehydrate_windowed.
    intros (plan&_&([state seen]&_&[= <-])%bind_Some)%bind_Some. done.
Qed.

(** C7: the mailbox refines [hydrate_from_blocks]. Whatever it went through while the
    log grew (single feeds, catch-ups, windowed rebuilds, in any order), catching up
    makes it send exactly what a fresh hydration of the whole log sends; it has then
    seen the blocks of the log and no others, reports how many were new, and catching
    up again changes nothing. *)
Theorem mailbox_refines log mb (H : session log mb) :
  let mb' := (catch_up log mb).2 in
  mailbox_snapshot mb' = hydrate_from_blocks log ∧
  mb_seen mb' = ids log ∧ mb_windowed mb' = false ∧
  (catch_up log mb).1 = Z.of_nat (length log) - (if mb_windowed mb then 0 else block_count mb) ∧
  catch_up log mb' = (0, mb').
Proof.
  destruct (session_inv log mb H) as [[Hd Hp] Hf].
  destruct (catch_up_run log mb Hd Hf) as [E1 E2]. cbv zeta. rewrite E1.
  split_and!; [done..|exact E2|].
  set (mb' := {| mb_state := _ |}).
  destruct (catch_up_run log mb' Hd) as [F1 F2].
  { intros _. exists log, []. by rewrite app_nil_r. }
  assert (block_count mb' = Z.of_nat (length log)) as Hc.
  { unfold block_count. cbn. pose proof (ids_size log []) as Hs. rewrite app_nil_r in Hs.
    by rewrite Hs. }
  rewrite Hc in F2. cbn [mb_windowed] in F2. destruct (catch_up log mb') as [n m]. cbn in F1, F2.
  rewrite F1. f_equal. lia.
Qed.

(** *** Windows *)

Lemma splice_loop_run log plan acc :
  (∀ i, Keep i ∈ plan → 0 ≤ i < Z.of_nat (length log)) → hydrating acc.1 →
  ∃ acc', splice_loop log plan acc = Some acc' ∧ hydrating acc'.1 ∧
    ∀ id, id ∈ acc'.2 ↔ id ∈ acc.2 ∨ ∃ i b, Keep i ∈ plan ∧ log !! Z.to_nat i = Some b ∧ sn_id b = id.
Proof.
  revert acc. induction plan as [|item plan IH]; intros acc Hi Ha; cbn.
  { exists acc. split_and!; [done..|]. intros id. split; [by left|].
    intros [?|(?&?&?%not_elem_of_nil&_)]; done. }
  destruct item as [i|n]; cbn.
  - destruct (lookup_lt_is_Some_2 log (Z.to_nat i)) as [b Hb].
    { specialize (Hi i (list_elem_of_here _ _)). lia. }
    rewrite Hb. cbn.
    destruct (IH (fold_in b (parent_in log b) acc)) as (acc'&->&Ha'&Hs).
    { intros j Hj. by apply Hi, list_elem_of_further. }
    { by constructor. }
    exists acc'. split_and!; [done..|]. intros id. rewrite Hs. cbn.
    rewrite elem_of_union, elem_of_singleton. setoid_rewrite elem_of_cons. naive_solver.
  - destruct (IH (push_seam n acc.1, acc.2)) as (acc'&->&Ha'&Hs).
    { intros j Hj. by apply Hi, list_elem_of_further. }
    { by constructor. }
    exists acc'. split_and!; [done..|]. intros id. rewrite Hs. cbn.
    setoid_rewrite elem_of_cons. naive_solver.
Qed.

(** The blocks a window asks for: those up to the marker and the last [window]; all,
    when the marker is not in the log. *)
Definition in_window log (marker : BlockId) (window : Z) (j : Z) : Prop :=
  0 ≤ j < Z.of_nat (length log) ∧
  ∀ m c, list_find (λ b, sn_id b = marker) log = Some (m, c) →
    j ≤ Z.of_nat m ∨ Z.of_nat (length log) - window ≤ j.

Lemma keep_set_in_window log marker window j :
  in_u64 (Z.of_nat (length log)) → 0 ≤ window →
  covers j (hydration_keep_set log (Some marker) window) ↔ in_window log marker window j.
Proof.
  intros Hlen Hw. unfold hydration_keep_set, in_window. cbn [mbind option_bind].
  destruct (list_find _ log) as [[m c]|] eqn:E; rewrite window_base_covers; try done.
  - naive_solver.
  - intros ? [= <-]. apply list_find_Some in E as (E&_&_). apply lookup_lt_Some in E. lia.
  - naive_solver.
Qed.

(** The windowed rebuild always succeeds and forgets what came before. What it
    sends is a history of the hydration machine, hence well formed and paired, and it
    has seen exactly the blocks that share a turn with one the window asks for: with
    a stale marker, all of them. *)
Theorem rehydrate_windowed_correct log marker (window : Z) mb
    (Hd : NoDup (sn_id <$> log)) (Hlen : in_u64 (Z.of_nat (length log))) (Hw : 0 ≤ window) :
  ∃ mb', rehydrate_windowed log marker window mb = Some mb' ∧
    rehydrate_windowed log marker window mailbox_new = Some mb' ∧
    hydrating (mb_state mb') ∧ mb_windowed mb' = true ∧
    ∀ i b, log !! i = Some b →
      sn_id b ∈ mb_seen mb' ↔ ∃ j, in_window log marker window j ∧ same_turn log (Z.of_nat i) j.
Proof.
  unfold rehydrate_windowed.
  assert (∀ j, covers j (hydration_keep_set log (Some marker) window) → 0 ≤ j) as Hpos.
  { intros j. rewrite keep_set_in_window by done. by intros [[? _] _]. }
  destruct (plan_splice_keeps log (hydration_keep_set log (Some marker) window))
    as (plan&->&Hk).
  { apply Forall_forall. intros r Hr. apply Hpos. apply Exists_exists. exists r. split; [done|].
    destruct (window_base_canonical (Z.of_nat (length log))
      (m ← Some marker; '(i, _) ← list_find (λ b, sn_id b = m) log; Some (Z.of_nat i)) window)
      as [Hne _].
    rewrite Forall_forall in Hne. specialize (Hne r Hr). cbn in Hne. lia. }
  destruct (splice_loop_run log plan (hs_new, ∅)) as ([state seen]&Hl&Hst&Hs); [|constructor|].
  { intros i Hi. by apply Hk in Hi as [? _]. }
  cbn [mbind option_bind]. rewrite Hl. cbn. eexists. split_and!; [done|done|exact Hst|done|].
  intros i b Hb. cbn in Hs |- *. rewrite Hs. split.
  - intros [?%not_elem_of_empty|(k&b'&Hkeep&Hb'&He)]; [done|].
    assert (Z.to_nat k = i) as <-.
    { eapply (NoDup_lookup (sn_id <$> log)); [done| |]; rewrite list_lookup_fmap.
      - by rewrite Hb'.
      - by rewrite Hb, He. }
    apply Hk in Hkeep as (Hk1&r&j&Hr&Hj&Hjl&Hsame). exists j. rewrite Z2Nat.id by lia.
    split; [|done]. apply keep_set_in_window; [done..|]. apply Exists_exists. by exists r.
  - intros (j&Hj&Hsame). right. exists (Z.of_nat i), b. rewrite Nat2Z.id. split; [|done].
    apply Hk. split; [apply lookup_lt_Some in Hb; lia|].
    apply keep_set_in_window in Hj as Hc; [|done..].
    apply Exists_exists in Hc as (r&Hr&Hin). exists r, j. by destruct Hj as [[_ ?] _].
Qed.
End mailbox.

(** * Histories, plans and mailboxes on concrete logs *)

Import Demo DemoBlock.

#[export] Instance demo_serde : SerdeJson := {|
  json_parse := parse_uint u64_max;
  json_null := 0;
  json_get_str := λ _ _, None;
|}.

(** Block [n] of one author. *)
Definition log_block (n : Z) (r : Role) (k : BlockKind) (content : string) : BlockSnapshot :=
  (builder_new 0 (demo_id n) k) <| sn_role := r |> <| sn_content := content |>.

Definition call_block (n : Z) (use : string) : BlockSnapshot :=
  (log_block n Model KToolCall "{}") <| sn_tool_use_id := Some use |>.
Definition result_block (n : Z) (use content : string) : BlockSnapshot :=
  (log_block n Tool KToolResult content) <| sn_tool_use_id := Some use |>.

(** A question, a tool call, its result, the reply. *)
Definition demo_log : list BlockSnapshot :=
  [log_block 0 User KText "hi"; call_block 1 "t1"; result_block 2 "t1" "ok";
   log_block 3 Model KText "done"].

Lemma translated log l : ∀ st, hydrating st → hydrating (foldl (translate_in log) st l).
Proof. induction l as [|b l IH]; intros st Hst; [done|]. apply IH. by constructor. Qed.

Lemma hydration_pairing_witness :
  length (hydrate_from_blocks demo_log) = 4%nat ∧
  answered (into_messages (hydrate_state demo_log)).
Proof.
  assert (hydrating (hydrate_state demo_log)) as H by (apply translated; constructor).
  destruct (hydration_pairing _ H) as (_&_&Ha). split; [vm_compute; reflexivity|].
  apply Ha. vm_compute. repeat split; try (left; reflexivity).
  right. exists "t1". split; left.
Defined.

Lemma hydration_well_formed_witness :
  Forall message_ok (into_messages (hydrate_state demo_log)).
Proof.
  assert (hydrating (hydrate_state demo_log)) as H by (apply translated; constructor).
  exact (proj2 (hydration_well_formed _ H)).
Defined.

(** A late result before an ordinary exchange: the result that is skipped shifts the
    lookup of the second pass, which then drops the good result as well, and the tool
    use [t2] is left without its answer. *)
Definition late_log : list BlockSnapshot :=
  [result_block 0 "t1" "late"; call_block 1 "t2"; result_block 2 "t2" "ok"].

Example late_result_breaks_pairing :
  tool_use_ids <$> hydrate_from_blocks late_log = [["t2"]] ∧
  ¬ answered (hydrate_from_blocks late_log).
Proof.
  split; [vm_compute; reflexivity|]. vm_compute. intros [H _].
  specialize (H "t2" (list_elem_of_here _ _)). by apply not_elem_of_nil in H.
Qed.

(** Selecting the reply keeps the whole turn; selecting both ends leaves a seam. *)
Definition two_turns : list BlockSnapshot :=
  demo_log ++ [log_block 4 User KText "more"; log_block 5 User KText "last"].

Lemma plan_splice_correct_witness :
  plan_splice two_turns [{| r_start := 5; r_end := 9 |}; {| r_start := 2; r_end := 3 |}] =
    Some [Keep 0; Keep 1; Keep 2; Keep 3; Seam 1; Keep 5] ∧
  ∃ plan, plan_splice two_turns [{| r_start := 5; r_end := 9 |}; {| r_start := 2; r_end := 3 |}] =
    Some plan ∧ lays_out None plan.
Proof.
  split; [vm_compute; reflexivity|].
  destruct (plan_splice_correct two_turns
    [{| r_start := 5; r_end := 9 |}; {| r_start := 2; r_end := 3 |}]) as (plan&Hp&Hl&_).
  - vm_compute. reflexivity.
  - repeat constructor; cbn; lia.
  - exists plan. exact (conj Hp Hl).
Defined.

Lemma demo_ids_NoDup : NoDup (sn_id <$> two_turns).
Proof. apply (bool_decide_unpack _). vm_compute. exact I. Qed.

Lemma two_turns_ok : log_ok two_turns.
Proof.
  split; [apply demo_ids_NoDup|]. intros l1 b l2 Heq c _.
  assert (b ∈ two_turns) as Hb by (rewrite Heq; set_solver).
  assert (Forall (λ b, sn_parent_id b = None) two_turns) as Hn by (by repeat constructor).
  rewrite Forall_forall in Hn. by rewrite (Hn b Hb).
Qed.

(** The log grows behind a catch-up and a windowed rebuild. *)
Lemma mailbox_refines_witness :
  ∃ mb, session two_turns mb ∧ mb_windowed mb = true ∧
        mailbox_snapshot (catch_up two_turns mb).2 = hydrate_from_blocks two_turns.
Proof.
  destruct (rehydrate_windowed demo_log (demo_id 0) 1 (catch_up demo_log mailbox_new).2)
    as [mb|] eqn:E; [|vm_compute in E; discriminate E].
  assert (session two_turns mb) as Hs.
  { apply (session_grow demo_log); [|apply two_turns_ok].
    eapply session_window; [|exact E]. apply session_catch_up.
    apply (session_grow [] demo_log); [constructor|]. exact (log_ok_prefix demo_log _ two_turns_ok). }
  exists mb. split_and!; [exact Hs| |exact (proj1 (mailbox_refines _ _ Hs))].
  vm_compute in E. by injection E as <-.
Defined.

Lemma rehydrate_windowed_correct_witness :
  ∃ mb', rehydrate_windowed two_turns (demo_id 0) 1 mailbox_new = Some mb' ∧
         hydrating (mb_state mb').
Proof.
  destruct (rehydrate_windowed_correct two_turns (demo_id 0) 1 mailbox_new demo_ids_NoDup)
    as (mb'&Hr&_&Hst&_); [vm_compute; intuition discriminate|lia|].
  exists mb'. exact (conj Hr Hst).
Defined.
