(* ===== verification/Sync.v ===== *)
(** * The sync manager of a client ([kaijutsu-client/src/sync.rs])

    It keeps a replica of a server's block store up to date: a full sync from a
    snapshot, incremental merges, a bounded buffer of operations that did not merge
    yet. A client is the manager and the store it works on; every call is a [method]
    on the pair. Buffers are decoded by [kaijutsu-types/src/codec.rs], on top of the
    CBOR crate, which is a parameter. An error carries its cause instead of the text
    made of it. *)

From Stdlib Require Import Strings.Byte.
From S2P Require Import Prelude Text Tick Ids Track Cas Cell Block Hydrate BlockContent OrderKey Selection BlockStore.

(** ** The codec *)

(** [ciborium::into_writer] and [from_reader], for the type [T]. *)
Class Cbor (T : Type) := {
  cbor_write : T → option bytes;
  cbor_read : bytes → option T;
}.
(** What the crate documents: what was written reads back. *)
Class CborLaws (T : Type) `{!Cbor T} :=
  cbor_roundtrip (v : T) b : cbor_write v = Some b → cbor_read b = Some v.

Definition FORMAT_V1 : Init.Byte.byte := Init.Byte.x01.

Inductive CodecError := Encode | Decode | UnknownFormat (b : Init.Byte.byte) | Empty.

Definition encode `{!Cbor T} (value : T) : result CodecError bytes :=
  match cbor_write value with
  | Some b => Ok (FORMAT_V1 :: b)
  | None => Err Encode
  end.

Definition decode `{!Cbor T} (buf : bytes) : result CodecError T :=
  match buf with
  | [] => Err Empty
  | b :: rest =>
      if Stdlib.Strings.Byte.eqb b FORMAT_V1 then
        match cbor_read rest with Some v => Ok v | None => Err Decode end
      else Err (UnknownFormat b)
  end.

Lemma decode_encode `{!Cbor T, !CborLaws T} (v : T) buf : encode v = Ok buf → decode buf = Ok v.
Proof.
  unfold encode, decode. destruct (cbor_write v) as [b|] eqn:E; [|done]. intros [= <-].
  by rewrite (cbor_roundtrip v b E).
Qed.

(** ** Results *)

Definition MAX_PENDING_OPS : nat := 200.

Inductive SkipReason :=
  | EmptyOplog
  | DocumentIdMismatch (expected got : ContextId)
  | BlockAlreadyExists
  | ProtocolViolation.

Inductive SyncResult :=
  | FullSync (block_count : Z)
  | IncrementalMerge
  | Skipped (reason : SkipReason).

Inductive SyncError :=
  | FromOplog (e : CodecError + CrdtError)
  | Deserialize (e : CodecError)
  | Merge (e : CrdtError).

Record SyncManager `{!Dte} := {
  sm_frontier : option (gmap BlockId Frontier);
  sm_context_id : option ContextId;
  sm_version : Z;
  sm_pending_ops : list (option BlockId * bytes);
}.
#[export] Instance SyncManager_settable `{!Dte} : Settable SyncManager := λ m,
  {| sm_frontier := sm_frontier m; sm_context_id := sm_context_id m;
     sm_version := sm_version m; sm_pending_ops := sm_pending_ops m |}.

Record Client `{!JsonLib, !BlockLib, !Dte} := { cl_sync : SyncManager; cl_doc : BlockStore }.
#[export] Instance Client_settable `{!JsonLib, !BlockLib, !Dte} : Settable Client := λ c,
  {| cl_sync := cl_sync c; cl_doc := cl_doc c |}.

Section sync.
Context {json : JsonLib} {blib : BlockLib} {dte : Dte} {uuids : UuidCrate}.
Context {snap_cbor : Cbor StoreSnapshot} {payload_cbor : Cbor SyncPayload}.
Implicit Types (m : SyncManager) (c : Client).

Abbreviation client_method := (method Client SyncError).

Definition sync_new : SyncManager :=
  {| sm_frontier := None; sm_context_id := None; sm_version := 0; sm_pending_ops := [] |}.
Definition with_state (ctx : option ContextId) (f : option (gmap BlockId Frontier)) : SyncManager :=
  {| sm_frontier := f; sm_context_id := ctx; sm_version := 0; sm_pending_ops := [] |}.

Definition needs_full_sync m (ctx : ContextId) : bool :=
  bool_decide (sm_frontier m = None) || negb (bool_decide (sm_context_id m = Some ctx)).

Definition sync_reset m : SyncManager := m <| sm_frontier := None |>.
Definition pending_ops_count m : Z := Z.of_nat (length (sm_pending_ops m)).
Definition reset_frontier m : SyncManager :=
  m <| sm_frontier := None |> <| sm_pending_ops := [] |>.

Definition buffer_failed_ops (id : option BlockId) (ops : bytes) m : SyncManager :=
  if (MAX_PENDING_OPS <=? length (sm_pending_ops m))%nat
  then sync_reset (m <| sm_pending_ops := [] |>)
  else m <| sm_pending_ops := sm_pending_ops m ++ [(id, ops)] |>.

(** Calls on the manager alone, and on the store alone, with [map_err]. *)
Definition on_sync (f : SyncManager → SyncManager) : client_method () :=
  m_modify (λ c, c <| cl_sync := f (cl_sync c) |>).
Definition on_doc {A} (err : CrdtError → SyncError) (f : method BlockStore CrdtError A) :
    client_method A := λ c,
  match f (cl_doc c) with
  | Some (Ok a, d) => Some (Ok a, c <| cl_doc := d |>)
  | Some (Err e, d) => Some (Err (err e), c <| cl_doc := d |>)
  | None => None
  end.

Definition bump_version m : SyncManager := m <| sm_version := wrap_u64 (sm_version m + 1) |>.
Definition lose_frontier m : SyncManager := m <| sm_frontier := None |>.

(** Remember the frontier of the store. *)
Definition take_frontier : client_method () :=
  m_modify (λ c, c <| cl_sync := bump_version
    ((cl_sync c) <| sm_frontier := Some (frontier (cl_doc c)) |>) |>).

Definition do_incremental_merge (ops : bytes) : client_method SyncResult :=
  match decode ops with
  | Err e => on_sync lose_frontier;; m_fail (Deserialize e)
  | Ok payload =>
      r ← m_try (on_doc Merge (merge_ops payload));
      match r with
      | Ok _ => take_frontier;; m_ret IncrementalMerge
      | Err e => on_sync lose_frontier;; m_fail e
      end
  end.

(** The restore that the two full syncs share; [now] is the wall clock. *)
Definition full_sync (now : Z) (ctx : ContextId) (buf : bytes) : client_method Z :=
  match decode buf with
  | Err e => m_fail (FromOplog (inl e))
  | Ok snapshot =>
      c ← m_get;
      match store_from_snapshot now snapshot (bs_principal_id (cl_doc c)) with
      | None => m_panic
      | Some (Err e) => m_fail (FromOplog (inr e))
      | Some (Ok new_store) =>
          m_modify (λ c, {|
            cl_sync := bump_version ((cl_sync c) <| sm_frontier := Some (frontier new_store) |>
                                                 <| sm_context_id := Some ctx |>);
            cl_doc := new_store |});;
          m_ret (block_count new_store)
      end
  end.

Definition do_full_sync (now : Z) (ctx : ContextId) (buf : bytes) : client_method SyncResult :=
  n ← full_sync now ctx buf; m_ret (FullSync n).

(** The loop of [replay_pending_ops], with [still_pending]. *)
Fixpoint replay_loop (todo still_pending : list (option BlockId * bytes)) :
    client_method (list (option BlockId * bytes)) :=
  match todo with
  | [] => m_ret still_pending
  | (id, ops) :: todo' =>
      r ← m_try (do_incremental_merge ops);
      match r with
      | Err (Merge _) => replay_loop todo' (still_pending ++ [(id, ops)])
      | _ => replay_loop todo' still_pending
      end
  end.

Definition replay_pending_ops : client_method () :=
  c ← m_get;
  match sm_pending_ops (cl_sync c) with
  | [] => m_ret tt
  | ops_to_replay =>
      on_sync (λ m, m <| sm_pending_ops := [] |>);;
      still_pending ← replay_loop ops_to_replay [];
      on_sync (λ m, m <| sm_pending_ops := still_pending |>)
  end.

Definition apply_initial_state (now : Z) (ctx : ContextId) (buf : bytes) :
    client_method SyncResult :=
  match buf with
  | [] => m_ret (Skipped EmptyOplog)
  | _ =>
      n ← full_sync now ctx buf;
      replay_pending_ops;;
      m_ret (FullSync n)
  end.

(** Replay after success, then pass the result on. *)
Definition then_replay (r : result SyncError SyncResult) : client_method SyncResult :=
  match r with
  | Ok res => replay_pending_ops;; m_ret res
  | Err e => m_fail e
  end.

Definition apply_block_inserted (now : Z) (ctx : ContextId) (block : BlockSnapshot)
    (ops : bytes) : client_method SyncResult :=
  c ← m_get;
  let doc := cl_doc c in
  if negb (bool_decide (ctx = bs_context_id doc)) then
    m_ret (Skipped (DocumentIdMismatch (bs_context_id doc) ctx))
  else if bool_decide (is_Some (get_block_snapshot doc (sn_id block))) then
    m_ret (Skipped BlockAlreadyExists)
  else match ops with
  | [] => m_ret (Skipped ProtocolViolation)
  | _ =>
      r ← (if needs_full_sync (cl_sync c) ctx then
             r ← m_try (do_incremental_merge ops);
             match r with
             | Ok res => m_ret (Ok res)
             | Err _ =>
                 r ← m_try (do_full_sync now ctx ops);
                 match r with
                 | Ok res => m_ret (Ok res)
                 | Err e => on_sync (buffer_failed_ops (Some (sn_id block)) ops);; m_ret (Err e)
                 end
             end
           else m_try (do_incremental_merge ops));
      then_replay r
  end.

Definition apply_text_ops (ctx : ContextId) (ops : bytes) : client_method SyncResult :=
  c ← m_get;
  let doc := cl_doc c in
  if negb (bool_decide (ctx = bs_context_id doc)) then
    m_ret (Skipped (DocumentIdMismatch (bs_context_id doc) ctx))
  else if needs_full_sync (cl_sync c) ctx then m_ret (Skipped EmptyOplog)
  else match ops with
  | [] => m_ret (Skipped EmptyOplog)
  | _ =>
      r ← m_try (do_incremental_merge ops);
      match r with
      | Err (Merge _) => on_sync (buffer_failed_ops None ops);; then_replay r
      | _ => then_replay r
      end
  end.

(** ** Changes of one block, with a new version *)

Definition apply_change (f : method BlockStore CrdtError ()) : client_method () :=
  on_doc Merge f;; on_sync bump_version.

Definition apply_status_change (id : BlockId) (v : Status) := apply_change (set_status id v).
Definition apply_output_change (id : BlockId) (v : option OutputData) :=
  apply_change (set_output id v).
Definition apply_metadata_change (id : BlockId) (md : BlockMetadata) : client_method () :=
  apply_change (
    set_exit_code id (md_exit_code md);;
    set_stderr id (md_stderr md);;
    set_content_type id (md_content_type md);;
    set_ephemeral id (md_ephemeral md);;
    set_tool_use_id id (md_tool_use_id md)).
Definition apply_delete (id : BlockId) := apply_change (delete_block id).
Definition apply_collapsed_change (id : BlockId) (v : bool) := apply_change (set_collapsed id v).
Definition apply_excluded_change (id : BlockId) (v : bool) := apply_change (set_excluded id v).
Definition apply_move (id : BlockId) (after : option BlockId) := apply_change (move_block id after).
End sync.
