(* ===== verification/SyncInv.v ===== *)
(** * What a client's sync manager keeps

    The manager of [Sync.v]: a remembered frontier is the frontier of the store it
    works on, the buffer is bounded, and a snapshot always brings a client back. *)

From S2P Require Import Prelude MethodLogic Text Tick Ids Track Cas Cell Concrete Block OrderKey Hydrate BlockContent Convergence Selection BlockStore StoreInv StoreOps StoreOrder StoreDoc StoreFork StoreRestore StoreDemo Sync.

Section inv.
Context {json : JsonLib} {blib : BlockLib} {dte : Dte} {laws : DteLaws} {uuids : UuidCrate}.
Context {snap_cbor : Cbor StoreSnapshot} {payload_cbor : Cbor SyncPayload}.
Implicit Types (m : SyncManager) (c : Client).

Record client_ok c : Prop := {
  cl_synced f : sm_frontier (cl_sync c) = Some f → f = frontier (cl_doc c);
  cl_pending : (length (sm_pending_ops (cl_sync c)) ≤ MAX_PENDING_OPS)%nat;
}.

(** ** Merging *)

(** What is left alone by a merge: the tracked context and the buffer. *)
Definition same_tracking m m' : Prop :=
  sm_context_id m' = sm_context_id m ∧ sm_pending_ops m' = sm_pending_ops m.

Lemma do_incremental_merge_run ops c r c' :
  do_incremental_merge ops c = Some (r, c') →
  same_tracking (cl_sync c) (cl_sync c') ∧
  match r with
  | Ok res => res = IncrementalMerge ∧ sm_frontier (cl_sync c') = Some (frontier (cl_doc c'))
  | Err _ => sm_frontier (cl_sync c') = None
  end.
Proof.
  unfold do_incremental_merge, on_sync, m_try, on_doc, take_frontier, mbind, method_bind, m_bind.
  destruct (decode ops) as [payload|e]; [|intros [= <- <-]; by split].
  destruct (merge_ops payload (cl_doc c)) as [[[[]|e] d]|]; [..|done]; intros [= <- <-]; by split.
Qed.

Lemma merge_keeps_ok ops c r c' :
  client_ok c → do_incremental_merge ops c = Some (r, c') → client_ok c'.
Proof.
  intros [Hs Hp] Hr. apply do_incremental_merge_run in Hr as [[_ E] Hr].
  split; [|by rewrite E]. intros f. destruct r as [res|e]; [destruct Hr as [_ ->]|by rewrite Hr].
  by intros [= <-].
Qed.

(** The replay does not add to what it replays. *)
Lemma replay_loop_run todo still c r c' :
  client_ok c → replay_loop todo still c = Some (r, c') →
  client_ok c' ∧ same_tracking (cl_sync c) (cl_sync c') ∧
  ∃ left, r = Ok left ∧ (length left ≤ length still + length todo)%nat.
Proof.
  revert still c. induction todo as [|[id ops] todo IH]; intros still c Hok; cbn [replay_loop length].
  { intros [= <- <-]. split_and!; [done|done|]. exists still. split; [done|lia]. }
  unfold m_try, mbind, method_bind, m_bind.
  destruct (do_incremental_merge ops c) as [[r1 c1]|] eqn:E; [|done].
  pose proof (merge_keeps_ok _ _ _ _ Hok E) as Hok1.
  apply do_incremental_merge_run in E as [[E1 E2] _].
  assert (∀ still', (length still' ≤ S (length still))%nat →
    replay_loop todo still' c1 = Some (r, c') →
    client_ok c' ∧ same_tracking (cl_sync c) (cl_sync c') ∧
    ∃ left, r = Ok left ∧ (length left ≤ length still + S (length todo))%nat) as Hrec.
  { intros still' Hl Hr. destruct (IH still' c1 Hok1 Hr) as (?&[F1 F2]&left&->&?).
    split_and!; [done|split; congruence|]. exists left. split; [done|lia]. }
  destruct r1 as [res|[]]; intros Hr; (eapply Hrec; [|exact Hr]); rewrite ?length_app; cbn; lia.
Qed.

Lemma replay_pending_run c r c' :
  client_ok c → replay_pending_ops c = Some (r, c') →
  client_ok c' ∧ r = Ok tt ∧ sm_context_id (cl_sync c') = sm_context_id (cl_sync c) ∧
  (sm_pending_ops (cl_sync c) = [] → c' = c).
Proof.
  intros Hok. unfold replay_pending_ops, on_sync, mbind, method_bind, m_bind. cbn [m_get].
  destruct (sm_pending_ops (cl_sync c)) as [|op ops] eqn:Ep; [intros [= <- <-]; done|].
  cbn [m_modify]. set (c1 := c <| cl_sync := _ |>).
  destruct (replay_loop (op :: ops) [] c1) as [[[left|e] c2]|] eqn:E; [| |done].
  - assert (client_ok c1) as Hok1 by (destruct Hok; split; [done|cbn; lia]).
    destruct (replay_loop_run _ _ _ _ _ Hok1 E) as (Hok2&[F1 _]&left'&[= ->]&Hl).
    intros [= <- <-]. split; [|done]. destruct Hok2, Hok as [_ Hp]. rewrite Ep in Hp.
    split; [done|]. cbn in Hl, Hp |- *. lia.
  - assert (client_ok c1) as Hok1 by (destruct Hok; split; [done|cbn; lia]).
    destruct (replay_loop_run _ _ _ _ _ Hok1 E) as (_&_&?&[=]&_).
Qed.

Lemma full_sync_run now ctx buf c r c' :
  full_sync now ctx buf c = Some (r, c') →
  match r with
  | Ok n => n = block_count (cl_doc c') ∧
      sm_frontier (cl_sync c') = Some (frontier (cl_doc c')) ∧
      sm_context_id (cl_sync c') = Some ctx ∧
      sm_pending_ops (cl_sync c') = sm_pending_ops (cl_sync c)
  | Err _ => c' = c
  end.
Proof.
  unfold full_sync, mbind, method_bind, m_bind. destruct (decode buf); [|by intros [= <- <-]].
  cbn [m_get]. destruct (store_from_snapshot _ _ _) as [[d|e]|]; [..|done]; by intros [= <- <-].
Qed.

Lemma full_sync_keeps_ok now ctx buf c r c' :
  client_ok c → full_sync now ctx buf c = Some (r, c') → client_ok c'.
Proof.
  intros Hok Hr. apply full_sync_run in Hr. destruct r as [n|e]; [|by subst].
  destruct Hr as (_&Hf&_&Hp), Hok as [_ Hl]. split; [|by rewrite Hp]. rewrite Hf. by intros f [= <-].
Qed.

Lemma buffer_keeps_ok id ops c :
  client_ok c → client_ok (c <| cl_sync := buffer_failed_ops id ops (cl_sync c) |>).
Proof.
  intros [Hs Hp]. unfold buffer_failed_ops. case_match eqn:E.
  - by split; [|cbn; lia].
  - apply Nat.leb_gt in E. split; [done|]. cbn. rewrite length_app. cbn. lia.
Qed.

Lemma then_replay_ok r0 c r c' :
  client_ok c → then_replay r0 c = Some (r, c') → client_ok c'.
Proof.
  intros Hok. unfold then_replay, mbind, method_bind, m_bind.
  destruct r0 as [res|e]; [|by intros [= <- <-]].
  destruct (replay_pending_ops c) as [[r1 c1]|] eqn:E; [|done].
  apply replay_pending_run in E as (?&->&_); [|done]. by intros [= <- <-].
Qed.

(** ** Changes of one block *)

(** A store method that leaves the text documents alone. *)
Definition same_frontier (s s' : BlockStore) : Prop := frontier s' = frontier s.
#[export] Instance same_frontier_preorder : PreOrder same_frontier.
Proof. split; [by intros s|]. intros s1 s2 s3. unfold same_frontier. congruence. Qed.

Abbreviation textless f := (triple same_frontier (λ _, True) f (λ _ _, True)).

Lemma textless_bind {A B} (f : method BlockStore CrdtError A) (k : A → method BlockStore CrdtError B) :
  textless f → (∀ a, textless (k a)) → textless (f ≫= k).
Proof. intros Hf Hk. apply (triple_bind _ _ _ (λ _ _, True)); auto. Qed.

Lemma textless_tick : textless store_tick.
Proof. intros s r s' _ [= <- <-]. done. Qed.

Lemma textless_update (get : BlockStore → BlockId → option BlockContent) id f :
  (∀ s b, get s id = Some b → bs_blocks s !! id = Some b) →
  (∀ b, block_frontier (f b) = block_frontier b) →
  textless (update_found get id (λ b, m_ret (f b))).
Proof.
  intros Hg Hf s r s' _. unfold update_found, put_block, mbind, method_bind, m_bind. cbn.
  destruct (get s id) as [b|] eqn:E; [|by intros [= <- <-]]. intros [= <- <-]. split; [|done].
  unfold same_frontier, frontier. cbn. rewrite fmap_insert, Hf. apply insert_id.
  by rewrite lookup_fmap, (Hg _ _ E).
Qed.

Lemma textless_live id f :
  (∀ b, block_frontier (f b) = block_frontier b) → textless (update_live id (λ b, m_ret (f b))).
Proof. apply textless_update. intros s b Hb. by apply get_live_Some in Hb as [? _]. Qed.
Lemma textless_any id f :
  (∀ b, block_frontier (f b) = block_frontier b) → textless (update_any id (λ b, m_ret (f b))).
Proof. by apply textless_update. Qed.

Lemma textless_pure {A} (f : method BlockStore CrdtError A) :
  (∀ s, match f s with Some (_, s') => s' = s | None => True end) → textless f.
Proof.
  intros Hf s r s' _ E. specialize (Hf s). rewrite E in Hf. subst. split; [done|]. by destruct r.
Qed.

Lemma textless_check id : textless (check_ref id).
Proof.
  apply textless_pure. intros s. destruct id as [i|]; [|done].
  unfold check_ref, m_guard, mbind, method_bind, m_bind. cbn. by destruct (is_live s i).
Qed.

(** The setters of [Sync.v]. *)
Inductive block_change (id : BlockId) : method BlockStore CrdtError () → Prop :=
  | change_status v : block_change id (set_status id v)
  | change_output v : block_change id (set_output id v)
  | change_metadata md : block_change id
      (set_exit_code id (md_exit_code md);; set_stderr id (md_stderr md);;
       set_content_type id (md_content_type md);; set_ephemeral id (md_ephemeral md);;
       set_tool_use_id id (md_tool_use_id md))
  | change_delete : block_change id (delete_block id)
  | change_collapsed v : block_change id (set_collapsed id v)
  | change_excluded v : block_change id (set_excluded id v)
  | change_move after : block_change id (move_block id after).

Ltac textless :=
  repeat match goal with
  | |- triple _ _ (update_live _ _) _ => by apply textless_live
  | |- triple _ _ (update_any _ _) _ => by apply textless_any
  | |- triple _ _ store_tick _ => apply textless_tick
  | |- triple _ _ (check_ref _) _ => apply textless_check
  | |- triple _ _ (_ ≫= _) _ => apply textless_bind; [|intros ?]
  end.

Lemma block_change_textless id f : block_change id f → textless f.
Proof.
  destruct 1; unfold set_status, set_output, delete_block, set_collapsed, set_excluded,
    set_exit_code, set_stderr, set_content_type, set_ephemeral, set_tool_use_id, move_block;
    textless.
  - by apply textless_pure.
  - apply textless_pure. intros s. unfold m_guard. by destruct (is_live _ id).
  - apply textless_pure. intros s. unfold m_lift. by destruct (calc_order_key _ _ _).
Qed.

Lemma apply_change_ok id f c r c' :
  block_change id f → client_ok c → apply_change f c = Some (r, c') → client_ok c'.
Proof.
  intros Hf [Hs Hp]. unfold apply_change, on_doc, on_sync, mbind, method_bind, m_bind.
  destruct (f (cl_doc c)) as [[r1 d]|] eqn:E; [|done].
  destruct (block_change_textless id f Hf _ _ _ I E) as [Hfr _].
  destruct r1; intros [= <- <-]; (split; [|done]); intros g Hg; cbn in Hg |- *;
    rewrite (Hs g Hg); symmetry; exact Hfr.
Qed.

(** ** Histories *)

Inductive client_step c : Client → Prop :=
  | step_initial now ctx buf r c' :
      apply_initial_state now ctx buf c = Some (r, c') → client_step c c'
  | step_inserted now ctx block ops r c' :
      apply_block_inserted now ctx block ops c = Some (r, c') → client_step c c'
  | step_text ctx ops r c' : apply_text_ops ctx ops c = Some (r, c') → client_step c c'
  | step_change id f r c' :
      block_change id f → apply_change f c = Some (r, c') → client_step c c'
  | step_reset : client_step c (c <| cl_sync := sync_reset (cl_sync c) |>)
  | step_reset_frontier : client_step c (c <| cl_sync := reset_frontier (cl_sync c) |>).

Lemma apply_initial_ok now ctx buf c r c' :
  client_ok c → apply_initial_state now ctx buf c = Some (r, c') → client_ok c'.
Proof.
  intros Hok. unfold apply_initial_state. destruct buf as [|b0 buf]; [by intros [= <- <-]|].
  unfold mbind, method_bind, m_bind.
  destruct (full_sync now ctx (b0 :: buf) c) as [[r1 c1]|] eqn:E; [|done].
  pose proof (full_sync_keeps_ok _ _ _ _ _ _ Hok E) as Hok1.
  destruct r1 as [n|e]; [|by intros [= <- <-]].
  destruct (replay_pending_ops c1) as [[r2 c2]|] eqn:E2; [|done].
  apply replay_pending_run in E2 as (?&->&_); [|done]. by intros [= <- <-].
Qed.

Lemma apply_inserted_ok now ctx block ops c r c' :
  client_ok c → apply_block_inserted now ctx block ops c = Some (r, c') → client_ok c'.
Proof.
  intros Hok. unfold apply_block_inserted, do_full_sync, on_sync, m_try, mbind, method_bind, m_bind.
  cbn [m_get]. case_match; [by intros [= <- <-]|]. case_match; [by intros [= <- <-]|].
  destruct ops as [|o ops]; [by intros [= <- <-]|].
  destruct (needs_full_sync _ _);
    (destruct (do_incremental_merge (o :: ops) c) as [[r1 c1]|] eqn:E1; [|done]);
    pose proof (merge_keeps_ok _ _ _ _ Hok E1) as Hok1; [|by apply (then_replay_ok r1)].
  destruct r1 as [res|e1]; [by apply (then_replay_ok (Ok res))|]. cbn.
  destruct (full_sync now ctx (o :: ops) c1) as [[r2 c2]|] eqn:E2; [|done].
  pose proof (full_sync_keeps_ok _ _ _ _ _ _ Hok1 E2) as Hok2.
  destruct r2 as [n|e2]; [by apply (then_replay_ok (Ok (FullSync n)))|].
  apply (then_replay_ok (Err e2)). by apply buffer_keeps_ok.
Qed.

Lemma apply_text_ok ctx ops c r c' :
  client_ok c → apply_text_ops ctx ops c = Some (r, c') → client_ok c'.
Proof.
  intros Hok. unfold apply_text_ops, on_sync, m_try, mbind, method_bind, m_bind.
  cbn [m_get]. case_match; [by intros [= <- <-]|]. case_match; [by intros [= <- <-]|].
  destruct ops as [|o ops]; [by intros [= <- <-]|].
  destruct (do_incremental_merge (o :: ops) c) as [[r1 c1]|] eqn:E1; [|done].
  pose proof (merge_keeps_ok _ _ _ _ Hok E1) as Hok1.
  destruct r1 as [res|[e|e|e]]; try by apply (then_replay_ok _ c1).
  apply (then_replay_ok (Err (Merge e))). by apply buffer_keeps_ok.
Qed.

Lemma client_step_ok c c' : client_ok c → client_step c c' → client_ok c'.
Proof.
  intros Hok [now ctx buf r c1 H|now ctx block ops r c1 H|ctx ops r c1 H|id f r c1 Hf H| |].
  - by eapply apply_initial_ok.
  - by eapply apply_inserted_ok.
  - by eapply apply_text_ok.
  - by eapply apply_change_ok.
  - destruct Hok. by split.
  - split; [done|]. cbn. lia.
Qed.

Lemma needs_full_sync_spec m ctx :
  needs_full_sync m ctx = false ↔ sm_frontier m ≠ None ∧ sm_context_id m = Some ctx.
Proof.
  unfold needs_full_sync. rewrite orb_false_iff, negb_false_iff, bool_decide_eq_false, bool_decide_eq_true.
  done.
Qed.

(** C8: a client over any history of events, whatever they carry and however they end:
    a remembered frontier is the frontier of the store, so incremental merges start
    where the store is; the buffer of failed operations never exceeds its bound;
    events for another context, and insertions of a block that is there, change
    nothing; and text operations never change a client that waits for a full sync. *)
Theorem sync_history c0 c (H0 : client_ok c0) (H : rtc client_step c0 c) :
  (∀ f, sm_frontier (cl_sync c) = Some f → f = frontier (cl_doc c)) ∧
  pending_ops_count (cl_sync c) ≤ Z.of_nat MAX_PENDING_OPS ∧
  (∀ now ctx block ops, ctx ≠ bs_context_id (cl_doc c) →
     apply_block_inserted now ctx block ops c =
       Some (Ok (Skipped (DocumentIdMismatch (bs_context_id (cl_doc c)) ctx)), c) ∧
     apply_text_ops ctx ops c =
       Some (Ok (Skipped (DocumentIdMismatch (bs_context_id (cl_doc c)) ctx)), c)) ∧
  (∀ now block ops, get_block_snapshot (cl_doc c) (sn_id block) ≠ None →
     apply_block_inserted now (bs_context_id (cl_doc c)) block ops c =
       Some (Ok (Skipped BlockAlreadyExists), c)) ∧
  (∀ ops, needs_full_sync (cl_sync c) (bs_context_id (cl_doc c)) = true →
     apply_text_ops (bs_context_id (cl_doc c)) ops c = Some (Ok (Skipped EmptyOplog), c)).
Proof.
  assert (client_ok c) as [Hs Hp].
  { clear -H0 H laws. induction H as [|c0 c1 c2 Hstep _ IH]; [done|].
    by eapply IH, client_step_ok. }
  split; [exact Hs|]. split; [unfold pending_ops_count; lia|].
  unfold apply_block_inserted, apply_text_ops, mbind, method_bind, m_bind. cbn [m_get].
  split_and!.
  - intros now ctx block ops Hne. by rewrite bool_decide_false.
  - intros now block ops Hb. rewrite bool_decide_true by done. cbn [negb].
    rewrite bool_decide_true by (by apply not_eq_None_Some). done.
  - intros ops Hn. rewrite bool_decide_true by done. cbn [negb]. by rewrite Hn.
Qed.

Lemma block_count_doc (s : BlockStore) :
  ids_ok s → block_count s = Z.of_nat (length (blocks_ordered s)).
Proof.
  intros Hok. unfold block_count. rewrite blocks_ordered_doc, length_fmap.
  by rewrite <- (live_iter_doc s Hok), length_fmap.
Qed.

(** C28: a snapshot of the server always brings a client back. Whatever the client and
    its store have become, after a reset the snapshot of a well-formed store is
    accepted: the client then has the document of the server under its own author,
    nothing waits in its buffer and it takes text operations again. *)
Theorem sync_recovers c now (s : BlockStore) buf {cbor_laws : CborLaws StoreSnapshot}
    (Hok : store_ok s) (Hroom : roomy s) (Hticked : all_ticked s)
    (Hbuf : encode (store_snapshot s) = Ok buf) :
  let ctx := bs_context_id s in
  ∃ c', apply_initial_state now ctx buf (c <| cl_sync := reset_frontier (cl_sync c) |>) =
          Some (Ok (FullSync (block_count s)), c') ∧
    blocks_ordered (cl_doc c') = blocks_ordered s ∧ store_ok (cl_doc c') ∧
    bs_principal_id (cl_doc c') = bs_principal_id (cl_doc c) ∧
    needs_full_sync (cl_sync c') (bs_context_id (cl_doc c')) = false ∧
    sm_pending_ops (cl_sync c') = [].
Proof.
  intros ctx.
  destruct (restored_store s (bs_principal_id (cl_doc c)) now Hok Hroom Hticked)
    as (f&n&Hr&Hok'&Hctx&Hp&Hord&_).
  set (d := f <| bs_next_tick := n |>) in *.
  assert (block_count d = block_count s) as Hcount.
  { rewrite !block_count_doc by (apply Hok || apply Hok'). by rewrite Hord. }
  set (c1 := c <| cl_sync := reset_frontier (cl_sync c) |>).
  assert (∃ c2, full_sync now ctx buf c1 = Some (Ok (block_count s), c2) ∧ cl_doc c2 = d) as (c2&Hf&Hd).
  { unfold full_sync. rewrite (decode_encode _ _ Hbuf). unfold mbind, method_bind, m_bind.
    cbn [m_get]. change (bs_principal_id (cl_doc c1)) with (bs_principal_id (cl_doc c)).
    rewrite Hr. eexists. split; [by rewrite Hcount|done]. }
  pose proof (full_sync_run _ _ _ _ _ _ Hf) as (_&Hfr&Hc&Hpend).
  exists c2. unfold apply_initial_state. destruct buf as [|b0 buf].
  { unfold encode in Hbuf. by destruct (cbor_write _). }
  unfold mbind, method_bind, m_bind. rewrite Hf.
  assert (replay_pending_ops c2 = Some (Ok tt, c2)) as Hrep.
  { unfold replay_pending_ops, mbind, method_bind, m_bind. cbn [m_get]. by rewrite Hpend. }
  rewrite Hrep, Hd. split_and!; try done.
  apply needs_full_sync_spec. rewrite Hfr, Hc. split; [done|]. unfold ctx. by rewrite <- Hctx.
Qed.

(** After text operations that did not merge, further text operations are skipped and
    not buffered, whatever they are. *)
Lemma text_ops_lost ctx ops c e c' :
  client_ok c → apply_text_ops ctx ops c = Some (Err (Merge e), c') →
  ∀ ops', bs_context_id (cl_doc c') = ctx →
    apply_text_ops ctx ops' c' = Some (Ok (Skipped EmptyOplog), c').
Proof.
  intros Hok Hr ops' Hctx.
  assert (sm_frontier (cl_sync c') = None) as Hn.
  { revert Hr. unfold apply_text_ops, on_sync, m_try, mbind, method_bind, m_bind. cbn [m_get].
    case_match; [done|]. case_match; [done|]. destruct ops as [|o ops]; [done|].
    destruct (do_incremental_merge (o :: ops) c) as [[r1 c1]|] eqn:E1; [|done].
    pose proof (merge_keeps_ok _ _ _ _ Hok E1) as Hok1.
    apply do_incremental_merge_run in E1 as [_ E1]. destruct r1 as [res|e1].
    - unfold then_replay, mbind, method_bind, m_bind.
      destruct (replay_pending_ops c1) as [[r2 c2]|] eqn:E2; [|done].
      apply replay_pending_run in E2 as (_&->&_); [done|exact Hok1].
    - destruct e1; intros [= -> <-]; cbn; try done; unfold buffer_failed_ops; by case_match. }
  unfold apply_text_ops, mbind, method_bind, m_bind. cbn [m_get].
  rewrite Hctx, bool_decide_true by done. cbn [negb].
  replace (needs_full_sync (cl_sync c') ctx) with true; [done|].
  unfold needs_full_sync. by rewrite bool_decide_true.
Qed.
End inv.

(** * A client of the demo store *)

Import DemoDoc.

#[export] Instance BlockSnapshot_eq_dec `{!JsonLib, !BlockLib} : EqDecision BlockSnapshot.
Proof. solve_decision. Defined.
#[export] Instance demo_snapshot_eq_dec : EqDecision StoreSnapshot.
Proof. assert (EqDecision Ops) by (cbn; solve_decision). solve_decision. Defined.

(** A CBOR crate that knows one snapshot, and one payload: the reply of [demo_insert]. *)
#[export] Instance demo_snap_cbor : Cbor StoreSnapshot := {|
  cbor_write v := if decide (v = store_snapshot demo_store) then Some [] else None;
  cbor_read b := Some (store_snapshot demo_store);
|}.
#[export] Instance demo_snap_cbor_laws : CborLaws StoreSnapshot.
Proof. intros v b. unfold cbor_write. cbn. by case_decide as E; [rewrite E|]. Qed.

Definition demo_reply : SyncPayload :=
  ops_since (ran demo_insert demo_store) (frontier demo_store).
#[export] Instance demo_payload_cbor : Cbor SyncPayload := {|
  cbor_write _ := Some [];
  cbor_read _ := Some demo_reply;
|}.

Definition demo_viewer : PrincipalId := {| principal_uuid := 40 |}.
Definition demo_client : Client := {|
  cl_sync := sync_new;
  cl_doc := store_new (context_id (demo_id 0)) demo_viewer;
|}.

Definition demo_reply_block : BlockSnapshot :=
  match get_block_snapshot (ran demo_insert demo_store) (demo_id 1) with
  | Some b => b
  | None => block_snapshot demo_first
  end.

Definition after {A} (f : method Client SyncError A) (c : Client) : Client :=
  match f c with Some (_, c') => c' | None => c end.

Lemma after_run {A} (f : method Client SyncError A) c r :
  option_map fst (f c) = Some r → f c = Some (r, after f c).
Proof. unfold after. destruct (f c) as [[r' c']|]; [|done]. cbn. by intros [= ->]. Qed.

Definition demo_join : method Client SyncError SyncResult :=
  apply_initial_state 9 (context_id (demo_id 0)) [FORMAT_V1].
Definition demo_grow : method Client SyncError SyncResult :=
  apply_block_inserted 9 (context_id (demo_id 0)) demo_reply_block [FORMAT_V1].

(** A client joins and gets the reply. *)
Definition demo_joined : Client := after demo_grow (after demo_join demo_client).

Lemma demo_client_ok : client_ok demo_client.
Proof. split; [done|cbn; lia]. Qed.

Lemma demo_client_history : rtc client_step demo_client demo_joined.
Proof.
  eapply rtc_l; [|apply rtc_once].
  - apply (step_initial _ 9 (context_id (demo_id 0)) [FORMAT_V1] (Ok (FullSync 1))).
    apply (after_run demo_join). vm_compute. reflexivity.
  - apply (step_inserted _ 9 (context_id (demo_id 0)) demo_reply_block [FORMAT_V1]
      (Ok IncrementalMerge)).
    apply (after_run demo_grow). vm_compute. reflexivity.
Qed.

Lemma sync_history_witness :
  block_ids_ordered (cl_doc demo_joined) = [demo_id 0; demo_id 1] ∧
  apply_block_inserted 9 (context_id (demo_id 0)) demo_reply_block [FORMAT_V1] demo_joined =
    Some (Ok (Skipped BlockAlreadyExists), demo_joined).
Proof.
  split; [vm_compute; reflexivity|].
  destruct (sync_history _ _ demo_client_ok demo_client_history) as (_&_&_&H&_).
  apply (H 9 demo_reply_block [FORMAT_V1]).
  intros E. assert (is_Some (get_block_snapshot (cl_doc demo_joined) (sn_id demo_reply_block))) as [? E'].
  { apply (bool_decide_unpack _). vm_compute. exact I. }
  rewrite E' in E. discriminate E.
Defined.

Lemma sync_recovers_witness :
  ∃ c', apply_initial_state 9 (context_id (demo_id 0)) [FORMAT_V1]
          (demo_joined <| cl_sync := reset_frontier (cl_sync demo_joined) |>) =
          Some (Ok (FullSync 1), c') ∧
        blocks_ordered (cl_doc c') = blocks_ordered demo_store.
Proof.
  assert (encode (store_snapshot demo_store) = Ok [FORMAT_V1]) as Hbuf.
  { unfold encode, cbor_write. cbn -[store_snapshot demo_store decide]. by rewrite decide_True. }
  destruct (sync_recovers demo_joined 9 demo_store [FORMAT_V1]
    demo_store_ok demo_store_roomy demo_store_ticked Hbuf) as (c'&Hr&Hd&_).
  exists c'. exact (conj Hr Hd).
Defined.

(** A client whose first event is an insertion merges it and remembers the frontier,
    but not the context: text operations are still skipped. *)
Example first_insert_not_synced :
  let c := after demo_grow demo_client in
  option_map fst (demo_grow demo_client) = Some (Ok IncrementalMerge) ∧
  block_ids_ordered (cl_doc c) = [demo_id 1] ∧
  sm_frontier (cl_sync c) ≠ None ∧
  needs_full_sync (cl_sync c) (context_id (demo_id 0)) = true ∧
  option_map fst (apply_text_ops (context_id (demo_id 0)) [FORMAT_V1] c) =
    Some (Ok (Skipped EmptyOplog)).
Proof. split_and!; try (vm_compute; reflexivity). by vm_compute. Qed.
