(* ===== verification/VfsPath.v ===== *)
(** * Paths of the virtual file system

    What the source uses of [std::path] on Unix: a path is its text, read as
    components; paths are equal when their components are. *)

From Stdlib Require Import Ascii.
From S2P Require Import Prelude Text.

Inductive Component :=
  | RootDir
  | CurDir
  | ParentDir
  | Normal (s : string).

#[export] Instance Component_eq_dec : EqDecision Component.
Proof. solve_decision. Defined.
#[export] Instance Component_countable : Countable Component.
Proof.
  refine (inj_countable'
    (λ c, match c with
          | RootDir => inl 0%nat | CurDir => inl 1%nat | ParentDir => inl 2%nat
          | Normal s => inr s
          end)
    (λ x, match x with
          | inl 0%nat => RootDir | inl 1%nat => CurDir | inl _ => ParentDir
          | inr s => Normal s
          end) _).
  by intros [].
Defined.

Definition slash : ascii := "/"%char.

(** [str::split('/')]. *)
Fixpoint split_slash (s : string) : list string :=
  match s with
  | "" => [""]
  | String c s' =>
      if bool_decide (c = slash) then "" :: split_slash s'
      else match split_slash s' with
           | p :: ps => String c p :: ps
           | [] => [String c ""]
           end
  end.

(** A piece between separators; repeated separators and [.] vanish. *)
Definition piece (s : string) : option Component :=
  if bool_decide (s = "") || bool_decide (s = ".") then None
  else if bool_decide (s = "..") then Some ParentDir
  else Some (Normal s).

(** [Path::components]. *)
Definition components (path : string) : list Component :=
  let pieces := split_slash path in
  if starts_with path "/" then RootDir :: omap piece pieces
  else match pieces with
       | p :: rest => if bool_decide (p = ".") then CurDir :: omap piece rest
                      else omap piece pieces
       | [] => []
       end.

(** A name that is a [Normal] component. *)
Definition is_name (s : string) : Prop :=
  s ≠ "" ∧ s ≠ "." ∧ s ≠ ".." ∧ contains_char s slash = false.

(** [Path::display] of names joined by separators. *)
Fixpoint join_names (l : list string) : string :=
  match l with
  | [] => ""
  | [s] => s
  | s :: l' => s +:+ "/" +:+ join_names l'
  end.

(** ** Splitting *)

Lemma split_slash_cons s : ∃ p ps, split_slash s = p :: ps.
Proof.
  destruct s as [|c s]; cbn; [by eexists _, _|]. case_bool_decide; [by eexists _, _|].
  destruct (split_slash s); by eexists _, _.
Qed.

Lemma split_slash_app a b : split_slash (a +:+ String slash b) = split_slash a ++ split_slash b.
Proof.
  induction a as [|c a IH].
  - rewrite str_app_nil_l. cbn. by rewrite bool_decide_true.
  - rewrite str_app_cons. cbn [split_slash]. rewrite IH. case_bool_decide; [done|].
    destruct (split_slash_cons a) as (p&ps&->). done.
Qed.

Lemma split_slash_single s : contains_char s slash = false → split_slash s = [s].
Proof.
  induction s as [|c s IH]; [done|]. cbn. intros [Hc Hs]%orb_false_iff. rewrite Hc.
  by rewrite (IH Hs).
Qed.

Lemma split_slash_pieces s p : p ∈ split_slash s → contains_char p slash = false.
Proof.
  revert p. induction s as [|c s IH]; intros p; cbn; [by intros ->%list_elem_of_singleton|].
  case_bool_decide as Hc; [intros [->|Hp]%elem_of_cons; [done|by apply IH]|].
  destruct (split_slash_cons s) as (q&qs&E). rewrite E in IH |- *.
  intros [->|Hp]%elem_of_cons; [|apply IH; by right].
  cbn. rewrite bool_decide_false by done. apply IH. by left.
Qed.

Lemma piece_name s : is_name s → piece s = Some (Normal s).
Proof. intros (?&?&?&?). unfold piece. by rewrite !bool_decide_false. Qed.

Lemma piece_Normal p s : contains_char p slash = false → piece p = Some (Normal s) → p = s ∧ is_name s.
Proof.
  unfold piece. intros Hp. repeat case_bool_decide; cbn; try done. intros [= ->]. by split.
Qed.

Lemma components_join l :
  Forall is_name l → components (join_names l) = Normal <$> l.
Proof.
  assert (∀ l, Forall is_name l → omap piece (split_slash (join_names l)) = Normal <$> l) as Hsplit.
  { clear l. induction 1 as [|s l Hs Hl IH]; [done|]. destruct l as [|s' l].
    - cbn [join_names]. rewrite split_slash_single by apply Hs. cbn. by rewrite piece_name.
    - change (join_names (s :: s' :: l)) with (s +:+ String slash (join_names (s' :: l))).
      rewrite split_slash_app, split_slash_single, omap_app, IH by apply Hs.
      cbn. by rewrite piece_name. }
  intros Hl. unfold components. rewrite (Hsplit _ Hl).
  assert (starts_with (join_names l) "/" = false ∧ ∀ rest, split_slash (join_names l) ≠ "." :: rest) as [-> Hdot].
  { destruct Hl as [|s l (Hs1&Hs2&_&Hs3) Hl]; [by split|]. split.
    - destruct s as [|c s]; [done|]. cbn in Hs3. apply orb_false_iff in Hs3 as [Hc _].
      apply bool_decide_eq_false in Hc.
      destruct l; cbn [join_names]; rewrite ?str_app_cons; cbn [starts_with];
        by rewrite bool_decide_false.
    - intros rest E. apply Hs2. destruct l as [|s' l].
      + cbn [join_names] in E. rewrite split_slash_single in E by done. congruence.
      + change (join_names (s :: s' :: l)) with (s +:+ String slash (join_names (s' :: l))) in E.
        rewrite split_slash_app, split_slash_single in E by done. cbn in E. congruence. }
  destruct (split_slash_cons (join_names l)) as (p&ps&E). rewrite E in Hdot |- *.
  rewrite bool_decide_false; [done|].
  intros ->. by destruct (Hdot ps).
Qed.
