(* ===== verification/Vfs.v ===== *)
(** * The interface of the virtual file system ([kaijutsu-kernel/src/vfs])

    [types.rs], [error.rs] and [ops.rs]: attributes, errors, and the trait [VfsOps]
    as a class over the state of a backend. A clock reading is an argument [now]. *)

From S2P Require Import Prelude Text VfsPath.

(** ** Types *)

Inductive FileType := TFile | TDirectory | TSymlink.
#[export] Instance FileType_eq_dec : EqDecision FileType.
Proof. solve_decision. Defined.

Definition is_file (k : FileType) : bool := bool_decide (k = TFile).
Definition is_dir (k : FileType) : bool := bool_decide (k = TDirectory).
Definition is_symlink (k : FileType) : bool := bool_decide (k = TSymlink).

Record FileAttr := {
  fa_size : Z;
  fa_kind : FileType;
  fa_perm : Z;
  fa_mtime : Z;
  fa_generation : Z;
  fa_atime : option Z;
  fa_ctime : option Z;
  fa_nlink : Z;
  fa_uid : option Z;
  fa_gid : option Z;
}.
#[export] Instance FileAttr_settable : Settable FileAttr := λ a, {|
  fa_size := fa_size a; fa_kind := fa_kind a; fa_perm := fa_perm a; fa_mtime := fa_mtime a;
  fa_generation := fa_generation a; fa_atime := fa_atime a; fa_ctime := fa_ctime a;
  fa_nlink := fa_nlink a; fa_uid := fa_uid a; fa_gid := fa_gid a |}.

Definition attr_file (now size perm : Z) : FileAttr := {|
  fa_size := size; fa_kind := TFile; fa_perm := perm; fa_mtime := now; fa_generation := 0;
  fa_atime := Some now; fa_ctime := Some now; fa_nlink := 1; fa_uid := None; fa_gid := None |}.

Definition attr_directory (now perm : Z) : FileAttr := {|
  fa_size := 0; fa_kind := TDirectory; fa_perm := perm; fa_mtime := now; fa_generation := 0;
  fa_atime := Some now; fa_ctime := Some now; fa_nlink := 2; fa_uid := None; fa_gid := None |}.

Definition attr_symlink (now target_len : Z) : FileAttr := {|
  fa_size := target_len; fa_kind := TSymlink; fa_perm := 511; fa_mtime := now;
  fa_generation := 0; fa_atime := Some now; fa_ctime := Some now; fa_nlink := 1;
  fa_uid := None; fa_gid := None |}.

Record DirEntry := { de_name : string; de_kind : FileType }.
#[export] Instance DirEntry_eq_dec : EqDecision DirEntry.
Proof. solve_decision. Defined.

Record SetAttr := {
  set_size : option Z;
  set_mtime : option Z;
  set_atime : option Z;
  set_perm : option Z;
  set_uid : option Z;
  set_gid : option Z;
}.

(** ** Errors *)

Inductive IoKind := IoNotFound | IoPermissionDenied | IoOther.

Inductive VfsError :=
  | NotFound (path : string)
  | AlreadyExists (path : string)
  | PermissionDenied (what : string)
  | ReadOnly
  | NotADirectory (path : string)
  | IsADirectory (path : string)
  | DirectoryNotEmpty (path : string)
  | PathEscapesRoot (path : string)
  | InvalidPath (path : string)
  | NoMountPoint (path : string)
  | NotASymlink (path : string)
  | CrossDeviceLink
  | TooManySymlinks
  | NameTooLong
  | Io (k : IoKind)
  | ShareDisconnected (share : string)
  | ShareTimeout (share : string)
  | Other (what : string).

Definition is_permission_denied (e : VfsError) : bool :=
  match e with PermissionDenied _ | Io IoPermissionDenied => true | _ => false end.
Definition is_not_found (e : VfsError) : bool :=
  match e with NotFound _ | Io IoNotFound => true | _ => false end.

(** ** The trait *)

Notation byte := Init.Byte.byte.
Notation bytes := (list Init.Byte.byte).
Definition u32_max : Z := 4294967295.
(** [as u32]. *)
Definition as_u32 (z : Z) : Z := z mod 4294967296.

Definition STREAM_CHUNK_SIZE : Z := 256 * 1024.

Class VfsOps (FS : Type) := {
  v_getattr (now : Z) (path : string) : method FS VfsError FileAttr;
  v_readdir (path : string) : method FS VfsError (list DirEntry);
  v_read (path : string) (offset size : Z) : method FS VfsError bytes;
  v_readlink (path : string) : method FS VfsError string;
  v_write (now : Z) (path : string) (offset : Z) (data : bytes) : method FS VfsError Z;
  v_create (now : Z) (path : string) (mode : Z) : method FS VfsError FileAttr;
  v_mkdir (now : Z) (path : string) (mode : Z) : method FS VfsError FileAttr;
  v_unlink (path : string) : method FS VfsError ();
  v_rmdir (path : string) : method FS VfsError ();
  v_rename (now : Z) (from to : string) : method FS VfsError ();
  v_truncate (now : Z) (path : string) (size : Z) : method FS VfsError ();
  v_setattr (path : string) (attr : SetAttr) : method FS VfsError FileAttr;
  v_symlink (now : Z) (path target : string) : method FS VfsError FileAttr;
  v_link (oldpath newpath : string) : method FS VfsError FileAttr;
  v_read_only (fs : FS) : bool;
}.

(** Methods with a default body. *)
Section defaults.
Context {FS : Type} `{!VfsOps FS}.

Definition v_exists (now : Z) (path : string) : method FS VfsError bool := λ fs,
  match v_getattr now path fs with
  | Some (Ok _, fs') => Some (Ok true, fs')
  | Some (Err _, fs') => Some (Ok false, fs')
  | None => None
  end.

Definition v_read_all (now : Z) (path : string) : method FS VfsError bytes :=
  attr ← v_getattr now path;
  v_read path 0 (as_u32 (fa_size attr)).

Definition v_write_all (now : Z) (path : string) (data : bytes) : method FS VfsError () :=
  b ← v_exists now path;
  (if (b : bool) then v_truncate now path 0 else v_create now path 420;; m_ret tt);;
  v_write now path 0 data;;
  m_ret tt.

(** The chunks that [open_read_stream] yields when it is driven to its end; the fuel
    bounds the number of reads. *)
Fixpoint v_stream (fuel : nat) (path : string) (offset : Z) : method FS VfsError (list bytes) :=
  match fuel with
  | O => m_panic
  | S fuel' =>
      chunk ← v_read path offset STREAM_CHUNK_SIZE;
      match chunk with
      | [] => m_ret []
      | _ =>
          rest ← v_stream fuel' path (offset + Z.of_nat (length chunk));
          m_ret (chunk :: rest)
      end
  end.
End defaults.
