(* ===== verification/MemFs.v ===== *)
(** * The in-memory backend ([vfs/backends/memory.rs])

    The entries by normalized path, and the clock of generations. A panic while the
    entries are locked poisons the lock; every later call then fails. [HashMap]
    iterates in an order of its own, which is a parameter. *)

From S2P Require Import Prelude Text VfsPath Vfs.

Abbreviation Path := (list string).

Inductive Entry :=
  | File (data : bytes) (attr : FileAttr)
  | Directory (attr : FileAttr)
  | Symlink (target : string) (attr : FileAttr).

Definition entry_attr (e : Entry) : FileAttr :=
  match e with File _ a | Directory a | Symlink _ a => a end.
Definition attr_mut (f : FileAttr → FileAttr) (e : Entry) : Entry :=
  match e with
  | File d a => File d (f a)
  | Directory a => Directory (f a)
  | Symlink t a => Symlink t (f a)
  end.
Definition entry_kind (e : Entry) : FileType :=
  match e with File _ _ => TFile | Directory _ => TDirectory | Symlink _ _ => TSymlink end.

Record MemoryBackend := {
  mem_entries : gmap Path Entry;
  mem_gen_clock : Z;
  mem_poisoned : bool;
}.
#[export] Instance MemoryBackend_settable : Settable MemoryBackend := λ m,
  {| mem_entries := mem_entries m; mem_gen_clock := mem_gen_clock m;
     mem_poisoned := mem_poisoned m |}.

Class MapOrder := map_order : list Path → list Path.
Class MapOrderLaws `{!MapOrder} := map_order_perm l : map_order l ≡ₚ l.

(** The largest length of a [Vec<u8>]. *)
Definition vec_max : Z := i64_max.

(** The order of [sort_by] on names, which is stable. *)
Definition name_le (a b : DirEntry) : Prop := ¬ str_lt (de_name b) (de_name a).
#[export] Instance name_le_dec : RelDecision name_le.
Proof. intros a b. unfold name_le. apply _. Defined.

Section memory.
Context {order : MapOrder}.
Implicit Types (s : MemoryBackend).

Abbreviation mem_method := (method MemoryBackend VfsError).

Definition mem_new (now : Z) : MemoryBackend := {|
  mem_entries := {[ [] := Directory (attr_directory now 493) ]};
  mem_gen_clock := 0;
  mem_poisoned := false;
|}.

(** [normalize]: the walk over the components. *)
Definition normalize_step (result : Path) (c : Component) : Path :=
  match c with
  | RootDir | CurDir => result
  | ParentDir => removelast result
  | Normal s => result ++ [s]
  end.
Definition normalize (path : string) : Path := foldl normalize_step [] (components path).

Definition path_str (p : Path) : string := join_names p.

(** [Path::parent] and [Path::file_name] of a normalized path. *)
Definition parent (p : Path) : option Path :=
  match p with [] => None | _ => Some (removelast p) end.
Definition file_name (p : Path) : option string := last p.

(** Taking the lock. *)
Definition lock : mem_method () :=
  s ← m_get; m_guard (negb (mem_poisoned s)) (Other "lock poisoned").

Definition next_gen : mem_method Z :=
  s ← m_get;
  m_modify (λ s, s <| mem_gen_clock := wrap_u64 (mem_gen_clock s + 1) |>);;
  m_ret (wrap_u64 (mem_gen_clock s + 1)).

Definition put (p : Path) (e : Entry) : mem_method () :=
  m_modify (λ s, s <| mem_entries := <[p := e]> (mem_entries s) |>).
Definition take (p : Path) : mem_method (option Entry) :=
  s ← m_get;
  m_modify (λ s, s <| mem_entries := delete p (mem_entries s) |>);;
  m_ret (mem_entries s !! p).
Definition find (p : Path) : mem_method (option Entry) :=
  s ← m_get; m_ret (mem_entries s !! p).

(** The directories above [path], made where nothing is. *)
Definition ensure_dir (now : Z) (m : gmap Path Entry) (p : Path) : gmap Path Entry :=
  match m !! p with
  | Some _ => m
  | None => <[p := Directory (attr_directory now 493)]> m
  end.
Fixpoint prefixes_from (current : Path) (names : list string) : list Path :=
  match names with
  | [] => []
  | n :: names' => (current ++ [n]) :: prefixes_from (current ++ [n]) names'
  end.
Definition ensure_parents (now : Z) (p : Path) : mem_method () :=
  lock;;
  m_modify (λ s, s <| mem_entries :=
    foldl (ensure_dir now) (mem_entries s) (prefixes_from [] (default [] (parent p))) |>).

(** ** Reading *)

Definition getattr (now : Z) (path : string) : mem_method FileAttr :=
  lock;;
  match normalize path with
  | [] => m_ret (attr_directory now 493)
  | p =>
      e ← find p;
      match e with
      | Some e => m_ret (entry_attr e)
      | None => m_fail (NotFound (path_str p))
      end
  end.

(** What a listing of [dir] says of one entry. *)
Definition listed_child (dir : Path) (x : Path * Entry) : option DirEntry :=
  if bool_decide (parent x.1 = Some dir) && negb (bool_decide (x.1 = dir)) then
    (λ name, {| de_name := name; de_kind := entry_kind x.2 |}) <$> file_name x.1
  else None.

Definition listing (m : gmap Path Entry) (dir : Path) : list DirEntry :=
  merge_sort name_le (omap (listed_child dir)
    (omap (λ p, pair p <$> m !! p) (map_order (map_to_list m).*1))).

Definition readdir (path : string) : mem_method (list DirEntry) :=
  lock;;
  let p := normalize path in
  e ← find p;
  match p, e with
  | _ :: _, None => m_fail (NotFound (path_str p))
  | _ :: _, Some (File _ _ | Symlink _ _) => m_fail (NotADirectory (path_str p))
  | _, _ => s ← m_get; m_ret (listing (mem_entries s) p)
  end.

Definition read (path : string) (offset size : Z) : mem_method bytes :=
  lock;;
  let p := normalize path in
  e ← find p;
  match e with
  | Some (File data _) =>
      let len := Z.of_nat (length data) in
      let start := Z.min offset len in
      let stop := Z.min (start + size) len in
      m_ret (firstn (Z.to_nat (stop - start)) (skipn (Z.to_nat start) data))
  | Some (Directory _) => m_fail (IsADirectory (path_str p))
  | Some (Symlink _ _) => m_fail (Other "cannot read symlink as file")
  | None => m_fail (NotFound (path_str p))
  end.

Definition readlink (path : string) : mem_method string :=
  lock;;
  let p := normalize path in
  e ← find p;
  match e with
  | Some (Symlink target _) => m_ret target
  | Some _ => m_fail (NotASymlink (path_str p))
  | None => m_fail (NotFound (path_str p))
  end.

(** ** Writing *)

(** [Vec::resize] with zeros. *)
Definition resize_vec (size : Z) (data : bytes) : bytes :=
  resize (Z.to_nat size) Init.Byte.x00 data.

(** A file with new content, stamped. *)
Definition stamp_file (now : Z) (p : Path) (data : bytes) (attr : FileAttr) : mem_method () :=
  g ← next_gen;
  put p (File data (attr <| fa_size := Z.of_nat (length data) |> <| fa_mtime := now |>
                         <| fa_generation := g |>)).

(** The index arithmetic panics past the largest vector. *)
Definition write (now : Z) (path : string) (offset : Z) (data : bytes) : mem_method Z :=
  let p := normalize path in
  lock;;
  e ← find p;
  match e with
  | Some (File old attr) =>
      let stop := offset + Z.of_nat (length data) in
      m_assert (stop <=? vec_max);;
      let base := if Z.of_nat (length old) <? stop then resize_vec stop old else old in
      stamp_file now p
        (firstn (Z.to_nat offset) base ++ data ++ skipn (Z.to_nat stop) base) attr;;
      m_ret (as_u32 (Z.of_nat (length data)))
  | Some (Directory _) => m_fail (IsADirectory (path_str p))
  | Some (Symlink _ _) => m_fail (Other "cannot write to symlink")
  | None => m_fail (NotFound (path_str p))
  end.

(** The second critical section of [create]. *)
Definition create_locked (now : Z) (p : Path) (mode : Z) : mem_method FileAttr :=
  lock;;
  e ← find p;
  match e with
  | Some _ => m_fail (AlreadyExists (path_str p))
  | None =>
      g ← next_gen;
      let attr := (attr_file now 0 mode) <| fa_generation := g |> in
      put p (File [] attr);;
      m_ret attr
  end.
Definition create (now : Z) (path : string) (mode : Z) : mem_method FileAttr :=
  let p := normalize path in
  ensure_parents now p;;
  create_locked now p mode.

Definition mkdir_locked (now : Z) (p : Path) (mode : Z) : mem_method FileAttr :=
  lock;;
  e ← find p;
  match e with
  | Some (Directory attr) => m_ret attr
  | Some _ => m_fail (AlreadyExists (path_str p))
  | None =>
      let attr := attr_directory now mode in
      put p (Directory attr);;
      m_ret attr
  end.
Definition mkdir (now : Z) (path : string) (mode : Z) : mem_method FileAttr :=
  let p := normalize path in
  ensure_parents now p;;
  mkdir_locked now p mode.

Definition unlink (path : string) : mem_method () :=
  let p := normalize path in
  match p with
  | [] => m_fail (PermissionDenied "cannot remove root")
  | _ =>
      lock;;
      e ← find p;
      match e with
      | Some (Directory _) => m_fail (IsADirectory (path_str p))
      | Some _ => take p;; m_ret tt
      | None => m_fail (NotFound (path_str p))
      end
  end.

Definition has_children (m : gmap Path Entry) (dir : Path) : bool :=
  existsb (λ k, bool_decide (parent k = Some dir) && negb (bool_decide (k = dir)))
    (map_to_list m).*1.

Definition rmdir (path : string) : mem_method () :=
  let p := normalize path in
  match p with
  | [] => m_fail (PermissionDenied "cannot remove root")
  | _ =>
      lock;;
      e ← find p;
      match e with
      | Some (Directory _) =>
          s ← m_get;
          m_guard (negb (has_children (mem_entries s) p)) (DirectoryNotEmpty (path_str p));;
          take p;; m_ret tt
      | Some _ => m_fail (NotADirectory (path_str p))
      | None => m_fail (NotFound (path_str p))
      end
  end.

Definition stamp (g : Z) : Entry → Entry := attr_mut (λ a, a <| fa_generation := g |>).

(** [Path::starts_with] and [strip_prefix]. *)
Fixpoint strip_path (p from : Path) : option Path :=
  match from, p with
  | [], _ => Some p
  | a :: from', b :: p' => if bool_decide (a = b) then strip_path p' from' else None
  | _ :: _, [] => None
  end.

Fixpoint move_children (from to : Path) (children : list Path) : mem_method () :=
  match children with
  | [] => m_ret tt
  | child :: children' =>
      e ← take child;
      match e with
      | Some e =>
          match strip_path child from with
          | Some relative => g ← next_gen; put (to ++ relative) (stamp g e)
          | None => m_panic
          end
      | None => m_ret tt
      end;;
      move_children from to children'
  end.

Definition below (from k : Path) : bool := bool_decide (is_Some (strip_path k from)).

Definition rename_locked (from to : Path) : mem_method () :=
  lock;;
  e ← take from;
  match e with
  | None => m_fail (NotFound (path_str from))
  | Some e =>
      match e with
      | Directory _ =>
          s ← m_get;
          move_children from to (filter (below from) (map_order (map_to_list (mem_entries s)).*1))
      | _ => m_ret tt
      end;;
      g ← next_gen;
      put to (stamp g e)
  end.
Definition rename (now : Z) (from to : string) : mem_method () :=
  ensure_parents now (normalize to);;
  rename_locked (normalize from) (normalize to).

Definition truncate (now : Z) (path : string) (size : Z) : mem_method () :=
  let p := normalize path in
  lock;;
  e ← find p;
  match e with
  | Some (File data attr) =>
      m_assert (size <=? vec_max);;
      stamp_file now p (resize_vec size data) attr
  | Some (Directory _) => m_fail (IsADirectory (path_str p))
  | Some (Symlink _ _) => m_fail (Other "cannot truncate symlink")
  | None => m_fail (NotFound (path_str p))
  end.

Definition set_attrs (set : SetAttr) (a : FileAttr) : FileAttr :=
  a <| fa_mtime := default (fa_mtime a) (set_mtime set) |>
    <| fa_atime := match set_atime set with Some t => Some t | None => fa_atime a end |>
    <| fa_perm := default (fa_perm a) (set_perm set) |>
    <| fa_uid := match set_uid set with Some u => Some u | None => fa_uid a end |>
    <| fa_gid := match set_gid set with Some g => Some g | None => fa_gid a end |>.

Definition setattr (path : string) (set : SetAttr) : mem_method FileAttr :=
  let p := normalize path in
  lock;;
  e ← find p;
  match e with
  | None => m_fail (NotFound (path_str p))
  | Some e =>
      e' ← match set_size set, e with
           | Some size, File data attr =>
               m_assert (size <=? vec_max);;
               g ← next_gen;
               m_ret (File (resize_vec size data)
                 ((set_attrs set (attr <| fa_size := size |>)) <| fa_generation := g |>))
           | _, _ => m_ret (attr_mut (set_attrs set) e)
           end;
      put p e';;
      m_ret (entry_attr e')
  end.

Definition symlink_locked (now : Z) (p : Path) (target : string) : mem_method FileAttr :=
  lock;;
  e ← find p;
  match e with
  | Some _ => m_fail (AlreadyExists (path_str p))
  | None =>
      let attr := attr_symlink now (Z.of_nat (String.length target)) in
      put p (Symlink target attr);;
      m_ret attr
  end.
Definition symlink (now : Z) (path target : string) : mem_method FileAttr :=
  let p := normalize path in
  ensure_parents now p;;
  symlink_locked now p target.

Definition link (oldpath newpath : string) : mem_method FileAttr :=
  m_fail (Other "hard links not supported in memory backend").

(** A panic under the lock. *)
Definition poison s : MemoryBackend := s <| mem_poisoned := true |>.

#[export] Instance MemoryBackend_ops : VfsOps MemoryBackend := {|
  v_getattr := getattr;
  v_readdir := readdir;
  v_read := read;
  v_readlink := readlink;
  v_write := write;
  v_create := create;
  v_mkdir := mkdir;
  v_unlink := unlink;
  v_rmdir := rmdir;
  v_rename := rename;
  v_truncate := truncate;
  v_setattr := setattr;
  v_symlink := symlink;
  v_link := link;
  v_read_only := λ _, false;
|}.
End memory.
