(* ===== verification/MemFsCoherence.v ===== *)
(** * Generations of the in-memory backend

    A file cache compares generations to decide whether what it holds is still what
    the path holds. *)

From S2P Require Import Prelude Text VfsPath Vfs MethodLogic MemFs.

Section coherence.
Context {order : MapOrder}.
Implicit Types (s : MemoryBackend) (n : nat).

(** From [s] to [s'] a file is unchanged, or is stamped later than anything in [s]. *)
Record coherent s s' : Prop := {
  co_clock : mem_gen_clock s ≤ mem_gen_clock s';
  co_entry p data a : mem_entries s' !! p = Some (File data a) →
    (∃ a0, mem_entries s !! p = Some (File data a0) ∧ fa_generation a0 = fa_generation a) ∨
    mem_gen_clock s < fa_generation a ≤ mem_gen_clock s';
}.

#[export] Instance coherent_preorder : PreOrder coherent.
Proof.
  split.
  - intros s. split; [done|]. intros p d a Hp. left. by exists a.
  - intros s1 s2 s3 [H1 E1] [H2 E2]. split; [lia|]. intros p d a Hp.
    destruct (E2 _ _ _ Hp) as [(a0&Hp0&Hg)|?]; [|right; lia].
    rewrite <- Hg. destruct (E1 _ _ _ Hp0) as [?|?]; [by left|right; lia].
Qed.

(** Room for [n] more generations. *)
Definition room (n : nat) s : Prop := 0 ≤ mem_gen_clock s ∧ mem_gen_clock s + Z.of_nat n ≤ u64_max.

(** No file is stamped in the future. *)
Definition gens_ok s : Prop :=
  ∀ p data a, mem_entries s !! p = Some (File data a) → fa_generation a ≤ mem_gen_clock s.

Lemma coherent_gens_ok s s' : coherent s s' → gens_ok s → gens_ok s'.
Proof.
  intros [Hc He] Hok p d a Hp. destruct (He _ _ _ Hp) as [(a0&Hp0&<-)|?]; [|lia].
  specialize (Hok _ _ _ Hp0). lia.
Qed.

Abbreviation coh n m n' := (triple (E := VfsError) coherent (room n) m (λ _, room n')).

Lemma coh_weaken {A} n n' (m : method MemoryBackend VfsError A) k k' :
  (n ≤ n')%nat → (k' ≤ k)%nat → coh n m k → coh n' m k'.
Proof.
  intros Hn Hk Hm. eapply triple_conseq; [exact Hm|..]; unfold room; intros; lia.
Qed.

Lemma coh_bind {A B} n k l (m : method MemoryBackend VfsError A) (f : A → method MemoryBackend VfsError B) :
  coh n m k → (∀ a, coh k (f a) l) → coh n (m ≫= f) l.
Proof. intros Hm Hf. by apply (triple_bind coherent _ _ (λ _, room k)). Qed.

Lemma coh_ret {A} n (a : A) : coh n (m_ret a) n.
Proof. intros s r s' Hs [= <- <-]. done. Qed.
Lemma coh_fail {A} n e k : coh n (m_fail (A := A) e) k.
Proof. intros s r s' Hs [= <- <-]. done. Qed.
Lemma coh_assert n b : coh n (m_assert b) n.
Proof. destruct b; [|done]. apply coh_ret. Qed.
Lemma coh_guard n b e : coh n (m_guard b e) n.
Proof. destruct b; [apply coh_ret|apply coh_fail]. Qed.
Lemma coh_get n : coh n m_get n.
Proof. intros s r s' Hs [= <- <-]. done. Qed.
Lemma coh_lock n : coh n lock n.
Proof. apply (coh_bind _ n); [apply coh_get|intros s; apply coh_guard]. Qed.
Lemma coh_find n p : coh n (find p) n.
Proof. apply (coh_bind _ n); [apply coh_get|intros s; apply coh_ret]. Qed.

(** Changing the entries only: no file may appear or change. *)
Lemma coh_modify n (f : gmap Path Entry → gmap Path Entry) :
  (∀ m p data a, f m !! p = Some (File data a) → m !! p = Some (File data a)) →
  coh n (m_modify (λ s, s <| mem_entries := f (mem_entries s) |>)) n.
Proof.
  intros Hf s r s' Hs [= <- <-]. split; [|done]. split; [done|]. intros p d a Hp.
  left. exists a. split; [|done]. by apply Hf.
Qed.

Lemma coh_take n p : coh n (take p) n.
Proof.
  apply (coh_bind _ n); [apply coh_get|intros s]. apply (coh_bind _ n); [|intros _; apply coh_ret].
  apply (coh_modify n (delete p)). intros m q d a Hq. apply lookup_delete_Some in Hq. tauto.
Qed.

Lemma coh_put_other n p e : (∀ d a, e ≠ File d a) → coh n (put p e) n.
Proof.
  intros He. apply (coh_modify n (insert p e)). intros m q d a [[_ ?]|[_ ?]]%lookup_insert_Some; [|done].
  by destruct (He d a).
Qed.

Lemma next_gen_run n s : room (S n) s →
  next_gen s = Some (Ok (mem_gen_clock s + 1), s <| mem_gen_clock := mem_gen_clock s + 1 |>).
Proof.
  intros [H1 H2]. unfold next_gen, mbind, method_bind, m_bind. cbn.
  by rewrite wrap_u64_id by (width_lia).
Qed.

(** A stamped entry. *)
Lemma coherent_stamped n s p e : room (S n) s →
  fa_generation (entry_attr e) = mem_gen_clock s + 1 →
  let s' := {| mem_entries := <[p := e]> (mem_entries s);
               mem_gen_clock := mem_gen_clock s + 1; mem_poisoned := mem_poisoned s |} in
  coherent s s' ∧ room n s'.
Proof.
  intros [H1 H2] He. cbn. split; [|unfold room; cbn; lia]. split; [cbn; lia|]. cbn. intros q d a Hq.
  apply lookup_insert_Some in Hq as [[<- Hq]|[_ Hq]].
  - right. rewrite Hq in He. cbn in He. lia.
  - left. by exists a.
Qed.

Lemma coh_stamped {B} n p (e : Z → Entry) (b : Z → B) :
  (∀ g, fa_generation (entry_attr (e g)) = g) →
  coh (S n) (g ← next_gen; put p (e g);; m_ret (b g)) n.
Proof.
  intros He s r s' Hs. unfold mbind, method_bind. cbn. unfold m_bind at 1.
  rewrite (next_gen_run n s Hs). intros [= <- <-]. by apply coherent_stamped.
Qed.
Lemma coh_stamped' n p (e : Z → Entry) :
  (∀ g, fa_generation (entry_attr (e g)) = g) →
  coh (S n) (g ← next_gen; put p (e g)) n.
Proof.
  intros He s r s' Hs Hr. apply (coh_stamped n p e (λ _, tt) He s r s' Hs).
  revert Hr. unfold mbind, method_bind. cbn. unfold m_bind. rewrite (next_gen_run n s Hs). done.
Qed.

Lemma coh_ensure n now p : coh n (ensure_parents now p) n.
Proof.
  apply (coh_bind _ n); [apply coh_lock|intros _].
  apply (coh_modify n (λ m, foldl (ensure_dir now) m (prefixes_from [] (default [] (parent p))))).
  intros m. generalize (prefixes_from [] (default [] (parent p))). intros l. revert m.
  induction l as [|q l IH]; [done|]. intros m p' d a Hp. apply IH in Hp. revert Hp.
  unfold ensure_dir. destruct (m !! q) eqn:E; [done|]. by intros [[_ ?]|[_ ?]]%lookup_insert_Some.
Qed.

Lemma stamp_gen g e : fa_generation (entry_attr (stamp g e)) = g.
Proof. by destruct e. Qed.

Lemma coh_stamp_file n now p d a : coh (S n) (stamp_file now p d a) n.
Proof. by apply (coh_stamped' n p (λ g, File d _)). Qed.

Ltac coh :=
  repeat match goal with
  | |- triple _ _ (lock ≫= _) _ => apply (coh_bind _ _ _ _ _ (coh_lock _)); intros []
  | |- triple _ _ (find _ ≫= _) _ => apply (coh_bind _ _ _ _ _ (coh_find _ _)); intros [[]|]
  | |- triple _ _ (m_get ≫= _) _ => apply (coh_bind _ _ _ _ _ (coh_get _)); intros ?
  | |- triple _ _ (m_guard _ _ ≫= _) _ => apply (coh_bind _ _ _ _ _ (coh_guard _ _ _)); intros []
  | |- triple _ _ (m_assert _ ≫= _) _ => apply (coh_bind _ _ _ _ _ (coh_assert _ _)); intros []
  | |- triple _ _ (take _ ≫= _) _ => apply (coh_bind _ _ _ _ _ (coh_take _ _)); intros ?
  | |- triple _ _ (ensure_parents _ _ ≫= _) _ => apply (coh_bind _ _ _ _ _ (coh_ensure _ _ _)); intros []
  | |- triple _ _ (m_fail _) _ => apply coh_fail
  | |- triple _ _ (m_ret _) _ => apply (coh_weaken 1 1 _ 1 0); [lia|lia|apply coh_ret]
  end.

(** ** Critical sections *)

Lemma coh_write now p off d : coh 1 (write now p off d) 0.
Proof.
  unfold write. coh. apply (coh_bind _ 0); [apply coh_stamp_file|]. intros _. apply coh_ret.
Qed.
Lemma coh_create now p mode : coh 1 (create_locked now p mode) 0.
Proof. unfold create_locked. coh. by apply (coh_stamped 0 p (λ g, File [] _) (λ g, _)). Qed.
Lemma coh_mkdir now p mode : coh 1 (mkdir_locked now p mode) 0.
Proof. unfold mkdir_locked. coh. apply (coh_bind _ 1); [by apply coh_put_other|]. intros _. coh. Qed.
Lemma coh_symlink now p t : coh 1 (symlink_locked now p t) 0.
Proof. unfold symlink_locked. coh. apply (coh_bind _ 1); [by apply coh_put_other|]. intros _. coh. Qed.
Lemma coh_unlink p : coh 1 (unlink p) 0.
Proof. unfold unlink. destruct (normalize p); coh. Qed.
Lemma coh_rmdir p : coh 1 (rmdir p) 0.
Proof. unfold rmdir. destruct (normalize p); coh. Qed.
Lemma coh_truncate now p size : coh 1 (truncate now p size) 0.
Proof. unfold truncate. coh. apply coh_stamp_file. Qed.

(** Attributes of a file that leave the content alone leave its generation alone. *)
Lemma coherent_insert s p e :
  (∀ d a, e = File d a → ∃ a0, mem_entries s !! p = Some (File d a0) ∧ fa_generation a0 = fa_generation a) →
  coherent s (s <| mem_entries := <[p := e]> (mem_entries s) |>).
Proof.
  intros He. split; [done|]. cbn. intros q d a [[<- Hq]|[_ Hq]]%lookup_insert_Some; left; [by apply He|].
  by exists a.
Qed.

Lemma coh_setattr p set : coh 1 (setattr p set) 0.
Proof.
  intros s r s' Hs. unfold setattr, lock, find, m_guard, mbind, method_bind.
  unfold m_bind at 1 2 3. cbn [m_get]. destruct (negb (mem_poisoned s)); cbn -[next_gen];
    [|by intros [= <- <-]; destruct Hs; split; [|split; lia]].
  assert (room 0 s) as H0 by (destruct Hs; split; lia).
  destruct (mem_entries s !! normalize p) as [e|] eqn:E; [|by intros [= <- <-]].
  assert (coherent s (s <| mem_entries :=
    <[normalize p := attr_mut (set_attrs set) e]> (mem_entries s) |>)) as Hsame.
  { apply coherent_insert. intros d a Ha. destruct e as [d' a'| |]; [|done..].
    injection Ha as -> <-. by exists a'. }
  destruct (set_size set) as [size|]; [destruct e as [data attr| |]|].
  2,3,4: unfold m_bind; cbn; intros [= <- <-]; by split.
  unfold m_assert, m_bind. destruct (size <=? vec_max); [|done]. cbn -[next_gen].
  rewrite (next_gen_run 0 s Hs). intros [= <- <-]. by apply coherent_stamped.
Qed.

(** A rename stamps what it moves, the entry and all below it. *)
Lemma coh_move from to children n :
  coh (length children + n) (move_children from to children) n.
Proof.
  induction children as [|c children IH]; cbn [move_children length Nat.add]; [apply coh_ret|].
  apply (coh_bind _ _ _ _ _ (coh_take _ _)). intros [e|].
  - destruct (strip_path c from) as [rel|]; [|by intros s r s' _].
    apply (coh_bind _ (length children + n)); [|intros _; exact IH].
    apply (coh_stamped' _ (to ++ rel) (λ g, stamp g e)). intros g. apply stamp_gen.
  - apply (coh_weaken (length children + n) _ _ n n); [lia|done|].
    apply (coh_bind _ (length children + n)); [apply coh_ret|intros _; exact IH].
Qed.

Definition has_room s : Prop := room (S (size (mem_entries s))) s.

Lemma coh_rename `{!MapOrderLaws} from to :
  triple (E := VfsError) coherent has_room (rename_locked from to) (λ _, room 0).
Proof.
  intros s r s' Hs. unfold rename_locked, lock, take, m_guard, mbind, method_bind.
  unfold m_bind at 1 2 3 4 5. cbn [m_get]. destruct (negb (mem_poisoned s)); cbn -[next_gen move_children];
    [|by intros [= <- <-]].
  set (s1 := s <| mem_entries := delete from (mem_entries s) |>).
  change {| mem_entries := _; mem_gen_clock := _; mem_poisoned := _ |} with s1.
  assert (coherent s s1) as H1.
  { split; [done|]. cbn. intros p d a Hp. apply lookup_delete_Some in Hp as [_ Hp]. left. by exists a. }
  destruct (mem_entries s !! from) as [e|] eqn:E; [|by intros [= <- <-]].
  set (children := filter (below from) (map_order (map_to_list (mem_entries s1)).*1)).
  assert (room (length children + 1) s1) as Hroom.
  { assert (length children ≤ size (mem_entries s))%nat; [|unfold has_room, room in Hs |- *; cbn; lia].
    unfold children. etrans; [apply length_filter|]. rewrite map_order_perm, length_fmap.
    rewrite length_map_to_list. cbn. rewrite map_size_delete_Some by done. lia. }
  assert (coh (length children + 1) (move_children from to children;; g ← next_gen; put to (stamp g e)) 0) as Hmove.
  { apply (coh_bind _ 1); [apply coh_move|intros _].
    apply (coh_stamped' 0 to (λ g, stamp g e)). intros g. apply stamp_gen. }
  assert (coh (length children + 1) (m_ret tt;; g ← next_gen; put to (stamp g e)) 0) as Hleaf.
  { apply (coh_weaken 1 _ _ 0 0); [lia|done|]. apply (coh_bind _ 1); [apply coh_ret|intros _].
    apply (coh_stamped' 0 to (λ g, stamp g e)). intros g. apply stamp_gen. }
  intros Hr. assert (coherent s1 s' ∧ match r with Ok _ => room 0 s' | Err _ => True end) as [H2 Hend].
  { destruct e as [d a|a|t a]; [by apply (Hleaf s1 r s' Hroom)|by apply (Hmove s1 r s' Hroom)|
      by apply (Hleaf s1 r s' Hroom)]. }
  split; [by etrans|done].
Qed.

(** ** Histories of critical sections *)

(** What runs under one lock; the calls of the interface are sequences of these, and
    those of other threads come in between. *)
Inductive critical : ∀ A, method MemoryBackend VfsError A → Prop :=
  | crit_getattr now p : critical _ (getattr now p)
  | crit_readdir p : critical _ (readdir p)
  | crit_read p off size : critical _ (read p off size)
  | crit_readlink p : critical _ (readlink p)
  | crit_parents now p : critical _ (ensure_parents now p)
  | crit_write now p off d : critical _ (write now p off d)
  | crit_create now p mode : critical _ (create_locked now p mode)
  | crit_mkdir now p mode : critical _ (mkdir_locked now p mode)
  | crit_symlink now p t : critical _ (symlink_locked now p t)
  | crit_unlink p : critical _ (unlink p)
  | crit_rmdir p : critical _ (rmdir p)
  | crit_rename from to : critical _ (rename_locked from to)
  | crit_truncate now p size : critical _ (truncate now p size)
  | crit_setattr p set : critical _ (setattr p set).

Inductive mem_step s : MemoryBackend → Prop :=
  | step_section A m r s' : critical A m → has_room s → m s = Some (r, s') → mem_step s s'
  | step_panic A m : critical A m → m s = None → mem_step s (poison s).

(** Reads. *)
Lemma coh_look {A} n p (k : option Entry → method MemoryBackend VfsError A) :
  (∀ e, coh n (k e) 0) → coh n (lock;; e ← find p; k e) 0.
Proof.
  intros Hk. apply (coh_bind _ _ _ _ _ (coh_lock n)). intros [].
  by apply (coh_bind _ _ _ _ _ (coh_find n p)).
Qed.

Lemma critical_coherent `{!MapOrderLaws} A m : critical A m →
  triple (E := VfsError) coherent has_room m (λ _, room 0).
Proof.
  assert (∀ {B} (f : method MemoryBackend VfsError B), coh 1 f 0 →
    triple (E := VfsError) coherent has_room f (λ _, room 0)) as Hone.
  { intros B f Hf s r s' [Hs1 Hs2]. apply Hf. split; lia. }
  intros []; first [apply coh_rename | apply Hone].
  - unfold getattr. coh. destruct (normalize p); coh.
  - unfold readdir. apply coh_look. intros e. destruct (normalize p), e as [[]|]; coh.
  - unfold read. apply coh_look. intros [[]|]; coh.
  - unfold readlink. apply coh_look. intros [[]|]; coh.
  - apply (coh_weaken 1 1 _ 1 0), coh_ensure; lia.
  - apply coh_write.
  - apply coh_create.
  - apply coh_mkdir.
  - apply coh_symlink.
  - apply coh_unlink.
  - apply coh_rmdir.
  - apply coh_truncate.
  - apply coh_setattr.
Qed.

Lemma mem_steps_coherent `{!MapOrderLaws} s s' : rtc mem_step s s' → coherent s s'.
Proof.
  induction 1 as [s|s1 s2 s3 Hstep _ IH]; [done|]. etrans; [|exact IH]. destruct Hstep as [A m r s' Hm Hs Hr|].
  - by apply (critical_coherent A m Hm s1 r s' Hs Hr).
  - split; [done|]. intros p d a Hp. left. by exists a.
Qed.

(** C15: the generation of a file is a sound stamp for a cache. Between any two moments of a
    history of critical sections, in whatever order the calls of several threads
    interleave and whichever of them fail or panic, a path whose file shows the same
    generation holds the same bytes, the generation never goes back, and a file that
    is new at its path, moved there or rewritten is stamped later than any file was
    before; every write advances it. *)
Theorem generations_coherent `{!MapOrderLaws} s0 s1 s2
    (Hok : gens_ok s0) (Hpast : rtc mem_step s0 s1) (Hsince : rtc mem_step s1 s2) :
  (∀ p d1 a1 d2 a2,
     mem_entries s1 !! p = Some (File d1 a1) → mem_entries s2 !! p = Some (File d2 a2) →
     fa_generation a1 ≤ fa_generation a2 ∧
     (fa_generation a1 = fa_generation a2 → d1 = d2)) ∧
  (∀ p d a, mem_entries s2 !! p = Some (File d a) →
     (∀ a1, mem_entries s1 !! p ≠ Some (File d a1)) →
     ∀ q d1 a1, mem_entries s1 !! q = Some (File d1 a1) → fa_generation a1 < fa_generation a) ∧
  (∀ now path off data count s3, has_room s2 → write now path off data s2 = Some (Ok count, s3) →
     ∃ d2 a2 d3 a3, mem_entries s2 !! normalize path = Some (File d2 a2) ∧
       mem_entries s3 !! normalize path = Some (File d3 a3) ∧
       fa_generation a2 < fa_generation a3).
Proof.
  pose proof (coherent_gens_ok _ _ (mem_steps_coherent _ _ Hpast) Hok) as Hok1.
  pose proof (mem_steps_coherent _ _ Hsince) as [Hc He].
  pose proof (coherent_gens_ok _ _ (mem_steps_coherent _ _ Hsince) Hok1) as Hok2.
  split_and!.
  - intros p d1 a1 d2 a2 Hp1 Hp2. specialize (Hok1 _ _ _ Hp1).
    destruct (He _ _ _ Hp2) as [(a0&Hp&Hg)|?]; [|split; [lia|intros; lia]].
    rewrite Hp1 in Hp. injection Hp as -> ->. split; [lia|done].
  - intros p d a Hp Hnew q d1 a1 Hq. specialize (Hok1 _ _ _ Hq).
    destruct (He _ _ _ Hp) as [(a0&Hp0&_)|?]; [by destruct (Hnew a0)|lia].
  - intros now path off data count s3 Hroom. unfold write, lock, find, m_guard, mbind, method_bind, m_bind.
    cbn [m_get]. destruct (negb (mem_poisoned s2)); [|done]. cbn -[stamp_file].
    destruct (mem_entries s2 !! normalize path) as [[d2 a2| |]|] eqn:E; [|done..].
    destruct (_ <=? vec_max); [|done]. cbn -[stamp_file].
    unfold stamp_file, mbind, method_bind, m_bind.
    rewrite (next_gen_run 0) by (destruct Hroom; split; lia). intros [= <- <-].
    eexists d2, a2, _, _. split; [done|]. cbn. rewrite lookup_insert_eq. split; [done|].
    cbn. specialize (Hok2 _ _ _ E). lia.
Qed.
End coherence.
