(* ===== verification/MemFsTree.v ===== *)
(** * The tree of the in-memory backend

    The entries are a map; that they form a tree is an invariant of the calls that
    stay out of each other's way. A rename moves a subtree. *)

From S2P Require Import Prelude MethodLogic Text VfsPath Vfs MemFs.

Section tree.
Context {order : MapOrder}.
Implicit Types (s : MemoryBackend) (m : gmap Path Entry) (p q : Path).

(** ** Paths *)

Lemma strip_path_Some p from r : strip_path p from = Some r ↔ p = from ++ r.
Proof.
  revert p. induction from as [|a from IH]; intros p.
  - destruct p; cbn; split; congruence.
  - destruct p as [|b p]; cbn; [by split|]. case_bool_decide as E; [subst; rewrite IH|]; split; congruence.
Qed.

Lemma strip_path_None p from : strip_path p from = None ↔ ∀ r, p ≠ from ++ r.
Proof.
  rewrite eq_None_not_Some. split.
  - intros H r ->. apply H. exists r. by apply strip_path_Some.
  - intros H [r Hr]. apply strip_path_Some in Hr. by apply (H r).
Qed.

Lemma below_spec from k : below from k = true ↔ ∃ r, k = from ++ r.
Proof.
  unfold below. rewrite bool_decide_eq_true. unfold is_Some. by setoid_rewrite strip_path_Some.
Qed.

(** Neither path is below the other. *)
Definition apart p q : Prop := ∀ r r', p ++ r ≠ q ++ r'.

Lemma apart_spec p q : (∀ r, q ≠ p ++ r) → (∀ r, p ≠ q ++ r) → apart p q.
Proof.
  intros H1 H2 r r' E. apply app_eq_inv in E as [(k&->&_)|(k&->&_)]; [by apply (H2 k)|by apply (H1 k)].
Qed.

Lemma removelast_snoc p n : removelast (p ++ [n]) = p.
Proof. by rewrite removelast_last. Qed.

Lemma parent_Some k p : parent k = Some p ↔ ∃ n, k = p ++ [n].
Proof.
  destruct k as [|n k _] using rev_ind.
  - split; [done|]. by intros [n E%symmetry%app_nil]; destruct E.
  - unfold parent. replace (match k ++ [n] with [] => _ | _ => _ end) with (Some (removelast (k ++ [n])))
      by by destruct (k ++ [n]) eqn:E; [apply app_nil in E as [_ ?]|].
    rewrite removelast_snoc. split; [intros [= ->]; by eexists|].
    intros [n' E]. by apply app_inj_tail in E as [-> _].
Qed.

(** ** Trees *)

Definition dir_at m p : Prop := ∃ a, m !! p = Some (Directory a).

Record tree_ok m : Prop := {
  tr_root : dir_at m [];
  tr_parent p n e : m !! (p ++ [n]) = Some e → dir_at m p;
}.

Definition childless m p : Prop := ∀ n, m !! (p ++ [n]) = None.

(** Only directories come to have children when [from] is put over [to]. *)
Definition fits m from to : Prop :=
  ∀ r e, m !! (from ++ r) = Some e → entry_kind e = TDirectory ∨ childless m (to ++ r).

(** Nothing but directories on the way to [p]. *)
Definition clear_above m p : Prop :=
  ∀ q r, p = q ++ r → r ≠ [] → is_Some (m !! q) → dir_at m q.

Lemma tree_above m p r e : tree_ok m → m !! (p ++ r) = Some e → r ≠ [] → dir_at m p.
Proof.
  intros Hm. revert e. induction r as [|n r IH] using rev_ind; intros e He Hr; [done|].
  rewrite app_assoc in He. destruct (tr_parent _ Hm _ _ _ He) as [a Ha].
  destruct (decide (r = [])) as [->|Hne]; [exists a; by rewrite app_nil_r in Ha|by eapply IH].
Qed.

Lemma childless_below m p r : tree_ok m → childless m p → r ≠ [] → m !! (p ++ r) = None.
Proof.
  intros Hm Hc Hr. destruct r as [|n r]; [done|]. destruct (m !! (p ++ n :: r)) as [e|] eqn:E; [|done].
  destruct (decide (r = [])) as [->|Hne]; [by rewrite Hc in E|].
  replace (p ++ n :: r) with ((p ++ [n]) ++ r) in E by by rewrite <- app_assoc.
  destruct (tree_above _ _ _ _ Hm E Hne) as [a Ha]. by rewrite Hc in Ha.
Qed.

Lemma childless_fits m from to : tree_ok m → childless m to → fits m from to.
Proof. intros Hm Hc r e _. right. intros n. rewrite <- app_assoc. by apply childless_below; [..|destruct r]. Qed.

Lemma leaf_childless m p e : tree_ok m → m !! p = Some e → entry_kind e ≠ TDirectory → childless m p.
Proof.
  intros Hm He Hk n. destruct (m !! (p ++ [n])) as [e'|] eqn:E; [|done].
  destruct (tr_parent _ Hm _ _ _ E) as [a Ha]. rewrite He in Ha. by injection Ha as ->.
Qed.

Lemma tree_insert m p n e :
  tree_ok m → dir_at m p → entry_kind e = TDirectory ∨ childless m (p ++ [n]) →
  tree_ok (<[p ++ [n] := e]> m).
Proof.
  intros Hm [a Ha] He. assert (p ++ [n] ≠ []) as Hne by by destruct p. split.
  - destruct (tr_root _ Hm) as [a0 Ha0]. exists a0. by rewrite lookup_insert_ne.
  - intros q n' e' [[E _]|[_ Hq]]%lookup_insert_Some.
    + apply app_inj_tail in E as [<- _]. exists a. rewrite lookup_insert_ne; [done|].
      intros E. apply (f_equal length) in E. rewrite length_app in E. cbn in E. lia.
    + destruct (decide (p ++ [n] = q)) as [<-|Hnq].
      * destruct He as [He|He]; [|by rewrite He in Hq]. destruct e; try done.
        eexists. by rewrite lookup_insert_eq.
      * destruct (tr_parent _ Hm _ _ _ Hq) as [b Hb]. exists b. by rewrite lookup_insert_ne.
Qed.

(** Replacing what is there by something of the same kind. *)
Lemma tree_replace m p e e' :
  tree_ok m → m !! p = Some e → entry_kind e' = entry_kind e → tree_ok (<[p := e']> m).
Proof.
  intros Hm He Hk. destruct p as [|n p _] using rev_ind.
  - split.
    + destruct (tr_root _ Hm) as [a Ha]. rewrite He in Ha. injection Ha as ->.
      destruct e'; try done. eexists. by rewrite lookup_insert_eq.
    + intros q n e0. rewrite lookup_insert_ne by (intros E; symmetry in E; by apply app_nil in E as [_ ?]).
      intros Hq. destruct (tr_parent _ Hm _ _ _ Hq) as [a Ha]. destruct q as [|x q].
      * rewrite He in Ha. injection Ha as ->. destruct e'; try done. eexists. by rewrite lookup_insert_eq.
      * exists a. by rewrite lookup_insert_ne.
  - apply tree_insert; [done|by eapply tr_parent|]. rewrite Hk.
    destruct (decide (entry_kind e = TDirectory)); [by left|right]. by eapply leaf_childless.
Qed.

Lemma tree_delete m p n : tree_ok m → childless m (p ++ [n]) → tree_ok (delete (p ++ [n]) m).
Proof.
  intros Hm Hc. split.
  - destruct (tr_root _ Hm) as [a Ha]. exists a. rewrite lookup_delete_ne; [done|by destruct p].
  - intros q n' e [Hne Hq]%lookup_delete_Some. destruct (tr_parent _ Hm _ _ _ Hq) as [a Ha].
    exists a. rewrite lookup_delete_ne; [done|]. intros <-. by rewrite Hc in Hq.
Qed.

(** ** Parents on demand *)

Lemma elem_of_prefixes names : ∀ cur q,
  q ∈ prefixes_from cur names ↔ ∃ k r, names = k ++ r ∧ k ≠ [] ∧ q = cur ++ k.
Proof.
  induction names as [|n names IH]; intros cur q; cbn [prefixes_from].
  - split; [by intros ?%elem_of_nil|]. intros (k&r&E&Hk&_). symmetry in E. by apply app_nil in E as [-> _].
  - rewrite elem_of_cons, IH. split.
    + intros [->|(k&r&->&Hk&->)]; [by exists [n], names|]. exists (n :: k), r. by rewrite <- app_assoc.
    + intros ([|n' k]&r&E&Hk&->); [done|]. injection E as <- ->. destruct k as [|x k]; [by left|].
      right. exists (x :: k), r. by rewrite <- app_assoc.
Qed.

(** The entries after [ensure_parents]. *)
Definition with_parents (now : Z) m p : gmap Path Entry :=
  foldl (ensure_dir now) m (prefixes_from [] (default [] (parent p))).

Lemma foldl_ensure now l m q :
  foldl (ensure_dir now) m l !! q =
    match m !! q with
    | Some e => Some e
    | None => if decide (q ∈ l) then Some (Directory (attr_directory now 493)) else None
    end.
Proof.
  revert m. induction l as [|p l IH]; intros m; cbn [foldl].
  { destruct (m !! q); [done|]. by rewrite decide_False by apply not_elem_of_nil. }
  rewrite IH. unfold ensure_dir. destruct (m !! p) as [e|] eqn:Ep.
  - destruct (m !! q) eqn:Eq; [done|]. destruct (decide (q ∈ l)) as [Hl|Hl], (decide (q ∈ p :: l)) as [Hp|Hp];
      try done; [destruct Hp; by right|]. apply elem_of_cons in Hp as [->|?]; congruence.
  - destruct (decide (p = q)) as [->|Hne].
    + rewrite lookup_insert_eq, Ep. rewrite decide_True; [done|by left].
    + rewrite lookup_insert_ne by done. destruct (m !! q); [done|].
      destruct (decide (q ∈ l)) as [Hl|Hl], (decide (q ∈ p :: l)) as [Hp|Hp]; try done;
        [destruct Hp; by right|]. apply elem_of_cons in Hp as [->|?]; congruence.
Qed.

Lemma parents_keep now m p q e : m !! q = Some e → with_parents now m p !! q = Some e.
Proof. intros H. unfold with_parents. by rewrite foldl_ensure, H. Qed.

Lemma parents_new now m p q e : m !! q = None → with_parents now m p !! q = Some e →
  e = Directory (attr_directory now 493) ∧ q ≠ [] ∧ ∃ r, r ≠ [] ∧ p = q ++ r.
Proof.
  intros H. unfold with_parents. rewrite foldl_ensure, H.
  case_decide as Hq; [|done]. intros [= <-]. split; [done|].
  apply elem_of_prefixes in Hq as (k&r&E&Hk&->). split; [done|].
  destruct p as [|n p _] using rev_ind; [destruct k; done|].
  assert (parent (p ++ [n]) = Some p) as Hp by (apply parent_Some; by eexists).
  rewrite Hp in E. cbn in E. subst p. exists (r ++ [n]). split; [by destruct r|]. by rewrite app_assoc.
Qed.

Lemma parents_dir now m p n : tree_ok m → clear_above m (p ++ [n]) → dir_at (with_parents now m (p ++ [n])) p.
Proof.
  intros Hm Hc. destruct (m !! p) as [e|] eqn:E.
  - destruct (Hc p [n] eq_refl ltac:(done) ltac:(by eexists)) as [a Ha]. exists a. by apply parents_keep.
  - exists (attr_directory now 493). unfold with_parents. rewrite foldl_ensure, E.
    assert (parent (p ++ [n]) = Some p) as -> by (apply parent_Some; by eexists).
    rewrite decide_True; [done|]. apply elem_of_prefixes. exists p, []. rewrite app_nil_r. split_and!; try done.
    intros ->. destruct (tr_root _ Hm) as [a Ha]. congruence.
Qed.

Lemma parents_tree now m p : tree_ok m → clear_above m p → tree_ok (with_parents now m p).
Proof.
  intros Hm Hc. split.
  - destruct (tr_root _ Hm) as [a Ha]. exists a. by apply parents_keep.
  - intros q n e He. destruct (m !! (q ++ [n])) as [e'|] eqn:E.
    + destruct (tr_parent _ Hm _ _ _ E) as [a Ha]. exists a. by apply parents_keep.
    + destruct (parents_new _ _ _ _ _ E He) as (_&_&r&Hr&->).
      destruct (m !! q) as [e'|] eqn:Eq.
      * destruct (Hc q (n :: r)) as [a Ha]; [by rewrite <- app_assoc|done|by eexists|].
        exists a. by apply parents_keep.
      * exists (attr_directory now 493). unfold with_parents. rewrite foldl_ensure, Eq.
        rewrite decide_True; [done|]. apply elem_of_prefixes.
        destruct r as [|x r _] using rev_ind; [done|].
        assert (parent ((q ++ [n]) ++ r ++ [x]) = Some ((q ++ [n]) ++ r)) as ->.
        { apply parent_Some. exists x. by rewrite app_assoc. }
        exists q, ([n] ++ r). split_and!; [cbn; by rewrite <- app_assoc| |done].
        intros ->. destruct (tr_root _ Hm) as [a Ha]. congruence.
Qed.
End tree.

(** * Calls that keep the tree, and what a rename moves *)

Section rename.
Context {order : MapOrder}.
Implicit Types (s : MemoryBackend) (m : gmap Path Entry) (p q : Path).

Lemma lock_run s : mem_poisoned s = false → lock s = Some (Ok tt, s).
Proof. intros H. unfold lock, mbind, method_bind, m_bind. cbn. by rewrite H. Qed.

Lemma locked_bind {A} s (k : () → method MemoryBackend VfsError A) r s' :
  (lock ≫= k) s = Some (r, s') →
  (s' = s ∧ ∃ e, r = Err e) ∨ mem_poisoned s = false ∧ k tt s = Some (r, s').
Proof.
  unfold lock, mbind, method_bind, m_bind. cbn. destruct (mem_poisoned s); cbn; [|by right].
  intros [= <- <-]. left. split; [done|by eexists].
Qed.

Lemma ensure_run now p s : mem_poisoned s = false →
  ensure_parents now p s = Some (Ok tt, s <| mem_entries := with_parents now (mem_entries s) p |>).
Proof. intros H. unfold ensure_parents. by rewrite (bind_ok _ _ _ _ _ (lock_run s H)). Qed.

Lemma take_run p s :
  take p s = Some (Ok (mem_entries s !! p), s <| mem_entries := delete p (mem_entries s) |>).
Proof. done. Qed.

(** A generation is drawn and an entry stamped with it is put. *)
Lemma stamped_run p (e : Z → Entry) s :
  let g := wrap_u64 (mem_gen_clock s + 1) in
  (g ← next_gen; put p (e g)) s =
    Some (Ok tt, {| mem_entries := <[p := e g]> (mem_entries s);
                    mem_gen_clock := g; mem_poisoned := mem_poisoned s |}).
Proof. done. Qed.

(** ** Moving *)

Lemma stamp_kind g e : entry_kind (stamp g e) = entry_kind e.
Proof. by destruct e. Qed.

(** What a loop over the children of [from] does: each is stamped and put under [to]. *)
Record moved from to (children : list Path) m m' : Prop := {
  mv_there r e : from ++ r ∈ children → m !! (from ++ r) = Some e →
    ∃ g, m' !! (to ++ r) = Some (stamp g e);
  mv_gone k : k ∈ children → m' !! k = None;
  mv_else k : k ∉ children → (∀ r, k = to ++ r → from ++ r ∉ children) → m' !! k = m !! k;
}.

Lemma move_children_run from to children : apart from to → ∀ s,
  NoDup children →
  (∀ c, c ∈ children → ∃ r, c = from ++ r ∧ is_Some (mem_entries s !! c)) →
  ∃ s', move_children from to children s = Some (Ok tt, s') ∧
    mem_poisoned s' = mem_poisoned s ∧ moved from to children (mem_entries s) (mem_entries s').
Proof.
  intros Hap. induction children as [|c cs IH]; intros s Hnd Hcs.
  { exists s. split; [done|]. split; [done|]. split; [by intros r e ?%elem_of_nil|by intros k ?%elem_of_nil|done]. }
  apply NoDup_cons in Hnd as [Hc Hnd].
  destruct (Hcs c) as (r0&->&e0&He0); [by left|].
  cbn [move_children].
  set (g := wrap_u64 (mem_gen_clock s + 1)).
  set (s2 := {| mem_entries := <[to ++ r0 := stamp g e0]> (delete (from ++ r0) (mem_entries s));
                mem_gen_clock := g; mem_poisoned := mem_poisoned s |}).
  assert (∀ k, k ∈ cs → mem_entries s2 !! k = mem_entries s !! k) as Hsame.
  { intros k Hk. destruct (Hcs k) as (r&->&_); [by right|]. cbn.
    rewrite lookup_insert_ne by (intros E; symmetry in E; by apply Hap in E).
    rewrite lookup_delete_ne; [done|]. intros E. by rewrite <- E in Hk. }
  destruct (IH s2 Hnd) as (s'&Hr&Hp&[M1 M2 M3]).
  { intros k Hk. destruct (Hcs k) as (r&E&Hs); [by right|]. exists r. split; [done|].
    by rewrite (Hsame k Hk). }
  exists s'. split.
  { rewrite (bind_ok _ _ _ _ _ (take_run _ _)), He0.
    rewrite (proj2 (strip_path_Some (from ++ r0) from r0) eq_refl).
    by rewrite (bind_ok _ _ _ _ _ (stamped_run _ (λ g, stamp g e0) _)). }
  split; [done|]. split.
  - intros r e [E|Hin]%elem_of_cons He.
    + apply app_inv_head in E as ->. rewrite He0 in He. injection He as <-. exists g.
      rewrite M3; [cbn; apply lookup_insert_eq| |].
      * intros Hk. destruct (Hcs (to ++ r0)) as (r'&E'&_); [by right|]. symmetry in E'. by apply Hap in E'.
      * intros r E. by apply app_inv_head in E as <-.
    + apply M1; [done|]. by rewrite Hsame.
  - intros k [->|Hin]%elem_of_cons; [|by apply M2].
    rewrite M3; [|done|].
    + cbn. rewrite lookup_insert_ne by (intros E; symmetry in E; by apply Hap in E). apply lookup_delete_eq.
    + intros r E. by apply Hap in E.
  - intros k Hk Hto. rewrite M3.
    + cbn. rewrite lookup_insert_ne, lookup_delete_ne; [done|..].
      * intros <-. apply Hk. by left.
      * intros <-. apply (Hto r0 eq_refl). by left.
    + intros ?. apply Hk. by right.
    + intros r E Hin. apply (Hto r E). by right.
Qed.

(** The whole move of [from], present, to [to]: what [rename] does to the entries
    once the parents are there. *)
Record renamed from to m m' : Prop := {
  rn_there r e : m !! (from ++ r) = Some e → ∃ g, m' !! (to ++ r) = Some (stamp g e);
  rn_nothing r : m !! (from ++ r) = None → r ≠ [] → m' !! (to ++ r) = m !! (to ++ r);
  rn_gone r : m' !! (from ++ r) = None;
  rn_else k : (∀ r, k ≠ from ++ r) → (∀ r, k ≠ to ++ r) → m' !! k = m !! k;
}.

Lemma below_directory m from e r :
  tree_ok m → m !! from = Some e → r ≠ [] → is_Some (m !! (from ++ r)) → entry_kind e = TDirectory.
Proof.
  intros Hm He Hr [e' He']. destruct (tree_above _ _ _ _ Hm He' Hr) as [a Ha]. rewrite He in Ha. by injection Ha as ->.
Qed.

Lemma rename_locked_run `{!MapOrderLaws} from to s e : apart from to →
  (∀ r, r ≠ [] → is_Some (mem_entries s !! (from ++ r)) → entry_kind e = TDirectory) →
  mem_poisoned s = false → mem_entries s !! from = Some e →
  ∃ s', rename_locked from to s = Some (Ok tt, s') ∧
    renamed from to (mem_entries s) (mem_entries s').
Proof.
  intros Hap Hm Hpo He.
  set (s1 := s <| mem_entries := delete from (mem_entries s) |>).
  set (children := match e with
    | Directory _ => filter (below from) (map_order (map_to_list (mem_entries s1)).*1) | _ => [] end).
  assert (∀ k, k ∈ children ↔ ∃ r, k = from ++ r ∧ r ≠ [] ∧ is_Some (mem_entries s !! k)) as Hch.
  { assert (∀ r k, k = from ++ r → r ≠ [] → is_Some (mem_entries s !! k) → entry_kind e = TDirectory) as Hdir.
    { intros r k ->. apply Hm. }
    intros k. unfold children. destruct e as [d a|a|t a]; try (split;
      [by intros ?%elem_of_nil|intros (r&Hk&Hr&Hs); by specialize (Hdir r k Hk Hr Hs)]).
    rewrite list_elem_of_filter, map_order_perm, list_elem_of_fmap, Is_true_true, below_spec. split.
    - intros [[r ->] ([k' e']&Hk&Hin)]. apply elem_of_map_to_list in Hin. cbn in Hk, Hin. subst k'.
      apply lookup_delete_Some in Hin as [Hne Hin]. exists r. split; [done|]. split; [|by eexists].
      intros ->. by rewrite app_nil_r in Hne.
    - intros (r&->&Hr&[e' He']). split; [by exists r|]. exists (from ++ r, e'). split; [done|].
      apply elem_of_map_to_list. cbn. apply lookup_delete_Some. split; [|done].
      intros E. rewrite <- (app_nil_r from) in E at 1. by apply app_inv_head in E. }
  assert (NoDup children) as Hnd.
  { unfold children. destruct e; try constructor. apply NoDup_filter. rewrite map_order_perm.
    apply NoDup_fst_map_to_list. }
  destruct (move_children_run from to children Hap s1 Hnd) as (s2&Hrun&Hp2&[M1 M2 M3]).
  { intros k (r&->&Hr&Hs)%Hch. exists r. split; [done|]. cbn. rewrite lookup_delete_ne; [done|].
    intros E. rewrite <- (app_nil_r from) in E at 1. by apply app_inv_head in E. }
  set (g := wrap_u64 (mem_gen_clock s2 + 1)).
  exists {| mem_entries := <[to := stamp g e]> (mem_entries s2); mem_gen_clock := g; mem_poisoned := mem_poisoned s2 |}.
  assert (∀ r, r ≠ [] → from ≠ from ++ r) as Hself.
  { intros r Hr E. rewrite <- (app_nil_r from) in E at 1. by apply app_inv_head in E. }
  assert (∀ r, to ≠ from ++ r) as Hto.
  { intros r E. apply (Hap r []). by rewrite app_nil_r. }
  split.
  { unfold rename_locked. rewrite (bind_ok _ _ _ _ _ (lock_run s Hpo)).
    rewrite (bind_ok _ _ _ _ _ (take_run from s)), He. fold s1.
    assert (match e with
            | Directory _ => s0 ← m_get; move_children from to
                (filter (below from) (map_order (map_to_list (mem_entries s0)).*1))
            | _ => m_ret tt
            end s1 = Some (Ok tt, s2)) as Hstep.
    { unfold children in Hrun. by destruct e; [injection Hrun as <-| |injection Hrun as <-]. }
    rewrite (bind_ok _ _ _ _ _ Hstep). apply (stamped_run to (λ g, stamp g e)). }
  cbn. split.
  - intros r e' He'. destruct (decide (r = [])) as [->|Hne].
    { rewrite !app_nil_r in *. rewrite He in He'. injection He' as <-. exists g. apply lookup_insert_eq. }
    rewrite lookup_insert_ne by (intros E; rewrite <- (app_nil_r to) in E at 1; by apply app_inv_head in E).
    apply M1; [apply Hch; exists r; by eauto|]. cbn. rewrite lookup_delete_ne; [done|by apply Hself].
  - intros r Hn Hr. rewrite lookup_insert_ne by (intros E; rewrite <- (app_nil_r to) in E at 1; by apply app_inv_head in E).
    rewrite M3; [cbn; rewrite lookup_delete_ne; [done|]| |].
    + intros E. apply (Hap [] r). by rewrite app_nil_r.
    + intros (r'&E&_)%Hch. symmetry in E. by apply Hap in E.
    + intros r' E%app_inv_head (r2&E2&_&[e2 He2])%Hch. subst r'. congruence.
  - intros r. rewrite lookup_insert_ne by apply Hto.
    destruct (decide (from ++ r ∈ children)) as [Hin|Hin]; [by apply M2|].
    rewrite M3; [cbn|done|by intros r' E%Hap].
    destruct (decide (r = [])) as [->|Hne]; [rewrite app_nil_r; apply lookup_delete_eq|].
    rewrite lookup_delete_ne by (by apply Hself). apply eq_None_not_Some. intros Hs. apply Hin, Hch. by exists r.
  - intros k Hf Ht. rewrite lookup_insert_ne by (intros E; apply (Ht []); by rewrite app_nil_r).
    rewrite M3; [cbn; rewrite lookup_delete_ne; [done|]|by intros (r&E&_)%Hch; destruct (Hf r)|].
    + intros E. apply (Hf []). by rewrite app_nil_r.
    + intros r E. by destruct (Ht r).
Qed.

Lemma app_nil_absurd p r : p = p ++ r → r = [].
Proof. intros E. rewrite <- (app_nil_r p) in E at 1. by apply app_inv_head in E. Qed.

Lemma renamed_tree from to e m m' :
  tree_ok m → apart from to → dir_at m (removelast to) → fits m from to →
  m !! from = Some e → renamed from to m m' → tree_ok m'.
Proof.
  intros Hm Hap Hd Hc He [R1 R2 R3 R4].
  assert (from ≠ []) as Hf by (intros ->; by apply (Hap to []); rewrite app_nil_r).
  assert (to ≠ []) as Ht by (intros ->; by apply (Hap [] from); rewrite app_nil_r).
  split.
  - destruct (tr_root _ Hm) as [a Ha]. exists a. rewrite R4; [done|..]; intros r E; symmetry in E;
      by apply app_nil in E as [-> _].
  - intros p n e' He'.
    destruct (strip_path (p ++ [n]) from) as [r|] eqn:Ef.
    { apply strip_path_Some in Ef. rewrite Ef, R3 in He'. done. }
    destruct (strip_path (p ++ [n]) to) as [r|] eqn:Et.
    + apply strip_path_Some in Et. destruct r as [|x r _] using rev_ind.
      * rewrite app_nil_r in Et. subst to. rewrite removelast_snoc in Hd. destruct Hd as [a Ha].
        exists a. rewrite R4; [done| |].
        { intros r ->. apply (Hap (r ++ [n]) []). by rewrite app_nil_r, <- app_assoc. }
        { intros r E. rewrite <- app_assoc in E. by apply app_nil_absurd in E. }
      * rewrite app_assoc in Et. apply app_inj_tail in Et as [-> ->].
        rewrite <- app_assoc in He'. destruct (m !! (from ++ r ++ [x])) as [e0|] eqn:E0.
        { rewrite app_assoc in E0. destruct (tr_parent _ Hm _ _ _ E0) as [a Ha].
          destruct (R1 r _ Ha) as [g Hg]. by eexists. }
        rewrite R2 in He' by (done || by destruct r). rewrite app_assoc in He'. destruct (tr_parent _ Hm _ _ _ He') as [a Ha].
        destruct (m !! (from ++ r)) as [e2|] eqn:E2.
        { destruct (R1 r _ E2) as [g Hg]. destruct (Hc r _ E2) as [Hk|Hl]; [|by rewrite Hl in He'].
          destruct e2; try done. by eexists. }
        exists a. rewrite R2; [done..|]. intros ->. rewrite app_nil_r in E2. congruence.
    + rewrite strip_path_None in Ef, Et. rewrite R4 in He' by done.
      destruct (tr_parent _ Hm _ _ _ He') as [a Ha]. exists a. rewrite R4; [done|..]; intros r ->;
        [apply (Ef (r ++ [n]))|apply (Et (r ++ [n]))]; by rewrite <- app_assoc.
Qed.

(** The parents are made above [to], out of the way of both subtrees. *)
Lemma parents_from now m from to r :
  apart from to → with_parents now m to !! (from ++ r) = m !! (from ++ r).
Proof.
  intros Hap. destruct (m !! (from ++ r)) as [e'|] eqn:E; [by apply parents_keep|].
  destruct (with_parents now m to !! (from ++ r)) as [e'|] eqn:E1; [|done].
  destruct (parents_new _ _ _ _ _ E E1) as (_&_&r'&_&Ht). exfalso. apply (Hap (r ++ r') []).
  by rewrite app_nil_r, Ht, app_assoc.
Qed.

Lemma parents_from' now m from to :
  apart from to → with_parents now m to !! from = m !! from.
Proof. intros Hap. pose proof (parents_from now m from to [] Hap) as H. by rewrite app_nil_r in H. Qed.

Lemma parents_to now m to r : with_parents now m to !! (to ++ r) = m !! (to ++ r).
Proof.
  destruct (m !! (to ++ r)) as [e'|] eqn:E; [by apply parents_keep|].
  destruct (with_parents now m to !! (to ++ r)) as [e'|] eqn:E1; [|done].
  destruct (parents_new _ _ _ _ _ E E1) as (_&_&r'&Hr'&Ht). rewrite <- app_assoc in Ht.
  by apply app_nil_absurd, app_nil in Ht as [_ ->].
Qed.

Lemma parents_fits now m from to : apart from to → fits m from to → fits (with_parents now m to) from to.
Proof.
  intros Hap Hf r e. rewrite parents_from by done. intros [?|Hl]%Hf; [by left|right]. intros n.
  rewrite <- app_assoc, parents_to, app_assoc. apply Hl.
Qed.

Lemma rename_makes `{!MapOrderLaws} now f t s e
    (from := normalize f) (to := normalize t) (m := mem_entries s) :
  tree_ok m → mem_poisoned s = false → apart from to → m !! from = Some e →
  ∃ s', rename now f t s = Some (Ok tt, s') ∧ renamed from to (with_parents now m to) (mem_entries s').
Proof.
  intros Hm Hpo Hap He. set (s1 := s <| mem_entries := with_parents now m to |>).
  destruct (rename_locked_run from to s1 e) as (s'&Hrun&Hren); [done| |done|by rewrite <- He; apply parents_from'|].
  - intros r Hr. cbn. rewrite parents_from by done. by apply below_directory.
  - exists s'. split; [unfold rename; by rewrite (bind_ok _ _ _ _ _ (ensure_run now to s Hpo))|done].
Qed.

Lemma rename_run `{!MapOrderLaws} now f t s e
    (from := normalize f) (to := normalize t) (m := mem_entries s) :
  tree_ok m → mem_poisoned s = false → apart from to → clear_above m to → fits m from to →
  m !! from = Some e →
  ∃ s', rename now f t s = Some (Ok tt, s') ∧ tree_ok (mem_entries s').
Proof.
  intros Hm Hpo Hap Habove Hf He. destruct (rename_makes now f t s e Hm Hpo Hap He) as (s'&Hrun&Hren).
  exists s'. split; [done|]. eapply (renamed_tree from to e (with_parents now m to)); try done.
  - by apply parents_tree.
  - fold to. destruct to as [|n p _] eqn:Et using rev_ind.
    + exfalso. apply (Hap [] from). by rewrite app_nil_r.
    + rewrite removelast_snoc. by apply parents_dir.
  - by apply parents_fits.
  - by rewrite parents_from'.
Qed.

(** What has to be so for the entries to be a tree after a rename. *)
Lemma renamed_clear now m from to m' e :
  apart from to → m !! from = Some e → renamed from to (with_parents now m to) m' → tree_ok m' → clear_above m to.
Proof.
  intros Hap He [R1 R2 R3 R4] Hm' q r -> Hr [e0 Hq].
  destruct (R1 [] e) as [g Hg]; [by rewrite app_nil_r, parents_from'|]. rewrite app_nil_r in Hg.
  destruct (tree_above _ _ _ _ Hm' Hg Hr) as [a Ha]. exists a. rewrite <- Ha. rewrite R4.
  - rewrite Hq. symmetry. by apply parents_keep.
  - intros x ->. apply (Hap (x ++ r) []). by rewrite app_nil_r, app_assoc.
  - intros x E. rewrite <- app_assoc in E. by apply app_nil_absurd, app_nil in E as [-> _].
Qed.
Lemma renamed_fits now m from to m' :
  tree_ok m → apart from to → renamed from to (with_parents now m to) m' → tree_ok m' → fits m from to.
Proof.
  intros Hm Hap [R1 R2 R3 R4] Hm' r e He. destruct (decide (entry_kind e = TDirectory)) as [|Hk]; [by left|right].
  intros n. destruct (m !! ((to ++ r) ++ [n])) as [e2|] eqn:E2; [|done]. exfalso.
  pose proof (leaf_childless _ _ _ Hm He Hk n) as Hl. rewrite <- app_assoc in Hl, E2.
  destruct (R1 r e) as [g Hg]; [by rewrite parents_from|].
  assert (m' !! (to ++ r ++ [n]) = Some e2) as E3.
  { rewrite R2; [by rewrite parents_to|by rewrite parents_from|by destruct r]. }
  rewrite app_assoc in E3. destruct (tr_parent _ Hm' _ _ _ E3) as [a Ha]. rewrite Hg in Ha. injection Ha as Ha.
  apply Hk. by rewrite <- (stamp_kind g), Ha.
Qed.

(** C25: a rename moves a subtree. Where the entries form a tree, the lock is not poisoned,
    the source is there and neither path is below the other, it succeeds: every entry of
    the subtree is at its place under the new path with its content, the old path and all
    below it are gone, what the destination has that the source has not stays, every other
    entry is what it was, and the only new ones are directories on the way. The entries
    still form a tree exactly when nothing but directories led to the new path and nothing
    that had children there is replaced by what is no directory. *)
Theorem rename_moves_subtree `{!MapOrderLaws} now f t s e
    (from := normalize f) (to := normalize t) (m := mem_entries s)
    (Hm : tree_ok m) (Hpo : mem_poisoned s = false) (Hap : apart from to) (He : m !! from = Some e) :
  ∃ s', rename now f t s = Some (Ok tt, s') ∧
    (∀ r e', m !! (from ++ r) = Some e' → ∃ g, mem_entries s' !! (to ++ r) = Some (stamp g e')) ∧
    (∀ r, mem_entries s' !! (from ++ r) = None) ∧
    (∀ r, m !! (from ++ r) = None → mem_entries s' !! (to ++ r) = m !! (to ++ r)) ∧
    (∀ k, (∀ r, k ≠ from ++ r) → (∀ r, k ≠ to ++ r) →
       mem_entries s' !! k = m !! k ∨
       m !! k = None ∧ (∃ r, to = k ++ r) ∧ dir_at (mem_entries s') k) ∧
    (tree_ok (mem_entries s') ↔ clear_above m to ∧ fits m from to).
Proof.
  destruct (rename_makes now f t s e Hm Hpo Hap He) as (s'&Hrun&Hren). pose proof Hren as [R1 R2 R3 R4].
  exists s'. split; [done|]. split_and!.
  - intros r e' Hr. apply R1. by rewrite parents_from.
  - done.
  - intros r Hr. destruct (decide (r = [])) as [->|Hne]; [rewrite app_nil_r in Hr; congruence|].
    rewrite R2; [by apply parents_to|by rewrite parents_from|done].
  - intros k Hkf Hkt. rewrite R4 by done.
    destruct (m !! k) as [e'|] eqn:E; [left; by apply parents_keep|].
    fold m. destruct (with_parents now m to !! k) as [e'|] eqn:E1; [right|by left].
    destruct (parents_new _ _ _ _ _ E E1) as (->&_&r&_&Ht). split; [done|]. split; [by exists r|].
    exists (attr_directory now 493). rewrite R4; done.
  - split.
    + intros Ht. split; [by eapply renamed_clear|by eapply renamed_fits].
    + intros [Hc Hf]. destruct (rename_run now f t s e Hm Hpo Hap Hc Hf He) as (s2&Hrun2&Htree).
      rewrite Hrun in Hrun2. by injection Hrun2 as <-.
Qed.
End rename.
