(* ===== verification/MemFsCalls.v ===== *)
(** * Whole calls on the in-memory backend

    Histories of calls that keep the tree; listings; writing a file and reading it
    back through the default methods of the trait. *)

From S2P Require Import Prelude MethodLogic Text VfsPath Vfs MemFs MemFsTree.

Section calls.
Context {order : MapOrder}.
Implicit Types (s : MemoryBackend) (m : gmap Path Entry) (p q : Path).

Lemma look_bind {A} p (k : option Entry → method MemoryBackend VfsError A) s r s' :
  (lock;; e ← find p; k e) s = Some (r, s') →
  s' = s ∨ k (mem_entries s !! p) s = Some (r, s').
Proof. intros [[-> _]|[_ H]]%locked_bind; [by left|by right]. Qed.

Lemma look_run {A} p (k : option Entry → method MemoryBackend VfsError A) s :
  mem_poisoned s = false → (lock;; e ← find p; k e) s = k (mem_entries s !! p) s.
Proof. intros H. by rewrite (bind_ok _ _ _ _ _ (lock_run s H)). Qed.

(** ** Calls that keep the tree *)

Inductive tame s : ∀ A, method MemoryBackend VfsError A → Prop :=
  | tame_getattr now path : tame s _ (getattr now path)
  | tame_readdir path : tame s _ (readdir path)
  | tame_read path off size : tame s _ (read path off size)
  | tame_readlink path : tame s _ (readlink path)
  | tame_write now path off d : tame s _ (write now path off d)
  | tame_truncate now path size : tame s _ (truncate now path size)
  | tame_setattr path set : tame s _ (setattr path set)
  | tame_unlink path : tame s _ (unlink path)
  | tame_rmdir path : tame s _ (rmdir path)
  | tame_create now path mode : clear_above (mem_entries s) (normalize path) →
      tame s _ (create now path mode)
  | tame_mkdir now path mode : clear_above (mem_entries s) (normalize path) →
      tame s _ (mkdir now path mode)
  | tame_symlink now path target : clear_above (mem_entries s) (normalize path) →
      tame s _ (symlink now path target)
  | tame_rename now from to : clear_above (mem_entries s) (normalize to) →
      apart (normalize from) (normalize to) → fits (mem_entries s) (normalize from) (normalize to) →
      tame s _ (rename now from to).

Inductive tame_step s : MemoryBackend → Prop :=
  | tame_call A f r s' : tame s A f → f s = Some (r, s') → tame_step s s'.

(** A new entry where [ensure_parents] went. *)
Lemma tree_new now m p e :
  tree_ok m → clear_above m p → m !! p = None → tree_ok (<[p := e]> (with_parents now m p)).
Proof.
  intros Hm Hc Hn. destruct p as [|n p _] using rev_ind.
  - destruct (tr_root _ Hm) as [a Ha]. congruence.
  - apply tree_insert; [by apply parents_tree|by apply parents_dir|right]. intros x.
    destruct (m !! ((p ++ [n]) ++ [x])) as [e'|] eqn:E.
    { destruct (tr_parent _ Hm _ _ _ E) as [a Ha]. congruence. }
    destruct (with_parents now m (p ++ [n]) !! ((p ++ [n]) ++ [x])) as [e'|] eqn:E1; [|done].
    destruct (parents_new _ _ _ _ _ E E1) as (_&_&r&Hr&Ht). rewrite <- app_assoc in Ht.
    by apply app_nil_absurd in Ht.
Qed.

(** The calls that make an entry: parents first, then a section that leaves the entries
    alone or puts one where there was none. *)
Lemma make_tree {A} now p (f : method MemoryBackend VfsError A) s r s' :
  tree_ok (mem_entries s) → clear_above (mem_entries s) p →
  (∀ s1, match f s1 with
         | Some (_, s2) => mem_entries s2 = mem_entries s1 ∨
             mem_entries s1 !! p = None ∧ ∃ e, mem_entries s2 = <[p := e]> (mem_entries s1)
         | None => True
         end) →
  (ensure_parents now p;; f) s = Some (r, s') → tree_ok (mem_entries s').
Proof.
  intros Hm Hc Hf. destruct (mem_poisoned s) eqn:Hpo.
  { unfold ensure_parents, lock, mbind, method_bind, m_bind. cbn. rewrite Hpo. by intros [= _ <-]. }
  rewrite (bind_ok _ _ _ _ _ (ensure_run now p s Hpo)).
  set (s1 := s <| mem_entries := _ |>). specialize (Hf s1).
  destruct (f s1) as [[r2 s2]|]; [|done]. intros [= -> ->].
  destruct Hf as [->|[Hn [e ->]]]; [by apply parents_tree|]. apply tree_new; [done..|].
  cbn in Hn. destruct (mem_entries s !! p) as [e'|] eqn:E; [|done].
  by rewrite (parents_keep now _ p _ _ E) in Hn.
Qed.

Lemma put_at_tree s p e e' :
  tree_ok (mem_entries s) → mem_entries s !! p = Some e → entry_kind e' = entry_kind e →
  ∀ g b, tree_ok (mem_entries {| mem_entries := <[p := e']> (mem_entries s);
                                mem_gen_clock := g; mem_poisoned := b |}).
Proof. intros Hm He Hk g b. by apply (tree_replace _ _ e). Qed.

Lemma take_tree s p e s' :
  tree_ok (mem_entries s) → p ≠ [] → childless (mem_entries s) p →
  (take p;; m_ret tt) s = Some (e, s') → tree_ok (mem_entries s').
Proof.
  intros Hm Hp Hc [= _ <-]. destruct p as [|n p _] using rev_ind; [done|]. by apply tree_delete.
Qed.

Lemma has_children_spec m p : has_children m p = false → childless m p.
Proof.
  intros H n. destruct (m !! (p ++ [n])) as [e|] eqn:E; [|done]. exfalso.
  assert (has_children m p = true); [|congruence]. apply existsb_exists. exists (p ++ [n]). split.
  - apply list_elem_of_In, list_elem_of_fmap. exists (p ++ [n], e). split; [done|].
    by apply elem_of_map_to_list.
  - apply andb_true_intro. split; [apply bool_decide_eq_true, parent_Some; by eexists|].
    apply negb_true_iff, bool_decide_eq_false. intros Ep. symmetry in Ep. by apply app_nil_absurd in Ep.
Qed.

Lemma tame_keeps `{!MapOrderLaws} s A f r s' :
  tame s A f → f s = Some (r, s') → tree_ok (mem_entries s) → tree_ok (mem_entries s').
Proof.
  intros Ht Hr Hm. destruct Ht as [now path|path|path off size|path|now path off d|now path size|
    path set|path|path|now path mode Hc|now path mode Hc|now path target Hc|now from to Hc Hap Hch].
  - unfold getattr in Hr. apply locked_bind in Hr as [[-> _]|[_ Hr]]; [done|].
    destruct (normalize path); [by injection Hr as _ <-|].
    unfold find, mbind, method_bind, m_bind in Hr. cbn in Hr.
    by destruct (mem_entries s !! _); injection Hr as _ <-.
  - unfold readdir in Hr. apply look_bind in Hr as [->|Hr]; [done|].
    by destruct (mem_entries s !! normalize path) as [[]|]; destruct (normalize path);
      injection Hr as _ <-.
  - unfold read in Hr. apply look_bind in Hr as [->|Hr]; [done|].
    by destruct (mem_entries s !! _) as [[]|]; injection Hr as _ <-.
  - unfold readlink in Hr. apply look_bind in Hr as [->|Hr]; [done|].
    by destruct (mem_entries s !! _) as [[]|]; injection Hr as _ <-.
  - unfold write in Hr. apply look_bind in Hr as [->|Hr]; [done|].
    destruct (mem_entries s !! _) as [[old attr|a|t a]|] eqn:E; try by injection Hr as _ <-.
    unfold m_assert in Hr. destruct (_ <=? vec_max); [|done].
    injection Hr as _ <-. by apply (put_at_tree s _ (File old attr)).
  - unfold truncate in Hr. apply look_bind in Hr as [->|Hr]; [done|].
    destruct (mem_entries s !! _) as [[old attr|a|t a]|] eqn:E; try by injection Hr as _ <-.
    unfold m_assert in Hr. destruct (_ <=? vec_max); [|done].
    injection Hr as _ <-. by apply (put_at_tree s _ (File old attr)).
  - unfold setattr in Hr. apply look_bind in Hr as [->|Hr]; [done|].
    destruct (mem_entries s !! _) as [e|] eqn:E; [|by injection Hr as _ <-].
    assert (entry_kind (attr_mut (set_attrs set) e) = entry_kind e) as Hk by by destruct e.
    destruct (set_size set) as [n|], e as [d a|a|t a];
      try (injection Hr as _ <-; by apply (put_at_tree s _ _ _ Hm E)).
    unfold m_assert in Hr. destruct (n <=? vec_max); [|done].
    injection Hr as _ <-. by apply (put_at_tree s _ (File d a)).
  - unfold unlink in Hr. destruct (normalize path) as [|x p] eqn:Ep; [by injection Hr as _ <-|].
    apply look_bind in Hr as [->|Hr]; [done|].
    destruct (mem_entries s !! _) as [[d a|a|t a]|] eqn:E; try (by injection Hr as _ <-);
      (apply (take_tree s (x :: p) r s'); [done|done|by apply (leaf_childless _ _ _ Hm E)|exact Hr]).
  - unfold rmdir in Hr. destruct (normalize path) as [|x p] eqn:Ep; [by injection Hr as _ <-|].
    apply look_bind in Hr as [->|Hr]; [done|].
    destruct (mem_entries s !! _) as [[d a|a|t a]|] eqn:E; try by injection Hr as _ <-.
    rewrite (bind_ok m_get _ s s s eq_refl) in Hr. unfold m_guard in Hr.
    destruct (has_children (mem_entries s) (x :: p)) eqn:Eh; [by injection Hr as _ <-|].
    apply (take_tree s (x :: p) r s'); [done|done|by apply has_children_spec|exact Hr].
  - eapply make_tree; [done|exact Hc| |exact Hr]. intros s1. unfold create_locked.
    destruct (mem_poisoned s1) eqn:Hpo; [unfold lock, mbind, method_bind, m_bind; cbn; rewrite Hpo; by left|].
    rewrite look_run by done. destruct (mem_entries s1 !! _) eqn:E; [by left|]. right. split; [done|by eexists].
  - eapply make_tree; [done|exact Hc| |exact Hr]. intros s1. unfold mkdir_locked.
    destruct (mem_poisoned s1) eqn:Hpo; [unfold lock, mbind, method_bind, m_bind; cbn; rewrite Hpo; by left|].
    rewrite look_run by done. destruct (mem_entries s1 !! _) as [[]|] eqn:E; try by left.
    right. split; [done|by eexists].
  - eapply make_tree; [done|exact Hc| |exact Hr]. intros s1. unfold symlink_locked.
    destruct (mem_poisoned s1) eqn:Hpo; [unfold lock, mbind, method_bind, m_bind; cbn; rewrite Hpo; by left|].
    rewrite look_run by done. destruct (mem_entries s1 !! _) eqn:E; [by left|]. right. split; [done|by eexists].
  - destruct (mem_poisoned s) eqn:Hpo.
    { unfold rename, ensure_parents, lock, mbind, method_bind, m_bind in Hr. cbn in Hr.
      rewrite Hpo in Hr. by injection Hr as _ <-. }
    destruct (mem_entries s !! normalize from) as [e|] eqn:E.
    { destruct (rename_run now from to s e) as (s2&Hrun&Htree); try done.
      rewrite Hrun in Hr. by injection Hr as _ <-. }
    unfold rename in Hr. rewrite (bind_ok _ _ _ _ _ (ensure_run now _ s Hpo)) in Hr.
    set (s1 := s <| mem_entries := _ |>) in Hr. unfold rename_locked in Hr.
    rewrite (bind_ok _ _ _ _ _ (lock_run s1 Hpo)) in Hr.
    rewrite (bind_ok _ _ _ _ _ (take_run _ _)) in Hr. cbn in Hr.
    rewrite parents_from', E in Hr by done. injection Hr as _ <-. cbn.
    rewrite delete_id by (by rewrite parents_from'). by apply parents_tree.
Qed.

(** ** Listings *)

Lemma listed_child_spec m dir k d :
  (pair k <$> m !! k) ≫= listed_child dir = Some d ↔
  k = dir ++ [de_name d] ∧ ∃ e, m !! k = Some e ∧ de_kind d = entry_kind e.
Proof.
  destruct (m !! k) as [e|]; cbn; [|split; [done|by intros (_&?&?&_)]].
  unfold listed_child. cbn. case_bool_decide as Hp.
  - apply parent_Some in Hp as [n ->]. rewrite bool_decide_false by
      (intros E; symmetry in E; by apply app_nil_absurd in E). cbn. unfold file_name. rewrite last_snoc. cbn.
    split.
    + intros [= <-]. split; [done|]. by exists e.
    + intros [E (e'&[= <-]&Hk)]. apply app_inj_tail in E as [_ ->]. by destruct d as [x y]; cbn in *; subst.
  - split; [done|]. intros [-> _]. destruct Hp. apply parent_Some. by eexists.
Qed.

(** The entries of a listing before it is sorted. *)
Definition raw_listing m dir : list DirEntry :=
  omap (listed_child dir) (omap (λ p, pair p <$> m !! p) (map_order (map_to_list m).*1)).

Lemma elem_of_raw m dir (l : list Path) d :
  d ∈ omap (listed_child dir) (omap (λ p, pair p <$> m !! p) l) ↔
  dir ++ [de_name d] ∈ l ∧ ∃ e, m !! (dir ++ [de_name d]) = Some e ∧ de_kind d = entry_kind e.
Proof.
  setoid_rewrite list_elem_of_omap. setoid_rewrite list_elem_of_omap. split.
  - intros ([k e]&(k'&Hk&Hp)&Hd). destruct (m !! k') as [e'|] eqn:E; [|done]. injection Hp as <- <-.
    assert ((pair k' <$> m !! k') ≫= listed_child dir = Some d) as H by (rewrite E; exact Hd).
    apply listed_child_spec in H as [-> H]. done.
  - intros [Hk (e&He&Hd)]. exists (dir ++ [de_name d], e). split.
    + exists (dir ++ [de_name d]). split; [done|]. by rewrite He.
    + assert ((pair (dir ++ [de_name d]) <$> m !! (dir ++ [de_name d])) ≫= listed_child dir = Some d) as H.
      { apply listed_child_spec. split; [done|]. by exists e. }
      by rewrite He in H.
Qed.

Lemma raw_names_NoDup m dir (l : list Path) : NoDup l →
  NoDup (de_name <$> omap (listed_child dir) (omap (λ p, pair p <$> m !! p) l)).
Proof.
  induction 1 as [|k l Hk Hl IH]; [constructor|]. cbn.
  destruct (m !! k) as [e|] eqn:E; cbn; [|done].
  destruct (listed_child dir (k, e)) as [d|] eqn:Ed; [|done]. cbn. constructor; [|done].
  assert (k = dir ++ [de_name d]) as ->.
  { apply (listed_child_spec m). rewrite E. exact Ed. }
  intros (d'&Hn&Hd')%list_elem_of_fmap. apply elem_of_raw in Hd' as [Hin _]. by rewrite <- Hn in Hin.
Qed.

#[local] Instance name_le_total : Total name_le.
Proof.
  intros a b. unfold name_le. destruct (str_lt_trichotomy (de_name a) (de_name b)) as [H|[H|H]].
  - left. intros H'. by apply (str_lt_irrefl (de_name a)); etrans.
  - left. rewrite H. apply str_lt_irrefl.
  - right. intros H'. by apply (str_lt_irrefl (de_name a)); etrans.
Qed.

Lemma strictly_sorted (l : list DirEntry) :
  Sorted name_le l → NoDup (de_name <$> l) → Sorted str_lt (de_name <$> l).
Proof.
  induction 1 as [|d l Hl IH Hd]; [constructor|]. cbn. intros [Hn Hnd]%NoDup_cons.
  constructor; [by apply IH|]. destruct Hd as [|d' l Hd]; constructor.
  destruct (str_lt_trichotomy (de_name d) (de_name d')) as [?|[E|?]]; [done| |done].
  destruct Hn. rewrite E. by left.
Qed.

Lemma listing_spec `{!MapOrderLaws} m dir :
  Sorted str_lt (de_name <$> listing m dir) ∧
  ∀ d, d ∈ listing m dir ↔ ∃ e, m !! (dir ++ [de_name d]) = Some e ∧ de_kind d = entry_kind e.
Proof.
  assert (listing m dir ≡ₚ raw_listing m dir) as Hp by apply merge_sort_Permutation. split.
  - apply strictly_sorted; [apply Sorted_merge_sort, _|]. rewrite Hp. apply raw_names_NoDup.
    rewrite map_order_perm. apply NoDup_fst_map_to_list.
  - intros d. rewrite Hp. unfold raw_listing. rewrite elem_of_raw. split; [by intros [_ ?]|].
    intros Hd. split; [|done]. destruct Hd as (e&He&_). rewrite map_order_perm.
    apply list_elem_of_fmap. exists (dir ++ [de_name d], e). split; [done|]. by apply elem_of_map_to_list.
Qed.

Lemma readdir_run path s : mem_poisoned s = false → dir_at (mem_entries s) (normalize path) →
  readdir path s = Some (Ok (listing (mem_entries s) (normalize path)), s).
Proof.
  intros Hpo [a Ha]. unfold readdir. rewrite look_run, Ha by done. by destruct (normalize path).
Qed.

(** Nothing in the tree gets lost. After any history of calls that do not put an entry
    below a file nor move a directory into itself or over another's children,
    failing calls included, the entries still form a tree: each of them is listed,
    under its name and with its kind, by [readdir] of the path above it; a listing
    names only what is there, each name once, in order. *)
Theorem entries_listed `{!MapOrderLaws} s0 s path
    (Hok : tree_ok (mem_entries s0)) (Hrun : rtc tame_step s0 s) (Hpo : mem_poisoned s = false) :
  tree_ok (mem_entries s) ∧
  (∀ n e, mem_entries s !! (normalize path ++ [n]) = Some e →
     ∃ l, readdir path s = Some (Ok l, s) ∧ {| de_name := n; de_kind := entry_kind e |} ∈ l) ∧
  (∀ l s', readdir path s = Some (Ok l, s') →
     s' = s ∧ Sorted str_lt (de_name <$> l) ∧
     ∀ d, d ∈ l → ∃ e, mem_entries s !! (normalize path ++ [de_name d]) = Some e ∧
                       de_kind d = entry_kind e).
Proof.
  assert (tree_ok (mem_entries s)) as Hm.
  { clear Hpo. induction Hrun as [|s1 s2 s3 [A f r s2' Hf Hr] _ IH]; [done|]. apply IH.
    by eapply tame_keeps. }
  split; [done|]. split.
  - intros n e He. eexists. split; [apply readdir_run; [done|by eapply tr_parent]|].
    apply listing_spec. by exists e.
  - intros l s' Hl. unfold readdir in Hl. rewrite look_run in Hl by done.
    assert (l = listing (mem_entries s) (normalize path) ∧ s' = s) as [-> ->].
    { destruct (mem_entries s !! normalize path) as [[]|]; destruct (normalize path);
        try discriminate Hl; by injection Hl as <- <-. }
    split; [done|]. split; [apply listing_spec|]. intros d. apply listing_spec.
Qed.
End calls.

(** * Writing a file of the in-memory backend and reading it back *)

Section files.
Context {order : MapOrder}.
Implicit Types (s : MemoryBackend) (p : Path).

Definition file_at s p (data : bytes) : Prop :=
  mem_poisoned s = false ∧
  ∃ a, mem_entries s !! p = Some (File data a) ∧ fa_size a = Z.of_nat (length data).

(** The bytes of a write at [off]. *)
Definition written (off : nat) (data old : bytes) : bytes :=
  firstn off (old ++ replicate (off - length old) Init.Byte.x00) ++ data ++ skipn (off + length data) old.

Lemma written_base off (data old : bytes) :
  let stop := Z.of_nat off + Z.of_nat (length data) in
  let base := if Z.of_nat (length old) <? stop then resize_vec stop old else old in
  firstn off base ++ data ++ skipn (Z.to_nat stop) base = written off data old.
Proof.
  cbn zeta. set (stop := Z.of_nat off + Z.of_nat (length data)).
  replace (Z.to_nat stop) with (off + length data)%nat by lia. unfold written.
  destruct (Z.ltb_spec (Z.of_nat (length old)) stop) as [Hlt|Hge].
  - unfold resize_vec. replace (Z.to_nat stop) with (off + length data)%nat by lia.
    rewrite resize_spec. rewrite (take_ge old) by lia. f_equal; [|f_equal].
    + destruct (decide (length old ≤ off)%nat).
      * rewrite !take_app_ge by done. f_equal. rewrite !take_replicate. f_equal. lia.
      * rewrite !take_app_le by lia. done.
    + rewrite (drop_ge old) by lia. apply drop_ge. rewrite length_app, length_replicate. lia.
  - f_equal. rewrite take_app_le by lia. done.
Qed.

Lemma write_run now path (off : nat) data s old a :
  mem_poisoned s = false → mem_entries s !! normalize path = Some (File old a) →
  Z.of_nat off + Z.of_nat (length data) ≤ vec_max →
  ∃ s', write now path (Z.of_nat off) data s = Some (Ok (as_u32 (Z.of_nat (length data))), s') ∧
    file_at s' (normalize path) (written off data old).
Proof.
  intros Hpo He Hmax. unfold write. rewrite look_run, He by done.
  rewrite (proj2 (Z.leb_le _ _) Hmax). cbn [m_assert]. eexists. split; [reflexivity|].
  split; [done|]. eexists. cbn. rewrite lookup_insert_eq.
  rewrite Nat2Z.id, (written_base off data old). split; [done|]. done.
Qed.

Lemma truncate_run now path size s old a :
  mem_poisoned s = false → mem_entries s !! normalize path = Some (File old a) → size ≤ vec_max →
  ∃ s', truncate now path size s = Some (Ok tt, s') ∧ file_at s' (normalize path) (resize_vec size old).
Proof.
  intros Hpo He Hmax. unfold truncate. rewrite look_run, He by done.
  rewrite (proj2 (Z.leb_le _ _) Hmax). cbn [m_assert]. eexists. split; [reflexivity|].
  split; [done|]. eexists. cbn. rewrite lookup_insert_eq. done.
Qed.

Lemma create_run now path mode s :
  tree_ok (mem_entries s) → mem_poisoned s = false → mem_entries s !! normalize path = None →
  clear_above (mem_entries s) (normalize path) →
  ∃ a s', create now path mode s = Some (Ok a, s') ∧ file_at s' (normalize path) [].
Proof.
  intros Hm Hpo Hn Hc. unfold create. rewrite (bind_ok _ _ _ _ _ (ensure_run _ _ s Hpo)).
  set (s1 := s <| mem_entries := _ |>). unfold create_locked. rewrite (look_run _ _ s1) by done.
  assert (mem_entries s1 !! normalize path = None) as ->.
  { cbn. destruct (with_parents _ _ _ !! normalize path) as [e|] eqn:E; [|done].
    destruct (parents_new _ _ _ _ _ Hn E) as (_&_&r&Hr&Hp). by apply app_nil_absurd in Hp. }
  eexists _, _. split; [reflexivity|]. split; [done|]. eexists. cbn. by rewrite lookup_insert_eq.
Qed.

(** ** Reading *)

Definition slice (off size : Z) (data : bytes) : bytes :=
  firstn (Z.to_nat size) (skipn (Z.to_nat off) data).

Lemma read_run path off size s data : file_at s (normalize path) data →
  0 ≤ off → 0 ≤ size → read path off size s = Some (Ok (slice off size data), s).
Proof.
  intros (Hpo&a&He&_) Ho Hs. unfold read. rewrite look_run, He by done.
  unfold m_ret. do 3 f_equal. unfold slice. set (len := Z.of_nat (length data)).
  destruct (Z.le_gt_cases len off).
  - rewrite Z.min_r by lia. rewrite !(skipn_all2 data) by lia. by rewrite !firstn_nil.
  - rewrite (Z.min_l off) by lia. destruct (Z.le_gt_cases (off + size) len).
    + rewrite Z.min_l by lia. f_equal. lia.
    + rewrite Z.min_r by lia. rewrite !firstn_all2; rewrite ?length_skipn; [done|lia..].
Qed.

Lemma stream_run path s data : file_at s (normalize path) data → ∀ fuel off,
  0 ≤ off ≤ Z.of_nat (length data) → (length data - Z.to_nat off < fuel)%nat →
  ∃ chunks, v_stream fuel path off s = Some (Ok chunks, s) ∧
    concat chunks = skipn (Z.to_nat off) data ∧
    Forall (λ c, 0 < Z.of_nat (length c) ≤ STREAM_CHUNK_SIZE) chunks.
Proof.
  intros Hf. induction fuel as [|fuel IH]; intros off Ho Hfuel; [lia|]. cbn [v_stream].
  assert (0 < STREAM_CHUNK_SIZE) as HN by done.
  change (v_read path off STREAM_CHUNK_SIZE) with (read path off STREAM_CHUNK_SIZE).
  rewrite (bind_ok _ _ _ _ _ (read_run path off STREAM_CHUNK_SIZE s data Hf ltac:(lia) ltac:(lia))).
  set (chunk := slice off STREAM_CHUNK_SIZE data).
  assert (Z.of_nat (length chunk) = Z.min STREAM_CHUNK_SIZE (Z.of_nat (length data) - off)) as Hlen.
  { unfold chunk, slice. rewrite length_take, length_drop. lia. }
  assert (firstn (length chunk) (skipn (Z.to_nat off) data) = chunk) as Hchunk.
  { unfold chunk, slice. set (rest := skipn _ _). rewrite length_take.
    destruct (Nat.min_spec (Z.to_nat STREAM_CHUNK_SIZE) (length rest)) as [[_ ->]|[Hge ->]]; [done|].
    rewrite (take_ge rest (length rest)) by done. symmetry. by apply take_ge. }
  destruct chunk as [|b chunk'] eqn:Ec.
  - exists []. split; [done|]. split; [|done]. cbn in Hlen |- *. by rewrite skipn_all2 by lia.
  - assert (0 < Z.of_nat (length chunk)) as Hpos by (rewrite Ec; cbn [length]; lia).
    rewrite <- Ec in Hlen, Hchunk |- *. clearbody chunk. destruct (IH (off + Z.of_nat (length chunk))) as (chunks&Hr&Hcat&Hall); [lia..|].
    exists (chunk :: chunks). rewrite (bind_ok _ _ _ _ _ Hr). split; [done|]. split.
    + cbn [concat]. rewrite Hcat. rewrite <- Hchunk at 1.
      rewrite Z2Nat.inj_add, Nat2Z.id by lia. rewrite <- drop_drop. apply take_drop.
    + constructor; [|done]. lia.
Qed.

(** [write_all] after the file is there and empty. *)
Lemma write_all_step now path data s s1 :
  (b ← v_exists now path;
   (if (b : bool) then v_truncate now path 0 else v_create now path 420;; m_ret tt)) s =
    Some (Ok tt, s1) →
  v_write_all now path data s = (v_write now path 0 data;; m_ret tt) s1.
Proof.
  unfold v_write_all, mbind, method_bind. unfold m_bind at 1 3.
  destruct (v_exists now path s) as [[[b|e] s0]|]; [|done..].
  intros Hr. unfold m_bind at 1. by rewrite Hr.
Qed.

(** What is written is what is read. On a path that holds a file, or where nothing is and
    only directories lead, [write_all] succeeds; [read_all] then gives the bytes back,
    the whole of them below 4 GiB and the first (length mod 2^32) of them in general,
    since the trait asks for the size as a [u32]; a stream of chunks gives all of
    them, none empty and none too long; and a write in the middle gives the old bytes
    outside of it, zeros in a gap, and reads back itself. *)
Theorem write_read_back now path (data : bytes) s (p := normalize path)
    (Hm : tree_ok (mem_entries s)) (Hpo : mem_poisoned s = false)
    (Hp : (∃ old a, mem_entries s !! p = Some (File old a)) ∨
          mem_entries s !! p = None ∧ clear_above (mem_entries s) p)
    (Hdata : Z.of_nat (length data) ≤ vec_max) :
  ∃ s', v_write_all now path data s = Some (Ok tt, s') ∧
    v_read_all now path s' = Some (Ok (firstn (Z.to_nat (as_u32 (Z.of_nat (length data)))) data), s') ∧
    (Z.of_nat (length data) ≤ u32_max → v_read_all now path s' = Some (Ok data, s')) ∧
    (∃ chunks, v_stream (S (length data)) path 0 s' = Some (Ok chunks, s') ∧
       concat chunks = data ∧
       Forall (λ c, 0 < Z.of_nat (length c) ≤ STREAM_CHUNK_SIZE) chunks) ∧
    (∀ (off : nat) patch, Z.of_nat off + Z.of_nat (length patch) ≤ vec_max →
       ∃ s2, write now path (Z.of_nat off) patch s' =
               Some (Ok (as_u32 (Z.of_nat (length patch))), s2) ∧
         file_at s2 p (written off patch data) ∧
         read path (Z.of_nat off) (Z.of_nat (length patch)) s2 = Some (Ok patch, s2)).
Proof.
  assert (p ≠ []) as Hroot.
  { intros E. destruct (tr_root _ Hm) as [a0 Ha0]. fold p in Hp. rewrite E, Ha0 in Hp.
    destruct Hp as [(?&?&?)|[? _]]; done. }
  assert (∀ s1 e, mem_poisoned s1 = false → mem_entries s1 !! p = e →
    getattr now path s1 = match e with
      | Some e => Some (Ok (entry_attr e), s1) | None => Some (Err (NotFound (path_str p)), s1) end) as Hattr.
  { intros s1 e Hpo1 <-. unfold getattr. rewrite (bind_ok _ _ _ _ _ (lock_run s1 Hpo1)). fold p.
    destruct p as [|x p'] eqn:Ep; [done|]. rewrite (bind_ok (find _) _ s1 _ s1 eq_refl).
    by destruct (mem_entries s1 !! _). }
  assert (∃ s1, (b ← v_exists now path;
      (if (b : bool) then v_truncate now path 0 else v_create now path 420;; m_ret tt)) s =
        Some (Ok tt, s1) ∧ file_at s1 p []) as (s1&Hr1&Hf1).
  { destruct Hp as [(old&a&He)|[Hn Hc]].
    - destruct (truncate_run now path 0 s old a Hpo He) as (s1&Hr&Hf); [done|].
      assert (resize_vec 0 old = []) as E by (unfold resize_vec; by rewrite resize_0).
      rewrite E in Hf. exists s1. split; [|exact Hf]. rewrite (bind_ok _ _ s true s); [exact Hr|].
      unfold v_exists. cbn. by rewrite (Hattr s _ Hpo He).
    - destruct (create_run now path 420 s Hm Hpo Hn Hc) as (a&s1&Hr&Hf).
      exists s1. split; [|exact Hf]. rewrite (bind_ok _ _ s false s); [exact (bind_ok (v_create now path 420) _ _ _ _ Hr)|].
      unfold v_exists. cbn. by rewrite (Hattr s _ Hpo Hn). }
  destruct Hf1 as (Hpo1&a1&He1&Hsz1).
  destruct (write_run now path 0 data s1 [] a1 Hpo1 He1) as (s'&Hr2&Hf2); [cbn; lia|].
  assert (written 0 data [] = data) as Hw.
  { unfold written. cbn. by rewrite drop_nil, app_nil_r. }
  rewrite Hw in Hf2.
  assert (v_read_all now path s' =
    Some (Ok (firstn (Z.to_nat (as_u32 (Z.of_nat (length data)))) data), s')) as Hread.
  { destruct Hf2 as (Hpo2&a2&He2&Hsz2). fold p in He2. unfold v_read_all. cbn.
    rewrite (bind_ok _ _ s' a2 s').
    - rewrite Hsz2. rewrite (read_run path 0 _ s' data); [done| |done|apply Z.mod_pos_bound; done].
      split; [done|]. by exists a2.
    - by rewrite (Hattr s' _ Hpo2 He2). }
  exists s'. split.
  { rewrite (write_all_step _ _ _ _ _ Hr1). exact (bind_ok (write now path (Z.of_nat 0) data) _ _ _ _ Hr2). }
  split; [done|]. split.
  { intros Hu. rewrite Hread. do 3 f_equal. apply take_ge. unfold as_u32, u32_max in *.
    rewrite Z.mod_small by lia. lia. }
  split.
  { destruct (stream_run path s' data Hf2 (S (length data)) 0) as (chunks&Hr&Hcat&Hall); [lia..|].
    by exists chunks. }
  intros off patch Hpatch. destruct Hf2 as (Hpo2&a2&He2&_).
  destruct (write_run now path off patch s' data a2 Hpo2 He2 Hpatch) as (s2&Hr&Hf).
  exists s2. split; [done|]. split; [done|].
  rewrite (read_run path _ _ s2 _ Hf) by lia. do 3 f_equal. unfold slice. rewrite !Nat2Z.id.
  unfold written. rewrite drop_app_length', take_app_length' by
    (rewrite ?length_take, ?length_app, ?length_replicate; lia). done.
Qed.
End files.
