(* ===== verification/Mount.v ===== *)
(** * The mount table ([vfs/mount.rs])

    Routes calls to the backend with the longest matching mount path. Backends are
    shared objects: the table holds references into a heap of backend states, and two
    mounts may hold the same one. *)

From S2P Require Import Prelude Text VfsPath Vfs.

Definition BASELINE_GENERATION : Z := 1.

(** ** Ordered maps keyed by paths *)

Definition component_rank (c : Component) : Z :=
  match c with RootDir => 0 | CurDir => 1 | ParentDir => 2 | Normal _ => 3 end.
Definition component_cmp (a b : Component) : comparison :=
  match a, b with
  | Normal s, Normal t => String.compare s t
  | _, _ => component_rank a ?= component_rank b
  end.
(** [Ord for Path]. *)
Fixpoint path_cmp (p q : list Component) : comparison :=
  match p, q with
  | [], [] => Eq
  | [], _ => Lt
  | _, [] => Gt
  | a :: p', b :: q' => match component_cmp a b with Eq => path_cmp p' q' | c => c end
  end.

Section btree.
Context {V : Type}.
Implicit Types (l : list (string * V)).

Definition same_path (k k' : string) : bool := bool_decide (components k = components k').
Definition bt_contains (k : string) l : bool := existsb (λ x, same_path k x.1) l.
(** [BTreeMap::insert]: an equal key stays as it was written, a new one takes its place
    in the order. *)
Fixpoint bt_place (k : string) (v : V) l : list (string * V) :=
  match l with
  | [] => [(k, v)]
  | x :: l' =>
      match path_cmp (components k) (components x.1) with
      | Gt => x :: bt_place k v l'
      | _ => (k, v) :: l
      end
  end.
Definition bt_insert (k : string) (v : V) l : list (string * V) :=
  if bt_contains k l then (λ x, if same_path k x.1 then (x.1, v) else x) <$> l
  else bt_place k v l.
Definition bt_remove (k : string) l : list (string * V) := filter (λ x, ¬ same_path k x.1) l.
End btree.

(** ** The table *)

Record MountTable := {
  mt_mounts : list (string * N);
  mt_frozen : bool;
  mt_generations : gmap (list Component) Z;
  mt_activity : gmap (list Component) Z;
  mt_activity_epoch : Z;
}.
#[export] Instance MountTable_settable : Settable MountTable := λ t,
  {| mt_mounts := mt_mounts t; mt_frozen := mt_frozen t; mt_generations := mt_generations t;
     mt_activity := mt_activity t; mt_activity_epoch := mt_activity_epoch t |}.

Record Kernel (FS : Type) := { k_table : MountTable; k_heap : gmap N FS }.
Arguments k_table {FS}. Arguments k_heap {FS}.
#[export] Instance Kernel_settable FS : Settable (Kernel FS) := λ k,
  {| k_table := k_table k; k_heap := k_heap k |}.

Definition mount_table_new : MountTable :=
  {| mt_mounts := []; mt_frozen := false; mt_generations := ∅; mt_activity := ∅;
     mt_activity_epoch := 0 |}.

Definition freeze (t : MountTable) : MountTable := t <| mt_frozen := true |>.
Definition is_frozen (t : MountTable) : bool := mt_frozen t.

(** [trim_end_matches('/')], [trim_start_matches('/')]. *)
Fixpoint trim_end_slash (s : string) : string :=
  match s with
  | "" => ""
  | String c s' =>
      match trim_end_slash s' with
      | "" => if bool_decide (c = slash) then "" else String c ""
      | t => String c t
      end
  end.
Fixpoint trim_start_slash (s : string) : string :=
  match s with
  | "" => ""
  | String c s' => if bool_decide (c = slash) then trim_start_slash s' else s
  end.

Definition rooted (s : string) : string := if starts_with s "/" then s else "/" +:+ s.

Definition normalize_mount_path (path : string) : string :=
  match trim_end_slash path with
  | "" => "/"
  | s => rooted s
  end.

(** [mount_arc]; [mount] is the same on a reference of its own. *)
Definition mount_arc (path : string) (fs : N) (t : MountTable) : bool * MountTable :=
  if is_frozen t then (false, t)
  else (true, t <| mt_mounts := bt_insert (normalize_mount_path path) fs (mt_mounts t) |>).

Definition unmount (path : string) (t : MountTable) : bool * MountTable :=
  if is_frozen t then (false, t)
  else (bt_contains (normalize_mount_path path) (mt_mounts t),
        t <| mt_mounts := bt_remove (normalize_mount_path path) (mt_mounts t) |>).

(** ** Stamps *)

Definition dir_key (dir : string) : list Component := components (normalize_mount_path dir).

(** [Path::parent] on components. *)
Definition parent_dir (path : string) : list Component :=
  match components (normalize_mount_path path) with
  | [] | [RootDir] => [RootDir]
  | p => match removelast p with [] => [RootDir] | q => q end
  end.

Definition bump_generation (dir : list Component) (t : MountTable) : MountTable :=
  t <| mt_generations :=
    <[dir := match mt_generations t !! dir with
             | Some g => wrap_u64 (g + 1)
             | None => BASELINE_GENERATION + 1
             end]> (mt_generations t) |>.

Definition generation_of (t : MountTable) (dir : string) : Z :=
  default BASELINE_GENERATION (mt_generations t !! dir_key dir).

Definition bump_activity (dir : list Component) (t : MountTable) : MountTable :=
  t <| mt_activity :=
    <[dir := match mt_activity t !! dir with
             | Some a => wrap_u64 (a + 1)
             | None => 1
             end]> (mt_activity t) |>
    <| mt_activity_epoch := wrap_u64 (mt_activity_epoch t + 1) |>.

Definition global_activity (t : MountTable) : Z := mt_activity_epoch t.

(** ** Routing *)

Definition is_match (normalized mount_str : string) : bool :=
  if bool_decide (mount_str = "/") then true
  else bool_decide (normalized = mount_str) || starts_with normalized (mount_str +:+ "/").

(** The loop over the mounts, with [best_match]. *)
Definition better (normalized : string) (best : option (string * N)) (x : string * N) :
    option (string * N) :=
  if is_match normalized x.1 then
    match best with
    | None => Some x
    | Some b => if (String.length b.1 <? String.length x.1)%nat then Some x else best
    end
  else best.

Definition owner_of (t : MountTable) (path : string) : option (string * N) :=
  foldl (better (rooted path)) None (mt_mounts t).

Definition relative_to (mount_str path : string) : string :=
  if bool_decide (mount_str = "/") then trim_start_slash (rooted path)
  else trim_start_slash (default "" (strip_prefix (rooted path) mount_str)).

Definition find_mount (t : MountTable) (path : string) : option (N * string) :=
  '(mount_path, fs) ← owner_of t path; Some (fs, relative_to mount_path path).

Section table.
Context {FS : Type} `{!VfsOps FS}.

Abbreviation kernel_method := (method (Kernel FS) VfsError).

Definition routed (path : string) : kernel_method (N * string) :=
  k ← m_get;
  match find_mount (k_table k) path with
  | Some x => m_ret x
  | None => m_fail (NoMountPoint path)
  end.

(** A call on the backend behind a reference. *)
Definition on_fs {A} (fs : N) (f : method FS VfsError A) : kernel_method A := λ k,
  match k_heap k !! fs with
  | None => None
  | Some st =>
      match f st with
      | Some (r, st') => Some (r, k <| k_heap := <[fs := st']> (k_heap k) |>)
      | None => None
      end
  end.

Definition on_table (f : MountTable → MountTable) : kernel_method () :=
  m_modify (λ k, k <| k_table := f (k_table k) |>).

Definition is_writable (path : string) (k : Kernel FS) : bool :=
  match find_mount (k_table k) path with
  | Some (fs, _) => match k_heap k !! fs with Some st => negb (v_read_only st) | None => false end
  | None => false
  end.

Definition list_mounts (k : Kernel FS) : list (string * bool) :=
  omap (λ x, (λ st, (x.1, v_read_only st)) <$> k_heap k !! x.2) (mt_mounts (k_table k)).

(** ** Listings *)

Definition entry_le (a b : DirEntry) : Prop := ¬ str_lt (de_name b) (de_name a).
#[export] Instance entry_le_dec : RelDecision entry_le.
Proof. intros a b. unfold entry_le. apply _. Defined.

(** Pushing the entries with names not [seen]. *)
Fixpoint push_new (new entries : list DirEntry) : list DirEntry :=
  match new with
  | [] => entries
  | e :: new' =>
      if bool_decide (de_name e ∈ de_name <$> entries) then push_new new' entries
      else push_new new' (entries ++ [e])
  end.

(** [split('/').next()] of a mount path. *)
Definition first_component (mount_str : string) : string :=
  hd "" (split_slash (trim_start_slash mount_str)).

Fixpoint list_root_loop (mounts : list (string * N)) (entries : list DirEntry) :
    kernel_method (list DirEntry) :=
  match mounts with
  | [] => m_ret entries
  | (mount_str, fs) :: mounts' =>
      if bool_decide (mount_str = "/") then
        λ k, match on_fs fs (v_readdir "") k with
             | Some (Ok es, k') => list_root_loop mounts' (push_new es entries) k'
             | Some (Err _, k') => list_root_loop mounts' entries k'
             | None => None
             end
      else
        let first := first_component mount_str in
        list_root_loop mounts'
          (if bool_decide (first = "") then entries
           else push_new [{| de_name := first; de_kind := TDirectory |}] entries)
  end.
Definition list_root : kernel_method (list DirEntry) :=
  k ← m_get;
  entries ← list_root_loop (mt_mounts (k_table k)) [];
  m_ret (merge_sort entry_le entries).

(** [Path::strip_prefix]. *)
Fixpoint strip_components (p prefix : list Component) : option (list Component) :=
  match prefix, p with
  | [], _ => Some p
  | a :: prefix', b :: p' => if bool_decide (a = b) then strip_components p' prefix' else None
  | _ :: _, [] => None
  end.

Definition component_str (c : Component) : string :=
  match c with RootDir => "/" | CurDir => "." | ParentDir => ".." | Normal s => s end.

Definition next_below (prefix : string) (mount_path : string) : option string :=
  if same_path mount_path prefix then None
  else rest ← strip_components (components mount_path) (components prefix);
       component_str <$> head rest.

(** The names of a [BTreeSet] come out in order, each once. *)
Definition mount_children (t : MountTable) (prefix : string) : list DirEntry :=
  (λ name, {| de_name := name; de_kind := TDirectory |}) <$>
    merge_sort str_le (remove_dups (omap (next_below prefix) (fst <$> mt_mounts t))).

(** ** [impl VfsOps for MountTable] *)

Definition is_root (path : string) : bool :=
  bool_decide (path = "") || bool_decide (path = "/").

Definition t_getattr (now : Z) (path : string) : kernel_method FileAttr :=
  if is_root path then m_ret (attr_directory now 493)
  else
    k ← m_get;
    let normalized := normalize_mount_path path in
    if bt_contains normalized (mt_mounts (k_table k)) then m_ret (attr_directory now 493)
    else if negb (bool_decide (mount_children (k_table k) normalized = [])) then
      m_ret (attr_directory now 493)
    else '(fs, relative) ← routed path; on_fs fs (v_getattr now relative).

(** A backend may miss a directory that only the mounts make. *)
Definition tolerate (lonely : bool) (f : kernel_method (list DirEntry)) :
    kernel_method (list DirEntry) := λ k,
  match f k with
  | Some (Err e, k') =>
      if negb lonely && is_not_found e then Some (Ok [], k') else Some (Err e, k')
  | other => other
  end.

Definition t_readdir (path : string) : kernel_method (list DirEntry) :=
  if is_root path then list_root
  else
    k ← m_get;
    let synthetic := mount_children (k_table k) (normalize_mount_path path) in
    let lonely := bool_decide (synthetic = []) in
    backend ← match find_mount (k_table k) path with
              | Some (fs, relative) => tolerate lonely (on_fs fs (v_readdir relative))
              | None => if lonely then m_fail (NoMountPoint path) else m_ret []
              end;
    if lonely then m_ret backend
    else m_ret (merge_sort entry_le (push_new synthetic backend)).

Definition t_read (path : string) (offset size : Z) : kernel_method bytes :=
  '(fs, relative) ← routed path; on_fs fs (v_read relative offset size).
Definition t_readlink (path : string) : kernel_method string :=
  '(fs, relative) ← routed path; on_fs fs (v_readlink relative).

(** What follows a structural change of the listing of [dir], and one of content. *)
Definition bump_both (dir : list Component) : kernel_method () :=
  on_table (bump_generation dir);; on_table (bump_activity dir).

Definition t_write (now : Z) (path : string) (offset : Z) (data : bytes) : kernel_method Z :=
  '(fs, relative) ← routed path;
  n ← on_fs fs (v_write now relative offset data);
  on_table (bump_activity (parent_dir path));;
  m_ret n.

Definition t_create (now : Z) (path : string) (mode : Z) : kernel_method FileAttr :=
  '(fs, relative) ← routed path;
  attr ← on_fs fs (v_create now relative mode);
  bump_both (parent_dir path);;
  m_ret attr.

Definition t_mkdir (now : Z) (path : string) (mode : Z) : kernel_method FileAttr :=
  '(fs, relative) ← routed path;
  attr ← on_fs fs (v_mkdir now relative mode);
  bump_both (parent_dir path);;
  m_ret attr.

Definition t_unlink (path : string) : kernel_method () :=
  '(fs, relative) ← routed path;
  on_fs fs (v_unlink relative);;
  bump_both (parent_dir path).

Definition t_rmdir (path : string) : kernel_method () :=
  '(fs, relative) ← routed path;
  on_fs fs (v_rmdir relative);;
  bump_both (parent_dir path).

(** [Arc::ptr_eq] compares the references. *)
Definition t_rename (now : Z) (from to : string) : kernel_method () :=
  '(from_fs, from_relative) ← routed from;
  '(to_fs, to_relative) ← routed to;
  m_guard (bool_decide (from_fs = to_fs)) CrossDeviceLink;;
  on_fs from_fs (v_rename now from_relative to_relative);;
  on_table (bump_generation (parent_dir from));;
  on_table (bump_generation (parent_dir to));;
  on_table (bump_activity (parent_dir from));;
  on_table (bump_activity (parent_dir to)).

Definition t_truncate (now : Z) (path : string) (size : Z) : kernel_method () :=
  '(fs, relative) ← routed path;
  on_fs fs (v_truncate now relative size);;
  on_table (bump_activity (parent_dir path)).

Definition t_setattr (path : string) (attr : SetAttr) : kernel_method FileAttr :=
  '(fs, relative) ← routed path;
  attr ← on_fs fs (v_setattr relative attr);
  on_table (bump_activity (parent_dir path));;
  m_ret attr.

Definition t_symlink (now : Z) (path target : string) : kernel_method FileAttr :=
  '(fs, relative) ← routed path;
  attr ← on_fs fs (v_symlink now relative target);
  bump_both (parent_dir path);;
  m_ret attr.

Definition t_link (oldpath newpath : string) : kernel_method FileAttr :=
  '(old_fs, old_relative) ← routed oldpath;
  '(new_fs, new_relative) ← routed newpath;
  m_guard (bool_decide (old_fs = new_fs)) CrossDeviceLink;;
  attr ← on_fs old_fs (v_link old_relative new_relative);
  bump_both (parent_dir newpath);;
  m_ret attr.

#[export] Instance Kernel_ops : VfsOps (Kernel FS) := {|
  v_getattr := t_getattr;
  v_readdir := t_readdir;
  v_read := t_read;
  v_readlink := t_readlink;
  v_write := t_write;
  v_create := t_create;
  v_mkdir := t_mkdir;
  v_unlink := t_unlink;
  v_rmdir := t_rmdir;
  v_rename := t_rename;
  v_truncate := t_truncate;
  v_setattr := t_setattr;
  v_symlink := t_symlink;
  v_link := t_link;
  v_read_only := λ _, false;
|}.
End table.
