(* ===== verification/MountRoute.v ===== *)
(** * Routing is longest prefix over path components

    The table compares texts; on absolute paths made of names it refines a map from
    lists of names to backends, looked up by longest prefix. *)

From S2P Require Import Prelude Text VfsPath Vfs MethodLogic Mount.

Implicit Types (p k r : list string).

Definition abs p : string := String slash (join_names p).
Definition names p : Prop := Forall is_name p.

(** ** Texts of paths *)

Lemma join_app p r : p ≠ [] → r ≠ [] → join_names (p ++ r) = join_names p +:+ String slash (join_names r).
Proof.
  intros Hp Hr. induction p as [|n p IH]; [done|]. destruct p as [|n' p].
  - cbn [app join_names]. destruct r as [|m r]; [done|]. done.
  - cbn [app]. change (join_names (n :: (n' :: p) ++ r) = join_names (n :: n' :: p) +:+ String slash (join_names r)).
    cbn [app join_names] in IH |- *. rewrite IH by done. by rewrite !str_app_assoc.
Qed.

Lemma split_join p : names p → p ≠ [] → split_slash (join_names p) = p.
Proof.
  induction 1 as [|n p Hn Hp IH]; [done|]. intros _. destruct p as [|n' p].
  - cbn. apply split_slash_single, Hn.
  - change (join_names (n :: n' :: p)) with (n +:+ String slash (join_names (n' :: p))).
    rewrite split_slash_app, split_slash_single, IH by (done || apply Hn). done.
Qed.

Lemma split_abs p : names p → p ≠ [] → split_slash (abs p) = "" :: p.
Proof. intros. cbn. rewrite bool_decide_true by done. by rewrite split_join. Qed.

Lemma abs_inj p k : names p → names k → abs p = abs k → p = k.
Proof.
  intros Hp Hk E. assert (∀ q, names q → components (join_names q) = Normal <$> q) as Hc by apply components_join.
  assert (components (join_names p) = components (join_names k)) as Ec by (by injection E as ->).
  rewrite !Hc in Ec by done. revert Ec. apply list_fmap_eq_inj. by intros ? ? [= ->].
Qed.

Lemma starts_with_spec s t : starts_with s t = true ↔ ∃ u : string, s = t +:+ u.
Proof.
  revert s. induction t as [|c t IH]; intros s.
  - split; [intros _; by exists s|by destruct s].
  - destruct s as [|d s]; cbn [starts_with].
    + split; [done|]. by intros [r ?].
    + rewrite andb_true_iff, bool_decide_eq_true, IH. split.
      * intros [-> [r ->]]. by exists r.
      * intros [r [= -> ->]]. split; [done|]. by exists r.
Qed.

Lemma strip_prefix_app t s : strip_prefix (t +:+ s) t = Some s.
Proof.
  induction t as [|c t IH]; [by destruct s|]. rewrite str_app_cons. cbn. by rewrite bool_decide_true.
Qed.

Lemma abs_app k r : k ≠ [] → r ≠ [] → abs (k ++ r) = abs k +:+ String slash (join_names r).
Proof. intros. unfold abs. by rewrite join_app. Qed.

Lemma abs_root k : names k → abs k = "/" ↔ k = [].
Proof.
  intros Hk. split; [|by intros ->]. intros E. apply (abs_inj k []); [done|constructor|exact E].
Qed.

(** Matching texts is matching components. *)
Lemma is_match_spec p k : names p → names k → is_match (abs p) (abs k) = true ↔ k `prefix_of` p.
Proof.
  intros Hp Hk. unfold is_match. case_bool_decide as E.
  { apply abs_root in E as ->; [|done]. split; [intros _; apply prefix_nil|done]. }
  assert (k ≠ []) as Hne by by intros ->.
  rewrite orb_true_iff, bool_decide_eq_true, starts_with_spec. split.
  - intros [Ea|[r Er]]; [by rewrite (abs_inj p k Hp Hk Ea)|].
    assert (p ≠ []) as Hpne.
    { intros ->. apply (f_equal split_slash) in Er. rewrite <- str_app_assoc in Er.
      change ("/" +:+ r) with (String slash r) in Er. rewrite split_slash_app, (split_abs k) in Er by done.
      destruct (split_slash_cons r) as (x&xs&Ex). rewrite Ex in Er.
      change (split_slash (abs [])) with [""; ""] in Er. apply (f_equal length) in Er.
      rewrite length_app in Er. destruct k; [done|]. cbn in Er. lia. }
    apply (f_equal split_slash) in Er. rewrite <- str_app_assoc in Er.
    change ("/" +:+ r) with (String slash r) in Er. rewrite split_slash_app, !split_abs in Er by done.
    injection Er as ->. by exists (split_slash r).
  - intros [r ->]. destruct (decide (r = [])) as [->|Hr]; [left; by rewrite app_nil_r|right].
    exists (join_names r). rewrite abs_app by done. by rewrite <- str_app_assoc.
Qed.

Lemma abs_length_prefix k k' : k `prefix_of` k' → k ≠ k' → (String.length (abs k) < String.length (abs k'))%nat
  ∨ ¬ names k'.
Proof.
  intros [r ->] Hne. assert (r ≠ []) as Hr by (intros ->; by rewrite app_nil_r in Hne).
  destruct (decide (k = [])) as [->|Hk].
  - destruct r as [|n r]; [done|]. destruct n as [|c n]; [right; intros Hn; inversion Hn as [|? ? []]; done|left].
    cbn [app]. unfold abs. destruct r; cbn [join_names]; rewrite ?str_app_cons; cbn [String.length]; lia.
  - left. rewrite abs_app by done. rewrite str_length_app. cbn [String.length]. lia.
Qed.

Lemma trim_start_noop s : starts_with s "/" = false → trim_start_slash s = s.
Proof.
  destruct s as [|c s]; [done|]. cbn. intros H. destruct (decide (c = slash)) as [->|Hc].
  - destruct s; done.
  - by rewrite bool_decide_false.
Qed.

Lemma join_no_slash p : names p → starts_with (join_names p) "/" = false.
Proof.
  destruct 1 as [|n p (H1&_&_&H2) _]; [done|]. destruct n as [|c n]; [done|].
  cbn in H2. apply orb_false_iff in H2 as [Hc _]. apply bool_decide_eq_false in Hc.
  destruct p; cbn [join_names]; rewrite ?str_app_cons; cbn [starts_with];
    by rewrite bool_decide_false by (intros E; by apply Hc).
Qed.

Lemma relative_spec k r : names k → names r → relative_to (abs k) (abs (k ++ r)) = join_names r.
Proof.
  intros Hk Hr. unfold relative_to, rooted.
  assert (∀ q, starts_with (abs q) "/" = true) as -> by (intros q; apply starts_with_spec; by exists (join_names q)).
  assert (∀ s, starts_with s "/" = false → trim_start_slash (String slash s) = s) as Hslash.
  { intros s Hs. cbn. by apply trim_start_noop. }
  case_bool_decide as E.
  { apply abs_root in E as ->; [|done]. apply Hslash, join_no_slash, Hr. }
  assert (k ≠ []) as Hne by by intros ->.
  destruct (decide (r = [])) as [->|Hrne].
  - rewrite app_nil_r. rewrite <- (str_app_nil_r (abs k)) at 1. by rewrite strip_prefix_app.
  - rewrite abs_app, strip_prefix_app by done. apply Hslash, join_no_slash, Hr.
Qed.

(** ** The abstract table *)

(** The table of texts stands for a map from lists of names. *)
Record represents (t : MountTable) (M : gmap (list string) N) : Prop := {
  rep_names k fs : M !! k = Some fs → names k;
  rep_nodup : NoDup (fst <$> mt_mounts t);
  rep_elem s fs : (s, fs) ∈ mt_mounts t ↔ ∃ k, s = abs k ∧ M !! k = Some fs;
}.

Lemma trim_end_noop s n : is_name n → trim_end_slash (s +:+ n) = s +:+ n.
Proof.
  intros (Hn1&_&_&Hn2). induction s as [|c s IH].
  - rewrite str_app_nil_l. clear -Hn1 Hn2. induction n as [|c n IH]; [done|]. cbn.
    cbn in Hn2. apply orb_false_iff in Hn2 as [Hc Hn2]. destruct (decide (n = "")) as [->|Hne].
    + cbn. by rewrite Hc.
    + rewrite IH by done. by destruct n.
  - rewrite str_app_cons. cbn. rewrite IH. destruct (s +:+ n) eqn:E; [|done].
    destruct s; [|done]. rewrite str_app_nil_l in E. congruence.
Qed.

Lemma normalize_abs k : names k → normalize_mount_path (abs k) = abs k.
Proof.
  intros Hk. unfold normalize_mount_path. destruct k as [|n k _] using rev_ind; [done|].
  apply Forall_app in Hk as [_ [Hn _]%Forall_cons].
  assert (∃ s, abs (k ++ [n]) = s +:+ n) as [s Es].
  { destruct (decide (k = [])) as [->|Hne]; [by exists "/"|].
    exists (abs k +:+ "/"). rewrite abs_app by done. by rewrite <- str_app_assoc. }
  assert (trim_end_slash (abs (k ++ [n])) = abs (k ++ [n])) as -> by (rewrite Es; by apply trim_end_noop).
  change (rooted (abs (k ++ [n])) = abs (k ++ [n])). unfold rooted.
  by rewrite (proj2 (starts_with_spec (abs (k ++ [n])) "/")) by (by eexists).
Qed.

Lemma omap_names k : names k → omap piece k = Normal <$> k.
Proof. induction 1 as [|n k Hn Hk IH]; [done|]. cbn. by rewrite piece_name, IH. Qed.

Lemma components_abs k : names k → components (abs k) = RootDir :: (Normal <$> k).
Proof.
  intros Hk. destruct (decide (k = [])) as [->|Hne]; [done|].
  unfold components. rewrite split_abs by done.
  rewrite (proj2 (starts_with_spec (abs k) "/")) by (by eexists).
  cbn. by rewrite omap_names.
Qed.

Lemma same_path_abs k k' : names k → names k' → same_path (abs k) (abs k') = bool_decide (k = k').
Proof.
  intros Hk Hk'. unfold same_path. apply bool_decide_ext. rewrite !components_abs by done.
  split; [|by intros ->]. intros [= E]. revert E. apply list_fmap_eq_inj. by intros ? ? [= ->].
Qed.

Lemma bt_place_perm {V} (s : string) (v : V) l : bt_place s v l ≡ₚ (s, v) :: l.
Proof.
  induction l as [|x l IH]; cbn; [done|]. destruct (path_cmp _ _); [done..|].
  rewrite IH. apply Permutation_swap.
Qed.

Lemma bt_contains_spec {V} (l : list (string * V)) (M : gmap (list string) V) k :
  (∀ s fs, (s, fs) ∈ l ↔ ∃ k, s = abs k ∧ M !! k = Some fs) →
  (∀ (k : list string) (fs : V), M !! k = Some fs → names k) → names k →
  bt_contains (abs k) l = bool_decide (is_Some (M !! k)).
Proof.
  intros Hl HM Hk. apply eq_bool_prop_intro. rewrite !Is_true_true, bool_decide_eq_true.
  unfold bt_contains. rewrite existsb_exists. split.
  - intros ([s fs]&Hin&Hs). apply list_elem_of_In, Hl in Hin as (k'&->&Hk').
    cbn in Hs. rewrite same_path_abs in Hs by (done || by eapply HM).
    apply bool_decide_eq_true in Hs as ->. by eexists.
  - intros [fs Hfs]. exists (abs k, fs). split; [apply list_elem_of_In, Hl; by exists k|].
    cbn. rewrite same_path_abs by done. by apply bool_decide_eq_true.
Qed.

Lemma represents_insert t M k fs :
  represents t M → names k →
  represents (t <| mt_mounts := bt_insert (abs k) fs (mt_mounts t) |>) (<[k := fs]> M).
Proof.
  intros [R1 R2 R3] Hk. split; cbn.
  - intros k' fs' [[<- _]|[_ H]]%lookup_insert_Some; [done|by eapply R1].
  - unfold bt_insert. destruct (bt_contains (abs k) (mt_mounts t)) eqn:Ec.
    + replace (fst <$> ((λ x, if same_path (abs k) x.1 then (x.1, fs) else x) <$> mt_mounts t))
        with (fst <$> mt_mounts t); [done|].
      rewrite <- list_fmap_compose. apply list_fmap_ext. intros _ [s v] _. cbn. by case_match.
    + rewrite bt_place_perm. cbn. constructor; [|done]. intros ([s v]&Hs&Hin)%list_elem_of_fmap.
      cbn in Hs. subst s. rewrite (bt_contains_spec _ _ _ R3 R1 Hk) in Ec.
      apply bool_decide_eq_false in Ec. apply R3 in Hin as (k'&E&Hk'). apply Ec.
      rewrite (abs_inj k k'); [by eexists|done|by eapply R1|done].
  - intros s v. unfold bt_insert. rewrite (bt_contains_spec _ _ _ R3 R1 Hk). case_bool_decide as Hc.
    + rewrite list_elem_of_fmap. split.
      * intros ([s' v']&E&Hin). apply R3 in Hin as (k'&->&Hk'). cbn in E.
        rewrite same_path_abs in E by (done || by eapply R1). case_bool_decide as Ek.
        { subst k'. injection E as -> ->. exists k. by rewrite lookup_insert_eq. }
        { injection E as -> ->. exists k'. by rewrite lookup_insert_ne. }
      * intros (k'&->&[[<- <-]|[Hne Hk']]%lookup_insert_Some).
        { destruct Hc as [v' Hv']. exists (abs k, v'). cbn. rewrite same_path_abs, bool_decide_true by done.
          split; [done|]. apply R3. by exists k. }
        { exists (abs k', v). cbn. rewrite same_path_abs, bool_decide_false by (done || by eapply R1).
          split; [done|]. apply R3. by exists k'. }
    + rewrite bt_place_perm, elem_of_cons, R3. split.
      * intros [[= -> ->]|(k'&->&Hk')]; [exists k; by rewrite lookup_insert_eq|].
        exists k'. split; [done|]. rewrite lookup_insert_ne; [done|]. intros <-. apply Hc. by eexists.
      * intros (k'&->&[[<- <-]|[Hne Hk']]%lookup_insert_Some); [by left|right; by exists k'].
Qed.

Lemma represents_delete t M k :
  represents t M → names k →
  represents (t <| mt_mounts := bt_remove (abs k) (mt_mounts t) |>) (delete k M).
Proof.
  intros [R1 R2 R3] Hk. split; cbn.
  - intros k' fs' [_ H]%lookup_delete_Some. by eapply R1.
  - unfold bt_remove. revert R2. generalize (mt_mounts t). clear. intros l.
    induction l as [|x l IH]; [done|]. intros [Hx Hl]%NoDup_cons. rewrite filter_cons.
    case_decide; [|by apply IH]. cbn. constructor; [|by apply IH].
    intros (y&E&Hy)%list_elem_of_fmap. apply list_elem_of_filter in Hy as [_ Hy].
    apply Hx, list_elem_of_fmap. by exists y.
  - intros s v. unfold bt_remove. rewrite list_elem_of_filter, R3. cbn. split.
    + intros [Hs (k'&->&Hk')]. exists k'. split; [done|]. apply lookup_delete_Some. split; [|done].
      intros <-. apply Hs. by rewrite same_path_abs, bool_decide_true.
    + intros (k'&->&[Hne Hk']%lookup_delete_Some). split; [|by exists k'].
      rewrite same_path_abs, bool_decide_false; [by intros []|done|done|by eapply R1].
Qed.

(** The loop keeps the longest match. *)
Definition candidate path (best : option (string * N)) (l : list (string * N)) x : Prop :=
  best = Some x ∨ x ∈ l ∧ is_match path x.1 = true.

Lemma better_cases path best x l y :
  candidate path (better path best x) l y → candidate path best (x :: l) y.
Proof.
  unfold better, candidate. intros [Hb|[Hl Hm]]; [|right; split; [by right|done]].
  destruct (is_match path x.1) eqn:Em; [|by left]. destruct best as [b|].
  - destruct (_ <? _)%nat; [|by left]. injection Hb as <-. right. split; [by left|done].
  - injection Hb as <-. right. split; [by left|done].
Qed.

Lemma better_max path best x l y : candidate path best (x :: l) y →
  ∃ z, candidate path (better path best x) l z ∧ (String.length y.1 ≤ String.length z.1)%nat.
Proof.
  unfold better, candidate. intros [->|[[->|Hl]%elem_of_cons Hm]].
  - destruct (is_match path x.1); [|by exists y; split; [left|]].
    destruct (Nat.ltb_spec (String.length y.1) (String.length x.1)); [exists x|exists y]; (split; [by left|lia]).
  - rewrite Hm. destruct best as [b|]; [|by exists x; split; [left|]].
    destruct (Nat.ltb_spec (String.length b.1) (String.length x.1)); [exists x|exists b]; (split; [by left|lia]).
  - exists y. split; [right; by split|lia].
Qed.

Lemma better_spec path l : ∀ best,
  match foldl (better path) best l with
  | Some b => candidate path best l b ∧
      ∀ x, candidate path best l x → (String.length x.1 ≤ String.length b.1)%nat
  | None => ∀ x, ¬ candidate path best l x
  end.
Proof.
  induction l as [|x l IH]; intros best; cbn [foldl].
  { destruct best as [b|]; [split; [by left|]|]; unfold candidate;
      [intros x [[= ->]|[[]%elem_of_nil _]]; lia|intros x [[=]|[[]%elem_of_nil _]]]. }
  specialize (IH (better path best x)). destruct (foldl _ _ l) as [b|].
  - destruct IH as [Hb Hmax]. split; [by apply better_cases|]. intros y Hy.
    destruct (better_max _ _ _ _ _ Hy) as (z&Hz&?). specialize (Hmax z Hz). lia.
  - intros y Hy. destruct (better_max _ _ _ _ _ Hy) as (z&Hz&?). by apply (IH z).
Qed.

Lemma rooted_abs p : rooted (abs p) = abs p.
Proof. unfold rooted. by rewrite (proj2 (starts_with_spec (abs p) "/")) by (by eexists). Qed.

(** [k] is the longest mounted prefix of [p]. *)
Definition longest_mount (M : gmap (list string) N) p k fs : Prop :=
  M !! k = Some fs ∧ k `prefix_of` p ∧
  ∀ k' fs', M !! k' = Some fs' → k' `prefix_of` p → k' `prefix_of` k.

Lemma owner_of_spec t M p : represents t M → names p →
  match owner_of t (abs p) with
  | Some (s, fs) => ∃ k, s = abs k ∧ longest_mount M p k fs
  | None => ∀ k, k `prefix_of` p → M !! k = None
  end.
Proof.
  intros [R1 R2 R3] Hp. unfold owner_of. rewrite rooted_abs.
  pose proof (better_spec (abs p) (mt_mounts t) None) as Hb. destruct (foldl _ _ _) as [[s fs]|].
  - destruct Hb as [[|[Hin Hm]] Hmax]; [done|]. apply R3 in Hin as (k&->&Hk). exists k. split; [done|].
    pose proof (R1 _ _ Hk) as Hnk. apply is_match_spec in Hm; [|done..]. split_and!; [done..|].
    intros k' fs' Hk' Hp'. destruct (prefix_weak_total k' k p) as [?|Hpre]; [done..|].
    destruct (decide (k = k')) as [->|Hne]; [done|].
    pose proof (R1 _ _ Hk') as Hnk'. destruct (abs_length_prefix k k' Hpre Hne) as [Hlen|]; [|done].
    assert (String.length (abs k') ≤ String.length (abs k))%nat; [|lia].
    apply (Hmax (abs k', fs')). right. split; [apply R3; by exists k'|]. by apply is_match_spec.
  - intros k Hk. destruct (M !! k) as [fs|] eqn:E; [|done]. destruct (Hb (abs k, fs)). right.
    split; [apply R3; by exists k|]. apply is_match_spec; [done|by eapply R1|done].
Qed.

(** C19: the mount table refines a map from lists of names to backends, looked up by
    longest prefix. An empty table stands for the empty map; mounting and unmounting a
    path made of names insert into and delete from the map, unless the table is
    frozen; and the text of a path is routed to the mount that is the longest prefix
    of its names, whatever other mounts share text with it, with the text of the
    remaining names, or is refused when no prefix of it is mounted. *)
Theorem mounts_refine_map t M p fs (Ht : represents t M) (Hp : names p) :
  represents mount_table_new ∅ ∧
  represents (mount_arc (abs p) fs t).2 (if is_frozen t then M else <[p := fs]> M) ∧
  (mount_arc (abs p) fs t).1 = negb (is_frozen t) ∧
  represents (unmount (abs p) t).2 (if is_frozen t then M else delete p M) ∧
  (unmount (abs p) t).1 = negb (is_frozen t) && bool_decide (is_Some (M !! p)) ∧
  (∀ b rel, find_mount t (abs p) = Some (b, rel) ↔
     ∃ k r, p = k ++ r ∧ rel = join_names r ∧ longest_mount M p k b) ∧
  (find_mount t (abs p) = None ↔ ∀ k, k `prefix_of` p → M !! k = None).
Proof.
  split. { split; [done|constructor|]. intros s v. split; [by intros ?%elem_of_nil|by intros (?&_&?)]. }
  unfold mount_arc, unmount. rewrite normalize_abs by done.
  split. { destruct (is_frozen t); [done|]. by apply represents_insert. }
  split. { by destruct (is_frozen t). }
  split. { destruct (is_frozen t); [done|]. by apply represents_delete. }
  split. { destruct (is_frozen t); [done|]. destruct Ht as [R1 R2 R3]. by apply bt_contains_spec. }
  pose proof (owner_of_spec t M p Ht Hp) as Ho. unfold find_mount.
  destruct (owner_of t (abs p)) as [[s b]|]; cbn.
  - destruct Ho as (k&->&Hk). pose proof Hk as (HM&[r ->]&Hmax).
    pose proof (rep_names _ _ Ht _ _ HM) as Hnk.
    assert (names r) as Hnr by (by apply Forall_app in Hp as [_ ?]).
    rewrite relative_spec by done. split.
    + intros b' rel. split.
      * intros [= <- <-]. exists k, r. done.
      * intros (k'&r'&E&->&(HM'&Hp'&Hmax')).
        assert (k' = k) as ->.
        { apply (anti_symm prefix); [by apply (Hmax _ _ HM' Hp')|by apply (Hmax' _ _ HM), prefix_app_r]. }
        apply app_inv_head in E as ->. congruence.
    + split; [done|]. intros Hn. rewrite Hn in HM; [done|]. by apply prefix_app_r.
  - split; [|done]. intros b rel. split; [done|]. intros (k&r&_&_&HM&Hpk&_). by rewrite Ho in HM.
Qed.
