(* ===== verification/Activity.v ===== *)
(** * The activity stream ([vfs/activity.rs])

    A subscriber's cursor, the digest it still needs, and the interleaving of writers,
    ticks and deliveries. *)

From S2P Require Import Prelude Text VfsPath Vfs Mount.

Abbreviation Dir := (list Component).

Record ActivityDigest := {
  ad_entries : list (Dir * Z);
  ad_global_total : Z;
  ad_truncated : bool;
}.

Record ActivityCursor := {
  ac_last_global : Z;
  ac_last_sent : gmap Dir Z;
}.
Definition cursor_default : ActivityCursor := {| ac_last_global := 0; ac_last_sent := ∅ |}.

Definition commit_digest (digest : ActivityDigest) (c : ActivityCursor) : ActivityCursor := {|
  ac_last_global := if ad_truncated digest then ac_last_global c else ad_global_total digest;
  ac_last_sent := foldl (λ m x, <[x.1 := x.2]> m) (ac_last_sent c) (ad_entries digest);
|}.

(** Totals in descending order, ties by path. *)
Definition dir_leb (p q : Dir) : bool := match path_cmp p q with Gt => false | _ => true end.
Definition hotter (a b : Dir * Z) : Prop :=
  b.2 < a.2 ∨ a.2 = b.2 ∧ dir_leb a.1 b.1 = true.
#[export] Instance hotter_dec : RelDecision hotter.
Proof. intros a b. unfold hotter. apply _. Defined.

Definition at_or_under (prefix : option string) (dir : Dir) : bool :=
  match prefix with
  | None => true
  | Some p => bool_decide (normalize_mount_path p = "/") ||
      bool_decide (is_Some (strip_components dir (dir_key p)))
  end.

Definition activity_snapshot (prefix : option string) (activity : gmap Dir Z) : list (Dir * Z) :=
  merge_sort hotter (filter (λ x, at_or_under prefix x.1) (map_to_list activity)).

(** What changed for the subscriber: directory, total, delta. *)
Definition stale (c : ActivityCursor) (x : Dir * Z) : option (Dir * Z * Z) :=
  let last := default 0 (ac_last_sent c !! x.1) in
  if bool_decide (last = x.2) then None else Some (x.1, x.2, sat_sub x.2 last).

Definition bigger_delta (a b : Dir * Z * Z) : Prop :=
  b.2 < a.2 ∨ a.2 = b.2 ∧ dir_leb a.1.1 b.1.1 = true.
#[export] Instance bigger_delta_dec : RelDecision bigger_delta.
Proof. intros a b. unfold bigger_delta. apply _. Defined.

(** The digest of a reading of the totals, the epoch having been read before. *)
Definition digest_at (epoch : Z) (activity : gmap Dir Z) (c : ActivityCursor)
    (max_entries : nat) : ActivityDigest :=
  let candidates := merge_sort bigger_delta (omap (stale c) (activity_snapshot None activity)) in
  {| ad_entries := fst <$> firstn max_entries candidates;
     ad_global_total := epoch;
     ad_truncated := (max_entries <? length candidates)%nat |}.

Definition activity_digest (t : MountTable) (c : ActivityCursor) (max_entries : nat) :
    option ActivityDigest :=
  let epoch := global_activity t in
  if bool_decide (epoch = ac_last_global c) then None
  else Some (digest_at epoch (mt_activity t) c max_entries).

(** ** Interleavings

    A bump writes the map, then the epoch; a tick reads the epoch, then the map; a
    digest is delivered or lost. *)

Inductive Tick_state :=
  | Idle
  | EpochRead (epoch : Z)
  | InFlight (digest : ActivityDigest).

Record Stream := {
  st_activity : gmap Dir Z;
  st_epoch : Z;
  st_pending : nat;
  st_cursor : ActivityCursor;
  st_tick : Tick_state;
}.

Definition stream_new : Stream :=
  {| st_activity := ∅; st_epoch := 0; st_pending := 0; st_cursor := cursor_default; st_tick := Idle |}.

(** The first half of [bump_activity]. *)
Definition count (dir : Dir) (m : gmap Dir Z) : gmap Dir Z :=
  <[dir := match m !! dir with Some a => wrap_u64 (a + 1) | None => 1 end]> m.

Section steps.
Variable max_entries : nat.

Inductive stream_step : relation Stream :=
  | step_count m e n c k dir :
      e + Z.of_nat n + 1 ≤ u64_max →
      stream_step {| st_activity := m; st_epoch := e; st_pending := n; st_cursor := c; st_tick := k |}
        {| st_activity := count dir m; st_epoch := e; st_pending := S n; st_cursor := c; st_tick := k |}
  | step_epoch m e n c k :
      stream_step {| st_activity := m; st_epoch := e; st_pending := S n; st_cursor := c; st_tick := k |}
        {| st_activity := m; st_epoch := wrap_u64 (e + 1); st_pending := n; st_cursor := c; st_tick := k |}
  | step_read m e n c :
      e ≠ ac_last_global c →
      stream_step {| st_activity := m; st_epoch := e; st_pending := n; st_cursor := c; st_tick := Idle |}
        {| st_activity := m; st_epoch := e; st_pending := n; st_cursor := c; st_tick := EpochRead e |}
  | step_snapshot m e n c epoch :
      stream_step {| st_activity := m; st_epoch := e; st_pending := n; st_cursor := c; st_tick := EpochRead epoch |}
        {| st_activity := m; st_epoch := e; st_pending := n; st_cursor := c;
           st_tick := InFlight (digest_at epoch m c max_entries) |}
  | step_deliver m e n c d :
      stream_step {| st_activity := m; st_epoch := e; st_pending := n; st_cursor := c; st_tick := InFlight d |}
        {| st_activity := m; st_epoch := e; st_pending := n; st_cursor := commit_digest d c; st_tick := Idle |}
  | step_lost m e n c d :
      stream_step {| st_activity := m; st_epoch := e; st_pending := n; st_cursor := c; st_tick := InFlight d |}
        {| st_activity := m; st_epoch := e; st_pending := n; st_cursor := c; st_tick := Idle |}.
End steps.

(** Ticks on a table at rest, each delivered. *)
Definition tick (max_entries : nat) (t : MountTable) (c : ActivityCursor) : ActivityCursor :=
  match activity_digest t c max_entries with
  | Some d => commit_digest d c
  | None => c
  end.

(** * No activity is lost on the way to a subscriber *)

Implicit Types (m : gmap Dir Z) (c : ActivityCursor).

(** ** Sums of totals *)

Definition sum_map m : Z := map_fold (λ _ a acc, a + acc) 0 m.
Definition at_dir m (d : Dir) : Z := default 0 (m !! d).

Lemma sum_insert_new m d a : m !! d = None → sum_map (<[d := a]> m) = a + sum_map m.
Proof. intros H. unfold sum_map. rewrite map_fold_insert_L; [done|intros; lia|done]. Qed.

Lemma sum_delete m d : sum_map m = at_dir m d + sum_map (delete d m).
Proof.
  unfold at_dir. destruct (m !! d) as [a|] eqn:E; cbn.
  - rewrite <- (sum_insert_new (delete d m) d a) by apply lookup_delete_eq. by rewrite insert_delete_id.
  - by rewrite delete_id.
Qed.

Lemma sum_insert m d a : sum_map (<[d := a]> m) = sum_map m - at_dir m d + a.
Proof.
  rewrite <- insert_delete_eq. rewrite sum_insert_new by apply lookup_delete_eq.
  rewrite (sum_delete m d). lia.
Qed.

Lemma at_dir_insert m d a d' : at_dir (<[d := a]> m) d' = if decide (d = d') then a else at_dir m d'.
Proof. unfold at_dir. rewrite lookup_insert. by case_decide. Qed.
Lemma at_dir_delete m d d' : at_dir (delete d m) d' = if decide (d = d') then 0 else at_dir m d'.
Proof. unfold at_dir. rewrite lookup_delete. by case_decide. Qed.

(** Pointwise order gives the order of the sums, and equal sums equal totals. *)
Lemma sum_le m1 : ∀ m2, (∀ d, 0 ≤ at_dir m1 d ≤ at_dir m2 d) →
  sum_map m1 ≤ sum_map m2 ∧ (sum_map m1 = sum_map m2 → ∀ d, at_dir m1 d = at_dir m2 d).
Proof.
  induction m1 as [|i x m1 Hi IH] using map_ind; intros m2 Hle.
  - change (sum_map ∅) with 0. assert (∀ d, at_dir ∅ d = 0) as H0 by done.
    setoid_rewrite H0 in Hle. setoid_rewrite H0. clear H0. induction m2 as [|i x m2 Hi IH] using map_ind.
    { by split. }
    rewrite sum_insert_new by done.
    assert (0 ≤ x) by (specialize (Hle i); rewrite at_dir_insert, decide_True in Hle by done; lia).
    destruct IH as [IH1 IH2].
    { intros d. specialize (Hle d). rewrite at_dir_insert in Hle. case_decide as Hd; [|done].
      subst d. unfold at_dir. rewrite Hi. cbn. lia. }
    split; [lia|]. intros E d. rewrite at_dir_insert. case_decide; [lia|]. apply IH2. lia.
  - rewrite sum_insert_new, (sum_delete m2 i) by done.
    pose proof (Hle i) as Hx. rewrite at_dir_insert, decide_True in Hx by done.
    destruct (IH (delete i m2)) as [IH1 IH2].
    { intros d. specialize (Hle d). rewrite at_dir_insert in Hle. rewrite at_dir_delete.
      case_decide as Hd; [|done]. subst d. unfold at_dir. rewrite Hi. cbn. lia. }
    split; [lia|]. intros E d. rewrite at_dir_insert. case_decide as Hd; [subst; lia|].
    rewrite IH2 by lia. rewrite at_dir_delete. by rewrite decide_False.
Qed.

Lemma sum_eq m1 m2 : (∀ d, 0 ≤ at_dir m1 d) → (∀ d, at_dir m1 d = at_dir m2 d) → sum_map m1 = sum_map m2.
Proof.
  intros H0 Heq. destruct (sum_le m1 m2) as [H1 _]; [intros d; specialize (Heq d); specialize (H0 d); lia|].
  destruct (sum_le m2 m1) as [H2 _]; [intros d; specialize (Heq d); specialize (H0 d); lia|]. lia.
Qed.

(** ** Digests *)

Definition sent c : Dir → Z := at_dir (ac_last_sent c).

(** A cursor that is behind, and that only calls itself complete up to what it was sent. *)
Record cursor_ok m c : Prop := {
  cu_sent d : 0 ≤ sent c d ≤ at_dir m d;
  cu_global : ac_last_global c ≤ sum_map (ac_last_sent c);
}.

Lemma cursor_caught_up m c : cursor_ok m c → sum_map m ≤ ac_last_global c → ∀ d, sent c d = at_dir m d.
Proof.
  intros [Hs Hg] H. destruct (sum_le _ _ Hs) as [H1 H2]. intros d. apply H2. lia.
Qed.

Lemma snapshot_perm m : activity_snapshot None m ≡ₚ map_to_list m.
Proof.
  unfold activity_snapshot. rewrite merge_sort_Permutation. generalize (map_to_list m). intros l.
  induction l as [|x l IH]; [done|]. rewrite filter_cons_True by done. by rewrite IH.
Qed.

Definition candidates m c : list (Dir * Z * Z) :=
  merge_sort bigger_delta (omap (stale c) (activity_snapshot None m)).

Lemma candidates_perm m c : candidates m c ≡ₚ omap (stale c) (map_to_list m).
Proof. unfold candidates. by rewrite merge_sort_Permutation, snapshot_perm. Qed.

Lemma stale_spec c x y : stale c x = Some y ↔
  sent c x.1 ≠ x.2 ∧ y = (x.1, x.2, sat_sub x.2 (sent c x.1)).
Proof.
  unfold stale. fold (sent c x.1). change (default 0 (ac_last_sent c !! x.1)) with (sent c x.1).
  case_bool_decide; split; [done|by intros []|by intros [= <-]|by intros [_ ->]].
Qed.

Lemma elem_of_candidates m c d v w :
  (d, v, w) ∈ candidates m c ↔ m !! d = Some v ∧ sent c d ≠ v ∧ w = sat_sub v (sent c d).
Proof.
  rewrite candidates_perm, list_elem_of_omap. split.
  - intros ([d' v']&Hin&Hs). apply elem_of_map_to_list in Hin. apply stale_spec in Hs as [? [= -> -> ->]]. done.
  - intros (Hm&Hne&->). exists (d, v). split; [by apply elem_of_map_to_list|]. by apply stale_spec.
Qed.

Lemma candidates_NoDup m c : NoDup ((λ x, x.1.1) <$> candidates m c).
Proof.
  rewrite candidates_perm. pose proof (NoDup_fst_map_to_list m) as Hnd. revert Hnd.
  generalize (map_to_list m). intros l. induction l as [|x l IH]; [constructor|]. cbn.
  intros [Hx Hl]%NoDup_cons. destruct (stale c x) as [y|] eqn:E; [|by apply IH]. cbn.
  apply stale_spec in E as [_ ->]. constructor; [|by apply IH]. cbn.
  intros (y&Hy&Hin)%list_elem_of_fmap. apply list_elem_of_omap in Hin as (x'&Hin&Hs).
  apply stale_spec in Hs as [_ ->]. cbn in Hy. apply Hx, list_elem_of_fmap. by exists x'.
Qed.

(** Delivering entries that are totals of [m]. *)
Lemma foldl_deliver m (l : list (Dir * Z)) d : (∀ x, x ∈ l → m !! x.1 = Some x.2) → ∀ m0,
  foldl (λ m x, <[x.1 := x.2]> m) m0 l !! d = if decide (d ∈ l.*1) then m !! d else m0 !! d.
Proof.
  induction l as [|x l IH]; intros Hl m0; cbn [foldl].
  { by rewrite decide_False by apply not_elem_of_nil. }
  rewrite IH by (intros; apply Hl; by right). cbn.
  destruct (decide (d ∈ l.*1)) as [Hd|Hd].
  - rewrite decide_True; [done|by right].
  - destruct (decide (d = x.1)) as [->|Hne].
    + rewrite lookup_insert_eq, decide_True by (by left). symmetry. apply Hl. by left.
    + rewrite lookup_insert_ne, decide_False by (done || by intros [?|?]%elem_of_cons). done.
Qed.

Lemma digest_entries e m c n x :
  x ∈ ad_entries (digest_at e m c n) → m !! x.1 = Some x.2 ∧ sent c x.1 ≠ x.2.
Proof.
  cbn. intros ([[d v] w]&->&Hin)%list_elem_of_fmap.
  assert ((d, v, w) ∈ candidates m c) as Hc.
  { unfold candidates. rewrite <- (take_drop n (merge_sort _ _)). apply elem_of_app. by left. }
  apply elem_of_candidates in Hc as (?&?&_). done.
Qed.

Lemma commit_sent e m c n d :
  sent (commit_digest (digest_at e m c n) c) d =
    if decide (d ∈ (ad_entries (digest_at e m c n)).*1) then at_dir m d else sent c d.
Proof.
  unfold sent, at_dir, commit_digest. cbn [ac_last_sent].
  rewrite (foldl_deliver m) by (intros x Hx; by apply digest_entries in Hx as [? _]). by case_decide.
Qed.

(** Everything stale is in a digest that is not truncated. *)
Lemma complete_entries e m c n d :
  ad_truncated (digest_at e m c n) = false → sent c d ≠ at_dir m d → m !! d ≠ None →
  d ∈ (ad_entries (digest_at e m c n)).*1.
Proof.
  cbn. fold (candidates m c). intros Hn%Nat.ltb_ge Hs Hm. rewrite take_ge by done.
  unfold at_dir in Hs. destruct (m !! d) as [v|] eqn:E; [|done]. cbn in Hs.
  apply list_elem_of_fmap. exists (d, v). split; [done|]. apply list_elem_of_fmap.
  exists (d, v, sat_sub v (sent c d)). split; [done|]. by apply elem_of_candidates.
Qed.

Lemma cursor_commit_ok e m c n :
  cursor_ok m c → e ≤ sum_map m → cursor_ok m (commit_digest (digest_at e m c n) c).
Proof.
  intros [Hs Hg] He. set (c' := commit_digest _ _).
  assert (∀ d, sent c d ≤ sent c' d ≤ at_dir m d) as Hs'.
  { intros d. unfold c'. rewrite commit_sent. specialize (Hs d). case_decide; lia. }
  split; [intros d; specialize (Hs d); specialize (Hs' d); lia|].
  unfold c' at 1, commit_digest. cbn [ac_last_global]. destruct (ad_truncated _) eqn:Et.
  - etrans; [exact Hg|]. apply sum_le. intros d. change (0 ≤ sent c d ≤ sent c' d).
    specialize (Hs d). specialize (Hs' d). lia.
  - change (ad_global_total _) with e. etrans; [exact He|].
    assert (∀ d, sent c' d = at_dir m d) as Hall.
    { intros d. unfold c'. rewrite commit_sent. case_decide as Hd; [done|].
      destruct (decide (sent c d = at_dir m d)) as [|Hne]; [done|].
      destruct (m !! d) as [v|] eqn:E; [|specialize (Hs d); unfold at_dir in Hs, Hne |- *; rewrite E in *; cbn in *; lia].
      destruct Hd. apply complete_entries; [done|done|by rewrite E]. }
    apply Z.eq_le_incl. apply sum_eq; intros d; rewrite <- Hall; [|done].
    specialize (Hs d). specialize (Hs' d). lia.
Qed.

Lemma cursor_grows m m' c : (∀ d, at_dir m d ≤ at_dir m' d) → cursor_ok m c → cursor_ok m' c.
Proof. intros H [Hs Hg]. split; [|done]. intros d. specialize (H d). specialize (Hs d). lia. Qed.

(** ** The stream *)

Record stream_ok (s : Stream) : Prop := {
  so_sum : sum_map (st_activity s) = st_epoch s + Z.of_nat (st_pending s);
  so_range : 0 ≤ st_epoch s ∧ st_epoch s + Z.of_nat (st_pending s) ≤ u64_max;
  so_nonneg d : 0 ≤ at_dir (st_activity s) d;
  so_cursor : cursor_ok (st_activity s) (st_cursor s);
  so_tick : match st_tick s with
            | Idle => True
            | EpochRead e => e ≤ sum_map (st_activity s)
            | InFlight d => cursor_ok (st_activity s) (commit_digest d (st_cursor s))
            end;
}.

Lemma at_dir_le_sum m d : (∀ d, 0 ≤ at_dir m d) → at_dir m d ≤ sum_map m.
Proof.
  intros H. rewrite (sum_delete m d). destruct (sum_le ∅ (delete d m)) as [H0 _]; [|change (sum_map ∅) with 0 in H0; lia].
  intros d'. rewrite at_dir_delete. change (at_dir ∅ d') with 0. specialize (H d'). case_decide; lia.
Qed.

Lemma count_spec dir m : at_dir m dir + 1 ≤ u64_max → 0 ≤ at_dir m dir →
  count dir m = <[dir := at_dir m dir + 1]> m.
Proof.
  intros H1 H2. unfold count, at_dir in *. destruct (m !! dir) as [a|]; cbn in *; [|done].
  by rewrite wrap_u64_id by width_lia.
Qed.

Lemma stream_step_ok n s s' : stream_ok s → stream_step n s s' → stream_ok s'.
Proof.
  intros [S1 S2 S3 S4 S5] Hstep. destruct Hstep as [m e p c k dir Hroom|m e p c k|m e p c Hne|m e p c e0|m e p c d|m e p c d];
    cbn in *.
  - pose proof (at_dir_le_sum m dir S3) as Hd.
    assert (count dir m = <[dir := at_dir m dir + 1]> m) as Hcount by (apply count_spec; [lia|done]).
    assert (∀ d, at_dir m d ≤ at_dir (count dir m) d) as Hgrow.
    { intros d. rewrite Hcount, at_dir_insert. case_decide; [subst; lia|lia]. }
    split; cbn; rewrite ?Hcount, ?sum_insert; try lia.
    + intros d. rewrite at_dir_insert. specialize (S3 d). case_decide; [subst; lia|done].
    + rewrite <- Hcount. by eapply cursor_grows.
    + destruct k as [|e1|d1]; [done|rewrite ?sum_insert; lia|]. rewrite <- Hcount. by eapply cursor_grows.
  - assert (wrap_u64 (e + 1) = e + 1) as Hw by (apply wrap_u64_id; width_lia).
    split; cbn; rewrite ?Hw; try lia; try done.
  - split; cbn; try done. lia.
  - split; cbn; try done. by apply cursor_commit_ok.
  - by split.
  - by split.
Qed.

Lemma stream_new_ok : stream_ok stream_new.
Proof.
  by split.
Qed.

(** ** Draining *)

Lemma candidates_after e m c n :
  let c' := commit_digest (digest_at e m c n) c in
  (length (candidates m c') = length (candidates m c) - n)%nat.
Proof.
  set (c' := commit_digest _ c). cbn zeta.
  set (keys := (ad_entries (digest_at e m c n)).*1).
  assert (∀ l : list (Dir * Z), (∀ x, x ∈ l → m !! x.1 = Some x.2) →
    omap (stale c') l = filter (λ y, y.1.1 ∉ keys) (omap (stale c) l)) as Hfilter.
  { intros l. induction l as [|x l IH]; [done|]. intros Hl. cbn.
    rewrite IH by (intros; apply Hl; by right). clear IH.
    assert (m !! x.1 = Some x.2) as Hx by (apply Hl; by left).
    assert (sent c' x.1 = if decide (x.1 ∈ keys) then x.2 else sent c x.1) as Hs.
    { unfold c'. rewrite commit_sent. fold keys. case_decide; [|done]. unfold at_dir. by rewrite Hx. }
    destruct (stale c' x) as [y|] eqn:E', (stale c x) as [z|] eqn:E.
    - apply stale_spec in E' as [Hne' ->], E as [Hne ->]. rewrite Hs in Hne' |- *.
      case_decide; [done|]. by rewrite filter_cons_True.
    - apply stale_spec in E' as [Hne' ->]. rewrite Hs in Hne'. case_decide; [done|].
      assert (stale c x = Some (x.1, x.2, sat_sub x.2 (sent c x.1))) by (by apply stale_spec). congruence.
    - apply stale_spec in E as [Hne ->]. rewrite filter_cons_False; [done|]. cbn. intros Hk. apply Hk.
      apply dec_stable. intros Hnk. rewrite decide_False in Hs by done.
      assert (stale c' x = Some (x.1, x.2, sat_sub x.2 (sent c' x.1))) by (apply stale_spec; by rewrite Hs). congruence.
    - done. }
  assert (omap (stale c') (map_to_list m) = filter (λ y, y.1.1 ∉ keys) (omap (stale c) (map_to_list m))) as Hall.
  { apply Hfilter. intros [d v] Hin. by apply elem_of_map_to_list in Hin. }
  rewrite (Permutation_length (candidates_perm m c')), Hall.
  assert (filter (λ y, y.1.1 ∉ keys) (omap (stale c) (map_to_list m)) ≡ₚ
          filter (λ y, y.1.1 ∉ keys) (candidates m c)) as -> by (by rewrite candidates_perm).
  pose proof (candidates_NoDup m c) as Hnd.
  assert (keys = (λ x, x.1.1) <$> firstn n (candidates m c)) as Hkeys.
  { unfold keys, digest_at. cbn [ad_entries]. fold (candidates m c). by rewrite <- list_fmap_compose. }
  rewrite Hkeys. clear Hall Hfilter Hkeys keys. revert Hnd. generalize (candidates m c). clear. intros l Hnd.
  rewrite <- (take_drop n l) in Hnd. rewrite fmap_app in Hnd. apply NoDup_app in Hnd as (_&Hdisj&_).
  set (K := (λ x, x.1.1) <$> firstn n l) in *.
  assert (∀ k : list (Dir * Z * Z), (∀ x, x ∈ k → x.1.1 ∈ K) → filter (λ y, y.1.1 ∉ K) k = []) as Hnone.
  { induction k as [|x k IH]; [done|]. intros Hk. rewrite filter_cons_False; [|intros H; apply H, Hk; by left].
    apply IH. intros; apply Hk; by right. }
  assert (∀ k : list (Dir * Z * Z), (∀ x, x ∈ k → x.1.1 ∉ K) → filter (λ y, y.1.1 ∉ K) k = k) as Hsome.
  { induction k as [|x k IH]; [done|]. intros Hk. rewrite filter_cons_True by (apply Hk; by left).
    f_equal. apply IH. intros; apply Hk; by right. }
  replace (filter (λ y, y.1.1 ∉ K) l) with (filter (λ y, y.1.1 ∉ K) (firstn n l ++ skipn n l))
    by (by rewrite take_drop).
  rewrite filter_app, Hnone, Hsome; [cbn; apply length_drop| |].
  - intros x Hx Hin. apply (Hdisj x.1.1 Hin), list_elem_of_fmap. by exists x.
  - intros x Hx. apply list_elem_of_fmap. by exists x.
Qed.

Lemma cursor_tick_ok n t c : cursor_ok (mt_activity t) c → mt_activity_epoch t ≤ sum_map (mt_activity t) →
  cursor_ok (mt_activity t) (tick n t c).
Proof.
  intros Hc He. unfold tick, activity_digest. case_bool_decide; [done|]. by apply cursor_commit_ok.
Qed.

Lemma tick_quiet n t c : activity_digest t c n = None → tick n t c = c.
Proof. unfold tick. by intros ->. Qed.

Lemma ticks_drain n t k : ∀ c, (0 < n)%nat → (0 < k)%nat →
  (length (candidates (mt_activity t) c) ≤ k * n)%nat →
  activity_digest t (Nat.iter k (tick n t) c) n = None.
Proof.
  assert (∀ k c, activity_digest t c n = None → activity_digest t (Nat.iter k (tick n t) c) n = None) as Hstay.
  { intros k' c Hc. induction k' as [|k' IH]; [done|]. cbn. by rewrite tick_quiet. }
  destruct k as [|k]; [lia|]. induction k as [|k IH]; intros c Hn _ Hlen;
    rewrite Nat.iter_succ_r; (destruct (activity_digest t c n) as [d|] eqn:E; [|by apply Hstay; rewrite tick_quiet]).
  - cbn [Nat.iter]. unfold tick. rewrite E. unfold activity_digest in E. case_bool_decide as Heq; [done|].
    injection E as <-. unfold activity_digest, commit_digest. cbn [ac_last_global].
    assert (ad_truncated (digest_at (global_activity t) (mt_activity t) c n) = false) as ->.
    { cbn. fold (candidates (mt_activity t) c). apply Nat.ltb_ge. lia. }
    by rewrite bool_decide_true.
  - apply IH; [done|lia|]. unfold tick. rewrite E. unfold activity_digest in E.
    case_bool_decide; [done|]. injection E as <-. rewrite candidates_after. lia.
Qed.

(** C20: no activity is lost on the way to a subscriber. However writers, ticks, deliveries and
    lost deliveries interleave, a subscriber is never ahead of the totals, and a quiet
    tick means it has them all once no write is half done; and when the writers are
    at rest, delivered ticks bring it every total of every directory, in as many
    ticks as the cap needs, after which ticks are quiet. *)
Theorem activity_delivered max s (Hrun : rtc (stream_step max) stream_new s) :
  (∀ d, 0 ≤ sent (st_cursor s) d ≤ at_dir (st_activity s) d) ∧
  (∀ t, mt_activity t = st_activity s → mt_activity_epoch t = st_epoch s → st_pending s = 0%nat →
     (activity_digest t (st_cursor s) max = None →
        ∀ d, sent (st_cursor s) d = at_dir (st_activity s) d) ∧
     (∀ k, (0 < max)%nat → (0 < k)%nat → (size (st_activity s) ≤ k * max)%nat →
        let c := Nat.iter k (tick max t) (st_cursor s) in
        activity_digest t c max = None ∧ ∀ d, sent c d = at_dir (st_activity s) d)).
Proof.
  assert (stream_ok s) as [S1 S2 S3 S4 S5].
  { assert (∀ s0, stream_ok s0 → rtc (stream_step max) s0 s → stream_ok s) as H; [|by apply (H stream_new stream_new_ok)].
    intros s0 H0 Hr. induction Hr as [|s1 s2 s3 Hstep _ IH]; [done|]. by eapply IH, stream_step_ok. }
  split; [apply S4|]. intros t Ht He Hp.
  assert (∀ c, cursor_ok (st_activity s) c → activity_digest t c max = None →
    ∀ d, sent c d = at_dir (st_activity s) d) as Hquiet.
  { intros c Hc. unfold activity_digest. case_bool_decide as Heq; [intros _|done].
    apply cursor_caught_up; [done|]. rewrite <- Heq. unfold global_activity. lia. }
  split; [by apply Hquiet|]. intros k Hm Hk Hsize c.
  assert (activity_digest t c max = None) as Hnone.
  { apply ticks_drain; [done..|]. etrans; [|exact Hsize]. rewrite Ht.
    rewrite (Permutation_length (candidates_perm _ _)). rewrite <- length_map_to_list.
    generalize (map_to_list (st_activity s)). intros l. induction l as [|x l IH]; [done|].
    cbn. destruct (stale _ x); cbn; lia. }
  split; [done|]. apply Hquiet; [|done]. unfold c. clear Hnone Hk Hsize. rewrite <- Ht.
  induction k as [|k IH]; cbn; [by rewrite Ht|]. apply cursor_tick_ok; [done|]. rewrite Ht, He. lia.
Qed.
