(* ===== verification/MountCalls.v ===== *)
(** * What calls do to the mount table and to the backends *)

From S2P Require Import Prelude MethodLogic Text VfsPath Vfs MemFs MemFsCoherence MemFsTree MemFsCalls Mount MountRoute Activity.

Section calls.
Context {FS : Type} `{!VfsOps FS}.
Implicit Types (k : Kernel FS) (t : MountTable).

Definition mounted k : list N := snd <$> mt_mounts (k_table k).

(** Only mounted backends change. *)
Definition confined k k' : Prop := ∀ fs, fs ∉ mounted k → k_heap k' !! fs = k_heap k !! fs.

(** The calls of the interface, with what a success does to the table. *)
Inductive table_call : ∀ A, method (Kernel FS) VfsError A → (MountTable → MountTable) → Prop :=
  | call_getattr now p : table_call _ (t_getattr now p) id
  | call_readdir p : table_call _ (t_readdir p) id
  | call_read p off size : table_call _ (t_read p off size) id
  | call_readlink p : table_call _ (t_readlink p) id
  | call_write now p off d : table_call _ (t_write now p off d) (bump_activity (parent_dir p))
  | call_truncate now p size : table_call _ (t_truncate now p size) (bump_activity (parent_dir p))
  | call_setattr p a : table_call _ (t_setattr p a) (bump_activity (parent_dir p))
  | call_create now p mode : table_call _ (t_create now p mode)
      (bump_activity (parent_dir p) ∘ bump_generation (parent_dir p))
  | call_mkdir now p mode : table_call _ (t_mkdir now p mode)
      (bump_activity (parent_dir p) ∘ bump_generation (parent_dir p))
  | call_symlink now p target : table_call _ (t_symlink now p target)
      (bump_activity (parent_dir p) ∘ bump_generation (parent_dir p))
  | call_unlink p : table_call _ (t_unlink p)
      (bump_activity (parent_dir p) ∘ bump_generation (parent_dir p))
  | call_rmdir p : table_call _ (t_rmdir p)
      (bump_activity (parent_dir p) ∘ bump_generation (parent_dir p))
  | call_rename now p q : table_call _ (t_rename now p q)
      (bump_activity (parent_dir q) ∘ bump_activity (parent_dir p) ∘
       bump_generation (parent_dir q) ∘ bump_generation (parent_dir p))
  | call_link p q : table_call _ (t_link p q)
      (bump_activity (parent_dir q) ∘ bump_generation (parent_dir q)).

Lemma find_mounted t path fs rel : find_mount t path = Some (fs, rel) → fs ∈ snd <$> mt_mounts t.
Proof.
  unfold find_mount, owner_of.
  assert (∀ l best b, foldl (better (rooted path)) best l = Some b → b ∈ l ∨ best = Some b) as H.
  { induction l as [|x l IH]; intros best b; cbn; [by right|]. intros Hb. apply IH in Hb as [?|Hb]; [left; by right|].
    unfold better in Hb. destruct (is_match _ _); [|by right].
    destruct best as [b0|]; [destruct (_ <? _)%nat; [|by right]|]; injection Hb as <-; left; by left. }
  destruct (foldl _ _ _) as [[s b]|] eqn:E; [|done]. cbn. intros [= <- _].
  destruct (H _ _ _ E) as [Hin|]; [|done]. apply list_elem_of_fmap. by exists (s, b).
Qed.

Lemma confined_put k fs st t' : fs ∈ mounted k →
  confined k {| k_table := t'; k_heap := <[fs := st]> (k_heap k) |}.
Proof. intros Hfs g Hg. cbn. rewrite lookup_insert_ne; [done|]. by intros ->. Qed.

Lemma list_root_confined l entries k r k' : (∀ x, x ∈ l → x.2 ∈ mounted k) →
  list_root_loop l entries k = Some (r, k') → k_table k' = k_table k ∧ confined k k'.
Proof.
  revert entries k. induction l as [|[s fs] l IH]; intros entries k Hl; cbn [list_root_loop].
  { by intros [= _ <-]. }
  assert (∀ x, x ∈ l → x.2 ∈ mounted k) as Hl' by (intros; apply Hl; by right).
  case_bool_decide; [|by apply IH]. unfold on_fs. destruct (k_heap k !! fs) as [st|] eqn:Est; [|done].
  assert (fs ∈ mounted k) as Hfs by (apply (Hl (s, fs)); by left).
  destruct (v_readdir "" st) as [[[es|e] st']|]; [..|done]; intros Hr;
    apply IH in Hr as [Ht Hc]; try done; (split; [done|]); intros g Hg; rewrite Hc by done;
    by apply (confined_put k fs st' (k_table k)).
Qed.

Ltac run_routed path :=
  unfold routed, on_fs, on_table, bump_both, m_guard, mbind, method_bind, m_bind; cbn [m_get];
  destruct (find_mount _ path) as [[fs rel]|] eqn:Efind; [|by intros [= <- <-]];
  apply find_mounted in Efind; cbn.

Ltac run_fs k :=
  match goal with
  | |- context [k_heap k !! ?fs] => destruct (k_heap k !! fs) as [st|]; [|done]
  end;
  match goal with
  | s : FS |- context [?g ?s0] => constr_eq s s0; destruct (g s) as [[[a|e] st']|]; [..|done]
  end;
  intros [= <- <-]; (split; [done|by apply confined_put]).

(** A call changes the table as listed if it succeeds, and not at all if it fails. *)
Lemma call_effect A m f k r k' : table_call A m f → m k = Some (r, k') →
  k_table k' = match r with Ok _ => f (k_table k) | Err _ => k_table k end ∧ confined k k'.
Proof.
  intros Hm. destruct Hm as [now p|p|p off size|p|now p off d|now p size|p set|now p mode|now p mode|
    now p target|p|p|now p q|p q].
  - unfold t_getattr. destruct (is_root p); [by intros [= <- <-]|].
    rewrite (bind_ok m_get _ k k k eq_refl). destruct (bt_contains _ _); [by intros [= <- <-]|].
    destruct (negb _); [by intros [= <- <-]|]. run_routed p. run_fs k.
  - unfold t_readdir. destruct (is_root p).
    + unfold list_root. rewrite (bind_ok m_get _ k k k eq_refl). unfold mbind, method_bind, m_bind.
      destruct (list_root_loop _ _ k) as [[r1 k1]|] eqn:E; [|done].
      apply list_root_confined in E as [Ht Hc].
      * destruct r1; intros [= <- <-]; by split.
      * intros x Hx. apply list_elem_of_fmap. by exists x.
    + rewrite (bind_ok m_get _ k k k eq_refl). set (lonely := bool_decide _). clearbody lonely.
      destruct (find_mount (k_table k) p) as [[fs rel]|] eqn:Efind.
      * apply find_mounted in Efind. unfold tolerate, on_fs, mbind, method_bind, m_bind.
        destruct (k_heap k !! fs) as [st|]; [|done].
        destruct (v_readdir rel st) as [[[es|e] st']|]; [..|done].
        { destruct lonely; intros [= <- <-]; (split; [done|by apply confined_put]). }
        { destruct (negb lonely && is_not_found e); [destruct lonely|]; intros [= <- <-];
            (split; [done|by apply confined_put]). }
      * destruct lonely; by intros [= <- <-].
  - unfold t_read. run_routed p. run_fs k.
  - unfold t_readlink. run_routed p. run_fs k.
  - unfold t_write. run_routed p. run_fs k.
  - unfold t_truncate. run_routed p. run_fs k.
  - unfold t_setattr. run_routed p. run_fs k.
  - unfold t_create. run_routed p. run_fs k.
  - unfold t_mkdir. run_routed p. run_fs k.
  - unfold t_symlink. run_routed p. run_fs k.
  - unfold t_unlink. run_routed p. run_fs k.
  - unfold t_rmdir. run_routed p. run_fs k.
  - unfold t_rename. run_routed p.
    destruct (find_mount _ q) as [[fs' rel']|]; cbn; [|by intros [= <- <-]].
    case_bool_decide; [|by intros [= <- <-]]. cbn. run_fs k.
  - unfold t_link. run_routed p.
    destruct (find_mount _ q) as [[fs' rel']|]; cbn; [|by intros [= <- <-]].
    case_bool_decide; [|by intros [= <- <-]]. cbn. run_fs k.
Qed.
(** ** Histories *)

Inductive kernel_step k : Kernel FS → Prop :=
  | step_call A m f r k' : table_call A m f → m k = Some (r, k') → kernel_step k k'
  | step_freeze : kernel_step k (k <| k_table := freeze (k_table k) |>)
  | step_mount path fs : kernel_step k (k <| k_table := (mount_arc path fs (k_table k)).2 |>)
  | step_unmount path : kernel_step k (k <| k_table := (unmount path (k_table k)).2 |>)
  | step_backend fs st : k_heap k !! fs = None →
      kernel_step k (k <| k_heap := <[fs := st]> (k_heap k) |>).

(** The epoch counts every bump of every directory. *)
Definition accounted t : Prop :=
  mt_activity_epoch t = wrap_u64 (sum_map (mt_activity t)).

Lemma bump_activity_accounted d t : accounted t → accounted (bump_activity d t).
Proof.
  unfold accounted, bump_activity. cbn. intros ->. rewrite sum_insert.
  unfold wrap_u64. rewrite Zplus_mod_idemp_l. unfold at_dir.
  destruct (mt_activity t !! d) as [a|]; cbn; [|f_equal; lia].
  rewrite <- Zplus_mod_idemp_r. symmetry. rewrite <- Zplus_mod_idemp_r. rewrite Zmod_mod, Zplus_mod_idemp_r.
  rewrite Zplus_mod_idemp_r. f_equal. lia.
Qed.

Lemma table_call_effect A m f t : table_call A m f →
  mt_mounts (f t) = mt_mounts t ∧ mt_frozen (f t) = mt_frozen t ∧ (accounted t → accounted (f t)).
Proof.
  intros []; cbn; (split; [done|]); (split; [done|]); intros H; try done;
    repeat first [apply bump_activity_accounted]; exact H.
Qed.

(** The mount table is a perimeter, and keeps its books. Over any history of calls of the
    interface, of mounts, unmounts and new backends, the epoch is the sum of the
    activity of all directories. From the moment the table is frozen, it stays frozen
    with the same mounts, and no call, whatever path it names, changes a backend that
    is not mounted. A call that succeeds stamps exactly the directories that own the
    names it changed, and one that fails stamps nothing. *)
Theorem frozen_perimeter k0 k (Hacc : accounted (k_table k0)) (Hrun : rtc kernel_step k0 k) :
  accounted (k_table k) ∧
  (is_frozen (k_table k0) = true →
     is_frozen (k_table k) = true ∧ mt_mounts (k_table k) = mt_mounts (k_table k0) ∧
     ∀ fs st, fs ∉ mounted k0 → k_heap k0 !! fs = Some st → k_heap k !! fs = Some st) ∧
  (∀ A m f r k', table_call A m f → m k = Some (r, k') →
     k_table k' = match r with Ok _ => f (k_table k) | Err _ => k_table k end).
Proof.
  split_and!.
  - induction Hrun as [|k1 k2 k3 Hstep _ IH]; [done|]. apply IH. clear IH.
    destruct Hstep as [A m f r k' Hm Hr| |path fs|path|fs st Hn]; cbn; [|done| | |done].
    + destruct (call_effect _ _ _ _ _ _ Hm Hr) as [-> _].
      destruct r; [by apply (table_call_effect A m f)|done].
    + unfold mount_arc. by destruct (is_frozen _).
    + unfold unmount. by destruct (is_frozen _).
  - clear Hacc. induction Hrun as [|k1 k2 k3 Hstep _ IH]; [done|]. intros Hf.
    assert (is_frozen (k_table k2) = true ∧ mt_mounts (k_table k2) = mt_mounts (k_table k1) ∧
      ∀ fs st, fs ∉ mounted k1 → k_heap k1 !! fs = Some st → k_heap k2 !! fs = Some st) as (H1&H2&H3).
    { destruct Hstep as [A m f r k' Hm Hr| |path fs|path|fs st Hn]; cbn.
      - destruct (call_effect _ _ _ _ _ _ Hm Hr) as [Ht Hc].
        destruct (table_call_effect A m f (k_table k1) Hm) as (E1&E2&_). unfold is_frozen in *.
        split_and!; [destruct r; rewrite Ht; congruence|destruct r; rewrite Ht; congruence|].
        intros fs st Hfs. by rewrite Hc.
      - done.
      - unfold mount_arc. by rewrite Hf.
      - unfold unmount. by rewrite Hf.
      - split_and!; [done..|]. intros fs' st' _ Hs. cbn. rewrite lookup_insert_ne; [done|].
        intros ->. congruence. }
    destruct (IH H1) as (I1&I2&I3). split_and!; [done|congruence|].
    intros fs st Hfs Hs. apply I3; [unfold mounted in *; congruence|by apply H3].
  - intros A m f r k' Hm Hr. by apply (call_effect A m f k r k').
Qed.
End calls.

(** * The virtual file system on concrete trees *)

#[export] Instance demo_order : MapOrder := id.
#[export] Instance demo_order_laws : MapOrderLaws.
Proof. by intros l. Qed.

Definition mem0 : MemoryBackend := mem_new 5.
Definition went {A S} (f : method S VfsError A) (s : S) : S :=
  match f s with Some (_, s') => s' | None => s end.
Definition answer {A S} (f : method S VfsError A) (s : S) : option (result VfsError A) :=
  fst <$> f s.

Lemma went_run {A S} (f : method S VfsError A) s r : answer f s = Some r → f s = Some (r, went f s).
Proof. unfold answer, went. destruct (f s) as [[r' s']|]; [|done]. cbn. by intros [= ->]. Qed.

Lemma mem0_lookup p e : mem_entries mem0 !! p = Some e →
  p = [] ∧ e = Directory (attr_directory 5 493).
Proof.
  change (mem_entries mem0) with ({[ [] := Directory (attr_directory 5 493) ]} : gmap Path Entry).
  intros H. by apply lookup_singleton_Some in H as [<- <-].
Qed.

Lemma mem0_tree : tree_ok (mem_entries mem0).
Proof.
  split; [by eexists|]. intros p n e [E _]%mem0_lookup. by apply app_nil in E as [_ ?].
Qed.

Lemma mem0_clear p : clear_above (mem_entries mem0) p.
Proof.
  intros q r _ _ [e He]. apply mem0_lookup in He as [-> _]. by eexists.
Qed.

Lemma step_of {A} (f : method MemoryBackend VfsError A) s :
  critical A f → has_room s → is_Some (answer f s) → mem_step s (went f s).
Proof. intros Hc Hr [r Ha]. by eapply step_section, went_run. Qed.

Ltac room := unfold has_room, room; vm_compute; split; discriminate.
Ltac ran := vm_compute; eexists; reflexivity.

(** A file is made, then written. *)
Definition mem1 : MemoryBackend := went (create_locked 6 ["a"] 420) mem0.
Definition mem2 : MemoryBackend := went (write 7 "/a" 0 [Init.Byte.x41]) mem1.

Lemma generations_coherent_witness :
  ∃ d1 a1 d2 a2, mem_entries mem1 !! ["a"] = Some (File d1 a1) ∧
    mem_entries mem2 !! ["a"] = Some (File d2 a2) ∧ d1 ≠ d2 ∧
    fa_generation a1 ≤ fa_generation a2.
Proof.
  assert (gens_ok mem0) as Hok.
  { intros p d a [_ E]%mem0_lookup. discriminate E. }
  assert (rtc mem_step mem0 mem1) as H1.
  { apply rtc_once, step_of; [constructor|room|ran]. }
  assert (rtc mem_step mem1 mem2) as H2.
  { apply rtc_once, step_of; [constructor|room|ran]. }
  destruct (generations_coherent mem0 mem1 mem2 Hok H1 H2) as (Hg&_).
  eexists _, _, _, _. split; [vm_compute; reflexivity|]. split; [vm_compute; reflexivity|].
  split; [discriminate|]. refine (proj1 (Hg ["a"] _ _ _ _ _ _)); vm_compute; reflexivity.
Defined.

Lemma write_read_back_witness :
  ∃ s', v_write_all 6 "/notes/a" [Init.Byte.x41; Init.Byte.x42] mem0 = Some (Ok tt, s') ∧
        v_read_all 6 "/notes/a" s' = Some (Ok [Init.Byte.x41; Init.Byte.x42], s').
Proof.
  destruct (write_read_back 6 "/notes/a" [Init.Byte.x41; Init.Byte.x42] mem0 mem0_tree)
    as (s'&Hw&_&Hr&_); [reflexivity| |vm_compute; discriminate|].
  - right. split; [vm_compute; reflexivity|]. apply mem0_clear.
  - exists s'. split; [exact Hw|]. apply Hr. vm_compute. discriminate.
Defined.

(** [/src/x] exists. *)
Definition mem3 : MemoryBackend := went (create 6 "/src/x" 420) mem0.

Lemma mem3_tame : rtc tame_step mem0 mem3.
Proof.
  apply rtc_once. eapply (tame_call _ _ (create 6 "/src/x" 420)); [constructor; apply mem0_clear|].
  apply went_run. vm_compute. reflexivity.
Qed.

Lemma entries_listed_witness :
  ∃ l, readdir "/src" mem3 = Some (Ok l, mem3) ∧ {| de_name := "x"; de_kind := TFile |} ∈ l.
Proof.
  destruct (entries_listed mem0 mem3 "/src" mem0_tree mem3_tame) as (_&H&_); [vm_compute; reflexivity|].
  destruct (mem_entries mem3 !! ["src"; "x"]) as [e|] eqn:E; [|vm_compute in E; discriminate E].
  destruct (H "x" e E) as (l&Hl&Hin). exists l. split; [exact Hl|].
  assert (entry_kind <$> mem_entries mem3 !! ["src"; "x"] = Some TFile) as Hk by (vm_compute; reflexivity).
  rewrite E in Hk. injection Hk as Hk. rewrite Hk in Hin. exact Hin.
Defined.

Lemma mem3_tree : tree_ok (mem_entries mem3).
Proof.
  eapply (tame_keeps mem0 _ (create 6 "/src/x" 420)); [constructor; apply mem0_clear| |apply mem0_tree].
  apply went_run. vm_compute. reflexivity.
Qed.

Lemma rename_moves_subtree_witness :
  ∃ s', rename 7 "/src" "/lib/src" mem3 = Some (Ok tt, s') ∧
        (∃ g e, mem_entries mem3 !! ["src"; "x"] = Some e ∧
                mem_entries s' !! ["lib"; "src"; "x"] = Some (stamp g e)) ∧
        mem_entries s' !! ["src"; "x"] = None ∧ tree_ok (mem_entries s').
Proof.
  destruct (mem_entries mem3 !! ["src"]) as [e|] eqn:E; [|vm_compute in E; discriminate E].
  destruct (mem_entries mem3 !! ["src"; "x"]) as [f|] eqn:F; [|vm_compute in F; discriminate F].
  assert (apart (normalize "/src") (normalize "/lib/src")) as Hap by (intros r r'; discriminate).
  assert (clear_above (mem_entries mem3) (normalize "/lib/src")) as Hclear.
  { intros [|a [|b q]] r Hq Hr [x Hx]; [eexists; vm_compute; reflexivity|exfalso..].
    - injection Hq as <- _. vm_compute in Hx. discriminate Hx.
    - injection Hq as _ _ Hq. symmetry in Hq. by apply app_nil in Hq as [_ ?]. }
  assert (childless (mem_entries mem3) (normalize "/lib/src")) as Hless.
  { intros n. destruct (mem_entries mem3 !! (normalize "/lib/src" ++ [n])) as [x|] eqn:X; [exfalso|done].
    destruct (tr_parent _ mem3_tree _ _ _ X) as [a Ha]. vm_compute in Ha. discriminate Ha. }
  destruct (rename_moves_subtree 7 "/src" "/lib/src" mem3 e mem3_tree eq_refl Hap E)
    as (s'&Hr&Hmoved&Hgone&_&_&Htree).
  exists s'. split; [exact Hr|]. split;
    [|exact (conj (Hgone ["x"]) (proj2 Htree (conj Hclear (childless_fits _ _ _ mem3_tree Hless))))].
  destruct (Hmoved ["x"] f F) as [g Hg]. exists g, f. exact (conj eq_refl Hg).
Defined.

(** ** Mounts *)

Definition world : Kernel MemoryBackend := {|
  k_table := (mount_arc "/scratch" 1 (mount_arc "/scratch/deep" 2 mount_table_new).2).2;
  k_heap := {[ 1%N := mem0; 2%N := mem0 ]};
|}.

#[export] Instance is_name_dec s : Decision (is_name s).
Proof. unfold is_name. apply _. Defined.
Ltac names := apply (bool_decide_unpack _); vm_compute; exact I.

Lemma mounts_refine_map_witness :
  find_mount (k_table world) "/scratch/deep/x" = Some (2%N, "x") ∧
  longest_mount (<[["scratch"] := 1%N]> (<[["scratch"; "deep"] := 2%N]> ∅))
    ["scratch"; "deep"; "x"] ["scratch"; "deep"] 2%N.
Proof.
  assert (names ["scratch"]) as Ha by names.
  assert (names ["scratch"; "deep"]) as Hb by names.
  assert (names ["scratch"; "deep"; "x"]) as Hc by names.
  assert (represents mount_table_new ∅) as H0.
  { split; [by intros k fs ?%lookup_empty_Some|constructor|].
    intros s v. split; [by intros ?%elem_of_nil|by intros (k&_&?)]. }
  destruct (mounts_refine_map mount_table_new ∅ _ 2 H0 Hb) as (_&H1&_).
  destruct (mounts_refine_map _ _ _ 1 H1 Ha) as (_&H2&_).
  destruct (mounts_refine_map _ _ _ 1 H2 Hc) as (_&_&_&_&_&Hfind&_).
  assert (find_mount (k_table world) "/scratch/deep/x" = Some (2%N, "x")) as Hf by (vm_compute; reflexivity).
  split; [exact Hf|]. destruct (proj1 (Hfind 2%N "x") Hf) as (k&r&E&Er&HM&Hp&Hmax).
  assert (k = ["scratch"; "deep"]) as ->; [|exact (conj HM (conj Hp Hmax))].
  apply lookup_insert_Some in HM as [[_ ?]|[_ HM]]; [discriminate|].
  apply lookup_insert_Some in HM as [[<- _]|[_ HM]]; [reflexivity|by apply lookup_empty_Some in HM].
Defined.

Definition frozen_world : Kernel MemoryBackend := world <| k_table := freeze (k_table world) |>.
Definition busy_world : Kernel MemoryBackend :=
  went (t_create 6 "/scratch/../../etc/x" 420) frozen_world.

Lemma frozen_perimeter_witness :
  list_mounts busy_world = [("/scratch", false); ("/scratch/deep", false)] ∧
  is_frozen (k_table busy_world) = true.
Proof.
  assert (rtc kernel_step frozen_world busy_world) as Hrun.
  { apply rtc_once. eapply (step_call _ _ (t_create 6 "/scratch/../../etc/x" 420)); [constructor|].
    apply went_run. vm_compute. reflexivity. }
  split; [vm_compute; reflexivity|].
  destruct (frozen_perimeter frozen_world busy_world) as (_&H&_); [vm_compute; reflexivity|exact Hrun|].
  apply H. reflexivity.
Defined.

(** ** Activity *)

Definition demo_dir (s : string) : Dir := [RootDir; Normal s].

(** Two directories are busy; one fits in a digest. *)
Definition demo_stream : Stream := {|
  st_activity := count (demo_dir "b") (count (demo_dir "a") ∅);
  st_epoch := wrap_u64 (wrap_u64 (0 + 1) + 1); st_pending := 0;
  st_cursor := cursor_default; st_tick := Idle |}.

Lemma demo_stream_run : rtc (stream_step 1) stream_new demo_stream.
Proof.
  unfold stream_new.
  eapply rtc_l; [apply (step_count _ _ _ _ _ _ (demo_dir "a")); vm_compute; discriminate|].
  eapply rtc_l; [apply (step_count _ _ _ _ _ _ (demo_dir "b")); vm_compute; discriminate|].
  eapply rtc_l; [apply step_epoch|]. eapply rtc_l; [apply step_epoch|]. reflexivity.
Qed.

Lemma activity_delivered_witness :
  let t := mount_table_new <| mt_activity := st_activity demo_stream |>
                           <| mt_activity_epoch := st_epoch demo_stream |> in
  let c := Nat.iter 2 (tick 1 t) cursor_default in
  activity_digest t c 1 = None ∧ sent c (demo_dir "a") = 1 ∧
  sent (tick 1 t cursor_default) (demo_dir "b") = 0.
Proof.
  destruct (activity_delivered 1 demo_stream demo_stream_run) as [_ H].
  specialize (H (mount_table_new <| mt_activity := st_activity demo_stream |>
                                 <| mt_activity_epoch := st_epoch demo_stream |>) eq_refl eq_refl eq_refl).
  destruct H as [_ H]. destruct (H 2%nat) as [Hq Hall]; [lia|lia|vm_compute; repeat constructor|].
  split; [exact Hq|]. split; [|vm_compute; reflexivity].
  specialize (Hall (demo_dir "a")). etrans; [exact Hall|]. vm_compute. reflexivity.
Defined.

(** ** What the code does not keep *)

(** A file is made below a file: nothing lists it, and it outlives its parent. *)
Definition below_file : MemoryBackend := went (create 7 "/a/b" 420) mem1.
Example create_below_file :
  option_map (λ r, match r with Ok _ => true | Err _ => false end)
    (answer (create 7 "/a/b" 420) mem1) = Some true ∧
  answer (readdir "/a") below_file = Some (Err (NotADirectory "a")) ∧
  answer (read "/a/b" 0 1) (went (unlink "/a") below_file) = Some (Ok []).
Proof. by vm_compute. Qed.

(** A directory renamed into itself: it is no longer under the root. *)
Example rename_into_itself :
  let s := went (rename 7 "/src" "/src/old" ) mem3 in
  answer (rename 7 "/src" "/src/old") mem3 = Some (Ok tt) ∧
  answer (readdir "/") s = Some (Ok []) ∧
  answer (read "/src/old/x" 0 1) s = Some (Ok []).
Proof. by vm_compute. Qed.

(** Directories made on the way change a listing whose generation stays. *)
Example listing_unstamped :
  let k := went (t_create 6 "/scratch/new/x" 420) world in
  answer (t_readdir "/scratch") world = Some (Ok [{| de_name := "deep"; de_kind := TDirectory |}]) ∧
  answer (t_readdir "/scratch") k =
    Some (Ok [{| de_name := "deep"; de_kind := TDirectory |}; {| de_name := "new"; de_kind := TDirectory |}]) ∧
  generation_of (k_table world) "/scratch" = generation_of (k_table k) "/scratch".
Proof. by vm_compute. Qed.

(** A write at an offset near the top of the address space panics under the lock, and
    every later call on the backend fails. *)
Example write_poisons :
  write 7 "/a" (two64 - 1) [Init.Byte.x41] mem1 = None ∧
  answer (read "/a" 0 1) (poison mem1) = Some (Err (Other "lock poisoned")) ∧
  answer (create 7 "/b" 420) (poison mem1) = Some (Err (Other "lock poisoned")).
Proof. by vm_compute. Qed.

(** A link that is replaced by another keeps its generation. *)
Example symlink_generation :
  let link target s := went (symlink 7 "/l" target) s in
  let s1 := link "/one" mem0 in
  let s2 := link "/two" (went (unlink "/l") s1) in
  (answer (readlink "/l") s1, answer (readlink "/l") s2) = (Some (Ok "/one"), Some (Ok "/two")) ∧
  option_map (λ r, match r with Ok a => fa_generation a | Err _ => -1 end) (answer (getattr 8 "/l") s1) =
  option_map (λ r, match r with Ok a => fa_generation a | Err _ => -1 end) (answer (getattr 8 "/l") s2).
Proof. by vm_compute. Qed.
