(* ===== verification/Binding.v ===== *)
(** * What a context may use ([kaijutsu-kernel/src/mcp/binding.rs])

    The binding of a context is a positive set of capabilities, denied by default, and
    the names its model knows the tools by. Its fields are the set in several lists and
    flags; [grants] is the set, and [binding_refines] states every operation on it. *)

From stdpp Require Import propset.
From S2P Require Import Prelude Text.

(** [InstanceId] is a transparent wrapper of its name. *)
Abbreviation InstanceId := string.
(** The name of a tool at its server. *)
Abbreviation ResolvedName := (InstanceId * string)%type.

(** The order in which a [HashMap] or a [HashSet] yields its entries: some permutation. *)
Class HashOrder := hash_order : ∀ A : Type, list A → list A.
Class HashOrderLaws `{!HashOrder} := hash_order_perm : ∀ (A : Type) (l : list A), hash_order A l ≡ₚ l.
#[global] Arguments hash_order {_} {_} l.

Inductive Capability :=
  | CInstance (instance : InstanceId)
  | CTool (instance : InstanceId) (tool : string)
  | CFacade (name : string)
  | AllInstances
  | AllFacades
  | CAdmin
  | RcWrite
  | Drive
  | CFork
  | CDrift
  | Transport
  | Operator
  | ConfigWrite
  | Exec.

#[export] Instance Capability_eq_dec : EqDecision Capability.
Proof. solve_decision. Defined.

Definition FACADE_PROJECTED_INSTANCES : list (InstanceId * string) :=
  [("builtin.shell", "shell"); ("builtin.shell_readonly", "shell_readonly")].

Definition KNOWN_AUTHORITIES : list string :=
  ["drive"; "fork"; "drift"; "transport"; "operator"; "config-write"; "exec"].

Definition authority_name (c : Capability) : option string :=
  match c with
  | Drive => Some "drive"
  | CFork => Some "fork"
  | CDrift => Some "drift"
  | Transport => Some "transport"
  | Operator => Some "operator"
  | ConfigWrite => Some "config-write"
  | Exec => Some "exec"
  | _ => None
  end.

Definition from_authority_name (token : string) : option Capability :=
  if bool_decide (token = "drive") then Some Drive
  else if bool_decide (token = "fork") then Some CFork
  else if bool_decide (token = "drift") then Some CDrift
  else if bool_decide (token = "transport") then Some Transport
  else if bool_decide (token = "operator") then Some Operator
  else if bool_decide (token = "config-write") then Some ConfigWrite
  else if bool_decide (token = "exec") then Some Exec
  else None.

Record ContextToolBinding := {
  all_instances : bool;
  all_facades : bool;
  binding_admin : bool;
  binding_rc_write : bool;
  allowed_instances : list InstanceId;
  allowed_tools : list ResolvedName;
  allowed_facades : list string;
  authorities : gset string;
  name_map : gmap string ResolvedName;
}.
#[export] Instance ContextToolBinding_settable : Settable ContextToolBinding := λ b, {|
  all_instances := all_instances b; all_facades := all_facades b;
  binding_admin := binding_admin b; binding_rc_write := binding_rc_write b;
  allowed_instances := allowed_instances b; allowed_tools := allowed_tools b;
  allowed_facades := allowed_facades b; authorities := authorities b;
  name_map := name_map b;
|}.

Implicit Types (b : ContextToolBinding) (c : Capability).

Definition binding_new : ContextToolBinding := {|
  all_instances := false; all_facades := false; binding_admin := false;
  binding_rc_write := false; allowed_instances := []; allowed_tools := [];
  allowed_facades := []; authorities := ∅; name_map := ∅;
|}.

Definition with_instances (instances : list InstanceId) : ContextToolBinding :=
  binding_new <| allowed_instances := instances |>.

Definition binding_is_empty b : bool :=
  negb (all_instances b) && negb (all_facades b) && negb (binding_admin b)
  && negb (binding_rc_write b) && bool_decide (allowed_instances b = [])
  && bool_decide (allowed_tools b = []) && bool_decide (allowed_facades b = [])
  && bool_decide (authorities b = ∅).

Definition has_authority (name : string) b : bool := bool_decide (name ∈ authorities b).
Definition is_admin b : bool := binding_admin b.
Definition is_rc_write b : bool := binding_rc_write b.

Definition facade_granted (facade : string) b : bool :=
  all_facades b || bool_decide (facade ∈ allowed_facades b).

Definition facade_projection_allows (instance : InstanceId) b : bool :=
  existsb (λ '(inst, facade), bool_decide (inst = instance) && facade_granted facade b)
    FACADE_PROJECTED_INSTANCES.

(** The one predicate of every enforcement point. *)
Definition allows (c : Capability) b : bool :=
  match c with
  | CInstance instance => all_instances b || bool_decide (instance ∈ allowed_instances b)
  | CTool instance tool =>
      all_instances b || bool_decide (instance ∈ allowed_instances b)
      || facade_projection_allows instance b || bool_decide ((instance, tool) ∈ allowed_tools b)
  | CFacade name => facade_granted name b
  | AllInstances => all_instances b
  | AllFacades => all_facades b
  | CAdmin => binding_admin b
  | RcWrite => binding_rc_write b
  | Drive | CFork | CDrift | Transport | Operator | ConfigWrite | Exec =>
      match authority_name c with Some n => bool_decide (n ∈ authorities b) | None => false end
  end.

Definition allows_tool (instance : InstanceId) (tool : string) b : bool :=
  allows (CTool instance tool) b.

Definition push_absent {A} `{!EqDecision A} (x : A) (l : list A) : list A :=
  if bool_decide (x ∈ l) then l else l ++ [x].

Definition allow (instance : InstanceId) b : ContextToolBinding :=
  b <| allowed_instances := push_absent instance (allowed_instances b) |>.

Definition revoke (instance : InstanceId) b : ContextToolBinding :=
  b <| allowed_instances := filter (λ i, i ≠ instance) (allowed_instances b) |>
    <| allowed_tools := filter (λ p, p.1 ≠ instance) (allowed_tools b) |>
    <| name_map := filter (λ e, e.2.1 ≠ instance) (name_map b) |>.

Definition grant (c : Capability) b : ContextToolBinding :=
  match c with
  | CInstance instance => allow instance b
  | CTool instance tool =>
      b <| allowed_tools := push_absent (instance, tool) (allowed_tools b) |>
  | CFacade name => b <| allowed_facades := push_absent name (allowed_facades b) |>
  | AllInstances => b <| all_instances := true |>
  | AllFacades => b <| all_facades := true |>
  | CAdmin => b <| binding_admin := true |>
  | RcWrite => b <| binding_rc_write := true |>
  | Drive | CFork | CDrift | Transport | Operator | ConfigWrite | Exec =>
      match authority_name c with
      | Some n => b <| authorities := {[n]} ∪ authorities b |>
      | None => b
      end
  end.

Definition revoke_cap (c : Capability) b : ContextToolBinding :=
  match c with
  | CInstance instance => revoke instance b
  | CTool instance tool =>
      b <| allowed_tools := filter (λ p, p ≠ (instance, tool)) (allowed_tools b) |>
        <| name_map := filter (λ e, e.2 ≠ (instance, tool)) (name_map b) |>
  | CFacade name => b <| allowed_facades := filter (λ f, f ≠ name) (allowed_facades b) |>
  | AllInstances => b <| all_instances := false |>
  | AllFacades => b <| all_facades := false |>
  | CAdmin => b <| binding_admin := false |>
  | RcWrite => b <| binding_rc_write := false |>
  | Drive | CFork | CDrift | Transport | Operator | ConfigWrite | Exec =>
      match authority_name c with
      | Some n => b <| authorities := authorities b ∖ {[n]} |>
      | None => b
      end
  end.

Definition is_allowed (instance : InstanceId) b : bool := allows (CInstance instance) b.

(** The instances whose servers a listing must ask. *)
Definition candidate_instances b : list InstanceId :=
  let out := foldl (λ out p, push_absent p.1 out) (allowed_instances b) (allowed_tools b) in
  foldl (λ out '(inst, facade), if facade_granted facade b then push_absent inst out else out)
    out FACADE_PROJECTED_INSTANCES.

Definition resolve (visible_name : string) b : option ResolvedName := name_map b !! visible_name.

(** One round of the loop: the names, and the pairs that have one. *)
Definition resolve_one (acc : gmap string ResolvedName * gset ResolvedName)
    (r : ResolvedName * string) : gmap string ResolvedName * gset ResolvedName :=
  let '(names, already_resolved) := acc in
  let '(key, visible_name) := r in
  if bool_decide (key ∈ already_resolved) then acc
  else if bool_decide (is_Some (names !! visible_name)) then acc
  else (<[visible_name := key]> names, {[key]} ∪ already_resolved).

Definition apply_resolutions (resolutions : list (ResolvedName * string)) b : ContextToolBinding :=
  let already_resolved := list_to_set ((map_to_list (name_map b)).*2) : gset ResolvedName in
  b <| name_map := (foldl resolve_one (name_map b, already_resolved) resolutions).1 |>.

(** ** The set of capabilities a binding holds *)

(** What [c] is held by, field by field. *)
Definition granted b (c : Capability) : Prop :=
  match c with
  | CInstance i => i ∈ allowed_instances b
  | CTool i t => (i, t) ∈ allowed_tools b
  | CFacade f => f ∈ allowed_facades b
  | AllInstances => all_instances b
  | AllFacades => all_facades b
  | CAdmin => binding_admin b
  | RcWrite => binding_rc_write b
  | Drive | CFork | CDrift | Transport | Operator | ConfigWrite | Exec =>
      ∃ n, authority_name c = Some n ∧ n ∈ authorities b
  end.

Definition grants b : propset Capability := {[ c | granted b c ]}.

(** What holding [g] lets a context do. *)
Inductive implies : Capability → Capability → Prop :=
  | implies_refl c : implies c c
  | implies_all_instance i : implies AllInstances (CInstance i)
  | implies_all_tool i t : implies AllInstances (CTool i t)
  | implies_instance_tool i t : implies (CInstance i) (CTool i t)
  | implies_all_facade f : implies AllFacades (CFacade f)
  | implies_projection i f t : (i, f) ∈ FACADE_PROJECTED_INSTANCES → implies (CFacade f) (CTool i t)
  | implies_all_projection i f t : (i, f) ∈ FACADE_PROJECTED_INSTANCES → implies AllFacades (CTool i t).

(** What goes when [c] is revoked: revoking an instance takes its tools along. *)
Definition revokes (c : Capability) : propset Capability :=
  {[ g | g = c ∨ match c, g with CInstance i, CTool j _ => i = j | _, _ => False end ]}.

(** The authorities that are stored are known ones. *)
Definition binding_ok b : Prop := ∀ n, n ∈ authorities b → n ∈ KNOWN_AUTHORITIES.

Lemma authority_roundtrip n c : from_authority_name n = Some c ↔ authority_name c = Some n.
Proof.
  unfold from_authority_name. split; [repeat case_bool_decide; subst; by intros [= <-]|].
  destruct c; try done; by intros [= <-].
Qed.

Lemma authority_known n : n ∈ KNOWN_AUTHORITIES ↔ ∃ c, authority_name c = Some n.
Proof.
  split.
  - unfold KNOWN_AUTHORITIES. rewrite !elem_of_cons, elem_of_nil.
    intros H. repeat destruct H as [->|H]; [eexists; by apply authority_roundtrip..|done].
  - intros [c Hc]. destruct c; try done; injection Hc as <-; unfold KNOWN_AUTHORITIES; set_solver.
Qed.

Lemma push_absent_elem {A} `{!EqDecision A} (x y : A) l : y ∈ push_absent x l ↔ y = x ∨ y ∈ l.
Proof. unfold push_absent. case_bool_decide; [|rewrite elem_of_app, list_elem_of_singleton]; naive_solver. Qed.

Lemma facade_granted_spec f b : facade_granted f b ↔ AllFacades ∈ grants b ∨ CFacade f ∈ grants b.
Proof. unfold facade_granted, grants. rewrite orb_True, bool_decide_spec, !elem_of_PropSet. done. Qed.

Lemma projection_spec i b :
  facade_projection_allows i b ↔ ∃ f, (i, f) ∈ FACADE_PROJECTED_INSTANCES ∧ facade_granted f b.
Proof.
  unfold facade_projection_allows. rewrite Is_true_true, existsb_exists. setoid_rewrite <- list_elem_of_In.
  split.
  - intros ([i' f]&Hin&H). apply Is_true_true in H. rewrite andb_True, bool_decide_spec in H. destruct H as [<- ?]. by exists f.
  - intros (f&Hin&Hf). exists (i, f). split; [done|]. apply Is_true_true. by rewrite andb_True, bool_decide_spec.
Qed.

Lemma allows_spec b c : allows c b ↔ ∃ g, g ∈ grants b ∧ implies g c.
Proof.
  split.
  - destruct c as [i|i t|f| | | | | | | | | | |]; cbn [allows authority_name].
    + rewrite orb_True, bool_decide_spec. intros [?|?]; [by exists AllInstances; split; [|constructor]|].
      by exists (CInstance i); split; [|constructor].
    + rewrite !orb_True, !bool_decide_spec, projection_spec.
      intros [[[?|?]|(f&?&[?|?]%facade_granted_spec)]|?].
      * by exists AllInstances; split; [|constructor].
      * by exists (CInstance i); split; [|constructor].
      * by exists AllFacades; split; [|econstructor].
      * by exists (CFacade f); split; [|econstructor].
      * by exists (CTool i t); split; [|constructor].
    + intros [?|?]%facade_granted_spec; eexists; (split; [done|constructor]).
    + by exists AllInstances; split; [|constructor].
    + by exists AllFacades; split; [|constructor].
    + by exists CAdmin; split; [|constructor].
    + by exists RcWrite; split; [|constructor].
    + rewrite bool_decide_spec. exists Drive. split; [|constructor]. by exists "drive".
    + rewrite bool_decide_spec. exists CFork. split; [|constructor]. by exists "fork".
    + rewrite bool_decide_spec. exists CDrift. split; [|constructor]. by exists "drift".
    + rewrite bool_decide_spec. exists Transport. split; [|constructor]. by exists "transport".
    + rewrite bool_decide_spec. exists Operator. split; [|constructor]. by exists "operator".
    + rewrite bool_decide_spec. exists ConfigWrite. split; [|constructor]. by exists "config-write".
    + rewrite bool_decide_spec. exists Exec. split; [|constructor]. by exists "exec".
  - intros (g&Hg&Hi). destruct Hi as [c|i|i t|i t|f|i f t Hp|i f t Hp]; cbn [allows authority_name].
    + destruct c; unfold grants in Hg; rewrite elem_of_PropSet in Hg; cbn in *;
        rewrite ?orb_True, ?bool_decide_spec; auto; try (by destruct Hg as (n&[= <-]&?)).
      apply facade_granted_spec. by right.
    + rewrite orb_True. by left.
    + rewrite !orb_True. by left; left; left.
    + rewrite !orb_True, !bool_decide_spec. by left; left; right.
    + apply facade_granted_spec. by left.
    + rewrite !orb_True, projection_spec. left; right. exists f. split; [done|]. apply facade_granted_spec. by right.
    + rewrite !orb_True, projection_spec. left; right. exists f. split; [done|]. apply facade_granted_spec. by left.
Qed.

Lemma grant_spec b c : grants (grant c b) ≡ {[c]} ∪ grants b.
Proof.
  intros g. rewrite elem_of_union, elem_of_singleton. unfold grants. rewrite !elem_of_PropSet.
  destruct c, g; cbn; rewrite ?push_absent_elem; try naive_solver;
    (split; [intros (n&[= <-]&?)|intros [?|(n&[= <-]&?)]]); try done;
    try (eexists; split; [done|]); set_solver.
Qed.

Lemma revoke_spec b c : grants (revoke_cap c b) ≡ grants b ∖ revokes c.
Proof.
  intros g. rewrite elem_of_difference. unfold grants, revokes. rewrite !elem_of_PropSet.
  destruct c, g; cbn; rewrite ?list_elem_of_filter; try naive_solver;
    (split; [intros (n&[= <-]&?)|intros [(n&[= <-]&?) ?]]);
    try (split; [eexists; split; [done|]; set_solver|]); try (eexists; split; [done|]); set_solver.
Qed.

Lemma empty_spec b : binding_ok b → binding_is_empty b ↔ grants b ≡ ∅.
Proof.
  intros Hok. unfold binding_is_empty. rewrite !andb_True, !negb_True, !bool_decide_spec. split.
  - intros (((((((?&?)&?)&?)&Hi)&Ht)&Hf)&Ha) g. unfold grants. rewrite elem_of_PropSet, elem_of_empty.
    split; [|done]. destruct g; cbn; rewrite ?Hi, ?Ht, ?Hf; try done; try apply not_elem_of_nil;
      intros (n&_&Hn); rewrite Ha in Hn; set_solver.
  - intros He.
    assert (∀ g, ¬ granted b g) as Hno by (intros g Hg; apply (proj1 (He g) Hg)).
    split_and!.
    + apply (Hno AllInstances).
    + apply (Hno AllFacades).
    + apply (Hno CAdmin).
    + apply (Hno RcWrite).
    + destruct (allowed_instances b) as [|i l] eqn:E; [done|]. destruct (Hno (CInstance i)). cbn. rewrite E. by left.
    + destruct (allowed_tools b) as [|[i t] l] eqn:E; [done|]. destruct (Hno (CTool i t)). cbn. rewrite E. by left.
    + destruct (allowed_facades b) as [|f l] eqn:E; [done|]. destruct (Hno (CFacade f)). cbn. rewrite E. by left.
    + apply set_eq. intros n. split; [|set_solver]. intros Hn.
      destruct (proj1 (authority_known n) (Hok n Hn)) as [c Hc]. destruct (Hno c).
      destruct c; try done; cbn; eauto.
Qed.

Lemma grant_ok b c : binding_ok b → binding_ok (grant c b).
Proof.
  intros Hok n. destruct c; try apply Hok; cbn; (rewrite elem_of_union, elem_of_singleton; intros [->|?]; [|by apply Hok]);
    apply authority_known; by eexists; apply authority_roundtrip.
Qed.

Lemma revoke_cap_ok b c : binding_ok b → binding_ok (revoke_cap c b).
Proof. intros Hok n. destruct c; try apply Hok; cbn; intros [? _]%elem_of_difference; by apply Hok. Qed.

(** The names that go with [c]. *)
Lemma revoke_names b c name p :
  name_map (revoke_cap c b) !! name = Some p ↔ name_map b !! name = Some p ∧ CTool p.1 p.2 ∉ revokes c.
Proof.
  unfold revokes. rewrite elem_of_PropSet. destruct p as [i t].
  destruct c; cbn; rewrite ?map_lookup_filter_Some; naive_solver.
Qed.

Lemma candidate_spec b i : i ∈ candidate_instances b ↔
  ∃ t, allows_tool i t (b <| all_instances := false |>).
Proof.
  assert (∀ (l : list ResolvedName) out, i ∈ foldl (λ out p, push_absent p.1 out) out l ↔ i ∈ out ∨ ∃ t, (i, t) ∈ l) as Ht.
  { induction l as [|[j t] l IH]; intros out; cbn.
    { split; [by left|]. by intros [?|[? ?%elem_of_nil]]. }
    rewrite IH, push_absent_elem. setoid_rewrite elem_of_cons. naive_solver. }
  assert (∀ l out, i ∈ foldl (λ out '(inst, facade), if facade_granted facade b then push_absent inst out else out) out l ↔
    i ∈ out ∨ ∃ f, (i, f) ∈ l ∧ facade_granted f b) as Hf.
  { induction l as [|[j f] l IH]; intros out; cbn.
    { split; [by left|]. by intros [?|(?&?%elem_of_nil&?)]. }
    rewrite IH. setoid_rewrite elem_of_cons.
    destruct (facade_granted f b) eqn:E; [rewrite push_absent_elem|].
    - split.
      + intros [[->|?]|(f0&?&?)]; [right; exists f; rewrite E; auto|by left|right; exists f0; auto].
      + intros [?|(f0&[[= -> ->]|?]&?)]; eauto.
    - split.
      + intros [?|(f0&?&?)]; [by left|right; exists f0; auto].
      + intros [?|(f0&[[= -> ->]|?]&Hg)]; [by left|by rewrite E in Hg|right; by exists f0]. }
  unfold candidate_instances, allows_tool. rewrite Hf, Ht. cbn [allows].
  assert (∀ t, (all_instances (b <| all_instances := false |>)
      || bool_decide (i ∈ allowed_instances (b <| all_instances := false |>))
      || facade_projection_allows i (b <| all_instances := false |>)
      || bool_decide ((i, t) ∈ allowed_tools (b <| all_instances := false |>)))%bool ↔
    i ∈ allowed_instances b ∨ (∃ f, (i, f) ∈ FACADE_PROJECTED_INSTANCES ∧ facade_granted f b) ∨ (i, t) ∈ allowed_tools b) as E.
  { intros t. rewrite !orb_True, !bool_decide_spec, projection_spec. cbn. tauto. }
  setoid_rewrite E. split.
  - intros [[?|[t ?]]|?]; [exists "" |exists t|exists ""]; tauto.
  - intros [t [?|[?|?]]]; [tauto|tauto|]. left; right. by exists t.
Qed.

(** C35: a binding is a set of capabilities. What it allows is what some capability of the
    set implies, so that nothing is allowed by default and an authority or the right to
    write loadouts or scripts only by itself; granting adds one capability to the set,
    revoking takes one away (an instance with its tools) and the names that went with it;
    a binding is empty when the set is; and the candidates are the instances some grant
    other than "every instance" gives a tool of. *)
Theorem binding_refines b : binding_ok b →
  (∀ c, allows c b ↔ ∃ g, g ∈ grants b ∧ implies g c) ∧
  (∀ c, grants (grant c b) ≡ {[c]} ∪ grants b ∧ name_map (grant c b) = name_map b ∧ binding_ok (grant c b)) ∧
  (∀ c, grants (revoke_cap c b) ≡ grants b ∖ revokes c ∧ binding_ok (revoke_cap c b) ∧
    ∀ name p, resolve name (revoke_cap c b) = Some p ↔ resolve name b = Some p ∧ CTool p.1 p.2 ∉ revokes c) ∧
  (binding_is_empty b ↔ grants b ≡ ∅) ∧
  (∀ n c, from_authority_name n = Some c ↔ authority_name c = Some n) ∧
  ∀ i, i ∈ candidate_instances b ↔ ∃ t, allows_tool i t (b <| all_instances := false |>).
Proof.
  intros Hok. split_and!.
  - apply allows_spec.
  - intros c. split; [apply grant_spec|]. split; [by destruct c|by apply grant_ok].
  - intros c. split; [apply revoke_spec|]. split; [by apply revoke_cap_ok|apply revoke_names].
  - by apply empty_spec.
  - apply authority_roundtrip.
  - apply candidate_spec.
Qed.

(** ** Sticky names *)

(** A pair has one name. *)
Definition names_inj (names : gmap string ResolvedName) : Prop :=
  ∀ n m p, names !! n = Some p → names !! m = Some p → n = m.

Lemma resolve_one_spec names seen r names' seen' :
  names_inj names → (∀ p, p ∈ seen ↔ ∃ n, names !! n = Some p) →
  resolve_one (names, seen) r = (names', seen') →
  names ⊆ names' ∧ names_inj names' ∧ (∀ p, p ∈ seen' ↔ ∃ n, names' !! n = Some p) ∧
  ((∃ n, names' !! n = Some r.1) ∨ (∃ p, names !! r.2 = Some p ∧ p ≠ r.1)) ∧
  ∀ n p, names' !! n = Some p → names !! n = Some p ∨ (p, n) = r.
Proof.
  intros Hinj Hseen. destruct r as [p n]. cbn. case_bool_decide as Hp.
  { intros [= <- <-]. split_and!; [done..|left; by apply Hseen|auto]. }
  case_bool_decide as Hn.
  { intros [= <- <-]. destruct Hn as [q Hq]. split_and!; [done..| |auto]. right. exists q. split; [done|].
    intros ->. apply Hp, Hseen. by exists n. }
  intros [= <- <-]. apply eq_None_not_Some in Hn. split_and!.
  - by apply insert_subseteq.
  - intros m m' q. destruct (decide (m = n)) as [->|Hm], (decide (m' = n)) as [->|Hm'];
      rewrite ?lookup_insert_eq, ?lookup_insert_ne by done; try done; [| |by apply Hinj].
    + intros [= ->] ?. destruct Hp. apply Hseen. by exists m'.
    + intros ? [= ->]. destruct Hp. apply Hseen. by exists m.
  - intros q. rewrite elem_of_union, elem_of_singleton, Hseen. split.
    + intros [->|[m Hm]]; [exists n; by rewrite lookup_insert_eq|].
      exists m. rewrite lookup_insert_ne; [done|]. by intros ->; rewrite Hn in Hm.
    + intros [m Hm]. apply lookup_insert_Some in Hm as [[_ <-]|[_ ?]]; [by left|right; by exists m].
  - left. exists n. by rewrite lookup_insert_eq.
  - intros m q [[<- <-]|[_ ?]]%lookup_insert_Some; auto.
Qed.

Lemma resolve_all_spec rs : ∀ names seen names' seen',
  names_inj names → (∀ p, p ∈ seen ↔ ∃ n, names !! n = Some p) →
  foldl resolve_one (names, seen) rs = (names', seen') →
  names ⊆ names' ∧ names_inj names' ∧ (∀ p, p ∈ seen' ↔ ∃ n, names' !! n = Some p) ∧
  (∀ p n, (p, n) ∈ rs → (∃ m, names' !! m = Some p) ∨ (∃ q, names' !! n = Some q ∧ q ≠ p)) ∧
  ∀ n p, names' !! n = Some p → names !! n = Some p ∨ (p, n) ∈ rs.
Proof.
  induction rs as [|r rs IH]; intros names seen names' seen' Hinj Hseen; cbn [foldl].
  { intros [= <- <-]. split_and!; [done..|by intros ? ? ?%elem_of_nil|auto]. }
  destruct (resolve_one (names, seen) r) as [names1 seen1] eqn:E1. intros E.
  destruct (resolve_one_spec _ _ _ _ _ Hinj Hseen E1) as (Hsub1&Hinj1&Hseen1&Hr1&Hfrom1).
  destruct (IH _ _ _ _ Hinj1 Hseen1 E) as (Hsub&Hinj'&Hseen'&Hr&Hfrom). split_and!; try done.
  - by etrans.
  - intros p n [Hpn|Hin]%elem_of_cons; [|by apply Hr]. rewrite <- Hpn in Hr1. cbn in Hr1.
    destruct Hr1 as [[m Hm]|(q&Hq&Hne)].
    + left. exists m. by eapply lookup_weaken.
    + right. exists q. split; [|done]. eapply lookup_weaken; [exact Hq|by etrans].
  - intros n p Hn. apply Hfrom in Hn as [Hn|?]; [|right; by right].
    apply Hfrom1 in Hn as [?|<-]; [by left|right; by left].
Qed.

(** Names stay, a pair gets at most one, and a pair that gets none lost its name to another. *)
Lemma apply_resolutions_spec rs b : names_inj (name_map b) →
  let b' := apply_resolutions rs b in
  name_map b ⊆ name_map b' ∧ names_inj (name_map b') ∧
  (∀ p n, (p, n) ∈ rs → (∃ m, resolve m b' = Some p) ∨ (∃ q, resolve n b' = Some q ∧ q ≠ p)) ∧
  (∀ n p, resolve n b' = Some p → resolve n b = Some p ∨ (p, n) ∈ rs) ∧
  ∀ c, allows c b' = allows c b.
Proof.
  intros Hinj. cbn zeta. unfold apply_resolutions, resolve. cbn.
  destruct (foldl resolve_one _ _) as [names' seen'] eqn:E.
  apply resolve_all_spec in E as (?&?&_&?&?); [|done|].
  - by split_and!.
  - intros p. rewrite elem_of_list_to_set, list_elem_of_fmap. split.
    + intros ([n q]&->&Hn). apply elem_of_map_to_list in Hn. by exists n.
    + intros [n ?]. exists (n, p). split; [done|]. by apply elem_of_map_to_list.
Qed.
