(* ===== verification/Coalescer.v ===== *)
(** * Coalescing notifications ([kaijutsu-kernel/src/mcp/coalescer.rs])

    A server's notifications of one kind (and one resource) pass up to a cap per window;
    what comes beyond it is counted and reported as one summary by a timer. Here are the
    coalescer, the part of the broker's pump and timers that drives it, and the account of
    what happens to every notification. Instants and durations are in nanoseconds. *)

From S2P Require Import Prelude Text Binding.

Inductive NotifKind := NToolsChanged | NPromptsChanged | NResourceUpdated | NLogged | NElicitation.
#[export] Instance NotifKind_eq_dec : EqDecision NotifKind.
Proof. solve_decision. Defined.
#[export] Instance NotifKind_countable : Countable NotifKind.
Proof.
  refine (inj_countable' (λ k, match k with NToolsChanged => 0 | NPromptsChanged => 1 | NResourceUpdated => 2
      | NLogged => 3 | NElicitation => 4 end)
    (λ z : Z, if decide (z = 0) then NToolsChanged else if decide (z = 1) then NPromptsChanged
      else if decide (z = 2) then NResourceUpdated else if decide (z = 3) then NLogged else NElicitation) _).
  by intros [].
Defined.

Record CoalescePolicy := {
  cp_window : Z;
  cp_max_in_window : Z;
  cp_hard_drop_after : option Z;
  cp_per_kind_override : gmap NotifKind Z;
}.

Definition max_in_window_for (p : CoalescePolicy) (kind : NotifKind) : Z :=
  default (cp_max_in_window p) (cp_per_kind_override p !! kind).

Definition policy_default : CoalescePolicy := {|
  cp_window := 500000000;
  cp_max_in_window := 20;
  cp_hard_drop_after := None;
  cp_per_kind_override := {[NResourceUpdated := 0]};
|}.

Inductive ObserveOutcome :=
  | PassThrough
  | StartWindow
  | Folded (so_far : Z).
#[export] Instance ObserveOutcome_eq_dec : EqDecision ObserveOutcome.
Proof. solve_decision. Defined.

(** [CoalesceKey], and the [FlushKey] of the broker's timers. *)
Abbreviation CoalesceKey := (InstanceId * NotifKind * option string)%type.

Record Window := { w_opened_at : Z; w_count : Z; w_coalesced : Z }.

Record NotificationCoalescer := { nc_windows : gmap CoalesceKey Window; nc_default_policy : CoalescePolicy }.
Implicit Types (nc : NotificationCoalescer).

Definition coalescer_new (p : CoalescePolicy) : NotificationCoalescer :=
  {| nc_windows := ∅; nc_default_policy := p |}.

(** The window after the test of its end. *)
Definition current_window (now : Z) (p : CoalescePolicy) (w : Window) : Window :=
  if cp_window p <? now - w_opened_at w
  then {| w_opened_at := now; w_count := 0; w_coalesced := 0 |}
  else w.

Definition observe (now : Z) (key : CoalesceKey) nc : ObserveOutcome * NotificationCoalescer :=
  let '(_, kind, _) := key in
  if bool_decide (kind = NToolsChanged) then (PassThrough, nc)
  else
    let p := nc_default_policy nc in
    let cap := max_in_window_for p kind in
    let window := default {| w_opened_at := now; w_count := 0; w_coalesced := 0 |} (nc_windows nc !! key) in
    let w := current_window now p window in
    let count := w_count w + 1 in
    if count <=? cap
    then (PassThrough, {| nc_windows := <[key := {| w_opened_at := w_opened_at w; w_count := count;
                                                    w_coalesced := w_coalesced w |}]> (nc_windows nc);
                          nc_default_policy := p |})
    else
      let coalesced := w_coalesced w + 1 in
      (if coalesced =? 1 then StartWindow else Folded coalesced,
       {| nc_windows := <[key := {| w_opened_at := w_opened_at w; w_count := count;
                                    w_coalesced := coalesced |}]> (nc_windows nc);
          nc_default_policy := p |}).

Definition flush (key : CoalesceKey) nc : option Z * NotificationCoalescer :=
  match nc_windows nc !! key with
  | None => (None, nc)
  | Some window =>
      (if 0 <? w_coalesced window then Some (w_coalesced window) else None,
       {| nc_windows := delete key (nc_windows nc); nc_default_policy := nc_default_policy nc |})
  end.

(** ** The pump and its timers ([mcp/broker.rs])

    [schedule_flush] starts a task that sleeps for a window, flushes, reports, and only
    then takes its entry out of the table of timers. *)

Inductive FlushTimer :=
  | Sleeping (until : Z)
  | Reporting.

Record Pump := { pu_coalescer : NotificationCoalescer; pu_timers : gmap CoalesceKey FlushTimer }.
#[export] Instance Pump_settable : Settable Pump := λ s,
  {| pu_coalescer := pu_coalescer s; pu_timers := pu_timers s |}.

Definition schedule_flush (now : Z) (key : CoalesceKey) (s : Pump) : Pump :=
  match pu_timers s !! key with
  | Some _ => s
  | None =>
      s <| pu_timers := <[key := Sleeping (now + cp_window (nc_default_policy (pu_coalescer s)))]> (pu_timers s) |>
  end.

(** What a notification leads to: a block of its own, or nothing yet. *)
Definition pump_notification (now : Z) (key : CoalesceKey) (s : Pump) : bool * Pump :=
  let '(outcome, nc) := observe now key (pu_coalescer s) in
  let s := s <| pu_coalescer := nc |> in
  match outcome with
  | PassThrough => (true, s)
  | StartWindow => (false, schedule_flush now key s)
  | Folded _ => (false, s)
  end.

(** The task of a timer, up to its report, and what it does after it. *)
Definition timer_flush (now : Z) (key : CoalesceKey) (s : Pump) : option Z * Pump :=
  match pu_timers s !! key with
  | Some (Sleeping until) =>
      if until <=? now then
        let '(count, nc) := flush key (pu_coalescer s) in
        (count, {| pu_coalescer := nc; pu_timers := <[key := Reporting]> (pu_timers s) |})
      else (None, s)
  | _ => (None, s)
  end.

Definition timer_done (key : CoalesceKey) (s : Pump) : Pump :=
  match pu_timers s !! key with
  | Some Reporting => s <| pu_timers := delete key (pu_timers s) |>
  | _ => s
  end.

(** ** The account of one key *)

Inductive PumpEvent :=
  | Notified (now : Z) (key : CoalesceKey)
  | Flushes (now : Z) (key : CoalesceKey)
  | Finishes (key : CoalesceKey).

(** How many notifications came, passed as blocks, and were reported in summaries. *)
Record Tally := { t_observed : Z; t_passed : Z; t_summed : Z }.
#[export] Instance Tally_settable : Settable Tally := λ t,
  {| t_observed := t_observed t; t_passed := t_passed t; t_summed := t_summed t |}.

Section account.
Variable key : CoalesceKey.
Implicit Types (s : Pump) (t : Tally).

Definition pump_step (e : PumpEvent) (st : Pump * Tally) : Pump * Tally :=
  let '(s, t) := st in
  match e with
  | Notified now k =>
      let '(passed, s') := pump_notification now k s in
      (s', if bool_decide (k = key)
           then {| t_observed := t_observed t + 1; t_passed := t_passed t + (if passed then 1 else 0);
                   t_summed := t_summed t |}
           else t)
  | Flushes now k =>
      let '(count, s') := timer_flush now k s in
      (s', if bool_decide (k = key) then t <| t_summed := t_summed t + default 0 count |> else t)
  | Finishes k => (timer_done k s, t)
  end.

Definition pump_run (es : list PumpEvent) (st : Pump * Tally) : Pump * Tally :=
  foldl (λ st e, pump_step e st) st es.

(** What the window has folded and not reported. *)
Definition pending s : Z := default 0 (w_coalesced <$> nc_windows (pu_coalescer s) !! key).

(** The folded notifications that the start of a new window forgets. *)
Definition forgotten (e : PumpEvent) s : Z :=
  match e with
  | Notified now k =>
      if bool_decide (k = key ∧ key.1.2 ≠ NToolsChanged) then
        match nc_windows (pu_coalescer s) !! key with
        | Some w => w_coalesced w - w_coalesced (current_window now (nc_default_policy (pu_coalescer s)) w)
        | None => 0
        end
      else 0
  | _ => 0
  end.

Fixpoint losses (es : list PumpEvent) (st : Pump * Tally) : Z :=
  match es with
  | [] => 0
  | e :: es' => forgotten e st.1 + losses es' (pump_step e st)
  end.

(** The timers keep up: no notification of the key comes after the end of a window with
    folded ones, nor while a task reports. *)
Definition prompt_event (e : PumpEvent) s : Prop :=
  forgotten e s = 0 ∧
  match e with Notified _ k => k = key → pu_timers s !! key ≠ Some Reporting | _ => True end.

Fixpoint prompt (es : list PumpEvent) (st : Pump * Tally) : Prop :=
  match es with
  | [] => True
  | e :: es' => prompt_event e st.1 ∧ prompt es' (pump_step e st)
  end.

Definition window_ok (cap : Z) (w : Window) : Prop :=
  0 ≤ w_coalesced w ∧ 0 ≤ w_count w - w_coalesced w ≤ Z.max 0 cap.

Definition pump_ok s : Prop :=
  let p := nc_default_policy (pu_coalescer s) in
  ∀ w, nc_windows (pu_coalescer s) !! key = Some w → window_ok (max_in_window_for p key.1.2) w.

Definition covered s : Prop := 0 < pending s → ∃ until, pu_timers s !! key = Some (Sleeping until).

Definition balance t : Z := t_observed t - t_passed t - t_summed t.

Lemma current_window_ok now p cap w : window_ok cap w → window_ok cap (current_window now p w).
Proof. unfold window_ok, current_window. destruct (_ <? _); cbn; lia. Qed.

Lemma observe_other now k nc : k ≠ key → nc_windows (observe now k nc).2 !! key = nc_windows nc !! key.
Proof.
  intros Hk. unfold observe. destruct k as [[i kind] u]. case_bool_decide; [done|]. cbn zeta.
  destruct (_ <=? _); cbn; by rewrite lookup_insert_ne.
Qed.

Lemma observe_policy now k nc : nc_default_policy (observe now k nc).2 = nc_default_policy nc.
Proof.
  unfold observe. destruct k as [[i kind] u]. case_bool_decide; [done|]. cbn zeta. by destruct (_ <=? _).
Qed.

(** What an observation does to the window of its key. *)
Lemma observe_key now nc (p := nc_default_policy nc) :
  let '(outcome, nc') := observe now key nc in
  (key.1.2 = NToolsChanged ∧ outcome = PassThrough ∧ nc' = nc) ∨
  (key.1.2 ≠ NToolsChanged ∧ ∃ w w',
     w = current_window now p (default {| w_opened_at := now; w_count := 0; w_coalesced := 0 |} (nc_windows nc !! key)) ∧
     nc_windows nc' !! key = Some w' ∧ w_count w' = w_count w + 1 ∧
     ((outcome = PassThrough ∧ w_coalesced w' = w_coalesced w ∧ w_count w' ≤ max_in_window_for p key.1.2) ∨
      (outcome ≠ PassThrough ∧ w_coalesced w' = w_coalesced w + 1 ∧
       (outcome = StartWindow ↔ w_coalesced w = 0)))).
Proof.
  unfold observe. destruct key as [[i kind] u]. cbn [fst snd]. case_bool_decide; [by left|]. cbn zeta. fold p.
  set (w := current_window now p _).
  destruct (Z.leb_spec (w_count w + 1) (max_in_window_for p kind)); right; (split; [done|]);
    do 2 eexists; (split; [done|]); cbn; rewrite lookup_insert_eq; (split; [done|]); cbn; (split; [done|]).
  - by left.
  - right. destruct (Z.eqb_spec (w_coalesced w + 1) 1); split_and!; try done; split; try done; lia.
Qed.

Lemma notify_spec now s (p := nc_default_policy (pu_coalescer s)) :
  pump_ok s →
  let '(passed, s') := pump_notification now key s in
  pump_ok s' ∧ pending s' - pending s + forgotten (Notified now key) s = (if passed then 0 else 1) ∧
  (forgotten (Notified now key) s = 0 → pu_timers s !! key ≠ Some Reporting → covered s → covered s').
Proof.
  intros Hok. unfold pump_notification. pose proof (observe_policy now key (pu_coalescer s)) as Hp.
  pose proof (observe_key now (pu_coalescer s)) as H0. fold p in H0, Hp.
  destruct (observe now key (pu_coalescer s)) as [outcome nc']. cbn [snd] in Hp.
  destruct H0 as [(Hk&->&->)|(Hk&w&w'&Hw&Hw'&Hcount&Hout)].
  { unfold pump_ok, pending, covered, forgotten. rewrite bool_decide_false by tauto. destruct s. cbn. split_and!; [done|lia|done]. }
  assert (window_ok (max_in_window_for p key.1.2) w ∧
    w_coalesced w = pending s - forgotten (Notified now key) s) as [Hwok Hwp].
  { unfold forgotten, pending. rewrite bool_decide_true by done. fold p. subst w.
    destruct (nc_windows (pu_coalescer s) !! key) as [w0|] eqn:E; cbn [default fmap option_fmap option_map].
    - split; [by apply current_window_ok, Hok|cbn; lia].
    - unfold current_window. destruct (_ <? _); cbn; split; unfold window_ok; cbn; lia. }
  assert (∀ tm, pending {| pu_coalescer := nc'; pu_timers := tm |} = w_coalesced w') as Hpend.
  { intros tm. unfold pending. cbn. by rewrite Hw'. }
  assert (∀ tm, pump_ok {| pu_coalescer := nc'; pu_timers := tm |}) as Hok'.
  { intros tm w1. cbn. rewrite Hw'. intros [= <-]. rewrite Hp. unfold window_ok in *. lia. }
  destruct Hout as [(->&Hc&Hle)|(Hne&Hc&Hstart)].
  - change (s <| pu_coalescer := nc' |>) with {| pu_coalescer := nc'; pu_timers := pu_timers s |}.
    split_and!; [done|rewrite Hpend; lia|]. intros Hf _ Hcov. unfold covered. rewrite Hpend. cbn.
    intros. apply Hcov. lia.
  - destruct outcome as [| |n]; [done| |].
    + unfold schedule_flush. cbn [pu_timers set_field pu_coalescer].
      destruct (pu_timers s !! key) as [tm|] eqn:Et.
      * change (s <| pu_coalescer := nc' |>) with {| pu_coalescer := nc'; pu_timers := pu_timers s |}.
        split_and!; [done|rewrite Hpend; lia|]. intros _ Hr _ _. cbn. rewrite Et.
        destruct tm as [u|]; [by exists u|done].
      * change (_ <| pu_timers := ?x |>) with {| pu_coalescer := nc'; pu_timers := x |}.
        split_and!; [done|rewrite Hpend; lia|]. intros _ _ _ _. cbn. rewrite lookup_insert_eq. by eexists.
    + change (s <| pu_coalescer := nc' |>) with {| pu_coalescer := nc'; pu_timers := pu_timers s |}.
      split_and!; [done|rewrite Hpend; lia|]. intros Hf _ Hcov _. apply Hcov.
      assert (w_coalesced w ≠ 0) by (intros E; apply Hstart in E; done). destruct Hwok. lia.
Qed.

(** Notifications and timers of another key leave everything of this one alone. *)
Definition same_key s s' : Prop :=
  nc_windows (pu_coalescer s') !! key = nc_windows (pu_coalescer s) !! key ∧
  pu_timers s' !! key = pu_timers s !! key ∧
  nc_default_policy (pu_coalescer s') = nc_default_policy (pu_coalescer s).

Lemma same_key_ok s s' : same_key s s' →
  (pump_ok s → pump_ok s') ∧ pending s' = pending s ∧ (covered s → covered s').
Proof. intros (Hw&Ht&Hp). unfold pump_ok, pending, covered, pending. by rewrite Hw, Ht, Hp. Qed.

Lemma notify_other now k s : k ≠ key → same_key s (pump_notification now k s).2.
Proof.
  intros Hk. unfold pump_notification, same_key.
  pose proof (observe_other now k (pu_coalescer s) Hk) as Hw. pose proof (observe_policy now k (pu_coalescer s)) as Hp.
  destruct (observe now k (pu_coalescer s)) as [[| |n] nc']; cbn in *; [done| |done].
  unfold schedule_flush. cbn. destruct (pu_timers s !! k); cbn; [done|]. by rewrite lookup_insert_ne.
Qed.

Lemma flush_other now k s : k ≠ key → same_key s (timer_flush now k s).2.
Proof.
  intros Hk. unfold timer_flush, same_key, flush. destruct (pu_timers s !! k) as [[u|]|]; [|done..].
  destruct (u <=? now); [|done]. destruct (nc_windows (pu_coalescer s) !! k); cbn; rewrite ?lookup_insert_ne, ?lookup_delete_ne by done; done.
Qed.

Lemma done_other k s : k ≠ key → same_key s (timer_done k s).
Proof.
  intros Hk. unfold timer_done, same_key. destruct (pu_timers s !! k) as [[u|]|]; [done| |done]. cbn.
  by rewrite lookup_delete_ne.
Qed.

Lemma flush_spec now s : pump_ok s →
  let '(count, s') := timer_flush now key s in
  pump_ok s' ∧ pending s' + default 0 count = pending s ∧ (covered s → covered s').
Proof.
  intros Hok. unfold timer_flush, flush. destruct (pu_timers s !! key) as [[u|]|] eqn:Et; [|by split_and!; cbn; [|lia|]..].
  destruct (u <=? now); [|by split_and!; cbn; [|lia|]].
  destruct (nc_windows (pu_coalescer s) !! key) as [w|] eqn:E; unfold pump_ok, covered, pending; cbn.
  - rewrite lookup_delete_eq, E. cbn. split_and!; [done| |lia].
    destruct (Hok w E) as [Hw _]. destruct (Z.ltb_spec 0 (w_coalesced w)); cbn; lia.
  - rewrite E. cbn. split_and!; [done|lia|lia].
Qed.

Lemma done_spec s : (pump_ok s → pump_ok (timer_done key s)) ∧ pending (timer_done key s) = pending s ∧
  (covered s → covered (timer_done key s)).
Proof.
  unfold timer_done. destruct (pu_timers s !! key) as [[u|]|] eqn:Et; [done| |done].
  split_and!; [done|done|]. intros Hcov Hp. destruct (Hcov Hp) as [u Hu]. congruence.
Qed.

Lemma step_accounts e s t : pump_ok s →
  let '(s', t') := pump_step e (s, t) in
  pump_ok s' ∧ balance t' - pending s' = balance t - pending s + forgotten e s ∧
  (prompt_event e s → covered s → covered s').
Proof.
  intros Hok. destruct e as [now k|now k|k]; cbn [pump_step].
  - destruct (decide (k = key)) as [->|Hk].
    + pose proof (notify_spec now s Hok) as H0. destruct (pump_notification now key s) as [passed s'].
      destruct H0 as (?&?&?). rewrite bool_decide_true by done. unfold balance. cbn [t_observed t_passed t_summed].
      split_and!; [done|destruct passed; lia|]. intros [? Hr]. auto.
    + pose proof (notify_other now k s Hk) as H0. destruct (pump_notification now k s) as [passed s']. cbn [snd] in H0.
      apply same_key_ok in H0 as (?&?&?). rewrite bool_decide_false by done. unfold forgotten.
      rewrite bool_decide_false by tauto. split_and!; [auto|lia|auto].
  - destruct (decide (k = key)) as [->|Hk].
    + pose proof (flush_spec now s Hok) as H0. destruct (timer_flush now key s) as [count s'].
      destruct H0 as (?&?&?). rewrite bool_decide_true by done. unfold balance. cbn. split_and!; [done|lia|auto].
    + pose proof (flush_other now k s Hk) as H0. destruct (timer_flush now k s) as [count s']. cbn [snd] in H0.
      apply same_key_ok in H0 as (?&?&?). rewrite bool_decide_false by done. cbn. split_and!; [auto|lia|auto].
  - destruct (decide (k = key)) as [->|Hk].
    + destruct (done_spec s) as (?&?&?). cbn. split_and!; [auto|lia|auto].
    + pose proof (done_other k s Hk) as H0. apply same_key_ok in H0 as (?&?&?). cbn. split_and!; [auto|lia|auto].
Qed.

Lemma run_accounts es s t : pump_ok s →
  let '(s', t') := pump_run es (s, t) in
  pump_ok s' ∧ balance t' - pending s' = balance t - pending s + losses es (s, t) ∧
  (prompt es (s, t) → covered s → covered s' ∧ losses es (s, t) = 0).
Proof.
  revert s t. induction es as [|e es IH]; intros s t Hok; cbn [pump_run foldl losses prompt fst].
  { split_and!; [done|lia|done]. }
  pose proof (step_accounts e s t Hok) as H0. destruct (pump_step e (s, t)) as [s1 t1] eqn:E1. cbn [fst].
  destruct H0 as (Hok1&Hb&Hc). specialize (IH s1 t1 Hok1). fold (pump_run es (s1, t1)).
  destruct (pump_run es (s1, t1)) as [s' t'] eqn:E2. destruct IH as (?&?&Hp). split_and!; [done|lia|].
  intros [He Hes] Hcov. destruct (Hp Hes (Hc He Hcov)) as [? ?]. split; [done|]. destruct He as [He _]. lia.
Qed.

Definition pump_new (p : CoalescePolicy) : Pump := {| pu_coalescer := coalescer_new p; pu_timers := ∅ |}.
Definition no_tally : Tally := {| t_observed := 0; t_passed := 0; t_summed := 0 |}.

(** The account of the notifications of one key, over any interleaving of
    notifications and timers of all keys. Every notification has passed as a block, was
    reported in a summary, waits in the window, or was forgotten when a window was
    reopened over it; no window passes more than the cap. When the timers keep up nothing
    is forgotten, whatever waits has a timer that will report it, and once no timer is
    left everything has been emitted. *)
Theorem coalescer_accounts (p : CoalescePolicy) (es : list PumpEvent) (st := pump_run es (pump_new p, no_tally)) :
  t_observed st.2 = t_passed st.2 + t_summed st.2 + pending st.1 + losses es (pump_new p, no_tally) ∧
  (∀ w, nc_windows (pu_coalescer st.1) !! key = Some w →
    0 ≤ w_count w - w_coalesced w ≤ Z.max 0 (max_in_window_for (nc_default_policy (pu_coalescer st.1)) key.1.2)) ∧
  (prompt es (pump_new p, no_tally) →
    losses es (pump_new p, no_tally) = 0 ∧
    (0 < pending st.1 → ∃ until, pu_timers st.1 !! key = Some (Sleeping until)) ∧
    (pu_timers st.1 !! key = None → t_observed st.2 = t_passed st.2 + t_summed st.2)).
Proof.
  pose proof (run_accounts es (pump_new p) no_tally) as H0. subst st.
  destruct (pump_run es (pump_new p, no_tally)) as [s' t'] eqn:E. cbn [fst snd] in *.
  destruct H0 as (Hok&Hb&Hp); [done|]. unfold balance in Hb. cbn in Hb.
  assert (pending (pump_new p) = 0) as Hnew by done.
  assert (0 ≤ pending s') as Hpos.
  { unfold pending. destruct (nc_windows (pu_coalescer s') !! key) as [w|] eqn:Ew; cbn; [by destruct (Hok w Ew)|done]. }
  split_and!; [lia|intros w Hw; by destruct (Hok w Hw)|]. intros Hprompt.
  destruct (Hp Hprompt) as [Hcov Hl]; [by intros ?|]. split_and!; [done|done|].
  intros Ht. assert (¬ 0 < pending s') as ?; [|lia]. intros Hlt. destruct (Hcov Hlt) as [u Hu]. congruence.
Qed.
End account.

(** ** What happens when the timers do not keep up *)

Module CoalescerDemo.
Definition logs : CoalesceKey := ("srv", NLogged, None).
Definition doc : CoalesceKey := ("srv", NResourceUpdated, Some "file:///a").

(** One event per millisecond. *)
Definition burst (from : Z) (n : nat) (key : CoalesceKey) : list PumpEvent :=
  map (λ k, Notified (from + Z.of_nat k * 1000000) key) (seq 0 n).

Definition outcome (key : CoalesceKey) (es : list PumpEvent) : Z * Z * Z * Z * option FlushTimer :=
  let st := pump_run key es (pump_new policy_default, no_tally) in
  (t_observed st.2, t_passed st.2, t_summed st.2, pending key st.1, pu_timers st.1 !! key).
End CoalescerDemo.
Import CoalescerDemo.

(** A burst of 25 log lines, then silence: 20 blocks and a summary of 5. *)
Lemma coalescer_accounts_witness :
  outcome logs (burst 0 25 logs ++ [Flushes 600000000 logs; Finishes logs]) = (25, 20, 5, 0, None) ∧
  prompt logs (burst 0 25 logs) (pump_new policy_default, no_tally) ∧
  losses logs (burst 0 25 logs) (pump_new policy_default, no_tally) = 0.
Proof.
  split; [vm_compute; reflexivity|].
  assert (prompt logs (burst 0 25 logs) (pump_new policy_default, no_tally)) as Hp.
  { vm_compute. repeat split; intros; discriminate. }
  split; [exact Hp|]. destruct (coalescer_accounts logs policy_default (burst 0 25 logs)) as (_&_&H).
  by apply H.
Defined.

(** The window opens at its first notification, its timer at the first one beyond the cap:
    a line that comes between the end of the window and the timer reopens the window over
    the five folded lines, and the timer finds nothing to report. *)
Example burst_forgotten :
  outcome logs (burst 0 25 logs ++ [Notified 510000000 logs; Flushes 520000000 logs; Finishes logs])
    = (26, 21, 0, 0, None) ∧
  losses logs (burst 0 25 logs ++ [Notified 510000000 logs]) (pump_new policy_default, no_tally) = 5.
Proof. vm_compute. by split. Qed.

(** An update that comes while the task of the timer still reads the resource: its window
    has no timer, and nothing will read the resource again for it. *)
Example update_missed :
  outcome doc [Notified 0 doc; Flushes 500000000 doc; Notified 510000000 doc; Finishes doc]
    = (2, 0, 1, 1, None).
Proof. vm_compute. reflexivity. Qed.
