(* ===== verification/McpTypes.v ===== *)
(** * Tool calls: what goes in and out of the broker

    [kaijutsu-kernel/src/mcp/types.rs], [error.rs], [policy.rs], [context.rs], [hook_table.rs]:
    calls, results and errors, policies, hooks; and the bound on the size of a result. *)

From S2P Require Import Prelude Text Tick Ids Track Cas Cell Block Hydrate Binding.

(** [serde_json::Value::to_string]. *)
Class JsonText `{!JsonLib} := json_to_string : Json → string.
(** [serde_json::Value::Null] and the arguments built for a notification. *)
Class JsonValues `{!JsonLib} := {
  json_null : Json;
  json_of_notification : NotificationPayload → Json;
  json_of_uri : string → Json;
  json_of_failed_read : string → Json;
}.

(** ** Tools, calls, results *)

Section types.
Context {json : JsonLib}.

Record KernelTool := {
  kt_instance : InstanceId;
  kt_name : string;
  kt_description : option string;
  kt_input_schema : Json;
}.

Record KernelCallParams := { kp_instance : InstanceId; kp_tool : string; kp_arguments : Json }.

Inductive ToolContent := TText (s : string) | TJson (v : Json).

Record KernelToolResult := {
  tr_is_error : bool;
  tr_content : list ToolContent;
  tr_structured : option Json;
}.

Definition result_text (s : string) : KernelToolResult :=
  {| tr_is_error := false; tr_content := [TText s]; tr_structured := None |}.
Definition result_error_text (s : string) : KernelToolResult :=
  {| tr_is_error := true; tr_content := [TText s]; tr_structured := None |}.

Inductive KernelResourceContents :=
  | RText (uri : string) (mime_type : option string) (text : string)
  | RBlob (uri : string) (mime_type : option string) (blob_base64 : string).
End types.

(** ** The context of a call *)

Record TraceContext := { traceparent : string; tracestate : string }.

Record CallContext := {
  cc_principal_id : PrincipalId;
  cc_context_id : ContextId;
  cc_session_id : uuid;
  cc_kernel_id : uuid;
  cc_cwd : option string;
  cc_trace : TraceContext;
}.

Definition call_context_new (p : PrincipalId) (c : ContextId) (session kernel : uuid) : CallContext := {|
  cc_principal_id := p; cc_context_id := c; cc_session_id := session; cc_kernel_id := kernel;
  cc_cwd := None; cc_trace := {| traceparent := ""; tracestate := "" |};
|}.

(** ** Policies and errors *)

Record InstancePolicy := { ip_call_timeout_ms : Z; ip_max_result_bytes : Z; ip_max_concurrency : nat }.

Definition policy_defaults : InstancePolicy :=
  {| ip_call_timeout_ms := 120000; ip_max_result_bytes := 64 * 1024 * 1024; ip_max_concurrency := 16 |}.

Abbreviation HookId := string.

Inductive PolicyError :=
  | PTimeout (instance : InstanceId) (timeout_ms : Z)
  | PConcurrencyCap (instance : InstanceId) (max : nat)
  | PResultTooLarge (instance : InstanceId) (size max : Z).

(** The texts of [serde_json] and I/O errors stand for them. *)
Inductive McpError :=
  | EUnsupported
  | EToolNotFound (instance : InstanceId) (tool : string)
  | EInstanceNotFound (instance : InstanceId)
  | EInstanceDown (instance : InstanceId) (reason : string)
  | EInvalidParams (text : string)
  | EProtocol (text : string)
  | EIo (text : string)
  | ECancelled
  | EDenied (by_hook : HookId)
  | ECapabilityDenied (instance : InstanceId) (tool : string)
  | EFacadeDenied (facade : string)
  | ELoadoutDenied (context : ContextId) (tool : string)
  | EBindingUnavailable (context : ContextId) (reason : string)
  | EHookRecursionLimit (depth : nat)
  | ECoalescer
  | EPolicy (e : PolicyError).

(** ** Hooks *)

Inductive McpHookPhase := PreCall | PostCall | OnError | OnNotification | ListTools.

Section hooks.
Context {json : JsonLib}.

(** What the body of a hook does to the broker: it may call tools, one after the other,
    each call depending on what came before, and ends well or with the text of its error. *)
Inductive HookProgram :=
  | HDone (r : result string ())
  | HCall (params : KernelCallParams) (ctx : CallContext)
      (k : result McpError KernelToolResult → HookProgram).

(** A builtin body is an implementation of the trait [Hook]. *)
Inductive HookBody :=
  | HBuiltin (name : string) (hook : KernelCallParams → CallContext → HookProgram)
  | HKaish (body : string).

Inductive HookAction :=
  | HInvoke (body : HookBody)
  | HShortCircuit (r : KernelToolResult)
  | HDeny (reason : string)
  | HLog (target : string) (level : LogLevel).

Record HookEntry := {
  he_id : HookId;
  he_match_instance : option string;
  he_match_tool : option string;
  he_match_context : option ContextId;
  he_match_principal : option PrincipalId;
  he_action : HookAction;
  he_priority : Z;
  he_kaish_script_id : option string;
}.

Record HookTables := {
  ht_pre_call : list HookEntry;
  ht_post_call : list HookEntry;
  ht_on_error : list HookEntry;
  ht_on_notification : list HookEntry;
  ht_list_tools : list HookEntry;
}.

Inductive PhaseOutcome :=
  | PContinue
  | PShortCircuit (hook_id : HookId) (r : KernelToolResult)
  | PDeny (hook_id : HookId) (reason : string).

Inductive PhasePayload :=
  | PayloadNone
  | PayloadResult (r : KernelToolResult)
  | PayloadError (e : McpError).
End hooks.

(** ** The size of a result ([broker.rs]) *)

Section size.
Context {json : JsonLib} {text : JsonText}.

Definition str_len (s : string) : Z := Z.of_nat (String.length s).
Definition content_text (c : ToolContent) : string :=
  match c with TText s => s | TJson v => json_to_string v end.

Definition estimate_result_size (r : KernelToolResult) : Z :=
  foldl (λ total c, total + str_len (content_text c)) 0 (tr_content r)
  + match tr_structured r with Some v => str_len (json_to_string v) | None => 0 end.

(** [while cut > 0 && !text.is_char_boundary(cut) { cut -= 1 }] *)
Fixpoint cut_back (s : string) (cut : nat) : nat :=
  match cut with
  | O => O
  | S cut' => if is_char_boundary s cut then cut else cut_back s cut'
  end.

(** [&text[..cut]] *)
Definition str_take (s : string) (n : nat) : string := String.substring 0 n s.

Fixpoint keep_items (body_budget used : Z) (items : list ToolContent) : list ToolContent :=
  match items with
  | [] => []
  | item :: items' =>
      let item_text := content_text item in
      let item_len := str_len item_text in
      if used + item_len <=? body_budget
      then item :: keep_items body_budget (used + item_len) items'
      else
        let remaining := sat_sub body_budget used in
        if 0 <? remaining then
          let cut := cut_back item_text (Z.to_nat (Z.min remaining item_len)) in
          if (0 <? cut)%nat then [TText (str_take item_text cut)] else []
        else []
  end.

Definition truncation_footer (dropped : Z) : string :=
  nl +:+ nl +:+ "[truncated " +:+ show_uint dropped +:+ " bytes — output exceeded max_result_bytes]".

Definition truncate_result_to_budget (r : KernelToolResult) (budget original_size : Z) : KernelToolResult :=
  let footer := truncation_footer (sat_sub original_size budget) in
  let body_budget := sat_sub budget (str_len footer) in
  {| tr_is_error := tr_is_error r;
     tr_content := keep_items body_budget 0 (tr_content r) ++ [TText footer];
     tr_structured := None |}.

(** *** A truncated result fits *)

Implicit Types (items : list ToolContent).

Lemma foldl_add items z :
  foldl (λ total c, total + str_len (content_text c)) z items = z + foldl (λ total c, total + str_len (content_text c)) 0 items.
Proof.
  revert z. induction items as [|c items IH]; intros z; cbn [foldl]; [lia|]. rewrite IH, (IH (0 + _)). lia.
Qed.

Definition items_size items : Z := foldl (λ total c, total + str_len (content_text c)) 0 items.

Lemma items_size_cons c items : items_size (c :: items) = str_len (content_text c) + items_size items.
Proof. unfold items_size. cbn [foldl]. rewrite foldl_add. lia. Qed.

Lemma items_size_app items items' : items_size (items ++ items') = items_size items + items_size items'.
Proof. induction items as [|c items IH]; [done|]. cbn [app]. rewrite !items_size_cons, IH. lia. Qed.

Lemma items_size_pos items : 0 ≤ items_size items.
Proof. induction items as [|c items IH]; [done|]. rewrite items_size_cons. unfold str_len. lia. Qed.

Lemma cut_back_spec s cut : (cut_back s cut ≤ cut)%nat ∧ is_char_boundary s (cut_back s cut).
Proof.
  induction cut as [|cut IH]; cbn [cut_back]; [done|].
  destruct (is_char_boundary s (S cut)) eqn:E; [split; [lia|by rewrite E]|].
  destruct IH as [? ?]. split; [lia|done].
Qed.

Lemma str_take_length s n : (n ≤ String.length s)%nat → String.length (str_take s n) = n.
Proof.
  unfold str_take. revert n. induction s as [|c s IH]; intros [|n]; cbn; try lia. intros.
  by rewrite IH by lia.
Qed.

Lemma str_take_prefix s n : starts_with s (str_take s n).
Proof.
  unfold str_take. revert n. induction s as [|c s IH]; intros [|n]; cbn; try done.
  rewrite bool_decide_true by done. apply IH.
Qed.

(** Only a last item is cut, at a character of its text; the others are kept as they are. *)
Inductive cut_from : list ToolContent → list ToolContent → Prop :=
  | cut_nil items : cut_from [] items
  | cut_same c kept items : cut_from kept items → cut_from (c :: kept) (c :: items)
  | cut_text n c items : is_char_boundary (content_text c) n → (0 < n)%nat →
      (n ≤ String.length (content_text c))%nat → cut_from [TText (str_take (content_text c) n)] (c :: items).

Lemma keep_items_spec items : ∀ body_budget used, used ≤ body_budget →
  items_size (keep_items body_budget used items) ≤ body_budget - used ∧
  cut_from (keep_items body_budget used items) items ∧
  (used + items_size items ≤ body_budget → keep_items body_budget used items = items).
Proof.
  induction items as [|c items IH]; intros body used Hu; cbn [keep_items].
  { split_and!; [cbn; lia|constructor|done]. }
  destruct (Z.leb_spec (used + str_len (content_text c)) body) as [Hle|Hgt].
  - destruct (IH body (used + str_len (content_text c)) Hle) as (Hs&Hc&He). rewrite !items_size_cons.
    split_and!; [lia|by constructor|]. intros. rewrite He; [done|lia].
  - assert (used + items_size (c :: items) ≤ body → False) as Hno.
    { rewrite items_size_cons. pose proof (items_size_pos items). lia. }
    destruct (Z.ltb_spec 0 (sat_sub body used)) as [Hr|Hr]; [|by split_and!; [cbn; lia|constructor|]].
    pose proof (cut_back_spec (content_text c) (Z.to_nat (Z.min (sat_sub body used) (str_len (content_text c))))) as [Hcut Hb].
    set (n := cut_back _ _) in *. destruct (Nat.ltb_spec 0 n); [|by split_and!; [cbn; lia|constructor|]].
    assert ((n ≤ String.length (content_text c))%nat) by (unfold str_len in *; lia).
    split_and!; [|by constructor|done]. rewrite items_size_cons. cbn [content_text items_size foldl].
    unfold str_len at 1. rewrite str_take_length by done. unfold sat_sub, str_len, items_size in *. cbn. lia.
Qed.

(** A result over the budget is cut to fit it, the footer included (unless the footer
    alone is larger): whole items are kept in order, at most the last one is cut, between two
    characters, then comes the footer with the number of bytes over the budget; what is
    structured is dropped and the error flag stays. *)
Theorem truncation_fits (r : KernelToolResult) (budget : Z)
    (size := estimate_result_size r) (r' := truncate_result_to_budget r budget size) :
  0 ≤ budget < size →
  estimate_result_size r' ≤ Z.max budget (str_len (truncation_footer (size - budget))) ∧
  tr_is_error r' = tr_is_error r ∧ tr_structured r' = None ∧
  ∃ kept, tr_content r' = kept ++ [TText (truncation_footer (size - budget))] ∧ cut_from kept (tr_content r) ∧
    (items_size (tr_content r) + str_len (truncation_footer (size - budget)) ≤ budget → kept = tr_content r).
Proof.
  intros [Hb Hlt]. assert (sat_sub size budget = size - budget) as Hd by (unfold sat_sub; lia).
  subst r'. unfold truncate_result_to_budget. rewrite Hd. set (footer := truncation_footer (size - budget)).
  destruct (keep_items_spec (tr_content r) (sat_sub budget (str_len footer)) 0) as (Hs&Hc&He); [unfold sat_sub; lia|].
  split_and!; [|done..|].
  - unfold estimate_result_size. cbn [tr_content tr_structured].
    change (foldl _ 0 ?l) with (items_size l). rewrite items_size_app.
    change (items_size [TText footer]) with (0 + str_len footer). unfold sat_sub in *. lia.
  - eexists. cbn [tr_content]. split; [done|]. split; [done|]. intros. apply He. unfold sat_sub. lia.
Qed.
End size.
