(* ===== verification/Broker.v ===== *)
(** * The tool broker ([kaijutsu-kernel/src/mcp/broker.rs])

    The registry of servers, the bindings of the contexts, the hooks, and the pipeline of
    a call. A server, the binding table of the kernel's database, the block store that
    notifications go to, the glob matcher and the shell that runs scripts are interfaces.
    A call of a tool, and the reading of a resource, act on the whole broker: the servers
    of the kernel itself hold it and change its bindings, hooks and policies while they
    run. The other requests act on the world outside. The hook depth of the task is
    [depth]: [None] outside the scope that [call_tool] opens. *)

From Stdlib Require Import Ascii.
From S2P Require Import Prelude Text Tick Ids Track Cas Cell Block Hydrate MethodLogic Binding McpTypes.

(** ** Interfaces *)

(** How [tokio::select!] ends: the token was cancelled, the timeout passed, or the server
    answered. *)
Inductive Race {json : JsonLib} :=
  | RCancelled
  | RTimedOut
  | RReturned (r : result McpError KernelToolResult).

(** ** State *)

Section state.
Context {json : JsonLib} {Server World Db Docs : Type}.

(** A semaphore is shared by the calls that hold its permits: [br_semaphores] names the
    one of an instance, [br_permits] has what is free of each. *)
Record Broker := {
  br_instances : gmap InstanceId Server;
  br_bindings : gmap ContextId ContextToolBinding;
  br_policies : gmap InstanceId InstancePolicy;
  br_semaphores : gmap InstanceId nat;
  br_permits : list nat;
  br_hooks : HookTables;
  br_documents : option Docs;
  br_tool_snapshots : gmap InstanceId (list KernelTool);
  br_subscriptions : gmap ContextId (gset (InstanceId * string));
  br_resource_parents : gmap (ContextId * InstanceId * string) BlockId;
  br_db : option Db;
  br_kj_dispatcher : bool;
  br_enforce_unbound_deny : bool;
  br_world : World;
}.
#[export] Instance Broker_settable : Settable Broker := λ b, {|
  br_instances := br_instances b; br_bindings := br_bindings b; br_policies := br_policies b;
  br_semaphores := br_semaphores b; br_permits := br_permits b; br_hooks := br_hooks b;
  br_documents := br_documents b; br_tool_snapshots := br_tool_snapshots b;
  br_subscriptions := br_subscriptions b; br_resource_parents := br_resource_parents b;
  br_db := br_db b; br_kj_dispatcher := br_kj_dispatcher b;
  br_enforce_unbound_deny := br_enforce_unbound_deny b; br_world := br_world b;
|}.

End state.
Abbreviation BrokerState Server World Db Docs :=
  (Broker (Server := Server) (World := World) (Db := Db) (Docs := Docs)).

(** A tool source, seen by the broker. *)
Class McpServerLike (Server World Db Docs : Type) `{!JsonLib} := {
  instance_id : Server → InstanceId;
  server_list_tools : Server → CallContext → World → result McpError (list KernelTool) * World;
  server_call_tool :
    Server → option nat → KernelCallParams → CallContext → BrokerState Server World Db Docs →
    Race * BrokerState Server World Db Docs;
  server_read_resource :
    Server → string → CallContext → BrokerState Server World Db Docs →
    result McpError (list KernelResourceContents) * BrokerState Server World Db Docs;
  server_subscribe : Server → string → CallContext → World → result McpError () * World;
  server_unsubscribe : Server → string → CallContext → World → result McpError () * World;
}.

(** The binding table of the kernel's database. *)
Class BindingDb (Db : Type) := {
  get_context_binding : Db → ContextId → result string (option ContextToolBinding);
  upsert_context_binding : Db → ContextId → ContextToolBinding → result string Db;
}.

(** The block store that notifications and resources go to. *)
Class DocStore (Docs : Type) := {
  insert_notification_block_as :
    Docs → ContextId → option BlockId → NotificationPayload → string → Docs;
  insert_resource_block_as :
    Docs → ContextId → option BlockId → ResourcePayload → string → option BlockId * Docs;
}.

(** [kaish_glob::glob_match], and the shell that runs the script of a hook. *)
Class Kaish `{!JsonLib} := {
  glob_match : string → string → bool;
  kaish_program : string → McpHookPhase → KernelCallParams → CallContext → PhasePayload → HookProgram;
}.

(** The ids drawn for a call of the broker itself. *)
Class BrokerIds := { fresh_context : ContextId; fresh_session : uuid; fresh_kernel : uuid }.

Definition MAX_HOOK_DEPTH : nat := 4.

(** ** Visible names *)

Definition is_ascii_alphanumeric (c : ascii) : bool :=
  let v := byte_val c in
  (48 <=? v) && (v <=? 57) || (65 <=? v) && (v <=? 90) || (97 <=? v) && (v <=? 122).

(** One character of a tool name, and what it becomes: all its bytes make one underscore. *)
Definition clean_char (w : string) : string :=
  match w with
  | String c "" =>
      if is_ascii_alphanumeric c || bool_decide (c = "_"%char) || bool_decide (c = "-"%char) then w else "_"
  | _ => "_"
  end.

Definition clean_visible_tool_name (raw : string) : string :=
  let cleaned := concat_str (map clean_char (chars raw)) in
  if (128 <? String.length cleaned)%nat then str_take cleaned 128 else cleaned.

Section broker.
Context {json : JsonLib} {jtext : JsonText} {jvals : JsonValues} {blib : BlockLib} {uuids : UuidCrate}.
Context {Server World Db Docs : Type} {servers : McpServerLike Server World Db Docs} {bdb : BindingDb Db}
  {docstore : DocStore Docs} {kaish : Kaish} {bids : BrokerIds} {horder : HashOrder}.

Abbreviation Broker := (Broker (Server := Server) (World := World) (Db := Db) (Docs := Docs)).
Abbreviation call A := (method Broker McpError A).

Definition empty_hooks : HookTables :=
  {| ht_pre_call := []; ht_post_call := []; ht_on_error := []; ht_on_notification := []; ht_list_tools := [] |}.

Definition broker_new (w : World) : Broker := {|
  br_instances := ∅; br_bindings := ∅; br_policies := ∅; br_semaphores := ∅; br_permits := [];
  br_hooks := empty_hooks; br_documents := None; br_tool_snapshots := ∅; br_subscriptions := ∅;
  br_resource_parents := ∅; br_db := None; br_kj_dispatcher := false;
  br_enforce_unbound_deny := false; br_world := w;
|}.

Definition engage_unbound_deny : call () := m_modify (λ b, b <| br_enforce_unbound_deny := true |>).

(** A request to the world of the servers. *)
Definition on_world {A} (f : World → A * World) : call A := λ b,
  let '(a, w) := f (br_world b) in Some (Ok a, b <| br_world := w |>).

(** A call of a server, which may act on the broker. *)
Definition on_broker {A} (f : BrokerState Server World Db Docs → A * BrokerState Server World Db Docs) : call A :=
  λ b, let '(a, b') := f b in Some (Ok a, b').

(** [?] on a result. *)
Definition m_lift {A} (r : result McpError A) : call A := match r with Ok a => m_ret a | Err e => m_fail e end.

Definition system_for_context (c : ContextId) : CallContext :=
  call_context_new principal_system c fresh_session fresh_kernel.
Definition system : CallContext := system_for_context fresh_context.

(** ** Bindings *)

Definition binding (context_id : ContextId) : call (option ContextToolBinding) :=
  b ← m_get;
  match br_bindings b !! context_id with
  | Some x => m_ret (Some x)
  | None =>
      match br_db b with
      | None => m_ret None
      | Some db =>
          match get_context_binding db context_id with
          | Err _ => m_ret None
          | Ok None => m_ret None
          | Ok (Some loaded) =>
              m_modify (λ b, b <| br_bindings := <[context_id := loaded]> (br_bindings b) |>);;
              m_ret (Some loaded)
          end
      end
  end.

Definition binding_checked (context_id : ContextId) : call ContextToolBinding :=
  b ← m_get;
  match br_bindings b !! context_id with
  | Some x => m_ret x
  | None =>
      match br_db b with
      | None => m_ret binding_new
      | Some db =>
          match get_context_binding db context_id with
          | Err e => m_fail (EBindingUnavailable context_id e)
          | Ok (Some loaded) =>
              m_modify (λ b, b <| br_bindings := <[context_id := loaded]> (br_bindings b) |>);;
              m_ret loaded
          | Ok None => m_ret binding_new
          end
      end
  end.

Definition check_facade (context_id : ContextId) (facade : string) : call () :=
  x ← binding context_id;
  m_guard (allows (CFacade facade) (default binding_new x)) (EFacadeDenied facade).

Definition persist_binding (context_id : ContextId) (x : ContextToolBinding) : call () :=
  b ← m_get;
  match br_db b with
  | None => m_ret tt
  | Some db =>
      match upsert_context_binding db context_id x with
      | Ok db' => m_modify (λ b, b <| br_db := Some db' |>)
      | Err _ => m_ret tt
      end
  end.

(** ** Hooks *)

Definition hook_matches (params : KernelCallParams) (ctx : CallContext) (e : HookEntry) : bool :=
  match he_match_instance e with Some g => glob_match g (kp_instance params) | None => true end
  && match he_match_tool e with Some g => glob_match g (kp_tool params) | None => true end
  && match he_match_context e with Some c => bool_decide (c = cc_context_id ctx) | None => true end
  && match he_match_principal e with Some p => bool_decide (p = cc_principal_id ctx) | None => true end.

(** [(entry.priority, index)], ascending. *)
Definition entry_before (x y : nat * HookEntry) : Prop :=
  he_priority x.2 < he_priority y.2 ∨ he_priority x.2 = he_priority y.2 ∧ (x.1 ≤ y.1)%nat.
#[export] Instance entry_before_dec : RelDecision entry_before.
Proof. intros x y. unfold entry_before. apply _. Defined.

Definition in_order (l : list (nat * HookEntry)) : list HookEntry := snd <$> merge_sort entry_before l.
Definition enumerate {A} (l : list A) : list (nat * A) := zip (List.seq 0%nat (length l)) l.

Definition phase_table (t : HookTables) (phase : McpHookPhase) : list HookEntry :=
  match phase with
  | PreCall => ht_pre_call t
  | PostCall => ht_post_call t
  | OnError => ht_on_error t
  | OnNotification => ht_on_notification t
  | ListTools => ht_list_tools t
  end.

Definition matching (t : HookTables) (phase : McpHookPhase) (params : KernelCallParams) (ctx : CallContext) :
    list HookEntry :=
  in_order (filter (λ x, hook_matches params ctx x.2) (enumerate (phase_table t phase))).

(** [enter_hook_depth]: the depth of the body, in a scope if there is one. *)
Definition enter_hook_depth (depth : option nat) : result McpError (option nat) :=
  let next := S (default 0%nat depth) in
  if (MAX_HOOK_DEPTH <? next)%nat then Err (EHookRecursionLimit next)
  else Ok ((λ _, next) <$> depth).

Section pipeline.
(** [Broker::call_tool], as the body of a hook calls it. *)
Variable call_tool : option nat → KernelCallParams → CallContext → call KernelToolResult.

Fixpoint run_body (depth : option nat) (p : HookProgram) : call (result string ()) :=
  match p with
  | HDone r => m_ret r
  | HCall params ctx k => r ← m_try (call_tool depth params ctx); run_body depth (k r)
  end.

Definition run_kaish_hook (depth : option nat) (phase : McpHookPhase) (script : string)
    (params : KernelCallParams) (ctx : CallContext) (payload : PhasePayload) : call (result string ()) :=
  b ← m_get;
  if br_kj_dispatcher b then run_body depth (kaish_program script phase params ctx payload)
  else m_ret (Err "kaish hook requires Broker::set_kj_dispatcher; not wired").

Fixpoint evaluate_entries (depth : option nat) (phase : McpHookPhase) (params : KernelCallParams)
    (ctx : CallContext) (payload : PhasePayload) (entries : list HookEntry) : call PhaseOutcome :=
  match entries with
  | [] => m_ret PContinue
  | entry :: entries' =>
      match he_action entry with
      | HLog _ _ => evaluate_entries depth phase params ctx payload entries'
      | HDeny reason => m_ret (PDeny (he_id entry) reason)
      | HShortCircuit r => m_ret (PShortCircuit (he_id entry) r)
      | HInvoke body =>
          depth' ← m_lift (enter_hook_depth depth);
          r ← match body with
              | HBuiltin name hook =>
                  r ← run_body depth' (hook params ctx);
                  m_ret match r with
                        | Ok _ => Ok tt
                        | Err e => Err ("hook body `" +:+ name +:+ "` returned error: " +:+ e)
                        end
              | HKaish script => run_kaish_hook depth' phase script params ctx payload
              end;
          match r with
          | Ok _ => evaluate_entries depth phase params ctx payload entries'
          | Err reason => m_ret (PDeny (he_id entry) reason)
          end
      end
  end.

Definition evaluate_phase (depth : option nat) (phase : McpHookPhase) (params : KernelCallParams)
    (ctx : CallContext) (payload : PhasePayload) : call PhaseOutcome :=
  b ← m_get;
  evaluate_entries depth phase params ctx payload (matching (br_hooks b) phase params ctx).

(** ** The pipeline of a call *)

Definition run_on_error_then_err (depth : option nat) (params : KernelCallParams) (ctx : CallContext)
    (err : McpError) : call KernelToolResult :=
  r ← m_try (evaluate_phase depth OnError params ctx (PayloadError err));
  match r with
  | Ok PContinue => m_fail err
  | Ok (PShortCircuit _ result) => m_ret result
  | Ok (PDeny hook_id _) => m_fail (EDenied hook_id)
  | Err _ => m_fail err
  end.

(** [PostCall], after a result of the server or of a hook. *)
Definition then_post_call (depth : option nat) (params : KernelCallParams) (ctx : CallContext)
    (result : KernelToolResult) : call KernelToolResult :=
  o ← evaluate_phase depth PostCall params ctx (PayloadResult result);
  match o with
  | PContinue => m_ret result
  | PShortCircuit _ r2 => m_ret r2
  | PDeny hook_id _ => m_fail (EDenied hook_id)
  end.

Definition fit_result (policy : InstancePolicy) (result : KernelToolResult) : KernelToolResult :=
  let size := estimate_result_size result in
  if ip_max_result_bytes policy <? size
  then truncate_result_to_budget result (ip_max_result_bytes policy) size
  else result.

Definition call_server (depth : option nat) (server : Server) (policy : InstancePolicy)
    (params : KernelCallParams) (ctx : CallContext) : call KernelToolResult :=
  race ← on_broker (server_call_tool server depth params ctx);
  match race with
  | RReturned (Ok result) => then_post_call depth params ctx (fit_result policy result)
  | RReturned (Err e) => run_on_error_then_err depth params ctx e
  | RTimedOut =>
      run_on_error_then_err depth params ctx
        (EPolicy (PTimeout (kp_instance params) (ip_call_timeout_ms policy)))
  | RCancelled => run_on_error_then_err depth params ctx ECancelled
  end.

(** What runs while the permit is held. *)
Definition guarded_call (depth : option nat) (server : Server) (policy : InstancePolicy)
    (params : KernelCallParams) (ctx : CallContext) : call KernelToolResult :=
  o ← evaluate_phase depth PreCall params ctx PayloadNone;
  match o with
  | PContinue => call_server depth server policy params ctx
  | PShortCircuit _ result => then_post_call depth params ctx result
  | PDeny hook_id _ => m_fail (EDenied hook_id)
  end.

(** [try_acquire_owned], and the drop of the permit. *)
Definition try_acquire (instance : InstanceId) (policy : InstancePolicy) : call (option nat) :=
  b ← m_get;
  match br_semaphores b !! instance with
  | None => m_ret None
  | Some sem =>
      match br_permits b !! sem with
      | Some (S n) => m_modify (λ b, b <| br_permits := <[sem := n]> (br_permits b) |>);; m_ret (Some sem)
      | _ => m_fail (EPolicy (PConcurrencyCap instance (ip_max_concurrency policy)))
      end
  end.

Definition release (permit : option nat) : call () :=
  match permit with
  | None => m_ret tt
  | Some sem => m_modify (λ b, b <| br_permits := alter S sem (br_permits b) |>)
  end.

(** The permit is dropped however the call ends. *)
Definition with_permit {A} (instance : InstanceId) (policy : InstancePolicy) (f : call A) : call A :=
  permit ← try_acquire instance policy;
  r ← m_try f;
  release permit;;
  m_lift r.

Definition call_tool_inner (depth : option nat) (params : KernelCallParams) (ctx : CallContext) :
    call KernelToolResult :=
  b ← m_get;
  server ← match br_instances b !! kp_instance params with
           | Some server => m_ret server
           | None => m_fail (EInstanceNotFound (kp_instance params))
           end;
  x ← binding (cc_context_id ctx);
  m_guard match x with
          | Some x => allows_tool (kp_instance params) (kp_tool params) x
          | None => negb (br_enforce_unbound_deny b)
          end (ECapabilityDenied (kp_instance params) (kp_tool params));;
  b ← m_get;
  let policy := default policy_defaults (br_policies b !! kp_instance params) in
  with_permit (kp_instance params) policy (guarded_call depth server policy params ctx).
End pipeline.

(** [call_tool] opens the scope of the depth unless it runs in one. A body at depth [d]
    calls at depth [d], and none runs deeper than [MAX_HOOK_DEPTH]: as many rounds and one
    more are enough. *)
Fixpoint call_tool_fuel (fuel : nat) (depth : option nat) (params : KernelCallParams) (ctx : CallContext) :
    call KernelToolResult :=
  match fuel with
  | O => m_panic
  | S fuel' => call_tool_inner (call_tool_fuel fuel') (Some (default 0%nat depth)) params ctx
  end.

Definition broker_call_tool : option nat → KernelCallParams → CallContext → call KernelToolResult :=
  call_tool_fuel (S MAX_HOOK_DEPTH).

(** ** Notifications *)

Definition build_notification_synth (instance : InstanceId) (payload : NotificationPayload) : KernelCallParams := {|
  kp_instance := instance;
  kp_tool := "__notification." +:+ NotificationKind_as_str (note_kind payload);
  kp_arguments := json_of_notification payload;
|}.

(** Whether the hooks let a notification through; an evaluation that fails does. *)
Definition notification_passes (synth : KernelCallParams) (ctx : ContextId) : call bool :=
  r ← m_try (evaluate_phase broker_call_tool None OnNotification synth (system_for_context ctx) PayloadNone);
  m_ret match r with
        | Ok PContinue => true
        | Ok (PShortCircuit _ _) => false
        | Ok (PDeny _ _) => false
        | Err _ => true
        end.

Definition on_documents (f : Docs → Docs) : call () :=
  m_modify (λ b, b <| br_documents := f <$> br_documents b |>).

Definition emit_into_context (ctx : ContextId) (payload : NotificationPayload) (summary : string)
    (synth : KernelCallParams) : call () :=
  pass ← notification_passes synth ctx;
  if (pass : bool) then on_documents (λ docs, insert_notification_block_as docs ctx None payload summary)
  else m_ret tt.

Fixpoint for_each {A} (l : list A) (f : A → call ()) : call () :=
  match l with
  | [] => m_ret tt
  | x :: l' => f x;; for_each l' f
  end.

Definition emit_for_bindings (instance : InstanceId) (payload : NotificationPayload) : call () :=
  b ← m_get;
  match br_documents b with
  | None => m_ret tt
  | Some _ =>
      let contexts := (filter (λ x, is_allowed instance x.2) (hash_order (map_to_list (br_bindings b)))).*1 in
      let summary := notification_summary_line payload in
      let synth := build_notification_synth instance payload in
      for_each contexts (λ ctx, emit_into_context ctx payload summary synth)
  end.

Definition emit_for_context (ctx : ContextId) (instance : InstanceId) (payload : NotificationPayload) : call () :=
  b ← m_get;
  match br_documents b with
  | None => m_ret tt
  | Some _ =>
      emit_into_context ctx payload (notification_summary_line payload) (build_notification_synth instance payload)
  end.

Definition tools_payload (instance : InstanceId) (kind : NotificationKind) (tools : list string) :
    NotificationPayload := {|
  note_instance := instance; note_kind := kind; note_level := None; note_tools := tools;
  note_count := Some (Z.of_nat (length tools)); note_detail := None;
|}.
End broker.
