(* ===== verification/BrokerOps.v ===== *)
(** * The registry, bindings and listings of the broker ([kaijutsu-kernel/src/mcp/broker.rs])

    What changes the broker between calls: servers that come and go, bindings that change,
    the list of tools a context sees, resources and their subscriptions. *)

From S2P Require Import Prelude Text Tick Ids Track Cas Cell Block Hydrate MethodLogic Binding McpTypes Broker.

Section ops.
Context {json : JsonLib} {jtext : JsonText} {jvals : JsonValues} {blib : BlockLib} {uuids : UuidCrate}.
Context {Server World Db Docs : Type} {servers : McpServerLike Server World Db Docs} {bdb : BindingDb Db}
  {docstore : DocStore Docs} {kaish : Kaish} {bids : BrokerIds} {horder : HashOrder}.
Local Abbreviation Broker := (Broker (Server := Server) (World := World) (Db := Db) (Docs := Docs)).
Local Abbreviation call A := (method Broker McpError A).

(** ** Registry *)

Definition list_server_tools (server : Server) (ctx : CallContext) : call (list KernelTool) :=
  r ← on_world (server_list_tools server ctx); m_lift r.

(** [unwrap_or_default] *)
Definition or_empty {A} (f : call (list A)) : call (list A) :=
  r ← m_try f; m_ret match r with Ok l => l | Err _ => [] end.

Definition register_inner (server : Server) (policy : InstancePolicy) (emit_tool_added : bool) : call () :=
  let id := instance_id server in
  m_modify (λ b, b <| br_instances := <[id := server]> (br_instances b) |>);;
  m_modify (λ b, b <| br_policies := <[id := policy]> (br_policies b) |>);;
  m_modify (λ b, b <| br_semaphores := <[id := length (br_permits b)]> (br_semaphores b) |>
                   <| br_permits := br_permits b ++ [ip_max_concurrency policy] |>);;
  initial_tools ← or_empty (list_server_tools server system);
  m_modify (λ b, b <| br_tool_snapshots := <[id := initial_tools]> (br_tool_snapshots b) |>);;
  if emit_tool_added && bool_decide (initial_tools ≠ [])
  then emit_for_bindings id (tools_payload id ToolAdded (kt_name <$> initial_tools))
  else m_ret tt.

Definition register (server : Server) (policy : InstancePolicy) : call () := register_inner server policy true.
Definition register_silently (server : Server) (policy : InstancePolicy) : call () :=
  register_inner server policy false.

Definition teardown_subscriptions_for_instance (instance : InstanceId) (server : option Server) : call () :=
  b ← m_get;
  let to_teardown :=
    x ← hash_order (map_to_list (br_subscriptions b));
    y ← filter (λ y, y.1 = instance) (hash_order (elements x.2));
    [(x.1, y.2)] in
  m_modify (λ b, b <| br_subscriptions :=
    filter (λ x, x.2 ≠ ∅) ((λ s : gset (InstanceId * string), filter (λ y, y.1 ≠ instance) s) <$> br_subscriptions b) |>);;
  m_modify (λ b, b <| br_resource_parents := filter (λ x, x.1.1.2 ≠ instance) (br_resource_parents b) |>);;
  match server with
  | None => m_ret tt
  | Some server =>
      for_each to_teardown (λ x : ContextId * string,
        on_world (server_unsubscribe server x.2 (system_for_context x.1));; m_ret tt)
  end.

Definition unregister (id : InstanceId) : call () :=
  b ← m_get;
  let removed_tools := default [] (br_tool_snapshots b !! id) in
  m_modify (λ b, b <| br_tool_snapshots := delete id (br_tool_snapshots b) |>);;
  let server := br_instances b !! id in
  m_modify (λ b, b <| br_instances := delete id (br_instances b) |>);;
  m_modify (λ b, b <| br_policies := delete id (br_policies b) |>);;
  m_modify (λ b, b <| br_semaphores := delete id (br_semaphores b) |>);;
  teardown_subscriptions_for_instance id server;;
  teardown_subscriptions_for_instance id server;;
  if bool_decide (removed_tools = []) then m_ret tt
  else emit_for_bindings id (tools_payload id ToolRemoved (kt_name <$> removed_tools)).

Definition list_instances : call (list InstanceId) :=
  b ← m_get; m_ret (hash_order (map_to_list (br_instances b))).*1.

Definition policy_of (instance : InstanceId) : call (option InstancePolicy) :=
  b ← m_get; m_ret (br_policies b !! instance).

Definition update_policy (instance : InstanceId) (call_timeout_ms max_result_bytes : option Z) : call () :=
  b ← m_get;
  match br_policies b !! instance with
  | None => m_fail (EInstanceNotFound instance)
  | Some policy =>
      m_modify (λ b, b <| br_policies := <[instance := {|
        ip_call_timeout_ms := default (ip_call_timeout_ms policy) call_timeout_ms;
        ip_max_result_bytes := default (ip_max_result_bytes policy) max_result_bytes;
        ip_max_concurrency := ip_max_concurrency policy |}]> (br_policies b) |>)
  end.

Definition diff_tools (old new : list KernelTool) : list string * list string :=
  (kt_name <$> filter (λ t, kt_name t ∉ kt_name <$> old) new,
   kt_name <$> filter (λ t, kt_name t ∉ kt_name <$> new) old).

Definition handle_tools_changed (id : InstanceId) : call () :=
  b ← m_get;
  match br_instances b !! id with
  | None => m_ret tt
  | Some server =>
      new_tools ← or_empty (list_server_tools server system);
      b ← m_get;
      let old_tools := default [] (br_tool_snapshots b !! id) in
      m_modify (λ b, b <| br_tool_snapshots := <[id := new_tools]> (br_tool_snapshots b) |>);;
      let '(added, removed) := diff_tools old_tools new_tools in
      (if bool_decide (added = []) then m_ret tt else emit_for_bindings id (tools_payload id ToolAdded added));;
      (if bool_decide (removed = []) then m_ret tt else emit_for_bindings id (tools_payload id ToolRemoved removed))
  end.

(** ** Bindings *)

Definition binding_visible_tool_pairs (x : ContextToolBinding) (snapshots : gmap InstanceId (list KernelTool)) :
    gset ResolvedName :=
  list_to_set (
    instance ← candidate_instances x;
    kt ← filter (λ kt, allows_tool instance (kt_name kt) x) (default [] (snapshots !! instance));
    [(instance, kt_name kt)]).

Definition group_pairs_by_instance (pairs : gset ResolvedName) : list (InstanceId * list string) :=
  (λ instance, (instance, merge_sort str_le ((filter (λ p, p.1 = instance) (elements pairs)).*2))) <$>
    merge_sort str_le (remove_dups (elements pairs).*1).

Definition emit_binding_diff (context_id : ContextId) (old_pairs new_pairs : gset ResolvedName) : call () :=
  for_each (group_pairs_by_instance (new_pairs ∖ old_pairs)) (λ x,
    emit_for_context context_id x.1 (tools_payload x.1 ToolAdded x.2));;
  for_each (group_pairs_by_instance (old_pairs ∖ new_pairs)) (λ x,
    emit_for_context context_id x.1 (tools_payload x.1 ToolRemoved x.2)).

Definition set_binding (context_id : ContextId) (x : ContextToolBinding) : call () :=
  b ← m_get;
  let old := default binding_new (br_bindings b !! context_id) in
  let old_pairs := binding_visible_tool_pairs old (br_tool_snapshots b) in
  let new_pairs := binding_visible_tool_pairs x (br_tool_snapshots b) in
  m_modify (λ b, b <| br_bindings := <[context_id := x]> (br_bindings b) |>);;
  persist_binding context_id x;;
  emit_binding_diff context_id old_pairs new_pairs.

Definition bind (context_id : ContextId) (instance : InstanceId) : call () :=
  x ← binding context_id; set_binding context_id (allow instance (default binding_new x)).
Definition unbind (context_id : ContextId) (instance : InstanceId) : call () :=
  x ← binding context_id; set_binding context_id (revoke instance (default binding_new x)).

Definition clear_binding (context_id : ContextId) : call () :=
  b ← m_get;
  m_modify (λ b, b <| br_subscriptions := delete context_id (br_subscriptions b) |>);;
  for_each (hash_order (elements (default ∅ (br_subscriptions b !! context_id)))) (λ y : InstanceId * string,
    b ← m_get;
    match br_instances b !! y.1 with
    | None => m_ret tt
    | Some server => on_world (server_unsubscribe server y.2 (system_for_context context_id));; m_ret tt
    end);;
  m_modify (λ b, b <| br_resource_parents := filter (λ x, x.1.1.1 ≠ context_id) (br_resource_parents b) |>);;
  m_modify (λ b, b <| br_bindings := delete context_id (br_bindings b) |>).

(** ** The tools a context sees *)

(** One tool through the hooks, in order: the first matching [Deny] hides it. *)
Fixpoint tool_stays (entries : list HookEntry) (ctx : CallContext) (kt : KernelTool) : bool :=
  match entries with
  | [] => true
  | entry :: entries' =>
      let synth := {| kp_instance := kt_instance kt; kp_tool := kt_name kt; kp_arguments := json_null |} in
      if hook_matches synth ctx entry then
        match he_action entry with
        | HDeny _ => false
        | _ => tool_stays entries' ctx kt
        end
      else tool_stays entries' ctx kt
  end.

Definition apply_list_tools_filter (ctx : CallContext) (tools : list KernelTool) : call (list KernelTool) :=
  b ← m_get;
  m_ret (filter (λ kt, tool_stays (in_order (enumerate (ht_list_tools (br_hooks b)))) ctx kt) tools).

Definition count_name (name : string) (all : list KernelTool) : nat := length (filter (λ kt, kt_name kt = name) all).

Definition resolution (all : list KernelTool) (kt : KernelTool) : ResolvedName * string :=
  let raw := if (1 <? count_name (kt_name kt) all)%nat
             then kt_instance kt +:+ "__" +:+ kt_name kt else kt_name kt in
  ((kt_instance kt, kt_name kt), clean_visible_tool_name raw).

(** Gather the advertised tools, keeping those the binding allows. *)
Fixpoint gather (x : ContextToolBinding) (ctx : CallContext) (servers : list Server) : call (list KernelTool) :=
  match servers with
  | [] => m_ret []
  | server :: servers' =>
      tools ← list_server_tools server ctx;
      rest ← gather x ctx servers';
      m_ret (filter (λ kt, allows_tool (kt_instance kt) (kt_name kt) x) tools ++ rest)
  end.

(** The name under which a pair is known. *)
Definition name_of (names : gmap string ResolvedName) (key : ResolvedName) : option string :=
  fst <$> head (filter (λ e, e.2 = key) (hash_order (map_to_list names))).

Definition servers_for (x : ContextToolBinding) (b : Broker) : list Server :=
  if all_instances x then (hash_order (map_to_list (br_instances b))).*2
  else omap (λ id, br_instances b !! id) (candidate_instances x).

Definition list_visible_tools (context_id : ContextId) (ctx : CallContext) : call (list (string * KernelTool)) :=
  x ← binding context_id;
  let x := default binding_new x in
  b ← m_get;
  all ← gather x ctx (servers_for x b);
  all ← apply_list_tools_filter ctx all;
  let x' := apply_resolutions (resolution all <$> all) x in
  m_modify (λ b, b <| br_bindings := <[context_id := x']> (br_bindings b) |>);;
  m_ret (omap (λ kt, (λ visible_name, (visible_name, kt)) <$> name_of (name_map x') (kt_instance kt, kt_name kt)) all).

(** ** Resources *)

Definition resource_payload_from_contents (instance : InstanceId) (uri : string)
    (chunk : option KernelResourceContents) (parent : option BlockId) : ResourcePayload :=
  match chunk with
  | Some (RText _ mime_type text) => {|
      rsrc_instance := instance; rsrc_uri := uri; rsrc_mime_type := mime_type;
      rsrc_size := Some (str_len text); rsrc_text := Some text; rsrc_blob_base64 := None;
      rsrc_parent_resource_block_id := parent |}
  | Some (RBlob _ mime_type blob_base64) => {|
      rsrc_instance := instance; rsrc_uri := uri; rsrc_mime_type := mime_type;
      rsrc_size := Some (Z.min (str_len blob_base64 * 3) u64_max / 4); rsrc_text := None;
      rsrc_blob_base64 := Some blob_base64; rsrc_parent_resource_block_id := parent |}
  | None => {|
      rsrc_instance := instance; rsrc_uri := uri; rsrc_mime_type := None; rsrc_size := Some 0;
      rsrc_text := Some ""; rsrc_blob_base64 := None; rsrc_parent_resource_block_id := parent |}
  end.

Definition resolve_instance (instance : InstanceId) : call Server :=
  b ← m_get;
  match br_instances b !! instance with Some server => m_ret server | None => m_fail (EInstanceNotFound instance) end.

Definition insert_resource (ctx : ContextId) (parent : option BlockId) (payload : ResourcePayload) :
    call (option BlockId) := λ b,
  match br_documents b with
  | None => Some (Ok None, b)
  | Some docs =>
      let '(id, docs') := insert_resource_block_as docs ctx parent payload (resource_summary_line payload) in
      Some (Ok id, b <| br_documents := Some docs' |>)
  end.

Definition read_resource (instance : InstanceId) (uri : string) (ctx : CallContext) :
    call (list KernelResourceContents) :=
  server ← resolve_instance instance;
  r ← on_broker (server_read_resource server uri ctx);
  result ← m_lift r;
  id ← insert_resource (cc_context_id ctx) None (resource_payload_from_contents instance uri (head result) None);
  match id with
  | Some block_id =>
      m_modify (λ b, b <| br_resource_parents :=
        <[(cc_context_id ctx, instance, uri) := block_id]> (br_resource_parents b) |>)
  | None => m_ret tt
  end;;
  m_ret result.

Definition subscribe (instance : InstanceId) (uri : string) (ctx : CallContext) : call () :=
  server ← resolve_instance instance;
  b ← m_get;
  (if bool_decide (is_Some (br_resource_parents b !! (cc_context_id ctx, instance, uri))) then m_ret tt
   else read_resource instance uri ctx;; m_ret tt);;
  r ← on_world (server_subscribe server uri ctx);
  m_lift r;;
  m_modify (λ b, b <| br_subscriptions :=
    <[cc_context_id ctx := {[(instance, uri)]} ∪ default ∅ (br_subscriptions b !! cc_context_id ctx)]>
      (br_subscriptions b) |>).

Definition unsubscribe (instance : InstanceId) (uri : string) (ctx : CallContext) : call () :=
  server ← resolve_instance instance;
  r ← on_world (server_unsubscribe server uri ctx);
  m_lift r;;
  m_modify (λ b, b <| br_subscriptions :=
    alter (λ s, s ∖ {[(instance, uri)]}) (cc_context_id ctx) (br_subscriptions b) |>);;
  m_modify (λ b, b <| br_resource_parents :=
    delete (cc_context_id ctx, instance, uri) (br_resource_parents b) |>).

(** Who is to hear of a resource, and under which block. *)
Definition flush_targets (id : InstanceId) (uri : string) (b : Broker) : list (ContextId * BlockId) :=
  omap (λ x : ContextId * gset (InstanceId * string),
      if bool_decide ((id, uri) ∈ x.2)
      then (λ parent, (x.1, parent)) <$> br_resource_parents b !! (x.1, id, uri)
      else None)
    (hash_order (map_to_list (br_subscriptions b))).

Definition failed_read_payload (id : InstanceId) (detail : string) : NotificationPayload := {|
  note_instance := id; note_kind := NLog; note_level := Some LogWarn; note_tools := [];
  note_count := None; note_detail := Some detail;
|}.

Definition handle_resource_flush (error_text : McpError → string) (id : InstanceId) (uri : string) : call () :=
  b ← m_get;
  match br_instances b !! id, flush_targets id uri b, br_documents b with
  | None, _, _ | _, [], _ | _, _, None => m_ret tt
  | Some server, targets, Some _ =>
      r ← on_broker (server_read_resource server uri system);
      match r with
      | Ok result =>
          let synth := {| kp_instance := id; kp_tool := "__notification.resource_updated";
                          kp_arguments := json_of_uri uri |} in
          for_each targets (λ x : ContextId * BlockId,
            pass ← notification_passes synth x.1;
            if (pass : bool) then
              insert_resource x.1 (Some x.2) (resource_payload_from_contents id uri (head result) (Some x.2));;
              m_ret tt
            else m_ret tt)
      | Err e =>
          let detail := "re-read of " +:+ uri +:+ " failed: " +:+ error_text e in
          let synth := {| kp_instance := id; kp_tool := "__notification.log";
                          kp_arguments := json_of_failed_read detail |} in
          for_each targets (λ x : ContextId * BlockId,
            pass ← notification_passes synth x.1;
            if (pass : bool) then
              let payload := failed_read_payload id detail in
              on_documents (λ docs, insert_notification_block_as docs x.1 (Some x.2) payload
                                      (notification_summary_line payload))
            else m_ret tt)
      end
  end.
End ops.
