(* ===== verification/BrokerCalls.v ===== *)
(** * Tool calls end, and reach a server only where they may *)

From S2P Require Import Prelude MethodLogic Text Tick Ids Track Cas Cell Block Hydrate Binding McpTypes Broker.

Section calls.
Context {json : JsonLib} {jtext : JsonText} {jvals : JsonValues} {blib : BlockLib} {uuids : UuidCrate}.
Context {Server World Db Docs : Type} {servers : McpServerLike Server World Db Docs} {bdb : BindingDb Db}
  {docstore : DocStore Docs} {kaish : Kaish} {bids : BrokerIds} {horder : HashOrder}.
Local Abbreviation Broker := (Broker (Server := Server) (World := World) (Db := Db) (Docs := Docs)).
Local Abbreviation call A := (method Broker McpError A).
Implicit Types (b : Broker) (params : KernelCallParams) (ctx : CallContext) (depth : option nat).

(** ** Termination

    Two methods agree when both run to an end, the same one. That a call agrees with itself
    under any larger fuel says that it ends and that the fuel is enough. *)

Definition agree {A} (m m' : call A) : Prop := ∀ b, m b ≠ None ∧ m' b = m b.
Abbreviation runs m := (agree m m).

Lemma agree_ret {A} (a : A) : runs (m_ret a).
Proof. done. Qed.
Lemma agree_fail {A} e : runs (m_fail e : call A).
Proof. done. Qed.
Lemma agree_bind {A B} (m m' : call A) (k k' : A → call B) :
  agree m m' → (∀ a, agree (k a) (k' a)) → agree (m ≫= k) (m' ≫= k').
Proof.
  intros Hm Hk b. unfold mbind, method_bind, m_bind. destruct (Hm b) as [Hn ->].
  destruct (m b) as [[[a|e] b']|]; [apply Hk|done|done].
Qed.
Lemma agree_try {A} (m m' : call A) : agree m m' → agree (m_try m) (m_try m').
Proof. intros Hm b. unfold m_try. destruct (Hm b) as [Hn ->]. by destruct (m b) as [[??]|]. Qed.
Lemma agree_lift {A} (r : result McpError A) : runs (m_lift r).
Proof. by destruct r. Qed.
Lemma agree_get : runs (m_get : call Broker).
Proof. done. Qed.
Lemma agree_modify f : runs (m_modify f : call ()).
Proof. done. Qed.
Lemma agree_guard c e : runs (m_guard c e : call ()).
Proof. by destruct c. Qed.
Lemma agree_on_world {A} (f : World → A * World) : runs (on_world f : call A).
Proof. intros b. unfold on_world. by destruct (f _). Qed.
Lemma agree_on_broker {A} (f : Broker → A * Broker) : runs (on_broker f : call A).
Proof. intros b. unfold on_broker. by destruct (f _). Qed.

Create HintDb runs.
Hint Resolve agree_ret agree_fail agree_try agree_lift agree_get agree_modify agree_guard agree_on_world agree_on_broker : runs.
Ltac runs := repeat (apply agree_bind; [by auto with runs|intros ?]); auto with runs.

Lemma agree_lift_bind {A B} (r : result McpError A) (k k' : A → call B) :
  (∀ a, r = Ok a → agree (k a) (k' a)) → agree (m_lift r ≫= k) (m_lift r ≫= k').
Proof. intros Hk. destruct r as [a|e]; [|done]. exact (Hk a eq_refl). Qed.

Lemma agree_binding c : runs (binding c : call _).
Proof.
  unfold binding. runs. destruct (_ !! _); runs. destruct (br_db _); runs.
  destruct (get_context_binding _ _) as [[]|]; runs.
Qed.
Hint Resolve agree_binding : runs.

Section fuel.
Variables call_tool call_tool' : option nat → KernelCallParams → CallContext → call KernelToolResult.

Definition agree_at depth : Prop := ∀ params ctx, agree (call_tool depth params ctx) (call_tool' depth params ctx).

Lemma agree_body depth p : agree_at depth → agree (run_body call_tool depth p) (run_body call_tool' depth p).
Proof. intros Hd. induction p as [r|params ctx k IH]; cbn [run_body]; runs. Qed.

(** The bodies of the hooks of a phase run one deeper, if they run. *)
Definition agree_inside depth : Prop := ∀ depth', enter_hook_depth depth = Ok depth' → agree_at depth'.

Lemma agree_kaish depth phase script params ctx payload : agree_at depth →
  agree (run_kaish_hook call_tool depth phase script params ctx payload)
    (run_kaish_hook call_tool' depth phase script params ctx payload).
Proof.
  intros Hd. unfold run_kaish_hook. runs. destruct (br_kj_dispatcher _); [by apply agree_body|runs].
Qed.

Lemma agree_entries depth phase params ctx payload entries : agree_inside depth →
  agree (evaluate_entries call_tool depth phase params ctx payload entries)
    (evaluate_entries call_tool' depth phase params ctx payload entries).
Proof.
  intros Hd. induction entries as [|e entries IH]; cbn [evaluate_entries]; [runs|].
  destruct (he_action e) as [body| | |]; [|runs..|done].
  apply agree_lift_bind. intros depth' Hin. apply Hd in Hin. apply agree_bind.
  - destruct body; [apply agree_bind; [by apply agree_body|runs]|by apply agree_kaish].
  - intros [u|reason]; [done|runs].
Qed.

Lemma agree_phase depth phase params ctx payload : agree_inside depth →
  agree (evaluate_phase call_tool depth phase params ctx payload)
    (evaluate_phase call_tool' depth phase params ctx payload).
Proof. intros Hd. unfold evaluate_phase. runs. by apply agree_entries. Qed.

Lemma agree_on_error depth params ctx err : agree_inside depth →
  agree (run_on_error_then_err call_tool depth params ctx err) (run_on_error_then_err call_tool' depth params ctx err).
Proof.
  intros Hd. unfold run_on_error_then_err. apply agree_bind; [by apply agree_try, agree_phase|].
  intros [[]|]; runs.
Qed.

Lemma agree_post depth params ctx r : agree_inside depth →
  agree (then_post_call call_tool depth params ctx r) (then_post_call call_tool' depth params ctx r).
Proof. intros Hd. unfold then_post_call. apply agree_bind; [by apply agree_phase|]. intros []; runs. Qed.

Lemma agree_with_permit {A} instance policy (f f' : call A) :
  agree f f' → agree (with_permit instance policy f) (with_permit instance policy f').
Proof.
  intros Hf. unfold with_permit, try_acquire, release. apply agree_bind.
  - apply agree_bind; [apply agree_get|]. intros b0. destruct (br_semaphores _ !! _); [|runs].
    destruct (br_permits _ !! _) as [[]|]; runs.
  - intros permit. apply agree_bind; [by apply agree_try|]. intros r. apply agree_bind; [destruct permit|]; runs.
Qed.

Lemma agree_call_inner depth params ctx : agree_inside depth →
  agree (call_tool_inner call_tool depth params ctx) (call_tool_inner call_tool' depth params ctx).
Proof.
  intros Hd. unfold call_tool_inner. apply agree_bind; [runs|]. intros b0.
  apply agree_bind; [destruct (br_instances _ !! _); runs|]. intros server. runs. apply agree_with_permit.
  unfold guarded_call. apply agree_bind; [by apply agree_phase|]. intros []; [|by apply agree_post|runs].
  unfold call_server. apply agree_bind; [runs|].
  intros [| |[r|e]]; [by apply agree_on_error..|by apply agree_post|by apply agree_on_error].
Qed.
End fuel.

(** Bodies at depth [d] call at depth [d]; what is left to the limit bounds the fuel. *)
Lemma agree_fuel fuel : ∀ fuel' d, (MAX_HOOK_DEPTH - d < fuel)%nat → (MAX_HOOK_DEPTH - d < fuel')%nat →
  agree_at (call_tool_fuel fuel) (call_tool_fuel fuel') (Some d).
Proof.
  induction fuel as [|fuel IH]; intros fuel' d Hf Hf' params ctx; [lia|].
  destruct fuel' as [|fuel']; [lia|]. cbn [call_tool_fuel from_option id].
  apply agree_call_inner. intros depth'. unfold enter_hook_depth. cbn [from_option id]. cbn zeta.
  destruct (Nat.ltb_spec MAX_HOOK_DEPTH (S d)); [done|]. intros [= <-] params' ctx'. apply IH; lia.
Qed.

Lemma agree_call fuel depth : (MAX_HOOK_DEPTH < fuel)%nat →
  agree_at broker_call_tool (call_tool_fuel fuel) depth.
Proof.
  intros Hf params ctx. unfold broker_call_tool. destruct depth as [d|]; [apply agree_fuel; lia|].
  destruct fuel as [|fuel]; [lia|].
  exact (agree_fuel (S MAX_HOOK_DEPTH) (S fuel) 0%nat ltac:(lia) ltac:(lia) params ctx).
Qed.

Lemma phase_runs depth phase params ctx payload : runs (evaluate_phase broker_call_tool depth phase params ctx payload).
Proof. apply agree_phase. intros depth' _. apply (agree_call (S MAX_HOOK_DEPTH)). lia. Qed.

(** C34: a call ends, whatever the hooks, when the servers answer, are cancelled or time out:
    in any state, at any depth, with hooks whose bodies call tools that run the same hooks, the call returns or fails, as does the evaluation of
    a phase; the bound on the depth of hooks is what it takes, and any larger fuel gives the
    same end. A body one deeper than the bound is refused. *)
Theorem call_terminates depth params ctx b :
  (∃ r b', broker_call_tool depth params ctx b = Some (r, b') ∧
    ∀ fuel, (MAX_HOOK_DEPTH < fuel)%nat → call_tool_fuel fuel depth params ctx b = Some (r, b')) ∧
  (∀ phase payload, evaluate_phase broker_call_tool depth phase params ctx payload b ≠ None) ∧
  (∀ d, enter_hook_depth (Some d) =
     if decide (d < MAX_HOOK_DEPTH)%nat then Ok (Some (S d)) else Err (EHookRecursionLimit (S d))).
Proof.
  split_and!.
  - destruct (agree_call (S MAX_HOOK_DEPTH) depth ltac:(lia) params ctx b) as [Hn _].
    destruct (broker_call_tool depth params ctx b) as [[r b']|] eqn:E; [|done]. exists r, b'. split; [done|].
    intros fuel Hf. destruct (agree_call fuel depth Hf params ctx b) as [_ ->]. done.
  - intros phase payload. apply phase_runs.
  - intros d. unfold enter_hook_depth. cbn [from_option id]. cbn zeta.
    destruct (Nat.ltb_spec MAX_HOOK_DEPTH (S d)); case_decide; try lia; done.
Qed.
End calls.

(** * A tool call reaches a server only where a binding allows it *)

Section gate.
Context {json : JsonLib} {jtext : JsonText} {jvals : JsonValues} {blib : BlockLib} {uuids : UuidCrate}.
Context {Server World Db Docs : Type} {servers : McpServerLike Server World Db Docs} {bdb : BindingDb Db}
  {docstore : DocStore Docs} {kaish : Kaish} {bids : BrokerIds} {horder : HashOrder}.
Local Abbreviation Broker := (Broker (Server := Server) (World := World) (Db := Db) (Docs := Docs)).
Local Abbreviation call A := (method Broker McpError A).
Implicit Types (b : Broker) (params : KernelCallParams) (ctx : CallContext) (depth : option nat) (w : World).

(** The binding of a context, cached or in the database. *)
Definition binding_of b (c : ContextId) : option ContextToolBinding :=
  match br_bindings b !! c with
  | Some x => Some x
  | None => db ← br_db b; match get_context_binding db c with Ok o => o | Err _ => None end
  end.

Definition permitted b params ctx : Prop :=
  match binding_of b (cc_context_id ctx) with
  | Some x => allows_tool (kp_instance params) (kp_tool params) x
  | None => br_enforce_unbound_deny b = false
  end.

#[export] Instance permitted_dec b params ctx : Decision (permitted b params ctx).
Proof. unfold permitted. destruct (binding_of _ _); apply _. Defined.

(** Everything but the cached bindings and the world of the servers. *)
Definition rest b :=
  (br_instances b, br_policies b, br_semaphores b, br_permits b, br_hooks b, br_documents b,
   br_tool_snapshots b, br_subscriptions b, br_resource_parents b, br_db b, br_kj_dispatcher b,
   br_enforce_unbound_deny b).

(** At most a binding of the database is cached. *)
Definition cached b b' : Prop :=
  rest b' = rest b ∧ (∀ c, binding_of b' c = binding_of b c) ∧ br_world b' = br_world b.

(** ** What a call does

    The specification of a call: the gate, the permit, what the bodies of the hooks call,
    the server once if at all, what later bodies call, the permit given back. *)

Definition policy_for b params : InstancePolicy := default policy_defaults (br_policies b !! kp_instance params).

Definition permit_taken (instance : InstanceId) b (permit : option nat) b' : Prop :=
  match br_semaphores b !! instance with
  | None => permit = None ∧ b' = b
  | Some sem => ∃ n, br_permits b !! sem = Some (S n) ∧ permit = Some sem ∧
      b' = b <| br_permits := <[sem := n]> (br_permits b) |>
  end.

Definition give_back (permit : option nat) b : Broker :=
  match permit with
  | None => b
  | Some sem => b <| br_permits := alter S sem (br_permits b) |>
  end.

Definition admitted params ctx b server permit b' : Prop :=
  br_instances b !! kp_instance params = Some server ∧ permitted b params ctx ∧
  ∃ b1, cached b b1 ∧ permit_taken (kp_instance params) b1 permit b'.

(** The refusals of the gate. *)
Definition no_permit b params : Prop :=
  match br_semaphores b !! kp_instance params with
  | Some sem => br_permits b !! sem = Some 0%nat ∨ br_permits b !! sem = None
  | None => False
  end.

Definition refused params ctx b : Prop :=
  br_instances b !! kp_instance params = None ∨ ¬ permitted b params ctx ∨ no_permit b params.

Inductive call_run : nat → KernelCallParams → CallContext → Broker → Broker → Prop :=
  | run_refused d params ctx b b' : refused params ctx b → cached b b' → call_run d params ctx b b'
  | run_answered d params ctx b server permit b1 b2 :
      admitted params ctx b server permit b1 → bodies d b1 b2 →
      call_run d params ctx b (give_back permit b2)
  | run_served d params ctx b server permit b1 b2 race b3 b4 :
      admitted params ctx b server permit b1 → bodies d b1 b2 →
      server_call_tool server (Some d) params ctx b2 = (race, b3) → bodies d b3 b4 →
      call_run d params ctx b (give_back permit b4)
(** The calls of the bodies of the hooks of a call at depth [d], one deeper. *)
with bodies : nat → Broker → Broker → Prop :=
  | bodies_done d b : bodies d b b
  | bodies_call d params ctx b b1 b2 : (d < MAX_HOOK_DEPTH)%nat →
      call_run (S d) params ctx b b1 → bodies d b1 b2 → bodies d b b2.

Scheme call_run_mut := Minimality for call_run Sort Prop
  with bodies_mut := Minimality for bodies Sort Prop.

#[local] Instance bodies_preorder d : PreOrder (bodies d).
Proof.
  split; [intros b; constructor|]. intros b1 b2 b3 H12 H23.
  induction H12 as [|d params ctx b b1 b2 Hd Hc _ IH]; [done|]. eapply bodies_call; [done..|by apply IH].
Qed.

(** A server outside the kernel acts on its world alone. *)
Definition answers_outside (server : Server) (f : KernelCallParams → CallContext → World → Race * World) : Prop :=
  ∀ depth params ctx b, server_call_tool server depth params ctx b =
    let '(race, w) := f params ctx (br_world b) in (race, b <| br_world := w |>).

Definition all_outside b : Prop :=
  ∀ id server, br_instances b !! id = Some server → ∃ f, answers_outside server f.

(** One call of a registered server for a context that may make it. *)
Definition served b w w' : Prop :=
  ∃ params ctx server f race, br_instances b !! kp_instance params = Some server ∧ permitted b params ctx ∧
    answers_outside server f ∧ f params ctx w = (race, w').

(** What a call of servers outside the kernel may change. *)
Definition frame b b' : Prop :=
  rest b' = rest b ∧ (∀ c, binding_of b' c = binding_of b c) ∧ rtc (served b) (br_world b) (br_world b').

Lemma permitted_frame b b' params ctx : br_enforce_unbound_deny b' = br_enforce_unbound_deny b →
  (∀ c, binding_of b' c = binding_of b c) → permitted b' params ctx ↔ permitted b params ctx.
Proof. intros He Hb. unfold permitted. by rewrite Hb, He. Qed.

Lemma served_frame b b' w w' : br_instances b' = br_instances b →
  br_enforce_unbound_deny b' = br_enforce_unbound_deny b →
  (∀ c, binding_of b' c = binding_of b c) → served b' w w' → served b w w'.
Proof.
  intros Hi He Hb (params&ctx&server&f&race&H1&H2&H3). exists params, ctx, server, f, race.
  rewrite (permitted_frame b b') in H2 by done. by rewrite <- Hi.
Qed.

#[local] Instance frame_preorder : PreOrder frame.
Proof.
  split.
  - intros b. by split_and!.
  - intros b1 b2 b3 (Hr&Hb&Hw) (Hr'&Hb'&Hw'). split_and!; [congruence|intros; by rewrite Hb'|].
    etrans; [done|]. unfold rest in Hr. injection Hr as Hi _ _ _ _ _ _ _ _ _ _ He.
    clear -Hi He Hb Hw'. induction Hw' as [|w w' w'' Hs _ IH]; [done|]. eapply rtc_l; [|done].
    by eapply served_frame.
Qed.

Lemma cached_frame b b' : cached b b' → frame b b'.
Proof. intros (Hr&Hb&Hw). split_and!; [done..|by rewrite Hw]. Qed.

Lemma all_outside_frame b b' : frame b b' → all_outside b → all_outside b'.
Proof. intros (Hr&_) Ha. unfold rest in Hr. injection Hr as Hi _ _ _ _ _ _ _ _ _ _ _. unfold all_outside. by rewrite Hi. Qed.

(** Taking a permit and giving it back. *)
Lemma permit_back (permits : list nat) sem n :
  permits !! sem = Some (S n) → alter S sem (<[sem:=n]> permits) = permits.
Proof.
  intros Ep. apply list_eq. intros i. destruct (decide (i = sem)) as [->|Hne].
  - rewrite list_lookup_alter_eq, list_lookup_insert_eq by (by eapply lookup_lt_Some). by rewrite Ep.
  - by rewrite list_lookup_alter_ne, list_lookup_insert_ne by done.
Qed.

(** The bracket of a permit around what keeps a frame. *)
Lemma bracket_frame instance b permit b1 b2 :
  permit_taken instance b permit b1 → frame b1 b2 → frame b (give_back permit b2).
Proof.
  unfold permit_taken. destruct (br_semaphores b !! instance) as [sem|]; [|by intros [-> ->]].
  intros (k&Hk&->&->) (Hr&Hb&Hw). split_and!; [|exact Hb|exact Hw].
  unfold rest in *. cbn in *. injection Hr. intros. cbn.
  assert (alter S sem (br_permits b2) = br_permits b) as -> by (rewrite <- (permit_back (br_permits b) sem k Hk); by f_equal).
  congruence.
Qed.

Lemma taken_frame instance b permit b1 : permit_taken instance b permit b1 →
  br_instances b1 = br_instances b ∧ br_enforce_unbound_deny b1 = br_enforce_unbound_deny b ∧
  ∀ c, binding_of b1 c = binding_of b c.
Proof.
  unfold permit_taken. destruct (br_semaphores b !! instance); [intros (k&_&_&->)|intros [_ ->]]; done.
Qed.

Lemma admitted_bracket params ctx b server permit b1 b2 :
  admitted params ctx b server permit b1 → (all_outside b1 → frame b1 b2) → all_outside b →
  frame b (give_back permit b2).
Proof.
  intros (_&_&b0&Hc&Ht) Hf Ha. etrans; [by apply cached_frame|]. eapply bracket_frame; [exact Ht|]. apply Hf.
  destruct (taken_frame _ _ _ _ Ht) as (Hi&_). unfold all_outside. rewrite Hi.
  exact (all_outside_frame b b0 (cached_frame b b0 Hc) Ha).
Qed.

Lemma admitted_may params ctx b server permit b1 : admitted params ctx b server permit b1 →
  br_instances b1 !! kp_instance params = Some server ∧ permitted b1 params ctx.
Proof.
  intros (Hs&Hp&b0&(Hr&Hb&_)&Ht). destruct (taken_frame _ _ _ _ Ht) as (Hi&He&Hb1).
  unfold rest in Hr. injection Hr as Hi0 _ _ _ _ _ _ _ _ _ _ He0. split; [by rewrite Hi, Hi0|].
  apply (permitted_frame b); [congruence|intros c; by rewrite Hb1|done].
Qed.

Lemma served_step server d params ctx b race b' : server_call_tool server d params ctx b = (race, b') →
  br_instances b !! kp_instance params = Some server → permitted b params ctx → all_outside b → frame b b'.
Proof.
  intros Hc Hs Hp Ha. destruct (Ha _ _ Hs) as [f Hf]. rewrite Hf in Hc.
  destruct (f params ctx (br_world b)) as [race' w] eqn:E. injection Hc as <- <-.
  split_and!; [done..|]. apply rtc_once. by exists params, ctx, server, f, race'.
Qed.

Lemma run_frame d params ctx b b' : call_run d params ctx b b' → all_outside b → frame b b'.
Proof.
  apply (call_run_mut (λ _ _ _ b b', all_outside b → frame b b') (λ _ b b', all_outside b → frame b b'));
    clear d params ctx b b'.
  - intros d params ctx b b' _ Hc _. by apply cached_frame.
  - intros d params ctx b server permit b1 b2 Hadm _ IH. by apply (admitted_bracket params ctx b server permit b1 b2).
  - intros d params ctx b server permit b1 b2 race b3 b4 Hadm _ IH1 Hc _ IH2.
    apply (admitted_bracket params ctx b server permit b1 b4 Hadm). intros Ha1.
    specialize (IH1 Ha1). destruct (admitted_may _ _ _ _ _ _ Hadm) as [Hs Hp].
    pose proof (all_outside_frame _ _ IH1 Ha1) as Ha2. pose proof IH1 as (Hr&Hb&_).
    unfold rest in Hr. injection Hr as Hi _ _ _ _ _ _ _ _ _ _ He.
    assert (frame b2 b3) as Hf.
    { apply (served_step _ _ _ _ _ _ _ Hc); [by rewrite Hi|by apply (permitted_frame b1)|done]. }
    etrans; [exact IH1|]. etrans; [exact Hf|]. apply IH2. by apply (all_outside_frame b2).
  - reflexivity.
  - intros d params ctx b b1 b2 _ _ IH1 _ IH2 Ha. specialize (IH1 Ha). etrans; [exact IH1|].
    apply IH2. by apply (all_outside_frame b).
Qed.

(** ** The broker implements it *)

Lemma binding_spec c b : ∃ b', binding c b = Some (Ok (binding_of b c), b') ∧ cached b b'.
Proof.
  unfold binding, binding_of, mbind, method_bind, m_bind. cbn [m_get].
  destruct (br_bindings b !! c) as [x|] eqn:Ex; [by exists b|].
  destruct (br_db b) as [db|] eqn:Ed; cbn; [|by exists b].
  destruct (get_context_binding db c) as [[x|]|e] eqn:Eg; cbn; [|by exists b..].
  eexists. split; [done|]. split; [done|]. split; [|done]. intros c'. unfold binding_of. cbn.
  destruct (decide (c' = c)) as [->|Hne]; [rewrite lookup_insert_eq, Ex, Ed; cbn; by rewrite Eg|].
  by rewrite lookup_insert_ne.
Qed.

Lemma guard_permitted b params ctx (e : McpError) b1 :
  m_guard match binding_of b (cc_context_id ctx) with
    | Some x => allows_tool (kp_instance params) (kp_tool params) x
    | None => negb (br_enforce_unbound_deny b) end e b1 =
  Some (if decide (permitted b params ctx) then Ok tt else Err e, b1).
Proof.
  case_decide as Hp; unfold permitted in Hp; destruct (binding_of b (cc_context_id ctx)) as [x|].
  - apply Is_true_true in Hp. by rewrite Hp.
  - by rewrite Hp.
  - by destruct (allows_tool _ _ x).
  - by destruct (br_enforce_unbound_deny b).
Qed.

Section calls.
Variable call_tool : option nat → KernelCallParams → CallContext → call KernelToolResult.
Variable d : nat.
Hypothesis call_runs : ∀ d' params ctx b r b',
  call_tool (Some d') params ctx b = Some (r, b') → call_run d' params ctx b b'.

(** What the bodies of hooks do. *)
Definition ran {A} (m : call A) : Prop := triple (bodies d) (λ _, True) m (λ _ _, True).

Lemma ran_bind {A B} (m : call A) (k : A → call B) : ran m → (∀ a, ran (k a)) → ran (m ≫= k).
Proof. intros Hm Hk. exact (triple_bind (bodies d) (λ _, True) m (λ _ _, True) k (λ _ _, True) Hm Hk). Qed.
Lemma ran_still {A} (m : call A) : (∀ b r b', m b = Some (r, b') → b' = b) → ran m.
Proof. intros Hm b r b' _ Hr. rewrite (Hm _ _ _ Hr). split; [reflexivity|by destruct r]. Qed.
Lemma ran_ret {A} (a : A) : ran (m_ret a).
Proof. apply ran_still. by intros b r b' [= _ <-]. Qed.
Lemma ran_fail {A} e : ran (m_fail e : call A).
Proof. apply ran_still. by intros b r b' [= _ <-]. Qed.
Lemma ran_get : ran (m_get : call Broker).
Proof. apply ran_still. by intros b r b' [= _ <-]. Qed.
Lemma ran_lift {A} (r : result McpError A) : ran (m_lift r : call A).
Proof. destruct r; [apply ran_ret|apply ran_fail]. Qed.
Lemma ran_lift_ok {A B} (a : A) (k : A → call B) : ran (k a) → ran (m_lift (Ok a) ≫= k).
Proof. done. Qed.
Lemma ran_try {A} (m : call A) : ran m → ran (m_try m).
Proof.
  intros Hm b r b' Hb. unfold m_try. destruct (m b) as [[r0 b1]|] eqn:E; [|done]. intros [= <- <-].
  by destruct (Hm b r0 b1 Hb E).
Qed.
Create HintDb ran.
Hint Resolve ran_ret ran_fail ran_get ran_lift : ran.
Ltac ran := repeat (apply ran_bind; [by auto with ran|intros ?]); auto with ran.

Lemma ran_body p : (d < MAX_HOOK_DEPTH)%nat → ran (run_body call_tool (Some (S d)) p).
Proof.
  intros Hd. induction p as [r|params ctx k IH]; cbn [run_body]; [ran|].
  apply ran_bind; [|intros r; apply IH]. apply ran_try. intros b r b' _ Hr.
  split; [|by destruct r]. eapply bodies_call; [done|by apply call_runs in Hr|reflexivity].
Qed.

Lemma ran_entries phase params ctx payload entries :
  ran (evaluate_entries call_tool (Some d) phase params ctx payload entries).
Proof.
  induction entries as [|e entries IH]; cbn [evaluate_entries]; [ran|].
  destruct (he_action e) as [body| | |]; [|ran..|done].
  unfold enter_hook_depth. cbn [from_option id]. cbn zeta.
  destruct (Nat.ltb_spec MAX_HOOK_DEPTH (S d)) as [Hd|Hd]; [by apply ran_still; intros b r b' [= _ <-]|].
  apply ran_lift_ok. cbn [fmap option_fmap option_map].
  apply ran_bind; [destruct body; [|unfold run_kaish_hook]|intros [u|reason]; ran].
  - apply ran_bind; [apply ran_body; lia|ran].
  - ran. destruct (br_kj_dispatcher _); [apply ran_body; lia|ran].
Qed.

Lemma ran_phase phase params ctx payload : ran (evaluate_phase call_tool (Some d) phase params ctx payload).
Proof. unfold evaluate_phase. ran. apply ran_entries. Qed.

Lemma ran_on_error params ctx err : ran (run_on_error_then_err call_tool (Some d) params ctx err).
Proof. unfold run_on_error_then_err. apply ran_bind; [apply ran_try, ran_phase|]. intros [[]|]; ran. Qed.

Lemma ran_post params ctx r : ran (then_post_call call_tool (Some d) params ctx r).
Proof. unfold then_post_call. apply ran_bind; [apply ran_phase|]. intros []; ran. Qed.

(** What runs while the permit is held: the hooks alone, or the server among them. *)
Lemma guarded_runs server policy params ctx b r b' :
  guarded_call call_tool (Some d) server policy params ctx b = Some (r, b') →
  bodies d b b' ∨ ∃ b1 race b2, bodies d b b1 ∧ server_call_tool server (Some d) params ctx b1 = (race, b2) ∧
    bodies d b2 b'.
Proof.
  unfold guarded_call, mbind at 1, method_bind at 1, m_bind at 1.
  destruct (evaluate_phase call_tool (Some d) PreCall params ctx PayloadNone b) as [[[o|e] b1]|] eqn:Ep; [| |done].
  2:{ intros [= _ <-]. left. by destruct (ran_phase _ _ _ _ _ _ _ I Ep). }
  destruct (ran_phase _ _ _ _ _ _ _ I Ep) as [H1 _]. destruct o as [|id res|id reason].
  - unfold call_server, mbind, method_bind, m_bind, on_broker.
    destruct (server_call_tool server (Some d) params ctx b1) as [race b2] eqn:Es. intros Hr. right.
    exists b1, race, b2. split; [done|]. split; [done|].
    destruct race as [| |[res|e]]; [by destruct (ran_on_error _ _ _ _ _ _ I Hr)..|
      by destruct (ran_post _ _ _ _ _ _ I Hr)|by destruct (ran_on_error _ _ _ _ _ _ I Hr)].
  - intros Hr. left. etrans; [exact H1|]. by destruct (ran_post _ _ _ _ _ _ I Hr).
  - intros [= _ <-]. by left.
Qed.

(** A bracket takes a permit and gives it back, or finds none. *)
Lemma with_permit_spec {A} instance policy (f : call A) b r b' :
  with_permit instance policy f b = Some (r, b') →
  (∃ permit b1 b2, permit_taken instance b permit b1 ∧ f b1 = Some (r, b2) ∧ b' = give_back permit b2) ∨
  (match br_semaphores b !! instance with
   | Some sem => br_permits b !! sem = Some 0%nat ∨ br_permits b !! sem = None
   | None => False
   end ∧ r = Err (EPolicy (PConcurrencyCap instance (ip_max_concurrency policy))) ∧ b' = b).
Proof.
  unfold with_permit, try_acquire, mbind, method_bind, m_bind, permit_taken. cbn [m_get].
  destruct (br_semaphores b !! instance) as [sem|] eqn:Es.
  - destruct (br_permits b !! sem) as [[|k]|] eqn:Ep.
    + intros [= <- <-]. right. auto.
    + cbn [m_modify m_ret]. set (b1 := b <| br_permits := <[sem:=k]> (br_permits b) |>).
      unfold m_try. destruct (f b1) as [[r1 b2]|] eqn:Ef; [|done]. cbn [release m_modify]. intros Hr.
      left. exists (Some sem), b1, b2. split; [by exists k|]. by destruct r1; injection Hr as <- <-.
    + intros [= <- <-]. right. auto.
  - cbn [m_ret]. unfold m_try. destruct (f b) as [[r1 b2]|] eqn:Ef; [|done]. cbn [release m_ret].
    intros Hr. left. exists None, b, b2. split; [done|]. by destruct r1; injection Hr as <- <-.
Qed.

Lemma taken_not_refused params b permit b1 : permit_taken (kp_instance params) b permit b1 → ¬ no_permit b params.
Proof.
  unfold permit_taken, no_permit. destruct (br_semaphores b !! _); [|by intros _ []].
  intros (k&Hk&_). rewrite Hk. by intros [|].
Qed.

(** The refusals, in the order of the code. *)
Definition gate_spec params ctx b (r : result McpError KernelToolResult) b' : Prop :=
  (br_instances b !! kp_instance params = None → r = Err (EInstanceNotFound (kp_instance params)) ∧ b' = b) ∧
  (is_Some (br_instances b !! kp_instance params) → ¬ permitted b params ctx →
    r = Err (ECapabilityDenied (kp_instance params) (kp_tool params)) ∧ cached b b') ∧
  (is_Some (br_instances b !! kp_instance params) → permitted b params ctx → no_permit b params →
    r = Err (EPolicy (PConcurrencyCap (kp_instance params) (ip_max_concurrency (policy_for b params)))) ∧
    cached b b').

Lemma call_inner_spec params ctx b r b' :
  call_tool_inner call_tool (Some d) params ctx b = Some (r, b') →
  call_run d params ctx b b' ∧ gate_spec params ctx b r b'.
Proof.
  unfold call_tool_inner, gate_spec. rewrite (bind_ok m_get _ b b b eq_refl).
  destruct (br_instances b !! kp_instance params) as [server|] eqn:Es.
  2:{ intros [= <- <-]. split; [apply run_refused; [by left|done]|]. split_and!; [done|by intros [? ?]..]. }
  rewrite (bind_ok (m_ret server) _ b server b eq_refl).
  destruct (binding_spec (cc_context_id ctx) b) as (b1&Hb1&Hc). rewrite (bind_ok _ _ _ _ _ Hb1).
  pose proof (guard_permitted b params ctx (ECapabilityDenied (kp_instance params) (kp_tool params)) b1) as Hg.
  destruct (decide (permitted b params ctx)) as [Hp|Hp].
  2:{ rewrite (bind_err _ _ _ _ _ Hg). intros [= <- <-]. split; [apply run_refused; [right; by left|done]|].
      split_and!; by intros. }
  rewrite (bind_ok _ _ _ _ _ Hg), (bind_ok m_get _ b1 b1 b1 eq_refl). cbn zeta. intros Hr.
  pose proof Hc as (Hrest&_). unfold rest in Hrest. injection Hrest as Hi Hpol Hsem Hperm _ _ _ _ _ _ _ _.
  assert (no_permit b1 params ↔ no_permit b params) as Hno by (unfold no_permit; by rewrite Hsem, Hperm).
  apply with_permit_spec in Hr as [(permit&b2&b3&Ht&Hr&->)|(Hn&->&->)].
  - assert (admitted params ctx b server permit b2) as Hadm by (split; [done|split; [done|by exists b1]]).
    split; [|split_and!; [done..|intros _ _ Hn; by apply Hno, (taken_not_refused _ _ _ _ Ht) in Hn]].
    apply guarded_runs in Hr as [Hr|(b4&race&b5&H1&H2&H3)]; [by eapply run_answered|by eapply run_served].
  - split; [apply run_refused; [right; right; by apply Hno|done]|].
    split_and!; [done..|]. intros _ _ _. unfold policy_for. by rewrite Hpol.
Qed.
End calls.

Lemma fuel_spec fuel depth params ctx b r b' : call_tool_fuel fuel depth params ctx b = Some (r, b') →
  call_run (default 0%nat depth) params ctx b b' ∧ gate_spec params ctx b r b'.
Proof.
  revert depth params ctx b r b'. induction fuel as [|fuel IH]; intros depth params ctx b r b'; [done|].
  cbn [call_tool_fuel]. apply call_inner_spec. intros d' params' ctx' b1 r1 b2 Hr. apply (IH _ _ _ _ _ _ Hr).
Qed.

End gate.
