(* ===== verification/BrokerHooks.v ===== *)
(** * What hooks decide, and a call as a function of their verdicts *)

From S2P Require Import Prelude Text Tick Ids Track Cas Cell Block Hydrate MethodLogic Binding McpTypes Broker BrokerCalls.

Section hooks.
Context {json : JsonLib} {jtext : JsonText} {jvals : JsonValues} {blib : BlockLib} {uuids : UuidCrate}.
Context {Server World Db Docs : Type} {servers : McpServerLike Server World Db Docs} {bdb : BindingDb Db}
  {docstore : DocStore Docs} {kaish : Kaish} {bids : BrokerIds} {horder : HashOrder}.
Local Abbreviation Broker := (Broker (Server := Server) (World := World) (Db := Db) (Docs := Docs)).
Local Abbreviation call A := (method Broker McpError A).
Implicit Types (b : Broker) (params : KernelCallParams) (ctx : CallContext) (depth : option nat).

(** ** The order of hooks *)

#[local] Instance entry_before_total : Total entry_before.
Proof. intros x y. unfold entry_before. lia. Qed.
#[local] Instance entry_before_trans : Transitive entry_before.
Proof. intros x y z. unfold entry_before. lia. Qed.

Definition at_priority (p : Z) (l : list HookEntry) : list HookEntry := filter (λ e, he_priority e = p) l.

(** A sorted list without equal indices is sorted strictly. *)
Lemma sorted_unique (l k : list (nat * HookEntry)) :
  StronglySorted entry_before l → StronglySorted entry_before k → NoDup l.*1 → l ≡ₚ k → l = k.
Proof.
  revert k. induction l as [|x l IH]; intros k Hl Hk Hnd Hp.
  { by apply Permutation_nil in Hp as ->. }
  apply StronglySorted_cons in Hl as [Hx Hl]. destruct k as [|y k]; [by apply Permutation_nil_r in Hp|].
  apply StronglySorted_cons in Hk as [Hy Hk]. apply NoDup_cons in Hnd as [Hx1 Hnd].
  assert (x = y) as ->.
  { assert (y ∈ x :: l) as Hyl by (rewrite Hp; by left). assert (x ∈ y :: k) as Hxk by (rewrite <- Hp; by left).
    apply elem_of_cons in Hyl as [->|Hyl]; [done|]. apply elem_of_cons in Hxk as [->|Hxk]; [done|].
    rewrite Forall_forall in Hx, Hy. specialize (Hx y Hyl). specialize (Hy x Hxk).
    assert (x.1 = y.1) as E by (unfold entry_before in *; lia).
    destruct Hx1. rewrite E. apply list_elem_of_fmap. by exists y. }
  f_equal. apply IH; try done. by apply Permutation_cons_inv in Hp.
Qed.

Lemma enumerate_fst {A} (l : list A) : (enumerate l).*1 = List.seq 0 (length l).
Proof. unfold enumerate. apply fst_zip. by rewrite length_seq. Qed.
Lemma enumerate_snd {A} (l : list A) : (enumerate l).*2 = l.
Proof. unfold enumerate. apply snd_zip. by rewrite length_seq. Qed.

Lemma filter_snd {A} (P : A → Prop) `{!∀ x, Decision (P x), !∀ x : nat * A, Decision (P x.2)} (l : list (nat * A)) :
  (filter (λ x, P x.2) l).*2 = filter P l.*2.
Proof.
  induction l as [|[n x] l IH]; [done|]. cbn [fmap list_fmap snd]. destruct (decide (P x)).
  - rewrite !filter_cons_True by done. cbn. by rewrite IH.
  - by rewrite !filter_cons_False by done.
Qed.

Lemma seq_sorted n m : StronglySorted lt (List.seq n m).
Proof.
  revert n. induction m as [|m IH]; intros n; cbn; constructor; [apply IH|].
  apply Forall_forall. intros k Hk. apply elem_of_seq in Hk. lia.
Qed.

Lemma forall_filter {A} (Q P : A → Prop) `{!∀ x, Decision (P x)} (l : list A) : Forall Q l → Forall Q (filter P l).
Proof. rewrite !Forall_forall. intros H0 x [_ Hx]%list_elem_of_filter. by apply H0. Qed.

Lemma fst_nodup_filter {A} (P : nat * A → Prop) `{!∀ x, Decision (P x)} (l : list (nat * A)) :
  NoDup l.*1 → NoDup (filter P l).*1.
Proof.
  induction l as [|x l IH]; [done|]. cbn [fmap list_fmap]. intros [Hx Hl]%NoDup_cons.
  destruct (decide (P x)); [rewrite filter_cons_True by done|rewrite filter_cons_False by done; by apply IH].
  cbn. constructor; [|by apply IH]. intros (y&E&[_ Hy]%list_elem_of_filter)%list_elem_of_fmap.
  apply Hx. rewrite E. apply list_elem_of_fmap. by exists y.
Qed.

Lemma sorted_nodup (l : list nat) : StronglySorted lt l → NoDup l.
Proof.
  induction l as [|n l IH]; [constructor|]. intros [Hn Hl]%StronglySorted_cons. constructor; [|by apply IH].
  intros Hin. rewrite Forall_forall in Hn. specialize (Hn n Hin). lia.
Qed.

Lemma sorted_fst_filter {A} (P : nat * A → Prop) `{!∀ x, Decision (P x)} (l : list (nat * A)) :
  StronglySorted lt l.*1 → StronglySorted lt (filter P l).*1.
Proof.
  induction l as [|x l IH]; [done|]. cbn [fmap list_fmap]. intros [Hx Hl]%StronglySorted_cons.
  destruct (decide (P x)); [rewrite filter_cons_True by done|rewrite filter_cons_False by done; by apply IH].
  cbn. constructor; [by apply IH|]. rewrite Forall_fmap in Hx |- *. by apply forall_filter.
Qed.

(** Entries of one priority, in the order of their indices, are in order. *)
Lemma one_priority_sorted p (l : list (nat * HookEntry)) :
  StronglySorted lt l.*1 → Forall (λ x, he_priority x.2 = p) l → StronglySorted entry_before l.
Proof.
  induction l as [|x l IH]; [constructor|]. cbn [fmap list_fmap]. intros [Hx Hl]%StronglySorted_cons [Hp Hps]%Forall_cons.
  constructor; [by apply IH|]. rewrite Forall_fmap in Hx. rewrite Forall_forall in Hx, Hps |- *. intros y Hy.
  specialize (Hx y Hy). specialize (Hps y Hy). cbn in *. unfold entry_before. lia.
Qed.

Lemma hooks_sorted_filter {A} (R : relation A) (P : A → Prop) `{!∀ x, Decision (P x)} (l : list A) :
  StronglySorted R l → StronglySorted R (filter P l).
Proof.
  induction l as [|x l IH]; [done|]. intros [Hx Hl]%StronglySorted_cons.
  destruct (decide (P x)); [rewrite filter_cons_True by done|rewrite filter_cons_False by done; by apply IH].
  constructor; [by apply IH|by apply forall_filter].
Qed.

Lemma in_order_spec (l : list (nat * HookEntry)) : StronglySorted lt l.*1 →
  in_order l ≡ₚ l.*2 ∧ StronglySorted (λ e f, he_priority e ≤ he_priority f) (in_order l) ∧
  ∀ p, at_priority p (in_order l) = at_priority p l.*2.
Proof.
  intros Hl. unfold in_order. pose proof (merge_sort_Permutation entry_before l) as Hp.
  pose proof (StronglySorted_merge_sort entry_before l) as Hs. split_and!.
  - by rewrite Hp.
  - clear Hp. induction (merge_sort entry_before l) as [|x k IH]; [constructor|].
    apply StronglySorted_cons in Hs as [Hx Hs]. cbn. constructor; [by apply IH|].
    rewrite Forall_fmap. eapply Forall_impl; [exact Hx|]. intros y. unfold entry_before. cbn. lia.
  - intros p. unfold at_priority. rewrite <- (filter_snd (λ e, he_priority e = p) l).
    rewrite <- (filter_snd (λ e, he_priority e = p) (merge_sort entry_before l)). f_equal. apply sorted_unique.
    + by apply hooks_sorted_filter.
    + apply (one_priority_sorted p); [by apply sorted_fst_filter|].
      apply Forall_forall. intros x [? _]%list_elem_of_filter. done.
    + apply fst_nodup_filter. rewrite Hp. by apply sorted_nodup.
    + by rewrite Hp.
Qed.

(** The hooks of a phase that match, by priority and then in the order of their table. *)
Lemma matching_spec t phase params ctx (l := filter (λ e, hook_matches params ctx e) (phase_table t phase)) :
  matching t phase params ctx ≡ₚ l ∧
  StronglySorted (λ e f, he_priority e ≤ he_priority f) (matching t phase params ctx) ∧
  ∀ p, at_priority p (matching t phase params ctx) = at_priority p l.
Proof.
  unfold matching. destruct (in_order_spec (filter (λ x, hook_matches params ctx x.2) (enumerate (phase_table t phase))))
    as (H1&H2&H3).
  - apply sorted_fst_filter. rewrite enumerate_fst. apply seq_sorted.
  - assert ((filter (λ x, hook_matches params ctx x.2) (enumerate (phase_table t phase))).*2 = l) as E.
    { unfold l. rewrite <- (enumerate_snd (phase_table t phase)) at 2.
      apply (filter_snd (λ e, Is_true (hook_matches params ctx e))). }
    by rewrite E in H1, H3.
Qed.

(** ** Hooks without bodies *)

(** The outcome of a phase: the first entry that is not a log. *)
Fixpoint verdict (entries : list HookEntry) : PhaseOutcome :=
  match entries with
  | [] => PContinue
  | entry :: entries' =>
      match he_action entry with
      | HDeny reason => PDeny (he_id entry) reason
      | HShortCircuit r => PShortCircuit (he_id entry) r
      | _ => verdict entries'
      end
  end.

Definition passive (e : HookEntry) : Prop := match he_action e with HInvoke _ => False | _ => True end.
Definition passive_tables (t : HookTables) : Prop := ∀ phase, Forall passive (phase_table t phase).

Lemma entries_verdict call_tool depth phase params ctx payload entries b : Forall passive entries →
  evaluate_entries call_tool depth phase params ctx payload entries b = Some (Ok (verdict entries), b).
Proof.
  induction 1 as [|e entries He _ IH]; [done|]. cbn [evaluate_entries verdict]. unfold passive in He.
  destruct (he_action e); [done..|exact IH].
Qed.

Lemma phase_verdict call_tool depth phase params ctx payload b : passive_tables (br_hooks b) →
  evaluate_phase call_tool depth phase params ctx payload b =
    Some (Ok (verdict (matching (br_hooks b) phase params ctx)), b).
Proof.
  intros Hp. unfold evaluate_phase. rewrite (bind_ok m_get _ b b b eq_refl). apply entries_verdict.
  destruct (matching_spec (br_hooks b) phase params ctx) as [Hperm _]. rewrite Hperm. apply forall_filter, Hp.
Qed.

(** What the hooks make of a result, and of an error. *)
Definition after_result t params ctx (result : KernelToolResult) : Prelude.result McpError KernelToolResult :=
  match verdict (matching t PostCall params ctx) with
  | PContinue => Ok result
  | PShortCircuit _ r2 => Ok r2
  | PDeny hook_id _ => Err (EDenied hook_id)
  end.

Definition after_error t params ctx (err : McpError) : Prelude.result McpError KernelToolResult :=
  match verdict (matching t OnError params ctx) with
  | PContinue => Err err
  | PShortCircuit _ result => Ok result
  | PDeny hook_id _ => Err (EDenied hook_id)
  end.

(** A permitted call, as the hooks and the server decide it: its end, and the broker after
    it. The hooks after the call are those the server left. *)
Definition pipeline_spec depth (policy : InstancePolicy) server params ctx b :
    Prelude.result McpError KernelToolResult * Broker :=
  match verdict (matching (br_hooks b) PreCall params ctx) with
  | PDeny hook_id _ => (Err (EDenied hook_id), b)
  | PShortCircuit _ result => (after_result (br_hooks b) params ctx result, b)
  | PContinue =>
      let '(race, b') := server_call_tool server depth params ctx b in
      let t := br_hooks b' in
      (match race with
       | RReturned (Ok result) => after_result t params ctx (fit_result policy result)
       | RReturned (Err e) => after_error t params ctx e
       | RTimedOut => after_error t params ctx (EPolicy (PTimeout (kp_instance params) (ip_call_timeout_ms policy)))
       | RCancelled => after_error t params ctx ECancelled
       end, b')
  end.

(** The hooks a server leaves when it is called under the tables [t] have no bodies. *)
Definition leaves_passive server depth params ctx (t : HookTables) : Prop :=
  ∀ b race b', br_hooks b = t → server_call_tool server depth params ctx b = (race, b') →
    passive_tables (br_hooks b').

Lemma post_verdict call_tool depth params ctx result b : passive_tables (br_hooks b) →
  then_post_call call_tool depth params ctx result b = Some (after_result (br_hooks b) params ctx result, b).
Proof.
  intros Hp. unfold then_post_call. rewrite (bind_ok _ _ _ _ _ (phase_verdict call_tool depth _ params ctx _ b Hp)).
  unfold after_result. by destruct (verdict _).
Qed.

Lemma error_verdict call_tool depth params ctx err b : passive_tables (br_hooks b) →
  run_on_error_then_err call_tool depth params ctx err b = Some (after_error (br_hooks b) params ctx err, b).
Proof.
  intros Hp. unfold run_on_error_then_err, m_try, mbind, method_bind, m_bind. rewrite (phase_verdict _ _ _ _ _ _ _ Hp).
  unfold after_error. by destruct (verdict _).
Qed.

Lemma guarded_verdict call_tool depth server policy params ctx b :
  passive_tables (br_hooks b) → leaves_passive server depth params ctx (br_hooks b) →
  guarded_call call_tool depth server policy params ctx b =
    let '(r, b') := pipeline_spec depth policy server params ctx b in Some (r, b').
Proof.
  intros Hp Hl. unfold guarded_call, pipeline_spec.
  rewrite (bind_ok _ _ _ _ _ (phase_verdict call_tool depth _ params ctx _ b Hp)).
  destruct (verdict _) as [|id result|id reason]; [|by rewrite post_verdict|done].
  unfold call_server, mbind, method_bind, m_bind, on_broker.
  destruct (server_call_tool server depth params ctx b) as [race b'] eqn:E.
  pose proof (Hl b race b' eq_refl E) as Hp'.
  destruct race as [| |[result|e]]; by rewrite ?post_verdict, ?error_verdict.
Qed.

(** Only the world changes in a call of a server outside the kernel. *)
Lemma pipeline_outside depth policy server params ctx b f : answers_outside server f →
  rest (pipeline_spec depth policy server params ctx b).2 = rest b.
Proof.
  intros Hf. unfold pipeline_spec. destruct (verdict _); [|done..].
  rewrite Hf. by destruct (f params ctx (br_world b)) as [race w].
Qed.

Lemma rest_back instance b permit b1 b2 : permit_taken instance b permit b1 → rest b2 = rest b1 →
  rest (give_back permit b2) = rest b.
Proof.
  unfold permit_taken. destruct (br_semaphores b !! instance) as [sem|]; [|by intros [-> ->]].
  intros (k&Hk&->&->) Hr. unfold rest in *. cbn in *. injection Hr. intros. cbn.
  assert (alter S sem (br_permits b2) = br_permits b) as -> by (rewrite <- (permit_back (br_permits b) sem k Hk); by f_equal).
  congruence.
Qed.

(** A bracket with a permit to take. *)
Lemma with_permit_ok {A} params policy (f : call A) b : ¬ no_permit b params →
  ∃ permit b1, permit_taken (kp_instance params) b permit b1 ∧
    (∀ r b2, f b1 = Some (r, b2) → with_permit (kp_instance params) policy f b = Some (r, give_back permit b2)).
Proof.
  unfold no_permit, with_permit, try_acquire, mbind, method_bind, m_bind, permit_taken. cbn [m_get].
  destruct (br_semaphores b !! kp_instance params) as [sem|] eqn:Es.
  - destruct (br_permits b !! sem) as [[|k]|] eqn:Ep; intros Hno; [by destruct Hno; auto| |by destruct Hno; auto].
    eexists (Some sem), _. split; [by exists k|]. intros r b2 Hf. cbn [m_modify m_ret]. unfold m_try. rewrite Hf.
    by destruct r.
  - intros _. eexists None, b. split; [done|]. intros r b2 Hf. cbn [m_ret]. unfold m_try. rewrite Hf. by destruct r.
Qed.

Lemma taken_hooks instance b permit b1 : permit_taken instance b permit b1 → br_hooks b1 = br_hooks b.
Proof. unfold permit_taken. destruct (br_semaphores b !! instance); [intros (k&_&_&->)|intros [_ ->]]; done. Qed.

(** C24: hooks that only log, deny or answer decide a permitted call, in the order of their
    priority and, at one priority, of their table. The first matching entry that is not a
    log decides: before the call it denies it or answers in the server's place, and the
    server is not called; after a result (cut to the policy's size) or an answer it may
    answer instead or deny; after an error, a timeout or a cancellation it may turn it into
    a result or a denial. A server that changes the hooks during its call, as those of the
    kernel may, is judged by the hooks it leaves, if these have no bodies either. The permit
    is given back, and a server outside the kernel leaves all but its world as it was. *)
Theorem call_pipeline depth params ctx b server (d := Some (default 0%nat depth)) :
  br_instances b !! kp_instance params = Some server → permitted b params ctx → ¬ no_permit b params →
  passive_tables (br_hooks b) → leaves_passive server d params ctx (br_hooks b) →
  (∀ phase, let l := filter (λ e, hook_matches params ctx e) (phase_table (br_hooks b) phase) in
    matching (br_hooks b) phase params ctx ≡ₚ l ∧
    StronglySorted (λ e f, he_priority e ≤ he_priority f) (matching (br_hooks b) phase params ctx) ∧
    ∀ p, at_priority p (matching (br_hooks b) phase params ctx) = at_priority p l) ∧
  ∃ permit b1, admitted params ctx b server permit b1 ∧ br_hooks b1 = br_hooks b ∧ br_world b1 = br_world b ∧
    let '(r, b2) := pipeline_spec d (policy_for b params) server params ctx b1 in
    broker_call_tool depth params ctx b = Some (r, give_back permit b2) ∧
    (∀ f, answers_outside server f → rest (give_back permit b2) = rest b).
Proof.
  intros Hs Hp Hno Hpas Hl. split; [intros phase; apply matching_spec|].
  unfold broker_call_tool. cbn [call_tool_fuel]. fold d. set (call_tool := call_tool_fuel MAX_HOOK_DEPTH).
  unfold call_tool_inner. rewrite (bind_ok m_get _ b b b eq_refl), Hs, (bind_ok (m_ret server) _ b server b eq_refl).
  destruct (binding_spec (cc_context_id ctx) b) as (b0&Hb0&Hc). rewrite (bind_ok _ _ _ _ _ Hb0).
  pose proof (guard_permitted b params ctx (ECapabilityDenied (kp_instance params) (kp_tool params)) b0) as Hg.
  rewrite decide_True in Hg by done.
  rewrite (bind_ok _ _ _ _ _ Hg), (bind_ok m_get _ b0 b0 b0 eq_refl). cbn zeta.
  pose proof Hc as (Hr&_&Hw). pose proof Hr as Hr0. unfold rest in Hr. injection Hr as Hi Hpol Hsem Hperm Hh _ _ _ _ _ _ _.
  change (default policy_defaults (br_policies b0 !! kp_instance params)) with (policy_for b0 params).
  assert (policy_for b0 params = policy_for b params) as -> by (unfold policy_for; by rewrite Hpol).
  destruct (with_permit_ok params (policy_for b params)
    (guarded_call call_tool d server (policy_for b params) params ctx) b0) as (permit&b1&Ht&Hrun).
  { unfold no_permit in *. by rewrite Hsem, Hperm. }
  pose proof (taken_hooks _ _ _ _ Ht) as Hh1. rewrite Hh in Hh1.
  assert (br_world b1 = br_world b) as Hw1.
  { rewrite <- Hw. unfold permit_taken in Ht. destruct (br_semaphores b0 !! _); [by destruct Ht as (?&_&_&->)|by destruct Ht as [_ ->]]. }
  exists permit, b1. split; [split; [done|split; [done|by exists b0]]|]. split; [done|]. split; [done|].
  destruct (pipeline_spec d (policy_for b params) server params ctx b1) as [r b2] eqn:E. split.
  - apply Hrun. rewrite guarded_verdict by (by rewrite Hh1). by rewrite E.
  - intros f Hf. rewrite <- Hr0. apply (rest_back _ _ _ _ _ Ht).
    pose proof (pipeline_outside d (policy_for b params) server params ctx b1 f Hf) as Hout. by rewrite E in Hout.
Qed.
End hooks.
