(* ===== verification/BrokerNames.v ===== *)
(** * The tools a context sees, the names it sees them by, and what it is told of changes *)

From Stdlib Require Import Ascii.
From stdpp Require Import propset.
From S2P Require Import Prelude MethodLogic Text Tick Ids Track Cas Cell Concrete Block Hydrate Binding Coalescer McpTypes Broker BrokerOps BrokerCalls BrokerHooks.

(** ** Clean names *)

Definition name_char (c : ascii) : bool :=
  is_ascii_alphanumeric c || bool_decide (c = "_"%char) || bool_decide (c = "-"%char).

Abbreviation name_chars := (all_chars name_char).

Definition clean_name (s : string) : Prop := name_chars s ∧ (String.length s ≤ 128)%nat.

Lemma name_chars_app s t : name_chars (s +:+ t) = name_chars s && name_chars t.
Proof. induction s as [|c s IH]; [done|]. rewrite str_app_cons. cbn [all_chars]. by rewrite IH, andb_assoc. Qed.

Lemma name_chars_concat l : Forall name_chars l → name_chars (concat_str l).
Proof. induction 1 as [|s l Hs _ IH]; [done|].
  rewrite concat_str_cons.
  by rewrite name_chars_app, andb_True. Qed.

Lemma clean_char_ok w : name_chars (clean_char w).
Proof.
  destruct w as [|c [|d w]]; [done| |done]. cbn [clean_char]. fold (name_char c).
  destruct (name_char c) eqn:E; [|done]. cbn. by rewrite E.
Qed.

Lemma name_chars_take s n : name_chars s → name_chars (str_take s n).
Proof.
  unfold str_take. revert n. induction s as [|c s IH]; intros [|n]; cbn; try done.
  rewrite !andb_True. intros [? ?]. split; [done|by apply IH].
Qed.

Lemma clean_visible_ok raw : clean_name (clean_visible_tool_name raw).
Proof.
  assert (name_chars (concat_str (map clean_char (chars raw)))) as Hc.
  { apply name_chars_concat, Forall_forall. intros w (v&->&_)%list_elem_of_fmap. apply clean_char_ok. }
  unfold clean_visible_tool_name, clean_name. destruct (Nat.ltb_spec 128 (String.length (concat_str (map clean_char (chars raw))))).
  - split; [by apply name_chars_take|]. rewrite str_take_length by lia. lia.
  - split; [done|lia].
Qed.

Lemma name_char_ascii c : name_char c → is_cont c = false.
Proof. destruct c as [[] [] [] [] [] [] [] []]; by vm_compute. Qed.

Lemma chars_name s : name_chars s → chars s = (λ c, String c "") <$> String.list_ascii_of_string s.
Proof.
  induction s as [|c s IH]; [done|]. cbn [all_chars]. rewrite andb_True. intros [Hc Hs]. specialize (IH Hs).
  cbn [chars]. rewrite IH. destruct s as [|d s]; [done|]. cbn [String.list_ascii_of_string fmap list_fmap].
  cbn in Hs. apply andb_True in Hs as [Hd _]. by rewrite (name_char_ascii d Hd).
Qed.

Lemma clean_visible_id s : clean_name s → clean_visible_tool_name s = s.
Proof.
  intros [Hc Hl]. unfold clean_visible_tool_name. assert (concat_str (map clean_char (chars s)) = s) as ->.
  - rewrite chars_name by done. clear Hl. induction s as [|c s IH]; [done|]. cbn in Hc.
    apply andb_True in Hc as [Hc Hs]. cbn [String.list_ascii_of_string fmap list_fmap map clean_char concat_str foldr].
    fold (name_char c). apply Is_true_true in Hc. rewrite Hc. cbn. f_equal. by apply IH.
  - destruct (Nat.ltb_spec 128 (String.length s)); [lia|done].
Qed.

(** ** The listing *)

Section listing.
Context {json : JsonLib} {jtext : JsonText} {jvals : JsonValues} {blib : BlockLib} {uuids : UuidCrate}.
Context {Server World Db Docs : Type} {servers : McpServerLike Server World Db Docs} {bdb : BindingDb Db}
  {docstore : DocStore Docs} {kaish : Kaish} {bids : BrokerIds} {horder : HashOrder} {hlaws : HashOrderLaws}.
Local Abbreviation Broker := (Broker (Server := Server) (World := World) (Db := Db) (Docs := Docs)).
Local Abbreviation call A := (method Broker McpError A).
Implicit Types (b : Broker) (ctx : CallContext) (x : ContextToolBinding).

Abbreviation key_of kt := (kt_instance kt, kt_name kt).

(** What a server answered when it was asked for its tools. *)
Definition advertised ctx (server : Server) (l : list KernelTool) : Prop :=
  ∃ w w' : World, server_list_tools server ctx w = (Ok l, w').

Lemma gather_spec x ctx ss b all b' : gather x ctx ss b = Some (Ok all, b') →
  b' = b <| br_world := br_world b' |> ∧ ∃ lists, Forall2 (advertised ctx) ss lists ∧
    all = filter (λ kt, allows_tool (kt_instance kt) (kt_name kt) x) (concat lists).
Proof.
  revert b all. induction ss as [|s ss IH]; intros b all; cbn [gather].
  { intros [= <- <-]. split; [by destruct b|]. by exists []. }
  unfold list_server_tools, on_world, mbind, method_bind, m_bind.
  destruct (server_list_tools s ctx (br_world b)) as [[tools|e] w] eqn:Es; cbn [m_lift m_ret m_fail]; [|done].
  destruct (gather x ctx ss (b <| br_world := w |>)) as [[[rest|e] b1]|] eqn:Eg; [|done..].
  intros [= <- <-]. destruct (IH _ _ Eg) as (Hb1&lists&Hl&->). split; [by rewrite Hb1; destruct b|].
  exists (tools :: lists). split; [constructor; [by exists (br_world b), w|done]|]. cbn [concat]. by rewrite filter_app.
Qed.

Lemma name_of_spec (names : gmap string ResolvedName) key n : names_inj names →
  name_of names key = Some n ↔ names !! n = Some key.
Proof.
  intros Hinj. unfold name_of.
  assert (∀ e, e ∈ filter (λ e : string * ResolvedName, e.2 = key) (hash_order (map_to_list names)) ↔
    names !! e.1 = Some e.2 ∧ e.2 = key) as He.
  { intros [m p]. rewrite list_elem_of_filter, (hash_order_perm _ (map_to_list names)), elem_of_map_to_list. cbn. tauto. }
  destruct (filter _ _) as [|[m p] l] eqn:E; cbn.
  - split; [done|]. intros Hn. exfalso. specialize (He (n, key)). cbn in He. by apply (elem_of_nil (n, key)), He.
  - destruct (proj1 (He (m, p))) as [Hm Hk]; [by left|]. cbn in Hm, Hk. subst p. split; [by intros [= <-]|].
    intros Hn. f_equal. by eapply Hinj.
Qed.

(** The binding that a listing starts from. *)
Definition binding_or_new b (c : ContextId) : ContextToolBinding := default binding_new (binding_of b c).

Definition hook_shows b ctx kt : bool := tool_stays (in_order (enumerate (ht_list_tools (br_hooks b)))) ctx kt.

(** C18: a listing shows a context exactly the tools that its candidate servers advertise,
    its binding allows and no hook hides, each under the name that resolves back to it; a
    tool without a name lost it to another tool. The names a context has seen keep their
    meaning, a tool has one name, new names are within the alphabet and length that the
    strictest provider accepts (such names are used as they are), and the binding allows
    what it did. *)
Theorem visible_tools b context_id ctx out b' (x := binding_or_new b context_id) :
  names_inj (name_map x) → list_visible_tools context_id ctx b = Some (Ok out, b') →
  ∃ x' lists, binding_of b' context_id = Some x' ∧ (∀ c, allows c x' = allows c x) ∧
    name_map x ⊆ name_map x' ∧ names_inj (name_map x') ∧ Forall2 (advertised ctx) (servers_for x b) lists ∧
    (∀ n kt, (n, kt) ∈ out ↔ kt ∈ concat lists ∧ allows_tool (kt_instance kt) (kt_name kt) x ∧ hook_shows b ctx kt ∧
      resolve n x' = Some (key_of kt)) ∧
    (∀ kt, kt ∈ concat lists → allows_tool (kt_instance kt) (kt_name kt) x → hook_shows b ctx kt →
      (∃ n, (n, kt) ∈ out) ∨ ∃ n q, resolve n x' = Some q ∧ q ≠ key_of kt ∧
        (n = clean_visible_tool_name (kt_name kt) ∨
         n = clean_visible_tool_name (kt_instance kt +:+ "__" +:+ kt_name kt))) ∧
    (∀ n p, resolve n x' = Some p → resolve n x = Some p ∨ clean_name n) ∧
    (∀ s, clean_name s → clean_visible_tool_name s = s).
Proof.
  intros Hinj. unfold list_visible_tools. destruct (binding_spec context_id b) as (b1&Hb1&(Hr&Hbo&Hw)).
  rewrite (bind_ok _ _ _ _ _ Hb1). cbn zeta. fold (binding_or_new b context_id). fold x.
  rewrite (bind_ok m_get _ b1 b1 b1 eq_refl). unfold rest in Hr. injection Hr as Hi _ _ _ Hh _ _ _ _ _ _ _.
  unfold mbind at 1, method_bind at 1, m_bind at 1.
  destruct (gather x ctx (servers_for x b1) b1) as [[[all|e] b2]|] eqn:Eg; [|done..].
  apply gather_spec in Eg as (Hb2&lists&Hl&Hall). unfold apply_list_tools_filter.
  rewrite (bind_ok _ _ b2 _ b2 eq_refl). assert (br_hooks b2 = br_hooks b) as Hh2 by (by rewrite Hb2, <- Hh; destruct b1).
  rewrite Hh2. change (filter _ all) with (filter (λ kt, hook_shows b ctx kt) all).
  cbn zeta. set (shown := filter (λ kt, hook_shows b ctx kt) all).
  remember (apply_resolutions (resolution shown <$> shown) x) as x' eqn:Hx'.
  rewrite (bind_ok _ _ b2 tt _ eq_refl). intros [= <- <-].
  pose proof (apply_resolutions_spec (resolution shown <$> shown) x Hinj) as (Hsub&Hinj'&Hname&Hfrom&Hal). rewrite <- Hx' in *.
  assert (∀ kt, kt ∈ shown ↔ kt ∈ concat lists ∧ allows_tool (kt_instance kt) (kt_name kt) x ∧ hook_shows b ctx kt) as Hin.
  { intros kt. unfold shown. rewrite Hall, !list_elem_of_filter. tauto. }
  assert (∀ n kt, (n, kt) ∈ omap (λ kt, (λ m, (m, kt)) <$> name_of (name_map x') (key_of kt)) shown ↔
    kt ∈ shown ∧ resolve n x' = Some (key_of kt)) as Hout.
  { intros n kt. rewrite list_elem_of_omap. split.
    - intros (kt'&Hk&(m&Hm&[= <- <-])%fmap_Some). by apply name_of_spec in Hm.
    - intros [Hk Hn]. exists kt. split; [done|]. apply fmap_Some. exists n. split; [|done]. by apply name_of_spec. }
  exists x', lists. split_and!; try done.
  - unfold binding_of. cbn. by rewrite lookup_insert_eq.
  - unfold servers_for in *. by rewrite <- Hi.
  - intros n kt. rewrite Hout, Hin. tauto.
  - intros kt Hk Ha Hs. destruct (Hname (key_of kt) (resolution shown kt).2) as [[m Hm]|(q&Hq&Hne)].
    + apply list_elem_of_fmap. exists kt. split; [done|]. by apply Hin.
    + left. exists m. apply Hout. split; [by apply Hin|done].
    + right. exists (resolution shown kt).2, q. split; [done|]. split; [done|]. unfold resolution. cbn [snd]. cbn zeta.
      destruct (1 <? count_name (kt_name kt) shown)%nat; [by right|by left].
  - intros n p Hn. destruct (Hfrom n p Hn) as [?|Hr]; [by left|right].
    apply list_elem_of_fmap in Hr as (kt&E&_). injection E as _ ->. apply clean_visible_ok.
  - apply clean_visible_id.
Qed.
End listing.

(** * A change of binding is reported tool by tool *)

#[local] Instance str_le_total : Total str_le.
Proof. intros s t. unfold str_le. destruct (str_lt_trichotomy s t) as [H|[->|H]]; [left|left|right]; intros H'.
  - by apply (str_lt_irrefl s); etrans.
  - by apply (str_lt_irrefl t).
  - by apply (str_lt_irrefl s); etrans.
Qed.
#[local] Instance str_le_trans : Transitive str_le.
Proof.
  intros s t u H1 H2 H3. destruct (str_lt_trichotomy s t) as [H|[->|H]]; [|done|done].
  apply H2. destruct (str_lt_trichotomy t u) as [H'|[->|H']]; [|by destruct H1|done].
  exfalso. apply (str_lt_irrefl s). by etrans; [exact H|]; etrans.
Qed.

(** ** Grouping *)

Section groups.
Implicit Types (pairs : gset ResolvedName).

Definition tools_of pairs (i : InstanceId) : list string := (filter (λ p, p.1 = i) (elements pairs)).*2.

Lemma tools_of_elem pairs i t : t ∈ tools_of pairs i ↔ (i, t) ∈ pairs.
Proof.
  unfold tools_of. rewrite list_elem_of_fmap. split.
  - intros ([j u]&->&[E Hin]%list_elem_of_filter). cbn in E. subst j. by apply elem_of_elements.
  - intros Hin. exists (i, t). split; [done|]. apply list_elem_of_filter. split; [done|]. by apply elem_of_elements.
Qed.

Lemma tools_of_nodup pairs i : NoDup (tools_of pairs i).
Proof.
  unfold tools_of.
  assert (NoDup (filter (λ p : ResolvedName, p.1 = i) (elements pairs))) as Hnd by (apply NoDup_filter, NoDup_elements).
  assert (∀ p, p ∈ filter (λ p : ResolvedName, p.1 = i) (elements pairs) → p.1 = i) as Hi.
  { by intros p [? _]%list_elem_of_filter. }
  induction (filter _ _) as [|p l IH]; cbn; [constructor|]. apply NoDup_cons in Hnd as [Hp Hnd]. constructor.
  - intros (q&E&Hq)%list_elem_of_fmap. apply Hp. replace p with q; [done|].
    assert (p.1 = i) by (apply Hi; by left). assert (q.1 = i) by (apply Hi; by right).
    destruct p, q. cbn in *. congruence.
  - apply IH; [done|]. intros q Hq. apply Hi. by right.
Qed.

(** Each instance once, in order, with its tools, each once, in order. *)
Lemma group_spec pairs (l := group_pairs_by_instance pairs) :
  StronglySorted str_le l.*1 ∧ NoDup l.*1 ∧
  (∀ i ts, (i, ts) ∈ l → ts ≠ [] ∧ StronglySorted str_le ts ∧ NoDup ts) ∧
  ∀ i t, (i, t) ∈ pairs ↔ ∃ ts, (i, ts) ∈ l ∧ t ∈ ts.
Proof.
  assert (l.*1 = merge_sort str_le (remove_dups (elements pairs).*1)) as Hfst.
  { unfold l, group_pairs_by_instance. rewrite <- list_fmap_compose. apply list_fmap_id. }
  assert (∀ i ts, (i, ts) ∈ l ↔ ts = merge_sort str_le (tools_of pairs i) ∧ ∃ t, (i, t) ∈ pairs) as Hin.
  { intros i ts. unfold l, group_pairs_by_instance. rewrite list_elem_of_fmap. split.
    - intros (j&[= <- ->]&Hj). split; [done|]. rewrite merge_sort_Permutation, elem_of_remove_dups in Hj.
      apply list_elem_of_fmap in Hj as ([j t]&->&Hj%elem_of_elements). by exists t.
    - intros [-> [t Ht]]. exists i. split; [done|]. rewrite merge_sort_Permutation, elem_of_remove_dups.
      apply list_elem_of_fmap. exists (i, t). split; [done|]. by apply elem_of_elements. }
  split_and!.
  - rewrite Hfst. apply (StronglySorted_merge_sort _).
  - rewrite Hfst, merge_sort_Permutation. apply NoDup_remove_dups.
  - intros i ts [-> [t Ht]]%Hin. split_and!.
    + intros E. assert (t ∈ merge_sort str_le (tools_of pairs i)) as Hel by (rewrite merge_sort_Permutation; by apply tools_of_elem).
      rewrite E in Hel. by apply elem_of_nil in Hel.
    + apply (StronglySorted_merge_sort _).
    + rewrite merge_sort_Permutation. apply tools_of_nodup.
  - intros i t. split.
    + intros Ht. exists (merge_sort str_le (tools_of pairs i)). split; [apply Hin; by split; [|exists t]|].
      rewrite merge_sort_Permutation. by apply tools_of_elem.
    + intros (ts&[-> _]%Hin&Ht). rewrite merge_sort_Permutation in Ht. by apply tools_of_elem.
Qed.

Lemma group_diff_elem pairs pairs' i t :
  (∃ ts, (i, ts) ∈ group_pairs_by_instance (pairs ∖ pairs') ∧ t ∈ ts) ↔ (i, t) ∈ pairs ∧ (i, t) ∉ pairs'.
Proof. rewrite <- elem_of_difference. symmetry. by destruct (group_spec (pairs ∖ pairs')) as (_&_&_&Hg). Qed.

Lemma group_empty : group_pairs_by_instance ∅ = [].
Proof. unfold group_pairs_by_instance. by rewrite elements_empty. Qed.
End groups.

Section reports.
Context {json : JsonLib} {jtext : JsonText} {jvals : JsonValues} {blib : BlockLib} {uuids : UuidCrate}.
Context {Server World Db Docs : Type} {servers : McpServerLike Server World Db Docs} {bdb : BindingDb Db}
  {docstore : DocStore Docs} {kaish : Kaish} {bids : BrokerIds} {horder : HashOrder}.
Local Abbreviation Broker := (Broker (Server := Server) (World := World) (Db := Db) (Docs := Docs)).
Local Abbreviation call A := (method Broker McpError A).
Implicit Types (b : Broker) (x : ContextToolBinding).

(** The block store after the notifications of one kind, one per instance. *)
Definition report (c : ContextId) (kind : NotificationKind) (groups : list (InstanceId * list string)) (docs : Docs) : Docs :=
  foldl (λ docs g, let p := tools_payload g.1 kind g.2 in
    insert_notification_block_as docs c None p (notification_summary_line p)) docs groups.

Lemma passes_unhooked synth c b : ht_on_notification (br_hooks b) = [] →
  notification_passes synth c b = Some (Ok true, b).
Proof.
  intros Hh. unfold notification_passes, evaluate_phase, m_try, mbind, method_bind, m_bind. cbn [m_get].
  unfold matching. cbn [phase_table]. rewrite Hh. done.
Qed.

Lemma emit_groups c kind groups : ∀ b docs, ht_on_notification (br_hooks b) = [] → br_documents b = Some docs →
  for_each groups (λ g, emit_for_context c g.1 (tools_payload g.1 kind g.2)) b =
    Some (Ok tt, b <| br_documents := Some (report c kind groups docs) |>).
Proof.
  induction groups as [|g groups IH]; intros b docs Hh Hd; cbn [for_each].
  { unfold report. cbn. rewrite <- Hd. by destruct b. }
  unfold emit_for_context. unfold mbind at 1, method_bind at 1, m_bind at 1.
  rewrite (bind_ok m_get _ b b b eq_refl), Hd. unfold emit_into_context.
  rewrite (bind_ok _ _ _ _ _ (passes_unhooked _ c b Hh)). cbn [on_documents m_modify]. rewrite Hd.
  cbn [fmap option_fmap option_map].
  rewrite (IH _ (insert_notification_block_as docs c None (tools_payload g.1 kind g.2)
    (notification_summary_line (tools_payload g.1 kind g.2)))); [|done|done].
  by destruct b.
Qed.

Lemma persist_spec c x b : ∃ db', persist_binding c x b = Some (Ok tt, b <| br_db := db' |>) ∧
  db' = match br_db b with
        | Some db => Some match upsert_context_binding db c x with Ok db' => db' | Err _ => db end
        | None => None
        end.
Proof.
  unfold persist_binding, mbind, method_bind, m_bind. cbn [m_get]. eexists. split; [|done].
  destruct (br_db b) as [db|] eqn:Ed; [destruct (upsert_context_binding db c x)|]; cbn; rewrite <- ?Ed; by destruct b.
Qed.

(** What a binding shows of the tools the servers were last seen to advertise. *)
Definition seen_pairs b x : gset ResolvedName := binding_visible_tool_pairs x (br_tool_snapshots b).

Lemma seen_pairs_spec b x i t : (i, t) ∈ seen_pairs b x ↔
  i ∈ candidate_instances x ∧ allows_tool i t x ∧ ∃ tools kt, br_tool_snapshots b !! i = Some tools ∧ kt ∈ tools ∧ kt_name kt = t.
Proof.
  unfold seen_pairs, binding_visible_tool_pairs. rewrite elem_of_list_to_set, list_elem_of_bind. split.
  - intros (j&(kt&Hp&Hk)%list_elem_of_bind&Hj). apply list_elem_of_singleton in Hp as [= -> ->].
    apply list_elem_of_filter in Hk as [Ha Hk]. split_and!; [done..|].
    destruct (br_tool_snapshots b !! j) as [tools|] eqn:E; [by exists tools, kt|by apply elem_of_nil in Hk].
  - intros (Hc&Ha&tools&kt&Ht&Hk&<-). exists i. split; [|done]. apply list_elem_of_bind. exists kt.
    split; [by apply list_elem_of_singleton|]. apply list_elem_of_filter. split; [done|]. by rewrite Ht.
Qed.

(** [set_binding] replaces the binding of one context, writes it to the database if
    there is one, and, with no hook on notifications, tells that context exactly what it
    gained and what it lost: one notification per instance, in order, listing its tools in
    order, first for the tools only the new binding shows, then for those only the cached
    old one did. A binding that shows the same tools is not reported. *)
Theorem binding_change_reported c x b docs
    (old := default binding_new (br_bindings b !! c))
    (added := group_pairs_by_instance (seen_pairs b x ∖ seen_pairs b old))
    (removed := group_pairs_by_instance (seen_pairs b old ∖ seen_pairs b x)) :
  ht_on_notification (br_hooks b) = [] → br_documents b = Some docs →
  ∃ b', set_binding c x b = Some (Ok tt, b') ∧
    br_bindings b' = <[c := x]> (br_bindings b) ∧
    br_db b' = match br_db b with
               | Some db => Some match upsert_context_binding db c x with Ok db' => db' | Err _ => db end
               | None => None
               end ∧
    br_documents b' = Some (report c ToolRemoved removed (report c ToolAdded added docs)) ∧
    br_instances b' = br_instances b ∧ br_hooks b' = br_hooks b ∧ br_permits b' = br_permits b ∧
    br_world b' = br_world b ∧
    (∀ i t, (∃ ts, (i, ts) ∈ added ∧ t ∈ ts) ↔ (i, t) ∈ seen_pairs b x ∧ (i, t) ∉ seen_pairs b old) ∧
    (∀ i t, (∃ ts, (i, ts) ∈ removed ∧ t ∈ ts) ↔ (i, t) ∈ seen_pairs b old ∧ (i, t) ∉ seen_pairs b x) ∧
    (∀ l, l = added ∨ l = removed → StronglySorted str_le l.*1 ∧ NoDup l.*1 ∧
       ∀ i ts, (i, ts) ∈ l → ts ≠ [] ∧ StronglySorted str_le ts ∧ NoDup ts) ∧
    (seen_pairs b x = seen_pairs b old → br_documents b' = Some docs).
Proof.
  intros Hh Hd. unfold set_binding. rewrite (bind_ok m_get _ b b b eq_refl).
  cbn zeta. rewrite (bind_ok _ _ b tt _ eq_refl). fold old.
  set (b1 := b <| br_bindings := <[c:=x]> (br_bindings b) |>).
  destruct (persist_spec c x b1) as (db'&Hp&Hdb). rewrite (bind_ok _ _ _ _ _ Hp). set (b2 := b1 <| br_db := db' |>).
  unfold emit_binding_diff. fold (seen_pairs b x) (seen_pairs b old). fold added removed.
  rewrite (bind_ok _ _ _ _ _ (emit_groups c ToolAdded added b2 docs Hh Hd)).
  rewrite (emit_groups c ToolRemoved removed _ (report c ToolAdded added docs)) by done.
  eexists. split; [done|]. split_and!; [done..| | | |].
  - intros i t. apply group_diff_elem.
  - intros i t. apply group_diff_elem.
  - intros l [->| ->]; destruct (group_spec (seen_pairs b x ∖ seen_pairs b old)) as (?&?&?&_);
      destruct (group_spec (seen_pairs b old ∖ seen_pairs b x)) as (?&?&?&_); done.
  - intros E. unfold added, removed. rewrite E, difference_diag_L, group_empty. done.
Qed.
End reports.

(** * The broker on concrete servers *)

Import Demo DemoBlock.

Module DemoBroker.
#[export] Instance demo_text : JsonText := pretty.
#[export] Instance demo_values : JsonValues :=
  {| json_null := 0; json_of_notification := λ _, 1; json_of_uri := λ _, 2; json_of_failed_read := λ _, 3 |}.
#[export] Instance demo_order : HashOrder := λ _ l, reverse l.
#[export] Instance demo_order_laws : HashOrderLaws.
Proof. intros A l. apply reverse_Permutation. Qed.
#[export] Instance demo_bids : BrokerIds :=
  {| fresh_context := {| context_uuid := 77 |}; fresh_session := 78; fresh_kernel := 79 |}.

(** A server advertises its tools and answers every call of one of them with a text; the
    world is the list of the calls that reached a server. A server of the kernel takes every
    binding from the context that calls it. *)
Record Toy := { toy_name : InstanceId; toy_tools : list string; toy_answer : string; toy_kernel : bool }.

Definition toy_tool (s : Toy) (name : string) : KernelTool :=
  {| kt_instance := toy_name s; kt_name := name; kt_description := None; kt_input_schema := 0 |}.

Abbreviation DemoDb := (gmap ContextId ContextToolBinding).
Abbreviation DemoDocs := (list (ContextId * string)).

Definition toy_race (s : Toy) (p : KernelCallParams) : Race :=
  RReturned (if bool_decide (kp_tool p ∈ toy_tools s) then Ok (result_text (toy_answer s))
             else Err (EToolNotFound (toy_name s) (kp_tool p))).

Definition toy_call (s : Toy) (p : KernelCallParams) (ctx : CallContext)
    (b : BrokerState Toy (list ResolvedName) DemoDb DemoDocs) : BrokerState Toy (list ResolvedName) DemoDb DemoDocs :=
  let b' := b <| br_world := (toy_name s, kp_tool p) :: br_world b |> in
  if toy_kernel s then b' <| br_bindings := <[cc_context_id ctx := binding_new]> (br_bindings b') |> else b'.

#[export] Instance demo_servers : McpServerLike Toy (list ResolvedName) DemoDb DemoDocs := {|
  instance_id := toy_name;
  server_list_tools s _ w := (Ok (toy_tool s <$> toy_tools s), w);
  server_call_tool s _ p ctx b := (toy_race s p, toy_call s p ctx b);
  server_read_resource _ _ _ w := (Err EUnsupported, w);
  server_subscribe _ _ _ w := (Err EUnsupported, w);
  server_unsubscribe _ _ _ w := (Err EUnsupported, w);
|}.

#[export] Instance demo_db : BindingDb (gmap ContextId ContextToolBinding) := {|
  get_context_binding db c := Ok (db !! c);
  upsert_context_binding db c x := Ok (<[c := x]> db);
|}.
#[export] Instance demo_docs : DocStore (list (ContextId * string)) := {|
  insert_notification_block_as docs c _ _ summary := docs ++ [(c, summary)];
  insert_resource_block_as docs c _ _ summary := (None, docs ++ [(c, summary)]);
|}.

(** A body of a hook: the script names a tool to call again with the same arguments. *)
#[export] Instance demo_kaish : Kaish := {|
  glob_match g s := bool_decide (g = "*" ∨ g = s);
  kaish_program script _ params ctx _ :=
    HCall {| kp_instance := kp_instance params; kp_tool := script; kp_arguments := kp_arguments params |} ctx
      (λ r, HDone match r with Ok _ => Ok tt | Err _ => Err "refused" end);
|}.

Definition Demo : Type :=
  Broker (Server := Toy) (World := list ResolvedName) (Db := gmap ContextId ContextToolBinding)
    (Docs := list (ContextId * string)).

Definition ctx0 : ContextId := {| context_uuid := 5 |}.
Definition caller : CallContext := call_context_new {| principal_uuid := 9 |} ctx0 1 2.
Definition tool_call (i t : string) : KernelCallParams := {| kp_instance := i; kp_tool := t; kp_arguments := 0 |}.

Definition files : Toy := {| toy_name := "files"; toy_tools := ["read"; "write"]; toy_answer := "data"; toy_kernel := false |}.
Definition notes : Toy := {| toy_name := "notes"; toy_tools := ["read"]; toy_answer := "note"; toy_kernel := false |}.
Definition bindings : Toy :=
  {| toy_name := "bindings"; toy_tools := ["unbind"]; toy_answer := "gone"; toy_kernel := true |}.

Lemma toy_answers (s : Toy) : toy_kernel s = false →
  answers_outside s (λ p _ w, (toy_race s p, (toy_name s, kp_tool p) :: w)).
Proof. intros Hk depth params ctx b. cbn. unfold toy_call. by rewrite Hk. Qed.

(** The state after some operations, all of which succeed. *)
Definition after (m : method Demo McpError ()) (b : Demo) : Demo := match m b with Some (Ok _, b') => b' | _ => b end.

Definition empty : Demo := (broker_new []) <| br_documents := Some [] |> <| br_db := Some ∅ |>.
Definition two_servers : Demo :=
  after (register files policy_defaults;; register notes policy_defaults) empty.
Definition bound : Demo := after (set_binding ctx0 (with_instances ["files"])) two_servers.
End DemoBroker.
Import DemoBroker.

(** ** Bindings and results *)

Lemma binding_refines_witness :
  let b := grant Drive (grant (CTool "notes" "read") (with_instances ["files"])) in
  binding_ok b ∧ grants (revoke_cap (CInstance "files") b) ≡ grants b ∖ revokes (CInstance "files").
Proof.
  intros b. assert (binding_ok b) as Hok.
  { apply grant_ok, grant_ok. intros n Hn. by apply elem_of_empty in Hn. }
  split; [exact Hok|]. destruct (binding_refines b Hok) as (_&_&Hr&_). exact (proj1 (Hr (CInstance "files"))).
Defined.

Definition long_result : KernelToolResult :=
  {| tr_is_error := true; tr_content := [TText "0123456789"; TJson 42; TText (concat_str (repeat "0123456789" 20%nat))];
     tr_structured := Some 7 |}.

Lemma truncation_fits_witness :
  estimate_result_size long_result = 213 ∧
  estimate_result_size (truncate_result_to_budget long_result 100 (estimate_result_size long_result)) ≤
    Z.max 100 (str_len (truncation_footer (213 - 100))).
Proof.
  split; [vm_compute; reflexivity|].
  exact (proj1 (truncation_fits long_result 100 ltac:(split; [lia|vm_compute; reflexivity]))).
Defined.

(** ** Calls *)

Definition hook (id : string) (tool : option string) (priority : Z) (action : HookAction) : HookEntry := {|
  he_id := id; he_match_instance := None; he_match_tool := tool; he_match_context := None;
  he_match_principal := None; he_action := action; he_priority := priority; he_kaish_script_id := None;
|}.

(** The tables list the hooks out of order. *)
Definition hooked : Demo := bound <| br_hooks := {|
  ht_pre_call := [hook "late" (Some "write") 5 (HShortCircuit (result_text "never"));
                  hook "trace" None (-1) (HLog "calls" LogDebug);
                  hook "no-writes" (Some "write") 0 (HDeny "read only")];
  ht_post_call := [hook "shout" (Some "read") 0 (HShortCircuit (result_text "DATA"))];
  ht_on_error := []; ht_on_notification := [];
  ht_list_tools := [hook "hide" (Some "write") 0 (HDeny "hidden")] |} |>.

Definition outcome {A} (o : option (result McpError A * Demo)) : option (result McpError A) := fst <$> o.

(** The first matching hook by priority decides: the write is denied before it reaches the
    server, the read reaches it and its result is replaced, and the server of the other
    instance is out of bounds. *)
Example hooks_decide :
  outcome (broker_call_tool None (tool_call "files" "write") caller hooked) = Some (Err (EDenied "no-writes")) ∧
  outcome (broker_call_tool None (tool_call "files" "read") caller hooked) = Some (Ok (result_text "DATA")) ∧
  outcome (broker_call_tool None (tool_call "notes" "read") caller hooked) =
    Some (Err (ECapabilityDenied "notes" "read")) ∧
  outcome (broker_call_tool None (tool_call "gone" "read") caller hooked) = Some (Err (EInstanceNotFound "gone")).
Proof. vm_compute. repeat split. Qed.

Lemma call_pipeline_witness :
  ∃ b', broker_call_tool None (tool_call "files" "read") caller hooked = Some (Ok (result_text "DATA"), b') ∧
    br_world b' = [("files", "read")] ∧ rest b' = rest hooked.
Proof.
  destruct (call_pipeline None (tool_call "files" "read") caller hooked files) as [_ (permit&b1&_&Hh&Hw&Hb)].
  - vm_compute. reflexivity.
  - vm_compute. exact I.
  - vm_compute. intros [|]; discriminate.
  - intros []; repeat constructor.
  - intros b race b' Hh Hc. destruct (toy_answers files eq_refl (Some 0%nat) (tool_call "files" "read") caller b).
    injection Hc as _ <-. intros phase. change (br_hooks (toy_call _ _ _ b)) with (br_hooks b). rewrite Hh.
    destruct phase; repeat constructor.
  - set (call := tool_call "files" "read") in *.
    assert (pipeline_spec (Some 0%nat) (policy_for hooked call) files call caller b1 =
      (Ok (result_text "DATA"), toy_call files call caller b1)) as E.
    { unfold pipeline_spec. rewrite Hh.
      assert (verdict (matching (br_hooks hooked) PreCall call caller) = PContinue) as -> by (vm_compute; reflexivity).
      cbn [server_call_tool demo_servers]. change (br_hooks (toy_call files call caller b1)) with (br_hooks b1).
      by rewrite Hh. }
    cbn zeta in Hb. cbn [default] in Hb. change (default 0%nat None) with 0%nat in Hb. rewrite E in Hb.
    destruct Hb as [Hb Hr]. exists (give_back permit (toy_call files call caller b1)).
    split; [exact Hb|]. split; [|exact (Hr _ (toy_answers files eq_refl))].
    transitivity (("files", "read") :: br_world b1); [by destruct permit|]. by rewrite Hw.
Defined.

(** A server of the kernel changes the binding of its caller within the call: the call
    itself ends well, and the next one is refused. *)
Example kernel_server_unbinds :
  let b := after (register bindings policy_defaults;; set_binding ctx0 (with_instances ["bindings"])) empty in
  let b' := after (broker_call_tool None (tool_call "bindings" "unbind") caller;; m_ret tt) b in
  outcome (broker_call_tool None (tool_call "bindings" "unbind") caller b) = Some (Ok (result_text "gone")) ∧
  br_permits b' = br_permits b ∧ br_bindings b' = {[ctx0 := binding_new]} ∧
  outcome (broker_call_tool None (tool_call "bindings" "unbind") caller b') =
    Some (Err (ECapabilityDenied "bindings" "unbind")).
Proof. vm_compute. repeat split. Qed.

(** A hook that calls the tool it guards runs until the limit of depth; every level sees the
    failure of the next, and the outermost one refuses the call. *)
Definition recursive : Demo := bound <| br_kj_dispatcher := true |> <| br_hooks := empty_hooks |>.
Definition loops : Demo := recursive <| br_hooks := {|
  ht_pre_call := [hook "loop" None 0 (HInvoke (HKaish "read"))];
  ht_post_call := []; ht_on_error := []; ht_on_notification := []; ht_list_tools := [] |} |>.

Example loop_ends :
  (λ x, (x.1, br_world x.2)) <$> broker_call_tool None (tool_call "files" "read") caller loops =
    Some (Err (EDenied "loop"), []) ∧
  outcome (broker_call_tool (Some MAX_HOOK_DEPTH) (tool_call "files" "read") caller loops) =
    Some (Err (EHookRecursionLimit 5)).
Proof. vm_compute. split; reflexivity. Qed.

(** Permits: with none left a call is refused, and the permits are back after a call. *)
Example permits_return :
  let policy := {| ip_call_timeout_ms := 1; ip_max_result_bytes := 100; ip_max_concurrency := 1 |} in
  let b := after (register files policy;; set_binding ctx0 (with_instances ["files"])) empty in
  br_permits (after (broker_call_tool None (tool_call "files" "read") caller;; m_ret tt) b) = [1%nat] ∧
  outcome (broker_call_tool None (tool_call "files" "read") caller (b <| br_permits := [0%nat] |>)) =
    Some (Err (EPolicy (PConcurrencyCap "files" 1))).
Proof. vm_compute. split; reflexivity. Qed.

(** ** Listings *)

Definition demo_listing (b : Demo) : list string :=
  match list_visible_tools ctx0 caller b with Some (Ok out, _) => out.*1 | _ => [] end.
Definition listed (b : Demo) : Demo := after (list_visible_tools ctx0 caller;; m_ret tt) b.

Lemma visible_tools_witness :
  ∃ out b', list_visible_tools ctx0 caller hooked = Some (Ok out, b') ∧ out.*1 = ["read"] ∧
    ∀ n kt, (n, kt) ∈ out → hook_shows hooked caller kt.
Proof.
  destruct (list_visible_tools ctx0 caller hooked) as [[[out|e] b']|] eqn:E;
    [|vm_compute in E; discriminate E|vm_compute in E; discriminate E].
  assert (names_inj (name_map (binding_or_new hooked ctx0))) as Hinj.
  { intros n m p Hn. vm_compute in Hn. discriminate Hn. }
  destruct (visible_tools hooked ctx0 caller out b' Hinj E) as (x'&lists&_&_&_&_&_&Hout&_).
  exists out, b'. split; [reflexivity|]. split.
  - vm_compute in E. injection E as <- _. reflexivity.
  - intros n kt Hn. apply Hout in Hn. tauto.
Defined.

(** A hidden tool is only hidden: the context calls it all the same, whether or not a
    demo_listing has named it before. *)
Example hidden_tool_is_callable :
  let b := hooked <| br_hooks := {| ht_pre_call := []; ht_post_call := []; ht_on_error := [];
    ht_on_notification := []; ht_list_tools := [hook "hide" (Some "write") 0 (HDeny "hidden")] |} |> in
  demo_listing b = ["read"] ∧
  outcome (broker_call_tool None (tool_call "files" "write") caller (listed b)) = Some (Ok (result_text "data")).
Proof. vm_compute. split; reflexivity. Qed.

(** Two tools whose names clean to the same name: one of them is not listed. *)
Definition dotted : Toy := {| toy_name := "dots"; toy_tools := ["a.b"; "a_b"]; toy_answer := ""; toy_kernel := false |}.

Example one_name_for_two :
  let b := after (register dotted policy_defaults;; set_binding ctx0 (with_instances ["dots"])) empty in
  demo_listing b = ["a_b"] ∧
  outcome (broker_call_tool None (tool_call "dots" "a_b") caller b) = Some (Ok (result_text "")).
Proof. vm_compute. split; reflexivity. Qed.

(** A name outlives its server: the tool of the same name of another server is allowed and
    callable, but not listed. *)
Example stale_name_hides :
  let b := after (set_binding ctx0 (with_instances ["files"; "notes"])) (after (register files policy_defaults) empty) in
  let b' := after (unregister "files";; register notes policy_defaults) (listed b) in
  demo_listing b = ["read"; "write"] ∧ demo_listing b' = [] ∧
  outcome (broker_call_tool None (tool_call "notes" "read") caller b') = Some (Ok (result_text "note")).
Proof. vm_compute. repeat split. Qed.

(** Two instances with a tool of the same name are told apart by their own names. *)
Example qualified_names :
  demo_listing (after (set_binding ctx0 (with_instances ["files"; "notes"])) two_servers) =
    ["files__read"; "write"; "notes__read"].
Proof. vm_compute. reflexivity. Qed.

(** ** Changes of binding *)

Lemma binding_change_reported_witness :
  ∃ b', set_binding ctx0 (with_instances ["notes"]) bound = Some (Ok tt, b') ∧
    br_documents b' = Some (report ctx0 ToolRemoved [("files", ["read"; "write"])]
      (report ctx0 ToolAdded [("notes", ["read"])] (default [] (br_documents bound)))).
Proof.
  destruct (binding_change_reported ctx0 (with_instances ["notes"]) bound (default [] (br_documents bound)))
    as (b'&Hset&_&_&Hdocs&_).
  - vm_compute. reflexivity.
  - vm_compute. reflexivity.
  - exists b'. split; [exact Hset|]. rewrite Hdocs. vm_compute. reflexivity.
Defined.
