(* ===== verification/Dag.v ===== *)
(** * The tree of a conversation ([kaijutsu-crdt/src/dag.rs])

    An index over the snapshots of a store, its traversals with their visited sets and
    the circuit breaker, and what they visit. *)

From S2P Require Import Prelude Text Tick Ids Track Cas Cell Block.

Section dag.
Context {json : JsonLib} {blib : BlockLib}.
Implicit Types (b : BlockSnapshot) (id : BlockId).

Record ConversationDAG := {
  dag_roots : list BlockId;
  dag_children : gmap BlockId (list BlockId);
  dag_blocks : gmap BlockId BlockSnapshot;
}.

Definition add_snapshot (D : ConversationDAG) b : ConversationDAG := {|
  dag_roots := match sn_parent_id b with Some _ => dag_roots D | None => dag_roots D ++ [sn_id b] end;
  dag_children :=
    match sn_parent_id b with
    | Some p => <[p := default [] (dag_children D !! p) ++ [sn_id b]]> (dag_children D)
    | None => dag_children D
    end;
  dag_blocks := <[sn_id b := b]> (dag_blocks D);
|}.

Definition from_snapshots (snapshots : list BlockSnapshot) : ConversationDAG :=
  foldl add_snapshot {| dag_roots := []; dag_children := ∅; dag_blocks := ∅ |} snapshots.

Implicit Types (D : ConversationDAG).

Definition dag_get D id : option BlockSnapshot := dag_blocks D !! id.
Definition get_children D id : list BlockId := default [] (dag_children D !! id).
Definition dag_is_empty D : bool := bool_decide (dag_blocks D = ∅).
Definition dag_len D : nat := size (dag_blocks D).

(** ** Traversals

    The list holds what is pending, the next one first; [None] is out of fuel. *)

Fixpoint subtree_loop D (fuel : nat) (stack : list BlockId) (visited : gset BlockId) :
    option (list BlockSnapshot) :=
  match fuel, stack with
  | O, _ => None
  | _, [] => Some []
  | S fuel', id :: stack' =>
      if bool_decide (id ∈ visited) then subtree_loop D fuel' stack' visited
      else
        let visited := {[id]} ∪ visited in
        if (MAX_DAG_DEPTH <? size visited)%nat then Some []
        else match dag_blocks D !! id with
             | Some b => cons b <$> subtree_loop D fuel' (get_children D id ++ stack') visited
             | None => subtree_loop D fuel' stack' visited
             end
  end.

(** [DfsIterator::next] and [BfsIterator::next], collected: they differ in where the
    children of a block go. *)
Section walk.
Variable push : list (nat * BlockId) → list (nat * BlockId) → list (nat * BlockId).

Fixpoint walk D (fuel : nat) (pending : list (nat * BlockId)) (visited : gset BlockId) :
    option (list (nat * BlockSnapshot)) :=
  match fuel, pending with
  | O, _ => None
  | _, [] => Some []
  | S fuel', (depth, id) :: pending' =>
      if bool_decide (id ∈ visited) then walk D fuel' pending' visited
      else
        let visited := {[id]} ∪ visited in
        if (MAX_DAG_DEPTH <? size visited)%nat then Some []
        else match dag_blocks D !! id with
             | Some b =>
                 cons (depth, b) <$>
                   walk D fuel' (push (pair (S depth) <$> get_children D id) pending') visited
             | None => walk D fuel' pending' visited
             end
  end.
End walk.

Definition push_front (kids rest : list (nat * BlockId)) := kids ++ rest.
Definition push_back (kids rest : list (nat * BlockId)) := rest ++ kids.

(** All edges, and one for the end. *)
Definition walk_fuel D (n : nat) : nat :=
  S (n + sum_list (length <$> (map_to_list (dag_children D)).*2)).

Definition subtree D (root : BlockId) : option (list BlockSnapshot) :=
  subtree_loop D (walk_fuel D 1) [root] ∅.
Definition iter_dfs D : option (list (nat * BlockSnapshot)) :=
  walk push_front D (walk_fuel D (length (dag_roots D))) (pair 0%nat <$> dag_roots D) ∅.
Definition iter_bfs D : option (list (nat * BlockSnapshot)) :=
  walk push_back D (walk_fuel D (length (dag_roots D))) (pair 0%nat <$> dag_roots D) ∅.

(** The loops along the parents; [n] is what is left of the circuit breaker. *)
Fixpoint depth_loop D (n : nat) (current : option BlockSnapshot) : nat :=
  match current, n with
  | Some b, S n' =>
      match sn_parent_id b with
      | Some p => S (depth_loop D n' (dag_blocks D !! p))
      | None => 0
      end
  | _, _ => 0
  end.
Definition depth D id : nat := depth_loop D MAX_DAG_DEPTH (dag_blocks D !! id).

Fixpoint dag_ancestors_loop D (n : nat) (current : BlockSnapshot) : list BlockSnapshot :=
  match n with
  | O => []
  | S n' =>
      match sn_parent_id current ≫= λ p, dag_blocks D !! p with
      | Some parent => parent :: dag_ancestors_loop D n' parent
      | None => []
      end
  end.
Definition ancestors D id : list BlockSnapshot :=
  match dag_blocks D !! id with
  | Some b => dag_ancestors_loop D MAX_DAG_DEPTH b
  | None => []
  end.

(** ** The index *)

Implicit Types (snaps : list BlockSnapshot).

Lemma from_snapshots_snoc snaps b :
  from_snapshots (snaps ++ [b]) = add_snapshot (from_snapshots snaps) b.
Proof. unfold from_snapshots. by rewrite foldl_snoc. Qed.

Lemma dag_roots_spec snaps :
  dag_roots (from_snapshots snaps) = sn_id <$> filter (λ b, sn_parent_id b = None) snaps.
Proof.
  induction snaps as [|b snaps IH] using rev_ind; [done|].
  rewrite from_snapshots_snoc, filter_app, fmap_app, <- IH. unfold add_snapshot. cbn [dag_roots].
  destruct (sn_parent_id b) eqn:E.
  - by rewrite filter_cons_False, app_nil_r by congruence.
  - by rewrite filter_cons_True.
Qed.

Lemma get_children_spec snaps p :
  get_children (from_snapshots snaps) p = sn_id <$> filter (λ b, sn_parent_id b = Some p) snaps.
Proof.
  induction snaps as [|b snaps IH] using rev_ind; [done|].
  rewrite from_snapshots_snoc, filter_app, fmap_app, <- IH. unfold get_children, add_snapshot. cbn [dag_children].
  destruct (sn_parent_id b) as [q|] eqn:E.
  - destruct (decide (q = p)) as [->|Hne].
    + rewrite lookup_insert_eq, filter_cons_True by done. done.
    + rewrite lookup_insert_ne, filter_cons_False by congruence. by rewrite app_nil_r.
  - rewrite filter_cons_False by congruence. by rewrite app_nil_r.
Qed.

Lemma dag_blocks_spec snaps id b : NoDup (sn_id <$> snaps) →
  dag_blocks (from_snapshots snaps) !! id = Some b ↔ b ∈ snaps ∧ sn_id b = id.
Proof.
  induction snaps as [|c snaps IH] using rev_ind.
  { intros _. cbn. split; [by intros ?%lookup_empty_Some|by intros [?%elem_of_nil _]]. }
  rewrite fmap_app. intros Hnd. apply NoDup_app in Hnd as (Hnd&Hdis&_).
  rewrite from_snapshots_snoc. cbn. rewrite lookup_insert_Some, IH, elem_of_app, list_elem_of_singleton by done.
  split.
  - intros [[<- <-]|[_ [? ?]]]; [by split; [right|]|by split; [left|]].
  - intros [[Hb| ->] <-]; [right|by left]. split; [|done]. intros E.
    apply (Hdis (sn_id b)); [by apply list_elem_of_fmap; exists b|]. apply list_elem_of_singleton. done.
Qed.
End dag.
