(* ===== verification/DagWalk.v ===== *)
(** * The traversals end, and visit what they should *)

From S2P Require Import Prelude Text Tick Ids Track Cas Cell Concrete Block Dag.

Section walk.
Context {json : JsonLib} {blib : BlockLib}.
Implicit Types (b : BlockSnapshot) (id : BlockId) (D : ConversationDAG) (snaps : list BlockSnapshot).

(** ** Termination: every edge is pushed at most once *)

Fixpoint open_edges (l : list (BlockId * list BlockId)) (visited : gset BlockId) : nat :=
  match l with
  | [] => 0
  | (p, kids) :: l' => ((if decide (p ∈ visited) then 0 else length kids) + open_edges l' visited)%nat
  end.

Lemma open_mono l id (v : gset BlockId) : (open_edges l ({[id]} ∪ v) ≤ open_edges l v)%nat.
Proof.
  induction l as [|[p kids] l IH]; cbn; [lia|].
  destruct (decide (p ∈ v)); [rewrite decide_True by set_solver; lia|].
  destruct (decide (p ∈ {[id]} ∪ v)); lia.
Qed.

Lemma open_visit l id kids (v : gset BlockId) : NoDup l.*1 → (id, kids) ∈ l → id ∉ v →
  (length kids + open_edges l ({[id]} ∪ v) ≤ open_edges l v)%nat.
Proof.
  intros Hnd Hin Hv. induction l as [|[p k] l IH]; [by apply elem_of_nil in Hin|]. cbn in *.
  apply NoDup_cons in Hnd as [Hp Hnd]. apply elem_of_cons in Hin as [[= <- <-]|Hin].
  - rewrite decide_True by set_solver. rewrite decide_False by done. pose proof (open_mono l id v). lia.
  - specialize (IH Hnd Hin). destruct (decide (p ∈ v)); [rewrite decide_True by set_solver; lia|].
    destruct (decide (p ∈ {[id]} ∪ v)); lia.
Qed.

Lemma open_all l : open_edges l ∅ = sum_list (length <$> l.*2).
Proof. induction l as [|[p k] l IH]; [done|]. cbn. rewrite decide_False by set_solver. by rewrite IH. Qed.

Definition open D : gset BlockId → nat := open_edges (map_to_list (dag_children D)).

Lemma open_children D id v : id ∉ v → (length (get_children D id) + open D ({[id]} ∪ v) ≤ open D v)%nat.
Proof.
  intros Hv. unfold get_children, open. destruct (dag_children D !! id) as [kids|] eqn:E; cbn.
  - apply open_visit; [apply NoDup_fst_map_to_list|by apply elem_of_map_to_list|done].
  - apply open_mono.
Qed.

Section push.
Variable push : list (nat * BlockId) → list (nat * BlockId) → list (nat * BlockId).
Hypothesis push_perm : ∀ kids rest, push kids rest ≡ₚ kids ++ rest.

Lemma walk_ends D fuel pending visited :
  (length pending + open D visited < fuel)%nat → ∃ out, walk push D fuel pending visited = Some out.
Proof.
  revert pending visited. induction fuel as [|fuel IH]; intros pending visited Hf; [lia|].
  destruct pending as [|[d id] pending]; cbn [walk]; [by exists []|]. cbn [length] in Hf.
  case_bool_decide as Hv; [apply IH; lia|].
  destruct (_ <? _)%nat; [by exists []|]. pose proof (open_children D id visited Hv).
  destruct (dag_blocks D !! id) as [b|]; [|apply IH; lia].
  edestruct IH as [out Hout]; [|by rewrite Hout; eexists].
  rewrite push_perm, length_app, length_fmap. lia.
Qed.

(** ** Soundness *)

(** What the pending list leads to. *)
Inductive seen D (pending : list (nat * BlockId)) : nat → BlockId → Prop :=
  | seen_start d id : (d, id) ∈ pending → seen D pending d id
  | seen_kid d p id : seen D pending d p → is_Some (dag_blocks D !! p) →
      id ∈ get_children D p → seen D pending (S d) id.

Lemma seen_mono D p p' d id : (∀ d id, (d, id) ∈ p → seen D p' d id) → seen D p d id → seen D p' d id.
Proof. intros H. induction 1; [by apply H|by eapply seen_kid]. Qed.

Definition ids (out : list (nat * BlockSnapshot)) : list BlockId := (λ x, sn_id x.2) <$> out.

(** Blocks are found under their ids. *)
Definition keyed D : Prop := ∀ id b, dag_blocks D !! id = Some b → sn_id b = id.

Lemma walk_sound D fuel : keyed D → ∀ pending visited out,
  walk push D fuel pending visited = Some out → (size visited ≤ MAX_DAG_DEPTH)%nat →
  NoDup (ids out) ∧ (length out + size visited ≤ MAX_DAG_DEPTH)%nat ∧
  ∀ d b, (d, b) ∈ out → sn_id b ∉ visited ∧ dag_blocks D !! sn_id b = Some b ∧ seen D pending d (sn_id b).
Proof.
  intros Hk. induction fuel as [|fuel IH]; [done|]. intros [|[d0 id] pending] visited out; cbn [walk].
  { intros [= <-] ?. split; [constructor|]. split; [cbn; lia|by intros ? ? ?%elem_of_nil]. }
  assert (∀ d b, seen D pending d (sn_id b) → seen D ((d0, id) :: pending) d (sn_id b)) as Hrest.
  { intros d b. apply seen_mono. intros. apply seen_start. by right. }
  case_bool_decide as Hv.
  { intros Hw Hs. destruct (IH _ _ _ Hw Hs) as (?&?&H). split_and!; [done..|]. intros d b (?&?&?)%H. eauto. }
  set (v' := {[id]} ∪ visited). assert (size v' = S (size visited)) as Hsize.
  { unfold v'. rewrite size_union, size_singleton by set_solver. done. }
  destruct (Nat.ltb_spec MAX_DAG_DEPTH (size v')).
  { intros [= <-] ?. split; [constructor|]. split; [cbn; lia|by intros ? ? ?%elem_of_nil]. }
  destruct (dag_blocks D !! id) as [b0|] eqn:Eb; intros Hw Hs.
  - destruct (walk push D fuel _ v') as [out'|] eqn:Hw'; [|done]. injection Hw as <-.
    destruct (IH _ _ _ Hw') as (Hnd&Hlen&H0); [done|]. pose proof (Hk _ _ Eb) as Hid.
    split; [|split].
    + cbn. constructor; [|done]. rewrite Hid. intros ([d b]&E&Hin)%list_elem_of_fmap. cbn in E.
      apply H0 in Hin as (Hn&_). rewrite <- E in Hn. apply Hn. set_solver.
    + cbn. lia.
    + intros d b [[= -> ->]|Hin]%elem_of_cons.
      * rewrite Hid. split_and!; [done|done|]. apply seen_start. by left.
      * apply H0 in Hin as (Hn&Hb&Hsn). split; [set_solver|]. split; [done|]. revert Hsn. apply seen_mono.
        intros d1 id1. rewrite push_perm, elem_of_app, list_elem_of_fmap. intros [(k&[= -> ->]&Hkid)|Hin].
        { eapply seen_kid; [apply seen_start; by left|by eexists|done]. }
        { apply seen_start. by right. }
  - destruct (IH _ _ _ Hw) as (?&?&H0); [done|]. split; [done|]. split; [lia|].
    intros d b (?&?&?)%H0. split; [set_solver|]. eauto.
Qed.

(** ** Completeness, where the circuit breaker does not fire *)

Lemma walk_complete D (U : gset BlockId) fuel : keyed D → (size U ≤ MAX_DAG_DEPTH)%nat →
  (∀ p kid, p ∈ U → kid ∈ get_children D p → kid ∈ U) →
  ∀ pending visited out, walk push D fuel pending visited = Some out →
  visited ⊆ U → (∀ x, x ∈ pending → x.2 ∈ U) →
  (∀ x, x ∈ pending → is_Some (dag_blocks D !! x.2) → x.2 ∈ visited ∨ x.2 ∈ ids out) ∧
  (∀ p kid, p ∈ ids out → kid ∈ get_children D p → is_Some (dag_blocks D !! kid) →
     kid ∈ visited ∨ kid ∈ ids out).
Proof.
  intros Hk HU Hcl. induction fuel as [|fuel IH]; [done|]. intros [|[d0 id] pending] visited out; cbn [walk].
  { intros [= <-] _ _. split; [by intros ? ?%elem_of_nil|by intros ? ? ?%elem_of_nil]. }
  intros Hw Hvis Hpend.
  assert (id ∈ U) as Hid by (apply (Hpend (d0, id)); by left).
  assert (∀ x, x ∈ pending → x.2 ∈ U) as Hpend' by (intros; apply Hpend; by right).
  case_bool_decide as Hv.
  { destruct (IH _ _ _ Hw Hvis Hpend') as [H1 H2]. split; [|done].
    intros x [->|Hx]%elem_of_cons; [by left|by apply H1]. }
  set (v' := {[id]} ∪ visited) in *. assert (v' ⊆ U) as Hv' by set_solver.
  pose proof (subseteq_size _ _ Hv').
  destruct (Nat.ltb_spec MAX_DAG_DEPTH (size v')); [lia|].
  destruct (dag_blocks D !! id) as [b0|] eqn:Eb.
  - destruct (walk push D fuel _ v') as [out'|] eqn:Hw'; [|done]. injection Hw as <-.
    pose proof (Hk _ _ Eb) as Hb0.
    destruct (IH _ _ _ Hw' Hv') as [H1 H2].
    { intros x. rewrite push_perm, elem_of_app, list_elem_of_fmap. intros [(k&->&Hkid)|Hx]; [|by apply Hpend'].
      by apply (Hcl id). }
    assert (∀ y, y ∈ v' ∨ y ∈ ids out' → y ∈ visited ∨ y ∈ ids ((d0, b0) :: out')) as Hgrow.
    { intros y [Hy|Hy]; cbn; rewrite elem_of_cons, Hb0; [|by right; right].
      unfold v' in Hy. apply elem_of_union in Hy as [->%elem_of_singleton|?]; [right; by left|by left]. }
    split.
    + intros x Hx Hs. apply Hgrow. apply elem_of_cons in Hx as [->|Hx]; [left; set_solver|].
      apply H1; [|done]. rewrite push_perm. apply elem_of_app. by right.
    + intros p kid Hp Hkid Hs. apply Hgrow. cbn in Hp. apply elem_of_cons in Hp as [->|Hp]; [|by apply (H2 p)].
      rewrite Hb0 in Hkid. apply (H1 (S d0, kid)); [|done]. rewrite push_perm. apply elem_of_app. left.
      apply list_elem_of_fmap. by exists kid.
  - destruct (IH _ _ _ Hw Hv' Hpend') as [H1 H2].
    assert (∀ y, is_Some (dag_blocks D !! y) → y ∈ v' ∨ y ∈ ids out → y ∈ visited ∨ y ∈ ids out) as Hback.
    { intros y Hs [Hy|Hy]; [|by right]. unfold v' in Hy.
      apply elem_of_union in Hy as [->%elem_of_singleton|?]; [|by left]. rewrite Eb in Hs. by destruct Hs. }
    split.
    + intros x [->|Hx]%elem_of_cons Hs; [cbn in Hs; rewrite Eb in Hs; by destruct Hs|]. apply Hback; [done|by apply H1].
    + intros p kid Hp Hkid Hs. apply Hback; [done|by apply (H2 p)].
Qed.
End push.

(** ** The order of the breadth-first walk *)

Lemma bfs_sorted D fuel : ∀ d a a' visited out,
  walk push_back D fuel ((pair d <$> a) ++ (pair (S d) <$> a')) visited = Some out →
  Sorted le out.*1 ∧ ∀ e, e ∈ out.*1 → (d ≤ e)%nat.
Proof.
  induction fuel as [|fuel IH]; [done|].
  assert (∀ d a a' id visited out,
    walk push_back D (S fuel) ((pair d <$> id :: a) ++ (pair (S d) <$> a')) visited = Some out →
    Sorted le out.*1 ∧ ∀ e, e ∈ out.*1 → (d ≤ e)%nat) as Hstep.
  { intros d a a' id visited out. cbn [walk fmap list_fmap app].
    case_bool_decide; [apply IH|]. destruct (_ <? _)%nat; [intros [= <-]; by split; [|intros ? ?%elem_of_nil]|].
    destruct (dag_blocks D !! id) as [b|]; [|apply IH].
    destruct (walk _ _ _ _ _) as [out'|] eqn:Hw; [|done]. intros [= <-].
    unfold push_back in Hw. rewrite <- app_assoc, <- fmap_app in Hw. apply IH in Hw as [Hs Hle].
    cbn [fmap list_fmap fst]. split; [|by intros e [->|?]%elem_of_cons; [|apply Hle]].
    constructor; [done|]. destruct (out'.*1) as [|e l]; constructor. apply Hle. by left. }
  intros d [|id a] a' visited out; [|apply Hstep].
  destruct a' as [|id a']; [intros [= <-]; by split; [|intros ? ?%elem_of_nil]|].
  intros Hw. specialize (Hstep (S d) a' [] id visited out). cbn [fmap list_fmap app] in Hstep, Hw.
  rewrite app_nil_r in Hstep. apply Hstep in Hw as [Hs Hle]. split; [done|]. intros e ?%Hle. lia.
Qed.

(** [subtree] is the depth-first walk from one block, its depths dropped. *)
Lemma subtree_walk D fuel pending visited :
  subtree_loop D fuel pending.*2 visited = (λ out, out.*2) <$> walk push_front D fuel pending visited.
Proof.
  revert pending visited. induction fuel as [|fuel IH]; [done|].
  intros [|[d id] pending] visited; [done|]. cbn [fmap list_fmap snd subtree_loop walk].
  case_bool_decide; [apply IH|]. destruct (_ <? _)%nat; [done|].
  destruct (dag_blocks D !! id) as [b|]; [|apply IH].
  assert (∀ l : list BlockId, (pair (S d) <$> l).*2 = l) as Hsnd by (intros l; rewrite <- list_fmap_compose; apply list_fmap_id).
  specialize (IH (push_front (pair (S d) <$> get_children D id) pending) ({[id]} ∪ visited)).
  unfold push_front at 1 in IH. rewrite fmap_app, Hsnd in IH. rewrite IH. by destruct (walk _ _ _ _ _).
Qed.

(** ** What the walks visit, in terms of the snapshots *)

(** A block some steps of [sn_parent_id] below one that satisfies [start]. *)
Inductive below snaps (start : BlockSnapshot → Prop) : nat → BlockSnapshot → Prop :=
  | below_start b : b ∈ snaps → start b → below snaps start 0 b
  | below_kid d p b : below snaps start d p → b ∈ snaps → sn_parent_id b = Some (sn_id p) →
      below snaps start (S d) b.

Definition is_root b : Prop := sn_parent_id b = None.

Lemma below_in snaps start d b : below snaps start d b → b ∈ snaps.
Proof. by destruct 1. Qed.

Lemma id_inj snaps b c : NoDup (sn_id <$> snaps) → b ∈ snaps → c ∈ snaps → sn_id b = sn_id c → b = c.
Proof.
  intros Hnd Hb Hc E. apply (dag_blocks_spec _ (sn_id c) b) in Hnd as Hb'. apply (dag_blocks_spec _ (sn_id c) c) in Hnd.
  assert (dag_blocks (from_snapshots snaps) !! sn_id c = Some b) by (by apply Hb').
  assert (dag_blocks (from_snapshots snaps) !! sn_id c = Some c) by (by apply Hnd). congruence.
Qed.

Lemma level_unique snaps d d' b : NoDup (sn_id <$> snaps) →
  below snaps is_root d b → below snaps is_root d' b → d = d'.
Proof.
  intros Hnd Hd. revert d'. induction Hd as [b Hb Hs|d p b Hp IH Hb Hpb]; intros d'; destruct 1 as [b|d' q b Hq].
  - done.
  - unfold is_root in Hs. congruence.
  - unfold is_root in *. congruence.
  - f_equal. apply IH. replace p with q; [done|].
    apply (id_inj snaps); [done|by eapply below_in..|congruence].
Qed.

Lemma from_snapshots_keyed snaps : keyed (from_snapshots snaps).
Proof.
  unfold keyed. induction snaps as [|b snaps IH] using rev_ind; [cbn; by intros ? ? ?%lookup_empty_Some|].
  rewrite from_snapshots_snoc. unfold add_snapshot. cbn [dag_blocks]. intros id c [[<- <-]|[_ ?]]%lookup_insert_Some; [done|by apply IH].
Qed.

Section visits.
Context (snaps : list BlockSnapshot) (start : BlockSnapshot → Prop) (roots : list BlockId).
Hypothesis snaps_nodup : NoDup (sn_id <$> snaps).
Hypothesis start_iff : ∀ b, b ∈ snaps → sn_id b ∈ roots ↔ start b.
Local Notation D := (from_snapshots snaps).

Lemma seen_below d id b : dag_blocks D !! id = Some b →
  seen D (pair 0%nat <$> roots) d id ↔ below snaps start d b.
Proof.
  intros Hb. split.
  - intros Hs. revert b Hb. induction Hs as [d id Hin|d p id Hs IH [q Hq] Hkid]; intros b Hb.
    + apply list_elem_of_fmap in Hin as (?&[= -> ->]&Hin). apply dag_blocks_spec in Hb as [Hb <-]; [|done].
      apply below_start; [done|by apply start_iff].
    + apply (below_kid _ _ _ q); [by apply IH|by apply dag_blocks_spec in Hb as [? _]|].
      rewrite get_children_spec in Hkid. apply list_elem_of_fmap in Hkid as (c&->&Hc).
      apply list_elem_of_filter in Hc as [Hp Hc]. rewrite (from_snapshots_keyed _ _ _ Hq).
      apply dag_blocks_spec in Hb as [? ?]; [|done]. replace b with c; [done|]. by apply (id_inj snaps).
  - intros Hbl. revert id Hb. induction Hbl as [b Hb Hs|d p b Hp IH Hb Hpar]; intros id Hid;
      apply dag_blocks_spec in Hid as [_ <-]; try done.
    + apply seen_start. apply list_elem_of_fmap. exists (sn_id b). split; [done|]. by apply start_iff.
    + assert (dag_blocks D !! sn_id p = Some p) as Hp'.
      { apply dag_blocks_spec; [done|]. split; [by eapply below_in|done]. }
      eapply seen_kid; [by apply IH|by eexists|]. rewrite get_children_spec. apply list_elem_of_fmap.
      exists b. split; [done|]. by apply list_elem_of_filter.
Qed.

Hypothesis roots_known : ∀ id, id ∈ roots → id ∈ sn_id <$> snaps.
Hypothesis small : (length snaps ≤ MAX_DAG_DEPTH)%nat.

Lemma walk_visits push fuel out : (∀ kids rest, push kids rest ≡ₚ kids ++ rest) →
  walk push D fuel (pair 0%nat <$> roots) ∅ = Some out →
  (∀ d b, (d, b) ∈ out → below snaps start d b) ∧ (∀ d b, below snaps start d b → b ∈ out.*2).
Proof.
  intros Hpush Hw. pose proof (from_snapshots_keyed snaps) as Hk.
  destruct (walk_sound push Hpush _ _ Hk _ _ _ Hw) as (Hnd&_&Hsound); [rewrite size_empty; lia|].
  split; [intros d b (_&Hb&Hs)%Hsound; by apply (seen_below _ (sn_id b))|].
  assert (∀ b, b ∈ snaps → dag_blocks D !! sn_id b = Some b) as Hblk.
  { intros b Hb. by apply dag_blocks_spec. }
  set (U := list_to_set (sn_id <$> snaps) : gset BlockId).
  assert (Hcomplete := λ H1 H2, walk_complete push Hpush D U fuel Hk H1 H2 _ _ _ Hw (empty_subseteq _)).
  destruct Hcomplete as [Hstart Hkids]; [..|].
  - unfold U. rewrite size_list_to_set, length_fmap by done. done.
  - intros p kid _. rewrite get_children_spec. intros (b&->&[_ Hb]%list_elem_of_filter)%list_elem_of_fmap.
    apply elem_of_list_to_set, list_elem_of_fmap. by exists b.
  - intros x (id&->&Hid)%list_elem_of_fmap. apply elem_of_list_to_set. by apply roots_known.
  - assert (∀ d b, below snaps start d b → sn_id b ∈ ids out) as Hids.
    { induction 1 as [b Hb Hs|d p b Hp IH Hb Hpar].
      - destruct (Hstart (0%nat, sn_id b)) as [H|H]; [| |by apply elem_of_empty in H|done].
        + apply list_elem_of_fmap. exists (sn_id b). split; [done|]. by apply start_iff.
        + eexists. by apply Hblk.
      - destruct (Hkids (sn_id p) (sn_id b) IH) as [H|H]; [| |by apply elem_of_empty in H|done].
        + rewrite get_children_spec. apply list_elem_of_fmap. exists b. split; [done|]. by apply list_elem_of_filter.
        + eexists. by apply Hblk. }
    intros d b Hb. pose proof (Hids _ _ Hb) as ([d' c]&E&Hin)%list_elem_of_fmap. cbn in E.
    apply list_elem_of_fmap. exists (d', c). split; [|done]. cbn. apply Hsound in Hin as (_&Hc&_).
    apply below_in in Hb. rewrite <- E, Hblk in Hc by done. congruence.
Qed.

(** No two steps of the walk give one block. *)
Lemma walk_snd_nodup push fuel out : (∀ kids rest, push kids rest ≡ₚ kids ++ rest) →
  walk push D fuel (pair 0%nat <$> roots) ∅ = Some out → NoDup out.*2.
Proof.
  intros Hpush Hw. destruct (walk_sound push Hpush _ _ (from_snapshots_keyed snaps) _ _ _ Hw) as (Hnd&_);
    [rewrite size_empty; lia|].
  unfold ids in Hnd. apply (NoDup_fmap_1 sn_id). by rewrite <- list_fmap_compose.
Qed.
End visits.

Lemma push_front_perm kids rest : push_front kids rest ≡ₚ kids ++ rest.
Proof. done. Qed.
Lemma push_back_perm kids rest : push_back kids rest ≡ₚ kids ++ rest.
Proof. apply Permutation_app_comm. Qed.

Lemma walk_some push D roots : (∀ kids rest, push kids rest ≡ₚ kids ++ rest) →
  ∃ out, walk push D (walk_fuel D (length roots)) (pair 0%nat <$> roots) ∅ = Some out.
Proof.
  intros Hp. apply walk_ends; [done|]. rewrite length_fmap. unfold open, walk_fuel. rewrite open_all. lia.
Qed.

(** Whatever the snapshots, cycles included, a traversal ends within the breaker's bound. *)
Lemma walk_bounded push D roots out fuel : (∀ kids rest, push kids rest ≡ₚ kids ++ rest) → keyed D →
  walk push D fuel (pair 0%nat <$> roots) ∅ = Some out → NoDup (ids out) ∧ (length out ≤ MAX_DAG_DEPTH)%nat.
Proof.
  intros Hp Hk Hw. destruct (walk_sound push Hp _ _ Hk _ _ _ Hw) as (?&?&_); rewrite ?size_empty; [lia|].
  rewrite size_empty in *. split; [done|lia].
Qed.

Lemma depth_level snaps d b n : NoDup (sn_id <$> snaps) → below snaps is_root d b →
  depth_loop (from_snapshots snaps) n (Some b) = min d n.
Proof.
  intros Hnd Hd. revert n. induction Hd as [b Hb Hs|d p b Hp IH Hb Hpar]; intros [|n]; cbn [depth_loop]; try lia.
  - unfold is_root in Hs. by rewrite Hs.
  - rewrite Hpar. replace (dag_blocks _ !! sn_id p) with (Some p); [rewrite IH; lia|].
    symmetry. apply dag_blocks_spec; [done|]. split; [by eapply below_in|done].
Qed.

(** A block is no deeper than there are blocks: its chain holds one block per level. *)
Lemma level_bound snaps d b : NoDup (sn_id <$> snaps) → below snaps is_root d b → (d < length snaps)%nat.
Proof.
  intros Hnd Hb.
  assert (∃ l, length l = S d ∧ NoDup l ∧ ∀ x, x ∈ l → x ∈ snaps ∧ ∃ e, (e ≤ d)%nat ∧ below snaps is_root e x)
    as (l&Hlen&Hl&Hin).
  { induction Hb as [b Hb Hs|d p b Hp IH Hb Hpar].
    - exists [b]. split_and!; [done|apply NoDup_singleton|]. intros x ->%list_elem_of_singleton.
      split; [done|]. exists 0%nat. split; [lia|by apply below_start].
    - destruct IH as (l&Hlen&Hl&Hin). exists (b :: l). assert (below snaps is_root (S d) b) by by eapply below_kid.
      split_and!; [cbn; lia| |].
      + constructor; [|done]. intros (_&e&He&Hbe)%Hin. enough (S d = e) by lia. by eapply level_unique.
      + intros x [->|Hx]%elem_of_cons; [split; [done|]; exists (S d); split; [lia|done]|].
        apply Hin in Hx as (?&e&?&?). split; [done|]. exists e. split; [lia|done]. }
  enough (length l ≤ length snaps)%nat by lia. apply submseteq_length, NoDup_submseteq; [done|].
  intros x Hx. by apply Hin.
Qed.

Lemma in_snd (out : list (nat * BlockSnapshot)) b : b ∈ out.*2 ↔ ∃ d, (d, b) ∈ out.
Proof.
  rewrite list_elem_of_fmap. split; [by intros ([d c]&->&?); exists d|by intros [d ?]; exists (d, b)].
Qed.

Lemma level_walk snaps push out : NoDup (sn_id <$> snaps) → (length snaps ≤ MAX_DAG_DEPTH)%nat →
  (∀ kids rest, push kids rest ≡ₚ kids ++ rest) →
  walk push (from_snapshots snaps) (walk_fuel (from_snapshots snaps) (length (dag_roots (from_snapshots snaps))))
    (pair 0%nat <$> dag_roots (from_snapshots snaps)) ∅ = Some out →
  NoDup out.*2 ∧ ∀ d b, (d, b) ∈ out ↔ below snaps is_root d b.
Proof.
  intros Hnd Hlen Hp Hw. split; [by eapply walk_snd_nodup|].
  destruct (walk_visits snaps is_root (dag_roots (from_snapshots snaps)) Hnd) with (4 := Hp) (5 := Hw) as [Hs Hc].
  - intros b Hb. rewrite dag_roots_spec, list_elem_of_fmap. unfold is_root. split.
    + intros (c&E&[Hc Hin]%list_elem_of_filter). by replace b with c; [|apply (id_inj snaps)].
    + intros E. exists b. by rewrite list_elem_of_filter.
  - intros id. rewrite dag_roots_spec, !list_elem_of_fmap. intros (c&->&[_ Hin]%list_elem_of_filter). by exists c.
  - done.
  - intros d b. split; [apply Hs|]. intros Hb. destruct (proj1 (in_snd _ _) (Hc _ _ Hb)) as [d' Hin].
    by rewrite (level_unique snaps d d' b Hnd Hb (Hs _ _ Hin)).
Qed.

(** Whatever the snapshots, parents that are missing and cycles included, every
    traversal ends, with at most [MAX_DAG_DEPTH] blocks, none twice. *)
Lemma traversals_end snaps (D := from_snapshots snaps) :
  (∃ dfs, iter_dfs D = Some dfs ∧ NoDup (ids dfs) ∧ (length dfs ≤ MAX_DAG_DEPTH)%nat) ∧
  (∃ bfs, iter_bfs D = Some bfs ∧ NoDup (ids bfs) ∧ (length bfs ≤ MAX_DAG_DEPTH)%nat) ∧
  ∀ root, ∃ sub, subtree D root = Some sub ∧ NoDup (sn_id <$> sub) ∧ (length sub ≤ MAX_DAG_DEPTH)%nat.
Proof.
  pose proof (from_snapshots_keyed snaps) as Hk. split_and!.
  - destruct (walk_some push_front D (dag_roots D) push_front_perm) as [out Hout]. exists out.
    split; [done|]. by eapply (walk_bounded push_front); [apply push_front_perm|exact Hk|].
  - destruct (walk_some push_back D (dag_roots D) push_back_perm) as [out Hout]. exists out.
    split; [done|]. by eapply (walk_bounded push_back); [apply push_back_perm|exact Hk|].
  - intros root. destruct (walk_some push_front D [root] push_front_perm) as [out Hout]. exists out.*2.
    pose proof (subtree_walk D (walk_fuel D 1) [(0%nat, root)] ∅) as E. unfold subtree.
    cbn [fmap list_fmap snd] in E. rewrite E. change (length [root]) with 1%nat in Hout.
    pose proof (walk_bounded push_front D [root] out _ push_front_perm Hk Hout) as [Hnd Hlen].
    cbn [fmap list_fmap] in Hout. rewrite Hout. split; [done|].
    split; [by unfold ids in Hnd; rewrite <- list_fmap_compose|by rewrite length_fmap].
Qed.

(** A conversation of at most [MAX_DAG_DEPTH] blocks is traversed whole, in either
    order: [iter_dfs] and [iter_bfs] end, list the same blocks, each once, exactly those
    that hang below a root, each with its number of steps from that root, which is also
    what [depth] answers; breadth first lists them by that depth, and the subtree of a
    block is the blocks that hang below it. *)
Theorem dag_traversals snaps (D := from_snapshots snaps) :
  NoDup (sn_id <$> snaps) → (length snaps ≤ MAX_DAG_DEPTH)%nat →
  ∃ dfs bfs, iter_dfs D = Some dfs ∧ iter_bfs D = Some bfs ∧ dfs ≡ₚ bfs ∧ NoDup dfs.*2 ∧
    (∀ d b, (d, b) ∈ dfs ↔ below snaps is_root d b) ∧ Sorted le bfs.*1 ∧
    (∀ d b, (d, b) ∈ dfs → depth D (sn_id b) = d) ∧
    ∀ root, root ∈ snaps → ∃ sub, subtree D (sn_id root) = Some sub ∧ NoDup sub ∧
      ∀ b, b ∈ sub ↔ ∃ d, below snaps (eq root) d b.
Proof.
  intros Hnd Hlen. unfold iter_dfs, iter_bfs.
  destruct (walk_some push_front D (dag_roots D) push_front_perm) as [dfs Hdfs].
  destruct (walk_some push_back D (dag_roots D) push_back_perm) as [bfs Hbfs].
  destruct (level_walk snaps _ dfs Hnd Hlen push_front_perm Hdfs) as [Hnd1 H1].
  destruct (level_walk snaps _ bfs Hnd Hlen push_back_perm Hbfs) as [Hnd2 H2].
  exists dfs, bfs. split_and!; try done.
  - apply NoDup_Permutation; [by eapply NoDup_fmap_1..|]. intros [d b]. by rewrite H1, H2.
  - apply (bfs_sorted D (walk_fuel D (length (dag_roots D))) 0%nat (dag_roots D) [] ∅). by rewrite app_nil_r.
  - intros d b Hb%H1. unfold depth. pose proof (level_bound _ _ _ Hnd Hb).
    replace (dag_blocks D !! sn_id b) with (Some b); [trans (min d MAX_DAG_DEPTH); [by apply depth_level|lia]|].
    symmetry. apply dag_blocks_spec; [done|]. split; [by eapply below_in|done].
  - intros root Hroot. destruct (walk_some push_front D [sn_id root] push_front_perm) as [out Hout].
    exists out.*2. unfold subtree. pose proof (subtree_walk D (walk_fuel D 1) [(0%nat, sn_id root)] ∅) as E.
    cbn [fmap list_fmap snd] in E. rewrite E. change (length [sn_id root]) with 1%nat in Hout.
    cbn [fmap list_fmap] in Hout. rewrite Hout. split; [done|].
    split; [exact (walk_snd_nodup snaps [sn_id root] Hlen push_front _ out push_front_perm Hout)|].
    destruct (walk_visits snaps (eq root) [sn_id root] Hnd) with (4 := push_front_perm) (5 := Hout) as [Hs Hc].
    + intros b Hb. rewrite list_elem_of_singleton. split; [|by intros ->]. intros. by apply (id_inj snaps).
    + intros id ->%list_elem_of_singleton. by apply list_elem_of_fmap; exists root.
    + done.
    + intros b. rewrite in_snd. split; [by intros [d ?%Hs]; exists d|intros [d ?%Hc]; by apply in_snd].
Qed.
End walk.

(** * A conversation with a thread, one with a cycle, and a long flat one *)

Module DemoDag.
Export DemoBlock.

Definition demo_turn (n : Z) (parent : option Z) : BlockSnapshot :=
  let b := builder_new 0 (demo_id n) KText in
  match parent with Some p => with_parent_id (demo_id p) b | None => b end.

(** Two roots; the first has a child with a child, and a second child. *)
Definition demo_thread : list BlockSnapshot :=
  [demo_turn 1 None; demo_turn 2 (Some 1); demo_turn 3 (Some 2); demo_turn 4 None; demo_turn 5 (Some 1)].
(** Two blocks that are each other's parent. *)
Definition demo_cycle : list BlockSnapshot := [demo_turn 1 (Some 2); demo_turn 2 (Some 1); demo_turn 3 None].
Definition demo_flat (n : nat) : list BlockSnapshot := (λ k, demo_turn (Z.of_nat k) None) <$> List.seq 0 n.

Definition shape (out : option (list (nat * BlockSnapshot))) : option (list (nat * Z)) :=
  option_map (map (λ x, (x.1, seq (sn_id x.2)))) out.
End DemoDag.
Import DemoDag.

Lemma dag_traversals_witness :
  shape (iter_dfs (from_snapshots demo_thread)) = Some [(0%nat, 1); (1%nat, 2); (2%nat, 3); (1%nat, 5); (0%nat, 4)] ∧
  shape (iter_bfs (from_snapshots demo_thread)) = Some [(0%nat, 1); (0%nat, 4); (1%nat, 2); (1%nat, 5); (2%nat, 3)] ∧
  ∃ dfs bfs, iter_dfs (from_snapshots demo_thread) = Some dfs ∧ iter_bfs (from_snapshots demo_thread) = Some bfs ∧
    dfs ≡ₚ bfs.
Proof.
  split; [vm_compute; reflexivity|]. split; [vm_compute; reflexivity|].
  destruct (dag_traversals demo_thread) as (dfs&bfs&H1&H2&H3&_); [|cbn; unfold MAX_DAG_DEPTH; lia|by exists dfs, bfs].
  cbn. repeat (apply NoDup_cons; split; [set_solver|]). apply NoDup_nil. exact I.
Defined.

(** A cycle hangs below no root: a traversal of the whole misses it, the subtree of one of
    its blocks goes round once. *)
Example cycle_cut :
  shape (iter_dfs (from_snapshots demo_cycle)) = Some [(0%nat, 3)] ∧
  map (λ b, seq (sn_id b)) <$> subtree (from_snapshots demo_cycle) (demo_id 1) = Some [1; 2] ∧
  depth (from_snapshots demo_cycle) (demo_id 1) = MAX_DAG_DEPTH.
Proof. vm_compute. by split_and!. Qed.

(** The breaker counts the blocks visited, not how deep they are: a flat log of 520 blocks,
    all roots, is cut after 512. *)
Example flat_log_cut :
  (length <$> iter_dfs (from_snapshots (demo_flat 520))) = Some 512%nat ∧
  (length <$> iter_bfs (from_snapshots (demo_flat 520))) = Some 512%nat ∧
  dag_len (from_snapshots (demo_flat 520)) = 520%nat.
Proof. vm_compute. by split_and!. Qed.
