(* ===== verification/Drift.v ===== *)
(** * Drift between contexts ([kaijutsu-kernel/src/drift.rs], [kj/drift.rs])

    The router: the registry of contexts with its index of labels, and the queue of
    staged drifts with its dead letters. A router method is a [method]: [None] is a
    panic. The wall clock and fresh ids are arguments. The two hash maps are [gmap]s;
    their iteration order is the one of [map_to_list]. *)

From S2P Require Import Prelude Text Ids Track Cas Block.

Record ContextHandle := {
  ch_id : ContextId;
  ch_label : option string;
  ch_pwd : option string;
  ch_provider : option string;
  ch_model : option string;
  ch_forked_from : option ContextId;
  ch_created_by : PrincipalId;
  ch_created_at : Z;
  ch_trace_id : uuid;
  ch_state : ContextState;
}.
#[export] Instance ContextHandle_settable : Settable ContextHandle := λ h,
  {| ch_id := ch_id h; ch_label := ch_label h; ch_pwd := ch_pwd h; ch_provider := ch_provider h;
     ch_model := ch_model h; ch_forked_from := ch_forked_from h;
     ch_created_by := ch_created_by h; ch_created_at := ch_created_at h;
     ch_trace_id := ch_trace_id h; ch_state := ch_state h |}.

Record StagedDrift := {
  sd_id : Z;
  sd_source_ctx : ContextId;
  sd_target_ctx : ContextId;
  sd_content : string;
  sd_source_model : option string;
  sd_drift_kind : DriftKind;
  sd_created_at : Z;
  sd_retry_count : Z;
}.
#[export] Instance StagedDrift_settable : Settable StagedDrift := λ d,
  {| sd_id := sd_id d; sd_source_ctx := sd_source_ctx d; sd_target_ctx := sd_target_ctx d;
     sd_content := sd_content d; sd_source_model := sd_source_model d;
     sd_drift_kind := sd_drift_kind d; sd_created_at := sd_created_at d;
     sd_retry_count := sd_retry_count d |}.

Definition MAX_DRIFT_RETRIES : Z := 5.

Record DriftRouter := {
  contexts : gmap ContextId ContextHandle;
  staging : list StagedDrift;
  dead_letter : list StagedDrift;
  next_staged_id : Z;
  label_to_id : gmap string ContextId;
  lost_found_id : option ContextId;
}.
#[export] Instance DriftRouter_settable : Settable DriftRouter := λ r,
  {| contexts := contexts r; staging := staging r; dead_letter := dead_letter r;
     next_staged_id := next_staged_id r; label_to_id := label_to_id r;
     lost_found_id := lost_found_id r |}.

Inductive DriftError :=
  | UnknownContext (query : string)
  | AmbiguousContext (prefix : string) (candidates : list string)
  | LabelInUse (label existing : string)
  | DocumentError (msg : string)
  | LlmError (msg : string).

(** The order of [list_contexts]: [sort_by_key(|c| c.created_at)], which is stable. *)
Definition older (a b : ContextHandle) : Prop := ch_created_at a ≤ ch_created_at b.
#[export] Instance older_dec : RelDecision older.
Proof. intros a b. unfold older. apply _. Defined.

Section drift.
Context {uuids : UuidCrate}.
Implicit Types (r : DriftRouter) (d : StagedDrift).

Abbreviation router_method := (method DriftRouter DriftError).

Definition ctx_short (c : ContextId) : string := id_short (context_uuid c).
Definition display_name (h : ContextHandle) : string :=
  id_display_or (context_uuid (ch_id h)) (ch_label h).

Definition router_new : DriftRouter :=
  {| contexts := ∅; staging := []; dead_letter := []; next_staged_id := 1;
     label_to_id := ∅; lost_found_id := None |}.

(** ** The registry *)

Definition check_label_available (label : string) (id : ContextId) : router_method () :=
  r ← m_get;
  match label_to_id r !! label with
  | Some existing => m_guard (bool_decide (existing = id)) (LabelInUse label (ctx_short existing))
  | None => m_ret tt
  end.

(** [if let Some(l) = label { check; insert }]. *)
Definition claim_label (label : option string) (id : ContextId) : router_method () :=
  match label with
  | Some l =>
      check_label_available l id;;
      m_modify (λ r, r <| label_to_id := <[l := id]> (label_to_id r) |>)
  | None => m_ret tt
  end.

(** The handle of a new context. *)
Definition new_handle (now : Z) (trace : uuid) (id : ContextId) (label : option string)
    (provider model : option string) (forked_from : option ContextId)
    (created_by : PrincipalId) : ContextHandle :=
  {| ch_id := id; ch_label := label; ch_pwd := None; ch_provider := provider;
     ch_model := model; ch_forked_from := forked_from; ch_created_by := created_by;
     ch_created_at := now; ch_trace_id := trace; ch_state := Live |}.

Definition put_handle (h : ContextHandle) : router_method () :=
  m_modify (λ r, r <| contexts := <[ch_id h := h]> (contexts r) |>).

Definition register (now : Z) (trace : uuid) (id : ContextId) (label : option string)
    (forked_from : option ContextId) (created_by : PrincipalId) : router_method () :=
  claim_label label id;;
  put_handle (new_handle now trace id label None None forked_from created_by).

Definition register_fork (now : Z) (trace : uuid) (id : ContextId) (label : option string)
    (forked_from : ContextId) (created_by : PrincipalId) : router_method () :=
  r ← m_get;
  match contexts r !! forked_from with
  | None => m_fail (UnknownContext (ctx_short forked_from))
  | Some parent =>
      claim_label label id;;
      put_handle (new_handle now trace id label (ch_provider parent) (ch_model parent)
                    (Some forked_from) created_by)
  end.

(** [s.source_ctx == id || s.target_ctx == id]. *)
Definition involves (id : ContextId) d : bool :=
  bool_decide (sd_source_ctx d = id) || bool_decide (sd_target_ctx d = id).

(** [partition]. *)
Definition pick (p : StagedDrift → bool) (l : list StagedDrift) : list StagedDrift :=
  filter (λ d, p d = true) l.
Definition leave (p : StagedDrift → bool) (l : list StagedDrift) : list StagedDrift :=
  filter (λ d, p d = false) l.

(** Take the label of a handle, if any, out of the index. *)
Definition drop_label (label : option string) r : DriftRouter :=
  match label with
  | Some l => r <| label_to_id := delete l (label_to_id r) |>
  | None => r
  end.

Definition unregister (id : ContextId) r : DriftRouter :=
  let r := match contexts r !! id with
           | Some h => drop_label (ch_label h) (r <| contexts := delete id (contexts r) |>)
           | None => r
           end in
  r <| dead_letter := dead_letter r ++ pick (involves id) (staging r) |>
    <| staging := leave (involves id) (staging r) |>.

(** [get_mut(&id).ok_or(UnknownContext)], and the write through it. *)
Definition with_handle (id : ContextId) (f : ContextHandle → ContextHandle) : router_method () :=
  r ← m_get;
  match contexts r !! id with
  | None => m_fail (UnknownContext (ctx_short id))
  | Some h => m_modify (λ r, r <| contexts := <[id := f h]> (contexts r) |>)
  end.

Definition rename (id : ContextId) (new_label : option string) : router_method () :=
  match new_label with Some l => check_label_available l id | None => m_ret tt end;;
  r ← m_get;
  match contexts r !! id with
  | None => m_fail (UnknownContext (ctx_short id))
  | Some h =>
      m_modify (drop_label (ch_label h));;
      m_modify (λ r, r <| contexts := <[id := h <| ch_label := new_label |>]> (contexts r) |>);;
      match new_label with
      | Some l => m_modify (λ r, r <| label_to_id := <[l := id]> (label_to_id r) |>)
      | None => m_ret tt
      end
  end.

Definition resolve_context r (query : string) : result DriftError ContextId :=
  match resolve_prefix ((λ x, (ch_id x.2, ch_label x.2)) <$> map_to_list (contexts r)) query with
  | Ok id => Ok id
  | Err (NoMatch q) => Err (UnknownContext q)
  | Err (Ambiguous prefix candidates) => Err (AmbiguousContext prefix candidates)
  end.

Definition configure_llm (id : ContextId) (provider model : string) : router_method () :=
  with_handle id (λ h, h <| ch_provider := Some provider |> <| ch_model := Some model |>).
Definition set_pwd (id : ContextId) (pwd : option string) : router_method () :=
  with_handle id (λ h, h <| ch_pwd := pwd |>).
Definition context_state r (id : ContextId) : option ContextState :=
  ch_state <$> contexts r !! id.
Definition set_state (id : ContextId) (state : ContextState) : router_method () :=
  with_handle id (λ h, h <| ch_state := state |>).

Definition list_contexts r : list ContextHandle :=
  merge_sort older (snd <$> map_to_list (contexts r)).

Definition trace_id_for_context r (id : ContextId) : option uuid :=
  ch_trace_id <$> contexts r !! id.

Definition adopt_lost_found (id : ContextId) r : DriftRouter :=
  match lost_found_id r with
  | Some _ => r
  | None => r <| lost_found_id := Some id |>
  end.

(** ** The queues *)

Definition stage (now : Z) (source target : ContextId) (content : string)
    (source_model : option string) (kind : DriftKind) : router_method Z :=
  r ← m_get;
  m_guard (bool_decide (contexts r !! source ≠ None)) (UnknownContext (ctx_short source));;
  m_guard (bool_decide (contexts r !! target ≠ None)) (UnknownContext (ctx_short target));;
  let id := next_staged_id r in
  m_modify (λ r, r <| next_staged_id := wrap_u64 (id + 1) |>);;
  m_modify (λ r, r <| staging := staging r ++
    [{| sd_id := id; sd_source_ctx := source; sd_target_ctx := target; sd_content := content;
        sd_source_model := source_model; sd_drift_kind := kind; sd_created_at := now;
        sd_retry_count := 0 |}] |>);;
  m_ret id.

Definition cancel (id : Z) r : bool * DriftRouter :=
  let kept := leave (λ d, sd_id d =? id) (staging r) in
  ((length kept <? length (staging r))%nat, r <| staging := kept |>).

Definition drain (for_context : option ContextId) r : list StagedDrift * DriftRouter :=
  match for_context with
  | None => (staging r, r <| staging := [] |>)
  | Some ctx =>
      (pick (involves ctx) (staging r), r <| staging := leave (involves ctx) (staging r) |>)
  end.

(** [u32] addition. *)
Definition wrap_u32 (z : Z) : Z := z mod 4294967296.

Fixpoint requeue (items : list StagedDrift) r : DriftRouter :=
  match items with
  | [] => r
  | item :: items' =>
      let item := item <| sd_retry_count := wrap_u32 (sd_retry_count item + 1) |> in
      requeue items'
        (if MAX_DRIFT_RETRIES <? sd_retry_count item
         then r <| dead_letter := dead_letter r ++ [item] |>
         else r <| staging := staging r ++ [item] |>)
  end.

Definition drain_dead_letter r : list StagedDrift * DriftRouter :=
  (dead_letter r, r <| dead_letter := [] |>).

Definition replay_dead_letter (id : Z) r : option StagedDrift * DriftRouter :=
  match list_find (λ d, sd_id d = id) (dead_letter r) with
  | None => (None, r)
  | Some (pos, item) =>
      let item := item <| sd_retry_count := 0 |> in
      (Some item, r <| dead_letter := delete pos (dead_letter r) |>
                    <| staging := staging r ++ [item] |>)
  end.

Definition LOST_FOUND : string := "lost+found".

(** [expect] on the registration: a panic when the label is taken. *)
Definition m_expect {S E A} (m : method S E A) : method S E A := λ s,
  match m s with
  | Some (Err _, _) => None
  | o => o
  end.

Definition ensure_lost_found (now : Z) (trace fresh : uuid) : router_method (ContextId * bool) :=
  r ← m_get;
  match lost_found_id r with
  | Some id => m_ret (id, false)
  | None =>
      let id := {| context_uuid := fresh |} in
      m_modify (λ r, r <| lost_found_id := Some id |>);;
      m_expect (register now trace id (Some LOST_FOUND) None principal_system);;
      m_ret (id, true)
  end.

(** *** Flushing ([kj/drift.rs])

    [inserted] says which insertions into the target documents succeed. The result
    lists what was injected and what was sent to lost+found. *)
Definition m_take {A} (f : DriftRouter → A * DriftRouter) : router_method A :=
  λ r, let '(a, r') := f r in Some (Ok a, r').

(** What follows the insertions: the failures go back, the dead letters out. *)
Definition settle (now : Z) (trace fresh : uuid) (inserted : StagedDrift → bool)
    (staged : list StagedDrift) : router_method (list StagedDrift * list StagedDrift) :=
  m_modify (requeue (leave inserted staged));;
  dead ← m_take drain_dead_letter;
  match dead with
  | [] => m_ret (pick inserted staged, [])
  | _ =>
      ensure_lost_found now trace fresh;;
      m_ret (pick inserted staged, dead)
  end.

Definition drift_flush (now : Z) (trace fresh : uuid) (inserted : StagedDrift → bool)
    (for_context : option ContextId) : router_method (list StagedDrift * list StagedDrift) :=
  staged ← m_take (drain for_context);
  match staged with
  | [] => m_ret ([], [])
  | _ => settle now trace fresh inserted staged
  end.
End drift.
