(* ===== verification/DriftQueue.v ===== *)
(** * No drift is lost

    The router of [Drift.v] together with the flushes that hold drained drifts while
    they deliver them. Every drift that was staged is in one place, and one that
    keeps failing ends among the dead letters. *)

From S2P Require Import Prelude Text Ids Track Cas Block MethodLogic Drift.

Section queue.
Context {uuids : UuidCrate}.
Implicit Types (r : DriftRouter) (d : StagedDrift).

(** A call on the registry of contexts; [res] is what it returned. *)
Inductive registry_call : DriftRouter → DriftRouter → Prop :=
  | call_register now trace id label from by_ r res r' :
      register now trace id label from by_ r = Some (res, r') → registry_call r r'
  | call_register_fork now trace id label from by_ r res r' :
      register_fork now trace id label from by_ r = Some (res, r') → registry_call r r'
  | call_rename id label r res r' : rename id label r = Some (res, r') → registry_call r r'
  | call_configure id provider model r res r' :
      configure_llm id provider model r = Some (res, r') → registry_call r r'
  | call_set_pwd id pwd r res r' : set_pwd id pwd r = Some (res, r') → registry_call r r'
  | call_set_state id state r res r' :
      set_state id state r = Some (res, r') → registry_call r r'
  | call_ensure now trace fresh r res r' :
      ensure_lost_found now trace fresh r = Some (res, r') → registry_call r r'
  | call_adopt id r : registry_call r (adopt_lost_found id r).

(** The queues, which these calls leave alone. *)
Definition same_queues r r' : Prop :=
  staging r' = staging r ∧ dead_letter r' = dead_letter r ∧ next_staged_id r' = next_staged_id r.

#[export] Instance same_queues_preorder : PreOrder same_queues.
Proof. split; [by intros r|]. intros r1 r2 r3 (?&?&?) (?&?&?). split_and!; congruence. Qed.

Abbreviation calm m := (triple same_queues (λ _, True) m (λ _ _, True)).

Lemma calm_modify f : (∀ r, same_queues r (f r)) → calm (@m_modify DriftRouter DriftError f).
Proof. intros Hf r res r' _ [= <- <-]. by split. Qed.

Lemma calm_pure {A} (m : method DriftRouter DriftError A) :
  (∀ r, match m r with Some (_, r') => r' = r | None => True end) → calm m.
Proof.
  intros Hm r res r' _ E. specialize (Hm r). rewrite E in Hm. subst. split; [done|].
  by destruct res.
Qed.

Lemma calm_bind {A B} (m : method DriftRouter DriftError A) (k : A → method DriftRouter DriftError B) :
  calm m → (∀ a, calm (k a)) → calm (m ≫= k).
Proof. intros Hm Hk. apply (triple_bind _ _ _ (λ _ _, True)); auto. Qed.

Ltac calm_step :=
  repeat first
    [ progress intros
    | apply calm_bind
    | apply calm_modify; by intros
    | apply calm_pure; by intros ?
    | case_match ].

Lemma calm_check label id : calm (check_label_available label id).
Proof.
  apply calm_pure. intros r. unfold check_label_available, mbind, method_bind, m_bind. cbn.
  destruct (label_to_id r !! label); [|done]. unfold m_guard. by case_bool_decide.
Qed.

Lemma calm_claim label id : calm (claim_label label id).
Proof. unfold claim_label. destruct label; [apply calm_bind; [apply calm_check|]|]; calm_step. Qed.

Lemma calm_register now trace id label from by_ : calm (register now trace id label from by_).
Proof. unfold register, put_handle. apply calm_bind; [apply calm_claim|]. calm_step. Qed.

Lemma calm_register_fork now trace id label from by_ :
  calm (register_fork now trace id label from by_).
Proof.
  unfold register_fork, put_handle. apply calm_bind; [calm_step|].
  intros r. destruct (contexts r !! from); [|calm_step].
  apply calm_bind; [apply calm_claim|calm_step].
Qed.

Lemma calm_with_handle id f : calm (with_handle id f).
Proof. unfold with_handle. calm_step. Qed.

Lemma calm_rename id label : calm (rename id label).
Proof.
  unfold rename. apply calm_bind; [destruct label; [apply calm_check|calm_step]|].
  intros _. apply calm_bind; [calm_step|]. intros r. destruct (contexts r !! id); [|calm_step].
  apply calm_bind; [|calm_step]. apply calm_modify. intros r'. by destruct (ch_label c).
Qed.

Lemma calm_ensure now trace fresh : calm (ensure_lost_found now trace fresh).
Proof.
  unfold ensure_lost_found. calm_step. intros r' res r'' _. unfold m_expect.
  destruct (register _ _ _ _ _ _ r') as [[[[]|e] r1]|] eqn:E; intros [= <- <-].
  split; [|done]. by destruct (calm_register _ _ _ _ _ _ _ _ _ I E).
Qed.

Lemma registry_call_queues r r' : registry_call r r' → same_queues r r'.
Proof.
  destruct 1 as [now trace id label from by_ r res r' E|now trace id label from by_ r res r' E
    |id label r res r' E|id provider model r res r' E|id pwd r res r' E|id state r res r' E
    |now trace fresh r res r' E|id r].
  - by eapply calm_register.
  - by eapply calm_register_fork.
  - by eapply calm_rename.
  - by eapply calm_with_handle.
  - by eapply calm_with_handle.
  - by eapply calm_with_handle.
  - by eapply calm_ensure.
  - unfold adopt_lost_found. by destruct (lost_found_id r).
Qed.

(** ** The system *)

(** The router, the drifts a flush has drained and not yet settled, those that have
    left (delivered, cancelled, or written to lost+found), and all that were staged. *)
Record System := {
  sys_router : DriftRouter;
  sys_flight : list StagedDrift;
  sys_gone : list StagedDrift;
  sys_log : list StagedDrift;
}.

Definition system_new : System :=
  {| sys_router := router_new; sys_flight := []; sys_gone := []; sys_log := [] |}.

Implicit Types y : System.

Inductive drift_step y : System → Prop :=
  | step_registry r' :
      registry_call (sys_router y) r' →
      drift_step y {| sys_router := r'; sys_flight := sys_flight y; sys_gone := sys_gone y;
                      sys_log := sys_log y |}
  | step_unregister id :
      drift_step y {| sys_router := unregister id (sys_router y); sys_flight := sys_flight y;
                      sys_gone := sys_gone y; sys_log := sys_log y |}
  | step_stage now source target content model kind res r' :
      next_staged_id (sys_router y) < u64_max →
      stage now source target content model kind (sys_router y) = Some (res, r') →
      drift_step y {| sys_router := r'; sys_flight := sys_flight y; sys_gone := sys_gone y;
        sys_log := match res with
                   | Ok id => sys_log y ++
                       [{| sd_id := id; sd_source_ctx := source; sd_target_ctx := target;
                           sd_content := content; sd_source_model := model;
                           sd_drift_kind := kind; sd_created_at := now; sd_retry_count := 0 |}]
                   | Err _ => sys_log y
                   end |}
  | step_cancel id :
      drift_step y {| sys_router := (cancel id (sys_router y)).2; sys_flight := sys_flight y;
        sys_gone := sys_gone y ++ pick (λ d, sd_id d =? id) (staging (sys_router y));
        sys_log := sys_log y |}
  | step_drain ctx :
      drift_step y {| sys_router := (drain ctx (sys_router y)).2;
        sys_flight := sys_flight y ++ (drain ctx (sys_router y)).1; sys_gone := sys_gone y;
        sys_log := sys_log y |}
  | step_deliver f1 d f2 :
      sys_flight y = f1 ++ d :: f2 →
      drift_step y {| sys_router := sys_router y; sys_flight := f1 ++ f2;
        sys_gone := sys_gone y ++ [d]; sys_log := sys_log y |}
  | step_requeue items rest :
      sys_flight y ≡ₚ items ++ rest →
      drift_step y {| sys_router := requeue items (sys_router y); sys_flight := rest;
        sys_gone := sys_gone y; sys_log := sys_log y |}
  | step_bury :
      drift_step y {| sys_router := (drain_dead_letter (sys_router y)).2;
        sys_flight := sys_flight y;
        sys_gone := sys_gone y ++ (drain_dead_letter (sys_router y)).1; sys_log := sys_log y |}
  | step_replay id :
      drift_step y {| sys_router := (replay_dead_letter id (sys_router y)).2;
        sys_flight := sys_flight y; sys_gone := sys_gone y; sys_log := sys_log y |}.

(** Where the drifts are; a drift as it was staged. *)
Definition held y : list StagedDrift :=
  staging (sys_router y) ++ dead_letter (sys_router y) ++ sys_flight y ++ sys_gone y.
Definition forget d : StagedDrift := d <| sd_retry_count := 0 |>.

Definition retries_upto (n : Z) (l : list StagedDrift) : Prop :=
  Forall (λ d, 0 ≤ sd_retry_count d ≤ n) l.

Record system_ok y : Prop := {
  sys_held : forget <$> held y ≡ₚ sys_log y;
  sys_ids : sd_id <$> sys_log y = seqZ 1 (Z.of_nat (length (sys_log y)));
  sys_next : next_staged_id (sys_router y) = 1 + Z.of_nat (length (sys_log y));
  sys_staged : retries_upto MAX_DRIFT_RETRIES (staging (sys_router y));
  sys_flying : retries_upto MAX_DRIFT_RETRIES (sys_flight y);
  sys_dead : retries_upto (MAX_DRIFT_RETRIES + 1) (dead_letter (sys_router y));
}.

Lemma pick_leave p (l : list StagedDrift) : pick p l ++ leave p l ≡ₚ l.
Proof.
  induction l as [|d l IH]; [done|]. unfold pick, leave in *. rewrite !filter_cons.
  destruct (p d); [rewrite decide_True, decide_False by done|rewrite decide_False, decide_True by done].
  - cbn. by rewrite IH.
  - by rewrite <- Permutation_middle, IH.
Qed.

Lemma retries_pick n p l : retries_upto n l → retries_upto n (pick p l).
Proof.
  unfold retries_upto. rewrite !Forall_forall. intros H d [_ Hd]%list_elem_of_filter. auto.
Qed.
Lemma retries_leave n p l : retries_upto n l → retries_upto n (leave p l).
Proof.
  unfold retries_upto. rewrite !Forall_forall. intros H d [_ Hd]%list_elem_of_filter. auto.
Qed.
Lemma retries_app n l k : retries_upto n (l ++ k) ↔ retries_upto n l ∧ retries_upto n k.
Proof. apply Forall_app. Qed.
Lemma retries_weaken n m l : n ≤ m → retries_upto n l → retries_upto m l.
Proof. intros Hn Hl. eapply Forall_impl; [exact Hl|]. cbn. lia. Qed.
Lemma retries_perm n l k : l ≡ₚ k → retries_upto n l → retries_upto n k.
Proof. intros Hp. unfold retries_upto. by rewrite Hp. Qed.
Hint Resolve retries_pick retries_leave : core.

Lemma requeue_next items r : next_staged_id (requeue items r) = next_staged_id r.
Proof.
  revert r. induction items as [|d items IH]; intros r; [done|]. cbn [requeue].
  rewrite IH. by case_match.
Qed.

Lemma requeue_held items r :
  forget <$> (staging (requeue items r) ++ dead_letter (requeue items r)) ≡ₚ
  forget <$> (staging r ++ dead_letter r ++ items).
Proof.
  revert r. induction items as [|d items IH]; intros r; cbn [requeue].
  { by rewrite app_nil_r. }
  rewrite IH. case_match; cbn; rewrite !fmap_app; cbn; unfold forget; cbn.
  - by rewrite <- !app_assoc.
  - rewrite <- !app_assoc. cbn. f_equiv. by rewrite Permutation_middle.
Qed.

Lemma requeue_retries items r :
  retries_upto MAX_DRIFT_RETRIES items →
  retries_upto MAX_DRIFT_RETRIES (staging r) →
  retries_upto (MAX_DRIFT_RETRIES + 1) (dead_letter r) →
  retries_upto MAX_DRIFT_RETRIES (staging (requeue items r)) ∧
  retries_upto (MAX_DRIFT_RETRIES + 1) (dead_letter (requeue items r)).
Proof.
  intros Hi. revert r. induction Hi as [|d items Hd _ IH]; intros r Hs Hdead; cbn [requeue]; [done|].
  cbn in Hd. unfold wrap_u32. rewrite Z.mod_small by (unfold MAX_DRIFT_RETRIES in *; lia).
  apply IH; case_match; cbn in *; try done; apply retries_app; (split; [done|]);
    repeat constructor; cbn; lia.
Qed.

(** One step keeps the account: only the calls on the queues are of interest. *)
Lemma system_ok_queues r f g log r' :
  same_queues r r' →
  system_ok {| sys_router := r; sys_flight := f; sys_gone := g; sys_log := log |} →
  system_ok {| sys_router := r'; sys_flight := f; sys_gone := g; sys_log := log |}.
Proof. intros (E1&E2&E3) []. split; unfold held in *; cbn in *; rewrite ?E1, ?E2, ?E3; done. Qed.

(** The account after moving drifts around: same drifts, counts in range. *)
Lemma system_ok_move y y' :
  system_ok y → sys_log y' = sys_log y →
  next_staged_id (sys_router y') = next_staged_id (sys_router y) →
  forget <$> held y' ≡ₚ forget <$> held y →
  retries_upto MAX_DRIFT_RETRIES (staging (sys_router y')) →
  retries_upto MAX_DRIFT_RETRIES (sys_flight y') →
  retries_upto (MAX_DRIFT_RETRIES + 1) (dead_letter (sys_router y')) →
  system_ok y'.
Proof. intros [] E1 E2 E3 ???. split; try done; rewrite ?E1, ?E2, ?E3; done. Qed.

Lemma stage_run now source target content model kind r res r' :
  next_staged_id r < u64_max → 0 ≤ next_staged_id r →
  stage now source target content model kind r = Some (res, r') →
  match res with
  | Ok id => id = next_staged_id r ∧ next_staged_id r' = next_staged_id r + 1 ∧
      dead_letter r' = dead_letter r ∧
      staging r' = staging r ++
        [{| sd_id := id; sd_source_ctx := source; sd_target_ctx := target; sd_content := content;
            sd_source_model := model; sd_drift_kind := kind; sd_created_at := now;
            sd_retry_count := 0 |}]
  | Err _ => r' = r
  end.
Proof.
  intros Hn H0. unfold stage, m_guard, mbind, method_bind, m_bind. cbn.
  case_bool_decide; [|by intros [= <- <-]]. cbn. case_bool_decide; [|by intros [= <- <-]]. cbn.
  intros [= <- <-]. cbn. rewrite wrap_u64_id by width_lia. done.
Qed.

Lemma unregister_queues id r :
  staging (unregister id r) = leave (involves id) (staging r) ∧
  dead_letter (unregister id r) = dead_letter r ++ pick (involves id) (staging r) ∧
  next_staged_id (unregister id r) = next_staged_id r.
Proof.
  unfold unregister. destruct (contexts r !! id) as [h|]; [|done].
  unfold drop_label. by destruct (ch_label h).
Qed.

Lemma replay_queues id r :
  ∃ l1 l2, next_staged_id (replay_dead_letter id r).2 = next_staged_id r ∧
    (staging (replay_dead_letter id r).2 = staging r ∧
     dead_letter (replay_dead_letter id r).2 = dead_letter r ∨
     ∃ d, dead_letter r = l1 ++ d :: l2 ∧ dead_letter (replay_dead_letter id r).2 = l1 ++ l2 ∧
          staging (replay_dead_letter id r).2 = staging r ++ [forget d]).
Proof.
  unfold replay_dead_letter. destruct (list_find _ (dead_letter r)) as [[pos d]|] eqn:E.
  - apply list_find_Some in E as (Hd&_&_).
    exists (take pos (dead_letter r)), (drop (S pos) (dead_letter r)). split; [done|]. right.
    exists d. split_and!; [by rewrite take_drop_middle| |done]. cbn. by rewrite delete_take_drop.
  - exists [], []. split; [done|]. by left.
Qed.

Ltac account y :=
  apply (system_ok_move y);
  unfold held; cbn [sys_router sys_flight sys_gone sys_log]; try done; auto.

(** Splits the staging queue of the right-hand side by [p]. *)
Ltac split_staging p :=
  f_equiv; etrans; [|apply Permutation_app_tail, (pick_leave p)]; solve_Permutation.

Lemma drift_step_ok y y' : system_ok y → drift_step y y' → system_ok y'.
Proof.
  intros Hok Hstep. pose proof Hok as [Hheld Hids Hnext Hs Hf Hd].
  destruct Hstep as [r' Hr|id|now source target content model kind res r' Hlt Hr|id|ctx
    |f1 d f2 Hfl|items rest Hperm| |id].
  - destruct y. eapply system_ok_queues; [by apply registry_call_queues|done].
  - destruct (unregister_queues id (sys_router y)) as (E1&E2&E3).
    account y; rewrite ?E1, ?E2, ?E3; auto.
    + split_staging (involves id).
    + apply retries_app; split; [done|]. apply (retries_weaken MAX_DRIFT_RETRIES); auto; lia.
  - apply stage_run in Hr; [|done|lia]. destruct res as [i|e]; [|by destruct y; subst r'].
    destruct Hr as (->&E1&E2&E3).
    split; unfold held in *; cbn [sys_router sys_flight sys_gone sys_log]; rewrite ?E1, ?E2, ?E3;
      try done.
    + rewrite <- Hheld, !fmap_app. cbn. unfold forget at 2. cbn. solve_Permutation.
    + rewrite fmap_app, Hids, length_app. cbn. rewrite Nat2Z.inj_add, seqZ_app by lia. cbn.
      rewrite Hnext. repeat f_equal; lia.
    + rewrite Hnext, length_app. cbn. lia.
    + apply retries_app; split; [done|]. repeat constructor; cbn; unfold MAX_DRIFT_RETRIES; lia.
  - account y; cbn; auto. split_staging (λ d, sd_id d =? id).
  - destruct ctx as [c|]; account y; cbn; auto.
    + split_staging (involves c).
    + apply retries_app; auto.
    + f_equiv. cbn. solve_Permutation.
    + by apply Forall_nil.
    + by apply retries_app.
  - account y; rewrite ?Hfl in *.
    + f_equiv. solve_Permutation.
    + apply retries_app in Hf as [? [_ ?]%Forall_cons]. by apply retries_app.
  - pose proof (retries_perm _ _ _ Hperm Hf) as [Hi Hr]%retries_app.
    destruct (requeue_retries items (sys_router y) Hi Hs Hd) as [H1 H2].
    account y; [by rewrite requeue_next|].
    rewrite Hperm, (app_assoc (staging _)), !fmap_app, <- fmap_app, requeue_held, !fmap_app.
    solve_Permutation.
  - account y; cbn; try by apply Forall_nil. f_equiv. solve_Permutation.
  - destruct (replay_queues id (sys_router y)) as (l1&l2&E0&[[E1 E2]|(d&E1&E2&E3)]);
      account y; rewrite ?E0, ?E1, ?E2, ?E3; try done.
    + rewrite !fmap_app. cbn. change (forget (forget d)) with (forget d).
      solve_Permutation.
    + apply retries_app; split; [done|]. repeat constructor; cbn; unfold MAX_DRIFT_RETRIES; lia.
    + rewrite E1 in Hd. apply retries_app in Hd as [? [_ ?]%Forall_cons]. by apply retries_app.
Qed.

Lemma system_new_ok : system_ok system_new.
Proof. by split; repeat constructor. Qed.

(** C11: no drift is lost and none is duplicated. Over any interleaving of calls on the
    router with flushes that drain, deliver, requeue and bury drifts, every drift that
    was ever staged is exactly once in the queue, among the dead letters, in the hands
    of a flush or gone, with the content, the ends and the id it was staged with; ids
    are handed out as 1, 2, 3, ...; and no queued drift has been retried more than
    [MAX_DRIFT_RETRIES] times. *)
Theorem drift_conserved y (H : rtc drift_step system_new y) :
  forget <$> held y ≡ₚ sys_log y ∧
  sd_id <$> sys_log y = seqZ 1 (Z.of_nat (length (sys_log y))) ∧
  NoDup (sd_id <$> held y) ∧
  retries_upto MAX_DRIFT_RETRIES (staging (sys_router y)) ∧
  retries_upto (MAX_DRIFT_RETRIES + 1) (dead_letter (sys_router y)).
Proof.
  assert (system_ok y) as [Hheld Hids Hnext Hs Hf Hd].
  { revert H. generalize system_new_ok. generalize system_new. intros y0 H0 H.
    induction H as [|y0 y1 y2 Hstep _ IH]; [done|]. by eapply IH, drift_step_ok. }
  split_and!; try done.
  assert (sd_id <$> held y = sd_id <$> (forget <$> held y)) as ->
    by (by rewrite <- list_fmap_compose).
  rewrite Hheld, Hids. apply NoDup_seqZ.
Qed.

(** ** Flushing under failure *)

(** The label of lost+found is reserved, or the context already known. *)
Definition lost_found_ready r : Prop :=
  lost_found_id r ≠ None ∨ label_to_id r !! LOST_FOUND = None.

(** A drift after [n] more failures. *)
Definition age (n : Z) d : StagedDrift := d <| sd_retry_count := sd_retry_count d + n |>.

Lemma requeue_split items r :
  retries_upto MAX_DRIFT_RETRIES items →
  staging (requeue items r) = staging r ++
    pick (λ d, sd_retry_count d <=? MAX_DRIFT_RETRIES) (age 1 <$> items) ∧
  dead_letter (requeue items r) = dead_letter r ++
    leave (λ d, sd_retry_count d <=? MAX_DRIFT_RETRIES) (age 1 <$> items).
Proof.
  intros Hi. revert r. induction Hi as [|d items Hd _ IH]; intros r; cbn [requeue].
  { cbn. by rewrite !app_nil_r. }
  cbn in Hd. unfold wrap_u32. rewrite Z.mod_small by (unfold MAX_DRIFT_RETRIES in *; lia).
  change (d <| sd_retry_count := sd_retry_count d + 1 |>) with (age 1 d).
  unfold pick, leave in *. cbn [fmap list_fmap]. rewrite !filter_cons.
  destruct (Z.ltb_spec MAX_DRIFT_RETRIES (sd_retry_count (age 1 d))), 
    (Z.leb_spec (sd_retry_count (age 1 d)) MAX_DRIFT_RETRIES); try lia;
    [rewrite decide_False, decide_True by done|rewrite decide_True, decide_False by done];
    rewrite (proj1 (IH _)), (proj2 (IH _)); cbn; by rewrite <- !app_assoc.
Qed.

Lemma ensure_lost_found_run now trace fresh r :
  lost_found_ready r →
  ∃ res r', ensure_lost_found now trace fresh r = Some (Ok res, r') ∧
    same_queues r r' ∧ lost_found_id r' ≠ None.
Proof.
  intros Hready. assert (∃ res r', ensure_lost_found now trace fresh r = Some (Ok res, r') ∧
    lost_found_id r' ≠ None) as (res&r'&E&Hl).
  { unfold ensure_lost_found, mbind, method_bind, m_bind. cbn.
    destruct (lost_found_id r) as [id|] eqn:El; [do 2 eexists; split; [done|by rewrite El]|].
    destruct Hready as [?|Hfree]; [done|]. unfold m_expect, register, claim_label,
      check_label_available, mbind, method_bind, m_bind. cbn. rewrite Hfree. cbn.
    by do 2 eexists. }
  exists res, r'. split_and!; [done| |done]. by destruct (calm_ensure now trace fresh r _ _ I E).
Qed.

(** The drifts a flush takes: all, or those from and to the context of the caller. *)
Definition concerns (caller : option ContextId) d : bool :=
  match caller with None => true | Some ctx => involves ctx d end.

Lemma pick_all l : pick (λ _, true) l = l.
Proof. unfold pick. induction l as [|d l IH]; [done|]. rewrite filter_cons, decide_True by done. by rewrite IH. Qed.
Lemma leave_none l : leave (λ _, true) l = [].
Proof. unfold leave. induction l as [|d l IH]; [done|]. by rewrite filter_cons, decide_False by done. Qed.
Lemma drain_run caller r :
  drain caller r = (pick (concerns caller) (staging r), r <| staging := leave (concerns caller) (staging r) |>).
Proof.
  destruct caller as [ctx|]; [done|]. cbn. change (concerns None) with (λ _ : StagedDrift, true).
  by rewrite pick_all, leave_none.
Qed.
Lemma unconcerned p l : pick p l = [] → leave p l = l.
Proof.
  unfold pick, leave. induction l as [|d l IH]; [done|]. rewrite !filter_cons. repeat case_decide; try done; [|congruence..|].
  - intros H'. by rewrite IH.
  - destruct (p d); done.
Qed.
Lemma leave_app p (l k : list StagedDrift) : leave p (l ++ k) = leave p l ++ leave p k.
Proof. apply filter_app. Qed.
Lemma pick_app p (l k : list StagedDrift) : pick p (l ++ k) = pick p l ++ pick p k.
Proof. apply filter_app. Qed.
Lemma leave_leave p l : leave p (leave p l) = leave p l.
Proof. apply list_filter_filter_l. by intros. Qed.
Lemma pick_leave_nil p l : pick p (leave p l) = [].
Proof. unfold pick, leave. apply elem_of_nil_inv. intros d [E [E' _]%list_elem_of_filter]%list_elem_of_filter. congruence. Qed.
Lemma concerned_only p l : (∀ d, d ∈ l → p d = true) → leave p l = [] ∧ pick p l = l.
Proof.
  intros H. unfold leave, pick. induction l as [|d l IH]; [done|]. rewrite !filter_cons.
  assert (p d = true) as E by (apply H; by left). rewrite decide_False, decide_True by congruence.
  destruct IH as [-> ->]; [|done]. intros e He. apply H. by right.
Qed.
Lemma concerns_age caller n d : concerns caller (age n d) = concerns caller d.
Proof. by destruct caller. Qed.

(** One flush. Nothing happens where nothing is waiting that concerns the caller, not even
    to the dead letters. *)
Lemma drift_flush_run now trace fresh inserted caller r
    (mine := pick (concerns caller) (staging r)) (rest := leave (concerns caller) (staging r)) :
  retries_upto MAX_DRIFT_RETRIES (staging r) → lost_found_ready r →
  ∃ sent buried r', drift_flush now trace fresh inserted caller r = Some (Ok (sent, buried), r') ∧
    lost_found_ready r' ∧
    leave (concerns caller) (staging r') = rest ∧
    pick (concerns caller) (staging r') =
      pick (λ d, sd_retry_count d <=? MAX_DRIFT_RETRIES) (age 1 <$> leave inserted mine) ∧
    forget <$> (sent ++ buried ++ staging r' ++ dead_letter r') ≡ₚ
      forget <$> (staging r ++ dead_letter r) ∧
    (mine ≠ [] → dead_letter r' = []) ∧ (mine = [] → dead_letter r' = dead_letter r).
Proof.
  intros Hs Hready. unfold drift_flush, settle, m_take, mbind, method_bind, m_bind.
  rewrite drain_run. fold mine rest. destruct mine as [|d0 l0] eqn:Est.
  { exists [], []. eexists. split; [done|].
    change (staging (r <| staging := rest |>)) with rest. change (dead_letter (r <| staging := rest |>)) with (dead_letter r).
    unfold rest. rewrite leave_leave, pick_leave_nil. split_and!; try done.
    cbn [app]. by rewrite (unconcerned _ _ Est). }
  set (l := d0 :: l0) in *. set (r0 := r <| staging := rest |>). cbn [m_modify drain_dead_letter].
  assert (retries_upto MAX_DRIFT_RETRIES l) as Hmine by (rewrite <- Est; unfold mine; auto).
  destruct (requeue_split (leave inserted l) r0) as [E1 E2]; [auto|].
  assert (leave (concerns caller) (staging (requeue (leave inserted l) r0)) = rest ∧
    pick (concerns caller) (staging (requeue (leave inserted l) r0)) =
      pick (λ d, sd_retry_count d <=? MAX_DRIFT_RETRIES) (age 1 <$> leave inserted l)) as [Hkept Hback].
  { rewrite E1, leave_app, pick_app. change (staging r0) with rest. unfold rest. rewrite leave_leave, pick_leave_nil.
    destruct (concerned_only (concerns caller) (pick (λ d, sd_retry_count d <=? MAX_DRIFT_RETRIES) (age 1 <$> leave inserted l)))
      as [-> ->]; [|by rewrite app_nil_r].
    intros d [_ (d1&->&[_ Hd]%list_elem_of_filter)%list_elem_of_fmap]%list_elem_of_filter.
    rewrite concerns_age. rewrite <- Est in Hd. by apply list_elem_of_filter in Hd as [Hd _]. }
  pose proof (requeue_held (leave inserted l) r0) as Hheld.
  set (r1 := requeue (leave inserted l) r0) in *.
  assert (lost_found_ready (r1 <| dead_letter := [] |>)) as Hready1.
  { unfold r1. assert (lost_found_ready r0) as H0 by done. clear -H0. revert H0. generalize r0. induction (leave inserted l) as [|d k IH]; intros r1 H1; [done|].
    cbn [requeue]. apply IH. by case_match. }
  assert (forget <$> (pick inserted l ++ dead_letter r1 ++ staging r1 ++ []) ≡ₚ
          forget <$> (staging r ++ dead_letter r)) as Hall.
  { rewrite app_nil_r, fmap_app, (Permutation_app_comm (dead_letter r1)), Hheld.
    rewrite <- fmap_app. f_equiv. etrans; [|apply Permutation_app_tail, (pick_leave (concerns caller))].
    fold mine rest. rewrite Est. fold l. etrans; [|apply Permutation_app_tail, Permutation_app_tail, (pick_leave inserted)].
    cbn. solve_Permutation. }
  destruct (dead_letter r1) as [|e1 es] eqn:Ed.
  - do 3 eexists. split; [done|]. cbn in Hkept, Hback |- *. split_and!; done.
  - destruct (ensure_lost_found_run now trace fresh _ Hready1) as (res&r'&->&(F1&F2&_)&Hl).
    cbn. do 3 eexists. split; [done|]. cbn in Hkept, Hback, F1, F2 |- *. rewrite F1, F2.
    split_and!; try done. by left.
Qed.

(** Flushes by one caller in a row; [rounds] says which insertions succeed in each. *)
Fixpoint flushes (now : Z) (trace fresh : uuid) (caller : option ContextId) (rounds : list (StagedDrift → bool)) r :
    option (list StagedDrift * list StagedDrift * DriftRouter) :=
  match rounds with
  | [] => Some ([], [], r)
  | inserted :: rounds' =>
      match drift_flush now trace fresh inserted caller r with
      | Some (Ok (sent, buried), r') =>
          '(sents, burieds, r'') ← flushes now trace fresh caller rounds' r';
          Some (sent ++ sents, buried ++ burieds, r'')
      | _ => None
      end
  end.

Definition retries_from (n : Z) (l : list StagedDrift) : Prop :=
  Forall (λ d, n ≤ sd_retry_count d) l.

Lemma flushes_run now trace fresh caller rounds r k :
  retries_upto MAX_DRIFT_RETRIES (staging r) → retries_from k (pick (concerns caller) (staging r)) → lost_found_ready r →
  ∃ sent buried r', flushes now trace fresh caller rounds r = Some (sent, buried, r') ∧
    retries_upto MAX_DRIFT_RETRIES (staging r') ∧
    retries_from (k + Z.of_nat (length rounds)) (pick (concerns caller) (staging r')) ∧
    leave (concerns caller) (staging r') = leave (concerns caller) (staging r) ∧
    forget <$> (sent ++ buried ++ staging r' ++ dead_letter r') ≡ₚ
      forget <$> (staging r ++ dead_letter r) ∧
    (dead_letter r = [] → dead_letter r' = []) ∧
    (rounds ≠ [] → pick (concerns caller) (staging r) ≠ [] → dead_letter r' = []).
Proof.
  revert r k. induction rounds as [|inserted rounds IH]; intros r k Hup Hfrom Hready; cbn [flushes].
  { exists [], [], r. rewrite Z.add_0_r. done. }
  destruct (drift_flush_run now trace fresh inserted caller r Hup Hready)
    as (sent&buried&r1&->&Hready1&Hkept&Hback&Hacc&Hd1&Hnil).
  assert (Forall (λ d, k + 1 ≤ sd_retry_count d ∧ 0 ≤ sd_retry_count d ≤ MAX_DRIFT_RETRIES) (pick (concerns caller) (staging r1))) as Haged.
  { rewrite Hback. apply Forall_forall. intros d [Hle (d1&->&Hd)%list_elem_of_fmap]%list_elem_of_filter.
    apply list_elem_of_filter in Hd as [_ Hd]. unfold retries_from in Hfrom. rewrite Forall_forall in Hfrom.
    specialize (Hfrom d1 Hd). apply list_elem_of_filter in Hd as [_ Hd]. unfold retries_upto in Hup.
    rewrite Forall_forall in Hup. specialize (Hup d1 Hd). cbn in Hle, Hup, Hfrom |- *. lia. }
  destruct (IH r1 (k + 1)) as (sents&burieds&r2&->&Hup2&Hfrom2&Hkept2&Hacc2&Hd2&_).
  - apply (retries_perm _ _ _ (pick_leave (concerns caller) (staging r1))), retries_app. split.
    + eapply Forall_impl; [exact Haged|]. cbn. tauto.
    + rewrite Hkept. auto.
  - eapply Forall_impl; [exact Haged|]. cbn. tauto.
  - done.
  - cbn. do 3 eexists. split; [done|]. split_and!.
    + done.
    + cbn [length]. by replace (k + Z.of_nat (S (length rounds)))
        with (k + 1 + Z.of_nat (length rounds)) by lia.
    + by rewrite Hkept2.
    + rewrite <- Hacc, <- !app_assoc, !fmap_app. rewrite !fmap_app in Hacc2.
      rewrite <- Hacc2. solve_Permutation.
    + intros Hd. apply Hd2. destruct (pick (concerns caller) (staging r)) as [|d0 l0]; [by rewrite Hnil|auto].
    + auto.
Qed.

(** C29: a drift does not wait for ever. Where lost+found is known or its label is free, a
    caller that flushes [MAX_DRIFT_RETRIES + 1] times with nothing else in between, whichever
    insertions fail in whichever flush, sees no flush panic, and then nothing is waiting that
    concerns it (a flush from no context concerns everything): each such drift was delivered
    or taken out as a dead letter for lost+found with its content, exactly once, along with
    the dead letters there were. What does not concern the caller is still staged, in its
    order. *)
Theorem flush_liveness now trace fresh caller rounds r
    (Hup : retries_upto MAX_DRIFT_RETRIES (staging r)) (Hready : lost_found_ready r)
    (Hrounds : MAX_DRIFT_RETRIES < Z.of_nat (length rounds)) :
  let mine := pick (concerns caller) (staging r) in
  ∃ sent buried r', flushes now trace fresh caller rounds r = Some (sent, buried, r') ∧
    staging r' = leave (concerns caller) (staging r) ∧
    (mine ≠ [] → dead_letter r' = [] ∧ forget <$> (sent ++ buried) ≡ₚ forget <$> (mine ++ dead_letter r)).
Proof.
  intros mine. destruct (flushes_run now trace fresh caller rounds r 0 Hup) as (sent&buried&r'&Hf&Hu&Hl&Hk&Hacc&_&Hd).
  - eapply Forall_impl; [apply retries_pick, Hup|]. cbn. lia.
  - done.
  - exists sent, buried, r'. assert (pick (concerns caller) (staging r') = []) as He.
    { apply (retries_pick _ (concerns caller)) in Hu. destruct (pick _ (staging r')) as [|d l]; [done|].
      apply Forall_cons in Hu as [Hu _]. apply Forall_cons in Hl as [Hl _]. cbn in Hu. lia. }
    assert (staging r' = leave (concerns caller) (staging r)) as Hst.
    { rewrite <- Hk. symmetry. apply unconcerned. done. }
    split_and!; [done..|]. intros Hne. assert (dead_letter r' = []) as Hd0.
    { apply Hd; [|done]. intros ->. cbn in Hrounds. unfold MAX_DRIFT_RETRIES in *. lia. }
    split; [done|]. rewrite Hd0, Hst, app_nil_r in Hacc.
    apply (Permutation_app_inv_r (forget <$> leave (concerns caller) (staging r))).
    rewrite <- !fmap_app. etrans; [|etrans; [exact Hacc|]]; [by rewrite <- app_assoc|].
    f_equiv. rewrite <- (pick_leave (concerns caller) (staging r)) at 1. fold mine. solve_Permutation.
Qed.
End queue.
