(* ===== verification/DriftLabels.v ===== *)
(** * Labels name one context

    The registry of [Drift.v]: its label index agrees with the handles, so a label
    resolves to the one context that carries it. *)

From S2P Require Import Prelude MethodLogic Text Ids Track Cas Concrete Block Drift DriftQueue.

Section labels.
Context {uuids : UuidCrate}.
Implicit Types (r : DriftRouter) (h : ContextHandle).

Record labels_ok r : Prop := {
  lab_index l id : label_to_id r !! l = Some id ↔
                   ∃ h, contexts r !! id = Some h ∧ ch_label h = Some l;
  lab_ids id h : contexts r !! id = Some h → ch_id h = id;
}.

(** Calls on the registry; a registered id is new. *)
Inductive registering r : DriftRouter → Prop :=
  | reg_register now trace id label from by_ res r' :
      contexts r !! id = None →
      register now trace id label from by_ r = Some (res, r') → registering r r'
  | reg_fork now trace id label from by_ res r' :
      contexts r !! id = None →
      register_fork now trace id label from by_ r = Some (res, r') → registering r r'
  | reg_rename id label res r' : rename id label r = Some (res, r') → registering r r'
  | reg_configure id provider model res r' :
      configure_llm id provider model r = Some (res, r') → registering r r'
  | reg_pwd id pwd res r' : set_pwd id pwd r = Some (res, r') → registering r r'
  | reg_state id state res r' : set_state id state r = Some (res, r') → registering r r'
  | reg_ensure now trace fresh res r' :
      contexts r !! {| context_uuid := fresh |} = None →
      ensure_lost_found now trace fresh r = Some (res, r') → registering r r'
  | reg_unregister id : registering r (unregister id r).

(** Whether [label] is free for [id]. *)
Definition label_free r (label : option string) (id : ContextId) : Prop :=
  ∀ l e, label = Some l → label_to_id r !! l = Some e → e = id.

Definition index_label (label : option string) (id : ContextId) r : DriftRouter :=
  match label with
  | Some l => r <| label_to_id := <[l := id]> (label_to_id r) |>
  | None => r
  end.

Lemma check_label_run l id r :
  (label_free r (Some l) id ∧ check_label_available l id r = Some (Ok tt, r)) ∨
  (∃ e, label_to_id r !! l = Some e ∧ e ≠ id ∧
        check_label_available l id r = Some (Err (LabelInUse l (ctx_short e)), r)).
Proof.
  unfold check_label_available, m_guard, mbind, method_bind, m_bind. cbn.
  destruct (label_to_id r !! l) as [e|] eqn:E.
  - case_bool_decide as He; [left|right; by exists e].
    split; [|done]. intros l' e' [= <-] ?. congruence.
  - left. split; [|done]. intros l' e' [= <-] ?. congruence.
Qed.

Lemma claim_label_run label id r :
  (label_free r label id ∧ claim_label label id r = Some (Ok tt, index_label label id r)) ∨
  (∃ l e, label = Some l ∧ label_to_id r !! l = Some e ∧ e ≠ id ∧
          claim_label label id r = Some (Err (LabelInUse l (ctx_short e)), r)).
Proof.
  destruct label as [l|]; [|left; split; [by intros ? ? [=]|done]].
  unfold claim_label, mbind, method_bind, m_bind.
  destruct (check_label_run l id r) as [[Hf ->]|(e&?&?&->)]; [left|right; by exists l, e].
  split; [exact Hf|done].
Qed.

Lemma drop_label_lookup r id l x :
  labels_ok r →
  label_to_id (drop_label (contexts r !! id ≫= ch_label) r) !! l = Some x ↔
  x ≠ id ∧ label_to_id r !! l = Some x.
Proof.
  intros [Hi _]. pose proof (Hi l id) as Hid.
  destruct (contexts r !! id) as [h0|]; [destruct (ch_label h0) as [l0|] eqn:El0|];
    cbn [mbind option_bind drop_label].
  - rewrite El0. cbn. rewrite lookup_delete_Some. split; intros [Hne Hl]; (split; [|done]).
    + intros ->. apply Hid in Hl as (?&[= <-]&?). congruence.
    + intros ->. apply Hne. assert (label_to_id r !! l = Some id) by (apply Hid; eauto). congruence.
  - rewrite El0. cbn. split; [|tauto]. intros Hl. split; [|done]. intros ->.
    apply Hid in Hl as (?&[= <-]&?). congruence.
  - split; [|tauto]. intros Hl. split; [|done]. intros ->. by apply Hid in Hl as (?&?&_).
Qed.

(** A handle that takes a free label in, in place of the one it had. *)
Lemma labels_ok_put r id h :
  labels_ok r → label_free r (ch_label h) id → ch_id h = id →
  let old := contexts r !! id ≫= ch_label in
  labels_ok ((index_label (ch_label h) id (drop_label old r))
               <| contexts := <[id := h]> (contexts r) |>).
Proof.
  intros Hok Hfree Hid. pose proof Hok as [Hi Hc]. cbv zeta.
  assert (∀ l x, label_to_id (index_label (ch_label h) id
             (drop_label (contexts r !! id ≫= ch_label) r)) !! l = Some x ↔
           (ch_label h = Some l ∧ x = id) ∨
           (ch_label h ≠ Some l ∧ x ≠ id ∧ label_to_id r !! l = Some x)) as Hlook.
  { intros l x.
    pose proof (drop_label_lookup r id l x Hok) as Hd.
    destruct (ch_label h) as [l0|] eqn:El; cbn; [|rewrite Hd; naive_solver].
    rewrite lookup_insert_Some, Hd. naive_solver. }
  split; cbn.
  - intros l x. rewrite Hlook, Hi. setoid_rewrite lookup_insert_Some. split.
    + intros [[? ->]|(?&?&h'&?&?)]; [exists h; by auto|]. exists h'. auto.
    + intros (h'&[[<- <-]|[Hne Hh']]&Hl); [by left|]. right.
      split_and!; [|done|by exists h'].
      intros El. apply Hne. symmetry. apply (Hfree l x El). apply Hi. by exists h'.
  - intros x h' [[<- <-]|[_ ?]]%lookup_insert_Some; auto.
Qed.

Lemma labels_ok_ext r r' :
  contexts r' = contexts r → label_to_id r' = label_to_id r → labels_ok r → labels_ok r'.
Proof. intros E1 E2 []. split; rewrite ?E1, ?E2; done. Qed.

(** Registering a new context under a label that is free. *)
Lemma register_ok now trace id label provider model from by_ r :
  labels_ok r → contexts r !! id = None → label_free r label id →
  let h := new_handle now trace id label provider model from by_ in
  labels_ok ((index_label label id r) <| contexts := <[id := h]> (contexts r) |>).
Proof.
  intros Hok Hnew Hfree h. pose proof (labels_ok_put r id h Hok Hfree eq_refl) as Hp.
  by rewrite Hnew in Hp.
Qed.

Lemma register_run now trace id label from by_ r :
  let h := new_handle now trace id label None None from by_ in
  (label_free r label id ∧
   register now trace id label from by_ r =
     Some (Ok tt, (index_label label id r) <| contexts := <[id := h]> (contexts r) |>)) ∨
  (∃ l e, label = Some l ∧ label_to_id r !! l = Some e ∧ e ≠ id ∧
     register now trace id label from by_ r = Some (Err (LabelInUse l (ctx_short e)), r)).
Proof.
  unfold register, mbind, method_bind, m_bind.
  destruct (claim_label_run label id r) as [[Hf ->]|(l&e&?&?&?&->)].
  - left. split; [done|]. by destruct label.
  - right. by exists l, e.
Qed.

Lemma with_handle_ok id f res r r' :
  (∀ h, ch_label (f h) = ch_label h ∧ ch_id (f h) = ch_id h) →
  labels_ok r → with_handle id f r = Some (res, r') → labels_ok r'.
Proof.
  intros Hf Hok. unfold with_handle, mbind, method_bind, m_bind. cbn.
  destruct (contexts r !! id) as [h|] eqn:E; [|by intros [= <- <-]]. intros [= <- <-].
  destruct Hok as [Hi Hc]. split; cbn.
  - intros l x. rewrite Hi. setoid_rewrite lookup_insert_Some. split.
    + intros (h'&Hx&Hl). destruct (decide (id = x)) as [<-|]; [|exists h'; by auto].
      exists (f h). simplify_eq. split; [by left|]. by rewrite (proj1 (Hf h)).
    + intros (h'&[[<- <-]|[_ ?]]&Hl); [|by exists h']. exists h. split; [done|].
      by rewrite (proj1 (Hf h)) in Hl.
  - intros x h' [[<- <-]|[_ ?]]%lookup_insert_Some; [|auto].
    rewrite (proj2 (Hf h)). auto.
Qed.

Lemma rename_ok id label res r r' :
  labels_ok r → rename id label r = Some (res, r') → labels_ok r'.
Proof.
  intros Hok.
  assert (∀ h, label_free r label id → contexts r !! id = Some h →
    labels_ok ((index_label label id (drop_label (ch_label h) r))
                 <| contexts := <[id := h <| ch_label := label |>]> (contexts r) |>)) as Hput.
  { intros h Hfree E. pose proof (labels_ok_put r id (h <| ch_label := label |>) Hok Hfree
      (lab_ids r Hok id h E)) as Hp. by rewrite E in Hp. }
  assert (∀ h, contexts (drop_label (ch_label h) r) = contexts r) as Hc
    by (intros h; by destruct (ch_label h)).
  unfold rename, mbind, method_bind, m_bind. destruct label as [l|].
  - destruct (check_label_run l id r) as [[Hf ->]|(e&_&_&->)]; [|by intros [= <- <-]]. cbn.
    destruct (contexts r !! id) as [h|] eqn:E; [|by intros [= <- <-]]. intros [= <- <-].
    eapply labels_ok_ext; [..|exact (Hput h Hf eq_refl)]; cbn; by rewrite ?Hc.
  - cbn. destruct (contexts r !! id) as [h|] eqn:E; [|by intros [= <- <-]]. intros [= <- <-].
    eapply labels_ok_ext; [..|apply (Hput h); [by intros ? ? [=]|done]]; cbn; by rewrite ?Hc.
Qed.

Lemma unregister_ok id r : labels_ok r → labels_ok (unregister id r).
Proof.
  intros Hok. pose proof Hok as [Hi Hc].
  assert (∀ l x, label_to_id (unregister id r) !! l = Some x ↔ x ≠ id ∧ label_to_id r !! l = Some x)
    as Hl.
  { intros l x. rewrite <- (drop_label_lookup r id l x Hok). unfold unregister.
    destruct (contexts r !! id) as [h|]; [|done]. cbn. by destruct (ch_label h). }
  assert (contexts (unregister id r) = delete id (contexts r)) as Hd.
  { unfold unregister. destruct (contexts r !! id) as [h|] eqn:E; cbn.
    - by destruct (ch_label h).
    - symmetry. by apply delete_id. }
  split.
  - intros l x. rewrite Hl, Hi, Hd. setoid_rewrite lookup_delete_Some. naive_solver.
  - intros x h. rewrite Hd, lookup_delete_Some. intros [_ ?]. auto.
Qed.

Lemma registering_ok r r' : labels_ok r → registering r r' → labels_ok r'.
Proof.
  intros Hok. destruct 1 as [now trace id label from by_ res r' Hn E
    |now trace id label from by_ res r' Hn E|id label res r' E|id provider model res r' E
    |id pwd res r' E|id state res r' E|now trace fresh res r' Hn E|id].
  - destruct (register_run now trace id label from by_ r) as [[Hf E']|(?&?&_&_&_&E')];
      rewrite E' in E; simplify_eq; [by apply register_ok|done].
  - revert E. unfold register_fork, mbind, method_bind, m_bind. cbn.
    destruct (contexts r !! from) as [parent|]; [|by intros [= <- <-]].
    destruct (claim_label_run label id r) as [[Hf ->]|(?&?&_&_&_&->)]; intros [= <- <-]; [|done].
    pose proof (register_ok now trace id label (ch_provider parent) (ch_model parent) (Some from)
      by_ r Hok Hn Hf) as Hr. by destruct label.
  - exact (rename_ok _ _ _ _ _ Hok E).
  - eapply with_handle_ok; [|exact Hok|exact E]. done.
  - eapply with_handle_ok; [|exact Hok|exact E]. done.
  - eapply with_handle_ok; [|exact Hok|exact E]. done.
  - revert E. unfold ensure_lost_found, mbind, method_bind, m_bind. cbn -[register].
    destruct (lost_found_id r); [by intros [= <- <-]|]. unfold m_expect.
    set (r0 := {| contexts := contexts r; staging := staging r; dead_letter := dead_letter r;
      next_staged_id := next_staged_id r; label_to_id := label_to_id r;
      lost_found_id := Some {| context_uuid := fresh |} |}).
    destruct (register_run now trace {| context_uuid := fresh |} (Some LOST_FOUND) None
      principal_system r0) as [[Hf ->]|(?&?&_&_&_&->)]; [|done].
    intros [= <- <-]. assert (labels_ok r0) as Hok0 by (by eapply labels_ok_ext; [..|exact Hok]).
    exact (register_ok now trace _ (Some LOST_FOUND) None None None principal_system r0 Hok0 Hn Hf).
  - by apply unregister_ok.
Qed.

(** *** Resolution *)

Lemma omap_none {A B} (f : A → option B) (l : list A) :
  (∀ x, x ∈ l → f x = None) → omap f l = [].
Proof.
  induction l as [|x l IH]; intros Hl; [done|]. cbn. rewrite (Hl x) by apply list_elem_of_here.
  apply IH. intros y Hy. by apply Hl, list_elem_of_further.
Qed.

Lemma resolve_sole (id : ContextId) (l : string) (items : list (ContextId * option string)) :
  NoDup (items.*1) → (id, Some l) ∈ items → (∀ x, (x, Some l) ∈ items → x = id) →
  resolve_prefix items l = Ok id.
Proof.
  intros Hd (l1&l2&->)%list_elem_of_split Hu.
  rewrite fmap_app in Hd. apply NoDup_app in Hd as (_&Hd1&[Hd2 _]%NoDup_cons).
  assert (label_hits (λ k, bool_decide (k = l)) (l1 ++ (id, Some l) :: l2) = [(id, l)]) as Hhits.
  { unfold label_hits. rewrite omap_app. cbn. rewrite bool_decide_true by done.
    rewrite !omap_none; [done|..].
    - intros [x [k|]] Hx; [|done]. cbn. rewrite bool_decide_false; [done|]. intros ->.
      assert (x = id) as -> by (apply Hu, elem_of_app; right; by apply list_elem_of_further).
      apply Hd2. apply list_elem_of_fmap. by exists (id, Some l).
    - intros [x [k|]] Hx; [|done]. cbn. rewrite bool_decide_false; [done|]. intros ->.
      assert (x = id) as -> by (apply Hu, elem_of_app; by left).
      apply (Hd1 id); [apply list_elem_of_fmap; by exists (id, Some l)|]. apply list_elem_of_here. }
  unfold resolve_prefix. by rewrite Hhits.
Qed.

Lemma registered_ok r : rtc registering router_new r → labels_ok r.
Proof.
  assert (labels_ok router_new) as H0.
  { split; cbn; [|by intros id h; rewrite lookup_empty]. intros l id.
    setoid_rewrite lookup_empty. split; [done|]. by intros (?&?&?). }
  intros H. revert H0. induction H as [|r0 r1 r2 Hs _ IH]; [done|].
  intros H0. by eapply IH, registering_ok.
Qed.

(** Labels name one context. Whatever calls the registry went through, contexts
    being registered under new ids, no two contexts carry the same label, the label
    index lists exactly the labels in use, and each of them resolves to the context
    that carries it; a label in use by another context is refused, with its holder,
    and nothing changes. *)
Theorem labels_resolve r (H : rtc registering router_new r) :
  (∀ i1 i2 h1 h2 l, contexts r !! i1 = Some h1 → contexts r !! i2 = Some h2 →
     ch_label h1 = Some l → ch_label h2 = Some l → i1 = i2) ∧
  (∀ l id, label_to_id r !! l = Some id ↔ ∃ h, contexts r !! id = Some h ∧ ch_label h = Some l) ∧
  (∀ id h l, contexts r !! id = Some h → ch_label h = Some l → resolve_context r l = Ok id) ∧
  (∀ now trace id holder l from by_, label_to_id r !! l = Some holder → holder ≠ id →
     register now trace id (Some l) from by_ r =
       Some (Err (LabelInUse l (ctx_short holder)), r) ∧
     rename id (Some l) r = Some (Err (LabelInUse l (ctx_short holder)), r)).
Proof.
  destruct (registered_ok r H) as [Hi Hc].
  assert (∀ i1 i2 h1 h2 l, contexts r !! i1 = Some h1 → contexts r !! i2 = Some h2 →
     ch_label h1 = Some l → ch_label h2 = Some l → i1 = i2) as Huniq.
  { intros i1 i2 h1 h2 l H1 H2 L1 L2.
    assert (label_to_id r !! l = Some i1) by (apply Hi; eauto).
    assert (label_to_id r !! l = Some i2) by (apply Hi; eauto). congruence. }
  split_and!; [exact Huniq|exact Hi| |].
  - intros id h l Hid Hl. unfold resolve_context. rewrite (resolve_sole id l); [done|..].
    + rewrite <- list_fmap_compose. rewrite (list_fmap_ext _ fst).
      * apply NoDup_fst_map_to_list.
      * intros i [x h'] Hx. cbn. apply list_elem_of_lookup_2, elem_of_map_to_list in Hx. auto.
    + apply list_elem_of_fmap. exists (id, h). cbn. rewrite Hl, (Hc id h) by done.
      split; [done|]. by apply elem_of_map_to_list.
    + intros x ([x' h']&[= -> Hl']&Hx%elem_of_map_to_list)%list_elem_of_fmap. cbn in *.
      rewrite (Hc x' h' Hx). by eapply Huniq.
  - intros now trace id holder l from by_ Hl Hne. split.
    + destruct (register_run now trace id (Some l) from by_ r) as [[Hf _]|(?&?&[= <-]&?&_&->)].
      * by destruct Hne, (Hf l holder).
      * by simplify_eq.
    + unfold rename, mbind, method_bind, m_bind.
      destruct (check_label_run l id r) as [[Hf _]|(?&?&_&->)].
      * by destruct Hne, (Hf l holder).
      * by simplify_eq.
Qed.
End labels.

(** * The drift router on concrete histories *)

Import Demo.

Definition ctx (n : N) : ContextId := {| context_uuid := n |}.
Definition author : PrincipalId := {| principal_uuid := 9 |}.

(** The state after a method, which must not panic. *)
Definition after {A} (m : method DriftRouter DriftError A) (r : DriftRouter) : DriftRouter :=
  match m r with Some (_, r') => r' | None => r end.

(** Two contexts. *)
Definition two_contexts : DriftRouter :=
  after (register 6 0 (ctx 2) (Some "side") None author)
    (after (register 5 0 (ctx 1) (Some "main") None author) router_new).

Definition one_staged : DriftRouter :=
  after (stage 7 (ctx 1) (ctx 2) "news" None DPush) two_contexts.

Lemma labels_resolve_witness :
  rtc registering router_new two_contexts ∧ resolve_context two_contexts "side" = Ok (ctx 2).
Proof.
  assert (rtc registering router_new two_contexts) as H.
  { eapply rtc_l.
    - apply (reg_register _ 5 0 (ctx 1) (Some "main") None author (Ok tt));
        vm_compute; reflexivity.
    - apply rtc_once.
      apply (reg_register _ 6 0 (ctx 2) (Some "side") None author (Ok tt));
        vm_compute; reflexivity. }
  split; [exact H|]. destruct (labels_resolve _ H) as (_&_&Hr&_).
  eapply Hr; vm_compute; reflexivity.
Defined.

Definition news : StagedDrift :=
  {| sd_id := 1; sd_source_ctx := ctx 1; sd_target_ctx := ctx 2; sd_content := "news";
     sd_source_model := None; sd_drift_kind := DPush; sd_created_at := 7;
     sd_retry_count := 0 |}.

Definition staged_system : System :=
  {| sys_router := one_staged; sys_flight := []; sys_gone := []; sys_log := [] ++ [news] |}.

Definition two_system : System :=
  {| sys_router := two_contexts; sys_flight := []; sys_gone := []; sys_log := [] |}.

Lemma news_staged : drift_step two_system staged_system.
Proof.
  pose proof (step_stage two_system 7 (ctx 1) (ctx 2) "news" None DPush (Ok 1) one_staged) as H.
  apply H; vm_compute; reflexivity.
Qed.

Definition drained_system : System :=
  {| sys_router := (drain None one_staged).2; sys_flight := [] ++ (drain None one_staged).1;
     sys_gone := []; sys_log := [] ++ [news] |}.
Definition requeued_system : System :=
  {| sys_router := requeue (drain None one_staged).1 (drain None one_staged).2; sys_flight := [];
     sys_gone := []; sys_log := [] ++ [news] |}.

Lemma news_requeued : drift_step drained_system requeued_system.
Proof.
  pose proof (step_requeue drained_system (drain None one_staged).1 []) as H. apply H. reflexivity.
Qed.

(** Staged, drained, and back after a failure. *)
Lemma drift_conserved_witness :
  sd_retry_count <$> staging (sys_router requeued_system) = [1] ∧
  forget <$> held requeued_system ≡ₚ sys_log requeued_system.
Proof.
  assert (rtc drift_step system_new requeued_system) as H.
  { eapply rtc_l.
    { apply (step_registry _ (after (register 5 0 (ctx 1) (Some "main") None author) router_new)).
      apply (call_register 5 0 (ctx 1) (Some "main") None author _ (Ok tt)).
      vm_compute. reflexivity. }
    eapply rtc_l.
    { apply (step_registry _ two_contexts).
      apply (call_register 6 0 (ctx 2) (Some "side") None author _ (Ok tt)).
      vm_compute. reflexivity. }
    eapply rtc_l; [apply news_staged|].
    eapply rtc_l; [apply (step_drain staged_system None)|]. apply rtc_once, news_requeued. }
  split; [vm_compute; reflexivity|]. exact (proj1 (drift_conserved _ H)).
Defined.

(** The target of the one drift staged flushes, and no insertion succeeds. *)
Lemma flush_liveness_witness :
  ∃ sent buried r', flushes 8 0 7 (Some (ctx 2)) (replicate 6 (λ _, false)) one_staged = Some (sent, buried, r') ∧
    sd_retry_count <$> buried = [6] ∧ staging r' = [].
Proof.
  destruct (flush_liveness 8 0 7 (Some (ctx 2)) (replicate 6 (λ _, false)) one_staged)
    as (sent&buried&r'&Hf&Hs&_).
  - repeat constructor; vm_compute; intros [=].
  - right. vm_compute. reflexivity.
  - vm_compute. reflexivity.
  - exists sent, buried, r'. split; [exact Hf|]. split; [|rewrite Hs; vm_compute; reflexivity].
    vm_compute in Hf. injection Hf as <- <- <-. vm_compute. reflexivity.
Defined.
(** To another context it is none of its concern, and stays as it is. *)
Example flush_elsewhere :
  (λ '(sent, buried, r'), (sent, buried, sd_retry_count <$> staging r')) <$>
    flushes 8 0 7 (Some (ctx 3)) (replicate 6 (λ _, false)) one_staged = Some ([], [], [0]).
Proof. by vm_compute. Qed.

(** The label of lost+found is not reserved: once a context is renamed to it, the
    flush that has a dead letter to bury panics. *)
Example lost_found_label_taken :
  let r := after (rename (ctx 2) (Some LOST_FOUND)) one_staged in
  ∃ r', r' = Nat.iter 5 (after (drift_flush 8 0 7 (λ _, false) None)) r ∧
        drift_flush 8 0 7 (λ _, false) None r' = None.
Proof. eexists. split; [reflexivity|]. vm_compute. reflexivity. Qed.

(** A flush of an empty queue leaves the dead letters where they are. *)
Example dead_letters_wait :
  let r := unregister (ctx 2) one_staged in
  length (dead_letter r) = 1%nat ∧ drift_flush 8 0 7 (λ _, true) None r = Some (Ok ([], []), r).
Proof. split; vm_compute; reflexivity. Qed.

(** Registering an id again under another label leaves the first label taken: it
    resolves to nothing and no other context can have it. *)
Example stale_label :
  let r := after (register 8 0 (ctx 1) (Some "new") None author) two_contexts in
  resolve_context r "main" = Err (UnknownContext "main") ∧
  register 9 0 (ctx 3) (Some "main") None author r =
    Some (Err (LabelInUse "main" (ctx_short (ctx 1))), r).
Proof. split; vm_compute; reflexivity. Qed.
