(* ===== verification/Abc.v ===== *)
(** * Music in ABC notation ([kaijutsu-abc/src/ast.rs], [parser/key.rs], [parser/header.rs])

    The syntax tree of a tune, and what its parts mean: semitones, key signatures, meters,
    durations; the fields for keys and meters, which an inline field may set. Arithmetic that can leave its machine type is partial: [None] is the panic
    of a build with overflow checks. *)

From Stdlib Require Import Ascii.
From S2P Require Import Prelude Text.

(** ** Machine arithmetic *)

Definition u32_max : Z := 4294967295.
Definition checked_u32 (z : Z) : option Z := if (0 <=? z) && (z <=? u32_max) then Some z else None.
Definition checked_i8 (z : Z) : option Z := if (-128 <=? z) && (z <=? 127) then Some z else None.
Definition checked_i16 (z : Z) : option Z := if (-32768 <=? z) && (z <=? 32767) then Some z else None.
(** [as i8] *)
Definition wrap_i8 (z : Z) : Z := (z + 128) mod 256 - 128.
(** [clamp(0, 127)] *)
Definition clamp7 (z : Z) : Z := Z.max 0 (Z.min 127 z).

(** ** Pitches *)

Inductive NoteName := NoteC | NoteD | NoteE | NoteF | NoteG | NoteA | NoteB.
#[export] Instance NoteName_eq_dec : EqDecision NoteName.
Proof. solve_decision. Defined.
#[export] Instance NoteName_countable : Countable NoteName.
Proof.
  refine (inj_countable' (λ n, match n with NoteC => 0 | NoteD => 1 | NoteE => 2 | NoteF => 3 | NoteG => 4
      | NoteA => 5 | NoteB => 6 end)
    (λ z : Z, if decide (z = 0) then NoteC else if decide (z = 1) then NoteD else if decide (z = 2) then NoteE
      else if decide (z = 3) then NoteF else if decide (z = 4) then NoteG else if decide (z = 5) then NoteA
      else NoteB) _).
  by intros [].
Defined.

Inductive Accidental := DoubleSharp | Sharp | Natural | Flat | DoubleFlat.
#[export] Instance Accidental_eq_dec : EqDecision Accidental.
Proof. solve_decision. Defined.

Definition to_semitone (n : NoteName) : Z :=
  match n with
  | NoteC => 0 | NoteD => 2 | NoteE => 4 | NoteF => 5 | NoteG => 7 | NoteA => 9 | NoteB => 11
  end.

Definition to_semitone_offset (a : Accidental) : Z :=
  match a with DoubleSharp => 2 | Sharp => 1 | Natural => 0 | Flat => -1 | DoubleFlat => -2 end.

Definition all_notes : list NoteName := [NoteC; NoteD; NoteE; NoteF; NoteG; NoteA; NoteB].

(** [rem_euclid(12)] leaves no other case. *)
Definition from_semitone (semitone : Z) : NoteName * option Accidental :=
  match semitone mod 12 with
  | 0 => (NoteC, None) | 1 => (NoteC, Some Sharp) | 2 => (NoteD, None) | 3 => (NoteD, Some Sharp)
  | 4 => (NoteE, None) | 5 => (NoteF, None) | 6 => (NoteF, Some Sharp) | 7 => (NoteG, None)
  | 8 => (NoteG, Some Sharp) | 9 => (NoteA, None) | 10 => (NoteA, Some Sharp) | _ => (NoteB, None)
  end.

(** [to_lowercase] and [to_uppercase], where they are only compared with words of ASCII
    letters: no other character maps to a letter of those words alone. *)
Definition lower_char (c : ascii) : ascii :=
  if (65 <=? byte_val c) && (byte_val c <=? 90) then ascii_of_N (Z.to_N (byte_val c + 32)) else c.
Definition to_lower (s : string) : string :=
  String.string_of_list_ascii (lower_char <$> String.list_ascii_of_string s).
Definition eq_ignore_ascii_case (s t : string) : bool := bool_decide (to_lower s = to_lower t).

Definition NoteName_parse (s : string) : option NoteName :=
  let s := to_lower s in
  if bool_decide (s = "c") then Some NoteC else if bool_decide (s = "d") then Some NoteD
  else if bool_decide (s = "e") then Some NoteE else if bool_decide (s = "f") then Some NoteF
  else if bool_decide (s = "g") then Some NoteG else if bool_decide (s = "a") then Some NoteA
  else if bool_decide (s = "b") then Some NoteB else None.

(** ** Keys *)

Inductive Mode := Major | Minor | Ionian | Dorian | Phrygian | Lydian | Mixolydian | Aeolian | Locrian.
#[export] Instance Mode_eq_dec : EqDecision Mode.
Proof. solve_decision. Defined.

Definition Mode_parse (s : string) : option Mode :=
  let s := to_lower s in
  if bool_decide (s = "") then Some Major
  else if bool_decide (s = "m") then Some Minor
  else
    let prefix := concat_str (take 3 (chars s)) in
    if bool_decide (prefix = "maj") then Some Major else if bool_decide (prefix = "min") then Some Minor
    else if bool_decide (prefix = "ion") then Some Ionian else if bool_decide (prefix = "dor") then Some Dorian
    else if bool_decide (prefix = "phr") then Some Phrygian else if bool_decide (prefix = "lyd") then Some Lydian
    else if bool_decide (prefix = "mix") then Some Mixolydian else if bool_decide (prefix = "aeo") then Some Aeolian
    else if bool_decide (prefix = "loc") then Some Locrian else None.

Inductive Clef := Treble | Bass | Alto | Tenor | Percussion.

Record Key := {
  key_root : NoteName;
  key_accidental : option Accidental;
  key_mode : Mode;
  key_explicit : list (Accidental * NoteName);
  key_clef : option Clef;
  key_transpose : Z;
  key_octave : Z;
  key_stafflines : option Z;
  key_middle : option string;
}.
#[export] Instance Key_settable : Settable Key := λ k, {|
  key_root := key_root k; key_accidental := key_accidental k; key_mode := key_mode k;
  key_explicit := key_explicit k; key_clef := key_clef k; key_transpose := key_transpose k;
  key_octave := key_octave k; key_stafflines := key_stafflines k; key_middle := key_middle k;
|}.

Definition key_default : Key := {|
  key_root := NoteC; key_accidental := None; key_mode := Major; key_explicit := []; key_clef := None;
  key_transpose := 0; key_octave := 0; key_stafflines := None; key_middle := None;
|}.

Definition letter_fifths (n : NoteName) : Z :=
  match n with
  | NoteF => -1 | NoteC => 0 | NoteG => 1 | NoteD => 2 | NoteA => 3 | NoteE => 4 | NoteB => 5
  end.
Definition acc_fifths (a : option Accidental) : Z :=
  match a with
  | Some Sharp => 7 | Some DoubleSharp => 14 | Some Flat => -7 | Some DoubleFlat => -14 | _ => 0
  end.
Definition mode_offset (m : Mode) : Z :=
  match m with
  | Major | Ionian => 0 | Minor | Aeolian => -3 | Dorian => -2 | Phrygian => -4 | Lydian => 1
  | Mixolydian => -1 | Locrian => -5
  end.

(** [(count, is_sharp)] *)
Definition signature (k : Key) : Z * bool :=
  let total := letter_fifths (key_root k) + acc_fifths (key_accidental k) + mode_offset (key_mode k) in
  if 0 <=? total then (total, true) else (- total, false).

(** ** Time *)

Inductive Meter :=
  | MeterSimple (numerator denominator : Z)
  | MeterCommon
  | MeterCut
  | MeterNone.

Definition to_fraction (m : Meter) : Z * Z :=
  match m with
  | MeterSimple n d => (n, d)
  | MeterCommon => (4, 4)
  | MeterCut => (2, 2)
  | MeterNone => (4, 4)
  end.

Record UnitLength := { ul_numerator : Z; ul_denominator : Z }.
Definition unit_length_default : UnitLength := {| ul_numerator := 1; ul_denominator := 8 |}.

Record Tempo := { tempo_beat_unit : Z * Z; tempo_bpm : Z; tempo_text : option string }.

Record Duration := { dur_numerator : Z; dur_denominator : Z }.
Definition duration_unit : Duration := {| dur_numerator := 1; dur_denominator := 1 |}.

Definition to_ticks (d : Duration) (ticks_per_unit : Z) : option Z :=
  t ← checked_u32 (ticks_per_unit * dur_numerator d);
  Some (t / Z.max (dur_denominator d) 1).

(** ** Elements *)

Record InfoField := { field_type : string; field_value : string }.

Inductive Dynamic := PPP | PP | DP | MP | MF | DF | FF | FFF.

Inductive Decoration :=
  | Staccato | Accent | Fermata | Trill | Roll
  | Mordent (upper : bool)
  | Turn | UpBow | DownBow
  | DDynamic (d : Dynamic)
  | Crescendo (start : bool)
  | Diminuendo (start : bool)
  | DOther (s : string).

Record Note := {
  note_pitch : NoteName;
  note_octave : Z;
  note_accidental : option Accidental;
  note_duration : Duration;
  note_tie : bool;
  note_decorations : list Decoration;
}.
#[export] Instance Note_settable : Settable Note := λ n, {|
  note_pitch := note_pitch n; note_octave := note_octave n; note_accidental := note_accidental n;
  note_duration := note_duration n; note_tie := note_tie n; note_decorations := note_decorations n;
|}.

Definition note_new (pitch : NoteName) (octave : Z) : Note := {|
  note_pitch := pitch; note_octave := octave; note_accidental := None; note_duration := duration_unit;
  note_tie := false; note_decorations := [];
|}.

Record Chord := { chord_notes : list Note; chord_duration : Duration }.
Record Rest := { rest_duration : Duration; rest_visible : bool; rest_multi_measure : option Z }.

Inductive Bar :=
  | BarSingle | BarDouble | BarEnd | BarStart
  | RepeatStart | RepeatEnd | RepeatBoth
  | FirstEnding | SecondEnding
  | NthEnding (numbers : list Z).

Inductive Element :=
  | ENote (n : Note)
  | EChord (c : Chord)
  | ERest (r : Rest)
  | EBar (b : Bar)
  | ETuplet (p q : Z) (elements : list Element)
  | EGraceNotes (acciaccatura : bool) (notes : list Note)
  | EChordSymbol (s : string)
  | EInlineField (f : InfoField)
  | EDecoration (d : Decoration)
  | ESlurGroup (elements : list Element)
  | EVoiceSwitch (id : string)
  | ELyrics (aligned : bool) (text : string)
  | ESymbolLine (s : string)
  | EOverlay (layers : Z)
  | ESpace
  | ELineBreak
  | EBeamBreak.

Definition is_group (e : Element) : bool := match e with ETuplet _ _ _ | ESlurGroup _ => true | _ => false end.

Section element_ind.
Variable P : Element → Prop.
Hypothesis HT : ∀ p q l, Forall P l → P (ETuplet p q l).
Hypothesis HS : ∀ l, Forall P l → P (ESlurGroup l).
Hypothesis HO : ∀ e, is_group e = false → P e.

(** Induction over the elements and those inside them. *)
Fixpoint element_nested_ind (e : Element) : P e :=
  match e with
  | ETuplet p q l => HT p q l ((fix go l : Forall P l :=
      match l with [] => Forall_nil_2 P | x :: l' => Forall_cons_2 P x l' (element_nested_ind x) (go l') end) l)
  | ESlurGroup l => HS l ((fix go l : Forall P l :=
      match l with [] => Forall_nil_2 P | x :: l' => Forall_cons_2 P x l' (element_nested_ind x) (go l') end) l)
  | e => HO e eq_refl
  end.
End element_ind.

(** ** Tunes *)

Inductive StemDirection := StemUp | StemDown | StemAuto.

Record VoiceDef := {
  vd_id : string; vd_name : option string; vd_clef : option Clef; vd_octave : option Z;
  vd_transpose : option Z; vd_stem : option StemDirection;
}.

Record Voice := { voice_id : option string; voice_name : option string; voice_elements : list Element }.

Record Header := {
  reference : Z; title : string; titles : list string; header_key : Key; header_meter : option Meter;
  header_unit_length : option UnitLength; header_tempo : option Tempo; composer : option string;
  rhythm : option string; header_source : option string; header_notes : option string;
  voice_defs : list VoiceDef; other_fields : list InfoField; midi_program : option Z;
  midi_transpose : option Z;
}.
#[export] Instance Header_settable : Settable Header := λ h, {|
  reference := reference h; title := title h; titles := titles h; header_key := header_key h;
  header_meter := header_meter h; header_unit_length := header_unit_length h; header_tempo := header_tempo h;
  composer := composer h; rhythm := rhythm h; header_source := header_source h; header_notes := header_notes h;
  voice_defs := voice_defs h; other_fields := other_fields h; midi_program := midi_program h;
  midi_transpose := midi_transpose h;
|}.

Definition header_default : Header := {|
  reference := 1; title := ""; titles := []; header_key := key_default; header_meter := None;
  header_unit_length := None; header_tempo := None; composer := None; rhythm := None; header_source := None;
  header_notes := None; voice_defs := []; other_fields := []; midi_program := None; midi_transpose := None;
|}.

Record Tune := { tune_header : Header; tune_voices : list Voice }.

(** * Fields of a tune ([kaijutsu-abc/src/parser/key.rs], [parser/header.rs], [midi.rs])

    The key, unit length and meter that an inline field of the music may set. Warnings go to
    a collector that the generator of MIDI discards; they are left out. *)

(** ** Strings *)

(** [str::find] of a string: where it first occurs. *)
Fixpoint str_find (s p : string) : option nat :=
  if starts_with s p then Some 0%nat
  else match s with "" => None | String _ s' => S <$> str_find s' p end.

(** [&s[n..]] *)
Fixpoint str_drop (n : nat) (s : string) : string :=
  match n, s with
  | O, _ => s
  | S n', String _ s' => str_drop n' s'
  | S _, "" => ""
  end.

(** [str::split_whitespace] *)
Fixpoint words_of (cs : list string) (word : string) : list string :=
  match cs with
  | [] => if bool_decide (word = "") then [] else [word]
  | c :: cs' =>
      if is_white c then (if bool_decide (word = "") then words_of cs' "" else word :: words_of cs' "")
      else words_of cs' (word +:+ c)
  end.
Definition split_whitespace (s : string) : list string := words_of (chars s) "".

(** [str::split] on an ASCII character. *)
Definition str_split (s : string) (c : ascii) : list string := splitn (S (String.length s)) s c.

(** [str::parse::<i8>]: an optional sign, at least one digit, no overflow. *)
Definition parse_i8 (s : string) : option Z :=
  match strip_prefix s "-" with
  | Some digits =>
      match digits with
      | "" => None
      | _ => Z.opp <$> parse_digits 128 digits 0
      end
  | None => parse_uint 127 s
  end.
Definition parse_u8 (s : string) : option Z := parse_uint 255 s.

Definition is_ascii_alphabetic (s : string) : bool :=
  match s with
  | String c "" => let v := byte_val (lower_char c) in (97 <=? v) && (v <=? 122)
  | _ => false
  end.

(** ** Keys *)

Record KeyAttrs := {
  at_clef : option Clef; at_transpose : Z; at_octave : Z; at_stafflines : option Z; at_middle : option string;
}.
#[export] Instance KeyAttrs_settable : Settable KeyAttrs := λ a, {|
  at_clef := at_clef a; at_transpose := at_transpose a; at_octave := at_octave a;
  at_stafflines := at_stafflines a; at_middle := at_middle a;
|}.
Definition key_attrs_default : KeyAttrs :=
  {| at_clef := None; at_transpose := 0; at_octave := 0; at_stafflines := None; at_middle := None |}.

Definition parse_clef_name (name : string) : option Clef :=
  let name := to_lower name in
  if bool_decide (name ∈ ["treble"; "treble-8"; "treble+8"]) then Some Treble
  else if bool_decide (name ∈ ["bass"; "bass-8"; "bass+8"]) then Some Bass
  else if bool_decide (name = "alto") then Some Alto
  else if bool_decide (name = "tenor") then Some Tenor
  else if bool_decide (name = "perc") then Some Percussion
  else None.

Definition absorb_token (tok : string) (a : KeyAttrs) : bool * KeyAttrs :=
  match strip_prefix tok "clef=" with
  | Some rest => (true, a <| at_clef := parse_clef_name rest |>)
  | None =>
  match strip_prefix tok "transpose=" with
  | Some rest => (true, a <| at_transpose := default 0 (parse_i8 rest) |>)
  | None =>
  match strip_prefix tok "octave=" with
  | Some rest => (true, a <| at_octave := default 0 (parse_i8 rest) |>)
  | None =>
  match strip_prefix tok "stafflines=" with
  | Some rest => (true, a <| at_stafflines := parse_u8 rest |>)
  | None =>
  match strip_prefix tok "middle=" with
  | Some rest => (true, a <| at_middle := Some rest |>)
  | None =>
      match at_clef a, parse_clef_name tok with
      | None, Some c => (true, a <| at_clef := Some c |>)
      | _, _ => (false, a)
      end
  end end end end end.

(** One token of the value: an attribute, or a part of the signature. *)
Definition take_token (acc : KeyAttrs * string) (tok : string) : KeyAttrs * string :=
  let '(attrs, key_sig) := acc in
  let '(absorbed, attrs') := absorb_token tok attrs in
  if (absorbed : bool) then (attrs', key_sig)
  else (attrs', (if bool_decide (key_sig = "") then key_sig else key_sig +:+ " ") +:+ tok).

Definition parse_highland_bagpipe_key : Key :=
  key_default <| key_root := NoteD |> <| key_mode := Mixolydian |>
    <| key_explicit := [(Sharp, NoteC); (Sharp, NoteF)] |>.

Definition skip_blanks (cs : list string) : list string :=
  drop_while (λ c, bool_decide (c = " ") || bool_decide (c = String "009" "")) cs.

(** An accidental at the head of the characters, and what follows it. *)
Definition accidental_head (cs : list string) : option (Accidental * list string) :=
  match cs with
  | c :: cs' =>
      if bool_decide (c = "^") then
        match cs' with
        | d :: cs'' => if bool_decide (d = "^") then Some (DoubleSharp, cs'') else Some (Sharp, cs')
        | [] => Some (Sharp, cs')
        end
      else if bool_decide (c = "_") then
        match cs' with
        | d :: cs'' => if bool_decide (d = "_") then Some (DoubleFlat, cs'') else Some (Flat, cs')
        | [] => Some (Flat, cs')
        end
      else if bool_decide (c = "=") then Some (Natural, cs')
      else None
  | [] => None
  end.

(** Every round takes a character: as many rounds as there are characters are enough. *)
Fixpoint explicit_loop (fuel : nat) (cs : list string) : list (Accidental * NoteName) :=
  match fuel with
  | O => []
  | S fuel' =>
      let cs := skip_blanks cs in
      match cs with
      | [] => []
      | c :: cs' =>
          if starts_with (concat_str (take 5 cs)) "clef=" then []
          else
            match accidental_head cs with
            | Some (a, rest) =>
                match skip_blanks rest with
                | n :: rest' =>
                    match NoteName_parse n with
                    | Some note => (a, note) :: explicit_loop fuel' rest'
                    | None => explicit_loop fuel' rest'
                    end
                | [] => []
                end
            | None => if is_ascii_alphabetic c then [] else explicit_loop fuel' cs'
            end
      end
  end.

Definition parse_explicit_accidentals (remaining : string) : list (Accidental * NoteName) :=
  let loop s := explicit_loop (length (chars s)) (chars s) in
  match str_find remaining "exp" with
  | Some pos => loop (str_drop (pos + 3) remaining)
  | None =>
      if existsb (λ c, bool_decide (c ∈ ["^"; "_"; "="])) (chars remaining) then loop remaining else []
  end.

Definition is_clef_char (c : string) : bool := is_ascii_alphabetic c || bool_decide (c = "-").

Fixpoint take_while {A} (p : A → bool) (l : list A) : list A :=
  match l with
  | [] => []
  | x :: l' => if p x then x :: take_while p l' else []
  end.

Definition parse_clef_from_key (s : string) : option Clef :=
  pos ← str_find s "clef=";
  parse_clef_name (concat_str (take_while is_clef_char (chars (str_drop (pos + 5) s)))).

Definition with_attrs (a : KeyAttrs) (k : Key) : Key :=
  k <| key_transpose := at_transpose a |> <| key_octave := at_octave a |>
    <| key_stafflines := at_stafflines a |> <| key_middle := at_middle a |>.

(** The root and what comes after it; [None]: not a letter. *)
Definition key_root_of (cs : list string) : option (NoteName * list string) :=
  match cs with
  | c :: cs' => if is_ascii_alphabetic c then Some (default NoteC (NoteName_parse c), cs') else None
  | [] => None
  end.

Definition root_accidental (cs : list string) : option Accidental * list string :=
  match cs with
  | c :: cs' =>
      if bool_decide (c = "#") then (Some Sharp, cs')
      else if bool_decide (c = "b") then (Some Flat, cs')
      else (None, cs)
  | [] => (None, cs)
  end.

(** The mode, and where it ends. *)
Definition key_mode_of (remaining : string) : Mode * nat :=
  if bool_decide (remaining = "") then (Major, 0%nat)
  else
    let first_token := default "" (head (split_whitespace remaining)) in
    match Mode_parse first_token with
    | Some mode => (mode, (default 0 (str_find remaining first_token) + String.length first_token)%nat)
    | None => (Major, 0%nat)
    end.

Definition parse_key_field (value : string) : Key :=
  let '(attrs, key_sig) := foldl take_token (key_attrs_default, "") (split_whitespace value) in
  let '(attrs, key_sig) :=
    if eq_ignore_ascii_case key_sig "perc" && match at_clef attrs with None => true | Some _ => false end
    then (attrs <| at_clef := Some Percussion |>, "") else (attrs, key_sig) in
  let trimmed := trim key_sig in
  if bool_decide (trimmed = "") || eq_ignore_ascii_case trimmed "none"
  then with_attrs attrs (key_default <| key_clef := at_clef attrs |>)
  else if eq_ignore_ascii_case trimmed "Hp"
  then with_attrs attrs (parse_highland_bagpipe_key <| key_clef := at_clef attrs |>)
  else
    match key_root_of (chars trimmed) with
    | None => key_default
    | Some (root, cs) =>
        let '(accidental, cs) := root_accidental cs in
        let remaining := trim (concat_str cs) in
        let '(mode, mode_end_pos) := key_mode_of remaining in
        let clef := match str_find remaining "clef=" with Some _ => parse_clef_from_key remaining | None => None end in
        with_attrs attrs {|
          key_root := root; key_accidental := accidental; key_mode := mode;
          key_explicit := parse_explicit_accidentals (str_drop mode_end_pos remaining);
          key_clef := match at_clef attrs with Some c => Some c | None => clef end;
          key_transpose := 0; key_octave := 0; key_stafflines := None; key_middle := None |}
    end.

(** ** Meters and unit lengths *)

Definition parse_fraction (s : string) : option (Z * Z) :=
  match str_split s "/" with
  | [a; b] => num ← parse_u8 (trim a); den ← parse_u8 (trim b); Some (num, den)
  | _ => None
  end.

Definition parse_meter (value : string) : Meter :=
  let trimmed := trim value in
  if bool_decide (trimmed = "C") then MeterCommon
  else if bool_decide (trimmed = "C|") then MeterCut
  else if bool_decide (trimmed = "none") || bool_decide (trimmed = "free") then MeterNone
  else match parse_fraction trimmed with
       | Some (num, den) => MeterSimple num den
       | None => MeterSimple 4 4
       end.

Definition inline_unit_length (value : string) : option UnitLength :=
  '(n, d) ← split_once (trim value) "/";
  num ← parse_u8 (trim n);
  den ← parse_u8 (trim d);
  Some {| ul_numerator := num; ul_denominator := den |}.

Definition inline_meter (value : string) : Meter := parse_meter (trim value).

(** ** Examples *)

Example keys :
  (λ v, let k := parse_key_field v in (key_root k, key_accidental k, key_mode k, key_explicit k)) <$>
    ["G"; "Bbm"; "D dorian"; "F#mix"; "Hp"; "C exp ^f _b =c"; "none"; "A clef=bass transpose=-2"] =
  [(NoteG, None, Major, []); (NoteB, Some Flat, Minor, []); (NoteD, None, Dorian, []);
   (NoteF, Some Sharp, Mixolydian, []); (NoteD, None, Mixolydian, [(Sharp, NoteC); (Sharp, NoteF)]);
   (NoteC, None, Major, [(Sharp, NoteF); (Flat, NoteB); (Natural, NoteC)]); (NoteC, None, Major, []);
   (NoteA, None, Major, [])].
Proof. vm_compute. reflexivity. Qed.

Example attributes :
  (λ v, let k := parse_key_field v in (key_clef k, key_transpose k, key_octave k, key_stafflines k)) <$>
    ["A clef=bass transpose=-2"; "perc"; "C octave=-1 stafflines=3 alto"; "^f transpose=2"] =
  [(Some Bass, -2, 0, None); (Some Percussion, 0, 0, None); (Some Alto, 0, -1, Some 3); (None, 0, 0, None)].
Proof. vm_compute. reflexivity. Qed.

Example meters : inline_meter <$> ["6/8"; " C| "; "free"; "2/x"; "3/4/5"] =
  [MeterSimple 6 8; MeterCut; MeterNone; MeterSimple 4 4; MeterSimple 4 4].
Proof. vm_compute. reflexivity. Qed.
