(* ===== verification/Midi.v ===== *)
(** * From a tune to MIDI ([kaijutsu-abc/src/midi.rs])

    Repeats are written out, the elements of a voice are played one after the other onto
    the events of a writer, and the events are framed as a Standard MIDI File. Bytes are
    integers; [None] is the panic of arithmetic that overflows. *)

From Stdlib Require Import Ascii.
From S2P Require Import Prelude Text Abc.

(** ** Parameters ([lib.rs]) *)

Record MidiParams := { velocity : Z; ticks_per_beat : Z; channel : Z; program : option Z }.
Definition midi_params_default : MidiParams :=
  {| velocity := 80; ticks_per_beat := 480; channel := 0; program := None |}.

(** ** Pitch *)

Definition get_voice_pitch_offset (voice : Voice) (defs : list VoiceDef) : Z :=
  let voice_def := vid ← voice_id voice; head (filter (λ d, vd_id d = vid) defs) in
  let transpose_offset := default 0 (d ← voice_def; vd_transpose d) in
  let octave_offset := default 0 ((λ o, o * 12) <$> (d ← voice_def; vd_octave d)) in
  transpose_offset + octave_offset.

Definition apply_pitch_offset (base_pitch offset : Z) : Z := clamp7 (base_pitch + offset).
Definition key_pitch_offset (k : Key) : Z := key_transpose k + key_octave k * 12.

Abbreviation Accidentals := (gmap NoteName Accidental).

Definition effective_accidental (pitch : NoteName) (own : option Accidental) (bar : Accidentals)
    (carried : option Accidental) : option Accidental :=
  match own with
  | Some a => Some a
  | None => match bar !! pitch with Some a => Some a | None => carried end
  end.

Definition midi_pitch_with_accidental (pitch : NoteName) (octave : Z) (acc : option Accidental) : option Z :=
  o ← checked_i8 (octave + 5);
  octave_offset ← checked_i8 (o * 12);
  Some (clamp7 (to_semitone pitch + octave_offset + default 0 (to_semitone_offset <$> acc))).

Definition note_to_midi_pitch (n : Note) (bar : Accidentals) : option Z :=
  midi_pitch_with_accidental (note_pitch n) (note_octave n)
    (effective_accidental (note_pitch n) (note_accidental n) bar None).

Definition sharps : list NoteName := [NoteF; NoteC; NoteG; NoteD; NoteA; NoteE; NoteB].
Definition flats : list NoteName := [NoteB; NoteE; NoteA; NoteD; NoteG; NoteC; NoteF].

Definition compute_key_accidentals (k : Key) : Accidentals :=
  let '(count, is_sharp) := signature k in
  let affected := if is_sharp then sharps else flats in
  let accidentals := foldl (λ m n, <[n := if is_sharp then Sharp else Flat]> m) (∅ : Accidentals)
                       (take (Z.to_nat count) affected) in
  foldl (λ m x, <[x.2 := x.1]> m) accidentals (key_explicit k).

Definition inline_key_accidentals (value : string) : Accidentals := compute_key_accidentals (parse_key_field value).

(** ** Ticks *)

Definition meter_bar_ticks (m : option Meter) (tpb : Z) : Z :=
  let '(num, den) := default (4, 4) (to_fraction <$> m) in
  tpb * 4 * num / Z.max den 1.

Definition compute_unit_ticks (u : UnitLength) (tpb : Z) : Z :=
  tpb * 4 * ul_numerator u / Z.max (ul_denominator u) 1.

(** ** Slurs and repeats *)

Fixpoint flatten_element (e : Element) : list Element :=
  match e with
  | ESlurGroup inner => flat_map flatten_element inner
  | other => [other]
  end.
Definition flatten_slurs (elements : list Element) : list Element := flat_map flatten_element elements.

Definition is_first_ending (e : Element) : bool := match e with EBar FirstEnding => true | _ => false end.
Definition is_repeat_start (e : Element) : bool := match e with EBar RepeatStart => true | _ => false end.
Definition is_repeat_end (e : Element) : bool := match e with EBar RepeatEnd => true | _ => false end.
Definition is_ending_marker (e : Element) : bool :=
  match e with EBar SecondEnding | EBar (NthEnding _) => true | _ => false end.

(** [Iterator::position] and [rposition]; [position_from p n l] starts at [n]. *)
Fixpoint position {A} (p : A → bool) (l : list A) : option nat :=
  match l with
  | [] => None
  | x :: l' => if p x then Some 0%nat else S <$> position p l'
  end.
Definition position_from {A} (p : A → bool) (n : nat) (l : list A) : option nat :=
  Nat.add n <$> position p (drop n l).
Definition rposition {A} (p : A → bool) (l : list A) : option nat :=
  (λ i, length l - 1 - i)%nat <$> position p (reverse l).

Definition expand_variant_endings (elements : list Element) : option (list Element) :=
  fe ← position is_first_ending elements;
  let common_start := default 0%nat (S <$> rposition is_repeat_start (take fe elements)) in
  back ← position_from (λ e, is_repeat_end e || is_ending_marker e) (S fe) elements;
  se ← (x ← elements !! back;
        if is_ending_marker x then Some back else position_from is_ending_marker (S back) elements);
  let second_end := default (length elements) (position_from is_repeat_start (S se) elements) in
  let common := drop common_start (take fe elements) in
  let first := drop (S fe) (take back elements) in
  let second := drop (S se) (take second_end elements) in
  Some (take common_start elements ++ common ++ [EBar BarSingle] ++ first ++ [EBar BarSingle] ++ common
        ++ [EBar BarSingle] ++ second ++ drop second_end elements).

(** What the end of a repeat adds: the bar, and a copy from the start of the repeat. *)
Definition repeat_back (result : list Element) (start : option nat) : list Element :=
  let copy_start := match start with Some s => S s | None => 0%nat end in
  result ++ [EBar RepeatEnd] ++ drop copy_start result.

Definition expand_one (acc : list Element * option nat) (e : Element) : list Element * option nat :=
  let '(result, start) := acc in
  match e with
  | EBar RepeatStart => (result ++ [e], Some (length result))
  | EBar RepeatEnd => (repeat_back result start, None)
  | EBar RepeatBoth =>
      let result := repeat_back result start in
      (result ++ [EBar RepeatStart], Some (length result))
  | _ => (result ++ [e], start)
  end.

Definition expand_repeats (elements : list Element) : list Element :=
  match expand_variant_endings elements with
  | Some expanded => expanded
  | None => (foldl expand_one ([], None) elements).1
  end.

(** ** The writer *)

Record MidiEvent := { ev_tick : Z; ev_data : list Z }.

Record MidiWriter := {
  mw_ticks_per_beat : Z;
  mw_channel : Z;
  mw_events : list MidiEvent;
  mw_current_tick : Z;
}.
#[export] Instance MidiWriter_settable : Settable MidiWriter := λ w, {|
  mw_ticks_per_beat := mw_ticks_per_beat w; mw_channel := mw_channel w;
  mw_events := mw_events w; mw_current_tick := mw_current_tick w;
|}.

Definition writer_new (tpb ch : Z) : MidiWriter :=
  {| mw_ticks_per_beat := tpb; mw_channel := Z.land ch 15; mw_events := []; mw_current_tick := 0 |}.

(** The groups above the lowest, low to high; a [u32] has at most five. *)
Fixpoint vlq_groups (fuel : nat) (value : Z) : list Z :=
  match fuel with
  | O => []
  | S fuel' =>
      if 0 <? value then Z.lor (Z.land value 127) 128 :: vlq_groups fuel' (Z.shiftr value 7) else []
  end.
Definition encode_variable_length (value : Z) : list Z :=
  if value =? 0 then [0] else reverse (Z.land value 127 :: vlq_groups 4 (Z.shiftr value 7)).

Definition channel_event (data : list Z) (w : MidiWriter) : MidiWriter :=
  w <| mw_events := mw_events w ++ [{| ev_tick := mw_current_tick w; ev_data := data |}] |>.
Definition meta_event (event_type : Z) (data : list Z) (w : MidiWriter) : MidiWriter :=
  channel_event ([255; event_type] ++ encode_variable_length (Z.of_nat (length data)) ++ data) w.

Definition us_per_quarter (beat_unit : Z * Z) (bpm : Z) : Z :=
  let '(num, den) := beat_unit in
  let denom := bpm * num * 4 in
  if denom =? 0 then 500000 else 60000000 * den / denom.

Definition set_tempo (beat_unit : Z * Z) (bpm : Z) (w : MidiWriter) : MidiWriter :=
  let us := us_per_quarter beat_unit bpm in
  meta_event 81 [Z.land (Z.shiftr us 16) 255; Z.land (Z.shiftr us 8) 255; Z.land us 255] w.

Definition note_on (pitch vel : Z) (w : MidiWriter) : MidiWriter :=
  channel_event [Z.lor 144 (mw_channel w); pitch; vel] w.
Definition note_off (pitch : Z) (w : MidiWriter) : MidiWriter :=
  channel_event [Z.lor 128 (mw_channel w); pitch; 0] w.
Definition program_change (prog : Z) (w : MidiWriter) : MidiWriter :=
  channel_event [Z.lor 192 (mw_channel w); Z.land prog 127] w.
Definition program_change_channel (prog ch : Z) (w : MidiWriter) : MidiWriter :=
  channel_event [Z.lor 192 (Z.land ch 15); Z.land prog 127] w.
Definition note_on_channel (pitch vel ch : Z) (w : MidiWriter) : MidiWriter :=
  channel_event [Z.lor 144 (Z.land ch 15); pitch; vel] w.
Definition note_off_channel (pitch ch : Z) (w : MidiWriter) : MidiWriter :=
  channel_event [Z.lor 128 (Z.land ch 15); pitch; 0] w.

Definition advance (ticks : Z) (w : MidiWriter) : option MidiWriter :=
  t ← checked_u32 (mw_current_tick w + ticks); Some (w <| mw_current_tick := t |>).

Definition note_channel (pitch vel duration ch : Z) (w : MidiWriter) : option MidiWriter :=
  w ← advance duration (note_on_channel pitch vel ch w); Some (note_off_channel pitch ch w).
Definition note (pitch vel duration : Z) (w : MidiWriter) : option MidiWriter :=
  w ← advance duration (note_on pitch vel w); Some (note_off pitch w).

(** ** Files *)

(** The loop of [encode_track]. *)
Fixpoint encode_events (last_tick : Z) (events : list MidiEvent) : list Z :=
  match events with
  | [] => []
  | ev :: events' =>
      encode_variable_length (sat_sub (ev_tick ev) last_tick) ++ ev_data ev ++ encode_events (ev_tick ev) events'
  end.
Definition encode_track (events : list MidiEvent) : list Z := encode_events 0 events ++ [0; 255; 47; 0].

Definition be32 (z : Z) : list Z :=
  [Z.land (Z.shiftr z 24) 255; Z.land (Z.shiftr z 16) 255; Z.land (Z.shiftr z 8) 255; Z.land z 255].
Definition be16 (z : Z) : list Z := [Z.land (Z.shiftr z 8) 255; Z.land z 255].

Definition MThd : list Z := [77; 84; 104; 100].
Definition MTrk : list Z := [77; 84; 114; 107].

Definition track_chunk (data : list Z) : list Z := MTrk ++ be32 (Z.of_nat (length data)) ++ data.

(** [sort_by_key(|e| e.tick)], which is stable. *)
Fixpoint insert_event (ev : MidiEvent) (l : list MidiEvent) : list MidiEvent :=
  match l with
  | [] => [ev]
  | x :: l' => if ev_tick ev <=? ev_tick x then ev :: l else x :: insert_event ev l'
  end.
Definition sort_events (l : list MidiEvent) : list MidiEvent := foldr insert_event [] l.

Definition finish (w : MidiWriter) : list Z :=
  MThd ++ be32 6 ++ be16 0 ++ be16 1 ++ be16 (mw_ticks_per_beat w)
  ++ track_chunk (encode_track (sort_events (mw_events w))).
