(* ===== verification/MidiPlay.v ===== *)
(** * Playing the elements of a voice ([kaijutsu-abc/src/midi.rs])

    The loop over the elements of a voice, which the single-track and the multi-track
    generator have in two copies that differ in the channel: [None] is the writer's own. *)

From S2P Require Import Prelude Text Abc Midi.

(** The order in which [HashMap::drain] yields the held notes. *)
Class DrainOrder := drain_order : gmap Z Z → list Z.
Class DrainOrderLaws `{!DrainOrder} := drain_order_perm : ∀ m : gmap Z Z, drain_order m ≡ₚ (map_to_list m).*1.

(** What does not change within a voice. *)
Record VoiceEnv := {
  ve_channel : option Z;
  ve_grace_channel : Z;
  ve_velocity : Z;
  ve_pitch_offset : Z;
  ve_ticks_per_beat : Z;
}.

Record Player := {
  pl_writer : MidiWriter;
  pl_bar_accidentals : Accidentals;
  pl_held_notes : gmap Z Z;
  pl_tie_carry : gmap (NoteName * Z) Accidental;
  pl_voice_key_acc : Accidentals;
  pl_unit_ticks : Z;
  pl_cur_meter : option Meter;
  pl_pending_grace : list Note;
}.
#[export] Instance Player_settable : Settable Player := λ s, {|
  pl_writer := pl_writer s; pl_bar_accidentals := pl_bar_accidentals s; pl_held_notes := pl_held_notes s;
  pl_tie_carry := pl_tie_carry s; pl_voice_key_acc := pl_voice_key_acc s; pl_unit_ticks := pl_unit_ticks s;
  pl_cur_meter := pl_cur_meter s; pl_pending_grace := pl_pending_grace s;
|}.

Section play.
Variable env : VoiceEnv.

Definition strike (pitch : Z) (w : MidiWriter) : MidiWriter :=
  match ve_channel env with
  | None => note_on pitch (ve_velocity env) w
  | Some ch => note_on_channel pitch (ve_velocity env) ch w
  end.
Definition unstrike (pitch : Z) (w : MidiWriter) : MidiWriter :=
  match ve_channel env with
  | None => note_off pitch w
  | Some ch => note_off_channel pitch ch w
  end.
Definition sound (pitch ticks : Z) (w : MidiWriter) : option MidiWriter :=
  match ve_channel env with
  | None => note pitch (ve_velocity env) ticks w
  | Some ch => note_channel pitch (ve_velocity env) ticks ch w
  end.

(** *** Grace notes *)

Definition grace_ticks (count main_ticks unit_ticks : Z) : Z :=
  let total := Z.min (Z.min (Z.max (unit_ticks / 8) 1 * count) u32_max) (main_ticks / 2) in
  Z.max (total / count) 1.

Fixpoint play_graces (graces : list Note) (each : Z) (bar : Accidentals) (w : MidiWriter) : option MidiWriter :=
  match graces with
  | [] => Some w
  | g :: graces' =>
      base ← note_to_midi_pitch g bar;
      w ← note_channel (apply_pitch_offset base (ve_pitch_offset env)) (ve_velocity env) each (ve_grace_channel env) w;
      play_graces graces' each bar w
  end.

Definition play_grace_run (graces : list Note) (main_ticks unit_ticks : Z) (bar : Accidentals)
    (w : MidiWriter) : option (MidiWriter * Z) :=
  let count := Z.of_nat (length graces) in
  if count =? 0 then Some (w, 0)
  else
    let each := grace_ticks count main_ticks unit_ticks in
    w ← play_graces graces each bar w;
    stolen ← checked_u32 (each * count);
    Some (w, stolen).

(** The buffered grace notes before a note or chord, and the ticks left for it. *)
Definition take_graces (ticks : Z) (st : Player) : option (Player * Z) :=
  if bool_decide (pl_pending_grace st = []) then Some (st, ticks)
  else
    '(w, stolen) ← play_grace_run (pl_pending_grace st) ticks (pl_unit_ticks st) (pl_bar_accidentals st) (pl_writer st);
    Some (st <| pl_writer := w |> <| pl_pending_grace := [] |>, sat_sub ticks stolen).

(** *** Notes *)

Definition own_accidental (n : Note) (bar : Accidentals) : Accidentals :=
  match note_accidental n with Some a => <[note_pitch n := a]> bar | None => bar end.

(** A note at its pitch: it goes on, ends or starts what is held, or sounds by itself. *)
Definition hold_or_sound (tie : bool) (pitch ticks : Z) (st : Player) : option Player :=
  match pl_held_notes st !! pitch with
  | Some held_ticks =>
      let st := st <| pl_held_notes := delete pitch (pl_held_notes st) |> in
      w ← advance ticks (pl_writer st);
      if tie then
        total ← checked_u32 (held_ticks + ticks);
        Some (st <| pl_writer := w |> <| pl_held_notes := <[pitch := total]> (pl_held_notes st) |>)
      else Some (st <| pl_writer := unstrike pitch w |>)
  | None =>
      if tie then
        w ← advance ticks (strike pitch (pl_writer st));
        Some (st <| pl_writer := w |> <| pl_held_notes := <[pitch := ticks]> (pl_held_notes st) |>)
      else
        w ← sound pitch ticks (pl_writer st);
        Some (st <| pl_writer := w |>)
  end.

Definition play_note (n : Note) (st : Player) : option Player :=
  let key := (note_pitch n, note_octave n) in
  let carried := pl_tie_carry st !! key in
  let st := st <| pl_tie_carry := delete key (pl_tie_carry st) |> in
  let eff_acc := effective_accidental (note_pitch n) (note_accidental n) (pl_bar_accidentals st) carried in
  base ← midi_pitch_with_accidental (note_pitch n) (note_octave n) eff_acc;
  let pitch := apply_pitch_offset base (ve_pitch_offset env) in
  ticks ← to_ticks (note_duration n) (pl_unit_ticks st);
  '(st, ticks) ← take_graces ticks st;
  st ← hold_or_sound (note_tie n) pitch ticks st;
  let st := match note_tie n, eff_acc with
            | true, Some acc => st <| pl_tie_carry := <[key := acc]> (pl_tie_carry st) |>
            | _, _ => st
            end in
  Some (st <| pl_bar_accidentals := own_accidental n (pl_bar_accidentals st) |>).

(** *** Chords *)

Fixpoint strike_all (notes : list Note) (bar : Accidentals) (w : MidiWriter) : option (Accidentals * MidiWriter) :=
  match notes with
  | [] => Some (bar, w)
  | n :: notes' =>
      base ← note_to_midi_pitch n bar;
      strike_all notes' (own_accidental n bar) (strike (apply_pitch_offset base (ve_pitch_offset env)) w)
  end.

Fixpoint unstrike_all (notes : list Note) (bar : Accidentals) (w : MidiWriter) : option MidiWriter :=
  match notes with
  | [] => Some w
  | n :: notes' =>
      base ← note_to_midi_pitch n bar;
      unstrike_all notes' bar (unstrike (apply_pitch_offset base (ve_pitch_offset env)) w)
  end.

Definition sound_chord (notes : list Note) (ticks : Z) (st : Player) : option Player :=
  '(bar, w) ← strike_all notes (pl_bar_accidentals st) (pl_writer st);
  w ← advance ticks w;
  w ← unstrike_all notes bar w;
  Some (st <| pl_writer := w |> <| pl_bar_accidentals := bar |>).

Definition play_chord (c : Chord) (st : Player) : option Player :=
  ticks ← to_ticks (chord_duration c) (pl_unit_ticks st);
  '(st, ticks) ← take_graces ticks st;
  sound_chord (chord_notes c) ticks st.

(** *** Rests, fields, tuplets *)

Definition pause (ticks : Z) (st : Player) : option Player :=
  w ← advance ticks (pl_writer st); Some (st <| pl_writer := w |>).

Definition play_rest (r : Rest) (st : Player) : option Player :=
  match rest_multi_measure r with
  | Some bars => ticks ← checked_u32 (meter_bar_ticks (pl_cur_meter st) (ve_ticks_per_beat env) * bars); pause ticks st
  | None => ticks ← to_ticks (rest_duration r) (pl_unit_ticks st); pause ticks st
  end.

Definition inline_field (f : InfoField) (st : Player) : Player :=
  if bool_decide (field_type f = "K") then
    let acc := inline_key_accidentals (field_value f) in
    st <| pl_voice_key_acc := acc |> <| pl_bar_accidentals := acc |>
  else if bool_decide (field_type f = "L") then
    match inline_unit_length (field_value f) with
    | Some ul => st <| pl_unit_ticks := compute_unit_ticks ul (ve_ticks_per_beat env) |>
    | None => st
    end
  else if bool_decide (field_type f = "M") then st <| pl_cur_meter := Some (inline_meter (field_value f)) |>
  else st.

(** A duration within a tuplet of [p] in the time of [q]. *)
Definition tuplet_ticks (d : Duration) (q p unit_ticks : Z) : option Z :=
  t ← to_ticks d unit_ticks;
  t ← checked_u32 (t * q);
  Some (t / p).

Definition play_in_tuplet (q p : Z) (e : Element) (st : Player) : option Player :=
  match e with
  | ENote n =>
      base ← note_to_midi_pitch n (pl_bar_accidentals st);
      ticks ← tuplet_ticks (note_duration n) q p (pl_unit_ticks st);
      w ← sound (apply_pitch_offset base (ve_pitch_offset env)) ticks (pl_writer st);
      Some (st <| pl_writer := w |> <| pl_bar_accidentals := own_accidental n (pl_bar_accidentals st) |>)
  | ERest r => ticks ← tuplet_ticks (rest_duration r) q p (pl_unit_ticks st); pause ticks st
  | EChord c =>
      ticks ← tuplet_ticks (chord_duration c) q p (pl_unit_ticks st);
      sound_chord (chord_notes c) ticks st
  | _ => Some st
  end.

(** [steps f l]: [f] on each in turn. *)
Fixpoint steps {A} (f : A → Player → option Player) (l : list A) (st : Player) : option Player :=
  match l with
  | [] => Some st
  | x :: l' => st ← f x st; steps f l' st
  end.

(** One round of the loop over the elements. *)
Definition play_element (e : Element) (st : Player) : option Player :=
  match e with
  | ENote n => play_note n st
  | EChord c => play_chord c st
  | ERest r => play_rest r st
  | EBar _ => Some (st <| pl_bar_accidentals := pl_voice_key_acc st |>)
  | EInlineField f => Some (inline_field f st)
  | EGraceNotes _ notes => Some (st <| pl_pending_grace := notes |>)
  | ETuplet p q elements => steps (play_in_tuplet q (Z.max p 1)) elements st
  | _ => Some st
  end.

(** The flush of what is held at the end. *)
Definition release_held `{!DrainOrder} (st : Player) : MidiWriter :=
  foldl (λ w pitch, unstrike pitch w) (pl_writer st) (drain_order (pl_held_notes st)).
End play.

(** ** Tunes *)

Section tunes.
Context `{!DrainOrder}.

Definition voice_pitch_offset (voice : Voice) (h : Header) : Z :=
  get_voice_pitch_offset voice (voice_defs h) + key_pitch_offset (header_key h) + default 0 (midi_transpose h).

(** A voice, from its first element to the flush. *)
Definition play_voice (env : VoiceEnv) (h : Header) (voice : Voice) (w : MidiWriter) : option MidiWriter :=
  let key_accidentals := compute_key_accidentals (header_key h) in
  let unit_ticks := compute_unit_ticks (default unit_length_default (header_unit_length h)) (ve_ticks_per_beat env) in
  st ← steps (play_element env) (expand_repeats (flatten_slurs (voice_elements voice))) {|
    pl_writer := w; pl_bar_accidentals := key_accidentals; pl_held_notes := ∅; pl_tie_carry := ∅;
    pl_voice_key_acc := key_accidentals; pl_unit_ticks := unit_ticks; pl_cur_meter := header_meter h;
    pl_pending_grace := [] |};
  Some (release_held env st).

Definition header_tempo_event (h : Header) (w : MidiWriter) : MidiWriter :=
  match header_tempo h with
  | Some t => set_tempo (tempo_beat_unit t) (tempo_bpm t) w
  | None => set_tempo (1, 4) 120 w
  end.

Definition tune_program (h : Header) (params : MidiParams) : option Z :=
  match midi_program h with Some p => Some p | None => program params end.

Definition single_env (params : MidiParams) (h : Header) (voice : Voice) : VoiceEnv := {|
  ve_channel := None; ve_grace_channel := channel params; ve_velocity := velocity params;
  ve_pitch_offset := voice_pitch_offset voice h; ve_ticks_per_beat := ticks_per_beat params;
|}.

Fixpoint play_voices (params : MidiParams) (h : Header) (voices : list Voice) (w : MidiWriter) : option MidiWriter :=
  match voices with
  | [] => Some w
  | v :: voices' => w ← play_voice (single_env params h v) h v w; play_voices params h voices' w
  end.

Definition build_single_track_writer (tune : Tune) (params : MidiParams) : option MidiWriter :=
  let h := tune_header tune in
  let w := header_tempo_event h (writer_new (ticks_per_beat params) (channel params)) in
  let w := match tune_program h params with Some p => program_change p w | None => w end in
  play_voices params h (tune_voices tune) w.

Definition events (tune : Tune) (params : MidiParams) : option (list MidiEvent) :=
  w ← build_single_track_writer tune params; Some (sort_events (mw_events w)).

(** [as u8 % 16] *)
Definition voice_channel (voice_idx : Z) : Z :=
  (if 9 <=? voice_idx then voice_idx + 1 else voice_idx) mod 256 mod 16.

(** The track of one voice. *)
Definition voice_writer (params : MidiParams) (h : Header) (voice_idx : Z) (voice : Voice) : option MidiWriter :=
  let ch := voice_channel voice_idx in
  let w := writer_new (ticks_per_beat params) ch in
  let w := match tune_program h params with Some p => program_change_channel p ch w | None => w end in
  play_voice {| ve_channel := Some ch; ve_grace_channel := ch; ve_velocity := velocity params;
                ve_pitch_offset := voice_pitch_offset voice h; ve_ticks_per_beat := ticks_per_beat params |}
    h voice w.

Definition is_silent (v : Voice) : bool := match voice_elements v with [] => true | _ => false end.

Fixpoint voice_writers (params : MidiParams) (h : Header) (idx : Z) (voices : list Voice) : option (list MidiWriter) :=
  match voices with
  | [] => Some []
  | v :: voices' =>
      if is_silent v then voice_writers params h (idx + 1) voices'
      else
        w ← voice_writer params h idx v;
        ws ← voice_writers params h (idx + 1) voices';
        Some (w :: ws)
  end.

Definition generate_multitrack (tune : Tune) (params : MidiParams) : option (list Z) :=
  let h := tune_header tune in
  let tempo_writer := header_tempo_event h (writer_new (ticks_per_beat params) 0) in
  ws ← voice_writers params h 0 (tune_voices tune);
  let tracks := (λ w, encode_track (mw_events w)) <$> tempo_writer :: ws in
  Some (MThd ++ be32 6 ++ be16 1 ++ be16 (Z.of_nat (length tracks)) ++ be16 (ticks_per_beat params)
        ++ concat (track_chunk <$> tracks)).

Definition generate (tune : Tune) (params : MidiParams) : option (list Z) :=
  let voices_with_content := filter (λ v, is_silent v = false) (tune_voices tune) in
  if (1 <? length voices_with_content)%nat then generate_multitrack tune params
  else finish <$> build_single_track_writer tune params.
End tunes.
