(* ===== verification/MidiSteps.v ===== *)
(** * What playing does to a writer

    Every operation of the player writes notes of one channel, between pauses: [wstep] is
    one of them, and what it preserves is preserved by a voice. *)

From S2P Require Import Prelude Text Abc Midi MidiPlay.

Section steps.
Context `{!DrainOrder}.
(** The channel and the velocity of a voice. *)
Variables c vel : Z.

Definition on_event (p : Z) : list Z := [Z.lor 144 c; p; vel].
Definition off_event (p : Z) : list Z := [Z.lor 128 c; p; 0].

Inductive wstep (w : MidiWriter) : MidiWriter → Prop :=
  | wstep_on p : 0 ≤ p ≤ 127 → wstep w (channel_event (on_event p) w)
  | wstep_off p : 0 ≤ p ≤ 127 → wstep w (channel_event (off_event p) w)
  | wstep_advance t w' : 0 ≤ t → advance t w = Some w' → wstep w w'.

Definition writes : relation MidiWriter := rtc wstep.

Lemma advance_spec t w w' : advance t w = Some w' →
  w' = w <| mw_current_tick := mw_current_tick w + t |> ∧ 0 ≤ mw_current_tick w + t ≤ u32_max.
Proof.
  unfold advance, checked_u32. destruct (Z.leb_spec 0 (mw_current_tick w + t)); [|done].
  destruct (Z.leb_spec (mw_current_tick w + t) u32_max); [|done]. by intros [= <-].
Qed.

Lemma writes_channel w w' : writes w w' → mw_channel w' = mw_channel w.
Proof.
  induction 1 as [|w w1 w2 Hs _ IH]; [done|]. rewrite IH. destruct Hs as [| |t w1 _ Ha]; [done..|].
  by apply advance_spec in Ha as [-> _].
Qed.

Lemma writes_division w w' : writes w w' → mw_ticks_per_beat w' = mw_ticks_per_beat w.
Proof.
  induction 1 as [|w w1 w2 Hs _ IH]; [done|]. rewrite IH. destruct Hs as [| |t w1 _ Ha]; [done..|].
  by apply advance_spec in Ha as [-> _].
Qed.

(** The channel of an environment is [c]. *)
Definition plays_on (env : VoiceEnv) (w : MidiWriter) : Prop :=
  ve_velocity env = vel ∧ Z.land (ve_grace_channel env) 15 = c ∧
  match ve_channel env with None => mw_channel w = c | Some ch => Z.land ch 15 = c end.

Lemma plays_on_writes env w w' : writes w w' → plays_on env w → plays_on env w'.
Proof. intros Hw (?&?&?). split_and!; [done..|]. destruct (ve_channel env); [done|]. by rewrite (writes_channel w w'). Qed.

Lemma clamp7_range z : 0 ≤ clamp7 z ≤ 127.
Proof. unfold clamp7. lia. Qed.

Section env.
Variable env : VoiceEnv.

Lemma strike_event p w : plays_on env w → strike env p w = channel_event (on_event p) w.
Proof. intros (Hv&_&Hc). unfold strike, on_event. rewrite Hv. destruct (ve_channel env); [unfold note_on_channel|unfold note_on]; by rewrite Hc. Qed.
Lemma unstrike_event p w : plays_on env w → unstrike env p w = channel_event (off_event p) w.
Proof. intros (Hv&_&Hc). unfold unstrike, off_event. destruct (ve_channel env); [unfold note_off_channel|unfold note_off]; by rewrite Hc. Qed.

(** A note: on, a pause, off. *)
Lemma sound_spec p t w w' : plays_on env w → sound env p t w = Some w' →
  ∃ w1, advance t (channel_event (on_event p) w) = Some w1 ∧ w' = channel_event (off_event p) w1.
Proof.
  intros Hp. unfold sound. pose proof (strike_event p w Hp) as Hs. unfold strike in Hs.
  destruct (ve_channel env) as [ch|] eqn:Ec; [unfold note_channel|unfold note]; rewrite Hs;
    destruct (advance t _) as [w1|] eqn:Ea; try done; intros [= <-]; exists w1; (split; [done|]);
    assert (plays_on env w1) as Hp1 by (apply advance_spec in Ea as [-> _]; done);
    pose proof (unstrike_event p w1 Hp1) as Hu; unfold unstrike in Hu; by rewrite Ec in Hu.
Qed.

Lemma grace_note_spec p t w w' : plays_on env w → note_channel p (ve_velocity env) t (ve_grace_channel env) w = Some w' →
  ∃ w1, advance t (channel_event (on_event p) w) = Some w1 ∧ w' = channel_event (off_event p) w1.
Proof.
  intros (Hv&Hg&_). unfold note_channel, note_on_channel, note_off_channel. rewrite Hg, Hv. fold (on_event p).
  destruct (advance t _) as [w1|]; [|done]. intros [= <-]. by exists w1.
Qed.

Lemma note_writes p t w w1 : 0 ≤ p ≤ 127 → 0 ≤ t → advance t (channel_event (on_event p) w) = Some w1 →
  writes w (channel_event (off_event p) w1).
Proof.
  intros Hp Ht Ha. eapply rtc_l; [by apply wstep_on|]. eapply rtc_l; [by eapply wstep_advance|].
  eapply rtc_l; [by apply wstep_off|constructor].
Qed.

(** ** Ticks are not negative *)

Lemma checked_u32_Some z r : checked_u32 z = Some r ↔ r = z ∧ 0 ≤ z ≤ u32_max.
Proof.
  unfold checked_u32. destruct (Z.leb_spec 0 z), (Z.leb_spec z u32_max); cbn; split; try done; try lia.
  - intros [= <-]. lia.
  - intros [-> _]. done.
Qed.

Lemma to_ticks_Some d u t : to_ticks d u = Some t →
  t = u * dur_numerator d / Z.max (dur_denominator d) 1 ∧ 0 ≤ u * dur_numerator d ≤ u32_max ∧ 0 ≤ t.
Proof.
  unfold to_ticks. destruct (checked_u32 _) as [r|] eqn:E; [|done]. apply checked_u32_Some in E as [-> ?].
  intros [= <-]. split_and!; [done..|lia|lia|]. apply Z.div_pos; lia.
Qed.

Lemma tuplet_ticks_pos d q p u t : 1 ≤ p → tuplet_ticks d q p u = Some t → 0 ≤ t.
Proof.
  intros Hp. unfold tuplet_ticks. destruct (to_ticks d u); [|done]. cbn. destruct (checked_u32 _) as [r|] eqn:E; [|done].
  apply checked_u32_Some in E as [-> ?]. intros [= <-]. apply Z.div_pos; lia.
Qed.

(** ** The player *)

Lemma graces_write graces each bar : 0 ≤ each → ∀ w w', plays_on env w →
  play_graces env graces each bar w = Some w' → writes w w'.
Proof.
  intros He. induction graces as [|g graces IH]; intros w w' Hp; cbn [play_graces]; [intros [= <-]; constructor|].
  destruct (note_to_midi_pitch g bar) as [base|]; [|done]. cbn.
  destruct (note_channel _ _ _ _ _) as [w1|] eqn:En; [|done]. cbn. intros Hg.
  apply grace_note_spec in En as (w2&Ha&->); [|done].
  assert (writes w (channel_event (off_event (apply_pitch_offset base (ve_pitch_offset env))) w2)) as Hw
    by (eapply note_writes; [apply clamp7_range|done|done]).
  etrans; [exact Hw|]. eapply IH; [|done]. by eapply plays_on_writes.
Qed.

Lemma grace_ticks_pos count main unit : 1 ≤ grace_ticks count main unit.
Proof. unfold grace_ticks. lia. Qed.

Lemma take_graces_spec ticks st st' left : plays_on env (pl_writer st) → 0 ≤ ticks →
  take_graces env ticks st = Some (st', left) →
  writes (pl_writer st) (pl_writer st') ∧ 0 ≤ left ∧ pl_held_notes st' = pl_held_notes st ∧
  pl_bar_accidentals st' = pl_bar_accidentals st ∧ pl_unit_ticks st' = pl_unit_ticks st.
Proof.
  intros Hp Ht. unfold take_graces. case_bool_decide; [intros [= <- <-]; by split_and!|].
  destruct (play_grace_run _ _ _ _ _ _) as [[w stolen]|] eqn:Eg; [|done]. cbn. intros [= <- <-].
  cbn. split_and!; [|unfold sat_sub; lia|done..]. unfold play_grace_run in Eg.
  destruct (_ =? 0); [by injection Eg as <- <-|]. cbn zeta in Eg.
  destruct (play_graces _ _ _ _ _) as [w1|] eqn:Ep; [|done]. cbn in Eg. destruct (checked_u32 _); [|done].
  injection Eg as <- _. eapply graces_write; [|done|done]. pose proof (grace_ticks_pos (Z.of_nat (length (pl_pending_grace st))) ticks (pl_unit_ticks st)). lia.
Qed.

Lemma strike_all_writes notes : ∀ bar w bar' w', plays_on env w →
  strike_all env notes bar w = Some (bar', w') → writes w w'.
Proof.
  induction notes as [|n notes IH]; intros bar w bar' w' Hp; cbn [strike_all]; [intros [= _ <-]; constructor|].
  destruct (note_to_midi_pitch n bar) as [base|]; [|done]. cbn. intros Hs. rewrite strike_event in Hs by done.
  eapply rtc_l; [apply wstep_on, clamp7_range|]. eapply IH; [|exact Hs]. done.
Qed.

Lemma unstrike_all_writes notes bar : ∀ w w', plays_on env w → unstrike_all env notes bar w = Some w' → writes w w'.
Proof.
  induction notes as [|n notes IH]; intros w w' Hp; cbn [unstrike_all]; [intros [= <-]; constructor|].
  destruct (note_to_midi_pitch n bar) as [base|]; [|done]. cbn. intros Hs. rewrite unstrike_event in Hs by done.
  eapply rtc_l; [apply wstep_off, clamp7_range|]. by eapply IH.
Qed.

Lemma advance_writes t w w' : 0 ≤ t → advance t w = Some w' → writes w w'.
Proof. intros Ht Ha. eapply rtc_l; [by eapply wstep_advance|constructor]. Qed.

(** What an element does: it writes, and what is held stays within range. *)
Definition held_ok (st : Player) : Prop := ∀ p t, pl_held_notes st !! p = Some t → 0 ≤ p ≤ 127.
Definition moves (st st' : Player) : Prop :=
  writes (pl_writer st) (pl_writer st') ∧ (held_ok st → held_ok st').

Lemma moves_trans st1 st2 st3 : moves st1 st2 → moves st2 st3 → moves st1 st3.
Proof. intros [??] [??]. split; [by etrans|auto]. Qed.
Lemma moves_same st st' : writes (pl_writer st) (pl_writer st') → pl_held_notes st' = pl_held_notes st → moves st st'.
Proof. intros Hw Hh. split; [done|]. unfold held_ok. by rewrite Hh. Qed.

Lemma sound_chord_moves notes t st st' : plays_on env (pl_writer st) → 0 ≤ t →
  sound_chord env notes t st = Some st' → moves st st'.
Proof.
  intros Hp Ht. unfold sound_chord. destruct (strike_all _ _ _ _) as [[bar w]|] eqn:Es; [|done]. cbn.
  destruct (advance t w) as [w1|] eqn:Ea; [|done]. cbn. destruct (unstrike_all _ _ _ _) as [w2|] eqn:Eu; [|done].
  intros [= <-]. apply moves_same; [cbn|done]. apply strike_all_writes in Es; [|done]. apply advance_writes in Ea; [|done].
  assert (writes (pl_writer st) w1) as Hw by (by etrans). etrans; [exact Hw|].
  eapply unstrike_all_writes; [|done]. by eapply plays_on_writes.
Qed.

Lemma hold_or_sound_moves tie pitch t st st' : plays_on env (pl_writer st) → 0 ≤ t → 0 ≤ pitch ≤ 127 →
  hold_or_sound env tie pitch t st = Some st' → moves st st'.
Proof.
  intros Hp Ht Hpi. unfold hold_or_sound.
  assert (∀ m : gmap Z Z, (∀ p t, m !! p = Some t → 0 ≤ p ≤ 127) → ∀ t p t', <[pitch:=t]> m !! p = Some t' → 0 ≤ p ≤ 127) as Hins.
  { intros m Hm u p t' [[<- _]|[_ ?]]%lookup_insert_Some; [done|eauto]. }
  destruct (pl_held_notes st !! pitch) as [held|]; cbn.
  - destruct (advance t _) as [w|] eqn:Ea; [|done]. cbn. apply advance_writes in Ea; [|done].
    assert (held_ok st → ∀ p t', delete pitch (pl_held_notes st) !! p = Some t' → 0 ≤ p ≤ 127) as Hdel.
    { intros Hok p t' [_ ?]%lookup_delete_Some. eauto. }
    destruct tie; [destruct (checked_u32 _) as [tot|]; [|done]; intros [= <-]; split; [done|]; intros Hok q t'; cbn; apply Hins; by apply Hdel|].
    intros [= <-]. split; [cbn|exact Hdel]. rewrite unstrike_event by (by eapply plays_on_writes). etrans; [exact Ea|].
    eapply rtc_l; [by apply wstep_off|constructor].
  - destruct tie.
    + destruct (advance t _) as [w|] eqn:Ea; [|done]. intros [= <-]. rewrite strike_event in Ea by done.
      split; [|intros Hok q t'; cbn; by apply Hins]. eapply rtc_l; [by apply wstep_on|]. by eapply advance_writes.
    + destruct (sound _ _ _ _) as [w|] eqn:Es; [|done]. intros [= <-]. apply sound_spec in Es as (w1&Ha&->); [|done].
      apply moves_same; [|done]. by eapply note_writes.
Qed.

Lemma play_note_moves n st st' : plays_on env (pl_writer st) → play_note env n st = Some st' → moves st st'.
Proof.
  intros Hp. unfold play_note. cbn zeta. destruct (midi_pitch_with_accidental _ _ _) as [base|]; [|done]. cbn.
  destruct (to_ticks _ _) as [t|] eqn:Et; [|done]. cbn. apply to_ticks_Some in Et as (_&_&Ht).
  destruct (take_graces _ _ _) as [[st1 left]|] eqn:Eg; [|done]. cbn.
  apply take_graces_spec in Eg as (Hw&Hl&Hh&_); [|done..]. cbn in Hw, Hh.
  destruct (hold_or_sound _ _ _ _ _) as [st2|] eqn:Eh; [|done]. cbn. intros [= <-].
  apply hold_or_sound_moves in Eh; [|by eapply plays_on_writes|done|apply clamp7_range].
  assert (moves st st2) as Hm by (eapply moves_trans; [by apply moves_same|done]).
  by repeat case_match.
Qed.

Lemma play_chord_moves ch st st' : plays_on env (pl_writer st) → play_chord env ch st = Some st' → moves st st'.
Proof.
  intros Hp. unfold play_chord. destruct (to_ticks _ _) as [t|] eqn:Et; [|done]. cbn. apply to_ticks_Some in Et as (_&_&Ht).
  destruct (take_graces _ _ _) as [[st1 left]|] eqn:Eg; [|done]. cbn. apply take_graces_spec in Eg as (Hw&Hl&Hh&_); [|done..].
  intros Hs. eapply moves_trans; [by apply moves_same|]. eapply sound_chord_moves; [|exact Hl|exact Hs].
  by eapply plays_on_writes.
Qed.

Lemma pause_moves t st st' : 0 ≤ t → pause t st = Some st' → moves st st'.
Proof.
  intros Ht. unfold pause. destruct (advance _ _) as [w|] eqn:Ea; [|done]. intros [= <-].
  apply moves_same; [|done]. by eapply advance_writes.
Qed.

Lemma play_rest_moves r st st' : play_rest env r st = Some st' → moves st st'.
Proof.
  unfold play_rest. destruct (rest_multi_measure r).
  - destruct (checked_u32 _) as [t|] eqn:E; [|done]. apply checked_u32_Some in E as [-> ?]. cbn. apply pause_moves. lia.
  - destruct (to_ticks _ _) as [t|] eqn:E; [|done]. apply to_ticks_Some in E as (_&_&?). cbn. by apply pause_moves.
Qed.

Lemma in_tuplet_moves q p e st st' : 1 ≤ p → plays_on env (pl_writer st) → play_in_tuplet env q p e st = Some st' →
  moves st st'.
Proof.
  intros Hq Hp. destruct e; cbn [play_in_tuplet]; try by intros [= <-].
  - destruct (note_to_midi_pitch _ _) as [base|]; [|done]. cbn. destruct (tuplet_ticks _ _ _ _) as [t|] eqn:Et; [|done]. cbn.
    destruct (sound _ _ _ _) as [w|] eqn:Es; [|done]. intros [= <-]. apply sound_spec in Es as (w1&Ha&->); [|done].
    apply moves_same; [|done]. eapply note_writes; [apply clamp7_range|by eapply tuplet_ticks_pos|exact Ha].
  - destruct (tuplet_ticks _ _ _ _) as [t|] eqn:Et; [|done]. cbn. eapply sound_chord_moves; [done|by eapply tuplet_ticks_pos].
  - destruct (tuplet_ticks _ _ _ _) as [t|] eqn:Et; [|done]. cbn. apply pause_moves. by eapply tuplet_ticks_pos.
Qed.

Lemma steps_moves {A} (f : A → Player → option Player) l :
  (∀ x st st', plays_on env (pl_writer st) → f x st = Some st' → moves st st') →
  ∀ st st', plays_on env (pl_writer st) → steps f l st = Some st' → moves st st'.
Proof.
  intros Hf. induction l as [|x l IH]; intros st st' Hp; cbn [steps]; [by intros [= <-]|].
  destruct (f x st) as [st1|] eqn:E; [|done]. cbn. intros Hs. pose proof (Hf _ _ _ Hp E) as Hm.
  eapply moves_trans; [exact Hm|]. eapply IH; [|exact Hs]. by eapply plays_on_writes, Hp; apply Hm.
Qed.

Lemma play_element_moves e st st' : plays_on env (pl_writer st) → play_element env e st = Some st' → moves st st'.
Proof.
  intros Hp. destruct e; cbn [play_element]; try by intros [= <-].
  - by apply play_note_moves.
  - by apply play_chord_moves.
  - apply play_rest_moves.
  - apply steps_moves; [|done]. intros e st1 st2. apply in_tuplet_moves. lia.
  - intros [= <-]. apply moves_same; unfold inline_field; repeat case_bool_decide; try done; by destruct (inline_unit_length _).
Qed.

Lemma release_writes ps : ∀ w, plays_on env w → Forall (λ p, 0 ≤ p ≤ 127) ps →
  writes w (foldl (λ w pitch, unstrike env pitch w) w ps).
Proof.
  induction ps as [|p ps IH]; intros w Hp Hps; cbn [foldl]; [constructor|]. apply Forall_cons in Hps as [? Hps].
  rewrite unstrike_event by done. eapply rtc_l; [by apply wstep_off|]. by apply IH.
Qed.
End env.

(** A voice writes notes of its channel and nothing else. *)
Lemma voice_writes `{!DrainOrderLaws} env h v w w' : plays_on env w → play_voice env h v w = Some w' → writes w w'.
Proof.
  intros Hp. unfold play_voice. destruct (steps _ _ _) as [st|] eqn:Es; [|done]. cbn. intros [= <-].
  apply (steps_moves env) in Es as [Hw Hh]; [|by apply play_element_moves|done]. cbn in Hw.
  unfold release_held. etrans; [exact Hw|]. apply release_writes; [by eapply plays_on_writes|].
  rewrite drain_order_perm. apply Forall_forall. intros p ([q t]&->&Hq)%list_elem_of_fmap.
  apply elem_of_map_to_list in Hq. by eapply Hh; [intros ?? E; cbn in E; by rewrite lookup_empty in E|].
Qed.
End steps.
