(* ===== verification/MidiFile.v ===== *)
(** * A generated file reads back as its events

    A reader of Standard MIDI Files, after the format's specification, and the proof that
    it recovers from a generated file the events of its tracks. *)

From S2P Require Import Prelude Text Abc Midi MidiPlay MidiSteps.

(** ** The reader *)

(** A variable-length quantity: seven bits a byte, the last without its top bit. *)
Fixpoint read_vlq (acc : Z) (l : list Z) : option (Z * list Z) :=
  match l with
  | [] => None
  | b :: l' => if b <? 128 then Some (acc * 128 + b, l') else read_vlq (acc * 128 + (b - 128)) l'
  end.

(** The length of the message at the head: a meta event with the length it gives, or a
    channel message by its status, with data bytes below 128. *)
Definition message_length (l : list Z) : option nat :=
  match l with
  | st :: rest =>
      if st =? 255 then
        match rest with
        | _ :: rest' => '(n, body) ← read_vlq 0 rest'; Some (length l - length body + Z.to_nat n)%nat
        | [] => None
        end
      else if (128 <=? st) && (st <? 240) then
        let n := if (192 <=? st) && (st <? 224) then 1%nat else 2%nat in
        if forallb (λ b, (0 <=? b) && (b <? 128)) (take n rest) then Some (S n) else None
      else None
  | [] => None
  end.

Definition read_message (l : list Z) : option (list Z * list Z) :=
  n ← message_length l;
  if (n <=? length l)%nat then Some (take n l, drop n l) else None.

Definition end_of_track : list Z := [255; 47; 0].

Fixpoint read_events (fuel : nat) (last_tick : Z) (l : list Z) : option (list MidiEvent * list Z) :=
  match fuel with
  | O => None
  | S fuel' =>
      '(delta, l) ← read_vlq 0 l;
      '(data, l) ← read_message l;
      if bool_decide (data = end_of_track) then Some ([], l)
      else
        '(evs, l) ← read_events fuel' (last_tick + delta) l;
        Some ({| ev_tick := last_tick + delta; ev_data := data |} :: evs, l)
  end.

(** A whole track. *)
Definition read_track (l : list Z) : option (list MidiEvent) :=
  '(evs, rest) ← read_events (S (length l)) 0 l;
  if bool_decide (rest = []) then Some evs else None.

Definition read_be (l : list Z) : Z := foldl (λ acc b, acc * 256 + b) 0 l.

(** [n] bytes, if there are as many. *)
Definition split_bytes (n : nat) (l : list Z) : option (list Z * list Z) :=
  if (n <=? length l)%nat then Some (take n l, drop n l) else None.

Definition read_chunk (tag l : list Z) : option (list Z * list Z) :=
  '(t, l) ← split_bytes 4 l;
  if bool_decide (t = tag) then
    '(n, l) ← split_bytes 4 l;
    split_bytes (Z.to_nat (read_be n)) l
  else None.

Fixpoint read_tracks (n : nat) (l : list Z) : option (list (list MidiEvent)) :=
  match n with
  | O => if bool_decide (l = []) then Some [] else None
  | S n' =>
      '(data, l) ← read_chunk MTrk l;
      evs ← read_track data;
      tracks ← read_tracks n' l;
      Some (evs :: tracks)
  end.

Record Smf := { smf_format : Z; smf_division : Z; smf_tracks : list (list MidiEvent) }.

Definition read_smf (l : list Z) : option Smf :=
  '(h, l) ← read_chunk MThd l;
  match h with
  | [a; b; c; d; e; f] =>
      tracks ← read_tracks (Z.to_nat (read_be [c; d])) l;
      Some {| smf_format := read_be [a; b]; smf_division := read_be [e; f]; smf_tracks := tracks |}
  | _ => None
  end.

(** ** Numbers *)

Lemma land_127 v : Z.land v 127 = v mod 128.
Proof. exact (Z.land_ones v 7 ltac:(lia)). Qed.
Lemma land_255 v : Z.land v 255 = v mod 256.
Proof. exact (Z.land_ones v 8 ltac:(lia)). Qed.
Lemma land_15 v : Z.land v 15 = v mod 16.
Proof. exact (Z.land_ones v 4 ltac:(lia)). Qed.
Lemma shiftr_div v n : 0 ≤ n → Z.shiftr v n = v / 2 ^ n.
Proof. apply Z.shiftr_div_pow2. Qed.

(** What holds of every number below [n] that a computation can go through. *)
Lemma below_all (n : nat) (f : Z → bool) : forallb (λ k, f (Z.of_nat k)) (List.seq 0 n) = true →
  ∀ z, 0 ≤ z < Z.of_nat n → f z = true.
Proof.
  intros Hf z Hz. rewrite forallb_forall in Hf. specialize (Hf (Z.to_nat z)). rewrite Z2Nat.id in Hf by lia.
  apply Hf, in_seq. lia.
Qed.

Lemma lor_128 b : 0 ≤ b < 128 → Z.lor b 128 = b + 128.
Proof. intros Hb. apply Z.eqb_eq. by apply (below_all 128 (λ b, Z.lor b 128 =? b + 128)). Qed.
Lemma lor_status s c : s = 128 ∨ s = 144 ∨ s = 192 → 0 ≤ c < 16 → Z.lor s c = s + c.
Proof.
  intros Hs Hc. apply Z.eqb_eq.
  destruct Hs as [->|[->| ->]];
    [by apply (below_all 16 (λ c, Z.lor 128 c =? 128 + c))|by apply (below_all 16 (λ c, Z.lor 144 c =? 144 + c))|
     by apply (below_all 16 (λ c, Z.lor 192 c =? 192 + c))].
Qed.

(** ** Variable-length quantities *)

Lemma read_groups fuel : ∀ v acc l, 0 ≤ v < 128 ^ Z.of_nat fuel →
  read_vlq acc (reverse (vlq_groups fuel v) ++ l) = read_vlq (acc * 128 ^ Z.of_nat (length (vlq_groups fuel v)) + v) l.
Proof.
  induction fuel as [|fuel IH]; intros v acc l Hv; cbn [vlq_groups].
  { cbn. f_equal. change (128 ^ Z.of_nat 0) with 1 in Hv. lia. }
  destruct (Z.ltb_spec 0 v).
  - rewrite reverse_cons, <- app_assoc. rewrite land_127, lor_128 by (apply Z.mod_pos_bound; lia).
    rewrite shiftr_div by lia. change (2 ^ 7) with 128.
    rewrite IH.
    + cbn [app read_vlq]. rewrite (proj2 (Z.ltb_ge _ _)) by (pose proof (Z.mod_pos_bound v 128 ltac:(lia)); lia).
      f_equal. cbn [length]. rewrite Nat2Z.inj_succ, Z.pow_succ_r by lia.
      pose proof (Z.div_mod v 128 ltac:(lia)). nia.
    + rewrite Nat2Z.inj_succ, Z.pow_succ_r in Hv by lia. split; [apply Z.div_pos; lia|].
      apply Z.div_lt_upper_bound; lia.
  - cbn. f_equal. lia.
Qed.

Lemma vlq_back v l : 0 ≤ v ≤ u32_max → read_vlq 0 (encode_variable_length v ++ l) = Some (v, l).
Proof.
  intros Hv. unfold u32_max in Hv. unfold encode_variable_length. destruct (Z.eqb_spec v 0) as [->|]; [done|].
  rewrite reverse_cons, <- app_assoc, shiftr_div by lia. change (2 ^ 7) with 128.
  assert (0 ≤ v / 128 < 128 ^ Z.of_nat 4) as Hd.
  { change (128 ^ Z.of_nat 4) with 268435456. split; [apply Z.div_pos; lia|apply Z.div_lt_upper_bound; lia]. }
  rewrite read_groups by done. cbn [app read_vlq]. rewrite land_127.
  rewrite (proj2 (Z.ltb_lt _ _)) by (apply Z.mod_pos_bound; lia). repeat f_equal.
  pose proof (Z.div_mod v 128 ltac:(lia)). lia.
Qed.

(** At most four bytes for what the format allows. *)
Lemma vlq_short v : 0 ≤ v < 2 ^ 28 → (length (encode_variable_length v) ≤ 4)%nat.
Proof.
  intros Hv. unfold encode_variable_length. destruct (Z.eqb_spec v 0); [cbn; lia|].
  rewrite length_reverse. cbn [length]. apply le_n_S.
  assert (∀ k fuel x, x < 128 ^ Z.of_nat k → (length (vlq_groups fuel x) ≤ k)%nat) as Hg.
  { induction k as [|k IH]; intros [|fuel] x Hx; cbn [vlq_groups length]; try lia.
    - destruct (Z.ltb_spec 0 x); cbn; [change (128 ^ Z.of_nat 0) with 1 in Hx; lia|lia].
    - destruct (Z.ltb_spec 0 x); cbn; [|lia]. apply le_n_S, IH. rewrite shiftr_div by lia.
      rewrite Nat2Z.inj_succ, Z.pow_succ_r in Hx by lia. change (2 ^ 7) with 128. apply Z.div_lt_upper_bound; lia. }
  apply Hg. rewrite shiftr_div by lia. change (128 ^ Z.of_nat 3) with 2097152. change (2 ^ 7) with 128.
  change (2 ^ 28) with 268435456 in Hv. apply Z.div_lt_upper_bound; lia.
Qed.

(** ** Messages *)

(** Bytes that the reader takes for one message, whatever comes after. *)
Definition is_message (data : list Z) : Prop :=
  data ≠ end_of_track ∧ ∀ rest, message_length (data ++ rest) = Some (length data).

Lemma read_message_app data rest : is_message data → read_message (data ++ rest) = Some (data, rest).
Proof.
  intros [_ Hd]. unfold read_message. rewrite Hd. cbn [mbind option_bind].
  destruct (Nat.leb_spec (length data) (length (data ++ rest))); [|rewrite length_app in *; lia].
  by rewrite take_app_length, drop_app_length.
Qed.

Lemma end_of_track_read rest : read_message (end_of_track ++ rest) = Some (end_of_track, rest).
Proof.
  unfold read_message. assert (message_length (end_of_track ++ rest) = Some 3%nat) as ->.
  { cbn. f_equal. lia. }
  by cbn [mbind option_bind end_of_track app length Nat.leb take drop].
Qed.

Lemma channel_message3 s c a b : s = 128 ∨ s = 144 → 0 ≤ c < 16 → 0 ≤ a < 128 → 0 ≤ b < 128 →
  is_message [Z.lor s c; a; b].
Proof.
  intros Hs Hc Ha Hb. rewrite lor_status by tauto. split; [intros [= E _ _]; lia|]. intros rest. cbn.
  rewrite (proj2 (Z.eqb_neq _ 255)), (proj2 (Z.leb_le 128 _)), (proj2 (Z.ltb_lt _ 240)), (proj2 (Z.leb_gt 192 _)) by lia.
  cbn. rewrite (proj2 (Z.leb_le 0 a)), (proj2 (Z.ltb_lt a 128)), (proj2 (Z.leb_le 0 b)), (proj2 (Z.ltb_lt b 128)) by lia.
  by rewrite take_0.
Qed.

Lemma channel_message2 c a : 0 ≤ c < 16 → 0 ≤ a < 128 → is_message [Z.lor 192 c; a].
Proof.
  intros Hc Ha. rewrite lor_status by tauto. split; [done|]. intros rest. cbn.
  rewrite (proj2 (Z.eqb_neq _ 255)), (proj2 (Z.leb_le 128 _)), (proj2 (Z.ltb_lt _ 240)),
    (proj2 (Z.leb_le 192 _)), (proj2 (Z.ltb_lt _ 224)) by lia.
  cbn. by rewrite (proj2 (Z.leb_le 0 a)), (proj2 (Z.ltb_lt a 128)), take_0 by lia.
Qed.

Lemma meta_message ty data : ty ≠ 47 → Z.of_nat (length data) ≤ u32_max →
  is_message ([255; ty] ++ encode_variable_length (Z.of_nat (length data)) ++ data).
Proof.
  intros Hty Hl. split; [unfold end_of_track; by intros [= ->]|]. intros rest.
  cbn [app message_length]. rewrite Z.eqb_refl, <- app_assoc, vlq_back by lia. cbn [mbind option_bind].
  f_equal. rewrite Nat2Z.id. cbn [length]. rewrite !length_app. lia.
Qed.

(** ** Tracks *)

Fixpoint ordered (last_tick : Z) (evs : list MidiEvent) : Prop :=
  match evs with
  | [] => True
  | ev :: evs' => last_tick ≤ ev_tick ev ≤ u32_max ∧ ordered (ev_tick ev) evs'
  end.
Fixpoint final_tick (last_tick : Z) (evs : list MidiEvent) : Z :=
  match evs with [] => last_tick | ev :: evs' => final_tick (ev_tick ev) evs' end.

Lemma ordered_snoc evs : ∀ t ev, ordered t (evs ++ [ev]) ↔ ordered t evs ∧ final_tick t evs ≤ ev_tick ev ≤ u32_max.
Proof. induction evs as [|e evs IH]; intros t ev; cbn; [tauto|]. rewrite IH. tauto. Qed.
Lemma final_snoc evs : ∀ t ev, final_tick t (evs ++ [ev]) = ev_tick ev.
Proof. induction evs as [|e evs IH]; intros t ev; cbn; [done|apply IH]. Qed.

Definition messages (evs : list MidiEvent) : Prop := Forall (λ ev, is_message (ev_data ev)) evs.

Lemma vlq_nonempty v : encode_variable_length v ≠ [].
Proof.
  unfold encode_variable_length. destruct (v =? 0); [done|]. intros E. apply (f_equal length) in E.
  rewrite length_reverse in E. done.
Qed.

Lemma encode_length evs : ∀ t, (length evs ≤ length (encode_events t evs))%nat.
Proof.
  induction evs as [|ev evs IH]; intros t; cbn; [lia|]. rewrite !length_app. specialize (IH (ev_tick ev)).
  pose proof (vlq_nonempty (sat_sub (ev_tick ev) t)). destruct (encode_variable_length _); [done|cbn; lia].
Qed.

Lemma events_back evs : ∀ fuel t rest, 0 ≤ t → ordered t evs → messages evs → (length evs < fuel)%nat →
  read_events fuel t (encode_events t evs ++ 0 :: end_of_track ++ rest) = Some (evs, rest).
Proof.
  induction evs as [|ev evs IH]; intros [|fuel] t rest H0 Ho Hm Hf; cbn [length] in Hf; try lia; cbn [read_events encode_events].
  - cbn [app]. change (read_vlq 0 (0 :: end_of_track ++ rest)) with (Some (0, end_of_track ++ rest)). cbn [mbind option_bind].
    rewrite end_of_track_read. cbn [mbind option_bind]. by rewrite bool_decide_true.
  - destruct Ho as [Ht Ho]. apply Forall_cons in Hm as [Hd Hm]. rewrite <- !app_assoc.
    assert (sat_sub (ev_tick ev) t = ev_tick ev - t) as -> by (unfold sat_sub; lia).
    rewrite vlq_back by lia. cbn [mbind option_bind]. rewrite read_message_app by done. cbn [mbind option_bind].
    rewrite bool_decide_false by apply Hd. replace (t + (ev_tick ev - t)) with (ev_tick ev) by lia.
    rewrite IH by (done || lia). cbn [mbind option_bind]. by destruct ev.
Qed.

Definition track_ok (evs : list MidiEvent) : Prop := ordered 0 evs ∧ messages evs.

Lemma track_back evs : track_ok evs → read_track (encode_track evs) = Some evs.
Proof.
  intros [Ho Hm]. unfold read_track, encode_track. change [0; 255; 47; 0] with (0 :: end_of_track ++ []).
  rewrite events_back; [by cbn|done..|]. rewrite length_app. pose proof (encode_length evs 0). lia.
Qed.

(** ** Writers *)

Definition writer_ok (w : MidiWriter) : Prop :=
  ordered 0 (mw_events w) ∧ messages (mw_events w) ∧ final_tick 0 (mw_events w) ≤ mw_current_tick w ≤ u32_max ∧
  0 ≤ mw_channel w < 16.

Lemma ok_new tpb ch : writer_ok (writer_new tpb ch).
Proof.
  unfold writer_ok, messages. cbn. split_and!; try done; try (unfold u32_max; lia); rewrite land_15; apply Z.mod_pos_bound; lia.
Qed.

Lemma ok_event data w : is_message data → writer_ok w → writer_ok (channel_event data w).
Proof.
  intros Hd (Ho&Hm&Hc&Hch). unfold writer_ok, channel_event. cbn. rewrite ordered_snoc, final_snoc. cbn.
  split_and!; try done; try lia. by apply Forall_app_2, Forall_singleton.
Qed.

Lemma ok_writes c vel w w' : 0 ≤ c < 16 → 0 ≤ vel < 128 → writes c vel w w' → writer_ok w → writer_ok w'.
Proof.
  intros Hc Hv. induction 1 as [|w w1 w2 Hs _ IH]; [done|]. intros Hok. apply IH. destruct Hs as [p Hp|p Hp|t w1 Ht Ha].
  - apply ok_event; [|done]. apply channel_message3; [tauto|lia..].
  - apply ok_event; [|done]. apply channel_message3; [tauto|lia..].
  - apply advance_spec in Ha as [-> Ha]. destruct Hok as (?&?&?&?). unfold writer_ok. cbn. split_and!; try done; lia.
Qed.

Lemma ok_tempo h w : writer_ok w → writer_ok (header_tempo_event h w).
Proof.
  unfold header_tempo_event, set_tempo, meta_event. intros Hok.
  destruct (header_tempo h); apply ok_event; try done; apply meta_message; try done; cbn; unfold u32_max; lia.
Qed.

Lemma ok_program p c w : 0 ≤ c < 16 → writer_ok w → writer_ok (channel_event [Z.lor 192 c; Z.land p 127] w).
Proof.
  intros Hc. apply ok_event, channel_message2; [done|]. rewrite land_127. apply Z.mod_pos_bound. lia.
Qed.

Section files.
Context `{!DrainOrder, !DrainOrderLaws}.

Lemma tempo_channel h w : mw_channel (header_tempo_event h w) = mw_channel w.
Proof. unfold header_tempo_event. by destruct (header_tempo h). Qed.

Lemma tempo_division h w : mw_ticks_per_beat (header_tempo_event h w) = mw_ticks_per_beat w.
Proof. unfold header_tempo_event. by destruct (header_tempo h). Qed.

Lemma ok_play_voices params h c voices : 0 ≤ velocity params < 128 → Z.land (channel params) 15 = c → ∀ w w',
  mw_channel w = c → writer_ok w → play_voices params h voices w = Some w' →
  writer_ok w' ∧ mw_ticks_per_beat w' = mw_ticks_per_beat w.
Proof.
  intros Hv Hc. induction voices as [|v voices IH]; intros w w' Hw Hok; cbn [play_voices]; [by intros [= <-]|].
  destruct (play_voice _ _ _ _) as [w1|] eqn:E; [|done]. cbn.
  apply (voice_writes c (velocity params)) in E; [|by split_and!]. rewrite <- (writes_division _ _ _ _ E). apply IH.
  - by rewrite (writes_channel _ _ _ _ E).
  - eapply ok_writes; [|exact Hv|exact E|done]. rewrite <- Hc, land_15. apply Z.mod_pos_bound. lia.
Qed.

Lemma ok_single tune params w : 0 ≤ velocity params < 128 → build_single_track_writer tune params = Some w →
  writer_ok w ∧ mw_ticks_per_beat w = ticks_per_beat params.
Proof.
  intros Hv Hb. unfold build_single_track_writer in Hb.
  assert (0 ≤ Z.land (channel params) 15 < 16) as Hc by (rewrite land_15; apply Z.mod_pos_bound; lia).
  assert (∀ w0, writer_ok w0 → mw_channel w0 = Z.land (channel params) 15 → mw_ticks_per_beat w0 = ticks_per_beat params →
    play_voices params (tune_header tune) (tune_voices tune) w0 = Some w →
    writer_ok w ∧ mw_ticks_per_beat w = ticks_per_beat params) as Hgo.
  { intros w0 ? ? <-. eapply ok_play_voices; done. }
  revert Hb. apply Hgo.
  - destruct (tune_program _ _); [unfold program_change; rewrite tempo_channel; apply ok_program; [exact Hc|]|]; apply ok_tempo, ok_new.
  - by destruct (tune_program _ _); cbn; rewrite tempo_channel.
  - by destruct (tune_program _ _); cbn; rewrite tempo_division.
Qed.

Lemma ok_voice params h idx v w : 0 ≤ velocity params < 128 → voice_writer params h idx v = Some w → writer_ok w.
Proof.
  intros Hv. unfold voice_writer.
  assert (0 ≤ Z.land (voice_channel idx) 15 < 16) as Hc by (rewrite land_15; apply Z.mod_pos_bound; lia).
  intros Hp. apply (voice_writes (Z.land (voice_channel idx) 15) (velocity params)) in Hp; [|by split_and!].
  eapply ok_writes; [exact Hc|exact Hv|exact Hp|]. 
  destruct (tune_program h params); [apply ok_program; [done|]|]; apply ok_new.
Qed.

Lemma ok_voices params h voices : 0 ≤ velocity params < 128 → ∀ idx ws,
  voice_writers params h idx voices = Some ws → Forall writer_ok ws.
Proof.
  intros Hv. induction voices as [|v voices IH]; intros idx ws; cbn [voice_writers]; [intros [= <-]; constructor|].
  destruct (is_silent v); [apply IH|]. destruct (voice_writer _ _ _ _) as [w|] eqn:Ew; [|done]. cbn.
  destruct (voice_writers _ _ _ _) as [ws'|] eqn:Es; [|done]. intros [= <-]. constructor; [by eapply ok_voice|by eapply IH].
Qed.

(** ** Chunks *)

Lemma read_be32 z : 0 ≤ z ≤ u32_max → read_be (be32 z) = z.
Proof.
  unfold u32_max. intros Hz. unfold read_be, be32. cbn [foldl]. rewrite !land_255, !shiftr_div by lia.
  change (2 ^ 24) with 16777216. change (2 ^ 16) with 65536. change (2 ^ 8) with 256.
  Z.div_mod_to_equations. lia.
Qed.

Lemma read_be16 z : 0 ≤ z < 65536 → read_be (be16 z) = z.
Proof.
  intros Hz. unfold read_be, be16. cbn [foldl]. rewrite !land_255, !shiftr_div by lia. change (2 ^ 8) with 256.
  Z.div_mod_to_equations. lia.
Qed.

Lemma split_bytes_app (a l : list Z) n : length a = n → split_bytes n (a ++ l) = Some (a, l).
Proof.
  intros <-. unfold split_bytes. rewrite length_app. destruct (Nat.leb_spec (length a) (length a + length l)); [|lia].
  by rewrite take_app_length, drop_app_length.
Qed.

Lemma read_chunk_app tag data l : length tag = 4%nat → Z.of_nat (length data) ≤ u32_max →
  read_chunk tag (tag ++ be32 (Z.of_nat (length data)) ++ data ++ l) = Some (data, l).
Proof.
  intros Ht Hd. unfold read_chunk. rewrite split_bytes_app by done. cbn [mbind option_bind].
  rewrite bool_decide_true, split_bytes_app by done. cbn [mbind option_bind].
  rewrite read_be32 by lia. by rewrite Nat2Z.id, split_bytes_app.
Qed.

Definition fits (evs : list MidiEvent) : Prop := Z.of_nat (length (encode_track evs)) ≤ u32_max.

Lemma tracks_back (tracks : list (list MidiEvent)) : Forall (λ evs, track_ok evs ∧ fits evs) tracks →
  read_tracks (length tracks) (concat (track_chunk <$> (encode_track <$> tracks))) = Some tracks.
Proof.
  induction 1 as [|evs tracks [Hok Hf] _ IH]; [done|]. cbn [length read_tracks fmap list_fmap concat].
  unfold track_chunk at 1. rewrite <- !app_assoc, read_chunk_app by done. cbn [mbind option_bind].
  rewrite track_back by done. cbn [mbind option_bind]. by rewrite IH.
Qed.

Lemma smf_back format tpb tracks : 0 ≤ format < 65536 → 0 ≤ tpb < 65536 → Z.of_nat (length tracks) < 65536 →
  Forall (λ evs, track_ok evs ∧ fits evs) tracks →
  read_smf (MThd ++ be32 6 ++ be16 format ++ be16 (Z.of_nat (length tracks)) ++ be16 tpb
            ++ concat (track_chunk <$> (encode_track <$> tracks))) =
    Some {| smf_format := format; smf_division := tpb; smf_tracks := tracks |}.
Proof.
  intros Hf Ht Hn Hok. unfold read_smf.
  set (body := concat _). set (head := be16 format ++ be16 (Z.of_nat (length tracks)) ++ be16 tpb).
  replace (be16 format ++ _) with (head ++ body) by (unfold head; by rewrite <- !app_assoc).
  change (be32 6) with (be32 (Z.of_nat (length head))).
  rewrite (read_chunk_app MThd head body) by done. cbn [mbind option_bind]. unfold head. unfold be16 at 1 2 3. cbn [app].
  fold (be16 (Z.of_nat (length tracks))) (be16 format) (be16 tpb).
  rewrite !read_be16 by lia. rewrite Nat2Z.id. unfold body. rewrite tracks_back by done. done.
Qed.

(** Events in order are not moved by the sort. *)
Lemma sort_ordered evs : ∀ t, ordered t evs → sort_events evs = evs.
Proof.
  induction evs as [|ev evs IH]; intros t; cbn; [done|]. intros [_ Ho]. fold (sort_events evs). rewrite (IH _ Ho).
  destruct evs as [|ev' evs]; [done|]. cbn in Ho |- *. rewrite (proj2 (Z.leb_le _ _)) by lia. done.
Qed.

(** The events of the tracks of a tune, in the order of the file. *)
Definition tracks_of (tune : Tune) (params : MidiParams) : option (list (list MidiEvent)) :=
  if (1 <? length (filter (λ v, is_silent v = false) (tune_voices tune)))%nat then
    ws ← voice_writers params (tune_header tune) 0 (tune_voices tune);
    Some (mw_events <$> header_tempo_event (tune_header tune) (writer_new (ticks_per_beat params) 0) :: ws)
  else w ← build_single_track_writer tune params; Some [mw_events w].

Lemma tracks_ok tune params tracks : 0 ≤ velocity params < 128 → tracks_of tune params = Some tracks →
  Forall track_ok tracks.
Proof.
  intros Hv. unfold tracks_of. assert (∀ w, writer_ok w → track_ok (mw_events w)) as Hw by (intros w (?&?&_); done).
  destruct (1 <? _)%nat.
  - destruct (voice_writers _ _ _ _) as [ws|] eqn:E; [|done]. intros [= <-]. apply ok_voices in E; [|done].
    constructor; [apply Hw, ok_tempo, ok_new|]. apply Forall_fmap. by eapply Forall_impl.
  - destruct (build_single_track_writer _ _) as [w|] eqn:E; [|done]. intros [= <-]. apply Forall_singleton, Hw.
    by eapply ok_single.
Qed.

(** C36: the file of a tune reads back, by the rules of the format, as a file of the
    format's header, resolution and tracks whose events are those that were played: format
    0 with one track for one voice, format 1 with a tempo track and one for each voice that
    has elements otherwise. Events are in the order of their ticks, so that the sort moves
    none, and delta times below [2^28] take at most the four bytes the format allows. *)
Theorem midi_file_roundtrip (tune : Tune) (params : MidiParams) (bytes : list Z) :
  0 ≤ velocity params < 128 → 0 ≤ ticks_per_beat params < 65536 → generate tune params = Some bytes →
  ∃ tracks, tracks_of tune params = Some tracks ∧ Forall (ordered 0) tracks ∧
    (Forall fits tracks → Z.of_nat (length tracks) < 65536 →
     read_smf bytes = Some {|
       smf_format := if (1 <? length (filter (λ v, is_silent v = false) (tune_voices tune)))%nat then 1 else 0;
       smf_division := ticks_per_beat params; smf_tracks := tracks |}) ∧
    (∀ w, build_single_track_writer tune params = Some w → events tune params = Some (mw_events w)) ∧
    ∀ v, 0 ≤ v < 2 ^ 28 → (length (encode_variable_length v) ≤ 4)%nat.
Proof.
  intros Hv Ht Hg. assert (∃ tracks, tracks_of tune params = Some tracks ∧ bytes =
      MThd ++ be32 6 ++ be16 (if (1 <? length (filter (λ v, is_silent v = false) (tune_voices tune)))%nat then 1 else 0)
      ++ be16 (Z.of_nat (length tracks)) ++ be16 (ticks_per_beat params)
      ++ concat (track_chunk <$> (encode_track <$> tracks))) as (tracks&Htr&->).
  { unfold generate in Hg. unfold tracks_of. destruct (1 <? _)%nat.
    - unfold generate_multitrack in Hg. destruct (voice_writers _ _ _ _) as [ws|]; [|done].
      cbn [mbind option_bind] in Hg |- *. apply (inj Some) in Hg as <-. eexists. split; [done|].
      by rewrite !length_fmap, <- !list_fmap_compose.
    - destruct (build_single_track_writer tune params) as [w|] eqn:E; [|done].
      cbn [fmap option_fmap option_map] in Hg. apply (inj Some) in Hg as <-. eexists. split; [done|]. unfold finish.
      destruct (ok_single _ _ _ Hv E) as [(Ho&_) ->]. rewrite (sort_ordered _ _ Ho).
      cbn [fmap list_fmap concat length]. by rewrite app_nil_r. }
  pose proof (tracks_ok tune params tracks Hv Htr) as Hok. exists tracks. split_and!; [done| | | |apply vlq_short].
  - eapply Forall_impl; [exact Hok|intros ? []]; done.
  - intros Hfit Hn. apply smf_back; [by destruct (1 <? _)%nat|done|done|]. by apply Forall_and.
  - intros w Hw. unfold events. rewrite Hw. cbn. f_equal. destruct (ok_single _ _ _ Hv Hw) as [(Ho&_) _]. by eapply sort_ordered.
Qed.
End files.
