(* ===== verification/MidiNotes.v ===== *)
(** * Every note that sounds is released

    The balance of note-ons and note-offs of a track, at every point of it, for tunes
    whose chords spell an accidental no later than its letter. *)

From S2P Require Import Prelude Text Abc Midi MidiPlay MidiSteps MidiFile.

(** ** Levels *)

(** What a message does to the number of notes sounding at a pitch of a channel. *)
Definition note_delta (c p : Z) (data : list Z) : Z :=
  match data with
  | [st; q; _] =>
      if q =? p then (if st =? Z.lor 144 c then 1 else if st =? Z.lor 128 c then -1 else 0) else 0
  | _ => 0
  end.
Definition level (c p : Z) (evs : list MidiEvent) : Z := foldr (λ ev n, note_delta c p (ev_data ev) + n) 0 evs.

Lemma level_app c p evs evs' : level c p (evs ++ evs') = level c p evs + level c p evs'.
Proof. unfold level. induction evs as [|ev evs IH]; [cbn; lia|]. cbn [foldr app]. rewrite IH. lia. Qed.

(** Nothing is released that does not sound. *)
Definition released_in_turn (evs : list MidiEvent) : Prop := ∀ c p k, 0 ≤ c < 16 → 0 ≤ level c p (take k evs).

Lemma in_turn_snoc evs ev : released_in_turn evs → (∀ c p, 0 ≤ c < 16 → 0 ≤ level c p (evs ++ [ev])) →
  released_in_turn (evs ++ [ev]).
Proof.
  intros Hr Hl c p k Hc. destruct (decide (k ≤ length evs)%nat).
  - rewrite take_app_le by done. by apply Hr.
  - rewrite take_ge by (rewrite length_app; cbn; lia). by apply Hl.
Qed.

Definition one (q p : Z) : Z := if q =? p then 1 else 0.

Section channel.
Context `{!DrainOrder}.
Variables c vel : Z.
Hypothesis Hc : 0 ≤ c < 16.

Lemma delta_on c' p q : 0 ≤ c' < 16 → note_delta c' p (on_event c vel q) = if decide (c' = c) then one q p else 0.
Proof.
  intros Hc'. unfold note_delta, on_event, one. rewrite !lor_status by tauto.
  destruct (Z.eqb_spec q p); [|by case_decide].
  destruct (Z.eqb_spec (144 + c) (144 + c')); case_decide; try lia; try done.
  destruct (Z.eqb_spec (144 + c) (128 + c')); lia.
Qed.
Lemma delta_off c' p q : 0 ≤ c' < 16 → note_delta c' p (off_event c q) = if decide (c' = c) then - one q p else 0.
Proof.
  intros Hc'. unfold note_delta, off_event, one. rewrite !lor_status by tauto.
  destruct (Z.eqb_spec q p); [|by case_decide].
  destruct (Z.eqb_spec (128 + c) (144 + c')); [lia|].
  destruct (Z.eqb_spec (128 + c) (128 + c')); case_decide; lia.
Qed.

(** The notes sounding are those of the channel, [f p] of them at pitch [p]. *)
Definition balanced (w : MidiWriter) (f : Z → Z) : Prop :=
  released_in_turn (mw_events w) ∧
  ∀ c' p, 0 ≤ c' < 16 → level c' p (mw_events w) = if decide (c' = c) then f p else 0.

Lemma balanced_ext w f g : (∀ p, f p = g p) → balanced w f → balanced w g.
Proof. intros Hfg [Hr Hl]. split; [done|]. intros c' p Hc'. rewrite Hl by done. by rewrite Hfg. Qed.

Lemma balanced_pos w f p : balanced w f → 0 ≤ f p.
Proof.
  intros [Hr Hl]. specialize (Hr c p (length (mw_events w)) Hc). rewrite take_ge, Hl, decide_True in Hr by done. done.
Qed.

Lemma balanced_event w f g data : balanced w f → (∀ p, 0 ≤ g p) →
  (∀ c' p, 0 ≤ c' < 16 → note_delta c' p data = if decide (c' = c) then g p - f p else 0) →
  balanced (channel_event data w) g.
Proof.
  intros [Hr Hl] Hg Hd.
  assert (∀ c' p, 0 ≤ c' < 16 → level c' p (mw_events (channel_event data w)) = if decide (c' = c) then g p else 0) as Hl'.
  { intros c' p Hc'. unfold channel_event. cbn [mw_events set_field]. rewrite level_app, Hl by done.
    unfold level. cbn [foldr ev_data]. rewrite Hd by done. case_decide; lia. }
  split; [|done]. unfold channel_event in *. cbn [mw_events set_field] in *. apply in_turn_snoc; [done|].
  intros c' p Hc'. rewrite Hl' by done. specialize (Hg p). case_decide; lia.
Qed.

Lemma balanced_on w f p : balanced w f → balanced (channel_event (on_event c vel p) w) (λ q, f q + one p q).
Proof.
  intros Hb. apply balanced_event with f; [done| |].
  - intros q. pose proof (balanced_pos w f q Hb). unfold one. destruct (p =? q); lia.
  - intros c' q Hc'. rewrite delta_on by done. case_decide; lia.
Qed.

Lemma balanced_off w f p : balanced w f → 0 < f p → balanced (channel_event (off_event c p) w) (λ q, f q - one p q).
Proof.
  intros Hb Hp. apply balanced_event with f; [done| |].
  - intros q. pose proof (balanced_pos w f q Hb). unfold one. destruct (Z.eqb_spec p q); subst; lia.
  - intros c' q Hc'. rewrite delta_off by done. case_decide; lia.
Qed.

Lemma balanced_advance t w w' f : advance t w = Some w' → balanced w f → balanced w' f.
Proof. by intros [-> _]%advance_spec. Qed.

(** A note by itself. *)
Lemma balanced_note p t w w1 f : advance t (channel_event (on_event c vel p) w) = Some w1 → balanced w f →
  balanced (channel_event (off_event c p) w1) f.
Proof.
  intros Ha Hb. pose proof (balanced_pos w f p Hb). apply balanced_ext with (λ q, (f q + one p q) - one p q); [intros; lia|].
  apply balanced_off; [|unfold one; rewrite Z.eqb_refl; lia]. eapply balanced_advance; [exact Ha|]. by apply balanced_on.
Qed.

(** ** Chords *)

Definition count_pitch (ps : list Z) (q : Z) : Z := foldr (λ p n, one p q + n) 0 ps.

Definition strikes (ps : list Z) (w : MidiWriter) : MidiWriter := foldl (λ w p, channel_event (on_event c vel p) w) w ps.
Definition unstrikes (ps : list Z) (w : MidiWriter) : MidiWriter := foldl (λ w p, channel_event (off_event c p) w) w ps.

Lemma balanced_strikes ps : ∀ w f, balanced w f → balanced (strikes ps w) (λ q, f q + count_pitch ps q).
Proof.
  induction ps as [|p ps IH]; intros w f Hb; cbn.
  - eapply balanced_ext; [|exact Hb]. intros; lia.
  - eapply balanced_ext; [|by apply IH, balanced_on]. intros q. cbn. unfold count_pitch. lia.
Qed.

Lemma count_pos ps q : 0 ≤ count_pitch ps q.
Proof. induction ps as [|p ps IH]; cbn; [lia|]. unfold one at 1. unfold count_pitch in IH. destruct (p =? q); lia. Qed.

Lemma balanced_unstrikes ps : ∀ w f, balanced w f → (∀ q, count_pitch ps q ≤ f q) →
  balanced (unstrikes ps w) (λ q, f q - count_pitch ps q).
Proof.
  induction ps as [|p ps IH]; intros w f Hb Hle; cbn.
  - eapply balanced_ext; [|exact Hb]. intros; lia.
  - eapply balanced_ext; [|apply (IH _ (λ q, f q - one p q)); [apply balanced_off; [done|]|]].
    + intros q. cbn. unfold count_pitch. lia.
    + specialize (Hle p). cbn in Hle. unfold one at 1 in Hle. rewrite Z.eqb_refl in Hle.
      pose proof (count_pos ps p). unfold count_pitch in *. lia.
    + intros q. specialize (Hle q). cbn in Hle. unfold count_pitch. lia.
Qed.

(** No note without an accidental is followed by one of its letter with an accidental. *)
Definition leaves_letter (n m : Note) : bool :=
  negb (bool_decide (note_pitch m = note_pitch n)) || bool_decide (note_accidental m = None).
Fixpoint spelled (notes : list Note) : bool :=
  match notes with
  | [] => true
  | n :: notes' =>
      match note_accidental n with None => forallb (leaves_letter n) notes' | Some _ => true end && spelled notes'
  end.

Lemma bar_after notes n : ∀ bar, forallb (leaves_letter n) notes →
  foldl (λ bar m, own_accidental m bar) bar notes !! note_pitch n = bar !! note_pitch n.
Proof.
  induction notes as [|m notes IH]; intros bar; cbn [forallb foldl]; [done|]. rewrite andb_True. intros [Hm Hn].
  rewrite IH by done. unfold leaves_letter in Hm. apply orb_True in Hm as [Hm|Hm]; unfold own_accidental.
  - apply negb_True in Hm. destruct (note_accidental m); [|done].
    apply lookup_insert_ne. intros E. apply Hm. by apply bool_decide_pack.
  - apply bool_decide_unpack in Hm. by rewrite Hm.
Qed.

Lemma strike_all_bar env notes : ∀ bar w bar' w', strike_all env notes bar w = Some (bar', w') →
  bar' = foldl (λ bar m, own_accidental m bar) bar notes.
Proof.
  induction notes as [|n notes IH]; intros bar w bar' w'; cbn [strike_all foldl]; [by intros [= <- _]|].
  destruct (note_to_midi_pitch n bar); [|done]. cbn. apply IH.
Qed.

(** The pitches of a chord, the same when it is struck and when it is released. *)
Lemma chord_pitches env notes : ∀ bar w bar' w', plays_on c vel env w → spelled notes →
  strike_all env notes bar w = Some (bar', w') →
  ∃ ps, w' = strikes ps w ∧
    ∀ w1 w2, plays_on c vel env w1 → unstrike_all env notes bar' w1 = Some w2 → w2 = unstrikes ps w1.
Proof.
  induction notes as [|n notes IH]; intros bar w bar' w' Hp Hs; cbn [strike_all].
  { intros [= <- <-]. exists []. split; [done|]. by intros w1 w2 _ [= <-]. }
  cbn [spelled] in Hs. apply andb_True in Hs as [Hn Hs]. destruct (note_to_midi_pitch n bar) as [base|] eqn:Eb; [|done].
  cbn. intros Hst. rewrite strike_event with (c := c) (vel := vel) in Hst by done.
  set (p := apply_pitch_offset base (ve_pitch_offset env)) in *. pose proof (strike_all_bar _ _ _ _ _ _ Hst) as Hbar.
  assert (note_to_midi_pitch n bar' = Some base) as Eb'.
  { rewrite <- Eb. unfold note_to_midi_pitch, effective_accidental. destruct (note_accidental n) eqn:En; [done|].
    rewrite Hbar, bar_after by done. unfold own_accidental. by rewrite En. }
  destruct (IH _ (channel_event (on_event c vel p) w) _ _ Hp Hs Hst) as (ps&->&Hun). exists (p :: ps). split; [done|].
  intros w1 w2 Hp1. cbn [unstrike_all]. rewrite Eb'. cbn. fold p.
  rewrite unstrike_event with (c := c) (vel := vel) by done. apply Hun. done.
Qed.

(** ** The player *)

Definition held_level (st : Player) (p : Z) : Z := if pl_held_notes st !! p then 1 else 0.
Definition balanced_player (st : Player) : Prop := balanced (pl_writer st) (held_level st).

Section env.
Variable env : VoiceEnv.

Lemma balanced_graces graces each bar : ∀ w w' f, plays_on c vel env w →
  play_graces env graces each bar w = Some w' → balanced w f → balanced w' f.
Proof.
  induction graces as [|g graces IH]; intros w w' f Hp; cbn [play_graces]; [by intros [= <-]|].
  destruct (note_to_midi_pitch g bar); [|done]. cbn. destruct (note_channel _ _ _ _ _) as [w1|] eqn:En; [|done]. cbn.
  intros Hg Hb. apply (grace_note_spec c vel) in En as (w2&Ha&->); [|done]. eapply IH; [|exact Hg|by eapply balanced_note].
  by apply advance_spec in Ha as [-> _].
Qed.

Lemma balanced_take_graces ticks st st' left : plays_on c vel env (pl_writer st) →
  take_graces env ticks st = Some (st', left) → balanced_player st → balanced_player st'.
Proof.
  intros Hp. unfold take_graces. case_bool_decide; [by intros [= <- _]|].
  destruct (play_grace_run _ _ _ _ _ _) as [[w stolen]|] eqn:Eg; [|done]. cbn. intros [= <- _] Hb.
  unfold balanced_player, held_level in *. cbn. unfold play_grace_run in Eg.
  destruct (_ =? 0); [by injection Eg as <- _|]. cbn zeta in Eg. destruct (play_graces _ _ _ _ _) as [w1|] eqn:Ep; [|done].
  cbn in Eg. destruct (checked_u32 _); [|done]. injection Eg as <- _. by eapply balanced_graces.
Qed.

Lemma balanced_chord notes t st st' : plays_on c vel env (pl_writer st) → spelled notes →
  sound_chord env notes t st = Some st' → balanced_player st → balanced_player st'.
Proof.
  intros Hp Hs. unfold sound_chord. destruct (strike_all _ _ _ _) as [[bar w]|] eqn:Es; [|done]. cbn.
  destruct (advance t w) as [w1|] eqn:Ea; [|done]. cbn. destruct (unstrike_all _ _ _ _) as [w2|] eqn:Eu; [|done].
  intros [= <-] Hb. destruct (chord_pitches env notes _ _ _ _ Hp Hs Es) as (ps&->&Hun).
  assert (plays_on c vel env w1) as Hp1.
  { apply advance_spec in Ea as [-> _].
    exact (plays_on_writes c vel env _ _ (strike_all_writes c vel env _ _ _ _ _ Hp Es) Hp). }
  apply Hun in Eu; [|done]. subst w2. unfold balanced_player, held_level in *. cbn.
  eapply balanced_ext; [|apply (balanced_unstrikes ps); [eapply balanced_advance; [exact Ea|]; by apply balanced_strikes|]].
  - intros q. cbn. lia.
  - intros q. cbn. pose proof (balanced_pos _ _ q Hb). cbn in *. lia.
Qed.

Lemma balanced_hold tie pitch t st st' : plays_on c vel env (pl_writer st) →
  hold_or_sound env tie pitch t st = Some st' → balanced_player st → balanced_player st'.
Proof.
  intros Hp. unfold hold_or_sound, balanced_player. intros Hh Hb.
  assert (∀ q, pitch ≠ q → one pitch q = 0) as Hne by (intros q Hq; unfold one; by rewrite (proj2 (Z.eqb_neq _ _))).
  assert (one pitch pitch = 1) as Heq by (unfold one; by rewrite Z.eqb_refl).
  destruct (pl_held_notes st !! pitch) as [held|] eqn:Eh; cbn in Hh.
  - destruct (advance t _) as [w|] eqn:Ea; [|done]. cbn in Hh. assert (held_level st pitch = 1) as Hl1 by (unfold held_level; by rewrite Eh).
    assert (plays_on c vel env w) as Hpw by (by apply advance_spec in Ea as [-> _]).
    apply (balanced_advance _ _ _ _ Ea) in Hb. destruct tie.
    + destruct (checked_u32 _) as [tot|]; [|done]. injection Hh as <-. cbn. eapply balanced_ext; [|exact Hb].
      intros q. unfold held_level. cbn. destruct (decide (pitch = q)) as [<-|Hq]; [by rewrite lookup_insert_eq, Eh|].
      by rewrite lookup_insert_ne, lookup_delete_ne.
    + injection Hh as <-. cbn. rewrite unstrike_event with (c := c) (vel := vel) by done.
      eapply balanced_ext; [|apply balanced_off; [exact Hb|lia]]. intros q. unfold held_level in *. cbn.
      destruct (decide (pitch = q)) as [<-|Hq]; [rewrite lookup_delete_eq; lia|]. rewrite lookup_delete_ne, Hne by done. lia.
  - assert (held_level st pitch = 0) as Hl0 by (unfold held_level; by rewrite Eh). destruct tie.
    + rewrite strike_event with (c := c) (vel := vel) in Hh by done. destruct (advance t _) as [w|] eqn:Ea; [|done].
      injection Hh as <-. cbn. eapply balanced_ext; [|eapply balanced_advance; [exact Ea|by apply balanced_on]].
      intros q. unfold held_level in *. cbn. destruct (decide (pitch = q)) as [<-|Hq]; [rewrite lookup_insert_eq; lia|].
      rewrite lookup_insert_ne, Hne by done. lia.
    + destruct (sound _ _ _ _) as [w|] eqn:Es; [|done]. injection Hh as <-. cbn.
      apply (sound_spec c vel) in Es as (w1&Ha&->); [|done]. by eapply balanced_note.
Qed.

Lemma balanced_same st st' : pl_writer st' = pl_writer st → pl_held_notes st' = pl_held_notes st →
  balanced_player st → balanced_player st'.
Proof. unfold balanced_player, held_level. by intros -> ->. Qed.

Lemma balanced_pause t st st' : pause t st = Some st' → balanced_player st → balanced_player st'.
Proof. unfold pause. destruct (advance _ _) as [w|] eqn:Ea; [|done]. intros [= <-]. by apply balanced_advance with t. Qed.

Lemma balanced_play_note n st st' : plays_on c vel env (pl_writer st) → play_note env n st = Some st' →
  balanced_player st → balanced_player st'.
Proof.
  intros Hp. unfold play_note. cbn zeta. destruct (midi_pitch_with_accidental _ _ _) as [base|]; [|done]. cbn.
  destruct (to_ticks _ _) as [t|] eqn:Et; [|done]. cbn. apply to_ticks_Some in Et as (_&_&Ht).
  destruct (take_graces _ _ _) as [[st1 left]|] eqn:Eg; [|done]. cbn.
  destruct (hold_or_sound _ _ _ _ _) as [st2|] eqn:Eh; [|done]. cbn. intros [= <-] Hb.
  assert (balanced_player st2) as Hb2.
  { eapply balanced_hold; [|exact Eh|eapply balanced_take_graces; [|exact Eg|]]; [|exact Hp|exact Hb].
    apply (take_graces_spec c vel) in Eg as (Hw&_); [|done..]. by eapply plays_on_writes. }
  eapply balanced_same; [..|exact Hb2]; by repeat case_match.
Qed.

Lemma balanced_in_tuplet q p e st st' : plays_on c vel env (pl_writer st) →
  match e with EChord ch => spelled (chord_notes ch) | _ => true end →
  play_in_tuplet env q p e st = Some st' → balanced_player st → balanced_player st'.
Proof.
  intros Hp Hs. destruct e; cbn [play_in_tuplet]; try by intros [= <-].
  - destruct (note_to_midi_pitch _ _) as [base|]; [|done]. cbn. destruct (tuplet_ticks _ _ _ _) as [t|]; [|done]. cbn.
    destruct (sound _ _ _ _) as [w|] eqn:Es; [|done]. intros [= <-] Hb. apply (sound_spec c vel) in Es as (w1&Ha&->); [|done].
    by eapply balanced_note.
  - destruct (tuplet_ticks _ _ _ _) as [t|]; [|done]. cbn. by apply balanced_chord.
  - destruct (tuplet_ticks _ _ _ _) as [t|]; [|done]. cbn. apply balanced_pause.
Qed.
End env.
End channel.

(** ** Tunes *)

(** Every chord of an element, inside groups too, is [spelled]. *)
Fixpoint chords_spelled (e : Element) : bool :=
  match e with
  | EChord ch => spelled (chord_notes ch)
  | ETuplet _ _ l => forallb chords_spelled l
  | ESlurGroup l => forallb chords_spelled l
  | _ => true
  end.

Lemma forallb_Forall_True {A} (f : A → bool) l : forallb f l ↔ Forall f l.
Proof. induction l as [|x l IH]; cbn; [done|]. by rewrite andb_True, Forall_cons, IH. Qed.

Lemma flatten_spelled e : chords_spelled e → Forall chords_spelled (flatten_element e).
Proof.
  induction e as [p q l IH|l IH|e] using element_nested_ind; cbn.
  - intros Hl. by apply Forall_singleton.
  - intros Hl%forallb_Forall_True. induction IH as [|e l He _ IHl]; cbn; [constructor|].
    apply Forall_cons in Hl as [? ?]. apply Forall_app_2; auto.
  - destruct e; try done; intros; by apply Forall_singleton.
Qed.

Lemma flatten_slurs_spelled l : Forall chords_spelled l → Forall chords_spelled (flatten_slurs l).
Proof.
  induction 1 as [|e l He _ IH]; cbn; [constructor|]. apply Forall_app_2; [by apply flatten_spelled|done].
Qed.

(** Writing out repeats adds bars only. *)
Lemma expand_Forall (P : Element → Prop) l : (∀ b, P (EBar b)) → Forall P l → Forall P (expand_repeats l).
Proof.
  intros Hb Hl. unfold expand_repeats. destruct (expand_variant_endings l) as [l'|] eqn:E.
  - unfold expand_variant_endings in E. destruct (position _ _) as [fe|]; [|done]. cbn in E.
    destruct (position_from _ _ _) as [back|]; [|done]. cbn in E. destruct (l !! back) as [x|]; [|done]. cbn in E.
    destruct (if is_ending_marker x then _ else _) as [se|]; [|done]. cbn in E. injection E as <-.
    repeat first [apply Forall_app_2 | apply Forall_take | apply Forall_drop | apply Forall_cons_2 | done | by apply Hb].
  - assert (∀ l acc, Forall P l → Forall P acc.1 → Forall P (foldl expand_one acc l).1) as Hgo.
    { clear -Hb. assert (∀ r s, Forall P r → Forall P (repeat_back r s)) as Hr.
      { intros r s ?. unfold repeat_back. apply Forall_app_2; [done|]. apply Forall_cons_2; [done|]. by apply Forall_drop. }
      induction l as [|e l IH]; intros [r s] Hl Hacc; cbn [foldl]; [done|]. apply Forall_cons in Hl as [He Hl].
      apply IH; [done|]. unfold expand_one. cbn in Hacc.
      destruct e as [| | |[]| | | | | | | | | | | | |]; cbn; try (by apply Forall_app_2, Forall_singleton); try (by apply Hr).
      apply Forall_app_2; [by apply Hr|by apply Forall_singleton]. }
    by apply Hgo.
Qed.

Section tunes.
Context `{!DrainOrder, !DrainOrderLaws}.

Definition silence : Z → Z := λ _, 0.

Lemma balanced_element c vel env e st st' : 0 ≤ c < 16 → plays_on c vel env (pl_writer st) → chords_spelled e →
  play_element env e st = Some st' → balanced_player c st → balanced_player c st'.
Proof.
  intros Hc Hp Hs. destruct e as [| | | |p q l| | | | | | | | | | | |]; cbn [play_element]; try by intros [= <-].
  - by apply balanced_play_note with vel.
  - unfold play_chord. destruct (to_ticks _ _) as [t|] eqn:Et; [|done]. cbn. apply to_ticks_Some in Et as (_&_&Ht).
    destruct (take_graces _ _ _) as [[st1 left]|] eqn:Eg; [|done]. cbn. intros Hch Hb.
    eapply (balanced_chord c vel); [done| |exact Hs|exact Hch|].
    + apply (take_graces_spec c vel) in Eg as (Hw&_); [|done..]. by eapply plays_on_writes.
    + by eapply (balanced_take_graces c vel).
  - unfold play_rest. destruct (rest_multi_measure _); [destruct (checked_u32 _); [|done]|destruct (to_ticks _ _); [|done]];
      apply balanced_pause.
  - cbn in Hs. apply forallb_Forall_True in Hs. revert st Hp. induction Hs as [|e l He _ IH]; intros st Hp; cbn [steps]; [by intros [= <-]|].
    destruct (play_in_tuplet _ _ _ _ _) as [st1|] eqn:E; [|done]. cbn. intros Hst Hb. eapply IH; [|exact Hst|].
    + apply (in_tuplet_moves c vel) in E as [Hw _]; [|lia|done]. by eapply plays_on_writes.
    + eapply (balanced_in_tuplet c vel); [done..| |exact E|done]. by destruct e.
  - intros [= <-]. apply balanced_same; unfold inline_field; repeat case_bool_decide; try done; by destruct (inline_unit_length _).
Qed.

Lemma balanced_elements c vel env l : 0 ≤ c < 16 → Forall chords_spelled l → ∀ st st',
  plays_on c vel env (pl_writer st) → steps (play_element env) l st = Some st' → balanced_player c st → balanced_player c st'.
Proof.
  intros Hc. induction 1 as [|e l He _ IH]; intros st st' Hp; cbn [steps]; [by intros [= <-]|].
  destruct (play_element env e st) as [st1|] eqn:E; [|done]. cbn. intros Hst Hb. eapply IH; [|exact Hst|].
  - apply (play_element_moves c vel) in E as [Hw _]; [|done]. by eapply plays_on_writes.
  - by eapply balanced_element.
Qed.

Lemma count_notin ps q : q ∉ ps → count_pitch ps q = 0.
Proof.
  induction ps as [|p ps IH]; cbn; [done|]. intros [Hne Hn]%not_elem_of_cons. unfold count_pitch in IH. rewrite IH by done.
  unfold one. destruct (Z.eqb_spec p q); [by subst|done].
Qed.
Lemma count_nodup ps q : NoDup ps → q ∈ ps → count_pitch ps q = 1.
Proof.
  induction 1 as [|p ps Hp _ IH]; [by intros []%elem_of_nil|]. change (count_pitch (p :: ps) q) with (one p q + count_pitch ps q).
  intros [->|Hq]%elem_of_cons.
  - unfold one. by rewrite Z.eqb_refl, (count_notin ps p Hp).
  - rewrite IH by done. unfold one. destruct (Z.eqb_spec p q); [by subst|done].
Qed.

(** The keys of what is held, each once. *)
Lemma count_held (m : gmap Z Z) q : count_pitch (drain_order m) q = if m !! q then 1 else 0.
Proof.
  assert (NoDup (drain_order m)) as Hnd by (rewrite drain_order_perm; apply NoDup_fst_map_to_list).
  assert (q ∈ drain_order m ↔ is_Some (m !! q)) as Hin.
  { rewrite drain_order_perm, list_elem_of_fmap. split.
    - intros ([q' t]&->&Hq%elem_of_map_to_list). by exists t.
    - intros [t Ht]. exists (q, t). split; [done|]. by apply elem_of_map_to_list. }
  destruct (m !! q) as [t|] eqn:E; [apply count_nodup; [done|]; by apply Hin|]. apply count_notin. rewrite Hin. by intros [].
Qed.

Lemma unstrikes_all c vel env ps : ∀ w, plays_on c vel env w →
  foldl (λ w pitch, unstrike env pitch w) w ps = unstrikes c ps w.
Proof.
  induction ps as [|p ps IH]; intros w Hp; [done|]. cbn. rewrite unstrike_event with (c := c) (vel := vel) by done.
  apply IH. done.
Qed.

Lemma balanced_voice c vel env h v w w' : 0 ≤ c < 16 → plays_on c vel env w → Forall chords_spelled (voice_elements v) →
  play_voice env h v w = Some w' → balanced c w silence → balanced c w' silence.
Proof.
  intros Hc Hp Hs. unfold play_voice. destruct (steps _ _ _) as [st|] eqn:Es; [|done]. cbn. intros [= <-] Hb.
  pose proof Es as Hw. apply (steps_moves c vel env) in Hw as [Hw _]; [|by apply play_element_moves|done]. cbn in Hw.
  apply (balanced_elements c vel) in Es; [|done|by apply expand_Forall; [|apply flatten_slurs_spelled]|done|done].
  unfold release_held. erewrite unstrikes_all; [|by eapply plays_on_writes].
  unfold balanced_player, held_level in Es. eapply balanced_ext; [|apply (balanced_unstrikes c Hc); [exact Es|]].
  - intros q. cbn. rewrite count_held. unfold silence. destruct (_ !! q); lia.
  - intros q. cbn. rewrite count_held. lia.
Qed.

Lemma balanced_new c tpb ch : balanced c (writer_new tpb ch) silence.
Proof. split; [intros ? ? [|k] _; done|]. intros c' p _. by case_decide. Qed.

(** A message that is not of a note. *)
Lemma balanced_other c w data : 0 ≤ c < 16 → length data ≠ 3%nat → balanced c w silence → balanced c (channel_event data w) silence.
Proof.
  intros Hc Hd Hb. eapply balanced_event; [exact Hb|done|]. intros c' p _. unfold silence.
  destruct data as [|a [|b [|d [|e data]]]]; cbn in *; try done; by case_decide.
Qed.

Lemma balanced_tempo c h w : 0 ≤ c < 16 → balanced c w silence → balanced c (header_tempo_event h w) silence.
Proof.
  intros Hc Hb. unfold header_tempo_event, set_tempo, meta_event. by destruct (header_tempo h); apply balanced_other.
Qed.

Definition quiet (evs : list MidiEvent) : Prop :=
  released_in_turn evs ∧ ∀ c p, 0 ≤ c < 16 → level c p evs = 0.

Lemma balanced_quiet c w : balanced c w silence → quiet (mw_events w).
Proof. intros [Hr Hl]. split; [done|]. intros c' p Hc'. rewrite Hl by done. by case_decide. Qed.

Lemma land_15_range z : 0 ≤ Z.land z 15 < 16.
Proof. rewrite land_15. apply Z.mod_pos_bound. lia. Qed.

Lemma quiet_voices params h voices : Forall (λ v, Forall chords_spelled (voice_elements v)) voices → ∀ idx ws,
  voice_writers params h idx voices = Some ws → Forall (λ w, quiet (mw_events w)) ws.
Proof.
  induction 1 as [|v voices Hv _ IH]; intros idx ws; cbn [voice_writers]; [intros [= <-]; constructor|].
  destruct (is_silent v); [apply IH|]. destruct (voice_writer _ _ _ _) as [w|] eqn:Ew; [|done]. cbn.
  destruct (voice_writers _ _ _ _) as [ws'|] eqn:Es; [|done]. intros [= <-]. constructor; [|by eapply IH].
  pose proof (land_15_range (voice_channel idx)) as Hc. set (c := Z.land (voice_channel idx) 15) in *.
  apply (balanced_quiet c). unfold voice_writer in Ew.
  eapply (balanced_voice c (velocity params)); [done| |exact Hv|exact Ew|]; [by split_and!|].
  destruct (tune_program h params); [apply balanced_other; [done..|]|]; apply balanced_new.
Qed.

Lemma quiet_single params h c voices : Z.land (channel params) 15 = c →
  Forall (λ v, Forall chords_spelled (voice_elements v)) voices → ∀ w w',
  mw_channel w = c → balanced c w silence → play_voices params h voices w = Some w' → balanced c w' silence.
Proof.
  intros Hch. pose proof (land_15_range (channel params)) as Hc. rewrite Hch in Hc.
  induction 1 as [|v voices Hv _ IH]; intros w w' Hw Hb; cbn [play_voices]; [by intros [= <-]|].
  destruct (play_voice _ _ _ _) as [w1|] eqn:E; [|done]. cbn. apply IH.
  - apply (voice_writes c (velocity params)) in E; [|by split_and!]. by rewrite (writes_channel _ _ _ _ E).
  - eapply (balanced_voice c (velocity params)); [done| |exact Hv|exact E|done]. by split_and!.
Qed.

(** In every track of a tune, at every point of it, no note is released that does not
    sound, and at its end every note that was struck was released, by its pitch and
    channel: tied notes, grace notes, tuplets, repeats and changes of key included. It
    holds for tunes whose chords do not put an accidental on a letter after they used the
    letter without one. *)
Theorem notes_balanced (tune : Tune) (params : MidiParams) (tracks : list (list MidiEvent)) :
  Forall (λ v, Forall chords_spelled (voice_elements v)) (tune_voices tune) →
  tracks_of tune params = Some tracks →
  Forall (λ evs, (∀ c p k, 0 ≤ c < 16 → 0 ≤ level c p (take k evs)) ∧ ∀ c p, 0 ≤ c < 16 → level c p evs = 0) tracks.
Proof.
  intros Hs. unfold tracks_of. destruct (1 <? _)%nat.
  - destruct (voice_writers _ _ _ _) as [ws|] eqn:E; [|done]. intros [= <-]. apply quiet_voices in E; [|done].
    constructor; [apply (balanced_quiet 0); by apply balanced_tempo, balanced_new|]. by apply Forall_fmap.
  - destruct (build_single_track_writer _ _) as [w|] eqn:E; [|done]. intros [= <-]. apply Forall_singleton.
    pose proof (land_15_range (channel params)) as Hc. apply (balanced_quiet (Z.land (channel params) 15)).
    unfold build_single_track_writer in E. eapply quiet_single; [done|exact Hs| | |exact E].
    + by destruct (tune_program _ _); cbn; rewrite tempo_channel.
    + destruct (tune_program _ _); [apply balanced_other; [done..|]|]; by apply balanced_tempo, balanced_new.
Qed.
End tunes.

(** * Repeats are written out as they are played

    A grammar of scores with repeated passages, how each is written and how it is played,
    and the expansion of the one into the other. *)

(** An element that opens, closes or varies no repeat. *)
Definition plain (e : Element) : bool :=
  match e with
  | EBar (RepeatStart | RepeatEnd | RepeatBoth | FirstEnding | SecondEnding | NthEnding _) => false
  | _ => true
  end.
Abbreviation plain_all := (Forall (λ e, plain e = true)).

(** A passage played once, or a chain of passages each played twice: [|: l :: m1 :: m2 :|]. *)
Inductive Passage :=
  | Once (l : list Element)
  | Chain (l : list Element) (ms : list (list Element)).

Definition chain_written (l : list Element) (ms : list (list Element)) : list Element :=
  l ++ concat ((λ m, EBar RepeatBoth :: m) <$> ms) ++ [EBar RepeatEnd].
Definition chain_played (l : list Element) (ms : list (list Element)) : list Element :=
  l ++ EBar RepeatEnd :: l ++ concat ((λ m, EBar RepeatStart :: m ++ EBar RepeatEnd :: m) <$> ms).

Definition written (p : Passage) : list Element :=
  match p with Once l => l | Chain l ms => EBar RepeatStart :: chain_written l ms end.
Definition played (p : Passage) : list Element :=
  match p with Once l => l | Chain l ms => EBar RepeatStart :: chain_played l ms end.
Definition passage_plain (p : Passage) : Prop :=
  match p with Once l => plain_all l | Chain l ms => plain_all l ∧ Forall (λ m, plain_all m) ms end.

(** A score may open with a chain whose start is not marked; after it, a repeat that closes
    was opened. *)
Record Score := { opening : option (list Element * list (list Element)); passages : list Passage }.
Definition score_written (s : Score) : list Element :=
  match opening s with Some (l, ms) => chain_written l ms | None => [] end ++ concat (written <$> passages s).
Definition score_played (s : Score) : list Element :=
  match opening s with Some (l, ms) => chain_played l ms | None => [] end ++ concat (played <$> passages s).
Definition score_plain (s : Score) : Prop :=
  match opening s with Some (l, ms) => plain_all l ∧ Forall (λ m, plain_all m) ms | None => True end ∧
  Forall passage_plain (passages s).

(** ** Simple repeats *)

Lemma expand_plain l : ∀ r s, plain_all l → foldl expand_one (r, s) l = (r ++ l, s).
Proof.
  induction l as [|e l IH]; intros r s Hl; cbn [foldl]; [by rewrite app_nil_r|]. apply Forall_cons in Hl as [He Hl].
  replace (expand_one (r, s) e) with (r ++ [e], s); [rewrite IH by done; by rewrite <- app_assoc|].
  by destruct e as [| | |[]| | | | | | | | | | | | |].
Qed.

(** The part of what was written that a repeat plays again. *)
Definition again (r : list Element) (s : option nat) : list Element :=
  drop (match s with Some n => S n | None => 0%nat end) r.

Lemma repeat_back_again r s : repeat_back r s = r ++ EBar RepeatEnd :: again r s.
Proof. done. Qed.

Lemma again_start r l : again (r ++ EBar RepeatStart :: l) (Some (length r)) = l.
Proof. unfold again. rewrite drop_app_ge by lia. by replace (S (length r) - length r)%nat with 1%nat by lia. Qed.

Lemma expand_chain ms : ∀ r s l, Forall (λ m, plain_all m) ms → again r s = l →
  foldl expand_one (r, s) (concat ((λ m, EBar RepeatBoth :: m) <$> ms) ++ [EBar RepeatEnd]) =
    (r ++ EBar RepeatEnd :: l ++ concat ((λ m, EBar RepeatStart :: m ++ EBar RepeatEnd :: m) <$> ms), None).
Proof.
  induction ms as [|m ms IH]; intros r s l Hms Hl; cbn [fmap list_fmap concat].
  { cbn. rewrite repeat_back_again, Hl. by rewrite app_nil_r. }
  apply Forall_cons in Hms as [Hm Hms]. rewrite <- app_assoc, <- app_comm_cons. cbn [foldl expand_one].
  rewrite repeat_back_again, Hl, foldl_app, expand_plain by done.
  set (r' := r ++ EBar RepeatEnd :: l). rewrite (IH _ _ m); [|done|].
  - f_equal. unfold r'. rewrite <- !app_assoc. cbn. by rewrite <- !app_assoc.
  - rewrite <- app_assoc. cbn. apply again_start.
Qed.

Lemma expand_passage p r : passage_plain p → foldl expand_one (r, None) (written p) = (r ++ played p, None).
Proof.
  destruct p as [l|l ms]; cbn [passage_plain written played].
  - apply expand_plain.
  - intros [Hl Hms]. cbn [foldl expand_one]. unfold chain_written, chain_played. rewrite foldl_app, expand_plain by done.
    rewrite (expand_chain ms _ _ l); [|done|rewrite <- app_assoc; apply again_start]. f_equal.
    by rewrite <- !app_assoc.
Qed.

Lemma expand_passages ps : ∀ r, Forall passage_plain ps →
  foldl expand_one (r, None) (concat (written <$> ps)) = (r ++ concat (played <$> ps), None).
Proof.
  induction ps as [|p ps IH]; intros r Hps; cbn; [by rewrite app_nil_r|]. apply Forall_cons in Hps as [Hp Hps].
  by rewrite foldl_app, expand_passage, IH, <- app_assoc by done.
Qed.

(** ** Positions *)

Lemma position_none {A} (p : A → bool) l : Forall (λ x, p x = false) l → position p l = None.
Proof. induction 1 as [|x l Hx _ IH]; [done|]. cbn. by rewrite Hx, IH. Qed.
Lemma position_app {A} (p : A → bool) l x l' : Forall (λ x, p x = false) l → p x = true →
  position p (l ++ x :: l') = Some (length l).
Proof. induction 1 as [|y l Hy _ IH]; cbn; intros Hx; [by rewrite Hx|]. by rewrite Hy, IH. Qed.
Lemma position_from_app {A} (p : A → bool) k l x l' : Forall (λ x, p x = false) l → p x = true →
  position_from p (length k) (k ++ l ++ x :: l') = Some (length k + length l)%nat.
Proof. intros Hl Hx. unfold position_from. by rewrite drop_app_length, position_app. Qed.

Lemma not_plain_all (p : Element → bool) l : (∀ e, plain e = true → p e = false) → plain_all l → Forall (λ e, p e = false) l.
Proof. intros Hp Hl. eapply Forall_impl; [exact Hl|]. auto. Qed.
Lemma plain_not_marker e : plain e = true → is_repeat_end e || is_ending_marker e = false.
Proof. by destruct e as [| | |[]| | | | | | | | | | | | |]. Qed.
Lemma plain_not_ending e : plain e = true → is_ending_marker e = false.
Proof. by destruct e as [| | |[]| | | | | | | | | | | | |]. Qed.
Lemma plain_not_start e : plain e = true → is_repeat_start e = false.
Proof. by destruct e as [| | |[]| | | | | | | | | | | | |]. Qed.
Lemma plain_not_first e : plain e = true → is_first_ending e = false.
Proof. by destruct e as [| | |[]| | | | | | | | | | | | |]. Qed.

(** ** Variant endings *)

(** What opens the second ending: [:|2], [[2], or a bare [:|] and then one of them. *)
Inductive turn : list Element → Prop :=
  | turn_marker e : is_ending_marker e = true → turn [e]
  | turn_repeat gap e : plain_all gap → is_ending_marker e = true → turn (EBar RepeatEnd :: gap ++ [e]).

(** The rest of the tune: nothing, or another repeated section. *)
Definition next_section (l : list Element) : Prop := l = [] ∨ ∃ l', l = EBar RepeatStart :: l'.

Lemma turn_found k first t l : turn t → plain_all first →
  ∃ x, position_from (λ e, is_repeat_end e || is_ending_marker e) (length k) (k ++ first ++ t ++ l) = Some (length k + length first)%nat ∧
    (k ++ first ++ t ++ l) !! (length k + length first)%nat = Some x ∧
    (if is_ending_marker x then Some (length k + length first)%nat
     else position_from is_ending_marker (S (length k + length first)) (k ++ first ++ t ++ l)) =
      Some (length k + length first + pred (length t))%nat.
Proof.
  intros Ht Hf. assert (∀ x l', (k ++ first ++ x :: l') !! (length k + length first)%nat = Some x) as Hx.
  { intros x l'. rewrite app_assoc, <- length_app. by rewrite list_lookup_middle. }
  assert (∀ x l', is_repeat_end x || is_ending_marker x = true →
    position_from (λ e, is_repeat_end e || is_ending_marker e) (length k) (k ++ first ++ x :: l') = Some (length k + length first)%nat) as Hpos.
  { intros x l' He. apply position_from_app; [|done]. by apply (not_plain_all _ _ plain_not_marker). }
  destruct Ht as [e He|gap e Hgap He].
  - exists e. cbn [app length]. rewrite Hx, He, Hpos by (by rewrite He, orb_true_r). split_and!; try done. f_equal. lia.
  - exists (EBar RepeatEnd). cbn [app]. rewrite Hx, Hpos by done. split_and!; [done..|]. cbn [is_ending_marker].
    replace (S (length k + length first)) with (length (k ++ first ++ [EBar RepeatEnd])) by (rewrite !length_app; cbn; lia).
    replace (k ++ first ++ EBar RepeatEnd :: (gap ++ [e]) ++ l) with ((k ++ first ++ [EBar RepeatEnd]) ++ gap ++ e :: l)
      by (by rewrite <- !app_assoc).
    rewrite position_from_app; [|by apply (not_plain_all _ _ plain_not_ending)|done]. f_equal. rewrite !length_app. cbn. rewrite length_app. cbn. lia.
Qed.

Lemma next_found k second tail : plain_all second → next_section tail →
  default (length (k ++ second ++ tail)) (position_from is_repeat_start (length k) (k ++ second ++ tail)) =
    length (k ++ second).
Proof.
  intros Hs [->|[l' ->]].
  - unfold position_from. rewrite drop_app_length, position_none; [by rewrite app_nil_r|].
    apply Forall_app_2; [by apply (not_plain_all _ _ plain_not_start)|constructor].
  - rewrite position_from_app; [cbn [from_option id]; by rewrite length_app|by apply (not_plain_all _ _ plain_not_start)|done].
Qed.

(** Where the passage with endings begins: after the last start of a repeat, if there is one. *)
Inductive lead : list Element → Prop :=
  | lead_none : lead []
  | lead_start l : Forall (λ e, is_first_ending e = false) l → lead (l ++ [EBar RepeatStart]).

Lemma lead_found pre common : lead pre → plain_all common →
  default 0%nat (S <$> rposition is_repeat_start (pre ++ common)) = length pre ∧
  Forall (λ e, is_first_ending e = false) (pre ++ common).
Proof.
  intros Hp Hc. split.
  - unfold rposition. rewrite reverse_app. destruct Hp as [|l Hl].
    + rewrite reverse_nil, app_nil_r, position_none; [done|]. apply Forall_reverse. by apply (not_plain_all _ _ plain_not_start).
    + rewrite reverse_snoc, position_app; [|by apply Forall_reverse, (not_plain_all _ _ plain_not_start)|done].
      cbn. rewrite length_reverse, !length_app. cbn. lia.
  - apply Forall_app_2; [|by apply (not_plain_all _ _ plain_not_first)]. destruct Hp; [constructor|].
    by apply Forall_app_2, Forall_singleton.
Qed.

Lemma variant_endings pre common first t second tail : lead pre → plain_all common → plain_all first → turn t →
  plain_all second → next_section tail →
  expand_variant_endings (pre ++ common ++ EBar FirstEnding :: first ++ t ++ second ++ tail) =
    Some (pre ++ common ++ EBar BarSingle :: first ++ EBar BarSingle :: common ++ EBar BarSingle :: second ++ tail).
Proof.
  intros Hp Hc Hf Ht Hs Htail. destruct (lead_found pre common Hp Hc) as [Hstart Hnf].
  set (k := pre ++ common ++ [EBar FirstEnding]). set (whole := pre ++ _).
  assert (whole = k ++ first ++ t ++ second ++ tail) as Hw by (unfold whole, k; by rewrite <- !app_assoc).
  assert (length k = S (length (pre ++ common))) as Hk by (unfold k; rewrite !length_app; cbn; lia).
  unfold expand_variant_endings.
  assert (position is_first_ending whole = Some (length (pre ++ common))) as ->
    by (unfold whole; rewrite app_assoc; by apply position_app).
  cbn [mbind option_bind]. cbn zeta.
  assert (take (length (pre ++ common)) whole = pre ++ common) as -> by (unfold whole; rewrite app_assoc; apply take_app_length).
  rewrite Hstart, <- Hk. destruct (turn_found k first t (second ++ tail) Ht Hf) as (x&Hb&Hx&Hse). rewrite <- Hw in Hb, Hx, Hse.
  rewrite Hb. cbn [mbind option_bind]. rewrite Hx. cbn [mbind option_bind]. rewrite Hse. cbn [mbind option_bind].
  assert (S (length k + length first + pred (length t)) = length (k ++ first ++ t)) as Hkt.
  { rewrite !length_app. destruct Ht; cbn; lia. }
  rewrite Hkt. assert (whole = (k ++ first ++ t) ++ second ++ tail) as Hw2 by (rewrite Hw; by rewrite <- !app_assoc).
  rewrite Hw2, next_found by done. f_equal.
  assert (take (length pre) ((k ++ first ++ t) ++ second ++ tail) = pre) as ->
    by (rewrite <- Hw2; unfold whole; apply take_app_length).
  rewrite drop_app_length.
  assert (take (length k + length first) ((k ++ first ++ t) ++ second ++ tail) = k ++ first) as ->.
  { rewrite <- length_app. replace ((k ++ first ++ t) ++ second ++ tail) with ((k ++ first) ++ t ++ second ++ tail) by (by rewrite <- !app_assoc).
    apply take_app_length. }
  rewrite drop_app_length, (app_assoc (k ++ first ++ t) second tail), take_app_length, !drop_app_length.
  done.
Qed.

Lemma chain_no_first l ms : plain_all l → Forall (λ m, plain_all m) ms →
  Forall (λ e, is_first_ending e = false) (chain_written l ms).
Proof.
  intros Hl Hms. unfold chain_written. repeat apply Forall_app_2; [by apply (not_plain_all _ _ plain_not_first)| |by repeat constructor].
  apply Forall_concat, Forall_fmap. eapply Forall_impl; [exact Hms|]. intros m Hm. cbn. constructor; [done|].
  by apply (not_plain_all _ _ plain_not_first).
Qed.
Lemma score_no_first s : score_plain s → Forall (λ e, is_first_ending e = false) (score_written s).
Proof.
  intros [Ho Hps]. unfold score_written.
  apply Forall_app_2; [destruct (opening s) as [[l ms]|]; [by apply chain_no_first; apply Ho|constructor]|].
  apply Forall_concat, Forall_fmap. eapply Forall_impl; [exact Hps|]. intros [l|l ms]; cbn.
  - apply (not_plain_all _ _ plain_not_first).
  - intros [? ?]. constructor; [done|]. by apply chain_no_first.
Qed.
Lemma no_first_expand l : Forall (λ e, is_first_ending e = false) l → expand_repeats l = (foldl expand_one ([], None) l).1.
Proof. intros H. unfold expand_repeats, expand_variant_endings. by rewrite position_none. Qed.

Lemma expand_score s : score_plain s → foldl expand_one ([], None) (score_written s) = (score_played s, None).
Proof.
  intros [Ho Hps]. unfold score_written, score_played. rewrite foldl_app.
  destruct (opening s) as [[l ms]|]; cbn [foldl]; [|by rewrite expand_passages].
  destruct Ho as [Hl Hms]. unfold chain_written, chain_played. rewrite foldl_app, expand_plain, (expand_chain ms _ _ l) by done.
  by rewrite expand_passages.
Qed.

(** C39: the expansion of a score whose repeats are closed in turn is the score as it is
    played: what is between [|:] and [:|] twice, the chains of [::] and an opening whose sign
    is left out included, the rest once. A repeat that closes after that without having been
    opened plays everything again from the start of the tune. Of a tune with first and
    second endings the first passage that has them becomes the common part and the first,
    then the common part and the second; what is before it and after it stays as it is
    written, repeat signs included. *)
Theorem repeats_written_out :
  (∀ s, score_plain s → expand_repeats (score_written s) = score_played s) ∧
  (∀ s l, score_plain s → plain_all l →
    expand_repeats (score_written s ++ l ++ [EBar RepeatEnd]) =
      score_played s ++ l ++ EBar RepeatEnd :: score_played s ++ l) ∧
  ∀ pre common first t second tail, lead pre → plain_all common → plain_all first → turn t →
    plain_all second → next_section tail →
    expand_repeats (pre ++ common ++ EBar FirstEnding :: first ++ t ++ second ++ tail) =
      pre ++ common ++ EBar BarSingle :: first ++ EBar BarSingle :: common ++ EBar BarSingle :: second ++ tail.
Proof.
  split; [|split; [|intros; unfold expand_repeats; by rewrite variant_endings]].
  - intros s Hs. rewrite no_first_expand by (by apply score_no_first). by rewrite expand_score.
  - intros s l Hs Hl. rewrite no_first_expand.
    + rewrite !foldl_app, expand_score, expand_plain by done. cbn. rewrite repeat_back_again. cbn. by rewrite <- app_assoc.
    + apply Forall_app_2; [by apply score_no_first|]. apply Forall_app_2; [by apply (not_plain_all _ _ plain_not_first)|].
      by repeat constructor.
Qed.
