(* ===== verification/Transpose.v ===== *)
(** * Keys and transposition ([kaijutsu-abc/src/lib.rs], [ast.rs], [midi.rs])

    What a key signature means for the letters of its scale, and what transposing a tune
    does to the pitches of its notes. *)

From S2P Require Import Prelude Text Abc Midi.

(** ** Transposition *)

Definition transpose_note (semitones : Z) (n : Note) : Note :=
  let base := to_semitone (note_pitch n) in
  let acc_offset := default 0 (to_semitone_offset <$> note_accidental n) in
  let current_pitch := base + acc_offset + note_octave n * 12 in
  let new_pitch := current_pitch + semitones in
  let new_octave := wrap_i8 (new_pitch / 12) in
  let '(new_note, new_acc) := from_semitone (new_pitch mod 12) in
  n <| note_pitch := new_note |> <| note_accidental := new_acc |> <| note_octave := new_octave |>.

Fixpoint transpose_element (semitones : Z) (e : Element) : Element :=
  match e with
  | ENote n => ENote (transpose_note semitones n)
  | EChord c => EChord {| chord_notes := transpose_note semitones <$> chord_notes c; chord_duration := chord_duration c |}
  | ETuplet p q elements => ETuplet p q (map (transpose_element semitones) elements)
  | EGraceNotes a notes => EGraceNotes a (transpose_note semitones <$> notes)
  | ESlurGroup elements => ESlurGroup (map (transpose_element semitones) elements)
  | e => e
  end.

(** [None]: the key's semitone overflows an [i8]. *)
Definition transpose (tune : Tune) (semitones : Z) : option Tune :=
  let h := tune_header tune in
  let k := header_key h in
  let key_semitone := to_semitone (key_root k) + default 0 (to_semitone_offset <$> key_accidental k) in
  new_key_semitone ← checked_i8 (key_semitone + semitones);
  let '(new_root, new_acc) := from_semitone new_key_semitone in
  Some {|
    tune_header := h <| header_key := k <| key_root := new_root |> <| key_accidental := new_acc |> |>;
    tune_voices := (λ v, {| voice_id := voice_id v; voice_name := voice_name v;
                            voice_elements := transpose_element semitones <$> voice_elements v |}) <$> tune_voices tune |}.

(** ** Heights *)

(** Semitones above the C of octave 0, by the note's own accidental. *)
Definition height (n : Note) : Z :=
  to_semitone (note_pitch n) + default 0 (to_semitone_offset <$> note_accidental n) + note_octave n * 12.

Fixpoint element_notes (e : Element) : list Note :=
  match e with
  | ENote n => [n]
  | EChord c => chord_notes c
  | ETuplet _ _ l => flat_map element_notes l
  | EGraceNotes _ notes => notes
  | ESlurGroup l => flat_map element_notes l
  | _ => []
  end.
Definition tune_notes (t : Tune) : list Note := v ← tune_voices t; e ← voice_elements v; element_notes e.

Definition tonic (k : Key) : Z := to_semitone (key_root k) + default 0 (to_semitone_offset <$> key_accidental k).

(** A spelled semitone is the semitone. *)
Lemma from_semitone_spec z : let '(n, a) := from_semitone z in
  to_semitone n + default 0 (to_semitone_offset <$> a) = z mod 12 ∧ (a = None ∨ a = Some Sharp).
Proof.
  unfold from_semitone. pose proof (Z.mod_pos_bound z 12 ltac:(lia)) as Hb.
  assert (z mod 12 = 0 ∨ z mod 12 = 1 ∨ z mod 12 = 2 ∨ z mod 12 = 3 ∨ z mod 12 = 4 ∨ z mod 12 = 5 ∨ z mod 12 = 6 ∨
    z mod 12 = 7 ∨ z mod 12 = 8 ∨ z mod 12 = 9 ∨ z mod 12 = 10 ∨ z mod 12 = 11) as Hz by lia.
  destruct Hz as [->|[->|[->|[->|[->|[->|[->|[->|[->|[->|[->| ->]]]]]]]]]]]; cbn; auto.
Qed.

Lemma wrap_i8_id z : -128 ≤ z ≤ 127 → wrap_i8 z = z.
Proof. intros Hz. unfold wrap_i8. rewrite Z.mod_small; lia. Qed.

(** Where the octave of a transposed note is not cut. *)
Definition in_reach (s : Z) (n : Note) : Prop := -1536 ≤ height n + s < 1536.

Lemma transpose_note_height s n : in_reach s n → height (transpose_note s n) = height n + s.
Proof.
  unfold in_reach. intros Hr. unfold transpose_note. cbn zeta. fold (height n).
  pose proof (from_semitone_spec ((height n + s) mod 12)) as Hs. destruct (from_semitone _) as [m a]. destruct Hs as [Hs _].
  unfold height at 1. cbn. rewrite Hs, Z.mod_mod by lia. rewrite wrap_i8_id by (Z.div_mod_to_equations; lia).
  pose proof (Z.div_mod (height n + s) 12 ltac:(lia)). lia.
Qed.

Lemma transpose_note_again s t n : in_reach s n → transpose_note t (transpose_note s n) = transpose_note (s + t) n.
Proof.
  intros Hr. pose proof (transpose_note_height s n Hr) as Hh. unfold transpose_note at 1 3. cbn zeta.
  fold (height (transpose_note s n)) (height n). rewrite Hh. replace (height n + s + t) with (height n + (s + t)) by lia.
  destruct (from_semitone ((height n + (s + t)) mod 12)) as [m a]. unfold transpose_note. cbn zeta.
  destruct (from_semitone _). by destruct n.
Qed.

Lemma element_notes_transpose s e : element_notes (transpose_element s e) = transpose_note s <$> element_notes e.
Proof.
  assert (∀ l, Forall (λ e, element_notes (transpose_element s e) = transpose_note s <$> element_notes e) l →
    flat_map element_notes (map (transpose_element s) l) = transpose_note s <$> flat_map element_notes l) as Hl.
  { induction 1 as [|x l Hx _ IH]; [done|]. cbn. by rewrite Hx, IH, fmap_app. }
  induction e as [p q l IH|l IH|e He] using element_nested_ind; cbn; [by apply Hl|by apply Hl|]. by destruct e.
Qed.

Lemma transposed_notes s h h' vs :
  tune_notes {| tune_header := h; tune_voices := (λ v, {| voice_id := voice_id v; voice_name := voice_name v;
                    voice_elements := transpose_element s <$> voice_elements v |}) <$> vs |} =
    transpose_note s <$> tune_notes {| tune_header := h'; tune_voices := vs |}.
Proof.
  unfold tune_notes. cbn [tune_voices]. induction vs as [|v vs IH]; [done|].
  cbn [fmap list_fmap mbind list_bind]. rewrite fmap_app, <- IH. f_equal. cbn [voice_elements].
  clear. induction (voice_elements v) as [|e l IH]; [done|]. cbn [fmap list_fmap mbind list_bind].
  by rewrite fmap_app, <- IH, element_notes_transpose.
Qed.

Lemma pitch_plain n s : -15 ≤ note_octave n ≤ 5 →
  midi_pitch_with_accidental (note_pitch n) (note_octave n) s =
    Some (clamp7 (60 + to_semitone (note_pitch n) + default 0 (to_semitone_offset <$> s) + note_octave n * 12)).
Proof.
  intros Ho. unfold midi_pitch_with_accidental, checked_i8.
  rewrite (proj2 (Z.leb_le _ _)), (proj2 (Z.leb_le _ 127)) by lia. cbn [andb mbind option_bind].
  rewrite (proj2 (Z.leb_le _ _)), (proj2 (Z.leb_le _ 127)) by lia. cbn [andb mbind option_bind]. do 2 f_equal. lia.
Qed.

(** Transposing a tune moves every note by as many semitones, in chords, tuplets, grace
    notes and slurs too, as long as its octave fits; it moves the tonic of the key and
    keeps its mode; it fails exactly when the semitone of the key overflows; transposing
    twice is transposing once; and where no accidental is in force the note sounds as many
    semitones away, within the range of MIDI. *)
Theorem transpose_shifts (tune : Tune) (s : Z) : Forall (in_reach s) (tune_notes tune) →
  (transpose tune s = None ↔ ¬ -128 ≤ tonic (header_key (tune_header tune)) + s ≤ 127) ∧
  ∀ tune', transpose tune s = Some tune' →
    tune_notes tune' = transpose_note s <$> tune_notes tune ∧
    height <$> tune_notes tune' = (λ h, h + s) <$> (height <$> tune_notes tune) ∧
    tonic (header_key (tune_header tune')) = (tonic (header_key (tune_header tune)) + s) mod 12 ∧
    key_mode (header_key (tune_header tune')) = key_mode (header_key (tune_header tune)) ∧
    (∀ t n, n ∈ tune_notes tune → transpose_note t (transpose_note s n) = transpose_note (s + t) n) ∧
    ∀ n, n ∈ tune_notes tune → -15 ≤ note_octave (transpose_note s n) ≤ 5 →
      note_to_midi_pitch (transpose_note s n) ∅ = Some (clamp7 (60 + height n + s)).
Proof.
  intros Hr. rewrite Forall_forall in Hr. unfold transpose. cbn zeta. fold (tonic (header_key (tune_header tune))).
  set (k := header_key (tune_header tune)). unfold checked_i8.
  destruct (Z.leb_spec (-128) (tonic k + s)), (Z.leb_spec (tonic k + s) 127); cbn [andb mbind option_bind]; try (split; [split; [intros _; lia|done]|done]).
  pose proof (from_semitone_spec (tonic k + s)) as Hsp. destruct (from_semitone (tonic k + s)) as [root acc]. destruct Hsp as [Hsp _].
  split; [split; [done|lia]|]. intros tune' [= <-].
  rewrite (transposed_notes s _ (tune_header tune)).
  replace {| tune_header := tune_header tune; tune_voices := tune_voices tune |} with tune by (by destruct tune).
  split_and!; [done| |exact Hsp|done| |].
  - rewrite <- !list_fmap_compose. apply list_fmap_ext. intros i n Hi. cbn. apply transpose_note_height, Hr. by eapply list_elem_of_lookup_2.
  - intros t n Hin. by apply transpose_note_again, Hr.
  - intros n Hin Ho. unfold note_to_midi_pitch, effective_accidental. rewrite lookup_empty.
    replace (match note_accidental (transpose_note s n) with Some a => Some a | None => None end) with (note_accidental (transpose_note s n))
      by (by destruct (note_accidental _)).
    rewrite pitch_plain by done. do 2 f_equal. rewrite <- Z.add_assoc, <- Z.add_assoc.
    pose proof (transpose_note_height s n (Hr n Hin)) as Hh. unfold height at 1 in Hh. lia.
Qed.

(** ** Signatures *)

(** The scale of a mode, in semitones above its tonic. *)
Definition mode_steps (m : Mode) : list Z :=
  match m with
  | Major | Ionian => [0; 2; 4; 5; 7; 9; 11]
  | Minor | Aeolian => [0; 2; 3; 5; 7; 8; 10]
  | Dorian => [0; 2; 3; 5; 7; 9; 10]
  | Phrygian => [0; 1; 3; 5; 7; 8; 10]
  | Lydian => [0; 2; 4; 6; 7; 9; 11]
  | Mixolydian => [0; 2; 4; 5; 7; 9; 10]
  | Locrian => [0; 1; 3; 5; 6; 8; 10]
  end.

(** The letter [i] steps above another. *)
Definition letter_up (n : NoteName) (i : nat) : NoteName :=
  let at_letter := default 0%nat (position (λ m, bool_decide (m = n)) all_notes) in
  default NoteC (all_notes !! ((at_letter + i) mod 7)%nat).

(** The pitch class a letter has under the accidentals of a key. *)
Definition sounding_class (acc : Accidentals) (n : NoteName) : Z :=
  (to_semitone n + default 0 (to_semitone_offset <$> acc !! n)) mod 12.

Definition scale_ok (k : Key) : bool :=
  forallb (λ i, sounding_class (compute_key_accidentals k) (letter_up (key_root k) i) =?
                (tonic k + default 0 (mode_steps (key_mode k) !! i)) mod 12) (List.seq 0 7).

Lemma scales_ok r a m :
  let k := key_default <| key_root := r |> <| key_accidental := a |> <| key_mode := m |> in
  (signature k).1 ≤ 7 → scale_ok k = true.
Proof.
  intros k Hs. assert (((signature k).1 <=? 7) = true → scale_ok k = true) as Hk; [|by apply Hk, Z.leb_le].
  clear Hs. subst k. destruct r, a as [[]|], m; vm_compute; intros E; first [reflexivity|discriminate E].
Qed.

Lemma explicit_last l : ∀ (acc : Accidentals) n,
  foldl (λ m (x : Accidental * NoteName), <[x.2 := x.1]> m) acc l !! n =
    match list_find (λ x, x.2 = n) (reverse l) with Some (_, x) => Some x.1 | None => acc !! n end.
Proof.
  induction l as [|x l IH] using rev_ind; intros acc n; [done|]. rewrite foldl_snoc, reverse_snoc. cbn.
  destruct (decide (x.2 = n)) as [->|Hne]; [by rewrite lookup_insert_eq|]. rewrite lookup_insert_ne, IH by done.
  by destruct (list_find _ _) as [[]|].
Qed.

(** Under a key of at most seven accidentals the seven letters from its root up are the
    scale of its mode on its tonic, whatever the root, its accidental and the mode; the
    accidentals that the key spells out override it letter by letter, the last one of a
    letter; and a note without an accidental of its own sounds in every octave by it. *)
Theorem signature_diatonic (k : Key) : (signature k).1 ≤ 7 →
  (key_explicit k = [] → ∀ i : nat, (i < 7)%nat →
     sounding_class (compute_key_accidentals k) (letter_up (key_root k) i) =
       (tonic k + default 0 (mode_steps (key_mode k) !! i)) mod 12) ∧
  (∀ n, compute_key_accidentals k !! n =
     match list_find (λ x, x.2 = n) (reverse (key_explicit k)) with
     | Some (_, x) => Some x.1
     | None => compute_key_accidentals (k <| key_explicit := [] |>) !! n
     end) ∧
  ∀ n, note_accidental n = None → -15 ≤ note_octave n ≤ 5 →
    ∃ z, note_to_midi_pitch n (compute_key_accidentals k) = Some (clamp7 z) ∧
      z mod 12 = sounding_class (compute_key_accidentals k) (note_pitch n).
Proof.
  intros Hs. split_and!.
  - intros He i Hi. pose proof (scales_ok (key_root k) (key_accidental k) (key_mode k) Hs) as Hk.
    unfold scale_ok in Hk. rewrite forallb_forall in Hk. specialize (Hk i). rewrite Z.eqb_eq in Hk.
    unfold compute_key_accidentals in *. rewrite He. apply Hk. apply in_seq. lia.
  - intros n. unfold compute_key_accidentals. change (signature (k <| key_explicit := [] |>)) with (signature k).
    destruct (signature k) as [count is_sharp]. cbn zeta. rewrite explicit_last. by destruct (list_find _ _) as [[]|].
  - intros n Ha Ho. unfold note_to_midi_pitch, effective_accidental. rewrite Ha, pitch_plain by done. eexists. split; [done|].
    unfold sounding_class. replace (match compute_key_accidentals k !! note_pitch n with Some a => Some a | None => None end)
      with (compute_key_accidentals k !! note_pitch n) by (by destruct (_ !! note_pitch n)).
    rewrite Z.mod_add by lia. rewrite <- Z.add_assoc. change 60 with (5 * 12). rewrite Z.add_comm, Z.mod_add by lia. done.
Qed.
