(* ===== verification/MidiTotal.v ===== *)
(** * Generation does not overflow

    A bound on the ticks of a tune within which the generator always returns. *)

From S2P Require Import Prelude Text Abc Midi MidiPlay MidiSteps MidiFile MidiNotes Transpose.

Section total.
Context `{!DrainOrder}.
(** The most ticks a unit note can have. *)
Variable tpb : Z.
Hypothesis Htpb : 0 ≤ tpb.
Definition unit_bound : Z := tpb * 4 * 255.

(** ** What an element may cost *)

Definition in_octaves (n : Note) : bool := (-15 <=? note_octave n) && (note_octave n <=? 5).
Definition duration_ok (d : Duration) : bool := 0 <=? dur_numerator d.
Definition duration_cost (d : Duration) : Z := unit_bound * dur_numerator d.

Definition rest_ok (r : Rest) : bool :=
  match rest_multi_measure r with Some bars => 0 <=? bars | None => duration_ok (rest_duration r) end.
Definition rest_cost (r : Rest) : Z :=
  match rest_multi_measure r with Some bars => unit_bound * bars | None => duration_cost (rest_duration r) end.

(** An element in a tuplet in the time of [q]. *)
Definition inner_ok (e : Element) : bool :=
  match e with
  | ENote n => in_octaves n && duration_ok (note_duration n)
  | EChord c => forallb in_octaves (chord_notes c) && duration_ok (chord_duration c)
  | ERest r => duration_ok (rest_duration r)
  | _ => true
  end.
Definition inner_cost (q : Z) (e : Element) : Z :=
  match e with
  | ENote n => duration_cost (note_duration n) * q
  | EChord c => duration_cost (chord_duration c) * q
  | ERest r => duration_cost (rest_duration r) * q
  | _ => 0
  end.

Definition element_ok (e : Element) : bool :=
  match e with
  | ERest r => rest_ok r
  | ETuplet _ q l => (1 <=? q) && forallb inner_ok l
  | EGraceNotes _ notes => forallb in_octaves notes
  | e => inner_ok e
  end.
Definition sum_cost {A} (f : A → Z) (l : list A) : Z := foldr (λ x n, f x + n) 0 l.
Definition element_cost (e : Element) : Z :=
  match e with
  | ERest r => rest_cost r
  | ETuplet _ q l => sum_cost (inner_cost q) l
  | EGraceNotes _ notes => Z.of_nat (length notes)
  | e => inner_cost 1 e
  end.

Lemma unit_bound_pos : 0 ≤ unit_bound.
Proof. unfold unit_bound. lia. Qed.

(** ** Operations within the bound *)

Lemma advance_total t w : 0 ≤ mw_current_tick w → 0 ≤ t → mw_current_tick w + t ≤ u32_max →
  advance t w = Some (w <| mw_current_tick := mw_current_tick w + t |>).
Proof. intros Hw Ht Hle. unfold advance. by rewrite (proj2 (checked_u32_Some _ (mw_current_tick w + t))) by (split; [done|lia]). Qed.

Lemma to_ticks_total d u : 0 ≤ u ≤ unit_bound → duration_ok d → duration_cost d ≤ u32_max →
  ∃ t, to_ticks d u = Some t ∧ 0 ≤ t ≤ duration_cost d.
Proof.
  unfold duration_ok, duration_cost. intros Hu Hd%Is_true_true%Z.leb_le Hle.
  assert (0 ≤ u * dur_numerator d ≤ unit_bound * dur_numerator d) by nia.
  unfold to_ticks. rewrite (proj2 (checked_u32_Some _ (u * dur_numerator d))) by (split; [done|lia]). cbn.
  eexists. split; [done|]. split; [apply Z.div_pos; lia|].
  etrans; [apply Z.div_le_upper_bound with (q := u * dur_numerator d); [lia|nia]|]. lia.
Qed.

Lemma tuplet_total d q p u : 0 ≤ u ≤ unit_bound → 1 ≤ q → 1 ≤ p → duration_ok d → duration_cost d * q ≤ u32_max →
  ∃ t, tuplet_ticks d q p u = Some t ∧ 0 ≤ t ≤ duration_cost d * q.
Proof.
  intros Hu Hq Hp Hd Hle. pose proof unit_bound_pos. assert (0 ≤ duration_cost d) as Hc.
  { unfold duration_ok in Hd. apply Is_true_true, Z.leb_le in Hd. unfold duration_cost. nia. }
  destruct (to_ticks_total d u Hu Hd) as (t&Ht&Htr); [nia|]. unfold tuplet_ticks. rewrite Ht. cbn.
  rewrite (proj2 (checked_u32_Some _ (t * q))) by (split; [done|nia]). cbn. eexists. split; [done|].
  split; [apply Z.div_pos; nia|]. etrans; [apply Z.div_le_upper_bound with (q := t * q); [lia|nia]|]. nia.
Qed.

Lemma pitch_total n acc : in_octaves n → is_Some (midi_pitch_with_accidental (note_pitch n) (note_octave n) acc).
Proof. unfold in_octaves. intros [Ha Hb]%andb_True. apply Is_true_true, Z.leb_le in Ha, Hb. rewrite pitch_plain by lia. by eexists. Qed.

Section env.
Variable env : VoiceEnv.
Hypothesis Henv : ve_ticks_per_beat env = tpb.

Lemma now_strike p w : mw_current_tick (strike env p w) = mw_current_tick w.
Proof. unfold strike. by destruct (ve_channel env). Qed.
Lemma now_unstrike p w : mw_current_tick (unstrike env p w) = mw_current_tick w.
Proof. unfold unstrike. by destruct (ve_channel env). Qed.

Lemma sound_total p t w : 0 ≤ mw_current_tick w → 0 ≤ t → mw_current_tick w + t ≤ u32_max →
  ∃ w', sound env p t w = Some w' ∧ mw_current_tick w' = mw_current_tick w + t.
Proof.
  intros. unfold sound, note, note_channel. destruct (ve_channel env); rewrite advance_total by done; by eexists.
Qed.

Lemma graces_total graces each bar : 0 ≤ each → forallb in_octaves graces → ∀ w, 0 ≤ mw_current_tick w →
  mw_current_tick w + Z.of_nat (length graces) * each ≤ u32_max →
  ∃ w', play_graces env graces each bar w = Some w' ∧
    mw_current_tick w' = mw_current_tick w + Z.of_nat (length graces) * each.
Proof.
  intros He. induction graces as [|g graces IH]; intros Ho w Hw Hle; cbn [play_graces].
  { exists w. split; [done|]. cbn. lia. }
  cbn [forallb] in Ho. apply andb_True in Ho as [Hg Ho]. cbn [length] in *. rewrite Nat2Z.inj_succ in *.
  destruct (pitch_total g (effective_accidental (note_pitch g) (note_accidental g) bar None) Hg) as [base Hb].
  unfold note_to_midi_pitch. rewrite Hb. cbn. unfold note_channel. rewrite advance_total by (cbn; nia). cbn.
  match goal with |- ∃ _, play_graces _ _ _ _ ?w1 = _ ∧ _ => destruct (IH Ho w1) as (w'&->&Hw'); [cbn; nia..|] end.
  exists w'. split; [done|]. rewrite Hw'. cbn. lia.
Qed.

(** Grace notes take no more than half of the note, or a tick each. *)
Lemma grace_bound count main unit : 0 < count → 0 ≤ main →
  grace_ticks count main unit * count ≤ Z.max (main / 2) count.
Proof.
  intros Hc Hm. unfold grace_ticks. cbn zeta. set (total := Z.min _ (main / 2)).
  assert (total ≤ main / 2) by lia. pose proof (Z.mul_div_le total count Hc). nia.
Qed.

Definition now (st : Player) : Z := mw_current_tick (pl_writer st).

Lemma take_graces_total t st : 0 ≤ t → 0 ≤ now st → forallb in_octaves (pl_pending_grace st) →
  now st + t + Z.of_nat (length (pl_pending_grace st)) ≤ u32_max →
  ∃ st' left, take_graces env t st = Some (st', left) ∧ now st ≤ now st' ∧ 0 ≤ left ∧
    now st' + left ≤ now st + t + Z.of_nat (length (pl_pending_grace st)) ∧ pl_pending_grace st' = [] ∧
    pl_held_notes st' = pl_held_notes st ∧ pl_unit_ticks st' = pl_unit_ticks st ∧ pl_cur_meter st' = pl_cur_meter st.
Proof.
  intros Ht Hn Ho Hle. unfold take_graces. case_bool_decide as Hp.
  { exists st, t. rewrite Hp in *. cbn in *. split_and!; try done; lia. }
  unfold play_grace_run. set (count := Z.of_nat (length (pl_pending_grace st))) in *.
  assert (0 < count) as Hc by (unfold count; destruct (pl_pending_grace st); [done|cbn; lia]).
  rewrite (proj2 (Z.eqb_neq count 0)) by lia. cbn zeta. set (each := grace_ticks count t (pl_unit_ticks st)).
  assert (1 ≤ each) as He by (unfold each, grace_ticks; lia).
  pose proof (grace_bound count t (pl_unit_ticks st) Hc Ht) as Hb. fold each in Hb.
  assert (0 ≤ t / 2 ≤ t) by (Z.div_mod_to_equations; lia). unfold now in *.
  destruct (graces_total (pl_pending_grace st) each (pl_bar_accidentals st)) with (pl_writer st) as (w&->&Hw); [lia|done|done|fold count; lia|].
  cbn [mbind option_bind]. fold count in Hw. rewrite (proj2 (checked_u32_Some _ (each * count))) by (split; [done|nia]). cbn [mbind option_bind].
  do 2 eexists. split; [done|]. cbn. unfold sat_sub. rewrite Hw. split_and!; try done; lia.
Qed.

(** ** The loop within a budget *)

Definition meter_ok (m : option Meter) : Prop := 0 ≤ (default (4, 4) (to_fraction <$> m)).1 ≤ 255.

Record within (budget : Z) (st : Player) : Prop := {
  in_now : 0 ≤ now st;
  in_budget : now st + Z.of_nat (length (pl_pending_grace st)) ≤ budget;
  in_unit : 0 ≤ pl_unit_ticks st ≤ unit_bound;
  in_meter : meter_ok (pl_cur_meter st);
  in_pending : forallb in_octaves (pl_pending_grace st);
  in_held : ∀ p t, pl_held_notes st !! p = Some t → 0 ≤ t ≤ now st;
}.

Lemma within_weaken b b' st : b ≤ b' → within b st → within b' st.
Proof. intros Hb []. split; try done. lia. Qed.

Lemma hold_total tie p t st : 0 ≤ now st → 0 ≤ t → now st + t ≤ u32_max →
  (∀ p t, pl_held_notes st !! p = Some t → 0 ≤ t ≤ now st) →
  ∃ st', hold_or_sound env tie p t st = Some st' ∧ now st' = now st + t ∧
    (∀ p t, pl_held_notes st' !! p = Some t → 0 ≤ t ≤ now st') ∧ pl_pending_grace st' = pl_pending_grace st ∧
    pl_unit_ticks st' = pl_unit_ticks st ∧ pl_cur_meter st' = pl_cur_meter st.
Proof.
  unfold now. intros Hn Ht Hle Hh. unfold hold_or_sound.
  assert (∀ q u, pl_held_notes st !! q = Some u → 0 ≤ u ≤ mw_current_tick (pl_writer st) + t) as Hh'.
  { intros q u Hq. specialize (Hh q u Hq). lia. }
  destruct (pl_held_notes st !! p) as [held|] eqn:E.
  - cbn zeta. cbn [pl_writer set_field]. rewrite advance_total by done. cbn [mbind option_bind].
    specialize (Hh p held E). destruct tie.
    + rewrite (proj2 (checked_u32_Some _ (held + t))) by (split; [done|lia]). cbn. eexists. split; [done|]. cbn. split_and!; try done.
      intros q u [[<- <-]|[_ [_ ?]%lookup_delete_Some]]%lookup_insert_Some; [lia|eauto].
    + eexists. split; [done|]. cbn. rewrite now_unstrike. split_and!; try done. intros q u [_ ?]%lookup_delete_Some. cbn. eauto.
  - destruct tie.
    + rewrite advance_total by (rewrite ?now_strike; done). cbn. rewrite now_strike. eexists. split; [done|]. cbn. split_and!; try done.
      intros q u [[<- <-]|[_ ?]]%lookup_insert_Some; [lia|eauto].
    + destruct (sound_total p t (pl_writer st)) as (w&->&Hw); [done..|]. cbn. eexists. split; [done|]. cbn. rewrite Hw.
      split_and!; try done.
Qed.

Lemma strike_all_total notes : forallb in_octaves notes → ∀ bar w,
  ∃ bar' w', strike_all env notes bar w = Some (bar', w') ∧ mw_current_tick w' = mw_current_tick w.
Proof.
  induction notes as [|n notes IH]; intros Ho bar w; cbn [strike_all]; [by do 2 eexists|].
  cbn in Ho. apply andb_True in Ho as [Hn Ho]. unfold note_to_midi_pitch.
  destruct (pitch_total n (effective_accidental (note_pitch n) (note_accidental n) bar None) Hn) as [base ->]. cbn.
  destruct (IH Ho (own_accidental n bar) (strike env (apply_pitch_offset base (ve_pitch_offset env)) w)) as (bar'&w'&->&Hw).
  do 2 eexists. split; [done|]. by rewrite Hw, now_strike.
Qed.

Lemma unstrike_all_total notes bar : forallb in_octaves notes → ∀ w,
  ∃ w', unstrike_all env notes bar w = Some w' ∧ mw_current_tick w' = mw_current_tick w.
Proof.
  induction notes as [|n notes IH]; intros Ho w; cbn [unstrike_all]; [by eexists|].
  cbn in Ho. apply andb_True in Ho as [Hn Ho]. unfold note_to_midi_pitch.
  destruct (pitch_total n (effective_accidental (note_pitch n) (note_accidental n) bar None) Hn) as [base ->]. cbn.
  destruct (IH Ho (unstrike env (apply_pitch_offset base (ve_pitch_offset env)) w)) as (w'&->&Hw).
  eexists. split; [done|]. by rewrite Hw, now_unstrike.
Qed.

Lemma chord_total notes t st : forallb in_octaves notes → 0 ≤ now st → 0 ≤ t → now st + t ≤ u32_max →
  ∃ st', sound_chord env notes t st = Some st' ∧ now st' = now st + t ∧ pl_held_notes st' = pl_held_notes st ∧
    pl_pending_grace st' = pl_pending_grace st ∧ pl_unit_ticks st' = pl_unit_ticks st ∧ pl_cur_meter st' = pl_cur_meter st.
Proof.
  unfold now. intros Ho Hn Ht Hle. unfold sound_chord.
  destruct (strike_all_total notes Ho (pl_bar_accidentals st) (pl_writer st)) as (bar&w&->&Hw). cbn [mbind option_bind].
  rewrite advance_total by (rewrite ?Hw; done). cbn [mbind option_bind].
  destruct (unstrike_all_total notes bar Ho (w <| mw_current_tick := mw_current_tick w + t |>)) as (w'&->&Hw'). cbn [mbind option_bind].
  eexists. split; [done|]. cbn. rewrite Hw'. cbn. rewrite Hw. by split_and!.
Qed.

Lemma sum_cost_nonneg {A} (f : A → Z) l : Forall (λ x, 0 ≤ f x) l → 0 ≤ sum_cost f l.
Proof. induction 1 as [|x l Hx _ IH]; cbn; [lia|]. unfold sum_cost in IH. lia. Qed.

Lemma duration_cost_pos d : duration_ok d → 0 ≤ duration_cost d.
Proof. unfold duration_ok, duration_cost. intros Hd%Is_true_true%Z.leb_le. pose proof unit_bound_pos. nia. Qed.

Lemma inner_cost_pos q e : 0 ≤ q → inner_ok e → 0 ≤ inner_cost q e.
Proof.
  intros Hq. destruct e; cbn; try done; [intros [_ Hd]%andb_True|intros [_ Hd]%andb_True|intros Hd];
    apply duration_cost_pos in Hd; nia.
Qed.

Lemma inner_costs_pos q l : 0 ≤ q → forallb inner_ok l → Forall (λ e, 0 ≤ inner_cost q e) l.
Proof.
  intros Hq. induction l as [|e l IH]; cbn; [by constructor|]. intros [? ?]%andb_True. constructor; [by apply inner_cost_pos|auto].
Qed.

Lemma element_cost_pos e : element_ok e → 0 ≤ element_cost e.
Proof.
  destruct e as [| |r| |p q l| | | | | | | | | | | |]; cbn -[inner_ok inner_cost]; try (apply inner_cost_pos; lia); try done; intros Hok.
  - unfold rest_ok, rest_cost in *. destruct (rest_multi_measure r) as [bars|]; [|by apply duration_cost_pos].
    apply Is_true_true, Z.leb_le in Hok. pose proof unit_bound_pos. nia.
  - apply andb_True in Hok as [Hq Hl]. apply Is_true_true, Z.leb_le in Hq. apply sum_cost_nonneg, inner_costs_pos; [lia|done].
  - lia.
Qed.

(** What moves time and nothing else. *)
Lemma within_moved b b' st st' : within b st → now st ≤ now st' → now st' + Z.of_nat (length (pl_pending_grace st)) ≤ b' →
  pl_held_notes st' = pl_held_notes st → pl_pending_grace st' = pl_pending_grace st →
  pl_unit_ticks st' = pl_unit_ticks st → pl_cur_meter st' = pl_cur_meter st → within b' st'.
Proof.
  intros [Hn Hb Hu Hm Hp Hh] Hle Hb' Eh Ep Eu Em. split; rewrite ?Eh, ?Ep, ?Eu, ?Em; try done; [lia|].
  intros p t Hpt. specialize (Hh p t Hpt). lia.
Qed.

Lemma pause_within b c t st : within b st → 0 ≤ t ≤ c → b + c ≤ u32_max →
  ∃ st', pause t st = Some st' ∧ within (b + c) st'.
Proof.
  intros Hw Ht Hle. pose proof (in_now _ _ Hw). pose proof (in_budget _ _ Hw). unfold now in *. unfold pause.
  rewrite advance_total by lia. cbn. eexists. split; [done|]. eapply within_moved; [exact Hw|..]; try done; unfold now; cbn; lia.
Qed.

Lemma chord_within b c notes t st : within b st → forallb in_octaves notes → 0 ≤ t ≤ c → b + c ≤ u32_max →
  ∃ st', sound_chord env notes t st = Some st' ∧ within (b + c) st'.
Proof.
  intros Hw Ho Ht Hle. pose proof (in_now _ _ Hw). pose proof (in_budget _ _ Hw).
  destruct (chord_total notes t st Ho) as (st'&->&Hn&Hh&Hp&Hu&Hm); [lia..|]. eexists. split; [done|].
  eapply within_moved; [exact Hw|..]; try done; lia.
Qed.

Lemma inner_total q p e b st : 1 ≤ q → 1 ≤ p → inner_ok e → within b st → b + inner_cost q e ≤ u32_max →
  ∃ st', play_in_tuplet env q p e st = Some st' ∧ within (b + inner_cost q e) st'.
Proof.
  intros Hq Hp Hok Hw. pose proof (in_now _ _ Hw). pose proof (in_budget _ _ Hw).
  pose proof (in_unit _ _ Hw) as Hu.
  assert (within (b + 0) st) as Hw0 by (eapply within_weaken; [|exact Hw]; lia).
  destruct e; cbn [play_in_tuplet inner_cost]; intros Hle; try (by exists st); cbn [inner_ok] in Hok.
  - apply andb_True in Hok as [Ho Hd]. unfold note_to_midi_pitch.
    destruct (pitch_total n (effective_accidental (note_pitch n) (note_accidental n) (pl_bar_accidentals st) None) Ho) as [base ->]. cbn.
    destruct (tuplet_total (note_duration n) q p (pl_unit_ticks st)) as (t&->&Ht); [done..|lia|]. cbn.
    destruct (sound_total (apply_pitch_offset base (ve_pitch_offset env)) t (pl_writer st)) as (w&->&Hn); [unfold now in *; lia..|]. cbn.
    eexists. split; [done|]. eapply within_moved; [exact Hw|..]; try done; unfold now in *; cbn; lia.
  - apply andb_True in Hok as [Ho Hd].
    destruct (tuplet_total (chord_duration c) q p (pl_unit_ticks st)) as (t&->&Ht); [done..|lia|]. cbn.
    by apply chord_within.
  - destruct (tuplet_total (rest_duration r) q p (pl_unit_ticks st)) as (t&->&Ht); [done..|lia|]. cbn. by apply pause_within.
Qed.

Lemma tuplet_within q p l : 1 ≤ q → 1 ≤ p → forallb inner_ok l → ∀ b st, within b st → b + sum_cost (inner_cost q) l ≤ u32_max →
  ∃ st', steps (play_in_tuplet env q p) l st = Some st' ∧ within (b + sum_cost (inner_cost q) l) st'.
Proof.
  intros Hq Hp. induction l as [|e l IH]; intros Hok b st Hw Hle; cbn [steps sum_cost foldr].
  { exists st. split; [done|]. eapply within_weaken; [|exact Hw]. cbn. lia. }
  cbn [forallb] in Hok. apply andb_True in Hok as [He Hok]. cbn [sum_cost foldr] in Hle. fold (sum_cost (inner_cost q) l) in *.
  assert (0 ≤ sum_cost (inner_cost q) l) by (apply sum_cost_nonneg, inner_costs_pos; [lia|done]).
  destruct (inner_total q p e b st Hq Hp He Hw) as (st1&->&Hw1); [lia|]. cbn.
  destruct (IH Hok _ st1 Hw1) as (st2&->&Hw2); [lia|]. exists st2. split; [done|]. eapply within_weaken; [|exact Hw2]. lia.
Qed.

(** *** Inline fields *)

Lemma parse_digits_le max s : ∀ acc n, acc ≤ max → parse_digits max s acc = Some n → n ≤ max.
Proof.
  induction s as [|c s IH]; intros acc n Ha; cbn; [by intros [= <-]|]. destruct (is_digit c); [|done].
  destruct (Z.leb_spec (acc * 10 + (Text.byte_val c - 48)) max); [|done]. by apply IH.
Qed.

Lemma parse_u8_range s n : parse_u8 s = Some n → 0 ≤ n ≤ 255.
Proof.
  intros Hs. split; [by eapply parse_uint_nonneg|]. unfold parse_u8, parse_uint in Hs. destruct s as [|c s]; [done|].
  case_bool_decide; [destruct s; [done|]|]; (eapply parse_digits_le; [|exact Hs]; lia).
Qed.

Lemma compute_unit_within u : 0 ≤ ul_numerator u ≤ 255 → 0 ≤ compute_unit_ticks u tpb ≤ unit_bound.
Proof.
  intros Hu. unfold compute_unit_ticks, unit_bound. split; [apply Z.div_pos; nia|].
  etrans; [apply Z.div_le_upper_bound with (q := tpb * 4 * ul_numerator u); nia|]. nia.
Qed.

Lemma meter_bar_within m : meter_ok m → 0 ≤ meter_bar_ticks m tpb ≤ unit_bound.
Proof.
  unfold meter_ok, meter_bar_ticks, unit_bound. destruct (default (4, 4) (to_fraction <$> m)) as [num den]. cbn. intros Hm.
  split; [apply Z.div_pos; nia|]. etrans; [apply Z.div_le_upper_bound with (q := tpb * 4 * num); nia|]. nia.
Qed.

Lemma inline_meter_ok v : meter_ok (Some (inline_meter v)).
Proof.
  unfold meter_ok, inline_meter, parse_meter. cbn [fmap option_fmap option_map from_option]. repeat case_match; cbn; try lia.
  unfold parse_fraction in *. destruct (str_split _ _) as [|a [|d [|]]]; try done.
  destruct (parse_u8 (trim a)) as [x|] eqn:Ea; [|done]. cbn in *. destruct (parse_u8 (trim d)); [|done]. simplify_eq/=. by apply parse_u8_range in Ea.
Qed.

Lemma inline_unit_ok v u : inline_unit_length v = Some u → 0 ≤ ul_numerator u ≤ 255.
Proof.
  unfold inline_unit_length. destruct (split_once _ _) as [[n d]|]; [|done]. cbn. destruct (parse_u8 (trim n)) as [x|] eqn:En; [|done].
  cbn. destruct (parse_u8 (trim d)); [|done]. intros [= <-]. cbn. by eapply parse_u8_range.
Qed.

Lemma inline_field_within b f st : within b st → within b (inline_field env f st).
Proof.
  intros Hw. pose proof Hw as [Hn Hb Hu Hm Hp Hh]. unfold inline_field. rewrite Henv.
  repeat case_bool_decide; [by split| |by split; try done; apply inline_meter_ok|done].
  destruct (inline_unit_length _) as [u|] eqn:E; [|done]. split; try done. apply compute_unit_within. by eapply inline_unit_ok.
Qed.

(** *** One round *)

Lemma rest_within b r st : rest_ok r → within b st → b + rest_cost r ≤ u32_max →
  ∃ st', play_rest env r st = Some st' ∧ within (b + rest_cost r) st'.
Proof.
  intros Hok Hw. pose proof (in_now _ _ Hw). pose proof (in_budget _ _ Hw). unfold rest_ok, rest_cost, play_rest in *.
  destruct (rest_multi_measure r) as [bars|]; intros Hle.
  - apply Is_true_true, Z.leb_le in Hok. pose proof (meter_bar_within (pl_cur_meter st) (in_meter _ _ Hw)) as Hbar. rewrite Henv.
    assert (0 ≤ meter_bar_ticks (pl_cur_meter st) tpb * bars ≤ unit_bound * bars) by nia.
    rewrite (proj2 (checked_u32_Some _ (meter_bar_ticks (pl_cur_meter st) tpb * bars))) by (split; [done|lia]). cbn. by apply pause_within.
  - pose proof (duration_cost_pos _ Hok). destruct (to_ticks_total (rest_duration r) (pl_unit_ticks st)) as (t&->&Ht); [apply Hw|done|lia|].
    cbn. by apply pause_within.
Qed.

Lemma note_within b n st : in_octaves n → duration_ok (note_duration n) → within b st →
  b + duration_cost (note_duration n) ≤ u32_max →
  ∃ st', play_note env n st = Some st' ∧ within (b + duration_cost (note_duration n)) st'.
Proof.
  intros Ho Hd Hw Hle. pose proof Hw as [Hn Hb Hu Hm Hp Hh]. pose proof (duration_cost_pos _ Hd). unfold play_note. cbn zeta.
  match goal with |- context [midi_pitch_with_accidental _ _ ?a] => destruct (pitch_total n a Ho) as [base ->] end. cbn [mbind option_bind].
  cbn [pl_unit_ticks set_field]. destruct (to_ticks_total (note_duration n) (pl_unit_ticks st)) as (t&->&Ht); [done..|lia|]. cbn [mbind option_bind].
  match goal with |- context [take_graces env t ?s] => destruct (take_graces_total t s) as (st1&left&->&Hn1&Hl&Hb1&Hp1&Hh1&Hu1&Hm1) end;
    [lia|done|done|unfold now in *; cbn; lia|]. unfold now in Hn1, Hb1. cbn [mbind option_bind pl_writer pl_pending_grace pl_held_notes set_field pl_unit_ticks pl_cur_meter] in *.
  unfold now in *.
  match goal with |- context [hold_or_sound env ?tie ?p left st1] => destruct (hold_total tie p left st1) as (st2&->&Hn2&Hh2&Hp2&Hu2&Hm2) end;
    [unfold now; lia|done|unfold now; lia| |].
  { rewrite Hh1. intros p u Hpu. specialize (Hh p u Hpu). unfold now. lia. }
  cbn [mbind option_bind]. eexists. split; [done|]. unfold now in *.
  assert (within (b + duration_cost (note_duration n)) st2) as Hw2.
  { split; unfold now; rewrite ?Hp2, ?Hp1, ?Hu2, ?Hu1, ?Hm2, ?Hm1; try done; cbn; lia. }
  repeat case_match; by destruct Hw2.
Qed.

Lemma element_total e b st : element_ok e → within b st → b + element_cost e ≤ u32_max →
  ∃ st', play_element env e st = Some st' ∧ within (b + element_cost e) st'.
Proof.
  intros Hok Hw Hle. assert (within (b + 0) st) as Hw0 by (eapply within_weaken; [|exact Hw]; lia).
  destruct e as [n|ch|r|bar|p q l|a notes| |f| | | | | | | | |]; cbn [play_element]; try (by exists st); cbn [element_ok element_cost inner_ok inner_cost] in *.
  - apply andb_True in Hok as [Ho Hd]. rewrite Z.mul_1_r in *. by apply note_within.
  - apply andb_True in Hok as [Ho Hd]. rewrite Z.mul_1_r in *. pose proof Hw as [Hn Hb Hu Hm Hp Hh].
    pose proof (duration_cost_pos _ Hd). unfold play_chord.
    destruct (to_ticks_total (chord_duration ch) (pl_unit_ticks st)) as (t&->&Ht); [done..|lia|]. cbn [mbind option_bind].
    destruct (take_graces_total t st) as (st1&left&->&Hn1&Hl&Hb1&Hp1&Hh1&Hu1&Hm1); [lia|done|done|lia|]. cbn [mbind option_bind].
    destruct (chord_total (chord_notes ch) left st1 Ho) as (st2&->&Hn2&Hh2&Hp2&Hu2&Hm2); [lia..|]. exists st2. split; [done|].
    split; rewrite ?Hp2, ?Hp1, ?Hu2, ?Hu1, ?Hm2, ?Hm1, ?Hh2, ?Hh1; try done; cbn; [lia|lia|].
    intros p u Hpu. specialize (Hh p u Hpu). lia.
  - by apply rest_within.
  - eexists. split; [done|]. destruct Hw0. by split.
  - apply andb_True in Hok as [Hq Hl]. apply Is_true_true, Z.leb_le in Hq. apply tuplet_within; [done|lia|done..].
  - eexists. split; [done|]. pose proof Hw as [Hn Hb Hu Hm Hp Hh]. split; try done. unfold now in *. cbn. lia.
  - eexists. split; [done|]. by apply inline_field_within.
Qed.

Lemma elements_total l : Forall (λ e, element_ok e) l → ∀ b st, within b st → b + sum_cost element_cost l ≤ u32_max →
  ∃ st', steps (play_element env) l st = Some st' ∧ within (b + sum_cost element_cost l) st'.
Proof.
  induction 1 as [|e l He Hl IH]; intros b st Hw Hle; cbn [steps sum_cost foldr].
  { exists st. split; [done|]. eapply within_weaken; [|exact Hw]. cbn. lia. }
  cbn [sum_cost foldr] in Hle. fold (sum_cost element_cost l) in *. pose proof (element_cost_pos e He).
  assert (0 ≤ sum_cost element_cost l) by (apply sum_cost_nonneg; eapply Forall_impl; [exact Hl|]; apply element_cost_pos).
  destruct (element_total e b st He Hw) as (st1&->&Hw1); [lia|]. cbn.
  destruct (IH _ st1 Hw1) as (st2&->&Hw2); [lia|]. exists st2. split; [done|]. eapply within_weaken; [|exact Hw2]. lia.
Qed.
End env.

(** ** Voices *)

Definition played (v : Voice) : list Element := expand_repeats (flatten_slurs (voice_elements v)).
Definition tune_cost (voices : list Voice) : Z := sum_cost (λ v, sum_cost element_cost (played v)) voices.
Definition voice_ok (v : Voice) : bool := forallb element_ok (played v).

Lemma forallb_Forall' {A} (f : A → bool) l : forallb f l → Forall (λ x, f x) l.
Proof. induction l as [|x l IH]; cbn; [constructor|]. intros [? ?]%andb_True. constructor; auto. Qed.

Lemma played_cost_pos v : voice_ok v → 0 ≤ sum_cost element_cost (played v).
Proof. intros Hv%forallb_Forall'. eapply sum_cost_nonneg, Forall_impl; [exact Hv|apply element_cost_pos]. Qed.

Lemma release_now (env : VoiceEnv) (st : Player) : mw_current_tick (release_held env st) = now st.
Proof.
  unfold release_held, now. generalize (drain_order (pl_held_notes st)) (pl_writer st). intros l. induction l as [|p l IH]; intros w; cbn; [done|].
  by rewrite IH, now_unstrike.
Qed.

Record header_ok (h : Header) : Prop := {
  ok_unit : 0 ≤ ul_numerator (default unit_length_default (header_unit_length h)) ≤ 255;
  ok_meter : meter_ok (header_meter h);
}.

Lemma play_voice_total env h v w : ve_ticks_per_beat env = tpb → header_ok h → voice_ok v → 0 ≤ mw_current_tick w →
  mw_current_tick w + sum_cost element_cost (played v) ≤ u32_max →
  ∃ w', play_voice env h v w = Some w' ∧ 0 ≤ mw_current_tick w' ≤ mw_current_tick w + sum_cost element_cost (played v).
Proof.
  intros He [Hu Hm] Hv Hw Hle. unfold play_voice. cbn zeta. fold (played v).
  match goal with |- context [steps _ _ ?s] => destruct (elements_total env He (played v) (forallb_Forall' _ _ Hv) (mw_current_tick w) s) as (st&->&Hst) end; [|done|].
  - split; try done; unfold now; cbn; [lia|]. rewrite He. by apply compute_unit_within.
  - cbn. eexists. split; [done|]. rewrite release_now. pose proof (in_now _ _ Hst). pose proof (in_budget _ _ Hst). lia.
Qed.

Lemma play_voices_total params h voices : ticks_per_beat params = tpb → header_ok h → Forall (λ v, voice_ok v) voices →
  ∀ w, 0 ≤ mw_current_tick w → mw_current_tick w + tune_cost voices ≤ u32_max → is_Some (play_voices params h voices w).
Proof.
  intros He Hh. induction 1 as [|v voices Hv Hvs IH]; intros w Hw Hle; cbn [play_voices]; [by eexists|].
  unfold tune_cost in *. cbn [sum_cost foldr] in Hle. fold (sum_cost (λ v, sum_cost element_cost (played v)) voices) in Hle.
  assert (0 ≤ sum_cost (λ v, sum_cost element_cost (played v)) voices) by (apply sum_cost_nonneg; eapply Forall_impl; [exact Hvs|apply played_cost_pos]).
  destruct (play_voice_total (single_env params h v) h v w) as (w'&->&Hw'); [done..|lia|]. cbn. apply IH; lia.
Qed.

Lemma voice_writers_total params h voices : ticks_per_beat params = tpb → header_ok h → Forall (λ v, voice_ok v) voices →
  tune_cost voices ≤ u32_max → ∀ idx, is_Some (voice_writers params h idx voices).
Proof.
  intros He Hh. induction 1 as [|v voices Hv Hvs IH]; intros Hle idx; cbn [voice_writers]; [by eexists|].
  unfold tune_cost in *. cbn [sum_cost foldr] in Hle. fold (sum_cost (λ v, sum_cost element_cost (played v)) voices) in Hle.
  assert (0 ≤ sum_cost (λ v, sum_cost element_cost (played v)) voices) by (apply sum_cost_nonneg; eapply Forall_impl; [exact Hvs|apply played_cost_pos]).
  pose proof (played_cost_pos v Hv). destruct (IH ltac:(lia) (idx + 1)) as [ws Hws].
  destruct (is_silent v); [by eexists|]. unfold voice_writer.
  match goal with |- context [play_voice ?e h v ?w] => destruct (play_voice_total e h v w) as (w'&->&_) end; [done..| | |].
  1-2: destruct (tune_program h params); cbn; lia.
  cbn. rewrite Hws. by eexists.
Qed.
End total.

(** Generation returns on every tune that is small enough. If the unit length is that
    of a [u8] fraction and the octaves, durations and rests are in range, and the ticks that
    the elements played can take add up to no more than a [u32] holds, then no addition and no
    multiplication on the way to the file overflows: ties, grace notes and tuplets included. *)
Theorem generate_total `{!DrainOrder} (tune : Tune) (params : MidiParams)
    (Htpb : 0 ≤ ticks_per_beat params) (Hheader : header_ok (tune_header tune))
    (Hvoices : Forall (λ v, voice_ok v) (tune_voices tune))
    (Hcost : tune_cost (ticks_per_beat params) (tune_voices tune) ≤ u32_max) :
  is_Some (generate tune params).
Proof.
  unfold generate. cbn zeta. case_match.
  - unfold generate_multitrack. destruct (voice_writers_total _ Htpb params (tune_header tune) (tune_voices tune)) with (idx := 0) as [ws ->]; [done..|].
    by eexists.
  - unfold build_single_track_writer. cbn zeta.
    match goal with |- context [play_voices _ _ _ ?w] => destruct (play_voices_total _ Htpb params (tune_header tune) (tune_voices tune)) with w as [w' ->] end;
      [done..| | |by eexists].
    all: unfold header_tempo_event, set_tempo; destruct (tune_program _ _), (header_tempo (tune_header tune)); cbn; lia.
Qed.

(** * Tunes at work

    Concrete tunes: the hypotheses of the theorems of the tune files hold of them, and what
    the generator makes of the ones that fall outside. *)

(** One of the orders a drain can have. *)
#[export] Instance keys_in_order : DrainOrder := λ m, (map_to_list m).*1.
#[export] Instance keys_in_order_laws : DrainOrderLaws.
Proof. intros m. done. Qed.

(** ** A duet *)

Definition lasting (num den : Z) (n : Note) : Note := n <| note_duration := {| dur_numerator := num; dur_denominator := den |} |>.
Definition sharp (n : Note) : Note := n <| note_accidental := Some Sharp |>.
Definition tied (n : Note) : Note := n <| note_tie := true |>.
Definition c4 : Note := note_new NoteC 0.
Definition e4 : Note := note_new NoteE 0.
Definition g4 : Note := note_new NoteG 0.

Definition treble : list Element :=
  [EBar RepeatStart; ENote (lasting 2 1 c4); EGraceNotes false [e4]; ENote (tied g4); EBar BarSingle; ENote g4;
   EBar RepeatEnd; ETuplet 3 2 [ENote c4; ENote (sharp e4); ERest {| rest_duration := duration_unit; rest_visible := true; rest_multi_measure := None |}];
   EInlineField {| field_type := "K"; field_value := "D" |};
   ESlurGroup [EChord {| chord_notes := [c4; e4; g4]; chord_duration := {| dur_numerator := 3; dur_denominator := 2 |} |}]].
Definition low : list Element :=
  [EChord {| chord_notes := [sharp c4; g4]; chord_duration := duration_unit |};
   ERest {| rest_duration := duration_unit; rest_visible := false; rest_multi_measure := Some 2 |}].

Definition voice_of (l : list Element) : Voice := {| voice_id := None; voice_name := None; voice_elements := l |}.
Definition in_g : Header := header_default <| header_key := key_default <| key_root := NoteG |> |>.
Definition alone (l : list Element) : Tune := {| tune_header := in_g; tune_voices := [voice_of l] |}.
Definition duet : Tune := {| tune_header := in_g; tune_voices := [voice_of treble; voice_of low] |}.

Definition bytes_of (t : Tune) : list Z := default [] (generate t midi_params_default).
Definition tracks_in (t : Tune) : list (list MidiEvent) := default [] (tracks_of t midi_params_default).

Lemma midi_file_roundtrip_witness :
  generate duet midi_params_default = Some (bytes_of duet) ∧
  ∃ tracks, tracks_of duet midi_params_default = Some tracks ∧ Forall (ordered 0) tracks ∧
    (Forall fits tracks → Z.of_nat (length tracks) < 65536 →
     read_smf (bytes_of duet) = Some {| smf_format := 1; smf_division := 480; smf_tracks := tracks |}) ∧
    (∀ w, build_single_track_writer duet midi_params_default = Some w →
       events duet midi_params_default = Some (mw_events w)) ∧
    ∀ v, 0 ≤ v < 2 ^ 28 → (length (encode_variable_length v) ≤ 4)%nat.
Proof.
  assert (generate duet midi_params_default = Some (bytes_of duet)) as Hg by (vm_compute; reflexivity).
  split; [exact Hg|]. apply (midi_file_roundtrip duet midi_params_default (bytes_of duet)); [cbn; lia|cbn; lia|exact Hg].
Defined.

(** The reading of the duet, evaluated. *)
Example duet_reads_back :
  read_smf (bytes_of duet) = Some {| smf_format := 1; smf_division := 480; smf_tracks := tracks_in duet |} ∧
  length <$> tracks_in duet = [1%nat; 22%nat; 4%nat].
Proof. vm_compute. auto. Qed.

Lemma notes_balanced_witness :
  Forall (λ v, Forall chords_spelled (voice_elements v)) (tune_voices duet) ∧
  Forall (λ evs, (∀ c p k, 0 ≤ c < 16 → 0 ≤ level c p (take k evs)) ∧ ∀ c p, 0 ≤ c < 16 → level c p evs = 0) (tracks_in duet).
Proof.
  assert (Forall (λ v, Forall chords_spelled (voice_elements v)) (tune_voices duet)) as Hs by (repeat constructor).
  split; [exact Hs|]. apply (notes_balanced duet midi_params_default (tracks_in duet) Hs). vm_compute. reflexivity.
Defined.

Lemma transpose_shifts_witness :
  ∃ tune', transpose duet 5 = Some tune' ∧ tune_notes tune' = transpose_note 5 <$> tune_notes duet ∧
    tonic (header_key (tune_header tune')) = 0.
Proof.
  assert (Forall (in_reach 5) (tune_notes duet)) as Hr by (repeat constructor; vm_compute; done).
  destruct (transpose_shifts duet 5 Hr) as [_ Ht]. eexists. split; [reflexivity|].
  destruct (Ht _ eq_refl) as (Hn&_&Hk&_). split; [exact Hn|exact Hk].
Defined.

Lemma signature_diatonic_witness :
  (signature (key_default <| key_root := NoteE |> <| key_mode := Dorian |>)).1 ≤ 7 ∧
  sounding_class (compute_key_accidentals (key_default <| key_root := NoteE |> <| key_mode := Dorian |>)) NoteC = 1.
Proof.
  set (k := key_default <| key_root := NoteE |> <| key_mode := Dorian |>).
  assert ((signature k).1 ≤ 7) as Hs by (vm_compute; done). split; [exact Hs|].
  destruct (signature_diatonic k Hs) as [Hscale _]. exact (Hscale eq_refl 5%nat ltac:(lia)).
Defined.

Lemma generate_total_witness :
  tune_cost 480 (tune_voices duet) ≤ u32_max ∧ is_Some (generate duet midi_params_default).
Proof.
  assert (tune_cost 480 (tune_voices duet) ≤ u32_max) as Hc by (vm_compute; done). split; [exact Hc|].
  apply (generate_total duet midi_params_default); [vm_compute; done| | |exact Hc].
  - split; vm_compute; split; done.
  - repeat constructor.
Defined.

(** [A :| B |: C :: D :|] *)
Lemma repeats_written_out_witness :
  let a := ENote c4 in let b := ENote e4 in let c := ENote g4 in
  expand_repeats [a; EBar RepeatEnd; b; EBar RepeatStart; c; EBar RepeatBoth; a; b; EBar RepeatEnd] =
    [a; EBar RepeatEnd; a; b; EBar RepeatStart; c; EBar RepeatEnd; c; EBar RepeatStart; a; b; EBar RepeatEnd; a; b].
Proof.
  apply (proj1 repeats_written_out {| opening := Some ([ENote c4], []);
    passages := [Once [ENote e4]; Chain [ENote g4] [[ENote c4; ENote e4]]] |}).
  split; [|repeat constructor]; repeat constructor.
Defined.

(** ** Behind the hypotheses *)

(** The events of a tune of one voice, each with its tick, after the tempo. *)
Definition heard (l : list Element) : option (list (Z * list Z)) :=
  option_map (λ evs, tail (map (λ ev, (ev_tick ev, ev_data ev)) evs)) (events (alone l) midi_params_default).

(** The chord [[C^C]] releases what the letter C is after the chord, twice: the first note
    is left sounding. *)
Example chord_left_hung :
  heard [EChord {| chord_notes := [c4; sharp c4]; chord_duration := duration_unit |}] =
    Some [(0, [144; 60; 80]); (0, [144; 61; 80]); (240, [128; 61; 0]); (240, [128; 61; 0])].
Proof. vm_compute. reflexivity. Qed.

(** Voices of the single-track events follow one another. *)
Example voices_in_sequence :
  option_map (map ev_tick) (events {| tune_header := in_g; tune_voices := [voice_of [ENote c4]; voice_of [ENote e4]] |} midi_params_default) =
    Some [0; 0; 240; 240; 480].
Proof. vm_compute. reflexivity. Qed.

(** Many grace notes last longer than half of the note: here a tick each, before a note of eight. *)
Example graces_over_half :
  heard [EGraceNotes false (replicate 9 e4); ENote (lasting 1 30 c4); ENote g4] =
    Some ((mjoin ((λ i : nat, [(Z.of_nat i, [144; 64; 80]); (Z.of_nat (S i), [128; 64; 0])]) <$> List.seq 0 9)) ++
      [(9, [144; 60; 80]); (9, [128; 60; 0]); (9, [144; 67; 80]); (249, [128; 67; 0])]).
Proof. vm_compute. reflexivity. Qed.

(** A tempo below 3.6 beats in a minute does not fit the three bytes it is written to. *)
Example slow_tempo_wraps :
  us_per_quarter (1, 4) 3 = 20000000 ∧
  mw_events (set_tempo (1, 4) 3 (writer_new 480 0)) = [{| ev_tick := 0; ev_data := [255; 81; 3; 49; 45; 0] |}] ∧
  read_be [49; 45; 0] = 3222784.
Proof. vm_compute. auto. Qed.

(** The voice of index 24 is on the channel of percussion, and that of index 15 on the channel of 0. *)
Example voices_on_channels : voice_channel <$> [0; 8; 9; 14; 15; 24] = [0; 8; 10; 15; 0; 9].
Proof. reflexivity. Qed.

(** Six octaves up the octave times twelve is no [i8]. *)
Example octave_overflows :
  generate (alone [ENote (note_new NoteC 5)]) midi_params_default ≠ None ∧
  generate (alone [ENote (note_new NoteC 6)]) midi_params_default = None.
Proof. split; [by vm_compute|reflexivity]. Qed.

(** A note that gets no accidental of its own by a transposition gets that of the new key:
    E of C major goes up one semitone to a written F, which C sharp major sharpens. *)
Example transposed_into_key :
  let t := {| tune_header := header_default; tune_voices := [voice_of [ENote e4]] |} in
  let pitches t := (λ n, note_to_midi_pitch n (compute_key_accidentals (header_key (tune_header t)))) <$> tune_notes t in
  pitches t = [Some 64] ∧ option_map pitches (transpose t 1) = Some [Some 66].
Proof. vm_compute. auto. Qed.

(** [A :| B :|] plays both parts again at the second sign. *)
Example repeat_from_the_start :
  let a := ENote c4 in let b := ENote e4 in let r := EBar RepeatEnd in
  expand_repeats [a; r; b; r] = [a; r; a; b; r; a; r; a; b].
Proof. reflexivity. Qed.

(** A repeat before a passage with endings is not played again. *)
Example repeat_before_endings :
  let a := ENote c4 in let b := ENote e4 in let c := ENote g4 in
  expand_repeats [EBar RepeatStart; a; EBar RepeatEnd; EBar RepeatStart; b; EBar FirstEnding; c; EBar SecondEnding; a] =
    [EBar RepeatStart; a; EBar RepeatEnd; EBar RepeatStart; b; EBar BarSingle; c; EBar BarSingle; b; EBar BarSingle; a].
Proof. reflexivity. Qed.

(** Ticks beyond a [u32]. *)
Example too_long : generate (alone [ENote (lasting 17895700 1 c4); ENote c4]) midi_params_default = None.
Proof. vm_compute. reflexivity. Qed.

(** The key takes precedence over the accidental that a tie carries: in G major the F natural
    tied over a bar line goes on as an F sharp, and is held until the voice ends. *)
Example tie_loses_to_key :
  let f := note_new NoteF 0 in
  heard [ENote (tied (f <| note_accidental := Some Natural |>)); EBar BarSingle; ENote f; ENote g4] =
    Some [(0, [144; 65; 80]); (240, [144; 66; 80]); (480, [128; 66; 0]); (480, [144; 67; 80]); (720, [128; 67; 0]);
          (720, [128; 65; 0])].
Proof. vm_compute. reflexivity. Qed.
