(* ===== verification/LlmStream.v ===== *)
(** * The streams of the model providers
    ([kaijutsu-kernel/src/llm/stream.rs], [claude/], [openai/])

    Each provider's events are folded by a state machine into the bracketed events that
    the block writer reads, and a stream hands these out one at a time. The event parser,
    [reqwest] and [serde_json] are outside: what a poll of the connection yields is an
    input, and decoding a payload a parameter. An error carries its cause, not its text. *)

From S2P Require Import Prelude Text Tick Ids Track Cas Cell Block Hydrate Wire.

(** ** Events for the block writer ([llm/stream.rs]) *)

Record ClaudeUsageExtra := { cache_read_input_tokens : Z; cache_creation_input_tokens : Z }.
Record OpenAiCompatUsageExtra := {
  prompt_cache_hit_tokens : Z; prompt_cache_miss_tokens : Z; reasoning_tokens : Z;
}.
Inductive UsageExtra :=
  | UsageClaude (u : ClaudeUsageExtra)
  | UsageOpenAiCompat (u : OpenAiCompatUsageExtra).

(** What the text of a [StreamEvent::Error] says. *)
Inductive StreamFault :=
  | UnknownDelta (index : Z)
  | UnknownStop (index : Z)
  | DeltaMismatch (index : Z)
  | BadInput (name id : string)
  | NamelessCall (index : Z)
  | ProviderFault (kind message : string)
  | DecodeFault
  | TransportFault.

Inductive StreamEvent `{!JsonLib} :=
  | ThinkingStart
  | ThinkingDelta (text : string)
  | ThinkingEnd (signature : option string)
  | TextStart
  | TextDelta (text : string)
  | TextEnd
  | StreamToolUse (id name : string) (input : Json)
  | StreamToolResult (tool_use_id content : string) (is_error : bool)
  | StreamDone (stop_reason : option string) (input_tokens output_tokens : option Z) (extra : option UsageExtra)
  | StreamError (fault : StreamFault).

Section events.
Context {json : JsonLib}.

Definition is_delta (e : StreamEvent) : bool :=
  match e with ThinkingDelta _ | TextDelta _ => true | _ => false end.
Definition is_start (e : StreamEvent) : bool :=
  match e with ThinkingStart | TextStart => true | _ => false end.
Definition is_end (e : StreamEvent) : bool :=
  match e with ThinkingEnd _ | TextEnd => true | _ => false end.
Definition terminal_event (e : StreamEvent) : bool :=
  match e with StreamDone _ _ _ _ | StreamError _ => true | _ => false end.
Definition as_delta (e : StreamEvent) : option string :=
  match e with ThinkingDelta s | TextDelta s => Some s | _ => None end.
End events.

(** [Value::Object(Map::new())]. *)
Class JsonObject `{!JsonLib} := json_object : Json.

(** ** Claude ([claude/sse.rs], [claude/stream.rs]) *)

Record ResponseUsage := {
  ru_input_tokens : Z; ru_output_tokens : Z; ru_cache_read : Z; ru_cache_creation : Z;
}.

Inductive StartedBlock `{!JsonLib} :=
  | StartedText (text : string)
  | StartedThinking (thinking : string)
  | StartedToolUse (id name : string) (input : Json).

Inductive BlockDelta :=
  | DeltaText (text : string)
  | DeltaInputJson (partial_json : string)
  | DeltaThinking (thinking : string)
  | DeltaSignature (signature : string).

Inductive ClaudeSseEvent `{!JsonLib} :=
  | MessageStart (usage : ResponseUsage)
  | ContentBlockStart (index : Z) (block : StartedBlock)
  | ContentBlockDelta (index : Z) (delta : BlockDelta)
  | ContentBlockStop (index : Z)
  | MessageDelta (stop_reason : option string) (usage : ResponseUsage)
  | MessageStop
  | SseErrorEvent (kind message : string)
  | Ping.

(** [parse_json], by the name of the event it is for. *)
Class ClaudePayloads `{!JsonLib} := {
  parse_message_start : string → option ResponseUsage;
  parse_block_start : string → option (Z * StartedBlock);
  parse_block_delta : string → option (Z * BlockDelta);
  parse_block_stop : string → option Z;
  parse_message_delta : string → option (option string * ResponseUsage);
  parse_error : string → option (string * string);
}.

(** An event of the event-stream parser: its name and its data. *)
Record RawEvent := { raw_event : string; raw_data : string }.

Inductive SseDecodeError := UnknownEvent (name : string) | InvalidJson (event : string).

Inductive BlockState :=
  | BsText
  | BsThinking (signature : string)
  | BsToolUse (id name partial_input : string).

Record ClaudeMachine := {
  cm_blocks : gmap Z BlockState;
  cm_stop_reason : option string;
  cm_input_tokens : option Z;
  cm_output_tokens : option Z;
  cm_cache_read : Z;
  cm_cache_creation : Z;
}.
#[export] Instance ClaudeMachine_settable : Settable ClaudeMachine := λ m, {|
  cm_blocks := cm_blocks m; cm_stop_reason := cm_stop_reason m; cm_input_tokens := cm_input_tokens m;
  cm_output_tokens := cm_output_tokens m; cm_cache_read := cm_cache_read m; cm_cache_creation := cm_cache_creation m;
|}.

Section claude.
Context {json : JsonLib} {serde : SerdeJson} {object : JsonObject} {payloads : ClaudePayloads}.
Implicit Types (m : ClaudeMachine).

Definition claude_parse {A} (e : RawEvent) (parse : string → option A) (k : A → ClaudeSseEvent) :
    result SseDecodeError ClaudeSseEvent :=
  match parse (raw_data e) with Some a => Ok (k a) | None => Err (InvalidJson (raw_event e)) end.

Definition claude_decode (e : RawEvent) : result SseDecodeError ClaudeSseEvent :=
  let name := raw_event e in
  if bool_decide (name = "message_start") then claude_parse e parse_message_start MessageStart
  else if bool_decide (name = "content_block_start") then claude_parse e parse_block_start (λ p, ContentBlockStart p.1 p.2)
  else if bool_decide (name = "content_block_delta") then claude_parse e parse_block_delta (λ p, ContentBlockDelta p.1 p.2)
  else if bool_decide (name = "content_block_stop") then claude_parse e parse_block_stop ContentBlockStop
  else if bool_decide (name = "message_delta") then claude_parse e parse_message_delta (λ p, MessageDelta p.1 p.2)
  else if bool_decide (name = "message_stop") then Ok MessageStop
  else if bool_decide (name = "error") then claude_parse e parse_error (λ p, SseErrorEvent p.1 p.2)
  else if bool_decide (name = "ping") then Ok Ping
  else Err (UnknownEvent name).

Definition claude_new : ClaudeMachine := {|
  cm_blocks := ∅; cm_stop_reason := None; cm_input_tokens := None; cm_output_tokens := None;
  cm_cache_read := 0; cm_cache_creation := 0;
|}.

Definition put_state (index : Z) (s : BlockState) m : ClaudeMachine := m <| cm_blocks := <[index := s]> (cm_blocks m) |>.

Definition on_block_start (index : Z) (block : StartedBlock) m : ClaudeMachine * list StreamEvent :=
  match block with
  | StartedText _ => (put_state index BsText m, [TextStart])
  | StartedThinking _ => (put_state index (BsThinking "") m, [ThinkingStart])
  | StartedToolUse id name _ => (put_state index (BsToolUse id name "") m, [])
  end.

Definition on_block_delta (index : Z) (delta : BlockDelta) m : ClaudeMachine * list StreamEvent :=
  match cm_blocks m !! index with
  | None => (m, [StreamError (UnknownDelta index)])
  | Some s =>
      match s, delta with
      | BsText, DeltaText text => (m, [TextDelta text])
      | BsThinking _, DeltaThinking thinking => (m, [ThinkingDelta thinking])
      | BsThinking signature, DeltaSignature sig => (put_state index (BsThinking (signature +:+ sig)) m, [])
      | BsToolUse id name partial, DeltaInputJson json => (put_state index (BsToolUse id name (partial +:+ json)) m, [])
      | _, _ => (m, [StreamError (DeltaMismatch index)])
      end
  end.

(** What a block is closed with. *)
Definition closing (s : BlockState) : StreamEvent :=
  match s with
  | BsText => TextEnd
  | BsThinking signature => ThinkingEnd (if bool_decide (signature = "") then None else Some signature)
  | BsToolUse id name partial =>
      match (if bool_decide (partial = "") then Some json_object else json_parse partial) with
      | Some input => StreamToolUse id name input
      | None => StreamError (BadInput name id)
      end
  end.

Definition on_block_stop (index : Z) m : ClaudeMachine * list StreamEvent :=
  match cm_blocks m !! index with
  | None => (m, [StreamError (UnknownStop index)])
  | Some s => (m <| cm_blocks := delete index (cm_blocks m) |>, [closing s])
  end.

Definition claude_done m : StreamEvent :=
  let extra :=
    if (0 <? cm_cache_read m) || (0 <? cm_cache_creation m) then
      Some (UsageClaude {| cache_read_input_tokens := cm_cache_read m; cache_creation_input_tokens := cm_cache_creation m |})
    else None in
  StreamDone (cm_stop_reason m) (cm_input_tokens m) (cm_output_tokens m) extra.

Definition claude_step (e : ClaudeSseEvent) m : ClaudeMachine * list StreamEvent :=
  match e with
  | MessageStart usage =>
      (m <| cm_input_tokens := Some (ru_input_tokens usage) |> <| cm_cache_read := ru_cache_read usage |>
         <| cm_cache_creation := ru_cache_creation usage |>, [])
  | ContentBlockStart index block => on_block_start index block m
  | ContentBlockDelta index delta => on_block_delta index delta m
  | ContentBlockStop index => on_block_stop index m
  | MessageDelta stop_reason usage =>
      (m <| cm_stop_reason := stop_reason |> <| cm_output_tokens := Some (ru_output_tokens usage) |>, [])
  | MessageStop => (m, [claude_done m])
  | SseErrorEvent kind message => (m, [StreamError (ProviderFault kind message)])
  | Ping => (m, [])
  end.
End claude.

(** ** Chat completions ([openai/types.rs], [openai/sse.rs], [openai/stream.rs]) *)

Record ChatUsage := {
  prompt_tokens : Z; completion_tokens : Z; total_tokens : Z; cache_hit_tokens : Z; cache_miss_tokens : Z;
  details_reasoning_tokens : option Z;
}.
Record FunctionChunk := { fc_name : option string; fc_arguments : option string }.
Record ToolCallChunk := { tc_index : Z; tc_id : option string; tc_function : option FunctionChunk }.
Record Delta := {
  d_role : option string; d_content : option string; d_reasoning_content : option string;
  d_tool_calls : option (list ToolCallChunk);
}.
Record ChunkChoice := { cc_delta : Delta; cc_finish_reason : option string }.
Record ChatChunk := { ch_choices : list ChunkChoice; ch_usage : option ChatUsage }.

Inductive OpenAiSseEvent := Chunk (c : ChatChunk) | ChatDone.

Class ChatPayload := parse_chunk : string → option ChatChunk.

Inductive Phase := PhaseNone | PhaseThinking | PhaseText.
#[export] Instance Phase_eq_dec : EqDecision Phase.
Proof. solve_decision. Defined.

Record ToolAccum := { ta_id : option string; ta_name : option string; ta_arguments : string }.
#[export] Instance ToolAccum_settable : Settable ToolAccum := λ a,
  {| ta_id := ta_id a; ta_name := ta_name a; ta_arguments := ta_arguments a |}.
Definition accum_default : ToolAccum := {| ta_id := None; ta_name := None; ta_arguments := "" |}.

Record OpenAiMachine := {
  om_phase : Phase;
  om_tool_calls : gmap Z ToolAccum;
  om_stop_reason : option string;
  om_usage : option ChatUsage;
  om_reasoning_required : bool;
}.
#[export] Instance OpenAiMachine_settable : Settable OpenAiMachine := λ m, {|
  om_phase := om_phase m; om_tool_calls := om_tool_calls m; om_stop_reason := om_stop_reason m;
  om_usage := om_usage m; om_reasoning_required := om_reasoning_required m;
|}.

Definition DONE_SENTINEL : string := "[DONE]".
Definition REASONING_NONCE : string := "openai-compat-reasoning".

(** The entries of a [BTreeMap] with an integer key, in its order. *)
Definition index_le {A} (x y : Z * A) : Prop := x.1 ≤ y.1.
#[export] Instance index_le_dec {A} : RelDecision (@index_le A).
Proof. intros x y. unfold index_le. apply _. Defined.
Definition in_index_order {A} (m : gmap Z A) : list (Z * A) := merge_sort index_le (map_to_list m).

Section openai.
Context {json : JsonLib} {serde : SerdeJson} {object : JsonObject} {payload : ChatPayload}.
Implicit Types (m : OpenAiMachine) (out : list StreamEvent).

Definition openai_decode (e : RawEvent) : result SseDecodeError OpenAiSseEvent :=
  let data := trim (raw_data e) in
  if bool_decide (data = DONE_SENTINEL) then Ok ChatDone
  else match parse_chunk data with Some c => Ok (Chunk c) | None => Err (InvalidJson data) end.

Definition openai_new (reasoning_required : bool) : OpenAiMachine := {|
  om_phase := PhaseNone; om_tool_calls := ∅; om_stop_reason := None; om_usage := None;
  om_reasoning_required := reasoning_required;
|}.

Definition thinking_signature m : option string := if om_reasoning_required m then Some REASONING_NONCE else None.

(** [&mut out]: the events so far are passed along. *)
Definition close_open_block (acc : OpenAiMachine * list StreamEvent) : OpenAiMachine * list StreamEvent :=
  let '(m, out) := acc in
  (m <| om_phase := PhaseNone |>,
   match om_phase m with
   | PhaseThinking => out ++ [ThinkingEnd (thinking_signature m)]
   | PhaseText => out ++ [TextEnd]
   | PhaseNone => out
   end).

(** [.filter(|s| !s.is_empty())]. *)
Definition filled (s : option string) : option string :=
  match s with Some t => if bool_decide (t = "") then None else Some t | None => None end.

Definition on_reasoning (rc : option string) (acc : OpenAiMachine * list StreamEvent) : OpenAiMachine * list StreamEvent :=
  match filled rc with
  | None => acc
  | Some rc =>
      let '(m, out) :=
        if bool_decide (om_phase acc.1 = PhaseThinking) then acc
        else let '(m, out) := close_open_block acc in (m <| om_phase := PhaseThinking |>, out ++ [ThinkingStart]) in
      (m, out ++ [ThinkingDelta rc])
  end.

Definition on_content (ct : option string) (acc : OpenAiMachine * list StreamEvent) : OpenAiMachine * list StreamEvent :=
  match filled ct with
  | None => acc
  | Some ct =>
      let '(m, out) :=
        if bool_decide (om_phase acc.1 = PhaseText) then acc
        else let '(m, out) := close_open_block acc in (m <| om_phase := PhaseText |>, out ++ [TextStart]) in
      (m, out ++ [TextDelta ct])
  end.

Definition or_keep {A} (new old : option A) : option A := match new with Some a => Some a | None => old end.

Definition add_fragment (tc : ToolCallChunk) (a : ToolAccum) : ToolAccum := {|
  ta_id := or_keep (tc_id tc) (ta_id a);
  ta_name := or_keep (f ← tc_function tc; fc_name f) (ta_name a);
  ta_arguments := ta_arguments a +:+ default "" (f ← tc_function tc; fc_arguments f);
|}.

Definition accumulate_tool_call m (tc : ToolCallChunk) : OpenAiMachine :=
  m <| om_tool_calls := <[tc_index tc := add_fragment tc (default accum_default (om_tool_calls m !! tc_index tc))]>
                          (om_tool_calls m) |>.

Definition on_tool_calls (tcs : option (list ToolCallChunk)) (acc : OpenAiMachine * list StreamEvent) :
    OpenAiMachine * list StreamEvent :=
  match tcs with
  | None => acc
  | Some tcs =>
      let '(m, out) := if bool_decide (om_phase acc.1 = PhaseNone) then acc else close_open_block acc in
      (foldl accumulate_tool_call m tcs, out)
  end.

(** One accumulated call as an event. *)
Definition call_event (entry : Z * ToolAccum) : StreamEvent :=
  let '(index, accum) := entry in
  match ta_name accum with
  | None => StreamError (NamelessCall index)
  | Some name =>
      let id := default ("call_" +:+ show_uint index) (ta_id accum) in
      match (if bool_decide (trim (ta_arguments accum) = "") then Some json_object else json_parse (ta_arguments accum)) with
      | Some input => StreamToolUse id name input
      | None => StreamError (BadInput name id)
      end
  end.

Definition flush_tool_calls (acc : OpenAiMachine * list StreamEvent) : OpenAiMachine * list StreamEvent :=
  let '(m, out) := acc in
  (m <| om_tool_calls := ∅ |>, out ++ (call_event <$> in_index_order (om_tool_calls m))).

Definition on_choice (acc : OpenAiMachine * list StreamEvent) (choice : ChunkChoice) : OpenAiMachine * list StreamEvent :=
  let delta := cc_delta choice in
  let acc := on_tool_calls (d_tool_calls delta)
               (on_content (d_content delta) (on_reasoning (d_reasoning_content delta) acc)) in
  match cc_finish_reason choice with
  | None => acc
  | Some fr => let '(m, out) := flush_tool_calls (close_open_block acc) in (m <| om_stop_reason := Some fr |>, out)
  end.

Definition openai_done m : StreamEvent :=
  match om_usage m with
  | Some u =>
      StreamDone (om_stop_reason m) (Some (prompt_tokens u)) (Some (completion_tokens u))
        (Some (UsageOpenAiCompat {| prompt_cache_hit_tokens := cache_hit_tokens u;
                                    prompt_cache_miss_tokens := cache_miss_tokens u;
                                    reasoning_tokens := default 0 (details_reasoning_tokens u) |}))
  | None => StreamDone (om_stop_reason m) None None None
  end.

Definition openai_step (e : OpenAiSseEvent) m : OpenAiMachine * list StreamEvent :=
  match e with
  | Chunk c => foldl on_choice (m <| om_usage := or_keep (ch_usage c) (om_usage m) |>, []) (ch_choices c)
  | ChatDone =>
      let '(m, out) := flush_tool_calls (close_open_block (m, [])) in
      (m, out ++ [openai_done m])
  end.
End openai.

(** ** Streams ([claude/mod.rs], [openai/mod.rs]) *)

(** What one [select!] on the connection and the cancellation token ends with. *)
Inductive Poll := Cancelled | Item (e : RawEvent) | TransportError | Closed.

Section stream.
Context {json : JsonLib} {State Event : Type}.
Context (decode : RawEvent → result SseDecodeError Event) (stops : Event → bool).
Context (step : Event → State → State * list StreamEvent).

Record Stream := {
  st_inner : bool;
  st_state : State;
  st_pending : list StreamEvent;
  st_finished : bool;
}.

Definition stream_of (m : State) : Stream := {| st_inner := true; st_state := m; st_pending := []; st_finished := false |}.

Definition cancel_done : StreamEvent := StreamDone None None None None.

(** [next_event]: it waits for ever ([None]) when nothing more happens on the connection. *)
Fixpoint next_event (polls : list Poll) (s : Stream) : option (option StreamEvent * Stream * list Poll) :=
  match st_pending s with
  | ev :: pending => Some (Some ev, {| st_inner := st_inner s; st_state := st_state s; st_pending := pending; st_finished := st_finished s |}, polls)
  | [] =>
      let gone inner := {| st_inner := inner; st_state := st_state s; st_pending := []; st_finished := true |} in
      if st_finished s then Some (None, s, polls)
      else if negb (st_inner s) then Some (None, gone (st_inner s), polls)
      else
        match polls with
        | [] => None
        | Cancelled :: polls' => Some (Some cancel_done, gone false, polls')
        | TransportError :: polls' => Some (Some (StreamError TransportFault), gone true, polls')
        | Closed :: polls' => Some (None, gone false, polls')
        | Item e :: polls' =>
            match decode e with
            | Err _ => Some (Some (StreamError DecodeFault), gone true, polls')
            | Ok typed =>
                let '(m, emitted) := step typed (st_state s) in
                next_event polls' {| st_inner := true; st_state := m; st_pending := emitted; st_finished := stops typed |}
            end
        end
  end.
End stream.

Definition claude_stops `{!JsonLib} (e : ClaudeSseEvent) : bool := match e with MessageStop => true | _ => false end.
Definition openai_stops (e : OpenAiSseEvent) : bool := match e with ChatDone => true | Chunk _ => false end.

(** ** Runs, and what a reader of the events relies on *)

Section runs.
Context {json : JsonLib} {State Event : Type} (step : Event → State → State * list StreamEvent).

(** The events of a machine over those of the provider. *)
Fixpoint machine_run (es : list Event) (m : State) : State * list StreamEvent :=
  match es with
  | [] => (m, [])
  | e :: es' =>
      let '(m1, out1) := step e m in
      let '(m2, out2) := machine_run es' m1 in
      (m2, out1 ++ out2)
  end.

Lemma machine_run_app es1 es2 m :
  machine_run (es1 ++ es2) m =
    let '(m1, out1) := machine_run es1 m in
    let '(m2, out2) := machine_run es2 m1 in (m2, out1 ++ out2).
Proof.
  revert m. induction es1 as [|e es1 IH]; intros m; cbn [app machine_run]; [by destruct (machine_run es2 m)|].
  destruct (step e m) as [m1 o1]. rewrite IH. destruct (machine_run es1 m1) as [m2 o2], (machine_run es2 m2) as [m3 o3].
  by rewrite app_assoc.
Qed.
End runs.

Section brackets.
Context {json : JsonLib}.

(** The block that is open after an event; [None] where it must not come. *)
Definition bracket (p : Phase) (e : StreamEvent) : option Phase :=
  match p, e with
  | PhaseNone, ThinkingStart => Some PhaseThinking
  | PhaseNone, TextStart => Some PhaseText
  | PhaseThinking, ThinkingDelta _ => Some PhaseThinking
  | PhaseThinking, ThinkingEnd _ => Some PhaseNone
  | PhaseText, TextDelta _ => Some PhaseText
  | PhaseText, TextEnd => Some PhaseNone
  | PhaseNone, (StreamToolUse _ _ _ | StreamDone _ _ _ _ | StreamError _) => Some PhaseNone
  | _, _ => None
  end.
Fixpoint brackets (p : Phase) (evs : list StreamEvent) : option Phase :=
  match evs with
  | [] => Some p
  | e :: evs' => p' ← bracket p e; brackets p' evs'
  end.

Lemma brackets_app p evs1 evs2 : brackets p (evs1 ++ evs2) = p' ← brackets p evs1; brackets p' evs2.
Proof. revert p. induction evs1 as [|e evs1 IH]; intros p; cbn; [done|]. destruct (bracket p e); cbn; [by rewrite IH|done]. Qed.

(** The text, the thinking and the calls of a stream. *)
Definition text_delta (e : StreamEvent) : string := match e with TextDelta s => s | _ => "" end.
Definition thinking_delta (e : StreamEvent) : string := match e with ThinkingDelta s => s | _ => "" end.
Definition is_call (e : StreamEvent) : bool := match e with StreamToolUse _ _ _ | StreamError _ => true | _ => false end.
Definition text_of (evs : list StreamEvent) : string := concat_str (text_delta <$> evs).
Definition thinking_of (evs : list StreamEvent) : string := concat_str (thinking_delta <$> evs).
Definition calls_of (evs : list StreamEvent) : list StreamEvent := filter (λ e, is_call e = true) evs.
End brackets.

(** ** Streams deliver what the machine makes of the events *)

Section delivery.
Context {json : JsonLib} {State Event : Type}.
Context (decode : RawEvent → result SseDecodeError Event) (stops : Event → bool).
Context (step : Event → State → State * list StreamEvent).
Abbreviation next := (next_event decode stops step).

(** The events a caller gets, and whether the stream has ended. *)
Fixpoint read_out (fuel : nat) (polls : list Poll) (s : Stream) : list StreamEvent * bool :=
  match fuel with
  | O => ([], false)
  | S fuel' =>
      match next polls s with
      | None => ([], false)
      | Some (None, _, _) => ([], true)
      | Some (Some e, s', polls') => let '(evs, ended) := read_out fuel' polls' s' in (e :: evs, ended)
      end
  end.

Fixpoint delivered (polls : list Poll) (m : State) : list StreamEvent * bool :=
  match polls with
  | [] => ([], false)
  | Cancelled :: _ => ([cancel_done], true)
  | TransportError :: _ => ([StreamError TransportFault], true)
  | Closed :: _ => ([], true)
  | Item e :: polls' =>
      match decode e with
      | Err _ => ([StreamError DecodeFault], true)
      | Ok typed =>
          let '(m', out) := step typed m in
          if stops typed then (out, true)
          else let '(evs, ended) := delivered polls' m' in (out ++ evs, ended)
      end
  end.

(** A stream with pending events hands them out first. *)
Lemma read_out_pending pending : ∀ n polls inner m finished,
  read_out (length pending + n) polls {| st_inner := inner; st_state := m; st_pending := pending; st_finished := finished |} =
    let '(evs, ended) := read_out n polls {| st_inner := inner; st_state := m; st_pending := []; st_finished := finished |} in
    (pending ++ evs, ended).
Proof.
  induction pending as [|e pending IH]; intros n polls inner m finished; [cbn [length Nat.add app]; by case_match|].
  cbn [length Nat.add read_out].
  assert (next polls {| st_inner := inner; st_state := m; st_pending := e :: pending; st_finished := finished |} =
    Some (Some e, {| st_inner := inner; st_state := m; st_pending := pending; st_finished := finished |}, polls)) as -> by (by destruct polls).
  rewrite IH. by destruct (read_out n _ _).
Qed.

Lemma read_out_over n polls inner m :
  read_out (S n) polls {| st_inner := inner; st_state := m; st_pending := []; st_finished := true |} = ([], true).
Proof. cbn [read_out]. by destruct polls. Qed.

Lemma read_out_delivers polls : ∀ m, ∃ n, ∀ k, read_out (n + k) polls (stream_of m) = delivered polls m.
Proof.
  induction polls as [|[|e| |] polls IH]; intros m; cbn [delivered].
  - exists 1%nat. by intros k.
  - exists 2%nat. intros k. cbn. by destruct polls.
  - destruct (decode e) as [typed|err] eqn:Ed.
    + destruct (step typed m) as [m' out] eqn:Es.
      assert (∀ n, read_out (S n) (Item e :: polls) (stream_of m) =
        read_out (S n) polls {| st_inner := true; st_state := m'; st_pending := out; st_finished := stops typed |}) as Hd.
      { intros n. cbn [read_out next_event st_pending stream_of st_finished st_inner negb st_state]. by rewrite Ed, Es. }
      destruct (stops typed) eqn:Et.
      * exists (S (length out)). intros k. cbn [Nat.add]. rewrite Hd.
        replace (S (length out + k)) with (length out + S k)%nat by lia. rewrite read_out_pending, read_out_over. by rewrite app_nil_r.
      * destruct (IH m') as [n Hn]. exists (S (length out + n)). intros k. cbn [Nat.add]. rewrite Hd.
        replace (S (length out + n + k)) with (length out + (n + S k))%nat by lia. rewrite read_out_pending.
        change {| st_inner := true; st_state := m'; st_pending := []; st_finished := false |} with (stream_of m').
        rewrite Hn. by destruct (delivered polls m').
    + exists 2%nat. intros k. cbn. rewrite Ed. by destruct polls.
  - exists 2%nat. intros k. cbn. by destruct polls.
  - exists 1%nat. by intros k.
Qed.

(** A whole conversation, decoded up to the event that stops it. *)
Lemma delivered_whole es : ∀ raws stop raw m, Forall (λ e, stops e = false) es → stops stop = true →
  decode <$> raws = Ok <$> es → decode raw = Ok stop → ∀ rest,
  delivered ((Item <$> raws) ++ Item raw :: rest) m = ((machine_run step (es ++ [stop]) m).2, true).
Proof.
  induction es as [|e es IH]; intros raws stop raw m Hes Hstop Hraws Hraw rest.
  - apply fmap_nil_inv in Hraws as ->. cbn. rewrite Hraw. destruct (step stop m) as [m' out]. rewrite Hstop. cbn. by rewrite app_nil_r.
  - destruct raws as [|r raws]; [done|]. cbn in Hraws. injection Hraws as Hr Hraws. apply Forall_cons in Hes as [He Hes].
    cbn. rewrite Hr. destruct (step e m) as [m' out]. rewrite He, (IH _ stop) by done. by destruct (machine_run step (es ++ [stop]) m').
Qed.

(** C31: a stream delivers what its machine makes of the events of the connection, in order
    and one at a time: all of it up to the event that stops it, and what came before a
    cancellation, an undecodable event, a failed or a closed connection, with a last event
    that says so in the first three cases. Then it is over, and it waits only while the
    connection does. *)
Theorem stream_delivers (polls : list Poll) (m : State) :
  (∃ n, ∀ k, read_out (n + k) polls (stream_of m) = delivered polls m) ∧
  (∀ es raws stop raw rest, Forall (λ e, stops e = false) es → stops stop = true →
     decode <$> raws = Ok <$> es → decode raw = Ok stop →
     delivered ((Item <$> raws) ++ Item raw :: rest) m = ((machine_run step (es ++ [stop]) m).2, true)) ∧
  (∀ es raws p rest, Forall (λ e, stops e = false) es → decode <$> raws = Ok <$> es →
     match p with Item _ => False | _ => True end →
     delivered ((Item <$> raws) ++ p :: rest) m =
       ((machine_run step es m).2 ++
          match p with Cancelled => [cancel_done] | TransportError => [StreamError TransportFault] | _ => [] end, true)).
Proof.
  split_and!; [apply read_out_delivers|intros; by eapply delivered_whole|].
  intros es. revert m. induction es as [|e es IH]; intros m raws p rest Hes Hraws Hp.
  - apply fmap_nil_inv in Hraws as ->. cbn. by destruct p.
  - destruct raws as [|r raws]; [done|]. cbn in Hraws. injection Hraws as Hr Hraws. apply Forall_cons in Hes as [He Hes].
    cbn. rewrite Hr. destruct (step e m) as [m' out]. rewrite He, IH by done. destruct (machine_run step es m') as [m2 o2]. cbn.
    by rewrite app_assoc.
Qed.
End delivery.
