(* ===== verification/LlmReassembly.v ===== *)
(** * What the stream machines make of a provider's events

    The chat machine synthesizes the brackets that its provider does not send; the Claude
    machine passes on those it is sent. Neither loses or reorders what is inside. *)

From S2P Require Import Prelude Text Tick Ids Track Cas Cell Block Hydrate Wire LlmStream.

Lemma concat_str_append l k : concat_str (l ++ k) = concat_str l +:+ concat_str k.
Proof. induction l as [|x l IH]; [done|]. cbn [app]. rewrite !concat_str_cons, IH. by rewrite str_app_assoc. Qed.
Lemma concat_str_fmap_app {A} (f : A → string) l k : concat_str (f <$> l ++ k) = concat_str (f <$> l) +:+ concat_str (f <$> k).
Proof. by rewrite fmap_app, concat_str_append. Qed.

(** ** Entries in the order of their index *)

Section entries.
Context {A : Type}.
Implicit Types (m : gmap Z A).

Definition in_order_keys (ks : list Z) : list Z := merge_sort Z.le (remove_dups ks).

Lemma sorted_keys (l1 l2 : list Z) : StronglySorted Z.le l1 → StronglySorted Z.le l2 → l1 ≡ₚ l2 → l1 = l2.
Proof. intros. by eapply (StronglySorted_unique Z.le). Qed.

Lemma in_index_order_keys m : StronglySorted Z.le (in_index_order m).*1 ∧ (in_index_order m).*1 ≡ₚ (map_to_list m).*1.
Proof.
  split; [|apply fmap_Permutation, merge_sort_Permutation].
  assert (Transitive (@index_le A)) by (intros x y z; unfold index_le; lia).
  assert (Total (@index_le A)) by (intros x y; unfold index_le; lia).
  assert (StronglySorted index_le (in_index_order m)) as Hs by (apply StronglySorted_merge_sort; apply _).
  induction Hs as [|x l Hl IH Hx]; cbn; constructor; [done|]. apply Forall_fmap. eapply Forall_impl; [exact Hx|]. done.
Qed.

(** The map's entries, listed by whatever lists its keys. *)
Lemma in_index_order_of m (ks : list Z) (f : Z → A) :
  (∀ i, m !! i = if decide (i ∈ ks) then Some (f i) else None) →
  in_index_order m = (λ i, (i, f i)) <$> in_order_keys ks.
Proof.
  intros Hm. pose proof (in_index_order_keys m) as [Hs Hp].
  assert (in_index_order m = (λ i, (i, f i)) <$> (in_index_order m).*1) as ->.
  { assert (∀ x, x ∈ in_index_order m → x.2 = f x.1) as Hx.
    { intros [i a] Hin. unfold in_index_order in Hin. rewrite merge_sort_Permutation in Hin. apply elem_of_map_to_list in Hin.
      rewrite Hm in Hin. cbn. destruct (decide (i ∈ ks)); [by injection Hin as <-|done]. }
    rewrite <- list_fmap_compose. rewrite <- (list_fmap_id (in_index_order m)) at 1. apply list_fmap_ext.
    intros j [i a] Hj. apply list_elem_of_lookup_2, Hx in Hj. cbn in *. by rewrite Hj. }
  f_equal. apply sorted_keys; [done|unfold in_order_keys; apply StronglySorted_merge_sort; apply _|].
  rewrite Hp. unfold in_order_keys. rewrite merge_sort_Permutation. apply NoDup_Permutation; [apply NoDup_fst_map_to_list|apply NoDup_remove_dups|].
  intros i. rewrite elem_of_remove_dups, list_elem_of_fmap. split.
  - intros ([j a]&->&Hin%elem_of_map_to_list). cbn. rewrite Hm in Hin. by destruct (decide (j ∈ ks)).
  - intros Hi. exists (i, f i). split; [done|]. apply elem_of_map_to_list. rewrite Hm. by destruct (decide (i ∈ ks)).
Qed.
End entries.

(** ** The chat machine *)

Section chat.
Context {json : JsonLib} {serde : SerdeJson} {object : JsonObject}.
Implicit Types (m : OpenAiMachine) (acc : OpenAiMachine * list StreamEvent) (es : list OpenAiSseEvent).

Definition choices_of (e : OpenAiSseEvent) : list ChunkChoice := match e with Chunk c => ch_choices c | ChatDone => [] end.
Definition choice_content (c : ChunkChoice) : string := default "" (d_content (cc_delta c)).
Definition choice_reasoning (c : ChunkChoice) : string := default "" (d_reasoning_content (cc_delta c)).

(** The fragments of tool calls, and where they are flushed. *)
Inductive Mark := Fragment (tc : ToolCallChunk) | Flush.
Definition choice_marks (c : ChunkChoice) : list Mark :=
  (Fragment <$> default [] (d_tool_calls (cc_delta c))) ++ match cc_finish_reason c with Some _ => [Flush] | None => [] end.
Definition event_marks (e : OpenAiSseEvent) : list Mark :=
  match e with Chunk c => ch_choices c ≫= choice_marks | ChatDone => [Flush] end.

(** One call of an index: its last id, its last name, all its arguments. *)
Definition fragments_of (i : Z) (frags : list ToolCallChunk) : list ToolCallChunk := filter (λ tc, tc_index tc = i) frags.
Definition fragments_at (i : Z) (frags : list ToolCallChunk) : ToolAccum := {|
  ta_id := last (omap tc_id (fragments_of i frags));
  ta_name := last (omap (λ tc, f ← tc_function tc; fc_name f) (fragments_of i frags));
  ta_arguments := concat_str ((λ tc, default "" (f ← tc_function tc; fc_arguments f)) <$> fragments_of i frags);
|}.
Definition assembled (frags : list ToolCallChunk) : list StreamEvent :=
  (λ i, call_event (i, fragments_at i frags)) <$> in_order_keys (tc_index <$> frags).

(** The calls of each stretch of fragments up to a flush; [pending] are those of the one under way. *)
Fixpoint calls_at (pending : list ToolCallChunk) (marks : list Mark) : list StreamEvent * list ToolCallChunk :=
  match marks with
  | [] => ([], pending)
  | Fragment tc :: marks' => calls_at (pending ++ [tc]) marks'
  | Flush :: marks' => let '(evs, open) := calls_at [] marks' in (assembled pending ++ evs, open)
  end.

Lemma calls_at_app pending marks1 marks2 :
  calls_at pending (marks1 ++ marks2) =
    let '(evs1, open1) := calls_at pending marks1 in
    let '(evs2, open2) := calls_at open1 marks2 in (evs1 ++ evs2, open2).
Proof.
  revert pending. induction marks1 as [|[tc|] marks1 IH]; intros pending; cbn [app calls_at].
  - by destruct (calls_at pending marks2).
  - by rewrite IH.
  - rewrite IH. destruct (calls_at [] marks1) as [e1 l1]. destruct (calls_at l1 marks2) as [e2 l2]. by rewrite app_assoc.
Qed.

(** *** What accumulates is what was gathered *)

Definition accumulated (frags : list ToolCallChunk) (m : gmap Z ToolAccum) : Prop :=
  ∀ i, m !! i = if decide (i ∈ tc_index <$> frags) then Some (fragments_at i frags) else None.

Lemma gather_snoc i frags tc : fragments_at i (frags ++ [tc]) =
  if decide (tc_index tc = i) then add_fragment tc (fragments_at i frags) else fragments_at i frags.
Proof.
  unfold fragments_at, fragments_of. rewrite filter_app. cbn. destruct (decide (tc_index tc = i)) as [Hi|Hi].
  - unfold add_fragment. cbn. rewrite !omap_app, concat_str_fmap_app. cbn. f_equal.
    + destruct (tc_id tc); cbn; [by rewrite last_snoc|by rewrite app_nil_r].
    + destruct (tc_function tc) as [[[]]|]; cbn; rewrite ?last_snoc, ?app_nil_r; done.
    + by rewrite str_app_nil_r.
  - by rewrite app_nil_r.
Qed.

Lemma gather_nil i frags : i ∉ tc_index <$> frags → fragments_at i frags = accum_default.
Proof.
  intros Hi. unfold fragments_at, fragments_of. destruct (filter _ frags) as [|tc l] eqn:E; [done|].
  assert (tc ∈ filter (λ tc, tc_index tc = i) frags) as [<- Hin]%list_elem_of_filter by (rewrite E; left).
  destruct Hi. by apply list_elem_of_fmap_2.
Qed.

Lemma accumulate_ok frags m tc : accumulated frags (om_tool_calls m) →
  accumulated (frags ++ [tc]) (om_tool_calls (accumulate_tool_call m tc)).
Proof.
  intros Hm i. unfold accumulate_tool_call. cbn [om_tool_calls set_field].
  rewrite gather_snoc, fmap_app. destruct (decide (tc_index tc = i)) as [<-|Hne].
  - rewrite lookup_insert_eq, decide_True by (apply elem_of_app; right; left). do 2 f_equal.
    rewrite Hm. destruct (decide _) as [|Hn]; [done|]. cbn. by rewrite gather_nil.
  - rewrite lookup_insert_ne, Hm by done. apply decide_ext. rewrite elem_of_app. cbn. rewrite list_elem_of_singleton. naive_solver.
Qed.

Lemma accumulates_ok frags m tcs : accumulated frags (om_tool_calls m) →
  accumulated (frags ++ tcs) (om_tool_calls (foldl accumulate_tool_call m tcs)) ∧
  om_phase (foldl accumulate_tool_call m tcs) = om_phase m.
Proof.
  revert frags m. induction tcs as [|tc tcs IH]; intros frags m Hm; cbn [foldl]; [by rewrite app_nil_r|].
  destruct (IH (frags ++ [tc]) (accumulate_tool_call m tc)) as [Ha Hp]; [by apply accumulate_ok|].
  rewrite <- app_assoc in Ha. done.
Qed.

Lemma assembled_flush frags m : accumulated frags (om_tool_calls m) →
  call_event <$> in_index_order (om_tool_calls m) = assembled frags.
Proof. intros Hm. rewrite (in_index_order_of _ _ _ Hm). unfold assembled. by rewrite <- list_fmap_compose. Qed.

Lemma call_event_calls entry : is_call (call_event entry) = true ∧ bracket PhaseNone (call_event entry) = Some PhaseNone ∧
  text_delta (call_event entry) = "" ∧ thinking_delta (call_event entry) = "".
Proof. destruct entry as [i [id [name|] args]]; cbn; [|done]. by repeat case_match. Qed.

Lemma call_events entries : let evs := call_event <$> entries in
  calls_of evs = evs ∧ brackets PhaseNone evs = Some PhaseNone ∧ text_of evs = "" ∧ thinking_of evs = "".
Proof.
  cbn zeta. induction entries as [|x l (H1&H2&H3&H4)]; [done|]. destruct (call_event_calls x) as (Hc&Hb&Ht&Hth).
  unfold calls_of, text_of, thinking_of in *. cbn [fmap list_fmap brackets]. rewrite filter_cons_True by done.
  rewrite !concat_str_cons, Hb, Ht, Hth. cbn [mbind option_bind]. by rewrite H1, H2, H3, H4.
Qed.

(** *** One event after another *)

(** What holds of the events since the phase was [p0] and the fragments [frags0] pending. *)
Record holds (p0 : Phase) (frags0 : list ToolCallChunk) (txt think : string) (marks : list Mark) acc : Prop := {
  h_brackets : brackets p0 acc.2 = Some (om_phase acc.1);
  h_text : text_of acc.2 = txt;
  h_thinking : thinking_of acc.2 = think;
  h_calls : ∃ frags, calls_at frags0 marks = (calls_of acc.2, frags) ∧ accumulated frags (om_tool_calls acc.1);
}.

Lemma holds_start frags m : accumulated frags (om_tool_calls m) → holds (om_phase m) frags "" "" [] (m, []).
Proof. intros Hm. split; try done. by exists frags. Qed.

(** An event that is no call, at a place where it may come. *)
Lemma holds_event p0 f0 txt think marks m m' out e : holds p0 f0 txt think marks (m, out) → is_call e = false →
  bracket (om_phase m) e = Some (om_phase m') → om_tool_calls m' = om_tool_calls m →
  holds p0 f0 (txt +:+ text_delta e) (think +:+ thinking_delta e) marks (m', out ++ [e]).
Proof.
  intros [Hb Ht Hth (f&Hc&Ha)] Hne He Em. cbn [fst snd] in *. split; cbn [fst snd].
  - rewrite brackets_app, Hb. cbn. by rewrite He.
  - unfold text_of in *. rewrite concat_str_fmap_app, Ht. cbn. by rewrite str_app_nil_r.
  - unfold thinking_of in *. rewrite concat_str_fmap_app, Hth. cbn. by rewrite str_app_nil_r.
  - exists f. rewrite Em. unfold calls_of in *. rewrite filter_app, filter_cons_False, filter_nil, app_nil_r by (by rewrite Hne). done.
Qed.

Lemma holds_close p0 f0 txt think marks acc : holds p0 f0 txt think marks acc →
  holds p0 f0 txt think marks (close_open_block acc) ∧ om_phase (close_open_block acc).1 = PhaseNone.
Proof.
  destruct acc as [m out]. intros Hh. split; [|done]. unfold close_open_block.
  destruct (om_phase m) eqn:Ep; cbn [om_phase].
  - destruct Hh as [Hb Ht Hth Hc]. split; cbn in *; [by rewrite Hb, Ep|done..].
  - rewrite <- (str_app_nil_r txt), <- (str_app_nil_r think).
    apply (holds_event _ _ _ _ _ _ _ _ (ThinkingEnd (thinking_signature m)) Hh); [done|by rewrite Ep|done].
  - rewrite <- (str_app_nil_r txt), <- (str_app_nil_r think).
    apply (holds_event _ _ _ _ _ _ _ _ TextEnd Hh); [done|by rewrite Ep|done].
Qed.

Lemma filled_default s : match filled s with Some t => t | None => "" end = default "" s.
Proof. destruct s as [t|]; [|done]. cbn. by case_bool_decide. Qed.

Lemma holds_reasoning p0 f0 txt think marks acc rc : holds p0 f0 txt think marks acc →
  holds p0 f0 txt (think +:+ default "" rc) marks (on_reasoning rc acc).
Proof.
  intros Hh. unfold on_reasoning. rewrite <- filled_default. destruct (filled rc) as [t|]; [|by rewrite str_app_nil_r].
  assert (∃ m out, (if bool_decide (om_phase acc.1 = PhaseThinking) then acc
      else let '(m, out) := close_open_block acc in (m <| om_phase := PhaseThinking |>, out ++ [ThinkingStart])) = (m, out) ∧
    om_phase m = PhaseThinking ∧ holds p0 f0 txt think marks (m, out)) as (m&out&->&Hp&Hh').
  { case_bool_decide as Hp; [destruct acc as [m out]; by exists m, out|].
    destruct (holds_close _ _ _ _ _ _ Hh) as [Hc Hn]. destruct (close_open_block acc) as [m out].
    do 2 eexists. split_and!; [done..|]. rewrite <- (str_app_nil_r txt), <- (str_app_nil_r think).
    apply (holds_event _ _ _ _ _ _ _ _ ThinkingStart Hc); [done| |done]. cbn in Hn. by rewrite Hn. }
  pose proof (holds_event _ _ _ _ _ _ m _ (ThinkingDelta t) Hh') as He. cbn in He. rewrite str_app_nil_r in He.
  apply He; [done| |done]. by rewrite Hp.
Qed.

Lemma holds_content p0 f0 txt think marks acc ct : holds p0 f0 txt think marks acc →
  holds p0 f0 (txt +:+ default "" ct) think marks (on_content ct acc).
Proof.
  intros Hh. unfold on_content. rewrite <- filled_default. destruct (filled ct) as [t|]; [|by rewrite str_app_nil_r].
  assert (∃ m out, (if bool_decide (om_phase acc.1 = PhaseText) then acc
      else let '(m, out) := close_open_block acc in (m <| om_phase := PhaseText |>, out ++ [TextStart])) = (m, out) ∧
    om_phase m = PhaseText ∧ holds p0 f0 txt think marks (m, out)) as (m&out&->&Hp&Hh').
  { case_bool_decide as Hp; [destruct acc as [m out]; by exists m, out|].
    destruct (holds_close _ _ _ _ _ _ Hh) as [Hc Hn]. destruct (close_open_block acc) as [m out].
    do 2 eexists. split_and!; [done..|]. rewrite <- (str_app_nil_r txt), <- (str_app_nil_r think).
    apply (holds_event _ _ _ _ _ _ _ _ TextStart Hc); [done| |done]. cbn in Hn. by rewrite Hn. }
  pose proof (holds_event _ _ _ _ _ _ m _ (TextDelta t) Hh') as He. cbn in He. rewrite str_app_nil_r in He.
  apply He; [done| |done]. by rewrite Hp.
Qed.

Lemma calls_at_fragments pending tcs : calls_at pending (Fragment <$> tcs) = ([], pending ++ tcs).
Proof.
  revert pending. induction tcs as [|tc tcs IH]; intros pending; cbn; [by rewrite app_nil_r|]. rewrite IH. by rewrite <- app_assoc.
Qed.

Lemma holds_tool_calls p0 f0 txt think marks acc tcs : holds p0 f0 txt think marks acc →
  holds p0 f0 txt think (marks ++ (Fragment <$> default [] tcs)) (on_tool_calls tcs acc).
Proof.
  intros Hh. unfold on_tool_calls. destruct tcs as [tcs|]; cbn; [|by rewrite app_nil_r].
  assert (holds p0 f0 txt think marks (if bool_decide (om_phase acc.1 = PhaseNone) then acc else close_open_block acc)) as Hh'.
  { case_bool_decide; [done|]. by apply holds_close. }
  destruct (if bool_decide _ then _ else _) as [m out]. destruct Hh' as [Hb Ht Hth (f&Hc&Ha)]. cbn in *.
  destruct (accumulates_ok f m tcs Ha) as [Ha' Hp]. split; cbn; [by rewrite Hp|done..|].
  exists (f ++ tcs). split; [|done]. by rewrite calls_at_app, Hc, calls_at_fragments, app_nil_r.
Qed.

Lemma holds_flush p0 f0 txt think marks acc : holds p0 f0 txt think marks acc → om_phase acc.1 = PhaseNone →
  holds p0 f0 txt think (marks ++ [Flush]) (flush_tool_calls acc) ∧ om_phase (flush_tool_calls acc).1 = PhaseNone.
Proof.
  destruct acc as [m out]. intros [Hb Ht Hth (f&Hc&Ha)] Hp. cbn [fst snd] in *. split; [|done]. unfold flush_tool_calls.
  destruct (call_events (in_index_order (om_tool_calls m))) as (Hcs&Hbs&Hts&Hths). split; cbn [fst snd om_phase set_field].
  - by rewrite brackets_app, Hb, Hp.
  - unfold text_of in *. by rewrite concat_str_fmap_app, Ht, Hts, str_app_nil_r.
  - unfold thinking_of in *. by rewrite concat_str_fmap_app, Hth, Hths, str_app_nil_r.
  - exists []. split; [|by intros i]. rewrite calls_at_app, Hc. cbn. unfold calls_of in *.
    by rewrite filter_app, Hcs, app_nil_r, <- (assembled_flush f m Ha).
Qed.

Lemma holds_choice p0 f0 txt think marks acc c : holds p0 f0 txt think marks acc →
  holds p0 f0 (txt +:+ choice_content c) (think +:+ choice_reasoning c) (marks ++ choice_marks c) (on_choice acc c).
Proof.
  intros Hh. unfold on_choice, choice_content, choice_reasoning, choice_marks. cbn zeta.
  apply holds_reasoning with (rc := d_reasoning_content (cc_delta c)) in Hh.
  apply holds_content with (ct := d_content (cc_delta c)) in Hh.
  apply holds_tool_calls with (tcs := d_tool_calls (cc_delta c)) in Hh.
  destruct (cc_finish_reason c) as [fr|]; [|by rewrite app_nil_r].
  apply holds_close in Hh as [Hh Hn]. apply holds_flush in Hh as [Hh _]; [|done]. rewrite <- app_assoc in Hh.
  destruct (flush_tool_calls _) as [m out]. destruct Hh as [Hb Ht Hth Hc]. by split.
Qed.

(** *** What every operation leaves alone *)

Definition is_done (e : StreamEvent) : bool := match e with StreamDone _ _ _ _ => true | _ => false end.

Record extends acc acc' : Prop := {
  ex_out : ∃ l, acc'.2 = acc.2 ++ l ∧ Forall (λ e, is_done e = false) l;
  ex_usage : om_usage acc'.1 = om_usage acc.1;
  ex_stop : om_stop_reason acc'.1 = om_stop_reason acc.1;
}.
Lemma extends_refl acc : extends acc acc.
Proof. split; [|done..]. exists []. by rewrite app_nil_r. Qed.
Lemma extends_trans acc1 acc2 acc3 : extends acc1 acc2 → extends acc2 acc3 → extends acc1 acc3.
Proof.
  intros [(l1&H1&F1) U1 S1] [(l2&H2&F2) U2 S2]. split; [|by rewrite U2|by rewrite S2].
  exists (l1 ++ l2). split; [by rewrite H2, H1, app_assoc|by apply Forall_app].
Qed.
Lemma extends_event m m' out e : is_done e = false → om_usage m' = om_usage m → om_stop_reason m' = om_stop_reason m →
  extends (m, out) (m', out ++ [e]).
Proof. intros. split; [|done..]. exists [e]. split; [done|by constructor]. Qed.
Lemma extends_phase m out p : extends (m, out) (m <| om_phase := p |>, out).
Proof. split; [|done..]. exists []. by rewrite app_nil_r. Qed.

Lemma extends_close acc : extends acc (close_open_block acc).
Proof.
  destruct acc as [m out]. unfold close_open_block. destruct (om_phase m); [apply extends_phase|by apply extends_event..].
Qed.

Lemma extends_reasoning rc acc : extends acc (on_reasoning rc acc).
Proof.
  unfold on_reasoning. destruct (filled rc); [|apply extends_refl]. case_bool_decide.
  - destruct acc as [m out]. by apply extends_event.
  - pose proof (extends_close acc). destruct (close_open_block acc) as [m out].
    eapply extends_trans; [done|]. eapply extends_trans; by apply extends_event.
Qed.
Lemma extends_content ct acc : extends acc (on_content ct acc).
Proof.
  unfold on_content. destruct (filled ct); [|apply extends_refl]. case_bool_decide.
  - destruct acc as [m out]. by apply extends_event.
  - pose proof (extends_close acc). destruct (close_open_block acc) as [m out].
    eapply extends_trans; [done|]. eapply extends_trans; by apply extends_event.
Qed.
Lemma extends_tool_calls tcs acc : extends acc (on_tool_calls tcs acc).
Proof.
  unfold on_tool_calls. destruct tcs as [tcs|]; [|apply extends_refl].
  assert (∀ tcs m, om_usage (foldl accumulate_tool_call m tcs) = om_usage m ∧ om_stop_reason (foldl accumulate_tool_call m tcs) = om_stop_reason m) as Hf.
  { clear. intros tcs. induction tcs as [|tc tcs IH]; intros m; cbn; [done|]. by destruct (IH (accumulate_tool_call m tc)) as [-> ->]. }
  assert (extends acc (if bool_decide (om_phase acc.1 = PhaseNone) then acc else close_open_block acc)) as He
    by (case_bool_decide; [apply extends_refl|apply extends_close]).
  destruct (if bool_decide _ then _ else _) as [m out]. eapply extends_trans; [done|]. destruct (Hf tcs m).
  split; [|done..]. exists []. by rewrite app_nil_r.
Qed.
Lemma extends_flush acc : extends acc (flush_tool_calls acc).
Proof.
  destruct acc as [m out]. split; [|done..]. eexists. split; [done|]. apply Forall_fmap, Forall_true.
  intros [i [id [name|] args]]; cbn; [|done]. by repeat case_match.
Qed.

Lemma choice_extends acc c : ∃ l, (on_choice acc c).2 = acc.2 ++ l ∧ Forall (λ e, is_done e = false) l ∧
  om_usage (on_choice acc c).1 = om_usage acc.1 ∧
  om_stop_reason (on_choice acc c).1 = or_keep (cc_finish_reason c) (om_stop_reason acc.1).
Proof.
  unfold on_choice. cbn zeta.
  pose proof (extends_trans _ _ _ (extends_reasoning (d_reasoning_content (cc_delta c)) acc)
    (extends_trans _ _ _ (extends_content (d_content (cc_delta c)) _) (extends_tool_calls (d_tool_calls (cc_delta c)) _))) as He.
  destruct (cc_finish_reason c) as [fr|].
  - pose proof (extends_trans _ _ _ He (extends_trans _ _ _ (extends_close _) (extends_flush _))) as [(l&Ho&Fl) Hu Hs].
    destruct (flush_tool_calls _) as [m out]. by exists l.
  - destruct He as [(l&Ho&Fl) Hu Hs]. by exists l.
Qed.

Lemma choices_extend cs : ∀ acc, ∃ l, (foldl on_choice acc cs).2 = acc.2 ++ l ∧ Forall (λ e, is_done e = false) l ∧
  om_usage (foldl on_choice acc cs).1 = om_usage acc.1 ∧
  om_stop_reason (foldl on_choice acc cs).1 = or_keep (last (omap cc_finish_reason cs)) (om_stop_reason acc.1).
Proof.
  induction cs as [|c cs IH] using rev_ind; intros acc; cbn [foldl]; [exists []; by rewrite app_nil_r|].
  rewrite foldl_snoc. destruct (IH acc) as (l&Hl&Fl&Hu&Hs). set (acc1 := foldl on_choice acc cs) in *.
  destruct (choice_extends acc1 c) as (l'&Hl'&Fl'&Hu'&Hs'). exists (l ++ l'). split_and!.
  - by rewrite Hl', Hl, app_assoc.
  - by apply Forall_app.
  - by rewrite Hu'.
  - rewrite Hs', Hs, omap_app. cbn. destruct (cc_finish_reason c); [by rewrite last_snoc|by rewrite app_nil_r].
Qed.

(** *** Whole conversations *)

Definition texts (cs : list ChunkChoice) : string := concat_str (choice_content <$> cs).
Definition thoughts (cs : list ChunkChoice) : string := concat_str (choice_reasoning <$> cs).

Lemma holds_choices p0 f0 cs : ∀ txt think marks acc, holds p0 f0 txt think marks acc →
  holds p0 f0 (txt +:+ texts cs) (think +:+ thoughts cs) (marks ++ (cs ≫= choice_marks)) (foldl on_choice acc cs).
Proof.
  unfold texts, thoughts. induction cs as [|c cs IH]; intros txt think marks acc Hh; cbn [foldl fmap list_fmap mbind list_bind].
  - by rewrite !str_app_nil_r, app_nil_r.
  - rewrite !concat_str_cons, !str_app_assoc, app_assoc. by apply IH, holds_choice.
Qed.

Lemma step_holds e m f : accumulated f (om_tool_calls m) →
  holds (om_phase m) f (texts (choices_of e)) (thoughts (choices_of e)) (event_marks e) (openai_step e m) ∧
  (e = ChatDone → om_phase (openai_step e m).1 = PhaseNone).
Proof.
  intros Ha. destruct e as [c|]; cbn [openai_step choices_of event_marks].
  - split; [|done]. apply (holds_choices _ _ (ch_choices c) "" "" []).
match goal with |- holds _ _ _ _ _ (?m1, _) => exact (holds_start f m1 Ha) end.
  - destruct (holds_close _ _ _ _ _ _ (holds_start f m Ha)) as [Hc Hn].
    destruct (holds_flush _ _ _ _ _ _ Hc Hn) as [Hf Hp]. destruct (flush_tool_calls _) as [m' out]. cbn in Hp.
    split; [|done].
    assert (∃ a b c d, openai_done m' = StreamDone a b c d) as (a&b&c&d&->) by (unfold openai_done; destruct (om_usage m'); by do 4 eexists).
    apply (holds_event _ _ _ _ _ _ m' _ (StreamDone a b c d) Hf); [done| |done]. by rewrite Hp.
Qed.

Lemma run_holds es : ∀ m f, accumulated f (om_tool_calls m) →
  holds (om_phase m) f (texts (es ≫= choices_of)) (thoughts (es ≫= choices_of)) (es ≫= event_marks) (machine_run openai_step es m).
Proof.
  induction es as [|e es IH]; intros m f Ha; cbn [machine_run mbind list_bind]; [by apply holds_start|].
  destruct (step_holds e m f Ha) as [[Hb1 Ht1 Hth1 (f1&Hc1&Ha1)] _]. destruct (openai_step e m) as [m1 o1]. cbn [fst snd] in *.
  destruct (IH m1 f1 Ha1) as [Hb2 Ht2 Hth2 (f2&Hc2&Ha2)]. destruct (machine_run openai_step es m1) as [m2 o2]. cbn [fst snd] in *.
  unfold texts, thoughts, text_of, thinking_of, calls_of in *. split; cbn [fst snd].
  - by rewrite brackets_app, Hb1.
  - unfold text_of. by rewrite !concat_str_fmap_app, Ht1, Ht2.
  - unfold thinking_of. by rewrite !concat_str_fmap_app, Hth1, Hth2.
  - exists f2. split; [|done]. unfold calls_of. by rewrite calls_at_app, Hc1, Hc2, filter_app.
Qed.

Lemma or_keep_app {A} (l1 l2 : list A) old : or_keep (last (l1 ++ l2)) old = or_keep (last l2) (or_keep (last l1) old).
Proof. rewrite last_app. by destruct (last l2). Qed.

Definition usage_of (e : OpenAiSseEvent) : option ChatUsage := match e with Chunk c => ch_usage c | ChatDone => None end.

Lemma run_extends es : Forall (λ e, openai_stops e = false) es → ∀ m,
  Forall (λ e, is_done e = false) (machine_run openai_step es m).2 ∧
  om_usage (machine_run openai_step es m).1 = or_keep (last (omap usage_of es)) (om_usage m) ∧
  om_stop_reason (machine_run openai_step es m).1 = or_keep (last (omap cc_finish_reason (es ≫= choices_of))) (om_stop_reason m).
Proof.
  induction 1 as [|e es He _ IH]; intros m; [by split_and!|]. destruct e as [c|]; [|done]. cbn [machine_run].
  match goal with |- context [openai_step _ ?m0] => change (openai_step (Chunk c) m0) with
    (foldl on_choice (set_field om_usage (λ _, or_keep (ch_usage c) (om_usage m)) m, []) (ch_choices c)) end.
  match goal with |- context [foldl on_choice (?m1, [])] => destruct (choices_extend (ch_choices c) (m1, [])) as (l&Hl&Fl&Hu&Hs) end.
  destruct (foldl on_choice _ _) as [m1 o1]. destruct (IH m1) as (Hd&Hu'&Hs'). destruct (machine_run openai_step es m1) as [m2 o2].
  cbn [fst snd] in *. subst o1. cbn [om_usage om_stop_reason set_field] in *. split_and!.
  - by apply Forall_app.
  - rewrite Hu', Hu. cbn. destruct (ch_usage c) as [u|]; cbn; [|done]. symmetry. apply (or_keep_app [u]).
  - rewrite Hs', Hs. cbn [mbind list_bind choices_of]. by rewrite omap_app, or_keep_app.
Qed.

(** C16: whatever the server sends, the blocks of the chat stream are bracketed, one open
    at a time, with tool calls and errors between them; the text, and the thinking, are
    what the chunks carried, in order; every fragment of a tool call goes into the one call
    of its index at the next flush, in the order of the indices; and [DONE] closes what is
    open, flushes what is pending, and reports the last finish reason and usage in the one
    event that ends the stream. *)
Theorem chat_reassembles (es : list OpenAiSseEvent) (reasoning : bool) (Hes : Forall (λ e, openai_stops e = false) es) :
  (let '(m, out) := machine_run openai_step es (openai_new reasoning) in
   brackets PhaseNone out = Some (om_phase m) ∧ Forall (λ e, is_done e = false) out) ∧
  let cs := es ≫= choices_of in
  let '(m, out) := machine_run openai_step (es ++ [ChatDone]) (openai_new reasoning) in
  brackets PhaseNone out = Some PhaseNone ∧ text_of out = texts cs ∧ thinking_of out = thoughts cs ∧
  calls_at [] ((es ≫= event_marks) ++ [Flush]) = (calls_of out, []) ∧
  ∃ out', out = out' ++ [openai_done m] ∧ Forall (λ e, is_done e = false) out' ∧
    om_stop_reason m = last (omap cc_finish_reason cs) ∧ om_usage m = last (omap usage_of es).
Proof.
  cbn zeta. set (m0 := openai_new reasoning). assert (accumulated [] (om_tool_calls m0)) as H0 by (by intros i).
  pose proof (run_holds es m0 [] H0) as [Hb Ht Hth (f&Hc&Ha)]. change (om_phase m0) with PhaseNone in Hb.
  destruct (run_extends es Hes m0) as (Hd&Hu&Hs). rewrite machine_run_app. destruct (machine_run openai_step es m0) as [m1 o1].
  cbn [fst snd] in *. split; [done|]. cbn [machine_run].
  destruct (step_holds ChatDone m1 f Ha) as [[Hb2 Ht2 Hth2 (f2&Hc2&Ha2)] Hp]. specialize (Hp eq_refl).
  pose proof (extends_trans _ _ _ (extends_close (m1, [])) (extends_flush _)) as [(l&Hl&Fl) Hu2 Hs2].
  cbn [openai_step] in *. destruct (flush_tool_calls _) as [m2 o2]. cbn [fst snd choices_of event_marks] in *. rewrite app_nil_r. subst o2.
  unfold text_of, thinking_of, calls_of in *. split_and!.
  - by rewrite brackets_app, Hb; cbn [mbind option_bind]; rewrite Hb2, Hp.
  - by rewrite concat_str_fmap_app, Ht, Ht2; unfold texts; cbn; rewrite str_app_nil_r.
  - by rewrite concat_str_fmap_app, Hth, Hth2; unfold thoughts; cbn; rewrite str_app_nil_r.
  - rewrite calls_at_app, Hc, filter_app. cbn in Hc2 |- *. by injection Hc2 as <- <-.
  - exists (o1 ++ l). split_and!; [by rewrite app_assoc|by apply Forall_app| |].
    + rewrite Hs2, Hs. change (om_stop_reason m0) with (@None string). by destruct (last (omap cc_finish_reason _)).
    + rewrite Hu2, Hu. change (om_usage m0) with (@None ChatUsage). by destruct (last (omap usage_of _)).
Qed.
End chat.

(** ** The Claude machine *)

Section claude.
Context {json : JsonLib} {serde : SerdeJson} {object : JsonObject}.
Implicit Types (m : ClaudeMachine) (es : list ClaudeSseEvent).

(** A block as the provider sends it: its deltas in order. *)
Inductive ThinkingPart := Thought (s : string) | Signature (s : string).
Inductive SentBlock :=
  | SentText (deltas : list string)
  | SentThinking (parts : list ThinkingPart)
  | SentToolUse (id name : string) (partials : list string).

Definition part_delta (p : ThinkingPart) : BlockDelta :=
  match p with Thought s => DeltaThinking s | Signature s => DeltaSignature s end.
Definition thought (p : ThinkingPart) : option StreamEvent := match p with Thought s => Some (ThinkingDelta s) | Signature _ => None end.
Definition signed (p : ThinkingPart) : string := match p with Thought _ => "" | Signature s => s end.

Definition wire (i : Z) (b : SentBlock) : list ClaudeSseEvent :=
  match b with
  | SentText ds => ContentBlockStart i (StartedText "") :: ((λ d, ContentBlockDelta i (DeltaText d)) <$> ds)
  | SentThinking ps => ContentBlockStart i (StartedThinking "") :: ((λ p, ContentBlockDelta i (part_delta p)) <$> ps)
  | SentToolUse id name ps =>
      ContentBlockStart i (StartedToolUse id name json_object) :: ((λ p, ContentBlockDelta i (DeltaInputJson p)) <$> ps)
  end ++ [ContentBlockStop i].

(** What the block writer hears of it. *)
Definition heard (b : SentBlock) : list StreamEvent :=
  match b with
  | SentText ds => TextStart :: (TextDelta <$> ds) ++ [TextEnd]
  | SentThinking ps => ThinkingStart :: omap thought ps ++ [closing (BsThinking (concat_str (signed <$> ps)))]
  | SentToolUse id name ps => [closing (BsToolUse id name (concat_str ps))]
  end.

(** Deltas that go on with the block of an index. *)
Lemma run_deltas {A} (i : Z) (delta : A → BlockDelta) (says : A → option StreamEvent) (state : string → BlockState) (adds : A → string) :
  (∀ a s m, cm_blocks m !! i = Some (state s) →
    claude_step (ContentBlockDelta i (delta a)) m = (put_state i (state (s +:+ adds a)) m, option_list (says a))) →
  ∀ l s m rest, cm_blocks m !! i = Some (state s) →
    machine_run claude_step (((λ a, ContentBlockDelta i (delta a)) <$> l) ++ rest) m =
      let '(m', out) := machine_run claude_step rest (put_state i (state (s +:+ concat_str (adds <$> l))) m) in
      (m', omap says l ++ out).
Proof.
  intros Hstep l. induction l as [|a l IH]; intros s m rest Hm; cbn [fmap list_fmap app omap list_omap].
  - change (concat_str []) with "". rewrite str_app_nil_r. replace (put_state i (state s) m) with m; [by destruct (machine_run _ rest m)|].
    unfold put_state. destruct m. cbn in *. by rewrite insert_id.
  - cbn [machine_run]. rewrite (Hstep _ _ _ Hm), (IH (s +:+ adds a)) by (unfold put_state; cbn; by rewrite lookup_insert_eq).
    rewrite concat_str_cons, str_app_assoc. unfold put_state at 2. unfold put_state. cbn. rewrite insert_insert_eq.
    match goal with |- context [machine_run _ rest ?m1] => destruct (machine_run claude_step rest m1) as [m2 o2] end. by destruct (says a).
Qed.

Lemma put_block_same i s1 s2 m : put_state i s2 (put_state i s1 m) = put_state i s2 m.
Proof. unfold put_state. cbn. by rewrite insert_insert_eq. Qed.

Lemma omap_Some {A B} (f : A → B) (l : list A) : omap (λ a, Some (f a)) l = f <$> l.
Proof. induction l as [|a l IH]; [done|]. cbn in *. by rewrite IH. Qed.
Lemma omap_None {A B} (l : list A) : omap (λ _, @None B) l = [].
Proof. by induction l as [|a l IH]. Qed.

(** The state that a block's deltas lead to. *)
Definition gathered (b : SentBlock) : BlockState :=
  match b with
  | SentText _ => BsText
  | SentThinking ps => BsThinking (concat_str (signed <$> ps))
  | SentToolUse id name ps => BsToolUse id name (concat_str ps)
  end.

Lemma block_run i b m : machine_run claude_step (wire i b) m = (m <| cm_blocks := delete i (cm_blocks m) |>, heard b).
Proof.
  assert (∀ m s, machine_run claude_step [ContentBlockStop i] (put_state i s m) =
    (m <| cm_blocks := delete i (cm_blocks m) |>, [closing s])) as Hstop.
  { intros m' s. cbn [machine_run claude_step]. unfold on_block_stop, put_state. cbn. by rewrite lookup_insert_eq, delete_insert_eq. }
  assert (∀ s, cm_blocks (put_state i s m) !! i = Some s) as Hput by (intros s; apply lookup_insert_eq).
  destruct b as [ds|ps|id name ps]; unfold wire; cbn [app machine_run claude_step on_block_start heard].
  - rewrite (run_deltas i DeltaText (λ d, Some (TextDelta d)) (λ _, BsText) (λ _, "")) with (s := "");
      [|intros a s m' Hm; cbn; unfold on_block_delta; rewrite Hm; f_equal; unfold put_state; destruct m'; cbn in *; by rewrite insert_id|done].
    by rewrite put_block_same, Hstop, omap_Some.
  - rewrite (run_deltas i part_delta thought BsThinking signed) with (s := "");
      [|intros [s'|s'] s m' Hm; cbn; unfold on_block_delta; rewrite Hm; cbn; f_equal; rewrite str_app_nil_r; unfold put_state; destruct m'; cbn in *; by rewrite insert_id|done].
    by rewrite put_block_same, Hstop.
  - rewrite (run_deltas i DeltaInputJson (λ _, None) (BsToolUse id name) (λ p, p)) with (s := "");
      [|intros a s m' Hm; cbn; unfold on_block_delta; by rewrite Hm|done].
    by rewrite put_block_same, Hstop, omap_None, list_fmap_id.
Qed.

Lemma heard_brackets b : brackets PhaseNone (heard b) = Some PhaseNone.
Proof.
  destruct b as [ds|ps|id name ps]; cbn [heard].
  - cbn. induction ds as [|d ds IH]; cbn; done.
  - unfold closing. match goal with |- context [ThinkingEnd ?x] => generalize x end. intros x. cbn.
    by induction ps as [|[s|s] ps IH].
  - cbn. by repeat case_match.
Qed.

(** *** One block after another *)

Definition is_ping (e : ClaudeSseEvent) : bool := match e with Ping => true | _ => false end.

Lemma run_pings es : ∀ m, machine_run claude_step (filter (λ e, is_ping e = false) es) m = machine_run claude_step es m.
Proof.
  induction es as [|e es IH]; intros m; [done|]. destruct (decide (is_ping e = false)) as [He|He].
  - rewrite filter_cons_True by done. cbn [machine_run]. destruct (claude_step e m). by rewrite IH.
  - rewrite filter_cons_False by done. destruct e; try done. rewrite IH. cbn. by destruct (machine_run claude_step es m).
Qed.

Definition message (u : ResponseUsage) (bs : list (Z * SentBlock)) (reason : option string) (v : ResponseUsage) : list ClaudeSseEvent :=
  MessageStart u :: concat ((λ b, wire b.1 b.2) <$> bs) ++ [MessageDelta reason v; MessageStop].

Lemma blocks_run bs : ∀ m, ∃ ms, machine_run claude_step (concat ((λ b, wire b.1 b.2) <$> bs)) m =
  (m <| cm_blocks := ms |>, concat ((λ b, heard b.2) <$> bs)).
Proof.
  induction bs as [|[i b] bs IH]; intros m; cbn [fmap list_fmap concat fst snd].
  - exists (cm_blocks m). by destruct m.
  - rewrite machine_run_app, block_run.
    match goal with |- context [machine_run _ _ ?m1] => destruct (IH m1) as [ms ->] end. by exists ms.
Qed.

(** *** Blocks side by side *)

Definition index_of (e : ClaudeSseEvent) : option Z :=
  match e with ContentBlockStart i _ | ContentBlockDelta i _ | ContentBlockStop i => Some i | _ => None end.

(** The events that those about the block [i] give rise to. *)
Fixpoint heard_at (i : Z) es m : list StreamEvent :=
  match es with
  | [] => []
  | e :: es' =>
      let '(m', out) := claude_step e m in
      (if bool_decide (index_of e = Some i) then out else []) ++ heard_at i es' m'
  end.

Lemma step_elsewhere i e m : index_of e ≠ Some i → cm_blocks (claude_step e m).1 !! i = cm_blocks m !! i.
Proof.
  intros Hi. destruct e as [u|j b|j d|j|r v| | |]; cbn in *; try done.
  - destruct b; cbn; apply lookup_insert_ne; congruence.
  - unfold on_block_delta. destruct (cm_blocks m !! j) as [s|] eqn:E; [|done].
    destruct s, d; cbn; try done; apply lookup_insert_ne; congruence.
  - unfold on_block_stop. destruct (cm_blocks m !! j); [|done]. cbn. apply lookup_delete_ne. congruence.
Qed.

Lemma step_here i e m m' : index_of e = Some i → cm_blocks m !! i = cm_blocks m' !! i →
  (claude_step e m).2 = (claude_step e m').2 ∧ cm_blocks (claude_step e m).1 !! i = cm_blocks (claude_step e m').1 !! i.
Proof.
  intros Hi Hm. destruct e as [u|j b|j d|j|r v| | |]; cbn in *; try done; injection Hi as ->.
  - destruct b; cbn; by rewrite !lookup_insert_eq.
  - unfold on_block_delta. destruct (cm_blocks m !! i) as [s|] eqn:E; rewrite <- Hm; [|split; [done|cbn; congruence]].
    destruct s, d; cbn; rewrite ?lookup_insert_eq; split; congruence.
  - unfold on_block_stop. destruct (cm_blocks m !! i) eqn:E; rewrite <- Hm; [|split; [done|cbn; congruence]].
    cbn. by rewrite !lookup_delete_eq.
Qed.

Lemma heard_local i es : ∀ m m', cm_blocks m !! i = cm_blocks m' !! i →
  heard_at i es m = (machine_run claude_step (filter (λ e, index_of e = Some i) es) m').2.
Proof.
  induction es as [|e es IH]; intros m m' Hm; [done|]. cbn [heard_at]. destruct (decide (index_of e = Some i)) as [Hi|Hi].
  - rewrite filter_cons_True by done. cbn [machine_run]. destruct (step_here i e m m' Hi Hm) as [Ho Hs].
    destruct (claude_step e m) as [m1 o1], (claude_step e m') as [m2 o2]. cbn in Ho, Hs. subst o2. rewrite bool_decide_true by done.
    rewrite (IH m1 m2 Hs). by destruct (machine_run _ _ m2).
  - rewrite filter_cons_False by done. pose proof (step_elsewhere i e m Hi) as Hs. destruct (claude_step e m) as [m1 o1].
    rewrite bool_decide_false by done. cbn in *. apply IH. by rewrite Hs.
Qed.

Lemma wires_run i bs : ∀ m, (machine_run claude_step (concat (wire i <$> bs)) m).2 = concat (heard <$> bs).
Proof.
  induction bs as [|b bs IH]; intros m; [done|]. cbn [fmap list_fmap concat]. rewrite machine_run_app, block_run.
  match goal with |- context [machine_run _ _ ?m1] => pose proof (IH m1) as <-; by destruct (machine_run claude_step (concat (wire i <$> bs)) m1) end.
Qed.

(** A message of Claude's arrives as it was sent: with pings anywhere between them, its
    blocks come out one after the other and bracketed, deltas unchanged, the signature of a
    thinking block and the input of a tool use put together from their parts, and the usage
    of both ends of the message in the event that ends the stream. Blocks that are sent side
    by side do not disturb each other: what comes out of an index is what was sent on it. *)
Theorem claude_reassembles :
  (∀ u bs reason v es, filter (λ e, is_ping e = false) es = message u bs reason v →
     let out := (machine_run claude_step es claude_new).2 in
     out = concat ((λ b, heard b.2) <$> bs) ++
       [StreamDone reason (Some (ru_input_tokens u)) (Some (ru_output_tokens v))
          (if (0 <? ru_cache_read u) || (0 <? ru_cache_creation u)
           then Some (UsageClaude {| cache_read_input_tokens := ru_cache_read u; cache_creation_input_tokens := ru_cache_creation u |})
           else None)] ∧
     brackets PhaseNone out = Some PhaseNone) ∧
  ∀ es (sent : Z → list SentBlock), (∀ i, filter (λ e, index_of e = Some i) es = concat (wire i <$> sent i)) →
    ∀ i, heard_at i es claude_new = concat (heard <$> sent i).
Proof.
  split.
  - intros u bs reason v es Hes. cbn zeta. rewrite <- run_pings, Hes. unfold message. cbn [machine_run claude_step].
    rewrite machine_run_app. match goal with |- context [machine_run _ (concat _) ?m1] => destruct (blocks_run bs m1) as [ms ->] end.
    cbn [machine_run claude_step snd app]. unfold claude_done. cbn. split; [done|]. rewrite brackets_app.
    assert (brackets PhaseNone (concat ((λ b : Z * SentBlock, heard b.2) <$> bs)) = Some PhaseNone) as ->; [|done].
    clear Hes. induction bs as [|[i b] bs IH]; [done|]. rewrite fmap_cons. cbn [concat snd]. rewrite brackets_app, heard_brackets. exact IH.
  - intros es sent Hes i. rewrite (heard_local i es claude_new claude_new) by done. by rewrite Hes, wires_run.
Qed.
End claude.
