(* ===== verification/LlmRequest.v ===== *)
(** * Requests to the model providers
    ([kaijutsu-kernel/src/llm/stream.rs], [claude/{types,build}.rs], [openai/{types,build}.rs])

    The messages of [Wire.v] in the shape of each provider, with the cache breakpoints of
    one and the tool messages of the other. Warnings are left out. *)

From Stdlib Require Import Ascii.
From S2P Require Import Prelude Float64 Text Tick Ids Track Cas Cell Concrete Block Hydrate Selection Wire WirePairing Mailbox LlmStream LlmReassembly.

(** ** What a request is built from ([llm/stream.rs], [llm/mod.rs]) *)

Inductive CacheTtl := Ephemeral | Extended.
Inductive CacheTarget :=
  | CacheTools (ttl : CacheTtl)
  | CacheSystem (ttl : CacheTtl)
  | CacheMessageIndex (index : Z) (ttl : CacheTtl).

Record ToolDefinition `{!JsonLib} := { td_name : string; td_description : string; td_input_schema : Json }.

Record BuildOpts `{!JsonLib} := {
  bo_model : string; bo_system : option string; bo_max_tokens : Z; bo_temperature : option f64;
  bo_tools : list ToolDefinition; bo_cache_breakpoints : list CacheTarget;
}.
#[export] Instance BuildOpts_settable `{!JsonLib} : Settable BuildOpts := λ o, {|
  bo_model := bo_model o; bo_system := bo_system o; bo_max_tokens := bo_max_tokens o;
  bo_temperature := bo_temperature o; bo_tools := bo_tools o; bo_cache_breakpoints := bo_cache_breakpoints o;
|}.

(** ** Claude's shapes ([claude/types.rs]) *)

Record CacheControl := { cc_ttl : option string }.
Definition cc_ephemeral : CacheControl := {| cc_ttl := None |}.
Definition cc_extended : CacheControl := {| cc_ttl := Some "1h" |}.

Record ImageSource := { is_kind : string; is_media_type : string; is_data : string }.

Inductive RequestContent `{!JsonLib} :=
  | RText (text : string) (cache : option CacheControl)
  | RImage (source : ImageSource) (cache : option CacheControl)
  | RToolUse (id name : string) (input : Json) (cache : option CacheControl)
  | RToolResult (tool_use_id content : string) (is_error : option bool) (cache : option CacheControl)
  | RThinking (thinking : string) (signature : option string).

Inductive ClaudeContent `{!JsonLib} := CText (text : string) | CBlocks (blocks : list RequestContent).
Record ClaudeMessage `{!JsonLib} := { clm_role : MsgRole; clm_content : ClaudeContent }.

Record SystemBlock := { sb_text : string; sb_cache : option CacheControl }.
Inductive SystemPrompt := SysText (text : string) | SysBlocks (blocks : list SystemBlock).
Record ClaudeTool `{!JsonLib} := {
  ct_name : string; ct_description : string; ct_input_schema : Json; ct_cache : option CacheControl;
}.
Inductive ThinkingDisplay := Summarized | Omitted.
Inductive Thinking :=
  | Adaptive (display : option ThinkingDisplay)
  | Enabled (budget_tokens : Z)
  | Disabled.

Record MessagesRequest `{!JsonLib} := {
  mr_model : string; mr_max_tokens : Z; mr_messages : list ClaudeMessage; mr_system : option SystemPrompt;
  mr_tools : list ClaudeTool; mr_temperature : option f64; mr_stream : option bool; mr_thinking : option Thinking;
}.
#[export] Instance MessagesRequest_settable `{!JsonLib} : Settable MessagesRequest := λ r, {|
  mr_model := mr_model r; mr_max_tokens := mr_max_tokens r; mr_messages := mr_messages r; mr_system := mr_system r;
  mr_tools := mr_tools r; mr_temperature := mr_temperature r; mr_stream := mr_stream r; mr_thinking := mr_thinking r;
|}.

Definition adaptive_summarized : Thinking := Adaptive (Some Summarized).

Definition u32_bound : Z := 4294967295.
Definition default_for_model (model : string) : option Thinking :=
  match splitn (S (String.length model)) model "-" with
  | first :: family :: parts =>
      if negb (bool_decide (first = "claude")) then None
      else if bool_decide (family = "fable") || bool_decide (family = "mythos") then Some adaptive_summarized
      else if bool_decide (family = "opus") || bool_decide (family = "sonnet") then
        major ← (p ← head parts; parse_uint u32_bound p);
        let minor := default 0 (p ← head (tail parts);
                                if (String.length p <=? 2)%nat then parse_uint u32_bound p else None) in
        if (4 <? major) || ((major =? 4) && (6 <=? minor)) then Some adaptive_summarized else None
      else None
  | _ => None
  end.

(** ** Building a request for Claude ([claude/build.rs]) *)

Definition MAX_CACHE_BREAKPOINTS : nat := 4.

Definition cache_control_for (ttl : CacheTtl) : CacheControl :=
  match ttl with Ephemeral => cc_ephemeral | Extended => cc_extended end.

Record CachePlan := {
  cp_tools : option CacheTtl;
  cp_system : option CacheTtl;
  cp_message_indices : list (Z * CacheTtl);
}.
#[export] Instance CachePlan_settable : Settable CachePlan := λ p,
  {| cp_tools := cp_tools p; cp_system := cp_system p; cp_message_indices := cp_message_indices p |}.
Definition cache_plan_empty : CachePlan := {| cp_tools := None; cp_system := None; cp_message_indices := [] |}.

(** One breakpoint: the plan, what is left of the budget, the indices seen. *)
Definition plan_breakpoint (acc : CachePlan * nat * gset Z) (bp : CacheTarget) : CachePlan * nat * gset Z :=
  let '(plan, budget, seen) := acc in
  match budget with
  | O => acc
  | S budget' =>
      match bp with
      | CacheTools ttl =>
          match cp_tools plan with
          | Some _ => acc
          | None => (plan <| cp_tools := Some ttl |>, budget', seen)
          end
      | CacheSystem ttl =>
          match cp_system plan with
          | Some _ => acc
          | None => (plan <| cp_system := Some ttl |>, budget', seen)
          end
      | CacheMessageIndex i ttl =>
          if bool_decide (i ∈ seen) then acc
          else (plan <| cp_message_indices := cp_message_indices plan ++ [(i, ttl)] |>, budget', {[i]} ∪ seen)
      end
  end.
Definition plan_cache (breakpoints : list CacheTarget) : CachePlan :=
  (foldl plan_breakpoint (cache_plan_empty, MAX_CACHE_BREAKPOINTS, ∅) breakpoints).1.1.

Section claude.
Context {json : JsonLib}.
Implicit Types (msg : Message) (opts : BuildOpts).

Definition set_cache (cc : CacheControl) (b : RequestContent) : option RequestContent :=
  match b with
  | RText text _ => Some (RText text (Some cc))
  | RImage source _ => Some (RImage source (Some cc))
  | RToolUse id name input _ => Some (RToolUse id name input (Some cc))
  | RToolResult id content err _ => Some (RToolResult id content err (Some cc))
  | RThinking _ _ => None
  end.

(** From the last block to the first; [None]: no block takes the annotation. *)
Fixpoint cache_first_of (cc : CacheControl) (rev_blocks : list RequestContent) : option (list RequestContent) :=
  match rev_blocks with
  | [] => None
  | b :: bs =>
      match set_cache cc b with
      | Some b' => Some (b' :: bs)
      | None => (λ bs', b :: bs') <$> cache_first_of cc bs
      end
  end.
Definition apply_cache_to_last_eligible (ttl : CacheTtl) (blocks : list RequestContent) : option (list RequestContent) :=
  reverse <$> cache_first_of (cache_control_for ttl) (reverse blocks).

(** [Text] is promoted to a block; a message no block of which takes it stays promoted. *)
Definition cache_message (ttl : CacheTtl) (m : ClaudeMessage) : ClaudeMessage :=
  let blocks := match clm_content m with CText text => [RText text None] | CBlocks blocks => blocks end in
  {| clm_role := clm_role m; clm_content := CBlocks (default blocks (apply_cache_to_last_eligible ttl blocks)) |}.

Definition apply_message_breakpoints (messages : list ClaudeMessage) (breakpoints : list (Z * CacheTtl)) : list ClaudeMessage :=
  foldl (λ messages bp, alter (cache_message bp.2) (Z.to_nat bp.1) messages) messages breakpoints.

Fixpoint build_tools (tools : list ToolDefinition) (ttl : option CacheTtl) : list ClaudeTool :=
  match tools with
  | [] => []
  | td :: tools' =>
      {| ct_name := td_name td; ct_description := td_description td; ct_input_schema := td_input_schema td;
         ct_cache := match tools' with [] => cache_control_for <$> ttl | _ => None end |} :: build_tools tools' ttl
  end.

Definition build_system (text : option string) (ttl : option CacheTtl) : option SystemPrompt :=
  text ← text;
  if bool_decide (text = "") then None
  else match ttl with
       | Some ttl => Some (SysBlocks [{| sb_text := text; sb_cache := Some (cache_control_for ttl) |}])
       | None => Some (SysText text)
       end.

Definition build_block (b : ContentBlock) : option RequestContent :=
  match b with
  | PartText text => Some (RText text None)
  | ToolUse id name input => Some (RToolUse id name input None)
  | ToolResult id content is_error => Some (RToolResult id content (if is_error : bool then Some true else None) None)
  | PartImage hash media_type data =>
      let unavailable := RText ("[image hash=" +:+ hash +:+ " mime=" +:+ media_type +:+ " unavailable]") None in
      match data with
      | Some d => if bool_decide (d = "") then Some unavailable
                  else Some (RImage {| is_kind := "base64"; is_media_type := media_type; is_data := d |} None)
      | None => Some unavailable
      end
  | Reasoning text signature => Some (RThinking text signature)
  end.

Definition build_message msg : ClaudeMessage := {|
  clm_role := msg_role msg;
  clm_content := match msg_content msg with MText t => CText t | MBlocks blocks => CBlocks (omap build_block blocks) end;
|}.

Definition claude_build_request opts (messages : list Message) (streaming : bool) : MessagesRequest :=
  let plan := plan_cache (bo_cache_breakpoints opts) in {|
    mr_model := bo_model opts; mr_max_tokens := bo_max_tokens opts;
    mr_messages := apply_message_breakpoints (build_message <$> messages) (cp_message_indices plan);
    mr_system := build_system (bo_system opts) (cp_system plan);
    mr_tools := build_tools (bo_tools opts) (cp_tools plan);
    mr_temperature := bo_temperature opts; mr_stream := if streaming then Some true else None; mr_thinking := None;
  |}.

(** The body that [Client::stream] posts. *)
Definition claude_stream_body opts (messages : list Message) : MessagesRequest :=
  (claude_build_request opts messages true) <| mr_thinking := default_for_model (bo_model opts) |>.
End claude.

(** ** Chat completions ([openai/types.rs], [openai/build.rs]) *)

(** [Value::to_string]. *)
Class JsonPrint `{!JsonLib} := json_to_string : Json → string.

Inductive ChatRole := ChatSystem | ChatUser | ChatAssistant | ChatTool.
#[export] Instance ChatRole_eq_dec : EqDecision ChatRole.
Proof. solve_decision. Defined.
Inductive ContentPart := PartChatText (text : string) | PartImageUrl (url : string).
Inductive ChatContent := ChatText (text : string) | ChatParts (parts : list ContentPart).
Record RequestToolCall := { rtc_id : string; rtc_name : string; rtc_arguments : string }.
Record ChatMessage := {
  cm_role : ChatRole;
  cm_content : option ChatContent;
  cm_reasoning_content : option string;
  cm_tool_calls : list RequestToolCall;
  cm_tool_call_id : option string;
}.
Record ChatRequest `{!JsonLib} := {
  cr_model : string; cr_messages : list ChatMessage; cr_max_tokens : Z; cr_stream : option bool;
  cr_include_usage : option bool; cr_tools : list ToolDefinition; cr_temperature : option f64;
}.

Definition DEFAULT_MAX_TOKENS : Z := 8192.
Definition clamp_max_tokens (requested : Z) : Z := if requested =? 0 then DEFAULT_MAX_TOKENS else requested.

Definition chat_system (text : string) : ChatMessage := {|
  cm_role := ChatSystem; cm_content := Some (ChatText text); cm_reasoning_content := None; cm_tool_calls := []; cm_tool_call_id := None |}.
Definition chat_user_text (text : string) : ChatMessage := {|
  cm_role := ChatUser; cm_content := Some (ChatText text); cm_reasoning_content := None; cm_tool_calls := []; cm_tool_call_id := None |}.
Definition chat_assistant (content : option ChatContent) (reasoning : option string) (calls : list RequestToolCall) : ChatMessage := {|
  cm_role := ChatAssistant; cm_content := content; cm_reasoning_content := reasoning; cm_tool_calls := calls; cm_tool_call_id := None |}.
Definition chat_tool_result (id content : string) : ChatMessage := {|
  cm_role := ChatTool; cm_content := Some (ChatText content); cm_reasoning_content := None; cm_tool_calls := []; cm_tool_call_id := Some id |}.

Definition nl_str : string := String "010" "".

Section chat.
Context {json : JsonLib} {printer : JsonPrint}.
Implicit Types (msg : Message) (opts : BuildOpts).

Definition user_message_from_parts (parts : list ContentPart) : ChatMessage := {|
  cm_role := ChatUser;
  cm_content := Some (match parts with [PartChatText text] => ChatText text | _ => ChatParts parts end);
  cm_reasoning_content := None; cm_tool_calls := []; cm_tool_call_id := None |}.

(** What one block of a user's turn adds: a tool message, or a part of the user's message. *)
Definition user_block (acc : list ChatMessage * list ContentPart) (b : ContentBlock) : list ChatMessage * list ContentPart :=
  let '(out, parts) := acc in
  match b with
  | ToolResult id content is_error =>
      let body := if is_error : bool then "[tool error]" +:+ nl_str +:+ content else content in
      (out ++ [chat_tool_result id body], parts)
  | PartText text => (out, parts ++ [PartChatText text])
  | PartImage hash media_type (Some data) => (out, parts ++ [PartImageUrl ("data:" +:+ media_type +:+ ";base64," +:+ data)])
  | PartImage hash media_type None => (out, parts ++ [PartChatText ("[image " +:+ hash +:+ " unavailable]")])
  | ToolUse _ _ _ | Reasoning _ _ => acc
  end.

Definition translate_user msg (out : list ChatMessage) : list ChatMessage :=
  match msg_content msg with
  | MText t => out ++ [chat_user_text t]
  | MBlocks blocks =>
      let '(out, parts) := foldl user_block (out, []) blocks in
      match parts with [] => out | _ => out ++ [user_message_from_parts parts] end
  end.

(** [if !s.is_empty() { s.push('\n') } s.push_str(t)]. *)
Definition push_line (s t : string) : string := if bool_decide (s = "") then t else s +:+ nl_str +:+ t.

Definition assistant_block (acc : string * string * list RequestToolCall) (b : ContentBlock) : string * string * list RequestToolCall :=
  let '(text, reasoning, calls) := acc in
  match b with
  | PartText t => (push_line text t, reasoning, calls)
  | ToolUse id name input => (text, reasoning, calls ++ [{| rtc_id := id; rtc_name := name; rtc_arguments := json_to_string input |}])
  | Reasoning r _ => (text, push_line reasoning r, calls)
  | ToolResult _ _ _ | PartImage _ _ _ => acc
  end.

(** [names.join(", ")]. *)
Fixpoint join_comma (names : list string) : string :=
  match names with
  | [] => ""
  | [n] => n
  | n :: names' => n +:+ ", " +:+ join_comma names'
  end.
Definition synthesized_reasoning (calls : list RequestToolCall) : string :=
  "[synthesized: prior reasoning unavailable; called " +:+ join_comma (rtc_name <$> calls) +:+ "]".

Definition translate_assistant msg (reasoning_required : bool) (out : list ChatMessage) : list ChatMessage :=
  match msg_content msg with
  | MText t => out ++ [chat_assistant (Some (ChatText t)) (if reasoning_required then Some "" else None) []]
  | MBlocks blocks =>
      let '(text, reasoning, calls) := foldl assistant_block ("", "", []) blocks in
      let reasoning_content :=
        if negb (bool_decide (reasoning = "")) then Some reasoning
        else if reasoning_required then
          match calls with [] => Some "" | _ => Some (synthesized_reasoning calls) end
        else None in
      out ++ [chat_assistant (if bool_decide (text = "") then None else Some (ChatText text)) reasoning_content calls]
  end.

Definition translate_message (reasoning_required : bool) (out : list ChatMessage) msg : list ChatMessage :=
  match msg_role msg with
  | RoleUser => translate_user msg out
  | RoleAssistant => translate_assistant msg reasoning_required out
  end.

Definition chat_build_request opts (messages : list Message) (streaming reasoning_required : bool) : ChatRequest := {|
  cr_model := bo_model opts;
  cr_messages := foldl (translate_message reasoning_required)
                   match bo_system opts with Some system => [chat_system system] | None => [] end messages;
  cr_max_tokens := clamp_max_tokens (bo_max_tokens opts);
  cr_stream := if streaming then Some true else None;
  cr_include_usage := if streaming then Some true else None;
  cr_tools := bo_tools opts;
  cr_temperature := bo_temperature opts;
|}.
End chat.

(** ** Cache breakpoints *)

Section breakpoints.
Context {json : JsonLib}.
Implicit Types (p : CachePlan) (bp : CacheTarget).

(** Breakpoints that are about the same. *)
Definition same_target (a b : CacheTarget) : bool :=
  match a, b with
  | CacheTools _, CacheTools _ | CacheSystem _, CacheSystem _ => true
  | CacheMessageIndex i _, CacheMessageIndex j _ => bool_decide (i = j)
  | _, _ => false
  end.
(** The first of every target, without those that [seen] has. *)
Fixpoint distinct (seen bps : list CacheTarget) : list CacheTarget :=
  match bps with
  | [] => []
  | b :: bps' => if existsb (same_target b) seen then distinct seen bps' else b :: distinct (seen ++ [b]) bps'
  end.
Definition honoured (bps : list CacheTarget) : list CacheTarget := take MAX_CACHE_BREAKPOINTS (distinct [] bps).

Definition tools_ttl bp : option CacheTtl := match bp with CacheTools ttl => Some ttl | _ => None end.
Definition system_ttl bp : option CacheTtl := match bp with CacheSystem ttl => Some ttl | _ => None end.
Definition index_ttl bp : option (Z * CacheTtl) := match bp with CacheMessageIndex i ttl => Some (i, ttl) | _ => None end.
Definition plan_of (bps : list CacheTarget) : CachePlan := {|
  cp_tools := head (omap tools_ttl bps); cp_system := head (omap system_ttl bps); cp_message_indices := omap index_ttl bps |}.

Definition seen_indices (bps : list CacheTarget) : gset Z := list_to_set (omap index_ttl bps).*1.

Lemma head_omap_none {A B} (f : A → option B) (l : list A) : head (omap f l) = None ↔ Forall (λ a, f a = None) l.
Proof.
  induction l as [|a l IH]; cbn; [done|]. rewrite Forall_cons. destruct (f a) eqn:E; cbn; [naive_solver|]. naive_solver.
Qed.
Lemma head_app_none {A} (l k : list A) : head l = None → head (l ++ k) = head k.
Proof. by destruct l. Qed.
Lemma head_app_some {A} (l k : list A) : head l ≠ None → head (l ++ k) = head l.
Proof. by destruct l. Qed.

(** One breakpoint either is about something seen, or goes into the plan. *)
Lemma plan_step hs bp budget : plan_breakpoint (plan_of hs, S budget, seen_indices hs) bp =
  if existsb (same_target bp) hs then (plan_of hs, S budget, seen_indices hs)
  else (plan_of (hs ++ [bp]), budget, seen_indices (hs ++ [bp])).
Proof.
  assert (∀ (f : CacheTarget → option CacheTtl), (∀ h, existsb (same_target bp) [h] = bool_decide (f h ≠ None)) →
    existsb (same_target bp) hs = bool_decide (head (omap f hs) ≠ None)) as Hex.
  { intros f Hf. induction hs as [|h hs IH]; [done|]. specialize (Hf h). cbn in Hf |- *. rewrite orb_false_r in Hf. rewrite Hf, IH.
    destruct (f h); reflexivity. }
  unfold seen_indices, plan_of. rewrite !omap_app. destruct bp as [ttl|ttl|i ttl]; cbn [plan_breakpoint omap list_omap tools_ttl system_ttl index_ttl cp_tools cp_system].
  - rewrite (Hex tools_ttl) by (intros []; reflexivity). rewrite !app_nil_r. destruct (head (omap tools_ttl hs)) as [t|] eqn:E; cbn; [done|].
    rewrite head_app_none by done. done.
  - rewrite (Hex system_ttl) by (intros []; reflexivity). rewrite !app_nil_r. destruct (head (omap system_ttl hs)) as [t|] eqn:E; cbn; [done|].
    rewrite head_app_none by done. done.
  - assert (existsb (same_target (CacheMessageIndex i ttl)) hs = bool_decide (i ∈ (list_to_set (omap index_ttl hs).*1 : gset Z))) as ->.
    { clear. induction hs as [|h hs IH]; [done|]. cbn [existsb]. rewrite IH. destruct h as [t|t|j t]; cbn; [done..|].
      repeat case_bool_decide; set_solver. }
    case_bool_decide; [done|]. cbn. rewrite !app_nil_r. f_equal. rewrite fmap_app, list_to_set_app_L. cbn. set_solver.
Qed.

Lemma plan_fold bps : ∀ hs, (length hs ≤ MAX_CACHE_BREAKPOINTS)%nat →
  (foldl plan_breakpoint (plan_of hs, (MAX_CACHE_BREAKPOINTS - length hs)%nat, seen_indices hs) bps).1.1 =
    plan_of (take MAX_CACHE_BREAKPOINTS (hs ++ distinct hs bps)).
Proof.
  induction bps as [|bp bps IH]; intros hs Hlen; cbn [foldl distinct].
  - rewrite app_nil_r, take_ge by done. done.
  - destruct (MAX_CACHE_BREAKPOINTS - length hs)%nat as [|budget] eqn:Eb.
    + assert (∀ bps : list CacheTarget, (foldl plan_breakpoint (plan_of hs, 0%nat, seen_indices hs) bps).1.1 = plan_of hs) as Hstop
        by (clear; intros bps; by induction bps).
      cbn [plan_breakpoint]. rewrite Hstop, take_app_le, take_ge by lia. done.
    + rewrite plan_step. destruct (existsb (same_target bp) hs); [rewrite <- Eb; by apply IH|].
      assert (length (hs ++ [bp]) = S (length hs)) as Hsnoc by (rewrite length_app; cbn [length]; lia).
      replace budget with (MAX_CACHE_BREAKPOINTS - length (hs ++ [bp]))%nat by lia.
      rewrite IH by lia. by rewrite <- app_assoc.
Qed.

Lemma plan_honoured bps : plan_cache bps = plan_of (honoured bps).
Proof. apply (plan_fold bps []). unfold MAX_CACHE_BREAKPOINTS. cbn. lia. Qed.

(** *** Annotations *)

Definition annotated (b : RequestContent) : bool :=
  match b with
  | RText _ c | RImage _ c | RToolUse _ _ _ c | RToolResult _ _ _ c => match c with Some _ => true | None => false end
  | RThinking _ _ => false
  end.
Definition marks (bs : list RequestContent) : nat := length (filter (λ b, annotated b = true) bs).
Definition content_marks (c : ClaudeContent) : nat := match c with CText _ => 0 | CBlocks bs => marks bs end.
Definition messages_marks (ms : list ClaudeMessage) : nat := sum_list_with (λ m, content_marks (clm_content m)) ms.
Definition request_marks (r : MessagesRequest) : nat :=
  messages_marks (mr_messages r)
  + match mr_system r with Some (SysBlocks bs) => length (omap sb_cache bs) | _ => 0 end
  + length (omap ct_cache (mr_tools r)).

Definition erase_block (b : RequestContent) : RequestContent :=
  match b with
  | RText t _ => RText t None
  | RImage s _ => RImage s None
  | RToolUse id name input _ => RToolUse id name input None
  | RToolResult id content err _ => RToolResult id content err None
  | RThinking t s => RThinking t s
  end.
(** Without annotations, and text as the block it stands for. *)
Definition erase_message (m : ClaudeMessage) : ClaudeMessage := {|
  clm_role := clm_role m;
  clm_content := CBlocks match clm_content m with CText t => [RText t None] | CBlocks bs => erase_block <$> bs end |}.
Definition erase_system (s : SystemPrompt) : SystemPrompt :=
  SysBlocks match s with SysText t => [{| sb_text := t; sb_cache := None |}]
            | SysBlocks bs => (λ b, {| sb_text := sb_text b; sb_cache := None |}) <$> bs end.
Definition erase_tool (t : ClaudeTool) : ClaudeTool := {|
  ct_name := ct_name t; ct_description := ct_description t; ct_input_schema := ct_input_schema t; ct_cache := None |}.
Definition erase_request (r : MessagesRequest) : MessagesRequest := {|
  mr_model := mr_model r; mr_max_tokens := mr_max_tokens r; mr_messages := erase_message <$> mr_messages r;
  mr_system := erase_system <$> mr_system r;
  mr_tools := erase_tool <$> mr_tools r;
  mr_temperature := mr_temperature r; mr_stream := mr_stream r; mr_thinking := mr_thinking r |}.

(** Blocks that may carry an annotation. *)
Definition eligible (b : RequestContent) : bool := match b with RThinking _ _ => false | _ => true end.
(** A message in blocks, the last eligible of which is annotated. *)
Definition cached (m : ClaudeMessage) : Prop :=
  match clm_content m with
  | CText _ => False
  | CBlocks bs => ∀ b, last (filter (λ b, eligible b = true) bs) = Some b → annotated b = true
  end.

Lemma marks_cons b bs : marks (b :: bs) = ((if annotated b then 1 else 0) + marks bs)%nat.
Proof. unfold marks. rewrite filter_cons. by destruct (annotated b). Qed.

Lemma cache_first_of_spec cc rev_bs :
  match cache_first_of cc rev_bs with
  | None => Forall (λ b, eligible b = false) rev_bs
  | Some bs => erase_block <$> bs = erase_block <$> rev_bs ∧ (marks bs ≤ S (marks rev_bs))%nat ∧
               (∀ b, head (filter (λ b, eligible b = true) bs) = Some b → annotated b = true)
  end.
Proof.
  induction rev_bs as [|b bs IH]; cbn [cache_first_of]; [constructor|].
  destruct b as [t c|s c|i n a c|i t e c|t s]; cbn [set_cache];
    [repeat split; [rewrite !marks_cons; cbn [annotated]; lia|intros b; rewrite filter_cons; cbn; by intros [= <-]]..|].
  destruct (cache_first_of cc bs) as [bs'|]; cbn [fmap option_fmap option_map]; [|by constructor].
  destruct IH as (He & Hm & Hh). rewrite !fmap_cons, He. repeat split; [rewrite !marks_cons; cbn [annotated]; lia|].
  intros b'. rewrite filter_cons. cbn [eligible]. apply Hh.
Qed.

Lemma filter_reverse {A} (P : A → Prop) `{!∀ x, Decision (P x)} (l : list A) : filter P (reverse l) = reverse (filter P l).
Proof.
  induction l as [|x l IH]; [done|]. rewrite reverse_cons, filter_app, IH, !filter_cons.
  cbn [filter list_filter]. destruct (decide (P x)); [by rewrite reverse_cons|by rewrite app_nil_r].
Qed.

Lemma marks_reverse bs : marks (reverse bs) = marks bs.
Proof. unfold marks. by rewrite filter_reverse, length_reverse. Qed.

Lemma cache_message_spec ttl m :
  erase_message (cache_message ttl m) = erase_message m ∧
  (content_marks (clm_content (cache_message ttl m)) ≤ S (content_marks (clm_content m)))%nat ∧
  cached (cache_message ttl m).
Proof.
  unfold cache_message, cached, erase_message. cbn [clm_content clm_role content_marks].
  set (bs := match clm_content m with CText text => [RText text None] | CBlocks blocks => blocks end).
  assert (match clm_content m with CText t => [RText t None] | CBlocks l => erase_block <$> l end = erase_block <$> bs) as ->
    by (subst bs; by destruct (clm_content m)).
  assert (content_marks (clm_content m) = marks bs) as -> by (subst bs; by destruct (clm_content m)).
  unfold apply_cache_to_last_eligible. pose proof (cache_first_of_spec (cache_control_for ttl) (reverse bs)) as Hspec.
  destruct (cache_first_of _ _) as [bs'|]; cbn [fmap option_fmap option_map default from_option id].
  - destruct Hspec as (He & Hm & Hh). rewrite fmap_reverse, He, <- fmap_reverse, reverse_involutive.
    rewrite marks_reverse in Hm |- *. repeat split; [done|]. intros b. rewrite filter_reverse, last_reverse. apply Hh.
  - repeat split; [lia|]. intros b Hb. apply last_Some_elem_of, list_elem_of_filter in Hb as [Hb Hin].
    rewrite Forall_forall in Hspec. rewrite Hspec in Hb by (by rewrite elem_of_reverse). done.
Qed.

Lemma apply_breakpoints_erase bps : ∀ ms, erase_message <$> apply_message_breakpoints ms bps = erase_message <$> ms.
Proof.
  unfold apply_message_breakpoints. induction bps as [|[i ttl] bps IH]; intros ms; [done|]. cbn [foldl fst snd]. rewrite IH.
  apply list_eq. intros k. rewrite !list_lookup_fmap. destruct (decide (k = Z.to_nat i)) as [->|].
  - rewrite list_lookup_alter_eq. destruct (ms !! _); [|done]. cbn. f_equal. apply cache_message_spec.
  - by rewrite list_lookup_alter_ne by done.
Qed.

Lemma alter_marks ttl ms : ∀ k, (messages_marks (alter (cache_message ttl) k ms) ≤ S (messages_marks ms))%nat.
Proof.
  unfold messages_marks. induction ms as [|m ms IH]; intros [|k]; cbn; [lia..| |].
  - pose proof (cache_message_spec ttl m) as (_ & ? & _). cbn in *. lia.
  - specialize (IH k). change (list_alter (cache_message ttl) k ms) with (alter (cache_message ttl) k ms). lia.
Qed.
Lemma apply_breakpoints_marks bps : ∀ ms,
  (messages_marks (apply_message_breakpoints ms bps) ≤ messages_marks ms + length bps)%nat.
Proof.
  unfold apply_message_breakpoints. induction bps as [|[i ttl] bps IH]; intros ms; cbn [foldl length fst snd]; [lia|].
  etrans; [apply IH|]. pose proof (alter_marks ttl ms (Z.to_nat i)). lia.
Qed.

(** A message some breakpoint is about is cached; the others are as they were. *)
Lemma apply_breakpoints_lookup bps ms k m : apply_message_breakpoints ms bps !! k = Some m →
  (k ∈ Z.to_nat <$> bps.*1 ∧ cached m) ∨ (k ∉ Z.to_nat <$> bps.*1 ∧ ms !! k = Some m).
Proof.
  unfold apply_message_breakpoints. revert m. induction bps as [|[i ttl] bps IH] using rev_ind; intros m; cbn [foldl].
  { intros Hm. right. split; [apply not_elem_of_nil|done]. }
  rewrite foldl_app. cbn [foldl fst snd]. rewrite !fmap_app, elem_of_app. cbn. rewrite list_elem_of_singleton.
  destruct (decide (k = Z.to_nat i)) as [->|Hne].
  - rewrite list_lookup_alter_eq. intros (m' & _ & ->)%fmap_Some. left. split; [tauto|]. apply cache_message_spec.
  - rewrite list_lookup_alter_ne by done. intros [[? ?]|[? ?]]%IH; [left|right]; tauto.
Qed.

Lemma build_message_unmarked (msg : Message) : content_marks (clm_content (build_message msg)) = 0%nat.
Proof.
  unfold build_message. cbn. destruct (msg_content msg) as [t|bs]; cbn [content_marks]; [done|].
  induction bs as [|b bs IH]; [done|]. destruct b as [t|id nm inp|id c e|h mt [d|]|t sg]; cbn; try apply IH.
  destruct (bool_decide (d = "")); apply IH.
Qed.

Lemma plan_length hs : (length (cp_message_indices (plan_of hs)) + length (option_list (cp_system (plan_of hs)))
  + length (option_list (cp_tools (plan_of hs))) ≤ length hs)%nat.
Proof.
  unfold plan_of. cbn. induction hs as [|[t|t|i t] hs IH]; cbn; [lia|..]; destruct (head (omap tools_ttl hs)), (head (omap system_ttl hs)); cbn in *; lia.
Qed.

Lemma build_tools_marks tools ttl : (length (omap ct_cache (build_tools tools ttl)) ≤ length (option_list ttl))%nat.
Proof. induction tools as [|t [|t' tools] IH]; [destruct ttl; cbn; lia..|apply IH]. Qed.
Lemma build_tools_last tools ttl t : last (build_tools tools ttl) = Some t → ct_cache t = cache_control_for <$> ttl.
Proof. induction tools as [|t' [|t'' tools] IH]; [done|cbn; by intros [= <-]|apply IH]. Qed.
Lemma build_tools_erase tools ttl :
  erase_tool <$> build_tools tools ttl =
  (λ t, {| ct_name := td_name t; ct_description := td_description t; ct_input_schema := td_input_schema t; ct_cache := None |}) <$> tools.
Proof. induction tools as [|t tools IH]; [done|]. cbn. f_equal. apply IH. Qed.
Lemma build_system_erase text ttl : erase_system <$> build_system text ttl = erase_system <$> build_system text None.
Proof. unfold build_system. destruct text as [t|]; [|done]. cbn. destruct (bool_decide (t = "")), ttl; done. Qed.
Lemma build_system_marks text ttl :
  (match build_system text ttl with Some (SysBlocks bs) => length (omap sb_cache bs) | _ => 0 end ≤ length (option_list ttl))%nat.
Proof. unfold build_system. destruct text as [t|]; cbn; [|lia]. destruct (bool_decide (t = "")), ttl; cbn; lia. Qed.

(** C38: whatever breakpoints a request is built with, the body has at most four cache
    annotations, and without them it is the body built from no breakpoints: the annotations change
    nothing else. The breakpoints honoured are the first four different ones. The tools honour
    one on their last tool, the system prompt, unless it is empty, as its only block, a message
    on its last block that is not a thought; no other message has an annotation, and a plain text is
    then left as it is. *)
Theorem cache_within_budget (opts : BuildOpts) (msgs : list Message) (streaming : bool) :
  let r := claude_build_request opts msgs streaming in
  let bps := honoured (bo_cache_breakpoints opts) in
  (request_marks r ≤ MAX_CACHE_BREAKPOINTS)%nat ∧
  erase_request r = erase_request (claude_build_request (opts <| bo_cache_breakpoints := [] |>) msgs streaming) ∧
  (∀ t, last (mr_tools r) = Some t → ct_cache t = cache_control_for <$> head (omap tools_ttl bps)) ∧
  (∀ text ttl, bo_system opts = Some text → text ≠ "" → head (omap system_ttl bps) = Some ttl →
     mr_system r = Some (SysBlocks [{| sb_text := text; sb_cache := Some (cache_control_for ttl) |}])) ∧
  (∀ k m, mr_messages r !! k = Some m →
     let honoured_indices := Z.to_nat <$> (omap index_ttl bps).*1 in
     (k ∈ honoured_indices ∧ cached m) ∨
     (k ∉ honoured_indices ∧ build_message <$> msgs !! k = Some m ∧ content_marks (clm_content m) = 0%nat)).
Proof.
  cbn zeta. set (bps := honoured _).
  assert (length bps ≤ MAX_CACHE_BREAKPOINTS)%nat as Hlen by (subst bps; unfold honoured; rewrite length_take; lia).
  unfold claude_build_request, request_marks, erase_request. cbn. rewrite plan_honoured. fold bps. split_and!.
  - etrans; [|exact Hlen]. etrans; [|apply plan_length].
    pose proof (apply_breakpoints_marks (cp_message_indices (plan_of bps)) (build_message <$> msgs)).
    pose proof (build_system_marks (bo_system opts) (cp_system (plan_of bps))).
    pose proof (build_tools_marks (bo_tools opts) (cp_tools (plan_of bps))).
    assert (messages_marks (build_message <$> msgs) = 0%nat) as Hnone.
    { unfold messages_marks. clear. induction msgs as [|m ms IH]; [done|]. cbn [fmap list_fmap sum_list_with]. by rewrite build_message_unmarked. }
    unfold messages_marks in *. lia.
  - f_equal; [apply apply_breakpoints_erase|apply build_system_erase|].
    change (erase_tool <$> build_tools (bo_tools opts) (cp_tools (plan_of bps)) = erase_tool <$> build_tools (bo_tools opts) None).
    by rewrite !build_tools_erase.
  - intros t Ht. by apply build_tools_last in Ht.
  - intros text ttl Ht Hne Hs. change (cp_system (plan_of bps) = Some ttl) in Hs. unfold build_system. rewrite Ht, Hs. cbn. by rewrite bool_decide_eq_false_2.
  - intros k m [[? ?]|[Hk Hm]]%apply_breakpoints_lookup; [by left|right]. rewrite list_lookup_fmap in Hm. split_and!; [done..|].
    apply fmap_Some in Hm as (msg & _ & ->). apply build_message_unmarked.
Qed.
End breakpoints.

(** ** Tool messages *)

Section paired.
Context {json : JsonLib} {blib : BlockLib} {uuids : UuidCrate} {serde : SerdeJson} {printer : JsonPrint}.
Implicit Types (st : HydrationState) (msg : Message) (m : ChatMessage) (ms : list ChatMessage).

Definition call_ids m : list string := rtc_id <$> cm_tool_calls m.

(** Every tool message answers a call of the assistant message before its run of tool
    messages; [uses]: the calls of the one before the list. *)
Fixpoint tools_requested (uses : list string) ms : Prop :=
  match ms with
  | [] => True
  | m :: rest =>
      match cm_role m with
      | ChatTool => (∃ id, cm_tool_call_id m = Some id ∧ id ∈ uses) ∧ tools_requested uses rest
      | _ => tools_requested (call_ids m) rest
      end
  end.
(** The calls that the tool messages at the head answer. *)
Fixpoint answers_ahead ms : list string :=
  match ms with
  | m :: rest => match cm_role m with
                 | ChatTool => option_list (cm_tool_call_id m) ++ answers_ahead rest
                 | _ => []
                 end
  | [] => []
  end.
(** Every call is answered by the tool messages just after its message. *)
Fixpoint calls_answered ms : Prop :=
  match ms with
  | [] => True
  | m :: rest => (∀ id, id ∈ call_ids m → id ∈ answers_ahead rest) ∧ calls_answered rest
  end.
(** What the endpoints that require reasoning ask of a message. *)
Definition carries_reasoning m : Prop :=
  cm_role m = ChatAssistant →
  ∃ r, cm_reasoning_content m = Some r ∧ (cm_tool_calls m ≠ [] → r ≠ "").

Lemma tools_requested_mono uses uses' ms : uses ⊆ uses' → tools_requested uses ms → tools_requested uses' ms.
Proof.
  revert uses uses'. induction ms as [|m ms IH]; intros uses uses' Hsub; [done|]. cbn.
  destruct (cm_role m); [done..|]. intros [(id & ? & ?) Hrest]. split; [eauto|]. by eapply IH.
Qed.

Lemma user_block_app l : ∀ out parts,
  foldl user_block (out, parts) l = (out ++ (foldl user_block ([], parts) l).1, (foldl user_block ([], parts) l).2).
Proof.
  induction l as [|b l IH]; intros out parts; cbn [foldl]; [by rewrite app_nil_r|].
  destruct b as [t|id nm inp|id c e|h mt [d|]|t sg]; cbn [user_block app]; try apply IH.
  rewrite IH, (IH [_]). cbn [fst snd]. by rewrite <- app_assoc.
Qed.

Lemma translate_message_app rr out msg : translate_message rr out msg = out ++ translate_message rr [] msg.
Proof.
  unfold translate_message, translate_user, translate_assistant. destruct msg as [[] [t|l]]; cbn [msg_role msg_content]; try done.
  - rewrite user_block_app. destruct (foldl user_block ([], []) l) as [out' [|p parts]]; cbn [fst snd]; [done|]. by rewrite <- app_assoc.
  - by destruct (foldl _ _ l) as [[t r] calls].
Qed.

Lemma translate_fold_app rr msgs : ∀ out,
  foldl (translate_message rr) out msgs = out ++ concat (translate_message rr [] <$> msgs).
Proof.
  induction msgs as [|msg msgs IH]; intros out; cbn [foldl fmap list_fmap concat]; [by rewrite app_nil_r|].
  by rewrite IH, translate_message_app, <- app_assoc.
Qed.

(** The calls of an assistant's blocks are its tool uses; without a text or a thought of
    their own, they get a reasoning made up. *)
Lemma assistant_block_calls l : ∀ text reasoning calls text' reasoning' calls',
  foldl assistant_block (text, reasoning, calls) l = (text', reasoning', calls') →
  rtc_id <$> calls' = (rtc_id <$> calls) ++ omap use_id l.
Proof.
  induction l as [|b l IH]; intros text reasoning calls text' reasoning' calls'; cbn [foldl].
  { intros [= _ _ <-]. cbn. by rewrite app_nil_r. }
  destruct b; cbn [assistant_block]; intros ->%IH; [done| |done..].
  rewrite fmap_app, <- app_assoc. done.
Qed.

Lemma result_blocks l : Forall is_result l →
  ∃ tools, foldl user_block ([], []) l = (tools, []) ∧
    (∀ uses rest, (∀ id, id ∈ omap result_id l → id ∈ uses) → tools_requested uses rest → tools_requested uses (tools ++ rest)) ∧
    (∀ rest, answers_ahead (tools ++ rest) = omap result_id l ++ answers_ahead rest) ∧
    (∀ rest, calls_answered rest → calls_answered (tools ++ rest)) ∧
    Forall carries_reasoning tools.
Proof.
  induction 1 as [|b l Hb _ (tools & Hf & Hreq & Hrun & Hans & Hres)]; [by exists []; split_and!|].
  destruct b as [t|id nm inp|id c e|h mt d|t sg]; try done. cbn [foldl user_block app].
  rewrite user_block_app, Hf. cbn [fst snd]. eexists. split; [done|]. cbn [app omap list_omap result_id]. split_and!.
  - intros uses rest Hids Hrest. split; [exists id; split; [done|]; apply Hids, list_elem_of_here|].
    apply Hreq; [|done]. intros id' Hid. by apply Hids, list_elem_of_further.
  - intros rest. cbn. f_equal. apply Hrun.
  - intros rest Hrest. cbn. split; [by intros ? ?%not_elem_of_nil|auto].
  - constructor; [done|apply Hres].
Qed.

(** What one message of the history becomes. *)
Lemma translate_ok rr msg : message_ok msg →
  let turn := translate_message rr [] msg in
  (∀ uses rest, (∀ id, id ∈ tool_result_ids msg → id ∈ uses) → tools_requested (tool_use_ids msg) rest →
     tools_requested uses (turn ++ rest)) ∧
  (∀ rest, tool_result_ids msg ⊆ answers_ahead (turn ++ rest)) ∧
  (∀ rest, (∀ id, id ∈ tool_use_ids msg → id ∈ answers_ahead rest) → calls_answered rest → calls_answered (turn ++ rest)) ∧
  (rr = true → Forall carries_reasoning turn).
Proof.
  assert (∀ id, id ∉ ([] : list string)) as Hnil by (intros id; apply not_elem_of_nil).
  cbn zeta. unfold message_ok, translate_message, translate_user, translate_assistant, tool_result_ids, tool_use_ids.
  destruct msg as [[] [t|l]]; cbn [msg_role msg_content].
  - intros _. split_and!; [done|set_solver|done|by repeat constructor].
  - intros [Hne [Hl|(h & mt & d & ->)]].
    + destruct (result_blocks l Hl) as (tools & -> & Hreq & Hrun & Hans & Hres). split_and!; [| |auto..].
      * intros uses rest Hids Hrest. apply Hreq; [done|]. eapply tools_requested_mono; [|done]. set_solver.
      * intros rest. rewrite Hrun. set_solver.
    + destruct d as [d|]; cbn; (split_and!; [done|set_solver|done|by repeat constructor]).
  - intros _. destruct rr; (split_and!; [done|set_solver|done|]); [|done]. intros _. constructor; [|done]. intros _. by exists "".
  - intros [Hne Hl]. destruct (foldl assistant_block ("", "", []) l) as [[text reasoning] calls] eqn:E.
    apply assistant_block_calls in E. cbn in E. cbn [app]. split_and!.
    + intros uses rest _ Hrest. cbn. unfold call_ids. cbn. by rewrite E.
    + set_solver.
    + intros rest Hids Hrest. split; [|done]. unfold call_ids. cbn. by rewrite E.
    + intros ->. constructor; [|done]. intros _. cbn. case_bool_decide; cbn [negb]; [|by eexists].
      destruct calls as [|c calls]; [by exists ""|]. by eexists.
Qed.

Lemma chat_requested rr msgs : ∀ uses, Forall message_ok msgs → requested uses msgs →
  tools_requested uses (concat (translate_message rr [] <$> msgs)).
Proof.
  induction msgs as [|msg msgs IH]; intros uses; [done|]. intros [Hok Hall]%Forall_cons [Hids Hrest].
  cbn [fmap list_fmap concat]. apply (translate_ok rr msg Hok); [done|]. by apply IH.
Qed.

Lemma chat_answered rr msgs : Forall message_ok msgs → answered msgs →
  calls_answered (concat (translate_message rr [] <$> msgs)).
Proof.
  induction msgs as [|msg msgs IH]; [done|]. intros [Hok Hall]%Forall_cons [Hids Hrest].
  cbn [fmap list_fmap concat]. apply (translate_ok rr msg Hok); [|by apply IH].
  intros id Hid%Hids. destruct msgs as [|n msgs]; [by apply not_elem_of_nil in Hid|].
  apply Forall_cons in Hall as [Hn _]. cbn [fmap list_fmap concat]. by apply (translate_ok rr n Hn).
Qed.

(** C17: the body sent to a chat-completions endpoint for a session's history is one the
    protocol accepts: every tool message answers a call of the assistant message just
    before its run of tool messages; when no pending message consists of late results only,
    every call is answered by that run; and an endpoint that requires reasoning gets it on
    every assistant message, and not an empty one when there are calls. *)
Theorem chat_request_paired (opts : BuildOpts) st (streaming reasoning_required : bool) (H : hydrating st) :
  let r := chat_build_request opts (into_messages st) streaming reasoning_required in
  tools_requested [] (cr_messages r) ∧
  (on_time [] (hs_messages (flush_all st)) → calls_answered (cr_messages r)) ∧
  (reasoning_required = true → Forall carries_reasoning (cr_messages r)).
Proof.
  pose proof (pending_ok st H) as Hpending.
  assert (Forall message_ok (into_messages st)) as Hok by (by apply repair_reverse_ok, repair_forward_ok).
  cbn zeta. unfold chat_build_request. cbn [cr_messages]. rewrite translate_fold_app.
  set (body := concat _). set (system := match bo_system opts with Some _ => _ | None => _ end).
  assert ((tools_requested [] body → tools_requested [] (system ++ body)) ∧ (calls_answered body → calls_answered (system ++ body))
          ∧ Forall carries_reasoning system) as (Hreq & Hans & Hsys).
  { subst system. destruct (bo_system opts); [|by split_and!]. cbn. split_and!; [done| |by repeat constructor].
    intros Hb. split; [by intros ? ?%not_elem_of_nil|done]. }
  split_and!.
  - apply Hreq, chat_requested; [done|]. by apply repair_reverse_requested.
  - intros [out Hout]%on_time_kept; [|done]. apply Hans, chat_answered; [done|]. unfold into_messages.
    replace (repair_reverse _ _ _) with out by (symmetry; apply (repair_reverse_strip [] _ out Hout)).
    eapply strip_all_answered; [done|]. apply repair_forward_answered.
  - intros ->. apply Forall_app_2; [done|]. subst body. clear -Hok. induction Hok as [|msg msgs Hm _ IH]; [constructor|].
    cbn [fmap list_fmap concat]. apply Forall_app_2; [|done]. by apply (translate_ok true msg Hm).
Qed.
End paired.

(** * Provider streams and requests on concrete conversations *)

Import Demo DemoBlock.

#[export] Instance demo_object : JsonObject := (-1).
#[export] Instance demo_printer : JsonPrint := λ v, show_uint v.

Definition demo_delta (content : option string) (calls : option (list ToolCallChunk)) : Delta :=
  {| d_role := None; d_content := content; d_reasoning_content := None; d_tool_calls := calls |}.
Definition demo_fragment (i : Z) (id name arguments : option string) : ToolCallChunk :=
  {| tc_index := i; tc_id := id; tc_function := Some {| fc_name := name; fc_arguments := arguments |} |}.
Definition demo_chunk (delta : Delta) (finish : option string) : OpenAiSseEvent :=
  Chunk {| ch_choices := [{| cc_delta := delta; cc_finish_reason := finish |}]; ch_usage := None |}.

(** ** Chat completions *)

(** A reply in two parts, and two calls whose arguments come interleaved. *)
Definition demo_chat : list OpenAiSseEvent :=
  [demo_chunk (demo_delta (Some "let me ") None) None;
   demo_chunk (demo_delta (Some "look") None) None;
   demo_chunk (demo_delta None (Some [demo_fragment 1 (Some "b") (Some "read") (Some "4");
                                      demo_fragment 0 (Some "a") (Some "list") (Some "1")])) None;
   demo_chunk (demo_delta None (Some [demo_fragment 1 None None (Some "2")])) (Some "tool_calls")].

Example chat_events : (machine_run openai_step (demo_chat ++ [ChatDone]) (openai_new false)).2 =
  [TextStart; TextDelta "let me "; TextDelta "look"; TextEnd; StreamToolUse "a" "list" 1; StreamToolUse "b" "read" 42;
   StreamDone (Some "tool_calls") None None None].
Proof. vm_compute. reflexivity. Qed.

Lemma chat_reassembles_witness :
  text_of (machine_run openai_step (demo_chat ++ [ChatDone]) (openai_new false)).2 = "let me look" ∧
  brackets PhaseNone (machine_run openai_step (demo_chat ++ [ChatDone]) (openai_new false)).2 = Some PhaseNone.
Proof.
  assert (Forall (λ e, openai_stops e = false) demo_chat) as Hes by (by repeat constructor).
  destruct (chat_reassembles demo_chat false Hes) as [_ Hrun]. cbn zeta in Hrun. revert Hrun.
  destruct (machine_run openai_step (demo_chat ++ [ChatDone]) (openai_new false)) as [m out].
  intros (Hb & Ht & _). cbn [snd]. split; [rewrite Ht; reflexivity|exact Hb].
Defined.

(** An error is not the last event: a call without a name is reported, and the call
    after it and [Done] still come. *)
Example error_is_not_terminal : (machine_run openai_step
    [demo_chunk (demo_delta None (Some [demo_fragment 0 (Some "a") None None; demo_fragment 1 (Some "b") (Some "read") None])) None;
     ChatDone] (openai_new false)).2 =
  [StreamError (NamelessCall 0); StreamToolUse "b" "read" (-1); StreamDone None None None None].
Proof. vm_compute. reflexivity. Qed.

(** ** Claude *)

Definition demo_usage : ResponseUsage :=
  {| ru_input_tokens := 10; ru_output_tokens := 2; ru_cache_read := 0; ru_cache_creation := 0 |}.

(** [MessageStop] ends the stream over an open block, and a block starts over another:
    neither is bracketed. *)
Example stop_leaves_block_open :
  let out := (machine_run claude_step
    [MessageStart demo_usage; ContentBlockStart 0 (StartedText ""); ContentBlockDelta 0 (DeltaText "cut"); MessageStop] claude_new).2 in
  out = [TextStart; TextDelta "cut"; StreamDone None (Some 10) None None] ∧ brackets PhaseNone out = None.
Proof. split; vm_compute; reflexivity. Qed.
Example start_over_open_block :
  let out := (machine_run claude_step
    [ContentBlockStart 0 (StartedThinking ""); ContentBlockStart 1 (StartedText "")] claude_new).2 in
  out = [ThinkingStart; TextStart] ∧ brackets PhaseNone out = None.
Proof. split; vm_compute; reflexivity. Qed.

(** A cancellation in the middle of a text yields [Done], without the end of the text. *)
Definition demo_decode (e : RawEvent) : result SseDecodeError ClaudeSseEvent :=
  if bool_decide (raw_event e = "content_block_start") then Ok (ContentBlockStart 0 (StartedText ""))
  else Ok (ContentBlockDelta 0 (DeltaText (raw_data e))).
Definition demo_raw (name data : string) : RawEvent := {| raw_event := name; raw_data := data |}.
Example cancel_leaves_block_open :
  read_out demo_decode claude_stops claude_step 9
    [Item (demo_raw "content_block_start" ""); Item (demo_raw "content_block_delta" "so"); Cancelled; Closed] (stream_of claude_new) =
  ([TextStart; TextDelta "so"; StreamDone None None None None], true).
Proof. vm_compute. reflexivity. Qed.

(** ** Requests *)

Definition demo_opts : BuildOpts := {|
  bo_model := "claude-opus-4-7"; bo_system := Some "be brief"; bo_max_tokens := 64000; bo_temperature := None;
  bo_tools := [{| td_name := "read"; td_description := "reads"; td_input_schema := 0 |}];
  bo_cache_breakpoints := [CacheTools Ephemeral; CacheSystem Extended; CacheTools Extended; CacheMessageIndex 0 Ephemeral;
                           CacheMessageIndex 2 Ephemeral; CacheMessageIndex 1 Ephemeral];
|}.

(** Six breakpoints, one of them given twice: the last is over the budget. *)
Example breakpoints_honoured :
  request_marks (claude_build_request demo_opts (hydrate_from_blocks demo_log) true) = 4%nat ∧
  content_marks ∘ clm_content <$> mr_messages (claude_build_request demo_opts (hydrate_from_blocks demo_log) true) = [1; 0; 1; 0]%nat.
Proof. split; vm_compute; reflexivity. Qed.

Example thinking_by_model :
  default_for_model <$> ["claude-opus-4-7"; "claude-sonnet-4-5"; "claude-sonnet-4-20250514"; "claude-opus-5"; "claude-fable-1"; "deepseek-v4"] =
  [Some adaptive_summarized; None; None; Some adaptive_summarized; Some adaptive_summarized; None].
Proof. vm_compute. reflexivity. Qed.

Lemma chat_request_paired_witness :
  let r := chat_build_request demo_opts (hydrate_from_blocks demo_log) true true in
  length (cr_messages r) = 5%nat ∧ calls_answered (cr_messages r) ∧ Forall carries_reasoning (cr_messages r).
Proof.
  cbn zeta. assert (hydrating (hydrate_state demo_log)) as H by (apply translated; constructor).
  destruct (chat_request_paired demo_opts _ true true H) as (_ & Ha & Hr). split; [vm_compute; reflexivity|]. split; [|exact (Hr eq_refl)].
  apply Ha. vm_compute. repeat split; try (left; reflexivity). right. exists "t1". split; left.
Defined.

(** A request for far more than a model's ceiling is forwarded as it is. *)
Example large_request_forwarded : clamp_max_tokens 64000 = 64000 ∧ clamp_max_tokens 0 = DEFAULT_MAX_TOKENS.
Proof. split; reflexivity. Qed.

(** An image that could not be loaded goes to a chat endpoint as an image without data;
    Claude gets a note. *)
Example empty_image :
  build_block (PartImage "h" "image/png" (Some "")) = Some (RText "[image hash=h mime=image/png unavailable]" None) ∧
  (user_block ([], []) (PartImage "h" "image/png" (Some ""))).2 = [PartImageUrl "data:image/png;base64,"].
Proof. split; vm_compute; reflexivity. Qed.
