(* ===== verification/KernelStore.v ===== *)
(** * Documents and their journal ([kaijutsu-kernel/src/block_store.rs])

    The block stores of all contexts, the journal that makes them durable, and the events
    they publish. The tables behind [kernel_db.rs] are lists and maps; any statement on them
    may fail ([db_faults]). Input documents and the plain queries are left out. *)

From S2P Require Import Prelude Text Tick Ids Track Cas Cell Block Hydrate BlockContent OrderKey Selection BlockStore Sync.

(** ** Tables ([kernel_db.rs]) *)

Record DocumentRow := {
  row_document_id : ContextId;
  row_workspace_id : N;
  row_doc_kind : DocKind;
  row_language : option string;
  row_path : option string;
  row_created_at : Z;
  row_created_by : PrincipalId;
}.
Record DocSnapshotRow := { snr_seq : Z; snr_version : Z; snr_state : bytes; snr_content : string }.

Record KernelDb := {
  db_workspaces : gset N;
  db_documents : list DocumentRow;
  db_oplog : list (ContextId * Z * bytes);
  db_snapshots : gmap ContextId DocSnapshotRow;
  db_activity : gmap ContextId Z;
  db_faults : list bool;
}.
#[export] Instance KernelDb_settable : Settable KernelDb := λ d, {|
  db_workspaces := db_workspaces d; db_documents := db_documents d; db_oplog := db_oplog d;
  db_snapshots := db_snapshots d; db_activity := db_activity d; db_faults := db_faults d |}.

Inductive DbError := SqlFault | UniqueViolation | ForeignKeyViolation.

Abbreviation db_method := (method KernelDb DbError).

(** A statement fails when the next of [db_faults] says so. *)
Definition statement : db_method () := λ d,
  match db_faults d with
  | fault :: faults => Some (if fault : bool then Err SqlFault else Ok tt, d <| db_faults := faults |>)
  | [] => Some (Ok tt, d)
  end.

Definition has_document (c : ContextId) (d : KernelDb) : bool :=
  existsb (λ r, bool_decide (row_document_id r = c)) (db_documents d).

(** The primary key, and the unique index on the path within a workspace. *)
Definition conflicts (r r' : DocumentRow) : bool :=
  bool_decide (row_document_id r = row_document_id r')
  || match row_path r with
     | Some p => bool_decide (row_path r' = Some p) && bool_decide (row_workspace_id r = row_workspace_id r')
     | None => false
     end.

Definition insert_document (row : DocumentRow) : db_method () :=
  statement;;
  d ← m_get;
  m_guard (negb (existsb (conflicts row) (db_documents d))) UniqueViolation;;
  m_guard (bool_decide (row_workspace_id row ∈ db_workspaces d)) ForeignKeyViolation;;
  m_modify (λ d, d <| db_documents := db_documents d ++ [row] |>).

(** The rows of a document go with it. *)
Definition db_delete_document (c : ContextId) : db_method () :=
  statement;;
  m_modify (λ d, d <| db_documents := filter (λ r, row_document_id r ≠ c) (db_documents d) |>
                   <| db_oplog := filter (λ r, r.1.1 ≠ c) (db_oplog d) |>
                   <| db_snapshots := delete c (db_snapshots d) |>
                   <| db_activity := delete c (db_activity d) |>).

Definition created_le (x y : DocumentRow) : Prop := row_created_at x ≤ row_created_at y.
#[export] Instance created_le_dec : RelDecision created_le.
Proof. intros x y. unfold created_le. apply _. Defined.

Definition list_documents : db_method (list DocumentRow) :=
  statement;; d ← m_get; m_ret (merge_sort created_le (db_documents d)).
Definition get_document (c : ContextId) : db_method (option DocumentRow) :=
  statement;; d ← m_get; m_ret (head (filter (λ r, row_document_id r = c) (db_documents d))).

Definition append_op (c : ContextId) (seq : Z) (payload : bytes) : db_method () :=
  statement;;
  d ← m_get;
  m_guard (negb (existsb (λ r, bool_decide (r.1 = (c, seq))) (db_oplog d))) UniqueViolation;;
  m_guard (has_document c d) ForeignKeyViolation;;
  m_modify (λ d, d <| db_oplog := db_oplog d ++ [(c, seq, payload)] |>).

Definition touch_context_activity (c : ContextId) (ts : Z) : db_method () :=
  statement;; m_modify (λ d, d <| db_activity := alter (λ _, ts) c (db_activity d) |>).

Definition load_latest_snapshot (c : ContextId) : db_method (option DocSnapshotRow) :=
  statement;; d ← m_get; m_ret (db_snapshots d !! c).

Definition seq_le (x y : Z * bytes) : Prop := x.1 ≤ y.1.
#[export] Instance seq_le_dec : RelDecision seq_le.
Proof. intros x y. unfold seq_le. apply _. Defined.

(** The rows of one document. *)
Definition rows_of (c : ContextId) (d : KernelDb) : list (Z * bytes) :=
  (λ r, (r.1.2, r.2)) <$> filter (λ r, r.1.1 = c) (db_oplog d).

Definition load_oplog_since (c : ContextId) (after_seq : Z) : db_method (list (Z * bytes)) :=
  statement;; d ← m_get; m_ret (merge_sort seq_le (filter (λ r, after_seq < r.1) (rows_of c d))).

(** One transaction. *)
Definition write_snapshot_and_truncate (c : ContextId) (seq version : Z) (state : bytes) (content : string) : db_method () :=
  statement;;
  d ← m_get;
  m_guard (has_document c d) ForeignKeyViolation;;
  m_modify (λ d, d <| db_snapshots :=
                        <[c := {| snr_seq := seq; snr_version := version; snr_state := state; snr_content := content |}]> (db_snapshots d) |>
                   <| db_oplog := filter (λ r, ¬ (r.1.1 = c ∧ r.1.2 ≤ seq)) (db_oplog d) |>).

(** ** The store *)

Inductive OpSource := OpLocal | OpRemote.

Inductive BlockFlow `{!JsonLib, !BlockLib} :=
  | Inserted (context_id : ContextId) (block : BlockSnapshot) (after_id : option BlockId) (ops : bytes) (source : OpSource)
  | TextOps (context_id : ContextId) (block_id : BlockId) (ops : bytes) (source : OpSource) (seq_num : Z)
  | Deleted (context_id : ContextId) (block_id : BlockId) (source : OpSource)
  | StatusChanged (context_id : ContextId) (block_id : BlockId) (status : Status) (source : OpSource)
  | CollapsedChanged (context_id : ContextId) (block_id : BlockId) (collapsed : bool) (source : OpSource)
  | ExcludedChanged (context_id : ContextId) (block_id : BlockId) (excluded : bool) (source : OpSource)
  | Moved (context_id : ContextId) (block_id : BlockId) (after_id : option BlockId) (source : OpSource)
  | OutputChanged (context_id : ContextId) (block_id : BlockId) (output : option OutputData) (source : OpSource)
  | MetadataChanged (context_id : ContextId) (block_id : BlockId) (metadata : BlockMetadata) (source : OpSource).

(** An error of the database or of the codec carries its cause. *)
Inductive BlockStoreError :=
  | DocumentNotFound (c : ContextId)
  | DocumentAlreadyExists (c : ContextId)
  | BlockNotFoundAfterInsert
  | Crdt (e : CrdtError)
  | Db (e : DbError)
  | SerializationError (e : CodecError)
  | NoDatabaseConfigured
  | InTheFuture (requested now : Z).

Definition COMPACTION_OP_THRESHOLD : Z := 500.
Definition COMPACTION_BYTE_THRESHOLD : Z := 1048576.

Record DocumentEntry `{!JsonLib, !BlockLib, !Dte} := {
  de_doc : BlockStore;
  de_kind : DocKind;
  de_language : option string;
  de_version : Z;
  de_last_agent : PrincipalId;
  de_sync_generation : Z;
  de_next_journal_seq : Z;
  de_uncompacted_count : Z;
  de_uncompacted_bytes : Z;
}.
#[export] Instance DocumentEntry_settable `{!JsonLib, !BlockLib, !Dte} : Settable DocumentEntry := λ e, {|
  de_doc := de_doc e; de_kind := de_kind e; de_language := de_language e; de_version := de_version e;
  de_last_agent := de_last_agent e; de_sync_generation := de_sync_generation e;
  de_next_journal_seq := de_next_journal_seq e; de_uncompacted_count := de_uncompacted_count e;
  de_uncompacted_bytes := de_uncompacted_bytes e |}.

Record KernelBlockStore `{!JsonLib, !BlockLib, !Dte} := {
  ks_documents : gmap ContextId DocumentEntry;
  ks_block_text_seqs : gmap ContextId Z;
  ks_db : option KernelDb;
  ks_persistent : bool;
  ks_default_workspace_id : option N;
  ks_principal_id : PrincipalId;
  ks_block_flows : option (list BlockFlow);
  ks_live_status : gmap ContextId Status;
}.
#[export] Instance KernelBlockStore_settable `{!JsonLib, !BlockLib, !Dte} : Settable KernelBlockStore := λ s, {|
  ks_documents := ks_documents s; ks_block_text_seqs := ks_block_text_seqs s; ks_db := ks_db s;
  ks_persistent := ks_persistent s; ks_default_workspace_id := ks_default_workspace_id s;
  ks_principal_id := ks_principal_id s; ks_block_flows := ks_block_flows s; ks_live_status := ks_live_status s |}.

(** [kaijutsu_abc::parse], for its feedback, and [usvg::Tree::from_str]. *)
Inductive FeedbackLevel := FbError | FbWarning | FbInfo.
Record Feedback := {
  fb_level : FeedbackLevel; fb_message : string; fb_line : Z; fb_column : Z;
  fb_span : option (Z * Z); fb_suggestion : option string;
}.
Inductive SvgOutcome := SvgOk | SvgError (e : string) | SvgPanic.
Class ContentParsers := { abc_feedback : string → list Feedback; svg_parse : string → SvgOutcome }.

Section store.
Context {json : JsonLib} {blib : BlockLib} {dte : Dte} {uuids : UuidCrate}.
Context {snap_cbor : Cbor StoreSnapshot} {payload_cbor : Cbor SyncPayload} {parsers : ContentParsers}.
Implicit Types (s : KernelBlockStore) (e : DocumentEntry) (c : ContextId).

Abbreviation kmethod := (method KernelBlockStore BlockStoreError).
Abbreviation emethod := (method DocumentEntry BlockStoreError).

(** *** Entries *)

Definition entry_new c (kind : DocKind) (language : option string) (p : PrincipalId) : DocumentEntry := {|
  de_doc := store_new c p; de_kind := kind; de_language := language; de_version := 0; de_last_agent := p;
  de_sync_generation := 0; de_next_journal_seq := 0; de_uncompacted_count := 0; de_uncompacted_bytes := 0 |}.

(** The struct literal of the forks and of the loads. *)
Definition entry_of (doc : BlockStore) (kind : DocKind) (language : option string) (p : PrincipalId)
    (journal_seq uncompacted_count uncompacted_bytes : Z) : DocumentEntry := {|
  de_doc := doc; de_kind := kind; de_language := language; de_version := bs_version doc; de_last_agent := p;
  de_sync_generation := 0; de_next_journal_seq := journal_seq; de_uncompacted_count := uncompacted_count;
  de_uncompacted_bytes := uncompacted_bytes |}.

Definition entry_touch (p : PrincipalId) e : DocumentEntry :=
  e <| de_version := wrap_u64 (de_version e + 1) |> <| de_last_agent := p |>.

(** *** Calls on the parts *)

Definition m_encode {S T} `{!Cbor T} (v : T) : method S BlockStoreError bytes :=
  match encode v with Ok b => m_ret b | Err err => m_fail (SerializationError err) end.

(** [get_mut]: the entry is locked while [f] runs. *)
Definition edit_entry {A} c (f : emethod A) : kmethod A := λ s,
  match ks_documents s !! c with
  | None => Some (Err (DocumentNotFound c), s)
  | Some e =>
      match f e with
      | Some (r, e') => Some (r, s <| ks_documents := <[c := e']> (ks_documents s) |>)
      | None => None
      end
  end.
(** [get]. *)
Definition read_entry c : kmethod DocumentEntry := λ s,
  match ks_documents s !! c with
  | None => Some (Err (DocumentNotFound c), s)
  | Some e => Some (Ok e, s)
  end.

Definition on_crdt {A} (f : method BlockStore CrdtError A) : emethod A := λ e,
  match f (de_doc e) with
  | Some (Ok a, d) => Some (Ok a, e <| de_doc := d |>)
  | Some (Err err, d) => Some (Err (Crdt err), e <| de_doc := d |>)
  | None => None
  end.

Definition on_db {A} (f : db_method A) : kmethod A := λ s,
  match ks_db s with
  | None => Some (Err NoDatabaseConfigured, s)
  | Some d =>
      match f d with
      | Some (Ok a, d') => Some (Ok a, s <| ks_db := Some d' |>)
      | Some (Err err, d') => Some (Err (Db err), s <| ks_db := Some d' |>)
      | None => None
      end
  end.

Definition emit (flow : BlockFlow) : kmethod () :=
  m_modify (λ s, match ks_block_flows s with
                 | Some flows => s <| ks_block_flows := Some (flows ++ [flow]) |>
                 | None => s
                 end).
Fixpoint emit_all (flows : list BlockFlow) : kmethod () :=
  match flows with [] => m_ret tt | f :: flows' => emit f;; emit_all flows' end.

Definition next_block_text_seq c : kmethod Z :=
  s ← m_get;
  let n := default 0 (ks_block_text_seqs s !! c) in
  m_modify (λ s, s <| ks_block_text_seqs := <[c := wrap_u64 (n + 1)]> (ks_block_text_seqs s) |>);;
  m_ret n.

(** *** Live status *)

Definition derive_context_live_status (statuses : list Status) : Status :=
  if existsb (λ st, bool_decide (st = SRunning)) statuses then SRunning
  else if bool_decide (last statuses = Some SError) then SError
  else SPending.
Definition doc_statuses (d : BlockStore) : list Status := sn_status <$> blocks_ordered d.
Definition recompute_live_status c (statuses : list Status) : kmethod () :=
  m_modify (λ s, s <| ks_live_status := <[c := derive_context_live_status statuses]> (ks_live_status s) |>).

Definition live_status c : kmethod Status :=
  s ← m_get;
  match ks_live_status s !! c with
  | Some status => m_ret status
  | None =>
      let computed := match ks_documents s !! c with
                      | Some e => derive_context_live_status (doc_statuses (de_doc e))
                      | None => SPending
                      end in
      m_modify (λ s, s <| ks_live_status := <[c := computed]> (ks_live_status s) |>);;
      m_ret computed
  end.

(** *** The journal *)

(** Whether to write to the database. *)
Definition journaling_db : kmethod bool :=
  s ← m_get;
  match ks_db s with
  | Some _ => m_ret true
  | None => if ks_persistent s then m_fail NoDatabaseConfigured else m_ret false
  end.

Definition compact_document c : kmethod () :=
  persist ← journaling_db;
  if persist : bool then
    e ← read_entry c;
    let max_seq := de_next_journal_seq e in
    snapshot_bytes ← m_encode (store_snapshot (de_doc e));
    on_db (write_snapshot_and_truncate c (wrap_i64 max_seq) (wrap_i64 (de_version e)) snapshot_bytes (full_text (de_doc e)));;
    m_modify (λ s, s <| ks_documents :=
      alter (λ e, e <| de_uncompacted_count := 0 |> <| de_uncompacted_bytes := 0 |>) c (ks_documents s) |>)
  else m_ret tt.

Definition write_initial_snapshot c : kmethod () :=
  persist ← journaling_db;
  if persist : bool then
    e ← read_entry c;
    snapshot_bytes ← m_encode (store_snapshot (de_doc e));
    on_db (write_snapshot_and_truncate c 0 (wrap_i64 (de_version e)) snapshot_bytes (full_text (de_doc e)))
  else m_ret tt.

(** The counters of an entry, and what they were raised to. *)
Definition count_op (payload_len : Z) : emethod (Z * Z * Z) :=
  e ← m_get;
  let seq := wrap_u64 (de_next_journal_seq e + 1) in
  let count := wrap_u64 (de_uncompacted_count e + 1) in
  let bytes := wrap_u64 (de_uncompacted_bytes e + payload_len) in
  m_modify (λ e, e <| de_next_journal_seq := seq |> <| de_uncompacted_count := count |> <| de_uncompacted_bytes := bytes |>);;
  m_ret (seq, count, bytes).

Definition journal_op (now : Z) c (payload : SyncPayload) : kmethod () :=
  s ← m_get;
  match ks_documents s !! c with
  | Some e => recompute_live_status c (doc_statuses (de_doc e))
  | None => m_ret tt
  end;;
  persist ← journaling_db;
  if persist : bool then
    payload_bytes ← m_encode payload;
    '(seq, count, bytes) ← edit_entry c (count_op (Z.of_nat (length payload_bytes)));
    on_db (append_op c (wrap_i64 seq) payload_bytes;; touch_context_activity c (wrap_i64 now));;
    if (COMPACTION_OP_THRESHOLD <=? count) || (COMPACTION_BYTE_THRESHOLD <=? bytes) then compact_document c
    else m_ret tt
  else m_ret tt.

(** *** Writing a block *)

(** What the calls that insert a block do around the call on the document. *)
Definition insert_as (now : Z) c (after_id : option BlockId) (principal : option PrincipalId)
    (insert : method BlockStore CrdtError BlockId) : kmethod BlockId :=
  s ← m_get;
  let effective_agent := default (ks_principal_id s) principal in
  '(block_id, snapshot, ops, ops_bytes) ← edit_entry c
    (m_modify (λ e, e <| de_doc := set_principal_id effective_agent (de_doc e) |>);;
     e ← m_get;
     let frontier_before := frontier (de_doc e) in
     block_id ← on_crdt insert;
     e ← m_get;
     snapshot ← match get_block_snapshot (de_doc e) block_id with
                | Some snapshot => m_ret snapshot
                | None => m_fail BlockNotFoundAfterInsert
                end;
     let ops := ops_since (de_doc e) frontier_before in
     ops_bytes ← m_encode ops;
     m_modify (entry_touch effective_agent);;
     m_ret (block_id, snapshot, ops, ops_bytes));
  journal_op now c ops;;
  emit (Inserted c snapshot after_id ops_bytes OpLocal);;
  m_ret block_id.

Definition insert_block_as now c (parent after : option BlockId) (r : Role) (k : BlockKind) (content : string)
    (st : Status) (ct : ContentType) (principal : option PrincipalId) : kmethod BlockId :=
  insert_as now c after principal (insert_block now parent after r k content st ct).

(** [if let Some(ref tui) = tool_use_id { set_tool_use_id(...)? }]. *)
Definition insert_with_tool_use (tool_use_id : option string) (insert : method BlockStore CrdtError BlockId) :
    method BlockStore CrdtError BlockId :=
  block_id ← insert;
  match tool_use_id with Some t => set_tool_use_id block_id (Some t) | None => m_ret tt end;;
  m_ret block_id.

Definition insert_tool_call_as now c (parent after : option BlockId) (tool_name : string) (tool_input : Json)
    (tk : option ToolKind) (principal : option PrincipalId) (tool_use_id : option string) (r : option Role) : kmethod BlockId :=
  insert_as now c after principal (insert_with_tool_use tool_use_id (insert_tool_call now parent after tool_name tool_input tk r)).

Definition insert_tool_result_as now c (tool_call : BlockId) (after : option BlockId) (content : string) (is_error : bool)
    (exit_code : option Z) (tk : option ToolKind) (principal : option PrincipalId) (tool_use_id : option string) : kmethod BlockId :=
  insert_as now c after principal
    (insert_with_tool_use tool_use_id (insert_tool_result_block now tool_call after content is_error exit_code tk)).

Definition insert_from_snapshot_as now c (snapshot : BlockSnapshot) (after : option BlockId) (principal : option PrincipalId) : kmethod BlockId :=
  insert_as now c after principal (insert_from_snapshot snapshot after).

Definition insert_drift_block_as now c (parent after : option BlockId) (content : string) (source_context : ContextId)
    (source_model : option string) (dk : DriftKind) (principal : option PrincipalId) : kmethod BlockId :=
  insert_as now c after principal (insert_drift_block now parent after content source_context source_model dk).

Definition insert_notification_block_as now c (parent : option BlockId) (payload : NotificationPayload) (summary : string)
    (principal : option PrincipalId) : kmethod BlockId :=
  insert_as now c parent principal (insert_notification_block now parent None payload summary).

Definition insert_resource_block_as now c (parent : option BlockId) (payload : ResourcePayload) (summary : string)
    (principal : option PrincipalId) : kmethod BlockId :=
  insert_as now c parent principal (insert_resource_block now parent None payload summary).

Definition insert_error_block_as now c (parent : BlockId) (payload : ErrorPayload) (summary : string)
    (principal : option PrincipalId) : kmethod BlockId :=
  insert_as now c (Some parent) principal (insert_error_block now parent (Some parent) payload summary).

(** *** Changing a block *)

(** What the setters do before they publish. *)
Definition update_with (now : Z) c (update : method BlockStore CrdtError ()) : kmethod () :=
  s ← m_get;
  let principal := ks_principal_id s in
  ops ← edit_entry c
    (e ← m_get;
     let frontier_before := frontier (de_doc e) in
     on_crdt update;;
     m_modify (entry_touch principal);;
     e ← m_get;
     m_ret (ops_since (de_doc e) frontier_before));
  journal_op now c ops.

(** [BlockMetadata::default()]. *)
Definition metadata_default : BlockMetadata :=
  {| md_exit_code := None; md_is_error := false; md_content_type := Plain; md_ephemeral := false;
     md_tool_use_id := None; md_stderr := None |}.
Definition emit_metadata c (id : BlockId) : kmethod () :=
  s ← m_get;
  let metadata := default metadata_default
    (metadata <$> (e ← ks_documents s !! c; get_block_snapshot (de_doc e) id)) in
  emit (MetadataChanged c id metadata OpLocal).

Definition kernel_set_ephemeral now c (id : BlockId) (v : bool) : kmethod () :=
  update_with now c (set_ephemeral id v);; emit_metadata c id.
Definition kernel_set_excluded now c (id : BlockId) (v : bool) : kmethod () :=
  update_with now c (set_excluded id v);; emit (ExcludedChanged c id v OpLocal).
Definition kernel_move_block now c (id : BlockId) (after : option BlockId) : kmethod () :=
  update_with now c (move_block id after);; emit (Moved c id after OpLocal).
Definition kernel_set_compacted now c (id : BlockId) (v : bool) : kmethod () :=
  update_with now c (set_compacted id v);; emit_metadata c id.
Definition kernel_set_content_type now c (id : BlockId) (v : ContentType) : kmethod () :=
  update_with now c (set_content_type id v);; emit_metadata c id.
Definition kernel_set_exit_code now c (id : BlockId) (v : option Z) : kmethod () :=
  update_with now c (set_exit_code id v);; emit_metadata c id.
Definition kernel_set_stderr now c (id : BlockId) (v : option string) : kmethod () :=
  update_with now c (set_stderr id v);; emit_metadata c id.
Definition kernel_set_signature now c (id : BlockId) (v : option string) : kmethod () :=
  update_with now c (set_signature id v).
Definition kernel_set_output now c (id : BlockId) (v : option OutputData) : kmethod () :=
  update_with now c (set_output id v);; emit (OutputChanged c id v OpLocal).
Definition kernel_set_tool_use_id now c (id : BlockId) (v : option string) : kmethod () :=
  update_with now c (set_tool_use_id id v);; emit_metadata c id.
Definition kernel_set_collapsed now c (id : BlockId) (v : bool) : kmethod () :=
  update_with now c (set_collapsed id v);; emit (CollapsedChanged c id v OpLocal).
Definition kernel_delete_block now c (id : BlockId) : kmethod () :=
  update_with now c (delete_block id);; emit (Deleted c id OpLocal).

(** What [edit_text_as] and [append_text_as] do around the edit. *)
Definition text_with (now : Z) c (id : BlockId) (principal : option PrincipalId) (edit : method BlockStore CrdtError ()) : kmethod () :=
  s ← m_get;
  let effective_agent := default (ks_principal_id s) principal in
  '(ops, ops_bytes) ← edit_entry c
    (m_modify (λ e, e <| de_doc := set_principal_id effective_agent (de_doc e) |>);;
     e ← m_get;
     let frontier_before := frontier (de_doc e) in
     on_crdt edit;;
     m_modify (entry_touch effective_agent);;
     e ← m_get;
     let ops := ops_since (de_doc e) frontier_before in
     ops_bytes ← m_encode ops;
     m_ret (ops, ops_bytes));
  journal_op now c ops;;
  seq_num ← next_block_text_seq c;
  emit (TextOps c id ops_bytes OpLocal seq_num).

Definition edit_text_as now c (id : BlockId) (pos : Z) (insert : string) (delete : Z) (principal : option PrincipalId) : kmethod () :=
  text_with now c id principal (edit_text id pos insert delete).
Definition append_text_as now c (id : BlockId) (text : string) (principal : option PrincipalId) : kmethod () :=
  text_with now c id principal (append_text id text).

(** *** Validation *)

Definition cast_u32 (z : Z) : Z := z mod 4294967296.

Definition validate_abc (content : string) : list (ErrorPayload * string) :=
  (λ f, ({| err_category := ECParse;
            err_severity := match fb_level f with FbError => SevError | _ => SevWarning end;
            err_code := None; err_detail := Some (fb_message f);
            err_span := Some {| line := cast_u32 (fb_line f); column := cast_u32 (fb_column f);
                                span_length := match fb_span f with Some (start, end_) => cast_u32 (end_ - start) | None => 0 end |};
            err_source_kind := Some KText |},
         match fb_suggestion f with
         | Some suggestion => fb_message f +:+ " (hint: " +:+ suggestion +:+ ")"
         | None => fb_message f
         end)) <$>
  filter (λ f, match fb_level f with FbError | FbWarning => true | FbInfo => false end = true) (abc_feedback content).

Definition validate_svg (content : string) : list (ErrorPayload * string) :=
  match svg_parse content with
  | SvgOk => []
  | SvgError e =>
      [({| err_category := ECParse; err_severity := SevError; err_code := None; err_detail := Some e;
           err_span := None; err_source_kind := Some KText |}, "SVG parse error: " +:+ e)]
  | SvgPanic =>
      [({| err_category := ECKernel; err_severity := SevFatal; err_code := Some "svg.validator_panic";
           err_detail := Some "usvg::Tree::from_str panicked — the SVG content is likely severely malformed";
           err_span := None; err_source_kind := Some KText |}, "SVG validator panicked (malformed input)")]
  end.

Definition error_key (payload : ErrorPayload) (text : string) : option string * Z * string :=
  (err_code payload, match err_span payload with Some sp => line sp | None => 0 end, text).

Definition ignoring {A} (f : kmethod A) : kmethod () := m_try f;; m_ret tt.

Fixpoint delete_stale (now : Z) c (existing : list BlockSnapshot) (new_keys : list (option string * Z * string)) : kmethod () :=
  match existing with
  | [] => m_ret tt
  | b :: existing' =>
      match sn_error b with
      | Some err =>
          if bool_decide (error_key err (sn_content b) ∈ new_keys) then m_ret tt
          else ignoring (kernel_delete_block now c (sn_id b))
      | None => m_ret tt
      end;;
      delete_stale now c existing' new_keys
  end.

Fixpoint insert_missing (now : Z) c (id : BlockId) (new_errors : list (ErrorPayload * string))
    (existing_keys : list (option string * Z * string)) : kmethod () :=
  match new_errors with
  | [] => m_ret tt
  | (payload, summary) :: new_errors' =>
      (if bool_decide (error_key payload summary ∈ existing_keys) then m_ret tt
       else ignoring (insert_error_block_as now c id payload summary (Some principal_system)));;
      insert_missing now c id new_errors' existing_keys
  end.

Definition validate_content_and_attach_errors (now : Z) c (id : BlockId) : kmethod () :=
  e ← read_entry c;
  snap ← match get_block_snapshot (de_doc e) id with
         | Some snap => m_ret snap
         | None => m_fail BlockNotFoundAfterInsert
         end;
  match (match sn_content_type snap with
         | Abc => Some (validate_abc (sn_content snap))
         | Svg => Some (validate_svg (sn_content snap))
         | _ => None
         end) with
  | None => m_ret tt
  | Some new_errors =>
      let existing_errors :=
        filter (λ b, sn_kind b = KError ∧ sn_parent_id b = Some id ∧ sn_compacted b = false) (blocks_ordered (de_doc e)) in
      let existing_keys := omap (λ b, (λ err, error_key err (sn_content b)) <$> sn_error b) existing_errors in
      let new_keys := (λ x, error_key x.1 x.2) <$> new_errors in
      delete_stale now c existing_errors new_keys;;
      insert_missing now c id new_errors existing_keys
  end.

Definition kernel_set_status (now : Z) c (id : BlockId) (v : Status) : kmethod () :=
  update_with now c (set_status id v);;
  emit (StatusChanged c id v OpLocal);;
  if bool_decide (v = SDone) then
    s ← m_get;
    match sn_content_type <$> (e ← ks_documents s !! c; get_block_snapshot (de_doc e) id) with
    | Some Abc | Some Svg => ignoring (validate_content_and_attach_errors now c id)
    | _ => m_ret tt
    end
  else m_ret tt.

(** *** Merging *)

(** What changed of a block that was there. *)
Definition diff_block c (ops : bytes) (old snap : BlockSnapshot) : kmethod (list BlockFlow) :=
  text ← (if bool_decide (sn_content old = sn_content snap) then m_ret []
          else n ← next_block_text_seq c; m_ret [TextOps c (sn_id snap) ops OpRemote n]);
  m_ret ((if bool_decide (sn_status old = sn_status snap) then [] else [StatusChanged c (sn_id snap) (sn_status snap) OpRemote])
         ++ (if bool_decide (sn_output old = sn_output snap) then [] else [OutputChanged c (sn_id snap) (sn_output snap) OpRemote])
         ++ (if bool_decide (sn_collapsed old = sn_collapsed snap) then [] else [CollapsedChanged c (sn_id snap) (sn_collapsed snap) OpRemote])
         ++ text).

(** [before_map.get(&id)]. *)
Definition snapshot_of (id : BlockId) (l : list BlockSnapshot) : option BlockSnapshot :=
  last (filter (λ b, sn_id b = id) l).

Fixpoint diff_changes c (ops : bytes) (before after : list BlockSnapshot) : kmethod (list BlockFlow) :=
  match after with
  | [] => m_ret []
  | snap :: after' =>
      here ← match snapshot_of (sn_id snap) before with Some old => diff_block c ops old snap | None => m_ret [] end;
      rest ← diff_changes c ops before after';
      m_ret (here ++ rest)
  end.

Fixpoint diff_new c (ops : bytes) (before : list BlockSnapshot) (prev : option BlockId) (after : list BlockSnapshot) : list BlockFlow :=
  match after with
  | [] => []
  | snap :: after' =>
      match snapshot_of (sn_id snap) before with
      | Some _ => []
      | None => [Inserted c snap prev ops OpRemote]
      end ++ diff_new c ops before (Some (sn_id snap)) after'
  end.

Definition diff_block_events c (before after : list BlockSnapshot) (ops : bytes) : kmethod (list BlockFlow) :=
  let gone := filter (λ b, snapshot_of (sn_id b) after = None) before in
  changes ← diff_changes c ops before after;
  m_ret (diff_new c ops before None after ++ ((λ b, Deleted c (sn_id b) OpRemote) <$> gone) ++ changes).

Definition kernel_merge_ops (now : Z) c (payload : SyncPayload) : kmethod Z :=
  '(version, before, after, ops, ops_bytes) ← edit_entry c
    (e ← m_get;
     let before := blocks_ordered (de_doc e) in
     let frontier_before := frontier (de_doc e) in
     on_crdt (merge_ops payload);;
     e ← m_get;
     let version := bs_version (de_doc e) in
     m_modify (λ e, e <| de_version := version |>);;
     let after := blocks_ordered (de_doc e) in
     let ops := ops_since (de_doc e) frontier_before in
     ops_bytes ← m_encode ops;
     m_ret (version, before, after, ops, ops_bytes));
  events ← diff_block_events c before after ops_bytes;
  emit_all events;;
  journal_op now c ops;;
  m_ret version.

(** *** Documents *)

(** [default_workspace_id] is set whenever there is a database. *)
Definition row_for (now : Z) c (kind : DocKind) (language path : option string) s : DocumentRow := {|
  row_document_id := c; row_workspace_id := default 0%N (ks_default_workspace_id s); row_doc_kind := kind;
  row_language := language; row_path := path; row_created_at := wrap_i64 now; row_created_by := ks_principal_id s |}.

Definition put_entry c e : kmethod () := m_modify (λ s, s <| ks_documents := <[c := e]> (ks_documents s) |>).
Definition vacant c : kmethod () :=
  s ← m_get; m_guard (bool_decide (ks_documents s !! c = None)) (DocumentAlreadyExists c).

(** A row that is there already, or that has the same path, is taken for the document's. *)
Definition create_document_with (now : Z) c (kind : DocKind) (language path : option string) : kmethod () :=
  vacant c;;
  s ← m_get;
  match ks_db s with
  | Some _ =>
      r ← m_try (on_db (insert_document (row_for now c kind language path s)));
      match r with
      | Ok _ | Err (Db UniqueViolation) => m_ret tt
      | Err err => m_fail err
      end
  | None => m_ret tt
  end;;
  put_entry c (entry_new c kind language (ks_principal_id s)).
Definition create_document now c (kind : DocKind) (language : option string) : kmethod () :=
  create_document_with now c kind language None.
Definition create_document_with_path now c (kind : DocKind) (language : option string) (path : string) : kmethod () :=
  create_document_with now c kind language (Some path).

(** [from_snapshot]; the wall clock is for its tombstones. *)
Definition m_restore {S} (now : Z) (snapshot : StoreSnapshot) (p : PrincipalId) : method S BlockStoreError BlockStore :=
  match store_from_snapshot now snapshot p with
  | Some (Ok d) => m_ret d
  | Some (Err err) => m_fail (Crdt err)
  | None => m_panic
  end.

Definition create_document_from_snapshot (now : Z) c (kind : DocKind) (language : option string) (snapshot_bytes : bytes) : kmethod () :=
  vacant c;;
  match decode snapshot_bytes with
  | Err err => m_fail (SerializationError err)
  | Ok snapshot =>
      s ← m_get;
      d ← m_restore now snapshot (ks_principal_id s);
      put_entry c (entry_of d kind language (ks_principal_id s) 0 0 0)
  end.

Definition delete_document c : kmethod () :=
  s ← m_get;
  match ks_db s with Some _ => on_db (db_delete_document c) | None => m_ret tt end;;
  m_modify (λ s, s <| ks_documents := delete c (ks_documents s) |>).

(** What the three forks share, after their checks. *)
Definition fork_with (now : Z) (new_id : ContextId) (source : DocumentEntry) (forked : option BlockStore) : kmethod () :=
  forked_store ← match forked with Some d => m_ret d | None => m_panic end;
  s ← m_get;
  match ks_db s with
  | Some _ => on_db (insert_document (row_for now new_id (de_kind source) (de_language source) None s))
  | None => m_ret tt
  end;;
  put_entry new_id (entry_of forked_store (de_kind source) (de_language source) (ks_principal_id s) 0 0 0);;
  write_initial_snapshot new_id.

Definition fork_document now (source_id new_id : ContextId) : kmethod () :=
  vacant new_id;;
  source ← read_entry source_id;
  s ← m_get;
  fork_with now new_id source (fork (de_doc source) new_id (ks_principal_id s)).
Definition fork_document_at_version now (source_id new_id : ContextId) (before_timestamp : Z) : kmethod () :=
  vacant new_id;;
  source ← read_entry source_id;
  m_guard (before_timestamp <=? now) (InTheFuture before_timestamp now);;
  s ← m_get;
  fork_with now new_id source (fork_at_version (de_doc source) new_id (ks_principal_id s) before_timestamp).
Definition fork_document_filtered now (source_id new_id : ContextId) (before_timestamp : Z) (f : ForkBlockFilter) : kmethod () :=
  vacant new_id;;
  source ← read_entry source_id;
  m_guard (before_timestamp <=? now) (InTheFuture before_timestamp now);;
  s ← m_get;
  fork_with now new_id source (fork_filtered (de_doc source) new_id (ks_principal_id s) before_timestamp f).

Definition last_block_id s c : option BlockId :=
  e ← ks_documents s !! c; sn_id <$> last (blocks_ordered (de_doc e)).

Definition kernel_reserve_block_id c (p : PrincipalId) : kmethod BlockId :=
  edit_entry c (on_crdt (reserve_block_id p)).

(** *** Loading *)

(** The entries after the snapshot, merged one after the other; [None]: one did not apply,
    and the document is left out. *)
Fixpoint replay (rows : list (Z * bytes)) (d : BlockStore) : option (option BlockStore) :=
  match rows with
  | [] => Some (Some d)
  | (_, payload_bytes) :: rows' =>
      match decode payload_bytes with
      | Err _ => Some None
      | Ok payload =>
          match merge_ops payload d with
          | Some (Ok _, d') => replay rows' d'
          | Some (Err _, _) => Some None
          | None => None
          end
      end
  end.

(** The snapshot of a document and its sequence number; [None]: it cannot be restored. *)
Definition load_base (now : Z) (p : PrincipalId) c : db_method (option (BlockStore * Z)) :=
  r ← m_try (load_latest_snapshot c);
  match r with
  | Err _ => m_ret None
  | Ok None => m_ret (Some (store_new c p, 0))
  | Ok (Some row) =>
      match decode (snr_state row) with
      | Err _ => m_ret None
      | Ok snapshot =>
          match store_from_snapshot now snapshot p with
          | Some (Ok d) => m_ret (Some (d, snr_seq row))
          | Some (Err _) => m_ret None
          | None => m_panic
          end
      end
  end.

Definition load_document (now : Z) (p : PrincipalId) (row : DocumentRow) : db_method (option DocumentEntry) :=
  base ← load_base now p (row_document_id row);
  match base with
  | None => m_ret None
  | Some (d, base_seq) =>
      oplog_entries ← load_oplog_since (row_document_id row) base_seq;
      match replay oplog_entries d with
      | None => m_panic
      | Some None => m_ret None
      | Some (Some d') =>
          let max_seq := foldl Z.max base_seq oplog_entries.*1 in
          let total_bytes := foldr Z.add 0 ((λ r, Z.of_nat (length r.2)) <$> oplog_entries) in
          m_ret (Some (entry_of d' (row_doc_kind row) (row_language row) p (wrap_u64 max_seq)
                         (Z.of_nat (length oplog_entries)) (wrap_u64 total_bytes)))
      end
  end.

Fixpoint load_documents (now : Z) (p : PrincipalId) (rows : list DocumentRow) : kmethod () :=
  match rows with
  | [] => m_ret tt
  | row :: rows' =>
      entry ← on_db (load_document now p row);
      match entry with Some e => put_entry (row_document_id row) e | None => m_ret tt end;;
      load_documents now p rows'
  end.

Definition load_from_db (now : Z) : kmethod () :=
  s ← m_get;
  match ks_db s with
  | None => m_ret tt
  | Some _ => rows ← on_db list_documents; load_documents now (ks_principal_id s) rows
  end.

Definition load_one_from_db (now : Z) c : kmethod bool :=
  s ← m_get;
  match ks_db s with
  | None => m_fail NoDatabaseConfigured
  | Some _ =>
      if bool_decide (is_Some (ks_documents s !! c)) then m_ret false
      else
        row ← on_db (get_document c);
        match row with
        | None => m_ret false
        | Some row =>
            entry ← on_db (load_document now (ks_principal_id s) row);
            match entry with Some e => put_entry c e;; m_ret true | None => m_ret false end
        end
  end.

(** *** Constructors *)

Definition with_db (d : KernelDb) (workspace : N) (p : PrincipalId) : KernelBlockStore := {|
  ks_documents := ∅; ks_block_text_seqs := ∅; ks_db := Some d; ks_persistent := true;
  ks_default_workspace_id := Some workspace; ks_principal_id := p; ks_block_flows := None; ks_live_status := ∅ |}.
Definition with_db_and_flows (d : KernelDb) (workspace : N) (p : PrincipalId) (flows : list BlockFlow) : KernelBlockStore :=
  (with_db d workspace p) <| ks_block_flows := Some flows |>.
Definition with_flows (p : PrincipalId) (flows : list BlockFlow) : KernelBlockStore := {|
  ks_documents := ∅; ks_block_text_seqs := ∅; ks_db := None; ks_persistent := false;
  ks_default_workspace_id := None; ks_principal_id := p; ks_block_flows := Some flows; ks_live_status := ∅ |}.
End store.
