(* ===== verification/Replica.v ===== *)
(** * Replicas of a block store

    A store that is fed the payloads of another ([ops_since], [merge_ops]), or is restored
    from its snapshot, has the same document: block by block the same header, metadata and
    order key, and text documents that have seen the same operations. *)

From S2P Require Import Prelude MethodLogic Text Tick Ids Track Cas Cell Concrete Block OrderKey Hydrate BlockContent Selection BlockStore StoreInv StoreOps StoreOrder StoreDoc StoreRestore Convergence.

(** ** What the document crate promises to replicas

    [same_history]: the two documents have seen the same operations. [extends]: the second
    was reached from the first by edits and merges. *)
Class DteReplicas `{!Dte} := {
  same_history : relation Doc;
  extends : relation Doc;
  same_equiv :: Equivalence same_history;
  extends_pre :: PreOrder extends;
  same_text d r : same_history d r → get_text r = get_text d;
  insert_extends a pos t d d' : text_insert a pos t d = Some d' → extends d d';
  delete_extends a pos n d d' : text_delete a pos n d = Some d' → extends d d';
  extends_text d d' : extends d d' → get_text d ≠ None → get_text d' ≠ None;
  merge_extends o d d' : doc_merge o d = (MergeDone, d') → extends d d';
  (* the operations since the version a replica is at bring it up to date *)
  merge_since d d' r :
    same_history d r → extends d d' →
    ∃ r', doc_merge (ops_since_owned (doc_version d) d') r = (MergeDone, r') ∧ same_history d' r';
  since_empty d d' :
    extends d d' → ops_is_empty (ops_since_owned (doc_version d) d') = true → same_history d d';
  merge_history u d :
    ∃ r, doc_merge (ops_since_owned frontier_root d) (create_agent u doc_new).2 = (MergeDone, r) ∧
         same_history d r;
}.

Section block.
Context {json : JsonLib} {blib : BlockLib} {dte : Dte} {laws : DteLaws} {replicas : DteReplicas}.
Implicit Types b r : BlockContent.

(** ** Headers that advance *)

Definition statics (h : BlockHeader) := (h_id h, h_parent_id h, h_role h, h_kind h, h_created_at h).

(** [updated_at] is the newest timestamp of the fields. *)
Definition tidy (h : BlockHeader) : Prop := h_updated_at h = max_field_ts h.

Record advanced (h h' : BlockHeader) : Prop := {
  adv_statics : statics h' = statics h;
  adv_keys f : key_le (key_of f h) (key_of f h');
  adv_tool : key_of FTool h' = key_of FTool h → tool_view h' = tool_view h;
}.

#[export] Instance key_le_refl : Reflexive key_le.
Proof. intros k. right. lia. Qed.

#[export] Instance advanced_preorder : PreOrder advanced.
Proof.
  split; [by split|]. intros h1 h2 h3 [S1 K1 T1] [S2 K2 T2]. split; [congruence| |].
  - intros f. etrans; [apply K1|apply K2].
  - intros E. assert (key_of FTool h2 = key_of FTool h1) as E2
      by (apply (anti_symm key_le); [by rewrite <- E|apply K1]).
    rewrite T2; [by apply T1|congruence].
Qed.

Lemma max_field_ts_mono h h' : (∀ f, (key_of f h).1 ≤ (key_of f h').1) → max_field_ts h ≤ max_field_ts h'.
Proof.
  intros Hk. unfold max_field_ts.
  repeat apply Z.max_le_compat;
    [apply (Hk FStatus)|apply (Hk FCollapsed)|apply (Hk FEphemeral)|apply (Hk FExcluded)
    |apply (Hk FCompacted)|apply (Hk FTool)|apply (Hk FType)].
Qed.

Lemma max_field_ts_keys h h' : (∀ f, (key_of f h).1 = (key_of f h').1) → max_field_ts h = max_field_ts h'.
Proof.
  intros Hk. apply Z.le_antisymm; apply max_field_ts_mono; intros f; by rewrite Hk.
Qed.

Lemma key_le_max f h : (key_of f h).1 ≤ max_field_ts h.
Proof. unfold max_field_ts. destruct f; cbn; lia. Qed.

Lemma header_ext h h' :
  statics h = statics h' → (∀ f, key_of f h = key_of f h') → tool_view h = tool_view h' →
  h_updated_at h = h_updated_at h' → h = h'.
Proof.
  intros Hs Hk%lww_view_keys Ht Hu. destruct h, h'. unfold statics, lww_view, tool_view in *.
  cbn in *. by simplify_eq.
Qed.

(** ** What merging a header changes *)

(** The part of a block that no merge touches. *)
Definition frame b :=
  (b_order_key b, b_tick b, b_track b, b_tool_name b, b_tool_input b, b_tool_call_id b,
   b_tool_use_id b, b_output b, b_stderr b, b_signature b,
   (b_source_context b, b_source_model b, b_drift_kind b, b_file_path b, b_error b,
    b_notification b, b_resource b)).

(** A change of the header and its three copied flags, which stay copies. *)
Record header_only b b' : Prop := {
  ho_frame : frame b' = frame b;
  ho_doc : b_doc b' = b_doc b;
  ho_deleted : b_deleted b' = b_deleted b;
  ho_statics : statics (b_header b') = statics (b_header b);
  ho_flags : flags_ok b → flags_ok b';
}.

#[export] Instance header_only_preorder : PreOrder header_only.
Proof. split; [by split|]. intros b1 b2 b3 [] []. split; try congruence. auto. Qed.

Ltac only_header := intros; destruct (field_wins _ _ _ _); [|done]; split; (done || by intros (?&?&?)).

Lemma merge_status_only h b : header_only b (merge_status h b).
Proof. unfold merge_status. only_header. Qed.
Lemma merge_collapsed_only h b : header_only b (merge_collapsed h b).
Proof. unfold merge_collapsed. only_header. Qed.
Lemma merge_ephemeral_only h b : header_only b (merge_ephemeral h b).
Proof. unfold merge_ephemeral. only_header. Qed.
Lemma merge_excluded_only h b : header_only b (merge_excluded h b).
Proof. unfold merge_excluded. only_header. Qed.
Lemma merge_compacted_only h b : header_only b (merge_compacted h b).
Proof. unfold merge_compacted. only_header. Qed.
Lemma merge_tool_meta_only h b : header_only b (merge_tool_meta h b).
Proof. unfold merge_tool_meta. only_header. Qed.
Lemma merge_content_type_only h b : header_only b (merge_content_type h b).
Proof. unfold merge_content_type. only_header. Qed.

(** The merged fields, then [updated_at]. *)
Lemma merge_header_fields h b :
  ∃ x, merge_header h b = x <| b_header := (b_header x)
         <| h_updated_at := Z.max (max_field_ts (b_header x)) (max_field_ts h) |> |> ∧
    x = merge_content_type h (merge_tool_meta h (merge_compacted h (merge_excluded h
          (merge_ephemeral h (merge_collapsed h (merge_status h b)))))).
Proof. eexists. by split. Qed.

Lemma merge_header_only h b : header_only b (merge_header h b).
Proof.
  destruct (merge_header_fields h b) as (x&->&Hx). trans x; [subst x|by split].
  etrans; [apply (merge_status_only h)|]. etrans; [apply (merge_collapsed_only h)|].
  etrans; [apply (merge_ephemeral_only h)|]. etrans; [apply (merge_excluded_only h)|].
  etrans; [apply (merge_compacted_only h)|]. etrans; [apply (merge_tool_meta_only h)|].
  apply merge_content_type_only.
Qed.

#[local] Opaque merge_header.

Lemma key_max_l k l : key_le l k → key_max k l = k.
Proof.
  intros Hl. destruct (key_max_spec k l) as (H1&H2&[E|E]); [done|].
  rewrite E in *. by apply (anti_symm key_le).
Qed.
Lemma key_max_r k l : key_le k l → key_max k l = l.
Proof.
  intros Hl. destruct (key_max_spec k l) as (H1&H2&[E|E]); [|done].
  rewrite E in *. by apply (anti_symm key_le).
Qed.

Lemma merge_header_updated h b :
  h_updated_at (b_header (merge_header h b)) = Z.max (max_field_ts (b_header (merge_header h b))) (max_field_ts h).
Proof.
  by destruct (merge_header_fields h b) as (x&->&_).
Qed.

Lemma merge_header_tidy h b : tidy (b_header (merge_header h b)).
Proof.
  unfold tidy. rewrite merge_header_updated.
  assert (max_field_ts h ≤ max_field_ts (b_header (merge_header h b))); [|lia].
  apply max_field_ts_mono. intros f. rewrite merge_header_key.
  destruct (key_max_spec (key_of f (b_header b)) (key_of f h)) as (_&Hk&_).
  unfold key_le in Hk. lia.
Qed.

Lemma merge_header_bound h b :
  max_field_ts (b_header (merge_header h b)) ≤ Z.max (max_field_ts (b_header b)) (max_field_ts h).
Proof.
  pose proof (λ f, merge_header_key f h b) as Hk.
  assert (∀ f, (key_of f (b_header (merge_header h b))).1 ≤
    Z.max (max_field_ts (b_header b)) (max_field_ts h)) as Hf.
  { intros f. rewrite Hk. pose proof (key_le_max f (b_header b)). pose proof (key_le_max f h).
    destruct (key_max_spec (key_of f (b_header b)) (key_of f h)) as (_&_&[->| ->]); lia. }
  pose proof (Hf FStatus). pose proof (Hf FCollapsed). pose proof (Hf FEphemeral).
  pose proof (Hf FExcluded). pose proof (Hf FCompacted). pose proof (Hf FTool). pose proof (Hf FType).
  unfold max_field_ts at 1. cbn -[max_field_ts merge_header] in *. lia.
Qed.

Lemma merge_header_advanced h b : advanced (b_header b) (b_header (merge_header h b)).
Proof.
  split.
  - apply merge_header_only.
  - intros f. rewrite merge_header_key. apply key_max_spec.
  - rewrite merge_header_tool. intros Hk. destruct (field_wins _ _ _ _) eqn:E; [|done].
    rewrite merge_header_key in Hk. unfold key_max in Hk. cbn in Hk. rewrite E in Hk.
    unfold field_wins in E. injection Hk as H1 H2. exfalso. revert E. rewrite H1, H2.
    rewrite Z.ltb_irrefl, Z.ltb_irrefl, andb_false_r. done.
Qed.

(** A replica catches up with a header that advanced. *)
Lemma merge_header_catches h b :
  advanced (b_header b) h → tidy h → b_header (merge_header h b) = h.
Proof.
  intros [Hs Hk Ht] Hu.
  assert (∀ f, key_of f (b_header (merge_header h b)) = key_of f h) as Hk'.
  { intros f. rewrite merge_header_key. by apply key_max_r. }
  apply header_ext; [| done | |].
  - rewrite Hs. apply merge_header_only.
  - rewrite merge_header_tool. destruct (field_wins _ _ _ _) eqn:E; [done|].
    symmetry. apply Ht. rewrite <- Hk'. rewrite merge_header_key. unfold key_max. cbn. by rewrite E.
  - rewrite merge_header_updated, Hu. rewrite (max_field_ts_keys _ h) by (intros; by rewrite Hk'). lia.
Qed.

(** ** Twins *)

Record twin b r : Prop := {
  tw_header : b_header r = b_header b;
  tw_frame : frame r = frame b;
  tw_flags : flags_ok r;
  tw_live : b_deleted r = false;
  tw_history : same_history (b_doc b) (b_doc r);
}.

Lemma twin_snapshot b r : flags_ok b → twin b r → block_snapshot r = block_snapshot b.
Proof.
  intros (F1&F2&F3) [Hh Hf (G1&G2&G3) _ Hd%same_text]. rewrite Hh in *.
  unfold block_snapshot, block_text. unfold frame in Hf. injection Hf as -> -> -> -> -> -> -> -> -> -> -> -> -> -> -> -> ->.
  by rewrite Hh, Hd, G1, G2, G3, F1, F2, F3.
Qed.

(** How a live block may change under a store that journals. *)
Record grew b b' : Prop := {
  gr_frame : frame b' = frame b;
  gr_deleted : b_deleted b' = b_deleted b;
  gr_header : advanced (b_header b) (b_header b');
  gr_doc : extends (b_doc b) (b_doc b');
}.

#[export] Instance grew_preorder : PreOrder grew.
Proof.
  split; [by split|]. intros b1 b2 b3 [] []. split; try congruence; by etrans.
Qed.

Lemma header_only_grew b b' : header_only b b' → advanced (b_header b) (b_header b') → grew b b'.
Proof. intros [] ?. split; try done. by rewrite ho_doc0. Qed.

(** The replica after the header and the operations of the changed block. *)
Lemma twin_moves b b' r r1 :
  twin b r → grew b b' → header_only r r1 → b_header r1 = b_header b' →
  let o := block_ops_since (block_frontier b) b' in
  (ops_is_empty o = true → twin b' r1) ∧ ∃ r2, block_merge_ops o r1 = (Ok tt, r2) ∧ twin b' r2.
Proof.
  intros [Hh Hf Hfl Hl Hd] [Gf Gd Gh Ge] [M1 M2 M3 M4 M5] Hh1 o. split.
  - intros Ho. split; [done|by rewrite M1, Hf, Gf|by apply M5|by rewrite M3|].
    rewrite M2. etrans; [|exact Hd]. symmetry. by apply since_empty.
  - destruct (merge_since (b_doc b) (b_doc b') (b_doc r1)) as (d&Hm&Hs); [by rewrite M2|done|].
    unfold block_merge_ops, o, block_ops_since, block_frontier. rewrite Hm.
    eexists. split; [done|]. split.
    + exact Hh1.
    + trans (frame r1); [done|]. by rewrite M1, Hf, Gf.
    + exact (M5 Hfl).
    + exact (eq_trans M3 Hl).
    + exact Hs.
Qed.

Lemma twin_header b b' r :
  twin b r → grew b b' → tidy (b_header b') →
  header_only r (merge_header (b_header b') r) ∧ b_header (merge_header (b_header b') r) = b_header b'.
Proof.
  intros [Hh _ _ _ _] [_ _ Gh _] Ht. split; [apply merge_header_only|].
  apply merge_header_catches; [by rewrite Hh|done].
Qed.

(** The replica of a new block: from its history, sent along when it is not empty. *)
Lemma twin_new p k b :
  flags_ok b → b_deleted b = false →
  ops_is_empty (root_ops b) = false →
  ∃ r, block_merge_ops (root_ops b) (block_from_snapshot_for_sync (block_snapshot b) p k) = (Ok tt, r) ∧
    twin b r.
Proof.
  intros Hfl Hl Ho. unfold block_merge_ops, block_from_snapshot_for_sync, root_ops.
  pose proof (merge_history (principal_uuid p) (b_doc b)) as (d&Hm&Hs).
  destruct (create_agent _ _) as [a d0]. cbn in Hm |- *. rewrite Hm.
  eexists. split; [done|]. split; cbn; try done.
  - destruct Hfl as (F1&F2&F3). destruct b, b_header. cbn in *. by subst.
Qed.
End block.

(** ** Stores that grow, and their twins *)

Section store.
Context {json : JsonLib} {blib : BlockLib} {dte : Dte} {laws : DteLaws} {replicas : DteReplicas} {uuids : UuidCrate}.
Implicit Types s r : BlockStore.

(** A live block of a store whose clock is at [clock]. *)
Record fit (clock : Z) (b : BlockContent) : Prop := {
  fit_flags : flags_ok b;
  fit_tidy : tidy (b_header b);
  fit_clock : 0 ≤ h_updated_at (b_header b) ≤ clock;
  fit_tick : b_tick b ≠ None;
  fit_text : get_text (b_doc b) ≠ None;
}.

Record sound s : Prop := {
  so_store : store_ok s;
  so_fit id b : get_live s id = Some b → fit (bs_lamport_clock s) b;
  so_clock : 0 ≤ bs_lamport_clock s;
}.

Record grows s s' : Prop := {
  gw_context : bs_context_id s' = bs_context_id s;
  gw_blocks id b : bs_blocks s !! id = Some b →
    ∃ b', bs_blocks s' !! id = Some b' ∧ outlives b b' ∧ (b_deleted b' = false → grew b b');
}.

#[export] Instance grows_preorder : PreOrder grows.
Proof.
  split.
  - intros s. split; [done|]. intros id b Hb. exists b. split_and!; [done|by intros ?|by intros ?].
  - intros s1 s2 s3 [C1 B1] [C2 B2]. split; [congruence|].
    intros id b (b2&Hb2&O1&G1)%B1. destruct (B2 id b2 Hb2) as (b3&Hb3&O2&G2).
    exists b3. split; [done|]. split; [by intros ?%O1%O2|]. intros Hl.
    destruct (b_deleted b2) eqn:E; [by rewrite O2 in Hl|]. etrans; [by apply G1|by apply G2].
Qed.

Lemma grows_same s s' :
  bs_context_id s' = bs_context_id s → bs_blocks s' = bs_blocks s → grows s s'.
Proof.
  intros Hc Hb. split; [done|]. intros id b. rewrite Hb. intros ?. exists b.
  split_and!; [done|by intros ?|by intros ?].
Qed.

Record twins s r : Prop := {
  tws_context : bs_context_id r = bs_context_id s;
  tws_live id b : get_live s id = Some b → ∃ b', get_live r id = Some b' ∧ twin b b';
  tws_back id b' : bs_blocks r !! id = Some b' →
    ∃ b, bs_blocks s !! id = Some b ∧ b_deleted b' = b_deleted b;
}.

Lemma tws_live_back s r id b' :
  twins s r → get_live r id = Some b' → ∃ b, get_live s id = Some b ∧ twin b b'.
Proof.
  intros Ht [Hb' Hl]%get_live_Some. destruct (tws_back s r Ht id b' Hb') as (b&Hb&Hd).
  assert (get_live s id = Some b) as Hlive by (apply get_live_Some; split; congruence).
  destruct (tws_live s r Ht id b Hlive) as (b2&[Hb2 _]%get_live_Some&Htw). exists b. by simplify_eq.
Qed.

(** Twins have the same document. *)
Lemma twins_snapshot s r id :
  sound s → twins s r → get_block_snapshot r id = get_block_snapshot s id.
Proof.
  intros Hs Ht. unfold get_block_snapshot. destruct (get_live s id) as [b|] eqn:E.
  - destruct (tws_live s r Ht id b E) as (b'&->&Htw). cbn. f_equal. apply twin_snapshot; [|done].
    by apply (so_fit s Hs id b E).
  - destruct (get_live r id) as [b'|] eqn:E'; [|done].
    destruct (tws_live_back s r id b' Ht E') as (b&Hb&_). congruence.
Qed.

Lemma sorted_same_elements {A} (R : relation A) `{!AntiSymm (=) R} (l k : list A) :
  NoDup l → NoDup k → StronglySorted R l → StronglySorted R k → (∀ x, x ∈ l ↔ x ∈ k) → l = k.
Proof.
  intros Hl Hk Sl Sk Hlk. apply (StronglySorted_unique R); [done|done|]. by apply NoDup_Permutation.
Qed.

Lemma ordered_keys_NoDup s : NoDup (ordered_keys s).
Proof.
  eapply (NoDup_fmap_1 snd). apply ordered_NoDup.
Qed.

Lemma twins_doc s r : sound s → twins s r → blocks_ordered r = blocks_ordered s.
Proof.
  intros Hs Ht. unfold blocks_ordered.
  assert (block_ids_ordered r = block_ids_ordered s) as ->.
  { unfold block_ids_ordered. f_equal. fold (ordered_keys r) (ordered_keys s).
    apply (sorted_same_elements order_le); [apply ordered_keys_NoDup|apply ordered_keys_NoDup|apply ordered_keys_sorted|apply ordered_keys_sorted|].
    intros [k id]. rewrite !elem_of_ordered_keys. split.
    - intros (b'&Hb'&<-). destruct (tws_live_back s r id b' Ht Hb') as (b&Hb&[_ Hf _ _ _]).
      exists b. split; [done|]. unfold frame in Hf. congruence.
    - intros (b&Hb&<-). destruct (tws_live s r Ht id b Hb) as (b'&Hb'&[_ Hf _ _ _]).
      exists b'. split; [done|]. unfold frame in Hf. congruence. }
  apply list_omap_ext, Forall_Forall2_diag, Forall_forall. intros id _. by apply twins_snapshot.
Qed.

Lemma twins_sound s r :
  sound s → twins s r → store_ok r → 0 ≤ bs_lamport_clock r →
  (∀ id b, get_live s id = Some b → h_updated_at (b_header b) ≤ bs_lamport_clock r) → sound r.
Proof.
  intros Hs Ht Hok Hc Hle. split; [done| |done].
  intros id b' Hb'. destruct (tws_live_back s r id b' Ht Hb') as (b&Hb&Htw).
  specialize (Hle id b Hb). destruct (so_fit s Hs id b Hb) as [F1 F2 F3 F4 F5].
  destruct Htw as [Hh Hf Hfl _ Hd]. split; [done|by rewrite Hh|rewrite Hh; lia| |].
  - unfold frame in Hf. congruence.
  - by rewrite (same_text _ _ Hd).
Qed.
End store.

(** ** The payload of a change *)

Section payload.
Context {json : JsonLib} {blib : BlockLib} {dte : Dte} {laws : DteLaws} {replicas : DteReplicas} {uuids : UuidCrate}.
Implicit Types s r : BlockStore.

Lemma blocks_iter_NoDup s : NoDup (fst <$> blocks_iter s).
Proof. unfold blocks_iter. rewrite merge_sort_Permutation. apply NoDup_fst_map_to_list. Qed.

(** The operations sent of a live block. *)
Definition sent_ops (frontiers : gmap BlockId Frontier) (x : BlockId * BlockContent) : BlockId * Ops :=
  (x.1, match frontiers !! x.1 with
        | Some f => block_ops_since f x.2
        | None => root_ops x.2
        end).

Lemma ops_since_parts s frontiers :
  let l := blocks_iter s in
  ops_since s frontiers = {|
    p_block_ops := filter (λ o, ops_is_empty o.2 = false)
                     (sent_ops frontiers <$> filter (λ x, b_deleted x.2 = false) l);
    p_new_blocks := (λ x, block_snapshot x.2) <$>
                      filter (λ x, b_deleted x.2 = false ∧ frontiers !! x.1 = None) l;
    p_updated_headers := (λ x, b_header x.2) <$>
                      filter (λ x, b_deleted x.2 = false ∧ frontiers !! x.1 ≠ None) l;
    p_deleted_blocks := fst <$> filter (λ x, b_deleted x.2 = true ∧ frontiers !! x.1 ≠ None) l |}.
Proof.
  cbn zeta. unfold ops_since. induction (blocks_iter s) as [|[id b] l IH]; [done|].
  cbn [foldr]. rewrite IH. clear IH. unfold ops_of_block. rewrite !filter_cons. cbn [fst snd].
  destruct (b_deleted b) eqn:Ed; destruct (frontiers !! id) as [f|] eqn:Ef.
  all: repeat first [rewrite decide_True by done | rewrite decide_False by (intros ?; destruct_and?; done)].
  all: try done.
  all: rewrite fmap_cons, filter_cons; unfold sent_ops; cbn [fst snd]; rewrite Ef.
  all: f_equal; destruct (ops_is_empty _) eqn:Eo.
  all: first [rewrite decide_True by done | rewrite decide_False by done]; done.
Qed.

(** *** The loops of [merge_ops], on a replica *)

(** The parts of a store that the loops over blocks leave alone. *)
Definition aside s s' : Prop :=
  bs_context_id s' = bs_context_id s ∧ bs_principal_id s' = bs_principal_id s ∧
  bs_lamport_clock s' = bs_lamport_clock s.

Definition newest_snap (m : Z) (snaps : list BlockSnapshot) : Z := foldl (λ m sn, Z.max m (sn_updated_at sn)) m snaps.
Definition newest_header (m : Z) (hs : list BlockHeader) : Z := foldl (λ m h, Z.max m (h_updated_at h)) m hs.

(** Blocks that are new to the replica and come with their history. *)
Lemma merge_new_run has l ts m r :
  NoDup (block_id <$> l) →
  (∀ b, b ∈ l → bs_blocks r !! block_id b = None ∧ block_id b ∈ has) →
  ∃ m' r', merge_new_blocks has (block_snapshot <$> l) ts m r =
    Some (Ok (newest_snap ts (block_snapshot <$> l), m'), r') ∧
    aside r r' ∧
    (∀ b, b ∈ l → bs_blocks r' !! block_id b =
       Some (block_from_snapshot_for_sync (block_snapshot b) (bs_principal_id r) "")) ∧
    (∀ id, id ∉ block_id <$> l → bs_blocks r' !! id = bs_blocks r !! id).
Proof.
  revert ts m r. induction l as [|b l IH]; intros ts m r Hnd Hl.
  { exists m, r. split_and!; [done|done|by intros b ?%elem_of_nil|done]. }
  rewrite fmap_cons in Hnd. apply NoDup_cons in Hnd as [Hnb Hnd].
  destruct (Hl b) as [Hnone Hhas]; [set_solver|]. cbn [fmap list_fmap merge_new_blocks].
  rewrite (bind_ok m_get _ _ _ _ eq_refl).
  change (sn_id (block_snapshot b)) with (block_id b). rewrite bool_decide_true by done.
  change (fallback_key r (block_snapshot b)) with (Some "").
  rewrite (bind_ok (m_lift (Some "")) _ _ "" _ eq_refl), bool_decide_true by done.
  rewrite (bind_ok (m_ret _) _ _ _ _ eq_refl), (bind_ok (m_modify _) _ _ tt _ eq_refl).
  set (b0 := block_from_snapshot_for_sync _ _ _).
  set (r1 := observe_seq _ _ _).
  assert (∀ id, bs_blocks r1 !! id = <[block_id b := b0]> (bs_blocks r) !! id) as Hr1 by done.
  destruct (IH (Z.max ts (sn_updated_at (block_snapshot b))) (max_tick_of m (sn_tick (block_snapshot b))) r1)
    as (m'&r'&Hr&(A1&A2&A3)&Hin&Hout); [done| |].
  { intros b' Hb'. destruct (Hl b') as [Hn ?]; [set_solver|]. split; [|done].
    rewrite Hr1, lookup_insert_ne; [done|]. intros E. apply Hnb. rewrite E. by apply list_elem_of_fmap_2. }
  exists m', r'. split; [exact Hr|]. split; [done|]. split.
  - intros b' [->|Hb']%elem_of_cons; [|by apply Hin].
    rewrite Hout by done. by rewrite Hr1, lookup_insert_eq.
  - intros id [Hne Hid]%not_elem_of_cons. rewrite Hout by done. by rewrite Hr1, lookup_insert_ne.
Qed.

Lemma merge_headers_run hs r :
  NoDup (h_id <$> hs) →
  aside r (merge_headers hs r) ∧
  (∀ h, h ∈ hs → bs_blocks (merge_headers hs r) !! h_id h = merge_header h <$> bs_blocks r !! h_id h) ∧
  (∀ id, id ∉ h_id <$> hs → bs_blocks (merge_headers hs r) !! id = bs_blocks r !! id).
Proof.
  revert r. induction hs as [|h hs IH]; intros r Hnd.
  { split_and!; [done..|by intros h ?%elem_of_nil|done]. }
  rewrite fmap_cons in Hnd. apply NoDup_cons in Hnd as [Hnh Hnd]. cbn [merge_headers].
  set (r1 := set_field bs_blocks _ r).
  assert (∀ id, bs_blocks r1 !! id = alter (merge_header h) (h_id h) (bs_blocks r) !! id) as Hr1 by done.
  destruct (IH r1 Hnd) as ((A1&A2&A3)&Hin&Hout). split; [done|]. split.
  - intros h' [->|Hh']%elem_of_cons.
    + rewrite Hout by done. by rewrite Hr1, lookup_alter_eq.
    + rewrite Hin by done. rewrite Hr1, lookup_alter_ne; [done|].
      intros E. apply Hnh. rewrite E. by apply list_elem_of_fmap_2.
  - intros id [Hne Hid]%not_elem_of_cons. rewrite Hout by done. by rewrite Hr1, lookup_alter_ne.
Qed.

Lemma merge_block_ops_run ops had r :
  NoDup ops.*1 →
  (∀ id o, (id, o) ∈ ops → ops_is_empty o = false ∧
     ∃ b b', bs_blocks r !! id = Some b ∧ block_merge_ops o b = (Ok tt, b')) →
  ∃ r', merge_block_ops ops had r = Some (Ok (had || negb (bool_decide (ops = []))), r') ∧
    aside r r' ∧
    (∀ id o, (id, o) ∈ ops → ∃ b b', bs_blocks r !! id = Some b ∧
       block_merge_ops o b = (Ok tt, b') ∧ bs_blocks r' !! id = Some b') ∧
    (∀ id, id ∉ ops.*1 → bs_blocks r' !! id = bs_blocks r !! id).
Proof.
  revert had r. induction ops as [|[i o] ops IH]; intros had r Hnd Hops.
  { exists r. rewrite orb_false_r. split_and!; [done..|by intros id o ?%elem_of_nil|done]. }
  rewrite fmap_cons in Hnd. apply NoDup_cons in Hnd as [Hni Hnd].
  destruct (Hops i o) as (Ho&b&b'&Hb&Hm); [set_solver|]. cbn [merge_block_ops].
  rewrite (bind_ok m_get _ _ _ _ eq_refl), Hb, Hm, (bind_ok (m_modify _) _ _ tt _ eq_refl), Ho.
  set (r1 := set_field bs_blocks _ r).
  assert (∀ id, bs_blocks r1 !! id = <[i := b']> (bs_blocks r) !! id) as Hr1 by done.
  destruct (IH (had || negb false) r1) as (r'&Hr&(A1&A2&A3)&Hin&Hout); [done| |].
  { intros id o' Hio. rewrite Hr1, lookup_insert_ne; [apply Hops; set_solver|].
    intros <-. apply Hni. by apply (list_elem_of_fmap_2 fst) in Hio. }
  exists r'. rewrite Hr. split; [by destruct had|]. split; [done|]. split.
  - intros id o' [[= -> ->]|Hio]%elem_of_cons.
    + exists b, b'. split_and!; [done..|]. rewrite Hout by done. by rewrite Hr1, lookup_insert_eq.
    + destruct (Hin id o' Hio) as (b1&b2&H1&H2&H3). exists b1, b2. split_and!; [|done..].
      rewrite Hr1, lookup_insert_ne in H1; [done|]. intros <-. apply Hni. by apply (list_elem_of_fmap_2 fst) in Hio.
  - intros id [Hne Hid]%not_elem_of_cons. rewrite Hout by done. by rewrite Hr1, lookup_insert_ne.
Qed.

Lemma merge_deleted_run ids r :
  0 ≤ bs_lamport_clock r → bs_lamport_clock r + Z.of_nat (length ids) < two64 →
  ∃ r', merge_deleted ids r = Some (Ok tt, r') ∧
    bs_context_id r' = bs_context_id r ∧ bs_principal_id r' = bs_principal_id r ∧
    bs_lamport_clock r' = bs_lamport_clock r + Z.of_nat (length ids) ∧
    (∀ id, id ∉ ids → bs_blocks r' !! id = bs_blocks r !! id) ∧
    (∀ id, id ∈ ids →
       match bs_blocks r !! id with
       | Some _ => ∃ b', bs_blocks r' !! id = Some b' ∧ b_deleted b' = true
       | None => bs_blocks r' !! id = None
       end).
Proof.
  revert r. induction ids as [|i ids IH]; intros r H0 Hlt.
  { exists r. cbn. split_and!; [done..|lia|done|by intros id ?%elem_of_nil]. }
  cbn [merge_deleted length] in *. unfold store_tick.
  rewrite (bind_ok _ _ r (bs_lamport_clock r + 1) (r <| bs_lamport_clock := bs_lamport_clock r + 1 |>)).
  2:{ unfold mbind, method_bind, m_bind, m_modify, m_get. cbn. rewrite wrap_u64_id by width_lia. done. }
  rewrite (bind_ok (m_modify _) _ _ tt _ eq_refl). set (r1 := set_field bs_blocks _ _).
  assert (bs_lamport_clock r1 = bs_lamport_clock r + 1) as Hc1 by done.
  destruct (IH r1) as (r'&Hr&A1&A2&A3&Hout&Hin); [lia|rewrite Hc1; lia|].
  exists r'. split; [done|]. split; [done|]. split; [done|]. split; [lia|].
  assert (∀ id, id ≠ i → bs_blocks r1 !! id = bs_blocks r !! id) as Hne
    by (intros; apply lookup_alter_ne; congruence).
  split.
  - intros id [? ?]%not_elem_of_cons. rewrite Hout by done. by apply Hne.
  - intros id Hid. destruct (decide (id = i)) as [->|Hd].
    + assert (bs_blocks r1 !! i = (λ b, if b_deleted b then b else mark_deleted (bs_lamport_clock r + 1) b)
        <$> bs_blocks r !! i) as E by apply lookup_alter_eq.
      destruct (decide (i ∈ ids)) as [Hi|Hi].
      * specialize (Hin i Hi). rewrite E in Hin. by destruct (bs_blocks r !! i).
      * rewrite Hout by done. rewrite E. destruct (bs_blocks r !! i) as [b|]; [|done].
        eexists. split; [done|]. by destruct (b_deleted b) eqn:?.
    + rewrite <- Hne by done. apply Hin. by apply elem_of_cons in Hid as [?|?].
Qed.
End payload.

(** ** A replica follows the store it replicates *)

Section replay.
Context {json : JsonLib} {blib : BlockLib} {dte : Dte} {laws : DteLaws} {replicas : DteReplicas} {uuids : UuidCrate}.
Implicit Types s r : BlockStore.

(** The newest timestamp of a payload, and the clock after its merge. *)
Definition payload_ts (p : SyncPayload) : Z := newest_header (newest_snap 0 (p_new_blocks p)) (p_updated_headers p).
Definition payload_clock (p : SyncPayload) (clock : Z) : Z :=
  let c := clock + Z.of_nat (length (p_deleted_blocks p)) in
  if (0 <? payload_ts p) || negb (bool_decide (p_block_ops p = [])) then Z.max c (payload_ts p) + 1 else c.

Lemma elem_of_part s (P : BlockId * BlockContent → Prop) `{∀ x, Decision (P x)} id b :
  (id, b) ∈ filter P (blocks_iter s) ↔ P (id, b) ∧ bs_blocks s !! id = Some b.
Proof. by rewrite list_elem_of_filter, elem_of_blocks_iter. Qed.

Lemma NoDup_part s (P : BlockId * BlockContent → Prop) `{∀ x, Decision (P x)} :
  NoDup (fst <$> filter P (blocks_iter s)).
Proof.
  eapply sublist_NoDup; [apply blocks_iter_NoDup|]. apply fmap_sublist, sublist_filter.
Qed.

Lemma part_ids s (P : BlockId * BlockContent → Prop) `{∀ x, Decision (P x)} :
  ids_ok s → (λ x, block_id x.2) <$> filter P (blocks_iter s) = fst <$> filter P (blocks_iter s).
Proof.
  intros Hok. apply list_fmap_ext. intros i [id b] Hi. apply list_elem_of_lookup_2 in Hi.
  apply elem_of_part in Hi as [_ Hb]. by apply (so_ids s Hok).
Qed.

(** What [r] looks like before its operations: each live block of [s'] is a twin, or
    becomes one when its operations are merged. *)
Definition primed (frontiers : gmap BlockId Frontier) (id : BlockId) (b c : BlockContent) : Prop :=
  let o := (sent_ops frontiers (id, b)).2 in
  (ops_is_empty o = true → twin b c) ∧ ∃ c', block_merge_ops o c = (Ok tt, c') ∧ twin b c'.

Lemma primed_new frontiers id b clock p :
  fit clock b → b_deleted b = false → frontiers !! id = None →
  primed frontiers id b (block_from_snapshot_for_sync (block_snapshot b) p "").
Proof.
  intros [Hfl _ _ _ Htext] Hl Hf. unfold primed, sent_ops. cbn [fst snd]. rewrite Hf.
  assert (ops_is_empty (root_ops b) = false) as Ho by by apply full_ops_empty.
  split; [by rewrite Ho|by apply twin_new].
Qed.

Lemma primed_known frontiers id b b' c :
  frontiers !! id = Some (block_frontier b) → grew b b' → twin b c → tidy (b_header b') →
  primed frontiers id b' (merge_header (b_header b') c).
Proof.
  intros Hf Hg Ht Htidy. unfold primed, sent_ops. cbn [fst snd]. rewrite Hf.
  destruct (twin_header b b' c Ht Hg Htidy) as [Ho Hh]. by apply (twin_moves b b' c).
Qed.

(** The new blocks and the headers, merged. *)
Lemma replay_blocks s s' r has ts m :
  sound s' → grows s s' → twins s r →
  let p := ops_since s' (frontier s) in
  has = list_to_set (fst <$> p_block_ops p) →
  ∃ m' r1, merge_new_blocks has (p_new_blocks p) ts m r = Some (Ok (newest_snap ts (p_new_blocks p), m'), r1) ∧
    let r2 := merge_headers (p_updated_headers p) (raise_next_tick ((λ t, {| tick_get := t |}) <$> m') r1) in
    aside r r2 ∧
    (∀ id b, get_live s' id = Some b → ∃ c, bs_blocks r2 !! id = Some c ∧ primed (frontier s) id b c) ∧
    (∀ id, get_live s' id = None → bs_blocks r2 !! id = bs_blocks r !! id).
Proof.
  intros Hs' Hg Ht p Hhas. pose proof (so_store s' Hs') as [Hids' _].
  assert (∀ id, frontier s !! id = block_frontier <$> bs_blocks s !! id) as Hfr
    by (intros; unfold frontier; by rewrite lookup_fmap).
  unfold p. rewrite ops_since_parts. cbn [p_new_blocks p_updated_headers].
  set (lnew := filter (λ x, b_deleted x.2 = false ∧ frontier s !! x.1 = None) (blocks_iter s')).
  set (lold := filter (λ x, b_deleted x.2 = false ∧ frontier s !! x.1 ≠ None) (blocks_iter s')).
  assert ((λ x, block_snapshot x.2) <$> lnew = block_snapshot <$> (snd <$> lnew)) as -> by by rewrite <- list_fmap_compose.
  destruct (merge_new_run has (snd <$> lnew) ts m r) as (m'&r1&Hr1&(A1&A2&A3)&Hin1&Hout1).
  { rewrite <- list_fmap_compose. unfold lnew. rewrite (part_ids s') by done. apply NoDup_part. }
  { intros b ([id b0]&->&[[Hl Hn] Hb]%elem_of_part)%list_elem_of_fmap. cbn [fst snd] in *.
    assert (block_id b0 = id) as Hid by by apply (so_ids s' Hids'). rewrite Hid.
    rewrite Hfr in Hn. apply fmap_None in Hn. split.
    - destruct (bs_blocks r !! id) as [c|] eqn:E; [|done].
      destruct (tws_back s r Ht id c E) as (?&?&_). congruence.
    - subst has. apply elem_of_list_to_set. unfold p. rewrite ops_since_parts. cbn [p_block_ops].
      apply list_elem_of_fmap. exists (sent_ops (frontier s) (id, b0)). split; [done|].
      apply list_elem_of_filter. unfold sent_ops. cbn [fst snd]. rewrite Hfr, Hn. split.
      + apply full_ops_empty, (fit_text (bs_lamport_clock s')), (so_fit s' Hs' id). by apply get_live_Some.
      + apply list_elem_of_fmap. exists (id, b0). cbn [fst snd]. rewrite Hfr, Hn. split; [done|].
        by apply elem_of_part. }
  exists m', r1. split; [exact Hr1|]. set (r1' := raise_next_tick _ r1). set (r2 := merge_headers _ r1').
  assert (aside r1 r1' ∧ bs_blocks r1' = bs_blocks r1) as [(B1&B2&B3) Hb1]
    by (unfold r1'; by destruct m').
  destruct (merge_headers_run ((λ x, b_header x.2) <$> lold) r1') as ((C1&C2&C3)&Hin2&Hout2).
  { rewrite <- list_fmap_compose. unfold lold. change (h_id ∘ _) with (λ x : BlockId * BlockContent, block_id x.2).
    rewrite (part_ids s') by done. apply NoDup_part. }
  assert (∀ id, id ∈ h_id <$> ((λ x, b_header x.2) <$> lold) ↔ id ∈ fst <$> lold) as Hold.
  { intros id. rewrite <- list_fmap_compose. unfold lold.
    change (h_id ∘ _) with (λ x : BlockId * BlockContent, block_id x.2). by rewrite (part_ids s'). }
  assert (∀ id, id ∈ block_id <$> (snd <$> lnew) ↔ id ∈ fst <$> lnew) as Hnew.
  { intros id. rewrite <- list_fmap_compose. unfold lnew.
    change (block_id ∘ snd) with (λ x : BlockId * BlockContent, block_id x.2). by rewrite (part_ids s'). }
  split; [unfold aside, r2; by rewrite C1, C2, C3, B1, B2, B3|]. split.
  - intros id b [Hb Hl]%get_live_Some. assert (block_id b = id) as Hid by by apply (so_ids s' Hids').
    destruct (bs_blocks s !! id) as [b0|] eqn:E0.
    + (* a block that was there *)
      assert (frontier s !! id = Some (block_frontier b0)) as Hf by by rewrite Hfr, E0.
      destruct (gw_blocks s s' Hg id b0 E0) as (b1&Hb1'&Ho&Hgrew).
      rewrite Hb in Hb1'. injection Hb1' as <-. specialize (Hgrew Hl). assert (get_live s id = Some b0) as Hlive0.
      { apply get_live_Some. split; [done|]. by rewrite <- (gr_deleted _ _ Hgrew). }
      destruct (tws_live s r Ht id b0 Hlive0) as (c0&[Hc0 _]%get_live_Some&Htw).
      exists (merge_header (b_header b) c0). split.
      * assert (bs_blocks r2 !! id = merge_header (b_header b) <$> bs_blocks r1' !! id) as ->.
        { rewrite <- Hid. apply (Hin2 (b_header b)). apply list_elem_of_fmap. exists (id, b).
          split; [done|]. apply elem_of_part. cbn. by rewrite Hf. }
        rewrite Hb1, Hout1, Hc0; [done|]. rewrite Hnew. intros ([? ?]&->&[[_ Hn] _]%elem_of_part)%list_elem_of_fmap.
        cbn [fst] in Hn, Hf. congruence.
      * apply (primed_known _ _ b0); [done..|].
        apply (fit_tidy (bs_lamport_clock s')), (so_fit s' Hs' id). by apply get_live_Some.
    + (* a new block *)
      assert (frontier s !! id = None) as Hf by by rewrite Hfr, E0.
      eexists. split.
      * rewrite Hout2, Hb1.
        -- rewrite <- Hid. apply (Hin1 b). apply list_elem_of_fmap. exists (id, b). split; [done|].
           by apply elem_of_part.
        -- rewrite Hold. intros ([? ?]&->&[[_ Hn] _]%elem_of_part)%list_elem_of_fmap. cbn [fst] in Hn, Hf. congruence.
      * apply (primed_new _ _ _ (bs_lamport_clock s')); [|done|done]. apply (so_fit s' Hs' id b). by apply get_live_Some.
  - intros id Hdead. rewrite Hout2, Hb1, Hout1; [done|..].
    + rewrite Hnew. intros ([? b]&->&[[Hl _] Hb]%elem_of_part)%list_elem_of_fmap. cbn in *.
      apply not_eq_None_Some in Hdead; [done|]. exists b. by apply get_live_Some.
    + rewrite Hold. intros ([? b]&->&[[Hl _] Hb]%elem_of_part)%list_elem_of_fmap. cbn in *.
      apply not_eq_None_Some in Hdead; [done|]. exists b. by apply get_live_Some.
Qed.

Lemma part_sent_NoDup s frontiers :
  NoDup (filter (λ o, ops_is_empty o.2 = false)
    (sent_ops frontiers <$> filter (λ x, b_deleted x.2 = false) (blocks_iter s))).*1.
Proof.
  eapply sublist_NoDup; [|apply fmap_sublist, sublist_filter]. rewrite <- list_fmap_compose.
  change (fst ∘ sent_ops frontiers) with (λ x : BlockId * BlockContent, x.1). apply NoDup_part.
Qed.

Lemma elem_of_sent s frontiers id o :
  (id, o) ∈ p_block_ops (ops_since s frontiers) ↔
  ops_is_empty o = false ∧ ∃ b, get_live s id = Some b ∧ o = (sent_ops frontiers (id, b)).2.
Proof.
  rewrite ops_since_parts. cbn [p_block_ops]. rewrite list_elem_of_filter, list_elem_of_fmap. cbn [snd].
  split; intros [Ho Hx]; (split; [done|]).
  - destruct Hx as ([i b]&E&[Hl Hb]%elem_of_part). injection E as -> ->.
    exists b. split; [by apply get_live_Some|done].
  - destruct Hx as (b&[Hb Hl]%get_live_Some&->). exists (id, b). split; [done|]. by apply elem_of_part.
Qed.

Lemma elem_of_gone s frontiers id :
  id ∈ p_deleted_blocks (ops_since s frontiers) ↔
  ∃ b, bs_blocks s !! id = Some b ∧ b_deleted b = true ∧ frontiers !! id ≠ None.
Proof.
  rewrite ops_since_parts. cbn [p_deleted_blocks]. rewrite list_elem_of_fmap. split.
  - intros ([i b]&->&[[Hd Hf] Hb]%elem_of_part). by exists b.
  - intros (b&Hb&Hd&Hf). exists (id, b). split; [done|]. by apply elem_of_part.
Qed.

(** *** Timestamps *)

Lemma foldl_max {A} (f : A → Z) l m :
  m ≤ foldl (λ m x, Z.max m (f x)) m l ∧
  (∀ x, x ∈ l → f x ≤ foldl (λ m x, Z.max m (f x)) m l) ∧
  (∀ c, m ≤ c → (∀ x, x ∈ l → f x ≤ c) → foldl (λ m x, Z.max m (f x)) m l ≤ c).
Proof.
  revert m. induction l as [|x l IH]; intros m; cbn [foldl].
  { split_and!; [lia|by intros x ?%elem_of_nil|done]. }
  destruct (IH (Z.max m (f x))) as (H1&H2&H3). split_and!; [lia| |].
  - intros y [->|Hy]%elem_of_cons; [lia|by apply H2].
  - intros c Hm Hc. apply H3; [|intros; apply Hc; set_solver].
    pose proof (Hc x ltac:(set_solver)). lia.
Qed.

Lemma payload_ts_spec s frontiers :
  let p := ops_since s frontiers in
  0 ≤ payload_ts p ∧
  (∀ id b, get_live s id = Some b → h_updated_at (b_header b) ≤ payload_ts p) ∧
  (∀ c, 0 ≤ c → (∀ id b, get_live s id = Some b → h_updated_at (b_header b) ≤ c) → payload_ts p ≤ c).
Proof.
  cbn zeta. unfold payload_ts, newest_header, newest_snap. rewrite ops_since_parts.
  cbn [p_new_blocks p_updated_headers].
  set (lnew := filter _ (blocks_iter s)). set (lold := filter _ (blocks_iter s)).
  destruct (foldl_max sn_updated_at ((λ x : BlockId * BlockContent, block_snapshot x.2) <$> lnew) 0) as (N1&N2&N3).
  set (n := foldl _ 0 _) in *.
  destruct (foldl_max h_updated_at ((λ x : BlockId * BlockContent, b_header x.2) <$> lold) n) as (O1&O2&O3).
  set (o := foldl _ n _) in *. split_and!; [lia| |].
  - intros id b [Hb Hl]%get_live_Some. destruct (decide (frontiers !! id = None)) as [Hf|Hf].
    + etrans; [|exact O1]. apply (N2 (block_snapshot b)), list_elem_of_fmap. exists (id, b).
      split; [done|]. by apply elem_of_part.
    + apply O2, list_elem_of_fmap. exists (id, b). split; [done|]. by apply elem_of_part.
  - intros c Hc Hle. apply O3; [apply N3; [done|]|];
      intros x ([id b]&->&[[Hl _] Hb]%elem_of_part)%list_elem_of_fmap; apply (Hle id b), get_live_Some; done.
Qed.

(** ** Replaying the payload of a change *)

Lemma replay_twins s s' r :
  sound s' → grows s s' → twins s r → store_ok r → roomy s' → 0 ≤ bs_lamport_clock r →
  let p := ops_since s' (frontier s) in
  bs_lamport_clock r + Z.of_nat (length (p_deleted_blocks p)) < two64 →
  payload_clock p (bs_lamport_clock r) < two64 →
  ∃ r', merge_ops p r = Some (Ok tt, r') ∧ twins s' r' ∧ store_ok r' ∧
    bs_lamport_clock r' = payload_clock p (bs_lamport_clock r) ∧
    ∀ id, is_Some (bs_blocks r' !! id) ↔ is_Some (bs_blocks r !! id) ∨ is_Some (get_live s' id).
Proof.
  intros Hs' Hg Ht Hok Hroom Hc0 p Hc1 Hc2.
  destruct (replay_blocks s s' r (list_to_set (p_block_ops p).*1) 0 None Hs' Hg Ht eq_refl)
    as (m'&r1&Hr1&(A1&A2&A3)&Hprimed&Hrest). fold p in Hr1, A1, A2, A3, Hprimed, Hrest.
  set (r2 := merge_headers _ _) in *.
  destruct (merge_block_ops_run (p_block_ops p) false r2) as (r3&Hr3&(B1&B2&B3)&Hin3&Hout3).
  { unfold p. rewrite ops_since_parts. apply part_sent_NoDup. }
  { intros id o (Ho&b&Hb&->)%elem_of_sent. split; [done|].
    destruct (Hprimed id b Hb) as (c&Hc&_&c'&Hm&_). by exists c, c'. }
  assert (∀ id b, get_live s' id = Some b → ∃ c, bs_blocks r3 !! id = Some c ∧ twin b c) as Htw3.
  { intros id b Hb. destruct (Hprimed id b Hb) as (c&Hc&Hempty&c'&Hm&Htw).
    destruct (ops_is_empty (sent_ops (frontier s) (id, b)).2) eqn:Eo.
    - exists c. split; [|by apply Hempty]. rewrite Hout3; [done|].
      intros ([i o]&->&(Ho&b2&Hb2&->)%elem_of_sent)%list_elem_of_fmap. cbn [fst] in *. congruence.
    - destruct (Hin3 id (sent_ops (frontier s) (id, b)).2) as (c1&c2&Hc1'&Hm'&Hc2').
      { apply elem_of_sent. split; [done|]. by exists b. }
      exists c2. split; [done|]. rewrite Hc in Hc1'. injection Hc1' as <-. by rewrite Hm in Hm'; injection Hm' as <-. }
  assert (∀ id, get_live s' id = None → bs_blocks r3 !! id = bs_blocks r !! id) as Hrest3.
  { intros id Hd. rewrite Hout3; [by apply Hrest|].
    intros ([i o]&->&(Ho&b2&Hb2&->)%elem_of_sent)%list_elem_of_fmap. cbn [fst] in *. congruence. }
  assert (bs_lamport_clock r3 = bs_lamport_clock r) as Hclock3 by congruence.
  destruct (merge_deleted_run (p_deleted_blocks p) r3) as (r4&Hr4&C1&C2&C3&Hout4&Hin4); [lia|lia|].
  set (cond := (0 <? payload_ts p) || negb (bool_decide (p_block_ops p = []))).
  set (r5 := if cond then r4 <| bs_lamport_clock := wrap_u64 (Z.max (bs_lamport_clock r4) (payload_ts p) + 1) |> else r4).
  set (r6 := r5 <| bs_version := wrap_u64 (bs_version r5 + 1) |>).
  assert (merge_ops p r = Some (Ok tt, r6)) as Hrun.
  { unfold merge_ops. rewrite (bind_ok _ _ _ _ _ Hr1), (bind_ok (m_modify _) _ _ tt _ eq_refl).
    rewrite (bind_ok (m_modify _) _ _ tt _ eq_refl). fold r2.
    rewrite (bind_ok _ _ _ _ _ Hr3), (bind_ok _ _ _ _ _ Hr4).
    change (foldl _ _ (p_updated_headers p)) with (payload_ts p). rewrite orb_false_l. fold cond.
    rewrite (bind_ok _ _ r4 tt r5); [done|]. unfold r5. by destruct cond. }
  assert (∀ id, bs_blocks r6 !! id = bs_blocks r4 !! id) as Hb6 by (intros; unfold r6, r5; by destruct cond).
  exists r6. split; [done|]. split; [|split; [|split]].
  - split.
    + rewrite (gw_context s s' Hg), <- (tws_context s r Ht). unfold r6, r5. destruct cond; cbn; congruence.
    + intros id b Hb. destruct (Htw3 id b Hb) as (c&Hc&Htw). exists c. split; [|done].
      apply get_live_Some. split; [|by apply Htw]. rewrite Hb6, Hout4; [done|].
      intros (b2&Hb2&Hd2&_)%elem_of_gone. apply get_live_Some in Hb as [? ?]. congruence.
    + intros id c. rewrite Hb6. intros Hc. destruct (get_live s' id) as [b|] eqn:El.
      * destruct (Htw3 id b El) as (c'&Hc'&Htw). apply get_live_Some in El as [Hb Hl]. exists b. split; [done|].
        rewrite Hout4 in Hc; [|intros (b2&Hb2&Hd2&_)%elem_of_gone; congruence].
        rewrite Hc' in Hc. injection Hc as <-. by rewrite (tw_live _ _ Htw).
      * (* the block is a tombstone of [s'], or was not there *)
        assert (∀ c0, bs_blocks r !! id = Some c0 → ∃ b0 b, bs_blocks s !! id = Some b0 ∧
          bs_blocks s' !! id = Some b ∧ b_deleted b = true) as Hback.
        { intros c0 (b0&Hb0&_)%(tws_back s r Ht). destruct (gw_blocks s s' Hg id b0 Hb0) as (b&Hb&_).
          exists b0, b. split_and!; [done..|]. destruct (b_deleted b) eqn:E; [done|].
          assert (get_live s' id = Some b) by by apply get_live_Some. congruence. }
        destruct (decide (id ∈ p_deleted_blocks p)) as [Hin|Hin].
        -- specialize (Hin4 id Hin). rewrite Hrest3 in Hin4 by done.
           destruct (bs_blocks r !! id) as [c0|]; [|congruence].
           destruct Hin4 as (c'&Hc'&Hd). rewrite Hc' in Hc. injection Hc as <-.
           destruct (Hback c0 eq_refl) as (_&b&_&Hb&Hdb). exists b. split; [done|congruence].
        -- rewrite Hout4, Hrest3 in Hc by done. destruct (Hback c Hc) as (b0&b&Hb0&Hb&Hdb).
           destruct Hin. apply elem_of_gone. exists b. split_and!; [done..|].
           unfold frontier. by rewrite lookup_fmap, Hb0.
  - destruct (merge_ops_preserves p) with r (Ok tt : result CrdtError ()) r6 as [Hev _]; [|done..|].
    + unfold p. rewrite ops_since_parts. cbn [p_new_blocks]. apply Forall_forall.
      intros sn ([id b]&->&[_ Hb]%elem_of_part)%list_elem_of_fmap. cbn [snd].
      destruct (so_store s' Hs') as [Hids Hticks], Hroom as [Hlanes Hnt]. split.
      * change (sn_id (block_snapshot b)) with (block_id b). rewrite (so_ids s' Hids id b Hb).
        pose proof (so_seqs s' Hids id b Hb). specialize (Hlanes (principal_id id)). lia.
      * intros t Htk. pose proof (Hticks id b Hb t Htk). lia.
    + by apply (ev_ok r).
  - unfold r6, r5, payload_clock. fold cond. rewrite Hclock3 in C3. destruct cond eqn:Ec; cbn; rewrite C3; [|done].
    rewrite wrap_u64_id; [done|]. unfold payload_clock in Hc2. fold cond in Hc2. rewrite Ec in Hc2.
    pose proof (payload_ts_spec s' (frontier s)) as (Hts&_). fold p in Hts. width_lia.
  - intros id. rewrite Hb6. destruct (get_live s' id) as [b|] eqn:El.
    + destruct (Htw3 id b El) as (c&Hc&_). rewrite Hout4, Hc; [split; intros; eauto|].
      intros (b2&Hb2&Hd2&_)%elem_of_gone. apply get_live_Some in El as [? ?]. congruence.
    + assert (is_Some (bs_blocks r4 !! id) ↔ is_Some (bs_blocks r3 !! id)) as ->.
      { destruct (decide (id ∈ p_deleted_blocks p)) as [Hin|Hin]; [|by rewrite Hout4].
        specialize (Hin4 id Hin). destruct (bs_blocks r3 !! id); [destruct Hin4 as (?&->&_)|by rewrite Hin4].
        split; intros; eauto. }
      rewrite Hrest3 by done. split; [by left|intros [?|[? [=]]]; done].
Qed.
End replay.

(** ** A restored store is a twin *)

Section restored.
Context {json : JsonLib} {blib : BlockLib} {dte : Dte} {laws : DteLaws} {replicas : DteReplicas} {uuids : UuidCrate}.
Implicit Types s r : BlockStore.

Lemma restored_twin p clock b : fit clock b → b_deleted b = false → twin b (restored p b).
Proof.
  intros [Hfl _ _ _ Htext] Hl. unfold restored.
  assert (ops_is_empty (root_ops b) = false) as Ho by by apply full_ops_empty. rewrite Ho.
  by destruct (twin_new p "" b Hfl Hl Ho) as (r&->&Ht).
Qed.

Lemma sound_ticked s : sound s → all_ticked s.
Proof.
  intros Hs b Hb%elem_of_doc_blocks; [|apply Hs]. by apply (fit_tick (bs_lamport_clock s)), (so_fit s Hs (block_id b)).
Qed.

(** The clock a restored store starts with. *)
Definition document_clock s : Z := default 0 (max_opt (sn_updated_at <$> blocks_ordered s)).

Lemma document_clock_spec s :
  sound s →
  0 ≤ document_clock s ≤ bs_lamport_clock s ∧
  ∀ id b, get_live s id = Some b → h_updated_at (b_header b) ≤ document_clock s.
Proof.
  intros Hs. pose proof (so_store s Hs) as [Hids _].
  assert (∀ id b, get_live s id = Some b → h_updated_at (b_header b) ∈ sn_updated_at <$> blocks_ordered s) as Hin.
  { intros id b Hb. rewrite blocks_ordered_doc. apply list_elem_of_fmap. exists (block_snapshot b). split; [done|].
    apply list_elem_of_fmap_2, elem_of_doc_blocks; [done|].
    assert (block_id b = id) as ->; [|done]. apply (so_ids s Hids). by apply get_live_Some in Hb as [? _]. }
  unfold document_clock. pose proof (max_opt_spec (sn_updated_at <$> blocks_ordered s)) as Hm.
  destruct (max_opt _) as [m|]; cbn [default from_option id].
  - destruct Hm as [Hm Hmax]. split; [|intros i b Hb; by apply Hmax, (Hin i)].
    rewrite blocks_ordered_doc in Hm.
    apply list_elem_of_fmap in Hm as (sn&->&(b&->&Hb%elem_of_doc_blocks)%list_elem_of_fmap); [|done].
    exact (fit_clock _ _ (so_fit s Hs _ b Hb)).
  - split; [pose proof (so_clock s Hs); lia|]. intros i b Hb%Hin. rewrite Hm in Hb. by apply elem_of_nil in Hb.
Qed.

Lemma restore_twins s p now :
  sound s → roomy s →
  ∃ r, store_from_snapshot now (store_snapshot s) p = Some (Ok r) ∧ twins s r ∧ store_ok r ∧
    bs_lamport_clock r = document_clock s ∧ ∀ id, is_Some (bs_blocks r !! id) ↔ is_Some (bs_blocks s !! id).
Proof.
  intros Hs Hroom. pose proof (so_store s Hs) as [Hids _].
  destruct (restored_store s p now (so_store s Hs) Hroom (sound_ticked s Hs))
    as (f&n&Hr&Hok&Hctx&Hp&Hord&Hclock&Hb).
  exists (f <| bs_next_tick := n |>). split; [done|]. split; [|split; [done|split; [done|]]].
  2:{ intros id. change (is_Some (bs_blocks f !! id) ↔ is_Some (bs_blocks s !! id)). split.
      - intros [b' [(b&Hin&->&_)|[(b&Hbl&_) _]]%Hb]; [|by exists b].
        apply elem_of_doc_blocks, get_live_Some in Hin as [? _]; [by exists b|done].
      - intros [b Hbl]. destruct (b_deleted b) eqn:Ed.
        + destruct (thaw_ok (builder_new now id KText) p "Z") as (b0&Hb0&_).
          exists (mark_deleted 0 b0). apply Hb. right. split; [by exists b|by exists b0].
        + exists (restored p b). apply Hb. left. exists b.
          assert (block_id b = id) as Hid by by apply (so_ids s Hids). split; [|done].
          apply elem_of_doc_blocks; [done|]. rewrite Hid. by apply get_live_Some. }
  assert (∀ id b, get_live s id = Some b → b ∈ doc_blocks s ∧ id = block_id b) as Hdoc.
  { intros id b Hl. assert (block_id b = id) as Hid
      by (apply (so_ids s Hids); by apply get_live_Some in Hl as [? _]).
    split; [|done]. apply elem_of_doc_blocks; [done|]. by rewrite Hid. }
  split; [done| |].
  - intros id b Hl. destruct (Hdoc id b Hl) as [Hin ->].
    pose proof Hl as [_ Hd]%get_live_Some. pose proof (restored_twin p _ b (so_fit s Hs _ b Hl) Hd) as Htw.
    exists (restored p b). split; [|done]. apply get_live_Some. split; [|by apply Htw].
    apply Hb. left. by exists b.
  - intros id b' Hb'. change (bs_blocks f !! id = Some b') in Hb'.
    apply Hb in Hb' as [(b&Hin&->&->)|[(b&Hbl&Hd) Ht]].
    + apply elem_of_doc_blocks in Hin; [|done]. pose proof Hin as [Hbl Hd]%get_live_Some.
      exists b. split; [done|].
      destruct (restored_ok p b) as [_ ->]. by rewrite Hd.
    + exists b. split; [done|]. apply tombstone_fields in Ht as (_&_&->). by rewrite Hd.
Qed.

(** Two twins of a store that hold the same ids are twins of each other. *)
Lemma twins_between s r r' :
  twins s r → twins s r' → (∀ id, is_Some (bs_blocks r' !! id) → is_Some (bs_blocks r !! id)) → twins r r'.
Proof.
  intros Ht Ht' Hids. split.
  - by rewrite (tws_context s r Ht), (tws_context s r' Ht').
  - intros id b1 Hb1. destruct (tws_live_back s r id b1 Ht Hb1) as (b&Hb&[H1 H2 H3 H4 H5]).
    destruct (tws_live s r' Ht' id b Hb) as (b2&Hb2&[G1 G2 G3 G4 G5]). exists b2. split; [done|].
    split; [by rewrite G1, H1|by rewrite G2, H2|done|done|]. etrans; [|exact G5]. by symmetry.
  - intros id b2 Hb2. destruct (Hids id) as [b1 Hb1]; [by exists b2|]. exists b1. split; [done|].
    destruct (tws_back s r Ht id b1 Hb1) as (b&Hb&Hd), (tws_back s r' Ht' id b2 Hb2) as (b'&Hb'&Hd'). congruence.
Qed.
End restored.
