(* ===== verification/StoreGrowth.v ===== *)
(** * Operations that a journal can carry

    The operations of the block store after which the payload of [ops_since] brings a
    replica up to date: they insert a block, advance a header, extend a text, or bury a
    block. What they do when they fail changes no block. *)

From S2P Require Import Prelude MethodLogic Text Tick Ids Track Cas Cell Concrete Block OrderKey Hydrate BlockContent Selection BlockStore StoreInv StoreOps StoreOrder StoreDoc StoreRestore Convergence Replica.

(** A run of [m], then [k], is a run of [m] and one of [k], or stops in [m]. *)
Lemma bind_run {S E A B} (m : method S E A) (k : A → method S E B) s r s' :
  (m ≫= k) s = Some (r, s') →
  (∃ a s1, m s = Some (Ok a, s1) ∧ k a s1 = Some (r, s')) ∨ (∃ e, m s = Some (Err e, s') ∧ r = Err e).
Proof.
  unfold mbind, method_bind, m_bind. destruct (m s) as [[[a|e] s1]|]; [|intros [= <- <-]|done].
  - intros Hk. left. by exists a, s1.
  - right. by exists e.
Qed.

Section growth.
Context {json : JsonLib} {blib : BlockLib} {dte : Dte} {laws : DteLaws} {replicas : DteReplicas} {uuids : UuidCrate}.
Implicit Types s : BlockStore.

(** The operation leaves the store sound, and a replica can follow it. *)
Definition journals_at {A} s (m : method BlockStore CrdtError A) : Prop := ∀ r s',
  sound s → roomy s → bs_lamport_clock s < u64_max → m s = Some (r, s') →
  sound s' ∧ grows s s' ∧ bs_lamport_clock s ≤ bs_lamport_clock s' ∧
  match r with Ok _ => True | Err _ => bs_blocks s' = bs_blocks s end.
Definition journals {A} (m : method BlockStore CrdtError A) : Prop := ∀ s, journals_at s m.

Lemma fit_mono c c' b : c ≤ c' → fit c b → fit c' b.
Proof. intros Hc []. split; try done. lia. Qed.

(** Writing one block. *)
Lemma sound_put s s' id b' :
  sound s → store_ok s' → bs_context_id s' = bs_context_id s →
  bs_blocks s' = <[id := b']> (bs_blocks s) → bs_lamport_clock s ≤ bs_lamport_clock s' →
  (b_deleted b' = false → fit (bs_lamport_clock s') b') →
  (∀ b, bs_blocks s !! id = Some b → outlives b b' ∧ (b_deleted b' = false → grew b b')) →
  sound s' ∧ grows s s'.
Proof.
  intros Hs Hok Hctx Hb Hc Hfit Hgrew. split.
  - split; [done| |pose proof (so_clock s Hs); lia]. intros i b [Hi Hl]%get_live_Some. rewrite Hb in Hi.
    apply lookup_insert_Some in Hi as [[-> ->]|[_ Hi]]; [auto|].
    eapply fit_mono; [exact Hc|]. apply (so_fit s Hs i). by apply get_live_Some.
  - split; [done|]. intros i b Hi. rewrite Hb. destruct (decide (id = i)) as [<-|Hne].
    + exists b'. rewrite lookup_insert_eq. split; [done|by apply Hgrew].
    + exists b. rewrite lookup_insert_ne by done. split_and!; [done|by intros ?|by intros ?].
Qed.

(** Writing none. *)
Lemma sound_same s s' :
  sound s → store_ok s' → bs_context_id s' = bs_context_id s → bs_blocks s' = bs_blocks s →
  bs_lamport_clock s ≤ bs_lamport_clock s' → sound s' ∧ grows s s'.
Proof.
  intros Hs Hok Hctx Hb Hc. split; [|by apply grows_same].
  split; [done| |pose proof (so_clock s Hs); lia]. intros i b [Hi Hl]%get_live_Some. rewrite Hb in Hi.
  eapply fit_mono; [exact Hc|]. apply (so_fit s Hs i). by apply get_live_Some.
Qed.

(** ** Setters *)

(** The change of one field at a new time [ts]. *)
Lemma stamped_grew clock ts f b b' h1 :
  fit clock b → clock < ts → 0 ≤ ts → b_header b' = touch h1 →
  statics h1 = statics (b_header b) → (key_of f h1).1 = ts →
  (∀ g, g ≠ f → key_of g h1 = key_of g (b_header b)) →
  (f ≠ FTool → tool_view h1 = tool_view (b_header b)) →
  frame b' = frame b → b_deleted b' = b_deleted b → b_doc b' = b_doc b → flags_ok b' →
  fit ts b' ∧ grew b b'.
Proof.
  intros [F1 F2 F3 F4 F5] Hts H0 Hh Hst Hf Hg Htool Hfr Hdel Hdoc Hfl.
  assert (∀ g, (key_of g (b_header b)).1 ≤ clock) as Hold.
  { intros g. pose proof (key_le_max g (b_header b)). unfold tidy in F2. lia. }
  assert (∀ g, key_of g (touch h1) = key_of g h1) as Hk by by intros [].
  assert (∀ g, (key_of g h1).1 ≤ ts) as Hnew.
  { intros g. destruct (decide (g = f)) as [->|Hne]; [lia|]. rewrite Hg by done. specialize (Hold g). lia. }
  split; [split|split].
  - done.
  - by rewrite Hh.
  - rewrite Hh. change (h_updated_at (touch h1)) with (max_field_ts h1). split.
    + pose proof (key_le_max f h1). lia.
    + pose proof (Hnew FStatus). pose proof (Hnew FCollapsed). pose proof (Hnew FEphemeral).
      pose proof (Hnew FExcluded). pose proof (Hnew FCompacted). pose proof (Hnew FTool). pose proof (Hnew FType).
      unfold max_field_ts. cbn in *. lia.
  - unfold frame in Hfr. injection Hfr as _ Htk. intros E. apply F4. congruence.
  - by rewrite Hdoc.
  - done.
  - done.
  - rewrite Hh. split.
    + by rewrite <- Hst.
    + intros g. rewrite Hk. destruct (decide (g = f)) as [->|Hne]; [|by rewrite Hg].
      left. specialize (Hold f). lia.
    + rewrite Hk. intros E. destruct (decide (f = FTool)) as [->|Hne]; [|by apply Htool].
      specialize (Hold FTool). rewrite E in Hf. lia.
  - by rewrite Hdoc.
Qed.

(** The setters of [content.rs] that a header carries. *)
Inductive setter : (Z → BlockContent → BlockContent) → Prop :=
  | setter_status v : setter (block_set_status v)
  | setter_collapsed v : setter (block_set_collapsed v)
  | setter_content_type v : setter (block_set_content_type v)
  | setter_ephemeral v : setter (block_set_ephemeral v)
  | setter_excluded v : setter (block_set_excluded v)
  | setter_compacted v : setter (block_set_compacted v)
  | setter_exit_code v : setter (block_set_exit_code v).

Lemma setter_grew clock ts g b :
  setter g → fit clock b → clock < ts → 0 ≤ ts → fit ts (g ts b) ∧ grew b (g ts b).
Proof.
  intros Hg Hfit Hts H0. pose proof (fit_flags _ _ Hfit) as (?&?&?).
  destruct Hg;
    [eapply (stamped_grew clock ts FStatus)|eapply (stamped_grew clock ts FCollapsed)
    |eapply (stamped_grew clock ts FType)|eapply (stamped_grew clock ts FEphemeral)
    |eapply (stamped_grew clock ts FExcluded)|eapply (stamped_grew clock ts FCompacted)
    |eapply (stamped_grew clock ts FTool)];
    first [eassumption | reflexivity | by intros [] ? | by split_and! | done].
Qed.

Lemma setter_deleted g ts b : setter g → b_deleted (g ts b) = b_deleted b.
Proof. by destruct 1. Qed.

(** *** One tick of the clock, then one block *)

Lemma tick_run s :
  bs_lamport_clock s < u64_max → 0 ≤ bs_lamport_clock s →
  store_tick s = Some (Ok (bs_lamport_clock s + 1), s <| bs_lamport_clock := bs_lamport_clock s + 1 |>).
Proof.
  intros H1 H2. unfold store_tick, mbind, method_bind, m_bind, m_modify, m_get. cbn.
  rewrite wrap_u64_id by width_lia. done.
Qed.

(** An operation keeps the store well formed ([StoreOps.v]). *)
Lemma mutation_ok id m s r s' : mutation id m → sound s → m s = Some (r, s') → store_ok s'.
Proof.
  intros Hm Hs Hr. apply (ev_ok s); [|apply Hs]. by apply (mutation_preserves id m Hm s r s' I).
Qed.

Lemma journals_tick_update id m (get : BlockStore → BlockId → option BlockContent) g :
  mutation id m → m = (ts ← store_tick; update_found get id (λ b, m_ret (g ts b))) →
  (∀ s id b, get s id = Some b → bs_blocks s !! id = Some b) →
  (∀ clock ts b, clock < ts → 0 ≤ ts →
     outlives b (g ts b) ∧
     (b_deleted (g ts b) = false → b_deleted b = false ∧ (fit clock b → fit ts (g ts b) ∧ grew b (g ts b)))) →
  journals m.
Proof.
  intros Hmut -> Hget Hg s r s' Hs Hroom Hc Hr. pose proof (mutation_ok id _ s r s' Hmut Hs Hr) as Hok.
  pose proof (so_clock s Hs) as Hc0. rewrite (bind_ok _ _ _ _ _ (tick_run s Hc Hc0)) in Hr.
  set (s1 := set_field bs_lamport_clock _ s) in Hr. unfold update_found in Hr.
  rewrite (bind_ok m_get _ _ _ _ eq_refl) in Hr.
  destruct (get s1 id) as [b|] eqn:Eb.
  2:{ injection Hr as <- <-. destruct (sound_same s s1) as [? ?]; try done; [cbn; lia|].
      split_and!; [done|done|cbn; lia|done]. }
  apply Hget in Eb. change (bs_blocks s !! id = Some b) in Eb. injection Hr as <- <-.
  destruct (Hg (bs_lamport_clock s) (bs_lamport_clock s + 1) b) as [Ho Hlive]; [lia..|].
  match goal with |- sound ?x ∧ _ => destruct (sound_put s x id (g (bs_lamport_clock s + 1) b)) as [? ?] end;
    try done; [cbn; lia| | |split_and!; [done|done|cbn; lia|done]].
  - intros Hl. destruct (Hlive Hl) as [Hlb Hf]. apply Hf, (so_fit s Hs id). by apply get_live_Some.
  - intros b0 Hb0. rewrite Eb in Hb0. injection Hb0 as <-. split; [done|].
    intros Hl. destruct (Hlive Hl) as [Hlb Hf]. apply Hf, (so_fit s Hs id). by apply get_live_Some.
Qed.

Lemma live_get s id b : get_live s id = Some b → bs_blocks s !! id = Some b.
Proof. by intros [? _]%get_live_Some. Qed.

Lemma setter_step g :
  setter g → ∀ clock ts b, clock < ts → 0 ≤ ts →
    outlives b (g ts b) ∧
    (b_deleted (g ts b) = false → b_deleted b = false ∧ (fit clock b → fit ts (g ts b) ∧ grew b (g ts b))).
Proof.
  intros Hg clock ts b Hts H0. unfold outlives. rewrite (setter_deleted g ts b Hg).
  split; [done|]. intros Hl. split; [done|]. intros. by eapply setter_grew.
Qed.

Lemma journals_setters id :
  (∀ v, journals (set_status id v)) ∧ (∀ v, journals (set_collapsed id v)) ∧
  (∀ v, journals (set_content_type id v)) ∧ (∀ v, journals (set_exit_code id v)) ∧
  (∀ v, journals (set_ephemeral id v)) ∧ (∀ v, journals (set_excluded id v)) ∧
  (∀ v, journals (set_compacted id v)).
Proof.
  assert (∀ s i b, bs_blocks s !! i = Some b → bs_blocks s !! i = Some b) as Hany by done.
  split_and!; intros v.
  - apply (journals_tick_update id _ get_live (block_set_status v));
      [exact (mut_status id v)|done|apply live_get|exact (setter_step _ (setter_status v))].
  - apply (journals_tick_update id _ get_live (block_set_collapsed v));
      [exact (mut_collapsed id v)|done|apply live_get|exact (setter_step _ (setter_collapsed v))].
  - apply (journals_tick_update id _ (λ s i, bs_blocks s !! i) (block_set_content_type v));
      [exact (mut_content_type id v)|done|apply Hany|exact (setter_step _ (setter_content_type v))].
  - apply (journals_tick_update id _ (λ s i, bs_blocks s !! i) (block_set_exit_code v));
      [exact (mut_exit_code id v)|done|apply Hany|exact (setter_step _ (setter_exit_code v))].
  - apply (journals_tick_update id _ (λ s i, bs_blocks s !! i) (block_set_ephemeral v));
      [exact (mut_ephemeral id v)|done|apply Hany|exact (setter_step _ (setter_ephemeral v))].
  - apply (journals_tick_update id _ (λ s i, bs_blocks s !! i) (block_set_excluded v));
      [exact (mut_excluded id v)|done|apply Hany|exact (setter_step _ (setter_excluded v))].
  - apply (journals_tick_update id _ (λ s i, bs_blocks s !! i) (block_set_compacted v));
      [exact (mut_compacted id v)|done|apply Hany|exact (setter_step _ (setter_compacted v))].
Qed.

Lemma journals_delete id : journals (delete_block id).
Proof.
  eapply (journals_tick_update id _ (λ s id, bs_blocks s !! id) mark_deleted);
    [exact (mut_delete id)|reflexivity|done|]. intros clock ts b _ _. split; [by intros ?|done].
Qed.

(** ** Text *)

Lemma edit_doc pos ins del b b' :
  block_edit_text pos ins del b = Some b' → ∃ d, b' = b <| b_doc := d |> ∧ extends (b_doc b) d.
Proof.
  unfold block_edit_text. case_match eqn:Et.
  2:{ intros [= <-]. exists (b_doc b). split; [by destruct b|done]. }
  destruct (if 0 <? del then _ else _) as [d1|] eqn:E1; [|done]. cbn [mbind option_bind].
  destruct (if negb _ then _ else _) as [d2|] eqn:E2; [|done]. cbn [mbind option_bind].
  intros [= <-]. exists d2. split; [done|]. trans d1.
  - destruct (0 <? del); [by eapply delete_extends|by simplify_eq].
  - destruct (negb _); [by eapply insert_extends|by simplify_eq].
Qed.

Lemma doc_grew clock b d :
  fit clock b → extends (b_doc b) d → fit clock (b <| b_doc := d |>) ∧ grew b (b <| b_doc := d |>).
Proof.
  intros [] He. split; split; try done. by eapply extends_text.
Qed.

Lemma journals_edit id pos ins del : journals (edit_text id pos ins del).
Proof.
  intros s r s' Hs Hroom Hc Hr. pose proof (mutation_ok id _ s r s' (mut_edit id pos ins del) Hs Hr) as Hok.
  assert (∀ e, s' = s → r = Err e → sound s' ∧ grows s s' ∧ bs_lamport_clock s ≤ bs_lamport_clock s' ∧
    match r with Ok _ => True | Err _ => bs_blocks s' = bs_blocks s end) as Hsame.
  { intros e -> ->. by split_and!. }
  unfold edit_text, update_live, update_found in Hr. rewrite (bind_ok m_get _ _ _ _ eq_refl) in Hr.
  destruct (get_live s id) as [b|] eqn:Eb; [|injection Hr as <- <-; by eapply Hsame].
  unfold mbind, method_bind, m_bind, m_guard in Hr.
  destruct (pos <=? content_len b); [|injection Hr as <- <-; by eapply Hsame].
  destruct (wrap_u64 (pos + del) <=? content_len b); [|injection Hr as <- <-; by eapply Hsame].
  destruct (block_edit_text pos ins del b) as [b'|] eqn:Ee; [|done]. cbn in Hr. injection Hr as <- <-.
  apply edit_doc in Ee as (d&->&He). pose proof Eb as [Hb Hl]%get_live_Some.
  destruct (doc_grew _ b d (so_fit s Hs id b Eb) He) as [Hfit Hgrew].
  match goal with |- sound ?x ∧ _ => destruct (sound_put s x id (b <| b_doc := d |>)) as [? ?] end;
    try done. intros b0 Hb0. rewrite Hb in Hb0. injection Hb0 as <-. split; [by intros ?|done].
Qed.

Lemma append_edit id text s :
  append_text id text s =
    match get_live s id with
    | Some b => match block_append_text text b with
                | Some b' => put_block id b' s
                | None => None
                end
    | None => Some (Err (BlockNotFound id), s)
    end.
Proof.
  unfold append_text, update_live, update_found. rewrite (bind_ok m_get _ _ _ _ eq_refl).
  destruct (get_live s id) as [b|]; [|done]. by destruct (block_append_text text b).
Qed.

Lemma journals_append id text : journals (append_text id text).
Proof.
  intros s r s' Hs Hroom Hc Hr. pose proof (mutation_ok id _ s r s' (mut_append id text) Hs Hr) as Hok.
  rewrite append_edit in Hr. destruct (get_live s id) as [b|] eqn:Eb; [|injection Hr as <- <-; by split_and!].
  destruct (block_append_text text b) as [b'|] eqn:Ee; [|done]. injection Hr as <- <-.
  apply edit_doc in Ee as (d&->&He). pose proof Eb as [Hb Hl]%get_live_Some.
  destruct (doc_grew _ b d (so_fit s Hs id b Eb) He) as [Hfit Hgrew].
  match goal with |- sound ?x ∧ _ => destruct (sound_put s x id (b <| b_doc := d |>)) as [? ?] end;
    try done. intros b0 Hb0. rewrite Hb in Hb0. injection Hb0 as <-. split; [by intros ?|done].
Qed.

Lemma journals_reserve p : journals (reserve_block_id p).
Proof.
  intros s r s' Hs Hroom Hc Hr.
  destruct (reserve_triple p s r s' (conj (so_store s Hs) Hroom) Hr) as [Hev _].
  pose proof (ev_ok _ _ Hev (so_store s Hs)) as Hok. injection Hr as <- <-.
  destruct (sound_same s _ Hs Hok) as [? ?]; [done..|]. by split_and!.
Qed.

(** The lane of another author does not matter. *)
Lemma sound_author p s : sound s → sound (set_principal_id p s).
Proof. intros [[[] ?] ? ?]. by split. Qed.

(** ** Insertions *)

(** Steps of an insertion that touch neither the blocks nor the clock. *)
Definition idle s s' : Prop :=
  bs_blocks s' = bs_blocks s ∧ bs_context_id s' = bs_context_id s ∧ bs_lamport_clock s' = bs_lamport_clock s.

(** From [s0] on, the steps add one block that is new and fit, or no block. *)
Definition inserts s0 (m : method BlockStore CrdtError BlockId) : Prop := ∀ s r s',
  idle s0 s → m s = Some (r, s') →
  bs_context_id s' = bs_context_id s0 ∧ bs_lamport_clock s0 ≤ bs_lamport_clock s' ∧
  match r with
  | Ok id => ∃ b, bs_blocks s0 !! id = None ∧ bs_blocks s' = <[id := b]> (bs_blocks s0) ∧
               b_deleted b = false ∧ fit (bs_lamport_clock s') b
  | Err _ => bs_blocks s' = bs_blocks s0
  end.

(** A step with a result that satisfies [φ]. *)
Definition idles {A} s0 (m : method BlockStore CrdtError A) (φ : A → Prop) : Prop := ∀ s r s',
  idle s0 s → m s = Some (r, s') → idle s0 s' ∧ match r with Ok a => φ a | Err _ => True end.

Lemma inserts_bind {A} s0 (m : method BlockStore CrdtError A) φ k :
  idles s0 m φ → (∀ a, φ a → inserts s0 (k a)) → inserts s0 (m ≫= k).
Proof.
  intros Hm Hk s r s' Hi. unfold mbind, method_bind, m_bind.
  destruct (m s) as [[[a|e] s1]|] eqn:E; [| |done].
  - destruct (Hm s _ _ Hi E) as [Hi1 Ha]. by apply Hk.
  - destruct (Hm s _ _ Hi E) as [(H1&H2&H3) _]. intros [= <- <-]. split_and!; [done|lia|done].
Qed.

Lemma idles_check s0 id : idles s0 (check_ref id) (λ _, True).
Proof.
  intros s r s' Hi. destruct id as [id|]; [|by intros [= <- <-]].
  unfold check_ref, m_guard, mbind, method_bind, m_bind, m_get. destruct (is_live s id); by intros [= <- <-].
Qed.

Lemma idles_lift {A} s0 (o : option A) : idles s0 (m_lift o) (λ a, o = Some a).
Proof. intros s r s' Hi. destruct o; [|done]. by intros [= <- <-]. Qed.

Lemma idles_position s0 after : idles s0 (next_position after) (λ x, x.1 ≠ None).
Proof.
  intros s r s' (H1&H2&H3). unfold next_position, mbind, method_bind, m_bind, m_get, m_modify.
  destruct (calc_order_key _ _ _); [|done]. by intros [= <- <-].
Qed.

(** The last steps: the block is built and put. *)
Lemma inserts_put s0 id (o : BlockStore → option BlockContent) f :
  bs_blocks s0 !! id = None →
  (∀ s b, o s = Some b → b_deleted (f b) = false ∧ fit (bs_lamport_clock s0) (f b)) →
  inserts s0 (s ← m_get; block ← m_lift (o s); put_block id (f block);; m_ret id).
Proof.
  intros Hn Ho s r s' (H1&H2&H3). rewrite (bind_ok m_get _ _ _ _ eq_refl).
  destruct (o s) as [b|] eqn:E; [|done]. destruct (Ho s b E) as [Hd Hf].
  intros [= <- <-]. cbn. rewrite H1, H3. split_and!; [done|lia|]. exists (f b). by split_and!.
Qed.

Lemma inserts_tick_put s0 id (o : Z → BlockStore → option BlockContent) f :
  bs_blocks s0 !! id = None → 0 ≤ bs_lamport_clock s0 < u64_max →
  (∀ ts s b, 0 ≤ ts → o ts s = Some b → b_deleted (f b) = false ∧ fit ts (f b)) →
  inserts s0 (ts ← store_tick; s ← m_get; block ← m_lift (o ts s); put_block id (f block);; m_ret id).
Proof.
  intros Hn Hc Ho s r s' (H1&H2&H3).
  rewrite (bind_ok _ _ _ _ _ (tick_run s ltac:(lia) ltac:(lia))), (bind_ok m_get _ _ _ _ eq_refl).
  destruct (o _ _) as [b|] eqn:E; [|done]. destruct (Ho (bs_lamport_clock s + 1) _ b ltac:(lia) E) as [Hd Hf].
  intros [= <- <-]. cbn. rewrite H1. split_and!; [done|lia|]. exists (f b). by split_and!.
Qed.

(** *** The blocks that are built *)

Lemma fresh_fit now ts id parent r k st tk code e ct content p key t b :
  block_with_content (fresh_header now ts id parent r k st tk code e ct) content p key t = Some b →
  0 ≤ ts → t ≠ None → b_deleted b = false ∧ fit ts b.
Proof.
  intros Hb H0 Ht. destruct (with_content_ok (fresh_header now ts id parent r k st tk code e ct) content p key t)
    as (d&Hb'&Hd). rewrite Hb in Hb'. injection Hb' as ->. unfold block_new. destruct (create_agent _ _) as [a d0].
  split; [done|]. split; cbn; try done.
  - unfold tidy, max_field_ts. cbn. lia.
  - by rewrite Hd.
Qed.

Lemma snapshot_fit clock snap p k b t :
  block_from_snapshot snap p k = Some b → tidy (header_from_snapshot snap) → 0 ≤ sn_updated_at snap ≤ clock →
  t ≠ None ∨ sn_tick snap ≠ None →
  b_deleted b = false ∧ fit clock (match t with Some t => set_tick t b | None => b end).
Proof.
  intros Hb Ht Hc Htk. unfold block_from_snapshot in Hb.
  destruct (with_content_ok (header_from_snapshot snap) (sn_content snap) p
    (default k (sn_order_key snap)) (sn_tick snap)) as (d&E&Hd). rewrite E in Hb.
  cbn [mbind option_bind] in Hb. injection Hb as <-. unfold block_new. destruct (create_agent _ _) as [a d0].
  split; [done|]. destruct t as [t|]; split; cbn; try done; try (by rewrite Hd). by destruct Htk.
Qed.

(** *** The insertions *)

Definition inserted_at s (m : method BlockStore CrdtError BlockId) : Prop := ∀ r s',
  sound s → roomy s → bs_lamport_clock s < u64_max → m s = Some (r, s') →
  store_ok s' ∧ bs_context_id s' = bs_context_id s ∧ bs_lamport_clock s ≤ bs_lamport_clock s' ∧
  match r with
  | Ok id => ∃ b, bs_blocks s !! id = None ∧ bs_blocks s' = <[id := b]> (bs_blocks s) ∧
               b_deleted b = false ∧ fit (bs_lamport_clock s') b
  | Err _ => bs_blocks s' = bs_blocks s
  end.
Definition inserted (m : method BlockStore CrdtError BlockId) : Prop := ∀ s, inserted_at s m.

Lemma inserted_journals s m : inserted_at s m → journals_at s m.
Proof.
  intros Hm r s' Hs Hroom Hc Hr. destruct (Hm r s' Hs Hroom Hc Hr) as (Hok&Hctx&Hle&Hres).
  destruct r as [id|e].
  - destruct Hres as (b&Hn&Hb&Hd&Hf). destruct (sound_put s s' id b) as [? ?]; try done.
    intros b0 Hb0. congruence.
  - by destruct (sound_same s s').
Qed.

Lemma fresh_id_run s :
  sound s → roomy s → ∃ id s1, new_block_id s = Some (Ok id, s1) ∧ idle s s1 ∧ bs_blocks s !! id = None.
Proof.
  intros Hs Hroom. unfold new_block_id, reserve_block_id, mbind, method_bind, m_bind, m_get, m_modify, m_ret. cbn.
  eexists _, _. split; [done|]. split; [done|]. apply lane_fresh; [apply Hs|]. cbn. unfold next_seq_for. lia.
Qed.

Lemma insertion_inserted m k :
  insertion m → m = (id ← new_block_id; k id) →
  (∀ s0 id, 0 ≤ bs_lamport_clock s0 < u64_max → bs_blocks s0 !! id = None → inserts s0 (k id)) → inserted m.
Proof.
  intros Hm -> Hk s r s' Hs Hroom Hc Hr. split.
  - apply (ev_ok s); [|apply Hs]. by apply (insertion_preserves _ Hm s r s' (conj (so_store s Hs) Hroom)).
  - destruct (fresh_id_run s Hs Hroom) as (id&s1&Hid&Hi&Hn). rewrite (bind_ok _ _ _ _ _ Hid) in Hr.
    by apply (Hk s id (conj (so_clock s Hs) Hc) Hn s1).
Qed.

Lemma inserts_built s0 after id (o : option BlockSnapshot) :
  bs_blocks s0 !! id = None → 0 ≤ bs_lamport_clock s0 →
  (∀ snap, o = Some snap → tidy (header_from_snapshot snap) ∧ sn_updated_at snap = 0) →
  inserts s0 (insert_built after id o).
Proof.
  intros Hn Hc Ho. eapply inserts_bind; [apply idles_position|]. intros [t key] Ht. cbn [fst] in Ht.
  eapply inserts_bind; [apply idles_lift|]. intros snap [Htidy Hup]%Ho.
  apply (inserts_put s0 id (λ s, block_from_snapshot snap (bs_principal_id s) key)); [done|].
  intros s b Hb. destruct (snapshot_fit (bs_lamport_clock s0) snap _ _ b t Hb Htidy) as [Hd Hf]; [lia|by left|].
  split; [by destruct t|done].
Qed.

Ltac insertion_steps :=
  repeat first [ eapply inserts_bind; [apply idles_check|intros ? _]
               | eapply inserts_bind; [apply idles_position|intros [?t ?key] ?Ht; cbn [fst] in *] ].

Lemma inserted_block now parent after r k content st ct :
  inserted (insert_block now parent after r k content st ct).
Proof.
  eapply insertion_inserted; [apply ins_block|reflexivity|]. intros s0 id Hc Hn. insertion_steps.
  apply (inserts_tick_put s0 id (λ ts s, block_with_content _ content (bs_principal_id s) key t) (λ b, b)); [done|done|].
  intros ts s b H0 Hb. by eapply fresh_fit.
Qed.

Lemma inserted_tool_call now parent after name input tk r :
  inserted (insert_tool_call now parent after name input tk r).
Proof.
  eapply insertion_inserted; [apply ins_tool_call|reflexivity|]. intros s0 id Hc Hn.
  destruct (to_string_pretty input) as [json_text|].
  2:{ intros s r0 s' (H1&H2&H3) [= <- <-]. split_and!; [done|lia|done]. }
  insertion_steps.
  apply (inserts_tick_put s0 id (λ ts s, block_with_content _ json_text (bs_principal_id s) key t)
    (λ b, set_tool_input (Some json_text) (set_tool_name (Some name) b))); [done|done|].
  intros ts s b H0 Hb. destruct (fresh_fit _ _ _ _ _ _ _ _ _ _ _ _ _ _ _ _ Hb H0 Ht) as [Hd []]. by split; [|split].
Qed.

Lemma inserted_tool_result now call after content is_error code tk :
  inserted (insert_tool_result_block now call after content is_error code tk).
Proof.
  eapply insertion_inserted; [apply ins_tool_result|reflexivity|]. intros s0 id Hc Hn. cbn zeta. insertion_steps.
  apply (inserts_tick_put s0 id (λ ts s, block_with_content _ content (bs_principal_id s) key t)
    (λ b, set_tool_call_id (Some call) b)); [done|done|].
  intros ts s b H0 Hb. destruct (fresh_fit _ _ _ _ _ _ _ _ _ _ _ _ _ _ _ _ Hb H0 Ht) as [Hd []]. by split; [|split].
Qed.

Lemma inserted_snapshots :
  (∀ now parent after content c m dk, inserted (insert_drift_block now parent after content c m dk)) ∧
  (∀ now parent after payload summary, inserted (insert_error_block now parent after payload summary)) ∧
  (∀ now parent after payload summary, inserted (insert_notification_block now parent after payload summary)) ∧
  (∀ now parent after payload summary, inserted (insert_resource_block now parent after payload summary)).
Proof.
  split_and!; intros;
    (eapply insertion_inserted; [|reflexivity|intros s0 id Hc Hn;
       do 2 (eapply inserts_bind; [apply idles_check|intros ? _]);
       apply inserts_built; [done|lia|by intros snap [_ ->]%asserting_Some]]);
    [apply ins_drift|apply ins_error|apply ins_notification|apply ins_resource].
Qed.

(** A block that arrives with its own history: its clock is not ahead of the store's. *)
Record current (clock : Z) (snap : BlockSnapshot) : Prop := {
  cu_fits : snap_fits snap;
  cu_tidy : tidy (header_from_snapshot snap);
  cu_clock : 0 ≤ sn_updated_at snap ≤ clock;
  cu_tick : sn_tick snap ≠ None;
}.

Lemma inserted_from_snapshot s snap after :
  current (bs_lamport_clock s) snap → inserted_at s (insert_from_snapshot snap after).
Proof.
  intros [Hfits Htidy Hclock Htick] r s' Hs Hroom Hc Hr. split.
  { apply (ev_ok s); [|apply Hs]. by apply (insert_from_snapshot_preserves snap after Hfits s r s' (so_store s Hs)). }
  revert Hr. unfold insert_from_snapshot. rewrite (bind_ok (m_modify _) _ _ tt _ eq_refl), (bind_ok m_get _ _ _ _ eq_refl).
  set (s1 := observe_seq _ _ s). change (bs_blocks s1) with (bs_blocks s).
  unfold mbind, method_bind, m_bind, m_guard. case_bool_decide as Hn; [|intros [= <- <-]; cbn; split_and!; [done|lia|done]].
  cbn [m_ret m_modify m_get]. set (s2 := raise_next_tick _ s1).
  assert (bs_blocks s2 = bs_blocks s ∧ bs_context_id s2 = bs_context_id s ∧ bs_lamport_clock s2 = bs_lamport_clock s)
    as (E1&E2&E3) by (unfold s2; by destruct (sn_tick snap)).
  destruct (calc_order_key _ _ _) as [key|]; [|done]. cbn [m_lift m_ret].
  destruct (block_from_snapshot snap _ key) as [b|] eqn:Eb; [|done]. cbn. intros [= <- <-]. cbn.
  destruct (snapshot_fit (bs_lamport_clock s) snap _ _ b None Eb) as [Hd Hf]; [done|done|by right|].
  rewrite E1, E2, E3. split_and!; [done|lia|]. exists b. by split_and!.
Qed.

(** ** Merging a payload *)

(** The live blocks are fit up to time [m], their text aside. *)
Definition lively (m : Z) s : Prop := ∀ id b, get_live s id = Some b →
  flags_ok b ∧ tidy (b_header b) ∧ 0 ≤ h_updated_at (b_header b) ≤ m ∧ b_tick b ≠ None.

Lemma sound_lively s : sound s → lively (bs_lamport_clock s) s.
Proof. intros Hs id b Hb. by destruct (so_fit s Hs id b Hb). Qed.

Lemma lively_mono m m' s : m ≤ m' → lively m s → lively m' s.
Proof. intros Hm Hs id b (?&?&?&?)%Hs. split_and!; try done; lia. Qed.

(** One block written, with an id that may be new. *)
Lemma lively_put m s s' id b' :
  lively m s → bs_context_id s' = bs_context_id s → bs_blocks s' = <[id := b']> (bs_blocks s) →
  (b_deleted b' = false → flags_ok b' ∧ tidy (b_header b') ∧ 0 ≤ h_updated_at (b_header b') ≤ m ∧ b_tick b' ≠ None) →
  (∀ b, bs_blocks s !! id = Some b → outlives b b' ∧ (b_deleted b' = false → grew b b')) →
  lively m s' ∧ grows s s'.
Proof.
  intros Hs Hctx Hb Hfit Hgrew. split.
  - intros i b [Hi Hl]%get_live_Some. rewrite Hb in Hi.
    apply lookup_insert_Some in Hi as [[-> ->]|[_ Hi]]; [auto|]. apply (Hs i). by apply get_live_Some.
  - split; [done|]. intros i b Hi. rewrite Hb. destruct (decide (id = i)) as [<-|Hne].
    + exists b'. rewrite lookup_insert_eq. split; [done|by apply Hgrew].
    + exists b. rewrite lookup_insert_ne by done. split_and!; [done|by intros ?|by intros ?].
Qed.

Lemma snapshot_block_lively snap p k b m :
  (block_from_snapshot snap p k = Some b ∨ b = block_from_snapshot_for_sync snap p k) →
  tidy (header_from_snapshot snap) → 0 ≤ sn_updated_at snap ≤ m → sn_tick snap ≠ None →
  flags_ok b ∧ tidy (b_header b) ∧ 0 ≤ h_updated_at (b_header b) ≤ m ∧ b_tick b ≠ None.
Proof.
  intros [Hb| ->] Ht Hu Htk.
  - destruct (snapshot_fit m snap p k b None Hb Ht Hu (or_intror Htk)) as [_ [F1 F2 F3 F4 _]]. exact (conj F1 (conj F2 (conj F3 F4))).
  - unfold block_from_snapshot_for_sync. destruct (create_agent _ _). split_and!; (done || apply Hu).
Qed.

(** A block of a payload that the store may take over, with timestamps up to [m]. *)
Record incoming (m : Z) (snap : BlockSnapshot) : Prop := {
  in_fits : snap_fits snap;
  in_tidy : tidy (header_from_snapshot snap);
  in_clock : 0 ≤ sn_updated_at snap ≤ m;
  in_tick : sn_tick snap ≠ None;
}.

Lemma grow_new c bound has snaps ts m s r s' :
  Forall (incoming bound) snaps → lively (Z.max c ts) s → ts ≤ bound →
  merge_new_blocks has snaps ts m s = Some (r, s') →
  ∃ ts' m', r = Ok (ts', m') ∧ ts ≤ ts' ≤ bound ∧ lively (Z.max c ts') s' ∧ grows s s' ∧
    bs_lamport_clock s' = bs_lamport_clock s.
Proof.
  intros Hin. revert ts m s. induction Hin as [|snap snaps [Hf Ht Hu Htk] _ IH]; intros ts m s Hl Hb.
  { intros [= <- <-]. exists ts, m. split_and!; done || lia. }
  cbn [merge_new_blocks]. rewrite (bind_ok m_get _ _ _ _ eq_refl).
  case_bool_decide as Hn; [|by apply IH].
  unfold mbind at 1, method_bind, m_bind. destruct (fallback_key s snap) as [key|]; [|done]. cbn [m_lift m_ret].
  unfold mbind at 1, method_bind, m_bind.
  assert (∀ b, (block_from_snapshot snap (bs_principal_id s) key = Some b ∨
                b = block_from_snapshot_for_sync snap (bs_principal_id s) key) →
    (m_modify (λ s, observe_seq (principal_id (sn_id snap)) (seq (sn_id snap))
         (s <| bs_blocks := <[sn_id snap := b]> (bs_blocks s) |>));;
     merge_new_blocks has snaps (Z.max ts (sn_updated_at snap)) (max_tick_of m (sn_tick snap)))
      s = Some (r, s') →
    ∃ ts' m', r = Ok (ts', m') ∧ ts ≤ ts' ≤ bound ∧ lively (Z.max c ts') s' ∧ grows s s' ∧
      bs_lamport_clock s' = bs_lamport_clock s) as Hput.
  { intros b Hb' Hr. rewrite (bind_ok (m_modify _) _ _ tt _ eq_refl) in Hr.
    match type of Hr with merge_new_blocks _ _ _ _ ?x = _ => set (s1 := x) in Hr end.
    destruct (lively_put (Z.max c (Z.max ts (sn_updated_at snap))) s s1 (sn_id snap) b) as [Hl1 Hg1]; [|done|done| | |].
    - eapply lively_mono; [|exact Hl]. lia.
    - intros _. apply (snapshot_block_lively _ _ _ _ _ Hb'); [done|lia|done].
    - intros b0 Hb0. congruence.
    - apply IH in Hr as (ts'&m'&->&Hts&Hl'&Hg&Hc'); [|done|lia].
      exists ts', m'. split; [done|]. split; [lia|]. split; [done|]. split; [by etrans|by rewrite Hc']. }
  case_bool_decide; [apply Hput; by right|].
  destruct (block_from_snapshot snap _ key) as [b|] eqn:Eb; [|done]. apply Hput. by left.
Qed.

Lemma lively_header m s h :
  lively m s → tidy h → 0 ≤ h_updated_at h →
  let s' := s <| bs_blocks := alter (merge_header h) (h_id h) (bs_blocks s) |> in
  lively (Z.max m (h_updated_at h)) s' ∧ grows s s'.
Proof.
  intros Hl Ht H0 s'. destruct (bs_blocks s !! h_id h) as [b|] eqn:Eb.
  2:{ assert (bs_blocks s' = bs_blocks s) as Hsame.
      { apply map_eq. intros i. unfold s'. cbn. destruct (decide (h_id h = i)) as [<-|];
          [by rewrite lookup_alter_eq, Eb|by rewrite lookup_alter_ne]. }
      split; [|by apply grows_same]. intros i b [Hi Hlive]%get_live_Some. rewrite Hsame in Hi.
      eapply (lively_mono m (Z.max m (h_updated_at h)) s); [lia|done|]. by apply get_live_Some. }
  destruct (merge_header_only h b) as [M1 M2 M3 M4 M5].
  assert (bs_blocks s' = <[h_id h := merge_header h b]> (bs_blocks s)) as Hb.
  { apply map_eq. intros i. unfold s'. cbn. destruct (decide (h_id h = i)) as [<-|];
      [by rewrite lookup_alter_eq, lookup_insert_eq, Eb|by rewrite lookup_alter_ne, lookup_insert_ne]. }
  assert (lively (Z.max m (h_updated_at h)) s) as Hl' by (eapply lively_mono; [|exact Hl]; lia).
  apply (lively_put _ s s' (h_id h) (merge_header h b)); [done|done|done| |].
  - intros Hd. rewrite M3 in Hd. destruct (Hl (h_id h) b) as (F1&F2&F3&F4); [by apply get_live_Some|].
    pose proof (merge_header_tidy h b) as Hmt. unfold tidy in *. split; [by apply M5|]. split; [done|]. split.
    + pose proof (merge_header_bound h b). pose proof (merge_header_updated h b). lia.
    + unfold frame in M1. congruence.
  - intros b0 Hb0. assert (b0 = b) as -> by congruence. unfold outlives. rewrite M3. split; [done|].
    intros _. apply header_only_grew; [by split|apply merge_header_advanced].
Qed.

Lemma grow_headers c hs ts s :
  Forall (λ h, tidy h ∧ 0 ≤ h_updated_at h) hs → lively (Z.max c ts) s →
  lively (Z.max c (newest_header ts hs)) (merge_headers hs s) ∧ grows s (merge_headers hs s) ∧
  bs_lamport_clock (merge_headers hs s) = bs_lamport_clock s.
Proof.
  intros Hhs. revert ts s. induction Hhs as [|h hs [Ht H0] _ IH]; intros ts s Hl; [done|].
  destruct (lively_header _ s h Hl Ht H0) as [Hl1 Hg1]. cbn [merge_headers].
  set (s1 := set_field bs_blocks _ s) in *.
  destruct (IH (Z.max ts (h_updated_at h)) s1) as (Hl2&Hg2&Hc2).
  { eapply lively_mono; [|exact Hl1]. lia. }
  split; [exact Hl2|]. split; [by etrans|done].
Qed.

Lemma grow_ops m ops had s had' s' :
  lively m s → merge_block_ops ops had s = Some (Ok had', s') →
  lively m s' ∧ grows s s' ∧ bs_lamport_clock s' = bs_lamport_clock s.
Proof.
  revert had s. induction ops as [|[id o] ops IH]; intros had s Hl; cbn [merge_block_ops].
  { by intros [= _ <-]. }
  rewrite (bind_ok m_get _ _ _ _ eq_refl). destruct (bs_blocks s !! id) as [b|] eqn:Eb; [|by apply IH].
  unfold block_merge_ops. destruct (doc_merge o (b_doc b)) as [out d] eqn:Em.
  rewrite (bind_ok (m_modify _) _ _ tt _ eq_refl). set (s1 := set_field bs_blocks _ s).
  destruct out; [|done|done]. intros Hr. pose proof (merge_extends _ _ _ Em) as He.
  assert (grew b (b <| b_doc := d |>)) as Hgrew by by split.
  destruct (lively_put m s s1 id (b <| b_doc := d |>)) as [Hl1 Hg1]; [done|done|done| | |].
  - intros Hd. exact (Hl id b (proj2 (get_live_Some s id b) (conj Eb Hd))).
  - intros b0 Hb0. assert (b0 = b) as -> by congruence. split; [exact (λ x, x)|done].
  - apply IH in Hr as (?&Hg&Hc); [|done]. split; [done|]. split; [by etrans|by rewrite Hc].
Qed.

Lemma grow_deleted m ids s r s' :
  0 ≤ bs_lamport_clock s → bs_lamport_clock s + Z.of_nat (length ids) < two64 →
  lively m s → merge_deleted ids s = Some (r, s') →
  r = Ok tt ∧ lively m s' ∧ grows s s' ∧ bs_lamport_clock s' = bs_lamport_clock s + Z.of_nat (length ids).
Proof.
  intros H0 Hc Hl Hr. destruct (merge_deleted_run ids s H0 Hc) as (s1&Hr1&C1&_&C3&Hout&Hin).
  rewrite Hr1 in Hr. injection Hr as <- <-. split; [done|].
  assert (∀ id b, bs_blocks s1 !! id = Some b → b_deleted b = false → bs_blocks s !! id = Some b) as Hback.
  { intros id b Hb Hd. destruct (decide (id ∈ ids)) as [Hi|Hi]; [|by rewrite <- Hout].
    specialize (Hin id Hi). destruct (bs_blocks s !! id); [destruct Hin as (?&?&?)|]; congruence. }
  split; [|split; [|done]].
  - intros id b [Hb Hd]%get_live_Some. apply (Hl id). apply get_live_Some. auto.
  - split; [done|]. intros id b Hb. destruct (decide (id ∈ ids)) as [Hi|Hi].
    + specialize (Hin id Hi). rewrite Hb in Hin. destruct Hin as (b'&Hb'&Hd). exists b'.
      split; [done|]. split; [by intros ?|congruence].
    + exists b. rewrite Hout by done. split_and!; [done|by intros ?|by intros ?].
Qed.

(** A payload that the store may merge: its numbers are in range and its headers tidy. *)
Record payload_fits s (p : SyncPayload) : Prop := {
  pf_new : Forall (incoming (u64_max - 1)) (p_new_blocks p);
  pf_headers : Forall (λ h, tidy h ∧ 0 ≤ h_updated_at h ≤ u64_max - 1) (p_updated_headers p);
  pf_deleted : bs_lamport_clock s + Z.of_nat (length (p_deleted_blocks p)) < u64_max;
}.

Lemma merge_grows s p s' :
  sound s → payload_fits s p → merge_ops p s = Some (Ok tt, s') →
  (∀ id b, get_live s' id = Some b → get_text (b_doc b) ≠ None) →
  sound s' ∧ grows s s' ∧ bs_lamport_clock s ≤ bs_lamport_clock s'.
Proof.
  intros Hs [Hnew Hhs Hdel] Hr Htext. pose proof (so_clock s Hs) as H0.
  assert (store_ok s') as Hok.
  { destruct (merge_ops_preserves p) with s (Ok tt : result CrdtError ()) s' as [Hev _]; [|apply Hs|done|].
    - eapply Forall_impl; [exact Hnew|]. by intros ? [].
    - apply (ev_ok s); [done|apply Hs]. }
  unfold merge_ops in Hr. apply bind_run in Hr as [([ts mt]&s1&E1&Hr)|(e&_&[=])].
  apply (grow_new (bs_lamport_clock s) (u64_max - 1)) in E1 as (ts0&mt0&[= <- <-]&Hts&Hl1&Hg1&Hc1);
    [|done|eapply lively_mono; [|by apply sound_lively]; lia|width_lia].
  rewrite (bind_ok (m_modify _) _ _ tt _ eq_refl), (bind_ok (m_modify _) _ _ tt _ eq_refl) in Hr.
  set (s1' := raise_next_tick _ s1) in Hr.
  assert (bs_blocks s1' = bs_blocks s1 ∧ bs_context_id s1' = bs_context_id s1 ∧
    bs_lamport_clock s1' = bs_lamport_clock s1) as (B1&B2&B3) by (unfold s1'; by destruct mt).
  assert (lively (Z.max (bs_lamport_clock s) ts) s1') as Hl1'.
  { intros id b. unfold get_live. rewrite B1. apply (Hl1 id). }
  change (foldl _ ts (p_updated_headers p)) with (newest_header ts (p_updated_headers p)) in Hr.
  set (ts' := newest_header ts (p_updated_headers p)) in Hr.
  destruct (grow_headers (bs_lamport_clock s) (p_updated_headers p) ts s1') as (Hl2&Hg2&Hc2);
    [eapply Forall_impl; [exact Hhs|cbv beta; intros; naive_solver]|done|]. fold ts' in Hl2.
  set (s2 := merge_headers _ s1') in *.
  assert (ts ≤ ts' ≤ u64_max - 1) as Hts'.
  { destruct (foldl_max h_updated_at (p_updated_headers p) ts) as (F1&_&F3).
    split; [exact F1|]. apply F3; [lia|]. rewrite Forall_forall in Hhs. intros h Hh. by apply Hhs. }
  apply bind_run in Hr as [(had&s3&E3&Hr)|(e&_&[=])].
  apply (grow_ops _ _ _ _ _ _ Hl2) in E3 as (Hl3&Hg3&Hc3).
  assert (bs_lamport_clock s3 = bs_lamport_clock s) as Hs3 by congruence.
  apply bind_run in Hr as [([]&s4&E4&Hr)|(e&_&[=])].
  apply (grow_deleted (Z.max (bs_lamport_clock s) ts')) in E4 as (_&Hl4&Hg4&Hc4);
    [|lia|width_lia|done].
  assert (grows s s4) as Hg by (etrans; [exact Hg1|]; etrans; [by apply (grows_same s1 s1')|]; etrans; [exact Hg2|]; by etrans).
  unfold mbind, method_bind, m_bind, merge_clock, m_modify, m_ret in Hr.
  assert (∀ s5, bs_blocks s' = bs_blocks s5 → bs_context_id s' = bs_context_id s5 →
    bs_blocks s5 = bs_blocks s4 → bs_context_id s5 = bs_context_id s4 →
    Z.max (bs_lamport_clock s) ts' ≤ bs_lamport_clock s' → 
    sound s' ∧ grows s s' ∧ bs_lamport_clock s ≤ bs_lamport_clock s') as Hend.
  { intros s5 D1 D2 D3 D4 Hle. split; [|split; [etrans; [exact Hg|apply grows_same; congruence]|lia]].
    split; [done| |lia]. intros id b Hb. pose proof (Htext id b Hb) as Ht.
    apply get_live_Some in Hb as [Hb Hd]. rewrite D1, D3 in Hb.
    destruct (Hl4 id b) as (F1&F2&F3&F4); [by apply get_live_Some|]. split; try done. lia. }
  destruct ((0 <? ts') || had) eqn:Ec; injection Hr as <-.
  - eapply Hend; [reflexivity|reflexivity|done|done|]. cbn. rewrite wrap_u64_id by width_lia. lia.
  - apply orb_false_iff in Ec as [Ec _]. apply Z.ltb_ge in Ec.
    eapply Hend; [reflexivity|reflexivity|done|done|]. cbn. lia.
Qed.
End growth.
