(* ===== verification/Recovery.v ===== *)
(** * What is on disk is what is in memory

    After any history of calls, every document of the kernel's block store can be rebuilt
    from its rows: the latest snapshot, then the journal. *)

From S2P Require Import Prelude MethodLogic Text Tick Ids Track Cas Cell Concrete Block OrderKey Hydrate BlockContent Selection BlockStore StoreInv StoreOps StoreOrder StoreDoc StoreRestore Sync Convergence Replica StoreGrowth KernelStore.

Section document.
Context {json : JsonLib} {blib : BlockLib} {dte : Dte} {laws : DteLaws} {replicas : DteReplicas} {uuids : UuidCrate}.
Context {snap_cbor : Cbor StoreSnapshot} {payload_cbor : Cbor SyncPayload}.
Context {snap_laws : CborLaws StoreSnapshot} {payload_laws : CborLaws SyncPayload}.
Implicit Types (d : KernelDb) (e : DocumentEntry) (c : ContextId).

(** ** The rows of one document *)

(** What the load of a document starts from. *)
Definition base_of (now : Z) (p : PrincipalId) c d : option (BlockStore * Z) :=
  match db_snapshots d !! c with
  | None => Some (store_new c p, 0)
  | Some row =>
      match decode (snr_state row) with
      | Ok snapshot =>
          match store_from_snapshot now snapshot p with
          | Some (Ok b) => Some (b, snr_seq row)
          | _ => None
          end
      | Err _ => None
      end
  end.

Definition rows_bytes (rows : list (Z * bytes)) : Z := foldr Z.add 0 ((λ r, Z.of_nat (length r.2)) <$> rows).

(** The replica that the rows of [c] give, whoever loads it and when: a twin of the
    document [doc], with these ids and this clock. *)
Definition rebuilds c d (doc : BlockStore) (base : Z) (ids : BlockId → Prop) (clock : Z) : Prop :=
  ∀ now p, ∃ b r, base_of now p c d = Some (b, base) ∧ replay (rows_of c d) b = Some (Some r) ∧
    twins doc r ∧ store_ok r ∧ bs_lamport_clock r = clock ∧
    ∀ id, is_Some (bs_blocks r !! id) ↔ ids id.

(** A document in memory and its journal, but for the number of rows. *)
Record journaled c d e : Prop := {
  jn_sound : sound (de_doc e);
  jn_context : bs_context_id (de_doc e) = c;
  jn_count : de_uncompacted_count e = Z.of_nat (length (rows_of c d));
  jn_bytes : de_uncompacted_bytes e = wrap_u64 (rows_bytes (rows_of c d));
  jn_rows : ∃ base, 0 ≤ base ∧ (rows_of c d).*1 = seqZ (base + 1) (Z.of_nat (length (rows_of c d))) ∧
    de_next_journal_seq e = base + Z.of_nat (length (rows_of c d)) ∧ de_next_journal_seq e ≤ i64_max ∧
    ∃ ids clock, rebuilds c d (de_doc e) base ids clock ∧
      0 ≤ clock ≤ bs_lamport_clock (de_doc e) +
        Z.of_nat (length (rows_of c d)) * (Z.of_nat (size (bs_blocks (de_doc e))) + 1) ∧
      ∀ id b, get_live (de_doc e) id = Some b → h_updated_at (b_header b) ≤ clock;
}.

(** The clocks of the document and of the replica have room. *)
Definition clock_room (doc : BlockStore) : Prop :=
  bs_lamport_clock doc + COMPACTION_OP_THRESHOLD * (Z.of_nat (size (bs_blocks doc)) + 1) < u64_max.

Lemma rebuilds_ext c d d' doc base ids clock :
  rows_of c d' = rows_of c d → db_snapshots d' !! c = db_snapshots d !! c →
  rebuilds c d doc base ids clock → rebuilds c d' doc base ids clock.
Proof. intros Hr Hs Hb now p. unfold base_of. rewrite Hr, Hs. apply Hb. Qed.

Lemma journaled_ext c d d' e :
  rows_of c d' = rows_of c d → db_snapshots d' !! c = db_snapshots d !! c →
  journaled c d e → journaled c d' e.
Proof.
  intros Hr Hs [H1 H2 H3 H4 (base&B1&B2&B3&B4&ids&clock&B5&B6)]. split; rewrite ?Hr; try done.
  exists base. split_and!; try done. exists ids, clock. split; [by apply (rebuilds_ext c d)|done].
Qed.

(** A call that changed no block of the document. *)
Lemma journaled_same c d e e' :
  journaled c d e → sound (de_doc e') → bs_context_id (de_doc e') = bs_context_id (de_doc e) →
  bs_blocks (de_doc e') = bs_blocks (de_doc e) → bs_lamport_clock (de_doc e) ≤ bs_lamport_clock (de_doc e') →
  de_next_journal_seq e' = de_next_journal_seq e → de_uncompacted_count e' = de_uncompacted_count e →
  de_uncompacted_bytes e' = de_uncompacted_bytes e → journaled c d e'.
Proof.
  intros [H1 H2 H3 H4 (base&B1&B2&B3&B4&ids&clock&B5&B6&B7)] Hs Hctx Hb Hc E1 E2 E3.
  split; rewrite ?E1, ?E2, ?E3; try done; [congruence|].
  exists base. split_and!; try done. exists ids, clock. split; [|rewrite Hb; split; [lia|]].
  - intros now p. destruct (B5 now p) as (b&r&R1&R2&[T1 T2 T3]&R4). exists b, r. split_and!; try done; [|apply R4..].
    split; [congruence| |].
    + intros id b0. unfold get_live. rewrite Hb. apply T2.
    + intros id b'. rewrite Hb. apply T3.
  - intros id b. unfold get_live. rewrite Hb. apply B7.
Qed.

(** ** One more row *)

Lemma replay_app rows1 rows2 b r :
  replay rows1 b = Some (Some r) → replay (rows1 ++ rows2) b = replay rows2 r.
Proof.
  revert b. induction rows1 as [|[n bs] rows1 IH]; intros b; cbn [replay app]; [by intros [= ->]|].
  destruct (decode bs) as [p|]; [|done]. destruct (merge_ops p b) as [[[[]|] b']|]; [|done..]. apply IH.
Qed.

Lemma gone_bound (s : BlockStore) frontiers :
  Z.of_nat (length (p_deleted_blocks (ops_since s frontiers))) ≤ Z.of_nat (size (bs_blocks s)).
Proof.
  rewrite ops_since_parts. cbn [p_deleted_blocks]. rewrite length_fmap.
  pose proof (length_filter (λ x : BlockId * BlockContent, b_deleted x.2 = true ∧ frontiers !! x.1 ≠ None) (blocks_iter s)).
  assert (length (blocks_iter s) = size (bs_blocks s)) as Hl.
  { unfold blocks_iter. rewrite merge_sort_Permutation. by rewrite length_map_to_list. }
  lia.
Qed.

Lemma grows_size (s s' : BlockStore) : grows s s' → (size (bs_blocks s) ≤ size (bs_blocks s'))%nat.
Proof.
  intros [_ Hg]. rewrite <- !size_dom. apply subseteq_size. intros id [b Hb]%elem_of_dom.
  destruct (Hg id b Hb) as (b'&Hb'&_). by apply elem_of_dom_2 in Hb'.
Qed.

(** The clock of the replica after one more payload. *)
Lemma payload_clock_bound (s s' : BlockStore) clock n :
  sound s' → grows s s' → bs_lamport_clock s ≤ bs_lamport_clock s' →
  0 ≤ clock ≤ bs_lamport_clock s + n * (Z.of_nat (size (bs_blocks s)) + 1) → 0 ≤ n →
  let p := ops_since s' (frontier s) in
  0 ≤ clock + Z.of_nat (length (p_deleted_blocks p)) ≤ payload_clock p clock ∧
  payload_clock p clock ≤ bs_lamport_clock s' + (n + 1) * (Z.of_nat (size (bs_blocks s')) + 1) ∧
  ∀ id b, get_live s' id = Some b → h_updated_at (b_header b) ≤ payload_clock p clock.
Proof.
  intros Hs' Hg Hle Hc Hn p. pose proof (gone_bound s' (frontier s)) as Hgone. fold p in Hgone.
  pose proof (grows_size s s' Hg) as Hsize.
  destruct (payload_ts_spec s' (frontier s)) as (P0&P1&P2). fold p in P0, P1, P2.
  assert (payload_ts p ≤ bs_lamport_clock s') as Hts.
  { apply P2; [apply Hs'|]. intros id b Hb. apply (fit_clock _ _ (so_fit s' Hs' id b Hb)). }
  assert (n * (Z.of_nat (size (bs_blocks s)) + 1) ≤ n * (Z.of_nat (size (bs_blocks s')) + 1)) by nia.
  unfold payload_clock. destruct (_ || _) eqn:Ec; (split; [lia|split; [lia|]]); intros id b Hb%P1; [lia|].
  apply orb_false_iff in Ec as [Ec _]. apply Z.ltb_ge in Ec. lia.
Qed.

Lemma rows_bytes_snoc rows n bs : rows_bytes (rows ++ [(n, bs)]) = rows_bytes rows + Z.of_nat (length bs).
Proof. unfold rows_bytes. induction rows as [|x rows IH]; cbn in *; lia. Qed.

(** What [count_op] does to the counters of an entry whose document changed. *)
Definition counted (len : Z) e e' : Prop :=
  de_next_journal_seq e' = wrap_u64 (de_next_journal_seq e + 1) ∧
  de_uncompacted_count e' = wrap_u64 (de_uncompacted_count e + 1) ∧
  de_uncompacted_bytes e' = wrap_u64 (de_uncompacted_bytes e + len).

(** What a change must leave for its payload to be journaled. *)
Record carried (doc doc' : BlockStore) : Prop := {
  ca_sound : sound doc';
  ca_grows : grows doc doc';
  ca_clock : bs_lamport_clock doc ≤ bs_lamport_clock doc';
  ca_roomy : roomy doc';
  ca_room : clock_room doc';
}.

Lemma journaled_append c d d' e e' bs :
  journaled c d e → carried (de_doc e) (de_doc e') → Z.of_nat (length (rows_of c d)) < COMPACTION_OP_THRESHOLD →
  de_next_journal_seq e < i64_max →
  encode (ops_since (de_doc e') (frontier (de_doc e))) = Ok bs →
  rows_of c d' = rows_of c d ++ [(de_next_journal_seq e + 1, bs)] → db_snapshots d' !! c = db_snapshots d !! c →
  counted (Z.of_nat (length bs)) e e' → journaled c d' e'.
Proof.
  intros [H1 H2 H3 H4 (base&B1&B2&B3&B4&ids&clock&B5&B6&B7)] [Hs Hg Hc Hroom Hcr] Hlen Hseq Henc Hrows Hsnap (E1&E2&E3).
  set (n := Z.of_nat (length (rows_of c d))) in *.
  assert (Z.of_nat (length (rows_of c d')) = n + 1) as Hn by (rewrite Hrows, length_app; cbn; lia).
  destruct (payload_clock_bound (de_doc e) (de_doc e') clock n Hs Hg Hc B6 ltac:(lia)) as (P1&P2&P3).
  set (payload := ops_since (de_doc e') (frontier (de_doc e))) in *.
  assert ((n + 1) * (Z.of_nat (size (bs_blocks (de_doc e'))) + 1) ≤
    COMPACTION_OP_THRESHOLD * (Z.of_nat (size (bs_blocks (de_doc e'))) + 1)) as Hmul
    by (apply Z.mul_le_mono_nonneg_r; lia).
  unfold clock_room in Hcr.
  split.
  - done.
  - by rewrite (gw_context _ _ Hg).
  - rewrite Hn, E2, H3. apply wrap_u64_id. unfold COMPACTION_OP_THRESHOLD in Hlen. width_lia.
  - rewrite E3, H4, Hrows, rows_bytes_snoc. unfold wrap_u64. by rewrite Zplus_mod_idemp_l.
  - exists base. split; [done|]. split; [|split; [|split]].
    + rewrite Hn, Hrows, fmap_app, B2. cbn [fmap list_fmap fst].
      replace (n + 1) with (Z.of_nat (S (length (rows_of c d)))) by lia. rewrite seqZ_S. do 2 f_equal. lia.
    + rewrite Hn, E1, wrap_u64_id; [lia|]. width_lia.
    + rewrite E1, wrap_u64_id; [lia|width_lia].
    + exists (λ id, ids id ∨ is_Some (get_live (de_doc e') id)), (payload_clock payload clock). split; [|split; [rewrite Hn; lia|done]].
      intros now p. destruct (B5 now p) as (b&r&R1&R2&R3&R4&R5&R6).
      destruct (replay_twins (de_doc e) (de_doc e') r) as (r'&M1&M2&M3&M4&M5);
        try done; fold payload; rewrite ?R5; [lia|width_lia|width_lia|].
      fold payload in M1, M4. exists b, r'. split; [unfold base_of; by rewrite Hsnap|]. split; [|split_and!; try done].
      * rewrite Hrows, (replay_app _ _ _ _ R2). cbn [replay]. by rewrite (decode_encode _ _ Henc), M1.
      * by rewrite M4, R5.
      * intros id. by rewrite M5, R6.
Qed.

(** ** A new snapshot *)

Lemma journaled_snapshot c d d' e e' bs :
  journaled c d e → roomy (de_doc e) → encode (store_snapshot (de_doc e)) = Ok bs →
  rows_of c d' = [] →
  (∃ version content, db_snapshots d' !! c = Some {| snr_seq := de_next_journal_seq e; snr_version := version;
                                                     snr_state := bs; snr_content := content |}) →
  de_doc e' = de_doc e → de_next_journal_seq e' = de_next_journal_seq e →
  de_uncompacted_count e' = 0 → de_uncompacted_bytes e' = 0 → journaled c d' e'.
Proof.
  intros [H1 H2 H3 H4 (base&B1&B2&B3&B4&_)] Hroom Henc Hrows (version&content&Hsnap) E0 E1 E2 E3.
  split; rewrite ?E0, ?Hrows; try done. exists (de_next_journal_seq e). cbn [length].
  split; [lia|]. split; [done|]. split; [lia|]. split; [lia|].
  destruct (document_clock_spec (de_doc e) H1) as [C1 C2].
  exists (λ id, is_Some (bs_blocks (de_doc e) !! id)), (document_clock (de_doc e)). split; [|split; [lia|done]].
  intros now p. destruct (restore_twins (de_doc e) p now H1 Hroom) as (r&R1&R2&R3&R4&R5).
  exists r, r. unfold base_of. rewrite Hsnap, Hrows. cbn [snr_state snr_seq].
  rewrite (decode_encode _ _ Henc), R1. by split_and!.
Qed.

(** ** An empty document *)

Lemma sound_new c p : sound (store_new c p).
Proof.
  split; [apply store_new_ok| |done]. intros id b. unfold get_live. cbn. by rewrite lookup_empty.
Qed.

Lemma journaled_new c d kind language p :
  rows_of c d = [] → db_snapshots d !! c = None → journaled c d (entry_new c kind language p).
Proof.
  intros Hrows Hsnap. split; rewrite ?Hrows; try done; try apply sound_new.
  exists 0. cbn. do 4 (split; [done|]). exists (λ _, False), 0. split; [|split; [done|]].
  - intros now q. exists (store_new c q), (store_new c q). unfold base_of. rewrite Hsnap, Hrows.
    split; [done|]. split; [done|]. split; [|split; [apply store_new_ok|split; [done|]]].
    + split; [done| |]; intros id b; unfold get_live; cbn; by rewrite lookup_empty.
    + intros id. cbn. rewrite lookup_empty. split; [by intros [? [=]]|done].
  - intros id b. unfold get_live. cbn. by rewrite lookup_empty.
Qed.

(** ** Loading *)

(** The entry that a load gives for the rows of [c]. *)
Definition loads c d e (kind : DocKind) (language : option string) (e' : DocumentEntry) : Prop :=
  blocks_ordered (de_doc e') = blocks_ordered (de_doc e) ∧ de_kind e' = kind ∧ de_language e' = language ∧
  de_next_journal_seq e' = de_next_journal_seq e ∧ de_uncompacted_count e' = de_uncompacted_count e ∧
  de_uncompacted_bytes e' = de_uncompacted_bytes e ∧ journaled c d e'.

Lemma statement_calm d : db_faults d = [] → statement d = Some (Ok tt, d).
Proof. intros Hd. unfold statement. by rewrite Hd. Qed.

Lemma load_base_run now p c d b n :
  db_faults d = [] → base_of now p c d = Some (b, n) → load_base now p c d = Some (Ok (Some (b, n)), d).
Proof.
  intros Hd Hb. unfold load_base.
  rewrite (bind_ok (m_try (load_latest_snapshot c)) _ d (Ok (db_snapshots d !! c)) d).
  2:{ unfold m_try, load_latest_snapshot. by rewrite (bind_ok _ _ _ _ _ (statement_calm d Hd)). }
  unfold base_of in Hb. destruct (db_snapshots d !! c) as [row|]; [|by injection Hb as <- <-].
  destruct (decode (snr_state row)) as [snapshot|]; [|done].
  destruct (store_from_snapshot now snapshot p) as [[s|]|]; [|done..]. by injection Hb as <- <-.
Qed.

Lemma seqZ_sorted m n : StronglySorted Z.lt (seqZ m (Z.of_nat n)).
Proof.
  revert m. induction n as [|n IH]; intros m; [constructor|].
  rewrite seqZ_cons by lia. constructor.
  - replace (Z.pred (Z.of_nat (S n))) with (Z.of_nat n) by lia. apply IH.
  - apply Forall_seqZ. lia.
Qed.

Lemma filter_all {A} (P : A → Prop) `{∀ x, Decision (P x)} (l : list A) : Forall P l → filter P l = l.
Proof. induction 1 as [|x l Hx _ IH]; [done|]. by rewrite filter_cons_True, IH. Qed.

(** The rows are loaded all, in the order they were written. *)
Lemma sorted_rows (rows : list (Z * bytes)) m n :
  rows.*1 = seqZ (m + 1) (Z.of_nat n) → merge_sort seq_le (filter (λ r, m < r.1) rows) = rows.
Proof.
  intros Hrows. rewrite filter_all.
  2:{ apply Forall_forall. intros r Hr%(list_elem_of_fmap_2 fst). rewrite Hrows, elem_of_seqZ in Hr. lia. }
  assert (StronglySorted (λ x y, Z.lt x.1 y.1) rows) as Hlt by (apply fmap_sorted; rewrite Hrows; apply seqZ_sorted).
  apply (StronglySorted_unique_strong seq_le).
  - intros [x bx] [y by'] Hx Hy H1 H2. unfold seq_le in *. cbn in *. rewrite merge_sort_Permutation in Hx.
    assert (x = y) as <- by lia. f_equal. apply list_elem_of_lookup in Hx as [i Hx], Hy as [j Hy].
    assert (i = j) as <-; [|congruence]. eapply (NoDup_lookup (rows.*1)); [rewrite Hrows; apply NoDup_seqZ|..];
      rewrite list_lookup_fmap; [by rewrite Hx|by rewrite Hy].
  - assert (Total seq_le) by (intros x y; unfold seq_le; lia).
    assert (Transitive seq_le) by (intros x y z; unfold seq_le; lia). by apply StronglySorted_merge_sort.
  - eapply sorted_weaken; [|exact Hlt]. intros x y. unfold seq_le. lia.
  - apply merge_sort_Permutation.
Qed.

Lemma max_seq_rows m n : 0 ≤ n → foldl Z.max m (seqZ (m + 1) n) = m + n.
Proof.
  intros Hn. destruct (Z_of_nat_complete n Hn) as [k ->]. clear Hn. revert m. induction k as [|k IH]; intros m.
  { cbn [Z.of_nat]. by rewrite Z.add_0_r. }
  rewrite seqZ_cons by lia. cbn [foldl]. rewrite Z.max_r by lia.
  replace (Z.pred (Z.of_nat (S k))) with (Z.of_nat k) by lia.
  replace (Z.succ (m + 1)) with (m + 1 + 1) by lia. rewrite IH. lia.
Qed.

(** Whoever loads the document gets a twin, with its counters, that is journaled again. *)
Lemma load_run now p c d e row :
  journaled c d e → db_faults d = [] → row_document_id row = c →
  ∃ e', load_document now p row d = Some (Ok (Some e'), d) ∧
    loads c d e (row_doc_kind row) (row_language row) e'.
Proof.
  intros [H1 H2 H3 H4 (base&B1&B2&B3&B4&ids&clock&B5&B6&B7)] Hd <-. set (c := row_document_id row) in *.
  destruct (B5 now p) as (b&r&R1&R2&R3&R4&R5&R6).
  eexists. split.
  - unfold load_document. rewrite (bind_ok _ _ _ _ _ (load_base_run now p c d b base Hd R1)).
    unfold load_oplog_since. rewrite (bind_ok _ _ d (rows_of c d) d).
    2:{ rewrite (bind_ok _ _ _ _ _ (statement_calm d Hd)), (bind_ok m_get _ _ _ _ eq_refl).
        change (Some (Ok (merge_sort seq_le (filter (λ r, base < r.1) (rows_of c d))), d) =
                Some (Ok (rows_of c d) : result DbError _, d)). by rewrite (sorted_rows _ _ _ B2). }
    by rewrite R2.
  - assert (sound r) as Hsound by (apply (twins_sound (de_doc e)); try done; [lia|intros id b0 Hb0; rewrite R5; eauto]).
    assert (wrap_u64 (foldl Z.max base (rows_of c d).*1) = de_next_journal_seq e) as Hmax.
    { rewrite B2, max_seq_rows, B3 by lia. apply wrap_u64_id. width_lia. }
    assert (journaled c d (entry_of r (row_doc_kind row) (row_language row) p (de_next_journal_seq e)
      (Z.of_nat (length (rows_of c d))) (wrap_u64 (rows_bytes (rows_of c d))))) as Hj.
    { split; try done; [by rewrite <- H2; apply (tws_context _ _ R3)|].
      exists base. do 4 (split; [done|]). exists ids, clock. split; [|split].
      - intros now' p'. destruct (B5 now' p') as (b'&r'&Q1&Q2&Q3&Q4&Q5&Q6). exists b', r'. split_and!; try done.
        apply (twins_between (de_doc e)); try done. intros id. by rewrite Q6, R6.
      - cbn. rewrite R5. lia.
      - intros id b0 Hb0. cbn in Hb0. rewrite <- R5. by apply (fit_clock _ _ (so_fit r Hsound id b0 Hb0)). }
    rewrite Hmax. split_and!; try done. by apply twins_doc.
Qed.
End document.

(** ** The kernel's block store and its database *)

Section kernel.
Context {json : JsonLib} {blib : BlockLib} {dte : Dte} {laws : DteLaws} {replicas : DteReplicas} {uuids : UuidCrate}.
Context {snap_cbor : Cbor StoreSnapshot} {payload_cbor : Cbor SyncPayload} {parsers : ContentParsers}.
Context {snap_laws : CborLaws StoreSnapshot} {payload_laws : CborLaws SyncPayload}.
Context (snap_total : ∀ v : StoreSnapshot, cbor_write v ≠ None) (payload_total : ∀ v : SyncPayload, cbor_write v ≠ None).
Implicit Types (d : KernelDb) (e : DocumentEntry) (c : ContextId) (s : KernelBlockStore).
Abbreviation kmethod := (method KernelBlockStore BlockStoreError).

Lemma encode_total {T} `{!Cbor T} (v : T) : cbor_write v ≠ None → ∃ b, encode v = Ok b.
Proof. intros Hv. unfold encode. destruct (cbor_write v) as [b|]; [by eexists|done]. Qed.

(** Documents in memory and rows on disk correspond, and every document is journaled. *)
Record durable s d : Prop := {
  du_db : ks_db s = Some d;
  du_calm : db_faults d = [];
  du_workspace : default 0%N (ks_default_workspace_id s) ∈ db_workspaces d;
  du_rows : NoDup (row_document_id <$> db_documents d);
  du_resident c : is_Some (ks_documents s !! c) ↔ c ∈ row_document_id <$> db_documents d;
  du_absent c : c ∉ row_document_id <$> db_documents d → rows_of c d = [] ∧ db_snapshots d !! c = None;
  du_journal c e : ks_documents s !! c = Some e → journaled c d e;
  du_row row e : row ∈ db_documents d → ks_documents s !! row_document_id row = Some e →
    de_kind e = row_doc_kind row ∧ de_language e = row_language row;
}.

(** No journal is as long as what triggers a compaction. *)
Definition short_journals s d : Prop := ∀ c e, ks_documents s !! c = Some e →
  Z.of_nat (length (rows_of c d)) < COMPACTION_OP_THRESHOLD.

(** The counters of every document have room. *)
Definition spacious s : Prop := ∀ c e, ks_documents s !! c = Some e →
  roomy (de_doc e) ∧ clock_room (de_doc e) ∧ de_next_journal_seq e < i64_max.

Lemma durable_ext s s' d :
  ks_db s' = ks_db s → ks_documents s' = ks_documents s → ks_default_workspace_id s' = ks_default_workspace_id s →
  durable s d → durable s' d.
Proof. intros E1 E2 E3 []. split; rewrite ?E1, ?E2, ?E3; done. Qed.

Lemma durable_document s d c e : durable s d → ks_documents s !! c = Some e → has_document c d = true.
Proof.
  intros Hd He. unfold has_document. apply existsb_exists.
  assert (c ∈ row_document_id <$> db_documents d) as Hc by (apply (du_resident s d Hd); by exists e).
  apply list_elem_of_fmap in Hc as (row&->&Hrow). exists row. split; [by apply list_elem_of_In|].
  by apply bool_decide_eq_true.
Qed.

(** *** Rows after a write *)

Lemma rows_of_app c d l :
  rows_of c (d <| db_oplog := db_oplog d ++ l |>) = rows_of c d ++ ((λ r, (r.1.2, r.2)) <$> filter (λ r, r.1.1 = c) l).
Proof. unfold rows_of. cbn. by rewrite filter_app, fmap_app. Qed.

Lemma elem_of_rows c d n bs : (n, bs) ∈ rows_of c d ↔ (c, n, bs) ∈ db_oplog d.
Proof.
  unfold rows_of. rewrite list_elem_of_fmap. split.
  - intros ([[c' n'] bs']&[= -> ->]&[Hc Hin]%list_elem_of_filter). cbn in Hc. by subst.
  - intros Hin. exists (c, n, bs). split; [done|]. by apply list_elem_of_filter.
Qed.

Lemma append_op_run d c seq payload :
  db_faults d = [] → has_document c d = true → (∀ bs, (seq, bs) ∉ rows_of c d) →
  append_op c seq payload d = Some (Ok tt, d <| db_oplog := db_oplog d ++ [(c, seq, payload)] |>).
Proof.
  intros Hd Hc Hseq. unfold append_op.
  rewrite (bind_ok _ _ _ _ _ (statement_calm d Hd)), (bind_ok m_get _ _ _ _ eq_refl).
  assert (existsb (λ r, bool_decide (r.1 = (c, seq))) (db_oplog d) = false) as ->.
  { apply not_true_is_false. intros ([[c' n] bs]&Hin&Heq)%existsb_exists.
    apply bool_decide_eq_true in Heq. cbn in Heq. injection Heq as -> ->.
    apply (Hseq bs), elem_of_rows. by apply list_elem_of_In. }
  by rewrite Hc.
Qed.

Lemma append_rows s d c e now bs :
  durable s d → ks_documents s !! c = Some e → de_next_journal_seq e < i64_max →
  let seq := de_next_journal_seq e + 1 in
  ∃ d', (append_op c (wrap_i64 (wrap_u64 seq)) bs;; touch_context_activity c now) d = Some (Ok tt, d') ∧
    rows_of c d' = rows_of c d ++ [(seq, bs)] ∧ (∀ c', c' ≠ c → rows_of c' d' = rows_of c' d) ∧
    db_snapshots d' = db_snapshots d ∧ db_documents d' = db_documents d ∧ db_workspaces d' = db_workspaces d ∧
    db_faults d' = [].
Proof.
  intros Hd He Hseq seq. destruct (du_journal s d Hd c e He) as [_ _ _ _ (base&B1&B2&B3&B4&_)].
  assert (wrap_i64 (wrap_u64 seq) = seq) as ->.
  { unfold seq. rewrite wrap_u64_id, wrap_i64_id; [done|width_lia..]. }
  rewrite (bind_ok _ _ _ _ _ (append_op_run d c seq bs (du_calm s d Hd) (durable_document s d c e Hd He)
    ltac:(intros bs' Hin%(list_elem_of_fmap_2 fst); rewrite B2, elem_of_seqZ in Hin; cbn in Hin; unfold seq in Hin; lia))).
  set (d1 := set_field db_oplog _ d). unfold touch_context_activity.
  assert (db_faults d1 = []) as Hd1 by apply (du_calm s d Hd).
  rewrite (bind_ok _ _ _ _ _ (statement_calm d1 Hd1)). eexists. split; [reflexivity|].
  assert (∀ c', rows_of c' (d1 <| db_activity := alter (λ _, now) c (db_activity d1) |>) =
    rows_of c' d ++ ((λ r, (r.1.2, r.2)) <$> filter (λ r, r.1.1 = c') [(c, seq, bs)])) as Hrows
    by (intros; apply rows_of_app).
  split; [|split; [|done]].
  - rewrite Hrows, filter_cons_True by done. done.
  - intros c' Hc'. rewrite Hrows, filter_cons_False by (cbn; congruence). by rewrite filter_nil, app_nil_r.
Qed.

Lemma snapshot_rows s d c e version bs content :
  durable s d → ks_documents s !! c = Some e →
  ∃ d', write_snapshot_and_truncate c (de_next_journal_seq e) version bs content d = Some (Ok tt, d') ∧
    rows_of c d' = [] ∧ (∀ c', c' ≠ c → rows_of c' d' = rows_of c' d) ∧
    db_snapshots d' = <[c := {| snr_seq := de_next_journal_seq e; snr_version := version; snr_state := bs;
                                snr_content := content |}]> (db_snapshots d) ∧
    db_documents d' = db_documents d ∧ db_workspaces d' = db_workspaces d ∧ db_faults d' = [].
Proof.
  intros Hd He. destruct (du_journal s d Hd c e He) as [_ _ _ _ (base&B1&B2&B3&B4&_)].
  unfold write_snapshot_and_truncate.
  rewrite (bind_ok _ _ _ _ _ (statement_calm d (du_calm s d Hd))), (bind_ok m_get _ _ _ _ eq_refl).
  rewrite (durable_document s d c e Hd He). eexists. split; [reflexivity|]. split; [|split; [|split_and!; try done; apply (du_calm s d Hd)]].
  - apply elem_of_nil_inv. intros [n bs'] Hin. apply elem_of_rows in Hin. cbn in Hin.
    apply list_elem_of_filter in Hin as [Hn Hin]. apply Hn. split; [done|]. cbn.
    apply elem_of_rows, (list_elem_of_fmap_2 fst) in Hin. rewrite B2, elem_of_seqZ in Hin. cbn in Hin. lia.
  - intros c' Hc'. unfold rows_of. cbn. f_equal. rewrite list_filter_filter. apply list_filter_iff.
    intros [[c0 n] bs']. cbn. naive_solver.
Qed.

(** One document and its rows change. *)
Lemma durable_change s s' d d' c e e' :
  durable s d → ks_documents s !! c = Some e → ks_documents s' = <[c := e']> (ks_documents s) →
  ks_db s' = Some d' → ks_default_workspace_id s' = ks_default_workspace_id s →
  (∀ c', c' ≠ c → rows_of c' d' = rows_of c' d ∧ db_snapshots d' !! c' = db_snapshots d !! c') →
  db_documents d' = db_documents d → db_workspaces d' = db_workspaces d → db_faults d' = [] →
  journaled c d' e' → de_kind e' = de_kind e → de_language e' = de_language e → durable s' d'.
Proof.
  intros [D1 D2 D3 D4 D5 D6 D7 D8] He Hdocs Hdb Hws Hrows E1 E2 E3 Hj K1 K2.
  assert (c ∈ row_document_id <$> db_documents d) as Hc by (apply D5; by exists e).
  split; rewrite ?E1, ?E2, ?Hws; try done.
  - intros c'. rewrite <- D5, Hdocs. destruct (decide (c' = c)) as [->|Hne].
    + rewrite lookup_insert_eq, He. split; intros; eauto.
    + by rewrite lookup_insert_ne.
  - intros c' Hc'. destruct (Hrows c') as [-> ->]; [by intros ->|]. by apply D6.
  - intros c' e0. rewrite Hdocs. intros [[<- <-]|[Hne He0]]%lookup_insert_Some; [done|].
    destruct (Hrows c') as [R1 R2]; [done|]. apply (journaled_ext c' d); auto.
  - intros row e0 Hrow. rewrite Hdocs. intros [[Hid <-]|[Hne He0]]%lookup_insert_Some; [|by apply D8].
    rewrite K1, K2. apply D8; [done|]. by rewrite <- Hid.
Qed.

Lemma journaling_run s d : durable s d → journaling_db s = Some (Ok true, s).
Proof. intros Hd. unfold journaling_db. rewrite (bind_ok m_get _ _ _ _ eq_refl), (du_db s d Hd). done. Qed.

Lemma on_db_run {A} (f : KernelDb → option (result DbError A * KernelDb)) s d a d' :
  ks_db s = Some d → f d = Some (Ok a, d') → on_db f s = Some (Ok a, s <| ks_db := Some d' |>).
Proof. intros Hs Hf. unfold on_db. by rewrite Hs, Hf. Qed.

Lemma read_entry_run s c e : ks_documents s !! c = Some e → read_entry c s = Some (Ok e, s).
Proof. intros He. unfold read_entry. by rewrite He. Qed.

(** Everything but the documents, the database and the cached status is left alone. *)
Definition apart s s' : Prop :=
  ks_default_workspace_id s' = ks_default_workspace_id s ∧ ks_principal_id s' = ks_principal_id s ∧
  ks_block_flows s' = ks_block_flows s ∧ ks_block_text_seqs s' = ks_block_text_seqs s.

(** *** Compaction *)

Lemma compact_run s d c e :
  durable s d → ks_documents s !! c = Some e → roomy (de_doc e) →
  ∃ s' d' e', compact_document c s = Some (Ok tt, s') ∧ durable s' d' ∧ apart s s' ∧
    ks_live_status s' = ks_live_status s ∧ ks_documents s' = <[c := e']> (ks_documents s) ∧
    de_doc e' = de_doc e ∧ de_next_journal_seq e' = de_next_journal_seq e ∧
    rows_of c d' = [] ∧ ∀ c', c' ≠ c → rows_of c' d' = rows_of c' d.
Proof.
  intros Hd He Hroom. destruct (encode_total (store_snapshot (de_doc e)) (snap_total _)) as [bs Hbs].
  destruct (du_journal s d Hd c e He) as [_ _ _ _ (base&B1&B2&B3&B4&_)].
  destruct (snapshot_rows s d c e (wrap_i64 (de_version e)) bs (full_text (de_doc e)) Hd He)
    as (d'&Hrun&R1&R2&R3&R4&R5&R6).
  set (e' := e <| de_uncompacted_count := 0 |> <| de_uncompacted_bytes := 0 |>).
  set (s' := s <| ks_db := Some d' |> <| ks_documents := <[c := e']> (ks_documents s) |>).
  exists s', d', e'. split; [|split; [|by split_and!]].
  - unfold compact_document. rewrite (bind_ok _ _ _ _ _ (journaling_run s d Hd)).
    rewrite (bind_ok _ _ _ _ _ (read_entry_run s c e He)).
    rewrite (bind_ok (m_encode _) _ s bs s) by (unfold m_encode; by rewrite Hbs).
    rewrite (wrap_i64_id (de_next_journal_seq e)) by width_lia.
    rewrite (bind_ok _ _ _ _ _ (on_db_run _ _ _ _ _ (du_db s d Hd) Hrun)).
    unfold m_modify, s'. do 2 f_equal. cbn. f_equal. apply map_eq. intros c'.
    destruct (decide (c = c')) as [<-|Hne]; [by rewrite lookup_alter_eq, lookup_insert_eq, He|].
    by rewrite lookup_alter_ne, lookup_insert_ne.
  - eapply (durable_change s s' d d' c e e'); try done.
    + intros c' Hc'. split; [by apply R2|]. by rewrite R3, lookup_insert_ne.
    + eapply (journaled_snapshot c d d' e e' bs); try done; [by apply (du_journal s d Hd)|].
      rewrite R3, lookup_insert_eq. eauto.
Qed.

(** *** A change is journaled *)

Lemma count_op_run s c e len :
  ks_documents s !! c = Some e →
  ∃ e', edit_entry c (count_op len) s =
      Some (Ok (wrap_u64 (de_next_journal_seq e + 1), wrap_u64 (de_uncompacted_count e + 1),
                wrap_u64 (de_uncompacted_bytes e + len)), s <| ks_documents := <[c := e']> (ks_documents s) |>) ∧
    counted len e e' ∧ de_doc e' = de_doc e ∧ de_kind e' = de_kind e ∧ de_language e' = de_language e.
Proof. intros He. unfold edit_entry. rewrite He. eexists. split; [reflexivity|]. by split_and!. Qed.

(** The entry of a changed document, before it is journaled. *)
Definition touched e e' : Prop :=
  de_next_journal_seq e' = de_next_journal_seq e ∧ de_uncompacted_count e' = de_uncompacted_count e ∧
  de_uncompacted_bytes e' = de_uncompacted_bytes e ∧ de_kind e' = de_kind e ∧ de_language e' = de_language e.

Definition in_doc s c e' : KernelBlockStore := s <| ks_documents := <[c := e']> (ks_documents s) |>.

Lemma journal_run s d c e e' now :
  durable s d → short_journals s d → ks_documents s !! c = Some e → touched e e' →
  carried (de_doc e) (de_doc e') → de_next_journal_seq e < i64_max →
  ∃ s' d' e2, journal_op now c (ops_since (de_doc e') (frontier (de_doc e))) (in_doc s c e') = Some (Ok tt, s') ∧
    durable s' d' ∧ short_journals s' d' ∧ apart s s' ∧
    ks_documents s' = <[c := e2]> (ks_documents s) ∧ de_doc e2 = de_doc e' ∧
    ks_live_status s' = <[c := derive_context_live_status (doc_statuses (de_doc e'))]> (ks_live_status s).
Proof.
  intros Hd Hshort He (T1&T2&T3&T4&T5) Hca Hseq.
  destruct (encode_total (ops_since (de_doc e') (frontier (de_doc e))) (payload_total _)) as [bs Hbs].
  set (s1 := in_doc s c e').
  set (s2 := s1 <| ks_live_status := <[c := derive_context_live_status (doc_statuses (de_doc e'))]> (ks_live_status s1) |>).
  assert (ks_documents s2 !! c = Some e') as He2 by apply lookup_insert_eq.
  destruct (count_op_run s2 c e' (Z.of_nat (length bs)) He2) as (e1&Hcount&(C1&C2&C3)&C4&C5&C6).
  set (s3 := s2 <| ks_documents := <[c := e1]> (ks_documents s2) |>) in Hcount.
  destruct (append_rows s d c e (wrap_i64 now) bs Hd He Hseq) as (d1&Happ&R1&R2&R3&R4&R5&R6).
  assert (ks_documents s3 = <[c := e1]> (ks_documents s)) as Hdocs3 by (apply insert_insert_eq).
  set (s4 := s3 <| ks_db := Some d1 |>).
  assert (durable s4 d1) as Hd4.
  { eapply (durable_change s s4 d d1 c e e1); try done; [| |congruence|congruence].
    - intros c' Hc'. split; [by apply R2|]. by rewrite R3.
    - eapply (journaled_append c d d1 e e1 bs); try done; [by apply (du_journal s d Hd)|by rewrite C4| |by rewrite C4|by rewrite R3|].
      + by apply (Hshort c e).
      + unfold counted. by rewrite C1, C2, C3, T1, T2, T3. }
  assert (ks_documents s4 !! c = Some e1) as He4 by (change (ks_documents s3 !! c = Some e1); by rewrite Hdocs3, lookup_insert_eq).
  assert (journal_op now c (ops_since (de_doc e') (frontier (de_doc e))) s1 =
    (if (COMPACTION_OP_THRESHOLD <=? wrap_u64 (de_uncompacted_count e' + 1)) ||
        (COMPACTION_BYTE_THRESHOLD <=? wrap_u64 (de_uncompacted_bytes e' + Z.of_nat (length bs)))
     then compact_document c else m_ret tt) s4) as Hrun.
  { unfold journal_op. rewrite (bind_ok m_get _ _ _ _ eq_refl).
    assert (ks_documents s1 !! c = Some e') as -> by apply lookup_insert_eq.
    rewrite (bind_ok (recompute_live_status c _) _ s1 tt s2 eq_refl).
    rewrite (bind_ok journaling_db _ s2 true s2).
    2:{ unfold journaling_db. rewrite (bind_ok m_get _ _ _ _ eq_refl).
        change (ks_db s2) with (ks_db s). by rewrite (du_db s d Hd). }
    rewrite (bind_ok (m_encode _) _ s2 bs s2) by (unfold m_encode; by rewrite Hbs).
    rewrite (bind_ok _ _ _ _ _ Hcount). rewrite T1.
    rewrite (bind_ok _ _ _ _ _ (on_db_run _ s3 d _ _ (du_db s d Hd) Happ)). done. }
  destruct (_ || _) eqn:Ecmp in Hrun.
  - destruct (compact_run s4 d1 c e1 Hd4 He4) as (s'&d'&e2&Hrun'&Hd'&Hap&Hlive&Hdocs&Hdoc&_&Hr1&Hr2);
      [rewrite C4; apply Hca|].
    exists s', d', e2. rewrite Hrun. split; [done|]. split; [done|]. split.
    + intros c' e0. rewrite Hdocs. intros [[<- <-]|[Hne He0]]%lookup_insert_Some; [by rewrite Hr1|].
      rewrite Hr2, R2 by done. change (ks_documents s3 !! c' = Some e0) in He0. rewrite Hdocs3, lookup_insert_ne in He0 by done.
      by apply (Hshort c' e0).
    + split; [done|]. rewrite Hdocs. split; [change (ks_documents s4) with (ks_documents s3); by rewrite Hdocs3, insert_insert_eq|].
      split; [congruence|]. by rewrite Hlive.
  - exists s4, d1, e1. rewrite Hrun. split; [done|]. split; [done|]. split.
    + intros c' e0 He0. change (ks_documents s3 !! c' = Some e0) in He0. rewrite Hdocs3 in He0.
      apply lookup_insert_Some in He0 as [[<- <-]|[Hne He0]].
      * pose proof (jn_count _ _ _ (du_journal s4 d1 Hd4 c e1 He4)) as Hc. rewrite <- Hc, C2.
        apply orb_false_iff in Ecmp as [Ecmp _]. by apply Z.leb_gt in Ecmp.
      * rewrite R2 by done. by apply (Hshort c' e0).
    + by split_and!.
Qed.

(** *** Runs of the calls *)

Lemma edit_entry_inv {A} c (f : method DocumentEntry BlockStoreError A) s r s' :
  edit_entry c f s = Some (r, s') →
  (ks_documents s !! c = None ∧ r = Err (DocumentNotFound c) ∧ s' = s) ∨
  ∃ e e', ks_documents s !! c = Some e ∧ f e = Some (r, e') ∧ s' = in_doc s c e'.
Proof.
  unfold edit_entry. destruct (ks_documents s !! c) as [e|] eqn:E; [|intros [= <- <-]; by left].
  destruct (f e) as [[r0 e']|] eqn:Ef; [|done]. intros [= <- <-]. right. by exists e, e'.
Qed.

Lemma on_crdt_inv {A} (m : method BlockStore CrdtError A) e r e' :
  on_crdt m e = Some (r, e') →
  ∃ r0 doc, m (de_doc e) = Some (r0, doc) ∧ e' = e <| de_doc := doc |> ∧
    match r0 with Ok a => r = Ok a | Err err => r = Err (Crdt err) end.
Proof.
  unfold on_crdt. destruct (m (de_doc e)) as [[[a|err] doc]|]; [intros [= <- <-]..|done].
  - by exists (Ok a), doc.
  - by exists (Err err), doc.
Qed.

(** Journaling and publishing do not touch the documents. *)
Definition same_docs s s' : Prop := de_doc <$> ks_documents s' = de_doc <$> ks_documents s.
#[export] Instance same_docs_preorder : PreOrder same_docs.
Proof. split; [by intros s|]. intros s1 s2 s3. unfold same_docs. congruence. Qed.

Abbreviation quiet m := (triple same_docs (λ _, True) m (λ _ _, True)).

Lemma quiet_bind {A B} (m : kmethod A) (k : A → kmethod B) : quiet m → (∀ a, quiet (k a)) → quiet (m ≫= k).
Proof. intros Hm Hk. apply (triple_bind _ _ _ (λ _ _, True)); auto. Qed.

Lemma quiet_run {A} (m : kmethod A) :
  (∀ s r s', m s = Some (r, s') → same_docs s s') → quiet m.
Proof. intros Hm s r s' _ Hr. split; [by eapply Hm|by destruct r]. Qed.

Lemma quiet_entry s c e e' : ks_documents s !! c = Some e → de_doc e' = de_doc e → same_docs s (in_doc s c e').
Proof.
  intros He Hd. unfold same_docs, in_doc. cbn. rewrite fmap_insert, Hd. apply insert_id.
  by rewrite lookup_fmap, He.
Qed.

Lemma quiet_on_db {A} (f : KernelDb → option (result DbError A * KernelDb)) : quiet (on_db f).
Proof.
  apply quiet_run. intros s r s'. unfold on_db. destruct (ks_db s) as [d|]; [|by intros [= <- <-]].
  destruct (f d) as [[[a|err] d']|]; [by intros [= <- <-]..|done].
Qed.

Lemma quiet_journaling : quiet journaling_db.
Proof.
  apply quiet_run. intros s r s'. unfold journaling_db, mbind, method_bind, m_bind, m_get.
  destruct (ks_db s); [|destruct (ks_persistent s)]; by intros [= <- <-].
Qed.

Lemma quiet_compact c : quiet (compact_document c).
Proof.
  apply quiet_bind; [apply quiet_journaling|]. intros [|]; [|by apply quiet_run; intros s r s' [= <- <-]].
  apply quiet_bind.
  { apply quiet_run. intros s r s'. unfold read_entry. destruct (ks_documents s !! c); by intros [= <- <-]. }
  intros e. apply quiet_bind.
  { apply quiet_run. intros s r s'. unfold m_encode. destruct (encode _); by intros [= <- <-]. }
  intros bs. apply quiet_bind; [apply quiet_on_db|]. intros _. apply quiet_run. intros s r s' [= <- <-].
  unfold same_docs. cbn. apply map_eq. intros c'. rewrite !lookup_fmap.
  destruct (decide (c = c')) as [<-|Hne]; [|by rewrite lookup_alter_ne].
  rewrite lookup_alter_eq. by destruct (ks_documents s !! c).
Qed.

Lemma quiet_journal now c payload : quiet (journal_op now c payload).
Proof.
  apply quiet_bind; [by apply quiet_run; intros s r s' [= <- <-]|]. intros s0.
  apply quiet_bind; [by apply quiet_run; intros s r s'; destruct (ks_documents s0 !! c); intros [= <- <-]|]. intros _.
  apply quiet_bind; [apply quiet_journaling|]. intros [|]; [|by apply quiet_run; intros s r s' [= <- <-]].
  apply quiet_bind.
  { apply quiet_run. intros s r s'. unfold m_encode. destruct (encode _); by intros [= <- <-]. }
  intros bs. apply quiet_bind.
  { apply quiet_run. intros s r s' [(_&_&->)|(e&e'&He&Hf&->)]%edit_entry_inv; [done|].
    apply (quiet_entry s c e); [done|]. by injection Hf as _ <-. }
  intros [[seq count] len]. apply quiet_bind; [apply quiet_on_db|]. intros _.
  destruct (_ || _); [apply quiet_compact|by apply quiet_run; intros s r s' [= <- <-]].
Qed.

Lemma quiet_emit flow : quiet (emit flow).
Proof.
  apply quiet_run. intros s r s' [= <- <-]. by destruct (ks_block_flows s).
Qed.

Lemma quiet_text_seq c : quiet (next_block_text_seq c).
Proof. apply quiet_run. by intros s r s' [= <- <-]. Qed.

Lemma same_docs_spacious s s' c e :
  same_docs s s' → spacious s' → ks_documents s !! c = Some e → roomy (de_doc e) ∧ clock_room (de_doc e).
Proof.
  intros Hs Hsp He. assert ((de_doc <$> ks_documents s') !! c = Some (de_doc e)) as Hd
    by (rewrite Hs, lookup_fmap, He; done).
  rewrite lookup_fmap in Hd. apply fmap_Some in Hd as (e'&He'&->). by destruct (Hsp c e' He') as (?&?&_).
Qed.

(** The entry after a call that changed no block. *)
Lemma durable_same s d c e e' :
  durable s d → ks_documents s !! c = Some e → touched e e' →
  sound (de_doc e') → bs_context_id (de_doc e') = bs_context_id (de_doc e) →
  bs_blocks (de_doc e') = bs_blocks (de_doc e) → bs_lamport_clock (de_doc e) ≤ bs_lamport_clock (de_doc e') →
  durable (in_doc s c e') d.
Proof.
  intros Hd He (T1&T2&T3&T4&T5) Hs Hctx Hb Hc.
  apply (durable_change s (in_doc s c e') d d c e e'); try done; try by apply Hd.
  apply (journaled_same c d e); try done. by apply (du_journal s d Hd).
Qed.

Lemma short_in_doc s d c e e' :
  short_journals s d → ks_documents s !! c = Some e → short_journals (in_doc s c e') d.
Proof.
  intros Hs He c' e0. unfold in_doc. cbn. intros [[<- <-]|[Hne He0]]%lookup_insert_Some; [by apply (Hs c e)|by apply (Hs c' e0)].
Qed.

(** *** The invariant *)

(** The contexts whose cached status is that of their document. *)
Variable followed : ContextId → Prop.

Definition status_current s : Prop := ∀ c e st, followed c →
  ks_documents s !! c = Some e → ks_live_status s !! c = Some st →
  st = derive_context_live_status (doc_statuses (de_doc e)).

Record kept s d : Prop := {
  ke_durable : durable s d;
  ke_short : short_journals s d;
  ke_status : status_current s;
}.

Lemma kept_ext s s' d :
  ks_db s' = ks_db s → ks_documents s' = ks_documents s → ks_default_workspace_id s' = ks_default_workspace_id s →
  ks_live_status s' = ks_live_status s → kept s d → kept s' d.
Proof.
  intros E1 E2 E3 E4 [Hd Hs Hst]. split; [by apply (durable_ext s)| |].
  - intros c e. rewrite E2. apply Hs.
  - intros c e st Hc. rewrite E2, E4. by apply Hst.
Qed.

Lemma doc_statuses_blocks (doc doc' : BlockStore) : bs_blocks doc' = bs_blocks doc → doc_statuses doc' = doc_statuses doc.
Proof.
  intros Hb. unfold doc_statuses, blocks_ordered, block_ids_ordered, live_iter, blocks_iter, get_block_snapshot, get_live.
  by rewrite Hb.
Qed.

Lemma kept_same s d c e e' :
  kept s d → ks_documents s !! c = Some e → touched e e' →
  sound (de_doc e') → grows (de_doc e) (de_doc e') → bs_blocks (de_doc e') = bs_blocks (de_doc e) →
  bs_lamport_clock (de_doc e) ≤ bs_lamport_clock (de_doc e') → kept (in_doc s c e') d.
Proof.
  intros [Hd Hsh Hst] He Ht Hs Hg Hb Hc. split; [|by eapply short_in_doc|].
  - by apply (durable_same s d c e e'); try done; apply Hg.
  - intros c' e0 st Hfol. unfold in_doc. cbn. intros [[<- <-]|[Hne He0]]%lookup_insert_Some Hl; [|by apply (Hst c' e0)].
    rewrite (doc_statuses_blocks _ _ Hb). by apply (Hst c e).
Qed.

(** What follows the journaling of a call: it publishes. *)
Definition publishes {A} (k : kmethod A) : Prop :=
  quiet k ∧ ∀ s d r s', kept s d → k s = Some (r, s') → kept s' d.

Lemma publishes_ret {A} (a : A) : publishes (m_ret a).
Proof. split; [by apply quiet_run; intros s r s' [= <- <-]|by intros s d r s' Hk [= <- <-]]. Qed.

Lemma publishes_emit flow : publishes (emit flow).
Proof.
  split; [apply quiet_emit|]. intros s d r s' Hk [= <- <-].
  destruct (ks_block_flows s); [by apply (kept_ext s)|done].
Qed.

Lemma publishes_text_seq c : publishes (next_block_text_seq c).
Proof.
  split; [apply quiet_text_seq|]. intros s d r s' Hk [= <- <-]. by apply (kept_ext s).
Qed.

Lemma publishes_bind {A B} (m : kmethod A) (k : A → kmethod B) :
  publishes m → (∀ a, publishes (k a)) → publishes (m ≫= k).
Proof.
  intros [Hm1 Hm2] Hk. split; [apply quiet_bind; [done|apply Hk]|].
  intros s d r s' Hs [(a&s1&H1&H2)|(err&H1&->)]%bind_run; [|by eapply Hm2].
  eapply (proj2 (Hk a)); [|exact H2]. by eapply Hm2.
Qed.

Lemma publishes_metadata c id : publishes (emit_metadata c id).
Proof.
  unfold emit_metadata. apply publishes_bind; [|intros; apply publishes_emit].
  split; [by apply quiet_run; intros s r s' [= <- <-]|by intros s d r s' Hk [= <- <-]].
Qed.

(** The same, when the document of [c] satisfies [P]. *)
Definition publishes_on {A} c (P : BlockStore → Prop) (k : kmethod A) : Prop := ∀ s e r s',
  ks_documents s !! c = Some e → P (de_doc e) → k s = Some (r, s') →
  same_docs s s' ∧ ∀ d, kept s d → kept s' d.

Lemma publishes_anywhere {A} c P (k : kmethod A) : publishes k → publishes_on c P k.
Proof.
  intros [Hq Hk] s e r s' _ _ Hr. split; [by apply (Hq s r s' I)|]. intros d Hd. by eapply Hk.
Qed.

(** A change of a document, its journaling and what is published. *)
Lemma journaled_call {A} s d c e e1 now P (k : kmethod A) r s' :
  kept s d → spacious s → spacious s' → ks_documents s !! c = Some e → touched e e1 →
  sound (de_doc e1) → grows (de_doc e) (de_doc e1) → bs_lamport_clock (de_doc e) ≤ bs_lamport_clock (de_doc e1) →
  publishes_on c P k → P (de_doc e1) →
  (journal_op now c (ops_since (de_doc e1) (frontier (de_doc e)));; k) (in_doc s c e1) = Some (r, s') →
  ∃ d', kept s' d'.
Proof.
  intros [Hd Hsh Hst] Hsp Hsp' He Ht Hs Hg Hc Hk HP Hr.
  assert (same_docs (in_doc s c e1) s') as Hsame.
  { apply bind_run in Hr as [([]&s1&H1&H2)|(err&H1&_)]; [|by apply (quiet_journal _ _ _ _ _ _ I H1)].
    destruct (quiet_journal _ _ _ _ _ _ I H1) as [Hs1 _]. etrans; [exact Hs1|].
    assert ((de_doc <$> ks_documents s1) !! c = Some (de_doc e1)) as Hd1.
    { rewrite Hs1. unfold in_doc. cbn. by rewrite fmap_insert, lookup_insert_eq. }
    rewrite lookup_fmap in Hd1. apply fmap_Some in Hd1 as (e'&He'&Heq). rewrite Heq in HP. by apply (Hk s1 e' r s'). }
  destruct (same_docs_spacious _ _ c e1 Hsame Hsp') as [Hroom Hclock]; [apply lookup_insert_eq|].
  destruct (Hsp c e He) as (_&_&Hseq).
  destruct (journal_run s d c e e1 now Hd Hsh He Ht ltac:(by split) Hseq)
    as (s1&d1&e2&Hrun&Hd1&Hsh1&Hap&Hdocs&Hdoc&Hlive).
  rewrite (bind_ok _ _ _ _ _ Hrun) in Hr. exists d1.
  apply (Hk s1 e2 r s'); [rewrite Hdocs; apply lookup_insert_eq|by rewrite Hdoc|done|]. split; [done|done|].
  intros c' e0 st Hfol. rewrite Hdocs, Hlive.
  intros [[<- <-]|[Hne He0]]%lookup_insert_Some [[? <-]|[Hne' Hl]]%lookup_insert_Some; try done.
  - by rewrite Hdoc.
  - by apply (Hst c' e0).
Qed.

(** *** The calls *)

Lemma set_principal_blocks p (doc : BlockStore) : bs_blocks (set_principal_id p doc) = bs_blocks doc.
Proof. done. Qed.

Lemma grows_author p (doc doc' : BlockStore) : grows (set_principal_id p doc) doc' → grows doc doc'.
Proof. intros [H1 H2]. by split. Qed.

Lemma insert_as_kept s d now c after principal m r s' :
  kept s d → spacious s → spacious s' →
  (∀ e p, ks_documents s !! c = Some e → inserted_at (set_principal_id p (de_doc e)) m) →
  insert_as now c after principal m s = Some (r, s') → ∃ d', kept s' d'.
Proof.
  intros Hk Hsp Hsp' Hm Hr. unfold insert_as in Hr. rewrite (bind_ok m_get _ _ _ _ eq_refl) in Hr.
  set (p := default (ks_principal_id s) principal) in Hr.
  apply bind_run in Hr as [([[[id snap] ops] ops_bytes]&s1&Hr1&Hr)|(err&Hr1&->)].
  all: apply edit_entry_inv in Hr1 as [(Hn&Herr&Hs)|(e&e'&He&Hf&->)]; [try done; subst; by exists d|].
  all: rewrite (bind_ok (m_modify _) _ _ tt _ eq_refl), (bind_ok m_get _ _ _ _ eq_refl) in Hf.
  all: set (e0 := set_field de_doc _ e) in Hf.
  all: destruct (Hsp c e He) as (Hroom&Hcr&_).
  all: pose proof (sound_author p _ (jn_sound _ _ _ (du_journal s d (ke_durable s d Hk) c e He))) as Hs0.
  all: assert (bs_lamport_clock (set_principal_id p (de_doc e)) < u64_max) as Hlt
    by (unfold clock_room, COMPACTION_OP_THRESHOLD in Hcr; cbn; lia).
  - apply bind_run in Hf as [(id1&e1&Hf1&Hf)|(err&_&[=])].
    apply on_crdt_inv in Hf1 as (r0&doc&Hrun&->&Hr0).
    destruct (Hm e p He r0 doc Hs0 Hroom Hlt Hrun) as (Hok&Hctx&Hle&Hres).
    destruct (inserted_journals _ m (Hm e p He) r0 doc Hs0 Hroom Hlt Hrun) as (J1&J2&J3&J4).
    rewrite (bind_ok m_get _ _ _ _ eq_refl) in Hf.
    apply bind_run in Hf as [(snap1&e2&Hf2&Hf)|(err&_&[=])].
    assert (e2 = e0 <| de_doc := doc |>) as -> by (destruct (get_block_snapshot _ _); by injection Hf2 as _ <-).
    apply bind_run in Hf as [(bs&e3&Hf3&Hf)|(err&_&[=])].
    assert (e3 = e0 <| de_doc := doc |>) as -> by (unfold m_encode in Hf3; destruct (encode _); by injection Hf3 as _ <-).
    rewrite (bind_ok (m_modify _) _ _ tt _ eq_refl) in Hf. injection Hf as <- <- <- <- <-.
    apply grows_author in J2.
    eapply (journaled_call s d c e (entry_touch p (e0 <| de_doc := doc |>)) now (λ _, True)); [..|exact Hr]; try done.
    apply publishes_anywhere, publishes_bind; [apply publishes_emit|intros; apply publishes_ret].
  - exists d. apply bind_run in Hf as [(id1&e1&Hf1&Hf)|(err'&Hf1&Herr)].
    + apply on_crdt_inv in Hf1 as (r0&doc&Hrun&->&Hr0).
      destruct (Hm e p He r0 doc Hs0 Hroom Hlt Hrun) as (Hok&Hctx&Hle&Hres).
      destruct r0 as [id0|err0]; [injection Hr0 as ->|done].
      destruct Hres as (b&Hn&Hb&Hdel&Hfit). exfalso.
      rewrite (bind_ok m_get _ _ _ _ eq_refl) in Hf.
      assert (get_block_snapshot doc id0 = Some (block_snapshot b)) as Hsnap.
      { unfold get_block_snapshot. rewrite (proj2 (get_live_Some doc id0 b)); [done|]. split; [|done].
        rewrite Hb. apply lookup_insert_eq. }
      change (de_doc (e0 <| de_doc := doc |>)) with doc in Hf. rewrite Hsnap in Hf.
      rewrite (bind_ok (m_ret _) _ _ _ _ eq_refl) in Hf.
      match type of Hf with context [m_encode ?v] => destruct (encode_total v (payload_total v)) as [bs Hbs] end.
      rewrite (bind_ok (m_encode _) _ _ bs (e0 <| de_doc := doc |>)) in Hf by (unfold m_encode; by rewrite Hbs). done.
    + apply on_crdt_inv in Hf1 as (r0&doc&Hrun&->&Hr0). destruct r0 as [id0|err0]; [done|].
      destruct (inserted_journals _ m (Hm e p He) _ doc Hs0 Hroom Hlt Hrun) as (J1&J2&J3&J4).
      eapply kept_same; try done. by apply grows_author in J2.
Qed.

(** What a document gives an operation to work with. *)
Lemma entry_ready s d c e p :
  kept s d → spacious s → ks_documents s !! c = Some e →
  sound (set_principal_id p (de_doc e)) ∧ roomy (set_principal_id p (de_doc e)) ∧
  bs_lamport_clock (set_principal_id p (de_doc e)) < u64_max.
Proof.
  intros Hk Hsp He. destruct (Hsp c e He) as (Hroom&Hcr&_). split_and!; [|apply Hroom|apply Hroom..|].
  - apply sound_author, (jn_sound _ _ _ (du_journal s d (ke_durable s d Hk) c e He)).
  - unfold clock_room, COMPACTION_OP_THRESHOLD in Hcr. cbn. lia.
Qed.

Lemma author_same (doc : BlockStore) : set_principal_id (bs_principal_id doc) doc = doc.
Proof. by destruct doc. Qed.

Lemma update_with_kept {A} s d now c (m : method BlockStore CrdtError ()) P (k : kmethod A) r s' :
  kept s d → spacious s → spacious s' → journals m → publishes_on c P k →
  (∀ e doc, ks_documents s !! c = Some e → m (de_doc e) = Some (Ok tt, doc) → P doc) →
  (update_with now c m;; k) s = Some (r, s') → ∃ d', kept s' d'.
Proof.
  intros Hk Hsp Hsp' Hm Hpub HP Hr.
  assert ((∃ err, update_with now c m s = Some (Err err, s') ∧ r = Err err) ∨
    ∃ s1, update_with now c m s = Some (Ok tt, s1) ∧ k s1 = Some (r, s')) as Hcase.
  { apply bind_run in Hr as [([]&s1&H1&H2)|(err&H1&->)]; [right; by exists s1|left; by exists err]. }
  unfold update_with in Hcase. rewrite (bind_ok m_get _ _ _ _ eq_refl) in Hcase.
  set (p := ks_principal_id s) in Hcase.
  assert (∀ r1 s1, edit_entry c
      (e ← m_get;
       let frontier_before := frontier (de_doc e) in
       on_crdt m;; m_modify (entry_touch p);; e ← m_get; m_ret (ops_since (de_doc e) frontier_before)) s = Some (r1, s1) →
    (∃ err, r1 = Err err ∧ kept s1 d) ∨
    ∃ e e1, ks_documents s !! c = Some e ∧ s1 = in_doc s c e1 ∧ touched e e1 ∧ sound (de_doc e1) ∧ grows (de_doc e) (de_doc e1) ∧
      bs_lamport_clock (de_doc e) ≤ bs_lamport_clock (de_doc e1) ∧ P (de_doc e1) ∧
      r1 = Ok (ops_since (de_doc e1) (frontier (de_doc e)))) as Hedit.
  { intros r1 s1 [(Hn&->&->)|(e&e'&He&Hf&->)]%edit_entry_inv; [left; by eexists|].
    destruct (entry_ready s d c e (bs_principal_id (de_doc e)) Hk Hsp He) as (Hs0&Hroom&Hlt).
    rewrite author_same in Hs0, Hroom, Hlt.
    rewrite (bind_ok m_get _ _ _ _ eq_refl) in Hf.
    apply bind_run in Hf as [([]&e1&Hf1&Hf)|(err&Hf1&->)];
      apply on_crdt_inv in Hf1 as (r0&doc&Hrun&->&Hr0);
      destruct (Hm (de_doc e) r0 doc Hs0 Hroom Hlt Hrun) as (J1&J2&J3&J4).
    - right. rewrite (bind_ok (m_modify _) _ _ tt _ eq_refl), (bind_ok m_get _ _ _ _ eq_refl) in Hf.
      injection Hf as <- <-. exists e, (entry_touch p (e <| de_doc := doc |>)). split_and!; try done.
      apply (HP e doc He). destruct r0; [by injection Hr0 as <-|done].
    - left. exists err. split; [done|]. destruct r0; [done|].
      apply (kept_same s d c e); try done. }
  destruct Hcase as [(err&Hu&->)|(s1&Hu&Hr1)].
  - apply bind_run in Hu as [(ops&s2&H1&H2)|(err'&H1&[= <-])].
    + apply Hedit in H1 as [(err'&[=]&_)|(e&e1&He&->&Ht&J1&J2&J3&J4&[= ->])].
      eapply (journaled_call s d c e e1 now P (m_ret tt)); try done; [apply publishes_anywhere, publishes_ret|].
      by rewrite (bind_err _ _ _ _ _ H2).
    + apply Hedit in H1 as [(err'&[= <-]&Hkept)|(e&e1&_&_&_&_&_&_&_&[=])]. by exists d.
  - apply bind_run in Hu as [(ops&s2&H1&H2)|(err'&_&[=])].
    apply Hedit in H1 as [(err'&[=]&_)|(e&e1&He&->&Ht&J1&J2&J3&J4&[= ->])].
    eapply (journaled_call s d c e e1 now P k); try done. by rewrite (bind_ok _ _ _ _ _ H2).
Qed.

Lemma text_with_kept s d now c id principal m r s' :
  kept s d → spacious s → spacious s' → journals m →
  text_with now c id principal m s = Some (r, s') → ∃ d', kept s' d'.
Proof.
  intros Hk Hsp Hsp' Hm Hr. unfold text_with in Hr. rewrite (bind_ok m_get _ _ _ _ eq_refl) in Hr.
  set (p := default (ks_principal_id s) principal) in Hr.
  apply bind_run in Hr as [([ops ops_bytes]&s1&Hr1&Hr)|(err&Hr1&->)].
  all: apply edit_entry_inv in Hr1 as [(Hn&Herr&Hs)|(e&e'&He&Hf&->)]; [try done; subst; by exists d|].
  all: rewrite (bind_ok (m_modify _) _ _ tt _ eq_refl), (bind_ok m_get _ _ _ _ eq_refl) in Hf.
  all: set (e0 := set_field de_doc _ e) in Hf.
  all: destruct (entry_ready s d c e p Hk Hsp He) as (Hs0&Hroom&Hlt).
  - apply bind_run in Hf as [([]&e1&Hf1&Hf)|(err&_&[=])].
    apply on_crdt_inv in Hf1 as (r0&doc&Hrun&->&Hr0).
    destruct (Hm _ r0 doc Hs0 Hroom Hlt Hrun) as (J1&J2%grows_author&J3&J4).
    rewrite (bind_ok (m_modify _) _ _ tt _ eq_refl), (bind_ok m_get _ _ _ _ eq_refl) in Hf.
    apply bind_run in Hf as [(bs&e3&Hf3&Hf)|(err&_&[=])].
    assert (e3 = entry_touch p (e0 <| de_doc := doc |>)) as ->
      by (unfold m_encode in Hf3; destruct (encode _); by injection Hf3 as _ <-).
    injection Hf as <- <- <-.
    eapply (journaled_call s d c e (entry_touch p (e0 <| de_doc := doc |>)) now (λ _, True)); [..|exact Hr]; try done.
    apply publishes_anywhere, publishes_bind; [apply publishes_text_seq|intros; apply publishes_emit].
  - exists d. apply bind_run in Hf as [([]&e1&Hf1&Hf)|(err'&Hf1&Herr)].
    + exfalso. rewrite (bind_ok (m_modify _) _ _ tt _ eq_refl), (bind_ok m_get _ _ _ _ eq_refl) in Hf.
      match type of Hf with context [m_encode ?v] => destruct (encode_total v (payload_total v)) as [bs Hbs] end.
      rewrite (bind_ok (m_encode _) _ _ bs (entry_touch p e1)) in Hf by (unfold m_encode; by rewrite Hbs). done.
    + apply on_crdt_inv in Hf1 as (r0&doc&Hrun&->&Hr0). destruct r0 as [id0|err0]; [done|].
      destruct (Hm _ _ doc Hs0 Hroom Hlt Hrun) as (J1&J2%grows_author&J3&J4).
      by apply (kept_same s d c e).
Qed.

Lemma reserve_kept s d c p r s' :
  kept s d → spacious s → kernel_reserve_block_id c p s = Some (r, s') → kept s' d.
Proof.
  intros Hk Hsp [(_&_&->)|(e&e'&He&Hf&->)]%edit_entry_inv; [done|].
  destruct (entry_ready s d c e (bs_principal_id (de_doc e)) Hk Hsp He) as (Hs0&Hroom&Hlt).
  rewrite author_same in Hs0, Hroom, Hlt. apply on_crdt_inv in Hf as (r0&doc&Hrun&->&_).
  destruct (journals_reserve p (de_doc e) r0 doc Hs0 Hroom Hlt Hrun) as (J1&J2&J3&_).
  apply (kept_same s d c e); try done. by injection Hrun as _ <-.
Qed.

(** Publishing first: the events and the sequence numbers of texts change. *)
Definition loud s s' : Prop :=
  s' = s <| ks_block_flows := ks_block_flows s' |> <| ks_block_text_seqs := ks_block_text_seqs s' |>.
#[export] Instance loud_preorder : PreOrder loud.
Proof.
  split; [by intros []|]. intros s1 s2 s3 H12 H23. unfold loud in *. rewrite H23. rewrite H12. done.
Qed.

Abbreviation speaks m := (triple loud (λ _, True) m (λ _ _, True)).

Lemma speaks_run {A} (m : kmethod A) : (∀ s r s', m s = Some (r, s') → loud s s') → speaks m.
Proof. intros Hm s r s' _ Hr. split; [by eapply Hm|by destruct r]. Qed.

Lemma speaks_bind {A B} (m : kmethod A) (k : A → kmethod B) : speaks m → (∀ a, speaks (k a)) → speaks (m ≫= k).
Proof. intros Hm Hk. apply (triple_bind _ _ _ (λ _ _, True)); auto. Qed.

Lemma speaks_ret {A} (a : A) : speaks (m_ret a : kmethod A).
Proof. apply speaks_run. by intros [] r s' [= <- <-]. Qed.

Lemma speaks_emit_all flows : speaks (emit_all flows).
Proof.
  induction flows as [|f flows IH]; [apply speaks_ret|]. apply speaks_bind; [|by intros _].
  apply speaks_run. intros [] r s' [= <- <-]. unfold loud. cbn. by destruct ks_block_flows.
Qed.

Lemma speaks_diff c before after ops : speaks (diff_block_events c before after ops).
Proof.
  apply speaks_bind; [|intros; apply speaks_ret]. induction after as [|snap after IH]; [apply speaks_ret|].
  apply speaks_bind; [|intros; apply speaks_bind; [done|intros; apply speaks_ret]].
  destruct (snapshot_of _ _) as [old|]; [|apply speaks_ret].
  apply speaks_bind; [|intros; apply speaks_ret]. case_bool_decide; [apply speaks_ret|].
  apply speaks_bind; [|intros; apply speaks_ret]. apply speaks_run. by intros [] r s' [= <- <-].
Qed.

Lemma merge_ops_kept s d now c payload v s' :
  kept s d → spacious s → spacious s' →
  (∀ e, ks_documents s !! c = Some e → payload_fits (de_doc e) payload) →
  (∀ e id b, ks_documents s' !! c = Some e → get_live (de_doc e) id = Some b → get_text (b_doc b) ≠ None) →
  kernel_merge_ops now c payload s = Some (Ok v, s') → ∃ d', kept s' d'.
Proof.
  intros Hk Hsp Hsp' Hfits Htext Hr.
  apply bind_run in Hr as [([[[[version before] after] ops] ops_bytes]&s1&Hr1&Hr)|(err&_&[=])].
  apply edit_entry_inv in Hr1 as [(_&[=]&_)|(e&e1&He&Hf&->)].
  rewrite (bind_ok m_get _ _ _ _ eq_refl) in Hf.
  apply bind_run in Hf as [([]&e2&Hf2&Hf)|(err&_&[=])].
  apply on_crdt_inv in Hf2 as (r0&doc&Hrun&->&Hr0). destruct r0 as [[]|err0]; [|done].
  rewrite (bind_ok m_get _ _ _ _ eq_refl), (bind_ok (m_modify _) _ _ tt _ eq_refl) in Hf.
  apply bind_run in Hf as [(bs&e3&Hf3&Hf)|(err&_&[=])].
  assert (e3 = e <| de_doc := doc |> <| de_version := bs_version doc |>) as ->
    by (unfold m_encode in Hf3; destruct (encode _); by injection Hf3 as _ <-).
  injection Hf as <- <- <- <- <- <-.
  set (e1 := e <| de_doc := doc |> <| de_version := bs_version doc |>) in *.
  apply bind_run in Hr as [(events&s2&Hr2&Hr)|(err&_&[=])].
  apply bind_run in Hr as [([]&s3&Hr3&Hr)|(err&_&[=])].
  destruct (speaks_diff _ _ _ _ _ _ _ I Hr2) as [L2 _], (speaks_emit_all _ _ _ _ I Hr3) as [L3 _].
  pose proof (transitivity L2 L3) as L. unfold loud in L.
  set (s0 := s <| ks_block_flows := ks_block_flows s3 |> <| ks_block_text_seqs := ks_block_text_seqs s3 |>).
  assert (s3 = in_doc s0 c e1) as E3 by exact L.
  assert (same_docs s3 s') as Hsame.
  { eapply (quiet_bind _ (λ _, m_ret (bs_version doc))); [apply quiet_journal| |done|exact Hr].
    intros _. apply publishes_ret. }
  destruct (merge_grows (de_doc e) payload doc) as (G1&G2&G3); [|by apply Hfits|done| |].
  { apply (jn_sound _ _ _ (du_journal s d (ke_durable s d Hk) c e He)). }
  { intros id b Hb. assert ((de_doc <$> ks_documents s') !! c = Some doc) as Hd.
    { rewrite Hsame, E3. unfold in_doc. cbn. by rewrite fmap_insert, lookup_insert_eq. }
    rewrite lookup_fmap in Hd. apply fmap_Some in Hd as (e'&He'&->). by apply (Htext e' id b). }
  rewrite E3 in Hr.
  eapply (journaled_call s0 d c e e1 now (λ _, True) (m_ret (bs_version doc)));
    [by apply (kept_ext s)|done..|apply publishes_anywhere, publishes_ret|done|exact Hr].
Qed.

(** *** Documents come and go *)

Lemma conflicts_fresh c (row : DocumentRow) d :
  row_document_id row = c → (∀ row', row' ∈ db_documents d → is_Some (row_path row) → row_path row' ≠ row_path row) →
  c ∉ row_document_id <$> db_documents d →
  existsb (conflicts row) (db_documents d) = false.
Proof.
  intros Hid Hpath Hc. apply not_true_is_false. intros (row'&Hin%list_elem_of_In&Hcon)%existsb_exists.
  unfold conflicts in Hcon. apply orb_true_iff in Hcon as [Hcon%bool_decide_eq_true|Hcon].
  - apply Hc. rewrite <- Hid, Hcon. by apply list_elem_of_fmap_2.
  - specialize (Hpath row' Hin). destruct (row_path row) as [path|]; [|done].
    apply andb_true_iff in Hcon as [Hcon%bool_decide_eq_true _]. by apply Hpath.
Qed.

Lemma new_statuses c p : doc_statuses (store_new c p) = [].
Proof.
  unfold doc_statuses, blocks_ordered, block_ids_ordered, live_iter, blocks_iter. cbn [store_new bs_blocks].
  by rewrite map_to_list_empty.
Qed.

(** A new document does not take the path of another. *)
Definition path_free (path : option string) s : Prop :=
  ∀ d row, ks_db s = Some d → row ∈ db_documents d → is_Some path → row_path row ≠ path.

Lemma create_kept s d now c kind language path r s' :
  kept s d → path_free path s →
  (followed c → ks_documents s !! c = None → is_Some (ks_documents s' !! c) →
    ∀ st, ks_live_status s !! c = Some st → st = SPending) →
  create_document_with now c kind language path s = Some (r, s') → ∃ d', kept s' d'.
Proof.
  intros [Hd Hsh Hst] Hpath Hlive Hr. unfold create_document_with, vacant in Hr.
  destruct (ks_documents s !! c) as [e|] eqn:Ec.
  { exists d. unfold mbind, method_bind, m_bind, m_get, m_guard in Hr. rewrite Ec, bool_decide_false in Hr by done.
    injection Hr as _ <-. by split. }
  rewrite (bind_ok _ _ s tt s) in Hr.
  2:{ rewrite (bind_ok m_get _ _ _ _ eq_refl). by rewrite Ec, bool_decide_true. }
  rewrite (bind_ok m_get _ _ _ _ eq_refl), (du_db s d Hd) in Hr.
  assert (c ∉ row_document_id <$> db_documents d) as Hnew by (rewrite <- (du_resident s d Hd), Ec; by intros [? [=]]).
  set (row := row_for now c kind language path s) in Hr.
  set (d' := d <| db_documents := db_documents d ++ [row] |>).
  assert (insert_document row d = Some (Ok tt, d')) as Hins.
  { unfold insert_document. rewrite (bind_ok _ _ _ _ _ (statement_calm d (du_calm s d Hd))), (bind_ok m_get _ _ _ _ eq_refl).
    rewrite (conflicts_fresh c row d) by (try done; intros row' Hin Hp; by apply (Hpath d row' (du_db s d Hd))).
    rewrite bool_decide_true by apply (du_workspace s d Hd). done. }
  set (s1 := s <| ks_db := Some d' |>).
  rewrite (bind_ok _ _ s tt s1) in Hr.
  2:{ rewrite (bind_ok (m_try (on_db (insert_document row))) _ s (Ok tt) s1); [done|].
      unfold m_try. by rewrite (on_db_run _ _ _ _ _ (du_db s d Hd) Hins). }
  injection Hr as _ <-. exists d'. destruct Hd as [D1 D2 D3 D4 D5 D6 D7 D8]. split; [split|..]; cbn; try done.
  - rewrite fmap_app. apply NoDup_app. split; [done|]. split; [|apply NoDup_singleton].
    intros c' Hc' Hin. apply list_elem_of_singleton in Hin. by subst.
  - intros c'. rewrite fmap_app, elem_of_app, <- D5. cbn. rewrite list_elem_of_singleton.
    destruct (decide (c = c')) as [<-|Hne].
    + rewrite lookup_insert_eq. split; intros; eauto.
    + rewrite lookup_insert_ne by done. split; [by left|intros [?|?]; [done|congruence]].
  - intros c'. rewrite fmap_app, elem_of_app. intros Hc'. apply (D6 c'). tauto.
  - intros c' e [[<- <-]|[Hne He]]%lookup_insert_Some.
    + destruct (D6 c Hnew) as [E1 E2]. by apply journaled_new.
    + apply (journaled_ext c' d); [done|done|auto].
  - intros row' e [Hin| ->%list_elem_of_singleton]%elem_of_app.
    + intros [[Hid _]|[_ He]]%lookup_insert_Some; [|by apply D8]. destruct Hnew. rewrite Hid. by apply list_elem_of_fmap_2.
    + intros [[_ <-]|[[] _]]%lookup_insert_Some; done.
  - intros c' e He. cbn in He. apply lookup_insert_Some in He as [[<- <-]|[Hne He]].
    + change (rows_of c d') with (rows_of c d). destruct (D6 c Hnew) as [-> _]. done.
    + by apply (Hsh c' e).
  - intros c' e st Hfol He Hl. cbn in He, Hl. apply lookup_insert_Some in He as [[<- <-]|[Hne He]].
    + cbn. rewrite new_statuses. apply Hlive; try done. cbn. rewrite lookup_insert_eq. by eexists.
    + by apply (Hst c' e).
Qed.

Lemma delete_kept s d c r s' :
  kept s d → delete_document c s = Some (r, s') → ∃ d', kept s' d'.
Proof.
  intros [Hd Hsh Hst] Hr. unfold delete_document in Hr. rewrite (bind_ok m_get _ _ _ _ eq_refl), (du_db s d Hd) in Hr.
  unfold db_delete_document in Hr.
  match type of Hr with context [statement ≫= λ _, m_modify ?f] => set (g := f) in Hr end.
  rewrite (bind_ok _ _ _ _ _ (on_db_run _ s d tt (g d) (du_db s d Hd) (bind_ok _ _ _ _ _ (statement_calm d (du_calm s d Hd))))) in Hr.
  injection Hr as _ <-. exists (g d). destruct Hd as [D1 D2 D3 D4 D5 D6 D7 D8].
  assert (∀ c', c' ≠ c → rows_of c' (g d) = rows_of c' d) as Hrows.
  { intros c' Hc'. unfold rows_of, g. cbn. f_equal. rewrite list_filter_filter. apply list_filter_iff.
    intros [[c0 n] bs]. cbn. naive_solver. }
  assert (∀ c', c' ≠ c → db_snapshots (g d) !! c' = db_snapshots d !! c') as Hsnaps
    by (intros; unfold g; cbn; by rewrite lookup_delete_ne).
  assert (∀ c', c' ∈ row_document_id <$> db_documents (g d) ↔ c' ≠ c ∧ c' ∈ row_document_id <$> db_documents d) as Hids.
  { intros c'. unfold g. cbn. rewrite !list_elem_of_fmap. setoid_rewrite list_elem_of_filter. split.
    - intros (row&->&Hne&Hin). split; [done|by exists row].
    - intros (Hne&row&->&Hin). by exists row. }
  split; [split|..]; cbn -[g]; try done.
  - eapply sublist_NoDup; [exact D4|]. apply fmap_sublist, sublist_filter.
  - intros c'. rewrite Hids, <- D5. destruct (decide (c = c')) as [<-|Hne].
    + rewrite lookup_delete_eq. split; [by intros [? [=]]|naive_solver].
    + rewrite lookup_delete_ne by done. naive_solver.
  - intros c' Hc'. destruct (decide (c' = c)) as [->|Hne].
    + split; [|unfold g; cbn; by rewrite lookup_delete_eq].
      apply elem_of_nil_inv. intros [n bs] Hin. apply elem_of_rows in Hin. unfold g in Hin. cbn in Hin.
      by apply list_elem_of_filter in Hin as [? _].
    + rewrite Hrows, Hsnaps by done. apply D6. rewrite Hids in Hc'. tauto.
  - intros c' e [Hne He]%lookup_delete_Some. apply (journaled_ext c' d); auto.
  - intros row e Hrow [Hne He]%lookup_delete_Some. apply D8; [|done]. unfold g in Hrow. cbn in Hrow.
    by apply list_elem_of_filter in Hrow as [_ ?].
  - intros c' e He. cbn in He. apply lookup_delete_Some in He as [Hne He].
    rewrite Hrows by done. by apply (Hsh c' e).
  - intros c' e st Hfol He. cbn in He. apply lookup_delete_Some in He as [Hne He]. by apply (Hst c' e).
Qed.

Lemma compact_kept s d c r s' :
  kept s d → spacious s → compact_document c s = Some (r, s') → ∃ d', kept s' d'.
Proof.
  intros [Hd Hsh Hst] Hsp Hr. destruct (ks_documents s !! c) as [e|] eqn:He.
  - destruct (compact_run s d c e Hd He) as (s1&d'&e'&Hrun&Hd'&Hap&Hlive&Hdocs&Hdoc&_&R1&R2); [by apply (Hsp c e)|].
    rewrite Hrun in Hr. injection Hr as _ <-. exists d'. split; [done|..].
    + intros c' e0. rewrite Hdocs. intros [[<- <-]|[Hne He0]]%lookup_insert_Some; [by rewrite R1|].
      rewrite R2 by done. by apply (Hsh c' e0).
    + intros c' e0 st Hfol. rewrite Hdocs, Hlive. intros [[<- <-]|[Hne He0]]%lookup_insert_Some Hl.
      * rewrite Hdoc. by apply (Hst c e).
      * by apply (Hst c' e0).
  - exists d. unfold compact_document in Hr. rewrite (bind_ok _ _ _ _ _ (journaling_run s d Hd)) in Hr.
    assert (read_entry c s = Some (Err (DocumentNotFound c), s)) as Hread by (unfold read_entry; by rewrite He).
    rewrite (bind_err _ _ _ _ _ Hread) in Hr. injection Hr as _ <-. by split.
Qed.

Lemma load_one_kept s d now c r s' :
  kept s d → load_one_from_db now c s = Some (r, s') → s' = s.
Proof.
  intros [Hd Hsh Hst] Hr. unfold load_one_from_db in Hr.
  rewrite (bind_ok m_get _ _ _ _ eq_refl), (du_db s d Hd) in Hr.
  case_bool_decide as Hc; [by injection Hr as _ <-|].
  assert (get_document c d = Some (Ok None, d)) as Hget.
  { unfold get_document. rewrite (bind_ok _ _ _ _ _ (statement_calm d (du_calm s d Hd))), (bind_ok m_get _ _ _ _ eq_refl).
    enough (filter (λ r, row_document_id r = c) (db_documents d) = []) as -> by done.
    apply elem_of_nil_inv. intros row [Hid Hrow]%list_elem_of_filter. apply Hc, (du_resident s d Hd).
    rewrite <- Hid. by apply list_elem_of_fmap_2. }
  rewrite (bind_ok _ _ _ _ _ (on_db_run _ s d _ _ (du_db s d Hd) Hget)) in Hr. injection Hr as _ <-.
  pose proof (du_db s d Hd) as Hdb. destruct s. cbn in *. by subst.
Qed.

(** *** The kernel starts again *)

Lemma load_documents_run now p d rows (Φ : DocumentRow → DocumentEntry → Prop) s :
  ks_db s = Some d → NoDup (row_document_id <$> rows) →
  (∀ row, row ∈ rows → ∃ e, load_document now p row d = Some (Ok (Some e), d) ∧ Φ row e) →
  ∃ docs, load_documents now p rows s = Some (Ok tt, s <| ks_documents := docs |>) ∧
    (∀ row, row ∈ rows → ∃ e, docs !! row_document_id row = Some e ∧ Φ row e) ∧
    (∀ c, c ∉ row_document_id <$> rows → docs !! c = ks_documents s !! c).
Proof.
  revert s. induction rows as [|row rows IH]; intros s Hdb Hnd Hload.
  { exists (ks_documents s). split; [by destruct s|]. split; [by intros row ?%elem_of_nil|done]. }
  rewrite fmap_cons in Hnd. apply NoDup_cons in Hnd as [Hn Hnd].
  destruct (Hload row) as (e&He&HΦ); [set_solver|].
  set (s1 := s <| ks_documents := <[row_document_id row := e]> (ks_documents s) |>).
  destruct (IH s1) as (docs&Hrun&Hin&Hout); [done|done|intros; apply Hload; set_solver|].
  exists docs. split; [|split].
  - cbn [load_documents]. rewrite (bind_ok _ _ _ _ _ (on_db_run _ s d _ d Hdb He)).
    replace (s <| ks_db := Some d |>) with s by (destruct s; cbn in *; by subst).
    by rewrite (bind_ok (put_entry _ e) _ s tt s1 eq_refl), Hrun.
  - intros row' [->|Hrow']%elem_of_cons; [|by apply Hin].
    exists e. split; [|done]. rewrite Hout by done. apply lookup_insert_eq.
  - intros c [Hne Hc]%not_elem_of_cons. rewrite Hout by done. apply lookup_insert_ne. congruence.
Qed.

(** A kernel that starts on the database of another has its documents. *)
Definition recovers s s' : Prop := ∀ c,
  match ks_documents s !! c, ks_documents s' !! c with
  | Some e, Some e' =>
      blocks_ordered (de_doc e') = blocks_ordered (de_doc e) ∧ de_kind e' = de_kind e ∧ de_language e' = de_language e ∧
      de_next_journal_seq e' = de_next_journal_seq e ∧ de_uncompacted_count e' = de_uncompacted_count e ∧
      de_uncompacted_bytes e' = de_uncompacted_bytes e
  | None, None => True
  | _, _ => False
  end.

Lemma restart_kept s d now p ws :
  kept s d → ws ∈ db_workspaces d →
  ∃ s', load_from_db now (with_db d ws p) = Some (Ok tt, s') ∧ kept s' d ∧ recovers s s'.
Proof.
  intros [Hd Hsh Hst] Hws. pose proof Hd as [D1 D2 D3 D4 D5 D6 D7 D8].
  set (Φ := λ row e', ∃ e, ks_documents s !! row_document_id row = Some e ∧
    loads (row_document_id row) d e (row_doc_kind row) (row_language row) e').
  destruct (load_documents_run now p d (merge_sort created_le (db_documents d)) Φ (with_db d ws p)) as (docs&Hrun&Hin&Hout).
  - done.
  - by rewrite merge_sort_Permutation.
  - intros row Hrow. rewrite merge_sort_Permutation in Hrow.
    destruct (proj2 (D5 (row_document_id row))) as [e He]; [by apply list_elem_of_fmap_2|].
    destruct (load_run now p _ d e row (D7 _ e He) D2 eq_refl) as (e'&He'&Hl). exists e'. split; [done|by exists e].
  - exists ((with_db d ws p) <| ks_documents := docs |>).
    assert (∀ c e', docs !! c = Some e' → ∃ row e, row ∈ db_documents d ∧ c = row_document_id row ∧
      ks_documents s !! c = Some e ∧ loads c d e (row_doc_kind row) (row_language row) e') as Hback.
    { intros c e' He'. destruct (decide (c ∈ row_document_id <$> db_documents d)) as [Hc|Hc].
      - apply list_elem_of_fmap in Hc as (row&->&Hrow). destruct (Hin row) as (e2&He2&e&He&Hl).
        { by rewrite merge_sort_Permutation. }
        rewrite He' in He2. injection He2 as <-. by exists row, e.
      - rewrite Hout in He' by (by rewrite merge_sort_Permutation). cbn in He'. by rewrite lookup_empty in He'. }
    split; [|split].
    + unfold load_from_db. rewrite (bind_ok m_get _ _ _ _ eq_refl). cbn [ks_db with_db].
      rewrite (bind_ok _ _ (with_db d ws p) (merge_sort created_le (db_documents d)) (with_db d ws p)); [exact Hrun|].
      rewrite (on_db_run _ (with_db d ws p) d (merge_sort created_le (db_documents d)) d eq_refl); [done|].
      unfold list_documents. by rewrite (bind_ok _ _ _ _ _ (statement_calm d D2)).
    + split; [split|..]; cbn; try done.
      * intros c. split.
        -- intros [e' (row&e&Hrow&->&_)%Hback]. by apply list_elem_of_fmap_2.
        -- intros (row&->&Hrow)%list_elem_of_fmap. destruct (Hin row) as (e'&He'&_); [by rewrite merge_sort_Permutation|].
           by exists e'.
      * intros c e' (row&e&Hrow&->&He&Hl)%Hback. apply Hl.
      * intros row e' Hrow He'. destruct (Hin row) as (e2&He2&e&He&Hl); [by rewrite merge_sort_Permutation|].
        rewrite He' in He2. injection He2 as <-. by destruct Hl as (_&?&?&_).
      * intros c e' He'. cbn in He'. apply Hback in He' as (row&e&Hrow&->&He&Hl). by apply (Hsh _ e).
    + intros c. cbn. destruct (docs !! c) as [e'|] eqn:He'.
      * apply Hback in He' as (row&e&Hrow&->&He&(L1&L2&L3&L4&L5&L6&_)). rewrite He.
        destruct (D8 row e Hrow He) as [-> ->]. by split_and!.
      * destruct (ks_documents s !! c) as [e|] eqn:He; [|done].
        assert (c ∈ row_document_id <$> db_documents d) as (row&->&Hrow)%list_elem_of_fmap by (apply D5; by exists e).
        destruct (Hin row) as (e'&He2&_); [by rewrite merge_sort_Permutation|]. congruence.
Qed.
End kernel.
