(* ===== verification/Restart.v ===== *)
(** * A kernel that starts again

    The calls of the kernel's block store that its journal carries, as steps. After any
    history of them, over a database that does not fail, a load from the database gives
    every document back. Not among the steps, since the journal loses what they change: the
    calls whose change no payload carries ([move_block], [set_output], [set_stderr],
    [set_signature], [set_tool_use_id]), the forks (a fork counts its time from zero, below
    the timestamps it inherits, so that its later changes lose against these) and the
    documents made of a snapshot (which have no row). The counterexamples are in
    RestartDemo. Nor a merge that fails half-way, a path that another document has, and the
    validation of ABC and SVG content when it is done. *)

From S2P Require Import Prelude MethodLogic Text Tick Ids Track Cas Cell Concrete Block OrderKey Hydrate BlockContent Selection BlockStore StoreInv StoreOps StoreOrder StoreDoc StoreRestore Sync Convergence Replica StoreGrowth KernelStore Recovery.

Section restart.
Context {json : JsonLib} {blib : BlockLib} {dte : Dte} {laws : DteLaws} {replicas : DteReplicas} {uuids : UuidCrate}.
Context {snap_cbor : Cbor StoreSnapshot} {payload_cbor : Cbor SyncPayload} {parsers : ContentParsers}.
Context {snap_laws : CborLaws StoreSnapshot} {payload_laws : CborLaws SyncPayload}.
Implicit Types (d : KernelDb) (e : DocumentEntry) (c : ContextId) (s : KernelBlockStore).
Abbreviation kmethod := (method KernelBlockStore BlockStoreError).

(** ** Steps *)

(** The calls that insert a block of the kernel's own making. *)
Inductive insert_call c : kmethod BlockId → Prop :=
  | call_block now parent after r k content st ct principal :
      insert_call c (insert_block_as now c parent after r k content st ct principal)
  | call_tool_call now parent after name input tk principal tool_use_id r :
      insert_call c (insert_tool_call_as now c parent after name input tk principal tool_use_id r)
  | call_tool_result now call after content is_error code tk principal tool_use_id :
      insert_call c (insert_tool_result_as now c call after content is_error code tk principal tool_use_id)
  | call_drift now parent after content source model dk principal :
      insert_call c (insert_drift_block_as now c parent after content source model dk principal)
  | call_notification now parent payload summary principal :
      insert_call c (insert_notification_block_as now c parent payload summary principal)
  | call_resource now parent payload summary principal :
      insert_call c (insert_resource_block_as now c parent payload summary principal)
  | call_error now parent payload summary principal :
      insert_call c (insert_error_block_as now c parent payload summary principal).

(** The calls that change a block in a way that a payload carries. *)
Inductive update_call c : kmethod () → Prop :=
  | call_ephemeral now id v : update_call c (kernel_set_ephemeral now c id v)
  | call_excluded now id v : update_call c (kernel_set_excluded now c id v)
  | call_compacted now id v : update_call c (kernel_set_compacted now c id v)
  | call_content_type now id v : update_call c (kernel_set_content_type now c id v)
  | call_exit_code now id v : update_call c (kernel_set_exit_code now c id v)
  | call_collapsed now id v : update_call c (kernel_set_collapsed now c id v)
  | call_delete now id : update_call c (kernel_delete_block now c id)
  | call_edit now id pos ins del principal : update_call c (edit_text_as now c id pos ins del principal)
  | call_append now id text principal : update_call c (append_text_as now c id text principal).

(** The block has no content that is validated when it is done. *)
Definition unvalidated (id : BlockId) (doc : BlockStore) : Prop :=
  ∀ sn, get_block_snapshot doc id = Some sn → sn_content_type sn ≠ Abc ∧ sn_content_type sn ≠ Svg.

Definition all_texts (doc : BlockStore) : Prop :=
  ∀ id b, get_live doc id = Some b → get_text (b_doc b) ≠ None.

Inductive kstep s : KernelBlockStore → Prop :=
  | step_insert c m r s' : insert_call c m → m s = Some (r, s') → kstep s s'
  | step_snapshot now c snap after principal r s' :
      (∀ e, ks_documents s !! c = Some e → current (bs_lamport_clock (de_doc e)) snap) →
      insert_from_snapshot_as now c snap after principal s = Some (r, s') → kstep s s'
  | step_update c m r s' : update_call c m → m s = Some (r, s') → kstep s s'
  | step_status now c id v r s' :
      (v = SDone → ∀ e, ks_documents s !! c = Some e → unvalidated id (de_doc e)) →
      kernel_set_status now c id v s = Some (r, s') → kstep s s'
  | step_merge now c payload version s' :
      (∀ e, ks_documents s !! c = Some e → payload_fits (de_doc e) payload) →
      kernel_merge_ops now c payload s = Some (Ok version, s') →
      (∀ e, ks_documents s' !! c = Some e → all_texts (de_doc e)) → kstep s s'
  | step_reserve c p r s' : kernel_reserve_block_id c p s = Some (r, s') → kstep s s'
  | step_create now c kind language path r s' : path_free path s →
      create_document_with now c kind language path s = Some (r, s') → kstep s s'
  | step_load_one now c r s' : load_one_from_db now c s = Some (r, s') → kstep s s'
  | step_delete c r s' : delete_document c s = Some (r, s') → kstep s s'
  | step_compact c r s' : compact_document c s = Some (r, s') → kstep s s'
  | step_status_read c r s' : live_status c s = Some (r, s') → kstep s s'
  | step_restart now p d ws r s' :
      ks_db s = Some d → ws ∈ db_workspaces d → load_from_db now (with_db d ws p) = Some (r, s') → kstep s s'.

(** A history: no counter of a document comes near the end of its width. *)
Definition history : relation KernelBlockStore := rtc (λ s s', spacious s ∧ kstep s s' ∧ spacious s').

(** A document of [c] does not appear while another status than pending is cached for [c]:
    the deletion of a document leaves its status behind. *)
Definition unseen c s s' : Prop :=
  ks_documents s !! c = None → is_Some (ks_documents s' !! c) →
  ∀ st, ks_live_status s !! c = Some st → st = SPending.
Definition history_of c : relation KernelBlockStore :=
  rtc (λ s s', (spacious s ∧ kstep s s' ∧ spacious s') ∧ unseen c s s').

(** A database before its first document. *)
Record blank_db d : Prop := {
  bk_calm : db_faults d = [];
  bk_documents : db_documents d = [];
  bk_oplog : db_oplog d = [];
  bk_snapshots : db_snapshots d = ∅;
}.

(** ** They keep the invariant *)

Lemma inserted_tool_use m t : inserted m → inserted (insert_with_tool_use t m).
Proof.
  intros Hm s r s' Hs Hroom Hc Hr. unfold insert_with_tool_use in Hr.
  apply bind_run in Hr as [(id&s1&H1&Hr)|(err&H1&->)]; [|by apply (Hm s (Err err) s')].
  pose proof (Hm s _ s1 Hs Hroom Hc H1) as Hres1.
  destruct t as [t|]; [|by injection Hr as <- <-].
  destruct Hres1 as (Hok&Hctx&Hle&b&Hn&Hb&Hd&Hf).
  destruct (inserted_journals s m (Hm s) _ s1 Hs Hroom Hc H1) as (Hs1&_).
  assert (get_live s1 id = Some b) as Hlive by (apply get_live_Some; by rewrite Hb, lookup_insert_eq).
  set (b' := block_set_tool_use_id (Some t) b).
  set (s2 := s1 <| bs_blocks := <[id := b']> (bs_blocks s1) |>).
  assert (∃ s3 : BlockStore, set_tool_use_id id (Some t) s1 = Some (Ok tt, s3) ∧ bs_blocks s3 = bs_blocks s2 ∧
    bs_context_id s3 = bs_context_id s1 ∧ bs_lamport_clock s3 = bs_lamport_clock s1) as (s3&Hset&E1&E2&E3).
  { unfold set_tool_use_id, update_live, update_found. rewrite (bind_ok m_get _ _ _ _ eq_refl), Hlive.
    eexists. split; [reflexivity|done]. }
  rewrite (bind_ok _ _ _ _ _ Hset) in Hr. injection Hr as <- <-.
  split; [by apply (mutation_ok id _ s1 (Ok tt) s3 (mut_tool_use_id id (Some t)) Hs1)|].
  rewrite E2, E3, E1. split_and!; [done|done|]. exists b'. split_and!; [done| |done|by destruct Hf].
  unfold s2. cbn. by rewrite Hb, insert_insert_eq.
Qed.

Context (snap_total : ∀ v : StoreSnapshot, cbor_write v ≠ None) (payload_total : ∀ v : SyncPayload, cbor_write v ≠ None).

Section followed.
Variable followed : ContextId → Prop.
#[local] Abbreviation kept := (kept followed).

Lemma insert_call_kept s d c m r s' :
  kept s d → spacious s → spacious s' → insert_call c m → m s = Some (r, s') → ∃ d', kept s' d'.
Proof.
  intros Hk Hsp Hsp' Hm Hr. destruct inserted_snapshots as (I1&I2&I3&I4).
  assert (∀ now after principal (insert : method BlockStore CrdtError BlockId), inserted insert →
    insert_as now c after principal insert s = Some (r, s') → ∃ d', kept s' d') as Hins.
  { intros now after principal insert Hi Hrun. eapply insert_as_kept; [exact snap_total|exact payload_total|exact Hk|exact Hsp|exact Hsp'| |exact Hrun].
    intros e p _. apply Hi. }
  destruct Hm.
  - eapply Hins; [apply inserted_block|exact Hr].
  - eapply Hins; [apply inserted_tool_use, inserted_tool_call|exact Hr].
  - eapply Hins; [apply inserted_tool_use, inserted_tool_result|exact Hr].
  - eapply Hins; [apply I1|exact Hr].
  - eapply Hins; [apply I3|exact Hr].
  - eapply Hins; [apply I4|exact Hr].
  - eapply Hins; [apply I2|exact Hr].
Qed.

Lemma update_call_kept s d c m r s' :
  kept s d → spacious s → spacious s' → update_call c m → m s = Some (r, s') → ∃ d', kept s' d'.
Proof.
  intros Hk Hsp Hsp' Hm Hr.
  assert (∀ (m : method BlockStore CrdtError ()) (k : kmethod ()) now, journals m → publishes followed k →
    (update_with now c m;; k) s = Some (r, s') → ∃ d', kept s' d') as Hup.
  { intros m0 k now Hj Hpub Hr0. eapply (update_with_kept snap_total payload_total followed s d now c m0 (λ _, True) k); try done.
    by apply publishes_anywhere. }
  destruct Hm as [now id v|now id v|now id v|now id v|now id v|now id v|now id|now id pos ins del principal
    |now id text principal]; try (destruct (journals_setters id) as (J1&J2&J3&J4&J5&J6&J7)).
  - eapply Hup; [exact (J5 v)|apply publishes_metadata|exact Hr].
  - eapply Hup; [exact (J6 v)|apply publishes_emit|exact Hr].
  - eapply Hup; [exact (J7 v)|apply publishes_metadata|exact Hr].
  - eapply Hup; [exact (J3 v)|apply publishes_metadata|exact Hr].
  - eapply Hup; [exact (J4 v)|apply publishes_metadata|exact Hr].
  - eapply Hup; [exact (J2 v)|apply publishes_emit|exact Hr].
  - eapply Hup; [apply journals_delete|apply publishes_emit|exact Hr].
  - eapply text_with_kept; [exact snap_total|exact payload_total|exact Hk|exact Hsp|exact Hsp'|apply journals_edit|exact Hr].
  - eapply text_with_kept; [exact snap_total|exact payload_total|exact Hk|exact Hsp|exact Hsp'|apply journals_append|exact Hr].
Qed.

Lemma set_status_type id v doc r doc' :
  unvalidated id doc → set_status id v doc = Some (r, doc') → unvalidated id doc'.
Proof.
  intros Hu Hr sn Hsn. unfold set_status in Hr.
  destruct (store_tick doc) as [[[ts|err] doc1]|] eqn:Et; [|discriminate Et|discriminate Et].
  assert (bs_blocks doc1 = bs_blocks doc) as Eb by (by injection Et as _ <-).
  rewrite (bind_ok _ _ _ _ _ Et) in Hr. unfold update_live, update_found in Hr.
  rewrite (bind_ok m_get _ _ _ _ eq_refl) in Hr.
  assert (∀ id', get_live doc1 id' = get_live doc id') as El by (intros; unfold get_live; by rewrite Eb).
  rewrite El in Hr. destruct (get_live doc id) as [b|] eqn:Hb.
  - injection Hr as <- <-.
    assert (sn = block_snapshot (block_set_status v ts b)) as ->.
    { unfold get_block_snapshot, get_live in Hsn. cbn in Hsn. rewrite lookup_insert_eq in Hsn.
      apply get_live_Some in Hb as [_ Hd]. cbn in Hsn. rewrite Hd in Hsn. by injection Hsn. }
    apply (Hu (block_snapshot b)). unfold get_block_snapshot. by rewrite Hb.
  - injection Hr as <- <-. unfold get_block_snapshot in Hsn. by rewrite El, Hb in Hsn.
Qed.

Lemma status_call_kept s d now c id v r s' :
  kept s d → spacious s → spacious s' →
  (v = SDone → ∀ e, ks_documents s !! c = Some e → unvalidated id (de_doc e)) →
  kernel_set_status now c id v s = Some (r, s') → ∃ d', kept s' d'.
Proof.
  intros Hk Hsp Hsp' Hu Hr. destruct (journals_setters id) as (J1&_).
  eapply (update_with_kept snap_total payload_total followed s d now c _ (λ doc, v = SDone → unvalidated id doc));
    [done..|apply (J1 v)| |intros e doc He Hset Hv; eapply set_status_type; [by apply (Hu Hv e)|exact Hset]|exact Hr].
  clear d s Hk Hsp Hsp' Hu Hr r s'. intros s e r s' He HP Hr.
  destruct (publishes_emit followed (StatusChanged c id v OpLocal)) as [Hq Hkept].
  destruct (emit (StatusChanged c id v OpLocal) s) as [[[[]|err] s1]|] eqn:Ee; [|discriminate Ee|discriminate Ee].
  rewrite (bind_ok _ _ _ _ _ Ee) in Hr.
  assert (ks_documents s1 = ks_documents s) as Ed by (injection Ee as <-; by destruct (ks_block_flows s)).
  assert (s' = s1) as ->.
  { case_bool_decide as Hv; [|by inversion Hr].
    rewrite (bind_ok m_get _ _ _ _ eq_refl), Ed, He in Hr. cbn [mbind option_bind] in Hr.
    destruct (get_block_snapshot (de_doc e) id) as [sn|] eqn:Esn; [|by inversion Hr].
    destruct (HP Hv sn Esn) as [H1 H2]. cbn [fmap option_fmap option_map] in Hr.
    destruct (sn_content_type sn); by inversion Hr. }
  split; [by apply (Hq s (Ok tt) s1 I)|]. intros d Hd. by eapply Hkept.
Qed.

Lemma status_read_kept s d c r s' : kept s d → live_status c s = Some (r, s') → kept s' d.
Proof.
  intros [Hd Hsh Hst] Hr. unfold live_status in Hr. rewrite (bind_ok m_get _ _ _ _ eq_refl) in Hr.
  destruct (ks_live_status s !! c) as [st|] eqn:El; [by injection Hr as _ <-|].
  rewrite (bind_ok (m_modify _) _ _ tt _ eq_refl) in Hr. injection Hr as _ <-.
  split; [by apply (durable_ext s)|done|]. intros c' e st Hfol He. cbn.
  intros [[<- <-]|[_ Hl]]%lookup_insert_Some; [|by apply (Hst c' e)]. cbn in He. by rewrite He.
Qed.

Lemma kstep_kept s d s' : kept s d → spacious s → spacious s' → kstep s s' →
  (∀ c, followed c → unseen c s s') → ∃ d', kept s' d'.
Proof.
  intros Hk Hsp Hsp' Hstep Hun. destruct Hstep as
    [c m r s' Hm Hr|now c snap after principal r s' Hcur Hr|c m r s' Hm Hr|now c id v r s' Hu Hr
    |now c payload version s' Hfits Hr Htext|c p r s' Hr|now c kind language path r s' Hpath Hr|now c r s' Hr|c r s' Hr|c r s' Hr
    |c r s' Hr|now p d0 ws r s' Hd0 Hws Hr].
  - by eapply insert_call_kept.
  - eapply insert_as_kept; [done..|intros e p He; apply inserted_from_snapshot; by apply (Hcur e)|exact Hr].
  - by eapply update_call_kept.
  - by eapply status_call_kept.
  - eapply merge_ops_kept; [done..|intros e id b He; by apply (Htext e He)|exact Hr].
  - exists d. by eapply reserve_kept.
  - eapply create_kept; [exact Hk|exact Hpath|apply Hun|exact Hr].
  - exists d. by rewrite (load_one_kept _ _ _ _ _ _ _ Hk Hr).
  - by eapply delete_kept.
  - by eapply compact_kept.
  - exists d. by eapply status_read_kept.
  - rewrite (du_db s d (ke_durable _ s d Hk)) in Hd0. injection Hd0 as <-. exists d.
    destruct (restart_kept snap_total payload_total followed s d now p ws Hk Hws) as (s1&H1&Hk1&_). rewrite H1 in Hr. by injection Hr as _ <-.
Qed.

Lemma blank_kept d ws p : blank_db d → ws ∈ db_workspaces d → kept (with_db d ws p) d.
Proof.
  intros [B1 B2 B3 B4] Hws. split; [split|..]; cbn; try done.
  - rewrite B2. constructor.
  - intros c. rewrite B2, lookup_empty. split; [by intros [? [=]]|by intros ?%elem_of_nil].
  - intros c _. unfold rows_of. by rewrite B3, B4.
Qed.

Lemma history_kept d0 ws p s : blank_db d0 → ws ∈ db_workspaces d0 →
  rtc (λ s s', (spacious s ∧ kstep s s' ∧ spacious s') ∧ ∀ c, followed c → unseen c s s') (with_db d0 ws p) s →
  ∃ d, kept s d.
Proof.
  intros Hb Hws Hr. remember (with_db d0 ws p) as s0 eqn:E.
  assert (∃ d, kept s0 d) as Hk by (exists d0; subst; by apply blank_kept). clear E Hb Hws.
  induction Hr as [|s0 s1 s2 [(Hsp&Hstep&Hsp') Hun] _ IH]; [done|].
  destruct Hk as [d Hk]. apply IH. by eapply kstep_kept.
Qed.
End followed.

Lemma plain_history d0 ws p s : blank_db d0 → ws ∈ db_workspaces d0 → history (with_db d0 ws p) s →
  ∃ d, kept (λ _, False) s d.
Proof.
  intros Hb Hws Hr. apply (history_kept (λ _, False) d0 ws p s Hb Hws).
  eapply rtc_subrel; [|exact Hr]. intros s1 s2 Hs. by split.
Qed.

Lemma replay_decodes rows b r :
  replay rows b = Some (Some r) → Forall (λ r, ∃ payload : SyncPayload, decode r.2 = Ok payload) rows.
Proof.
  revert b. induction rows as [|[n bs] rows IH]; intros b Hreplay; [constructor|].
  cbn in Hreplay. destruct (decode bs) as [payload|] eqn:Ed; [|done].
  destruct (merge_ops payload b) as [[[u|err] b']|]; [|discriminate Hreplay|discriminate Hreplay].
  constructor; [by exists payload|by eapply IH].
Qed.

(** ** What holds after any history *)


(** C26: after the histories of [restart_recovers] (their calls, over a database that does not
    fail), the journal of every document is numbered without a gap, from the number of its
    snapshot to its own counter; the other two counters count the rows and their bytes; every
    row is a payload that decodes; and there are fewer rows than trigger a compaction. *)
Theorem journal_accounts d0 ws0 p0 s c e :
  blank_db d0 → ws0 ∈ db_workspaces d0 → history (with_db d0 ws0 p0) s → ks_documents s !! c = Some e →
  ∃ d base, ks_db s = Some d ∧ base = default 0 (snr_seq <$> db_snapshots d !! c) ∧
    (rows_of c d).*1 = seqZ (base + 1) (de_next_journal_seq e - base) ∧
    de_uncompacted_count e = Z.of_nat (length (rows_of c d)) ∧ de_uncompacted_count e < COMPACTION_OP_THRESHOLD ∧
    de_uncompacted_bytes e = wrap_u64 (rows_bytes (rows_of c d)) ∧
    Forall (λ r, ∃ payload : SyncPayload, decode r.2 = Ok payload) (rows_of c d).
Proof.
  intros Hb Hws Hr He. destruct (plain_history _ _ _ _ Hb Hws Hr) as [d Hk]. exists d.
  pose proof (du_journal s d (ke_durable _ s d Hk) c e He) as [J1 J2 J3 J4 (base&B1&B2&B3&B4&ids&clock&Hreb&_)].
  exists base. destruct (Hreb 0 p0) as (b&r&Hbase&Hreplay&_).
  split; [apply (ke_durable _ s d Hk)|]. split_and!; [|by rewrite B2, B3; f_equal; lia|done| |done|].
  - unfold base_of in Hbase. destruct (db_snapshots d !! c) as [row|]; [|by injection Hbase].
    cbn. destruct (decode (snr_state row)) as [snapshot|]; [|done].
    destruct (store_from_snapshot 0 snapshot p0) as [[b0|err]|]; [by injection Hbase as _ <-|discriminate Hbase|discriminate Hbase].
  - rewrite J3. by apply (ke_short _ s d Hk c e).
  - by eapply replay_decodes.
Qed.

(** *** The cached status *)

Definition same_status s s' : Prop := ks_live_status s' = ks_live_status s.
#[local] Instance same_status_preorder : PreOrder same_status.
Proof. split; [done|]. intros s1 s2 s3. unfold same_status. congruence. Qed.

Abbreviation mute m := (triple same_status (λ _, True) m (λ _ _, True)).
Lemma mute_bind {A B} (m : kmethod A) (k : A → kmethod B) : mute m → (∀ a, mute (k a)) → mute (m ≫= k).
Proof. intros Hm Hk. apply (triple_bind _ _ _ (λ _ _, True)); auto. Qed.
Lemma mute_run {A} (m : kmethod A) : (∀ s r s', m s = Some (r, s') → same_status s s') → mute m.
Proof. intros Hm s r s' _ Hr. split; [by eapply Hm|by destruct r]. Qed.

Lemma mute_on_db {A} (f : KernelDb → option (result DbError A * KernelDb)) : mute (on_db f).
Proof.
  apply mute_run. intros s r s'. unfold on_db. destruct (ks_db s) as [d|]; [|by intros [= <- <-]].
  destruct (f d) as [[[a|err] d']|]; [by intros [= <- <-]..|done].
Qed.
Lemma mute_journaling : mute journaling_db.
Proof.
  apply mute_run. intros s r s'. unfold journaling_db, mbind, method_bind, m_bind, m_get.
  destruct (ks_db s); [|destruct (ks_persistent s)]; by intros [= <- <-].
Qed.
Lemma mute_encode {T} `{!Cbor T} (v : T) : mute (m_encode v : kmethod bytes).
Proof. apply mute_run. intros s r s'. unfold m_encode. destruct (encode v); by intros [= <- <-]. Qed.
Lemma mute_edit {A} c (f : method DocumentEntry BlockStoreError A) : mute (edit_entry c f).
Proof. apply mute_run. by intros s r s' [(_&_&->)|(e&e'&_&_&->)]%edit_entry_inv. Qed.

Lemma mute_compact c : mute (compact_document c).
Proof.
  apply mute_bind; [apply mute_journaling|]. intros [|]; [|by apply mute_run; intros s r s' [= <- <-]].
  apply mute_bind.
  { apply mute_run. intros s r s'. unfold read_entry. destruct (ks_documents s !! c); by intros [= <- <-]. }
  intros e. apply mute_bind; [apply mute_encode|]. intros bs. apply mute_bind; [apply mute_on_db|].
  intros _. by apply mute_run; intros s r s' [= <- <-].
Qed.

(** Every change that is journaled leaves the status of its document in the cache, whatever
    becomes of the database. *)
Lemma journal_status now c payload s e r s' :
  ks_documents s !! c = Some e → journal_op now c payload s = Some (r, s') →
  ks_live_status s' !! c = Some (derive_context_live_status (doc_statuses (de_doc e))).
Proof.
  intros He Hr. unfold journal_op in Hr. rewrite (bind_ok m_get _ _ _ _ eq_refl), He in Hr.
  set (st := derive_context_live_status _) in *.
  set (s1 := s <| ks_live_status := <[c := st]> (ks_live_status s) |>).
  rewrite (bind_ok (recompute_live_status c _) _ s tt s1 eq_refl) in Hr.
  match type of Hr with ?m s1 = _ => assert (mute m) as Hm end.
  { apply mute_bind; [apply mute_journaling|]. intros [|]; [|by apply mute_run; intros ? ? ? [= <- <-]].
    apply mute_bind; [apply mute_encode|]. intros bs. apply mute_bind; [apply mute_edit|].
    intros [[seq count] len]. apply mute_bind; [apply mute_on_db|]. intros _.
    destruct (_ || _); [apply mute_compact|by apply mute_run; intros ? ? ? [= <- <-]]. }
  destruct (Hm s1 r s' I Hr) as [E _]. unfold same_status in E. rewrite E. cbn. apply lookup_insert_eq.
Qed.

(** What a context's blocks make its status. *)
Definition status_of_blocks (blocks : list BlockSnapshot) (st : Status) : Prop :=
  (st = SRunning ↔ ∃ b, b ∈ blocks ∧ sn_status b = SRunning) ∧
  (st = SError ↔ st ≠ SRunning ∧ sn_status <$> last blocks = Some SError) ∧ st ≠ SDone.

Lemma derived_status (doc : BlockStore) :
  status_of_blocks (blocks_ordered doc) (derive_context_live_status (doc_statuses doc)).
Proof.
  unfold status_of_blocks, derive_context_live_status, doc_statuses. rewrite fmap_last.
  destruct (existsb _ _) eqn:Ex.
  - apply existsb_exists in Ex as (st&Hin&Hst%bool_decide_eq_true). apply list_elem_of_In in Hin.
    apply list_elem_of_fmap in Hin as (b&->&Hin). split; [|naive_solver]. split; [by exists b|done].
  - assert (¬ ∃ b, b ∈ blocks_ordered doc ∧ sn_status b = SRunning) as Hno.
    { intros (b&Hin&Hst). apply not_true_iff_false in Ex. apply Ex, existsb_exists. exists SRunning.
      split; [|done]. apply list_elem_of_In, list_elem_of_fmap. by exists b. }
    case_bool_decide; naive_solver.
Qed.

(** C37: the status the kernel reports of a context that is in memory is the one its blocks
    have: running while a block runs, an error when the last block failed, pending
    otherwise. First, a change that is journaled leaves it so at once, in any state of the
    kernel and its database and whether or not the journaling succeeds. Second, it is so
    after the histories of [restart_recovers] in which no document of the context appears
    while another status than pending is cached for it. (The cache outlives a document that
    is deleted, and a status that is read before the document is loaded stays, see
    [status_read_early] and [status_outlives] in RestartDemo.) *)
Theorem live_status_current d0 ws0 p0 s c e :
  blank_db d0 → ws0 ∈ db_workspaces d0 → history_of c (with_db d0 ws0 p0) s → ks_documents s !! c = Some e →
  (∀ now payload s1 e1 r s2, ks_documents s1 !! c = Some e1 → journal_op now c payload s1 = Some (r, s2) →
     ∃ st, ks_live_status s2 !! c = Some st ∧ status_of_blocks (blocks_ordered (de_doc e1)) st) ∧
  ∃ st s', live_status c s = Some (Ok st, s') ∧ ks_documents s' = ks_documents s ∧
    status_of_blocks (blocks_ordered (de_doc e)) st.
Proof.
  intros Hb Hws Hr He. split.
  { intros now payload s1 e1 r s2 He1 Hr1. eexists. split; [by eapply journal_status|apply derived_status]. }
  destruct (history_kept (λ c', c' = c) d0 ws0 p0 s Hb Hws) as [d Hk].
  { eapply rtc_subrel; [|exact Hr]. intros s1 s2 [Hs Hu]. split; [done|]. by intros c' ->. }
  unfold live_status. rewrite (bind_ok m_get _ _ _ _ eq_refl).
  destruct (ks_live_status s !! c) as [st|] eqn:El.
  - exists st, s. split; [done|]. split; [done|].
    rewrite (ke_status _ s d Hk c e st eq_refl He El). apply derived_status.
  - rewrite He, (bind_ok (m_modify _) _ _ tt _ eq_refl). eexists _, _. split; [reflexivity|].
    split; [done|apply derived_status].
Qed.
End restart.
