(* ===== verification/EditLog.v ===== *)
(** * A text document that is the list of its edits, and bytes for it

    An executable document crate with the laws of [DteLaws] and [DteReplicas], and an
    executable CBOR crate that writes every snapshot and every payload of it. The theorems
    on the journal are applied to kernels that use them. *)

From S2P Require Import Prelude Text Tick Ids Track Cas Cell Concrete Block BlockContent OrderKey Selection BlockStore StoreInv Sync Replica.

(** ** The document *)

Inductive Edit := EdCreate | EdInsert (pos : Z) (s : string) | EdDelete (pos n : Z).
#[export] Instance Edit_eq_dec : EqDecision Edit.
Proof. solve_decision. Defined.

Definition apply_edit (t : option string) (x : Edit) : option string :=
  match x, t with
  | EdCreate, None => Some ""
  | EdCreate, Some t => Some t
  | EdInsert pos s, Some t => Some (splice pos 0 s t)
  | EdDelete pos n, Some t => Some (splice pos n "" t)
  | _, None => None
  end.
Definition edits_text (l : list Edit) : option string := foldl apply_edit None l.

Lemma edits_text_snoc l x : edits_text (l ++ [x]) = apply_edit (edits_text l) x.
Proof. unfold edits_text. by rewrite foldl_app. Qed.

Lemma edits_text_grow l k : edits_text l ≠ None → edits_text (l ++ k) ≠ None.
Proof.
  revert l. induction k as [|x k IH]; intros l Hl; [by rewrite app_nil_r|].
  rewrite (cons_middle x l k), app_assoc. apply IH. rewrite edits_text_snoc.
  destruct (edits_text l) as [t|]; [by destruct x|done].
Qed.

(** The edits from number [o.1] on: they fit a log that has what is before them, and
    perhaps the first of them. *)
Definition edits_merge (o : nat * list Edit) (l : list Edit) : merge_outcome * list Edit :=
  if bool_decide (o.1 <= length l)%nat && bool_decide (drop o.1 l `prefix_of` o.2)
  then (MergeDone, l ++ drop (length l - o.1) o.2)
  else (MergeError "gap", l).

Module Edits.
#[export] Instance edits_dte : Dte := {|
  Doc := list Edit;
  Agent := N;
  Frontier := nat;
  Ops := nat * list Edit;
  doc_new := [];
  create_agent u l := (u, l);
  create_text _ l := match edits_text l with None => l ++ [EdCreate] | Some _ => l end;
  get_text := edits_text;
  text_insert _ pos s l :=
    match edits_text l with
    | Some t => if (0 <=? pos) && (pos <=? Z.of_nat (char_count t)) then Some (l ++ [EdInsert pos s]) else None
    | None => None
    end;
  text_delete _ pos n l :=
    match edits_text l with
    | Some t => if (0 <=? pos) && (0 <=? n) && (pos + n <=? Z.of_nat (char_count t))
                then Some (l ++ [EdDelete pos n]) else None
    | None => None
    end;
  doc_version l := length l;
  frontier_root := 0%nat;
  ops_since_owned f l := (f, drop f l);
  ops_is_empty o := match o.2 with [] => true | _ => false end;
  doc_merge := edits_merge;
|}.

Lemma merge_tail l k : edits_merge (length l, k) l = (MergeDone, l ++ k).
Proof.
  unfold edits_merge. cbn. rewrite bool_decide_true by lia.
  rewrite drop_all, bool_decide_true by apply prefix_nil. cbn. by rewrite Nat.sub_diag.
Qed.

#[export] Instance edits_laws : DteLaws.
Proof.
  split; cbn -[splice edits_merge].
  - done.
  - done.
  - intros _ l E. by rewrite E, edits_text_snoc, E.
  - intros _ pos s l t E [H1 H2]. rewrite E, (proj2 (Z.leb_le _ _) H1), (proj2 (Z.leb_le _ _) H2).
    eexists. split; [done|]. by rewrite edits_text_snoc, E.
  - intros _ pos n l t E H1 H2 H3.
    rewrite E, (proj2 (Z.leb_le _ _) H1), (proj2 (Z.leb_le _ _) H2), (proj2 (Z.leb_le _ _) H3).
    eexists. split; [done|]. by rewrite edits_text_snoc, E.
  - intros _ l. exists l. by rewrite drop_0, (merge_tail []).
  - intros l Hl. rewrite drop_0. by destruct l.
Qed.

#[export] Instance edits_replicas : DteReplicas.
Proof.
  refine {| same_history := (eq : relation (list Edit)); extends := (prefix : relation (list Edit)) |};
    cbn -[splice edits_merge].
  - by intros l r ->.
  - intros _ pos s l l'. destruct (edits_text l); [|done]. destruct (_ && _); [|done].
    intros [= <-]. by eexists.
  - intros _ pos n l l'. destruct (edits_text l); [|done]. destruct (_ && _); [|done].
    intros [= <-]. by eexists.
  - intros l l' [k ->] Hl. by apply edits_text_grow.
  - intros o l l'. unfold edits_merge. destruct (_ && _); [|done]. intros [= <-]. by eexists.
  - intros l l' r <- [k ->]. exists (l ++ k). by rewrite drop_app_length, merge_tail.
  - intros l l' [k ->]. rewrite drop_app_length. destruct k; [by rewrite app_nil_r|done].
  - intros _ l. exists l. by rewrite drop_0, (merge_tail []).
Defined.
End Edits.

(** ** Bytes *)

(** [put x], then anything, reads back as [x] and the rest. *)
Class Wire (A : Type) := {
  put : A → bytes;
  get : bytes → option (A * bytes);
  get_put x r : get (put x ++ r) = Some (x, r);
}.

Fixpoint put_positive (p : positive) : bytes :=
  match p with
  | xH => [Init.Byte.x02]
  | xO p => Init.Byte.x00 :: put_positive p
  | xI p => Init.Byte.x01 :: put_positive p
  end.
Fixpoint get_positive (b : bytes) : option (positive * bytes) :=
  match b with
  | Init.Byte.x02 :: b => Some (xH, b)
  | Init.Byte.x00 :: b => '(p, r) ← get_positive b; Some (xO p, r)
  | Init.Byte.x01 :: b => '(p, r) ← get_positive b; Some (xI p, r)
  | _ => None
  end.
#[export] Instance wire_positive : Wire positive.
Proof.
  refine {| put := put_positive; get := get_positive |}.
  intros p r. induction p as [p IH|p IH|]; cbn; [by rewrite IH..|done].
Defined.

(** A type that is written as another. *)
Definition wire_as {A B} `{!Wire B} (f : A → B) (g : B → option A) (Hg : ∀ x, g (f x) = Some x) : Wire A.
Proof.
  refine {| put x := put (f x); get b := '(y, r) ← get b; x ← g y; Some (x, r) |}.
  intros x r. rewrite get_put. cbn. by rewrite Hg.
Defined.
(** A record, as a tuple of its fields. *)
Definition wire_fields {A B} `{!Wire B} (f : A → B) (g : B → A) (Hg : ∀ x, g (f x) = x) : Wire A :=
  wire_as f (λ y, Some (g y)) (λ x, f_equal Some (Hg x)).

(** What stdpp can number. The number of a string is about as long as the string. *)
#[export] Instance wire_countable {A} `{Countable A} : Wire A | 20 := wire_as countable.encode countable.decode countable.decode_encode.

Fixpoint put_list {A} `{!Wire A} (l : list A) : bytes :=
  match l with [] => [Init.Byte.x00] | x :: l => Init.Byte.x01 :: put x ++ put_list l end.
(** [fuel] bounds the number of elements. *)
Fixpoint get_list {A} `{!Wire A} (fuel : nat) (b : bytes) : option (list A * bytes) :=
  match fuel, b with
  | S fuel, Init.Byte.x00 :: b => Some ([], b)
  | S fuel, Init.Byte.x01 :: b => '(x, b) ← get b; '(l, b) ← get_list fuel b; Some (x :: l, b)
  | _, _ => None
  end.
Lemma get_put_list {A} `{!Wire A} (l : list A) r fuel :
  (length (put_list l) <= fuel)%nat → get_list fuel (put_list l ++ r) = Some (l, r).
Proof.
  revert fuel. induction l as [|x l IH]; intros [|fuel] Hf; cbn in *; try lia; [done|].
  rewrite <- app_assoc, get_put. cbn. rewrite IH; [done|]. rewrite length_app in Hf. lia.
Qed.
#[export] Instance wire_list {A} `{!Wire A} : Wire (list A) | 5.
Proof.
  refine {| put := put_list; get b := get_list (length b) b |}.
  intros l r. apply get_put_list. rewrite length_app. lia.
Defined.

#[export] Instance wire_prod {A B} `{!Wire A, !Wire B} : Wire (A * B) | 5.
Proof.
  refine {| put x := put x.1 ++ put x.2; get b := '(x, b) ← get b; '(y, b) ← get b; Some ((x, y), b) |}.
  intros [x y] r. cbn. rewrite <- app_assoc, get_put. cbn. by rewrite get_put.
Defined.

#[export] Instance wire_option {A} `{!Wire A} : Wire (option A) | 5.
Proof.
  refine {| put x := match x with Some x => Init.Byte.x01 :: put x | None => [Init.Byte.x00] end;
            get b := match b with
                     | Init.Byte.x00 :: b => Some (None, b)
                     | Init.Byte.x01 :: b => '(x, b) ← get b; Some (Some x, b)
                     | _ => None
                     end |}.
  intros [x|] r; cbn; [by rewrite get_put|done].
Defined.

(** An enum is written as the position of the value in the list of all. *)
Definition position_in {A} `{EqDecision A} (l : list A) (x : A) : nat :=
  match list_find (x =.) l with Some (i, _) => i | None => 0 end.
Lemma position_in_lookup {A} `{EqDecision A} (l : list A) (x : A) : x ∈ l → l !! position_in l x = Some x.
Proof.
  intros Hx. unfold position_in. destruct (list_find_elem_of (x =.) l x Hx eq_refl) as [[i y] E]. rewrite E.
  apply list_find_Some in E as (Hi&<-&_). done.
Qed.
Definition wire_enum {A} `{EqDecision A} (l : list A) (Hl : ∀ x, x ∈ l) : Wire A :=
  wire_as (position_in l) (λ n, l !! n) (λ x, position_in_lookup l x (Hl x)).

#[export] Instance wire_Role : Wire Role := wire_enum [User; Model; System; Tool; Asset] ltac:(intros []; set_solver).
#[export] Instance wire_ContentType : Wire ContentType := wire_enum [Plain; Markdown; Svg; Abc; Image] ltac:(intros []; set_solver).
#[export] Instance wire_ErrorCategory : Wire ErrorCategory := wire_enum [ECTool; ECStream; ECRpc; ECRender; ECParse; ECValidation; ECKernel] ltac:(intros []; set_solver).
#[export] Instance wire_ErrorSeverity : Wire ErrorSeverity := wire_enum [SevWarning; SevError; SevFatal] ltac:(intros []; set_solver).
#[export] Instance wire_LogLevel : Wire LogLevel := wire_enum [LogTrace; LogDebug; LogInfo; LogWarn; LogError] ltac:(intros []; set_solver).
#[export] Instance wire_NotificationKind : Wire NotificationKind := wire_enum [ToolAdded; ToolRemoved; NLog; PromptsChanged; Coalesced] ltac:(intros []; set_solver).
#[export] Instance wire_Status : Wire Status := wire_enum [SPending; SRunning; SDone; SError] ltac:(intros []; set_solver).
#[export] Instance wire_BlockKind : Wire BlockKind := wire_enum [KText; KThinking; KToolCall; KToolResult; KDrift; KFile; KError; KNotification; KResource; KTrace] ltac:(intros []; set_solver).
#[export] Instance wire_ToolKind : Wire ToolKind := wire_enum [Shell; Mcp; Builtin] ltac:(intros []; set_solver).
#[export] Instance wire_DriftKind : Wire DriftKind := wire_enum [DPush; DPull; DMerge; DDistill; DNotification; DFork] ltac:(intros []; set_solver).

#[export] Instance wire_ContextId : Wire ContextId := wire_fields
  (λ x, context_uuid x)
  (λ y, {| context_uuid := y |})
  ltac:(by intros []).
#[export] Instance wire_PrincipalId : Wire PrincipalId := wire_fields
  (λ x, principal_uuid x)
  (λ y, {| principal_uuid := y |})
  ltac:(by intros []).
#[export] Instance wire_BlockId : Wire BlockId := wire_fields
  (λ x, (context_id x, principal_id x, seq x))
  (λ '(x0, x1, x2), {| context_id := x0; principal_id := x1; seq := x2 |})
  ltac:(by intros []).
#[export] Instance wire_Tick : Wire Tick := wire_fields
  (λ x, tick_get x)
  (λ y, {| tick_get := y |})
  ltac:(by intros []).
#[export] Instance wire_TrackId : Wire TrackId := wire_fields
  (λ x, as_str x)
  (λ y, {| as_str := y |})
  ltac:(by intros []).
#[export] Instance wire_ErrorSpan : Wire ErrorSpan := wire_fields
  (λ x, (line x, column x, span_length x))
  (λ '(x0, x1, x2), {| line := x0; column := x1; span_length := x2 |})
  ltac:(by intros []).
#[export] Instance wire_ErrorPayload : Wire ErrorPayload := wire_fields
  (λ x, (err_category x, err_severity x, err_code x, err_detail x, err_span x, err_source_kind x))
  (λ '(x0, x1, x2, x3, x4, x5), {| err_category := x0; err_severity := x1; err_code := x2; err_detail := x3;
    err_span := x4; err_source_kind := x5 |})
  ltac:(by intros []).
#[export] Instance wire_NotificationPayload : Wire NotificationPayload := wire_fields
  (λ x, (note_instance x, note_kind x, note_level x, note_tools x, note_count x, note_detail x))
  (λ '(x0, x1, x2, x3, x4, x5), {| note_instance := x0; note_kind := x1; note_level := x2; note_tools := x3;
    note_count := x4; note_detail := x5 |})
  ltac:(by intros []).
#[export] Instance wire_ResourcePayload : Wire ResourcePayload := wire_fields
  (λ x, (rsrc_instance x, rsrc_uri x, rsrc_mime_type x, rsrc_size x, rsrc_text x, rsrc_blob_base64 x,
    rsrc_parent_resource_block_id x))
  (λ '(x0, x1, x2, x3, x4, x5, x6), {| rsrc_instance := x0; rsrc_uri := x1; rsrc_mime_type := x2; rsrc_size :=
    x3; rsrc_text := x4; rsrc_blob_base64 := x5; rsrc_parent_resource_block_id := x6 |})
  ltac:(by intros []).
#[export] Instance wire_BlockHeader : Wire BlockHeader := wire_fields
  (λ x, (h_id x, h_parent_id x, h_role x, h_kind x, h_status x, h_compacted x, h_collapsed x, h_ephemeral x,
    h_excluded x, h_created_at x, h_updated_at x, h_tool_kind x, h_exit_code x, h_is_error x, h_content_type
    x, h_status_at x, h_collapsed_at x, h_ephemeral_at x, h_excluded_at x, h_compacted_at x, h_tool_meta_at x,
    h_content_type_at x))
  (λ '(x0, x1, x2, x3, x4, x5, x6, x7, x8, x9, x10, x11, x12, x13, x14, x15, x16, x17, x18, x19, x20, x21), {|
    h_id := x0; h_parent_id := x1; h_role := x2; h_kind := x3; h_status := x4; h_compacted := x5; h_collapsed
    := x6; h_ephemeral := x7; h_excluded := x8; h_created_at := x9; h_updated_at := x10; h_tool_kind := x11;
    h_exit_code := x12; h_is_error := x13; h_content_type := x14; h_status_at := x15; h_collapsed_at := x16;
    h_ephemeral_at := x17; h_excluded_at := x18; h_compacted_at := x19; h_tool_meta_at := x20;
    h_content_type_at := x21 |})
  ltac:(by intros []).

#[export] Instance wire_Edit : Wire Edit := wire_as
  (λ x, match x with EdCreate => inl tt | EdInsert pos s => inr (inl (pos, s)) | EdDelete pos n => inr (inr (pos, n)) end)
  (λ y, Some match y with inl _ => EdCreate | inr (inl (pos, s)) => EdInsert pos s | inr (inr (pos, n)) => EdDelete pos n end)
  ltac:(by intros []).

Import DemoBlock Edits.
#[export] Instance wire_OutputData : Wire OutputData := wire_countable (A := string).
#[export] Instance wire_Ops : Wire Ops := wire_prod (A := nat) (B := list Edit).
#[export] Instance wire_BlockSnapshot : Wire BlockSnapshot := wire_fields
  (λ x, (sn_id x, sn_parent_id x, sn_role x, sn_status x, sn_kind x, sn_content x, sn_collapsed x,
    sn_compacted x, sn_ephemeral x, sn_excluded x, sn_created_at x, sn_tool_kind x, sn_tool_name x,
    sn_tool_input x, sn_tool_use_id x, sn_tool_call_id x, sn_exit_code x, sn_is_error x, sn_stderr x,
    sn_signature x, sn_output x, sn_source_context x, sn_source_model x, sn_drift_kind x, sn_file_path x,
    sn_error x, sn_notification x, sn_resource x, sn_content_type x, sn_order_key x, sn_tick x, sn_track x,
    sn_updated_at x, sn_status_at x, sn_collapsed_at x, sn_ephemeral_at x, sn_excluded_at x, sn_compacted_at
    x, sn_tool_meta_at x, sn_content_type_at x))
  (λ '(x0, x1, x2, x3, x4, x5, x6, x7, x8, x9, x10, x11, x12, x13, x14, x15, x16, x17, x18, x19, x20, x21,
    x22, x23, x24, x25, x26, x27, x28, x29, x30, x31, x32, x33, x34, x35, x36, x37, x38, x39), {| sn_id := x0;
    sn_parent_id := x1; sn_role := x2; sn_status := x3; sn_kind := x4; sn_content := x5; sn_collapsed := x6;
    sn_compacted := x7; sn_ephemeral := x8; sn_excluded := x9; sn_created_at := x10; sn_tool_kind := x11;
    sn_tool_name := x12; sn_tool_input := x13; sn_tool_use_id := x14; sn_tool_call_id := x15; sn_exit_code :=
    x16; sn_is_error := x17; sn_stderr := x18; sn_signature := x19; sn_output := x20; sn_source_context :=
    x21; sn_source_model := x22; sn_drift_kind := x23; sn_file_path := x24; sn_error := x25; sn_notification
    := x26; sn_resource := x27; sn_content_type := x28; sn_order_key := x29; sn_tick := x30; sn_track := x31;
    sn_updated_at := x32; sn_status_at := x33; sn_collapsed_at := x34; sn_ephemeral_at := x35; sn_excluded_at
    := x36; sn_compacted_at := x37; sn_tool_meta_at := x38; sn_content_type_at := x39 |})
  ltac:(by intros []).
#[export] Instance wire_SyncPayload : Wire SyncPayload := wire_fields
  (λ x, (p_block_ops x, p_new_blocks x, p_updated_headers x, p_deleted_blocks x))
  (λ '(x0, x1, x2, x3), {| p_block_ops := x0; p_new_blocks := x1; p_updated_headers := x2; p_deleted_blocks :=
    x3 |})
  ltac:(by intros []).
#[export] Instance wire_StoreSnapshot : Wire StoreSnapshot := wire_fields
  (λ x, (ss_context_id x, ss_blocks x, ss_block_history x, ss_deleted_blocks x))
  (λ '(x0, x1, x2, x3), {| ss_context_id := x0; ss_blocks := x1; ss_block_history := x2; ss_deleted_blocks :=
    x3 |})
  ltac:(by intros []).

(** *** The crate *)

Definition cbor_of {T} `{!Wire T} : Cbor T := {|
  cbor_write v := Some (put v);
  cbor_read b := match get b with Some (v, []) => Some v | _ => None end;
|}.
Lemma cbor_of_laws {T} `{!Wire T} : @CborLaws T cbor_of.
Proof. intros v b [= <-]. cbn. rewrite <- (app_nil_r (put v)) at 1. by rewrite get_put. Qed.

#[export] Instance edits_snapshot_cbor : Cbor StoreSnapshot := cbor_of.
#[export] Instance edits_snapshot_laws : CborLaws StoreSnapshot := cbor_of_laws.
#[export] Instance edits_payload_cbor : Cbor SyncPayload := cbor_of.
#[export] Instance edits_payload_laws : CborLaws SyncPayload := cbor_of_laws.
