(* ===== verification/RestartDemo.v ===== *)
(** * A kernel that is used and started again

    A small history of the kernel's block store over the list-of-edits document, for the
    theorems on its journal; and calls whose change the journal loses. *)

From S2P Require Import Prelude MethodLogic Text Tick Ids Track Cas Cell Concrete Block OrderKey Hydrate BlockContent Selection BlockStore StoreInv StoreOps StoreOrder StoreDoc StoreRestore Sync Convergence Replica StoreGrowth KernelStore Recovery Restart EditLog.

Import Demo DemoBlock Edits.

(** Every text parses. *)
#[export] Instance lenient_parsers : ContentParsers := {| abc_feedback _ := []; svg_parse _ := SvgOk |}.

Abbreviation kmethod := (method KernelBlockStore BlockStoreError).

Definition kernel_run {A} (m : kmethod A) (s : KernelBlockStore) : KernelBlockStore :=
  match m s with Some (_, s') => s' | None => s end.
Definition returns {A} (m : kmethod A) (s : KernelBlockStore) : bool :=
  match m s with Some _ => true | None => false end.
Lemma returns_run {A} (m : kmethod A) s : returns m s = true → ∃ r, m s = Some (r, kernel_run m s).
Proof. unfold returns, kernel_run. destruct (m s) as [[r s']|]; [by exists r|done]. Qed.

(** [spacious], computed. *)
Definition has_room (e : DocumentEntry) : bool :=
  forallb (λ x, x.2 <? u64_max) (map_to_list (bs_seq_lanes (de_doc e)))
  && ((i64_min <=? bs_next_tick (de_doc e)) && (bs_next_tick (de_doc e) <? i64_max))
  && (bs_lamport_clock (de_doc e) + COMPACTION_OP_THRESHOLD * (Z.of_nat (size (bs_blocks (de_doc e))) + 1) <? u64_max)
  && (de_next_journal_seq e <? i64_max).
Lemma has_room_spacious s :
  forallb (λ x, has_room x.2) (map_to_list (ks_documents s)) = true → spacious s.
Proof.
  intros Hall c e He. rewrite forallb_forall in Hall.
  assert (has_room e = true) as Hroom by (apply (Hall (c, e)), list_elem_of_In; by apply elem_of_map_to_list).
  unfold has_room in Hroom. rewrite !andb_true_iff, forallb_forall, Z.leb_le, !Z.ltb_lt in Hroom.
  destruct Hroom as [[[Hlanes Htick] Hclock] Hseq]. split; [split; [|exact Htick]|by split].
  intros p. unfold next_seq_for. destruct (bs_seq_lanes (de_doc e) !! p) as [n|] eqn:E; [|done].
  apply Z.ltb_lt, (Hlanes (p, n)), list_elem_of_In. by apply elem_of_map_to_list.
Qed.


Lemma edits_snapshot_total (v : StoreSnapshot) : cbor_write v ≠ None.
Proof. apply Some_ne_None. Qed.
Lemma edits_payload_total (v : SyncPayload) : cbor_write v ≠ None.
Proof. apply Some_ne_None. Qed.

(** ** The history *)

Definition demo_context : ContextId := context_id (demo_id 0).
Definition demo_agent : PrincipalId := principal_id (demo_id 0).
Definition demo_db : KernelDb := {|
  db_workspaces := {[ 3%N ]}; db_documents := []; db_oplog := []; db_snapshots := ∅; db_activity := ∅; db_faults := [] |}.

(** Another replica writes a block of its own. *)
Definition demo_remote : BlockStore := store_new demo_context {| principal_uuid := 40 |}.
Definition demo_remote_insert : method BlockStore CrdtError BlockId :=
  insert_block 90 None None User KText "remote" SDone Plain.
Definition demo_payload : SyncPayload :=
  match demo_remote_insert demo_remote with
  | Some (_, r) => ops_since r (frontier demo_remote)
  | None => ops_since demo_remote (frontier demo_remote)
  end.

Definition k0 := with_db demo_db 3 demo_agent.
Definition call1 := create_document 100 demo_context Conversation None.
Definition k1 := kernel_run call1 k0.
Definition call2 := insert_block_as 101 demo_context None None Model KText "hello" SRunning Plain None.
Definition k2 := kernel_run call2 k1.
Definition call3 := append_text_as 102 demo_context (demo_id 0) " world" None.
Definition k3 := kernel_run call3 k2.
Definition call4 := insert_tool_call_as 103 demo_context None (Some (demo_id 0)) "bash" 7 (Some Shell) None (Some "tu1") None.
Definition k4 := kernel_run call4 k3.
Definition call5 := compact_document demo_context.
Definition k5 := kernel_run call5 k4.
Definition call6 := kernel_set_status 104 demo_context (demo_id 0) SDone.
Definition k6 := kernel_run call6 k5.
Definition call7 := edit_text_as 105 demo_context (demo_id 0) 0 "J" 1 None.
Definition k7 := kernel_run call7 k6.
Definition call8 := kernel_merge_ops 106 demo_context demo_payload.
Definition k8 := kernel_run call8 k7.

Definition contents (s : KernelBlockStore) : option (list (string * Status)) :=
  (λ e, (λ b, (sn_content b, sn_status b)) <$> blocks_ordered (de_doc e)) <$> ks_documents s !! demo_context.

(** What a document says of all its blocks, computed. *)
Lemma document_forall (s : KernelBlockStore) c (f : DocumentEntry → bool) :
  match ks_documents s !! c with Some e => f e | None => true end = true →
  ∀ e, ks_documents s !! c = Some e → f e = true.
Proof. intros Hf e He. by rewrite He in Hf. Qed.

Lemma all_texts_computed (doc : BlockStore) :
  forallb (λ x, if get_text (b_doc x.2) then true else false) (map_to_list (bs_blocks doc)) = true → all_texts doc.
Proof.
  intros Hall id b [Hb _]%get_live_Some E. rewrite forallb_forall in Hall.
  assert (In (id, b) (map_to_list (bs_blocks doc))) as Hin by (apply list_elem_of_In; by apply elem_of_map_to_list).
  apply Hall in Hin. cbn [snd] in Hin. by rewrite E in Hin.
Qed.

(** [payload_fits], computed but for the clock. *)
Definition comes_in (snap : BlockSnapshot) : bool :=
  ((0 <=? seq (sn_id snap)) && (seq (sn_id snap) <? u64_max))
  && match sn_tick snap with Some t => (i64_min <=? tick_get t) && (tick_get t <? i64_max) | None => false end
  && (sn_updated_at snap =? max_field_ts (header_from_snapshot snap))
  && ((0 <=? sn_updated_at snap) && (sn_updated_at snap <=? u64_max - 1)).
Lemma comes_in_incoming snap : comes_in snap = true → incoming (u64_max - 1) snap.
Proof.
  unfold comes_in. rewrite !andb_true_iff, !Z.leb_le, Z.ltb_lt, Z.eqb_eq.
  destruct (sn_tick snap) as [t|] eqn:Et; [|naive_solver]. rewrite andb_true_iff, Z.leb_le, Z.ltb_lt.
  intros [[[H1 H2] H3] H4]. split; [|exact H3|exact H4|by rewrite Et].
  split; [exact H1|]. rewrite Et. by intros t' [= <-].
Qed.

Lemma demo_payload_fits (doc : BlockStore) : bs_lamport_clock doc < 1000 → payload_fits doc demo_payload.
Proof.
  intros Hc. split.
  - assert (forallb comes_in (p_new_blocks demo_payload) = true) as Hall by (vm_compute; reflexivity).
    rewrite forallb_forall in Hall. apply Forall_forall. intros snap Hin%list_elem_of_In. by apply comes_in_incoming, Hall.
  - assert (p_updated_headers demo_payload = []) as -> by (vm_compute; reflexivity). constructor.
  - assert (p_deleted_blocks demo_payload = []) as -> by (vm_compute; reflexivity). cbn. width_lia.
Qed.

(** One more call; what it needs is computed. *)
Definition has_status (s : KernelBlockStore) : bool :=
  match ks_documents s !! demo_context with Some _ => true | None => bool_decide (ks_live_status s !! demo_context = None) end.

Lemma has_status_unseen s s' : has_status s = true → unseen demo_context s s'.
Proof.
  unfold has_status, unseen. intros Hs Hn _ st Hst. rewrite Hn in Hs.
  apply bool_decide_eq_true in Hs. congruence.
Qed.

Lemma history_call {A} s0 s (m : kmethod A) :
  history_of demo_context s0 s → forallb (λ x, has_room x.2) (map_to_list (ks_documents s)) = true →
  forallb (λ x, has_room x.2) (map_to_list (ks_documents (kernel_run m s))) = true → has_status s = true →
  returns m s = true → (∀ r, m s = Some (r, kernel_run m s) → kstep s (kernel_run m s)) →
  history_of demo_context s0 (kernel_run m s).
Proof.
  intros Hh H1 H2 Hu [r Hr]%returns_run Hstep. eapply rtc_r; [exact Hh|]. split; [|by apply has_status_unseen].
  split; [by apply has_room_spacious|]. split; [by apply (Hstep r)|by apply has_room_spacious].
Qed.
Ltac one_call := eapply history_call;
  [|vm_compute; reflexivity|vm_compute; reflexivity|vm_compute; reflexivity|vm_compute; reflexivity|intros r Hr].

Lemma demo_history_written : history_of demo_context k0 k5.
Proof.
  unfold k5, call5; one_call; [|exact (step_compact k4 demo_context r _ Hr)].
  unfold k4, call4; one_call; [|eapply step_insert; [|exact Hr]; apply call_tool_call].
  unfold k3, call3; one_call; [|eapply step_update; [|exact Hr]; apply call_append].
  unfold k2, call2; one_call; [|eapply step_insert; [|exact Hr]; apply call_block].
  unfold k1, call1; one_call; [|apply (step_create k0 100 demo_context Conversation None None r); [|exact Hr]; by intros d row _ _ [? [=]]].
  reflexivity.
Qed.

Definition has_texts (e : DocumentEntry) : bool :=
  forallb (λ x, if get_text (b_doc x.2) then true else false) (map_to_list (bs_blocks (de_doc e))).
Definition is_plain (id : BlockId) (e : DocumentEntry) : bool :=
  match get_block_snapshot (de_doc e) id with Some sn => bool_decide (sn_content_type sn = Plain) | None => true end.
Definition early (e : DocumentEntry) : bool := bs_lamport_clock (de_doc e) <? 1000.

Lemma is_plain_unvalidated id e : is_plain id e = true → unvalidated id (de_doc e).
Proof. unfold is_plain. intros Hp sn Hsn. rewrite Hsn in Hp. apply bool_decide_eq_true in Hp. by rewrite Hp. Qed.

Lemma call8_merges : match call8 k7 with Some (Ok _, _) => true | _ => false end = true.
Proof. vm_compute. reflexivity. Qed.

Lemma demo_history_of : history_of demo_context k0 k8.
Proof.
  unfold k8, call8; one_call.
  2:{ destruct r as [version|err]; [|pose proof call8_merges as Hok; unfold call8 in Hok; by rewrite Hr in Hok].
      eapply (step_merge k7 106 demo_context demo_payload version); [|exact Hr|]; intros e He.
      - assert (early e = true) as Hc by (apply (document_forall k7 demo_context early); [vm_compute; reflexivity|exact He]).
        by apply demo_payload_fits, Z.ltb_lt.
      - assert (has_texts e = true) as Ht by (apply (document_forall (kernel_run (kernel_merge_ops 106 demo_context demo_payload) k7) demo_context has_texts); [vm_compute; reflexivity|exact He]).
        by apply all_texts_computed. }
  unfold k7, call7; one_call; [|eapply step_update; [|exact Hr]; apply call_edit].
  unfold k6, call6; one_call; [exact demo_history_written|].
  apply (step_status k5 104 demo_context (demo_id 0) SDone r); [|exact Hr]. intros _ e He. apply is_plain_unvalidated.
  apply (document_forall k5 demo_context (is_plain (demo_id 0))); [vm_compute; reflexivity|exact He].
Qed.

Lemma demo_history : history k0 k8.
Proof. eapply rtc_subrel; [|exact demo_history_of]. by intros s s' [? _]. Qed.

Lemma demo_db_blank : blank_db demo_db.
Proof. by split. Qed.
Lemma demo_workspace : 3%N ∈ db_workspaces demo_db.
Proof. apply (bool_decide_eq_true_1 _). vm_compute. reflexivity. Qed.


(** The entry of the demo document. *)
Definition the_entry (s : KernelBlockStore) : DocumentEntry :=
  match ks_documents s !! demo_context with Some e => e | None => entry_new demo_context Conversation None demo_agent end.
Lemma the_entry_lookup s :
  (if ks_documents s !! demo_context then true else false) = true → ks_documents s !! demo_context = Some (the_entry s).
Proof. unfold the_entry. by destruct (ks_documents s !! demo_context). Qed.

Lemma journal_accounts_witness :
  ∃ d base, ks_db k8 = Some d ∧ base = default 0 (snr_seq <$> db_snapshots d !! demo_context) ∧
    (rows_of demo_context d).*1 = seqZ (base + 1) (de_next_journal_seq (the_entry k8) - base).
Proof.
  destruct (journal_accounts edits_snapshot_total edits_payload_total demo_db 3 demo_agent k8 demo_context (the_entry k8)
    demo_db_blank demo_workspace demo_history) as (d&base&H1&H2&H3&_).
  - apply the_entry_lookup. vm_compute. reflexivity.
  - exists d, base. exact (conj H1 (conj H2 H3)).
Defined.

Lemma live_status_current_witness :
  ∃ st s', live_status demo_context k8 = Some (Ok st, s') ∧ st ≠ SDone.
Proof.
  destruct (live_status_current edits_snapshot_total edits_payload_total demo_db 3 demo_agent k8 demo_context (the_entry k8)
    demo_db_blank demo_workspace demo_history_of) as [_ (st&s'&H1&_&_&_&H2)].
  - apply the_entry_lookup. vm_compute. reflexivity.
  - exists st, s'. exact (conj H1 H2).
Defined.

(** ** The numbers *)

Example demo_rows : (λ d, ((λ r, r.1.2) <$> db_oplog d, snr_seq <$> db_snapshots d !! demo_context)) <$> ks_db k8 =
  Some ([4; 5; 6], Some 3).
Proof. vm_compute. reflexivity. Qed.
Example demo_contents : contents k8 = Some [("Jello world", SDone); ("remote", SDone); ("7", SRunning)].
Proof. vm_compute. reflexivity. Qed.

(** ** What the journal does not carry *)

(** The kernel after a restart on the same database. *)
Definition restarted (s : KernelBlockStore) : KernelBlockStore :=
  match ks_db s with Some d => kernel_run (load_from_db 200) (with_db d 3 demo_agent) | None => s end.
Definition outputs (s : KernelBlockStore) : option (list (option OutputData * option string * option string)) :=
  (λ e, (λ b, (sn_output b, sn_stderr b, sn_signature b)) <$> blocks_ordered (de_doc e)) <$> ks_documents s !! demo_context.
Definition ids (s : KernelBlockStore) : option (list Z) :=
  (λ e, (λ b, seq (sn_id b)) <$> blocks_ordered (de_doc e)) <$> ks_documents s !! demo_context.

(** The output, the error stream and the signature of a block are gone after a restart. *)
Example output_lost :
  let s := kernel_run (kernel_set_signature 112 demo_context (demo_id 0) (Some "sig"))
    (kernel_run (kernel_set_stderr 111 demo_context (demo_id 0) (Some "oops"))
      (kernel_run (kernel_set_output 110 demo_context (demo_id 0) (Some ("out" : OutputData))) k2)) in
  outputs s = Some [(Some "out", Some "oops", Some "sig")] ∧ outputs (restarted s) = Some [(None, None, None)].
Proof. vm_compute. done. Qed.

(** A moved block is back in its place. *)
Example move_lost :
  let s := kernel_run (kernel_move_block 110 demo_context (demo_id 0) (Some (demo_id 1))) k4 in
  ids s = Some [1; 0] ∧ ids (restarted s) = Some [0; 1].
Proof. vm_compute. done. Qed.

(** They are kept when the document was compacted since. *)
Example output_compacted :
  let s := kernel_run (compact_document demo_context)
    (kernel_run (kernel_set_output 110 demo_context (demo_id 0) (Some ("out" : OutputData))) k2) in
  outputs (restarted s) = outputs s.
Proof. vm_compute. reflexivity. Qed.

(** A status read before the document is loaded stays. *)
Example status_read_early :
  let s0 := match ks_db k2 with Some d => with_db d 3 demo_agent | None => k2 end in
  let s := kernel_run (load_one_from_db 200 demo_context) (kernel_run (live_status demo_context) s0) in
  option_map fst (live_status demo_context s) = Some (Ok SPending) ∧
  contents s = Some [("hello", SRunning)].
Proof. vm_compute. done. Qed.

(** A document whose journal did not load is created anew over its rows, and cannot be written. *)
Example recreated_over_rows :
  let s0 := match ks_db k2 with Some d => with_db d 3 demo_agent | None => k2 end in
  let s := kernel_run (create_document 120 demo_context Conversation None) s0 in
  option_map fst (insert_block_as 121 demo_context None None User KText "again" SDone Plain None s) =
    Some (Err (Db UniqueViolation)) ∧
  contents (kernel_run (insert_block_as 121 demo_context None None User KText "again" SDone Plain None) s) =
    Some [("again", SDone)].
Proof. vm_compute. done. Qed.

(** A status outlives its document: a new document of the context is reported as running. *)
Example status_outlives :
  let s := kernel_run (create_document 120 demo_context Conversation None) (kernel_run (delete_document demo_context) k2) in
  option_map fst (live_status demo_context s) = Some (Ok SRunning) ∧ contents s = Some [].
Proof. vm_compute. done. Qed.

(** A fork counts its time from zero, and what is written to it loses against the older
    timestamps it inherited: its changes are gone after a restart. *)
Definition fork_context : ContextId := {| context_uuid := 999 |}.
Definition marks (s : KernelBlockStore) : option (list (Status * bool)) :=
  (λ e, (λ b, (sn_status b, sn_collapsed b)) <$> blocks_ordered (de_doc e)) <$> ks_documents s !! fork_context.

Definition aged : KernelBlockStore :=
  foldl (λ s v, kernel_run (kernel_set_collapsed 110 demo_context (demo_id 0) v) s) k2 [true; false; true; false].
Definition forked : KernelBlockStore := kernel_run (fork_document 120 demo_context fork_context) aged.
Definition fork_id : BlockId := rebase fork_context (demo_id 0).
Definition marked : KernelBlockStore :=
  kernel_run (kernel_set_collapsed 122 fork_context fork_id true)
    (kernel_run (kernel_set_status 121 fork_context fork_id SDone) forked).

Example fork_change_lost :
  (marks forked, marks marked, marks (restarted marked)) =
    (Some [(SRunning, false)], Some [(SDone, true)], Some [(SDone, false)]).
Proof. vm_compute. reflexivity. Qed.

(** A document made of a snapshot has no row: it is gone. *)
Definition from_snapshot : KernelBlockStore :=
  match encode (store_snapshot (de_doc (the_entry k2))) with
  | Ok b => kernel_run (create_document_from_snapshot 120 fork_context Conversation None b) k2
  | Err _ => k2
  end.
Definition resident (c : ContextId) (s : KernelBlockStore) : bool :=
  match ks_documents s !! c with Some _ => true | None => false end.

Example snapshot_document_lost :
  (resident fork_context from_snapshot, resident fork_context (restarted from_snapshot)) = (true, false).
Proof. vm_compute. reflexivity. Qed.
