(* ===== verification/Beat.v ===== *)
(** * The transport ([kaijutsu-server/src/beat.rs], [kaijutsu-server/src/clock.rs])

    One scheduler beats the tracks: a heap of wake-ups, a clock per track, the contexts
    attached to each. What a beat does to the score, the block store and the database is
    asked of a [World]. Times are nanoseconds; an [Instant] is a point of the local clock. *)

From Stdlib Require Import SpecFloat.
From S2P Require Import Prelude Float64 Text Tick Ids Track Cas Cell Timeline Block Hydrate.

Abbreviation Instant := Z (only parsing).

#[export] Instance TrackId_countable : Countable TrackId.
Proof. apply (inj_countable' as_str (λ s, {| as_str := s |})). by intros []. Defined.

(** [d as i64] and [z as u64]. *)
Definition cast_i64 (z : Z) : Z := wrap_i64 z.
Definition cast_u64 (z : Z) : Z := wrap_u64 z.

(** ** Knobs ([kaijutsu-kernel/src/hyoushigi/mod.rs]) *)

Record BeatPolicy := { bp_period : Duration; bp_beats_per_phrase : Z }.
Definition musician_policy : BeatPolicy := {| bp_period := 500000000; bp_beats_per_phrase := 32 |}.
Definition phrase_delta (p : BeatPolicy) : TickDelta := TickDelta.new (cast_i64 (bp_beats_per_phrase p)).
Definition is_phrase_boundary (p : BeatPolicy) (beat_count : Z) : bool :=
  (0 <? bp_beats_per_phrase p) && (beat_count mod bp_beats_per_phrase p =? 0).
Definition policy_clock (p : BeatPolicy) : TickClock := {|
  ticks_per_sec := f64_div f64_1 (as_secs_f64 (bp_period p)); safety_factor := f64_1_5; commit_margin := TickDelta.new 1 |}.

Record Cadence := { every : Z }.
Definition is_due (c : Cadence) (count : Z) : bool := (0 <? every c) && (count mod every c =? 0).

Record Attachment := { at_wakeup : Cadence; at_rotate : option Cadence; at_ooda_armed : bool; at_pulse : Z }.
#[export] Instance Attachment_settable : Settable Attachment := λ a, {|
  at_wakeup := at_wakeup a; at_rotate := at_rotate a; at_ooda_armed := at_ooda_armed a; at_pulse := at_pulse a |}.
Definition musician_attachment : Attachment :=
  {| at_wakeup := {| every := 32 |}; at_rotate := None; at_ooda_armed := true; at_pulse := 0 |}.

Inductive ClockKind := System_ | Modeled_.

Inductive BeatCommand :=
  | Attach (track : TrackId) (context_id : ContextId) (attachment : Attachment) (policy : BeatPolicy)
  | Detach (track : TrackId) (context_id : ContextId)
  | Play (track : TrackId)
  | Pause (track : TrackId)
  | Stop (track : TrackId)
  | SetTempo (track : TrackId) (period : Duration)
  | SetOoda (track : TrackId) (context_id : ContextId) (armed : bool)
  | SetRotate (track : TrackId) (context_id : ContextId) (every : option Cadence)
  | SetClock (track : TrackId) (kind : ClockKind)
  | Delete (track : TrackId).

Record TrackSnapshot := {
  tsn_id : TrackId; tsn_score_context : ContextId; tsn_playing : bool; tsn_playhead : Z; tsn_period : Duration;
  tsn_beats_per_phrase : Z; tsn_beat_count : Z; tsn_last_epoch_ns : Z; tsn_clock_kind : string;
  tsn_attached : list ContextId;
}.

(** ** Clocks ([clock.rs]) *)

Definition TEMPO_STEP_LIMIT : f64 := f64_div (f64_of_Z 5) (f64_of_Z 100).
Definition PHASE_SLEW_LIMIT : f64 := f64_div (f64_of_Z 5) (f64_of_Z 100).
Definition PHASE_SEEK_THRESHOLD : f64 := f64_div (f64_of_Z 5) (f64_of_Z 10).
Definition STARVATION : Duration := 10 * nanos_per_sec.

Record SystemClock := { sc_period : Duration }.
Record ModelAnchor := { an_at : Instant; an_beat : f64; an_applied_at : Instant }.
Record ModeledClock := { mc_period : Duration; mc_anchor : option ModelAnchor; mc_warned_starving : bool }.
#[export] Instance ModeledClock_settable : Settable ModeledClock := λ m, {|
  mc_period := mc_period m; mc_anchor := mc_anchor m; mc_warned_starving := mc_warned_starving m |}.

Definition modeled_new (period : Duration) : ModeledClock :=
  {| mc_period := period; mc_anchor := None; mc_warned_starving := false |}.

Definition f64_neg (x : f64) : f64 := SFopp x.
(** [f64::clamp] to [-l, l], for [l] not negative. *)
Definition f64_clamp (x l : f64) : f64 :=
  if f64_ltb x (f64_neg l) then f64_neg l else if f64_ltb l x then l else x.
Definition f64_is_finite (x : f64) : bool :=
  match x with S754_zero _ | S754_finite _ _ _ => true | _ => false end.

Definition beat_at (m : ModeledClock) (a : ModelAnchor) (t : Instant) : f64 :=
  let tempo_bps := f64_div f64_1 (as_secs_f64 (mc_period m)) in
  if an_at a <=? t then f64_add (an_beat a) (f64_mul (as_secs_f64 (t - an_at a)) tempo_bps)
  else f64_sub (an_beat a) (f64_mul (as_secs_f64 (an_at a - t)) tempo_bps).

(** [None]: the new period is not a [Duration]. *)
Definition apply_estimate (beat tempo_bps : f64) (at_ : Instant) (m : ModeledClock) : option ModeledClock :=
  if negb (f64_is_finite tempo_bps && f64_ltb f64_zero tempo_bps) then Some m
  else
    let target := f64_div f64_1 tempo_bps in
    let current := as_secs_f64 (mc_period m) in
    let step := f64_clamp (f64_sub target current) (f64_mul current TEMPO_STEP_LIMIT) in
    period ← duration_from_secs_f64 (f64_add current step);
    let m := m <| mc_period := period |> in
    let anchored_beat := match mc_anchor m with
                         | None => beat
                         | Some a =>
                             let predicted := beat_at m a at_ in
                             let err := f64_sub beat predicted in
                             if f64_leb PHASE_SEEK_THRESHOLD (SFabs err) then beat
                             else f64_add predicted (f64_clamp err PHASE_SLEW_LIMIT)
                         end in
    Some (m <| mc_anchor := Some {| an_at := at_; an_beat := anchored_beat; an_applied_at := at_ |} |>
            <| mc_warned_starving := false |>).

Definition starving (now : Instant) (m : ModeledClock) : bool :=
  match mc_anchor m with Some a => STARVATION <? Z.max 0 (now - an_applied_at a) | None => false end.

(** [x.max(0.0)]; the larger of a number and not-a-number is the number. *)
Definition f64_max0 (x : f64) : f64 := if f64_ltb f64_zero x then x else f64_zero.

(** The instant of a master beat; [None]: not a [Duration] away. *)
Definition beat_instant (m : ModeledClock) (a : ModelAnchor) (beat : f64) : option Instant :=
  let tempo_bps := f64_div f64_1 (as_secs_f64 (mc_period m)) in
  d ← duration_from_secs_f64 (f64_max0 (f64_div (f64_sub beat (an_beat a)) tempo_bps));
  Some (an_at a + d).

(** [while fire <= from]. *)
Fixpoint next_after (fuel : nat) (m : ModeledClock) (a : ModelAnchor) (from : Instant) (next_beat : f64) : run Instant :=
  match fuel with
  | O => OutOfFuel
  | S fuel' =>
      match beat_instant m a next_beat with
      | None => Panicked
      | Some fire => if fire <=? from then next_after fuel' m a from (f64_add next_beat f64_1) else Done fire
      end
  end.

Definition modeled_next_fire (fuel : nat) (last now : Instant) (m : ModeledClock) : run (Instant * ModeledClock) :=
  match mc_anchor m with
  | None => Done (now + mc_period m, m)
  | Some a =>
      let m := if starving now m && negb (mc_warned_starving m) then m <| mc_warned_starving := true |> else m in
      let from := if now <? last then last else now in
      match next_after fuel m a from (f64_add (f64_floor (beat_at m a from)) f64_1) with
      | Done fire => Done (fire, m)
      | Panicked => Panicked
      | OutOfFuel => OutOfFuel
      end
  end.

Inductive ClockSourceKind := CSystem (c : SystemClock) | CModeled (c : ModeledClock).

Definition clock_system (period : Duration) : ClockSourceKind := CSystem {| sc_period := period |}.
Definition clock_modeled (period : Duration) : ClockSourceKind := CModeled (modeled_new period).
Definition clock_from_persisted (kind : string) (period : Duration) : option ClockSourceKind :=
  if bool_decide (kind = "system") then Some (clock_system period)
  else if bool_decide (kind = "modeled") then Some (clock_modeled period)
  else None.
Definition kind_str (c : ClockSourceKind) : string := match c with CSystem _ => "system" | CModeled _ => "modeled" end.

Definition clock_period (c : ClockSourceKind) : Duration := match c with CSystem c => sc_period c | CModeled c => mc_period c end.
Definition clock_set_period (period : Duration) (c : ClockSourceKind) : ClockSourceKind :=
  match c with
  | CSystem _ => CSystem {| sc_period := period |}
  | CModeled c => CModeled (c <| mc_period := period |>)
  end.
Definition next_fire (fuel : nat) (last now : Instant) (c : ClockSourceKind) : run (Instant * ClockSourceKind) :=
  match c with
  | CSystem s => Done (now + sc_period s, c)
  | CModeled m =>
      match modeled_next_fire fuel last now m with
      | Done (t, m) => Done (t, CModeled m)
      | Panicked => Panicked
      | OutOfFuel => OutOfFuel
      end
  end.

(** ** The scheduler ([beat.rs]) *)

Definition STEP : TickDelta := TickDelta.new 1.
Definition BEAT_SYNC_EVERY : Z := 8.
Definition GRID_RESEED_AFTER_PERIODS : Z := 2.
Definition MATERIALIZE_RETRY_BUDGET : Z := 3.

(** [x as u32] of a number that is not negative. *)
Definition trunc_u32 (z : Z) : Z := z mod 4294967296.

(** [render_instant]. *)
Definition render_instant (base : Instant) (period : Duration) (start playhead : Tick) : Instant :=
  base + period * trunc_u32 (Z.max 0 (delta_get (Tick.diff start playhead))).

Record MaterializeCursor := { mk_high_water : nat; mk_artifacts_done : nat; mk_source_block_id : option BlockId }.
#[export] Instance MaterializeCursor_settable : Settable MaterializeCursor := λ k, {|
  mk_high_water := mk_high_water k; mk_artifacts_done := mk_artifacts_done k; mk_source_block_id := mk_source_block_id k |}.

Record AttachedContext := { ac_attachment : Attachment; ac_producer_principal : option PrincipalId }.
#[export] Instance AttachedContext_settable : Settable AttachedContext := λ a, {|
  ac_attachment := ac_attachment a; ac_producer_principal := ac_producer_principal a |}.
Definition attached_new (a : Attachment) : AttachedContext := {| ac_attachment := a; ac_producer_principal := None |}.

Record TrackState := {
  tr_clock : ClockSourceKind;
  tr_beats_per_phrase : Z;
  tr_playing : bool;
  tr_generation : Z;
  tr_playhead : Tick;
  tr_beat_count : Z;
  tr_last_epoch_ns : Z;
  tr_score_context : ContextId;
  tr_cursor : MaterializeCursor;
  tr_materialize_failures : Z;
  tr_failure_water : nat;
  tr_attached : gmap ContextId AttachedContext;
  tr_last_fire_scheduled : Instant;
}.
#[export] Instance TrackState_settable : Settable TrackState := λ t, {|
  tr_clock := tr_clock t; tr_beats_per_phrase := tr_beats_per_phrase t; tr_playing := tr_playing t;
  tr_generation := tr_generation t; tr_playhead := tr_playhead t; tr_beat_count := tr_beat_count t;
  tr_last_epoch_ns := tr_last_epoch_ns t; tr_score_context := tr_score_context t; tr_cursor := tr_cursor t;
  tr_materialize_failures := tr_materialize_failures t; tr_failure_water := tr_failure_water t;
  tr_attached := tr_attached t; tr_last_fire_scheduled := tr_last_fire_scheduled t |}.

Definition phrasing (t : TrackState) : BeatPolicy :=
  {| bp_period := clock_period (tr_clock t); bp_beats_per_phrase := tr_beats_per_phrase t |}.

Inductive PoisonAction := Retry | SkipPoison.
Definition poison_action (failures : Z) : PoisonAction :=
  if MATERIALIZE_RETRY_BUDGET <=? failures then SkipPoison else Retry.

(** [x.round() as u64]: half away from zero, saturating; not-a-number is zero. *)
Definition f64_round_u64 (x : f64) : Z :=
  match x with
  | S754_finite false m e =>
      Z.min (two64 - 1) (if 0 <=? e then Z.pos m * 2 ^ e else (2 * Z.pos m + 2 ^ (- e)) / 2 ^ (- e + 1))
  | S754_infinity false => two64 - 1
  | _ => 0
  end.
(** [x.round() as i64]. *)
Definition f64_round_i64 (x : f64) : Z :=
  match x with
  | S754_finite s m e =>
      let r := if 0 <=? e then Z.pos m * 2 ^ e else (2 * Z.pos m + 2 ^ (- e)) / 2 ^ (- e + 1) in
      sat_i64 (if s then - r else r)
  | S754_infinity s => if s then i64_min else i64_max
  | _ => 0
  end.

Definition transport_vars (playhead : Tick) (beat_count : Z) (policy : BeatPolicy) : list (string * string) :=
  let phrase := if 0 <? bp_beats_per_phrase policy then beat_count / bp_beats_per_phrase policy else 0 in
  let secs := as_secs_f64 (bp_period policy) in
  let bpm := if f64_ltb f64_zero secs then f64_round_u64 (f64_div (f64_of_Z 60) secs) else 0 in
  [("KJ_TICK", pretty (tick_get playhead)); ("KJ_PHRASE", pretty phrase); ("KJ_TEMPO", pretty bpm)].

Definition HEARD_WINDOW_PHRASES : Z := 8.
Record HeardEntry := { he_tick : Z; he_track : string; he_abc : string }.

Definition heard_le (x y : Tick * HeardEntry) : Prop := tick_get x.1 ≤ tick_get y.1.
#[export] Instance heard_le_dec : RelDecision heard_le.
Proof. intros x y. unfold heard_le. apply _. Defined.

(** [heard_json], before it is written as JSON. *)
Definition heard_entries `{!JsonLib, !BlockLib} (blocks : list BlockSnapshot) (now : Tick) (window : TickDelta) : list HeardEntry :=
  let since := Tick.sub now window in
  snd <$> merge_sort heard_le
    (omap (λ b, tick ← sn_tick b;
                if Tick.ltb tick since then None
                else Some (tick, {| he_tick := tick_get tick; he_track := default "" (as_str <$> sn_track b); he_abc := sn_content b |}))
          (filter (λ b, sn_content_type b = Abc) blocks)).

Record BeatOutcome := {
  fired : list ContextId; ooda_due : list ContextId; phrase_due : list ContextId; rotate_due : list ContextId }.
#[export] Instance BeatOutcome_settable : Settable BeatOutcome := λ o, {|
  fired := fired o; ooda_due := ooda_due o; phrase_due := phrase_due o; rotate_due := rotate_due o |}.
Definition outcome_default : BeatOutcome := {| fired := []; ooda_due := []; phrase_due := []; rotate_due := [] |}.

(** What is published: a cell to render, a reference for a metronome. *)
Inductive BeatFlow :=
  | RenderCue (context_id : ContextId) (mime : string) (payload : bytes) (lead : Duration) (epoch_ns : Z)
  | BeatSync (context_id : ContextId) (beat tempo_bps : f64) (epoch_ns : Z).

(** The directive to drop what is queued to be rendered. *)
Definition RENDER_FLUSH_MIME : string := "application/vnd.kaijutsu.render-flush".
Definition render_flush (score : ContextId) : BeatFlow := RenderCue score RENDER_FLUSH_MIME [] 0 0.

Record PersistedTrack := {
  pt_track_id : TrackId; pt_period_ms : Z; pt_beats_per_phrase : Z; pt_playhead_tick : option Z; pt_playing : bool;
  pt_score_context_id : option ContextId; pt_clock_kind : string }.
Record PersistedAttachment := {
  pa_track_id : TrackId; pa_context_id : ContextId; pa_wakeup_every : Z; pa_rotate_every_phrases : option Z; pa_ooda_armed : bool }.

(** The anchor a captured batch is annotated with ([ext.quantize]). *)
Record Quantize := {
  qz_anchor_epoch_ns : Z; qz_anchor_tick : Z; qz_period_ns : Z; qz_ticks_per_beat : Z; qz_rolling : bool }.

(** What the scheduler asks of the kernel, its block store and its database. An engine that
    is driven may panic or not return ([run]); a write the scheduler only logs the failure
    of has no result. *)
Class World `{!JsonLib, !BlockLib} (W : Type) := {
  w_error : Type;
  w_error_text : w_error → string;
  w_has_db : W → bool;
  (* the block store *)
  w_max_tick : ContextId → W → result w_error (option Tick);
  w_block : ContextId → BlockId → W → option BlockSnapshot;
  w_block_snapshots : ContextId → W → result w_error (list BlockSnapshot);
  w_insert_capture : ContextId → Tick → TrackId → PrincipalId → bytes → Quantize → W → result w_error BlockId * W;
  w_last_block_id : ContextId → W → option BlockId;
  w_insert_error : ContextId → BlockId → ErrorPayload → string → PrincipalId → W → W;
  w_set_excluded : ContextId → BlockId → bool → W → W;
  (* the database *)
  w_get_track : TrackId → W → result w_error (option PersistedTrack);
  w_upsert_track : PersistedTrack → W → W;
  w_upsert_attachment : PersistedAttachment → W → W;
  w_delete_attachment : TrackId → ContextId → W → result w_error () * W;
  w_list_attachments : TrackId → W → result w_error (list ContextId);
  w_tombstone_track : TrackId → W → result w_error string * W;
  w_hydration_backstop : ContextId → W → W;
  (* the score: its context, its timeline, what crosses from one to the other *)
  w_create_score : TrackId → W → result w_error ContextId * W;
  w_arm_timeline : TrackId → TickClock → Tick → ContextId → W → nat * W;
  w_disarm_timeline : TrackId → W → W;
  w_set_timeline_clock : TrackId → TickClock → W → W;
  w_pull_timeline : TrackId → Tick → W → run W;
  w_armed : TrackId → W → bool;
  w_materialize_committed : TrackId → ContextId → MaterializeCursor → W → run (result w_error () * MaterializeCursor * W);
  w_cell : TrackId → nat → W → option Cell;
  w_failures : TrackId → W → list FailureEvent;
  w_retrieve : ContentHash → W → option bytes;
  w_schedule_abc : ContextId → BlockId → string → TickDelta → TrackId → PrincipalId → W → result w_error () * W;
  (* subscribers and readings of a capture *)
  w_beat_sync_subscribed : W → bool;
  w_render_subscribed : W → bool;
  w_window_start_ns : bytes → result w_error Z;
  (* serde_json *)
  w_heard_json : list HeardEntry → string;
}.

(** The order in which a [HashMap] is walked. *)
Class HashWalk := { walk_contexts : list ContextId → list ContextId; walk_tracks : list TrackId → list TrackId }.
Class HashWalkLaws `{!HashWalk} := {
  walk_contexts_all l : walk_contexts l ≡ₚ l;
  walk_tracks_all l : walk_tracks l ≡ₚ l;
}.

Abbreviation HeapEntry := (Instant * TrackId * Z)%type (only parsing).

Record BeatScheduler (W : Type) := {
  b_world : W;
  b_heap : list HeapEntry;
  b_tracks : gmap TrackId TrackState;
  b_context_track : gmap ContextId TrackId;
  b_flows : list BeatFlow;
}.
Arguments b_world {W}. Arguments b_heap {W}. Arguments b_tracks {W}. Arguments b_context_track {W}. Arguments b_flows {W}.
#[export] Instance BeatScheduler_settable W : Settable (BeatScheduler W) := λ s, {|
  b_world := b_world s; b_heap := b_heap s; b_tracks := b_tracks s; b_context_track := b_context_track s; b_flows := b_flows s |}.

(** *** The heap: the least entry comes first *)

Definition entry_compare (x y : HeapEntry) : comparison :=
  match Z.compare x.1.1 y.1.1 with
  | Eq => match String.compare (as_str x.1.2) (as_str y.1.2) with Eq => Z.compare x.2 y.2 | c => c end
  | c => c
  end.
Definition wakes_before (x y : HeapEntry) : bool := match entry_compare x y with Gt => false | _ => true end.

Fixpoint heap_peek (h : list HeapEntry) : option HeapEntry :=
  match h with
  | [] => None
  | x :: h' => match heap_peek h' with
               | Some y => Some (if wakes_before x y then x else y)
               | None => Some x
               end
  end.
Fixpoint heap_remove (x : HeapEntry) (h : list HeapEntry) : list HeapEntry :=
  match h with [] => [] | y :: h' => if decide (x = y) then h' else y :: heap_remove x h' end.

Inductive BeatError (E : Type) :=
  | MaxTickFailed (e : E)
  | ReadTrackFailed (e : E)
  | UnknownClockKind (kind : string)
  | ScoreContextFailed (e : E)
  | DeleteAttachmentFailed (e : E)
  | ListAttachmentsFailed (e : E)
  | TombstoneFailed (e : E)
  | NoClock (track : TrackId)
  | NotAttached (context_id : ContextId) (track : TrackId)
  | CaptureRejected (e : E)
  | CaptureUnattached (context_id : ContextId)
  | CaptureAmbiguous (track other : TrackId)
  | CaptureFailed (e : E).
Arguments MaxTickFailed {E}. Arguments ReadTrackFailed {E}. Arguments UnknownClockKind {E}. Arguments ScoreContextFailed {E}.
Arguments DeleteAttachmentFailed {E}. Arguments ListAttachmentsFailed {E}. Arguments TombstoneFailed {E}. Arguments NoClock {E}.
Arguments NotAttached {E}. Arguments CaptureRejected {E}. Arguments CaptureAmbiguous {E}. Arguments CaptureUnattached {E}. Arguments CaptureFailed {E}.

Section scheduler.
Context {uuidc : UuidCrate} {json : JsonLib} {blib : BlockLib} {W : Type} {world : World W} {order : HashWalk}.
Implicit Types (s : BeatScheduler W) (t : TrackState) (id : TrackId) (c : ContextId).
Abbreviation bmethod := (method (BeatScheduler W) (BeatError (w_error (W := W)))).

Definition beat_new (w : W) : BeatScheduler W :=
  {| b_world := w; b_heap := []; b_tracks := ∅; b_context_track := ∅; b_flows := [] |}.

Definition set_track id t s : BeatScheduler W := s <| b_tracks := <[id := t]> (b_tracks s) |>.
Definition touch_world (f : W → W) s : BeatScheduler W := s <| b_world := f (b_world s) |>.
Definition publish (flow : BeatFlow) s : BeatScheduler W := s <| b_flows := b_flows s ++ [flow] |>.
Definition track_of c s : option TrackId := b_context_track s !! c.

Definition m_world {A} (f : W → result w_error A * W) (wrap : w_error → BeatError w_error) : bmethod A := λ s,
  match f (b_world s) with
  | (Ok a, w) => Some (Ok a, s <| b_world := w |>)
  | (Err e, w) => Some (Err (wrap e), s <| b_world := w |>)
  end.
Definition m_read {A} (f : W → result w_error A) (wrap : w_error → BeatError w_error) : bmethod A :=
  m_world (λ w, (f w, w)) wrap.
(** The engine panics or hangs: so does the scheduler. *)
Definition m_engine {A} (f : BeatScheduler W → run (A * BeatScheduler W)) : bmethod A := λ s,
  match f s with Done (a, s) => Some (Ok a, s) | _ => None end.

(** *** Mirrors in the database *)

Definition track_row id t : PersistedTrack := {|
  pt_track_id := id; pt_period_ms := clock_period (tr_clock t) / 1000000; pt_beats_per_phrase := tr_beats_per_phrase t;
  pt_playhead_tick := Some (tick_get (tr_playhead t)); pt_playing := tr_playing t;
  pt_score_context_id := Some (tr_score_context t); pt_clock_kind := kind_str (tr_clock t) |}.
Definition persist_track id s : BeatScheduler W :=
  match b_tracks s !! id with
  | Some t => if w_has_db (b_world s) then touch_world (w_upsert_track (track_row id t)) s else s
  | None => s
  end.

Definition attachment_row id c (a : Attachment) : PersistedAttachment := {|
  pa_track_id := id; pa_context_id := c; pa_wakeup_every := every (at_wakeup a);
  pa_rotate_every_phrases := every <$> at_rotate a; pa_ooda_armed := at_ooda_armed a |}.
Definition persist_attachment id c s : BeatScheduler W :=
  match (t ← b_tracks s !! id; tr_attached t !! c) with
  | Some ac => if w_has_db (b_world s) then touch_world (w_upsert_attachment (attachment_row id c (ac_attachment ac))) s else s
  | None => s
  end.

(** *** Attached contexts *)

Definition edit_track id (f : TrackState → TrackState) s : BeatScheduler W := s <| b_tracks := alter f id (b_tracks s) |>.

Definition detach id c s : BeatScheduler W :=
  let s := edit_track id (λ t, t <| tr_attached := delete c (tr_attached t) |>) s in
  let s := persist_track id s in
  let other := head (filter (λ i, i ≠ id ∧ is_Some (t ← b_tracks s !! i; tr_attached t !! c)) (walk_tracks (map_to_list (b_tracks s)).*1)) in
  s <| b_context_track := match other with
                          | Some survivor => <[c := survivor]> (b_context_track s)
                          | None => delete c (b_context_track s)
                          end |>.

(** The end of [attach]. *)
Definition bind_context id c (a : Attachment) s : BeatScheduler W :=
  let s := edit_track id (λ t, t <| tr_attached :=
             <[c := match tr_attached t !! c with Some ac => ac <| ac_attachment := a |> | None => attached_new a end]> (tr_attached t) |>) s in
  let s := s <| b_context_track := <[c := id]> (b_context_track s) |> in
  let s := persist_attachment id c (persist_track id s) in
  if w_has_db (b_world s) then touch_world (w_hydration_backstop c) s else s.

(** The creation of a track. *)
Definition create_track (now : Instant) id (policy : BeatPolicy) (ctx_from_log : Tick) : bmethod () :=
  s ← m_get;
  persisted ← (if w_has_db (b_world s) then m_read (w_get_track id) ReadTrackFailed else m_ret None);
  let seed := Tick.new (Z.max (tick_get ctx_from_log) (default 0 (p ← persisted; pt_playhead_tick p))) in
  let active_policy := match persisted with
                       | Some p => {| bp_period := pt_period_ms p * 1000000; bp_beats_per_phrase := pt_beats_per_phrase p |}
                       | None => policy
                       end in
  clock ← match persisted with
          | Some p => match clock_from_persisted (pt_clock_kind p) (bp_period active_policy) with
                      | Some k => m_ret k
                      | None => m_fail (UnknownClockKind (pt_clock_kind p))
                      end
          | None => m_ret (clock_system (bp_period active_policy))
          end;
  score ← match (p ← persisted; pt_score_context_id p) with
          | Some score => m_ret score
          | None => m_world (w_create_score id) ScoreContextFailed
          end;
  s ← m_get;
  let '(restored, w) := w_arm_timeline id (policy_clock active_policy) seed score (b_world s) in
  m_modify (λ s, set_track id {|
    tr_clock := clock; tr_beats_per_phrase := bp_beats_per_phrase active_policy; tr_playing := false; tr_generation := 0;
    tr_playhead := seed; tr_beat_count := 0; tr_last_epoch_ns := 0; tr_score_context := score;
    tr_cursor := {| mk_high_water := restored; mk_artifacts_done := 0; mk_source_block_id := None |};
    tr_materialize_failures := 0; tr_failure_water := 0; tr_attached := ∅; tr_last_fire_scheduled := now |}
    (s <| b_world := w |>)).

(** A joiner whose log is ahead of the track. *)
Definition pull_track id (ctx_from_log : Tick) : bmethod () :=
  m_engine (λ s,
    match b_tracks s !! id with
    | Some t =>
        if Tick.ltb (tr_playhead t) ctx_from_log then
          match w_pull_timeline id ctx_from_log (b_world s) with
          | Done w => Done (tt, edit_track id (λ t, t <| tr_playhead := ctx_from_log |>) (s <| b_world := w |>))
          | Panicked => Panicked
          | OutOfFuel => OutOfFuel
          end
        else Done (tt, s)
    | None => Panicked
    end).

Definition attach (now : Instant) id c (a : Attachment) (policy : BeatPolicy) : bmethod () :=
  s ← m_get;
  match track_of c s with
  | Some old =>
      if decide (old = id) then m_ret tt
      else m_modify (λ s, let s := detach old c s in
                          if w_has_db (b_world s) then touch_world (λ w, (w_delete_attachment old c w).2) s else s)
  | None => m_ret tt
  end;;
  ctx_max ← m_read (w_max_tick c) MaxTickFailed;
  let ctx_from_log := default Tick.ZERO ctx_max in
  s ← m_get;
  match b_tracks s !! id with
  | None => create_track now id policy ctx_from_log
  | Some _ => m_ret tt
  end;;
  pull_track id ctx_from_log;;
  m_modify (bind_context id c a).

(** *** The clock of a track *)

(** [None]: [next_fire] panics or does not return. *)
Definition play (fuel : nat) (now : Instant) id s : option (BeatScheduler W) :=
  match b_tracks s !! id with
  | None => Some s
  | Some t =>
      if tr_playing t then Some s
      else
        let generation := wrap_u64 (tr_generation t + 1) in
        match next_fire fuel (tr_last_fire_scheduled t) now (tr_clock t) with
        | Done (next, clock) =>
            let s := set_track id (t <| tr_playing := true |> <| tr_generation := generation |> <| tr_clock := clock |>) s in
            Some (persist_track id (s <| b_heap := (next, id, generation) :: b_heap s |>))
        | _ => None
        end
  end.

(** [hold]: both [pause] and [stop]. *)
Definition hold id s : BeatScheduler W :=
  persist_track id match b_tracks s !! id with
                   | Some t => publish (render_flush (tr_score_context t)) (set_track id (t <| tr_playing := false |>) s)
                   | None => s
                   end.

Definition reslave id s : BeatScheduler W :=
  match b_tracks s !! id with
  | Some t => touch_world (w_set_timeline_clock id (policy_clock (phrasing t))) s
  | None => s
  end.

Definition set_track_tempo id (period : Duration) s : BeatScheduler W :=
  persist_track id (reslave id (edit_track id (λ t, t <| tr_clock := clock_set_period period (tr_clock t) |>) s)).

Definition set_track_clock id (kind : ClockKind) s : BeatScheduler W :=
  persist_track id
    (edit_track id (λ t, t <| tr_clock := match tr_clock t, kind with
                                          | CSystem _, System_ | CModeled _, Modeled_ => tr_clock t
                                          | k, System_ => clock_system (clock_period k)
                                          | k, Modeled_ => clock_modeled (clock_period k)
                                          end |>) s).

(** The track that claims a context. *)
Definition claims c s : list TrackId :=
  filter (λ id, is_Some (t ← b_tracks s !! id; tr_attached t !! c)) (walk_tracks (map_to_list (b_tracks s)).*1).

(** [now], [now_ns]: readings of both clocks. *)
Definition apply_clock_estimate (now : Instant) (now_ns : Z) c (beat tempo_bps : f64) (epoch_ns : Z) s : option (BeatScheduler W) :=
  match claims c s with
  | [] => Some s
  | id :: _ =>
      let age_ns := Z.max 0 (now_ns - epoch_ns) in
      if 5000000000 <? age_ns then Some s
      else
        match b_tracks s !! id with
        | Some t =>
            match tr_clock t with
            | CModeled m =>
                m ← apply_estimate beat tempo_bps (now - age_ns) m;
                Some (reslave id (set_track id (t <| tr_clock := CModeled m |>) s))
            | CSystem _ => Some s
            end
        | None => Some s
        end
  end.

(** *** Knobs of one attachment *)

Definition edit_attachment id c (f : Attachment → Attachment) s : BeatScheduler W :=
  edit_track id (λ t, t <| tr_attached := alter (λ ac, ac <| ac_attachment := f (ac_attachment ac) |>) c (tr_attached t) |>) s.

Definition set_ooda id c (armed : bool) s : BeatScheduler W :=
  persist_attachment id c (edit_attachment id c (λ a, a <| at_ooda_armed := armed |>) s).
Definition set_rotate id c (cadence : option Cadence) s : BeatScheduler W :=
  persist_attachment id c
    (edit_attachment id c (λ a, a <| at_rotate := k ← cadence; if 0 <? every k then Some k else None |>) s).

(** *** What a script is told of the beat it runs on *)

Definition transport_env c s : list (string * string) :=
  match (id ← track_of c s; t ← b_tracks s !! id; ac ← tr_attached t !! c; Some (t, ac)) with
  | None => []
  | Some (t, ac) =>
      let window := TickDelta.new (cast_i64 (wrap_u64 (HEARD_WINDOW_PHRASES * tr_beats_per_phrase t))) in
      let heard_entries := match w_block_snapshots (tr_score_context t) (b_world s) with
                   | Ok blocks => w_heard_json (W := W) (heard_entries blocks (tr_playhead t) window)
                   | Err _ => "[]"
                   end in
      transport_vars (tr_playhead t) (tr_beat_count t) (phrasing t) ++
      [("KJ_PHRASE_BEATS", pretty (tr_beats_per_phrase t)); ("KJ_HEARD", heard_entries);
       ("KJ_PULSE", pretty (at_pulse (ac_attachment ac))); ("KJ_EPOCH_NS", pretty (tr_last_epoch_ns t))] ++
      match at_rotate (ac_attachment ac) with Some k => [("KJ_ROTATE_EVERY", pretty (every k))] | None => [] end
  end.

(** *** Deleting a track *)

Fixpoint delete_attachments id (cs : list ContextId) : bmethod () :=
  match cs with
  | [] => m_ret tt
  | c :: cs' => m_world (w_delete_attachment id c) DeleteAttachmentFailed;; delete_attachments id cs'
  end.

Fixpoint detach_all id (cs : list ContextId) : bmethod () :=
  match cs with
  | [] => m_ret tt
  | c :: cs' =>
      m_modify (detach id c);;
      s ← m_get;
      (if w_has_db (b_world s) then m_world (w_delete_attachment id c) DeleteAttachmentFailed else m_ret tt);;
      detach_all id cs'
  end.

Definition delete_cold id : bmethod (option string) :=
  s ← m_get;
  m_guard (w_has_db (b_world s)) (NoClock id);;
  row ← m_read (w_get_track id) ReadTrackFailed;
  m_guard (bool_decide (is_Some row)) (NoClock id);;
  attachments ← m_read (w_list_attachments id) ListAttachmentsFailed;
  delete_attachments id attachments;;
  name ← m_world (w_tombstone_track id) TombstoneFailed;
  m_ret (Some name).

Definition delete_track id : bmethod (option string) :=
  s ← m_get;
  match b_tracks s !! id with
  | None => delete_cold id
  | Some t =>
      m_modify (hold id);;
      detach_all id (walk_contexts (map_to_list (tr_attached t)).*1);;
      s ← m_get;
      tombstone ← (if w_has_db (b_world s) then
                     leftovers ← m_read (w_list_attachments id) ListAttachmentsFailed;
                     delete_attachments id leftovers;;
                     name ← m_world (w_tombstone_track id) TombstoneFailed;
                     m_ret (Some name)
                   else m_ret None);
      m_modify (touch_world (w_disarm_timeline id));;
      m_modify (λ s, s <| b_tracks := delete id (b_tracks s) |>);;
      m_ret tombstone
  end.

(** *** Beating *)

Definition next_wake s : option Instant := (λ e, e.1.1) <$> heap_peek (b_heap s).

(** One attached context on one beat: whether it rotates, and what it is due for. *)
Definition beat_context (policy : BeatPolicy) (beat_count : Z) id c (o : BeatOutcome) (retiring : list ContextId) s :
    BeatOutcome * list ContextId * BeatScheduler W :=
  match (t ← b_tracks s !! id; tr_attached t !! c) with
  | None => (o, retiring, s)
  | Some ac =>
      let att := ac_attachment ac in
      let o := o <| fired := fired o ++ [c] |> in
      let on_phrase := is_phrase_boundary policy beat_count in
      let phrase := if 0 <? bp_beats_per_phrase policy then beat_count / bp_beats_per_phrase policy else 0 in
      if on_phrase && (0 <? bp_beats_per_phrase policy) && match at_rotate att with Some k => is_due k phrase | None => false end
      then (o <| rotate_due := rotate_due o ++ [c] |>, retiring ++ [c], s)
      else
        let o := if on_phrase then o <| phrase_due := phrase_due o ++ [c] |> else o in
        if at_ooda_armed att && is_due (at_wakeup att) beat_count
        then (o <| ooda_due := ooda_due o ++ [c] |>, retiring,
              edit_attachment id c (λ a, a <| at_pulse := wrap_u64 (at_pulse a + 1) |>) s)
        else (o, retiring, s)
  end.
Fixpoint beat_contexts (policy : BeatPolicy) (beat_count : Z) id (cs : list ContextId) (o : BeatOutcome) (retiring : list ContextId) s :
    BeatOutcome * list ContextId * BeatScheduler W :=
  match cs with
  | [] => (o, retiring, s)
  | c :: cs' =>
      let '(o, retiring, s) := beat_context policy beat_count id c o retiring s in
      beat_contexts policy beat_count id cs' o retiring s
  end.

Definition publish_beat_sync id (playhead : Tick) s : BeatScheduler W :=
  if w_beat_sync_subscribed (b_world s) then
    match b_tracks s !! id with
    | Some t =>
        let secs := as_secs_f64 (clock_period (tr_clock t)) in
        if f64_leb secs f64_zero then s
        else publish (BeatSync (tr_score_context t) (f64_of_Z (tick_get playhead)) (f64_div f64_1 secs) (tr_last_epoch_ns t)) s
    | None => s
    end
  else s.

(** The conversation of whoever played a cell. *)
Definition producer_ctx_for id (played_by : PrincipalId) s : option ContextId :=
  t ← b_tracks s !! id;
  let attached := walk_contexts (map_to_list (tr_attached t)).*1 in
  match head (filter (λ c, (tr_attached t !! c ≫= ac_producer_principal) = Some played_by) attached) with
  | Some c => Some c
  | None => if (size (tr_attached t) =? 1)%nat then head attached else None
  end.

Definition error_payload (category : ErrorCategory) (detail : string) : ErrorPayload := {|
  err_category := category; err_severity := SevError; err_code := None; err_detail := Some detail;
  err_span := None; err_source_kind := None |}.
(** An error block at the end of the log of a context, if there is a block to hang it on. *)
Definition surface c (payload : ErrorPayload) s : BeatScheduler W :=
  match w_last_block_id c (b_world s) with
  | Some anchor => touch_world (w_insert_error c anchor payload (error_summary_line payload) principal_beat) s
  | None => s
  end.

(** The clocks as one beat reads them: the wall clock at its start; both when cues are sent. *)
Record Readings := { rd_wall : Z; rd_now : Instant; rd_epoch : Z }.

Definition render_cue id (t : TrackState) (playhead : Tick) (rd : Readings) (cell : Cell) s : BeatScheduler W :=
  match body cell with
  | Deferred _ => s
  | Concrete cref =>
      match w_retrieve (cref_hash cref) (b_world s) with
      | None => s
      | Some payload =>
          let at_ := render_instant (tr_last_fire_scheduled t) (clock_period (tr_clock t)) (start (span cell)) playhead in
          publish (RenderCue (tr_score_context t) (cref_mime cref) payload (Z.max 0 (at_ - rd_now rd)) (rd_epoch rd)) s
      end
  end.
Definition publish_render_cues id (hw_before hw_after : nat) (playhead : Tick) (rd : Readings) s : BeatScheduler W :=
  if (hw_after <=? hw_before)%nat || negb (w_render_subscribed (b_world s)) || negb (w_armed id (b_world s)) then s
  else match b_tracks s !! id with
       | None => s
       | Some t =>
           let crossed := omap (λ i, w_cell id i (b_world s)) (List.seq hw_before (hw_after - hw_before)) in
           foldl (λ s cell, render_cue id t playhead rd cell s) s crossed
       end.

(** The cell at [water] has failed too often and is passed over. *)
Definition surface_poison id (score : ContextId) (water : nat) (e : w_error) s : BeatScheduler W :=
  let target := default score (cell ← w_cell id water (b_world s); producer_ctx_for id (played_by cell) s) in
  surface target (error_payload ECKernel ("a committed phrase could not be materialized after " +:+
    pretty MATERIALIZE_RETRY_BUDGET +:+ " attempts and was skipped: " +:+ w_error_text e)) s.

(** What the outcome of [materialize_committed] does to the track. *)
Definition note_materialized id (t : TrackState) (r : result w_error ()) (cursor : MaterializeCursor) (playhead : Tick)
    (rd : Readings) s : BeatScheduler W :=
  let hw_before := mk_high_water (tr_cursor t) in
  let keep k failures := edit_track id (λ t, t <| tr_cursor := k |> <| tr_materialize_failures := failures |>) in
  match r with
  | Ok _ => publish_render_cues id hw_before (mk_high_water cursor) playhead rd (keep cursor 0 s)
  | Err e =>
      if (hw_before <? mk_high_water cursor)%nat then keep cursor 0 s
      else
        let failures := trunc_u32 (tr_materialize_failures t + 1) in
        match poison_action failures with
        | Retry => keep cursor failures s
        | SkipPoison =>
            surface_poison id (tr_score_context t) (mk_high_water cursor) e
              (keep {| mk_high_water := S (mk_high_water cursor); mk_artifacts_done := 0; mk_source_block_id := None |} 0 s)
        end
  end.

Definition materialize_track id (playhead : Tick) (rd : Readings) s : run (BeatScheduler W) :=
  match b_tracks s !! id with
  | None => Done s
  | Some t =>
      if negb (w_armed id (b_world s)) then Done s
      else
        match w_pull_timeline id playhead (b_world s) with
        | Done w =>
            match w_materialize_committed id (tr_score_context t) (tr_cursor t) w with
            | Done (r, cursor, w) => Done (note_materialized id t r cursor playhead rd (s <| b_world := w |>))
            | Panicked => Panicked
            | OutOfFuel => OutOfFuel
            end
        | Panicked => Panicked
        | OutOfFuel => OutOfFuel
        end
  end.

Definition surface_failure id (score : ContextId) (ev : FailureEvent) s : BeatScheduler W :=
  surface (default score (producer_ctx_for id (fl_played_by ev) s))
    (error_payload ECParse ("a scheduled phrase failed to resolve at beat " +:+ pretty (tick_get (fl_start ev)) +:+
      " (resolver " +:+ resolver_name (fl_resolver ev) +:+ "): " +:+ fl_error ev)) s.
Definition drain_track_failures id s : BeatScheduler W :=
  match b_tracks s !! id with
  | None => s
  | Some t =>
      if negb (w_armed id (b_world s)) then s
      else
        let new_events := drop (tr_failure_water t) (w_failures id (b_world s)) in
        let s := foldl (λ s ev, surface_failure id (tr_score_context t) ev s) s new_events in
        edit_track id (λ t, t <| tr_failure_water := (tr_failure_water t + length new_events)%nat |>) s
  end.

Definition process_track (now : Instant) (rd : Readings) id (o : BeatOutcome) s : run (BeatOutcome * BeatScheduler W) :=
  match b_tracks s !! id with
  | None => Done (o, s)
  | Some t =>
      let epoch_ns := Z.max 0 (rd_wall rd - wrap_u64 (Z.max 0 (now - tr_last_fire_scheduled t))) in
      let t := t <| tr_playhead := Tick.add (tr_playhead t) STEP |> <| tr_beat_count := wrap_u64 (tr_beat_count t + 1) |>
                 <| tr_last_epoch_ns := epoch_ns |> in
      let attached_ids := walk_contexts (map_to_list (tr_attached t)).*1 in
      match materialize_track id (tr_playhead t) rd (set_track id t s) with
      | Done s =>
          let s := if (tr_beat_count t =? 1) || (tr_beat_count t mod BEAT_SYNC_EVERY =? 0)
                   then publish_beat_sync id (tr_playhead t) s else s in
          let s := drain_track_failures id s in
          let '(o, retiring, s) := beat_contexts (phrasing t) (tr_beat_count t) id attached_ids o [] s in
          Done (o, foldl (λ s c, detach id c s) s retiring)
      | Panicked => Panicked
      | OutOfFuel => OutOfFuel
      end
  end.

(** The scheduled instant of a wake-up [t] that is served at [now]. *)
Definition grid_instant (period : Duration) (t now : Instant) : Instant :=
  if period * GRID_RESEED_AFTER_PERIODS <? Z.max 0 (now - t) then now else t.

(** The last step of a beat. *)
Definition rearm (fuel : nat) id (scheduled : Instant) (generation : Z) s : run (BeatScheduler W) :=
  match b_tracks s !! id with
  | None => Done s
  | Some t =>
      match next_fire fuel scheduled scheduled (tr_clock t) with
      | Done (next, clock) =>
          let s := set_track id (t <| tr_clock := clock |>) s in
          Done (s <| b_heap := (next, id, generation) :: b_heap s |>)
      | Panicked => Panicked
      | OutOfFuel => OutOfFuel
      end
  end.

(** One entry popped from the heap. *)
Definition fire_entry (fuel : nat) (now : Instant) (rd : Readings) (e : HeapEntry) (o : BeatOutcome) s : run (BeatOutcome * BeatScheduler W) :=
  let '(at_, id, generation) := e in
  let s := s <| b_heap := heap_remove e (b_heap s) |> in
  match b_tracks s !! id with
  | None => Done (o, s)
  | Some t =>
      if negb (tr_playing t) || negb (generation =? tr_generation t) then Done (o, s)
      else
        let scheduled := grid_instant (clock_period (tr_clock t)) at_ now in
        match process_track now rd id o (set_track id (t <| tr_last_fire_scheduled := scheduled |>) s) with
        | Done (o, s) =>
            match rearm fuel id scheduled generation s with
            | Done s => Done (o, s)
            | Panicked => Panicked
            | OutOfFuel => OutOfFuel
            end
        | Panicked => Panicked
        | OutOfFuel => OutOfFuel
        end
  end.

(** [clocks]: the readings of the clocks, one per turn of the loop. *)
Fixpoint fire_loop (fuel clock_fuel : nat) (now : Instant) (clocks : nat → Readings) (o : BeatOutcome) s : run (BeatOutcome * BeatScheduler W) :=
  match fuel with
  | O => OutOfFuel
  | S fuel' =>
      match heap_peek (b_heap s) with
      | None => Done (o, s)
      | Some e =>
          if now <? e.1.1 then Done (o, s)
          else match fire_entry clock_fuel now (clocks fuel') e o s with
               | Done (o, s) => fire_loop fuel' clock_fuel now clocks o s
               | Panicked => Panicked
               | OutOfFuel => OutOfFuel
               end
      end
  end.
Definition fire_due (fuel clock_fuel : nat) (now : Instant) (clocks : nat → Readings) s : run (BeatOutcome * BeatScheduler W) :=
  fire_loop fuel clock_fuel now clocks outcome_default s.

(** *** A turn has completed *)

(** The phrase of a turn [b] is scheduled; what could not be is reported to its author and
    left out of what is hydrated. *)
Definition schedule_act (b : BlockSnapshot) (lead : TickDelta) id c s : BeatScheduler W :=
  let played_by := principal_id (sn_id b) in
  let s := edit_track id (λ t, t <| tr_attached :=
             alter (λ ac, ac <| ac_producer_principal := Some played_by |>) c (tr_attached t) |>) s in
  let '(r, w) := w_schedule_abc c (sn_id b) (sn_content b) lead id played_by (b_world s) in
  let s := s <| b_world := w |> in
  match r with
  | Ok _ => s
  | Err e =>
      let payload := error_payload ECStream ("could not schedule your phrase onto the score: " +:+ w_error_text e) in
      let s := touch_world (w_insert_error c (sn_id b) payload (error_summary_line payload) played_by) s in
      touch_world (w_set_excluded c (sn_id b) true) s
  end.

(** The guards, as one: a player's own block, with something on it. *)
Definition is_act (b : BlockSnapshot) : bool :=
  negb (sn_ephemeral b || sn_excluded b)
  && negb (bool_decide (is_Some (sn_track b)) || bool_decide (principal_id (sn_id b) = principal_beat))
  && negb (bool_decide (trim (sn_content b) = "")).

Definition on_turn_completed c (output_block_id : option BlockId) s : BeatScheduler W :=
  match track_of c s with
  | None => s
  | Some id =>
      match b_tracks s !! id with
      | None => s
      | Some t =>
          match tr_attached t !! c with
          | None => s
          | Some ac =>
              if negb (at_ooda_armed (ac_attachment ac)) then s
              else
                match (block_id ← output_block_id; w_block c block_id (b_world s)) with
                | None => s
                | Some b => if is_act b then schedule_act b (phrase_delta (phrasing t)) id c s else s
                end
          end
      end
  end.

(** *** A captured batch *)

(** [(offset as f64 / period as f64).round() as i64]. *)
Definition beats_off (offset_ns period_ns : Z) : Z := f64_round_i64 (f64_div (f64_of_Z offset_ns) (f64_of_Z period_ns)).

Definition capture_tick (t : TrackState) (window_start_ns : Z) : Tick * bool :=
  let period_ns := cast_i64 (clock_period (tr_clock t)) in
  let rolling := tr_playing t && (0 <? tr_last_epoch_ns t) && (0 <? period_ns) in
  (if rolling then
     let offset_ns := cast_i64 window_start_ns - cast_i64 (tr_last_epoch_ns t) in
     Tick.add (tr_playhead t) (TickDelta.new (beats_off (wrap_i64 offset_ns) period_ns))
   else tr_playhead t, rolling).

Definition commit_capture c (payload : bytes) (played_by : PrincipalId) : bmethod BlockId :=
  window_start_ns ← m_read (λ _, w_window_start_ns payload) CaptureRejected;
  s ← m_get;
  match claims c s with
  | [] => m_fail (CaptureUnattached c)
  | id :: other :: _ => m_fail (CaptureAmbiguous id other)
  | [id] =>
      match b_tracks s !! id with
      | None => m_panic
      | Some t =>
          let '(window_tick, rolling) := capture_tick t window_start_ns in
          m_world (w_insert_capture (tr_score_context t) window_tick id played_by payload {|
            qz_anchor_epoch_ns := tr_last_epoch_ns t; qz_anchor_tick := tick_get (tr_playhead t);
            qz_period_ns := cast_i64 (clock_period (tr_clock t)); qz_ticks_per_beat := delta_get STEP;
            qz_rolling := rolling |}) CaptureFailed
      end
  end.

(** *** Commands *)

Definition track_ack id : bmethod (option string) :=
  s ← m_get;
  match b_tracks s !! id with Some _ => m_ret None | None => m_fail (NoClock id) end.
Definition attached_ack id c : bmethod (option string) :=
  s ← m_get;
  match (t ← b_tracks s !! id; tr_attached t !! c) with Some _ => m_ret None | None => m_fail (NotAttached c id) end.

Definition apply_command (fuel : nat) (now : Instant) (command : BeatCommand) : bmethod (option string) :=
  match command with
  | Attach track context_id attachment policy => attach now track context_id attachment policy;; m_ret None
  | Detach track context_id => m_modify (detach track context_id);; m_ret None
  | Play track => (λ s, s ← play fuel now track s; Some (Ok tt, s));; track_ack track
  | Pause track | Stop track => m_modify (hold track);; track_ack track
  | SetTempo track period => m_modify (set_track_tempo track period);; track_ack track
  | SetOoda track context_id armed => m_modify (set_ooda track context_id armed);; attached_ack track context_id
  | SetRotate track context_id cadence => m_modify (set_rotate track context_id cadence);; attached_ack track context_id
  | SetClock track kind => m_modify (set_track_clock track kind);; track_ack track
  | Delete track => delete_track track
  end.

Definition snapshot_track id t : TrackSnapshot := {|
  tsn_id := id; tsn_score_context := tr_score_context t; tsn_playing := tr_playing t; tsn_playhead := tick_get (tr_playhead t);
  tsn_period := clock_period (tr_clock t); tsn_beats_per_phrase := tr_beats_per_phrase t; tsn_beat_count := tr_beat_count t;
  tsn_last_epoch_ns := tr_last_epoch_ns t; tsn_clock_kind := kind_str (tr_clock t);
  tsn_attached := walk_contexts (map_to_list (tr_attached t)).*1 |}.
Definition snapshot_le (x y : TrackSnapshot) : Prop := String.leb (as_str (tsn_id x)) (as_str (tsn_id y)) = true.
#[local] Instance snapshot_le_dec : RelDecision snapshot_le.
Proof. intros x y. unfold snapshot_le. apply _. Defined.
Definition snapshot_tracks s : list TrackSnapshot :=
  merge_sort snapshot_le
    (omap (λ id, snapshot_track id <$> b_tracks s !! id) (walk_tracks (map_to_list (b_tracks s)).*1)).

(** *** The loop of [run]: one turn of its [select!] *)

Inductive BeatEvent :=
  | Command (now : Instant) (command : BeatCommand)
  | CommitCapture (context_id : ContextId) (payload : bytes) (played_by : PrincipalId)
  | ClockEstimate (now : Instant) (now_ns : Z) (context_id : ContextId) (beat tempo_bps : f64) (epoch_ns : Z)
  | TurnCompleted (context_id : ContextId) (output_block_id : option BlockId)
  | Wake (now : Instant) (clocks : nat → Readings).

(** [None]: the scheduler panics or does not return. *)
Definition on_beat_event (fuel clock_fuel : nat) (e : BeatEvent) s : option (BeatScheduler W) :=
  match e with
  | Command now command => snd <$> apply_command clock_fuel now command s
  | CommitCapture c payload played_by => snd <$> commit_capture c payload played_by s
  | ClockEstimate now now_ns c beat tempo_bps epoch_ns => apply_clock_estimate now now_ns c beat tempo_bps epoch_ns s
  | TurnCompleted c output_block_id => Some (on_turn_completed c output_block_id s)
  | Wake now clocks => match fire_due fuel clock_fuel now clocks s with Done (_, s) => Some s | _ => None end
  end.
Fixpoint on_beat_events (fuel clock_fuel : nat) (es : list BeatEvent) s : option (BeatScheduler W) :=
  match es with
  | [] => Some s
  | e :: es' => s ← on_beat_event fuel clock_fuel e s; on_beat_events fuel clock_fuel es' s
  end.

End scheduler.
