(* ===== verification/BeatSteps.v ===== *)
(** * The transport as a machine of its own

    A [Desk] is what the scheduler of [Beat.v] keeps for itself: the pending wake-ups, the
    tracks with their generation and contexts, the track of each context. Every event of
    the scheduler is some steps of the desk ([on_event_steps]); what holds of every desk
    ([desk_steps_ok]) holds of the scheduler. An [orderly] desk does not open a lane while a
    wake-up of that name is pending, and does not count its generations past 64 bits; what
    only an orderly desk keeps is marked as such. *)

From Stdlib Require Import SpecFloat.
From S2P Require Import Prelude MethodLogic Float64 Text Tick Ids Track Cas Cell Timeline Block Beat.

(** ** The abstract machine *)

Record Lane := { ln_playing : bool; ln_generation : Z; ln_contexts : gset ContextId }.
#[export] Instance Lane_settable : Settable Lane := λ l, {|
  ln_playing := ln_playing l; ln_generation := ln_generation l; ln_contexts := ln_contexts l |}.

Record Desk := { d_heap : list HeapEntry; d_lanes : gmap TrackId Lane; d_routes : gmap ContextId TrackId }.
#[export] Instance Desk_settable : Settable Desk := λ d, {|
  d_heap := d_heap d; d_lanes := d_lanes d; d_routes := d_routes d |}.

Section desk_machine.
Context {orderly : bool}.
Implicit Types (d : Desk) (l : Lane) (id i : TrackId) (c x : ContextId).

Definition lane_holds d id c : Prop := ∃ l, d_lanes d !! id = Some l ∧ c ∈ ln_contexts l.
Definition leave_lane id c d : Desk := d <| d_lanes := alter (λ l, l <| ln_contexts := ln_contexts l ∖ {[c]} |>) id (d_lanes d) |>.

Inductive desk_step : Desk → Desk → Prop :=
  | step_hold d id :
      desk_step d (d <| d_lanes := alter (λ l, l <| ln_playing := false |>) id (d_lanes d) |>)
  | step_play d id l at_ :
      d_lanes d !! id = Some l → ln_playing l = false → (orderly = true → ln_generation l + 1 < two64) →
      let generation := wrap_u64 (ln_generation l + 1) in
      desk_step d (d <| d_lanes := <[id := l <| ln_playing := true |> <| ln_generation := generation |>]> (d_lanes d) |>
                     <| d_heap := (at_, id, generation) :: d_heap d |>)
  | step_leave d id c other :
      (∀ i, other = Some i → i ≠ id ∧ lane_holds d i c) → (other = None → ∀ i, i ≠ id → ¬ lane_holds d i c) →
      desk_step d (leave_lane id c d <| d_routes := match other with
                                              | Some i => <[c := i]> (d_routes d)
                                              | None => delete c (d_routes d)
                                              end |>)
  | step_join d id l c :
      d_lanes d !! id = Some l → (d_routes d !! c = None ∨ d_routes d !! c = Some id) →
      desk_step d (d <| d_lanes := <[id := l <| ln_contexts := {[c]} ∪ ln_contexts l |>]> (d_lanes d) |>
                     <| d_routes := <[c := id]> (d_routes d) |>)
  | step_open d id :
      d_lanes d !! id = None → (orderly = true → ∀ e, e ∈ d_heap d → e.1.2 ≠ id) →
      desk_step d (d <| d_lanes := <[id := {| ln_playing := false; ln_generation := 0; ln_contexts := ∅ |}]> (d_lanes d) |>)
  | step_close d id :
      (∀ l, d_lanes d !! id = Some l → ln_contexts l = ∅) →
      desk_step d (d <| d_lanes := delete id (d_lanes d) |>)
  | step_drop d e :
      (∀ l, d_lanes d !! e.1.2 = Some l → ln_playing l = true → ln_generation l ≠ e.2) →
      desk_step d (d <| d_heap := heap_remove e (d_heap d) |>)
  | step_beat d e at_ :
      e ∈ d_heap d →
      desk_step d (d <| d_heap := (at_, e.1.2, e.2) :: heap_remove e (d_heap d) |>).

(** ** What every desk keeps *)

Definition of_lane id (g : Z) (e : HeapEntry) : Prop := e.1.2 = id ∧ e.2 = g.
#[export] Instance of_lane_dec id g e : Decision (of_lane id g e).
Proof. unfold of_lane. apply _. Defined.
Definition live_entries id (g : Z) (h : list HeapEntry) : list HeapEntry := filter (of_lane id g) h.
Arguments live_entries : simpl never.

Record desk_ok d : Prop := {
  ok_counted id l : d_lanes d !! id = Some l → 0 ≤ ln_generation l;
  ok_past id l e : orderly = true → d_lanes d !! id = Some l → e ∈ d_heap d → e.1.2 = id → e.2 ≤ ln_generation l;
  ok_live id l : orderly = true → d_lanes d !! id = Some l → ln_playing l = true →
    length (live_entries id (ln_generation l) (d_heap d)) = 1%nat;
  ok_woken id l : d_lanes d !! id = Some l → ln_playing l = true →
    (1 ≤ length (live_entries id (ln_generation l) (d_heap d)))%nat;
  ok_routes c id : d_routes d !! c = Some id ↔ lane_holds d id c;
}.

Lemma heap_remove_perm e (h : list HeapEntry) : e ∈ h → h ≡ₚ e :: heap_remove e h.
Proof.
  induction h as [|x h IH]; [set_solver|]. cbn. destruct (decide (e = x)) as [->|NE]; [done|].
  intros [->|IN]%elem_of_cons; [done|]. rewrite (IH IN) at 1. apply Permutation_swap.
Qed.
Lemma heap_remove_sub e e1 (h : list HeapEntry) : e1 ∈ heap_remove e h → e1 ∈ h.
Proof.
  induction h as [|y h IH]; [done|]. cbn. destruct (decide (e = y)); [by right|].
  intros [->|IN]%elem_of_cons; [by left|right; auto].
Qed.
Lemma heap_remove_absent e (h : list HeapEntry) : e ∉ h → heap_remove e h = h.
Proof.
  induction h as [|y h IH]; [done|]. intros NI. cbn. rewrite decide_False; [|set_solver]. f_equal. apply IH. set_solver.
Qed.
Lemma live_remove id g e (h : list HeapEntry) : ¬ of_lane id g e → live_entries id g (heap_remove e h) = live_entries id g h.
Proof.
  intros NE. unfold live_entries. induction h as [|y h IH]; [done|]. cbn [heap_remove]. destruct (decide (e = y)) as [->|NY].
  - by rewrite filter_cons_False.
  - rewrite !filter_cons. case_decide; by rewrite IH.
Qed.
Lemma live_beat id g e at_ (h : list HeapEntry) :
  e ∈ h → length (live_entries id g ((at_, e.1.2, e.2) :: heap_remove e h)) = length (live_entries id g h).
Proof.
  intros IN. unfold live_entries. rewrite (filter_Permutation _ _ _ (heap_remove_perm _ _ IN)), !filter_cons.
  unfold of_lane at 1 3. cbn [fst snd]. by repeat case_decide.
Qed.
Lemma live_none id g (h : list HeapEntry) :
  (∀ e, e ∈ h → e.1.2 = id → e.2 < g) → live_entries id g h = [].
Proof.
  intros LT. unfold live_entries. apply elem_of_nil_inv. intros e [[<- <-] IN]%list_elem_of_filter.
  pose proof (LT e IN eq_refl). lia.
Qed.

(** A lane of an altered map: the one altered, or another as it was. *)
Lemma lane_alter (f : Lane → Lane) id i (m : gmap TrackId Lane) l :
  alter f id m !! i = Some l ↔ (id = i ∧ ∃ l0, m !! i = Some l0 ∧ l = f l0) ∨ (id ≠ i ∧ m !! i = Some l).
Proof.
  rewrite lookup_alter. destruct (decide (id = i)) as [->|NE]; [|naive_solver].
  destruct (m !! i); cbn; naive_solver.
Qed.

Lemma holds_leave d id c i x : lane_holds (leave_lane id c d) i x ↔ lane_holds d i x ∧ ¬ (i = id ∧ x = c).
Proof.
  unfold lane_holds, leave_lane. cbn. setoid_rewrite lane_alter. destruct (decide (id = i)) as [->|NE].
  - split.
    + intros (l & [[_ (l0 & L & ->)]|[? _]] & IN); [|done]. cbn in IN. set_solver.
    + intros [(l & L & IN) NA]. eexists. split; [left; split; [done|by eexists]|]. cbn. set_solver.
  - naive_solver.
Qed.

Lemma routes_leave d id c other :
  desk_ok d → (∀ i, other = Some i → i ≠ id ∧ lane_holds d i c) → (other = None → ∀ i, i ≠ id → ¬ lane_holds d i c) →
  ∀ x i, match other with Some i => <[c := i]> (d_routes d) | None => delete c (d_routes d) end !! x = Some i
         ↔ lane_holds (leave_lane id c d) i x.
Proof.
  intros OK SOME NONE x i. rewrite holds_leave, <- (ok_routes _ OK). destruct other as [o|].
  - destruct (SOME _ eq_refl) as [NE HOLD]. apply (ok_routes _ OK) in HOLD. rewrite lookup_insert_Some.
    destruct (decide (x = c)) as [->|]; naive_solver.
  - specialize (NONE eq_refl). rewrite lookup_delete_Some, (ok_routes _ OK).
    destruct (decide (x = c)) as [->|]; [|naive_solver]. destruct (decide (i = id)); naive_solver.
Qed.

Lemma routes_join d id l c :
  desk_ok d → d_lanes d !! id = Some l → (d_routes d !! c = None ∨ d_routes d !! c = Some id) →
  ∀ x i, <[c := id]> (d_routes d) !! x = Some i
         ↔ lane_holds (d <| d_lanes := <[id := l <| ln_contexts := {[c]} ∪ ln_contexts l |>]> (d_lanes d) |>) i x.
Proof.
  intros OK L FREE x i. unfold lane_holds. cbn. setoid_rewrite lookup_insert_Some. rewrite (ok_routes _ OK). split.
  * intros [(-> & ->)|(NE & l' & L' & IN)]; [eexists; split; [by left|set_solver]|].
    destruct (decide (id = i)) as [->|]; [|naive_solver]. simplify_eq. eexists. split; [by left|set_solver].
  * destruct (decide (c = x)) as [->|NE].
    -- intros (l' & [(-> & <-)|(NI & L')] & IN); [by left|]. exfalso.
       assert (d_routes d !! x = Some i) as R by (apply (ok_routes _ OK); by eexists). destruct FREE; congruence.
    -- intros (l' & [(-> & <-)|(NI & L')] & IN); right; split; try done; [|by eexists].
       eexists. split; [done|set_solver].
Qed.

Lemma step_counted d d' :
  desk_step d d' → (∀ id l, d_lanes d !! id = Some l → 0 ≤ ln_generation l) →
  ∀ id l, d_lanes d' !! id = Some l → 0 ≤ ln_generation l.
Proof.
  intros STEP OK i l'. destruct STEP as [d id|d id l at_ L| | | | | |]; cbn;
    rewrite ?lookup_insert_Some, ?lane_alter, ?lookup_delete_Some; try naive_solver.
  intros [[_ <-]|[_ L']]; cbn; [|by eapply OK]. unfold generation, wrap_u64. apply Z.mod_pos_bound. done.
Qed.

(** The next generation of an orderly desk is later than all there are. *)
Lemma next_generation d id l : desk_ok d → d_lanes d !! id = Some l → ln_generation l + 1 < two64 →
  wrap_u64 (ln_generation l + 1) = ln_generation l + 1.
Proof.
  intros OK L TOP. pose proof (ok_counted _ OK _ _ L). apply wrap_u64_id. unfold in_u64, u64_max, two64 in *. lia.
Qed.

Lemma step_woken d d' : desk_step d d' → desk_ok d →
  ∀ id l, d_lanes d' !! id = Some l → ln_playing l = true →
    (1 ≤ length (live_entries id (ln_generation l) (d_heap d')))%nat.
Proof.
  intros STEP OK. destruct STEP as [d id|d id l at_ L OFF TOP|d id c other SOME NONE|d id l c L FREE|d id NEW CLEAR
    |d id EMPTY|d e STALE|d e at_ IN]; cbn; intros i l'.
  - intros [(-> & l0 & L & ->)|[_ L]]%lane_alter; [done|]. by apply (ok_woken _ OK).
  - intros [(-> & <-)|(NE & L')]%lookup_insert_Some PLAY; cbn; unfold live_entries.
    + rewrite filter_cons_True by done. cbn. lia.
    + rewrite filter_cons_False; [by apply (ok_woken _ OK)|]. by intros [? _].
  - intros [(-> & l0 & L & ->)|[_ L]]%lane_alter; apply (ok_woken _ OK _ _ L).
  - intros [(-> & <-)|(NE & L')]%lookup_insert_Some; [apply (ok_woken _ OK _ _ L)|apply (ok_woken _ OK _ _ L')].
  - intros [(-> & <-)|(NE & L')]%lookup_insert_Some; [done|by apply (ok_woken _ OK)].
  - intros [_ L]%lookup_delete_Some. by apply (ok_woken _ OK).
  - intros L PLAY. rewrite live_remove; [by apply (ok_woken _ OK)|]. intros [E G]. subst i. by apply (STALE _ L PLAY).
  - intros L PLAY. rewrite live_beat by done. by apply (ok_woken _ OK).
Qed.

Lemma desk_step_ok d d' : desk_step d d' → desk_ok d → desk_ok d'.
Proof.
  intros STEP OK. pose proof (step_counted _ _ STEP (ok_counted _ OK)) as COUNTED.
  pose proof (step_woken _ _ STEP OK) as WOKEN. destruct STEP as [d id|d id l at_ L OFF TOP|d id c other SOME NONE|d id l c L FREE|d id NEW CLEAR
    |d id EMPTY|d e STALE|d e at_ IN].
  - split; [exact COUNTED| | |exact WOKEN|]; cbn.
    + intros i l e ORD [(-> & l0 & L & ->)|[_ L]]%lane_alter; apply (ok_past _ OK _ _ _ ORD L).
    + intros i l ORD [(-> & l0 & L & ->)|[_ L]]%lane_alter; [done|]. by apply (ok_live _ OK).
    + intros c i. rewrite (ok_routes _ OK). unfold lane_holds. cbn. setoid_rewrite lane_alter.
      destruct (decide (id = i)); naive_solver.
  - pose proof (λ ORD, next_generation d id l OK L (TOP ORD)) as NEXT. fold generation in NEXT.
    split; [exact COUNTED| | |exact WOKEN|]; cbn.
    + intros i l' e ORD [(-> & <-)|(NE & L')]%lookup_insert_Some [->|IN]%elem_of_cons E; cbn in *; try done.
      * pose proof (ok_past _ OK _ _ _ ORD L IN E). rewrite (NEXT ORD). lia.
      * by apply (ok_past _ OK _ _ _ ORD L').
    + intros i l' ORD [(-> & <-)|(NE & L')]%lookup_insert_Some PLAY; cbn; unfold live_entries.
      * rewrite filter_cons_True by done. cbn [length]. fold (live_entries i generation (d_heap d)).
        rewrite live_none; [done|]. intros e IN E. pose proof (ok_past _ OK _ _ _ ORD L IN E). rewrite (NEXT ORD). lia.
      * rewrite filter_cons_False; [by apply (ok_live _ OK)|]. by intros [? _].
    + intros c i. rewrite (ok_routes _ OK). unfold lane_holds. cbn. setoid_rewrite lookup_insert_Some.
      destruct (decide (id = i)); naive_solver.
  - split; [exact COUNTED| | |exact WOKEN|intros x i; exact (routes_leave d id c other OK SOME NONE x i)]; cbn.
    + intros i l e ORD [(-> & l0 & L & ->)|[_ L]]%lane_alter; apply (ok_past _ OK _ _ _ ORD L).
    + intros i l ORD [(-> & l0 & L & ->)|[_ L]]%lane_alter; apply (ok_live _ OK _ _ ORD L).
  - split; [exact COUNTED| | |exact WOKEN|]; cbn.
    + intros i l' e ORD [(-> & <-)|(NE & L')]%lookup_insert_Some; [apply (ok_past _ OK _ _ _ ORD L)|apply (ok_past _ OK _ _ _ ORD L')].
    + intros i l' ORD [(-> & <-)|(NE & L')]%lookup_insert_Some; [apply (ok_live _ OK _ _ ORD L)|apply (ok_live _ OK _ _ ORD L')].
    + intros x i. exact (routes_join d id l c OK L FREE x i).
  - split; [exact COUNTED| | |exact WOKEN|]; cbn.
    + intros i l' e ORD [(-> & <-)|(NE & L')]%lookup_insert_Some IN; [by intros ?%(CLEAR ORD _ IN)|by apply (ok_past _ OK)].
    + intros i l' ORD [(-> & <-)|(NE & L')]%lookup_insert_Some; [done|by apply (ok_live _ OK)].
    + intros c i. rewrite (ok_routes _ OK). unfold lane_holds. cbn. setoid_rewrite lookup_insert_Some.
      destruct (decide (id = i)) as [->|]; [|naive_solver].
      split; [intros (? & ? & ?); simplify_eq|intros (? & [[_ <-]|[? _]] & IN); [set_solver|done]].
  - split; [exact COUNTED| | |exact WOKEN|]; cbn.
    + intros i l e ORD [_ L]%lookup_delete_Some. by apply (ok_past _ OK).
    + intros i l ORD [_ L]%lookup_delete_Some. by apply (ok_live _ OK).
    + intros c i. rewrite (ok_routes _ OK). unfold lane_holds. cbn. setoid_rewrite lookup_delete_Some.
      split; [|naive_solver]. intros (l & L & IN). exists l. repeat split; try done. intros ->. rewrite (EMPTY _ L) in IN. set_solver.
  - split; [exact COUNTED| | |exact WOKEN|apply OK]; cbn.
    + intros i l e' ORD L IN%heap_remove_sub. by apply (ok_past _ OK _ _ _ ORD L).
    + intros i l ORD L PLAY. rewrite live_remove; [by apply (ok_live _ OK)|].
      intros [E G]. subst i. by apply (STALE _ L PLAY).
  - split; [exact COUNTED| | |exact WOKEN|apply OK]; cbn.
    + intros i l e' ORD L [->|IN'%heap_remove_sub]%elem_of_cons E; cbn in *; [|by apply (ok_past _ OK _ _ _ ORD L)].
      by apply (ok_past _ OK _ _ _ ORD L IN).
    + intros i l ORD L PLAY. rewrite live_beat by done. by apply (ok_live _ OK).
Qed.

Lemma desk_steps_ok d d' : rtc desk_step d d' → desk_ok d → desk_ok d'.
Proof. induction 1; eauto using desk_step_ok. Qed.
End desk_machine.

(** ** The desk of a scheduler *)

Definition lane (t : TrackState) : Lane :=
  {| ln_playing := tr_playing t; ln_generation := tr_generation t; ln_contexts := dom (tr_attached t) |}.
Definition desk {W} (s : BeatScheduler W) : Desk :=
  {| d_heap := b_heap s; d_lanes := lane <$> b_tracks s; d_routes := b_context_track s |}.

Section steps.
Context {uuidc : UuidCrate} {json : JsonLib} {blib : BlockLib} {W : Type} {world : World W} {order : HashWalk} {walk : HashWalkLaws}.
Context {orderly : bool}.
Implicit Types (s : BeatScheduler W) (t : TrackState) (id : TrackId) (c : ContextId).
#[local] Abbreviation desk_step := (desk_step (orderly := orderly)).
#[local] Abbreviation desk_ok := (desk_ok (orderly := orderly)).

(** ** What a method does to the desk *)

Lemma desk_persist_track id s : desk (persist_track id s) = desk s.
Proof. unfold persist_track. by repeat case_match. Qed.
Lemma desk_persist_attachment id c s : desk (persist_attachment id c s) = desk s.
Proof. unfold persist_attachment. by repeat case_match. Qed.
Lemma desk_set_track id t s : desk (set_track id t s) = (desk s) <| d_lanes := <[id := lane t]> (d_lanes (desk s)) |>.
Proof. unfold desk, set_track. cbn. by rewrite fmap_insert. Qed.
Lemma desk_set_same id t t0 s : b_tracks s !! id = Some t0 → lane t = lane t0 → desk (set_track id t s) = desk s.
Proof.
  intros L E. rewrite desk_set_track, E. unfold desk. cbn. f_equal. apply insert_id. by rewrite lookup_fmap, L.
Qed.
Lemma desk_edit id f g s :
  (∀ t, lane (f t) = g (lane t)) → desk (edit_track id f s) = (desk s) <| d_lanes := alter g id (d_lanes (desk s)) |>.
Proof.
  intros E. unfold desk, edit_track. cbn. f_equal. apply map_eq. intros i. rewrite lookup_fmap, !lookup_alter, !lookup_fmap.
  case_decide; [|done]. destruct (b_tracks s !! id); cbn; [by rewrite E|done].
Qed.
Lemma desk_edit_same id f s : (∀ t, lane (f t) = lane t) → desk (edit_track id f s) = desk s.
Proof.
  intros E. rewrite (desk_edit id f (λ l, l)) by done. unfold desk. cbn. f_equal. apply map_eq. intros i.
  rewrite lookup_alter. case_decide; [|done]. by simplify_eq; destruct (_ !! _).
Qed.
Lemma desk_edit_attachment id c f s : desk (edit_attachment id c f s) = desk s.
Proof. apply desk_edit_same. intros t. unfold lane. cbn. by rewrite dom_alter_L. Qed.
Lemma desk_reslave id s : desk (reslave id s) = desk s.
Proof. unfold reslave. by case_match. Qed.

Lemma holds_desk s id c : lane_holds (desk s) id c ↔ ∃ t, b_tracks s !! id = Some t ∧ is_Some (tr_attached t !! c).
Proof.
  unfold lane_holds. cbn. setoid_rewrite lookup_fmap_Some. setoid_rewrite <- elem_of_dom. split.
  - intros (l & (t & <- & L) & IN). by exists t.
  - intros (t & L & IN). exists (lane t). split; [by exists t|done].
Qed.
Lemma holds_bind s id c : is_Some (t ← b_tracks s !! id; tr_attached t !! c) ↔ lane_holds (desk s) id c.
Proof.
  rewrite holds_desk. destruct (b_tracks s !! id) as [t|]; cbn; [|by split; [intros []|intros (? & ? & _)]].
  split; [by exists t|by intros (? & [= <-] & ?)].
Qed.
Lemma walk_tracks_elem s id : id ∈ walk_tracks (map_to_list (b_tracks s)).*1 ↔ is_Some (b_tracks s !! id).
Proof.
  rewrite walk_tracks_all. rewrite list_elem_of_fmap. split.
  - intros ([i t] & -> & IN%elem_of_map_to_list). by exists t.
  - intros [t L]. exists (id, t). split; [done|]. by apply elem_of_map_to_list.
Qed.
Lemma holds_track s id c : lane_holds (desk s) id c → is_Some (b_tracks s !! id).
Proof. rewrite holds_desk. by intros (t & L & _); exists t. Qed.

(** ** Steps that leave the heap alone *)

Definition desk_runs s s' : Prop := rtc desk_step (desk s) (desk s').
#[export] Instance steps_preorder : PreOrder desk_runs.
Proof. split; [intros s; apply rtc_refl|intros s1 s2 s3 S12 S23; unfold desk_runs in *; by etrans]. Qed.

(** [retires]: as [steps], whatever the heap. *)
Definition retires s s' : Prop :=
  b_heap s' = b_heap s ∧ ∀ h, rtc desk_step ((desk s) <| d_heap := h |>) ((desk s') <| d_heap := h |>).
#[export] Instance retires_preorder : PreOrder retires.
Proof.
  split; [intros s; split; [done|intros; apply rtc_refl]|].
  intros s1 s2 s3 [H1 S12] [H2 S23]. split; [congruence|]. intros h. exact (transitivity (S12 h) (S23 h)).
Qed.
Lemma retires_same s s' : desk s' = desk s → retires s s'.
Proof. intros E. split; [by injection E|]. intros h. by rewrite E. Qed.
Lemma retires_steps s s' : retires s s' → desk_runs s s'.
Proof.
  intros [E ST]. specialize (ST (b_heap s)). unfold desk_runs.
  replace (desk s') with ((desk s') <| d_heap := b_heap s |>); [exact ST|]. unfold desk. cbn. by rewrite E.
Qed.

Lemma detach_retires id c s : retires s (detach id c s).
Proof.
  unfold detach. cbn zeta. set (s1 := edit_track id _ s). set (s2 := persist_track id s1).
  assert (desk s2 = leave_lane id c (desk s)) as E2.
  { unfold s2, s1. rewrite desk_persist_track. rewrite (desk_edit _ _ (λ l, l <| ln_contexts := ln_contexts l ∖ {[c]} |>)); [done|].
    intros t. unfold lane. cbn. by rewrite dom_delete_L. }
  set (other := head _).
  assert (∀ i, i ≠ id → lane_holds (desk s2) i c ↔ lane_holds (desk s) i c) as SAME.
  { intros i NE. rewrite E2, holds_leave. naive_solver. }
  assert (∀ i, i ∈ filter (λ i, i ≠ id ∧ is_Some (t ← b_tracks s2 !! i; tr_attached t !! c))
                 (walk_tracks (map_to_list (b_tracks s2)).*1) ↔ i ≠ id ∧ lane_holds (desk s) i c) as IN.
  { intros i. rewrite list_elem_of_filter, holds_bind, walk_tracks_elem. split.
    - intros [[NE HO] _]. by rewrite <- SAME.
    - intros [NE HO]. rewrite SAME by done. split; [done|]. apply (holds_track _ _ c). by rewrite SAME. }
  split; [exact (f_equal d_heap E2)|]. intros h. apply rtc_once.
  match goal with |- desk_step _ ?d => replace d with
    (leave_lane id c ((desk s) <| d_heap := h |>) <| d_routes := match other with
       | Some i => <[c := i]> (d_routes ((desk s) <| d_heap := h |>)) | None => delete c (d_routes ((desk s) <| d_heap := h |>)) end |>) end.
  - apply (step_leave ((desk s) <| d_heap := h |>) id c other).
    + intros i E. apply IN. unfold other in E. by apply head_Some_elem_of in E.
    + intros E i NE HO. apply (not_elem_of_nil (A := TrackId) i). rewrite <- (proj1 (head_None _) E). by apply IN.
  - pose proof (f_equal d_lanes E2) as EL. pose proof (f_equal d_routes E2) as ER. unfold desk at 3. cbn in *. by rewrite EL, ER.
Qed.

Lemma step_to d d' d'' : desk_step d d' → d'' = d' → rtc desk_step d d''.
Proof. intros ST ->. by apply rtc_once. Qed.

(** ** A beat *)

(** A reading of the tracks that does not see the write barrier nor the pulse of a context. *)
Class Quiet {A} (v : TrackState → A) := {
  quiet_cursor t k n : v (t <| tr_cursor := k |> <| tr_materialize_failures := n |>) = v t;
  quiet_water t n : v (t <| tr_failure_water := n |>) = v t;
  quiet_attached t c f : v (t <| tr_attached := alter f c (tr_attached t) |>) = v t;
}.
#[export] Instance lane_quiet : Quiet lane.
Proof. split; try done. intros t c f. unfold lane. cbn. by rewrite dom_alter_L. Qed.

Definition view {A} (v : TrackState → A) s : list HeapEntry * gmap TrackId A * gmap ContextId TrackId :=
  (b_heap s, v <$> b_tracks s, b_context_track s).
Lemma view_desk s s' : view lane s' = view lane s → desk s' = desk s.
Proof. unfold view, desk. by intros [= -> -> ->]. Qed.

Section view.
Context {A} (v : TrackState → A) `{!Quiet v}.

Lemma view_edit id f s : (∀ t, v (f t) = v t) → view v (edit_track id f s) = view v s.
Proof.
  intros E. unfold view, edit_track. cbn. do 2 f_equal. apply map_eq. intros i. rewrite !lookup_fmap, lookup_alter.
  case_decide; [subst|done]. destruct (b_tracks s !! i); cbn; by rewrite ?E.
Qed.
Lemma view_foldl {B} (f : BeatScheduler W → B → BeatScheduler W) l s :
  (∀ s a, view v (f s a) = view v s) → view v (foldl f s l) = view v s.
Proof. intros E. revert s. induction l as [|a l IH]; intros s; [done|]. cbn. by rewrite IH, E. Qed.
Lemma view_edit_attachment id c f s : view v (edit_attachment id c f s) = view v s.
Proof. apply view_edit. intros t. apply quiet_attached. Qed.
Lemma view_surface c p s : view v (surface c p s) = view v s.
Proof. unfold surface. by case_match. Qed.
Lemma view_publish_render_cues id a b playhead rd s : view v (publish_render_cues id a b playhead rd s) = view v s.
Proof.
  unfold publish_render_cues. repeat case_match; try done. apply view_foldl. intros s' cell. unfold render_cue.
  by repeat case_match.
Qed.
Lemma view_note_materialized id t r cursor playhead rd s : view v (note_materialized id t r cursor playhead rd s) = view v s.
Proof.
  unfold note_materialized. cbn zeta. repeat case_match; unfold surface_poison;
    rewrite ?view_publish_render_cues, ?view_surface; apply view_edit; intros; apply quiet_cursor.
Qed.
Lemma view_materialize_track id playhead rd s s' : materialize_track id playhead rd s = Done s' → view v s' = view v s.
Proof.
  unfold materialize_track. repeat case_match; try done; intros [= <-]; by rewrite ?view_note_materialized.
Qed.
Lemma view_publish_beat_sync id playhead s : view v (publish_beat_sync id playhead s) = view v s.
Proof. unfold publish_beat_sync. by repeat case_match. Qed.
Lemma view_drain id s : view v (drain_track_failures id s) = view v s.
Proof.
  unfold drain_track_failures. repeat case_match; try done. rewrite view_edit by (intros; apply quiet_water).
  apply view_foldl. intros. apply view_surface.
Qed.
Lemma view_beat_contexts policy n id cs o retiring s o' retiring' s' :
  beat_contexts policy n id cs o retiring s = (o', retiring', s') → view v s' = view v s.
Proof.
  revert o retiring s. induction cs as [|c cs IH]; intros o retiring s; cbn; [by intros [= <- <- <-]|].
  destruct (beat_context policy n id c o retiring s) as [[o1 r1] s1] eqn:E. intros ->%IH. revert E.
  unfold beat_context. repeat case_match; intros [= <- <- <-]; try done; apply view_edit_attachment.
Qed.

(** A beat, up to the contexts that retire on it. *)
Lemma view_process_track now rd id o s o' s' t :
  b_tracks s !! id = Some t → process_track now rd id o s = Done (o', s') →
  ∃ retiring s1, s' = foldl (λ s c, detach id c s) s1 retiring ∧ view v s1 = view v (set_track id
    (t <| tr_playhead := Tick.add (tr_playhead t) STEP |> <| tr_beat_count := wrap_u64 (tr_beat_count t + 1) |>
       <| tr_last_epoch_ns := Z.max 0 (rd_wall rd - wrap_u64 (Z.max 0 (now - tr_last_fire_scheduled t))) |>) s).
Proof.
  intros L. unfold process_track. rewrite L. cbn zeta.
  match goal with |- context [materialize_track _ _ _ (set_track _ ?u _)] => set (t1 := u) end.
  destruct (materialize_track id (tr_playhead t1) rd (set_track id t1 s)) as [s1| |] eqn:M; [|done..].
  apply view_materialize_track in M. rewrite <- M.
  match goal with |- context [drain_track_failures id ?u] => set (s2 := u) end.
  destruct (beat_contexts _ _ _ _ _ _ _) as [[o4 retiring] s4] eqn:B. apply view_beat_contexts in B. intros [= <- <-].
  exists retiring, s4. split; [done|]. rewrite B, view_drain. unfold s2. case_match; by rewrite ?view_publish_beat_sync.
Qed.
End view.

Lemma detach_list_retires id l s : retires s (foldl (λ s c, detach id c s) s l).
Proof.
  revert s. induction l as [|c l IH]; intros s; [done|]. cbn. etransitivity; [apply detach_retires|apply IH].
Qed.

Lemma process_track_retires now rd id o s o' s' : process_track now rd id o s = Done (o', s') → retires s s'.
Proof.
  destruct (b_tracks s !! id) as [t|] eqn:L; [|unfold process_track; rewrite L; by intros [= <- <-]].
  intros (retiring & s1 & -> & E%view_desk)%(view_process_track lane _ _ _ _ _ _ _ t L).
  rewrite (desk_set_same _ _ t) in E by done. etransitivity; [by apply retires_same|apply detach_list_retires].
Qed.

Lemma heap_peek_elem (h : list HeapEntry) e : heap_peek h = Some e → e ∈ h.
Proof.
  revert e. induction h as [|x h IH]; [done|]. intros e. cbn. destruct (heap_peek h) as [y|]; [case_match|];
    intros [= <-]; [left|right; by apply IH|left].
Qed.

Lemma fire_entry_steps fuel now rd e o s o' s' :
  e ∈ b_heap s → fire_entry fuel now rd e o s = Done (o', s') → desk_runs s s'.
Proof.
  intros IN. unfold fire_entry. destruct e as [[at_ id] g]. cbn zeta. set (s0 := (s <| b_heap := heap_remove (at_, id, g) (b_heap s) |>)).
  assert (desk s0 = (desk s) <| d_heap := heap_remove (at_, id, g) (b_heap s) |>) as E0 by done.
  assert ((∀ t, b_tracks s !! id = Some t → tr_playing t = true → tr_generation t ≠ g) → desk_runs s s0) as DROP.
  { intros STALE. apply rtc_once. rewrite E0. apply (step_drop (desk s) (at_, id, g)). cbn. intros l.
    rewrite lookup_fmap_Some. intros (t & <- & L). by apply STALE. }
  change (b_tracks s0) with (b_tracks s). destruct (b_tracks s !! id) as [t|] eqn:L; [|intros [= <- <-]; by apply DROP].
  destruct (negb (tr_playing t) || negb (g =? tr_generation t)) eqn:LIVE.
  { intros [= <- <-]. apply DROP. intros t' E PLAY G. injection E as <-. by rewrite PLAY, G, Z.eqb_refl in LIVE. }
  destruct (process_track _ _ _ _ _) as [[o1 s1]| |] eqn:P; [|done..]. apply process_track_retires in P as [H1 P].
  rewrite (desk_set_same _ _ t) in P by done. cbn in H1.
  unfold rearm. destruct (b_tracks s1 !! id) as [t1|] eqn:L1.
  - destruct (next_fire _ _ _ _) as [[next clock]| |]; [|done..]. intros [= <- <-].
    specialize (P ((next, id, g) :: heap_remove (at_, id, g) (b_heap s))). unfold desk_runs.
    eapply rtc_l; [apply (step_beat (desk s) (at_, id, g) next IN)|]. cbn in P |- *.
    replace (desk _) with ((desk s1) <| d_heap := (next, id, g) :: heap_remove (at_, id, g) (b_heap s) |>); [exact P|].
    unfold desk at 1. cbn. rewrite H1. unfold desk. cbn. f_equal. rewrite fmap_insert, insert_id; [done|]. by rewrite lookup_fmap, L1.
  - intros [= <- <-]. specialize (P (b_heap s)). cbn in P. unfold desk_runs.
    eapply rtc_r; [exact P|].
    set (d := {| d_heap := b_heap s; d_lanes := lane <$> b_tracks s1; d_routes := b_context_track s1 |}).
    assert (desk_step d (d <| d_heap := heap_remove (at_, id, g) (d_heap d) |>)) as ST.
    { apply step_drop. cbn. intros l. by rewrite lookup_fmap, L1. }
    unfold desk. rewrite H1. exact ST.
Qed.

Lemma fire_loop_steps fuel cf now clocks o s o' s' : fire_loop fuel cf now clocks o s = Done (o', s') → desk_runs s s'.
Proof.
  revert o s. induction fuel as [|fuel IH]; intros o s; [done|]. cbn.
  destruct (heap_peek (b_heap s)) as [e|] eqn:PK; [|by intros [= <- <-]].
  case_match; [by intros [= <- <-]|].
  destruct (fire_entry cf now (clocks fuel) e o s) as [[o1 s1]| |] eqn:F; [|done..]. intros ST%IH.
  etransitivity; [|exact ST]. eapply fire_entry_steps; [by apply heap_peek_elem|exact F].
Qed.

(** ** Commands *)

Lemma hold_steps id s : desk_runs s (hold id s).
Proof.
  unfold hold, desk_runs. rewrite desk_persist_track. destruct (b_tracks s !! id) as [t|] eqn:L; [|done].
  apply (step_to _ _ _ (step_hold (desk s) id)).
  etransitivity; [exact (desk_set_track id (t <| tr_playing := false |>) s)|]. unfold desk. cbn. f_equal.
  apply map_eq. intros i. rewrite lookup_insert, lookup_alter. case_decide; [|done]. subst. by rewrite lookup_fmap, L.
Qed.
Lemma hold_contexts id i s l : d_lanes (desk (hold id s)) !! i = Some l →
  ∃ l0, d_lanes (desk s) !! i = Some l0 ∧ ln_contexts l = ln_contexts l0.
Proof.
  unfold hold. rewrite desk_persist_track. destruct (b_tracks s !! id) as [t|] eqn:L; [|by exists l]. cbn.
  rewrite fmap_insert, lookup_insert_Some. intros [(-> & <-)|[_ LI]]; [|by exists l].
  rewrite lookup_fmap, L. by eexists.
Qed.

Lemma play_steps fuel now id s s' :
  (orderly = true → ∀ t, b_tracks s !! id = Some t → tr_generation t + 1 < two64) → play fuel now id s = Some s' → desk_runs s s'.
Proof.
  intros TOP. unfold play. destruct (b_tracks s !! id) as [t|] eqn:L; [|by intros [= <-]].
  destruct (tr_playing t) eqn:OFF; [by intros [= <-]|].
  destruct (next_fire _ _ _ _) as [[next clock]| |]; [|done..]. intros [= <-]. unfold desk_runs. rewrite desk_persist_track.
  assert (d_lanes (desk s) !! id = Some (lane t)) as LL by (cbn; by rewrite lookup_fmap, L).
  apply rtc_once. pose proof (step_play (desk s) id (lane t) next LL OFF (λ ORD, TOP ORD _ eq_refl)) as ST.
  unfold desk at 2, set_track. cbn in *. rewrite fmap_insert. exact ST.
Qed.

Lemma bind_steps id c a s :
  desk_ok (desk s) → is_Some (b_tracks s !! id) → (b_context_track s !! c = None ∨ b_context_track s !! c = Some id) →
  desk_runs s (bind_context id c a s).
Proof.
  intros OK [t L] FREE. unfold bind_context, desk_runs. cbn zeta.
  assert (d_lanes (desk s) !! id = Some (lane t)) as LL by (cbn; by rewrite lookup_fmap, L).
  match goal with |- context [persist_track id ?u] => set (s1 := u) end.
  assert (∀ s2 : BeatScheduler W, desk (if w_has_db (b_world s2) then touch_world (w_hydration_backstop c) s2 else s2) = desk s2) as ->
    by (intros; by case_match).
  rewrite desk_persist_attachment, desk_persist_track. apply (step_to _ _ _ (step_join (desk s) id _ c LL FREE)).
  unfold s1, desk. cbn. f_equal. apply map_eq. intros i. rewrite lookup_fmap, lookup_insert, lookup_alter.
  case_decide; [subst|by rewrite lookup_fmap]. rewrite L. cbn. unfold lane. cbn. by rewrite dom_insert_L.
Qed.

Abbreviation bmethod := (method (BeatScheduler W) (BeatError (w_error (W := W)))).

(** A call that only reads or writes the world. *)
Lemma m_world_same {A} (f : W → result w_error A * W) wrap s r s' :
  m_world f wrap s = Some (r, s') → desk s' = desk s ∧ (∀ id, b_tracks s' !! id = b_tracks s !! id).
Proof. unfold m_world. destruct (f (b_world s)) as [[a|e] w]; by intros [= <- <-]. Qed.

Definition of_desk (P : Desk → Prop) s : Prop := P (desk s).
Lemma triple_world {A} (P : Desk → Prop) (f : W → result w_error A * W) wrap :
  triple desk_runs (of_desk P) (m_world f wrap) (λ _, of_desk P).
Proof.
  intros s r s' HP [E _]%m_world_same. unfold desk_runs, of_desk. rewrite E. split; [done|]. by destruct r.
Qed.
Lemma triple_read {A} (P : Desk → Prop) (f : W → result w_error A) wrap :
  triple desk_runs (of_desk P) (m_read f wrap) (λ _, of_desk P).
Proof. apply triple_world. Qed.
Lemma triple_get_desk {B} (P : Desk → Prop) (k : BeatScheduler W → bmethod B) Q :
  (∀ s0, triple desk_runs (of_desk P) (k s0) Q) → triple desk_runs (of_desk P) (s0 ← m_get; k s0) Q.
Proof. intros K s r s' HP R. exact (K s s r s' HP R). Qed.
Lemma triple_ret_same {A} (a : A) (P Q : BeatScheduler W → Prop) :
  (∀ s, P s → Q s) → triple desk_runs P (m_ret a : bmethod A) (λ _, Q).
Proof. intros PQ s r s' HP [= <- <-]. split; [done|by apply PQ]. Qed.
Lemma triple_from {A} (P P' : BeatScheduler W → Prop) (m : bmethod A) Q :
  triple desk_runs P m Q → (∀ s, P' s → P s) → triple desk_runs P' m Q.
Proof. intros T PP s r s' HP. apply T. by apply PP. Qed.
Lemma triple_same (P : Desk → Prop) (f : BeatScheduler W → BeatScheduler W) :
  (∀ s, desk (f s) = desk s) → triple desk_runs (of_desk P) (m_modify f : bmethod ()) (λ _, of_desk P).
Proof. intros E. apply triple_modify. intros s HP. unfold desk_runs, of_desk. by rewrite E. Qed.

(** *** Attaching *)

Definition vacated id (d : Desk) : Prop := d_lanes d !! id = None → ∀ e, e ∈ d_heap d → e.1.2 ≠ id.
Definition clear id (d : Desk) : Prop := orderly = true → vacated id d.
Definition free id c (d : Desk) : Prop := d_routes d !! c = None ∨ d_routes d !! c = Some id.
Definition open_ id (d : Desk) : Prop := is_Some (d_lanes d !! id).

Lemma lanes_detach id c s : d_lanes (desk (detach id c s)) = d_lanes (leave_lane id c (desk s)).
Proof.
  unfold detach. cbn zeta. match goal with |- context [persist_track id ?u] => transitivity (d_lanes (desk (persist_track id u))) end;
    [done|]. rewrite desk_persist_track. rewrite (desk_edit _ _ (λ l, l <| ln_contexts := ln_contexts l ∖ {[c]} |>)); [done|].
  intros t. unfold lane. cbn. by rewrite dom_delete_L.
Qed.

Lemma detach_moved id old c s :
  desk_ok (desk s) → clear id (desk s) → b_context_track s !! c = Some old →
  let d := desk (detach old c s) in desk_ok d ∧ clear id d ∧ free id c d.
Proof.
  intros OK CL R d. pose proof (detach_retires old c s) as RET. pose proof (desk_steps_ok _ _ (retires_steps _ _ RET) OK) as OK'.
  split; [exact OK'|]. split.
  - intros ORD NONE e IN. apply (CL ORD); [|change (e ∈ b_heap (detach old c s)) in IN; by rewrite (proj1 RET) in IN]. unfold d in NONE.
    rewrite lanes_detach in NONE. cbn in NONE. by apply lookup_alter_None in NONE.
  - left. destruct (d_routes d !! c) as [i|] eqn:RI; [|done]. apply (ok_routes _ OK') in RI.
    assert (lane_holds (leave_lane old c (desk s)) i c) as HO by (destruct RI as (l & L & IN); exists l; by rewrite <- lanes_detach).
    apply holds_leave in HO as [HO NA]. apply (ok_routes _ OK) in HO. cbn in HO. naive_solver.
Qed.

Lemma create_track_steps now id c policy log :
  triple desk_runs (of_desk (λ d, (desk_ok d ∧ clear id d ∧ free id c d) ∧ d_lanes d !! id = None)) (create_track now id policy log)
    (λ _, of_desk (λ d, desk_ok d ∧ free id c d ∧ open_ id d)).
Proof.
  set (P := λ d, (desk_ok d ∧ clear id d ∧ free id c d) ∧ d_lanes d !! id = None). unfold create_track.
  apply triple_get_desk. intros s0.
  eapply triple_bind; [exact _| |intros persisted].
  { instantiate (1 := λ _, of_desk P). case_match; [apply triple_read|]. by apply triple_ret_same. }
  cbn zeta. eapply triple_bind; [exact _| |intros clock].
  { instantiate (1 := λ _, of_desk P). repeat case_match; try (apply triple_fail; exact _).
    all: by apply triple_ret_same. }
  eapply triple_bind; [exact _| |intros score].
  { instantiate (1 := λ _, of_desk P). case_match; [|apply triple_world].
    by apply triple_ret_same. }
  apply triple_get_desk. intros s1. destruct (w_arm_timeline _ _ _ _ _) as [restored w].
  apply triple_modify. intros s ((OK & CL & FR) & NONE).
  match goal with |- desk_runs s ?u ∧ _ => set (s' := u) end.
  assert (rtc desk_step (desk s) (desk s')) as ST.
  { apply (step_to _ _ _ (step_open (desk s) id NONE (λ ORD, CL ORD NONE))). unfold s', desk, set_track. cbn. f_equal. rewrite fmap_insert.
    unfold lane at 1. cbn. by rewrite dom_empty_L. }
  split; [exact ST|]. split; [exact (desk_steps_ok _ _ ST OK)|]. split; [exact FR|]. unfold open_, s'. rewrite desk_set_track. cbn.
  rewrite lookup_insert_eq. by eexists.
Qed.

Lemma pull_track_steps id log (P : Desk → Prop) : triple desk_runs (of_desk P) (pull_track id log) (λ _, of_desk P).
Proof.
  intros s r s' HP. unfold pull_track, m_engine. destruct (b_tracks s !! id) as [t|]; [|done].
  case_match eqn:E; [|done..]. destruct a as [[] s1]. intros [= <- <-].
  assert (desk s1 = desk s) as D.
  { revert E. case_match; [|by intros [= <-]]. case_match; [|done..]. intros [= <-]. by rewrite desk_edit_same. }
  unfold desk_runs, of_desk. by rewrite D.
Qed.

Lemma attach_steps now id c a policy :
  triple desk_runs (of_desk (λ d, desk_ok d ∧ clear id d)) (attach now id c a policy) (λ _, of_desk desk_ok).
Proof.
  unfold attach. apply triple_get_bind. intros s0 [OK CL].
  set (P1 := λ d, desk_ok d ∧ clear id d ∧ free id c d).
  eapply (triple_bind _ _ _ (λ _, of_desk P1)); [|intros ?].
  { unfold track_of. destruct (b_context_track s0 !! c) as [old|] eqn:R; [case_decide|].
    - apply triple_ret_same. intros s ->. subst. unfold of_desk, P1, free. cbn. auto.
    - apply triple_modify. intros s ->. destruct (detach_moved id old c s0 OK CL R) as (? & ? & ?).
      case_match; (split; [exact (retires_steps _ _ (detach_retires old c s0))|done]).
    - apply triple_ret_same. intros s ->. unfold of_desk, P1, free. cbn. auto. }
  eapply triple_bind; [exact _|apply triple_read|intros ctx_max]. cbn zeta.
  set (P2 := λ d, desk_ok d ∧ free id c d ∧ open_ id d).
  apply triple_get_bind. intros s1 (OK1 & CL1 & FR1).
  eapply (triple_bind _ _ _ (λ _, of_desk P2)); [|intros ?].
  { destruct (b_tracks s1 !! id) as [t|] eqn:L.
    - apply triple_ret_same. intros s ->. split; [done|]. split; [done|]. unfold open_. cbn.
      rewrite lookup_fmap, L. by eexists.
    - eapply triple_from; [apply (create_track_steps now id c)|]. intros s ->. split; [done|]. cbn. by rewrite lookup_fmap, L. }
  eapply triple_bind; [exact _|apply pull_track_steps|intros ?]. apply triple_modify. intros s (OK2 & FR2 & OP2).
  assert (desk_runs s (bind_context id c a s)) as ST.
  { apply bind_steps; [done| |done]. unfold open_ in OP2. cbn in OP2. by rewrite lookup_fmap, fmap_is_Some in OP2. }
  split; [exact ST|]. exact (desk_steps_ok _ _ ST OK2).
Qed.

(** *** Deleting *)

Lemma delete_attachments_steps id cs (P : Desk → Prop) : triple desk_runs (of_desk P) (delete_attachments id cs) (λ _, of_desk P).
Proof.
  induction cs as [|c cs IH]; cbn; [by apply triple_ret_same|]. eapply triple_bind; [exact _|apply triple_world|intros ?; apply IH].
Qed.

(** The contexts of a lane are among [cs]. *)
Definition only id (cs : list ContextId) (d : Desk) : Prop := ∀ l, d_lanes d !! id = Some l → ∀ c, c ∈ ln_contexts l → c ∈ cs.

Lemma detach_all_steps id cs : triple desk_runs (of_desk (only id cs)) (detach_all id cs) (λ _, of_desk (only id [])).
Proof.
  induction cs as [|c cs IH]; cbn; [by apply triple_ret_same|].
  eapply (triple_bind _ _ _ (λ _, of_desk (only id cs))); [|intros ?].
  - apply triple_modify. intros s ON. split; [exact (retires_steps _ _ (detach_retires id c s))|].
    intros l L x IN. rewrite lanes_detach in L. assert (lane_holds (leave_lane id c (desk s)) id x) as HO by (by exists l).
    apply holds_leave in HO as [(l0 & L0 & IN0) NA]. specialize (ON _ L0 _ IN0). apply elem_of_cons in ON as [->|?]; [|done].
    by destruct NA.
  - apply triple_get_desk. intros s0. eapply (triple_bind _ _ _ (λ _, of_desk (only id cs))); [|intros ?; exact IH].
    case_match; [apply triple_world|by apply triple_ret_same].
Qed.

Lemma walk_contexts_elem t c : c ∈ walk_contexts (map_to_list (tr_attached t)).*1 ↔ c ∈ dom (tr_attached t).
Proof.
  rewrite walk_contexts_all, list_elem_of_fmap, elem_of_dom. split.
  - intros ([i a] & -> & IN%elem_of_map_to_list). by exists a.
  - intros [a L]. exists (c, a). split; [done|]. by apply elem_of_map_to_list.
Qed.

Lemma delete_cold_steps id P : triple desk_runs (of_desk P) (delete_cold id) (λ _, of_desk P).
Proof.
  unfold delete_cold. apply triple_get_desk. intros s0. eapply (triple_bind _ _ _ (λ _, of_desk P)); [|intros ?].
  { unfold m_guard. case_match; [by apply triple_ret_same|apply triple_fail; exact _]. }
  eapply triple_bind; [exact _|apply triple_read|intros row]. eapply (triple_bind _ _ _ (λ _, of_desk P)); [|intros ?].
  { unfold m_guard. case_match; [by apply triple_ret_same|apply triple_fail; exact _]. }
  eapply triple_bind; [exact _|apply triple_read|intros attachments].
  eapply triple_bind; [exact _|apply delete_attachments_steps|intros ?].
  eapply triple_bind; [exact _|apply triple_world|intros name]. by apply triple_ret_same.
Qed.

Lemma delete_track_steps id : triple desk_runs (λ _, True) (delete_track id) (λ _ _, True).
Proof.
  unfold delete_track. apply triple_get_bind. intros s0 _. destruct (b_tracks s0 !! id) as [t|] eqn:L.
  2: { intros s r s' _ R. pose proof (delete_cold_steps id (λ _, True) s r s' I R) as [? _]. by destruct r. }
  set (cs := walk_contexts _).
  eapply (triple_bind _ _ _ (λ _, of_desk (only id cs))); [|intros ?].
  { apply triple_modify. intros s ->. split; [apply hold_steps|]. intros l LH c IN.
    destruct (hold_contexts _ _ _ _ LH) as (l0 & L0 & E). cbn in L0. rewrite lookup_fmap, L in L0. injection L0 as <-.
    unfold cs. apply walk_contexts_elem. by rewrite E in IN. }
  eapply triple_bind; [exact _|apply detach_all_steps|intros ?]. apply triple_get_desk. intros s1.
  eapply (triple_bind _ _ _ (λ _, of_desk (only id []))); [|intros tombstone].
  { case_match; [|by apply triple_ret_same]. eapply triple_bind; [exact _|apply triple_read|intros leftovers].
    eapply triple_bind; [exact _|apply delete_attachments_steps|intros ?].
    eapply triple_bind; [exact _|apply triple_world|intros name]. by apply triple_ret_same. }
  eapply triple_bind; [exact _|by apply triple_same|intros ?].
  eapply (triple_bind _ _ _ (λ _ _, True)); [|intros ?; by apply triple_ret_same].
  apply triple_modify. intros s ON. split; [|done]. unfold desk_runs.
  assert (∀ l, d_lanes (desk s) !! id = Some l → ln_contexts l = ∅) as EMPTY.
  { intros l LL. apply set_eq. intros c. split; [|set_solver]. intros IN. specialize (ON _ LL _ IN). by apply elem_of_nil in ON. }
  apply (step_to _ _ _ (step_close (desk s) id EMPTY)). unfold desk. cbn. by rewrite fmap_delete.
Qed.

(** ** Events *)

(** A wake-up of a deleted track is not pending when the track is attached to anew; a track
    is not played 2^64 times. *)
Definition admissible (e : BeatEvent) s : Prop :=
  match e with
  | Command _ (Attach id _ _ _) => vacated id (desk s)
  | Command _ (Play id) => ∀ t, b_tracks s !! id = Some t → tr_generation t + 1 < two64
  | _ => True
  end.

Lemma triple_ack P id : triple desk_runs P (track_ack id) (λ _ _, True).
Proof.
  unfold track_ack. intros s r s' _. unfold mbind, method_bind, m_bind, m_get.
  case_match; intros [= <- <-]; by split.
Qed.
Lemma triple_attached_ack P id c : triple desk_runs P (attached_ack id c) (λ _ _, True).
Proof.
  unfold attached_ack. intros s r s' _. unfold mbind at 1, method_bind, m_bind, m_get.
  case_match; intros [= <- <-]; by split.
Qed.
Lemma triple_command {A} (P : BeatScheduler W → Prop) f (k : () → bmethod A) :
  (∀ s, P s → desk_runs s (f s)) → (∀ a, triple desk_runs (λ _, True) (k a) (λ _ _, True)) →
  triple desk_runs P (m_modify f ≫= k) (λ _ _, True).
Proof.
  intros F K. eapply (triple_bind _ _ _ (λ _ _, True)); [|exact K]. apply triple_modify. intros s HP. split; [by apply F|done].
Qed.
Lemma steps_same s s' : desk s' = desk s → desk_runs s s'.
Proof. intros E. unfold desk_runs. by rewrite E. Qed.

Lemma apply_command_steps fuel now command :
  triple desk_runs (λ s, desk_ok (desk s) ∧ (orderly = true → admissible (Command now command) s)) (apply_command fuel now command) (λ _ _, True).
Proof.
  destruct command as [id c a policy|id c|id|id|id|id period|id c armed|id c cadence|id kind|id]; cbn.
  - eapply triple_bind; [exact _|apply attach_steps|intros ?; by apply triple_ret_same].
  - apply triple_command; [intros s _; apply retires_steps, detach_retires|intros ?; by apply triple_ret_same].
  - eapply (triple_bind _ _ _ (λ _ _, True)); [|intros ?; apply triple_ack]. intros s r s' [OK TOP].
    destruct (play fuel now id s) as [s1|] eqn:P; [|done]. cbn. intros [= <- <-]. split; [|done]. by eapply play_steps.
  - apply triple_command; [intros s _; apply hold_steps|intros ?; apply triple_ack].
  - apply triple_command; [intros s _; apply hold_steps|intros ?; apply triple_ack].
  - apply triple_command; [intros s _; apply steps_same|intros ?; apply triple_ack].
    unfold set_track_tempo. by rewrite desk_persist_track, desk_reslave, desk_edit_same.
  - apply triple_command; [intros s _; apply steps_same|intros ?; apply triple_attached_ack].
    unfold set_ooda. by rewrite desk_persist_attachment, desk_edit_attachment.
  - apply triple_command; [intros s _; apply steps_same|intros ?; apply triple_attached_ack].
    unfold set_rotate. by rewrite desk_persist_attachment, desk_edit_attachment.
  - apply triple_command; [intros s _; apply steps_same|intros ?; apply triple_ack].
    unfold set_track_clock. by rewrite desk_persist_track, desk_edit_same.
  - intros s r s' _ R. exact (delete_track_steps id s r s' I R).
Qed.

Lemma desk_on_turn_completed c b s : desk (on_turn_completed c b s) = desk s.
Proof.
  unfold on_turn_completed. repeat case_match; try done. unfold schedule_act. cbn zeta.
  destruct (w_schedule_abc _ _ _ _ _ _) as [r w]. rewrite <- (desk_edit_same t (λ t, t <| tr_attached :=
    alter (λ ac, ac <| ac_producer_principal := Some (principal_id (sn_id b0)) |>) c (tr_attached t) |>) s).
  - by case_match.
  - intros u. unfold lane. cbn. by rewrite dom_alter_L.
Qed.
Lemma desk_estimate now now_ns c beat bps epoch s s' :
  apply_clock_estimate now now_ns c beat bps epoch s = Some s' → desk s' = desk s.
Proof.
  unfold apply_clock_estimate. destruct (claims c s) as [|id _]; [by intros [= <-]|]. cbn zeta.
  case_match; [by intros [= <-]|]. destruct (b_tracks s !! id) as [t|] eqn:L; [|by intros [= <-]].
  destruct (tr_clock t); [by intros [= <-]|]. destruct (apply_estimate _ _ _ _) as [m|]; cbn; [|done]. intros [= <-].
  rewrite desk_reslave. by apply (desk_set_same _ _ t).
Qed.
Lemma desk_commit_capture c payload p s r s' : commit_capture c payload p s = Some (r, s') → desk s' = desk s.
Proof.
  unfold commit_capture, mbind at 1, method_bind, m_bind at 1, m_read, m_world at 1. destruct (w_window_start_ns payload) as [ns|e];
    [|by intros [= <- <-]].
  unfold mbind, method_bind, m_bind, m_get. cbn [b_tracks]. set (s1 := s <| b_world := b_world s |>).
  change (desk s) with (desk s1). clearbody s1. destruct (claims c s1) as [|id [|other l]]; [by intros [= <- <-]| |by intros [= <- <-]].
  destruct (b_tracks s1 !! id) as [t|]; [|done]. destruct (capture_tick t ns) as [tick rolling].
  intros E. by apply m_world_same in E as [-> _].
Qed.

Lemma on_event_steps fuel cf e s s' :
  desk_ok (desk s) → (orderly = true → admissible e s) → on_beat_event fuel cf e s = Some s' → desk_runs s s'.
Proof.
  intros OK AD. destruct e as [now command|c payload p|now now_ns c beat bps epoch|c b|now clocks]; cbn.
  - intros ([r s1] & R & ->)%fmap_Some. by apply (apply_command_steps cf now command s r s1).
  - intros ([r s1] & R & ->)%fmap_Some. by apply steps_same, (desk_commit_capture c payload p s r).
  - intros E. by apply steps_same, (desk_estimate _ _ _ _ _ _ _ _ E).
  - intros [= <-]. by apply steps_same, desk_on_turn_completed.
  - case_match eqn:F; [|done..]. destruct a as [o s1]. intros [= <-]. by eapply fire_loop_steps.
Qed.
End steps.
