(* ===== verification/BeatRuns.v ===== *)
(** * What the transport does

    A playing track has a wake-up, and only one after an orderly history; a context is on one
    track; the wake-ups of the kernel's own clocks are served in a bounded number of turns;
    a beat stays on the grid of its clock; a cell that cannot be materialized is passed over;
    a restart takes a track up where its row says. *)

From Stdlib Require Import SpecFloat.
From S2P Require Import Prelude MethodLogic Float64 Text Tick Ids Track Cas Cell Concrete Timeline Block Hydrate Beat BeatSteps.

(** The parts of a track that only its clock and its transport change. *)
Definition core (t : TrackState) : TrackState :=
  t <| tr_cursor := {| mk_high_water := 0; mk_artifacts_done := 0; mk_source_block_id := None |} |>
    <| tr_materialize_failures := 0 |> <| tr_failure_water := 0%nat |> <| tr_attached := ∅ |>.
#[export] Instance core_quiet : Quiet core.
Proof. by split. Qed.

(** An engine that always answers. *)
Class WorldAnswers `{!JsonLib, !BlockLib} W `{!World W} := {
  pull_answers id tick (w : W) : ∃ w', w_pull_timeline id tick w = Done w';
  materialize_answers id c k (w : W) : ∃ r, w_materialize_committed id c k w = Done r;
}.

Section runs.
Context {uuidc : UuidCrate} {json : JsonLib} {blib : BlockLib} {W : Type} {world : World W} {order : HashWalk} {walk : HashWalkLaws}.
Implicit Types (s : BeatScheduler W) (t : TrackState) (id : TrackId) (c : ContextId).

(** ** Histories *)

(** What any events make of a new scheduler, as long as it returns from each; [reached true]:
    events that are [admissible]. *)
Inductive reached (orderly : bool) : BeatScheduler W → Prop :=
  | reach_start w : reached orderly (beat_new w)
  | reach_event fuel clock_fuel e s s' :
      reached orderly s → (orderly = true → admissible e s) → on_beat_event fuel clock_fuel e s = Some s' → reached orderly s'.

Lemma reached_ok o s : reached o s → desk_ok (orderly := o) (desk s).
Proof.
  induction 1 as [w|fuel cf e s s' _ OK AD EV].
  - split; cbn; intros *; rewrite ?fmap_empty, ?lookup_empty; try done. unfold lane_holds. cbn.
    setoid_rewrite lookup_fmap. setoid_rewrite lookup_empty. naive_solver.
  - exact (desk_steps_ok _ _ (on_event_steps fuel cf e s s' OK AD EV) OK).
Qed.

(** C13: the scheduler implements the desk: whatever events it is given, what becomes of the
    wake-ups, of the tracks and of the track of each context is some steps of a [Desk]. If no
    track is attached anew while a wake-up of its name is pending, and none is played with
    its generation at the last of 64 bits ([admissible]), they are steps of an [orderly]
    desk. *)
Theorem transport_refines o s :
  reached o s → ∃ w, rtc (desk_step (orderly := o)) (desk (beat_new (W := W) w)) (desk s).
Proof.
  induction 1 as [w|fuel cf e s s' R [w IH] AD EV]; [by exists w|]. exists w. etransitivity; [exact IH|].
  by apply (on_event_steps fuel cf e s s' (reached_ok _ _ R)).
Qed.

(** C10: after any events a playing track has a pending wake-up that its generation lets
    beat; it has exactly one if no track was attached anew while a wake-up of its name was
    pending and none was played with its generation at the last of 64 bits ([admissible]).
    So a track that is stopped and played again within a beat does not beat twice; one that
    is deleted and made anew within a beat can ([recreated_beats_twice]). *)
Theorem one_live_entry o s id t :
  reached o s → b_tracks s !! id = Some t → tr_playing t = true →
  let live := length (live_entries id (tr_generation t) (b_heap s)) in
  (1 ≤ live)%nat ∧ (o = true → live = 1%nat).
Proof.
  intros R L PLAY live. pose proof (reached_ok _ _ R) as OK.
  assert (d_lanes (desk s) !! id = Some (lane t)) as LN by (cbn; by rewrite lookup_fmap, L). split.
  - exact (ok_woken _ OK id (lane t) LN PLAY).
  - intros ORD. exact (ok_live _ OK id (lane t) ORD LN PLAY).
Qed.

Lemma one_track o s c id : reached o s → b_context_track s !! c = Some id ↔ ∃ t, b_tracks s !! id = Some t ∧ is_Some (tr_attached t !! c).
Proof. intros R. rewrite <- holds_desk. apply (ok_routes _ (reached_ok _ _ R)). Qed.

Lemma claims_elem s c id : id ∈ claims c s ↔ lane_holds (desk s) id c.
Proof.
  unfold claims. rewrite list_elem_of_filter, holds_bind, walk_tracks_elem. split; [by intros [? _]|].
  intros HO. split; [done|]. by eapply holds_track.
Qed.
Lemma claims_nodup s c : NoDup (claims c s).
Proof. unfold claims. apply NoDup_filter. rewrite walk_tracks_all. apply NoDup_fst_map_to_list. Qed.
Lemma claims_one o s c : reached o s → claims c s = option_list (b_context_track s !! c).
Proof.
  intros R. assert (∀ i, i ∈ claims c s ↔ b_context_track s !! c = Some i) as IN.
  { intros i. rewrite claims_elem. symmetry. apply (ok_routes _ (reached_ok _ _ R)). }
  pose proof (claims_nodup s c) as ND. destruct (claims c s) as [|i [|j l]].
  - destruct (_ !! c) as [i|] eqn:E; [|done]. exfalso. by apply (not_elem_of_nil i), IN.
  - assert (b_context_track s !! c = Some i) as -> by (apply IN; set_solver). done.
  - exfalso. assert (b_context_track s !! c = Some i) as E by (apply IN; set_solver).
    assert (b_context_track s !! c = Some j) as E' by (apply IN; set_solver). simplify_eq. apply NoDup_cons in ND as [ND _]. set_solver.
Qed.

(** The integers a double is rounded to: half away from zero, held within 64 bits. *)
Inductive rounds_to : f64 → Z → Prop :=
  | rounds_zero b : rounds_to (S754_zero b) 0
  | rounds_nan : rounds_to S754_nan 0
  | rounds_infinity b : rounds_to (S754_infinity b) (if b then i64_min else i64_max)
  | rounds_whole b m e : 0 ≤ e → rounds_to (S754_finite b m e) (sat_i64 (signed_mantissa b m * 2 ^ e))
  | rounds_nearest b m e n :
      let unit := 2 ^ (- e) in
      e < 0 → 2 * Z.abs (n * unit - signed_mantissa b m) ≤ unit →
      (2 * Z.abs (n * unit - signed_mantissa b m) = unit → Z.pos m < Z.abs n * unit) →
      rounds_to (S754_finite b m e) (sat_i64 n).

Lemma round_nearest m k : 0 < k → let unit := 2 ^ k in let n := (2 * Z.pos m + unit) / 2 ^ (k + 1) in
  0 ≤ n ∧ - unit < 2 * (n * unit - Z.pos m) ≤ unit.
Proof.
  intros POS unit n. assert (0 < unit) as U by (unfold unit; lia).
  assert (2 ^ (k + 1) = 2 * unit) as TWO by (unfold unit; rewrite Z.pow_add_r; lia).
  pose proof (Z.div_mod (2 * Z.pos m + unit) (2 ^ (k + 1)) ltac:(lia)) as DM.
  pose proof (Z.mod_pos_bound (2 * Z.pos m + unit) (2 ^ (k + 1)) ltac:(lia)).
  split; [apply Z.div_pos; lia|]. fold n in DM. rewrite TWO in *. lia.
Qed.
Lemma round_rounds x : rounds_to x (f64_round_i64 x).
Proof.
  destruct x as [b|b| |b m e]; [constructor..|]. unfold f64_round_i64. destruct (0 <=? e) eqn:E.
  - replace (if b then _ else _) with (signed_mantissa b m * 2 ^ e) by (destruct b; cbn; lia). constructor. lia.
  - destruct (round_nearest m (- e) ltac:(lia)) as [POS NEAR]. set (n := _ / _) in *.
    constructor; [lia|..]; destruct b; cbn [signed_mantissa]; try lia.
    all: destruct (decide (n = 0)); subst; nia.
Qed.

(** C30: a captured batch is never refused for want of one grid: the context is on one track
    at most, the one its reverse index names. The batch lands in that track's score: at its
    playhead if it is not rolling, and else off its playhead by the number of beats from the
    track's last epoch to the first event, which is the nearest to the quotient of the two
    durations in double precision. *)
Theorem capture_one_grid s c payload p r s' :
  reached false s → commit_capture c payload p s = Some (r, s') →
  match r with
  | Ok block_id => ∃ id t start_ns tick,
      b_context_track s !! c = Some id ∧ b_tracks s !! id = Some t ∧ w_window_start_ns payload = Ok start_ns ∧
      let period := cast_i64 (clock_period (tr_clock t)) in
      let rolling := tr_playing t && (0 <? tr_last_epoch_ns t) && (0 <? period) in
      (if rolling then ∃ beats,
         rounds_to (f64_div (f64_of_Z (wrap_i64 (cast_i64 start_ns - cast_i64 (tr_last_epoch_ns t)))) (f64_of_Z period)) beats ∧
         tick = Tick.add (tr_playhead t) (TickDelta.new beats)
       else tick = tr_playhead t) ∧
      (w_insert_capture (tr_score_context t) tick id p payload {|
         qz_anchor_epoch_ns := tr_last_epoch_ns t; qz_anchor_tick := tick_get (tr_playhead t); qz_period_ns := period;
         qz_ticks_per_beat := 1; qz_rolling := rolling |} (b_world s)).1 = Ok block_id
  | Err (CaptureAmbiguous _ _) => False
  | Err (CaptureUnattached c') => c' = c ∧ b_context_track s !! c = None
  | Err _ => True
  end.
Proof.
  intros R. unfold commit_capture, mbind at 1, method_bind, m_bind at 1, m_read, m_world at 1.
  destruct (w_window_start_ns payload) as [ns|e] eqn:NS; [|by intros [= <- <-]].
  unfold mbind, method_bind, m_bind, m_get. cbn [b_tracks].
  replace (s <| b_world := b_world s |>) with s by (by destruct s). rewrite (claims_one _ s c R).
  destruct (b_context_track s !! c) as [id|] eqn:ROUTE; cbn -[capture_tick]; [|by intros [= <- <-]].
  destruct (proj1 (one_track _ s c id R) ROUTE) as (t & L & _). rewrite L. unfold capture_tick. cbn zeta.
  set (rolling := tr_playing t && _ && _). unfold m_world.
  destruct (w_insert_capture _ _ _ _ _ _ _) as [[b|e] w] eqn:INS; intros [= <- <-]; [|done].
  eexists id, t, ns, _. repeat split; try done; [|exact (f_equal fst INS)].
  cbn zeta. fold rolling. destruct rolling; [|done]. eexists. split; [apply round_rounds|done].
Qed.

(** ** Beats *)

Lemma tracks_persist id s : b_tracks (persist_track id s) = b_tracks s.
Proof. unfold persist_track. by repeat case_match. Qed.
Lemma core_detach id c s : core <$> b_tracks (detach id c s) = core <$> b_tracks s.
Proof.
  unfold detach.
  change (core <$> b_tracks (persist_track id (edit_track id (λ t, t <| tr_attached := delete c (tr_attached t) |>) s)) = core <$> b_tracks s).
  rewrite tracks_persist.
  assert (∀ t, core (t <| tr_attached := delete c (tr_attached t) |>) = core t) as E by done.
  exact (f_equal (λ v, v.1.2) (view_edit core id _ s E)).
Qed.
Lemma core_detach_list id l s : core <$> b_tracks (foldl (λ s c, detach id c s) s l) = core <$> b_tracks s.
Proof. revert s. induction l as [|c l IH]; intros s; [done|]. cbn. by rewrite IH, core_detach. Qed.

(** Every other track is the same. *)
Definition spares id s s' : Prop := ∀ i, i ≠ id → b_tracks s' !! i = b_tracks s !! i.
#[export] Instance spares_preorder id : PreOrder (spares id).
Proof. split; [done|]. intros s1 s2 s3 S12 S23 i NE. by rewrite S23, S12. Qed.
Lemma spares_same id s s' : b_tracks s' = b_tracks s → spares id s s'.
Proof. by intros E i _; rewrite E. Qed.
Lemma spares_edit id f s : spares id s (edit_track id f s).
Proof. intros i NE. cbn. by rewrite lookup_alter_ne. Qed.
Lemma spares_set id t s : spares id s (set_track id t s).
Proof. intros i NE. cbn. by rewrite lookup_insert_ne. Qed.
Lemma spares_detach id c s : spares id s (detach id c s).
Proof.
  unfold detach. transitivity (edit_track id (λ t, t <| tr_attached := delete c (tr_attached t) |>) s); [apply spares_edit|].
  apply spares_same. cbn. by rewrite tracks_persist.
Qed.
Lemma spares_foldl {B} id (f : BeatScheduler W → B → BeatScheduler W) l s :
  (∀ s a, spares id s (f s a)) → spares id s (foldl f s l).
Proof. intros E. revert s. induction l as [|a l IH]; intros s; [done|]. cbn. by rewrite <- IH. Qed.
Lemma tracks_surface c payload s : b_tracks (surface c payload s) = b_tracks s.
Proof. unfold surface. by case_match. Qed.
Lemma spares_note id t r k playhead rd s : spares id s (note_materialized id t r k playhead rd s).
Proof.
  unfold note_materialized. cbn zeta. repeat case_match; try apply spares_edit.
  - etransitivity; [apply spares_edit|]. unfold publish_render_cues. repeat case_match; try done.
    apply spares_foldl. intros s1 cell. apply spares_same. unfold render_cue. by repeat case_match.
  - etransitivity; [apply spares_edit|]. apply spares_same. unfold surface_poison. by rewrite tracks_surface.
Qed.
Lemma spares_materialize id playhead rd s s' : materialize_track id playhead rd s = Done s' → spares id s s'.
Proof.
  unfold materialize_track. repeat case_match; try done; intros [= <-]; try done.
  etransitivity; [|apply spares_note]. by apply spares_same.
Qed.
Lemma spares_drain id s : spares id s (drain_track_failures id s).
Proof.
  unfold drain_track_failures. repeat case_match; try done. etransitivity; [|apply spares_edit].
  apply spares_foldl. intros s1 ev. apply spares_same. by apply tracks_surface.
Qed.
Lemma spares_beats policy n id cs o retiring s o' retiring' s' :
  beat_contexts policy n id cs o retiring s = (o', retiring', s') → spares id s s'.
Proof.
  revert o retiring s. induction cs as [|c cs IH]; intros o retiring s; cbn; [by intros [= <- <- <-]|].
  destruct (beat_context policy n id c o retiring s) as [[o1 r1] s1] eqn:E. intros <-%IH. revert E.
  unfold beat_context. repeat case_match; intros [= <- <- <-]; try done; apply spares_edit.
Qed.
Lemma spares_process now rd id o s o' s' : process_track now rd id o s = Done (o', s') → spares id s s'.
Proof.
  unfold process_track. destruct (b_tracks s !! id) as [t|]; [|by intros [= <- <-]]. cbn zeta.
  destruct (materialize_track _ _ _ _) as [s1| |] eqn:M; [|done..]. apply spares_materialize in M.
  destruct (beat_contexts _ _ _ _ _ _ _) as [[o4 retiring] s4] eqn:B. apply spares_beats in B. intros [= <- <-].
  etransitivity; [apply spares_set|]. etransitivity; [exact M|]. etransitivity; [|apply spares_foldl; intros; apply spares_detach].
  etransitivity; [|exact B]. etransitivity; [|apply spares_drain]. case_match; [|done]. apply spares_same.
  unfold publish_beat_sync. by repeat case_match.
Qed.

(** What a beat scheduled at [sched] and served at [now] makes of a track. *)
Definition after_beat (now sched : Instant) (rd : Readings) (t : TrackState) : TrackState :=
  t <| tr_last_fire_scheduled := sched |> <| tr_playhead := Tick.add (tr_playhead t) STEP |>
    <| tr_beat_count := wrap_u64 (tr_beat_count t + 1) |>
    <| tr_last_epoch_ns := Z.max 0 (rd_wall rd - wrap_u64 (Z.max 0 (now - sched))) |>.

Lemma process_core now rd id o s o' s' t :
  b_tracks s !! id = Some t → process_track now rd id o s = Done (o', s') →
  b_heap s' = b_heap s ∧
  core <$> b_tracks s' = <[id := core (after_beat now (tr_last_fire_scheduled t) rd t)]> (core <$> b_tracks s).
Proof.
  intros L P. destruct (process_track_retires (orderly := false) _ _ _ _ _ _ _ P) as [HP _]. split; [exact HP|].
  destruct (view_process_track core _ _ _ _ _ _ _ _ L P) as (retiring & s1 & -> & E).
  rewrite core_detach_list. etransitivity; [exact (f_equal (λ v, v.1.2) E)|]. cbn. rewrite fmap_insert. done.
Qed.

Section answers.
Context `{!WorldAnswers W}.

Lemma process_track_done now rd id o s : ∃ o' s', process_track now rd id o s = Done (o', s').
Proof.
  unfold process_track. destruct (b_tracks s !! id) as [t|] eqn:L; [|by eexists _, _]. cbn zeta.
  match goal with |- context [materialize_track id ?p rd ?u] => assert (∃ s1, materialize_track id p rd u = Done s1) as [s1 ->] end.
  { unfold materialize_track. case_match; [|by eexists]. case_match; [by eexists|].
    match goal with |- context [w_pull_timeline ?a ?b ?w] => destruct (pull_answers a b w) as [w' ->] end.
    match goal with |- context [w_materialize_committed ?a ?b ?k ?w] => destruct (materialize_answers a b k w) as [[[r k'] w''] ->] end.
    by eexists. }
  destruct (beat_contexts _ _ _ _ _ _ _) as [[o4 retiring] s4]. by eexists _, _.
Qed.

Lemma fire_live cf now rd at_ id g o s t next k :
  b_tracks s !! id = Some t → tr_playing t = true → tr_generation t = g →
  let sched := grid_instant (clock_period (tr_clock t)) at_ now in
  next_fire cf sched sched (tr_clock t) = Done (next, k) →
  ∃ o' s', fire_entry cf now rd (at_, id, g) o s = Done (o', s') ∧
    b_heap s' = (next, id, g) :: heap_remove (at_, id, g) (b_heap s) ∧
    core <$> b_tracks s' = <[id := core (after_beat now sched rd t <| tr_clock := k |>)]> (core <$> b_tracks s) ∧ spares id s s'.
Proof.
  intros L PLAY GEN sched NEXT. unfold fire_entry. cbn [b_tracks]. set (s0 := (s <| b_heap := heap_remove (at_, id, g) (b_heap s) |>)).
  change (b_tracks s0) with (b_tracks s). rewrite L, PLAY, GEN, Z.eqb_refl. cbn [negb orb].
  fold sched. set (t1 := t <| tr_last_fire_scheduled := sched |>).
  destruct (process_track_done now rd id o (set_track id t1 s0)) as (o1 & s1 & P). rewrite P.
  pose proof (spares_process _ _ _ _ _ _ _ P) as SP. apply (process_core _ _ _ _ _ _ _ t1) in P as [H1 C1]; [|apply lookup_insert_eq]. cbn in H1, C1.
  assert (core <$> b_tracks s1 = <[id := core (after_beat now sched rd t)]> (core <$> b_tracks s)) as C.
  { rewrite C1, fmap_insert, insert_insert_eq. done. }
  assert (∃ t2, b_tracks s1 !! id = Some t2 ∧ core t2 = core (after_beat now sched rd t)) as (t2 & L2 & E2).
  { apply (f_equal (lookup id)) in C. rewrite lookup_fmap, lookup_insert_eq in C. by apply fmap_Some in C as (t2 & ? & ?); exists t2. }
  unfold rearm. rewrite L2. assert (tr_clock t2 = tr_clock t) as -> by exact (f_equal tr_clock E2). rewrite NEXT.
  exists o1. eexists. split; [done|]. cbn. rewrite H1. split; [done|]. split.
  - rewrite fmap_insert, C, insert_insert_eq. f_equal. exact (f_equal (λ t, t <| tr_clock := k |>) E2).
  - intros i NE. cbn. rewrite lookup_insert_ne by done. etransitivity; [by apply SP|]. cbn. by rewrite lookup_insert_ne.
Qed.
Lemma fire_metronome cf now rd at_ id g o s t period :
  b_tracks s !! id = Some t → tr_playing t = true → tr_generation t = g → tr_clock t = clock_system period →
  ∃ o' s', fire_entry cf now rd (at_, id, g) o s = Done (o', s') ∧
    b_heap s' = (grid_instant period at_ now + period, id, g) :: heap_remove (at_, id, g) (b_heap s) ∧
    core <$> b_tracks s' = <[id := core (after_beat now (grid_instant period at_ now) rd t)]> (core <$> b_tracks s).
Proof.
  intros L PLAY GEN CLK. destruct (fire_live cf now rd at_ id g o s t (grid_instant period at_ now + period) (clock_system period) L PLAY GEN)
    as (o' & s' & F & HP & C & _); [by rewrite CLK|]. rewrite CLK in C. exists o', s'. repeat split; [done..|]. rewrite C. f_equal.
  unfold core. cbn. by rewrite CLK.
Qed.

(** *** The turns of a wake-up *)

Definition gear (t : TrackState) : bool * Z * ClockSourceKind := (tr_playing t, tr_generation t, tr_clock t).
Definition gears s : gmap TrackId (bool * Z * ClockSourceKind) := gear <$> b_tracks s.

(** How many turns of the loop a pending wake-up and those it leads to can take. *)
Definition turns (now : Instant) (gs : gmap TrackId (bool * Z * ClockSourceKind)) (e : HeapEntry) : nat :=
  if now <? e.1.1 then 0
  else match gs !! e.1.2 with
       | Some (playing, g, k) =>
           if playing && (e.2 =? g) then
             if clock_period k * 2 <? now - e.1.1 then 1 else S (Z.to_nat ((now - e.1.1) / clock_period k))
           else 1
       | None => 1
       end.
Definition all_turns now gs (h : list HeapEntry) : nat := sum_list (turns now gs <$> h).

(** Every track is on a clock of the kernel's own with a period. *)
Definition metronomes s : Prop := ∀ id t, b_tracks s !! id = Some t → ∃ period, 0 < period ∧ tr_clock t = clock_system period.

Lemma gears_beat s s' id t t' :
  core <$> b_tracks s' = <[id := core t']> (core <$> b_tracks s) → b_tracks s !! id = Some t → gear t' = gear t → gears s' = gears s.
Proof.
  intros E L G. apply (f_equal (fmap gear)) in E. rewrite fmap_insert, <- !map_fmap_compose in E.
  unfold gears. etransitivity; [exact E|]. change (gear ∘ core) with gear. apply insert_id. rewrite lookup_fmap, L. cbn. f_equal. symmetry. exact G.
Qed.
Lemma metronomes_gears s s' : gears s' = gears s → metronomes s → metronomes s'.
Proof.
  intros E ME id t L. assert (gears s !! id = Some (gear t)) as G by (rewrite <- E; unfold gears; by rewrite lookup_fmap, L).
  unfold gears in G. rewrite lookup_fmap in G. apply fmap_Some in G as (t0 & L0 & G). injection G as _ _ ->. by apply (ME id).
Qed.

Lemma turns_bound now gs e : (∀ g, gs !! e.1.2 = Some g → 0 < clock_period g.2) → (turns now gs e ≤ 3)%nat.
Proof.
  intros POS. unfold turns. case_match; [lia|]. destruct (gs !! e.1.2) as [[[playing g] k]|]; [|lia].
  specialize (POS _ eq_refl). cbn in POS. case_match; [|lia]. case_match; [lia|].
  assert ((now - e.1.1) / clock_period k ≤ 2); [|lia]. apply Z.div_le_upper_bound; lia.
Qed.
Lemma all_turns_bound now s : metronomes s → (all_turns now (gears s) (b_heap s) ≤ 3 * length (b_heap s))%nat.
Proof.
  intros ME. unfold all_turns. induction (b_heap s) as [|e h IH]; [done|]. cbn.
  assert (turns now (gears s) e ≤ 3)%nat; [|lia]. apply turns_bound. intros g. unfold gears. rewrite lookup_fmap.
  intros (t & L & ->)%fmap_Some. cbn. destruct (ME _ _ L) as (p & ? & ->). done.
Qed.

Lemma grid_turns now gs period at_ id g :
  at_ ≤ now → 0 < period → gs !! id = Some (true, g, clock_system period) →
  (turns now gs ((grid_instant period at_ now + period)%Z, id, g) < turns now gs (at_, id, g))%nat.
Proof.
  intros DUE POS L. unfold turns, grid_instant, GRID_RESEED_AFTER_PERIODS. cbn [fst snd]. rewrite L, Z.eqb_refl. cbn.
  rewrite Z.max_r by lia. destruct (now <? at_) eqn:E1; [lia|]. destruct (period * 2 <? now - at_) eqn:E2.
  - destruct (now <? now + period) eqn:E3; [lia|]. lia.
  - destruct (now <? at_ + period) eqn:E3; [lia|]. destruct (period * 2 <? now - (at_ + period)) eqn:E4; [lia|].
    replace (now - (at_ + period)) with (now - at_ + (-1) * period) by lia. rewrite Z.div_add by lia.
    assert (1 ≤ (now - at_) / period) by (apply Z.div_le_lower_bound; lia). lia.
Qed.

Lemma fire_entry_turn cf now rd e o s :
  e ∈ b_heap s → e.1.1 ≤ now → metronomes s →
  ∃ o' s', fire_entry cf now rd e o s = Done (o', s') ∧ gears s' = gears s ∧
    (all_turns now (gears s) (b_heap s') < all_turns now (gears s) (b_heap s))%nat.
Proof.
  intros IN DUE ME. assert (all_turns now (gears s) (b_heap s) =
    turns now (gears s) e + all_turns now (gears s) (heap_remove e (b_heap s)))%nat as SUM.
  { unfold all_turns. rewrite (heap_remove_perm _ _ IN) at 1. done. }
  destruct e as [[at_ id] g]. cbn in DUE.
  assert (1 ≤ turns now (gears s) (at_, id, g))%nat as ONE.
  { unfold turns. cbn. destruct (now <? at_) eqn:E; [lia|]. repeat case_match; lia. }
  set (s0 := (s <| b_heap := heap_remove (at_, id, g) (b_heap s) |>)).
  assert (all_turns now (gears s) (b_heap s0) < all_turns now (gears s) (b_heap s))%nat as LESS by (rewrite SUM; unfold s0; simpl b_heap; lia).
  destruct (b_tracks s !! id) as [t|] eqn:L.
  2: { exists o, s0. split; [|done]. unfold fire_entry. cbn [b_tracks]. fold s0. change (b_tracks s0) with (b_tracks s). by rewrite L. }
  destruct (negb (tr_playing t) || negb (g =? tr_generation t)) eqn:LIVE.
  { exists o, s0. split; [|done]. unfold fire_entry. cbn [b_tracks]. fold s0. change (b_tracks s0) with (b_tracks s). by rewrite L, LIVE. }
  apply orb_false_iff in LIVE as [PLAY%negb_false_iff GEN%negb_false_iff%Z.eqb_eq].
  destruct (ME _ _ L) as (period & POS & CLK).
  destruct (fire_metronome cf now rd at_ id g o s t period L PLAY (eq_sym GEN) CLK) as (o' & s' & -> & HP & C).
  exists o', s'. split; [done|]. split.
  - by apply (gears_beat s s' id t _ C L).
  - rewrite SUM, HP. unfold all_turns at 1. cbn [fmap list_fmap sum_list]. fold (all_turns now (gears s) (heap_remove (at_, id, g) (b_heap s))).
    assert (gears s !! id = Some (true, g, clock_system period)) as G by (unfold gears; rewrite lookup_fmap, L; cbn; unfold gear; congruence).
    pose proof (grid_turns now _ period at_ id g DUE POS G). unfold all_turns in *. cbn. lia.
Qed.

Lemma heap_peek_none (h : list HeapEntry) : heap_peek h = None → h = [].
Proof. destruct h as [|x h]; [done|]. cbn. by destruct (heap_peek h). Qed.

Lemma fire_loop_done fuel cf now clocks o s :
  (all_turns now (gears s) (b_heap s) < fuel)%nat → metronomes s →
  ∃ o' s', fire_loop fuel cf now clocks o s = Done (o', s') ∧ metronomes s' ∧
    match next_wake s' with Some at_ => now < at_ | None => b_heap s' = [] end.
Proof.
  revert o s. induction fuel as [|fuel IH]; intros o s LT ME; [lia|]. cbn [fire_loop].
  destruct (heap_peek (b_heap s)) as [e|] eqn:PK.
  2: { exists o, s. split; [done|]. split; [done|]. unfold next_wake. rewrite PK. by apply heap_peek_none. }
  destruct (now <? e.1.1) eqn:DUE.
  { exists o, s. split; [done|]. split; [done|]. unfold next_wake. rewrite PK. cbn. lia. }
  destruct (fire_entry_turn cf now (clocks fuel) e o s (heap_peek_elem _ _ PK) ltac:(lia) ME) as (o1 & s1 & -> & G & DEC).
  apply IH; [rewrite G; lia|by apply (metronomes_gears s)].
Qed.

(** C21: where every track keeps the kernel's own clock, with a period, and the engine
    always answers, a wake-up comes to an end: however late the scheduler is, three turns of
    the loop for each pending wake-up and one more are enough, and then nothing is pending
    that is due. (The search for the next beat of a clock that follows a master need not
    end: [estimate_hangs].) *)
Theorem fire_due_ends fuel cf now clocks s :
  (3 * length (b_heap s) < fuel)%nat → metronomes s →
  ∃ o s', fire_due fuel cf now clocks s = Done (o, s') ∧ metronomes s' ∧
    match next_wake s' with Some at_ => now < at_ | None => b_heap s' = [] end.
Proof.
  intros LT ME. apply fire_loop_done; [|done]. pose proof (all_turns_bound now s ME). lia.
Qed.

(** C22: a beat of a playing track stays on the grid of its clock, whichever that is: served
    at most two periods late, it counts as served at the instant it was due, and the next
    one is what the clock makes of that instant (for the kernel's own clock, a period
    later), not of the instant it was served; its epoch is back-dated by the lateness. A
    beat served later starts the grid afresh. Either way the track's playhead moves on by
    one beat, its clock and transport are otherwise as before, and every other track is
    the same. The engine answers, and the clock finds a next beat ([estimate_hangs]). *)
Theorem beat_on_grid cf now rd id at_ o s t next k :
  b_tracks s !! id = Some t → tr_playing t = true → at_ ≤ now →
  let sched := if now - at_ <=? clock_period (tr_clock t) * 2 then at_ else now in
  next_fire cf sched sched (tr_clock t) = Done (next, k) →
  ∃ o' s' t', fire_entry cf now rd (at_, id, tr_generation t) o s = Done (o', s') ∧
    b_heap s' = (next, id, tr_generation t) :: heap_remove (at_, id, tr_generation t) (b_heap s) ∧
    b_tracks s' !! id = Some t' ∧ core t' = core (after_beat now sched rd t <| tr_clock := k |>) ∧
    (∀ i, i ≠ id → b_tracks s' !! i = b_tracks s !! i) ∧
    ∀ period, tr_clock t = clock_system period → next = sched + period ∧ k = tr_clock t.
Proof.
  intros L PLAY DUE sched NEXT.
  assert (grid_instant (clock_period (tr_clock t)) at_ now = sched) as G.
  { unfold grid_instant, sched, GRID_RESEED_AFTER_PERIODS. rewrite Z.max_r by lia.
    destruct (clock_period (tr_clock t) * 2 <? now - at_) eqn:E1, (now - at_ <=? clock_period (tr_clock t) * 2) eqn:E2; lia. }
  destruct (fire_live cf now rd at_ id _ o s t next k L PLAY eq_refl) as (o' & s' & F & HP & C & SP); [by rewrite G|].
  rewrite G in C. pose proof (f_equal (lookup id) C) as CI. rewrite lookup_fmap, lookup_insert_eq in CI.
  apply fmap_Some in CI as (t' & L' & E'). exists o', s', t'. repeat split; try done.
  all: rename H into CLK; rewrite CLK in NEXT; cbn in NEXT; injection NEXT as <- <-; by rewrite ?CLK.
Qed.
End answers.

(** ** A cell that cannot be materialized *)

Definition pass_over (t : TrackState) : TrackState :=
  t <| tr_cursor := {| mk_high_water := S (mk_high_water (tr_cursor t)); mk_artifacts_done := 0; mk_source_block_id := None |} |>
    <| tr_materialize_failures := 0 |>.

(** The conversation that is told of a cell of a track: that of a context on the track whose
    player played it; failing that, of the only context on the track; failing that, the score. *)
Definition nobody_of (t : TrackState) (p : PrincipalId) : Prop :=
  ∀ c ac, tr_attached t !! c = Some ac → ac_producer_principal ac ≠ Some p.
Inductive told_in (t : TrackState) : option PrincipalId → ContextId → Prop :=
  | told_unknown : told_in t None (tr_score_context t)
  | told_player p c ac : tr_attached t !! c = Some ac → ac_producer_principal ac = Some p → told_in t (Some p) c
  | told_alone p c : nobody_of t p → dom (tr_attached t) = {[c]} → told_in t (Some p) c
  | told_score p : nobody_of t p → size (tr_attached t) ≠ 1%nat → told_in t (Some p) (tr_score_context t).

Lemma attached_elem t c : c ∈ walk_contexts (map_to_list (tr_attached t)).*1 ↔ c ∈ dom (tr_attached t).
Proof. apply walk_contexts_elem. Qed.
Lemma attached_alone t c : head (walk_contexts (map_to_list (tr_attached t)).*1) = Some c → size (tr_attached t) = 1%nat →
  dom (tr_attached t) = {[c]}.
Proof.
  intros HD%head_Some_elem_of%attached_elem ONE. symmetry. apply (set_subseteq_size_eq (C := gset ContextId)); [set_solver|].
  by rewrite size_dom, ONE, size_singleton.
Qed.
Lemma attached_head t : size (tr_attached t) = 1%nat → is_Some (head (walk_contexts (map_to_list (tr_attached t)).*1)).
Proof.
  intros ONE. destruct (walk_contexts _) as [|c l] eqn:E; [|by eexists]. exfalso.
  pose proof (walk_contexts_all (map_to_list (tr_attached t)).*1) as PERM%Permutation_length. rewrite E, length_fmap in PERM. cbn in PERM.
  rewrite length_map_to_list in PERM. lia.
Qed.

Lemma producer_told id t (cell : option Cell) s :
  b_tracks s !! id = Some t →
  told_in t (played_by <$> cell) (default (tr_score_context t) (cell ← cell; producer_ctx_for id (played_by cell) s)).
Proof.
  intros L. destruct cell as [cell|]; cbn; [|constructor]. unfold producer_ctx_for. rewrite L. cbn.
  set (playing := filter _ _). destruct (head playing) as [c|] eqn:HD.
  { apply head_Some_elem_of, list_elem_of_filter in HD as [HD _]. cbn. apply bind_Some in HD as (ac & LA & P). by eapply told_player. }
  apply head_None in HD. assert (nobody_of t (played_by cell)) as NO.
  { intros c ac LA P. apply (not_elem_of_nil c). rewrite <- HD. apply list_elem_of_filter. rewrite LA, attached_elem, elem_of_dom.
    split; [done|by eexists]. }
  destruct (size (tr_attached t) =? 1)%nat eqn:ONE; cbn.
  - apply Nat.eqb_eq in ONE. destruct (attached_head t ONE) as [c HDC]. rewrite HDC. cbn. apply told_alone; [done|]. by apply attached_alone.
  - apply told_score; [done|]. by apply Nat.eqb_neq.
Qed.

Lemma told_same t t' by_ c :
  tr_attached t' = tr_attached t → tr_score_context t' = tr_score_context t → told_in t by_ c → told_in t' by_ c.
Proof.
  intros A S TOLD. destruct TOLD as [|p c ac LA P|p c NO ALONE|p NO SIZE].
  - rewrite <- S. constructor.
  - rewrite <- A in LA. by eapply told_player.
  - apply told_alone; [|by rewrite A]. intros c0 ac. rewrite A. apply NO.
  - rewrite <- S. apply told_score; [|by rewrite A]. intros c0 ac. rewrite A. apply NO.
Qed.

(** What is said of a cell that is passed over, and where. *)
Definition told_of id t (e : w_error (W := W)) (w w' : W) : Prop :=
  ∃ target, told_in t (played_by <$> w_cell id (mk_high_water (tr_cursor t)) w) target ∧
    let payload := {|
      err_category := ECKernel; err_severity := SevError; err_code := None;
      err_detail := Some ("a committed phrase could not be materialized after 3 attempts and was skipped: " +:+ w_error_text e);
      err_span := None; err_source_kind := None |} in
    w' = match w_last_block_id target w with
         | Some anchor => w_insert_error target anchor payload (error_summary_line payload) principal_beat w
         | None => w
         end.

Lemma surface_poison_told id t e s :
  b_tracks s !! id = Some (pass_over t) →
  told_of id t e (b_world s) (b_world (surface_poison id (tr_score_context t) (mk_high_water (tr_cursor t)) e s)).
Proof.
  intros L. eexists. split.
  - apply (told_same (pass_over t)); [done..|].
    exact (producer_told id _ (w_cell id (mk_high_water (tr_cursor t)) (b_world s)) s L).
  - cbn zeta. unfold surface_poison, surface. change (pretty MATERIALIZE_RETRY_BUDGET) with "3". cbn [tr_score_context pass_over].
    by destruct (w_last_block_id _ _).
Qed.

Lemma materialize_refused id playhead rd s t w e w' :
  b_tracks s !! id = Some t → w_armed id (b_world s) = true → w_pull_timeline id playhead (b_world s) = Done w →
  w_materialize_committed id (tr_score_context t) (tr_cursor t) w = Done (Err e, tr_cursor t, w') →
  0 ≤ tr_materialize_failures t < MATERIALIZE_RETRY_BUDGET →
  ∃ s', materialize_track id playhead rd s = Done s' ∧
    if MATERIALIZE_RETRY_BUDGET <=? tr_materialize_failures t + 1 then
      b_tracks s' !! id = Some (pass_over t) ∧ told_of id t e w' (b_world s')
    else
      b_tracks s' !! id = Some (t <| tr_materialize_failures := tr_materialize_failures t + 1 |>) ∧ b_world s' = w'.
Proof.
  intros L ARM PULL MAT RANGE. unfold materialize_track. rewrite L, ARM, PULL, MAT. cbn [negb].
  eexists. split; [reflexivity|]. unfold note_materialized. cbn zeta. rewrite Nat.ltb_irrefl.
  unfold trunc_u32, MATERIALIZE_RETRY_BUDGET in *. rewrite Z.mod_small by lia. unfold poison_action, MATERIALIZE_RETRY_BUDGET.
  destruct (3 <=? tr_materialize_failures t + 1).
  - match goal with |- context [surface_poison _ _ _ _ ?u] => set (s1 := u) end.
    assert (b_tracks s1 !! id = Some (pass_over t)) as L1 by (unfold s1; cbn; by rewrite lookup_alter_eq, L).
    split; [unfold surface_poison; by rewrite tracks_surface|]. exact (surface_poison_told id t e s1 L1).
  - cbn. rewrite lookup_alter_eq, L. split; [|done]. cbn. unfold core. by destruct t.
Qed.

(** C23: a cell that keeps being refused at the write barrier holds the score up for three
    passes and no more: on the third the cursor passes over it and the count of failures
    starts again. An error block that says so is put at the end of the conversation of the
    context on the track whose player played it, or of the only context on the track if that
    is not known, or of the score; if that conversation has no block to put it after, nothing
    is said. *)
Theorem poison_passed_over (stuck : W → Prop) id s t p1 p2 p3 rd1 rd2 rd3 :
  b_tracks s !! id = Some t → tr_materialize_failures t = 0 → stuck (b_world s) →
  (∀ w p, stuck w → w_armed id w = true ∧ ∃ w1 e w2, w_pull_timeline id p w = Done w1 ∧
     w_materialize_committed id (tr_score_context t) (tr_cursor t) w1 = Done (Err e, tr_cursor t, w2) ∧ stuck w2) →
  ∃ s1 s2 s3,
    materialize_track id p1 rd1 s = Done s1 ∧ materialize_track id p2 rd2 s1 = Done s2 ∧ materialize_track id p3 rd3 s2 = Done s3 ∧
    tr_cursor <$> b_tracks s1 !! id = Some (tr_cursor t) ∧ tr_cursor <$> b_tracks s2 !! id = Some (tr_cursor t) ∧
    b_tracks s3 !! id = Some (pass_over t) ∧
    ∃ w e, stuck w ∧ told_of id t e w (b_world s3).
Proof.
  intros L ZERO ST STUCK. destruct (STUCK _ p1 ST) as (A1 & w1 & e1 & w1' & PU1 & MA1 & ST1).
  destruct (materialize_refused id p1 rd1 s t w1 e1 w1' L A1 PU1 MA1 ltac:(rewrite ZERO; done)) as (s1 & M1 & C1).
  rewrite ZERO in C1. cbn in C1. destruct C1 as [L1 <-].
  destruct (STUCK _ p2 ST1) as (A2 & w2 & e2 & w2' & PU2 & MA2 & ST2).
  destruct (materialize_refused id p2 rd2 s1 _ w2 e2 w2' L1 A2 PU2 MA2 ltac:(done)) as (s2 & M2 & C2).
  cbn in C2. destruct C2 as [L2 <-].
  destruct (STUCK _ p3 ST2) as (A3 & w3 & e3 & w3' & PU3 & MA3 & ST3).
  destruct (materialize_refused id p3 rd3 s2 _ w3 e3 w3' L2 A3 PU3 MA3 ltac:(done)) as (s3 & M3 & C3).
  cbn in C3. destruct C3 as [L3 (target & TOLD & W3)]. exists s1, s2, s3. rewrite L1, L2. repeat split; try done.
  exists w3', e3. split; [done|]. exists target. split; [|exact W3]. by apply (told_same _ t) in TOLD.
Qed.

(** ** Clocks *)

Lemma next_after_future fuel m a from beat fire : next_after fuel m a from beat = Done fire → from < fire.
Proof.
  revert beat. induction fuel as [|fuel IH]; intros beat; [done|]. cbn. destruct (beat_instant m a beat) as [f|]; [|done].
  destruct (f <=? from) eqn:E; [apply IH|]. intros [= <-]. lia.
Qed.

(** A clock never asks to be woken in the past: the next beat of a track is after now,
    and, on a clock that follows a master, after the last beat too. *)
Theorem next_fire_future fuel last now k at_ k' :
  0 < clock_period k → next_fire fuel last now k = Done (at_, k') →
  now < at_ ∧ clock_period k' = clock_period k ∧ match k with CModeled m => mc_anchor m = None ∨ last < at_ | CSystem _ => True end.
Proof.
  intros POS. destruct k as [k|m]; cbn in *.
  - intros [= <- <-]. cbn. lia.
  - unfold modeled_next_fire. destruct (mc_anchor m) as [a|]; [|intros [= <- <-]; cbn; split; [lia|auto]].
    cbn zeta.
    set (m1 := if starving now m && negb (mc_warned_starving m) then (m <| mc_warned_starving := true |>) else m).
    set (from := if now <? last then last else now).
    destruct (next_after _ _ _ _ _) as [fire| |] eqn:N; [|done..]. intros [= <- <-]. apply next_after_future in N.
    cbn. split; [|split; [unfold m1; by case_match|right]]; unfold from in N; case_match; lia.
Qed.

(** ** Taking a track up again *)

Lemma from_persisted_row (k0 : ClockSourceKind) period :
  ∃ k', clock_from_persisted (kind_str k0) period = Some k' ∧ kind_str k' = kind_str k0 ∧ clock_period k' = period.
Proof. destruct k0 as [k|k]; [exists (clock_system period)|exists (clock_modeled period)]; by repeat split. Qed.

(** A track that is attached to after a restart is taken up from its row: same score,
    same kind of clock, same phrase length, no earlier than where it was; it is silent until
    it is played; its period is the persisted one to the millisecond below. *)
Theorem restart_track now id t policy log s :
  w_has_db (b_world s) = true → w_get_track id (b_world s) = Ok (Some (track_row id t)) →
  ∃ s' t', create_track now id policy log s = Some (Ok tt, s') ∧ b_tracks s' !! id = Some t' ∧
    tr_score_context t' = tr_score_context t ∧ kind_str (tr_clock t') = kind_str (tr_clock t) ∧
    tr_beats_per_phrase t' = tr_beats_per_phrase t ∧ tr_playing t' = false ∧
    tick_get (tr_playhead t') = Z.max (tick_get log) (tick_get (tr_playhead t)) ∧
    clock_period (tr_clock t) - 1000000 < clock_period (tr_clock t') ≤ clock_period (tr_clock t).
Proof.
  intros DB ROW. unfold create_track. rewrite (bind_ok m_get _ _ _ _ eq_refl), DB.
  assert (m_read (w_get_track id) ReadTrackFailed s = Some (Ok (Some (track_row id t)), s)) as R.
  { unfold m_read, m_world. rewrite ROW. by destruct s. }
  rewrite (bind_ok _ _ _ _ _ R). cbn zeta.
  destruct (from_persisted_row (tr_clock t) (clock_period (tr_clock t) / 1000000 * 1000000)) as (c' & FROM & KIND & PER).
  cbn [track_row pt_clock_kind pt_period_ms bp_period]. rewrite FROM, (bind_ok (m_ret _) _ _ _ _ eq_refl).
  cbn [track_row pt_score_context_id pt_playhead_tick mbind option_bind].
  rewrite (bind_ok (m_ret _) _ _ _ _ eq_refl), (bind_ok m_get _ _ _ _ eq_refl).
  destruct (w_arm_timeline _ _ _ _ _) as [restored w]. eexists _, _. split; [reflexivity|].
  split; [apply lookup_insert_eq|]. cbn. rewrite PER, KIND. repeat split; try done.
  - pose proof (Z.mod_pos_bound (clock_period (tr_clock t)) 1000000 ltac:(lia)).
    pose proof (Z.div_mod (clock_period (tr_clock t)) 1000000 ltac:(lia)). lia.
  - pose proof (Z.mod_pos_bound (clock_period (tr_clock t)) 1000000 ltac:(lia)).
    pose proof (Z.div_mod (clock_period (tr_clock t)) 1000000 ltac:(lia)). lia.
Qed.
End runs.

(** ** A small world *)

Module BeatDemo.
Import Concrete.Demo DemoBlock.

(** Rows of tracks; what was reported to whom; whether the write barrier refuses. *)
Record DemoWorld := {
  dw_db : bool; dw_rows : gmap TrackId PersistedTrack; dw_told : list (ContextId * string); dw_wedged : bool }.
#[export] Instance DemoWorld_settable : Settable DemoWorld := λ w, {|
  dw_db := dw_db w; dw_rows := dw_rows w; dw_told := dw_told w; dw_wedged := dw_wedged w |}.

Definition score : ContextId := {| context_uuid := 100 |}.
Definition first_block c : BlockId := {| context_id := c; principal_id := {| principal_uuid := 7 |}; seq := 0 |}.

#[export] Instance demo_world : World DemoWorld := {|
  w_error := string;
  w_error_text e := e;
  w_has_db := dw_db;
  w_max_tick _ _ := Ok None;
  w_block _ _ _ := None;
  w_block_snapshots _ _ := Ok [];
  w_insert_capture c _ _ _ _ _ w := (Ok (first_block c), w);
  w_last_block_id c _ := Some (first_block c);
  w_insert_error c _ _ summary _ w := w <| dw_told := (c, summary) :: dw_told w |>;
  w_set_excluded _ _ _ w := w;
  w_get_track id w := Ok (dw_rows w !! id);
  w_upsert_track row w := w <| dw_rows := <[pt_track_id row := row]> (dw_rows w) |>;
  w_upsert_attachment _ w := w;
  w_delete_attachment _ _ w := (Ok tt, w);
  w_list_attachments _ _ := Ok [];
  w_tombstone_track id w := (Ok (as_str id +:+ "~tombstone"), w <| dw_rows := delete id (dw_rows w) |>);
  w_hydration_backstop _ w := w;
  w_create_score _ w := (Ok score, w);
  w_arm_timeline _ _ _ _ w := (0%nat, w);
  w_disarm_timeline _ w := w;
  w_set_timeline_clock _ _ w := w;
  w_pull_timeline _ _ w := Done w;
  w_armed _ _ := true;
  w_materialize_committed _ _ k w := Done (if dw_wedged w then Err "no bytes" else Ok tt, k, w);
  w_cell _ _ _ := None;
  w_failures _ _ := [];
  w_retrieve _ _ := None;
  w_schedule_abc _ _ _ _ _ _ w := (Ok tt, w);
  w_beat_sync_subscribed _ := false;
  w_render_subscribed _ := false;
  w_window_start_ns _ := Ok 0;
  w_heard_json _ := "[]";
|}.
#[export] Instance demo_answers : WorldAnswers DemoWorld.
Proof. split; intros; by eexists. Qed.
#[export] Instance demo_walk : HashWalk := {| walk_contexts l := l; walk_tracks l := l |}.
#[export] Instance demo_walk_laws : HashWalkLaws.
Proof. by split. Qed.

Definition bass : TrackId := {| as_str := "bass" |}.
Definition player : ContextId := {| context_uuid := 1 |}.
Definition w0 : DemoWorld := {| dw_db := true; dw_rows := ∅; dw_told := []; dw_wedged := false |}.
Definition ms (n : Z) : Z := n * 1000000.
Definition clocks : nat → Readings := λ _, {| rd_wall := ms 10000; rd_now := ms 10000; rd_epoch := ms 10000 |}.
Definition attach_bass (at_ : Instant) : BeatEvent := Command at_ (Attach bass player musician_attachment musician_policy).

Definition after (e : BeatEvent) (s : BeatScheduler DemoWorld) : BeatScheduler DemoWorld := default s (on_beat_event 20 20 e s).
Definition b0 : BeatScheduler DemoWorld := beat_new w0.
Definition b1 := Eval vm_compute in after (attach_bass 0) b0.
Definition b2 := Eval vm_compute in after (Command 0 (Play bass)) b1.
Definition b3 := Eval vm_compute in after (Command (ms 100) (Stop bass)) b2.
Definition b4 := Eval vm_compute in after (Command (ms 200) (Play bass)) b3.
Definition b5 := Eval vm_compute in after (Wake (ms 600) clocks) b4.
Definition b6 := Eval vm_compute in after (Wake (ms 900) clocks) b5.

Lemma demo_event o e s s' : reached o s → on_beat_event 20 20 e s = Some s' → (o = true → admissible e s) → reached o s'.
Proof. intros R EV AD. exact (reach_event o 20 20 e s s' R AD EV). Qed.

Lemma reach_b4 o : reached o b4.
Proof.
  assert (reached o b1) as R1.
  { apply (demo_event o (attach_bass 0) b0); [constructor|by vm_compute|]. intros _ _ e IN. by apply elem_of_nil in IN. }
  assert (reached o b2) as R2.
  { apply (demo_event o (Command 0 (Play bass)) b1); [done|by vm_compute|]. intros _ t L. vm_compute in L. by injection L as <-. }
  assert (reached o b3) as R3 by (apply (demo_event o (Command (ms 100) (Stop bass)) b2); [done|by vm_compute|done]).
  apply (demo_event o (Command (ms 200) (Play bass)) b3); [done|by vm_compute|]. intros _ t L. vm_compute in L. by injection L as <-.
Qed.
Lemma reach_b6 o : reached o b6.
Proof.
  assert (reached o b5) as R5 by (apply (demo_event o (Wake (ms 600) clocks) b4); [apply reach_b4|by vm_compute|done]).
  apply (demo_event o (Wake (ms 900) clocks) b5); [done|by vm_compute|done].
Qed.

(** Stopped and played again within a beat: one beat at 700 ms, none at 500. *)
Example one_beat : b_heap b5 = [(ms 700, bass, 2)] ∧ b_heap b6 = [(ms 1200, bass, 2)] ∧
  (tr_beat_count <$> b_tracks b6 !! bass) = Some 1.
Proof. by vm_compute. Qed.

Lemma transport_refines_witness : ∃ w, rtc (desk_step (orderly := true)) (desk (beat_new (W := DemoWorld) w)) (desk b6).
Proof. exact (transport_refines true b6 (reach_b6 true)). Defined.

Lemma one_live_entry_witness :
  ∃ t, b_tracks b4 !! bass = Some t ∧ tr_generation t = 2 ∧ length (b_heap b4) = 2%nat ∧
       length (live_entries bass (tr_generation t) (b_heap b4)) = 1%nat.
Proof.
  eexists. split; [vm_compute; reflexivity|]. split; [reflexivity|]. split; [reflexivity|].
  apply (one_live_entry true b4 bass _ (reach_b4 true)); [vm_compute; reflexivity|reflexivity|reflexivity].
Defined.

Lemma bass_only (s : BeatScheduler DemoWorld) t : b_tracks s = {[bass := t]} → tr_clock t = clock_system (ms 500) → metronomes s.
Proof.
  intros E CLK id t' L. rewrite E in L. apply lookup_singleton_Some in L as [_ <-]. by exists (ms 500).
Qed.

Lemma fire_due_ends_witness :
  ∃ o s', fire_due 7 20 (ms 900) clocks b4 = Done (o, s') ∧ metronomes s' ∧
    match next_wake s' with Some at_ => ms 900 < at_ | None => b_heap s' = [] end.
Proof.
  apply (fire_due_ends 7 20 (ms 900) clocks b4); [vm_compute; lia|].
  eapply bass_only; [vm_compute; reflexivity|reflexivity].
Defined.

Lemma beat_on_grid_witness :
  ∃ o s' t', fire_entry 20 (ms 900) (clocks 0%nat) (ms 700, bass, 2) outcome_default b5 = Done (o, s') ∧
    b_heap s' = [(ms 1200, bass, 2)] ∧ b_tracks s' !! bass = Some t' ∧ tick_get (tr_playhead t') = 1 ∧
    tr_last_epoch_ns t' = ms 9800.
Proof.
  destruct (b_tracks b5 !! bass) as [t|] eqn:L; [|by vm_compute in L].
  assert (tr_playing t = true ∧ tr_clock t = clock_system (ms 500) ∧ tr_generation t = 2 ∧ tr_playhead t = Tick.ZERO) as (PLAY & CLK & GEN & HEAD).
  { vm_compute in L. by injection L as <-. }
  destruct (beat_on_grid 20 (ms 900) (clocks 0%nat) bass (ms 700) outcome_default b5 t (ms 1200) (clock_system (ms 500)) L PLAY ltac:(unfold ms; lia))
    as (o & s' & t' & F & HP & L' & C & _); [rewrite CLK; by vm_compute|].
  rewrite GEN in F, HP. exists o, s', t'. split; [exact F|]. split; [rewrite HP; by vm_compute|]. split; [exact L'|].
  split; [rewrite (f_equal tr_playhead C : tr_playhead t' = _); cbn; by rewrite HEAD|].
  rewrite (f_equal tr_last_epoch_ns C : tr_last_epoch_ns t' = _), CLK. by vm_compute.
Defined.

Definition wedged : BeatScheduler DemoWorld := b6 <| b_world := (b_world b6) <| dw_wedged := true |> |>.
Definition rd : Readings := clocks 0%nat.

Lemma poison_passed_over_witness :
  ∃ s1 s2 s3, materialize_track bass Tick.ZERO rd wedged = Done s1 ∧ materialize_track bass Tick.ZERO rd s1 = Done s2 ∧
    materialize_track bass Tick.ZERO rd s2 = Done s3 ∧ (mk_high_water ∘ tr_cursor <$> b_tracks s3 !! bass) = Some 1%nat.
Proof.
  destruct (b_tracks wedged !! bass) as [t|] eqn:L; [|by vm_compute in L].
  assert (tr_materialize_failures t = 0 ∧ mk_high_water (tr_cursor t) = 0%nat) as [ZERO WATER] by (vm_compute in L; by injection L as <-).
  destruct (poison_passed_over (λ w, dw_wedged w = true) bass wedged t Tick.ZERO Tick.ZERO Tick.ZERO rd rd rd L ZERO eq_refl)
    as (s1 & s2 & s3 & M1 & M2 & M3 & _ & _ & L3 & _).
  - intros w p ST. split; [done|]. exists w, "no bytes", w. cbn. by rewrite ST.
  - exists s1, s2, s3. repeat split; try done. rewrite L3. cbn. by rewrite WATER.
Defined.
(** What the score's conversation is told. *)
Example poison_told :
  match materialize_track bass Tick.ZERO rd wedged with
  | Done s1 => match materialize_track bass Tick.ZERO rd s1 with
    | Done s2 => match materialize_track bass Tick.ZERO rd s2 with
      | Done s3 => (dw_told (b_world s1), dw_told (b_world s2), dw_told (b_world s3)) = ([], [],
          [(score, "kernel error: a committed phrase could not be materialized after 3 attempts and was skipped: no bytes")])
      | _ => False end
    | _ => False end
  | _ => False end.
Proof. by vm_compute. Qed.

(** An event 9.8 seconds before the track's last beat, at 500 ms a beat. *)
Lemma capture_one_grid_witness :
  ∃ t beats, b_tracks b6 !! bass = Some t ∧ tr_last_epoch_ns t = ms 9800 ∧
    rounds_to (f64_div (f64_of_Z (- ms 9800)) (f64_of_Z (ms 500))) beats ∧
    (w_insert_capture (tr_score_context t) (Tick.add (tr_playhead t) (TickDelta.new beats)) bass {| principal_uuid := 7 |} [] {|
       qz_anchor_epoch_ns := ms 9800; qz_anchor_tick := 1; qz_period_ns := ms 500; qz_ticks_per_beat := 1;
       qz_rolling := true |} (b_world b6)).1 = Ok (first_block score).
Proof.
  assert (commit_capture player [] {| principal_uuid := 7 |} b6 = Some (Ok (first_block score), b6)) as E by (vm_compute; reflexivity).
  destruct (capture_one_grid b6 player [] _ _ _ (reach_b6 false) E) as (id & t & ns & tick & A & B & C & TICK & D).
  assert (b_context_track b6 !! player = Some bass) as A' by (vm_compute; reflexivity). rewrite A' in A. injection A as <-.
  injection C as <-.
  assert ((λ t, (tr_playing t, tr_last_epoch_ns t, clock_period (tr_clock t), tick_get (tr_playhead t))) <$> b_tracks b6 !! bass
          = Some (true, ms 9800, ms 500, 1)) as F by (vm_compute; reflexivity).
  rewrite B in F. cbn [fmap option_fmap option_map] in F. injection F as PLAY EPOCH PERIOD HEAD.
  cbn zeta in TICK, D. rewrite PLAY, EPOCH, PERIOD in TICK, D. rewrite HEAD in D.
  destruct TICK as (beats & ROUNDS & ->). exists t, beats. exact (conj B (conj EPOCH (conj ROUNDS D))).
Defined.
Example captured_beat : f64_round_i64 (f64_div (f64_of_Z (- ms 9800)) (f64_of_Z (ms 500))) = -20.
Proof. by vm_compute. Qed.

(** At 128 beats a minute the period is not a whole number of milliseconds. *)
Definition b7 : BeatScheduler DemoWorld := Eval vm_compute in after (Command 0 (SetTempo bass 468750000)) b6.
Definition restarted : BeatScheduler DemoWorld := after (attach_bass 0) (beat_new (b_world b7)).
Example tempo_truncated :
  ((λ t, clock_period (tr_clock t)) <$> b_tracks b7 !! bass) = Some 468750000 ∧
  ((λ t, clock_period (tr_clock t)) <$> b_tracks restarted !! bass) = Some 468000000.
Proof. by vm_compute. Qed.

Lemma restart_track_witness :
  ∃ s' t', create_track 0 bass musician_policy Tick.ZERO (beat_new (b_world b7)) = Some (Ok tt, s') ∧ b_tracks s' !! bass = Some t' ∧
    tick_get (tr_playhead t') = 1 ∧ tr_playing t' = false.
Proof.
  destruct (b_tracks b7 !! bass) as [t|] eqn:L; [|by vm_compute in L].
  assert (w_has_db (b_world b7) = true) as DB by (vm_compute; reflexivity).
  destruct (restart_track 0 bass t musician_policy Tick.ZERO (beat_new (b_world b7)) DB) as (s' & t' & C & L' & _ & _ & _ & OFF & HEAD & _).
  - vm_compute in L. injection L as <-. by vm_compute.
  - exists s', t'. repeat split; try done. rewrite HEAD. vm_compute in L. by injection L as <-.
Defined.

(** A track that is deleted leaves its wake-up behind; made anew, it starts again from
    generation 0, so the wake-up of the deleted track beats for the new one. *)
Definition no_db : DemoWorld := {| dw_db := false; dw_rows := ∅; dw_told := []; dw_wedged := false |}.
Definition recreated : BeatScheduler DemoWorld :=
  after (Command (ms 100) (Play bass)) (after (attach_bass (ms 50)) (after (Command (ms 10) (Delete bass))
    (after (Command 0 (Play bass)) (after (attach_bass 0) (beat_new no_db))))).
Example recreated_beats_twice :
  live_entries bass 1 (b_heap recreated) = [(ms 600, bass, 1); (ms 500, bass, 1)] ∧
  (tr_beat_count <$> b_tracks (after (Wake (ms 700) clocks) recreated) !! bass) = Some 2.
Proof. by vm_compute. Qed.

(** An estimate whose beat is as large as floating point numbers are far apart: the next
    beat is the same beat, and the search for one that is later does not end. *)
Definition far_beat : f64 := f64_of_Z 9007199254740992.
Definition far_anchor : ModelAnchor := {| an_at := 0; an_beat := far_beat; an_applied_at := 0 |}.
Definition far_clock : ModeledClock :=
  {| mc_period := ms 500; mc_anchor := Some far_anchor; mc_warned_starving := false |}.
Example estimate_far : apply_estimate far_beat (f64_of_Z 2) 0 (modeled_new (ms 500)) = Some far_clock.
Proof. by vm_compute. Qed.

Lemma far_search fuel : next_after fuel far_clock far_anchor 0 far_beat = OutOfFuel.
Proof.
  induction fuel as [|fuel IH]; [done|]. cbn [next_after].
  assert (beat_instant far_clock far_anchor far_beat = Some 0) as -> by (vm_compute; reflexivity).
  assert (f64_add far_beat f64_1 = far_beat) as -> by (vm_compute; reflexivity). exact IH.
Qed.
Example estimate_hangs (fuel : nat) : next_fire fuel 0 0 (CModeled far_clock) = OutOfFuel.
Proof.
  unfold next_fire, modeled_next_fire. cbn [mc_anchor far_clock].
  assert (f64_add (f64_floor (beat_at far_clock far_anchor 0)) f64_1 = far_beat) as E by (vm_compute; reflexivity).
  change (starving 0 far_clock && negb (mc_warned_starving far_clock)) with false. cbn [Z.ltb Z.compare]. 
  by rewrite E, far_search.
Qed.
End BeatDemo.
